(* ===== verification/_CoqProject ===== *)
-Q . S2P
Prelude.v
Ascii.v
Utf8.v
Base64.v
UrlCodec.v
Numbers.v
Xml.v
Text.v
JsUnicode.v
Time.v
Calendar.v
TimeFormat.v
Radix.v
CommonDecimal.v
SimpleDecimal.v
Crc.v
SubString.v
TextTemplate.v
Url.v
HttpAddress.v
Cookie.v
CookieProps.v
CookieLists.v
CookieJar.v
Punycode.v
Decimal.v
DecimalPower.v
DecimalText.v
DecimalMul.v
DecimalDiv.v
CompressedSet.v
Analyzer.v
AnalyzerGraph.v
AnalyzerText.v
AnalyzerRun.v
AnalyzerSpan.v
AnalyzerSpec.v
BoundedMap.v
BoundedMapRep.v
BoundedMapProps.v
BlockFile.v
BlockStore.v
BlockRep.v
StoreLogic.v
BlockData.v
KeyIndex.v
KeyRep.v
KeyLoad.v
PlainMap.v
PlainMapRep.v
PlainMapOpen.v
PlainMapNew.v
PlainMapSpec.v
ActiveObject.v
TaskRunner.v
Scheduler.v
