(* ===== verification/Prelude.v ===== *)
(** * UnixCommons: a verification of its core library

    UnixCommons ([src/src]) is a C++ library for server programs: strings and
    their encodings ([String]), times, numbers, containers and threads
    ([Generics]), with wrappers of system facilities around them ([Sync],
    [Stream], [Logger], [HTTP], [PlainStorage], [CORBA] and others). This
    development models the parts that carry logic of their own, in [String],
    [Generics], [HTTP] and [PlainStorage], as executable definitions, and proves
    what makes them correct.

    ** Files

    Each file models one component, with the names of the source.

    - [Prelude] (this file): the results of C++ functions ([outcome]: a value, an
      exception, or undefined behaviour), machine integers ([wrapu], [wraps], [u8]
      ... [s64], [IntType] for the templates over integer types), buffers ([rd],
      [wr], [upd]), bytes, literals, and the tactics and hints shared by all
      files.
    - [Ascii]: [String/AsciiStringManip]. Case and character tables, category
      searches, [flatten], caseless comparison, hexadecimal digits.
    - [Utf8]: [String/UTF8Handler.hpp], [String/UnicodeSymbol.hpp] and the wide
      string conversions of [String/StringManip].
    - [Base64], [UrlCodec], [Xml], [Numbers], [Text]: the codecs, the integer
      conversions, the bounded copies and the editing functions of
      [String/StringManip] ([.cpp], [.ipp], [.tpp]).
    - [JsUnicode]: [js_unicode_encode] and [js_unicode_decode] of
      [String/StringManip.cpp].
    - [TextTemplate]: [String/TextTemplate]: templates, and the suppliers of
      values with their encoders.
    - [Analyzer]: [String/Analyzer] and [BasicAnalyzer]: the translator of brief
      descriptions of lexemes. [AnalyzerText] says what a description means,
      [AnalyzerGraph] what a graph of nodes does; [AnalyzerRun], [AnalyzerSpan]
      and [AnalyzerSpec] prove that the graph built for a text does what the text
      means.
    - [Time], [Calendar], [TimeFormat]: [Generics/Time.hpp] and [Time.cpp]:
      arithmetic on times and timers, the conversions between seconds and
      broken-down time, the interpreter of time formats.
    - [CommonDecimal]: the helpers of [Generics/CommonDecimal.hpp] and [.cpp];
      [Radix]: numbers as lists of digits in a base.
    - [SimpleDecimal]: [Generics/SimpleDecimal], fixed-point decimals in one
      machine word.
    - [Decimal], [DecimalPower], [DecimalText], [DecimalMul], [DecimalDiv]:
      [Generics/Decimal], fixed-point decimals of any size: the class, its texts,
      its multiplication and its long division. The class is parametrised by the
      ranks ([DecimalRanks]), so the theorems hold for every instance.
    - [Crc]: [Generics/CRC], both table-driven CRC-32 routines.
    - [SubString]: [String/SubString.tpp], [SubStringFind.tpp],
      [SubStringExternal.tpp], [Tokenizer.hpp]: windows on texts.
    - [Url], [HttpAddress]: [HTTP/UrlAddress.cpp]: splitting, checking and fixing
      URLs, and the objects that hold one.
    - [Cookie], [CookieProps], [CookieLists], [CookieJar]: [HTTP/HTTPCookie.cpp]:
      the lists of cookies of clients and servers; the headers they write and
      read; what they keep and send; a list as a map from keys to cookies.
    - [Punycode]: [punycode_encode] and [punycode_decode] of
      [String/StringManip.cpp].
    - [CompressedSet]: [Generics/CompressedSet.hpp], a set of integers as a map of
      intervals.
    - [BoundedMap], [BoundedMapRep], [BoundedMapProps]: [Generics/BoundedMap.hpp],
      a cache bounded by the sizes of its items: the class and its abstract
      specification, their refinement, and what a cache keeps, evicts and counts.
    - [BlockFile], [BlockStore], [KeyIndex], [PlainMap]: [PlainStorage], a map
      from keys to data in a file: the file as an array of blocks, the allocator
      with the readers and writers of chains ([Map.cpp]), the records of the keys
      ([DefaultSyncIndexStrategy.tpp]), and the map ([Map.tpp]). [BlockRep],
      [BlockData], [KeyRep], [KeyLoad], [PlainMapRep], [PlainMapOpen],
      [PlainMapNew] prove what each operation does to the lists of blocks, of keys
      and of writers that a file stands for; [StoreLogic]: what operations keep
      whatever their result; [PlainMapSpec]: the specification.
    - [ActiveObject]: [SimpleActiveObject] of [Generics/ActiveObject.cpp] and
      [Generics/CompositeActiveObject.hpp]. The interface of active objects is a
      class; composites are proved against its laws and satisfy them.
    - [TaskRunner]: [Generics/TaskRunner.cpp] with [ActiveObjectCommonImpl] and
      [Generics/ThreadRunner.cpp], all interleavings of its threads.
    - [Scheduler]: [Generics/Scheduler.cpp], the planner and its thread.

    ** How the code is modelled

    - A string or a buffer is the list of its cells. A function that reads through
      a pointer takes the cells from the pointer to the end of the buffer, and a
      read or write outside is [Undef]; so a theorem that gives a result [Ret] or
      [Throw] also says that the code stays inside its buffers there. Exceptions
      are values of [exn].
    - Integers are [Z], wrapped where the source's type wraps. Bit operations are
      those of [Z].
    - Tables are the tables of the source, cell by cell.
    - [std::map] is a list sorted by key, with iterators that dangle when their
      element is erased ([CompressedSet]).
    - Threads interleave at mutexes, semaphores and condition variables: an action
      is what one thread does between two of these points, its function gives the
      next state when it is enabled, and the reachable states are those of every
      sequence of enabled actions ([TaskRunner], [Scheduler]). Invariants are
      proved by induction on reachability.
    - What comes from outside is an argument: the clock, the results of
      [pthread_create] and of waits, [mktime] and [localtime_r], the virtual
      functions of derived classes.

    ** What the theorems show

    The theorems that state the properties carry the numbers C1, C2, ... in their
    comments; a lemma whose name ends in [_witness] applies one to a concrete
    input.

    - Validation: UTF-8 checking accepts exactly the well-formed texts without
      4-octet sequences; for these what it accepts is stated exactly (C1).
    - Round trips: base64, MIME URL, XML, JavaScript codes, punycode, wide
      strings, decimals, formatted and broken-down times (C2, C5, C6, C12, C23,
      C36).
    - Exactness of arithmetic and of number parsing, with every overflow and
      rounding branch: integers (C3), decimals (C4), decimals of any size (C7-C9).
    - Types: every decimal that the constructors and operations make is well
      formed (C10).
    - Texts: tokens (C40), the texts that are decimals (C11), templates and what
      their keys mean (C34, C35), the lexemes of brief descriptions and what an
      illegal symbol does to them (C32, C33).
    - URLs: splitting is the inverse of the recomposition of RFC 3986 (C21), the
      checker accepts the grammar (C22), addresses keep an invariant, are what
      their URL, their parts and their full view parse to, and agree with the
      checker (C20, C24, C25).
    - Equivalence with a reference definition: CRC against polynomial division bit
      by bit (C13), the interval set against the set of its values (C26).
    - Cookies: a header sets one entry of a map (C30), keys stay unique (C29), the
      attributes decide what is sent (C28), and cookies come back to the server
      that set them (C27).
    - Caches: the class implements a list in order of recency (C15); it evicts
      outdated items only, least recent first (C16), treats its own key as
      documented, keeps its bound (C17) and its statistics (C18).
    - Files: a map in a file is a map from keys to what was written last, and
      closing and opening the file changes nothing (C31).
    - Active objects: a composite moves its children together and in order (C39).
    - Threads: tasks are executed once and leave in order (C19), no wake-up is
      lost and a shutdown ends (C14); the planner delivers each message once, when
      due (C38), and never sleeps past one (C37).

    Where the code does not do what it is meant to, the theorem states what it
    does, and an example shows the case.

    ** Fuel

    A loop that is not structural takes fuel, and the function that calls it gives
    enough: the length of the remaining input plus one for the scanning loops of
    [Ascii], [Utf8], [Base64], [UrlCodec], [Xml], [Text] and [TimeFormat], which
    consume a cell per turn; 256 for the loop over a range of characters; the
    number of blocks of the file for the chains of [BlockStore] and [KeyIndex],
    whose blocks are distinct; the number of intervals for [CompressedSet.add] and
    twice that plus two for its [remove]; the number of digits for conversions;
    for the loops of [Url] the length of the text; three turns for the guess of an
    element of a quotient, since the divisor is scaled; 32 digits for a number of
    punycode and 32 turns for its bias, which is divided by 35 in each. Texts of
    URLs are shorter than [MAX_URL], 2^58, so that sizes do not wrap around; those
    given to punycode keep within [MAX_DELTA], so that [int] does not overflow.
    The loops of [Analyzer] that read have the number of cells left plus two, its
    graph as many levels as nodes. In functions with an [outcome] running out of
    fuel is [Undef], so the theorems that give a result also show that the loop
    ends; for the others a lemma shows that the result does not depend on the fuel
    once it is enough. [TaskRunner] has no fuel: [potential] bounds the number of
    actions of threads left alone.

    ** Not modelled

    [RegEx] and [Language] (third-party libraries), the generated Unicode tables,
    floating point conversions, [iostream] operators, destructors, errors of
    [pthread] calls other than [pthread_create], and the directories that wrap
    system services. [Splitter] is modelled for categories of one-octet
    characters, which cannot fail. [BrowserAddress] and its IDNA conversions rest
    on the Unicode tables. *)

From Stdlib Require Import ZArith List Bool Lia Ascii String.
Import ListNotations.
Export Ascii.AsciiSyntax String.StringSyntax.
#[global] Open Scope Z_scope.

(** ** Results of C++ functions

    A call returns a value, throws one of the library's exceptions, or does
    something the C++ standard leaves undefined (a read outside the buffer the
    pointer comes from, a failed [assert]).  The three are kept apart, so that
    "does not read out of range" and "throws exactly when" are statements of
    the model. *)

Inductive exn : Type :=
| InvalidFormatException
| RangeException
| OutOfRange
| LogicError
| Overflow
| NotNumber
| SignException
| InvalidArgument
| TimeException
| AlreadyActive
| ActiveObjectException
| InvalidURL
| IDNAError
| PosixException
| ResizeFailure
| AllocationFailed
| DeallocationFailed
| BufferExhausted
| ReadFailed
| WriteFailed
| FileFormatError
| StrategyException
| LoadIndexFail
| LoadFailed
| CorruptedFile
| CreationFailed
| UnknownName
| InvalidTemplate
| TextTemplException
| AnalyzerException
| NoncriticalException
| BasicAnalyzerException
| BadAlloc.

Inductive outcome (A : Type) : Type :=
| Ret (a : A)
| Throw (e : exn)
| Undef.
Arguments Ret {A} a.
Arguments Throw {A} e.
Arguments Undef {A}.

Lemma Ret_inj {A} (a b : A) : Ret a = Ret b -> a = b.
Proof. now intros [=]. Qed.

Definition bind {A B} (c : outcome A) (k : A -> outcome B) : outcome B :=
  match c with
  | Ret a => k a
  | Throw e => Throw e
  | Undef => Undef
  end.

Declare Scope outcome_scope.
Delimit Scope outcome_scope with outcome.
Notation "x <- c ;; k" := (bind c (fun x => k))
  (at level 62, c at next level, right associativity) : outcome_scope.
Notation "' p <- c ;; k" := (bind c (fun x => match x with p => k end))
  (at level 62, p pattern, c at next level, right associativity) : outcome_scope.
#[global] Open Scope outcome_scope.

(** [safe c]: the call has no undefined behaviour. *)
Definition safe {A} (c : outcome A) : Prop := c <> Undef.

(** Reading a cell of a buffer: outside the buffer it is undefined. *)
Definition rd {A} (l : list A) (i : nat) : outcome A :=
  match nth_error l i with Some x => Ret x | None => Undef end.

Lemma rd_lt {A} (l : list A) i :
  (i < List.length l)%nat -> exists x, rd l i = Ret x /\ nth_error l i = Some x.
Proof.
  intros H. unfold rd. destruct (nth_error l i) eqn:E; [eauto|].
  apply nth_error_None in E. lia.
Qed.

Lemma rd_nth {A} (d : A) (l : list A) i :
  (i < List.length l)%nat -> rd l i = Ret (nth i l d).
Proof. intros H. unfold rd. now rewrite (nth_error_nth' l d H). Qed.

(** ** Machine integers and bytes

    A [w]-bit integer is a [Z]; the wrap-around is written at the operations
    that have it.  A [char] is stored as its byte value; [schar] is the value
    the (signed) x86 [char] has in comparisons and arithmetic. *)

Definition wrapu (w z : Z) : Z := z mod 2 ^ w.
Definition wraps (w z : Z) : Z := (z + 2 ^ (w - 1)) mod 2 ^ w - 2 ^ (w - 1).
Abbreviation u8 := (wrapu 8).
Abbreviation u32 := (wrapu 32).
Abbreviation u64 := (wrapu 64).
Abbreviation s32 := (wraps 32).
Abbreviation s64 := (wraps 64).

Definition schar (b : Z) : Z := if b <? 128 then b else b - 256.

Definition is_byte (b : Z) : Prop := 0 <= b < 256.
Definition is_bytes (l : list Z) : Prop := Forall is_byte l.

Lemma wrapu_small w z : 0 <= z < 2 ^ w -> wrapu w z = z.
Proof. apply Z.mod_small. Qed.

Lemma wraps_small w z :
  0 < w -> - 2 ^ (w - 1) <= z < 2 ^ (w - 1) -> wraps w z = z.
Proof.
  intros Hw Hz. unfold wraps.
  assert (2 ^ w = 2 * 2 ^ (w - 1)) as E.
  { rewrite <- Z.pow_succ_r by lia. f_equal. lia. }
  rewrite Z.mod_small; lia.
Qed.

Lemma u8_byte z : is_byte (u8 z).
Proof. unfold is_byte, wrapu. apply Z.mod_pos_bound. lia. Qed.

(** Shifts and masks as arithmetic, and a disjoint [|] as a sum. *)
Lemma lor_shiftl_small d k y :
  0 <= k -> 0 <= y < 2 ^ k -> Z.lor (Z.shiftl d k) y = d * 2 ^ k + y.
Proof.
  intros Hk Hy. pose proof (Z.add_lor_land (Z.shiftl d k) y) as E.
  assert (Z.land (Z.shiftl d k) y = 0) as L.
  { apply Z.bits_inj'. intros n Hn. rewrite Z.land_spec, Z.bits_0.
    destruct (Z.lt_ge_cases n k).
    - now rewrite Z.shiftl_spec_low.
    - rewrite <- (Z.mod_small y (2 ^ k)), Z.mod_pow2_bits_high by lia.
      apply andb_false_r. }
  rewrite L, Z.add_0_r, (Z.shiftl_mul_pow2 d k Hk) in E.
  now rewrite <- (Z.shiftl_mul_pow2 d k Hk) in E at 1.
Qed.

Lemma land_mask x k : 0 <= k -> Z.land x (2 ^ k - 1) = x mod 2 ^ k.
Proof. intros H. rewrite <- Z.land_ones, Z.ones_equiv by easy. f_equal. Qed.

(** A decidable property of bytes is proved by running it on the 256 bytes. *)
Definition all_bytes : list Z := map Z.of_nat (seq 0 256).

Lemma all_bytes_In b : is_byte b -> In b all_bytes.
Proof.
  intros [H1 H2]. unfold all_bytes. apply in_map_iff.
  exists (Z.to_nat b). split; [lia|]. apply in_seq. lia.
Qed.

Lemma byte_forall (P : Z -> bool) :
  forallb P all_bytes = true -> forall b, is_byte b -> P b = true.
Proof.
  intros H b Hb. rewrite forallb_forall in H. apply H, all_bytes_In, Hb.
Qed.

(** [by_bytes b H]: the goal is [f b = true] for a computable [f], and [H] is
    [is_byte b]. *)
Ltac by_bytes b H :=
  match goal with
  | |- ?g = true =>
      let f := eval pattern b in g in
      match f with ?P _ => revert b H; apply (byte_forall P); vm_compute; reflexivity end
  end.

(** ** Characters and literals *)

Definition chr (a : ascii) : Z := Z.of_N (N_of_ascii a).
Arguments chr a%_char_scope.

Fixpoint lit (s : string) : list Z :=
  match s with
  | EmptyString => []
  | String a s' => chr a :: lit s'
  end.
Arguments lit s%_string_scope.

Lemma chr_byte a : is_byte (chr a).
Proof.
  unfold is_byte, chr. pose proof (N_ascii_bounded a). lia.
Qed.

Lemma lit_bytes s : is_bytes (lit s).
Proof. induction s; constructor; auto using chr_byte. Qed.

(** Replaces every character literal by its code. *)
Ltac chr_simpl :=
  repeat match goal with
  | |- context [chr ?a] => let v := eval vm_compute in (chr a) in change (chr a) with v
  | H : context [chr ?a] |- _ =>
      let v := eval vm_compute in (chr a) in change (chr a) with v in H
  end.

(** Case split on the boolean tests of the goal, arithmetic facts in context. *)
Ltac split_if :=
  match goal with
  | |- context [if ?a <? ?b then _ else _] => destruct (Z.ltb_spec a b)
  | |- context [if ?a <=? ?b then _ else _] => destruct (Z.leb_spec a b)
  | |- context [if ?a =? ?b then _ else _] => destruct (Z.eqb_spec a b)
  end.
Ltac split_ifs := repeat split_if.

(** Boolean hypotheses as propositions. *)
Ltac bools :=
  repeat match goal with
  | H : (_ && _)%bool = true |- _ => apply andb_true_iff in H; destruct H
  | H : (_ || _)%bool = false |- _ => apply orb_false_iff in H; destruct H
  | H : negb _ = true |- _ => apply negb_true_iff in H
  | H : negb _ = false |- _ => apply negb_false_iff in H
  | H : (_ <? _) = true |- _ => apply Z.ltb_lt in H
  | H : (_ <? _) = false |- _ => apply Z.ltb_ge in H
  | H : (_ <=? _) = true |- _ => apply Z.leb_le in H
  | H : (_ <=? _) = false |- _ => apply Z.leb_gt in H
  | H : (_ =? _) = true |- _ => apply Z.eqb_eq in H
  | H : (_ =? _) = false |- _ => apply Z.eqb_neq in H
  end.

(** ** Integer types of the templates

    What a template takes from [std::numeric_limits<Integer>]. *)

Class IntType : Type := {
  int_min : Z;
  int_max : Z;
  is_signed : bool;
  digits10 : Z;
}.

Class IntTypeOk (I : IntType) : Prop := {
  int_max_big : 127 <= int_max;
  int_min_spec : int_min = if is_signed then - int_max - 1 else 0;
  digits10_spec : 10 ^ digits10 <= int_max < 10 ^ (digits10 + 1);
  digits10_pos : 0 < digits10;
  int_max_last : int_max mod 10 <> 9;
}.

Definition mk_int (w : Z) (sg : bool) (d : Z) : IntType :=
  {| int_min := if sg then - 2 ^ (w - 1) else 0;
     int_max := if sg then 2 ^ (w - 1) - 1 else 2 ^ w - 1;
     is_signed := sg;
     digits10 := d |}.

Definition Int8 := mk_int 8 true 2.
Definition UInt8 := mk_int 8 false 2.
Definition UInt16 := mk_int 16 false 4.
Definition Int32 := mk_int 32 true 9.
Definition UInt32 := mk_int 32 false 9.
Definition Int64 := mk_int 64 true 18.
Definition UInt64 := mk_int 64 false 19.

Ltac int_ok :=
  split; try split; vm_compute; first [reflexivity | discriminate].

#[export] Instance Int8_ok : IntTypeOk Int8.
Proof. int_ok. Qed.
#[export] Instance UInt8_ok : IntTypeOk UInt8.
Proof. int_ok. Qed.
#[export] Instance UInt16_ok : IntTypeOk UInt16.
Proof. int_ok. Qed.
#[export] Instance Int32_ok : IntTypeOk Int32.
Proof. int_ok. Qed.
#[export] Instance UInt32_ok : IntTypeOk UInt32.
Proof. int_ok. Qed.
#[export] Instance Int64_ok : IntTypeOk Int64.
Proof. int_ok. Qed.
#[export] Instance UInt64_ok : IntTypeOk UInt64.
Proof. int_ok. Qed.

Definition in_int {I : IntType} (z : Z) : Prop := int_min <= z <= int_max.

(** ** Lists *)

(** The longest prefix whose elements satisfy [p], and the rest. *)
Fixpoint span {A} (p : A -> bool) (l : list A) : list A * list A :=
  match l with
  | [] => ([], [])
  | x :: l' => if p x then let (a, b) := span p l' in (x :: a, b) else ([], l)
  end.

Lemma span_app {A} (p : A -> bool) l : fst (span p l) ++ snd (span p l) = l.
Proof.
  induction l as [|x l IH]; cbn; [easy|]. destruct (p x); [|easy].
  destruct (span p l); cbn in *. now rewrite IH.
Qed.

Lemma span_fst {A} (p : A -> bool) l : Forall (fun x => p x = true) (fst (span p l)).
Proof.
  induction l as [|x l IH]; cbn; [constructor|]. destruct (p x) eqn:E; [|constructor].
  destruct (span p l); cbn in *. now constructor.
Qed.

Lemma span_snd {A} (p : A -> bool) l :
  match snd (span p l) with [] => True | x :: _ => p x = false end.
Proof.
  induction l as [|x l IH]; cbn; [easy|]. destruct (p x) eqn:E; [|easy].
  destruct (span p l); cbn in *. exact IH.
Qed.

Lemma span_length {A} (p : A -> bool) l :
  (List.length (snd (span p l)) <= List.length l)%nat.
Proof.
  rewrite <- (span_app p l) at 2. rewrite length_app. lia.
Qed.

Lemma Forall_app_inv {A} (P : A -> Prop) l1 l2 :
  Forall P (l1 ++ l2) -> Forall P l1 /\ Forall P l2.
Proof. apply Forall_app. Qed.

(** Writing a cell of a buffer: [upd] leaves the buffer alone outside it,
    [wr] says that it is undefined. *)
Fixpoint upd {A} (l : list A) (i : nat) (x : A) : list A :=
  match l, i with
  | [], _ => []
  | _ :: l', O => x :: l'
  | y :: l', S i' => y :: upd l' i' x
  end.

Definition wr {A} (l : list A) (i : nat) (x : A) : outcome (list A) :=
  if (i <? List.length l)%nat then Ret (upd l i x) else Undef.

Lemma upd_app {A} (done : list A) x t y : upd (done ++ x :: t) (List.length done) y = done ++ y :: t.
Proof. induction done as [|d done IH]; cbn; [easy|]. now rewrite IH. Qed.

Lemma upd_length {A} (l : list A) i x : List.length (upd l i x) = List.length l.
Proof. revert i; induction l as [|y l IH]; intros [|i]; cbn; auto. Qed.

Lemma rd_mid {A} (a : list A) x b : rd (a ++ x :: b) (List.length a) = Ret x.
Proof. unfold rd. now rewrite nth_error_app2, Nat.sub_diag by easy. Qed.

Lemma wr_mid {A} (a : list A) x b y : wr (a ++ x :: b) (List.length a) y = Ret (a ++ y :: b).
Proof.
  unfold wr. rewrite length_app. cbn [List.length]. destruct (Nat.ltb_spec (List.length a) (List.length a + S (List.length b))); [|lia].
  now rewrite upd_app.
Qed.

Lemma app_inj_length {A} (a b a' b' : list A) :
  a ++ b = a' ++ b' -> List.length a = List.length a' -> a = a' /\ b = b'.
Proof.
  revert a'. induction a as [|x a IH]; intros [|x' a'] E L; try easy.
  injection E as -> E. injection L as L. destruct (IH a' E L). now subst.
Qed.

Lemma Forall_skipn {A} (P : A -> Prop) k l : Forall P l -> Forall P (skipn k l).
Proof. intros H. rewrite <- (firstn_skipn k l) in H. now apply Forall_app in H. Qed.

Create HintDb uc discriminated.
Create Rewrite HintDb uc.
#[export] Hint Resolve u8_byte chr_byte lit_bytes span_length : uc.
#[export] Hint Rewrite @length_app @length_map @length_firstn @length_skipn
  @app_nil_r @firstn_nil @skipn_nil : uc.
