(* ===== verification/Ascii.v ===== *)
(** * Ascii: src/src/String/AsciiStringManip.hpp and .cpp

    The ASCII tables and case conversion, the character categories
    ([CharTable], [Char1], [Char2], [Char3] and the [Category] searches over a
    predicate), the caseless comparison, the hex digit conversions and
    [flatten].  A string is the list of its bytes; a pointer that a search
    returns is the offset from the pointer the search started at. *)

From Stdlib Require Import ZArith List Bool Lia Wf_nat.
From S2P Require Import Prelude.
Import ListNotations.

(** ** Tables *)

Definition HEX_DIGITS : list Z := lit "0123456789ABCDEF".

Definition ASCII_TOLOWER_TABLE : list Z := [
   0; 1; 2; 3; 4; 5; 6; 7; 8; 9; 10; 11; 12; 13; 14; 15;
   16; 17; 18; 19; 20; 21; 22; 23; 24; 25; 26; 27; 28; 29; 30; 31;
   32; 33; 34; 35; 36; 37; 38; 39; 40; 41; 42; 43; 44; 45; 46; 47;
   48; 49; 50; 51; 52; 53; 54; 55; 56; 57; 58; 59; 60; 61; 62; 63;
   64; 97; 98; 99; 100; 101; 102; 103; 104; 105; 106; 107; 108; 109; 110; 111;
   112; 113; 114; 115; 116; 117; 118; 119; 120; 121; 122; 91; 92; 93; 94; 95;
   96; 97; 98; 99; 100; 101; 102; 103; 104; 105; 106; 107; 108; 109; 110; 111;
   112; 113; 114; 115; 116; 117; 118; 119; 120; 121; 122; 123; 124; 125; 126; 127;
   128; 129; 130; 131; 132; 133; 134; 135; 136; 137; 138; 139; 140; 141; 142; 143;
   144; 145; 146; 147; 148; 149; 150; 151; 152; 153; 154; 155; 156; 157; 158; 159;
   160; 161; 162; 163; 164; 165; 166; 167; 168; 169; 170; 171; 172; 173; 174; 175;
   176; 177; 178; 179; 180; 181; 182; 183; 184; 185; 186; 187; 188; 189; 190; 191;
   192; 193; 194; 195; 196; 197; 198; 199; 200; 201; 202; 203; 204; 205; 206; 207;
   208; 209; 210; 211; 212; 213; 214; 215; 216; 217; 218; 219; 220; 221; 222; 223;
   224; 225; 226; 227; 228; 229; 230; 231; 232; 233; 234; 235; 236; 237; 238; 239;
   240; 241; 242; 243; 244; 245; 246; 247; 248; 249; 250; 251; 252; 253; 254; 255].

Definition ASCII_TOUPPER_TABLE : list Z := [
   0; 1; 2; 3; 4; 5; 6; 7; 8; 9; 10; 11; 12; 13; 14; 15;
   16; 17; 18; 19; 20; 21; 22; 23; 24; 25; 26; 27; 28; 29; 30; 31;
   32; 33; 34; 35; 36; 37; 38; 39; 40; 41; 42; 43; 44; 45; 46; 47;
   48; 49; 50; 51; 52; 53; 54; 55; 56; 57; 58; 59; 60; 61; 62; 63;
   64; 65; 66; 67; 68; 69; 70; 71; 72; 73; 74; 75; 76; 77; 78; 79;
   80; 81; 82; 83; 84; 85; 86; 87; 88; 89; 90; 91; 92; 93; 94; 95;
   96; 65; 66; 67; 68; 69; 70; 71; 72; 73; 74; 75; 76; 77; 78; 79;
   80; 81; 82; 83; 84; 85; 86; 87; 88; 89; 90; 123; 124; 125; 126; 127;
   128; 129; 130; 131; 132; 133; 134; 135; 136; 137; 138; 139; 140; 141; 142; 143;
   144; 145; 146; 147; 148; 149; 150; 151; 152; 153; 154; 155; 156; 157; 158; 159;
   160; 161; 162; 163; 164; 165; 166; 167; 168; 169; 170; 171; 172; 173; 174; 175;
   176; 177; 178; 179; 180; 181; 182; 183; 184; 185; 186; 187; 188; 189; 190; 191;
   192; 193; 194; 195; 196; 197; 198; 199; 200; 201; 202; 203; 204; 205; 206; 207;
   208; 209; 210; 211; 212; 213; 214; 215; 216; 217; 218; 219; 220; 221; 222; 223;
   224; 225; 226; 227; 228; 229; 230; 231; 232; 233; 234; 235; 236; 237; 238; 239;
   240; 241; 242; 243; 244; 245; 246; 247; 248; 249; 250; 251; 252; 253; 254; 255].

Definition to_lower (ch : Z) : Z := nth (Z.to_nat ch) ASCII_TOLOWER_TABLE 0.
Definition to_upper (ch : Z) : Z := nth (Z.to_nat ch) ASCII_TOUPPER_TABLE 0.

(** The iterator versions overwrite every cell of the range. *)
Fixpoint to_lower_range (s : list Z) : list Z :=
  match s with [] => [] | c :: s' => to_lower c :: to_lower_range s' end.
Fixpoint to_upper_range (s : list Z) : list Z :=
  match s with [] => [] | c :: s' => to_upper c :: to_upper_range s' end.

Definition to_lower_str (dest : list Z) : list Z :=
  match dest with [] => [] | _ => to_lower_range dest end.
Definition to_upper_str (dest : list Z) : list Z :=
  match dest with [] => [] | _ => to_upper_range dest end.

(** ** Character tables *)

Definition CharTable := list bool.

Definition set_true (t : CharTable) (i : Z) : CharTable :=
  firstn (Z.to_nat i) t ++ true :: skipn (S (Z.to_nat i)) t.

(** [for (char ch = last; ; ch++)]: the byte [ch] wraps from 255 to 0, so the
    loop meets [till] within 256 steps, which is the fuel it is given. *)
Fixpoint mark_range (fuel : nat) (ch till : Z) (t : CharTable) : CharTable :=
  match fuel with
  | O => t
  | S fuel' =>
      let t' := set_true t ch in
      if ch =? till then t' else mark_range fuel' (u8 (ch + 1)) till t'
  end.

Fixpoint table_chars (str : list Z) (last : Z) (t : CharTable) : CharTable :=
  match str with
  | [] => t
  | c :: rest =>
      match rest with
      | till :: rest' =>
          if (c =? chr "-") && negb (last =? 0)
          then table_chars rest' till (mark_range 256 last till t)
          else table_chars rest c (set_true t c)
      | [] => set_true t c
      end
  end.

Definition CharTable_new (str : option (list Z)) (check_zero : bool) : CharTable :=
  let t := repeat false 256 in
  let t := if check_zero then set_true t 0 else t in
  match str with
  | None => t
  | Some s => table_chars s 0 t
  end.

Definition CharTable_union (first second : CharTable) : CharTable :=
  map (fun i => nth i first false || nth i second false) (seq 0 256).

Definition CharTable_union3 (first second third : CharTable) : CharTable :=
  map (fun i => nth i first false || nth i second false || nth i third false)
    (seq 0 256).

Definition CharTable_of_predicate (predicate : Z -> bool) : CharTable :=
  map (fun i => predicate (Z.of_nat i)) (seq 0 256).

Definition table_owned (t : CharTable) (ch : Z) : bool := nth (Z.to_nat ch) t false.

Definition Char1 (SYMBOL ch : Z) : bool := ch =? SYMBOL.
Definition Char2 (SYMBOL1 SYMBOL2 ch : Z) : bool := (ch =? SYMBOL1) || (ch =? SYMBOL2).
Definition Char3 (SYMBOL1 SYMBOL2 SYMBOL3 ch : Z) : bool :=
  (ch =? SYMBOL1) || (ch =? SYMBOL2) || (ch =? SYMBOL3).

(** [isspace] of the C locale, the predicate of [SPACE]. *)
Definition isspace (ch : Z) : bool := (ch =? 32) || ((9 <=? ch) && (ch <=? 13)).

Definition ALPHA := Eval vm_compute in CharTable_new (Some (lit "A-Za-z")) false.
Definition NUMBER := Eval vm_compute in CharTable_new (Some (lit "0-9")) false.
Definition ALPHA_NUM := Eval vm_compute in CharTable_union ALPHA NUMBER.
Definition OCTAL_NUMBER := Eval vm_compute in CharTable_new (Some (lit "0-7")) false.
Definition HEX_NUMBER := Eval vm_compute in CharTable_new (Some (lit "0-9A-Fa-f")) false.
Definition SPACE := Eval vm_compute in CharTable_of_predicate isspace.
Definition REGEX_META :=
  Eval vm_compute in CharTable_new (Some (lit "^.$\|()[]*+?{}")) false.

(** ** Category searches over a predicate *)

Section Category.
Variable is_owned : Z -> bool.

Definition category_empty : bool := negb (existsb is_owned all_bytes).

(** [find_owned(begin, end)]: [end] is the length of the range. *)
Fixpoint find_owned (str : list Z) : nat :=
  match str with
  | [] => O
  | c :: str' => if is_owned c then O else S (find_owned str')
  end.

Fixpoint find_nonowned (str : list Z) : nat :=
  match str with
  | [] => O
  | c :: str' => if negb (is_owned c) then O else S (find_nonowned str')
  end.

(** The searches in a zero-terminated string: [None] is the null pointer. *)
Fixpoint find_owned_c (str : list Z) : option nat :=
  match str with
  | [] => if is_owned 0 then Some O else None
  | c :: str' => if is_owned c then Some O else option_map S (find_owned_c str')
  end.

Fixpoint find_nonowned_c (str : list Z) : option nat :=
  match str with
  | [] => if negb (is_owned 0) then Some O else None
  | c :: str' => if negb (is_owned c) then Some O else option_map S (find_nonowned_c str')
  end.

(** [rfind_*(pos, start)] over the range [start, pos); [pos] is its length.
    [rfind_from n] looks at the cells below [n], the last one first. *)
Fixpoint rfind_from (p : Z -> bool) (str : list Z) (n not_found : nat) : nat :=
  match n with
  | O => not_found
  | S n' => if p (nth n' str 0) then n' else rfind_from p str n' not_found
  end.

Definition rfind_owned (str : list Z) : nat :=
  rfind_from is_owned str (length str) (length str).
Definition rfind_nonowned (str : list Z) : nat :=
  rfind_from (fun c => negb (is_owned c)) str (length str) (length str).

(** [flatten]: the loop writes the text before an owned run, then the
    replacement, and goes on after the run.  Every iteration but the last
    leaves at least one character behind, so the length of the string is
    enough fuel. *)
Fixpoint flatten_loop (fuel : nat) (replacement first out : list Z) : list Z :=
  match fuel with
  | O => out
  | S fuel' =>
      match first with
      | [] => out
      | _ =>
          let current := find_owned first in
          let out := out ++ firstn current first in
          if (current =? length first)%nat then out
          else
            let out := out ++ replacement in
            let rest := skipn current first in
            flatten_loop fuel' replacement (skipn (find_nonowned rest) rest) out
      end
  end.

Definition flatten (str replacement : list Z) : list Z :=
  flatten_loop (S (length str)) replacement str [].

(** The buffer [dest.resize(...)] gives the loop to write into. *)
Definition flatten_capacity (str replacement : list Z) : nat :=
  length str * (if (length replacement =? 0)%nat then 1 else length replacement).

End Category.

(** ** Caseless strings

    [same] says that the two data pointers are equal, the shortcut of the
    code; it is only meaningful when the common prefix is the same. *)

Fixpoint compare_loop (str1 str2 : list Z) : Z :=
  match str1, str2 with
  | c1 :: s1, c2 :: s2 =>
      let result := schar (to_lower c1) - schar (to_lower c2) in
      if negb (result =? 0) then result else compare_loop s1 s2
  | _, _ => 0
  end.

Definition Caseless_compare (same : bool) (this str : list Z) : Z :=
  let len1 := length this in
  let len2 := length str in
  let r := if same then 0 else compare_loop this str in
  if negb (r =? 0) then r
  else if negb (len1 =? len2)%nat then (if (len1 <? len2)%nat then -1 else 1) else 0.

Fixpoint equal_loop (str1 str2 : list Z) : bool :=
  match str1, str2 with
  | c1 :: s1, c2 :: s2 =>
      if to_lower c1 =? to_lower c2
      then match s1 with [] => true | _ => equal_loop s1 s2 end
      else false
  | _, _ => false
  end.

Definition Caseless_equal (same : bool) (this str : list Z) : bool :=
  if negb (length str =? length this)%nat then false
  else if same || (length str =? 0)%nat then true
  else equal_loop str this.

Definition Caseless_start (same : bool) (this str : list Z) : bool :=
  Caseless_equal same this (firstn (length this) str).

(** ** Hex digits *)

Definition convert (ch : Z) : Z := u8 ch.

Definition hex_to_int (ch : Z) : Z :=
  u8 (if schar ch <=? 57 then schar ch - 48 else Z.land (schar ch) 15 + 9).

Definition hex_to_char (major minor : Z) : Z :=
  convert (Z.lor (Z.shiftl (hex_to_int major) 4) (hex_to_int minor)).

(** [hex_to_integer] for an unsigned type of [size] bytes: [size] pairs of
    digits, the low byte first. *)
Fixpoint hex_to_integer_loop (bits i : Z) (n : nat) (data : list Z) (value : Z) : outcome Z :=
  match n with
  | O => Ret value
  | S n' =>
      match data with
      | a :: b :: data' =>
          let value := Z.lor value (wrapu bits (Z.shiftl (hex_to_int a) (i + 4))) in
          let value := Z.lor value (wrapu bits (Z.shiftl (hex_to_int b) i)) in
          hex_to_integer_loop bits (i + 8) n' data' value
      | _ => Undef
      end
  end.

Definition hex_to_integer (size : nat) (data : list Z) : outcome Z :=
  hex_to_integer_loop (8 * Z.of_nat size) 0 size data 0.

(** [hex_to_buf]: the assertion on the parity, then a byte per pair. *)
Fixpoint hex_to_buf (data : list Z) : outcome (list Z) :=
  match data with
  | [] => Ret []
  | [_] => Undef
  | a :: b :: data' => buf <- hex_to_buf data' ;; Ret (hex_to_char a b :: buf)
  end.

(** ** Facts *)

Lemma to_lower_spec c :
  is_byte c -> to_lower c = if (65 <=? c) && (c <=? 90) then c + 32 else c.
Proof.
  intros H. apply Z.eqb_eq. revert c H.
  apply (byte_forall (fun c => to_lower c =? if (65 <=? c) && (c <=? 90) then c + 32 else c)).
  vm_compute. reflexivity.
Qed.

Lemma to_upper_spec c :
  is_byte c -> to_upper c = if (97 <=? c) && (c <=? 122) then c - 32 else c.
Proof.
  intros H. apply Z.eqb_eq. revert c H.
  apply (byte_forall (fun c => to_upper c =? if (97 <=? c) && (c <=? 122) then c - 32 else c)).
  vm_compute. reflexivity.
Qed.

Lemma to_lower_byte c : is_byte c -> is_byte (to_lower c).
Proof.
  intros H. rewrite to_lower_spec by easy. unfold is_byte in *.
  destruct (_ && _) eqn:E; bools; lia.
Qed.

Lemma schar_inj a b : is_byte a -> is_byte b -> schar a = schar b -> a = b.
Proof. unfold is_byte, schar. intros. split_ifs; destruct (a <? 128) eqn:?, (b <? 128) eqn:?; bools; lia. Qed.

Lemma set_true_lookup t i j :
  is_byte i -> length t = 256%nat ->
  nth (Z.to_nat j) (set_true t i) false =
    if (Z.to_nat j =? Z.to_nat i)%nat then true else nth (Z.to_nat j) t false.
Proof.
  intros [H1 H2] L. unfold set_true.
  assert (length (firstn (Z.to_nat i) t) = Z.to_nat i) as LF by (rewrite length_firstn; lia).
  destruct (Nat.eqb_spec (Z.to_nat j) (Z.to_nat i)) as [E|E].
  - rewrite app_nth2, LF, E, Nat.sub_diag by lia. reflexivity.
  - destruct (Nat.lt_ge_cases (Z.to_nat j) (Z.to_nat i)).
    + rewrite app_nth1 by lia. rewrite <- (firstn_skipn (Z.to_nat i) t) at 2.
      now rewrite app_nth1 by lia.
    + rewrite app_nth2, LF by lia.
      replace (Z.to_nat j - Z.to_nat i)%nat with (S (Z.to_nat j - S (Z.to_nat i))) by lia.
      cbn [nth]. rewrite nth_skipn. f_equal. lia.
Qed.

Lemma set_true_length t i : is_byte i -> length t = 256%nat -> length (set_true t i) = 256%nat.
Proof.
  intros [H1 H2] L. unfold set_true. rewrite length_app, length_firstn. cbn [length].
  rewrite length_skipn. lia.
Qed.

(** *** Character tables

    [range_of a b j]: going up from [a] and wrapping at 256, [j] is met no
    later than [b]. *)
Definition range_of (a b j : Z) : bool := (j - a) mod 256 <=? (b - a) mod 256.

Fixpoint listed (str : list Z) (last j : Z) : bool :=
  match str with
  | [] => false
  | c :: rest =>
      match rest with
      | till :: rest' =>
          if (c =? chr "-") && negb (last =? 0)
          then range_of last till j || listed rest' till j
          else (j =? c) || listed rest c j
      | [] => j =? c
      end
  end.

Lemma mark_range_length fuel : forall ch till t,
  is_byte ch -> length t = 256%nat -> length (mark_range fuel ch till t) = 256%nat.
Proof.
  induction fuel as [|n IH]; intros ch till t Hc L; cbn [mark_range]; [easy|].
  destruct (ch =? till); auto using set_true_length, u8_byte.
Qed.

Lemma mark_range_lookup fuel : forall ch till t j,
  is_byte ch -> is_byte till -> is_byte j -> length t = 256%nat ->
  (till - ch) mod 256 < Z.of_nat fuel ->
  table_owned (mark_range fuel ch till t) j = table_owned t j || range_of ch till j.
Proof.
  unfold table_owned.
  induction fuel as [|n IH]; intros ch till t j Hc Ht Hj L F.
  { pose proof (Z.mod_pos_bound (till - ch) 256). lia. }
  cbn [mark_range]. unfold range_of, is_byte in *.
  destruct (Z.eqb_spec ch till) as [->|NE].
  - rewrite set_true_lookup by easy. rewrite Z.sub_diag, Z.mod_0_l by lia.
    destruct (Nat.eqb_spec (Z.to_nat j) (Z.to_nat till)) as [E|E].
    + replace j with till by lia. rewrite Z.sub_diag. cbn. now rewrite orb_true_r.
    + destruct (Z.leb_spec ((j - till) mod 256) 0); [|now rewrite orb_false_r].
      Z.div_mod_to_equations. lia.
  - assert ((till - u8 (ch + 1)) mod 256 = (till - ch) mod 256 - 1) as E1.
    { unfold wrapu. change (2 ^ 8) with 256. Z.div_mod_to_equations. lia. }
    rewrite IH by (try apply u8_byte; try apply set_true_length; auto; unfold is_byte; lia).
    rewrite set_true_lookup by easy. unfold range_of. rewrite E1.
    destruct (Nat.eqb_spec (Z.to_nat j) (Z.to_nat ch)) as [E|E].
    + replace j with ch by lia. rewrite Z.sub_diag. cbn [orb].
      symmetry. apply orb_true_iff. right. apply Z.leb_le. rewrite Z.mod_0_l by lia.
      apply Z.mod_pos_bound. lia.
    + assert ((j - u8 (ch + 1)) mod 256 = (j - ch) mod 256 - 1) as ->.
      { unfold wrapu. change (2 ^ 8) with 256. Z.div_mod_to_equations. lia. }
      f_equal. apply eq_true_iff_eq. rewrite !Z.leb_le. lia.
Qed.

Lemma table_chars_cons c till rest last t :
  table_chars (c :: till :: rest) last t =
    if (c =? chr "-") && negb (last =? 0)
    then table_chars rest till (mark_range 256 last till t)
    else table_chars (till :: rest) c (set_true t c).
Proof. reflexivity. Qed.

Lemma listed_cons c till rest last j :
  listed (c :: till :: rest) last j =
    if (c =? chr "-") && negb (last =? 0)
    then range_of last till j || listed rest till j
    else (j =? c) || listed (till :: rest) c j.
Proof. reflexivity. Qed.

Lemma table_chars_length str : forall last t,
  is_bytes str -> is_byte last -> length t = 256%nat ->
  length (table_chars str last t) = 256%nat.
Proof.
  induction str as [str IH] using (induction_ltof1 _ (@length Z)); unfold ltof in IH.
  intros last t Hs Hl L. destruct str as [|c [|till rest]]; [easy| |].
  - inversion Hs; subst. now apply set_true_length.
  - rewrite table_chars_cons. inversion Hs as [|? ? Hc Hr]; subst. inversion Hr; subst.
    destruct (_ && _); apply IH; auto using set_true_length, mark_range_length; cbn [length]; lia.
Qed.

Lemma table_chars_lookup str : forall last t j,
  is_bytes str -> is_byte last -> is_byte j -> length t = 256%nat ->
  table_owned (table_chars str last t) j = table_owned t j || listed str last j.
Proof.
  induction str as [str IH] using (induction_ltof1 _ (@length Z)); unfold ltof in IH.
  intros last t j Hs Hl Hj L.
  assert (forall c, is_byte c -> table_owned (set_true t c) j = table_owned t j || (j =? c)) as ST.
  { intros c Hc. unfold table_owned. rewrite set_true_lookup by easy.
    unfold is_byte in *. destruct (Nat.eqb_spec (Z.to_nat j) (Z.to_nat c)), (Z.eqb_spec j c);
      try lia; now rewrite ?orb_true_r, ?orb_false_r. }
  destruct str as [|c [|till rest]]; [cbn; now rewrite orb_false_r| |].
  - apply ST. now inversion Hs.
  - rewrite table_chars_cons, listed_cons. inversion Hs as [|? ? Hc Hr]; subst. inversion Hr as [|? ? Ht Hr']; subst.
    destruct (_ && _).
    + rewrite IH by (auto using mark_range_length; cbn [length]; lia). rewrite mark_range_lookup; auto.
      * now rewrite orb_assoc.
      * pose proof (Z.mod_pos_bound (till - last) 256). lia.
    + rewrite IH by (auto using set_true_length; cbn [length]; lia). rewrite ST by easy. now rewrite orb_assoc.
Qed.

Lemma CharTable_new_lookup str check_zero j :
  is_bytes str -> is_byte j ->
  table_owned (CharTable_new (Some str) check_zero) j =
    (check_zero && (j =? 0)) || listed str 0 j.
Proof.
  intros Hs Hj. unfold CharTable_new.
  assert (is_byte 0) by (unfold is_byte; lia).
  rewrite table_chars_lookup; auto.
  2:{ destruct check_zero; auto using set_true_length. }
  f_equal. unfold table_owned.
  assert (nth (Z.to_nat j) (repeat false 256) false = false) as N by apply nth_repeat.
  destruct check_zero; [rewrite set_true_lookup by easy|]; rewrite N; cbn [andb].
  - unfold is_byte in *. destruct (Nat.eqb_spec (Z.to_nat j) (Z.to_nat 0)), (Z.eqb_spec j 0); lia || easy.
  - reflexivity.
Qed.

#[global] Opaque mark_range.

(** *** Searches *)

Section Searches.
Variable is_owned : Z -> bool.

Lemma find_owned_le l : (find_owned is_owned l <= length l)%nat.
Proof. induction l as [|c l IH]; cbn; [lia|]. destruct (is_owned c); lia. Qed.

Lemma find_owned_prefix l :
  Forall (fun c => is_owned c = false) (firstn (find_owned is_owned l) l).
Proof.
  induction l as [|c l IH]; cbn; [constructor|].
  destruct (is_owned c) eqn:E; cbn; [constructor|]. now constructor.
Qed.

Lemma find_owned_stop l c r :
  skipn (find_owned is_owned l) l = c :: r -> is_owned c = true.
Proof.
  induction l as [|x l IH]; cbn; [easy|].
  destruct (is_owned x) eqn:E; cbn; [|exact IH]. now intros [= -> _].
Qed.

Lemma find_nonowned_owned l :
  find_nonowned is_owned l = find_owned (fun c => negb (is_owned c)) l.
Proof.
  induction l as [|x l IH]; cbn; [easy|].
  destruct (is_owned x); cbn; auto.
Qed.
End Searches.

Lemma find_nonowned_le p l : (find_nonowned p l <= length l)%nat.
Proof. rewrite find_nonowned_owned. apply find_owned_le. Qed.

Lemma find_nonowned_prefix p l :
  Forall (fun c => p c = true) (firstn (find_nonowned p l) l).
Proof.
  rewrite find_nonowned_owned. eapply Forall_impl; [|apply find_owned_prefix].
  cbn. intros c H. now bools.
Qed.

Lemma find_nonowned_stop p l c r :
  skipn (find_nonowned p l) l = c :: r -> p c = false.
Proof.
  rewrite find_nonowned_owned. intros H. apply find_owned_stop in H. now bools.
Qed.

Lemma find_owned_range p l n :
  (forall i, (i < n)%nat -> p (nth i l 0) = false) -> (n <= length l)%nat ->
  ((n < length l)%nat -> p (nth n l 0) = true) -> find_owned p l = n.
Proof.
  revert n; induction l as [|c l IH]; intros n H L SN; cbn in *; [lia|].
  destruct n as [|n].
  - now rewrite SN by lia.
  - rewrite (H 0%nat) by lia. f_equal. apply IH; [|lia|].
    + intros i Hi. apply (H (S i)). lia.
    + intros Hn. apply SN. lia.
Qed.

Lemma rfind_from_spec p str n nf :
  (rfind_from p str n nf = nf /\ forall i, (i < n)%nat -> p (nth i str 0) = false) \/
  (exists i, rfind_from p str n nf = i /\ (i < n)%nat /\ p (nth i str 0) = true /\
    forall j, (i < j < n)%nat -> p (nth j str 0) = false).
Proof.
  induction n as [|n IH]; cbn; [left; split; [easy|lia]|].
  destruct (p (nth n str 0)) eqn:E.
  - right. exists n. repeat split; auto; lia.
  - destruct IH as [[IH1 IH2]|(i & IH1 & IH2 & IH3 & IH4)].
    + left. split; [easy|]. intros i Hi. destruct (Nat.eq_dec i n) as [->|]; [easy|apply IH2; lia].
    + right. exists i. do 3 (split; [first [assumption|lia]|]).
      intros j Hj. destruct (Nat.eq_dec j n) as [->|]; [easy|apply IH4; lia].
Qed.

(** *** flatten

    Reference: copy the text, and write the replacement at the first owned
    character of every run. *)
Fixpoint flat_spec (p : Z -> bool) (replacement : list Z) (in_run : bool) (l : list Z)
  : list Z :=
  match l with
  | [] => []
  | c :: l' =>
      if p c
      then (if in_run then [] else replacement) ++ flat_spec p replacement true l'
      else c :: flat_spec p replacement false l'
  end.

Section Flatten.
Variable p : Z -> bool.
Variable replacement : list Z.

Lemma flat_spec_text pre rest :
  Forall (fun c => p c = false) pre ->
  flat_spec p replacement false (pre ++ rest) = pre ++ flat_spec p replacement false rest.
Proof. induction 1 as [|c l E _ IH]; cbn; [easy|]. rewrite E. now f_equal. Qed.

Lemma flat_spec_run run rest :
  Forall (fun c => p c = true) run ->
  flat_spec p replacement true (run ++ rest) = flat_spec p replacement true rest.
Proof. induction 1 as [|c l E _ IH]; cbn; [easy|]. now rewrite E. Qed.

Lemma flat_spec_after rest :
  (forall c r, rest = c :: r -> p c = false) ->
  flat_spec p replacement true rest = flat_spec p replacement false rest.
Proof. destruct rest as [|c r]; cbn; [easy|]. intros H. now rewrite (H c r). Qed.

Lemma flat_spec_skip_run rest :
  flat_spec p replacement true rest =
  flat_spec p replacement false (skipn (find_nonowned p rest) rest).
Proof.
  rewrite <- (firstn_skipn (find_nonowned p rest) rest) at 1.
  rewrite flat_spec_run by apply find_nonowned_prefix.
  apply flat_spec_after. intros c r. apply find_nonowned_stop.
Qed.

Lemma flatten_loop_spec fuel : forall first out,
  (length first < fuel)%nat ->
  flatten_loop p fuel replacement first out = out ++ flat_spec p replacement false first.
Proof.
  induction fuel as [|n IH]; intros first out L; [lia|]. cbn [flatten_loop].
  destruct first as [|c0 l0]; [cbn; now rewrite app_nil_r|].
  set (l := c0 :: l0) in *. set (k := find_owned p l).
  pose proof (flat_spec_text (firstn k l) (skipn k l) (find_owned_prefix p l)) as T.
  rewrite firstn_skipn in T. rewrite T.
  destruct (Nat.eqb_spec k (length l)) as [E|E].
  - rewrite E, firstn_all, skipn_all. cbn. now rewrite app_nil_r.
  - assert (k < length l)%nat as K by (pose proof (find_owned_le p l); lia).
    assert (length (skipn k l) = (length l - k)%nat) as LS by apply length_skipn.
    destruct (skipn k l) as [|c r] eqn:ES; [change (length (@nil Z)) with O in LS; lia|].
    pose proof (find_owned_stop p l c r ES) as O.
    set (rest := c :: r) in *. set (m := find_nonowned p rest).
    assert (flat_spec p replacement false rest =
            replacement ++ flat_spec p replacement false (skipn m rest)) as R.
    { subst m. rewrite <- flat_spec_skip_run. subst rest. cbn [flat_spec]. now rewrite O. }
    rewrite R, IH.
    + now rewrite <- !app_assoc.
    + assert (0 < m)%nat. { subst m rest. cbn. rewrite O. cbn. lia. }
      rewrite length_skipn. lia.
Qed.

Lemma flat_spec_length in_run l :
  (length (flat_spec p replacement in_run l) <=
    length l * (if (length replacement =? 0)%nat then 1 else length replacement))%nat.
Proof.
  revert in_run; induction l as [|c l IH]; intros b; cbn [flat_spec]; [cbn; lia|].
  specialize (IH (p c)). set (w := if (length replacement =? 0)%nat then 1%nat else length replacement) in *.
  assert (length replacement <= w /\ 1 <= w)%nat.
  { subst w. destruct (Nat.eqb_spec (length replacement) 0); lia. }
  cbn [length]. destruct (p c); [rewrite length_app; destruct b|]; cbn [length]; lia.
Qed.
End Flatten.

(** *** Caseless comparison *)

Lemma compare_loop_zero a : forall b,
  is_bytes a -> is_bytes b ->
  compare_loop a b = 0 <->
  firstn (min (length a) (length b)) (map to_lower a) =
  firstn (min (length a) (length b)) (map to_lower b).
Proof.
  induction a as [|x a IH]; intros [|y b] Ha Hb; try easy.
  inversion Ha; inversion Hb; subst. specialize (IH b ltac:(easy) ltac:(easy)).
  cbn [compare_loop length Nat.min map firstn].
  destruct (Z.eqb_spec (schar (to_lower x) - schar (to_lower y)) 0) as [E|E]; cbn [negb].
  - assert (to_lower x = to_lower y) as -> by (apply schar_inj; auto using to_lower_byte; lia).
    rewrite IH. split; [intros ->; reflexivity | now intros [=]].
  - split; [lia|]. intros [= E1 _]. rewrite E1 in E. lia.
Qed.

Lemma equal_loop_spec a : forall b,
  length a = length b -> a <> [] ->
  equal_loop a b = true <-> map to_lower a = map to_lower b.
Proof.
  induction a as [|x a IH]; intros [|y b] L N; try easy.
  cbn [equal_loop map]. destruct (Z.eqb_spec (to_lower x) (to_lower y)) as [E|E].
  - rewrite E. destruct a as [|z a].
    + now destruct b.
    + injection L as L. rewrite (IH b) by (easy || exact L).
      split; [now intros -> | now intros [=]].
  - split; [easy|]. now intros [= E1 _].
Qed.

Lemma compare_loop_refl a b :
  firstn (min (length a) (length b)) a = firstn (min (length a) (length b)) b ->
  compare_loop a b = 0.
Proof.
  revert b; induction a as [|x a IH]; intros [|y b]; try easy.
  cbn [compare_loop length Nat.min firstn]. intros [= -> H].
  rewrite Z.sub_diag. cbn [Z.eqb negb]. auto.
Qed.

(** *** Hex digits *)

Lemma hex_digit_value n : 0 <= n < 16 -> hex_to_int (nth (Z.to_nat n) HEX_DIGITS 0) = n.
Proof.
  intros H. assert (In n (map Z.of_nat (seq 0 16))) as I.
  { apply in_map_iff. exists (Z.to_nat n). split; [lia|apply in_seq; lia]. }
  revert I. cbn [map seq In].
  intuition (subst; reflexivity).
Qed.

Lemma hex_digit_is_hex n : 0 <= n < 16 -> table_owned HEX_NUMBER (nth (Z.to_nat n) HEX_DIGITS 0) = true.
Proof.
  intros H. assert (In n (map Z.of_nat (seq 0 16))) as I.
  { apply in_map_iff. exists (Z.to_nat n). split; [lia|apply in_seq; lia]. }
  revert I. cbn [map seq In].
  intuition (subst; reflexivity).
Qed.

Lemma hex_to_int_nibble c :
  is_byte c -> table_owned HEX_NUMBER c = true -> 0 <= hex_to_int c < 16.
Proof.
  intros H1 H2.
  enough (implb (table_owned HEX_NUMBER c) ((0 <=? hex_to_int c) && (hex_to_int c <? 16)) = true) as E.
  { rewrite H2 in E. cbn in E. bools. lia. }
  revert c H1 H2. intros c H1 _. revert c H1.
  apply (byte_forall (fun c => implb (table_owned HEX_NUMBER c) ((0 <=? hex_to_int c) && (hex_to_int c <? 16)))).
  vm_compute. reflexivity.
Qed.

(** The two digits of a byte read back as the byte. *)
Lemma hex_byte_roundtrip b :
  is_byte b ->
  hex_to_char (nth (Z.to_nat (Z.shiftr b 4)) HEX_DIGITS 0)
              (nth (Z.to_nat (Z.land b 15)) HEX_DIGITS 0) = b.
Proof.
  intros H. apply Z.eqb_eq. revert b H.
  apply (byte_forall (fun b => hex_to_char (nth (Z.to_nat (Z.shiftr b 4)) HEX_DIGITS 0)
              (nth (Z.to_nat (Z.land b 15)) HEX_DIGITS 0) =? b)).
  vm_compute. reflexivity.
Qed.

(** The comparison as a recursion on both strings: an order by the first
    differing (lower-cased, signed) character, a proper prefix being less. *)
Lemma Caseless_compare_cons x y a b :
  Caseless_compare false (x :: a) (y :: b) =
    let r := schar (to_lower x) - schar (to_lower y) in
    if negb (r =? 0) then r else Caseless_compare false a b.
Proof.
  unfold Caseless_compare. cbn [compare_loop length].
  destruct (Z.eqb_spec (schar (to_lower x) - schar (to_lower y)) 0) as [E|E]; cbn [negb].
  - reflexivity.
  - now rewrite (proj2 (Z.eqb_neq _ 0) E).
Qed.

Ltac caseless_cons :=
  rewrite ?Caseless_compare_cons in *; cbv zeta in *;
  repeat match goal with
  | |- context [negb (?r =? 0)] => destruct (Z.eqb_spec r 0); cbn [negb] in *
  | H : context [negb (?r =? 0)] |- _ => destruct (Z.eqb_spec r 0); cbn [negb] in *
  end.

Lemma Caseless_compare_antisym a : forall b,
  Caseless_compare false a b = - Caseless_compare false b a.
Proof.
  induction a as [|x a IH]; intros [|y b]; try reflexivity.
  caseless_cons; try lia. apply IH.
Qed.

Lemma Caseless_compare_trans a : forall b c,
  Caseless_compare false a b < 0 -> Caseless_compare false b c < 0 ->
  Caseless_compare false a c < 0.
Proof.
  induction a as [|x a IH]; intros [|y b] [|z c] H1 H2; try (cbn in *; lia).
  caseless_cons; try lia. eauto.
Qed.

Lemma Caseless_compare_zero a b :
  is_bytes a -> is_bytes b ->
  Caseless_compare false a b = 0 <-> map to_lower a = map to_lower b.
Proof.
  intros Ha. revert b. induction Ha as [|x a Hx Ha IH]; intros [|y b] Hb; try easy.
  inversion Hb; subst. cbn [map]. caseless_cons.
  - assert (to_lower x = to_lower y) as -> by (apply schar_inj; auto using to_lower_byte; lia).
    rewrite IH by easy. split; [now intros ->|now intros [=]].
  - split; [lia|]. intros [= E _]. rewrite E in *. lia.
Qed.

Lemma Caseless_equal_iff a b :
  Caseless_equal false a b = true <-> map to_lower a = map to_lower b.
Proof.
  unfold Caseless_equal. destruct (Nat.eqb_spec (length b) (length a)) as [L|L]; cbn [negb orb].
  - destruct (Nat.eqb_spec (length b) 0) as [Z|Z].
    + destruct a, b; easy.
    + rewrite equal_loop_spec by (try easy; now destruct b). split; auto.
  - split; [easy|]. intros E. apply (f_equal (@length Z)) in E. rewrite !length_map in E. lia.
Qed.

(** ** Claims *)

(** [Caseless::compare] is a strict weak order on strings whose
    equivalence is equality after [to_lower]: it is antisymmetric, transitive,
    and 0 exactly on strings that agree with [Caseless::equal], that is whose
    lower-cased characters are the same. *)
Theorem caseless_order a b c :
  is_bytes a -> is_bytes b ->
  Caseless_compare false a b = - Caseless_compare false b a /\
  (Caseless_compare false a b < 0 -> Caseless_compare false b c < 0 ->
   Caseless_compare false a c < 0) /\
  (Caseless_compare false a b = 0 <-> map to_lower a = map to_lower b) /\
  (Caseless_equal false a b = true <-> map to_lower a = map to_lower b).
Proof.
  intros Ha Hb.
  repeat split; try (apply Caseless_compare_zero; easy); try (apply Caseless_equal_iff);
    eauto using Caseless_compare_antisym, Caseless_compare_trans.
Qed.

Lemma caseless_order_witness :
  Caseless_compare false (lit "Host") (lit "hOST") = - Caseless_compare false (lit "hOST") (lit "Host") /\
  (Caseless_compare false (lit "Host") (lit "hOST") < 0 ->
   Caseless_compare false (lit "hOST") (lit "i") < 0 ->
   Caseless_compare false (lit "Host") (lit "i") < 0) /\
  (Caseless_compare false (lit "Host") (lit "hOST") = 0 <->
     map to_lower (lit "Host") = map to_lower (lit "hOST")) /\
  (Caseless_equal false (lit "Host") (lit "hOST") = true <->
     map to_lower (lit "Host") = map to_lower (lit "hOST")).
Proof. apply (caseless_order (lit "Host") (lit "hOST") (lit "i")); apply lit_bytes. Defined.

(** The table a [CharTable] constructor builds from a description owns
    exactly the characters the description lists: single characters and
    [a-b] ranges (cyclic when the bounds are reversed), and the terminator
    when [check_zero] is set. *)
Theorem char_table_exact str check_zero j :
  is_bytes str -> is_byte j ->
  table_owned (CharTable_new (Some str) check_zero) j =
    (check_zero && (j =? 0)) || listed str 0 j.
Proof. apply CharTable_new_lookup. Qed.

Lemma char_table_exact_witness :
  table_owned (CharTable_new (Some (lit "A-Fx")) false) (chr "C") =
    (false && (chr "C" =? 0)) || listed (lit "A-Fx") 0 (chr "C").
Proof. apply (char_table_exact (lit "A-Fx") false (chr "C")); [apply lit_bytes|apply chr_byte]. Defined.

(** [flatten] replaces every maximal run of owned characters by
    the replacement and copies the rest, and what it writes fits the buffer
    it allocates. *)
Theorem flatten_correct p str replacement :
  flatten p str replacement = flat_spec p replacement false str /\
  (length (flatten p str replacement) <= flatten_capacity str replacement)%nat.
Proof.
  unfold flatten. rewrite flatten_loop_spec by lia. split; [easy|apply flat_spec_length].
Qed.
