(* ===== verification/Utf8.v ===== *)
(** * Utf8: src/src/String/UTF8Handler.hpp, UnicodeSymbol.hpp and the UTF-8
    conversions of StringManip

    The functions of [UTF8Handler] read through a [const char*]: here the list
    of the cells from that pointer to the end of its buffer, and a read past
    the end is [Undef].  [UnicodeSymbol] is the class that stores one code
    unit; [StringManip.utf8_to_wchar], [wchar_to_utf8] and [utf8_substr] are
    the string conversions built on them. *)

From Stdlib Require Import ZArith List Bool Lia.
From S2P Require Import Prelude Ascii.
Import ListNotations.

(** ** UTF8Handler *)

Module UTF8Handler.

Definition trail (b : Z) : bool := Z.land b 0xC0 =? 0x80.

(** The [switch (B1)] on the second byte of 3 and 4 byte sequences. *)
Definition second_ok (B1 B2 : Z) : bool :=
  if B1 =? 0xE0 then Z.land B2 0xE0 =? 0xA0
  else if B1 =? 0xED then Z.land B2 0xE0 =? 0x80
  else if B1 =? 0xF0 then (0x90 <=? B2) && (B2 <=? 0xBF)
  else if B1 =? 0xF4 then Z.land B2 0xF0 =? 0x80
  else if B1 <=? 0xEF then trail B2
  else trail B2.

(** Returns the flag and the final [octets_count]. *)
Definition is_correct_utf8_sequence (src : list Z) : outcome (bool * Z) :=
  B1 <- rd src 0 ;;
  if B1 <=? 0x7F then Ret (true, 1)
  else if (B1 <? 0xC2) || (0xF4 <? B1) then Ret (false, 0)
  else
    B2 <- rd src 1 ;;
    if B1 <=? 0xDF then Ret (if trail B2 then (true, 2) else (false, 0))
    else if negb (second_ok B1 B2) then Ret (false, 0)
    else if B1 <? 0xF0 then
      B3 <- rd src 2 ;;
      Ret (if negb (trail B3) then (false, 0) else (true, 3))
    else
      B4 <- rd src 3 ;;
      Ret (if negb (trail B4) then (false, 0) else (true, 4)).

(** [for (...; *str; str += octets_count)]: the offset of the first bad
    sequence, or [None] for the null pointer.  Every iteration advances, so
    the size of the buffer is enough fuel. *)
Fixpoint is_correct_utf8_string_loop (fuel : nat) (off : nat) (str : list Z)
  : outcome (option nat) :=
  match fuel with
  | O => Undef
  | S fuel' =>
      c <- rd str 0 ;;
      if c =? 0 then Ret None
      else
        '(ok, octets_count) <- is_correct_utf8_sequence str ;;
        if negb ok then Ret (Some off)
        else is_correct_utf8_string_loop fuel' (off + Z.to_nat octets_count)
               (skipn (Z.to_nat octets_count) str)
  end.

Definition is_correct_utf8_string (str : list Z) : outcome (option nat) :=
  is_correct_utf8_string_loop (S (length str)) 0 str.

Definition TRAILING_BYTES_FOR_UTF8 : list Z :=
  repeat 1 128 ++ repeat 0 64 ++ [0; 0] ++ repeat 2 30 ++ repeat 3 16 ++
  repeat 4 8 ++ repeat 5 4 ++ [6; 6] ++ [0; 0].

Definition get_octet_count (ch : Z) : Z := nth (Z.to_nat ch) TRAILING_BYTES_FOR_UTF8 0.

Definition FIRST_BYTE_MASKS : list Z := [0; 0x7F; 0x1F; 0x0F; 0x07; 0x03; 0x01].

(** The loop over the trailing bytes: flag and [dest] when it stops. *)
Fixpoint trail_loop (n : nat) (src : list Z) (i : nat) (dest : Z) : outcome (bool * Z) :=
  match n with
  | O => Ret (true, dest)
  | S n' =>
      CH <- rd src i ;;
      if negb (trail CH) then Ret (false, dest)
      else trail_loop n' src (S i) (Z.lor (Z.shiftl dest 6) (Z.land CH 0x3F))
  end.

(** [src = None] is the null pointer. *)
Definition utf8_char_to_wchar (src : option (list Z)) (octets_count : Z)
  : outcome (bool * Z) :=
  match src with
  | None => Ret (false, 0)
  | Some src =>
      if (0 <? octets_count) && (octets_count <=? 6) then
        CH <- rd src 0 ;;
        let dest := Z.land CH (nth (Z.to_nat octets_count) FIRST_BYTE_MASKS 0) in
        trail_loop (Z.to_nat octets_count - 1) src 1 dest
      else Ret (false, 0)
  end.

(** The bytes written to [dest_buff]; [None] when nothing is written and
    [false] is returned. *)
Definition ulong_to_utf8_char (c : Z) : option (list Z) :=
  if c <? 0x80 then Some [Z.land c 0x7F]
  else if c <? 0x800 then
    Some [Z.lor (Z.land (Z.shiftr c 6) 0x1F) 0xC0; Z.lor (Z.land c 0x3F) 0x80]
  else if c <? 0x10000 then
    Some [Z.lor (Z.land (Z.shiftr c 12) 0x0F) 0xE0;
          Z.lor (Z.land (Z.shiftr c 6) 0x3F) 0x80; Z.lor (Z.land c 0x3F) 0x80]
  else if c <? 0x200000 then
    Some [Z.lor (Z.land (Z.shiftr c 18) 0x07) 0xF0;
          Z.lor (Z.land (Z.shiftr c 12) 0x3F) 0x80;
          Z.lor (Z.land (Z.shiftr c 6) 0x3F) 0x80; Z.lor (Z.land c 0x3F) 0x80]
  else if c <? 0x4000000 then
    Some [Z.lor (Z.land (Z.shiftr c 24) 0x03) 0xF8;
          Z.lor (Z.land (Z.shiftr c 18) 0x3F) 0x80;
          Z.lor (Z.land (Z.shiftr c 12) 0x3F) 0x80;
          Z.lor (Z.land (Z.shiftr c 6) 0x3F) 0x80; Z.lor (Z.land c 0x3F) 0x80]
  else if c <? 0x80000000 then
    Some [Z.lor (Z.land (Z.shiftr c 30) 0x01) 0xFC;
          Z.lor (Z.land (Z.shiftr c 24) 0x3F) 0x80;
          Z.lor (Z.land (Z.shiftr c 18) 0x3F) 0x80;
          Z.lor (Z.land (Z.shiftr c 12) 0x3F) 0x80;
          Z.lor (Z.land (Z.shiftr c 6) 0x3F) 0x80; Z.lor (Z.land c 0x3F) 0x80]
  else None.

(** [src] is a [wchar_t] (32-bit signed), converted to [unsigned long]. *)
Definition wchar_to_utf8_char (src : Z) : option (list Z) :=
  let ul4wc := u64 src in
  if ul4wc <? 0x80 then Some [Z.land ul4wc 0x7F]
  else if ul4wc <? 0x800 then
    Some [Z.lor (Z.land (Z.shiftr ul4wc 6) 0x1F) 0xC0; Z.lor (Z.land ul4wc 0x3F) 0x80]
  else if ul4wc <? 0x10000 then
    Some [Z.lor (Z.land (Z.shiftr ul4wc 12) 0x0F) 0xE0;
          Z.lor (Z.land (Z.shiftr ul4wc 6) 0x3F) 0x80; Z.lor (Z.land ul4wc 0x3F) 0x80]
  else if ul4wc <? 0x200000 then
    Some [Z.lor (Z.land (Z.shiftr ul4wc 18) 0x07) 0xF0;
          Z.lor (Z.land (Z.shiftr ul4wc 12) 0x3F) 0x80;
          Z.lor (Z.land (Z.shiftr ul4wc 6) 0x3F) 0x80; Z.lor (Z.land ul4wc 0x3F) 0x80]
  else None.

(** [distance_to_sequence_beginning]: [buf] is the whole buffer and [pos] the
    offset of [src] in it; [limit] is an offset or the null pointer.  The
    result is [None] for [false], else the octet count and the distance. *)
Fixpoint back_loop (buf : list Z) (limit : option nat) (p : nat) (pos : nat)
  : outcome (option nat) :=
  CH <- rd buf p ;;
  if trail CH then
    if match limit with Some l => (p =? l)%nat | None => false end then Ret None
    else match p with
         | O => Undef
         | S p' => back_loop buf limit p' pos
         end
  else Ret (Some p).

Definition distance_to_sequence_beginning (buf : list Z) (pos : nat) (limit : option nat)
  : outcome (option (Z * Z)) :=
  CH <- rd buf pos ;;
  if negb (0 <? Z.land CH 0x80) then Ret (Some (1, 0))
  else
    found <- back_loop buf limit pos pos ;;
    match found with
    | None => Ret None
    | Some p =>
        let distance := Z.of_nat (pos - p) in
        lead <- rd buf p ;;
        let octets_count := get_octet_count lead in
        if (octets_count =? 0) || (octets_count <=? distance) then Ret None
        else Ret (Some (octets_count, distance))
    end.

End UTF8Handler.
Import UTF8Handler.

(** ** UnicodeSymbol *)

Module UnicodeSymbol.

Record t : Type := mk { code_unit : Z }.

Definition MAX_CODE_UNIT : Z := 0x10FFFF.
Definition NULL_CODE_UNIT : Z := -1.

Definition check_validity (value : Z) : bool :=
  ((0 <=? value) && (value <=? 0xD7FF)) ||
  ((0xE000 <=? value) && (value <=? MAX_CODE_UNIT)).

Definition default : t := mk NULL_CODE_UNIT.

Definition of_wchar (code_unit : Z) : outcome t :=
  if negb (check_validity code_unit) then Throw RangeException else Ret (mk code_unit).

Definition of_bytes (byte_sequence : list Z) : outcome t :=
  '(ok, count) <- is_correct_utf8_sequence byte_sequence ;;
  if ok then
    '(ok2, wchar) <- utf8_char_to_wchar (Some byte_sequence) count ;;
    if ok2 then Ret (mk wchar) else Throw RangeException
  else Throw RangeException.

Definition length (u : t) : outcome Z :=
  if code_unit u <=? 0x7F then Ret 1
  else if code_unit u <=? 0x07FF then Ret 2
  else if code_unit u <=? 0xFFFF then Ret 3
  else if code_unit u <=? 0x10FFFF then Ret 4
  else Throw RangeException.

Definition is_null (u : t) : bool := code_unit u =? NULL_CODE_UNIT.
Definition set_null (u : t) : t := mk NULL_CODE_UNIT.

(** The text of [as_text_] up to its terminator; a code unit that does not
    encode leaves [octets_count] 0 and so the empty string. *)
Definition c_str (u : t) : outcome (list Z) :=
  if is_null u then Throw RangeException
  else match wchar_to_utf8_char (code_unit u) with
       | Some buf => Ret buf
       | None => Ret []
       end.

Definition incr (u : t) : outcome t :=
  if negb (check_validity (code_unit u)) || is_null u then Throw RangeException
  else if code_unit u <=? MAX_CODE_UNIT then
    if code_unit u =? 0xD7FF then Ret (mk 0xE000)
    else Ret (mk (code_unit u + 1))
  else Ret u.

Definition decr (u : t) : outcome t :=
  if negb (check_validity (code_unit u)) || (code_unit u =? 0) || is_null u
  then Throw RangeException
  else if 0 <? code_unit u then
    if code_unit u =? 0xE000 then Ret (mk 0xD7FF)
    else Ret (mk (code_unit u - 1))
  else Ret u.

End UnicodeSymbol.

(** ** UTF-8 conversions of StringManip *)

Module Utf8Manip.

(** [utf8_to_wchar]: [src] is the substring, [rest] what is left of it. *)
Fixpoint utf8_to_wchar_loop (fuel : nat) (rest : list Z) : outcome (list Z) :=
  match fuel with
  | O => Undef
  | S fuel' =>
      match rest with
      | [] => Ret []
      | ch :: _ =>
          let len := get_octet_count ch in
          if Z.of_nat (length rest) <? len then Throw InvalidFormatException
          else if len =? 0 then Throw InvalidFormatException
          else
            '(ok, wch) <- utf8_char_to_wchar (Some rest) len ;;
            if negb ok then Throw InvalidFormatException
            else
              dst <- utf8_to_wchar_loop fuel' (skipn (Z.to_nat len) rest) ;;
              Ret (wch :: dst)
      end
  end.

Definition utf8_to_wchar (src : list Z) : outcome (list Z) :=
  utf8_to_wchar_loop (S (length src)) src.

(** [wchar_to_utf8(wchar_t, std::string&)]: the bytes it appends. *)
Definition wchar_to_utf8_append (src : Z) : list Z :=
  let c := u32 src in
  if c <? 0x80 then [Z.land c 0x7F]
  else if c <? 0x10000 then
    if c <? 0x800 then
      [Z.lor (Z.land (Z.shiftr c 6) 0x1F) 0xC0; Z.lor (Z.land c 0x3F) 0x80]
    else
      [Z.lor (Z.land (Z.shiftr c 12) 0x0F) 0xE0;
       Z.lor (Z.land (Z.shiftr c 6) 0x3F) 0x80; Z.lor (Z.land c 0x3F) 0x80]
  else if c <? 0x200000 then
    [Z.lor (Z.land (Z.shiftr c 18) 0x07) 0xF0;
     Z.lor (Z.land (Z.shiftr c 12) 0x3F) 0x80;
     Z.lor (Z.land (Z.shiftr c 6) 0x3F) 0x80; Z.lor (Z.land c 0x3F) 0x80]
  else if c <? 0x4000000 then
    [Z.lor (Z.land (Z.shiftr c 24) 0x03) 0xF8;
     Z.lor (Z.land (Z.shiftr c 18) 0x3F) 0x80;
     Z.lor (Z.land (Z.shiftr c 12) 0x3F) 0x80;
     Z.lor (Z.land (Z.shiftr c 6) 0x3F) 0x80; Z.lor (Z.land c 0x3F) 0x80]
  else
    [Z.lor (Z.land (Z.shiftr c 30) 0x01) 0xFC;
     Z.lor (Z.land (Z.shiftr c 24) 0x3F) 0x80;
     Z.lor (Z.land (Z.shiftr c 18) 0x3F) 0x80;
     Z.lor (Z.land (Z.shiftr c 12) 0x3F) 0x80;
     Z.lor (Z.land (Z.shiftr c 6) 0x3F) 0x80; Z.lor (Z.land c 0x3F) 0x80].

(** The substring version; the zero-terminated one is the same loop on the
    characters before the terminator. *)
Fixpoint wchar_to_utf8 (src : list Z) : list Z :=
  match src with
  | [] => []
  | w :: src' => wchar_to_utf8_append w ++ wchar_to_utf8 src'
  end.

Definition wchar_to_utf8_ptr (src : option (list Z)) : list Z :=
  match src with None => [] | Some s => wchar_to_utf8 s end.

(** The inner loop of [utf8_substr]: [left] trailing bytes at [length]. *)
Fixpoint substr_trail (left : nat) (src : list Z) (len : nat) : outcome (option nat) :=
  match left with
  | O => Ret (Some len)
  | S left' =>
      c <- rd src len ;;
      if negb (trail c) then Ret None else substr_trail left' src (S len)
  end.

Fixpoint utf8_substr_loop (fuel : nat) (src : list Z) (len : nat) (max_octets : Z)
  : outcome (option nat) :=
  match fuel with
  | O => Undef
  | S fuel' =>
      if negb (max_octets =? 0) && (len <? length src)%nat then
        c <- rd src len ;;
        let octets := get_octet_count c in
        if max_octets <? octets then Ret (Some len)
        else if (octets =? 0) || (length src <? len + Z.to_nat octets)%nat then Ret None
        else
          r <- substr_trail (Z.to_nat octets - 1) src (S len) ;;
          match r with
          | None => Ret None
          | Some len' => utf8_substr_loop fuel' src len' (max_octets - octets)
          end
      else Ret (Some len)
  end.

(** [None] is [false]; [Some dst] is [true] with the substring assigned. *)
Definition utf8_substr (src : list Z) (max_octets : Z) : outcome (option (list Z)) :=
  r <- utf8_substr_loop (S (length src)) src 0 max_octets ;;
  Ret (option_map (fun len => firstn len src) r).

End Utf8Manip.

(** ** Facts: bytes *)

Definition between (a b x : Z) : bool := (a <=? x) && (x <=? b).

Lemma between_iff a b x : between a b x = true <-> a <= x <= b.
Proof. unfold between. rewrite andb_true_iff, !Z.leb_le. reflexivity. Qed.

Lemma byte_eqb (f g : Z -> bool) :
  forallb (fun b => Bool.eqb (f b) (g b)) all_bytes = true ->
  forall b, is_byte b -> f b = g b.
Proof.
  intros H b Hb. apply eqb_prop. revert b Hb. exact (byte_forall _ H).
Qed.

Lemma trail_range b : is_byte b -> trail b = between 0x80 0xBF b.
Proof. revert b. apply byte_eqb. vm_compute. reflexivity. Qed.

Lemma mask_A0 b : is_byte b -> (Z.land b 0xE0 =? 0xA0) = between 0xA0 0xBF b.
Proof. revert b. apply (byte_eqb (fun b => Z.land b 0xE0 =? 0xA0)). vm_compute. reflexivity. Qed.

Lemma mask_80_9F b : is_byte b -> (Z.land b 0xE0 =? 0x80) = between 0x80 0x9F b.
Proof. revert b. apply (byte_eqb (fun b => Z.land b 0xE0 =? 0x80)). vm_compute. reflexivity. Qed.

Lemma mask_80_8F b : is_byte b -> (Z.land b 0xF0 =? 0x80) = between 0x80 0x8F b.
Proof. revert b. apply (byte_eqb (fun b => Z.land b 0xF0 =? 0x80)). vm_compute. reflexivity. Qed.

(** A continuation byte carries the low six bits. *)
Definition cont (x : Z) : Z := Z.lor (Z.land x 0x3F) 0x80.

Lemma land_3F x : Z.land x 0x3F = x mod 64.
Proof. exact (land_mask x 6 ltac:(lia)). Qed.

Lemma cont_facts x :
  is_byte (cont x) /\ trail (cont x) = true /\ Z.land (cont x) 0x3F = x mod 64.
Proof.
  unfold cont. rewrite land_3F. set (y := x mod 64).
  assert (0 <= y < 64) by (apply Z.mod_pos_bound; lia).
  assert (is_byte y) by (unfold is_byte; lia).
  pose (f := fun y => implb (y <? 64) (between 0 255 (Z.lor y 0x80) && trail (Z.lor y 0x80) &&
                      (Z.land (Z.lor y 0x80) 0x3F =? y))).
  assert (f y = true) as F.
  { revert H0. generalize y. apply byte_forall. vm_compute. reflexivity. }
  unfold f in F. rewrite (proj2 (Z.ltb_lt y 64)) in F by lia. cbn [implb] in F.
  bools. apply between_iff in H1. unfold is_byte. repeat split; try easy; lia.
Qed.

Lemma cont_trail x : trail (cont x) = true.
Proof. apply cont_facts. Qed.

Lemma glue c k : 0 <= k ->
  Z.lor (Z.shiftl (Z.shiftr c (k + 6)) 6) (Z.land (cont (Z.shiftr c k)) 0x3F) = Z.shiftr c k.
Proof.
  intros Hk. rewrite (proj2 (proj2 (cont_facts _))).
  rewrite lor_shiftl_small by (try apply Z.mod_pos_bound; lia).
  rewrite !Z.shiftr_div_pow2, Z.pow_add_r by lia. change (2 ^ 6) with 64.
  rewrite <- Z.div_div by lia. pose proof (Z.div_mod (c / 2 ^ k) 64). lia.
Qed.

Lemma glue0 c :
  Z.lor (Z.shiftl (Z.shiftr c 6) 6) (Z.land (cont c) 0x3F) = c.
Proof. pose proof (glue c 0 ltac:(lia)) as G. now rewrite Z.shiftr_0_r in G. Qed.

(** The lead byte of an [n]-octet sequence: [y] has the payload bits.  With
    [lo] the least payload the encoder produces, the table announces [n]. *)
Definition lead (n tag y : Z) : Z := Z.lor (Z.land y (nth (Z.to_nat n) FIRST_BYTE_MASKS 0)) tag.

Definition lead_check (n tag lo : Z) : bool :=
  forallb (fun y => implb (between lo (nth (Z.to_nat n) FIRST_BYTE_MASKS 0) y)
    (between 0 255 (lead n tag y) && (get_octet_count (lead n tag y) =? n) &&
     (Z.land (lead n tag y) (nth (Z.to_nat n) FIRST_BYTE_MASKS 0) =? y))) all_bytes.

Lemma lead_facts n tag lo y :
  lead_check n tag lo = true -> nth (Z.to_nat n) FIRST_BYTE_MASKS 0 < 256 -> 0 <= lo ->
  lo <= y <= nth (Z.to_nat n) FIRST_BYTE_MASKS 0 ->
  is_byte (lead n tag y) /\ get_octet_count (lead n tag y) = n /\
  Z.land (lead n tag y) (nth (Z.to_nat n) FIRST_BYTE_MASKS 0) = y.
Proof.
  intros H HM Hl Hy. unfold lead_check in H. rewrite forallb_forall in H. specialize (H y).
  rewrite (proj2 (between_iff _ _ y)) in H by lia. cbn [implb] in H.
  assert (is_byte y) as B by (unfold is_byte; lia).
  specialize (H (all_bytes_In y B)). bools. apply between_iff in H. unfold is_byte.
  repeat split; first [easy | lia].
Qed.

Lemma shiftr_bound c k m : 0 <= k -> 0 <= c < m * 2 ^ k -> 0 <= Z.shiftr c k <= m - 1.
Proof.
  intros Hk Hc. rewrite Z.shiftr_div_pow2 by easy.
  assert (0 < 2 ^ k) by lia.
  split; [apply Z.div_pos; lia|]. enough (c / 2 ^ k < m) by lia.
  apply Z.div_lt_upper_bound; lia.
Qed.

Lemma trail_loop_step n src i dest x :
  nth_error src i = Some (cont x) ->
  trail_loop (S n) src i dest =
    trail_loop n src (S i) (Z.lor (Z.shiftl dest 6) (Z.land (cont x) 0x3F)).
Proof. intros H. cbn [trail_loop]. unfold rd. rewrite H. cbn [bind]. now rewrite cont_trail. Qed.

(** ** Encoding and decoding one code point *)

(** The octets of [ulong_to_utf8_char], [n] of them, with their lead. *)
Inductive encodes (c : Z) : Z -> list Z -> Prop :=
| enc1 : 0 <= c < 0x80 -> encodes c 1 [Z.land c 0x7F]
| enc2 : 0x80 <= c < 0x800 ->
    encodes c 2 [Z.lor (Z.land (Z.shiftr c 6) 0x1F) 0xC0; cont c]
| enc3 : 0x800 <= c < 0x10000 ->
    encodes c 3 [Z.lor (Z.land (Z.shiftr c 12) 0x0F) 0xE0; cont (Z.shiftr c 6); cont c]
| enc4 : 0x10000 <= c < 0x200000 ->
    encodes c 4 [Z.lor (Z.land (Z.shiftr c 18) 0x07) 0xF0; cont (Z.shiftr c 12);
                 cont (Z.shiftr c 6); cont c]
| enc5 : 0x200000 <= c < 0x4000000 ->
    encodes c 5 [Z.lor (Z.land (Z.shiftr c 24) 0x03) 0xF8; cont (Z.shiftr c 18);
                 cont (Z.shiftr c 12); cont (Z.shiftr c 6); cont c]
| enc6 : 0x4000000 <= c < 0x80000000 ->
    encodes c 6 [Z.lor (Z.land (Z.shiftr c 30) 0x01) 0xFC; cont (Z.shiftr c 24);
                 cont (Z.shiftr c 18); cont (Z.shiftr c 12); cont (Z.shiftr c 6); cont c].

Lemma ulong_encodes c :
  0 <= c < 0x80000000 -> exists n bs, ulong_to_utf8_char c = Some bs /\ encodes c n bs.
Proof.
  intros H. unfold ulong_to_utf8_char. fold (cont c) (cont (Z.shiftr c 6)) (cont (Z.shiftr c 12))
    (cont (Z.shiftr c 18)) (cont (Z.shiftr c 24)).
  split_ifs; try (eexists; eexists; split; [reflexivity|]; constructor; lia). lia.
Qed.

Lemma append_encodes w :
  0 <= w < 0x80000000 -> exists n, encodes w n (Utf8Manip.wchar_to_utf8_append w).
Proof.
  intros H. unfold Utf8Manip.wchar_to_utf8_append.
  rewrite wrapu_small by (change (2 ^ 32) with 0x100000000; lia).
  fold (cont w) (cont (Z.shiftr w 6)) (cont (Z.shiftr w 12)) (cont (Z.shiftr w 18))
    (cont (Z.shiftr w 24)).
  split_ifs; eexists; constructor; lia.
Qed.

Lemma wchar_encodes w :
  0 <= w < 0x200000 -> exists n bs, wchar_to_utf8_char w = Some bs /\ encodes w n bs.
Proof.
  intros H. unfold wchar_to_utf8_char.
  rewrite wrapu_small by (change (2 ^ 64) with 0x10000000000000000; lia).
  cbv zeta. fold (cont w) (cont (Z.shiftr w 6)) (cont (Z.shiftr w 12)).
  split_ifs; try (eexists; eexists; split; [reflexivity|]; constructor; lia). lia.
Qed.

(** What the bytes of a code point have in common: their number, that the
    first announces that number, and that they decode to the code point
    whatever follows them. *)
Lemma encodes_decode c n y rs :
  1 <= n <= 6 ->
  Z.land y (nth (Z.to_nat n) FIRST_BYTE_MASKS 0) = Z.shiftr c (6 * (n - 1)) ->
  rs = map (fun k => cont (Z.shiftr c (6 * Z.of_nat k))) (rev (seq 0 (Z.to_nat n - 1))) ->
  forall rest, utf8_char_to_wchar (Some (y :: rs ++ rest)) n = Ret (true, c).
Proof.
  intros Hn Hy -> rest. unfold utf8_char_to_wchar.
  destruct (Z.ltb_spec 0 n); [|lia]. destruct (Z.leb_spec n 6); [|lia]. cbn [andb rd nth_error bind].
  rewrite Hy.
  assert (forall m i pre, length pre = i ->
    trail_loop m (pre ++ map (fun k => cont (Z.shiftr c (6 * Z.of_nat k))) (rev (seq 0 m)) ++ rest)
      i (Z.shiftr c (6 * Z.of_nat m)) = Ret (true, c)) as T.
  { induction m as [|m IH]; intros i pre L; [change (6 * Z.of_nat 0) with 0; now rewrite Z.shiftr_0_r|].
    rewrite seq_S, rev_app_distr. cbn [rev app map Nat.add].
    rewrite (trail_loop_step _ _ _ _ (Z.shiftr c (6 * Z.of_nat m))).
    2:{ rewrite nth_error_app2 by lia. now rewrite L, Nat.sub_diag. }
    replace (6 * Z.of_nat (S m)) with (6 * Z.of_nat m + 6) by lia.
    rewrite glue by lia.
    specialize (IH (S i) (pre ++ [cont (Z.shiftr c (6 * Z.of_nat m))])).
    rewrite <- app_assoc in IH. apply IH. rewrite length_app. cbn. lia. }
  replace (6 * (n - 1)) with (6 * Z.of_nat (Z.to_nat n - 1)) by lia.
  exact (T (Z.to_nat n - 1)%nat 1%nat [y] eq_refl).
Qed.

(** What the bytes of a code point have in common: their number, that the
    first announces that number, and that they decode to the code point
    whatever follows them. *)
Lemma encodes_facts c n bs :
  encodes c n bs ->
  Z.of_nat (length bs) = n /\ is_bytes bs /\ 1 <= n <= 6 /\
  (exists b r, bs = b :: r /\ get_octet_count b = n) /\
  forall rest, utf8_char_to_wchar (Some (bs ++ rest)) n = Ret (true, c).
Proof.
  intros E.
  assert (exists lo tag y, lead_check n tag lo = true /\ 0 <= lo /\ 1 <= n <= 6 /\
    lo <= Z.shiftr c (6 * (n - 1)) <= nth (Z.to_nat n) FIRST_BYTE_MASKS 0 /\
    y = lead n tag (Z.shiftr c (6 * (n - 1))) /\
    bs = y :: map (fun k => cont (Z.shiftr c (6 * Z.of_nat k))) (rev (seq 0 (Z.to_nat n - 1))))
    as (lo & tag & y & HC & Hlo & Hn & Hb & -> & ->).
  { destruct E; [exists 0, 0 | exists 2, 0xC0 | exists 0, 0xE0 | exists 0, 0xF0
                | exists 0, 0xF8 | exists 0, 0xFC]; eexists;
      (split; [vm_compute; reflexivity|]); (split; [lia|]); (split; [lia|]);
      (split; [|split; [reflexivity|unfold lead; rewrite ?Z.lor_0_r; reflexivity]]);
      match goal with |- context [Z.shiftr c ?k] =>
        let v := eval vm_compute in k in change k with v end;
      match goal with |- context [nth ?k FIRST_BYTE_MASKS 0] =>
        let v := eval vm_compute in (nth k FIRST_BYTE_MASKS 0) in
        change (nth k FIRST_BYTE_MASKS 0) with v end;
      rewrite Z.shiftr_div_pow2 by lia;
      match goal with |- context [2 ^ ?k] =>
        let v := eval vm_compute in (2 ^ k) in change (2 ^ k) with v end;
      Z.div_mod_to_equations; lia. }
  assert (nth (Z.to_nat n) FIRST_BYTE_MASKS 0 < 256) as HM.
  { assert (In n [1;2;3;4;5;6]) as I by (cbn; lia). cbn in I.
    intuition (subst; vm_compute; reflexivity). }
  destruct (lead_facts n tag lo _ HC HM Hlo Hb) as (B1 & B2 & B3).
  repeat split; try lia.
  - cbn [length]. rewrite length_map, length_rev, length_seq. lia.
  - constructor; [easy|]. apply Forall_map, Forall_forall. intros k _. apply cont_facts.
  - eauto.
  - intros rest. cbn [app]. now apply encodes_decode.
Qed.

(** ** Well-formed sequences

    Table 3-7 of the Unicode standard. *)

Definition wf2 (b1 b2 : Z) : bool := between 0xC2 0xDF b1 && between 0x80 0xBF b2.
Definition lead3 (b1 b2 : Z) : bool :=
  ((b1 =? 0xE0) && between 0xA0 0xBF b2) || (between 0xE1 0xEC b1 && between 0x80 0xBF b2) ||
  ((b1 =? 0xED) && between 0x80 0x9F b2) || (between 0xEE 0xEF b1 && between 0x80 0xBF b2).
Definition lead4 (b1 b2 : Z) : bool :=
  ((b1 =? 0xF0) && between 0x90 0xBF b2) || (between 0xF1 0xF3 b1 && between 0x80 0xBF b2) ||
  ((b1 =? 0xF4) && between 0x80 0x8F b2).
Definition wf3 (b1 b2 b3 : Z) : bool := lead3 b1 b2 && between 0x80 0xBF b3.
Definition wf4 (b1 b2 b3 b4 : Z) : bool :=
  lead4 b1 b2 && between 0x80 0xBF b3 && between 0x80 0xBF b4.

Inductive well_formed : list Z -> Prop :=
| wf_1 b1 : 0 <= b1 <= 0x7F -> well_formed [b1]
| wf_2 b1 b2 : wf2 b1 b2 = true -> well_formed [b1; b2]
| wf_3 b1 b2 b3 : wf3 b1 b2 b3 = true -> well_formed [b1; b2; b3]
| wf_4 b1 b2 b3 b4 : wf4 b1 b2 b3 b4 = true -> well_formed [b1; b2; b3; b4].

(** A text: a concatenation of well-formed sequences. *)
Inductive utf8_text : list Z -> Prop :=
| text_nil : utf8_text []
| text_app q s : well_formed q -> utf8_text s -> utf8_text (q ++ s).

Ltac range_cases := unfold wf2, wf3, wf4, lead3, lead4, between, is_byte in *; split_ifs; try reflexivity; lia.

Lemma second_ok_spec B1 B2 :
  is_byte B1 -> is_byte B2 -> 0xE0 <= B1 <= 0xF4 ->
  second_ok B1 B2 =
    if B1 <? 0xF0 then lead3 B1 B2 else lead4 B1 B2.
Proof.
  intros H1 H2 H. unfold second_ok.
  rewrite mask_A0, mask_80_9F, mask_80_8F, trail_range by easy. range_cases.
Qed.

Lemma rd_cons_0 {A} (x : A) l : rd (x :: l) 0 = Ret x.
Proof. reflexivity. Qed.

(** The value of the checker on a buffer long enough for the lead byte. *)
Lemma check_4 b1 b2 b3 b4 r :
  is_bytes [b1; b2; b3; b4] -> 0xF0 <= b1 <= 0xF4 ->
  is_correct_utf8_sequence (b1 :: b2 :: b3 :: b4 :: r) =
    Ret (if wf4 b1 b2 0x80 b4 then (true, 4) else (false, 0)).
Proof.
  intros HB H. inversion HB as [|? ? B1 HB2]; inversion HB2 as [|? ? B2 HB3];
    inversion HB3 as [|? ? B3 HB4]; inversion HB4 as [|? ? B4 _]; subst.
  unfold is_correct_utf8_sequence. cbn [rd nth_error bind].
  rewrite second_ok_spec by (easy || lia).
  unfold wf4. rewrite (proj2 (Z.leb_gt b1 0x7F)), (proj2 (Z.leb_gt b1 0xDF)),
    (proj2 (Z.ltb_ge b1 0xC2)), (proj2 (Z.ltb_ge 0xF4 b1)), (proj2 (Z.ltb_ge b1 0xF0)) by lia.
  cbn [orb]. replace (between 0x80 0xBF 0x80) with true by reflexivity.
  destruct (lead4 b1 b2); [|easy]. cbn [negb andb].
  rewrite trail_range by easy. now destruct (between 0x80 0xBF b4).
Qed.

Lemma check_3 b1 b2 b3 r :
  is_bytes [b1; b2; b3] -> 0xE0 <= b1 <= 0xEF ->
  is_correct_utf8_sequence (b1 :: b2 :: b3 :: r) =
    Ret (if wf3 b1 b2 b3 then (true, 3) else (false, 0)).
Proof.
  intros HB H. inversion HB as [|? ? B1 HB2]; inversion HB2 as [|? ? B2 HB3];
    inversion HB3 as [|? ? B3 _]; subst.
  unfold is_correct_utf8_sequence. cbn [rd nth_error bind].
  rewrite second_ok_spec by (easy || lia).
  rewrite (proj2 (Z.leb_gt b1 0x7F)), (proj2 (Z.leb_gt b1 0xDF)),
    (proj2 (Z.ltb_ge b1 0xC2)), (proj2 (Z.ltb_ge 0xF4 b1)), (proj2 (Z.ltb_lt b1 0xF0)) by lia.
  unfold wf3. cbn [orb]. destruct (lead3 b1 b2); [|easy]. cbn [negb andb].
  rewrite trail_range by easy. now destruct (between 0x80 0xBF b3).
Qed.

Lemma check_2 b1 b2 r :
  is_bytes [b1; b2] -> 0xC2 <= b1 <= 0xDF ->
  is_correct_utf8_sequence (b1 :: b2 :: r) =
    Ret (if wf2 b1 b2 then (true, 2) else (false, 0)).
Proof.
  intros HB H. inversion HB as [|? ? B1 HB2]; inversion HB2 as [|? ? B2 _]; subst.
  unfold is_correct_utf8_sequence. cbn [rd nth_error bind].
  rewrite trail_range by easy.
  rewrite (proj2 (Z.leb_gt b1 0x7F)), (proj2 (Z.leb_le b1 0xDF)),
    (proj2 (Z.ltb_ge b1 0xC2)), (proj2 (Z.ltb_ge 0xF4 b1)) by lia.
  replace (wf2 b1 b2) with (between 128 191 b2) by range_cases. reflexivity.
Qed.

Lemma check_1 b1 r :
  0 <= b1 <= 0x7F -> is_correct_utf8_sequence (b1 :: r) = Ret (true, 1).
Proof. intros H. unfold is_correct_utf8_sequence. cbn [rd nth_error bind]. now rewrite (proj2 (Z.leb_le b1 0x7F)) by lia. Qed.

Lemma well_formed_bytes q : well_formed q -> is_bytes q.
Proof.
  destruct 1; repeat constructor; range_cases.
Qed.

(** A well-formed sequence is accepted with its length, whatever follows. *)
Lemma well_formed_accepted q r :
  well_formed q -> is_correct_utf8_sequence (q ++ r) = Ret (true, Z.of_nat (length q)).
Proof.
  intros W. pose proof (well_formed_bytes q W) as B. destruct W; cbn [app length].
  - now apply check_1.
  - rewrite check_2 by (easy || range_cases). now rewrite H.
  - rewrite check_3 by (easy || range_cases). now rewrite H.
  - rewrite check_4 by (easy || range_cases).
    replace (wf4 b1 b2 128 b4) with true; [easy|]. symmetry. range_cases.
Qed.

(** Lead bytes of 4-octet sequences, as the code takes them. *)
Definition lead_of_four (b : Z) : Prop := 0xF0 <= b <= 0xF4.

(** Without one a buffer starts with a well-formed sequence or is rejected,
    the terminator standing in for the missing bytes. *)
Definition starts_or_rejected (s r : list Z) : Prop :=
  (exists q s', s = q ++ s' /\ well_formed q) \/
  is_correct_utf8_sequence (s ++ 0 :: r) = Ret (false, 0).

Lemma starts_2 b1 s r :
  is_bytes (b1 :: s) -> 0xC2 <= b1 <= 0xDF -> starts_or_rejected (b1 :: s) r.
Proof.
  intros HB H. inversion HB as [|? ? B1 HB1]; subst. assert (is_byte 0) by (split; lia).
  destruct s as [|b2 s]; unfold starts_or_rejected; cbn [app].
  - right. rewrite check_2 by (try lia; unfold is_bytes; auto).
    now replace (wf2 b1 0) with false by range_cases.
  - inversion HB1; subst. destruct (wf2 b1 b2) eqn:W.
    + left. exists [b1; b2], s. split; [easy|]. now constructor.
    + right. rewrite check_2 by (try lia; unfold is_bytes; auto). now rewrite W.
Qed.

Lemma starts_3 b1 s r :
  is_bytes (b1 :: s) -> 0xE0 <= b1 <= 0xEF -> starts_or_rejected (b1 :: s) r.
Proof.
  intros HB H. inversion HB as [|? ? B1 HB1]; subst. assert (is_byte 0) by (split; lia).
  destruct s as [|b2 [|b3 s]]; unfold starts_or_rejected; cbn [app].
  - right. unfold is_correct_utf8_sequence. cbn [app rd nth_error bind].
    rewrite second_ok_spec by (easy || lia).
    rewrite (proj2 (Z.leb_gt b1 0x7F)), (proj2 (Z.leb_gt b1 0xDF)),
      (proj2 (Z.ltb_ge b1 0xC2)), (proj2 (Z.ltb_ge 0xF4 b1)), (proj2 (Z.ltb_lt b1 0xF0)) by lia.
    now replace (lead3 b1 0) with false by range_cases.
  - right. inversion HB1; subst. rewrite check_3 by (try lia; unfold is_bytes; auto).
    now replace (wf3 b1 b2 0) with false by range_cases.
  - inversion HB1 as [|? ? ? HB2]; inversion HB2; subst. destruct (wf3 b1 b2 b3) eqn:W.
    + left. exists [b1; b2; b3], s. split; [easy|]. now constructor.
    + right. rewrite check_3 by (try lia; unfold is_bytes; auto). now rewrite W.
Qed.

Lemma starts_any b1 s r :
  is_bytes (b1 :: s) -> ~ lead_of_four b1 -> starts_or_rejected (b1 :: s) r.
Proof.
  unfold lead_of_four. intros HB H. inversion HB as [|? ? [B1 B1'] HB1]; subst.
  destruct (Z.le_gt_cases b1 0x7F).
  { left. exists [b1], s. split; [easy|]. constructor. lia. }
  destruct (Z.lt_ge_cases b1 0xC2).
  { right. unfold is_correct_utf8_sequence. cbn [app rd nth_error bind].
    now rewrite (proj2 (Z.leb_gt b1 0x7F)), (proj2 (Z.ltb_lt b1 0xC2)) by lia. }
  destruct (Z.lt_ge_cases 0xF4 b1).
  { right. unfold is_correct_utf8_sequence. cbn [app rd nth_error bind].
    now rewrite (proj2 (Z.leb_gt b1 0x7F)), (proj2 (Z.ltb_lt 0xF4 b1)), orb_true_r by lia. }
  destruct (Z.le_gt_cases b1 0xDF); [apply starts_2|apply starts_3]; easy || lia.
Qed.

(** [bad_at s k]: [s] is well-formed up to [k] and not from there on. *)
Definition bad_at (s : list Z) (k : nat) : Prop :=
  exists t u, s = t ++ u /\ utf8_text t /\ length t = k /\ u <> [] /\ forall q u', u = q ++ u' -> ~ well_formed q.

Lemma string_loop_exact n : forall s off r,
  (length s < n)%nat -> Forall (fun b => 0 < b <= 0xFF /\ ~ lead_of_four b) s ->
  (utf8_text s /\ is_correct_utf8_string_loop n off (s ++ 0 :: r) = Ret None) \/
  (~ utf8_text s /\ exists k, bad_at s k /\ is_correct_utf8_string_loop n off (s ++ 0 :: r) = Ret (Some (off + k)%nat)).
Proof.
  induction n as [|n IH]; intros s off r L HF; [lia|]. destruct s as [|b1 s].
  { left. split; [constructor|reflexivity]. }
  assert (is_bytes (b1 :: s)) as HB by (eapply Forall_impl; [|exact HF]; unfold is_byte; cbn; lia).
  inversion HF as [|? ? [F1 F2] HF1]; subst. cbn [is_correct_utf8_string_loop app rd nth_error bind].
  rewrite (proj2 (Z.eqb_neq b1 0)) by lia.
  change (b1 :: s ++ 0 :: r) with ((b1 :: s) ++ 0 :: r).
  destruct (starts_any b1 s r HB F2) as [(q & s' & E & W) | R].
  - rewrite E in *. rewrite <- app_assoc, well_formed_accepted by easy. cbn [bind negb].
    rewrite Nat2Z.id, skipn_app, skipn_all, Nat.sub_diag. cbn [skipn app].
    apply Forall_app in HF as [HFq HF'].
    assert (length q <> 0)%nat by (destruct W; easy). rewrite length_app in L.
    destruct (IH s' (off + length q)%nat r) as [[T C] | (T & k & B & C)]; try easy; [lia|left|right].
    + split; [now constructor|exact C].
    + split.
      * intros T'. apply T. inversion T' as [|q2 s2 W2 T2 E2]; [now destruct q|].
        pose proof (well_formed_accepted q s' W) as A1. pose proof (well_formed_accepted q2 s2 W2) as A2.
        rewrite E2 in A2. rewrite A1 in A2. injection A2 as A2. apply Nat2Z.inj in A2.
        apply app_inj_length in E2 as [-> ->]; easy.
      * exists (length q + k)%nat. rewrite Nat.add_assoc. split; [|exact C]. destruct B as (t & u & -> & Ht & <- & Hu).
        exists (q ++ t), u. rewrite length_app, app_assoc. repeat split; try apply Hu. now constructor.
  - assert (forall q u', b1 :: s = q ++ u' -> ~ well_formed q) as N.
    { intros q u' E W. rewrite E, <- app_assoc, well_formed_accepted in R by easy. discriminate. }
    right. split.
    + intros T. inversion T as [|q2 s2 W2 T2 E2]. now apply (N q2 s2).
    + exists 0%nat. rewrite R, Nat.add_0_r. split; [|reflexivity]. exists [], (b1 :: s). repeat split; [constructor|discriminate|exact N].
Qed.

(** The octets as arithmetic. *)
Lemma lor_tag x k m tag :
  0 <= k -> tag = Z.shiftl m k -> Z.lor (Z.land x (2 ^ k - 1)) tag = tag + x mod 2 ^ k.
Proof.
  intros Hk ->. rewrite land_mask, Z.lor_comm, lor_shiftl_small, Z.shiftl_mul_pow2 by
    (try apply Z.mod_pos_bound; lia). reflexivity.
Qed.

Lemma cont_add x : cont x = 0x80 + x mod 64.
Proof. exact (lor_tag x 6 2 0x80 ltac:(lia) eq_refl). Qed.

(** A scalar value is encoded as a well-formed sequence. *)
Lemma encodes_well_formed c n bs :
  encodes c n bs -> UnicodeSymbol.check_validity c = true -> well_formed bs.
Proof.
  unfold UnicodeSymbol.check_validity, UnicodeSymbol.MAX_CODE_UNIT.
  intros E V. destruct E; try lia.
  - change 0x7F with (2 ^ 7 - 1). rewrite land_mask, Z.mod_small by lia. constructor. lia.
  - apply wf_2. rewrite cont_add, (lor_tag _ 5 6) by (lia || reflexivity). rewrite Z.shiftr_div_pow2 by lia.
    change (2 ^ 6) with 64. change (2 ^ 5) with 32. unfold wf2, between.
    Z.div_mod_to_equations. lia.
  - apply wf_3. rewrite !cont_add, (lor_tag _ 4 14) by (lia || reflexivity). rewrite !Z.shiftr_div_pow2 by lia.
    change (2 ^ 6) with 64. change (2 ^ 4) with 16. change (2 ^ 12) with 4096. unfold wf3, lead3, between.
    Z.div_mod_to_equations. lia.
  - apply wf_4. rewrite !cont_add, (lor_tag _ 3 30) by (lia || reflexivity). rewrite !Z.shiftr_div_pow2 by lia.
    change (2 ^ 6) with 64. change (2 ^ 3) with 8. change (2 ^ 12) with 4096. change (2 ^ 18) with 262144.
    unfold wf4, lead4, between.
    Z.div_mod_to_equations. lia.
Qed.

Lemma text_loop s : utf8_text s -> Forall (fun b => b <> 0) s ->
  forall n off r, (length s < n)%nat ->
  is_correct_utf8_string_loop n off (s ++ 0 :: r) = Ret None.
Proof.
  induction 1 as [|q s W T IH]; intros HF n off r L.
  { destruct n; [easy|reflexivity]. }
  apply Forall_app in HF as [HFq HF]. rewrite length_app in L.
  destruct q as [|b1 q]; [easy|]. inversion HFq; subst.
  destruct n as [|n]; [easy|]. cbn [is_correct_utf8_string_loop app rd nth_error bind].
  rewrite (proj2 (Z.eqb_neq b1 0)) by easy.
  change (b1 :: (q ++ s) ++ 0 :: r) with (((b1 :: q) ++ s) ++ 0 :: r).
  rewrite <- app_assoc, well_formed_accepted by easy. cbn [bind negb].
  rewrite Nat2Z.id, skipn_app, skipn_all, Nat.sub_diag. cbn [skipn app].
  apply IH; cbn [length] in L; [easy|lia].
Qed.

Lemma encodes_nonempty c n bs : encodes c n bs -> bs <> [].
Proof. now destruct 1. Qed.

Lemma to_wchar_encodes c n bs fuel rest :
  encodes c n bs ->
  Utf8Manip.utf8_to_wchar_loop (S fuel) (bs ++ rest) =
    (dst <- Utf8Manip.utf8_to_wchar_loop fuel rest ;; Ret (c :: dst)).
Proof.
  intros E. destruct (encodes_facts c n bs E) as (HL & _ & Hn & (b & r & -> & HO) & HD).
  specialize (HD rest). cbn [Utf8Manip.utf8_to_wchar_loop app].
  rewrite HO. rewrite app_comm_cons, length_app.
  rewrite (proj2 (Z.ltb_ge _ n)), (proj2 (Z.eqb_neq n 0)), HD by lia. cbn [bind negb].
  replace (Z.to_nat n) with (length (b :: r)) by lia.
  now rewrite skipn_app, skipn_all, Nat.sub_diag.
Qed.

Lemma to_wchar_fuel ws : Forall (fun w => 0 <= w < 0x80000000) ws ->
  forall fuel, (length (Utf8Manip.wchar_to_utf8 ws) < fuel)%nat ->
  Utf8Manip.utf8_to_wchar_loop fuel (Utf8Manip.wchar_to_utf8 ws) = Ret ws.
Proof.
  induction 1 as [|w ws Hw Hws IH]; intros fuel L; cbn [Utf8Manip.wchar_to_utf8] in *.
  { now destruct fuel. }
  destruct (append_encodes w Hw) as [n E]. destruct fuel as [|fuel]; [lia|].
  rewrite (to_wchar_encodes w n) by exact E. rewrite length_app in L.
  pose proof (encodes_nonempty _ _ _ E). destruct (Utf8Manip.wchar_to_utf8_append w); [congruence|].
  cbn [length] in L. now rewrite IH by lia.
Qed.

(** *** utf8_substr *)

Lemma encodes_tail c n bs : encodes c n bs -> Forall (fun x => trail x = true) (tl bs).
Proof.
  destruct 1; cbn [tl]; repeat (apply Forall_cons; [now rewrite cont_trail|]); apply Forall_nil.
Qed.

Lemma substr_trail_all bs : Forall (fun x => trail x = true) bs -> forall pre post,
  Utf8Manip.substr_trail (length bs) (pre ++ bs ++ post) (length pre) =
  Ret (Some (length pre + length bs)%nat).
Proof.
  induction 1 as [|b bs Hb Hbs IH]; intros pre post; cbn [length Utf8Manip.substr_trail app].
  { now rewrite Nat.add_0_r. }
  rewrite rd_mid. cbn [bind]. rewrite Hb. cbn [negb].
  specialize (IH (pre ++ [b]) post). rewrite <- app_assoc, length_app in IH. cbn [length app] in IH.
  rewrite Nat.add_1_r in IH. rewrite IH. do 2 f_equal. lia.
Qed.

Lemma substr_trail_bound n src : forall len, (len + n <= length src)%nat ->
  Utf8Manip.substr_trail n src len = Ret None \/
  Utf8Manip.substr_trail n src len = Ret (Some (len + n)%nat).
Proof.
  induction n as [|n IH]; intros len H; cbn [Utf8Manip.substr_trail].
  { right. now rewrite Nat.add_0_r. }
  destruct (rd_lt src len) as (x & -> & _); [lia|]. cbn [bind].
  destruct (trail x); cbn [negb]; [|now left].
  destruct (IH (S len)) as [-> | ->]; [lia|now left|right]. do 2 f_equal. lia.
Qed.

Lemma octet_count_range c : 0 <= get_octet_count c <= 6.
Proof.
  unfold get_octet_count.
  destruct (nth_in_or_default (Z.to_nat c) TRAILING_BYTES_FOR_UTF8 0) as [I | ->]; [|lia].
  assert (forallb (between 0 6) TRAILING_BYTES_FOR_UTF8 = true) as F by (vm_compute; reflexivity).
  rewrite forallb_forall in F. apply F, between_iff in I. exact I.
Qed.

Lemma substr_loop_bound fuel src : forall len max_octets,
  (len <= length src)%nat -> (length src - len < fuel)%nat -> 0 <= max_octets ->
  Utf8Manip.utf8_substr_loop fuel src len max_octets = Ret None \/
  exists k, Utf8Manip.utf8_substr_loop fuel src len max_octets = Ret (Some (len + k)%nat) /\
    (len + k <= length src)%nat /\ Z.of_nat k <= max_octets.
Proof.
  induction fuel as [|fuel IH]; intros len m HL HF HM; [lia|].
  cbn [Utf8Manip.utf8_substr_loop].
  assert (forall b, b = (len + 0)%nat -> @Ret (option nat) (Some len) = Ret (Some b)) as STOP
    by (intros; do 2 f_equal; lia).
  destruct (negb (m =? 0) && (len <? length src)%nat) eqn:G.
  2:{ right. exists 0%nat. repeat split; [now apply STOP|lia|lia]. }
  bools. apply Nat.ltb_lt in H0. destruct (rd_lt src len H0) as (c & -> & _). cbn [bind].
  destruct (Z.ltb_spec m (get_octet_count c)).
  { right. exists 0%nat. repeat split; [now apply STOP|lia|lia]. }
  destruct ((get_octet_count c =? 0) || (length src <? len + Z.to_nat (get_octet_count c))%nat) eqn:G2;
    [now left|].
  pose proof (octet_count_range c). bools. apply Nat.ltb_ge in H4.
  destruct (substr_trail_bound (Z.to_nat (get_octet_count c) - 1) src (S len)) as [-> | ->]; [lia|now left|].
  cbn [bind].
  destruct (IH (S len + (Z.to_nat (get_octet_count c) - 1))%nat (m - get_octet_count c))
    as [-> | (k & -> & K1 & K2)]; try lia; [now left|right].
  exists (Z.to_nat (get_octet_count c) + k)%nat. repeat split; [do 2 f_equal|..]; lia.
Qed.

(** The longest prefix of [ws] whose encoding has at most [m] bytes. *)
Definition longest_prefix (ws : list Z) (m : Z) (k : nat) : Prop :=
  (k <= length ws)%nat /\
  Z.of_nat (length (Utf8Manip.wchar_to_utf8 (firstn k ws))) <= m /\
  ((k < length ws)%nat -> m < Z.of_nat (length (Utf8Manip.wchar_to_utf8 (firstn (S k) ws)))).

Lemma substr_loop_text ws : Forall (fun w => 0 <= w < 0x80000000) ws ->
  forall fuel pre m, 0 <= m -> (length ws < fuel)%nat ->
  exists k, Utf8Manip.utf8_substr_loop fuel (pre ++ Utf8Manip.wchar_to_utf8 ws) (length pre) m =
      Ret (Some (length pre + length (Utf8Manip.wchar_to_utf8 (firstn k ws)))%nat) /\
    longest_prefix ws m k.
Proof.
  induction 1 as [|w ws Hw Hws IH]; intros fuel pre m HM HF; (destruct fuel as [|fuel]; [lia|]);
    cbn [Utf8Manip.utf8_substr_loop Utf8Manip.wchar_to_utf8].
  { exists 0%nat. rewrite app_nil_r, Nat.ltb_irrefl, andb_false_r, Nat.add_0_r. cbn. repeat split; cbn; lia. }
  destruct (append_encodes w Hw) as [n E].
  destruct (encodes_facts _ n _ E) as (L & _ & Hn & (b & bs & EB & O) & _).
  pose proof (encodes_tail _ _ _ E) as E'. rewrite EB in E'. cbn [tl] in E'.
  assert (m < n -> longest_prefix (w :: ws) m 0) as STOP.
  { intros Hm. unfold longest_prefix. cbn [firstn Utf8Manip.wchar_to_utf8 length].
    rewrite app_nil_r, L. repeat split; lia. }
  destruct (Z.eqb_spec m 0) as [->|NZ]; cbn [negb andb].
  { exists 0%nat. rewrite Nat.add_0_r. split; [easy|apply STOP; lia]. }
  rewrite EB, !length_app. rewrite EB in L. cbn [length app] in *.
  rewrite (proj2 (Nat.ltb_lt _ _)) by lia. rewrite rd_mid. cbn [bind]. rewrite O.
  destruct (Z.ltb_spec m n).
  { exists 0%nat. rewrite Nat.add_0_r. split; [easy|now apply STOP]. }
  rewrite (proj2 (Z.eqb_neq n 0)), (proj2 (Nat.ltb_ge _ _)) by lia. cbn [orb].
  replace (Z.to_nat n - 1)%nat with (length bs) by lia.
  pose proof (substr_trail_all bs E' (pre ++ [b]) (Utf8Manip.wchar_to_utf8 ws)) as T.
  rewrite <- app_assoc, length_app in T. cbn [length app] in T. rewrite Nat.add_1_r in T.
  rewrite T. cbn [bind].
  destruct (IH fuel (pre ++ b :: bs) (m - n)) as (k & K1 & K2 & K3 & K4); [lia|lia|].
  rewrite <- app_assoc, length_app in K1. cbn [length app] in K1.
  replace (S (length pre) + length bs)%nat with (length pre + S (length bs))%nat by lia.
  rewrite K1. exists (S k). unfold longest_prefix. cbn [firstn Utf8Manip.wchar_to_utf8 length] in *.
  rewrite EB, !length_app. cbn [length].
  repeat split; [do 2 f_equal; lia|lia|lia|]. intros K5. specialize (K4 ltac:(lia)). lia.
Qed.

Lemma wchar_to_utf8_length ws :
  Forall (fun w => 0 <= w < 0x80000000) ws -> (length ws <= length (Utf8Manip.wchar_to_utf8 ws))%nat.
Proof.
  induction 1 as [|w ws Hw Hws IH]; [easy|]. cbn [Utf8Manip.wchar_to_utf8 length].
  destruct (append_encodes w Hw) as [n E]. apply encodes_nonempty in E.
  destruct (Utf8Manip.wchar_to_utf8_append w); [congruence|]. cbn [app length].
  rewrite length_app. lia.
Qed.

Lemma wchar_to_utf8_app a b :
  Utf8Manip.wchar_to_utf8 (a ++ b) = Utf8Manip.wchar_to_utf8 a ++ Utf8Manip.wchar_to_utf8 b.
Proof. induction a as [|w a IH]; [easy|]. cbn [app Utf8Manip.wchar_to_utf8]. now rewrite IH, app_assoc. Qed.

(** ** Claims *)

(** C1: on a zero-terminated string without the octets F0 to F4, which lead
    4-octet sequences, [is_correct_utf8_string] terminates inside the buffer and
    returns the null pointer exactly when the string is a concatenation of
    well-formed sequences of the Unicode standard; otherwise it returns the
    position where the first sequence that is not well-formed begins. *)
Theorem utf8_check_exact s r :
  Forall (fun b => 0 < b <= 0xFF /\ ~ lead_of_four b) s ->
  (utf8_text s /\ is_correct_utf8_string (s ++ 0 :: r) = Ret None) \/
  (~ utf8_text s /\ exists k, bad_at s k /\ is_correct_utf8_string (s ++ 0 :: r) = Ret (Some k)).
Proof. intros H. apply (string_loop_exact _ s 0); [rewrite length_app; cbn; lia|exact H]. Qed.

(** An octet F8, which leads a 5-octet sequence, behind two characters, one of
    two octets; and these characters alone. *)
Lemma utf8_check_exact_witness :
  let bad := [0x61; 0xC3; 0xA9; 0xF8; 0x88; 0x80; 0x80; 0x80] in
  (~ utf8_text bad /\ bad_at bad 3 /\ is_correct_utf8_string (bad ++ [0]) = Ret (Some 3%nat)) /\
  utf8_text [0x61; 0xC3; 0xA9] /\ is_correct_utf8_string ([0x61; 0xC3; 0xA9] ++ [0]) = Ret None.
Proof.
  split.
  - destruct (utf8_check_exact [0x61; 0xC3; 0xA9; 0xF8; 0x88; 0x80; 0x80; 0x80] []) as [[_ E]|(T & k & B & E)];
      [repeat constructor; unfold lead_of_four; lia|vm_compute in E; discriminate E|].
    assert (k = 3%nat) as -> by (vm_compute in E; now injection E as <-). exact (conj T (conj B E)).
  - destruct (utf8_check_exact [0x61; 0xC3; 0xA9] []) as [H|(_ & k & _ & E)];
      [repeat constructor; unfold lead_of_four; lia|exact H|vm_compute in E; discriminate E].
Defined.

(** every well-formed UTF-8 text without a NUL, 4-octet sequences included,
    is accepted by [is_correct_utf8_string]; but the 4-octet branch of
    [is_correct_utf8_sequence] looks at octets 1, 2 and 4 only: its answer is
    the one for the same sequence with the third octet replaced by 0x80, so
    ill-formed sequences (such as F0 90 00 80) are accepted, and a string that
    ends after two octets of such a sequence is read past its terminator. *)
Theorem utf8_check_complete s r :
  utf8_text s -> Forall (fun b => b <> 0) s ->
  is_correct_utf8_string (s ++ 0 :: r) = Ret None /\
  (forall b1 b2 b3 b4 r, is_bytes [b1; b2; b3; b4] -> 0xF0 <= b1 <= 0xF4 ->
     is_correct_utf8_sequence (b1 :: b2 :: b3 :: b4 :: r) =
       Ret (if wf4 b1 b2 0x80 b4 then (true, 4) else (false, 0))) /\
  wf4 0xF0 0x90 0x00 0x80 = false /\
  is_correct_utf8_sequence [0xF0; 0x90; 0x00; 0x80] = Ret (true, 4) /\
  is_correct_utf8_string [0xF0; 0x90; 0] = Undef.
Proof.
  intros T F. split; [apply text_loop; [easy|easy|]; rewrite length_app; cbn; lia|].
  repeat split. intros. now apply check_4.
Qed.

Lemma utf8_check_complete_witness :
  is_correct_utf8_string ([0xF0; 0x9F; 0x98; 0x80] ++ 0 :: []) = Ret None.
Proof.
  apply (utf8_check_complete [0xF0; 0x9F; 0x98; 0x80] []).
  - apply (text_app [0xF0; 0x9F; 0x98; 0x80] []); [now apply wf_4|constructor].
  - repeat constructor; discriminate.
Defined.

(** [utf8_to_wchar] inverts [wchar_to_utf8] on every string of
    non-negative [wchar_t]. *)
Theorem wchar_utf8_roundtrip ws :
  Forall (fun w => 0 <= w < 0x80000000) ws ->
  Utf8Manip.utf8_to_wchar (Utf8Manip.wchar_to_utf8 ws) = Ret ws.
Proof. intros H. apply to_wchar_fuel; [easy|lia]. Qed.

Lemma wchar_utf8_roundtrip_witness :
  Utf8Manip.utf8_to_wchar (Utf8Manip.wchar_to_utf8 [0x41; 0x416; 0x20AC; 0x1F600; 0x7FFFFFFF]) =
  Ret [0x41; 0x416; 0x20AC; 0x1F600; 0x7FFFFFFF].
Proof. apply wchar_utf8_roundtrip. repeat constructor; discriminate. Defined.

(** [UTF8Handler::ulong_to_utf8_char] writes, for every code below 2^31,
    a sequence whose first octet announces its length and from which
    [utf8_char_to_wchar] reads the code back whatever follows; larger codes
    are refused. *)
Theorem ulong_utf8_roundtrip c :
  0 <= c ->
  if c <? 0x80000000 then
    exists b bs, ulong_to_utf8_char c = Some (b :: bs) /\
      get_octet_count b = Z.of_nat (length (b :: bs)) /\
      forall rest, utf8_char_to_wchar (Some (b :: bs ++ rest)) (get_octet_count b) = Ret (true, c)
  else ulong_to_utf8_char c = None.
Proof.
  intros H. destruct (Z.ltb_spec c 0x80000000).
  - destruct (ulong_encodes c) as (n & bs & E & EN); [lia|].
    destruct (encodes_facts c n bs EN) as (L & _ & _ & (b & r & -> & O) & D).
    exists b, r. rewrite O, L. repeat split; easy.
  - unfold ulong_to_utf8_char. split_ifs; try reflexivity; lia.
Qed.

Lemma ulong_utf8_roundtrip_witness :
  exists b bs, ulong_to_utf8_char 0x20AC = Some (b :: bs) /\
    get_octet_count b = Z.of_nat (length (b :: bs)) /\
    forall rest, utf8_char_to_wchar (Some (b :: bs ++ rest)) (get_octet_count b) = Ret (true, 0x20AC).
Proof. apply (ulong_utf8_roundtrip 0x20AC). lia. Defined.

(** a [UnicodeSymbol] built from a code accepts exactly the Unicode scalar
    values, and its text is well formed, has the reported length and builds
    the same symbol again. *)
Theorem unicode_symbol_roundtrip c :
  match UnicodeSymbol.of_wchar c with
  | Ret u => UnicodeSymbol.check_validity c = true /\
      exists bs, UnicodeSymbol.c_str u = Ret bs /\ well_formed bs /\
        UnicodeSymbol.length u = Ret (Z.of_nat (length bs)) /\
        forall rest, UnicodeSymbol.of_bytes (bs ++ rest) = Ret u
  | Throw e => UnicodeSymbol.check_validity c = false /\ e = RangeException
  | Undef => False
  end.
Proof.
  unfold UnicodeSymbol.of_wchar. destruct (UnicodeSymbol.check_validity c) eqn:V; cbn [negb]; [|easy].
  split; [easy|].
  assert (0 <= c <= 0x10FFFF) as R.
  { unfold UnicodeSymbol.check_validity, UnicodeSymbol.MAX_CODE_UNIT in V. lia. }
  destruct (wchar_encodes c) as (n & bs & E & EN); [lia|].
  pose proof (encodes_well_formed c n bs EN V) as W.
  destruct (encodes_facts c n bs EN) as (L & _ & _ & _ & D).
  exists bs. repeat split; [| easy | |].
  - unfold UnicodeSymbol.c_str, UnicodeSymbol.is_null, UnicodeSymbol.NULL_CODE_UNIT.
    cbn [UnicodeSymbol.code_unit]. now rewrite (proj2 (Z.eqb_neq c (-1))), E by lia.
  - rewrite L. unfold UnicodeSymbol.length. cbn [UnicodeSymbol.code_unit].
    destruct EN; split_ifs; first [reflexivity | lia].
  - intros rest. unfold UnicodeSymbol.of_bytes. rewrite well_formed_accepted by easy.
    cbn [bind]. now rewrite L, D.
Qed.

(** on valid symbols, [operator++] and [operator--] step through the
    scalar values, jumping over the surrogates, and undo each other; the
    successor of U+10FFFF is not a valid symbol. *)
Theorem unicode_symbol_steps c :
  UnicodeSymbol.check_validity c = true ->
  exists c', UnicodeSymbol.incr (UnicodeSymbol.mk c) = Ret (UnicodeSymbol.mk c') /\
    c < c' /\ (forall x, c < x < c' -> UnicodeSymbol.check_validity x = false) /\
    (c = 0x10FFFF <-> UnicodeSymbol.check_validity c' = false) /\
    (c <> 0x10FFFF ->
       UnicodeSymbol.decr (UnicodeSymbol.mk c') = Ret (UnicodeSymbol.mk c)).
Proof.
  intros V. unfold UnicodeSymbol.incr, UnicodeSymbol.decr, UnicodeSymbol.is_null,
    UnicodeSymbol.NULL_CODE_UNIT. cbn [UnicodeSymbol.code_unit]. rewrite V. cbn [negb].
  unfold UnicodeSymbol.check_validity, UnicodeSymbol.MAX_CODE_UNIT in *.
  rewrite (proj2 (Z.eqb_neq c (-1))), (proj2 (Z.leb_le c 0x10FFFF)) by lia. cbn [orb].
  destruct (Z.eqb_spec c 0xD7FF) as [->|N].
  { exists 0xE000. repeat split; try easy; lia. }
  exists (c + 1). repeat split; try lia.
  intros M. rewrite (proj2 (Z.eqb_neq (c + 1) 0)), (proj2 (Z.eqb_neq (c + 1) (-1))),
    (proj2 (Z.ltb_lt 0 (c + 1))), (proj2 (Z.eqb_neq (c + 1) 0xE000)) by lia.
  replace (negb _) with false by lia. cbn [orb]. do 2 f_equal. lia.
Qed.

Lemma unicode_symbol_steps_witness :
  exists c', UnicodeSymbol.incr (UnicodeSymbol.mk 0xD7FF) = Ret (UnicodeSymbol.mk c') /\
    0xD7FF < c' /\ (forall x, 0xD7FF < x < c' -> UnicodeSymbol.check_validity x = false) /\
    (0xD7FF = 0x10FFFF <-> UnicodeSymbol.check_validity c' = false) /\
    (0xD7FF <> 0x10FFFF ->
       UnicodeSymbol.decr (UnicodeSymbol.mk c') = Ret (UnicodeSymbol.mk 0xD7FF)).
Proof. apply (unicode_symbol_steps 0xD7FF). reflexivity. Defined.

Lemma substr_prefix s max_octets :
  0 <= max_octets ->
  exists r, Utf8Manip.utf8_substr s max_octets = Ret r /\
    match r with
    | None => True
    | Some d => (exists t, s = d ++ t) /\ Z.of_nat (length d) <= max_octets
    end.
Proof.
  intros H. unfold Utf8Manip.utf8_substr.
  destruct (substr_loop_bound (S (length s)) s 0 max_octets) as [-> | (k & -> & K1 & K2)];
    try lia; cbn [bind option_map]; eexists; (split; [reflexivity|]); [easy|].
  split; [exists (skipn k s); now rewrite firstn_skipn|]. rewrite length_firstn. lia.
Qed.

Lemma substr_text ws max_octets :
  Forall (fun w => 0 <= w < 0x80000000) ws -> 0 <= max_octets ->
  exists k, Utf8Manip.utf8_substr (Utf8Manip.wchar_to_utf8 ws) max_octets =
      Ret (Some (Utf8Manip.wchar_to_utf8 (firstn k ws))) /\
    longest_prefix ws max_octets k.
Proof.
  intros HW HM. unfold Utf8Manip.utf8_substr. pose proof (wchar_to_utf8_length ws HW).
  destruct (substr_loop_text ws HW (S (length (Utf8Manip.wchar_to_utf8 ws))) [] max_octets HM)
    as (k & K1 & K2); [lia|]. cbn [app length Nat.add] in K1.
  exists k. rewrite K1. cbn [bind option_map]. split; [|easy]. do 2 f_equal.
  rewrite <- (firstn_skipn k ws) at 2. rewrite wchar_to_utf8_app, firstn_app, firstn_all, Nat.sub_diag.
  cbn [firstn]. apply app_nil_r.
Qed.

(** [utf8_substr] never reads outside the source, terminates, and when it
    succeeds returns a prefix of at most [max_octets] bytes; and on the UTF-8
    text of [ws] it cuts between characters: it returns the text of the longest
    prefix of [ws] whose encoding has at most [max_octets] bytes. *)
Theorem utf8_substr_text s ws max_octets :
  Forall (fun w => 0 <= w < 0x80000000) ws -> 0 <= max_octets ->
  (exists r, Utf8Manip.utf8_substr s max_octets = Ret r /\
    match r with
    | None => True
    | Some d => (exists t, s = d ++ t) /\ Z.of_nat (length d) <= max_octets
    end) /\
  exists k, Utf8Manip.utf8_substr (Utf8Manip.wchar_to_utf8 ws) max_octets =
      Ret (Some (Utf8Manip.wchar_to_utf8 (firstn k ws))) /\
    longest_prefix ws max_octets k.
Proof. intros HW HM. split; [now apply substr_prefix|now apply substr_text]. Qed.

Lemma utf8_substr_text_witness :
  exists k, Utf8Manip.utf8_substr (Utf8Manip.wchar_to_utf8 [0x41; 0x20AC; 0x416]) 5 =
      Ret (Some (Utf8Manip.wchar_to_utf8 (firstn k [0x41; 0x20AC; 0x416]))) /\
    longest_prefix [0x41; 0x20AC; 0x416] 5 k.
Proof.
  apply (utf8_substr_text [0x41] [0x41; 0x20AC; 0x416] 5); [repeat constructor; discriminate|lia].
Defined.
