(* ===== verification/Base64.v ===== *)
(** * Base64: the base64 codecs of src/src/String/StringManip.cpp

    [func_encode] and its two instances (the standard alphabet padded with
    ['='], the modified alphabet padded with ['.']), the decoding [Iterator]
    and [base64mod_decode], and the size formulas of StringManip.ipp. *)

From Stdlib Require Import ZArith List Bool Lia.
From S2P Require Import Prelude Ascii.
Import ListNotations.

(** ** Tables *)

Definition STD_ENCODE : list Z :=
  lit "ABCDEFGHIJKLMNOPQRSTUVWXYZabcdefghijklmnopqrstuvwxyz0123456789+/".

Definition MOD_ENCODE : list Z :=
  lit "ABCDEFGHIJKLMNOPQRSTUVWXYZabcdefghijklmnopqrstuvwxyz0123456789-_".

Definition PADDING : Z := chr ".".

Definition std_encode (ch : Z) : Z := nth (Z.to_nat (Z.land ch 63)) STD_ENCODE 0.
Definition mod_encode (ch : Z) : Z := nth (Z.to_nat (Z.land ch 63)) MOD_ENCODE 0.

Definition DECODE : list Z := [
   64; 127; 127; 127; 127; 127; 127; 127; 127; 127; 127; 127; 127; 127; 127; 127;
   127; 127; 127; 127; 127; 127; 127; 127; 127; 127; 127; 127; 127; 127; 127; 127;
   127; 127; 127; 127; 127; 127; 127; 127; 127; 127; 127; 62; 127; 62; 64; 63;
   52; 53; 54; 55; 56; 57; 58; 59; 60; 61; 127; 127; 127; 127; 127; 127;
   127; 0; 1; 2; 3; 4; 5; 6; 7; 8; 9; 10; 11; 12; 13; 14;
   15; 16; 17; 18; 19; 20; 21; 22; 23; 24; 25; 127; 127; 127; 127; 63;
   127; 26; 27; 28; 29; 30; 31; 32; 33; 34; 35; 36; 37; 38; 39; 40;
   41; 42; 43; 44; 45; 46; 47; 48; 49; 50; 51; 127; 64; 127; 127; 127;
   127; 127; 127; 127; 127; 127; 127; 127; 127; 127; 127; 127; 127; 127; 127; 127;
   127; 127; 127; 127; 127; 127; 127; 127; 127; 127; 127; 127; 127; 127; 127; 127;
   127; 127; 127; 127; 127; 127; 127; 127; 127; 127; 127; 127; 127; 127; 127; 127;
   127; 127; 127; 127; 127; 127; 127; 127; 127; 127; 127; 127; 127; 127; 127; 127;
   127; 127; 127; 127; 127; 127; 127; 127; 127; 127; 127; 127; 127; 127; 127; 127;
   127; 127; 127; 127; 127; 127; 127; 127; 127; 127; 127; 127; 127; 127; 127; 127;
   127; 127; 127; 127; 127; 127; 127; 127; 127; 127; 127; 127; 127; 127; 127; 127;
   127; 127; 127; 127; 127; 127; 127; 127; 127; 127; 127; 127; 127; 127; 127; 127].

(** ** Encoder *)

Section Encode.
Variable encode : Z -> Z.
Variable PAD : Z.
Variable padding : bool.
Variable fill : Z.

(** The [for] over whole triples and the [switch] on what is left. *)
Fixpoint encode_loop (p : list Z) : list Z :=
  match p with
  | p0 :: p1 :: p2 :: p' =>
      encode (Z.shiftr p0 2) ::
      encode (Z.lor (Z.land (Z.shiftl p0 4) 48) (Z.land (Z.shiftr p1 4) 15)) ::
      encode (Z.lor (Z.land (Z.shiftl p1 2) 60) (Z.land (Z.shiftr p2 6) 3)) ::
      encode (Z.land p2 63) :: encode_loop p'
  | [c1] =>
      let buf := [encode (Z.shiftr c1 2);
                  encode (Z.lor (Z.land (Z.shiftl c1 4) 48) (Z.land fill 15)); PAD; PAD] in
      if padding then buf else firstn 2 buf
  | [c1; c2] =>
      let buf := [encode (Z.shiftr c1 2);
                  encode (Z.lor (Z.land (Z.shiftl c1 4) 48) (Z.land (Z.shiftr c2 4) 15));
                  encode (Z.lor (Z.land (Z.shiftl c2 2) 60) (Z.land fill 3)); PAD] in
      if padding then buf else firstn 3 buf
  | [] => []
  end.

Definition func_encode (src : list Z) : list Z :=
  if (length src =? 0)%nat then [] else encode_loop src.
End Encode.

Definition base64_encode (src : list Z) (padding : bool) : list Z :=
  func_encode std_encode (chr "=") padding 0 src.

Definition base64mod_encode (src : list Z) (padding : bool) (fill : Z) : list Z :=
  func_encode mod_encode PADDING padding fill src.

(** ** Decoder

    The iterator is the offset of [ptr_] from the start of the source and the
    cells it has left; [length_] is their number, which never gets negative
    because the value at the end, 0100, stops every advance. *)

Record Iterator : Type := { ptr : Z; left : list Z }.

Definition available (it : Iterator) : bool := negb (length (left it) =? 0)%nat.

Definition deref (it : Iterator) : Z :=
  nth (Z.to_nat (match left it with [] => 0 | c :: _ => c end)) DECODE 0.

Definition incr (it : Iterator) : Iterator := {| ptr := ptr it + 1; left := tl (left it) |}.

(** Structural on the cells left: a blank is only met on a cell. *)
Fixpoint skip_blanks_from (ptr : Z) (left : list Z) : Z * Iterator :=
  match left with
  | [] => (deref {| ptr := ptr; left := [] |}, {| ptr := ptr; left := [] |})
  | c :: left' =>
      let ch := deref {| ptr := ptr; left := left |} in
      if ch =? 127 then skip_blanks_from (ptr + 1) left'
      else (ch, {| ptr := ptr; left := left |})
  end.

Definition skip_blanks (it : Iterator) : Z * Iterator := skip_blanks_from (ptr it) (left it).

Definition PAD1 : list Z := lit "......" ++ [0].
Definition PAD2 : list Z := lit "||||||" ++ [0].
Definition PAD3 : list Z := lit "======" ++ [0].

(** [!strncmp(a, b, n)]. *)
Fixpoint strncmp_eq (a b : list Z) (n : nat) : bool :=
  match n, a, b with
  | O, _, _ => true
  | S n', x :: a', y :: b' =>
      if x =? y then (if x =? 0 then true else strncmp_eq a' b' n') else false
  | _, _, _ => false
  end.

(** [src - ptr_] is minus the offset. *)
Definition check_padding (it : Iterator) : outcome unit :=
  let pad_size := Z.land (u64 (- ptr it)) 3 in
  let length_ := Z.of_nat (length (left it)) in
  let n := length (left it) in
  if (negb (length_ =? pad_size) && negb (length_ =? pad_size + 4)) ||
     (negb (strncmp_eq (left it) PAD1 n) && negb (strncmp_eq (left it) PAD2 n) &&
      negb (strncmp_eq (left it) PAD3 n))
  then Throw InvalidFormatException
  else Ret tt.

(** The decoding loop.  [fill_ptr] says that [fill] is not null; the result is
    the iterator at the end, what was written to [dst] and to [*fill]. *)
Fixpoint decode_loop (fuel : nat) (fill_ptr : bool) (p : Iterator)
  : outcome (Iterator * list Z * option Z) :=
  match fuel with
  | O => Undef
  | S fuel' =>
      if negb (available p) then Ret (p, [], None)
      else
        let (c1, p) := skip_blanks p in
        if c1 =? 64 then Ret (p, [], None)
        else
          let p := incr p in
          let (c2, p) := skip_blanks p in
          if c2 =? 64 then Throw InvalidFormatException
          else
            let p := incr p in
            let (c3, p) := skip_blanks p in
            let d1 := convert (Z.lor (Z.shiftl c1 2) (Z.shiftr c2 4)) in
            if c3 =? 64 then
              let left := Z.land c2 15 in
              if fill_ptr then Ret (p, [d1], Some left)
              else if negb (left =? 0) then Throw InvalidFormatException
              else Ret (p, [d1], None)
            else
              let p := incr p in
              let (c4, p) := skip_blanks p in
              let d2 := convert (Z.lor (Z.shiftl c2 4) (Z.shiftr c3 2)) in
              if c4 =? 64 then
                let left := Z.land c3 3 in
                if fill_ptr then Ret (p, [d1; d2], Some left)
                else if negb (left =? 0) then Throw InvalidFormatException
                else Ret (p, [d1; d2], None)
              else
                let d3 := convert (Z.lor (Z.shiftl c3 6) c4) in
                '(q, dst, fl) <- decode_loop fuel' fill_ptr (incr p) ;;
                Ret (q, d1 :: d2 :: d3 :: dst, fl)
  end.

Definition base64mod_decode (src : list Z) (padding fill_ptr : bool)
  : outcome (list Z * option Z) :=
  '(p, dst, fl) <- decode_loop (S (length src)) fill_ptr {| ptr := 0; left := src |} ;;
  if padding || available p then
    _ <- check_padding p ;; Ret (dst, fl)
  else Ret (dst, fl).

(** ** Sizes *)

Definition base64mod_encoded_size (original_size : Z) (padding : bool) : Z :=
  if padding then (original_size + 2) / 3 * 4
  else original_size / 3 * 4 +
       (if negb (original_size mod 3 =? 0) then original_size mod 3 + 1 else 0).

Definition base64mod_max_decoded_size (original_size : Z) : Z := (original_size + 3) / 4 * 3.

Definition base64mod_fill_size (original_size : Z) : Z :=
  Z.land (Z.shiftr 8 (original_size mod 3)) 6.

Example encode_foob :
  base64mod_encode (lit "foob") true 0 = lit "Zm9vYg..".
Proof. reflexivity. Qed.
Example decode_foob :
  base64mod_decode (lit "Zm9v Yg==") false false = Ret (lit "foob", None).
Proof. reflexivity. Qed.

(** ** Facts *)

Definition code (c : Z) : Z := nth (Z.to_nat c) DECODE 0.

Lemma std_code v : code (std_encode v) = v mod 64.
Proof.
  unfold std_encode. change 63 with (2 ^ 6 - 1). rewrite land_mask by lia. change (2 ^ 6) with 64.
  pose proof (Z.mod_pos_bound v 64 ltac:(lia)) as B. set (m := v mod 64) in *.
  assert (implb (m <? 64) (code (nth (Z.to_nat m) STD_ENCODE 0) =? m) = true) as E.
  { assert (is_byte m) as HM by (unfold is_byte; lia). revert HM. generalize m.
    apply (byte_forall (fun m => implb (m <? 64) (code (nth (Z.to_nat m) STD_ENCODE 0) =? m))).
    vm_compute. reflexivity. }
  rewrite (proj2 (Z.ltb_lt m 64)) in E by lia. now apply Z.eqb_eq.
Qed.

Lemma mod_code v : code (mod_encode v) = v mod 64.
Proof.
  unfold mod_encode. change 63 with (2 ^ 6 - 1). rewrite land_mask by lia. change (2 ^ 6) with 64.
  pose proof (Z.mod_pos_bound v 64 ltac:(lia)) as B. set (m := v mod 64) in *.
  assert (implb (m <? 64) (code (nth (Z.to_nat m) MOD_ENCODE 0) =? m) = true) as E.
  { assert (is_byte m) as HM by (unfold is_byte; lia). revert HM. generalize m.
    apply (byte_forall (fun m => implb (m <? 64) (code (nth (Z.to_nat m) MOD_ENCODE 0) =? m))).
    vm_compute. reflexivity. }
  rewrite (proj2 (Z.ltb_lt m 64)) in E by lia. now apply Z.eqb_eq.
Qed.

Lemma skip_code o e r : code e <> 127 ->
  skip_blanks {| ptr := o; left := e :: r |} = (code e, {| ptr := o; left := e :: r |}).
Proof.
  intros H. unfold skip_blanks. cbn [skip_blanks_from ptr left].
  change (deref {| ptr := o; left := e :: r |}) with (code e).
  now rewrite (proj2 (Z.eqb_neq _ _) H).
Qed.

(** The 6-bit groups as arithmetic. *)
Lemma group2 a n : is_byte a -> 0 <= n < 16 -> Z.lor (Z.land (Z.shiftl a 4) 48) n = 16 * (a mod 4) + n.
Proof.
  intros Ha Hn. assert (Z.land (Z.shiftl a 4) 48 = Z.shiftl (a mod 4) 4) as ->.
  { apply Z.eqb_eq. revert a Ha.
    apply (byte_forall (fun a => Z.land (Z.shiftl a 4) 48 =? Z.shiftl (a mod 4) 4)).
    vm_compute. reflexivity. }
  rewrite lor_shiftl_small by lia. lia.
Qed.

Lemma group3 a n : is_byte a -> 0 <= n < 4 -> Z.lor (Z.land (Z.shiftl a 2) 60) n = 4 * (a mod 16) + n.
Proof.
  intros Ha Hn. assert (Z.land (Z.shiftl a 2) 60 = Z.shiftl (a mod 16) 2) as ->.
  { apply Z.eqb_eq. revert a Ha.
    apply (byte_forall (fun a => Z.land (Z.shiftl a 2) 60 =? Z.shiftl (a mod 16) 2)).
    vm_compute. reflexivity. }
  rewrite lor_shiftl_small by lia. lia.
Qed.

Lemma land_pow2 x k m : 0 <= k -> m = 2 ^ k - 1 -> Z.land x m = x mod 2 ^ k.
Proof. intros H ->. now apply land_mask. Qed.

Lemma join_bits x y k : 0 <= k -> 0 <= y < 2 ^ k -> convert (Z.lor (Z.shiftl x k) y) = (x * 2 ^ k + y) mod 256.
Proof. intros Hk Hy. unfold convert, wrapu. now rewrite lor_shiftl_small. Qed.

Ltac groups :=
  rewrite ?Z.shiftr_div_pow2 by lia;
  rewrite ?(land_pow2 _ 4 15), ?(land_pow2 _ 2 3), ?(land_pow2 _ 6 63) by (lia || reflexivity);
  change (2 ^ 2) with 4 in *; change (2 ^ 4) with 16 in *; change (2 ^ 6) with 64 in *.

(** The bytes of four groups. *)
Lemma byte_1 a n : is_byte a -> 0 <= n < 16 ->
  convert (Z.lor (Z.shiftl (a / 4) 2) (Z.shiftr (16 * (a mod 4) + n) 4)) = a.
Proof.
  unfold is_byte. intros Ha Hn. rewrite Z.shiftr_div_pow2 by lia.
  rewrite join_bits by (try split; change (2 ^ 2) with 4; change (2 ^ 4) with 16; try lia; Z.div_mod_to_equations; lia).
  change (2 ^ 2) with 4; change (2 ^ 4) with 16. Z.div_mod_to_equations. lia.
Qed.

Lemma byte_2 a b m : 0 <= a < 4 -> is_byte b -> 0 <= m < 4 ->
  convert (Z.lor (Z.shiftl (16 * a + b / 16) 4) (Z.shiftr (4 * (b mod 16) + m) 2)) = b.
Proof.
  unfold is_byte. intros Ha Hb Hm. rewrite Z.shiftr_div_pow2 by lia.
  rewrite join_bits by (try split; change (2 ^ 2) with 4; change (2 ^ 4) with 16; try lia; Z.div_mod_to_equations; lia).
  change (2 ^ 2) with 4; change (2 ^ 4) with 16. Z.div_mod_to_equations. lia.
Qed.

Lemma byte_3 a b : 0 <= a < 16 -> is_byte b ->
  convert (Z.lor (Z.shiftl (4 * a + b / 64) 6) (b mod 64)) = b.
Proof.
  unfold is_byte. intros Ha Hb.
  rewrite join_bits by (try apply Z.mod_pos_bound; lia).
  change (2 ^ 6) with 64. Z.div_mod_to_equations. lia.
Qed.

Lemma check_padding_ok o l : (o + Z.of_nat (length l)) mod 4 = 0 -> (length l < 4)%nat ->
  (l = firstn (length l) PAD1) -> check_padding {| ptr := o; left := l |} = Ret tt.
Proof.
  intros Ho Hl E. unfold check_padding. cbn [ptr left].
  assert (Z.land (u64 (- o)) 3 = Z.of_nat (length l)) as ->.
  { rewrite (land_pow2 _ 2 3) by (lia || reflexivity). unfold wrapu.
    change (2 ^ 2) with 4. change (2 ^ 64) with (4 * 2 ^ 62).
    rewrite Z.rem_mul_r, Z.mul_comm, Z_mod_plus_full, Z.mod_mod by lia.
    Z.div_mod_to_equations. lia. }
  rewrite Z.eqb_refl. cbn [negb andb orb].
  replace (strncmp_eq l PAD1 (length l)) with true; [easy|].
  destruct l as [|? [|? [|? [|? ?]]]]; cbn [length firstn PAD1 lit app] in *; try lia; [easy|..];
    injection E; intros; subst; reflexivity.
Qed.

(** Decoding what was encoded, for an alphabet whose codes read back and a
    padding character that ends the data or is skipped. *)
Section RoundTrip.
Variable encode : Z -> Z.
Variable PAD : Z.
Hypothesis encode_code : forall v, code (encode v) = v mod 64.
Hypothesis PAD_ok : PAD = chr "." \/ PAD = chr "=".
Variable fill : Z.

Lemma encode_skip o v r : 0 <= v < 64 ->
  skip_blanks {| ptr := o; left := encode v :: r |} = (v, {| ptr := o; left := encode v :: r |}).
Proof.
  intros H. assert (code (encode v) = v) as E by (rewrite encode_code; apply Z.mod_small; lia).
  rewrite skip_code; rewrite E; [easy|lia].
Qed.

(** One group read: the digit, then the advance. *)
Ltac read_code :=
  rewrite encode_skip, (proj2 (Z.eqb_neq _ 64)) by lia; unfold incr at 1; cbn [ptr left tl].

(** The iterator left after the data: the padding is skipped or not read. *)
Definition pad_end (o : Z) (l : list Z) : Iterator :=
  if PAD =? chr "." then {| ptr := o; left := l |}
  else {| ptr := o + Z.of_nat (length l); left := [] |}.

Lemma skip_pad o n : skip_blanks {| ptr := o; left := repeat PAD n |} = (64, pad_end o (repeat PAD n)).
Proof.
  unfold pad_end. destruct PAD_ok as [-> | ->]; cbn [Z.eqb].
  - destruct n as [|n]; reflexivity.
  - replace (chr "=" =? chr ".") with false by reflexivity. unfold skip_blanks. cbn [ptr left].
    revert o; induction n as [|n IH]; intros o; cbn [repeat skip_blanks_from length].
    + rewrite Z.add_0_r. reflexivity.
    + change (deref {| ptr := o; left := chr "=" :: repeat (chr "=") n |}) with 127.
      cbn [Z.eqb Pos.eqb]. rewrite IH. do 2 f_equal. lia.
Qed.

Lemma pad_end_check o n : (n < 4)%nat -> (o + Z.of_nat n) mod 4 = 0 ->
  check_padding (pad_end o (repeat PAD n)) = Ret tt.
Proof.
  intros Hn Ho. unfold pad_end. destruct PAD_ok as [-> | ->].
  - cbn [Z.eqb]. apply check_padding_ok; rewrite ?repeat_length; try easy.
    destruct n as [|[|[|[|n]]]]; try reflexivity; lia.
  - replace (chr "=" =? chr ".") with false by reflexivity.
    apply check_padding_ok; cbn [length]; rewrite ?repeat_length, ?Z.add_0_r; easy || lia.
Qed.

(** What the decoder reports in [*fill] for data of [n] bytes. *)
Definition fill_out (n : nat) (fill_ptr : bool) : option Z :=
  if fill_ptr then
    match n mod 3 with
    | 0 => None
    | 1 => Some (Z.land fill 15)
    | _ => Some (Z.land fill 3)
    end%nat
  else None.

Definition fill_ok (n : nat) (fill_ptr : bool) : Prop :=
  fill_ptr = true \/ fill mod 2 ^ base64mod_fill_size (Z.of_nat n) = 0.

(** The padding cells written after the data of [n] bytes. *)
Definition pad_cells (padding : bool) (n : nat) : list Z :=
  if padding then repeat PAD (match n mod 3 with 0 => 0 | 1 => 2 | _ => 1 end)%nat else [].

Lemma decode_quad fuel fp o p0 p1 p2 r :
  is_byte p0 -> is_byte p1 -> is_byte p2 ->
  decode_loop (S fuel) fp {| ptr := o; left := encode (Z.shiftr p0 2) ::
      encode (Z.lor (Z.land (Z.shiftl p0 4) 48) (Z.land (Z.shiftr p1 4) 15)) ::
      encode (Z.lor (Z.land (Z.shiftl p1 2) 60) (Z.land (Z.shiftr p2 6) 3)) ::
      encode (Z.land p2 63) :: r |} =
  ('(q, dst, fl) <- decode_loop fuel fp {| ptr := o + 4; left := r |} ;;
   Ret (q, p0 :: p1 :: p2 :: dst, fl)).
Proof.
  intros H0 H1 H2. pose proof H0 as H0'. pose proof H1 as H1'. pose proof H2 as H2'. unfold is_byte in H0', H1', H2'.
  groups. rewrite group2, group3 by (try apply Z.mod_pos_bound; easy || lia).
  assert ((p1 / 16) mod 16 = p1 / 16) as -> by (Z.div_mod_to_equations; lia).
  assert ((p2 / 64) mod 4 = p2 / 64) as -> by (Z.div_mod_to_equations; lia).
  assert (0 <= p0 / 4 < 64) by (Z.div_mod_to_equations; lia).
  assert (0 <= 16 * (p0 mod 4) + p1 / 16 < 64) by (Z.div_mod_to_equations; lia).
  assert (0 <= 4 * (p1 mod 16) + p2 / 64 < 64) by (Z.div_mod_to_equations; lia).
  assert (0 <= p2 mod 64 < 64) by (Z.div_mod_to_equations; lia).
  cbn [decode_loop]. unfold available. cbn [left length Nat.eqb negb].
  read_code.
  read_code.
  read_code.
  read_code.
  rewrite byte_1, byte_2, byte_3 by (try apply Z.mod_pos_bound; try easy; Z.div_mod_to_equations; lia).
  now replace (o + 1 + 1 + 1 + 1) with (o + 4) by lia.
Qed.

Lemma decode_tail1 fuel fp o c1 padding :
  is_byte c1 -> fill_ok 1 fp ->
  decode_loop (S fuel) fp {| ptr := o; left := encode_loop encode PAD padding fill [c1] |} =
  Ret (pad_end (o + 2) (pad_cells padding 1), [c1], fill_out 1 fp).
Proof.
  intros H Hf.
  replace (encode_loop encode PAD padding fill [c1]) with
    (encode (Z.shiftr c1 2) :: encode (Z.lor (Z.land (Z.shiftl c1 4) 48) (Z.land fill 15)) ::
     pad_cells padding 1) by now destruct padding.
  replace (pad_cells padding 1) with (repeat PAD (length (pad_cells padding 1))) by now destruct padding.
  unfold fill_out. pose proof H as H'. unfold is_byte in H'. groups.
  pose proof (Z.mod_pos_bound fill 16 ltac:(lia)). rewrite group2 by (easy || lia).
  assert (0 <= c1 / 4 < 64) by (Z.div_mod_to_equations; lia).
  assert (0 <= 16 * (c1 mod 4) + fill mod 16 < 64) by (Z.div_mod_to_equations; lia).
  assert (Z.land (16 * (c1 mod 4) + fill mod 16) 15 = fill mod 16) as EL.
  { groups. Z.div_mod_to_equations. lia. }
  cbn [decode_loop]. unfold available. cbn [left length Nat.eqb negb].
  read_code.
  read_code.
  rewrite skip_pad. cbn [Z.eqb Pos.eqb]. rewrite byte_1, EL by easy.
  replace (o + 1 + 1) with (o + 2) by lia. change (1 mod 3)%nat with 1%nat.
  destruct fp; [easy|]. destruct Hf as [Hf|Hf]; [easy|].
  change (2 ^ base64mod_fill_size (Z.of_nat 1)) with 16 in Hf. now rewrite Hf.
Qed.

Lemma decode_tail2 fuel fp o c1 c2 padding :
  is_byte c1 -> is_byte c2 -> fill_ok 2 fp ->
  decode_loop (S fuel) fp {| ptr := o; left := encode_loop encode PAD padding fill [c1; c2] |} =
  Ret (pad_end (o + 3) (pad_cells padding 2), [c1; c2], fill_out 2 fp).
Proof.
  intros H1 H2 Hf.
  replace (encode_loop encode PAD padding fill [c1; c2]) with
    (encode (Z.shiftr c1 2) ::
     encode (Z.lor (Z.land (Z.shiftl c1 4) 48) (Z.land (Z.shiftr c2 4) 15)) ::
     encode (Z.lor (Z.land (Z.shiftl c2 2) 60) (Z.land fill 3)) ::
     pad_cells padding 2) by now destruct padding.
  replace (pad_cells padding 2) with (repeat PAD (length (pad_cells padding 2))) by now destruct padding.
  unfold fill_out. pose proof H1 as H1'. pose proof H2 as H2'. unfold is_byte in H1', H2'. groups.
  assert ((c2 / 16) mod 16 = c2 / 16) as -> by (Z.div_mod_to_equations; lia).
  assert (0 <= c2 / 16 < 16) by (Z.div_mod_to_equations; lia).
  pose proof (Z.mod_pos_bound fill 4 ltac:(lia)). rewrite group2, group3 by (easy || lia).
  assert (0 <= c1 / 4 < 64) by (Z.div_mod_to_equations; lia).
  assert (0 <= 16 * (c1 mod 4) + c2 / 16 < 64) by (Z.div_mod_to_equations; lia).
  assert (0 <= 4 * (c2 mod 16) + fill mod 4 < 64) by (Z.div_mod_to_equations; lia).
  assert (Z.land (4 * (c2 mod 16) + fill mod 4) 3 = fill mod 4) as EL.
  { groups. Z.div_mod_to_equations. lia. }
  cbn [decode_loop]. unfold available. cbn [left length Nat.eqb negb].
  read_code.
  read_code.
  read_code.
  rewrite skip_pad. cbn [Z.eqb Pos.eqb].
  rewrite byte_1, byte_2, EL by (try apply Z.mod_pos_bound; easy || lia).
  replace (o + 1 + 1 + 1) with (o + 3) by lia. change (2 mod 3)%nat with 2%nat.
  destruct fp; [easy|]. destruct Hf as [Hf|Hf]; [easy|].
  change (2 ^ base64mod_fill_size (Z.of_nat 2)) with 4 in Hf. now rewrite Hf.
Qed.

Lemma mod3_step n : (S (S (S n)) mod 3 = n mod 3)%nat.
Proof. rewrite <- (Nat.Div0.mod_add n 1 3). f_equal. lia. Qed.

Lemma fill_size_step n : base64mod_fill_size (Z.of_nat (S (S (S n)))) = base64mod_fill_size (Z.of_nat n).
Proof.
  unfold base64mod_fill_size. do 2 f_equal. rewrite <- (Z_mod_plus_full (Z.of_nat n) 1 3). f_equal. lia.
Qed.

Lemma decode_encoded padding fp : forall n p fuel o,
  (length p <= n)%nat -> is_bytes p -> fill_ok (length p) fp ->
  (length (encode_loop encode PAD padding fill p) < fuel)%nat -> o mod 4 = 0 ->
  exists o', decode_loop fuel fp {| ptr := o; left := encode_loop encode PAD padding fill p |} =
    Ret (pad_end o' (pad_cells padding (length p)), p, fill_out (length p) fp) /\
  (o' + Z.of_nat (match length p mod 3 with 0 => 0 | 1 => 2 | _ => 1 end)%nat) mod 4 = 0.
Proof.
  induction n as [|n IH]; intros p fuel o Hn HB Hf HF Ho; (destruct fuel as [|fuel]; [lia|]).
  all: destruct p as [|p0 [|p1 [|p2 p]]]; try (cbn [length] in Hn; lia).
  1,2: exists o; split;
    [unfold pad_end, pad_cells, fill_out; destruct (PAD =? chr "."), padding, fp; cbn;
       rewrite ?Z.add_0_r; reflexivity | cbn; now rewrite Z.add_0_r].
  - inversion HB; subst. exists (o + 2). rewrite decode_tail1 by easy.
    split; [easy|]. cbn. rewrite <- Z.add_assoc, Z.add_mod, Ho by lia. reflexivity.
  - inversion HB as [|? ? ? HB1]; inversion HB1; subst. exists (o + 3). rewrite decode_tail2 by easy.
    split; [easy|]. cbn. rewrite <- Z.add_assoc, Z.add_mod, Ho by lia. reflexivity.
  - inversion HB as [|? ? ? HB1]; inversion HB1 as [|? ? ? HB2]; inversion HB2; subst.
    cbn [encode_loop length] in *. rewrite decode_quad by easy.
    destruct (IH p fuel (o + 4)) as (o' & E & M); try easy; try lia.
    + unfold fill_ok in *. now rewrite fill_size_step in Hf.
    + rewrite Z.add_mod, Ho by lia. reflexivity.
    + exists o'. rewrite E. cbn [bind]. unfold pad_cells, fill_out. now rewrite !mod3_step.
Qed.

Lemma decode_func_encode src padding fp dp :
  is_bytes src -> fill_ok (length src) fp -> (dp = true -> padding = true \/ (length src mod 3 = 0)%nat) ->
  base64mod_decode (func_encode encode PAD padding fill src) dp fp = Ret (src, fill_out (length src) fp).
Proof.
  intros HB Hf Hd. unfold base64mod_decode, func_encode.
  replace (if (length src =? 0)%nat then [] else encode_loop encode PAD padding fill src)
    with (encode_loop encode PAD padding fill src) by now destruct src.
  destruct (decode_encoded padding fp (length src) src
    (S (length (encode_loop encode PAD padding fill src))) 0) as (o & E & M); try easy; try lia.
  rewrite E. cbn [bind]. unfold pad_cells in *.
  set (k := match length src mod 3 with 0 => 0 | 1 => 2 | _ => 1 end%nat) in *.
  assert (k < 4)%nat as K by (subst k; destruct (length src mod 3)%nat as [|[|]]; lia).
  destruct padding.
  - rewrite pad_end_check by easy. cbn [bind]. now destruct (_ || _).
  - replace (available (pad_end o [])) with false by (unfold pad_end; now destruct (_ =? _)).
    destruct dp; cbn [orb]; [|easy]. destruct Hd as [Hd|Hd]; [easy|easy|].
    change (@nil Z) with (repeat PAD 0). subst k. rewrite Hd in M. now rewrite pad_end_check by (easy || lia).
Qed.

Lemma encode_loop_length padding : forall n p, (length p <= n)%nat ->
  Z.of_nat (length (encode_loop encode PAD padding fill p)) =
  base64mod_encoded_size (Z.of_nat (length p)) padding.
Proof.
  induction n as [|n IH]; intros p Hn.
  all: destruct p as [|p0 [|p1 [|p2 p]]]; try (cbn [length] in Hn; lia); try (destruct padding; reflexivity).
  cbn [encode_loop length] in *. rewrite !Nat2Z.inj_succ, IH by lia. unfold base64mod_encoded_size.
  set (m := Z.of_nat (length p)). replace (Z.succ (Z.succ (Z.succ m))) with (m + 1 * 3) by lia.
  replace (m + 1 * 3 + 2) with (m + 2 + 1 * 3) by lia.
  rewrite !Z.div_add, Z_mod_plus_full by lia. destruct padding; lia.
Qed.
End RoundTrip.

(** The decoder never writes more than three bytes per four cells, and always
    has enough fuel: it returns or throws. *)
Lemma skip_blanks_spec l : forall o, exists d o' l',
  skip_blanks_from o l = (d, {| ptr := o'; left := l' |}) /\ (length l' <= length l)%nat /\
  (l' = [] -> d = 64).
Proof.
  induction l as [|c l IH]; intros o; cbn [skip_blanks_from].
  - exists 64, o, []. repeat split. lia.
  - destruct (deref {| ptr := o; left := c :: l |} =? 127).
    + destruct (IH (o + 1)) as (d & o' & l' & E & L & D). exists d, o', l'. cbn [length]. repeat split; auto; lia.
    + exists (deref {| ptr := o; left := c :: l |}), o, (c :: l). repeat split; auto; easy || lia.
Qed.

Ltac skip_step := 
  match goal with |- context [skip_blanks ?it] =>
    let E := fresh "E" in let L := fresh "L" in let D := fresh "D" in
    let d := fresh "d" in let o := fresh "o" in let l := fresh "l" in
    destruct (skip_blanks_spec (left it) (ptr it)) as (d & o & l & E & L & D);
    change (skip_blanks_from (ptr it) (left it)) with (skip_blanks it) in E; rewrite E;
    unfold incr in *; cbn [ptr left] in *;
    destruct (Z.eqb_spec d 64) as [?|?];
    [|destruct l as [|? l]; [now specialize (D eq_refl)|]; cbn [tl length] in *]
  end.

Lemma decode_loop_bound fp : forall fuel it, (length (left it) < fuel)%nat ->
  match decode_loop fuel fp it with
  | Ret (q, dst, _) => 4 * Z.of_nat (length dst) <= 3 * Z.of_nat (length (left it))
  | Throw e => e = InvalidFormatException
  | Undef => False
  end.
Proof.
  induction fuel as [|fuel IH]; intros it HL; [lia|]. cbn [decode_loop].
  destruct (available it); cbn [negb]; [|cbn [length]; lia].
  skip_step; [cbn [length]; lia|]. skip_step; [easy|]. skip_step.
  { destruct fp; [cbn [length]; lia|]. destruct (negb _); [easy|cbn [length]; lia]. }
  skip_step.
  { destruct fp; [cbn [length]; lia|]. destruct (negb _); [easy|cbn [length]; lia]. }
  match goal with |- context [decode_loop fuel fp ?i] =>
    specialize (IH i); destruct (decode_loop fuel fp i) as [[[q dst] fl]| |] end;
  cbn [bind length left] in *; specialize (IH ltac:(lia)); try easy; lia.
Qed.

(** ** Claims *)

(** C2: [base64mod_decode] inverts [base64mod_encode] and [base64_encode] on
    any data: with or without padding (strict padding checks included when
    padding was written or is not needed), blanks allowed by the decoder
    apart, and returns in [*fill] the filler bits that were put in the last
    group. *)
Theorem base64_roundtrip src padding dec_padding fill fill_ptr :
  is_bytes src ->
  (fill_ptr = true \/ fill mod 2 ^ base64mod_fill_size (Z.of_nat (length src)) = 0) ->
  (dec_padding = true -> padding = true \/ (length src mod 3 = 0)%nat) ->
  base64mod_decode (base64mod_encode src padding fill) dec_padding fill_ptr =
    Ret (src, fill_out fill (length src) fill_ptr) /\
  base64mod_decode (base64_encode src padding) dec_padding fill_ptr =
    Ret (src, fill_out 0 (length src) fill_ptr).
Proof.
  intros HB Hf Hd. split.
  - apply decode_func_encode; auto using mod_code.
  - apply decode_func_encode; auto using std_code. right. apply Z.mod_0_l.
    pose proof (Z.mod_pos_bound (Z.of_nat (length src)) 3 ltac:(lia)).
    unfold base64mod_fill_size. apply Z.pow_nonzero; [lia|]. apply Z.land_nonneg. lia.
Qed.

Lemma base64_roundtrip_witness :
  base64mod_decode (base64mod_encode (lit "fooba") true 3) true true =
    Ret (lit "fooba", fill_out 3 5 true) /\
  base64mod_decode (base64_encode (lit "fooba") true) true true =
    Ret (lit "fooba", fill_out 0 5 true).
Proof.
  apply (base64_roundtrip (lit "fooba") true true 3 true); [apply lit_bytes|now left|now left].
Defined.

(** the encoders write exactly [base64mod_encoded_size] characters, and
    on every input (valid or not) the decoder terminates without reading
    outside it, throws only [InvalidFormatException] and writes at most
    [base64mod_max_decoded_size] bytes. *)
Theorem base64_sizes src padding fill fill_ptr :
  Z.of_nat (length (base64mod_encode src padding fill)) =
    base64mod_encoded_size (Z.of_nat (length src)) padding /\
  match base64mod_decode src padding fill_ptr with
  | Ret (dst, _) =>
      Z.of_nat (length dst) <= base64mod_max_decoded_size (Z.of_nat (length src))
  | Throw e => e = InvalidFormatException
  | Undef => False
  end.
Proof.
  split.
  - unfold base64mod_encode, func_encode. destruct src as [|c src]; [now destruct padding|].
    apply (encode_loop_length _ _ _ _ (length (c :: src))). lia.
  - unfold base64mod_decode.
    pose proof (decode_loop_bound fill_ptr (S (length src)) {| ptr := 0; left := src |}) as B.
    cbn [left] in B. specialize (B ltac:(lia)).
    destruct (decode_loop _ _ _) as [[[q dst] fl]| |]; cbn [bind]; try easy.
    assert (Z.of_nat (length dst) <= base64mod_max_decoded_size (Z.of_nat (length src))).
    { unfold base64mod_max_decoded_size. Z.div_mod_to_equations. lia. }
    destruct (_ || _); [|easy]. unfold check_padding. destruct (_ || _); cbn [bind]; easy.
Qed.
