(* ===== verification/UrlCodec.v ===== *)
(** * UrlCodec: the URL and hex codecs of src/src/String/StringManip.cpp

    [mime_url_encode], the two [mime_url_decode] (into a new string, and in
    place over the text), [hex_encode] and [hex_decode]. *)

From Stdlib Require Import ZArith List Bool Lia.
From S2P Require Import Prelude Ascii.
Import ListNotations.

Definition MIME : CharTable := Eval vm_compute in CharTable_new (Some (lit "A-Za-z0-9_*.,-")) false.

Definition hex_digit (n : Z) : Z := nth (Z.to_nat n) HEX_DIGITS 0.

(** ** mime_url_encode: [cur] is the range [cur, END), [dest] the result. *)
Fixpoint mime_url_encode_loop (fuel : nat) (cur dest : list Z) : list Z :=
  match fuel with
  | O => dest
  | S fuel' =>
      let ptr := find_nonowned (table_owned MIME) cur in
      let dest := if negb (ptr =? 0)%nat then dest ++ firstn ptr cur else dest in
      match skipn ptr cur with
      | [] => dest
      | ch :: cur =>
          if ch =? chr " " then mime_url_encode_loop fuel' cur (dest ++ [chr "+"])
          else mime_url_encode_loop fuel' cur
                 (dest ++ [chr "%"; hex_digit (Z.land (Z.shiftr ch 4) 15); hex_digit (Z.land ch 15)])
      end
  end.

Definition mime_url_encode (src : list Z) : list Z :=
  mime_url_encode_loop (S (length src)) src [].

(** ** mime_url_decode into a new string *)
Fixpoint mime_url_decode (strict : bool) (cur : list Z) : outcome (list Z) :=
  match cur with
  | [] => Ret []
  | ch :: rest =>
      if ch =? chr "+" then dst <- mime_url_decode strict rest ;; Ret (chr " " :: dst)
      else if ch =? chr "%" then
        match rest with
        | a :: b :: rest' =>
            if negb (table_owned HEX_NUMBER a) || negb (table_owned HEX_NUMBER b) then
              if strict then Throw InvalidFormatException
              else dst <- mime_url_decode strict rest ;; Ret (ch :: dst)
            else dst <- mime_url_decode strict rest' ;; Ret (hex_to_char a b :: dst)
        | _ =>
            if strict then Throw InvalidFormatException
            else dst <- mime_url_decode strict rest ;; Ret (ch :: dst)
        end
      else dst <- mime_url_decode strict rest ;; Ret (ch :: dst)
  end.

(** ** mime_url_decode in place

    One buffer, with a read position and a write position in it. *)
Fixpoint mime_url_decode_inplace_loop (size : nat) (text : list Z) (dest src : nat)
  : outcome (list Z * nat) :=
  match size with
  | O => Ret (text, dest)
  | S size' =>
      c <- rd text src ;;
      if c =? chr "+" then
        mime_url_decode_inplace_loop size' (upd text dest (chr " ")) (S dest) (S src)
      else if c =? chr "%" then
        match size' with
        | S (S size'') =>
            a <- rd text (src + 1) ;;
            b <- rd text (src + 2) ;;
            if negb (table_owned HEX_NUMBER a) || negb (table_owned HEX_NUMBER b)
            then Throw InvalidFormatException
            else mime_url_decode_inplace_loop size'' (upd text dest (hex_to_char a b)) (S dest) (src + 3)
        | _ => Throw InvalidFormatException
        end
      else mime_url_decode_inplace_loop size' (upd text dest c) (S dest) (S src)
  end.

(** The text left in the string (of a thrown call nothing is said). *)
Definition mime_url_decode_inplace (text : list Z) : outcome (list Z) :=
  if (length text =? 0)%nat then Ret text
  else
    '(text, dest) <- mime_url_decode_inplace_loop (length text) text 0 0 ;;
    Ret (firstn dest text).

(** ** hex_encode *)
Fixpoint hex_pairs (data : list Z) : list Z :=
  match data with
  | [] => []
  | d :: data' => hex_digit (Z.shiftr d 4) :: hex_digit (Z.land d 15) :: hex_pairs data'
  end.

(** [while (!*data)]: [None] when the size reaches 0. *)
Fixpoint skip_zeroes (data : list Z) : option (list Z) :=
  match data with
  | [] => None
  | d :: data' => if d =? 0 then skip_zeroes data' else Some data
  end.

Definition hex_encode (data : list Z) (skip_leading_zeroes : bool) : list Z :=
  if (length data =? 0)%nat then []
  else if skip_leading_zeroes then
    match skip_zeroes data with
    | None => [chr "0"]
    | Some [] => []
    | Some (d :: data') =>
        if Z.land d 240 =? 0 then hex_digit d :: hex_pairs data' else hex_pairs (d :: data')
    end
  else hex_pairs data.

(** ** hex_decode: the bytes put in [dst]; their number is returned *)
Definition hex_decode (src : list Z) (allow_odd_string : bool) : outcome (list Z) :=
  let odd_string := Nat.odd (length src) in
  if odd_string && negb allow_odd_string then Throw InvalidFormatException
  else match src with
       | c :: src' =>
           if odd_string then
             buf <- hex_to_buf src' ;; Ret (hex_to_int c :: buf)
           else hex_to_buf src
       | [] => hex_to_buf []
       end.

Example mime_1 : mime_url_encode (lit "a b/c") = lit "a+b%2Fc".
Proof. reflexivity. Qed.
Example mime_2 : mime_url_decode_inplace (lit "a+b%2Fc%41") = Ret (lit "a b/cA").
Proof. reflexivity. Qed.
Example hex_1 : hex_encode [0; 10; 255] true = lit "AFF".
Proof. reflexivity. Qed.

(** ** Facts: encoding as a map over the characters *)

Definition encode_char (c : Z) : list Z :=
  if table_owned MIME c then [c]
  else if c =? chr " " then [chr "+"]
  else [chr "%"; hex_digit (Z.land (Z.shiftr c 4) 15); hex_digit (Z.land c 15)].

Lemma flat_map_owned l : Forall (fun c => table_owned MIME c = true) l -> flat_map encode_char l = l.
Proof. induction 1 as [|c l H _ IH]; [easy|]. cbn [flat_map]. unfold encode_char at 1. now rewrite H, IH. Qed.

Lemma mime_url_encode_loop_spec fuel : forall cur dest, (length cur < fuel)%nat ->
  mime_url_encode_loop fuel cur dest = dest ++ flat_map encode_char cur.
Proof.
  induction fuel as [|fuel IH]; intros cur dest L; [lia|]. cbn [mime_url_encode_loop].
  set (ptr := find_nonowned (table_owned MIME) cur).
  pose proof (find_nonowned_prefix (table_owned MIME) cur) as P.
  pose proof (find_nonowned_stop (table_owned MIME) cur) as S. fold ptr in P, S.
  assert (length (skipn ptr cur) <= length cur)%nat as LS by (rewrite length_skipn; lia).
  replace (if negb (ptr =? 0)%nat then dest ++ firstn ptr cur else dest) with (dest ++ firstn ptr cur)
    by (destruct ptr; cbn; now rewrite ?app_nil_r).
  assert (flat_map encode_char cur = firstn ptr cur ++ flat_map encode_char (skipn ptr cur)) as ->.
  { rewrite <- (firstn_skipn ptr cur) at 1. now rewrite flat_map_app, (flat_map_owned _ P). }
  destruct (skipn ptr cur) as [|ch r]; [cbn; now rewrite app_nil_r|].
  specialize (S ch r eq_refl). cbn [length] in LS. cbn [flat_map]. unfold encode_char at 1. rewrite S.
  destruct (ch =? chr " "); rewrite IH by lia; now rewrite <- !app_assoc.
Qed.

Lemma nibble c : is_byte c -> 0 <= Z.land (Z.shiftr c 4) 15 < 16 /\ 0 <= Z.land c 15 < 16 /\
  Z.land (Z.shiftr c 4) 15 = Z.shiftr c 4.
Proof.
  intros H. change 15 with (2 ^ 4 - 1). rewrite !land_mask, Z.shiftr_div_pow2 by lia.
  unfold is_byte in H. change (2 ^ 4) with 16. Z.div_mod_to_equations. lia.
Qed.

Lemma mime_plain c : table_owned MIME c = true -> (c =? chr "+") = false /\ (c =? chr "%") = false.
Proof.
  intros H. destruct (Z.eqb_spec c (chr "+")) as [->|]; [discriminate H|].
  destruct (Z.eqb_spec c (chr "%")) as [->|]; [discriminate H|easy].
Qed.

Lemma decode_encode_char strict c r : is_byte c ->
  mime_url_decode strict (encode_char c ++ r) = (dst <- mime_url_decode strict r ;; Ret (c :: dst)).
Proof.
  intros H. unfold encode_char. destruct (table_owned MIME c) eqn:M.
  - destruct (mime_plain c M) as [E1 E2]. cbn [app mime_url_decode]. now rewrite E1, E2.
  - destruct (Z.eqb_spec c (chr " ")) as [->|N]; [reflexivity|].
    cbn [app mime_url_decode]. replace (chr "%" =? chr "+") with false by reflexivity.
    rewrite Z.eqb_refl. destruct (nibble c H) as (N1 & N2 & N3).
    unfold hex_digit at 1 2. rewrite !hex_digit_is_hex by easy. cbn [negb orb].
    unfold hex_digit. rewrite N3, hex_byte_roundtrip by easy. reflexivity.
Qed.

Lemma decode_flat_map strict s : is_bytes s ->
  mime_url_decode strict (flat_map encode_char s) = Ret s.
Proof.
  induction 1 as [|c s H _ IH]; [reflexivity|]. cbn [flat_map].
  rewrite decode_encode_char by easy. now rewrite IH.
Qed.

Lemma encode_char_safe c x : is_byte c -> In x (encode_char c) ->
  table_owned MIME x = true \/ x = chr "+" \/ x = chr "%".
Proof.
  intros H. unfold encode_char. destruct (table_owned MIME c) eqn:M; [|destruct (c =? chr " ")]; cbn [In].
  - intros [<-|[]]. now left.
  - intros [<-|[]]. tauto.
  - destruct (nibble c H) as (N1 & N2 & _). assert (forall n, 0 <= n < 16 -> table_owned MIME (hex_digit n) = true) as HD.
    { intros n Hn. assert (In n (map Z.of_nat (seq 0 16))) as I.
      { apply in_map_iff. exists (Z.to_nat n). split; [lia|apply in_seq; lia]. }
      revert I. cbn [map seq In]. intuition (subst; reflexivity). }
    intros [<-|[<-|[<-|[]]]]; auto.
Qed.

(** ** Facts: decoding in place *)

Lemma upd_shift {A} (done gap q rest : list A) y : q <> [] ->
  exists gap', upd (done ++ gap ++ q ++ rest) (length done) y = (done ++ [y]) ++ gap' ++ rest /\
    (S (length gap') = length gap + length q)%nat.
Proof.
  intros Hq. destruct gap as [|g gap].
  - destruct q as [|x q]; [easy|]. exists q. cbn [app length]. rewrite upd_app, <- app_assoc. split; [easy|lia].
  - exists (gap ++ q). cbn [app]. rewrite upd_app, <- !app_assoc, length_app. split; [easy|cbn; lia].
Qed.

Lemma rd_at {A} (a b : list A) c x i : i = (length a + length b)%nat ->
  rd (a ++ b ++ x :: c) i = Ret x.
Proof.
  intros ->. unfold rd. rewrite app_assoc, nth_error_app2, <- length_app, Nat.sub_diag by (rewrite length_app; lia).
  reflexivity.
Qed.

Lemma inplace_loop_spec n : forall rest done gap, (length rest <= n)%nat ->
  match mime_url_decode true rest with
  | Ret dst => exists junk,
      mime_url_decode_inplace_loop (length rest) (done ++ gap ++ rest) (length done)
        (length done + length gap) = Ret (done ++ dst ++ junk, (length done + length dst)%nat)
  | Throw e =>
      mime_url_decode_inplace_loop (length rest) (done ++ gap ++ rest) (length done)
        (length done + length gap) = Throw e
  | Undef => False
  end.
Proof.
  induction n as [|n IH]; intros rest done gap L.
  { destruct rest; [|cbn in L; lia]. cbn. exists gap. now rewrite app_nil_r, Nat.add_0_r. }
  destruct rest as [|c rest]; [exists gap; cbn; now rewrite app_nil_r, Nat.add_0_r|].
  assert (forall q rest' y, c :: rest = q ++ rest' -> q <> [] ->
    match (dst <- mime_url_decode true rest' ;; Ret (y :: dst)) with
    | Ret dst => exists junk,
        mime_url_decode_inplace_loop (length rest') (upd (done ++ gap ++ c :: rest) (length done) y)
          (S (length done)) (length done + length gap + length q) =
        Ret (done ++ dst ++ junk, (length done + length dst)%nat)
    | Throw e =>
        mime_url_decode_inplace_loop (length rest') (upd (done ++ gap ++ c :: rest) (length done) y)
          (S (length done)) (length done + length gap + length q) = Throw e
    | Undef => False
    end) as STEP.
  { intros q rest' y EQ Hq. rewrite EQ in *. destruct (upd_shift done gap q rest' y Hq) as (gap' & E & LG).
    rewrite E. assert (length rest' <= n)%nat as L'.
    { rewrite length_app in L. destruct q; [easy|]. cbn in L. lia. }
    specialize (IH rest' (done ++ [y]) gap' L'). rewrite length_app in IH. cbn [length] in IH.
    replace (length done + length gap + length q)%nat with (length done + 1 + length gap')%nat by lia.
    rewrite Nat.add_1_r in *.
    destruct (mime_url_decode true rest') as [dst| |]; cbn [bind]; [|easy|easy].
    destruct IH as (junk & IH). exists junk. rewrite IH. rewrite <- app_assoc. cbn [app length].
    do 2 f_equal. lia. }
  cbn [mime_url_decode mime_url_decode_inplace_loop length]. rewrite rd_at by easy. cbn [bind].
  pose proof (STEP [c] rest) as S1. cbn [length app] in S1. rewrite Nat.add_1_r in S1.
  destruct (c =? chr "+"); [now apply S1|]. destruct (c =? chr "%"); [|now apply S1].
  destruct rest as [|a [|b rest]]; cbn [length]; [easy|easy|].
  assert (rd (done ++ gap ++ c :: a :: b :: rest) (length done + length gap + 1) = Ret a) as ->.
  { pose proof (rd_at done (gap ++ [c]) (b :: rest) a) as R. rewrite <- app_assoc in R. apply R.
    rewrite length_app. cbn. lia. }
  assert (rd (done ++ gap ++ c :: a :: b :: rest) (length done + length gap + 2) = Ret b) as ->.
  { pose proof (rd_at done (gap ++ [c; a]) rest b) as R. rewrite <- app_assoc in R. apply R.
    rewrite length_app. cbn. lia. }
  cbn [bind].
  destruct (negb _ || negb _); [easy|]. now apply (STEP [c; a; b] rest).
Qed.

(** ** Facts: hex *)

Lemma hex_pairs_decode d : is_bytes d -> hex_to_buf (hex_pairs d) = Ret d.
Proof.
  induction 1 as [|x d H _ IH]; [reflexivity|]. cbn [hex_pairs hex_to_buf]. rewrite IH. cbn [bind].
  unfold hex_digit. now rewrite hex_byte_roundtrip.
Qed.

Lemma hex_pairs_even d : Nat.odd (length (hex_pairs d)) = false.
Proof. induction d as [|x d IH]; [easy|]. exact IH. Qed.

Definition be_value (d : list Z) : Z := fold_left (fun v x => 256 * v + x) d 0.

Lemma skip_zeroes_value d d' : skip_zeroes d = Some d' -> be_value d = be_value d'.
Proof.
  induction d as [|x d IH]; cbn [skip_zeroes]; [easy|].
  destruct (Z.eqb_spec x 0) as [->|]; [|now intros [= <-]]. apply IH.
Qed.

Lemma skip_zeroes_none d : skip_zeroes d = None -> be_value d = 0.
Proof.
  induction d as [|x d IH]; cbn [skip_zeroes]; [easy|].
  destruct (Z.eqb_spec x 0) as [->|]; [|easy]. apply IH.
Qed.

Lemma skip_zeroes_bytes d d' : is_bytes d -> skip_zeroes d = Some d' -> is_bytes d' /\ d' <> [].
Proof.
  induction 1 as [|x d H HD IH]; cbn [skip_zeroes]; [easy|].
  destruct (Z.eqb_spec x 0); [exact IH|]. intros [= <-]. split; [now constructor|easy].
Qed.

Lemma low_digit d : is_byte d -> Z.land d 240 = 0 -> hex_to_int (hex_digit d) = d.
Proof.
  intros H E. apply hex_digit_value.
  assert (implb (Z.land d 240 =? 0) (d <? 16) = true) as I.
  { clear E. revert d H. apply (byte_forall (fun d => implb (Z.land d 240 =? 0) (d <? 16))).
    vm_compute. reflexivity. }
  rewrite E in I. cbn in I. unfold is_byte in H. lia.
Qed.

Lemma hex_decode_pairs d odd : is_bytes d -> hex_decode (hex_pairs d) odd = Ret d.
Proof.
  intros H. unfold hex_decode. rewrite hex_pairs_even. cbn [andb].
  destruct d as [|x d]; [reflexivity|]. exact (hex_pairs_decode (x :: d) H).
Qed.

Lemma hex_decode_digit c d : is_bytes d ->
  hex_decode (c :: hex_pairs d) true = Ret (hex_to_int c :: d).
Proof.
  intros H. unfold hex_decode. cbn [length]. rewrite Nat.odd_succ, <- Nat.negb_odd, hex_pairs_even.
  cbn [negb andb]. now rewrite hex_pairs_decode.
Qed.

(** ** Claims *)

(** [mime_url_decode], strict or not, inverts [mime_url_encode] on every
    byte string, and the encoded text is made of URL-safe characters, ['+']
    and ['%'] only. *)
Theorem mime_url_roundtrip s strict :
  is_bytes s ->
  mime_url_decode strict (mime_url_encode s) = Ret s /\
  Forall (fun x => table_owned MIME x = true \/ x = chr "+" \/ x = chr "%") (mime_url_encode s).
Proof.
  intros H. unfold mime_url_encode. rewrite mime_url_encode_loop_spec by lia. cbn [app].
  split; [now apply decode_flat_map|]. apply Forall_forall. intros x Hx.
  apply in_flat_map in Hx as (c & Hc & Hx). eapply encode_char_safe; [|exact Hx].
  now apply (proj1 (Forall_forall _ _) H).
Qed.

Lemma mime_url_roundtrip_witness :
  mime_url_decode true (mime_url_encode (lit "a b?c=%")) = Ret (lit "a b?c=%") /\
  Forall (fun x => table_owned MIME x = true \/ x = chr "+" \/ x = chr "%")
    (mime_url_encode (lit "a b?c=%")).
Proof. apply (mime_url_roundtrip (lit "a b?c=%") true). apply lit_bytes. Defined.

(** the in-place [mime_url_decode], which writes over the text it is still
    reading, terminates inside the buffer and computes the same result or
    error as the strict decoding into a new string. *)
Theorem mime_url_decode_inplace_equiv text :
  mime_url_decode_inplace text = mime_url_decode true text.
Proof.
  unfold mime_url_decode_inplace. destruct text as [|c text]; [reflexivity|].
  set (t := c :: text). change (length t =? 0)%nat with false. cbv iota.
  pose proof (inplace_loop_spec (length t) t [] [] (Nat.le_refl _)) as L. cbn [app length Nat.add] in L.
  destruct (mime_url_decode true t) as [dst| |]; [|now rewrite L|easy].
  destruct L as (junk & L). rewrite L. cbn [bind]. now rewrite firstn_app, firstn_all, Nat.sub_diag, app_nil_r.
Qed.

(** [hex_decode] inverts [hex_encode]; with [skip_leading_zeroes] the
    number the bytes spell (most significant first) is kept and no leading
    zero byte is left. *)
Theorem hex_roundtrip d :
  is_bytes d ->
  (forall odd, hex_decode (hex_encode d false) odd = Ret d) /\
  (d <> [] -> exists d', hex_decode (hex_encode d true) true = Ret d' /\ be_value d' = be_value d /\
     (d' = [0] \/ hd 0 d' <> 0)).
Proof.
  intros H. unfold hex_encode. destruct d as [|x d]; [split; [now intros []|easy]|].
  set (l := x :: d) in *. change (length l =? 0)%nat with false. cbv iota.
  split; [intros odd; now apply hex_decode_pairs|]. intros _.
  destruct (skip_zeroes l) as [l'|] eqn:E.
  2:{ exists [0]. rewrite (skip_zeroes_none l E). repeat split. now left. }
  destruct (skip_zeroes_bytes l l' H E) as [HB HN]. rewrite (skip_zeroes_value l l' E).
  assert (hd 0 l' <> 0) as HH.
  { clear -E. induction l as [|y l IH]; [easy|]. cbn [skip_zeroes] in E.
    destruct (Z.eqb_spec y 0); [auto|]. injection E as <-. easy. }
  destruct l' as [|y l']; [easy|]. inversion HB as [|? ? HY HL]; subst. exists (y :: l').
  destruct (Z.eqb_spec (Z.land y 240) 0) as [E0|E0].
  - rewrite hex_decode_digit, low_digit by easy. repeat split. now right.
  - rewrite hex_decode_pairs by easy. repeat split. now right.
Qed.

Lemma hex_roundtrip_witness :
  (forall odd, hex_decode (hex_encode [0; 10; 255] false) odd = Ret [0; 10; 255]) /\
  ([0; 10; 255] <> [] -> exists d', hex_decode (hex_encode [0; 10; 255] true) true = Ret d' /\
     be_value d' = be_value [0; 10; 255] /\ (d' = [0] \/ hd 0 d' <> 0)).
Proof. apply (hex_roundtrip [0; 10; 255]). repeat constructor; discriminate. Defined.
