(* ===== verification/Numbers.v ===== *)
(** * Numbers: decimal conversions and C string building

    [int_to_str] and [str_to_int] of src/src/String/StringManip.tpp, and
    [strlcpy], [strlcat], [append] and [concat] of StringManip.ipp.  The
    integer type of the templates is an [IntType]. *)

From Stdlib Require Import ZArith List Bool Lia.
From S2P Require Import Prelude Ascii.
Import ListNotations.

(** ** int_to_str *)

(** [do *ptr++ = '0' + value % 10; while (value /= 10);] *)
Fixpoint digits_loop (fuel : nat) (value : Z) : list Z :=
  match fuel with
  | O => []
  | S fuel' =>
      (chr "0" + value mod 10) ::
      (let value := value / 10 in if negb (value =? 0) then digits_loop fuel' value else [])
  end.

(** [for (; str < ptr; str++, ptr--) std::swap( *str, *ptr);] *)
Fixpoint swap_loop (fuel : nat) (buf : list Z) (str ptr : nat) : list Z :=
  match fuel with
  | O => buf
  | S fuel' =>
      if (str <? ptr)%nat then
        swap_loop fuel' (upd (upd buf str (nth ptr buf 0)) ptr (nth str buf 0)) (S str) (ptr - 1)
      else buf
  end.

Section Integer.
Context {I : IntType}.

(** [IntToStrSign<Integer, false>]: the size returned and the cells written,
    the terminator included.  A value has at most [digits10 + 1] digits. *)
Definition convert_unsigned (value : Z) : Z * list Z :=
  let buf := digits_loop (Z.to_nat (digits10 + 1)) value in
  let size := length buf in
  (Z.of_nat size, swap_loop size buf 0 (size - 1) ++ [0]).

Definition convert_signed (value : Z) : Z * list Z :=
  if value <? - int_max then (0, [])
  else if value <? 0 then
    let (n, cells) := convert_unsigned (- value) in (n + 1, chr "-" :: cells)
  else convert_unsigned value.

Definition int_to_str (value size : Z) : Z * list Z :=
  if size <? digits10 + 3 then (0, [])
  else if is_signed then convert_signed value else convert_unsigned value.

(** ** str_to_int: the flag and the final [value] *)

Definition digit_of (c : Z) : Z := u8 (c - chr "0").
Definition LIMIT : Z := int_max / 10.

Fixpoint negative_loop (src : list Z) (value : Z) : bool * Z :=
  match src with
  | [] => (true, value)
  | c :: src' =>
      let ch := digit_of c in
      if (9 <? ch) || (value <? - LIMIT) ||
         ((value =? - LIMIT) && (u8 (- (int_min + LIMIT * 10)) <? ch))
      then (false, value)
      else negative_loop src' (value * 10 - ch)
  end.

Fixpoint positive_loop (src : list Z) (value : Z) : bool * Z :=
  match src with
  | [] => (true, value)
  | c :: src' =>
      let ch := digit_of c in
      if (9 <? ch) || (LIMIT <? value) ||
         ((value =? LIMIT) && (u8 (int_max - LIMIT * 10) <? ch))
      then (false, value)
      else positive_loop src' (value * 10 + ch)
  end.

Definition str_to_int (str : list Z) (value : Z) : bool * Z :=
  match str with
  | [] => (false, value)
  | c :: rest =>
      if c =? chr "-" then
        if negb is_signed then (false, value)
        else match rest with [] => (false, value) | _ => negative_loop rest 0 end
      else if c =? chr "+" then
        match rest with [] => (false, value) | _ => positive_loop rest 0 end
      else positive_loop str 0
  end.
End Integer.

(** ** strlcpy and strlcat

    [dst] and [src] are the buffers the pointers come from, [d] and [s] the
    offsets of the pointers. *)

(** [while (--size) if (!( *dst++ = *src++)) return ...]: [k] copies at most;
    the flag says that the terminator was copied. *)
Fixpoint copy_loop (k : nat) (dst : list Z) (d : nat) (src : list Z) (s : nat)
  : outcome (bool * list Z * nat * nat) :=
  match k with
  | O => Ret (false, dst, d, s)
  | S k' =>
      c <- rd src s ;;
      dst <- wr dst d c ;;
      if c =? 0 then Ret (true, dst, S d, S s) else copy_loop k' dst (S d) src (S s)
  end.

(** [while ( *src++);]: the offset after the terminator. *)
Fixpoint skip_string (fuel : nat) (src : list Z) (s : nat) : outcome nat :=
  match fuel with
  | O => Undef
  | S fuel' =>
      c <- rd src s ;;
      if c =? 0 then Ret (S s) else skip_string fuel' src (S s)
  end.

Definition strlcpy (dst : list Z) (d : nat) (src : list Z) (size : nat) : outcome (Z * list Z) :=
  match size with
  | S k =>
      '(ended, dst, d, s) <- copy_loop k dst d src 0 ;;
      if (ended : bool) then Ret (Z.of_nat s - 1, dst)
      else
        dst <- wr dst d 0 ;;
        s <- skip_string (S (length src)) src s ;;
        Ret (Z.of_nat s - 1, dst)
  | O =>
      s <- skip_string (S (length src)) src 0 ;;
      Ret (Z.of_nat s - 1, dst)
  end.

(** [while (size-- && *dst) dst++; size++]: the offset reached and the size. *)
Fixpoint find_end (size : nat) (dst : list Z) (d : nat) : outcome (nat * nat) :=
  match size with
  | O => Ret (d, 0%nat)
  | S size' =>
      c <- rd dst d ;;
      if c =? 0 then Ret (d, size) else find_end size' dst (S d)
  end.

Definition strlcat (dst src : list Z) (size : nat) : outcome (Z * list Z) :=
  '(d, rest) <- find_end size dst 0 ;;
  let dst_len := Z.of_nat (size - rest) in
  match rest with
  | S k =>
      '(ended, dst, d, s) <- copy_loop k dst d src 0 ;;
      if (ended : bool) then Ret (Z.of_nat s + dst_len - 1, dst)
      else
        dst <- wr dst d 0 ;;
        s <- skip_string (S (length src)) src s ;;
        Ret (Z.of_nat s + dst_len - 1, dst)
  | O =>
      s <- skip_string (S (length src)) src 0 ;;
      Ret (Z.of_nat s + dst_len - 1, dst)
  end.

(** ** append and concat *)

(** The argument types of the overloads; a C string is its cells. *)
Inductive arg : Type :=
| ArgPtr (str : list Z)
| ArgSub (str : list Z)
| ArgInt (I : IntType) (value : Z).

(** [CharTraits::copy]: [n] cells to [dst + d]. *)
Fixpoint copy_cells (dst : list Z) (d : nat) (cells : list Z) : outcome (list Z) :=
  match cells with
  | [] => Ret dst
  | c :: cells' => dst <- wr dst d c ;; copy_cells dst (S d) cells'
  end.

Definition append (buffer : list Z) (pos size : nat) (a : arg) : outcome (nat * list Z) :=
  match a with
  | ArgPtr str =>
      '(len, buffer) <- strlcpy buffer pos str size ;;
      Ret (if len <? Z.of_nat size then Z.to_nat len else size, buffer)
  | ArgSub str =>
      if (size <=? length str)%nat then
        buffer <- copy_cells buffer pos (firstn (size - 1) str) ;;
        buffer <- wr buffer (pos + (size - 1)) 0 ;;
        Ret (size, buffer)
      else
        buffer <- copy_cells buffer pos str ;;
        Ret (length str, buffer)
  | ArgInt _ integer =>
      let (res, cells) := int_to_str integer (Z.of_nat size) in
      if res =? 0 then
        buffer <- wr buffer pos 0 ;;
        Ret (size, buffer)
      else
        buffer <- copy_cells buffer pos cells ;;
        Ret (Z.to_nat (res - 1), buffer)
  end.

Fixpoint concat (buffer : list Z) (pos size : nat) (args : list arg) : outcome (list Z) :=
  match args with
  | [] => if (size =? 0)%nat then Undef else wr buffer pos 0
  | f :: args' =>
      '(len, buffer) <- append buffer pos size f ;;
      if (len <? size)%nat then concat buffer (pos + len) (size - len) args' else Ret buffer
  end.

Example int_1 : int_to_str (I := Int32) (-120) 16 = (4, lit "-120" ++ [0]).
Proof. reflexivity. Qed.
Example int_2 : str_to_int (I := Int8) (lit "-128") 7 = (true, -128).
Proof. reflexivity. Qed.
Example int_3 : str_to_int (I := Int8) (lit "128") 7 = (false, 12).
Proof. reflexivity. Qed.
Example cat_1 : concat (repeat 1 8) 0 8 [ArgSub (lit "ab"); ArgPtr (lit "cd" ++ [0])] = Ret (lit "abcd" ++ [0; 1; 1; 1]).
Proof. reflexivity. Qed.

(** ** Facts: decimal text *)

Definition is_digit (c : Z) : bool := (48 <=? c) && (c <=? 57).
Definition dec_from (v : Z) (l : list Z) : Z := fold_left (fun v c => 10 * v + (c - 48)) l v.

Lemma digit_of_digit c : is_digit c = true -> digit_of c = c - 48.
Proof.
  unfold is_digit, digit_of. change (chr "0") with 48. intros H. bools. apply wrapu_small. lia.
Qed.

Lemma digit_of_other c : is_byte c -> is_digit c = false -> 9 < digit_of c.
Proof.
  unfold is_byte, is_digit, digit_of, wrapu. change (chr "0") with 48. change (2 ^ 8) with 256.
  intros H E. Z.div_mod_to_equations. lia.
Qed.

Lemma digit_number c : is_digit c = true -> table_owned NUMBER c = true.
Proof.
  intros H. assert (is_byte c) as B by (unfold is_digit, is_byte in *; lia).
  assert (implb (is_digit c) (table_owned NUMBER c) = true) as E.
  { clear H. revert c B. apply (byte_forall (fun c => implb (is_digit c) (table_owned NUMBER c))). vm_compute. reflexivity. }
  now rewrite H in E.
Qed.

Lemma dec_from_ge l : forallb is_digit l = true -> forall v, 0 <= v -> v <= dec_from v l.
Proof.
  induction l as [|c l IH]; intros H v Hv; [cbn; lia|]. cbn [forallb] in H. bools.
  change (dec_from v (c :: l)) with (dec_from (10 * v + (c - 48)) l).
  unfold is_digit in H. specialize (IH H0 (10 * v + (c - 48))). lia.
Qed.

Lemma dec_from_app v a b : dec_from v (a ++ b) = dec_from (dec_from v a) b.
Proof. apply fold_left_app. Qed.

Lemma digits_loop_spec fuel : forall value,
  0 <= value < 10 ^ Z.of_nat fuel -> (0 < fuel)%nat ->
  digits_loop fuel value <> [] /\ (length (digits_loop fuel value) <= fuel)%nat /\
  forallb is_digit (digits_loop fuel value) = true /\
  dec_from 0 (rev (digits_loop fuel value)) = value.
Proof.
  induction fuel as [|fuel IH]; intros value Hv Hf; [lia|]. cbn [digits_loop].
  assert (is_digit (chr "0" + value mod 10) = true) as D.
  { unfold is_digit. change (chr "0") with 48. Z.div_mod_to_equations. lia. }
  assert (forall l, dec_from 0 (rev l) = value / 10 ->
            dec_from 0 (rev ((chr "0" + value mod 10) :: l)) = value) as DV.
  { intros l E. cbn [rev]. rewrite dec_from_app, E. unfold dec_from. cbn [fold_left].
    change (chr "0") with 48. Z.div_mod_to_equations. lia. }
  destruct (Z.eqb_spec (value / 10) 0) as [E|E]; cbn [negb].
  - repeat split; [easy|cbn [length]; lia|cbn [forallb]; now rewrite D|]. apply DV. now rewrite E.
  - destruct fuel as [|fuel].
    { exfalso. apply E. apply Z.div_small. exact Hv. }
    destruct (IH (value / 10)) as (H1 & H2 & H3 & H4); [|lia|].
    { rewrite Nat2Z.inj_succ, Z.pow_succ_r in Hv by lia. Z.div_mod_to_equations. lia. }
    repeat split; [easy|cbn [length] in *; lia|cbn [forallb]; now rewrite D, H3|]. now apply DV.
Qed.

Lemma swap_ends (a : list Z) x m y b :
  upd (upd (a ++ x :: m ++ y :: b) (length a) y) (length a + S (length m)) x = a ++ y :: m ++ x :: b.
Proof.
  rewrite upd_app. replace (length a + S (length m))%nat with (length (a ++ y :: m)) by now rewrite length_app.
  replace (a ++ y :: m ++ y :: b) with ((a ++ y :: m) ++ y :: b) by now rewrite <- app_assoc.
  rewrite upd_app. now rewrite <- app_assoc.
Qed.

Lemma swap_loop_rev fuel : forall a m b, (length m <= fuel)%nat ->
  swap_loop fuel (a ++ m ++ b) (length a) (length a + length m - 1) = a ++ rev m ++ b.
Proof.
  induction fuel as [|fuel IH]; intros a m b L.
  { now destruct m; [|cbn in L; lia]. }
  cbn [swap_loop]. destruct m as [|x m].
  { cbn [length app rev]. now rewrite (proj2 (Nat.ltb_ge _ _)) by lia. }
  destruct m as [|y m _] using rev_ind.
  { cbn [length app rev]. now rewrite (proj2 (Nat.ltb_ge _ _)) by lia. }
  rewrite (proj2 (Nat.ltb_lt _ _)) by (cbn [length]; rewrite length_app; cbn; lia).
  cbn [length] in *. rewrite length_app in *. cbn [length] in *.
  replace (length a + S (length m + 1) - 1)%nat with (length a + S (length m))%nat by lia.
  replace (a ++ (x :: m ++ [y]) ++ b) with (a ++ x :: m ++ y :: b) by (cbn; now rewrite <- app_assoc).
  assert (nth (length a + S (length m)) (a ++ x :: m ++ y :: b) 0 = y) as ->.
  { rewrite app_nth2 by lia. replace (length a + S (length m) - length a)%nat with (S (length m)) by lia.
    cbn [nth]. now rewrite app_nth2, Nat.sub_diag by lia. }
  assert (nth (length a) (a ++ x :: m ++ y :: b) 0 = x) as ->.
  { now rewrite app_nth2, Nat.sub_diag by lia. }
  rewrite swap_ends. specialize (IH (a ++ [y]) m (x :: b) ltac:(lia)).
  rewrite length_app, <- app_assoc in IH. cbn [length app] in IH.
  replace (S (length a)) with (length a + 1)%nat by lia.
  replace (length a + S (length m) - 1)%nat with (length a + 1 + length m - 1)%nat by lia.
  rewrite IH. cbn [rev]. rewrite rev_app_distr. cbn [rev app]. rewrite <- !app_assoc. reflexivity.
Qed.

(** ** Facts: parsing *)

Section Parse.
Context {I : IntType} {Iok : IntTypeOk I}.

Lemma LIMIT_bounds : 10 * LIMIT <= int_max < 10 * LIMIT + 9 /\ 0 <= LIMIT.
Proof.
  pose proof int_max_big. pose proof int_max_last. unfold LIMIT. Z.div_mod_to_equations. lia.
Qed.

Lemma min_opp : is_signed = true -> int_min = - int_max - 1.
Proof. intros E. rewrite int_min_spec. now rewrite E. Qed.

Lemma positive_loop_spec src : is_bytes src -> forall v, 0 <= v <= int_max ->
  (forallb is_digit src = true /\ dec_from v src <= int_max /\
     positive_loop src v = (true, dec_from v src)) \/
  (fst (positive_loop src v) = false /\ (forallb is_digit src = true -> int_max < dec_from v src)).
Proof.
  pose proof LIMIT_bounds as LB.
  induction 1 as [|c src HC HS IH]; intros v Hv; cbn [positive_loop forallb].
  { left. repeat split. apply Hv. }
  change (dec_from v (c :: src)) with (dec_from (10 * v + (c - 48)) src).
  destruct (is_digit c) eqn:D; cbn [andb].
  2:{ right. pose proof (digit_of_other c HC D). rewrite (proj2 (Z.ltb_lt 9 _)) by lia. easy. }
  rewrite (digit_of_digit c D). rewrite (wrapu_small 8) by (change (2 ^ 8) with 256; lia).
  pose proof D as D'. unfold is_digit in D'. bools.
  destruct (_ || _) eqn:G.
  - right. split; [easy|]. intros F. pose proof (dec_from_ge src F (10 * v + (c - 48))). lia.
  - replace (v * 10 + (c - 48)) with (10 * v + (c - 48)) by lia. apply IH. lia.
Qed.

Lemma negative_loop_spec src : is_signed = true -> is_bytes src -> forall v, 0 <= v <= - int_min ->
  (forallb is_digit src = true /\ dec_from v src <= - int_min /\
     negative_loop src (- v) = (true, - dec_from v src)) \/
  (fst (negative_loop src (- v)) = false /\ (forallb is_digit src = true -> - int_min < dec_from v src)).
Proof.
  intros SG. pose proof LIMIT_bounds as LB. pose proof (min_opp SG) as MO.
  induction 1 as [|c src HC HS IH]; intros v Hv; cbn [negative_loop forallb].
  { left. repeat split. apply Hv. }
  change (dec_from v (c :: src)) with (dec_from (10 * v + (c - 48)) src).
  destruct (is_digit c) eqn:D; cbn [andb].
  2:{ right. pose proof (digit_of_other c HC D). rewrite (proj2 (Z.ltb_lt 9 _)) by lia. easy. }
  rewrite (digit_of_digit c D). rewrite (wrapu_small 8) by (change (2 ^ 8) with 256; lia).
  pose proof D as D'. unfold is_digit in D'. bools.
  destruct (_ || _) eqn:G.
  - right. split; [easy|]. intros F. pose proof (dec_from_ge src F (10 * v + (c - 48))). lia.
  - replace (- v * 10 - (c - 48)) with (- (10 * v + (c - 48))) by lia. apply IH. lia.
Qed.

(** The integer a text spells: an optional sign and decimal digits. *)
Definition parse_nat (l : list Z) : option Z :=
  match l with
  | [] => None
  | _ => if forallb is_digit l then Some (dec_from 0 l) else None
  end.

Definition parse_int (str : list Z) : option Z :=
  match str with
  | [] => None
  | c :: rest =>
      if c =? chr "-" then if is_signed then option_map Z.opp (parse_nat rest) else None
      else if c =? chr "+" then parse_nat rest
      else parse_nat str
  end.

Lemma positive_parse str v : is_bytes str -> str <> [] ->
  positive_loop str 0 = (true, v) <-> parse_nat str = Some v /\ in_int v.
Proof.
  intros HB HN. pose proof int_max_big. unfold parse_nat, in_int.
  destruct str as [|c s]; [easy|]. remember (c :: s) as str.
  assert (int_min <= 0) by (rewrite int_min_spec; destruct is_signed; lia).
  destruct (positive_loop_spec str HB 0) as [(F & L & E) | (E & L)]; [lia|..].
  - rewrite F, E. pose proof (dec_from_ge str F 0 ltac:(lia)). split.
    + intros [= <-]. repeat split; lia.
    + now intros [[= <-] _].
  - split.
    + intros E'. rewrite E' in E. discriminate.
    + destruct (forallb is_digit str); [|easy]. intros [[= <-] R]. specialize (L eq_refl). lia.
Qed.

Lemma negative_parse str v : is_signed = true -> is_bytes str -> str <> [] ->
  negative_loop str 0 = (true, v) <-> option_map Z.opp (parse_nat str) = Some v /\ in_int v.
Proof.
  intros SG HB HN. pose proof int_max_big. pose proof (min_opp SG). unfold parse_nat, in_int.
  destruct str as [|c s]; [easy|]. remember (c :: s) as str.
  destruct (negative_loop_spec str SG HB 0) as [(F & L & E) | (E & L)]; [lia|..]; change (- 0) with 0 in E.
  - rewrite F, E. pose proof (dec_from_ge str F 0 ltac:(lia)). cbn [option_map]. split.
    + intros [= <-]. repeat split; lia.
    + now intros [[= <-] _].
  - split.
    + intros E'. rewrite E' in E. discriminate.
    + destruct (forallb is_digit str); [|easy]. cbn [option_map]. intros [[= <-] R]. specialize (L eq_refl). lia.
Qed.

Lemma parse_exact str value v : is_bytes str ->
  str_to_int str value = (true, v) <-> parse_int str = Some v /\ in_int v.
Proof.
  intros HB. unfold str_to_int, parse_int. destruct str as [|c rest]; [easy|].
  inversion HB; subst. destruct (c =? chr "-").
  - destruct is_signed eqn:SG; cbn [negb]; [|easy].
    destruct rest; [easy|]. now apply negative_parse.
  - destruct (c =? chr "+"); [|now apply positive_parse].
    destruct rest; [easy|]. now apply positive_parse.
Qed.

(** ** Facts: printing *)

Lemma convert_unsigned_spec value : 0 <= value <= int_max ->
  exists text, convert_unsigned value = (Z.of_nat (length text), text ++ [0]) /\
    text <> [] /\ Z.of_nat (length text) <= digits10 + 1 /\ forallb is_digit text = true /\
    dec_from 0 text = value.
Proof.
  intros H. pose proof digits10_spec as DS. pose proof digits10_pos.
  unfold convert_unsigned.
  destruct (digits_loop_spec (Z.to_nat (digits10 + 1)) value) as (H1 & H2 & H3 & H4); [|lia|].
  { rewrite Z2Nat.id by lia. lia. }
  set (l := digits_loop _ value) in *. exists (rev l).
  pose proof (swap_loop_rev (length l) [] l [] (Nat.le_refl _)) as SW.
  cbn [app length Nat.add] in SW. rewrite !app_nil_r in SW. rewrite SW, length_rev.
  repeat split; try easy; try lia.
  - intros E. apply H1. rewrite <- (rev_involutive l), E. easy.
  - apply forallb_forall. intros x Hx. apply in_rev in Hx. rewrite forallb_forall in H3. auto.
Qed.
End Parse.

Section Print.
Context {I : IntType} {Iok : IntTypeOk I}.

Lemma digit_not_sign c : is_digit c = true -> (c =? chr "-") = false /\ (c =? chr "+") = false.
Proof.
  unfold is_digit. change (chr "-") with 45. change (chr "+") with 43. lia.
Qed.

Lemma parse_digits text : text <> [] -> forallb is_digit text = true ->
  parse_int text = Some (dec_from 0 text).
Proof.
  intros HN HD. destruct text as [|c t]; [easy|]. unfold parse_int.
  assert (is_digit c = true) as D by (cbn [forallb] in HD; now bools).
  destruct (digit_not_sign c D) as [-> ->]. unfold parse_nat. now rewrite HD.
Qed.

Lemma digits_bytes text : forallb is_digit text = true -> is_bytes text.
Proof.
  intros H. apply Forall_forall. intros c Hc. rewrite forallb_forall in H. apply H in Hc.
  unfold is_digit, is_byte in *. lia.
Qed.

(** The text written, its terminator and its parse. *)
Lemma int_to_str_spec value size : in_int value -> digits10 + 3 <= size ->
  if is_signed && (value =? int_min) then int_to_str value size = (0, [])
  else exists text, int_to_str value size = (Z.of_nat (length text), text ++ [0]) /\
    (0 < length text)%nat /\ Z.of_nat (length (text ++ [0])) <= digits10 + 3 /\
    is_bytes text /\ parse_int text = Some value.
Proof.
  intros HV HS. unfold in_int in HV. unfold int_to_str. rewrite (proj2 (Z.ltb_ge size _)) by lia.
  pose proof int_min_spec as MS. pose proof int_max_big.
  assert (forall value, 0 <= value <= int_max -> exists text,
    convert_unsigned value = (Z.of_nat (length text), text ++ [0]) /\
    (0 < length text)%nat /\ Z.of_nat (length (text ++ [0])) <= digits10 + 2 /\ is_bytes text /\
    forallb is_digit text = true /\ text <> [] /\ dec_from 0 text = value) as UNS.
  { intros w Hw. destruct (convert_unsigned_spec w Hw) as (text & E & N & L & D & V).
    exists text. rewrite length_app. cbn [length]. repeat split; auto using digits_bytes; [destruct text; cbn; easy || lia|lia]. }
  destruct is_signed eqn:SG; cbn [andb].
  - unfold convert_signed. destruct (Z.eqb_spec value int_min) as [->|NM].
    { now rewrite (proj2 (Z.ltb_lt _ _)) by lia. }
    rewrite (proj2 (Z.ltb_ge value _)) by lia. destruct (Z.ltb_spec value 0).
    + destruct (UNS (- value)) as (text & E & P & L & B & D & N & V); [lia|].
      rewrite E. exists (chr "-" :: text). cbn [length app]. rewrite Nat2Z.inj_succ. cbn [length app] in *.
      repeat split; try lia; [constructor; [apply chr_byte|easy]|].
      unfold parse_int. rewrite Z.eqb_refl, SG. unfold parse_nat. rewrite D, V.
      destruct text; [easy|]. cbn. f_equal. lia.
    + destruct (UNS value) as (text & E & P & L & B & D & N & V); [lia|].
      exists text. rewrite parse_digits, V by easy. repeat split; try easy. lia.
  - destruct (UNS value) as (text & E & P & L & B & D & N & V); [lia|].
    exists text. rewrite parse_digits, V by easy. repeat split; try easy. lia.
Qed.
End Print.

(** ** Facts: C strings *)

Definition c_string (text : list Z) : list Z := text ++ [0].

Lemma copy_loop_spec k : forall text a b pre post,
  Forall (fun c => c <> 0) text -> (k <= length b)%nat ->
  copy_loop k (a ++ b) (length a) (pre ++ text ++ 0 :: post) (length pre) =
  if (length text <? k)%nat
  then Ret (true, a ++ text ++ 0 :: skipn (S (length text)) b,
            (length a + S (length text))%nat, (length pre + S (length text))%nat)
  else Ret (false, a ++ firstn k text ++ skipn k b, (length a + k)%nat, (length pre + k)%nat).
Proof.
  induction k as [|k IH]; intros text a b pre post HT L; cbn [copy_loop].
  { rewrite (proj2 (Nat.ltb_ge (length text) 0)) by lia. cbn [firstn skipn app].
    now rewrite !Nat.add_0_r. }
  destruct b as [|b0 b]; [cbn in L; lia|]. destruct text as [|c text]; cbn [app length].
  - rewrite rd_mid. cbn [bind]. rewrite wr_mid. cbn [bind Z.eqb Nat.ltb Nat.leb skipn].
    repeat f_equal; lia.
  - rewrite rd_mid. cbn [bind]. rewrite wr_mid. cbn [bind].
    inversion HT as [|? ? HC HT']; subst. rewrite (proj2 (Z.eqb_neq _ _) HC).
    specialize (IH text (a ++ [c]) b (pre ++ [c]) post HT' ltac:(cbn in L; lia)).
    rewrite !length_app, <- !app_assoc in IH. cbn [length app] in IH. rewrite !Nat.add_1_r in IH. rewrite IH.
    change (S (length text) <? S k)%nat with (length text <? k)%nat.
    destruct (length text <? k)%nat; cbn [firstn skipn app]; cbn [Nat.add]; now rewrite !Nat.add_succ_r.
Qed.

Lemma skip_string_spec text : Forall (fun c => c <> 0) text -> forall fuel pre post,
  (length text < fuel)%nat ->
  skip_string fuel (pre ++ text ++ 0 :: post) (length pre) = Ret (length pre + S (length text))%nat.
Proof.
  induction 1 as [|c text HC HT IH]; intros fuel pre post L; (destruct fuel as [|fuel]; [lia|]);
    cbn [skip_string app]; rewrite rd_mid; cbn [bind].
  - cbn. f_equal. lia.
  - rewrite (proj2 (Z.eqb_neq _ _) HC). cbn [length] in *.
    specialize (IH fuel (pre ++ [c]) post ltac:(lia)). rewrite <- app_assoc, length_app in IH.
    cbn [length app] in IH. rewrite Nat.add_1_r in IH. rewrite IH. f_equal. lia.
Qed.

Lemma copy_cells_spec cells : forall a b, (length cells <= length b)%nat ->
  copy_cells (a ++ b) (length a) cells = Ret (a ++ cells ++ skipn (length cells) b).
Proof.
  induction cells as [|c cells IH]; intros a b L; cbn [copy_cells length] in *; [easy|].
  destruct b as [|b0 b]; [cbn in L; lia|]. rewrite wr_mid. cbn [bind].
  specialize (IH (a ++ [c]) b ltac:(cbn in L; lia)). rewrite length_app, <- !app_assoc in IH. cbn [length app] in IH.
  rewrite Nat.add_1_r in IH. now rewrite IH.
Qed.

(** What a bounded copy of [text] leaves in [size] cells of the buffer [b]. *)
Definition bounded (text b : list Z) (size : nat) : list Z :=
  let n := min (length text) (size - 1) in firstn n text ++ 0 :: skipn (S n) b.

Lemma strlcpy_spec text a b post size :
  Forall (fun c => c <> 0) text -> (size <= length b)%nat ->
  strlcpy (a ++ b) (length a) (text ++ 0 :: post) size =
  Ret (Z.of_nat (length text), a ++ (if (size =? 0)%nat then b else bounded text b size)).
Proof.
  intros HT L. unfold strlcpy, bounded. destruct size as [|k]; cbn [Nat.eqb].
  { pose proof (skip_string_spec text HT (S (length (text ++ 0 :: post))) [] post) as SK.
    cbn [app length Nat.add] in SK. rewrite SK by (rewrite length_app; cbn; lia). cbn [bind].
    do 2 f_equal. lia. }
  pose proof (copy_loop_spec k text a b [] post HT ltac:(lia)) as CP. cbn [app length Nat.add] in CP. rewrite CP.
  replace (S k - 1)%nat with k by lia.
  destruct (Nat.ltb_spec (length text) k); cbn [bind].
  - rewrite Nat.min_l, firstn_all by lia. do 2 f_equal. lia.
  - rewrite Nat.min_r by lia.
    destruct (skipn k b) as [|b0 b'] eqn:EB.
    { apply (f_equal (@length Z)) in EB. rewrite length_skipn in EB. cbn in EB. lia. }
    replace (length a + k)%nat with (length (a ++ firstn k text)) by (rewrite length_app, length_firstn; lia).
    rewrite app_assoc, wr_mid. cbn [bind].
    replace (skipn (S k) b) with b'.
    2:{ replace (S k) with (k + 1)%nat by lia. rewrite Nat.add_comm, <- skipn_skipn, EB. reflexivity. }
    pose proof (skip_string_spec (skipn k text)) as SK.
    specialize (SK ltac:(rewrite <- (firstn_skipn k text) in HT; apply Forall_app in HT; apply HT)).
    specialize (SK (S (length (text ++ 0 :: post))) (firstn k text) post).
    rewrite app_assoc, firstn_skipn, length_firstn, length_skipn, Nat.min_l in SK by lia.
    rewrite SK by (rewrite length_app; lia). cbn [bind]. rewrite <- app_assoc. cbn [app]. do 2 f_equal. lia.
Qed.

Lemma strlcat_strlcpy dst src size :
  strlcat dst src size =
  ('(d, rest) <- find_end size dst 0 ;;
   '(n, dst) <- strlcpy dst d src rest ;; Ret (n + Z.of_nat (size - rest), dst)).
Proof.
  unfold strlcat, strlcpy. destruct (find_end size dst 0) as [[d rest]| |]; cbn [bind]; [|easy|easy].
  destruct rest as [|k].
  - destruct (skip_string _ src 0); cbn [bind]; try easy. do 2 f_equal. lia.
  - destruct (copy_loop k dst d src 0) as [[[[ended dst'] d'] s]| |]; cbn [bind]; try easy.
    destruct ended; cbn [bind]; [do 2 f_equal; lia|].
    destruct (wr dst' d' 0); cbn [bind]; try easy.
    destruct (skip_string _ src s); cbn [bind]; try easy. do 2 f_equal. lia.
Qed.

Lemma find_end_spec t : Forall (fun c => c <> 0) t -> forall size pre b,
  (size <= length t + S (length b))%nat ->
  find_end size (pre ++ t ++ 0 :: b) (length pre) =
  if (length t <? size)%nat then Ret ((length pre + length t)%nat, (size - length t)%nat)
  else Ret ((length pre + size)%nat, 0%nat).
Proof.
  induction 1 as [|c t HC HT IH]; intros size pre b L; (destruct size as [|size]; cbn [find_end];
    [cbn; now rewrite Nat.add_0_r|]); cbn [app length] in *; rewrite rd_mid; cbn [bind].
  - cbn. now rewrite Nat.add_0_r.
  - rewrite (proj2 (Z.eqb_neq _ _) HC). specialize (IH size (pre ++ [c]) b ltac:(lia)).
    rewrite <- app_assoc, length_app in IH. cbn [length app] in IH. rewrite Nat.add_1_r in IH. rewrite IH.
    change (S (length t) <? S size)%nat with (length t <? size)%nat.
    destruct (length t <? size)%nat; cbn [Nat.add Nat.sub]; now rewrite ?Nat.add_succ_r.
Qed.

(** The characters an argument stands for. *)
Inductive arg_text : arg -> list Z -> Prop :=
| text_ptr text post : Forall (fun c => c <> 0) text -> arg_text (ArgPtr (text ++ 0 :: post)) text
| text_sub text : arg_text (ArgSub text) text.

Lemma bounded_cut t1 t2 b size : (size <= length t1)%nat -> (0 < size)%nat ->
  bounded (t1 ++ t2) b size = bounded t1 b size.
Proof.
  intros L H. unfold bounded. rewrite length_app, !Nat.min_r by lia. f_equal.
  rewrite firstn_app. replace (size - 1 - length t1)%nat with 0%nat by lia. cbn. apply app_nil_r.
Qed.

Lemma bounded_app t1 t2 b b' size : (length t1 < size)%nat ->
  skipn 1 b' = skipn (S (length t1)) b ->
  t1 ++ bounded t2 b' (size - length t1) = bounded (t1 ++ t2) b size.
Proof.
  intros L E. unfold bounded. set (n := min (length t2) (size - length t1 - 1)).
  replace (min (length (t1 ++ t2)) (size - 1)) with (length t1 + n)%nat by (rewrite length_app; lia).
  rewrite firstn_app_2, <- app_assoc. do 3 f_equal.
  replace (S n) with (n + 1)%nat by lia. rewrite <- (skipn_skipn n 1), E, skipn_skipn. f_equal. lia.
Qed.

Lemma append_spec a1 text a b size :
  arg_text a1 text -> (0 < size <= length b)%nat ->
  if (size <=? length text)%nat
  then append (a ++ b) (length a) size a1 = Ret (size, a ++ bounded text b size)
  else exists b', append (a ++ b) (length a) size a1 = Ret (length text, a ++ text ++ b') /\
         skipn 1 b' = skipn (S (length text)) b /\ length b' = (length b - length text)%nat.
Proof.
  intros T [HS HL]. destruct T as [text post HT | text]; cbn [append].
  - rewrite strlcpy_spec by easy. cbn [bind].
    destruct (Nat.eqb_spec size 0); [lia|]. destruct (Nat.leb_spec size (length text)).
    + now rewrite (proj2 (Z.ltb_ge _ _)) by lia.
    + rewrite (proj2 (Z.ltb_lt _ _)) by lia. rewrite Nat2Z.id.
      exists (0 :: skipn (S (length text)) b). unfold bounded. rewrite Nat.min_l, firstn_all by lia.
      repeat split. cbn [length]. rewrite length_skipn. lia.
  - destruct (Nat.leb_spec size (length text)).
    + rewrite copy_cells_spec by (rewrite length_firstn; lia). cbn [bind].
      rewrite length_firstn, Nat.min_l by lia.
      destruct (skipn (size - 1) b) as [|b0 b'] eqn:EB.
      { apply (f_equal (@length Z)) in EB. rewrite length_skipn in EB. cbn in EB. lia. }
      replace (length a + (size - 1))%nat with (length (a ++ firstn (size - 1) text))
        by (rewrite length_app, length_firstn; lia).
      rewrite app_assoc, wr_mid. cbn [bind]. unfold bounded. rewrite Nat.min_r by lia.
      replace (skipn (S (size - 1)) b) with b'.
      2:{ replace (S (size - 1)) with (1 + (size - 1))%nat by lia. rewrite <- skipn_skipn, EB. reflexivity. }
      now rewrite <- app_assoc.
    + rewrite copy_cells_spec by lia. cbn [bind]. exists (skipn (length text) b).
      repeat split; [now rewrite skipn_skipn|apply length_skipn].
Qed.

Lemma concat_spec args texts : Forall2 arg_text args texts ->
  forall a b size, (0 < size <= length b)%nat ->
  concat (a ++ b) (length a) size args = Ret (a ++ bounded (List.concat texts) b size).
Proof.
  induction 1 as [|f text args texts T _ IH]; intros a b size HS; cbn [concat List.concat].
  - rewrite (proj2 (Nat.eqb_neq size 0)) by lia. destruct b as [|b0 b]; [cbn in HS; lia|].
    rewrite wr_mid. reflexivity.
  - pose proof (append_spec f text a b size T HS) as A.
    destruct (Nat.leb_spec size (length text)).
    + rewrite A. cbn [bind]. now rewrite Nat.ltb_irrefl, bounded_cut by lia.
    + destruct A as (b' & -> & E & L). cbn [bind]. rewrite (proj2 (Nat.ltb_lt _ _)) by lia.
      replace (length a + length text)%nat with (length (a ++ text)) by apply length_app.
      rewrite app_assoc, IH by lia. rewrite <- app_assoc. do 2 f_equal. now apply bounded_app.
Qed.

(** ** Claims *)

(** C3: [str_to_int] succeeds exactly on an optional sign (['-'] for signed
    types only) followed by decimal digits whose value fits the type, and
    then stores that value: no overflow, no lost digit, whatever the length. *)
Theorem str_to_int_exact {I : IntType} {Iok : IntTypeOk I} str value v :
  is_bytes str ->
  str_to_int str value = (true, v) <-> parse_int str = Some v /\ in_int v.
Proof. apply parse_exact. Qed.

Lemma str_to_int_exact_witness :
  str_to_int (I := Int64) (lit "-9223372036854775808") 0 = (true, -9223372036854775808) <->
  parse_int (I := Int64) (lit "-9223372036854775808") = Some (-9223372036854775808) /\
  in_int (I := Int64) (-9223372036854775808).
Proof. apply (str_to_int_exact (I := Int64) (lit "-9223372036854775808") 0). apply lit_bytes. Defined.

(** [int_to_str] writes a zero-terminated text that fits [digits10 + 3]
    cells, returns its length, and [str_to_int] reads the value back; the
    least value of a signed type is the one exception: it is refused with 0. *)
Theorem int_str_roundtrip {I : IntType} {Iok : IntTypeOk I} value size old :
  in_int value -> digits10 + 3 <= size ->
  if is_signed && (value =? int_min) then int_to_str value size = (0, [])
  else exists text, int_to_str value size = (Z.of_nat (length text), text ++ [0]) /\
    (0 < length text)%nat /\ Z.of_nat (length (text ++ [0])) <= digits10 + 3 /\
    str_to_int text old = (true, value).
Proof.
  intros HV HS. pose proof (int_to_str_spec value size HV HS) as P.
  destruct (_ && _); [exact P|]. destruct P as (text & E & N & L & B & V).
  exists text. repeat split; try easy. now apply parse_exact.
Qed.

Lemma int_str_roundtrip_witness :
  exists text, int_to_str (I := Int32) (-2147483647) 16 = (Z.of_nat (length text), text ++ [0]) /\
    (0 < length text)%nat /\ Z.of_nat (length (text ++ [0])) <= digits10 (IntType := Int32) + 3 /\
    str_to_int (I := Int32) text 0 = (true, -2147483647).
Proof. apply (int_str_roundtrip (I := Int32) (-2147483647) 16 0); [split|]; discriminate. Defined.

(** [strlcpy] and [strlcat] stay inside [size] cells, terminate what they
    write, keep the longest prefix that fits and return the length the whole
    string would have had. *)
Theorem strl_spec text t b post size :
  Forall (fun c => c <> 0) text -> Forall (fun c => c <> 0) t -> (size <= length t + S (length b))%nat ->
  strlcpy (t ++ 0 :: b) 0 (text ++ 0 :: post) size =
    Ret (Z.of_nat (length text), if (size =? 0)%nat then t ++ 0 :: b else bounded text (t ++ 0 :: b) size) /\
  strlcat (t ++ 0 :: b) (text ++ 0 :: post) size =
    if (length t <? size)%nat
    then Ret (Z.of_nat (length text + length t), t ++ bounded text (0 :: b) (size - length t))
    else Ret (Z.of_nat (length text + size), t ++ 0 :: b).
Proof.
  intros HX HT L. split.
  - apply (strlcpy_spec text [] (t ++ 0 :: b)); [easy|]. rewrite length_app. cbn. lia.
  - rewrite strlcat_strlcpy. pose proof (find_end_spec t HT size [] b L) as F. cbn [app length Nat.add] in F.
    rewrite F. destruct (Nat.ltb_spec (length t) size); cbn [bind].
    + rewrite strlcpy_spec by (try easy; cbn [length]; lia). cbn [bind].
      rewrite (proj2 (Nat.eqb_neq (size - length t) 0)) by lia. do 2 f_equal. lia.
    + replace size with (length (firstn size t)) at 1 by (rewrite length_firstn; lia).
      pose proof (strlcpy_spec text (firstn size t) (skipn size t ++ 0 :: b) post 0 HX ltac:(lia)) as SP.
      rewrite app_assoc, firstn_skipn in SP. rewrite SP. cbn [bind Nat.eqb].
      rewrite app_assoc, firstn_skipn. do 2 f_equal. lia.
Qed.

Lemma strl_spec_witness :
  strlcpy (lit "ab" ++ 0 :: [7; 7; 7]) 0 (lit "xyz" ++ 0 :: []) 6 =
    Ret (Z.of_nat (length (lit "xyz")),
         if (6 =? 0)%nat then lit "ab" ++ 0 :: [7; 7; 7] else bounded (lit "xyz") (lit "ab" ++ 0 :: [7; 7; 7]) 6) /\
  strlcat (lit "ab" ++ 0 :: [7; 7; 7]) (lit "xyz" ++ 0 :: []) 6 =
    if (length (lit "ab") <? 6)%nat
    then Ret (Z.of_nat (length (lit "xyz") + length (lit "ab")),
              lit "ab" ++ bounded (lit "xyz") (0 :: [7; 7; 7]) (6 - length (lit "ab")))
    else Ret (Z.of_nat (length (lit "xyz") + 6), lit "ab" ++ 0 :: [7; 7; 7]).
Proof.
  apply (strl_spec (lit "xyz") (lit "ab") [7; 7; 7] [] 6).
  - repeat constructor; discriminate.
  - repeat constructor; discriminate.
  - cbn. lia.
Defined.

(** [concat] of string arguments leaves in the buffer the longest prefix
    of their concatenation that fits with the terminator, and touches nothing
    outside [size] cells. *)
Theorem concat_strings args texts a b size :
  Forall2 arg_text args texts -> (0 < size <= length b)%nat ->
  concat (a ++ b) (length a) size args = Ret (a ++ bounded (List.concat texts) b size).
Proof. intros T H. now apply concat_spec. Qed.

Lemma concat_strings_witness :
  concat ([5] ++ repeat 7 6) (length [5]) 5 [ArgSub (lit "ab"); ArgPtr (lit "cde" ++ 0 :: [])] =
  Ret ([5] ++ bounded (List.concat [lit "ab"; lit "cde"]) (repeat 7 6) 5).
Proof.
  apply (concat_strings [ArgSub (lit "ab"); ArgPtr (lit "cde" ++ 0 :: [])] [lit "ab"; lit "cde"] [5] (repeat 7 6) 5).
  - constructor; [apply text_sub|]. constructor; [|constructor]. apply text_ptr. repeat constructor; discriminate.
  - cbn. lia.
Defined.

(** With an integer argument [concat] loses its last digit: [append]
    returns one less than the length [int_to_str] reports, which does not
    count the terminator, and the next argument overwrites that digit. *)
Theorem concat_integer_loses_digit :
  concat (repeat 7 20) 0 20 [ArgSub (lit "n="); ArgInt Int32 123; ArgSub (lit ";")] =
    Ret (lit "n=12;" ++ 0 :: repeat 7 14) /\
  (forall value, in_int (I := Int32) value -> value <> int_min (IntType := Int32) ->
   exists text, parse_int (I := Int32) text = Some value /\
     append (repeat 7 20) 0 20 (ArgInt Int32 value) =
       Ret ((length text - 1)%nat, text ++ 0 :: skipn (S (length text)) (repeat 7 20))).
Proof.
  split; [reflexivity|]. intros value HV HN.
  pose proof (int_to_str_spec (I := Int32) value 20 HV ltac:(discriminate)) as P.
  rewrite (proj2 (Z.eqb_neq _ _) HN), andb_false_r in P. destruct P as (text & E & N & L & B & V).
  exists text. split; [exact V|]. cbn [append]. change (Z.of_nat 20) with 20. rewrite E.
  change (digits10 + 3) with 12 in L. rewrite length_app in L. cbn [length] in L.
  rewrite (proj2 (Z.eqb_neq _ _)) by lia.
  pose proof (copy_cells_spec (text ++ [0]) [] (repeat 7 20)) as C. cbn [app length] in C.
  rewrite C by (rewrite length_app, repeat_length; cbn [length]; lia). cbn [bind].
  rewrite length_app. cbn [length]. rewrite <- app_assoc. cbn [app]. do 2 f_equal; [lia|].
  do 3 f_equal. lia.
Qed.
