(* ===== verification/Xml.v ===== *)
(** * Xml: the XML escaping of src/src/String/StringManip.cpp

    [XmlEncode] and [XmlDecode] with [xml_encode] (from UTF-8 and from wide
    strings) and [xml_decode]. *)

From Stdlib Require Import ZArith List Bool Lia.
From S2P Require Import Prelude Ascii Utf8.
Import ListNotations UTF8Handler.

Definition XU_TEXT : Z := 1.
Definition XU_ATTRIBUTE : Z := 2.
Definition XU_PRESERVE_UTF8 : Z := 4.

(** ** XmlEncode *)

(** The [units] [init] leaves for a source that is not null. *)
Definition init_units (units : Z) : Z :=
  if units =? 0 then Z.lor XU_TEXT XU_ATTRIBUTE else units.

(** What [special] appends. *)
Definition special (symbol units : Z) : list Z :=
  if symbol =? chr "<" then lit "&lt;"
  else if symbol =? chr ">" then lit "&gt;"
  else if symbol =? chr "&" then lit "&amp;"
  else if negb (Z.land units XU_ATTRIBUTE =? 0) && (symbol =? chr "'") then lit "&apos;"
  else if negb (Z.land units XU_ATTRIBUTE =? 0) && (symbol =? 34) then lit "&quot;"
  else [symbol].

(** [while (!(ucs & mask))]: the mask and the shift it stops at. *)
Fixpoint hex_skip (fuel : nat) (ucs mask shift : Z) : Z * Z :=
  match fuel with
  | O => (mask, shift)
  | S fuel' =>
      if Z.land ucs mask =? 0 then hex_skip fuel' ucs (Z.shiftr mask 4) (shift - 4)
      else (mask, shift)
  end.

Fixpoint hex_emit (fuel : nat) (ucs mask shift : Z) : list Z :=
  match fuel with
  | O => []
  | S fuel' =>
      if negb (shift =? 0) then
        nth (Z.to_nat (Z.shiftr (Z.land ucs mask) shift)) HEX_DIGITS 0 ::
        hex_emit fuel' ucs (Z.shiftr mask 4) (shift - 4)
      else [nth (Z.to_nat (Z.land ucs mask)) HEX_DIGITS 0]
  end.

(** The reference is built in [char buf[11]]: writing a twelfth character is
    undefined; the mask has 8 positions, so 8 rounds are enough. *)
Definition wchar_to_hex (ucs : Z) : outcome (list Z) :=
  if negb ((0 <? ucs) && (ucs <=? 0xFFFFFFFF)) then Undef
  else
    let (mask, shift) := hex_skip 8 ucs 0xF0000000 28 in
    let buf := lit "&#x" ++ hex_emit 8 ucs mask shift ++ [chr ";"] in
    if (11 <? length buf)%nat then Undef else Ret buf.

(** ** xml_encode of a wide string: [src] is the text before the terminator *)
Fixpoint xml_encode_w_loop (units : Z) (src : list Z) : outcome (list Z) :=
  match src with
  | [] => Ret []
  | current :: src' =>
      let l_byte := schar (u8 current) in
      chunk <-
        (if (Z.shiftr current 8 =? 0) && (0x20 <=? l_byte) && (l_byte <=? 0x7E)
         then Ret (special l_byte units)
         else if negb (Z.land units XU_PRESERVE_UTF8 =? 0)
         then Ret (Utf8Manip.wchar_to_utf8_append current)
         else wchar_to_hex (u32 current)) ;;
      dest <- xml_encode_w_loop units src' ;;
      Ret (chunk ++ dest)
  end.

(** [None] is the null pointer. *)
Definition xml_encode_w (src : option (list Z)) (units : Z) : outcome (list Z) :=
  match src with
  | None => Ret []
  | Some src => xml_encode_w_loop (init_units units) src
  end.

(** ** xml_encode of a UTF-8 string: [src] has the terminator among its cells *)
Fixpoint xml_encode_loop (fuel : nat) (units : Z) (src : list Z) : outcome (list Z) :=
  match fuel with
  | O => Undef
  | S fuel' =>
      current <- rd src 0 ;;
      if current =? 0 then Ret []
      else
        '(ok, octets_count) <- is_correct_utf8_sequence src ;;
        if negb ok then Throw InvalidFormatException
        else
          chunk <-
            (if (octets_count =? 1) && (0x20 <=? schar current) && (schar current <=? 0x7E)
             then Ret (special current units)
             else if negb (Z.land units XU_PRESERVE_UTF8 =? 0)
             then Ret (firstn (Z.to_nat octets_count) src)
             else
               '(_, ucs) <- utf8_char_to_wchar (Some src) octets_count ;;
               wchar_to_hex (u32 ucs)) ;;
          dest <- xml_encode_loop fuel' units (skipn (Z.to_nat octets_count) src) ;;
          Ret (chunk ++ dest)
  end.

Definition xml_encode (src : option (list Z)) (units : Z) : outcome (list Z) :=
  match src with
  | None => Ret []
  | Some src => xml_encode_loop (S (length src)) (init_units units) src
  end.

(** ** xml_decode *)

(** [find(c)]: the text before the first [c] and the text after it. *)
Fixpoint split_at (c : Z) (l : list Z) : option (list Z * list Z) :=
  match l with
  | [] => None
  | x :: l' =>
      if x =? c then Some ([], l')
      else match split_at c l' with
           | Some (pre, post) => Some (x :: pre, post)
           | None => None
           end
  end.

Fixpoint list_eqb (a b : list Z) : bool :=
  match a, b with
  | [], [] => true
  | x :: a', y :: b' => (x =? y) && list_eqb a' b'
  | _, _ => false
  end.

Fixpoint drop_zeroes (l : list Z) : list Z :=
  match l with
  | c :: l' => if c =? chr "0" then drop_zeroes l' else l
  | [] => []
  end.

Fixpoint hex_value (digits : list Z) (value : Z) : outcome Z :=
  match digits with
  | [] => Ret value
  | c :: digits' =>
      if negb (table_owned HEX_NUMBER c) then Throw InvalidFormatException
      else hex_value digits' (Z.lor (Z.shiftl value 4) (hex_to_int c))
  end.

(** The [switch] on a reference [tag] that is not empty: what is appended. *)
Definition decode_tag (tag : list Z) : outcome (list Z) :=
  match tag with
  | c :: x :: digits =>
      if c =? chr "#" then
        if x =? chr "x" then
          match digits with
          | [] => Throw InvalidFormatException
          | _ =>
              let digits := drop_zeroes digits in
              match digits with
              | [] => Ret [0]
              | _ =>
                  if (6 <? length digits)%nat then Throw InvalidFormatException
                  else
                    value <- hex_value digits 0 ;;
                    match wchar_to_utf8_char value with
                    | Some buf => Ret buf
                    | None => Throw InvalidFormatException
                    end
              end
          end
        else Throw InvalidFormatException
      else if list_eqb tag (lit "amp") then Ret [chr "&"]
      else if list_eqb tag (lit "apos") then Ret [chr "'"]
      else if list_eqb tag (lit "gt") then Ret [chr ">"]
      else if list_eqb tag (lit "lt") then Ret [chr "<"]
      else if list_eqb tag (lit "quot") then Ret [34]
      else Throw InvalidFormatException
  | _ => Throw InvalidFormatException
  end.

(** [cur]: the source from the current position on. *)
Fixpoint xml_decode_loop (fuel : nat) (cur : list Z) : outcome (list Z) :=
  match fuel with
  | O => Undef
  | S fuel' =>
      match split_at (chr "&") cur with
      | None => Ret cur
      | Some (pre, post) =>
          match split_at (chr ";") post with
          | None => Throw InvalidFormatException
          | Some ([], _) => Throw InvalidFormatException
          | Some (tag, rest) =>
              sym <- decode_tag tag ;;
              dst <- xml_decode_loop fuel' rest ;;
              Ret (pre ++ sym ++ dst)
          end
      end
  end.

Definition xml_decode (src : list Z) : outcome (list Z) :=
  xml_decode_loop (S (length src)) src.

Example xml_1 : xml_encode (Some (lit "a<b>&'" ++ [0xD0; 0x96; 10; 0])) 0 =
  Ret (lit "a&lt;b&gt;&amp;&apos;&#x416;&#xA;").
Proof. reflexivity. Qed.
Example xml_2 : xml_decode (lit "a&lt;b&#x0416;") = Ret (lit "a<b" ++ [0xD0; 0x96]).
Proof. reflexivity. Qed.
Example xml_3 : wchar_to_hex 0x12345678 = Undef.
Proof. reflexivity. Qed.

(** ** Facts: character references *)

Lemma land_nibble u k : 0 <= k -> Z.land u (Z.shiftl 15 k) = Z.shiftl (Z.land (Z.shiftr u k) 15) k.
Proof.
  intros Hk. apply Z.bits_inj'. intros n Hn.
  rewrite Z.land_spec, !Z.shiftl_spec, Z.land_spec by lia.
  destruct (Z.lt_ge_cases n k).
  - rewrite !(Z.testbit_neg_r _ (n - k)) by lia. now rewrite andb_false_r.
  - rewrite Z.shiftr_spec by lia. do 2 f_equal. lia.
Qed.

Definition nib (u : Z) (i : nat) : Z := Z.land (Z.shiftr u (4 * Z.of_nat i)) 15.
Definition digit_at (u : Z) (i : nat) : Z := nth (Z.to_nat (nib u i)) HEX_DIGITS 0.

Lemma nib_mod u i : nib u i = (u / 2 ^ (4 * Z.of_nat i)) mod 16.
Proof. unfold nib. rewrite Z.shiftr_div_pow2 by lia. exact (land_mask _ 4 ltac:(lia)). Qed.

Lemma nib_range u i : 0 <= nib u i < 16.
Proof. rewrite nib_mod. apply Z.mod_pos_bound. lia. Qed.

Lemma digit_at_hex u i : table_owned HEX_NUMBER (digit_at u i) = true.
Proof. apply hex_digit_is_hex, nib_range. Qed.

Lemma digit_at_value u i : hex_to_int (digit_at u i) = nib u i.
Proof. apply hex_digit_value, nib_range. Qed.

Lemma mask_step i : Z.shiftr (Z.shiftl 15 (4 * Z.of_nat (S i))) 4 = Z.shiftl 15 (4 * Z.of_nat i).
Proof. rewrite Z.shiftr_shiftl_l by lia. f_equal. lia. Qed.

Lemma pow16_S n : 2 ^ (4 * Z.of_nat (S n)) = 16 * 2 ^ (4 * Z.of_nat n).
Proof. replace (4 * Z.of_nat (S n)) with (4 + 4 * Z.of_nat n) by lia. rewrite Z.pow_add_r by lia. reflexivity. Qed.

Lemma hex_skip_spec u n : forall fuel, (n < fuel)%nat -> 0 < u < 2 ^ (4 * Z.of_nat (S n)) ->
  exists m, (m <= n)%nat /\ hex_skip fuel u (Z.shiftl 15 (4 * Z.of_nat n)) (4 * Z.of_nat n) =
    (Z.shiftl 15 (4 * Z.of_nat m), 4 * Z.of_nat m) /\
    2 ^ (4 * Z.of_nat m) <= u < 2 ^ (4 * Z.of_nat (S m)).
Proof.
  induction n as [|n IH]; intros fuel F U; (destruct fuel as [|fuel]; [lia|]); cbn [hex_skip];
    rewrite land_nibble by lia; fold (nib u 0); [|fold (nib u (S n))]; rewrite nib_mod, Z.shiftl_mul_pow2 by lia;
    rewrite pow16_S in U.
  - change (2 ^ (4 * Z.of_nat 0)) with 1 in *. rewrite Z.div_1_r, (Z.mod_small u 16) by lia.
    rewrite (proj2 (Z.eqb_neq _ 0)) by lia. exists 0%nat. repeat split; lia.
  - assert (0 < 2 ^ (4 * Z.of_nat (S n))) as P by lia.
    rewrite (Z.mod_small (u / 2 ^ _) 16) by (split; [apply Z.div_pos|apply Z.div_lt_upper_bound]; lia).
    destruct (Z.eqb_spec (u / 2 ^ (4 * Z.of_nat (S n)) * 2 ^ (4 * Z.of_nat (S n))) 0) as [E|E].
    + assert (u / 2 ^ (4 * Z.of_nat (S n)) = 0) as E0 by nia.
      apply Z.div_small_iff in E0; [|lia]. rewrite mask_step.
      replace (4 * Z.of_nat (S n) - 4) with (4 * Z.of_nat n) by lia.
      destruct (IH fuel) as (m & M1 & M2 & M3); [lia|lia|]. exists m. repeat split; easy || lia.
    + exists (S n). rewrite (pow16_S (S n)). repeat split; try lia.
      enough (u / 2 ^ (4 * Z.of_nat (S n)) <> 0).
      { pose proof (Z.div_pos u (2 ^ (4 * Z.of_nat (S n)))). pose proof (Z.mul_div_le u (2 ^ (4 * Z.of_nat (S n)))). nia. }
      intros E0. rewrite E0 in E. lia.
Qed.

Lemma hex_emit_spec u n : forall fuel, (n < fuel)%nat ->
  hex_emit fuel u (Z.shiftl 15 (4 * Z.of_nat n)) (4 * Z.of_nat n) =
  map (digit_at u) (rev (seq 0 (S n))).
Proof.
  induction n as [|n IH]; intros fuel F; (destruct fuel as [|fuel]; [lia|]); cbn [hex_emit].
  - change (4 * Z.of_nat 0) with 0. cbn [Z.eqb negb seq rev map app]. unfold digit_at, nib.
    change (4 * Z.of_nat 0) with 0. now rewrite Z.shiftr_0_r, Z.shiftl_0_r.
  - rewrite (proj2 (Z.eqb_neq _ 0)) by lia. cbn [negb]. rewrite seq_S, rev_app_distr. cbn [rev app map Nat.add].
    rewrite land_nibble, Z.shiftr_shiftl_l, Z.sub_diag, Z.shiftl_0_r by lia.
    rewrite mask_step. replace (4 * Z.of_nat (S n) - 4) with (4 * Z.of_nat n) by lia.
    rewrite IH by lia. reflexivity.
Qed.

Lemma hex_value_digits u n : 0 <= u ->
  hex_value (map (digit_at u) (rev (seq 0 n))) (Z.shiftr u (4 * Z.of_nat n)) = Ret u.
Proof.
  intros U. induction n as [|n IH].
  { change (4 * Z.of_nat 0) with 0. now rewrite Z.shiftr_0_r. }
  rewrite seq_S, rev_app_distr. cbn [rev app map Nat.add hex_value].
  rewrite digit_at_hex, digit_at_value. cbn [negb].
  pose proof (nib_range u n). rewrite lor_shiftl_small by lia.
  etransitivity; [|exact IH]. f_equal. rewrite nib_mod, !Z.shiftr_div_pow2, pow16_S by lia.
  rewrite (Z.mul_comm 16), <- Z.div_div by lia. change (2 ^ 4) with 16.
  pose proof (Z.div_mod (u / 2 ^ (4 * Z.of_nat n)) 16). lia.
Qed.

Lemma wchar_to_hex_spec u : 0 < u < 0x1000000 ->
  exists m, (m < 6)%nat /\ 2 ^ (4 * Z.of_nat m) <= u < 2 ^ (4 * Z.of_nat (S m)) /\
    wchar_to_hex u = Ret (lit "&#x" ++ map (digit_at u) (rev (seq 0 (S m))) ++ [chr ";"]).
Proof.
  intros U. unfold wchar_to_hex. replace ((0 <? u) && (u <=? 0xFFFFFFFF)) with true by lia. cbn [negb].
  change 0xF0000000 with (Z.shiftl 15 (4 * Z.of_nat 7)). change 28 with (4 * Z.of_nat 7).
  destruct (hex_skip_spec u 7 8) as (m & M1 & M2 & M3); [lia| |].
  { change (2 ^ (4 * Z.of_nat 8)) with 0x100000000. lia. }
  rewrite M2, hex_emit_spec by lia. exists m.
  assert (m < 6)%nat as M.
  { destruct (Nat.lt_ge_cases m 6); [easy|]. exfalso.
    assert (2 ^ 24 <= 2 ^ (4 * Z.of_nat m)) by (apply Z.pow_le_mono_r; lia).
    change (2 ^ 24) with 0x1000000 in *. lia. }
  split; [easy|]. split; [easy|]. rewrite (proj2 (Nat.ltb_ge 11 _)); [easy|].
  rewrite !length_app, length_map, length_rev, length_seq. cbn. lia.
Qed.

Lemma decode_hex_tag u : 0 < u < 0x200000 ->
  exists tag, wchar_to_hex u = Ret (chr "&" :: tag ++ [chr ";"]) /\ tag <> [] /\
    Forall (fun c => c <> chr ";") tag /\
    exists bs, wchar_to_utf8_char u = Some bs /\ decode_tag tag = Ret bs.
Proof.
  intros U. destruct (wchar_to_hex_spec u) as (m & M1 & M2 & E); [lia|].
  exists (lit "#x" ++ map (digit_at u) (rev (seq 0 (S m)))). split; [exact E|]. split; [easy|].
  assert (forall i, digit_at u i <> chr ";") as ND.
  { intros i H. pose proof (digit_at_hex u i) as H'. rewrite H in H'. discriminate. }
  split.
  { apply Forall_app. split; [repeat constructor; discriminate|].
    apply Forall_map, Forall_forall. intros i _. apply ND. }
  destruct (wchar_encodes u) as (n & bs & EB & _); [lia|]. exists bs. split; [easy|].
  assert (digit_at u m <> chr "0") as NZ.
  { intros H. apply (f_equal hex_to_int) in H. rewrite digit_at_value in H. change (hex_to_int (chr "0")) with 0 in H.
    rewrite nib_mod in H. rewrite pow16_S in M2.
    rewrite Z.mod_small in H by (split; [apply Z.div_pos|apply Z.div_lt_upper_bound]; lia).
    apply Z.div_small_iff in H; lia. }
  pose proof (hex_value_digits u (S m) ltac:(lia)) as HV.
  replace (Z.shiftr u (4 * Z.of_nat (S m))) with 0 in HV
    by (symmetry; rewrite Z.shiftr_div_pow2 by lia; apply Z.div_small; lia).
  assert (length (map (digit_at u) (rev (seq 0 (S m)))) <= 6)%nat as L
    by (rewrite length_map, length_rev, length_seq; lia).
  rewrite seq_S, rev_app_distr in *. cbn [rev app map Nat.add lit] in *.
  cbn [decode_tag]. rewrite !Z.eqb_refl. cbn [drop_zeroes]. rewrite (proj2 (Z.eqb_neq _ _) NZ).
  rewrite (proj2 (Nat.ltb_ge 6 _)) by exact L. rewrite HV. cbn [bind]. now rewrite EB.
Qed.

(** ** Facts: decoding, free of fuel *)

Lemma split_at_some c l pre post : split_at c l = Some (pre, post) ->
  l = pre ++ c :: post /\ Forall (fun x => x <> c) pre.
Proof.
  revert pre; induction l as [|x l IH]; intros pre; cbn [split_at]; [easy|].
  destruct (Z.eqb_spec x c) as [->|N]; [now intros [= <- <-]|].
  destruct (split_at c l) as [[p q]|]; [|easy]. intros [= <- <-].
  destruct (IH p eq_refl) as [-> F]. split; [easy|now constructor].
Qed.

Lemma split_at_app c pre post : Forall (fun x => x <> c) pre ->
  split_at c (pre ++ c :: post) = Some (pre, post).
Proof.
  induction 1 as [|x pre H _ IH]; cbn [app split_at].
  - now rewrite Z.eqb_refl.
  - now rewrite (proj2 (Z.eqb_neq _ _) H), IH.
Qed.

Lemma decode_loop_fuel f1 : forall f2 cur, (length cur < f1)%nat -> (length cur < f2)%nat ->
  xml_decode_loop f1 cur = xml_decode_loop f2 cur.
Proof.
  induction f1 as [|f1 IH]; intros f2 cur L1 L2; [lia|]. destruct f2 as [|f2]; [lia|].
  cbn [xml_decode_loop]. destruct (split_at (chr "&") cur) as [[pre post]|] eqn:E1; [|easy].
  destruct (split_at (chr ";") post) as [[tag rest]|] eqn:E2; [|easy].
  apply split_at_some in E1 as [-> _]. apply split_at_some in E2 as [-> _].
  rewrite !length_app in *. cbn [length] in *. rewrite !length_app in *. cbn [length] in *.
  rewrite (IH f2 rest) by lia. reflexivity.
Qed.

Lemma xml_decode_plain c l : c <> chr "&" ->
  xml_decode (c :: l) = (dst <- xml_decode l ;; Ret (c :: dst)).
Proof.
  intros H. unfold xml_decode. rewrite (decode_loop_fuel (S (length (c :: l))) (S (S (length l)))) by (cbn; lia).
  rewrite (decode_loop_fuel (S (length l)) (S (S (length l))) l) by lia.
  cbn [xml_decode_loop split_at]. rewrite (proj2 (Z.eqb_neq _ _) H).
  destruct (split_at (chr "&") l) as [[pre post]|]; [|easy].
  destruct (split_at (chr ";") post) as [[[|t tag] rest]|]; try easy.
  destruct (decode_tag (t :: tag)); try easy. cbn [bind].
  now destruct (match split_at (chr "&") rest with Some _ => _ | None => _ end).
Qed.

Lemma xml_decode_plain_app p l : Forall (fun c => c <> chr "&") p ->
  xml_decode (p ++ l) = (dst <- xml_decode l ;; Ret (p ++ dst)).
Proof.
  induction 1 as [|c p H _ IH]; cbn [app]; [now destruct (xml_decode l)|].
  rewrite xml_decode_plain by easy. rewrite IH. now destruct (xml_decode l).
Qed.

Lemma xml_decode_tag tag sym l : tag <> [] -> Forall (fun c => c <> chr ";") tag -> decode_tag tag = Ret sym ->
  xml_decode (chr "&" :: tag ++ chr ";" :: l) = (dst <- xml_decode l ;; Ret (sym ++ dst)).
Proof.
  intros HN HF HT. unfold xml_decode. cbn [xml_decode_loop split_at]. rewrite Z.eqb_refl.
  rewrite split_at_app by easy. destruct tag as [|t tag]; [easy|]. rewrite HT. cbn [bind].
  rewrite (decode_loop_fuel _ (S (length l))); [easy| |lia].
  cbn [length app]. rewrite length_app. cbn [length]. lia.
Qed.

(** ** Facts: one character *)

Definition scalar (w : Z) : Prop := w <> 0 /\ UnicodeSymbol.check_validity w = true.

Lemma scalar_range w : scalar w -> 0 < w <= 0x10FFFF.
Proof.
  unfold scalar, UnicodeSymbol.check_validity, UnicodeSymbol.MAX_CODE_UNIT. intros [H1 H2]. lia.
Qed.

Definition xml_chunk (units w : Z) : outcome (list Z) :=
  if (0x20 <=? w) && (w <=? 0x7E) then Ret (special w units)
  else if negb (Z.land units XU_PRESERVE_UTF8 =? 0)
  then Ret (Utf8Manip.wchar_to_utf8_append w)
  else wchar_to_hex w.

Lemma append_char_agree w : 0 <= w < 0x200000 ->
  wchar_to_utf8_char w = Some (Utf8Manip.wchar_to_utf8_append w).
Proof.
  intros H. unfold wchar_to_utf8_char, Utf8Manip.wchar_to_utf8_append.
  rewrite !wrapu_small by (change (2 ^ 64) with 0x10000000000000000; change (2 ^ 32) with 0x100000000; lia).
  cbv zeta. split_ifs; try reflexivity; lia.
Qed.

Lemma append_ascii w : 0 <= w < 0x80 -> Utf8Manip.wchar_to_utf8_append w = [w].
Proof.
  intros H. unfold Utf8Manip.wchar_to_utf8_append. rewrite wrapu_small by (change (2 ^ 32) with 0x100000000; lia).
  rewrite (proj2 (Z.ltb_lt w 0x80)) by lia. f_equal.
  change 0x7F with (2 ^ 7 - 1). rewrite land_mask by lia. apply Z.mod_small. lia.
Qed.

Lemma encodes_high c n bs : encodes c n bs -> 0x80 <= c -> n <> 1 /\ Forall (fun b => 0x80 <= b) bs.
Proof.
  intros E H. assert (n <> 1) as N by (destruct E; lia). split; [easy|].
  pose proof (encodes_tail c n bs E) as T. destruct (encodes_facts c n bs E) as (_ & B & _ & (b & r & -> & O) & _).
  cbn [tl] in T. inversion B as [|? ? B1 B2]; subst. constructor.
  - destruct (Z.le_gt_cases 0x80 b); [easy|]. exfalso. apply N. unfold get_octet_count.
    unfold TRAILING_BYTES_FOR_UTF8. rewrite app_nth1 by (rewrite repeat_length; unfold is_byte in *; lia).
    rewrite nth_indep with (d' := 1) by (rewrite repeat_length; unfold is_byte in *; lia). apply nth_repeat.
  - apply Forall_forall. intros x Hx. unfold is_bytes in B2. rewrite Forall_forall in T, B2.
    specialize (T x Hx). rewrite trail_range in T by auto. apply between_iff in T. exact (proj1 T).
Qed.

(** Each piece the encoders append decodes to the octets of its character. *)
Lemma special_decode w units l : 0x20 <= w <= 0x7E ->
  xml_decode (special w units ++ l) = (dst <- xml_decode l ;; Ret (w :: dst)).
Proof.
  intros H. unfold special.
  destruct (Z.eqb_spec w (chr "<")) as [->|]; [now apply (xml_decode_tag (lit "lt") [chr "<"]); [|repeat constructor; discriminate|]|].
  destruct (Z.eqb_spec w (chr ">")) as [->|]; [now apply (xml_decode_tag (lit "gt") [chr ">"]); [|repeat constructor; discriminate|]|].
  destruct (Z.eqb_spec w (chr "&")) as [->|]; [now apply (xml_decode_tag (lit "amp") [chr "&"]); [|repeat constructor; discriminate|]|].
  destruct (negb (Z.land units XU_ATTRIBUTE =? 0)); cbn [andb]; [|now apply xml_decode_plain].
  destruct (Z.eqb_spec w (chr "'")) as [->|]; [now apply (xml_decode_tag (lit "apos") [chr "'"]); [|repeat constructor; discriminate|]|].
  destruct (Z.eqb_spec w 34) as [->|]; [now apply (xml_decode_tag (lit "quot") [34]); [|repeat constructor; discriminate|]|].
  now apply xml_decode_plain.
Qed.

Lemma chunk_decode units w : scalar w -> exists chunk, xml_chunk units w = Ret chunk /\
  forall l, xml_decode (chunk ++ l) =
    (dst <- xml_decode l ;; Ret (Utf8Manip.wchar_to_utf8_append w ++ dst)).
Proof.
  intros S. pose proof (scalar_range w S) as R. unfold xml_chunk.
  destruct ((0x20 <=? w) && (w <=? 0x7E)) eqn:A.
  { exists (special w units). split; [easy|]. intros l. bools. rewrite append_ascii by lia.
    now apply special_decode. }
  destruct (negb (Z.land units XU_PRESERVE_UTF8 =? 0)).
  - eexists. split; [reflexivity|]. intros l. apply xml_decode_plain_app.
    destruct (Z.lt_ge_cases w 0x80).
    + rewrite append_ascii by lia. repeat constructor. change (chr "&") with 38. lia.
    + destruct (append_encodes w) as [n E]; [lia|]. destruct (encodes_high _ _ _ E) as [_ F]; [easy|].
      eapply Forall_impl; [|exact F]. change (chr "&") with 38. cbn. lia.
  - destruct (decode_hex_tag w) as (tag & E & N & F & bs & EB & D); [lia|].
    exists (chr "&" :: tag ++ [chr ";"]). split; [easy|]. intros l. cbn [app]. rewrite <- app_assoc. cbn [app].
    rewrite append_char_agree in EB by lia. injection EB as <-. now apply xml_decode_tag.
Qed.

(** The pieces of a text, one per character. *)
Fixpoint xml_chunks (units : Z) (ws : list Z) : outcome (list Z) :=
  match ws with
  | [] => Ret []
  | w :: ws' =>
      chunk <- xml_chunk units w ;;
      dest <- xml_chunks units ws' ;;
      Ret (chunk ++ dest)
  end.

Lemma encode_w_chunks units ws : Forall scalar ws ->
  xml_encode_w_loop units ws = xml_chunks units ws.
Proof.
  induction 1 as [|w ws S _ IH]; [easy|]. cbn [xml_encode_w_loop xml_chunks]. rewrite IH. f_equal.
  pose proof (scalar_range w S). unfold xml_chunk.
  rewrite (wrapu_small 32) by (change (2 ^ 32) with 0x100000000; lia).
  destruct (Z.eqb_spec (Z.shiftr w 8) 0) as [E|E]; rewrite Z.shiftr_div_pow2 in E by lia;
    change (2 ^ 8) with 256 in E; cbn [andb].
  - rewrite Z.div_small_iff in E by lia. unfold wrapu, schar. change (2 ^ 8) with 256.
    rewrite Z.mod_small by lia. destruct (Z.ltb_spec w 128).
    + reflexivity.
    + replace ((32 <=? w - 256) && (w - 256 <=? 126)) with false by lia.
      replace ((32 <=? w) && (w <=? 126)) with false by lia. reflexivity.
  - replace ((32 <=? w) && (w <=? 126)) with false; [easy|].
    assert (256 <= w) by (Z.div_mod_to_equations; lia). lia.
Qed.

Lemma encode_step fuel units w r : scalar w ->
  xml_encode_loop (S fuel) units (Utf8Manip.wchar_to_utf8_append w ++ r) =
  (chunk <- xml_chunk units w ;; dest <- xml_encode_loop fuel units r ;; Ret (chunk ++ dest)).
Proof.
  intros S. pose proof (scalar_range w S) as R.
  destruct (append_encodes w) as [n E]; [lia|]. pose proof (encodes_well_formed _ _ _ E (proj2 S)) as W.
  destruct (encodes_facts _ _ _ E) as (L & B & Hn & (b & q & EB & _) & D).
  set (a := Utf8Manip.wchar_to_utf8_append w) in *. specialize (D r).
  pose proof (well_formed_accepted a r W) as A.
  assert (b <> 0 /\ (((n =? 1) && (0x20 <=? schar b) && (schar b <=? 0x7E)) = ((0x20 <=? w) && (w <=? 0x7E))) /\
          ((0x20 <=? w) && (w <=? 0x7E) = true -> b = w)) as (B0 & G & BW).
  { destruct (Z.lt_ge_cases w 0x80).
    - subst a. rewrite append_ascii in * by lia. injection EB as <- <-. cbn in L. subst n.
      unfold schar. rewrite (proj2 (Z.ltb_lt w 128)) by lia. repeat split; lia.
    - destruct (encodes_high _ _ _ E) as [N F]; [easy|]. rewrite EB in F. inversion F; subst.
      rewrite (proj2 (Z.eqb_neq _ _) N). repeat split; lia. }
  cbn [xml_encode_loop]. rewrite EB at 1. cbn [app rd nth_error bind].
  rewrite (proj2 (Z.eqb_neq _ _) B0), A. cbn [bind negb]. rewrite L, G. unfold xml_chunk.
  replace (skipn (Z.to_nat n) (a ++ r)) with r
    by (rewrite <- L, Nat2Z.id, skipn_app, skipn_all, Nat.sub_diag; reflexivity).
  destruct ((0x20 <=? w) && (w <=? 0x7E)); [now rewrite BW|].
  rewrite D. cbn [bind]. rewrite wrapu_small by (change (2 ^ 32) with 0x100000000; lia).
  replace (firstn (Z.to_nat n) (a ++ r)) with a; [easy|].
  rewrite <- L, Nat2Z.id, firstn_app, firstn_all, Nat.sub_diag. cbn. now rewrite app_nil_r.
Qed.

Lemma encode_chunks units ws post : Forall scalar ws -> forall fuel,
  (length ws < fuel)%nat ->
  xml_encode_loop fuel units (Utf8Manip.wchar_to_utf8 ws ++ 0 :: post) = xml_chunks units ws.
Proof.
  induction 1 as [|w ws S _ IH]; intros fuel L; (destruct fuel as [|fuel]; [lia|]);
    cbn [Utf8Manip.wchar_to_utf8 xml_chunks]; [reflexivity|].
  rewrite <- app_assoc, encode_step by easy. cbn [length] in L. now rewrite IH by lia.
Qed.

Lemma chunks_decode units ws : Forall scalar ws -> exists text,
  xml_chunks units ws = Ret text /\ xml_decode text = Ret (Utf8Manip.wchar_to_utf8 ws).
Proof.
  induction 1 as [|w ws S _ (text & E & D)]; [now exists []|].
  destruct (chunk_decode units w S) as (chunk & EC & DC). exists (chunk ++ text).
  cbn [xml_chunks Utf8Manip.wchar_to_utf8]. rewrite EC, E. cbn [bind]. split; [easy|]. now rewrite DC, D.
Qed.

Lemma scalars_wchars ws : Forall scalar ws -> Forall (fun w => 0 <= w < 0x80000000) ws.
Proof. apply Forall_impl. intros w S. apply scalar_range in S. lia. Qed.

(** ** Claims *)

(** C5: for every text of non-zero Unicode scalar values and every [units],
    the two [xml_encode] (from the wide string and from its UTF-8 form)
    succeed with the same output, and [xml_decode] of it is the UTF-8 text. *)
Theorem xml_roundtrip ws units post :
  Forall scalar ws ->
  exists text,
    xml_encode_w (Some ws) units = Ret text /\
    xml_encode (Some (Utf8Manip.wchar_to_utf8 ws ++ 0 :: post)) units = Ret text /\
    xml_decode text = Ret (Utf8Manip.wchar_to_utf8 ws).
Proof.
  intros H. destruct (chunks_decode (init_units units) ws H) as (text & E & D). exists text.
  unfold xml_encode_w, xml_encode. pose proof (wchar_to_utf8_length ws (scalars_wchars ws H)).
  rewrite encode_w_chunks, encode_chunks by (try easy; rewrite length_app; lia). now rewrite E.
Qed.

Lemma xml_roundtrip_witness :
  exists text,
    xml_encode_w (Some [0x61; 0x3C; 0x416; 0x1F600]) 0 = Ret text /\
    xml_encode (Some (Utf8Manip.wchar_to_utf8 [0x61; 0x3C; 0x416; 0x1F600] ++ 0 :: [])) 0 = Ret text /\
    xml_decode text = Ret (Utf8Manip.wchar_to_utf8 [0x61; 0x3C; 0x416; 0x1F600]).
Proof. apply (xml_roundtrip [0x61; 0x3C; 0x416; 0x1F600] 0 []). repeat constructor; discriminate. Defined.

(** [XmlEncode::wchar_to_hex] writes its reference inside its 11-byte
    buffer for codes below 2^28 and past its end for every larger one, which
    [xml_encode] of a wide string passes for negative characters. *)
Theorem wchar_to_hex_buffer u :
  0 < u <= 0xFFFFFFFF ->
  if u <? 0x10000000 then exists buf, wchar_to_hex u = Ret buf /\ (length buf <= 11)%nat
  else wchar_to_hex u = Undef.
Proof.
  intros U. unfold wchar_to_hex. replace ((0 <? u) && (u <=? 0xFFFFFFFF)) with true by lia. cbn [negb].
  change 0xF0000000 with (Z.shiftl 15 (4 * Z.of_nat 7)). change 28 with (4 * Z.of_nat 7).
  destruct (hex_skip_spec u 7 8) as (m & M1 & -> & M3); [lia| |].
  { change (2 ^ (4 * Z.of_nat 8)) with 0x100000000. lia. }
  rewrite hex_emit_spec by lia.
  assert (length (lit "&#x" ++ map (digit_at u) (rev (seq 0 (S m))) ++ [chr ";"]) = (m + 5)%nat) as ->
    by (rewrite !length_app, length_map, length_rev, length_seq; cbn; lia).
  destruct (Z.ltb_spec u 0x10000000).
  - assert (m < 7)%nat.
    { destruct (Nat.lt_ge_cases m 7); [easy|]. exfalso.
      assert (2 ^ 28 <= 2 ^ (4 * Z.of_nat m)) by (apply Z.pow_le_mono_r; lia).
      change (2 ^ 28) with 0x10000000 in *. lia. }
    rewrite (proj2 (Nat.ltb_ge 11 _)) by lia. eexists. split; [reflexivity|].
    rewrite !length_app, length_map, length_rev, length_seq. cbn. lia.
  - assert (m = 7)%nat as ->.
    { destruct (Nat.eq_dec m 7); [easy|]. exfalso.
      assert (2 ^ (4 * Z.of_nat (S m)) <= 2 ^ 28) by (apply Z.pow_le_mono_r; lia).
      change (2 ^ 28) with 0x10000000 in *. lia. }
    reflexivity.
Qed.

Lemma wchar_to_hex_buffer_witness : wchar_to_hex 0xFFFFFFFF = Undef.
Proof. apply (wchar_to_hex_buffer 0xFFFFFFFF). lia. Defined.
