(* ===== verification/Text.v ===== *)
(** * Text: escaping and editing of src/src/String/StringManip.cpp

    [json_escape], [js_encode], [csv_encode], [trim], [mark], [replace] and
    the class [Translit].  Sources given as C strings are the characters
    before the terminator. *)

From Stdlib Require Import ZArith List Bool Lia.
From S2P Require Import Prelude Ascii.
Import ListNotations.

(** ** json_escape *)

Definition QUOTE : Z := 34.
Definition BACKSLASH : Z := 92.

Definition NON_JSON : CharTable :=
  Eval vm_compute in CharTable_new (Some [BACKSLASH; QUOTE; 10; 13; 1; chr "-"; 31]) true.

Definition REPL : list (list Z) := [
  lit "\u0000"; lit "\u0001"; lit "\u0002"; lit "\u0003"; lit "\u0004"; lit "\u0005";
  lit "\u0006"; lit "\u0007"; lit "\b"; lit "\t"; lit "\n"; lit "\u000B"; lit "\f"; lit "\r";
  lit "\u000E"; lit "\u000F"; lit "\u0010"; lit "\u0011"; lit "\u0012"; lit "\u0013";
  lit "\u0014"; lit "\u0015"; lit "\u0016"; lit "\u0017"; lit "\u0018"; lit "\u0019";
  lit "\u001A"; lit "\u001B"; lit "\u001C"; lit "\u001D"; lit "\u001E"; lit "\u001F";
  []; []; [BACKSLASH; QUOTE] ].

Fixpoint json_escape_loop (fuel : nat) (cur dest : list Z) : outcome (list Z) :=
  match fuel with
  | O => Undef
  | S fuel' =>
      let ptr := find_owned (table_owned NON_JSON) cur in
      let dest := if negb (ptr =? 0)%nat then dest ++ firstn ptr cur else dest in
      match skipn ptr cur with
      | [] => Ret dest
      | ch :: cur =>
          if ch =? BACKSLASH then json_escape_loop fuel' cur (dest ++ [BACKSLASH; BACKSLASH])
          else
            r <- rd REPL (Z.to_nat ch) ;;
            json_escape_loop fuel' cur (dest ++ r)
      end
  end.

Definition json_escape (src : list Z) : outcome (list Z) :=
  json_escape_loop (S (length src)) src [].

(** ** js_encode *)

Definition NON_JS : CharTable :=
  Eval vm_compute in CharTable_new (Some [BACKSLASH; QUOTE; chr "'"; chr "/"; 10; 13; chr "<"; chr ">"; 0xE2]) true.

(** [src] and [from] point into the same string: [src] is what is left to
    copy, [k] is [from - src].  The terminator is owned, so the search ends at
    the length of the string at the latest. *)
Fixpoint js_encode_loop (fuel : nat) (src : list Z) (k : nat) (dst : list Z) : outcome (list Z) :=
  match fuel with
  | O => Undef
  | S fuel' =>
      let ptr := (k + find_owned (table_owned NON_JS) (skipn k src))%nat in
      let dst := if negb (ptr =? 0)%nat then dst ++ firstn ptr src else dst in
      let src := skipn ptr src in
      match src with
      | [] => Ret dst
      | ch :: src' =>
          if ch =? 0xE2 then
            match src' with
            | c1 :: c2 :: src3 =>
                if (c1 =? 0x80) && (c2 =? 0xA9) then js_encode_loop fuel' src3 0 (dst ++ lit "\u2029")
                else if (c1 =? 0x80) && (c2 =? 0xA8) then js_encode_loop fuel' src3 0 (dst ++ lit "\u2028")
                else js_encode_loop fuel' src 1 dst
            | _ => js_encode_loop fuel' src 1 dst
            end
          else
            js_encode_loop fuel' src' 0
              (dst ++ [BACKSLASH; chr "x"; nth (Z.to_nat (Z.land (Z.shiftr ch 4) 15)) HEX_DIGITS 0;
                       nth (Z.to_nat (Z.land ch 15)) HEX_DIGITS 0])
      end
  end.

Definition js_encode (src : list Z) : outcome (list Z) :=
  js_encode_loop (S (length src)) src 0 [].

(** ** csv_encode *)

Definition C_NON_CSV : CharTable := Eval vm_compute in CharTable_new (Some [chr ","; QUOTE; 10; 13]) false.
Definition PC_NON_CSV : CharTable := Eval vm_compute in CharTable_new (Some [chr ";"; QUOTE; 10; 13]) false.

(** The array [non_csv_chars] as a C string: a zero separator ends it. *)
Definition non_csv_of (separator : Z) : CharTable :=
  if separator =? chr "," then C_NON_CSV
  else if separator =? chr ";" then PC_NON_CSV
  else CharTable_new (Some (if separator =? 0 then [] else [separator; QUOTE; 10; 13])) false.

(** The [for] over [ptr] with the pending text [src, ptr). *)
Fixpoint csv_loop (ptr pending dest : list Z) : list Z :=
  match ptr with
  | [] => match pending with [] => dest | _ => dest ++ pending end
  | c :: ptr' =>
      if c =? QUOTE then csv_loop ptr' [] (dest ++ pending ++ [QUOTE; QUOTE])
      else csv_loop ptr' (pending ++ [c]) dest
  end.

Definition csv_encode (src : option (list Z)) (separator : Z) : list Z :=
  match src with
  | None => []
  | Some src =>
      match find_owned_c (table_owned (non_csv_of separator)) src with
      | None => src
      | Some _ => csv_loop src [] [QUOTE] ++ [QUOTE]
      end
  end.

(** ** trim: [while (trim_set( *--end))] from the end of the range *)
Fixpoint trim_end (owned : Z -> bool) (rev_range : list Z) : list Z :=
  match rev_range with
  | [] => []
  | c :: r => if owned c then trim_end owned r else rev_range
  end.

Definition trim (owned : Z -> bool) (str : list Z) : list Z :=
  let begin := find_nonowned owned str in
  let range := skipn begin str in
  if negb (begin =? length str)%nat then rev (trim_end owned (rev range)) else range.

(** ** mark *)
Fixpoint mark_loop (fuel : nat) (owned : Z -> bool) (marker : Z) (src dest : list Z) : outcome (list Z) :=
  match fuel with
  | O => Undef
  | S fuel' =>
      match find_owned_c owned src with
      | None => Ret (dest ++ src)
      | Some ptr =>
          let dest := if negb (ptr =? 0)%nat then dest ++ firstn ptr src else dest in
          match skipn ptr src with
          | [] => Ret (dest ++ [marker; 0])
          | ch :: src' => mark_loop fuel' owned marker src' (dest ++ [marker; ch])
          end
      end
  end.

Definition mark (src : option (list Z)) (owned : Z -> bool) (marker : Z) : outcome (list Z) :=
  match src with
  | None => Ret []
  | Some src => mark_loop (S (length src)) owned marker src []
  end.

(** ** replace *)

Fixpoint prefix (p l : list Z) : bool :=
  match p, l with
  | [], _ => true
  | x :: p', y :: l' => (x =? y) && prefix p' l'
  | _ :: _, [] => false
  end.

(** [str.find(to_find, last)]: offset from [last] of the first occurrence. *)
Fixpoint find_sub (p l : list Z) : option nat :=
  if prefix p l then Some 0%nat
  else match l with
       | [] => None
       | _ :: l' => option_map S (find_sub p l')
       end.

(** [str]: the text from [last] on. *)
Fixpoint replace_loop (fuel : nat) (to_find to_replace str dest : list Z) : outcome (list Z) :=
  match fuel with
  | O => Undef
  | S fuel' =>
      match find_sub to_find str with
      | None => Ret (dest ++ str)
      | Some pos =>
          let dest := if negb (pos =? 0)%nat then dest ++ firstn pos str else dest in
          replace_loop fuel' to_find to_replace (skipn (pos + length to_find) str) (dest ++ to_replace)
      end
  end.

Definition replace (str to_find to_replace : list Z) : outcome (list Z) :=
  if (length to_find =? 0)%nat then Ret str
  else replace_loop (S (length str)) to_find to_replace str [].

(** ** Translit *)

Fixpoint translit_table (i : nat) (invalid valid table : list Z) : list Z :=
  match invalid with
  | [] => table
  | c :: invalid' =>
      translit_table (S i) invalid' valid
        (upd table (Z.to_nat c) (nth (i mod length valid) valid 0))
  end.

Definition Translit_new (invalid valid : option (list Z)) : list Z :=
  let replacement_ := map Z.of_nat (seq 0 256) in
  match invalid, valid with
  | Some invalid, Some valid =>
      if (length valid =? 0)%nat then replacement_ else translit_table 0 invalid valid replacement_
  | _, _ => replacement_
  end.

(** The string versions; the in-place ones overwrite each cell the same way. *)
Fixpoint translit (replacement_ src : list Z) : list Z :=
  match src with
  | [] => []
  | c :: src' => nth (Z.to_nat c) replacement_ 0 :: translit replacement_ src'
  end.

Example json_1 : json_escape (lit "a\b" ++ [QUOTE; 10; 1]) =
  Ret (lit "a\\b\" ++ [QUOTE] ++ lit "\n\u0001").
Proof. reflexivity. Qed.
Example js_1 : js_encode ([0xE2; 0x80; 0xA8; 0xE2; 0x82; 0xAC] ++ lit "<") =
  Ret (lit "\u2028" ++ [0xE2; 0x82; 0xAC] ++ lit "\x3C").
Proof. reflexivity. Qed.
Example csv_1 : csv_encode (Some [chr "a"; QUOTE; chr "b"]) (chr ",") =
  [QUOTE; chr "a"; QUOTE; QUOTE; chr "b"; QUOTE].
Proof. reflexivity. Qed.
Example trim_1 : trim (table_owned SPACE) (lit "  a b ") = lit "a b".
Proof. reflexivity. Qed.
Example replace_1 : replace (lit "aXXbX") (lit "X") (lit "--") = Ret (lit "a----b--").
Proof. reflexivity. Qed.

(** ** Facts: json_escape as a map, and a reader of JSON strings *)

Definition json_char (c : Z) : list Z :=
  if table_owned NON_JSON c then
    if c =? BACKSLASH then [BACKSLASH; BACKSLASH] else nth (Z.to_nat c) REPL []
  else [c].

Lemma flat_map_single f (p : Z -> bool) l :
  (forall c, p c = true -> f c = [c]) -> Forall (fun c => p c = true) l -> flat_map f l = l.
Proof.
  intros H. induction 1 as [|c l Hc _ IH]; [easy|]. cbn [flat_map]. now rewrite H, IH.
Qed.

Lemma find_owned_flat_map f p (dest l : list Z) : (forall c, p c = false -> f c = [c]) ->
  (if negb (find_owned p l =? 0)%nat then dest ++ firstn (find_owned p l) l else dest) ++
    flat_map f (skipn (find_owned p l) l) = dest ++ flat_map f l.
Proof.
  intros H. set (k := find_owned p l).
  assert (flat_map f l = firstn k l ++ flat_map f (skipn k l)) as ->.
  { rewrite <- (firstn_skipn k l) at 1. rewrite flat_map_app. f_equal.
    apply (flat_map_single f (fun c => negb (p c))).
    - intros c E. apply H. now bools.
    - eapply Forall_impl; [|apply find_owned_prefix]. cbn. intros c ->. reflexivity. }
  rewrite app_assoc. f_equal. destruct k; cbn; now rewrite ?app_nil_r.
Qed.

Lemma json_repl c : is_byte c -> table_owned NON_JSON c = true -> c <> BACKSLASH ->
  rd REPL (Z.to_nat c) = Ret (nth (Z.to_nat c) REPL []).
Proof.
  intros H O N. apply rd_nth. change (length REPL) with 35%nat.
  assert (implb (table_owned NON_JSON c && negb (c =? BACKSLASH)) (c <? 35) = true) as E.
  { clear O N. revert c H. apply (byte_forall (fun c => implb (table_owned NON_JSON c && negb (c =? BACKSLASH)) (c <? 35))).
    vm_compute. reflexivity. }
  rewrite O, (proj2 (Z.eqb_neq _ _) N) in E. cbn in E. unfold is_byte in H. lia.
Qed.

Lemma json_escape_loop_spec fuel : forall cur dest, is_bytes cur -> (length cur < fuel)%nat ->
  json_escape_loop fuel cur dest = Ret (dest ++ flat_map json_char cur).
Proof.
  induction fuel as [|fuel IH]; intros cur dest HB L; [lia|]. cbn [json_escape_loop].
  pose proof (find_owned_flat_map json_char (table_owned NON_JSON) dest cur) as M.
  rewrite <- M by (intros c E; unfold json_char; now rewrite E). clear M.
  set (k := find_owned (table_owned NON_JSON) cur). set (dest' := if negb (k =? 0)%nat then dest ++ firstn k cur else dest).
  assert (length (skipn k cur) <= length cur)%nat as LS by (rewrite length_skipn; lia).
  assert (is_bytes (skipn k cur)) as HS by (apply Forall_skipn; exact HB).
  destruct (skipn k cur) as [|ch r] eqn:ES; [cbn; now rewrite app_nil_r|].
  pose proof (find_owned_stop (table_owned NON_JSON) cur ch r ES) as O.
  inversion HS; subst. cbn [length flat_map] in *. unfold json_char at 1. rewrite O.
  destruct (Z.eqb_spec ch BACKSLASH).
  - rewrite IH by (easy || lia). now rewrite <- app_assoc.
  - rewrite json_repl by easy. cbn [bind]. rewrite IH by (easy || lia). now rewrite <- app_assoc.
Qed.

(** The characters of a JSON string body (RFC 8259): no raw control character
    or quotation mark; [\uXXXX] for the codes below 0x80. *)
Fixpoint json_read (l : list Z) : option (list Z) :=
  match l with
  | [] => Some []
  | c :: l' =>
      if c =? BACKSLASH then
        match l' with
        | e :: l2 =>
            if (e =? QUOTE) || (e =? BACKSLASH) || (e =? chr "/") then option_map (cons e) (json_read l2)
            else if e =? chr "b" then option_map (cons 8) (json_read l2)
            else if e =? chr "t" then option_map (cons 9) (json_read l2)
            else if e =? chr "n" then option_map (cons 10) (json_read l2)
            else if e =? chr "f" then option_map (cons 12) (json_read l2)
            else if e =? chr "r" then option_map (cons 13) (json_read l2)
            else if e =? chr "u" then
              match l2 with
              | a :: b :: c' :: d :: l3 =>
                  if (a =? chr "0") && (b =? chr "0") && table_owned HEX_NUMBER c' &&
                     table_owned HEX_NUMBER d && (hex_to_char c' d <? 128)
                  then option_map (cons (hex_to_char c' d)) (json_read l3) else None
              | _ => None
              end
            else None
        | [] => None
        end
      else if (c <? 32) || (c =? QUOTE) then None
      else option_map (cons c) (json_read l')
  end.

(** Each escape reads back as its character, whatever follows: the reader
    only looks at the escape, so one byte table decides it. *)
Lemma json_char_read c l : is_byte c -> json_read (json_char c ++ l) = option_map (cons c) (json_read l).
Proof.
  intros H. destruct (table_owned NON_JSON c) eqn:O.
  - assert (In c (BACKSLASH :: QUOTE :: map Z.of_nat (seq 0 32))) as I.
    { assert (implb (table_owned NON_JSON c) ((c =? BACKSLASH) || (c =? QUOTE) || (c <? 32)) = true) as E.
      { clear O. revert c H. apply (byte_forall (fun c => implb (table_owned NON_JSON c)
          ((c =? BACKSLASH) || (c =? QUOTE) || (c <? 32)))). vm_compute. reflexivity. }
      rewrite O in E. cbn [implb] in E. unfold is_byte in H. cbn [In].
      destruct (Z.eqb_spec c BACKSLASH); [now left|]. destruct (Z.eqb_spec c QUOTE); [right; now left|].
      right. right. apply in_map_iff. exists (Z.to_nat c). split; [lia|]. apply in_seq. cbn in E. lia. }
    cbn [In seq map] in I. clear H O.
    repeat (destruct I as [<- | I]; [reflexivity|]). destruct I.
  - unfold json_char. rewrite O. cbn [app json_read].
    assert (implb (negb (table_owned NON_JSON c)) (negb (c =? BACKSLASH) && negb ((c <? 32) || (c =? QUOTE))) = true) as E.
    { clear O. revert c H. apply (byte_forall (fun c => implb (negb (table_owned NON_JSON c))
        (negb (c =? BACKSLASH) && negb ((c <? 32) || (c =? QUOTE))))). vm_compute. reflexivity. }
    rewrite O in E. cbn [negb implb] in E. bools. rewrite (proj2 (Z.eqb_neq _ _) H0).
    rewrite (proj2 (Z.ltb_ge _ _) H1), (proj2 (Z.eqb_neq _ _) H2). reflexivity.
Qed.

Lemma json_read_flat s : is_bytes s -> json_read (flat_map json_char s) = Some s.
Proof.
  induction 1 as [|c s H _ IH]; [easy|]. cbn [flat_map]. rewrite json_char_read by easy. now rewrite IH.
Qed.

(** ** Facts: csv_encode and a reader of CSV fields *)

Definition dbl (c : Z) : list Z := if c =? QUOTE then [QUOTE; QUOTE] else [c].

Lemma csv_loop_spec ptr : forall pending dest,
  csv_loop ptr pending dest = dest ++ pending ++ flat_map dbl ptr.
Proof.
  induction ptr as [|c ptr IH]; intros pending dest; cbn [csv_loop flat_map].
  - rewrite app_nil_r. destruct pending; [now rewrite app_nil_r|easy].
  - unfold dbl at 1. destruct (c =? QUOTE); rewrite IH; rewrite <- !app_assoc; reflexivity.
Qed.

(** A quoted field up to its closing quote (RFC 4180). *)
Fixpoint csv_quoted (l : list Z) : option (list Z * list Z) :=
  match l with
  | [] => None
  | c :: l' =>
      if c =? QUOTE then
        match l' with
        | c2 :: l2 =>
            if c2 =? QUOTE
            then option_map (fun '(f, r) => (QUOTE :: f, r)) (csv_quoted l2)
            else Some ([], l')
        | [] => Some ([], [])
        end
      else option_map (fun '(f, r) => (c :: f, r)) (csv_quoted l')
  end.

Definition csv_special (separator c : Z) : bool :=
  (c =? separator) || (c =? QUOTE) || (c =? 10) || (c =? 13).

Definition csv_field (separator : Z) (l : list Z) : option (list Z * list Z) :=
  match l with
  | c :: l' => if c =? QUOTE then csv_quoted l' else Some (span (fun c => negb (csv_special separator c)) l)
  | [] => Some ([], [])
  end.

Lemma csv_quoted_dbl s rest : hd 0 rest <> QUOTE ->
  csv_quoted (flat_map dbl s ++ QUOTE :: rest) = Some (s, rest).
Proof.
  intros HR. induction s as [|c s IH]; cbn [flat_map app].
  - cbn [csv_quoted]. rewrite Z.eqb_refl. destruct rest as [|r rest]; [easy|].
    cbn [hd] in HR. now rewrite (proj2 (Z.eqb_neq _ _) HR).
  - unfold dbl at 1. destruct (Z.eqb_spec c QUOTE) as [->|N]; cbn [app csv_quoted].
    + rewrite !Z.eqb_refl, IH. reflexivity.
    + rewrite (proj2 (Z.eqb_neq _ _) N), IH. reflexivity.
Qed.

Lemma span_all {A} (p : A -> bool) s rest : Forall (fun c => p c = true) s ->
  match rest with [] => True | c :: _ => p c = false end -> span p (s ++ rest) = (s, rest).
Proof.
  intros H HR. induction H as [|c s Hc _ IH]; cbn [app span].
  - destruct rest; [easy|]. cbn [span]. now rewrite HR.
  - now rewrite Hc, IH.
Qed.

Lemma non_csv_special separator c : is_byte separator -> is_byte c -> separator <> 0 ->
  table_owned (non_csv_of separator) c = csv_special separator c.
Proof.
  intros HS HC N0. unfold non_csv_of.
  destruct (Z.eqb_spec separator (chr ",")) as [->|];
    [apply eqb_prop; revert c HC; apply (byte_forall (fun c => Bool.eqb (table_owned C_NON_CSV c) (csv_special (chr ",") c))); reflexivity|].
  destruct (Z.eqb_spec separator (chr ";")) as [->|];
    [apply eqb_prop; revert c HC; apply (byte_forall (fun c => Bool.eqb (table_owned PC_NON_CSV c) (csv_special (chr ";") c))); reflexivity|].
  rewrite (proj2 (Z.eqb_neq _ _) N0).
  assert (is_bytes [separator; QUOTE; 10; 13]) as HB
    by (constructor; [exact HS|repeat constructor; discriminate]).
  rewrite CharTable_new_lookup by assumption. unfold csv_special. cbn [andb orb listed].
  rewrite andb_false_r. change (QUOTE =? chr "-") with false. change (10 =? chr "-") with false.
  cbn [andb orb]. now rewrite !orb_assoc.
Qed.

Lemma find_owned_c_none p s : find_owned_c p s = None -> Forall (fun c => p c = false) s.
Proof.
  induction s as [|c s IH]; cbn [find_owned_c]; [constructor|].
  destruct (p c) eqn:E; [easy|]. destruct (find_owned_c p s); [easy|]. constructor; auto.
Qed.

(** ** Facts: trim *)

Lemma trim_end_spec p l : exists a b, l = a ++ b /\ Forall (fun c => p c = true) a /\
  trim_end p l = b /\ match b with [] => True | c :: _ => p c = false end.
Proof.
  induction l as [|c l (a & b & -> & F & E & H)]; cbn [trim_end]; [now exists [], []|].
  destruct (p c) eqn:P.
  - exists (c :: a), b. repeat split; auto.
  - exists [], (c :: a ++ b). repeat split; auto.
Qed.

(** ** Facts: replace

    Reference: scan the text, at every occurrence emit the replacement and
    skip its length. *)
Fixpoint rep_spec (f r : list Z) (skip : nat) (l : list Z) : list Z :=
  match l with
  | [] => []
  | c :: l' =>
      match skip with
      | S k => rep_spec f r k l'
      | O => if prefix f l then r ++ rep_spec f r (length f - 1) l' else c :: rep_spec f r 0 l'
      end
  end.

Lemma rep_spec_skip f r k l : rep_spec f r k l = rep_spec f r 0 (skipn k l).
Proof.
  revert k; induction l as [|c l IH]; intros k; [now destruct k|].
  destruct k; [easy|]. cbn [rep_spec skipn]. apply IH.
Qed.

Lemma prefix_length f l : prefix f l = true -> (length f <= length l)%nat.
Proof.
  revert l; induction f as [|x f IH]; intros [|y l]; cbn [prefix length]; try easy; [lia|].
  intros H. bools. specialize (IH l H0). lia.
Qed.

Lemma find_sub_spec f r l : f <> [] ->
  match find_sub f l with
  | None => rep_spec f r 0 l = l
  | Some pos => (pos + length f <= length l)%nat /\
      rep_spec f r 0 l = firstn pos l ++ r ++ rep_spec f r 0 (skipn (pos + length f) l)
  end.
Proof.
  intros HF. induction l as [|c l IH].
  { cbn [find_sub]. now destruct f. }
  cbn [find_sub rep_spec]. destruct (prefix f (c :: l)) eqn:P.
  - apply prefix_length in P. cbn [Nat.add firstn app]. split; [easy|]. f_equal.
    rewrite rep_spec_skip. destruct f as [|x f]; [easy|]. cbn [length skipn].
    now replace (S (length f) - 1)%nat with (length f) by lia.
  - destruct (find_sub f l) as [pos|]; cbn [option_map].
    + destruct IH as [L E]. cbn [length Nat.add firstn skipn app]. split; [lia|]. now rewrite E.
    + now rewrite IH.
Qed.

Lemma replace_loop_spec fuel f r : f <> [] -> forall str dest, (length str < fuel)%nat ->
  replace_loop fuel f r str dest = Ret (dest ++ rep_spec f r 0 str).
Proof.
  intros HF. induction fuel as [|fuel IH]; intros str dest L; [lia|]. cbn [replace_loop].
  pose proof (find_sub_spec f r str HF) as S. destruct (find_sub f str) as [pos|]; [|now rewrite S].
  destruct S as [LP E]. rewrite E.
  assert (0 < length f)%nat by (destruct f; [easy|cbn; lia]).
  rewrite IH by (rewrite length_skipn; lia). f_equal.
  destruct pos; cbn [Nat.eqb negb firstn app]; now rewrite <- !app_assoc.
Qed.

(** ** Facts: mark and Translit *)

Lemma find_owned_c_some p s k : find_owned_c p s = Some k ->
  (k = find_owned p s) /\ (skipn k s = [] -> p 0 = true).
Proof.
  revert k; induction s as [|c s IH]; intros k; cbn [find_owned_c find_owned].
  - destruct (p 0); [now intros [= <-]|easy].
  - destruct (p c); [now intros [= <-]|]. destruct (find_owned_c p s) as [k'|]; [|easy].
    intros [= <-]. cbn [skipn]. destruct (IH k' eq_refl) as [-> H]. auto.
Qed.

Lemma mark_loop_spec fuel p m : forall src dest, (length src < fuel)%nat ->
  mark_loop fuel p m src dest =
  Ret (dest ++ flat_map (fun c => if p c then [m; c] else [c]) src ++ (if p 0 then [m; 0] else [])).
Proof.
  induction fuel as [|fuel IH]; intros src dest L; [lia|]. cbn [mark_loop].
  set (f := fun c => if p c then [m; c] else [c]).
  destruct (find_owned_c p src) as [k|] eqn:E.
  - destruct (find_owned_c_some p src k E) as [-> HZ].
    rewrite app_assoc. rewrite <- (find_owned_flat_map f p dest src) by (intros c Hc; unfold f; now rewrite Hc).
    assert (length (skipn (find_owned p src) src) <= length src)%nat as LS by (rewrite length_skipn; lia).
    destruct (skipn (find_owned p src) src) as [|ch r] eqn:ES.
    + rewrite (HZ eq_refl). cbn [flat_map]. now rewrite app_nil_r.
    + pose proof (find_owned_stop p src ch r ES) as O. cbn [length] in LS. rewrite IH by lia.
      cbn [flat_map]. change (f ch) with (if p ch then [m; ch] else [ch]). rewrite O. rewrite <- !app_assoc. reflexivity.
  - assert (p 0 = false) as Z0.
    { revert E. clear. induction src as [|c s IH]; cbn [find_owned_c]; [now destruct (p 0)|].
      destruct (p c); [easy|]. destruct (find_owned_c p s); [easy|auto]. }
    rewrite Z0, app_nil_r. do 2 f_equal. symmetry. apply (flat_map_single f (fun c => negb (p c))).
    + intros c Hc. unfold f. bools. now rewrite Hc.
    + eapply Forall_impl; [|apply find_owned_c_none; exact E]. cbn. intros c ->. reflexivity.
Qed.

(** ** Facts: js_encode and a reader of its escapes *)

Fixpoint js_read (l : list Z) : option (list Z) :=
  match l with
  | [] => Some []
  | c :: l' =>
      if c =? BACKSLASH then
        match l' with
        | e :: a :: b :: l2 =>
            if e =? chr "x" then
              if table_owned HEX_NUMBER a && table_owned HEX_NUMBER b
              then option_map (cons (hex_to_char a b)) (js_read l2) else None
            else if (e =? chr "u") && (a =? chr "2") && (b =? chr "0") then
              match l2 with
              | c' :: d :: l3 =>
                  if (c' =? chr "2") && (d =? chr "8") then option_map (app [0xE2; 0x80; 0xA8]) (js_read l3)
                  else if (c' =? chr "2") && (d =? chr "9") then option_map (app [0xE2; 0x80; 0xA9]) (js_read l3)
                  else None
              | _ => None
              end
            else None
        | _ => None
        end
      else option_map (cons c) (js_read l')
  end.

(** What may stand in the output: nothing [NON_JS] owns but the backslash of
    the escapes and the first octet of other characters. *)
Definition js_safe (c : Z) : Prop := table_owned NON_JS c = false \/ c = BACKSLASH \/ c = 0xE2.

Definition js_reads (out src : list Z) : Prop := js_read out = Some src /\ Forall js_safe out.

Lemma js_reads_plain p out src : Forall (fun c => js_safe c /\ c <> BACKSLASH) p ->
  js_reads out src -> js_reads (p ++ out) (p ++ src).
Proof.
  intros H [R S]. induction H as [|c p [Hc N] _ [IHR IHS]]; [easy|]. cbn [app]. split; [|now constructor].
  cbn [js_read]. now rewrite (proj2 (Z.eqb_neq _ _) N), IHR.
Qed.

Lemma js_reads_hex ch out src : is_byte ch -> js_reads out src ->
  js_reads ([BACKSLASH; chr "x"; nth (Z.to_nat (Z.land (Z.shiftr ch 4) 15)) HEX_DIGITS 0;
             nth (Z.to_nat (Z.land ch 15)) HEX_DIGITS 0] ++ out) (ch :: src).
Proof.
  intros H [R S].
  assert (0 <= Z.land (Z.shiftr ch 4) 15 < 16 /\ 0 <= Z.land ch 15 < 16 /\
          Z.land (Z.shiftr ch 4) 15 = Z.shiftr ch 4) as (N1 & N2 & N3).
  { change 15 with (2 ^ 4 - 1). rewrite !land_mask, Z.shiftr_div_pow2 by lia.
    unfold is_byte in H. change (2 ^ 4) with 16. Z.div_mod_to_equations. lia. }
  assert (forall n, 0 <= n < 16 -> js_safe (nth (Z.to_nat n) HEX_DIGITS 0)) as HD.
  { intros n Hn. left. assert (In n (map Z.of_nat (seq 0 16))) as I.
    { apply in_map_iff. exists (Z.to_nat n). split; [lia|apply in_seq; lia]. }
    revert I. cbn [map seq In]. intuition (subst; reflexivity). }
  split.
  - cbn [app js_read]. rewrite !Z.eqb_refl, !hex_digit_is_hex by easy. cbn [andb].
    now rewrite N3, hex_byte_roundtrip, R.
  - cbn [app]. constructor; [right; now left|]. constructor; [now left|]. auto.
Qed.

Lemma js_reads_sep d out src : d = chr "8" \/ d = chr "9" -> js_reads out src ->
  js_reads (lit "\u202" ++ d :: out) (0xE2 :: 0x80 :: (if d =? chr "8" then 0xA8 else 0xA9) :: src).
Proof.
  intros [-> | ->] [R S]; (split; [cbn [lit app js_read]; cbn -[js_read]; now rewrite R|]);
    cbn [lit app]; (constructor; [right; now left|]); repeat (constructor; [now left|]); exact S.
Qed.

Lemma js_owned_plain k src : Forall (fun c => js_safe c /\ c <> BACKSLASH) (firstn k src) ->
  let ptr := (k + find_owned (table_owned NON_JS) (skipn k src))%nat in
  Forall (fun c => js_safe c /\ c <> BACKSLASH) (firstn ptr src).
Proof.
  intros H ptr. subst ptr. set (n := find_owned _ _).
  destruct (Nat.le_gt_cases k (length src)) as [L|L].
  - rewrite <- (firstn_skipn k src) at 1. replace k with (length (firstn k src)) at 1 by (rewrite length_firstn; lia).
    rewrite firstn_app_2. apply Forall_app. split; [easy|].
    eapply Forall_impl; [|apply find_owned_prefix]. cbn. intros c Hc. split; [now left|].
    intros ->. discriminate Hc.
  - rewrite !firstn_all2 in * by lia. exact H.
Qed.

Lemma js_encode_loop_spec fuel : forall src k dst, is_bytes src ->
  Forall (fun c => js_safe c /\ c <> BACKSLASH) (firstn k src) -> (length (skipn k src) < fuel)%nat ->
  exists out, js_encode_loop fuel src k dst = Ret (dst ++ out) /\ js_reads out src.
Proof.
  induction fuel as [|fuel IH]; intros src k dst HB HP L; [lia|]. cbn [js_encode_loop].
  pose proof (js_owned_plain k src HP) as P. cbv zeta in P.
  set (ptr := (k + find_owned (table_owned NON_JS) (skipn k src))%nat) in *.
  set (dst' := if negb (ptr =? 0)%nat then dst ++ firstn ptr src else dst).
  assert (dst' = dst ++ firstn ptr src) as -> by (subst dst'; destruct ptr; cbn; now rewrite ?app_nil_r).
  assert (forall out, js_reads out (skipn ptr src) -> js_reads (firstn ptr src ++ out) src) as J.
  { intros out R. rewrite <- (firstn_skipn ptr src) at 2. now apply js_reads_plain. }
  assert (length (skipn ptr src) <= length (skipn k src))%nat as LS by (rewrite !length_skipn; subst ptr; lia).
  assert (is_bytes (skipn ptr src)) as HS by now apply Forall_skipn.
  assert (forall src' k' dst2 e, is_bytes src' -> Forall (fun c => js_safe c /\ c <> BACKSLASH) (firstn k' src') ->
    (length (skipn k' src') < fuel)%nat ->
    (forall out, js_reads out src' -> js_reads (e ++ out) (skipn ptr src)) -> dst2 = dst ++ firstn ptr src ++ e ->
    exists out, js_encode_loop fuel src' k' dst2 = Ret (dst ++ out) /\ js_reads out src) as STEP.
  { intros src' k' dst2 e H1 H2 H3 H4 ->. destruct (IH src' k' (dst ++ firstn ptr src ++ e) H1 H2 H3) as (out & E & R).
    exists (firstn ptr src ++ e ++ out). split; [rewrite E; now rewrite <- !app_assoc|]. auto. }
  destruct (skipn ptr src) as [|ch src'] eqn:ES.
  { exists (firstn ptr src). split; [easy|]. rewrite <- (app_nil_r (firstn ptr src)). now apply J. }
  inversion HS as [|? ? HC HS']; subst. cbn [length] in LS.
  assert (js_safe 0xE2 /\ 0xE2 <> BACKSLASH) as SE by (split; [right; now right|discriminate]).
  destruct (Z.eqb_spec ch 0xE2) as [->|NE].
  - assert (exists out, js_encode_loop fuel (0xE2 :: src') 1 (dst ++ firstn ptr src) = Ret (dst ++ out) /\ js_reads out src) as RAW.
    { apply (STEP _ _ _ []); [easy|repeat constructor; easy|cbn [skipn]; lia|easy|now rewrite app_nil_r]. }
    destruct src' as [|c1 [|c2 src3]]; [exact RAW|exact RAW|]. inversion HS' as [|? ? _ HS2]; inversion HS2; subst.
    destruct (Z.eqb_spec c1 0x80) as [->|]; [|exact RAW]. cbn [andb length] in *.
    destruct (Z.eqb_spec c2 0xA9) as [->|]; [|destruct (Z.eqb_spec c2 0xA8) as [->|]; [|exact RAW]].
    + apply (STEP _ _ _ (lit "\u2029")); [easy|constructor|cbn [skipn]; lia| |now rewrite <- app_assoc].
      intros out R. apply (js_reads_sep (chr "9")); auto.
    + apply (STEP _ _ _ (lit "\u2028")); [easy|constructor|cbn [skipn]; lia| |now rewrite <- app_assoc].
      intros out R. apply (js_reads_sep (chr "8")); auto.
  - eapply STEP; [easy|constructor|cbn [skipn]; lia| |now rewrite <- app_assoc].
    intros out R. now apply js_reads_hex.
Qed.

(** ** Claims *)

(** [json_escape] never indexes its table of escapes out of range, and a
    JSON reader (which refuses raw control characters and quotation marks)
    reads its output as the source. *)
Theorem json_escape_correct s :
  is_bytes s -> exists out, json_escape s = Ret out /\ json_read out = Some s.
Proof.
  intros H. unfold json_escape. rewrite json_escape_loop_spec by (easy || lia).
  eexists. split; [reflexivity|]. now apply json_read_flat.
Qed.

Lemma json_escape_correct_witness :
  exists out, json_escape (lit "a\b" ++ [34; 0; 31]) = Ret out /\ json_read out = Some (lit "a\b" ++ [34; 0; 31]).
Proof. apply (json_escape_correct (lit "a\b" ++ [34; 0; 31])). repeat constructor; discriminate. Defined.

(** [js_encode] terminates, its output reads back as the source with the
    JavaScript escapes undone, and holds none of the quotes, angle brackets,
    slashes and line ends it protects from. *)
Theorem js_encode_correct s :
  is_bytes s -> exists out, js_encode s = Ret out /\ js_read out = Some s /\ Forall js_safe out.
Proof.
  intros H. destruct (js_encode_loop_spec (S (length s)) s 0 [] H) as (out & E & R); [constructor|cbn [skipn]; lia|].
  exists out. split; [exact E|exact R].
Qed.

Lemma js_encode_correct_witness :
  exists out, js_encode (lit "</a>" ++ [0xE2; 0x80; 0xA9; 0xE2]) = Ret out /\
    js_read out = Some (lit "</a>" ++ [0xE2; 0x80; 0xA9; 0xE2]) /\ Forall js_safe out.
Proof. apply (js_encode_correct (lit "</a>" ++ [0xE2; 0x80; 0xA9; 0xE2])). repeat constructor; discriminate. Defined.

(** a field written by [csv_encode] is read back exactly by a CSV reader,
    also when more fields follow it. *)
Theorem csv_encode_correct s separator rest :
  is_bytes s -> is_byte separator -> csv_special 0 separator = false ->
  rest = [] \/ (exists r, rest = separator :: r) ->
  csv_field separator (csv_encode (Some s) separator ++ rest) = Some (s, rest).
Proof.
  intros HB HS HN HR. unfold csv_special in HN. bools. unfold csv_encode.
  assert (hd 0 rest <> QUOTE) as HQ by (destruct HR as [-> | (r & ->)]; cbn [hd]; [discriminate|congruence]).
  destruct (find_owned_c _ s) as [k|] eqn:E.
  - rewrite csv_loop_spec. cbn [app]. rewrite <- app_assoc. cbn [csv_field app]. rewrite Z.eqb_refl.
    now apply csv_quoted_dbl.
  - apply find_owned_c_none in E.
    assert (Forall (fun c => negb (csv_special separator c) = true) s) as F.
    { apply Forall_forall. intros c Hc. unfold is_bytes in HB. rewrite Forall_forall in E, HB.
      rewrite <- non_csv_special by auto. now rewrite (E c Hc). }
    pose proof (span_all (fun c => negb (csv_special separator c)) s rest F) as SP.
    unfold csv_field. destruct s as [|c s].
    + cbn [app] in *. destruct HR as [-> | (r & ->)]; [easy|]. rewrite (proj2 (Z.eqb_neq _ QUOTE)) by congruence.
      f_equal. apply SP. unfold csv_special. now rewrite Z.eqb_refl.
    + cbn [app] in *. inversion F as [|? ? FC _]; subst. unfold csv_special in FC. bools.
      rewrite (proj2 (Z.eqb_neq c QUOTE)) by easy. f_equal. apply SP.
      destruct HR as [-> | (r & ->)]; [easy|]. unfold csv_special. now rewrite Z.eqb_refl.
Qed.

Lemma csv_encode_correct_witness :
  csv_field (chr ",") (csv_encode (Some (lit "a,b")) (chr ",") ++ chr "," :: lit "c") =
  Some (lit "a,b", chr "," :: lit "c").
Proof.
  apply (csv_encode_correct (lit "a,b") (chr ",") (chr "," :: lit "c"));
    [apply lit_bytes|apply chr_byte|reflexivity|right; now exists (lit "c")].
Defined.

(** The editing functions compute their reference: [trim] removes the
    maximal owned prefix and suffix, [replace] substitutes the leftmost
    non-overlapping occurrences, [mark] puts the marker before every owned
    character (and a marked terminator when the set owns it). *)
Theorem text_edits str owned to_find to_replace marker :
  (exists a b, str = a ++ trim owned str ++ b /\ Forall (fun c => owned c = true) (a ++ b) /\
     (trim owned str = [] \/
      (owned (hd 0 (trim owned str)) = false /\ owned (last (trim owned str) 0) = false))) /\
  replace str to_find to_replace =
    Ret (if (length to_find =? 0)%nat then str else rep_spec to_find to_replace 0 str) /\
  mark (Some str) owned marker =
    Ret (flat_map (fun c => if owned c then [marker; c] else [c]) str ++
         (if owned 0 then [marker; 0] else [])).
Proof.
  split; [|split].
  - unfold trim. set (k := find_nonowned owned str).
    pose proof (find_nonowned_prefix owned str) as FP. pose proof (find_nonowned_stop owned str) as FS. fold k in FP, FS.
    destruct (Nat.eqb_spec k (length str)) as [E|E]; cbn [negb].
    + exists str, []. rewrite E, skipn_all. rewrite E, firstn_all in FP. cbn [app]. rewrite app_nil_r. auto.
    + destruct (trim_end_spec owned (rev (skipn k str))) as (a & b & ER & FA & -> & HB).
      exists (firstn k str), (rev a). assert (skipn k str = rev b ++ rev a) as ES
        by (rewrite <- rev_app_distr, <- ER, rev_involutive; reflexivity).
      rewrite <- ES, firstn_skipn. split; [easy|]. split; [apply Forall_app; split; [easy|now apply Forall_rev]|].
      destruct b as [|c b]; [now left|right]. split.
      * destruct (rev (c :: b)) as [|x r] eqn:EX; [apply (f_equal (@rev Z)) in EX; rewrite rev_involutive in EX; discriminate|].
        cbn [hd]. apply (FS x (r ++ rev a)). now rewrite ES.
      * cbn [rev]. rewrite last_last. exact HB.
  - unfold replace. destruct (Nat.eqb_spec (length to_find) 0); [easy|].
    rewrite replace_loop_spec by (try lia; now destruct to_find). easy.
  - unfold mark. now rewrite mark_loop_spec by lia.
Qed.
