(* ===== verification/JsUnicode.v ===== *)
(** * JsUnicode: [js_unicode_encode] and [js_unicode_decode] of
    src/src/String/StringManip.cpp

    Every character that is not an ASCII letter or digit is written as one or
    two [\uXXXX].  The encoder reads a buffer with its terminator; it steps over
    the octets that the first one of a character announces, whatever they are. *)

From Stdlib Require Import ZArith List Bool Lia.
From S2P Require Import Prelude Ascii Utf8 Xml.
Import ListNotations.
Import UTF8Handler.
Open Scope Z_scope.

(** ** Encoding *)

Definition hex_of (v k : Z) : Z := nth (Z.to_nat (Z.land (Z.shiftr v k) 0x0F)) HEX_DIGITS 0.

Definition add_unicode_symbol (dst : list Z) (dest : Z) : list Z :=
  dst ++ [chr "\"; chr "u"; hex_of dest 12; hex_of dest 8; hex_of dest 4; hex_of dest 0].

Fixpoint js_unicode_encode_loop (fuel : nat) (src dst : list Z) : outcome (list Z) :=
  match fuel with
  | O => Undef
  | S fuel' =>
      match find_nonowned_c (table_owned ALPHA_NUM) src with
      | None => Undef
      | Some k =>
          let dst := if negb (k =? 0)%nat then dst ++ firstn k src else dst in
          let ptr := skipn k src in
          c <- rd ptr 0 ;;
          if c =? 0 then Ret dst
          else
            let octets_count := get_octet_count c in
            if octets_count =? 0 then Throw InvalidFormatException
            else
              '(_, dest) <- utf8_char_to_wchar (Some ptr) octets_count ;;
              let dst :=
                if dest <? 0x10000 then add_unicode_symbol dst dest
                else
                  add_unicode_symbol (add_unicode_symbol dst (0xD7C0 + Z.shiftr dest 10))
                    (0xDC00 + Z.land dest 0x3FF) in
              js_unicode_encode_loop fuel' (skipn (Z.to_nat octets_count) ptr) dst
      end
  end.

Definition js_unicode_encode (src : list Z) : outcome (list Z) :=
  c <- rd src 0 ;;
  if c =? 0 then Ret [] else js_unicode_encode_loop (S (length src)) src [].

(** ** Decoding *)

Definition add_wchar (dst : list Z) (ch : Z) (strict : bool) : outcome (list Z) :=
  match wchar_to_utf8_char ch with
  | Some buf => Ret (dst ++ buf)
  | None => if strict then Throw InvalidFormatException else Ret dst
  end.

Definition add_surrogate (surrogate : Z) (dest : list Z) (strict : bool) : outcome (list Z) :=
  if strict then Throw InvalidFormatException else add_wchar dest surrogate strict.

(** The four digits behind [\u]. *)
Fixpoint code_loop (n : nat) (digits : list Z) (ch : Z) : outcome Z :=
  match n with
  | O => Ret ch
  | S n' =>
      match digits with
      | [] => Undef
      | d :: digits' => code_loop n' digits' (Z.lor (Z.shiftl ch 4) (hex_to_int d))
      end
  end.

(** What becomes of a code: the surrogate that is kept, and the text.  A left
    shift of a negative number is undefined. *)
Definition take_code (ch last_surrogate : Z) (dest : list Z) (strict : bool) : outcome (Z * list Z) :=
  if negb (last_surrogate =? 0) then
    if (0xDC00 <=? ch) && (ch <? 0xE000) then
      if last_surrogate <? 0xD7C0 then Undef
      else
        dest <- add_wchar dest (Z.lor (Z.shiftl (last_surrogate - 0xD7C0) 10) (ch - 0xDC00)) strict ;;
        Ret (0, dest)
    else
      dest <- add_surrogate last_surrogate dest strict ;;
      dest <- add_wchar dest ch strict ;;
      Ret (0, dest)
  else if (0xD700 <=? ch) && (ch <? 0xDC00) then Ret (ch, dest)
  else if (0xDC00 <=? ch) && (ch <? 0xE000) then
    dest <- add_surrogate ch dest strict ;;
    Ret (last_surrogate, dest)
  else
    dest <- add_wchar dest ch strict ;;
    Ret (last_surrogate, dest).

(** The loop over the source; [src] is what is left of it.  Nothing behind its
    end can be read. *)
Fixpoint js_unicode_decode_loop (fuel : nat) (src : list Z) (last_surrogate : Z) (dest : list Z)
  (strict : bool) (special : Z) : outcome (list Z) :=
  match fuel with
  | O => Undef
  | S fuel' =>
      match src with
      | [] =>
          if negb (last_surrogate =? 0) then add_surrogate last_surrogate dest strict else Ret dest
      | c :: src' =>
          let encoded :=
            (c =? special) && (5 <=? length src)%nat && (nth 0 src' 0 =? chr "u") in
          if encoded then
            ch <- code_loop 4 (skipn 1 src') 0 ;;
            '(last_surrogate, dest) <- take_code ch last_surrogate dest strict ;;
            js_unicode_decode_loop fuel' (skipn 6 src) last_surrogate dest strict special
          else if (c =? special) && strict then Throw InvalidFormatException
          else
            dest <- (if negb (last_surrogate =? 0) then add_surrogate last_surrogate dest strict else Ret dest) ;;
            js_unicode_decode_loop fuel' src' 0 (dest ++ [c]) strict special
      end
  end.

(** The text is appended to [dest]. *)
Definition js_unicode_decode (src dest : list Z) (strict : bool) (special : Z) : outcome (list Z) :=
  js_unicode_decode_loop (S (length src)) src 0 dest strict special.

Definition BACKSLASH : Z := chr "\".

(** ** Examples *)

Definition c_str (s : list Z) : list Z := s ++ [0].

Example encode_text : js_unicode_encode (c_str (lit "a<" ++ [0xD0; 0x96; 0xF0; 0x9F; 0x98; 0x80])) =
  Ret (lit "a\u003C\u0416\uD83D\uDE00").
Proof. reflexivity. Qed.

(** The codes U+D700 .. U+D7FF are taken for surrogates. *)
Example hangul_lost :
  js_unicode_encode (c_str [0xED; 0x9E; 0xA3]) = Ret (lit "\uD7A3") /\
  js_unicode_decode (lit "\uD7A3") [] true BACKSLASH = Throw InvalidFormatException.
Proof. vm_compute. split; reflexivity. Qed.

(** Four cells behind the special symbol are enough to read five. *)
Example decode_past_the_end : js_unicode_decode (lit "\u003") [] true BACKSLASH = Undef.
Proof. reflexivity. Qed.

(** A character that is cut off by the terminator leads past it. *)
Example encode_past_the_end : js_unicode_encode (c_str [0xE2; 0x82]) = Undef.
Proof. reflexivity. Qed.

(** ** What a character becomes *)

Definition alnum (w : Z) : bool := (w <? 128) && table_owned ALPHA_NUM w.

Definition symbol (v : Z) : list Z := add_unicode_symbol [] v.

Definition js_char (w : Z) : list Z :=
  if alnum w then [w]
  else if w <? 0x10000 then symbol w
  else symbol (0xD7C0 + Z.shiftr w 10) ++ symbol (0xDC00 + Z.land w 0x3FF).

Lemma add_unicode_symbol_app dst v : add_unicode_symbol dst v = dst ++ symbol v.
Proof. reflexivity. Qed.

(** The codes that survive: scalar values but those taken for surrogates. *)
Definition plain (w : Z) : Prop := 0 < w < 0x110000 /\ ~ (0xD700 <= w < 0xE000).

Definition utf8 (ws : list Z) : list Z := Utf8Manip.wchar_to_utf8 ws.

Lemma high_half_not_alnum b : is_byte b -> 128 <= b -> table_owned ALPHA_NUM b = false.
Proof.
  intros Hb Hl.
  pose proof (byte_forall (fun b => (b <? 128) || negb (table_owned ALPHA_NUM b)) ltac:(vm_compute; reflexivity) b Hb) as H.
  apply orb_true_iff in H as [H|H]; [apply Z.ltb_lt in H; lia|now apply negb_true_iff in H].
Qed.

Lemma lead_octet b : is_byte b -> 2 <= get_octet_count b -> 128 <= b.
Proof.
  intros Hb H.
  pose proof (byte_forall (fun b => (128 <=? b) || (get_octet_count b <? 2)) ltac:(vm_compute; reflexivity) b Hb) as C.
  apply orb_true_iff in C as [C|C]; lia.
Qed.

Lemma encodes_ascii c n bs : encodes c n bs -> c < 128 -> bs = [Z.land c 0x7F].
Proof. destruct 1; intros Hc; [reflexivity|exfalso; lia..]. Qed.

Lemma encodes_wide c n bs : encodes c n bs -> 128 <= c -> 2 <= n.
Proof. destruct 1; intros Hc; lia. Qed.

Lemma utf8_head w : 0 < w < 0x110000 ->
  exists n b bs, Utf8Manip.wchar_to_utf8_append w = b :: bs /\ get_octet_count b = n /\ 1 <= n /\ b <> 0 /\
    n = Z.of_nat (length (b :: bs)) /\
    (forall rest, utf8_char_to_wchar (Some ((b :: bs) ++ rest)) n = Ret (true, w)) /\
    (w < 128 -> b = w /\ bs = []) /\ table_owned ALPHA_NUM b = alnum w.
Proof.
  intros Hw. destruct (append_encodes w) as [n E]; [lia|]. unfold alnum.
  destruct (encodes_facts w n _ E) as (HL & HB & Hn & (b & r & Hbs & HO) & HD).
  exists n, b, r. rewrite Hbs in *. split; [easy|]. split; [easy|]. split; [lia|].
  assert (Hbyte : is_byte b) by (unfold is_bytes in HB; now apply Forall_inv in HB).
  assert (Hcase : (w < 128 /\ b = w /\ r = []) \/ (128 <= w /\ 128 <= b)).
  { destruct (Z.lt_ge_cases w 128) as [Hs|Hs]; [left|right].
    - assert (HL7 : Z.land w 0x7F = w).
      { pose proof (land_mask w 7 ltac:(lia)) as L. rewrite (Z.mod_small w (2 ^ 7)) in L by lia. exact L. }
      pose proof (encodes_ascii w n _ E Hs) as Hb. rewrite HL7 in Hb. injection Hb as -> ->. easy.
    - split; [easy|]. pose proof (encodes_wide w n _ E Hs) as Hn2. rewrite <- HO in Hn2.
      now apply lead_octet in Hn2. }
  split; [lia|]. split; [easy|]. split; [easy|].
  destruct Hcase as [(H1 & -> & ->)|[H1 H2]].
  - split; [easy|]. destruct (Z.ltb_spec w 128); [easy|lia].
  - split; [lia|]. destruct (Z.ltb_spec w 128); [lia|]. now apply high_half_not_alnum.
Qed.

(** ** Encoding a text *)

Lemma encode_owned fuel c src dst : table_owned ALPHA_NUM c = true ->
  js_unicode_encode_loop (S fuel) (c :: src) dst = js_unicode_encode_loop (S fuel) src (dst ++ [c]).
Proof.
  intros Hc. cbn [js_unicode_encode_loop find_nonowned_c]. rewrite Hc. cbn [negb].
  destruct (find_nonowned_c _ src) as [k|]; [|easy]. cbn [option_map Nat.eqb negb skipn firstn].
  rewrite <- app_assoc. destruct k; reflexivity.
Qed.

Lemma encode_char fuel w dst rest : 0 < w < 0x110000 ->
  js_unicode_encode_loop (S fuel) (Utf8Manip.wchar_to_utf8_append w ++ rest) dst =
  js_unicode_encode_loop (if alnum w then S fuel else fuel) rest (dst ++ js_char w).
Proof.
  intros Hw. destruct (utf8_head w Hw) as (n & b & bs & -> & HO & Hn & Hb0 & Hlen & HD & Hsmall & Halnum).
  unfold js_char. destruct (alnum w) eqn:Ha.
  - unfold alnum in Ha. apply andb_true_iff in Ha as [Ha _]. apply Z.ltb_lt in Ha.
    destruct (Hsmall Ha) as [-> ->]. now apply encode_owned.
  - specialize (HD rest). cbn [app] in *. cbn [js_unicode_encode_loop find_nonowned_c].
    rewrite Halnum. cbn [negb Nat.eqb skipn rd nth_error bind]. rewrite HO, HD.
    rewrite (proj2 (Z.eqb_neq b 0)), (proj2 (Z.eqb_neq n 0)) by lia. cbn [bind].
    rewrite Hlen, Nat2Z.id. rewrite app_comm_cons, skipn_app, skipn_all, Nat.sub_diag. cbn [skipn app].
    rewrite !add_unicode_symbol_app, <- app_assoc. now destruct (w <? 0x10000).
Qed.

Lemma encode_all ws : Forall (fun w => 0 < w < 0x110000) ws -> forall fuel dst r,
  (length ws < fuel)%nat ->
  js_unicode_encode_loop fuel (utf8 ws ++ 0 :: r) dst = Ret (dst ++ flat_map js_char ws).
Proof.
  induction 1 as [|w ws Hw Hws IH]; intros fuel dst r Hf; (destruct fuel as [|fuel]; [lia|]).
  - cbn. now rewrite app_nil_r.
  - unfold utf8. cbn [Utf8Manip.wchar_to_utf8 flat_map length] in *. rewrite <- app_assoc, encode_char by easy.
    fold (utf8 ws). rewrite IH by (destruct (alnum w); lia). now rewrite <- app_assoc.
Qed.

Lemma utf8_length ws : Forall (fun w => 0 < w < 0x110000) ws -> (length ws <= length (utf8 ws))%nat.
Proof.
  induction 1 as [|w ws Hw Hws IH]; [easy|]. unfold utf8. cbn [Utf8Manip.wchar_to_utf8]. fold (utf8 ws).
  destruct (utf8_head w Hw) as (n & b & bs & -> & _). rewrite length_app. cbn [length]. lia.
Qed.

(** The exact text that is written. *)
Lemma js_unicode_encode_text ws r : Forall (fun w => 0 < w < 0x110000) ws ->
  js_unicode_encode (utf8 ws ++ 0 :: r) = Ret (flat_map js_char ws).
Proof.
  intros H. unfold js_unicode_encode. pose proof (utf8_length ws H). destruct ws as [|w ws]; [reflexivity|].
  pose proof H as Hws. apply Forall_inv in Hws. destruct (utf8_head w Hws) as (n & b & bs & E & _ & _ & Hb0 & _).
  assert (Hhd : exists t, utf8 (w :: ws) ++ 0 :: r = b :: t)
    by (unfold utf8; cbn [Utf8Manip.wchar_to_utf8]; rewrite E; cbn [app]; eauto).
  destruct Hhd as [t Ht]. rewrite Ht. cbn [rd nth_error bind]. rewrite (proj2 (Z.eqb_neq b 0)) by easy.
  rewrite <- Ht. apply encode_all; [easy|]. rewrite length_app. cbn [length] in *. lia.
Qed.

(** ** Decoding it *)

Lemma hex_of_value v k : hex_to_int (hex_of v k) = Z.land (Z.shiftr v k) 0x0F.
Proof.
  apply (hex_digit_value (Z.land (Z.shiftr v k) 0x0F)).
  change 0x0F with (2 ^ 4 - 1). rewrite land_mask by lia. apply Z.mod_pos_bound. lia.
Qed.

Lemma code_symbol v rest : 0 <= v < 0x10000 ->
  code_loop 4 (hex_of v 12 :: hex_of v 8 :: hex_of v 4 :: hex_of v 0 :: rest) 0 = Ret v.
Proof.
  intros Hv. cbn [code_loop]. rewrite !hex_of_value. change 0x0F with (2 ^ 4 - 1). rewrite !land_mask by lia.
  rewrite !lor_shiftl_small by (try apply Z.mod_pos_bound; lia). rewrite !Z.shiftr_div_pow2 by lia.
  change (2 ^ 4) with 16. change (2 ^ 12) with 4096. change (2 ^ 8) with 256. change (2 ^ 0) with 1.
  rewrite Z.div_1_r. f_equal. Z.div_mod_to_equations. lia.
Qed.

Lemma decode_symbol fuel v rest last dest strict : 0 <= v < 0x10000 ->
  js_unicode_decode_loop (S fuel) (symbol v ++ rest) last dest strict BACKSLASH =
  ('(last, dest) <- take_code v last dest strict ;;
   js_unicode_decode_loop fuel rest last dest strict BACKSLASH).
Proof.
  intros Hv. unfold symbol, add_unicode_symbol. cbn [app js_unicode_decode_loop skipn nth length].
  change (chr "\" =? BACKSLASH) with true. change (chr "u" =? chr "u") with true. cbn [Nat.leb andb].
  now rewrite code_symbol.
Qed.

Lemma wchar_append w : 0 <= w < 0x110000 -> wchar_to_utf8_char w = Some (Utf8Manip.wchar_to_utf8_append w).
Proof.
  intros Hw. unfold wchar_to_utf8_char, Utf8Manip.wchar_to_utf8_append. rewrite !wrapu_small by lia. cbv zeta.
  destruct (Z.ltb_spec w 0x80); [easy|]. destruct (Z.ltb_spec w 0x800), (Z.ltb_spec w 0x10000); try lia; try easy.
  now destruct (Z.ltb_spec w 0x200000); [|lia].
Qed.

Lemma add_wchar_text dest w strict : 0 <= w < 0x110000 ->
  add_wchar dest w strict = Ret (dest ++ Utf8Manip.wchar_to_utf8_append w).
Proof. intros Hw. unfold add_wchar. now rewrite wchar_append. Qed.

Lemma take_plain w dest strict : 0 <= w < 0xD700 \/ 0xE000 <= w < 0x110000 ->
  take_code w 0 dest strict = Ret (0, dest ++ Utf8Manip.wchar_to_utf8_append w).
Proof.
  intros Hw. unfold take_code. cbn [Z.eqb negb].
  destruct (Z.leb_spec 0xD700 w), (Z.ltb_spec w 0xDC00); cbn [andb]; try lia;
    destruct (Z.leb_spec 0xDC00 w), (Z.ltb_spec w 0xE000); cbn [andb]; try lia;
    now rewrite add_wchar_text by lia.
Qed.

Lemma take_pair w dest strict : 0x10000 <= w < 0x110000 ->
  let hi := 0xD7C0 + Z.shiftr w 10 in let lo := 0xDC00 + Z.land w 0x3FF in
  0 <= hi < 0x10000 /\ 0 <= lo < 0x10000 /\ take_code hi 0 dest strict = Ret (hi, dest) /\
  take_code lo hi dest strict = Ret (0, dest ++ Utf8Manip.wchar_to_utf8_append w).
Proof.
  intros Hw. cbv zeta. rewrite Z.shiftr_div_pow2 by lia. change 0x3FF with (2 ^ 10 - 1). rewrite land_mask by lia.
  assert (Hq : 64 <= w / 2 ^ 10 < 1088) by (change (2 ^ 10) with 1024; Z.div_mod_to_equations; lia).
  pose proof (Z.mod_pos_bound w (2 ^ 10) ltac:(lia)) as Hm. change (2 ^ 10) with 1024 in *.
  set (q := w / 1024) in *. set (m := w mod 1024) in *. assert (Hqm : q * 1024 + m = w).
  { unfold q, m. pose proof (Z.div_mod w 1024). lia. }
  split; [lia|]. split; [lia|]. unfold take_code. cbn [Z.eqb negb]. split.
  - now rewrite (proj2 (Z.leb_le 0xD700 (0xD7C0 + q))), (proj2 (Z.ltb_lt (0xD7C0 + q) 0xDC00)) by lia.
  - rewrite (proj2 (Z.eqb_neq (0xD7C0 + q) 0)) by lia. cbn [negb].
    rewrite (proj2 (Z.leb_le 0xDC00 (0xDC00 + m))), (proj2 (Z.ltb_lt (0xDC00 + m) 0xE000)) by lia. cbn [andb].
    destruct (Z.ltb_spec (0xD7C0 + q) 0xD7C0); [lia|].
    replace (0xD7C0 + q - 0xD7C0) with q by lia. replace (0xDC00 + m - 0xDC00) with m by lia.
    rewrite lor_shiftl_small by (change (2 ^ 10) with 1024; lia). change (2 ^ 10) with 1024. rewrite Hqm.
    now rewrite add_wchar_text by lia.
Qed.

Lemma decode_char w : plain w -> exists k, (1 <= k <= length (js_char w))%nat /\ forall fuel rest dest strict,
  js_unicode_decode_loop (k + fuel) (js_char w ++ rest) 0 dest strict BACKSLASH =
  js_unicode_decode_loop fuel rest 0 (dest ++ Utf8Manip.wchar_to_utf8_append w) strict BACKSLASH.
Proof.
  intros [Hw Hs]. unfold js_char. destruct (alnum w) eqn:Ha; [|destruct (Z.ltb_spec w 0x10000)].
  - exists 1%nat. split; [cbn; lia|]. intros fuel rest dest strict.
    destruct (utf8_head w Hw) as (n & b & bs & -> & _ & _ & _ & _ & _ & Hsmall & _).
    unfold alnum in Ha. apply andb_true_iff in Ha as [Ha Ht]. apply Z.ltb_lt in Ha.
    destruct (Hsmall Ha) as [-> ->]. cbn [app Nat.add js_unicode_decode_loop].
    destruct (Z.eqb_spec w BACKSLASH) as [->|]; [discriminate Ht|]. reflexivity.
  - exists 1%nat. split; [cbn; lia|]. intros fuel rest dest strict. cbn [Nat.add].
    rewrite decode_symbol by lia. now rewrite take_plain by lia.
  - exists 2%nat. split; [cbn; lia|]. intros fuel rest dest strict. cbn [Nat.add].
    destruct (take_pair w dest strict) as (H1 & H2 & H3 & H4); [lia|].
    rewrite <- app_assoc, decode_symbol, H3 by easy. cbn [bind]. now rewrite decode_symbol, H4.
Qed.

Lemma decode_all ws : Forall plain ws -> forall fuel dest strict, (length (flat_map js_char ws) < fuel)%nat ->
  js_unicode_decode_loop fuel (flat_map js_char ws) 0 dest strict BACKSLASH = Ret (dest ++ utf8 ws).
Proof.
  induction 1 as [|w ws Hw Hws IH]; intros fuel dest strict Hf.
  - destruct fuel; [cbn in Hf; lia|]. cbn. now rewrite app_nil_r.
  - cbn [flat_map] in *. rewrite length_app in Hf. destruct (decode_char w Hw) as (k & Hk & Hrun).
    replace fuel with (k + (fuel - k))%nat by lia. rewrite Hrun, IH by lia.
    unfold utf8. cbn [Utf8Manip.wchar_to_utf8]. now rewrite <- app_assoc.
Qed.

(** Letters, digits and backslashes only: none of the characters that end a
    literal or a tag. *)
Definition inert (c : Z) : bool := table_owned ALPHA_NUM c || (c =? BACKSLASH).

Lemma hex_of_inert v k : inert (hex_of v k) = true.
Proof.
  unfold inert, hex_of. set (n := Z.land _ _).
  assert (Hn : 0 <= n < 16).
  { unfold n. change 0x0F with (2 ^ 4 - 1). rewrite land_mask by lia. apply Z.mod_pos_bound. lia. }
  assert (In n [0;1;2;3;4;5;6;7;8;9;10;11;12;13;14;15]) as I by (cbn; lia).
  cbn in I. intuition (subst n; match goal with H : _ = Z.land _ _ |- _ => rewrite <- H; reflexivity end).
Qed.

Lemma js_char_inert w : Forall (fun c => inert c = true) (js_char w).
Proof.
  assert (Hs : forall v, Forall (fun c => inert c = true) (symbol v)).
  { intros v. unfold symbol, add_unicode_symbol. cbn [app]. repeat constructor; apply hex_of_inert. }
  unfold js_char. destruct (alnum w) eqn:Ha.
  - unfold alnum in Ha. apply andb_true_iff in Ha as [_ Ha]. constructor; [|constructor]. unfold inert. now rewrite Ha.
  - destruct (w <? 0x10000); [apply Hs|]. apply Forall_app. split; apply Hs.
Qed.

(** C36: [js_unicode_encode] writes every text of non-zero Unicode characters with letters, digits and
    backslashes only, and [js_unicode_decode] reads the same text back and appends it to its destination,
    whether it is strict or not; except for the characters U+D700 to U+D7FF, which it takes for surrogates. *)
Theorem js_unicode_roundtrip ws r dest strict : Forall plain ws ->
  exists text, js_unicode_encode (utf8 ws ++ 0 :: r) = Ret text /\
    Forall (fun c => inert c = true) text /\
    js_unicode_decode text dest strict BACKSLASH = Ret (dest ++ utf8 ws).
Proof.
  intros H. exists (flat_map js_char ws). split; [|split].
  - apply js_unicode_encode_text. eapply Forall_impl; [|exact H]. intros w [Hw _]. exact Hw.
  - apply Forall_flat_map. apply Forall_forall. intros w _. apply js_char_inert.
  - unfold js_unicode_decode. apply decode_all; [easy|lia].
Qed.

Lemma js_unicode_roundtrip_witness :
  exists text, js_unicode_encode (utf8 [0x41; 0x3C; 0x416; 0x1F600] ++ [0]) = Ret text /\
    Forall (fun c => inert c = true) text /\
    js_unicode_decode text [] true BACKSLASH = Ret ([] ++ utf8 [0x41; 0x3C; 0x416; 0x1F600]).
Proof. apply (js_unicode_roundtrip [0x41; 0x3C; 0x416; 0x1F600] [] [] true). repeat constructor; lia. Defined.
