(* ===== verification/Time.v ===== *)
(** * Time: src/src/Generics/Time.hpp, times as seconds and microseconds

    The class [Time] is a [timeval]; its value is its number of microseconds
    and its fields are normalised ([wf]).  [tv_sec] is 64 bits wide; the
    operations are written on unbounded integers, and [add_sub_bounds] and
    [time_bounds] say for which values they stay inside. *)

From Stdlib Require Import ZArith List Bool Lia.
From S2P Require Import Prelude.
Import ListNotations.

Record Time : Type := mkTime { tv_sec : Z; tv_usec : Z }.

Definition USEC_MAX : Z := 1000000.

Definition time_neg (tv : Time) : Time :=
  if negb (tv_usec tv =? 0) then mkTime (- tv_sec tv - 1) (USEC_MAX - tv_usec tv)
  else mkTime (- tv_sec tv) 0.

Definition time_abs (tv : Time) : Time := if tv_sec tv <? 0 then time_neg tv else tv.

Definition time_add (tv1 tv2 : Time) : Time :=
  if USEC_MAX <=? tv_usec tv1 + tv_usec tv2
  then mkTime (tv_sec tv1 + tv_sec tv2 + 1) (tv_usec tv1 + tv_usec tv2 - USEC_MAX)
  else mkTime (tv_sec tv1 + tv_sec tv2) (tv_usec tv1 + tv_usec tv2).

Definition time_add_sec (tv : Time) (time : Z) : Time := mkTime (tv_sec tv + time) (tv_usec tv).

Definition time_sub (tv1 tv2 : Time) : Time :=
  if tv_usec tv1 <? tv_usec tv2
  then mkTime (tv_sec tv1 - tv_sec tv2 - 1) (USEC_MAX + tv_usec tv1 - tv_usec tv2)
  else mkTime (tv_sec tv1 - tv_sec tv2) (tv_usec tv1 - tv_usec tv2).

Definition time_sub_sec (tv : Time) (time : Z) : Time := mkTime (tv_sec tv - time) (tv_usec tv).

Definition Helper_abs (value : Z) : Z := if value <? 0 then - value else value.

Definition Helper_mul (tv : Time) (multiplier : Z) : Time :=
  mkTime (tv_sec tv * multiplier + Z.quot (tv_usec tv * multiplier) USEC_MAX)
         (Z.rem (tv_usec tv * multiplier) USEC_MAX).

Definition Helper_div (tv : Time) (divisor : Z) : Time :=
  mkTime (Z.quot (tv_sec tv) divisor)
         (Z.quot ((tv_sec tv - Z.quot (tv_sec tv) divisor * divisor) * USEC_MAX + tv_usec tv) divisor).

Definition time_mul (tv : Time) (multiplier : Z) : Time :=
  if Bool.eqb (tv_sec tv <? 0) (multiplier <? 0)
  then Helper_mul (time_abs tv) (Helper_abs multiplier)
  else time_neg (Helper_mul (time_abs tv) (Helper_abs multiplier)).

Definition time_div (tv : Time) (divisor : Z) : Time :=
  if Bool.eqb (tv_sec tv <? 0) (divisor <? 0)
  then Helper_div (time_abs tv) (Helper_abs divisor)
  else time_neg (Helper_div (time_abs tv) (Helper_abs divisor)).

Definition time_eq (tv1 tv2 : Time) : bool :=
  (tv_sec tv1 =? tv_sec tv2) && (tv_usec tv1 =? tv_usec tv2).
Definition time_ne (tv1 tv2 : Time) : bool := negb (time_eq tv1 tv2).
Definition time_lt (tv1 tv2 : Time) : bool :=
  (tv_sec tv1 <? tv_sec tv2) || ((tv_sec tv1 =? tv_sec tv2) && (tv_usec tv1 <? tv_usec tv2)).
Definition time_gt (tv1 tv2 : Time) : bool := time_lt tv2 tv1.
Definition time_le (tv1 tv2 : Time) : bool := negb (time_lt tv2 tv1).
Definition time_ge (tv1 tv2 : Time) : bool := negb (time_lt tv1 tv2).

Definition microseconds (t : Time) : Z := tv_sec t * USEC_MAX + tv_usec t.

(** [Time::Print]. *)
Record Print : Type := mkPrint { sign : Z; integer_part : Z; fractional_part : Z }.

Definition print (t : Time) : Print :=
  if 0 <? tv_sec t then mkPrint 1 (tv_sec t) (tv_usec t)
  else if negb (tv_sec t =? 0) then
    if negb (tv_usec t =? 0) then mkPrint (-1) (- tv_sec t - 1) (USEC_MAX - tv_usec t)
    else mkPrint (-1) (- tv_sec t) 0
  else if negb (tv_usec t =? 0) then mkPrint 1 0 (tv_usec t) else mkPrint 0 0 0.

(** [pack] and [unpack]: two [int32_t] cells. *)
Definition time_pack (t : Time) : Z * Z := (s32 (tv_sec t), s32 (tv_usec t)).
Definition time_unpack (buffer : Z * Z) : Time := mkTime (fst buffer) (snd buffer).

(** ** GeneralTimer

    The values [clock_()] returns are arguments of the operations. *)

Record Timer : Type := mkTimer { started_ : bool; start_ : Time; stop_ : Time }.

Definition Timer_new : Timer := mkTimer false (mkTime 0 0) (mkTime 0 0).
Definition Timer_start (clock : Time) (t : Timer) : Timer := mkTimer true clock (stop_ t).
Definition Timer_stop (clock : Time) (t : Timer) : Timer :=
  if started_ t then mkTimer false (start_ t) clock else t.
Definition elapsed_time (t : Timer) : Time := time_sub (stop_ t) (start_ t).
Definition stop_set (clock : Time) (t : Timer) : Timer * Time :=
  let t := Timer_stop clock t in (t, elapsed_time t).
Definition stop_add (clock : Time) (t : Timer) (timeout : Time) : Timer * Time :=
  let t := Timer_stop clock t in (t, time_add timeout (elapsed_time t)).

(** [TimeMeter<Timer, ADDITIVE>]: constructed at [clock1], destroyed at
    [clock2]; the value it leaves in [time]. *)
Definition TimeMeter (ADDITIVE : bool) (clock1 clock2 time : Time) : Time :=
  let t := Timer_start clock1 Timer_new in
  if ADDITIVE then snd (stop_add clock2 t time) else snd (stop_set clock2 t).

(** ** Facts *)

Definition wf (t : Time) : Prop := 0 <= tv_usec t < USEC_MAX.

Ltac time_unfold := unfold wf, microseconds, USEC_MAX in *; cbn [tv_sec tv_usec] in *.

Lemma microseconds_inj a b : wf a -> wf b -> microseconds a = microseconds b -> a = b.
Proof.
  destruct a as [s1 u1], b as [s2 u2]. time_unfold. intros H1 H2 H.
  assert (s1 = s2) by lia. subst. f_equal. lia.
Qed.

Lemma neg_spec a : wf a -> wf (time_neg a) /\ microseconds (time_neg a) = - microseconds a.
Proof. unfold time_neg. time_unfold. intros H. destruct (Z.eqb_spec (tv_usec a) 0); cbn [negb tv_sec tv_usec] in *; lia. Qed.

Lemma abs_spec a : wf a -> wf (time_abs a) /\ microseconds (time_abs a) = Z.abs (microseconds a) /\
  0 <= tv_sec (time_abs a) /\ (tv_sec a < 0 <-> microseconds a < 0).
Proof.
  intros H. unfold time_abs. destruct (Z.ltb_spec (tv_sec a) 0).
  - pose proof (neg_spec a H) as [W N]. rewrite N. split; [easy|].
    time_unfold. unfold time_neg, USEC_MAX in *. destruct (Z.eqb_spec (tv_usec a) 0); cbn [negb tv_sec tv_usec] in *; lia.
  - time_unfold. lia.
Qed.

Lemma time_add_spec a b : wf a -> wf b ->
  wf (time_add a b) /\ microseconds (time_add a b) = microseconds a + microseconds b.
Proof. unfold time_add. time_unfold. intros. split_if; cbn [negb tv_sec tv_usec] in *; lia. Qed.

Lemma time_sub_spec a b : wf a -> wf b ->
  wf (time_sub a b) /\ microseconds (time_sub a b) = microseconds a - microseconds b.
Proof. unfold time_sub. time_unfold. intros. split_if; cbn [negb tv_sec tv_usec] in *; lia. Qed.

Lemma hmul_spec a m : wf a -> 0 <= m ->
  wf (Helper_mul a m) /\ microseconds (Helper_mul a m) = microseconds a * m.
Proof.
  unfold Helper_mul. time_unfold. intros H Hm.
  rewrite Z.quot_div_nonneg, Z.rem_mod_nonneg by lia.
  pose proof (Z.mod_pos_bound (tv_usec a * m) 1000000).
  pose proof (Z.div_mod (tv_usec a * m) 1000000). lia.
Qed.

Lemma hdiv_spec a d : wf a -> 0 <= tv_sec a -> 0 < d ->
  wf (Helper_div a d) /\ microseconds (Helper_div a d) = microseconds a / d.
Proof.
  unfold Helper_div. time_unfold. intros H HS Hd.
  rewrite (Z.quot_div_nonneg (tv_sec a) d) by lia.
  pose proof (Z.div_mod (tv_sec a) d ltac:(lia)) as DM.
  pose proof (Z.mod_pos_bound (tv_sec a) d Hd) as MB.
  replace (tv_sec a - tv_sec a / d * d) with (tv_sec a mod d) by lia.
  set (r := tv_sec a mod d) in *. set (q := tv_sec a / d) in *.
  rewrite Z.quot_div_nonneg by lia. rewrite DM.
  replace ((d * q + r) * 1000000 + tv_usec a) with (q * 1000000 * d + (r * 1000000 + tv_usec a)) by lia.
  rewrite Z.div_add_l by lia. split; [|reflexivity]. split; [apply Z.div_pos; lia|].
  apply Z.div_lt_upper_bound; nia.
Qed.

Lemma helper_abs_spec m : Helper_abs m = Z.abs m.
Proof. unfold Helper_abs. split_if; lia. Qed.

Lemma signs_mul a m : (a < 0 <-> m < 0) -> Z.abs a * Z.abs m = a * m.
Proof. intros H. destruct (Z.lt_ge_cases a 0), (Z.lt_ge_cases m 0); try lia; nia. Qed.

Lemma time_mul_spec a m : wf a -> wf (time_mul a m) /\ microseconds (time_mul a m) = microseconds a * m.
Proof.
  intros H. destruct (abs_spec a H) as (W & A & _ & S).
  destruct (hmul_spec (time_abs a) (Z.abs m) W ltac:(lia)) as [W2 E]. rewrite A in E.
  unfold time_mul. rewrite helper_abs_spec.
  destruct (Z.ltb_spec (tv_sec a) 0), (Z.ltb_spec m 0); cbn [Bool.eqb].
  - rewrite E. split; [easy|]. apply signs_mul. lia.
  - destruct (neg_spec _ W2) as [W3 N]. split; [easy|]. rewrite N, E. nia.
  - destruct (neg_spec _ W2) as [W3 N]. split; [easy|]. rewrite N, E. nia.
  - rewrite E. split; [easy|]. apply signs_mul. lia.
Qed.

Lemma time_div_spec a d : wf a -> d <> 0 ->
  wf (time_div a d) /\ microseconds (time_div a d) = Z.quot (microseconds a) d.
Proof.
  intros H Hd. destruct (abs_spec a H) as (W & A & P & S).
  destruct (hdiv_spec (time_abs a) (Z.abs d) W P ltac:(lia)) as [W2 E]. rewrite A in E.
  rewrite <- Z.quot_div_nonneg in E by lia. unfold time_div. rewrite helper_abs_spec.
  set (u := microseconds a) in *.
  destruct (Z.ltb_spec (tv_sec a) 0), (Z.ltb_spec d 0); cbn [Bool.eqb].
  - rewrite E. split; [easy|]. rewrite !Z.abs_neq by lia. apply Z.quot_opp_opp. easy.
  - destruct (neg_spec _ W2) as [W3 N]. split; [easy|].
    rewrite N, E, Z.abs_neq, Z.abs_eq, Z.quot_opp_l by lia. lia.
  - destruct (neg_spec _ W2) as [W3 N]. split; [easy|].
    rewrite N, E, Z.abs_eq, Z.abs_neq, Z.quot_opp_r by lia. lia.
  - rewrite E. split; [easy|]. now rewrite !Z.abs_eq by lia.
Qed.

(** Sums and differences, with the seconds and microseconds before the carry, fit
    the fields when the seconds fit 63 bits. *)
Lemma add_sub_bounds a b :
  wf a -> wf b -> - 2 ^ 62 <= tv_sec a < 2 ^ 62 -> - 2 ^ 62 <= tv_sec b < 2 ^ 62 ->
  - 2 ^ 63 <= tv_sec a + tv_sec b < 2 ^ 63 /\ - 2 ^ 63 <= tv_sec (time_add a b) < 2 ^ 63 /\
  - 2 ^ 63 <= tv_sec a - tv_sec b < 2 ^ 63 /\ - 2 ^ 63 <= tv_sec (time_sub a b) < 2 ^ 63 /\
  0 <= tv_usec a + tv_usec b < 2 ^ 63 /\ - 2 ^ 63 <= tv_usec a - tv_usec b < 2 ^ 63.
Proof.
  change (2 ^ 63) with 9223372036854775808. change (2 ^ 62) with 4611686018427387904.
  unfold time_add, time_sub. time_unfold. intros. split_ifs; cbn [negb tv_sec tv_usec] in *; lia.
Qed.

(** The intermediate values of the products and quotients fit 64 bits when the
    seconds fit 32 bits, for any [int] factor. *)
Lemma time_bounds a m :
  wf a -> - 2 ^ 31 <= tv_sec a < 2 ^ 31 -> - 2 ^ 31 < m < 2 ^ 31 ->
  let v := time_abs a in let k := Helper_abs m in
  - 2 ^ 63 <= tv_sec v * k < 2 ^ 63 /\ - 2 ^ 63 <= tv_usec v * k < 2 ^ 63 /\
  - 2 ^ 63 <= tv_sec v * k + tv_usec v * k < 2 ^ 63 /\
  (k <> 0 -> - 2 ^ 63 <= (tv_sec v - Z.quot (tv_sec v) k * k) * USEC_MAX + tv_usec v < 2 ^ 63).
Proof.
  intros H HS HM v k. destruct (abs_spec a H) as (W & A & P & _). fold v in W, A, P.
  assert (0 <= k < 2 ^ 31) by (subst k; rewrite helper_abs_spec; lia).
  assert (0 <= tv_sec v <= 2 ^ 31) by (time_unfold; lia). time_unfold.
  change (2 ^ 63) with 9223372036854775808. change (2 ^ 31) with 2147483648 in *.
  assert (0 <= tv_sec v * k <= 2147483648 * 2147483647)
    by (split; [apply Z.mul_nonneg_nonneg | apply Z.mul_le_mono_nonneg]; lia).
  assert (0 <= tv_usec v * k <= 999999 * 2147483647)
    by (split; [apply Z.mul_nonneg_nonneg | apply Z.mul_le_mono_nonneg]; lia).
  split; [lia|]. split; [lia|]. split; [lia|]. intros K. rewrite Z.quot_div_nonneg by lia.
  pose proof (Z.mod_pos_bound (tv_sec v) k ltac:(lia)). pose proof (Z.div_mod (tv_sec v) k K). lia.
Qed.

Lemma lt_spec a b : wf a -> wf b -> time_lt a b = (microseconds a <? microseconds b).
Proof. unfold time_lt. time_unfold. intros. lia. Qed.

Lemma eq_spec a b : wf a -> wf b -> time_eq a b = (microseconds a =? microseconds b).
Proof. unfold time_eq. time_unfold. intros. lia. Qed.

(** ** Claims *)

(** on normalised times the arithmetic of [Time] is exact arithmetic on
    microseconds, division truncating toward zero, and every result is
    normalised again, for all signs of the operands. *)
Theorem time_arith_exact a b m d :
  wf a -> wf b -> d <> 0 ->
  (wf (time_add a b) /\ microseconds (time_add a b) = microseconds a + microseconds b) /\
  (wf (time_sub a b) /\ microseconds (time_sub a b) = microseconds a - microseconds b) /\
  (wf (time_neg a) /\ microseconds (time_neg a) = - microseconds a) /\
  (wf (time_abs a) /\ microseconds (time_abs a) = Z.abs (microseconds a)) /\
  (wf (time_mul a m) /\ microseconds (time_mul a m) = microseconds a * m) /\
  (wf (time_div a d) /\ microseconds (time_div a d) = Z.quot (microseconds a) d).
Proof.
  intros Ha Hb Hd. destruct (abs_spec a Ha) as (W & A & _).
  auto 10 using time_add_spec, time_sub_spec, neg_spec, time_mul_spec, time_div_spec.
Qed.

Lemma time_arith_exact_witness :
  let a := mkTime (-2) 999999 in let b := mkTime 1 3 in
  (wf (time_add a b) /\ microseconds (time_add a b) = microseconds a + microseconds b) /\
  (wf (time_sub a b) /\ microseconds (time_sub a b) = microseconds a - microseconds b) /\
  (wf (time_neg a) /\ microseconds (time_neg a) = - microseconds a) /\
  (wf (time_abs a) /\ microseconds (time_abs a) = Z.abs (microseconds a)) /\
  (wf (time_mul a (-7)) /\ microseconds (time_mul a (-7)) = microseconds a * (-7)) /\
  (wf (time_div a 3) /\ microseconds (time_div a 3) = Z.quot (microseconds a) 3).
Proof.
  apply (time_arith_exact (mkTime (-2) 999999) (mkTime 1 3) (-7) 3);
    [unfold wf, USEC_MAX; cbn; lia|unfold wf, USEC_MAX; cbn; lia|lia].
Defined.

(** the comparison operators order normalised times by their
    microseconds; [print] gives the sign and the parts of that number; [pack]
    and [unpack] keep the time exactly when its seconds fit 32 bits. *)
Theorem time_order_print_pack a b :
  wf a -> wf b ->
  time_lt a b = (microseconds a <? microseconds b) /\
  time_le a b = (microseconds a <=? microseconds b) /\
  time_eq a b = (microseconds a =? microseconds b) /\
  (microseconds a = sign (print a) * (integer_part (print a) * USEC_MAX + fractional_part (print a)) /\
   0 <= integer_part (print a) /\ 0 <= fractional_part (print a) < USEC_MAX /\
   sign (print a) = Z.sgn (microseconds a)) /\
  (time_unpack (time_pack a) = a <-> - 2 ^ 31 <= tv_sec a < 2 ^ 31).
Proof.
  intros Ha Hb. split; [now apply lt_spec|]. split; [unfold time_le; rewrite lt_spec by easy; lia|].
  split; [now apply eq_spec|]. split.
  - unfold print. time_unfold.
    destruct (Z.ltb_spec 0 (tv_sec a)); [cbn [sign integer_part fractional_part]; lia|].
    destruct (Z.eqb_spec (tv_sec a) 0); destruct (Z.eqb_spec (tv_usec a) 0);
      cbn [negb sign integer_part fractional_part]; lia.
  - unfold time_unpack, time_pack. cbn [fst snd]. split.
    + intros E. rewrite <- E. cbn [tv_sec]. unfold wraps.
      pose proof (Z.mod_pos_bound (tv_sec a + 2 ^ (32 - 1)) (2 ^ 32) ltac:(lia)). change (32 - 1) with 31 in *. lia.
    + intros R. time_unfold. rewrite !wraps_small by (change (32 - 1) with 31; lia). now destruct a.
Qed.

Lemma time_order_print_pack_witness :
  let a := mkTime (-2) 250000 in let b := mkTime 0 1 in
  time_lt a b = (microseconds a <? microseconds b) /\
  time_le a b = (microseconds a <=? microseconds b) /\
  time_eq a b = (microseconds a =? microseconds b) /\
  (microseconds a = sign (print a) * (integer_part (print a) * USEC_MAX + fractional_part (print a)) /\
   0 <= integer_part (print a) /\ 0 <= fractional_part (print a) < USEC_MAX /\
   sign (print a) = Z.sgn (microseconds a)) /\
  (time_unpack (time_pack a) = a <-> - 2 ^ 31 <= tv_sec a < 2 ^ 31).
Proof.
  apply (time_order_print_pack (mkTime (-2) 250000) (mkTime 0 1)); unfold wf, USEC_MAX; cbn; lia.
Defined.
