(* ===== verification/Calendar.v ===== *)
(** * Calendar: the conversions between time_t and tm of src/src/Generics/Time.cpp

    [gm_to_time] and [time_to_gm] with the table [DAYS].  The abstract
    specification is the proleptic Gregorian calendar ([days_of_date]). *)

From Stdlib Require Import ZArith List Bool Lia.
From S2P Require Import Prelude.
Import ListNotations.

(** The fields of [tm] the library uses. *)
Record tm : Type := mkTm {
  tm_sec : Z; tm_min : Z; tm_hour : Z; tm_mday : Z; tm_mon : Z; tm_year : Z;
  tm_wday : Z; tm_yday : Z }.

Definition DAYS : list (list Z) := [
  [0; 31; 59; 90; 120; 151; 181; 212; 243; 273; 304; 334];
  [0; 31; 60; 91; 121; 152; 182; 213; 244; 274; 305; 335]].

Definition days_row (leap : bool) : list Z := nth (if leap then 1 else 0) DAYS [].

(** [tm_mon] indexes the row: outside 0..11 the read is undefined. *)
Definition gm_to_time (et : tm) : outcome Z :=
  let YEARS := tm_year et - 70 in
  if tm_mon et <? 0 then Undef
  else
    d <- rd (days_row (Z.land YEARS 3 =? 2)) (Z.to_nat (tm_mon et)) ;;
    Ret ((YEARS * 365 + Z.quot (YEARS + 1) 4 + d + tm_mday et - 1) * 86400 +
         tm_hour et * 3600 + tm_min et * 60 + tm_sec et).

(** [std::lower_bound(first, last, value)] on the cells [l]: the offset of the
    first that is not less. *)
Fixpoint lower_bound (l : list Z) (value : Z) : nat :=
  match l with
  | [] => 0
  | x :: l' => if x <? value then S (lower_bound l' value) else 0
  end.

Definition time_to_gm (time : Z) : tm :=
  let sec := Z.rem time 60 in
  let time := Z.quot time 60 in
  let min := Z.rem time 60 in
  let time := Z.quot time 60 in
  let hour := Z.rem time 24 in
  let time := Z.quot time 24 in
  let wday := Z.rem (time + 4) 7 in
  let years := Z.quot time (4 * 365 + 1) * 4 in
  let time := Z.rem time (4 * 365 + 1) in
  let '(years, time, leap) :=
    if 365 <=? time then
      if 365 * 2 <=? time then
        if 365 * 3 + 1 <=? time then (years + 3, time - (365 * 3 + 1), false)
        else (years + 2, time - 365 * 2, true)
      else (years + 1, time - 365, false)
    else (years, time, false) in
  let CDAYS := days_row leap in
  (* lower_bound(CDAYS + 1, CDAYS + 12, ++time) - 1 is an offset in CDAYS + 0 *)
  let MONTH := lower_bound (tl CDAYS) (time + 1) in
  {| tm_sec := sec; tm_min := min; tm_hour := hour;
     tm_mday := time + 1 - nth MONTH CDAYS 0; tm_mon := Z.of_nat MONTH;
     tm_year := years + 70; tm_wday := wday; tm_yday := time |}.

Example gm_1 : time_to_gm 951782400 = mkTm 0 0 0 29 1 100 2 59.
Proof. reflexivity. Qed.

(** ** The Gregorian calendar *)

Definition is_leap (y : Z) : bool :=
  (y mod 4 =? 0) && (negb (y mod 100 =? 0) || (y mod 400 =? 0)).

Definition month_days (y : Z) (mon : Z) : Z :=
  match mon with
  | 1 => if is_leap y then 29 else 28
  | 3 | 5 | 8 | 10 => 30
  | _ => 31
  end.

(** Leap days before the first of January of [y]. *)
Definition leaps (y : Z) : Z := (y - 1) / 4 - (y - 1) / 100 + (y - 1) / 400.

(** Days from 1970-01-01 to the date [y]-[mon + 1]-[mday]. *)
Definition days_of_date (y mon mday : Z) : Z :=
  365 * (y - 1970) + (leaps y - leaps 1970) +
  fold_left Z.add (map (fun m => month_days y (Z.of_nat m)) (seq 0 (Z.to_nat mon))) 0 + (mday - 1).

Definition valid_date (y mon mday : Z) : Prop :=
  0 <= mon <= 11 /\ 1 <= mday <= month_days y mon.

(** ** Facts: the months of a year, by running over its days *)

Definition month_ok (leap : bool) (d : Z) : bool :=
  let CDAYS := days_row leap in
  let m := lower_bound (tl CDAYS) (d + 1) in
  let mday := d + 1 - nth m CDAYS 0 in
  let y := if leap then 1972 else 1970 in
  (m <? 12)%nat && (1 <=? mday) && (mday <=? month_days y (Z.of_nat m)).

Lemma month_facts (leap : bool) d : 0 <= d < (if leap then 366 else 365) ->
  month_ok leap d = true.
Proof.
  intros H. assert (forallb (fun n => month_ok leap (Z.of_nat n)) (seq 0 (if leap then 366 else 365)%nat) = true) as F
    by (destruct leap; vm_compute; reflexivity).
  rewrite forallb_forall in F. specialize (F (Z.to_nat d)).
  rewrite Z2Nat.id in F by lia. apply F, in_seq. destruct leap; lia.
Qed.

Lemma month_days_range y mon : 28 <= month_days y mon <= 31.
Proof.
  unfold month_days. repeat match goal with |- context [match ?x with _ => _ end] => destruct x end; lia.
Qed.

Lemma month_days_leap y mon : month_days y mon = month_days (if is_leap y then 1972 else 1970) mon.
Proof. unfold month_days. destruct (is_leap y); reflexivity. Qed.

Lemma land3 y : Z.land y 3 = y mod 4.
Proof. exact (land_mask y 2 ltac:(lia)). Qed.

(** The cumulative table is the sum of the month lengths. *)
Lemma days_row_sum leap m : (m < 12)%nat ->
  rd (days_row leap) m = Ret (nth m (days_row leap) 0) /\
  nth m (days_row leap) 0 =
    fold_left Z.add (map (fun k => month_days (if leap then 1972 else 1970) (Z.of_nat k)) (seq 0 m)) 0.
Proof.
  intros H. do 12 (destruct m as [|m]; [destruct leap; split; reflexivity|]). lia.
Qed.

Lemma leap_row_late m : (m < 12)%nat -> (2 <= m)%nat -> 60 <= nth m (days_row true) 0.
Proof. intros H L. do 12 (destruct m as [|m]; [first [lia | vm_compute; discriminate]|]). lia. Qed.

Lemma sum_leap y m :
  map (fun k => month_days y (Z.of_nat k)) (seq 0 m) =
  map (fun k => month_days (if is_leap y then 1972 else 1970) (Z.of_nat k)) (seq 0 m).
Proof. apply map_ext. intros k. apply month_days_leap. Qed.

(** The library's leap rule: every fourth year, 1972 being one. *)
Definition code_leap (tm_year : Z) : bool := Z.land (tm_year - 70) 3 =? 2.

Lemma gm_to_time_ret et : 0 <= tm_mon et <= 11 ->
  gm_to_time et = Ret (((tm_year et - 70) * 365 + Z.quot (tm_year et - 70 + 1) 4 +
    nth (Z.to_nat (tm_mon et)) (days_row (code_leap (tm_year et))) 0 + tm_mday et - 1) * 86400 +
    tm_hour et * 3600 + tm_min et * 60 + tm_sec et).
Proof.
  intros H. unfold gm_to_time. rewrite (proj2 (Z.ltb_ge _ _)) by lia.
  fold (code_leap (tm_year et)).
  now rewrite (proj1 (days_row_sum (code_leap (tm_year et)) (Z.to_nat (tm_mon et)) ltac:(lia))).
Qed.

(** Cases of the four-year cycle. *)
Lemma cycle_split days : 0 <= days ->
  let r := days mod 1461 in
  let '(i, yday, leap) :=
    if 365 <=? r then if 730 <=? r then if 1096 <=? r then (3, r - 1096, false) else (2, r - 730, true)
      else (1, r - 365, false) else (0, r, false) in
  0 <= yday < (if leap then 366 else 365) /\ 0 <= i <= 3 /\ leap = (i =? 2) /\
  days = (4 * (days / 1461) + i) * 365 + (4 * (days / 1461) + i + 1) / 4 + yday.
Proof.
  intros H r. pose proof (Z.mod_pos_bound days 1461 ltac:(lia)). pose proof (Z.div_mod days 1461 ltac:(lia)) as DM.
  fold r in DM, H0. set (q := days / 1461) in *. clearbody q r.
  destruct (Z.leb_spec 365 r); [destruct (Z.leb_spec 730 r); [destruct (Z.leb_spec 1096 r)|]|];
    (split; [lia|split; [lia|split; [reflexivity|Z.div_mod_to_equations; lia]]]).
Qed.

(** [time_to_gm] of a non-negative time, with the day number and the cycle
    named. *)
Lemma time_to_gm_spec t : 0 <= t ->
  exists i yday m,
  let days := t / 86400 in
  let q := days / 1461 in
  let leap := i =? 2 in
  0 <= i <= 3 /\ 0 <= yday < (if leap then 366 else 365) /\ (m < 12)%nat /\
  days = (4 * q + i) * 365 + (4 * q + i + 1) / 4 + yday /\
  m = lower_bound (tl (days_row leap)) (yday + 1) /\
  1 <= yday + 1 - nth m (days_row leap) 0 <= month_days (if leap then 1972 else 1970) (Z.of_nat m) /\
  time_to_gm t = mkTm (t mod 60) (t / 60 mod 60) (t / 3600 mod 24)
    (yday + 1 - nth m (days_row leap) 0) (Z.of_nat m) (4 * q + i + 70) ((days + 4) mod 7) yday.
Proof.
  intros H. assert (0 <= t / 86400) as HD by (apply Z.div_pos; lia).
  pose proof (cycle_split (t / 86400) HD) as C. cbv zeta in C. unfold time_to_gm.
  rewrite (Z.rem_mod_nonneg t 60), (Z.quot_div_nonneg t 60) by lia.
  assert (0 <= t / 60) by (apply Z.div_pos; lia).
  rewrite (Z.rem_mod_nonneg (t / 60) 60), (Z.quot_div_nonneg (t / 60) 60) by lia.
  rewrite (Z.div_div t 60 60) by lia. change (60 * 60) with 3600.
  assert (0 <= t / 3600) by (apply Z.div_pos; lia).
  rewrite (Z.rem_mod_nonneg (t / 3600) 24), (Z.quot_div_nonneg (t / 3600) 24) by lia.
  rewrite (Z.div_div t 3600 24) by lia. change (3600 * 24) with 86400.
  set (days := t / 86400) in *. cbv zeta.
  rewrite (Z.rem_mod_nonneg (days + 4) 7) by lia.
  change (4 * 365 + 1) with 1461. change (365 * 2) with 730. change (365 * 3 + 1) with 1096.
  rewrite (Z.rem_mod_nonneg days 1461), (Z.quot_div_nonneg days 1461) by lia.
  set (r := days mod 1461) in *. set (q := days / 1461) in *.
  destruct (365 <=? r); [destruct (730 <=? r); [destruct (1096 <=? r)|]|]; cbv beta iota in C |- *;
    destruct C as (C1 & C2 & _ & C3);
    match type of C3 with _ = (4 * q + ?i) * 365 + _ + ?y =>
      exists i, y;
      pose proof (month_facts (i =? 2) y C1) as MF; unfold month_ok in MF;
      exists (lower_bound (tl (days_row (i =? 2))) (y + 1)) end;
    cbv zeta in MF; bools; apply Nat.ltb_lt in H2;
    (split; [exact C2|]); (split; [exact C1|]); (split; [exact H2|]); (split; [exact C3|]);
    (split; [reflexivity|]); (split; [exact (conj H4 H3)|]);
    rewrite (Z.mul_comm q 4), ?Z.add_0_r; reflexivity.
Qed.

(** Days before a year of the library's calendar, counted from 1970. *)
Definition year_start (n : Z) : Z := n * 365 + (n + 1) / 4.

Lemma code_leap_mod n : code_leap (n + 70) = (n mod 4 =? 2).
Proof. unfold code_leap. rewrite land3. do 2 f_equal. lia. Qed.

Lemma year_start_step n : year_start (n + 1) = year_start n + (if n mod 4 =? 2 then 366 else 365).
Proof. unfold year_start. destruct (Z.eqb_spec (n mod 4) 2); Z.div_mod_to_equations; lia. Qed.

Lemma year_start_mono n k : 0 <= k -> year_start n + 365 * k <= year_start (n + k).
Proof. unfold year_start. intros H. Z.div_mod_to_equations. lia. Qed.

Lemma year_start_unique n1 d1 n2 d2 :
  0 <= d1 < (if n1 mod 4 =? 2 then 366 else 365) -> 0 <= d2 < (if n2 mod 4 =? 2 then 366 else 365) ->
  year_start n1 + d1 = year_start n2 + d2 -> n1 = n2 /\ d1 = d2.
Proof.
  intros H1 H2 E.
  assert (forall a da b db, 0 <= da < (if a mod 4 =? 2 then 366 else 365) -> 0 <= db ->
    year_start a + da = year_start b + db -> ~ a < b) as ST.
  { intros a da b db Ha Hb E' L. pose proof (year_start_step a) as S.
    pose proof (year_start_mono (a + 1) (b - a - 1) ltac:(lia)) as M.
    replace (a + 1 + (b - a - 1)) with b in M by lia. lia. }
  pose proof (ST n1 d1 n2 d2 H1 ltac:(lia) E). pose proof (ST n2 d2 n1 d1 H2 ltac:(lia) ltac:(lia)).
  assert (n1 = n2) by lia. subst. split; [easy|lia].
Qed.

Definition date_ok (leap : bool) (m : nat) (mday : Z) : bool :=
  implb (mday <=? month_days (if leap then 1972 else 1970) (Z.of_nat m))
    (Nat.eqb (lower_bound (tl (days_row leap)) (nth m (days_row leap) 0 + mday)) m &&
     (nth m (days_row leap) 0 + mday <=? (if leap then 366 else 365)) && (0 <=? nth m (days_row leap) 0)).

Lemma date_facts (leap : bool) m mday : (m < 12)%nat ->
  1 <= mday <= month_days (if leap then 1972 else 1970) (Z.of_nat m) ->
  lower_bound (tl (days_row leap)) (nth m (days_row leap) 0 + mday) = m /\
  nth m (days_row leap) 0 + mday <= (if leap then 366 else 365) /\ 0 <= nth m (days_row leap) 0.
Proof.
  intros Hm H.
  assert (forallb (fun m => forallb (fun k => date_ok leap m (Z.of_nat k)) (seq 1 31)) (seq 0 12) = true) as F
    by (destruct leap; vm_compute; reflexivity).
  rewrite forallb_forall in F. specialize (F m ltac:(apply in_seq; lia)). cbv beta in F.
  rewrite forallb_forall in F. specialize (F (Z.to_nat mday)). rewrite Z2Nat.id in F by lia.
  pose proof (month_days_range (if leap then 1972 else 1970) (Z.of_nat m)).
  specialize (F ltac:(apply in_seq; lia)). unfold date_ok in F. rewrite (proj2 (Z.leb_le mday _)) in F by lia.
  cbn [implb] in F. apply andb_true_iff in F as [F F3]. apply andb_true_iff in F as [F1 F2].
  apply Nat.eqb_eq in F1. bools. auto.
Qed.

Lemma secs_of_day t : 0 <= t ->
  t = t / 86400 * 86400 + t / 3600 mod 24 * 3600 + t / 60 mod 60 * 60 + t mod 60.
Proof. intros H. Z.div_mod_to_equations. lia. Qed.

Lemma days_of_time d h m s : 0 <= h < 24 -> 0 <= m < 60 -> 0 <= s < 60 ->
  let t := d * 86400 + h * 3600 + m * 60 + s in
  t / 86400 = d /\ t / 3600 mod 24 = h /\ t / 60 mod 60 = m /\ t mod 60 = s.
Proof. intros. subst t. Z.div_mod_to_equations. lia. Qed.

Lemma gm_inverse t : 0 <= t -> gm_to_time (time_to_gm t) = Ret t.
Proof.
  intros H. destruct (time_to_gm_spec t H) as (i & yday & m & Hi & Hy & Hm & D & _ & _ & E).
  cbv zeta in *. rewrite E. rewrite gm_to_time_ret by (cbn [tm_mon]; lia).
  cbn [tm_year tm_mon tm_mday tm_hour tm_min tm_sec]. rewrite Nat2Z.id.
  rewrite code_leap_mod. set (q := t / 86400 / 1461) in *.
  assert (0 <= q) by (apply Z.div_pos; [apply Z.div_pos|]; lia).
  assert ((4 * q + i) mod 4 = i) as -> by (Z.div_mod_to_equations; lia).
  replace (4 * q + i + 70 - 70) with (4 * q + i) by lia. rewrite Z.quot_div_nonneg by lia.
  f_equal. rewrite (secs_of_day t H) at 4. rewrite D. lia.
Qed.

(** ** Claims *)

Lemma time_kept t :
  0 <= t ->
  gm_to_time (time_to_gm t) = Ret t /\
  (let et := time_to_gm t in
   0 <= tm_sec et < 60 /\ 0 <= tm_min et < 60 /\ 0 <= tm_hour et < 24 /\ 0 <= tm_mon et <= 11 /\
   1 <= tm_mday et <= 31 /\ 0 <= tm_wday et < 7 /\ 0 <= tm_yday et < 366 /\ 70 <= tm_year et).
Proof.
  intros H. split; [now apply gm_inverse|].
  destruct (time_to_gm_spec t H) as (i & yday & m & Hi & Hy & Hm & D & _ & HM & E).
  cbv zeta in *. rewrite E. cbn [tm_year tm_mon tm_mday tm_hour tm_min tm_sec tm_wday tm_yday].
  pose proof (Z.mod_pos_bound t 60). pose proof (Z.mod_pos_bound (t / 60) 60).
  pose proof (Z.mod_pos_bound (t / 3600) 24). pose proof (Z.mod_pos_bound (t / 86400 + 4) 7).
  assert (0 <= t / 86400 / 1461) by (apply Z.div_pos; [apply Z.div_pos|]; lia).
  assert (month_days (if i =? 2 then 1972 else 1970) (Z.of_nat m) <= 31).
  { apply month_days_range. }
  repeat split; try lia. destruct (i =? 2); lia.
Qed.

(** A date of the library's calendar: years from 1970, its leap rule. *)
Definition code_date (et : tm) : Prop :=
  70 <= tm_year et /\ 0 <= tm_mon et <= 11 /\
  1 <= tm_mday et <= month_days (if code_leap (tm_year et) then 1972 else 1970) (tm_mon et) /\
  0 <= tm_hour et < 24 /\ 0 <= tm_min et < 60 /\ 0 <= tm_sec et < 60.

Lemma date_kept et :
  code_date et ->
  exists t, gm_to_time et = Ret t /\ 0 <= t /\
    let et' := time_to_gm t in
    tm_year et' = tm_year et /\ tm_mon et' = tm_mon et /\ tm_mday et' = tm_mday et /\
    tm_hour et' = tm_hour et /\ tm_min et' = tm_min et /\ tm_sec et' = tm_sec et.
Proof.
  intros (HY & HM & HD & HH & HMi & HS). rewrite gm_to_time_ret by easy.
  set (n := tm_year et - 70) in *. replace (tm_year et) with (n + 70) in * by (subst n; lia).
  rewrite code_leap_mod in *. rewrite Z.quot_div_nonneg by lia.
  set (m := Z.to_nat (tm_mon et)). replace (tm_mon et) with (Z.of_nat m) in * by (subst m; lia).
  destruct (date_facts (n mod 4 =? 2) m (tm_mday et) ltac:(lia) HD) as (F1 & F2 & F3).
  set (base := nth m (days_row (n mod 4 =? 2)) 0) in *.
  set (d := n * 365 + (n + 1) / 4 + base + tm_mday et - 1).
  destruct (days_of_time d (tm_hour et) (tm_min et) (tm_sec et) HH HMi HS) as (T1 & T2 & T3 & T4).
  set (t := d * 86400 + tm_hour et * 3600 + tm_min et * 60 + tm_sec et) in *.
  assert (0 <= d) by (subst d; Z.div_mod_to_equations; lia).
  exists t. split; [reflexivity|]. split; [lia|]. cbv zeta.
  destruct (time_to_gm_spec t ltac:(lia)) as (i & yday & m' & Hi & Hy & Hm & D & LB & _ & E).
  cbv zeta in *. rewrite T1 in *. set (q := d / 1461) in *.
  destruct (year_start_unique (4 * q + i) yday n (base + tm_mday et - 1)) as [N Y].
  - now assert ((4 * q + i) mod 4 = i) as -> by (Z.div_mod_to_equations; lia).
  - destruct (n mod 4 =? 2); lia.
  - unfold year_start. lia.
  - assert (n mod 4 = i) as I by (rewrite <- N; Z.div_mod_to_equations; lia).
    rewrite E. cbn [tm_year tm_mon tm_mday tm_hour tm_min tm_sec]. rewrite I in *.
    assert (m' = m) as ->.
    { rewrite LB, Y. replace (base + tm_mday et - 1 + 1) with (base + tm_mday et) by lia. exact F1. }
    replace (nth m (days_row (i =? 2)) 0) with base by (subst base; now rewrite I).
    repeat split; try lia; easy.
Qed.

(** the two conversions invert each other.  For every time not before 1970,
    without limit on the year, [gm_to_time] of the broken-down time that
    [time_to_gm] produces is that time, and the fields are in their ranges;
    conversely from a date and time of day with its fields in range [gm_to_time]
    gives a non-negative time from which [time_to_gm] recovers the same date
    and time (and sets the week day and the day of the year). *)
Theorem gm_time_roundtrip t et :
  0 <= t -> code_date et ->
  (gm_to_time (time_to_gm t) = Ret t /\
   let et1 := time_to_gm t in
   0 <= tm_sec et1 < 60 /\ 0 <= tm_min et1 < 60 /\ 0 <= tm_hour et1 < 24 /\ 0 <= tm_mon et1 <= 11 /\
   1 <= tm_mday et1 <= 31 /\ 0 <= tm_wday et1 < 7 /\ 0 <= tm_yday et1 < 366 /\ 70 <= tm_year et1) /\
  exists t', gm_to_time et = Ret t' /\ 0 <= t' /\
    let et' := time_to_gm t' in
    tm_year et' = tm_year et /\ tm_mon et' = tm_mon et /\ tm_mday et' = tm_mday et /\
    tm_hour et' = tm_hour et /\ tm_min et' = tm_min et /\ tm_sec et' = tm_sec et.
Proof. intros Ht He. split; [now apply time_kept|now apply date_kept]. Qed.

Lemma gm_time_roundtrip_witness :
  gm_to_time (time_to_gm 1330473600) = Ret 1330473600 /\
  exists t', gm_to_time (mkTm 59 30 23 29 1 112 0 0) = Ret t' /\ tm_mday (time_to_gm t') = 29.
Proof.
  destruct (gm_time_roundtrip 1330473600 (mkTm 59 30 23 29 1 112 0 0)) as [[H1 _] (t' & H2 & _ & H3)];
    [lia|repeat split; discriminate|].
  split; [exact H1|]. exists t'. split; [exact H2|apply H3].
Defined.

(** from 1970 up to the end of February 2100 the conversion agrees with
    the Gregorian calendar: the date is a valid one, it is the one whose day
    number is the day of the time, and the week day follows; the next day the
    library shows a 29 February 2100 that does not exist. *)
Theorem time_to_gm_gregorian t :
  0 <= t < 4107542400 ->
  let et := time_to_gm t in
  let y := tm_year et + 1900 in
  valid_date y (tm_mon et) (tm_mday et) /\
  days_of_date y (tm_mon et) (tm_mday et) = t / 86400 /\
  t = days_of_date y (tm_mon et) (tm_mday et) * 86400 +
      tm_hour et * 3600 + tm_min et * 60 + tm_sec et /\
  tm_wday et = (t / 86400 + 4) mod 7 /\
  (tm_year (time_to_gm 4107542400) = 200 /\ tm_mon (time_to_gm 4107542400) = 1 /\
   tm_mday (time_to_gm 4107542400) = 29 /\ is_leap 2100 = false).
Proof.
  intros [H0 H1]. destruct (time_to_gm_spec t H0) as (i & yday & m & Hi & Hy & Hm & D & _ & HM & E).
  cbv zeta in *. rewrite E. cbn [tm_year tm_mon tm_mday tm_hour tm_min tm_sec tm_wday].
  pose proof (secs_of_day t H0) as SD. set (days := t / 86400) in *.
  assert (days < 47541) as HD by (subst days; apply Z.div_lt_upper_bound; lia).
  set (q := days / 1461) in *. set (y := 4 * q + i + 70 + 1900).
  assert (0 <= q) by (apply Z.div_pos; [apply Z.div_pos|]; lia).
  pose proof (proj2 (days_row_sum (i =? 2) m Hm)) as RS.
  assert (month_days y (Z.of_nat m) = month_days (if i =? 2 then 1972 else 1970) (Z.of_nat m) /\
          yday + 1 - nth m (days_row (i =? 2)) 0 <= month_days y (Z.of_nat m) /\
          map (fun k => month_days y (Z.of_nat k)) (seq 0 m) =
          map (fun k => month_days (if i =? 2 then 1972 else 1970) (Z.of_nat k)) (seq 0 m) \/
          (y = 2100 /\ i = 2 /\ yday < 59)) as L.
  { destruct (Z.eq_dec y 2100) as [Y|Y]; [right; subst y; Z.div_mod_to_equations; lia|left].
    assert (is_leap y = (i =? 2)) as IL.
    { assert (y < 2100) by (subst y; Z.div_mod_to_equations; lia).
      unfold is_leap. subst y. destruct (Z.eqb_spec i 2); Z.div_mod_to_equations; lia. }
    rewrite (sum_leap y), month_days_leap, IL. repeat split; lia. }
  assert (leaps y - leaps 1970 = (4 * q + i + 1) / 4) as LP.
  { assert (y <= 2100) by (subst y; Z.div_mod_to_equations; lia).
    unfold leaps. subst y. change ((1970 - 1) / 4 - (1970 - 1) / 100 + (1970 - 1) / 400) with 477.
    Z.div_mod_to_equations. lia. }
  assert (1 <= yday + 1 - nth m (days_row (i =? 2)) 0 <= month_days y (Z.of_nat m) /\
          days_of_date y (Z.of_nat m) (yday + 1 - nth m (days_row (i =? 2)) 0) = days) as [VD DD].
  { unfold days_of_date. rewrite Nat2Z.id, LP. destruct L as [(L1 & L2 & L3) | (Y & I & L)].
    - rewrite L3, <- RS. subst y. split; lia.
    - subst i. cbn [Z.eqb Pos.eqb] in *.
      pose proof (leap_row_late m Hm) as LR.
      assert (m = 0 \/ m = 1)%nat as M by lia.
      rewrite Y. assert (q = 32) as -> by lia. rewrite D. destruct M as [-> | ->].
      + change (nth 0 (days_row true) 0) with 0 in *. cbn [seq map fold_left].
        pose proof (month_days_range 1972 (Z.of_nat 0)). cbv beta iota in HM.
        change (month_days 2100 (Z.of_nat 0)) with 31. lia.
      + change (nth 1 (days_row true) 0) with 31 in *. cbn [seq map fold_left].
        change (month_days 2100 (Z.of_nat 0)) with 31. change (month_days 2100 (Z.of_nat 1)) with 28. lia. }
  rewrite DD. repeat split; try easy; lia.
Qed.

Lemma time_to_gm_gregorian_witness :
  let et := time_to_gm 1709164800 in
  let y := tm_year et + 1900 in
  valid_date y (tm_mon et) (tm_mday et) /\
  days_of_date y (tm_mon et) (tm_mday et) = 1709164800 / 86400 /\
  1709164800 = days_of_date y (tm_mon et) (tm_mday et) * 86400 +
      tm_hour et * 3600 + tm_min et * 60 + tm_sec et /\
  tm_wday et = (1709164800 / 86400 + 4) mod 7 /\
  (tm_year (time_to_gm 4107542400) = 200 /\ tm_mon (time_to_gm 4107542400) = 1 /\
   tm_mday (time_to_gm 4107542400) = 29 /\ is_leap 2100 = false).
Proof. apply (time_to_gm_gregorian 1709164800). lia. Defined.
