(* ===== verification/TimeFormat.v ===== *)
(** * TimeFormat: parsing and printing of times, src/src/Generics/Time.cpp and
    Time.hpp

    [ExtendedTime::from_str_] and [to_str_] interpret a format; [Time::set],
    [ExtendedTime::format] and the [gm_*]/[set_*] shortcuts are built on them.
    [mktime] and [localtime_r] of the C library are parameters: they serve the
    local time zone only. *)

From Stdlib Require Import ZArith List Bool Lia.
From S2P Require Import Prelude Ascii Numbers Time Calendar.
Import ListNotations.

Inductive TimeZone : Type := TZ_GMT | TZ_LOCAL.

Record ExtendedTime : Type := mkET { et_tm : tm; tm_usec : Z; timezone : TimeZone }.

Definition DAY_NAMES : list (list Z) :=
  [lit "Sun"; lit "Mon"; lit "Tue"; lit "Wed"; lit "Thu"; lit "Fri"; lit "Sat"].
Definition DAYS_FULL : list (list Z) :=
  [lit "Sunday"; lit "Monday"; lit "Tuesday"; lit "Wednesday"; lit "Thursday"; lit "Friday"; lit "Saturday"].
Definition MONTHS : list (list Z) :=
  [lit "Jan"; lit "Feb"; lit "Mar"; lit "Apr"; lit "May"; lit "Jun"; lit "Jul"; lit "Aug"; lit "Sep";
   lit "Oct"; lit "Nov"; lit "Dec"].
Definition MONTHS_FULL : list (list Z) :=
  [lit "January"; lit "February"; lit "March"; lit "April"; lit "May"; lit "June"; lit "July";
   lit "August"; lit "September"; lit "October"; lit "November"; lit "December"].

Definition set_sec (v : Z) (t : tm) : tm :=
  mkTm v (tm_min t) (tm_hour t) (tm_mday t) (tm_mon t) (tm_year t) (tm_wday t) (tm_yday t).
Definition set_min (v : Z) (t : tm) : tm :=
  mkTm (tm_sec t) v (tm_hour t) (tm_mday t) (tm_mon t) (tm_year t) (tm_wday t) (tm_yday t).
Definition set_hour (v : Z) (t : tm) : tm :=
  mkTm (tm_sec t) (tm_min t) v (tm_mday t) (tm_mon t) (tm_year t) (tm_wday t) (tm_yday t).
Definition set_mday (v : Z) (t : tm) : tm :=
  mkTm (tm_sec t) (tm_min t) (tm_hour t) v (tm_mon t) (tm_year t) (tm_wday t) (tm_yday t).
Definition set_mon (v : Z) (t : tm) : tm :=
  mkTm (tm_sec t) (tm_min t) (tm_hour t) (tm_mday t) v (tm_year t) (tm_wday t) (tm_yday t).
Definition set_year (v : Z) (t : tm) : tm :=
  mkTm (tm_sec t) (tm_min t) (tm_hour t) (tm_mday t) (tm_mon t) v (tm_wday t) (tm_yday t).

Definition on_tm (f : tm -> tm) (e : ExtendedTime) : ExtendedTime :=
  mkET (f (et_tm e)) (tm_usec e) (timezone e).

(** ** Parsing *)

(** The messages [from_str_] returns. *)
Inductive from_error : Type :=
| PercentExpected | WeekdayExpected | MonthNameExpected | DayExpected | HoursExpected
| MonthExpected | MinutesExpected | UsecExpected | SecondsExpected | YearExpected
| UnknownSpecifier | CharacterExpected.

(** [check_name]: the text after the name. *)
Definition check_name (src cl : list Z) : option (list Z) :=
  if Caseless_start false cl src then Some (skipn (length cl) src) else None.

Definition check_names (src cl1 cl2 : list Z) : option (list Z) :=
  match check_name src cl1 with
  | Some r => Some r
  | None => check_name src cl2
  end.

(** The loop over the names: the index found and the text after it. *)
Fixpoint find_name (i : Z) (full short : list (list Z)) (src : list Z) : option (Z * list Z) :=
  match full, short with
  | f :: full', s :: short' =>
      match check_names src f s with
      | Some r => Some (i, r)
      | None => find_name (i + 1) full' short' src
      end
  | _, _ => None
  end.

(** The [do ... while (--left && NUMBER( *src))]: [left] cells may be read. *)
Fixpoint read_loop (left : nat) (src : list Z) (number : Z) : Z * list Z * nat :=
  match left, src with
  | S left', c :: src' =>
      let number := number * 10 + (c - chr "0") in
      match left', src' with
      | S _, c2 :: _ => if table_owned NUMBER c2 then read_loop left' src' number else (number, src', left')
      | _, _ => (number, src', left')
      end
  | _, _ => (number, src, left)
  end.

Definition read_number (SIZE : nat) (src : list Z) (strict : bool) : option (Z * list Z) :=
  match src with
  | [] => None
  | c :: _ =>
      if negb (table_owned NUMBER c) || (strict && (length src <? SIZE)%nat) then None
      else
        let '(number, src, rest) := read_loop (min SIZE (length src)) src 0 in
        if negb strict || (rest =? 0)%nat then Some (number, src) else None
  end.

Fixpoint skip_spaces (v : list Z) : list Z :=
  match v with
  | c :: v' => if table_owned SPACE c then skip_spaces v' else v
  | [] => []
  end.

(** A numeric field: its value must satisfy [ok]. *)
Definition number_field (SIZE : nat) (strict : bool) (ok : Z -> bool) (err : from_error) (v : list Z)
  : (Z * list Z) + from_error :=
  match read_number SIZE v strict with
  | Some (n, v') => if ok n then inl (n, v') else inr err
  | None => inr err
  end.

(** One conversion specifier. *)
Definition from_spec (strict : bool) (spec : Z) (v : list Z) (e : ExtendedTime)
  : (list Z * ExtendedTime) + from_error :=
  if spec =? chr "%" then
    match v with
    | c :: v' => if c =? chr "%" then inl (v', e) else inr PercentExpected
    | [] => inr PercentExpected
    end
  else if (spec =? chr "a") || (spec =? chr "A") then
    match find_name 0 DAYS_FULL DAY_NAMES v with
    | Some (_, v') => inl (v', e)
    | None => inr WeekdayExpected
    end
  else if (spec =? chr "b") || (spec =? chr "B") || (spec =? chr "h") then
    match find_name 0 MONTHS_FULL MONTHS v with
    | Some (m, v') => inl (v', on_tm (set_mon m) e)
    | None => inr MonthNameExpected
    end
  else if (spec =? chr "d") || (spec =? chr "e") then
    match number_field 2 strict (fun n => (1 <=? n) && (n <=? 31)) DayExpected v with
    | inl (n, v') => inl (v', on_tm (set_mday n) e)
    | inr x => inr x
    end
  else if spec =? chr "H" then
    match number_field 2 strict (fun n => n <=? 23) HoursExpected v with
    | inl (n, v') => inl (v', on_tm (set_hour n) e)
    | inr x => inr x
    end
  else if spec =? chr "m" then
    match number_field 2 strict (fun n => (1 <=? n) && (n <=? 12)) MonthExpected v with
    | inl (n, v') => inl (v', on_tm (set_mon (n - 1)) e)
    | inr x => inr x
    end
  else if spec =? chr "M" then
    match number_field 2 strict (fun n => n <=? 59) MinutesExpected v with
    | inl (n, v') => inl (v', on_tm (set_min n) e)
    | inr x => inr x
    end
  else if spec =? chr "q" then
    match number_field 6 strict (fun n => n <? USEC_MAX) UsecExpected v with
    | inl (n, v') => inl (v', mkET (et_tm e) n (timezone e))
    | inr x => inr x
    end
  else if spec =? chr "S" then
    match number_field 2 strict (fun n => n <=? 59) SecondsExpected v with
    | inl (n, v') => inl (v', on_tm (set_sec n) e)
    | inr x => inr x
    end
  else if spec =? chr "Y" then
    match number_field 4 strict (fun n => 1970 <=? n) YearExpected v with
    | inl (n, v') => inl (v', on_tm (set_year (n - 1900)) e)
    | inr x => inr x
    end
  else inr UnknownSpecifier.

Fixpoint from_str_ (strict : bool) (format v : list Z) (e : ExtendedTime) : ExtendedTime + from_error :=
  match format with
  | [] => inl e
  | c :: format' =>
      if c =? chr "%" then
        match format' with
        | [] => inr UnknownSpecifier
        | spec :: format'' =>
            match from_spec strict spec v e with
            | inl (v', e') => from_str_ strict format'' v' e'
            | inr x => inr x
            end
        end
      else if negb strict && table_owned SPACE c then from_str_ strict format' (skip_spaces v) e
      else
        match v with
        | c2 :: v' => if c2 =? c then from_str_ strict format' v' e else inr CharacterExpected
        | [] => inr CharacterExpected
        end
  end.

(** ** Printing *)

(** [add_str]: [out] has the text so far, its length is [size]. *)
Definition add_str (length_ : nat) (out src : list Z) : option (list Z) :=
  if (length_ <? length out + length src)%nat then None else Some (out ++ src).

(** [add_num] of a plain number. *)
Definition add_num {I : IntType} (length_ : nat) (out : list Z) (number : Z) : option (list Z) :=
  let (ns, buf) := int_to_str number 64 in
  if ns =? 0 then None else add_str length_ out (firstn (Z.to_nat ns) buf).

(** [add_num<SIZE>]: the digits from the last one. *)
Fixpoint pad_digits (i : nat) (number : Z) (buf : list Z) : list Z :=
  match i with
  | O => buf
  | S i' => pad_digits i' (Z.quot number 10) (u8 (Z.rem number 10 + chr "0") :: buf)
  end.

Definition add_num_pad (SIZE length_ : nat) (out : list Z) (number : Z) : option (list Z) :=
  add_str length_ out (pad_digits SIZE number []).

Section CLibrary.
(** [mktime]: the time ([-1] for failure) and [tm_gmtoff]. *)
Variable mktime : tm -> Z * Z.
Variable localtime_r : Z -> option tm.

Definition ExtendedTime_new (sec usec : Z) (tz : TimeZone) : outcome ExtendedTime :=
  match tz with
  | TZ_GMT => Ret (mkET (time_to_gm sec) usec TZ_GMT)
  | TZ_LOCAL =>
      match localtime_r sec with
      | Some t => Ret (mkET t usec TZ_LOCAL)
      | None => Throw TimeException
      end
  end.

(** [operator Time]. *)
Definition ET_to_Time (e : ExtendedTime) : outcome Time :=
  match timezone e with
  | TZ_LOCAL => Ret (mkTime (fst (mktime (et_tm e))) (tm_usec e))
  | TZ_GMT => sec <- gm_to_time (et_tm e) ;; Ret (mkTime sec (tm_usec e))
  end.

(** The name tables are indexed by the fields: out of range is undefined. *)
Definition name_at (l : list (list Z)) (i : Z) : outcome (list Z) :=
  if i <? 0 then Undef else rd l (Z.to_nat i).

(** One specifier other than [%F] and [%T]; [None] is a returned 0. *)
Definition to_spec (length_ : nat) (spec : Z) (out : list Z) (e : ExtendedTime) : outcome (option (list Z)) :=
  let t := et_tm e in
  if spec =? chr "%" then Ret (if (length out =? length_)%nat then None else Some (out ++ [chr "%"]))
  else if spec =? chr "a" then n <- name_at DAY_NAMES (tm_wday t) ;; Ret (add_str length_ out n)
  else if spec =? chr "A" then n <- name_at DAYS_FULL (tm_wday t) ;; Ret (add_str length_ out n)
  else if (spec =? chr "b") || (spec =? chr "h") then
    n <- name_at MONTHS (tm_mon t) ;; Ret (add_str length_ out n)
  else if spec =? chr "B" then n <- name_at MONTHS_FULL (tm_mon t) ;; Ret (add_str length_ out n)
  else if spec =? chr "d" then Ret (add_num_pad 2 length_ out (tm_mday t))
  else if spec =? chr "e" then
    let d := Z.quot (tm_mday t) 10 in
    Ret (add_str length_ out [if negb (d =? 0) then u8 (d + chr "0") else chr " ";
                              u8 (Z.rem (tm_mday t) 10 + chr "0")])
  else if spec =? chr "H" then Ret (add_num_pad 2 length_ out (tm_hour t))
  else if spec =? chr "k" then Ret (add_num (I := Int32) length_ out (tm_hour t))
  else if spec =? chr "m" then Ret (add_num_pad 2 length_ out (tm_mon t + 1))
  else if spec =? chr "M" then Ret (add_num_pad 2 length_ out (tm_min t))
  else if spec =? chr "q" then Ret (add_num_pad 6 length_ out (tm_usec e))
  else if spec =? chr "s" then
    tv <- ET_to_Time e ;; Ret (add_num (I := Int64) length_ out (tv_sec tv))
  else if spec =? chr "S" then Ret (add_num_pad 2 length_ out (tm_sec t))
  else if spec =? chr "Y" then Ret (add_num_pad 4 length_ out (tm_year t + 1900))
  else if spec =? chr "z" then
    match timezone e with
    | TZ_GMT => Ret (add_str length_ out (lit "+0000"))
    | TZ_LOCAL =>
        let (r, diff) := mktime t in
        if r =? -1 then Ret None
        else
          let '(diff, SIGN) := if diff <? 0 then (- diff, chr "-") else (diff, chr "+") in
          match add_str length_ out [SIGN] with
          | None => Ret None
          | Some out =>
              let diff := Z.quot diff 60 in
              Ret (add_num_pad 4 length_ out (Z.quot diff 60 * 100 + Z.rem diff 60))
          end
    end
  else Ret None.

(** [to_str_]; [%F] and [%T] call it again on a format without them.  The
    fuel is the nesting left. *)
Fixpoint to_str_ (depth length_ : nat) (format out : list Z) (e : ExtendedTime) {struct depth}
  : outcome (option (list Z)) :=
  match depth with
  | O => Undef
  | S depth' =>
      (fix scan (format out : list Z) {struct format} : outcome (option (list Z)) :=
         match format with
         | [] => Ret (Some out)
         | c :: format' =>
             if c =? chr "%" then
               match format' with
               | [] => Ret None
               | spec :: format'' =>
                   r <- (if (spec =? chr "F") || (spec =? chr "T") then
                           r <- to_str_ depth' (length_ - length out)
                                  (if spec =? chr "F" then lit "%Y-%m-%d" else lit "%H:%M:%S") [] e ;;
                           Ret (match r with
                                | Some (x :: res) => Some (out ++ x :: res)
                                | _ => None
                                end)
                         else to_spec length_ spec out e) ;;
                   match r with
                   | Some out' => scan format'' out'
                   | None => Ret None
                   end
               end
             else if (length out =? length_)%nat then Ret None
             else scan format' (out ++ [c])
         end) format out
  end.

(** [ExtendedTime::format]: an empty text is a failure too. *)
Definition format (fmt : option (list Z)) (e : ExtendedTime) : outcome (list Z) :=
  match fmt with
  | None => Throw InvalidArgument
  | Some fmt =>
      r <- to_str_ 2 256 fmt [] e ;;
      match r with
      | Some (x :: str) => Ret (x :: str)
      | _ => Throw TimeException
      end
  end.

(** [Time::set(value, format, strict)]. *)
Definition time_set (value : list Z) (fmt : option (list Z)) (strict : bool) : outcome Time :=
  match fmt with
  | None => Throw InvalidArgument
  | Some fmt =>
      time <- ExtendedTime_new 0 0 TZ_GMT ;;
      match from_str_ strict fmt value time with
      | inl time => ET_to_Time time
      | inr _ => Throw TimeException
      end
  end.

Definition get_gm_time (t : Time) : outcome ExtendedTime := ExtendedTime_new (tv_sec t) (tv_usec t) TZ_GMT.

Definition gm_f (t : Time) : outcome (list Z) := e <- get_gm_time t ;; format (Some (lit "%F")) e.
Definition gm_ft (t : Time) : outcome (list Z) := e <- get_gm_time t ;; format (Some (lit "%F %T")) e.
Definition set_f (value : list Z) (strict : bool) : outcome Time :=
  time_set value (Some (lit "%Y-%m-%d")) strict.
Definition set_ft (value : list Z) (strict : bool) : outcome Time :=
  time_set value (Some (lit "%Y-%m-%d %H:%M:%S")) strict.
End CLibrary.

Example fmt_1 : gm_ft (fun _ => (0, 0)) (fun _ => None) (mkTime 1330473600 0) = Ret (lit "2012-02-29 00:00:00").
Proof. reflexivity. Qed.
Example fmt_2 : set_ft (fun _ => (0, 0)) (fun _ => None) (lit "2012-02-29 00:00:00") true = Ret (mkTime 1330473600 0).
Proof. reflexivity. Qed.

(** ** Facts: padded numbers *)

Lemma pad_digits_spec k : forall n, 0 <= n < 10 ^ Z.of_nat k ->
  exists ds, (forall buf, pad_digits k n buf = ds ++ buf) /\ length ds = k /\
    forallb is_digit ds = true /\ dec_from 0 ds = n.
Proof.
  induction k as [|k IH]; intros n Hn.
  { exists []. cbn in Hn. repeat split. cbn. lia. }
  rewrite Nat2Z.inj_succ, Z.pow_succ_r in Hn by lia.
  destruct (IH (n / 10)) as (ds & E & L & D & V); [Z.div_mod_to_equations; lia|].
  assert (u8 (Z.rem n 10 + chr "0") = 48 + n mod 10) as C.
  { rewrite Z.rem_mod_nonneg by lia. change (chr "0") with 48.
    pose proof (Z.mod_pos_bound n 10). rewrite wrapu_small by (change (2 ^ 8) with 256; lia). lia. }
  exists (ds ++ [48 + n mod 10]). repeat split.
  - intros buf. cbn [pad_digits]. rewrite C, Z.quot_div_nonneg, E, <- app_assoc by lia. reflexivity.
  - rewrite length_app. cbn. lia.
  - rewrite forallb_app, D. cbn [forallb]. unfold is_digit. pose proof (Z.mod_pos_bound n 10). lia.
  - rewrite dec_from_app, V. unfold dec_from. cbn [fold_left]. pose proof (Z.div_mod n 10). lia.
Qed.

Lemma digit_not_space c : is_digit c = true -> table_owned SPACE c = false.
Proof.
  intros H. assert (is_byte c) as B by (unfold is_digit, is_byte in *; lia).
  assert (implb (is_digit c) (negb (table_owned SPACE c)) = true) as E.
  { clear H. revert c B. apply (byte_forall (fun c => implb (is_digit c) (negb (table_owned SPACE c)))). vm_compute. reflexivity. }
  rewrite H in E. now apply negb_true_iff in E.
Qed.

Lemma read_loop_digits ds : forall rest v, ds <> [] -> forallb is_digit ds = true ->
  read_loop (length ds) (ds ++ rest) v = (dec_from v ds, rest, 0%nat).
Proof.
  induction ds as [|c ds IH]; intros rest v HN HD; [easy|]. cbn [forallb] in HD.
  apply andb_true_iff in HD as [D1 D2].
  change (dec_from v (c :: ds)) with (dec_from (10 * v + (c - 48)) ds).
  cbn [length app read_loop]. change (chr "0") with 48. replace (v * 10 + (c - 48)) with (10 * v + (c - 48)) by lia.
  destruct ds as [|c2 ds]; [reflexivity|]. cbn [length app].
  assert (table_owned NUMBER c2 = true) as -> by (apply digit_number; cbn [forallb] in D2; now bools).
  apply (IH rest); easy.
Qed.

Lemma read_number_digits ds rest strict : ds <> [] -> forallb is_digit ds = true ->
  read_number (length ds) (ds ++ rest) strict = Some (dec_from 0 ds, rest).
Proof.
  intros HN HD. unfold read_number. destruct ds as [|c ds]; [easy|]. cbn [app].
  assert (table_owned NUMBER c = true) as -> by (apply digit_number; cbn [forallb] in HD; now bools).
  rewrite app_comm_cons. rewrite (proj2 (Nat.ltb_ge _ _)) by (rewrite length_app; lia).
  rewrite andb_false_r. cbn [negb orb]. rewrite Nat.min_l by (rewrite length_app; lia).
  rewrite read_loop_digits by easy. now rewrite orb_true_r.
Qed.

Lemma number_field_pad k n strict ok err rest : (0 < k)%nat -> 0 <= n < 10 ^ Z.of_nat k -> ok n = true ->
  number_field k strict ok err (pad_digits k n [] ++ rest) = inl (n, rest).
Proof.
  intros Hk Hn Hok. destruct (pad_digits_spec k n Hn) as (ds & E & L & D & V).
  unfold number_field. rewrite E, app_nil_r. rewrite <- L, read_number_digits; [|destruct ds; cbn in *; [lia|easy]|easy].
  now rewrite V, Hok.
Qed.

Lemma skip_spaces_pad k n rest : (0 < k)%nat -> 0 <= n < 10 ^ Z.of_nat k ->
  skip_spaces (chr " " :: pad_digits k n [] ++ rest) = pad_digits k n [] ++ rest.
Proof.
  intros Hk Hn. destruct (pad_digits_spec k n Hn) as (ds & E & L & D & V). rewrite E, app_nil_r.
  cbn [skip_spaces]. change (table_owned SPACE (chr " ")) with true. cbv iota.
  destruct ds as [|c ds]; [cbn in L; lia|]. cbn [app skip_spaces forallb] in *. bools.
  now rewrite digit_not_space.
Qed.

(** ** Facts: formats *)

(** The fields [%Y-%m-%d %H:%M:%S] can show. *)
Definition printable (t : tm) : Prop :=
  70 <= tm_year t <= 8099 /\ 0 <= tm_mon t <= 11 /\ 1 <= tm_mday t <= 31 /\
  0 <= tm_hour t < 24 /\ 0 <= tm_min t < 60 /\ 0 <= tm_sec t < 60.

Definition date_text (t : tm) : list Z :=
  pad_digits 4 (tm_year t + 1900) [] ++ chr "-" :: pad_digits 2 (tm_mon t + 1) [] ++ chr "-" ::
  pad_digits 2 (tm_mday t) [].

Definition time_text (t : tm) : list Z :=
  pad_digits 2 (tm_hour t) [] ++ chr ":" :: pad_digits 2 (tm_min t) [] ++ chr ":" ::
  pad_digits 2 (tm_sec t) [].

Section Formats.
Variable mktime : tm -> Z * Z.
Variable localtime_r : Z -> option tm.

Lemma format_ft e : format mktime (Some (lit "%F %T")) e = Ret (date_text (et_tm e) ++ chr " " :: time_text (et_tm e)).
Proof. reflexivity. Qed.

Lemma format_f e : format mktime (Some (lit "%F")) e = Ret (date_text (et_tm e)).
Proof. reflexivity. Qed.

Lemma from_char strict c f v e : (c =? chr "%") = false -> table_owned SPACE c = false ->
  from_str_ strict (c :: f) (c :: v) e = from_str_ strict f v e.
Proof. intros H1 H2. cbn [from_str_]. rewrite H1, H2, andb_false_r. now rewrite Z.eqb_refl. Qed.

Lemma from_space strict f k n v e : (0 < k)%nat -> 0 <= n < 10 ^ Z.of_nat k ->
  from_str_ strict (chr " " :: f) (chr " " :: pad_digits k n [] ++ v) e =
  from_str_ strict f (pad_digits k n [] ++ v) e.
Proof.
  intros Hk Hn. cbn [from_str_]. change (chr " " =? chr "%") with false.
  change (table_owned SPACE (chr " ")) with true. cbv iota. destruct strict; cbn [negb andb].
  - now rewrite Z.eqb_refl.
  - now rewrite skip_spaces_pad.
Qed.

(** A numeric specifier reads its padded field. *)
Ltac spec_step :=
  unfold from_spec; cbn -[number_field pad_digits Z.leb Z.ltb Z.add Z.sub on_tm app]; 
  rewrite number_field_pad; [reflexivity|lia|cbn; lia|lia].

Lemma from_Y strict n v e : 1970 <= n < 10000 ->
  from_spec strict (chr "Y") (pad_digits 4 n [] ++ v) e = inl (v, on_tm (set_year (n - 1900)) e).
Proof. intros H. spec_step. Qed.
Lemma from_m strict n v e : 1 <= n <= 12 ->
  from_spec strict (chr "m") (pad_digits 2 n [] ++ v) e = inl (v, on_tm (set_mon (n - 1)) e).
Proof. intros H. spec_step. Qed.
Lemma from_d strict n v e : 1 <= n <= 31 ->
  from_spec strict (chr "d") (pad_digits 2 n [] ++ v) e = inl (v, on_tm (set_mday n) e).
Proof. intros H. spec_step. Qed.
Lemma from_H strict n v e : 0 <= n < 24 ->
  from_spec strict (chr "H") (pad_digits 2 n [] ++ v) e = inl (v, on_tm (set_hour n) e).
Proof. intros H. spec_step. Qed.
Lemma from_M strict n v e : 0 <= n < 60 ->
  from_spec strict (chr "M") (pad_digits 2 n [] ++ v) e = inl (v, on_tm (set_min n) e).
Proof. intros H. spec_step. Qed.
Lemma from_S strict n v e : 0 <= n < 60 ->
  from_spec strict (chr "S") (pad_digits 2 n [] ++ v) e = inl (v, on_tm (set_sec n) e).
Proof. intros H. spec_step. Qed.

Lemma from_percent strict spec f v e v' e' :
  from_spec strict spec v e = inl (v', e') ->
  from_str_ strict (chr "%" :: spec :: f) v e = from_str_ strict f v' e'.
Proof. intros H. cbn [from_str_]. rewrite Z.eqb_refl. now rewrite H. Qed.

Ltac plain_char := rewrite from_char by reflexivity.

Lemma from_date strict t f v e : printable t ->
  from_str_ strict (lit "%Y-%m-%d" ++ f) (date_text t ++ v) e =
  from_str_ strict f v (on_tm (fun x => set_mday (tm_mday t) (set_mon (tm_mon t) (set_year (tm_year t) x))) e).
Proof.
  intros (H1 & H2 & H3 & _). unfold date_text. rewrite <- app_assoc. cbn [lit app].
  rewrite (from_percent _ _ _ _ _ _ _ (from_Y strict (tm_year t + 1900) _ e ltac:(lia))). plain_char.
  rewrite <- app_assoc. cbn [app].
  rewrite (from_percent _ _ _ _ _ _ _ (from_m strict (tm_mon t + 1) _ _ ltac:(lia))). plain_char.
  rewrite (from_percent _ _ _ _ _ _ _ (from_d strict (tm_mday t) _ _ ltac:(lia))).
  replace (tm_year t + 1900 - 1900) with (tm_year t) by lia.
  replace (tm_mon t + 1 - 1) with (tm_mon t) by lia. reflexivity.
Qed.

Lemma from_time strict t f v e : printable t ->
  from_str_ strict (lit "%H:%M:%S" ++ f) (time_text t ++ v) e =
  from_str_ strict f v (on_tm (fun x => set_sec (tm_sec t) (set_min (tm_min t) (set_hour (tm_hour t) x))) e).
Proof.
  intros (_ & _ & _ & H1 & H2 & H3). unfold time_text. rewrite <- app_assoc. cbn [lit app].
  rewrite (from_percent _ _ _ _ _ _ _ (from_H strict _ _ e H1)). plain_char.
  rewrite <- app_assoc. cbn [app].
  rewrite (from_percent _ _ _ _ _ _ _ (from_M strict _ _ _ H2)). plain_char.
  rewrite (from_percent _ _ _ _ _ _ _ (from_S strict _ _ _ H3)). reflexivity.
Qed.

Lemma from_ft strict t e : printable t ->
  from_str_ strict (lit "%Y-%m-%d %H:%M:%S") (date_text t ++ chr " " :: time_text t) e =
  inl (on_tm (fun x => mkTm (tm_sec t) (tm_min t) (tm_hour t) (tm_mday t) (tm_mon t) (tm_year t)
                         (tm_wday x) (tm_yday x)) e).
Proof.
  intros P. change (lit "%Y-%m-%d %H:%M:%S") with (lit "%Y-%m-%d" ++ chr " " :: lit "%H:%M:%S" ++ []).
  rewrite from_date by easy. unfold time_text at 1.
  rewrite from_space by (try lia; destruct P as (_ & _ & _ & P & _); cbn; lia).
  pose proof (from_time strict t [] [] (on_tm (fun x => set_mday (tm_mday t) (set_mon (tm_mon t) (set_year (tm_year t) x))) e) P) as T.
  rewrite (app_nil_r (time_text t)) in T. unfold time_text in T. rewrite T. reflexivity.
Qed.

(** The fields of a broken-down time before the year 10000 are printable. *)
Lemma gm_printable sec : 0 <= sec -> tm_year (time_to_gm sec) <= 8099 -> printable (time_to_gm sec).
Proof.
  intros H Y. destruct (time_to_gm_spec sec H) as (i & yday & m & Hi & Hy & Hm & D & _ & HM & E).
  cbv zeta in *. rewrite E in Y |- *. cbn [tm_year] in Y. unfold printable.
  cbn [tm_year tm_mon tm_mday tm_hour tm_min tm_sec].
  pose proof (Z.mod_pos_bound sec 60). pose proof (Z.mod_pos_bound (sec / 60) 60).
  pose proof (Z.mod_pos_bound (sec / 3600) 24).
  pose proof (month_days_range (if i =? 2 then 1972 else 1970) (Z.of_nat m)).
  assert (0 <= sec / 86400 / 1461) by (apply Z.div_pos; [apply Z.div_pos|]; lia).
  repeat split; lia.
Qed.

(** The time of day dropped: the time of the date alone. *)
Lemma gm_time_of_day sec : 0 <= sec ->
  let t := time_to_gm sec in
  gm_to_time (mkTm 0 0 0 (tm_mday t) (tm_mon t) (tm_year t) (tm_wday t) (tm_yday t)) =
  Ret (sec - sec mod 86400).
Proof.
  intros H t. pose proof (gm_inverse sec H) as G. fold t in G.
  destruct (time_to_gm_spec sec H) as (i & yday & m & Hi & Hy & Hm & D & _ & HM & E).
  cbv zeta in E. fold t in E. assert (0 <= tm_mon t <= 11) as M by (rewrite E; cbn; lia).
  rewrite gm_to_time_ret in G |- * by exact M. cbn [tm_year tm_mon tm_mday tm_hour tm_min tm_sec].
  apply Ret_inj in G. f_equal. pose proof (secs_of_day sec H) as S. rewrite Z.mod_eq by lia.
  assert (tm_hour t = sec / 3600 mod 24) by now rewrite E.
  assert (tm_min t = sec / 60 mod 60) by now rewrite E.
  assert (tm_sec t = sec mod 60) by now rewrite E. lia.
Qed.

Lemma gm_to_time_fields s mi h d mo y w1 y1 w2 y2 :
  gm_to_time (mkTm s mi h d mo y w1 y1) = gm_to_time (mkTm s mi h d mo y w2 y2).
Proof. reflexivity. Qed.
End Formats.

(** ** Claims *)

(** C6: a time from 1970 to 9999 printed by [gm_ft] and parsed by [set_ft],
    strictly or not, is the same time without its microseconds; printed by
    [gm_f] and parsed by [set_f] it is the midnight before it. *)
Theorem time_text_roundtrip mktime localtime_r t strict :
  0 <= tv_sec t -> tm_year (time_to_gm (tv_sec t)) <= 8099 ->
  (exists text, gm_ft mktime localtime_r t = Ret text /\
     set_ft mktime localtime_r text strict = Ret (mkTime (tv_sec t) 0)) /\
  (exists text, gm_f mktime localtime_r t = Ret text /\
     set_f mktime localtime_r text strict = Ret (mkTime (tv_sec t - tv_sec t mod 86400) 0)).
Proof.
  intros H Y. pose proof (gm_printable _ H Y) as P. split.
  - eexists. split; [apply format_ft|]. cbn [et_tm]. unfold set_ft, time_set. cbn [ExtendedTime_new bind].
    rewrite from_ft by exact P. unfold ET_to_Time, on_tm. cbn [timezone et_tm tm_usec].
    erewrite gm_to_time_fields with (w2 := tm_wday (time_to_gm (tv_sec t))) (y2 := tm_yday (time_to_gm (tv_sec t))).
    pose proof (gm_inverse _ H) as G. destruct (time_to_gm (tv_sec t)) as [s mi h d mo y w yd]. cbn [tm_sec tm_min tm_hour tm_mday tm_mon tm_year tm_wday tm_yday] in *.
    now rewrite G.
  - eexists. split; [apply format_f|]. cbn [et_tm]. unfold set_f, time_set. cbn [ExtendedTime_new bind].
    pose proof (from_date strict (time_to_gm (tv_sec t)) [] [] (mkET (time_to_gm 0) 0 TZ_GMT) P) as F.
    rewrite !app_nil_r in F. rewrite F. cbn [from_str_]. unfold ET_to_Time, on_tm. cbn [timezone et_tm tm_usec].
    pose proof (gm_time_of_day _ H) as G. cbv zeta in G.
    destruct (time_to_gm (tv_sec t)) as [s mi h d mo y w yd]. cbn [tm_sec tm_min tm_hour tm_mday tm_mon tm_year tm_wday tm_yday] in *.
    change (time_to_gm 0) with (mkTm 0 0 0 1 0 70 4 0). unfold set_mday, set_mon, set_year.
    cbn [tm_sec tm_min tm_hour tm_mday tm_mon tm_year tm_wday tm_yday].
    erewrite gm_to_time_fields, G. reflexivity.
Qed.

Lemma time_text_roundtrip_witness :
  (exists text, gm_ft (fun _ => (-1, 0)) (fun _ => None) (mkTime 1330558199 5) = Ret text /\
     set_ft (fun _ => (-1, 0)) (fun _ => None) text true = Ret (mkTime 1330558199 0)) /\
  (exists text, gm_f (fun _ => (-1, 0)) (fun _ => None) (mkTime 1330558199 5) = Ret text /\
     set_f (fun _ => (-1, 0)) (fun _ => None) text true = Ret (mkTime (1330558199 - 1330558199 mod 86400) 0)).
Proof.
  apply (time_text_roundtrip (fun _ => (-1, 0)) (fun _ => None) (mkTime 1330558199 5) true);
    [cbn; lia|vm_compute; discriminate].
Defined.
