(* ===== verification/Radix.v ===== *)
(** * Radix: numbers as lists of cells

    The arithmetic of numbers in base [B], the least significant cell first,
    shared by the files that model [Generics::Decimal]: the elements of its
    arrays (base [BASE]) and decimal digits (base 10). *)

From Stdlib Require Import ZArith List Bool Lia.
From S2P Require Import Prelude.
Import ListNotations.

(** Powers with an exponent in [nat]. *)
Definition pw (b : Z) (n : nat) : Z := b ^ Z.of_nat n.

Lemma pw_0 b : pw b 0 = 1.
Proof. reflexivity. Qed.

Lemma pw_S b n : pw b (S n) = b * pw b n.
Proof. unfold pw. now rewrite Nat2Z.inj_succ, Z.pow_succ_r by apply Nat2Z.is_nonneg. Qed.

Lemma pw_1 b : pw b 1 = b.
Proof. unfold pw. apply Z.pow_1_r. Qed.

Lemma pw_add b n m : pw b (n + m) = pw b n * pw b m.
Proof. unfold pw. rewrite Nat2Z.inj_add. apply Z.pow_add_r; lia. Qed.

Lemma pw_pw b n m : pw (pw b n) m = pw b (n * m).
Proof. unfold pw. rewrite Nat2Z.inj_mul. symmetry. apply Z.pow_mul_r; lia. Qed.

Lemma pw_pos b n : 0 < b -> 0 < pw b n.
Proof. intros H. apply Z.pow_pos_nonneg; lia. Qed.

Lemma pw_le b n m : 0 < b -> (n <= m)%nat -> pw b n <= pw b m.
Proof. intros H L. apply Z.pow_le_mono_r; lia. Qed.

Lemma pw_lt b n m : 1 < b -> (n < m)%nat -> pw b n < pw b m.
Proof. intros H L. apply Z.pow_lt_mono_r; lia. Qed.

Lemma pw_split b n m : (n <= m)%nat -> pw b m = pw b n * pw b (m - n).
Proof. intros H. rewrite <- pw_add. f_equal. lia. Qed.

(** The digits of a number between two places. *)
Lemma div_mod_mul x a b : 0 < a -> 0 < b -> x mod (a * b) = x mod a + a * (x / a mod b).
Proof. intros. apply Z.rem_mul_r; lia. Qed.

Lemma mod_div_mul x a b : 0 < a -> 0 < b -> x mod (a * b) / a = x / a mod b.
Proof.
  intros Ha Hb. rewrite div_mod_mul by lia.
  replace (x mod a + a * (x / a mod b)) with ((x / a mod b) * a + x mod a) by lia.
  rewrite Z.div_add_l, (Z.div_small (x mod a)) by (try apply Z.mod_pos_bound; lia). apply Z.add_0_r.
Qed.

Lemma mod_mod_mul x a b : 0 < a -> 0 < b -> x mod (a * b) mod a = x mod a.
Proof.
  intros Ha Hb. rewrite div_mod_mul, Z.mul_comm, Z.mod_add, Z.mod_mod by lia. reflexivity.
Qed.

Lemma div_div_mul x a b : 0 < a -> 0 < b -> x / a / b = x / (a * b).
Proof. intros. apply Z.div_div; lia. Qed.

Lemma div_lt_iff a b c : 0 < b -> a / b < c <-> a < b * c.
Proof.
  intros Hb. split; [|now apply Z.div_lt_upper_bound]. intros H. pose proof (Z.mul_succ_div_gt a b Hb).
  apply Z.lt_le_trans with (b * Z.succ (a / b)); [easy|]. apply Z.mul_le_mono_nonneg_l; lia.
Qed.

Section Radix.
Variable B : Z.
Hypothesis HB : 2 <= B.

Fixpoint val (l : list Z) : Z := match l with [] => 0 | x :: l' => x + B * val l' end.

Definition is_cell (x : Z) : Prop := 0 <= x < B.
Definition cells (l : list Z) : Prop := Forall is_cell l.

Lemma val_app l r : val (l ++ r) = val l + pw B (length l) * val r.
Proof.
  induction l as [|x l IH]; cbn [app val length]; [rewrite pw_0; lia|].
  rewrite IH, pw_S. lia.
Qed.

Lemma val_bound l : cells l -> 0 <= val l < pw B (length l).
Proof using HB.
  induction 1 as [|x l Hx Hl IH]; cbn [val length]; [rewrite pw_0; lia|].
  rewrite pw_S. unfold is_cell in Hx. nia.
Qed.

Lemma val_nonneg l : cells l -> 0 <= val l.
Proof using HB. apply val_bound. Qed.

Lemma val_zeros n : val (repeat 0 n) = 0.
Proof. induction n as [|n IH]; cbn [repeat val]; lia. Qed.

Lemma cells_zeros n : cells (repeat 0 n).
Proof using HB. apply Forall_forall. intros x I. apply repeat_spec in I. subst. unfold is_cell. lia. Qed.

Lemma cells_nth l i : cells l -> is_cell (nth i l 0).
Proof using HB.
  intros H. destruct (Nat.lt_ge_cases i (length l)) as [L|L].
  - eapply (proj1 (Forall_forall _ _)); [exact H|now apply nth_In].
  - rewrite nth_overflow by easy. unfold is_cell. lia.
Qed.

Lemma cells_firstn l n : cells l -> cells (firstn n l).
Proof. intros H. rewrite <- (firstn_skipn n l) in H. now apply Forall_app_inv in H. Qed.

Lemma cells_skipn l n : cells l -> cells (skipn n l).
Proof. apply Forall_skipn. Qed.

(** The parts of a list are the quotient and the remainder of its value. *)
Lemma val_firstn l n : cells l -> val (firstn n l) = val l mod pw B n.
Proof using HB.
  intros H. revert n. induction H as [|x l Hx Hl IH]; intros n.
  - rewrite firstn_nil. now rewrite Z.mod_0_l by (pose proof (pw_pos B n); lia).
  - destruct n as [|n]; cbn [firstn val]; [now rewrite pw_0, Z.mod_1_r|].
    rewrite pw_S, div_mod_mul, IH by (pose proof (pw_pos B n); lia).
    replace (x + B * val l) with (val l * B + x) by lia. rewrite Z.div_add_l by lia.
    rewrite (Z.div_small x), Z.add_0_r by exact Hx.
    rewrite (Z.add_comm (val l * B)), Z.mod_add, (Z.mod_small x) by (try exact Hx; lia). reflexivity.
Qed.

Lemma val_skipn l n : cells l -> val (skipn n l) = val l / pw B n.
Proof using HB.
  intros H. revert n. induction H as [|x l Hx Hl IH]; intros n.
  - rewrite skipn_nil. now rewrite Z.div_0_l by (pose proof (pw_pos B n); lia).
  - destruct n as [|n]; cbn [skipn val]; [now rewrite pw_0, Z.div_1_r|].
    rewrite IH, pw_S, <- div_div_mul by (pose proof (pw_pos B n); lia). f_equal.
    rewrite Z.add_comm, Z.mul_comm, Z.div_add_l, (Z.div_small x) by (unfold is_cell in Hx; lia). lia.
Qed.

Lemma val_nth l i : cells l -> nth i l 0 = val l / pw B i mod B.
Proof using HB.
  intros H. rewrite <- val_skipn by easy. rewrite <- (Nat.add_0_r i) at 1. rewrite <- nth_skipn.
  pose proof (cells_skipn l i H) as C. destruct (skipn i l) as [|x r]; cbn [nth val]; [now rewrite Z.mod_0_l by lia|].
  inversion C as [|? ? Hx ?]; subst. rewrite Z.mul_comm, Z.mod_add, Z.mod_small by (unfold is_cell in Hx; lia). reflexivity.
Qed.

Lemma val_inj l r : cells l -> cells r -> length l = length r -> val l = val r -> l = r.
Proof using HB.
  intros Hl. revert r. induction Hl as [|x l Hx Hl IH]; intros [|y r] Hr E V; try discriminate; [easy|].
  inversion Hr as [|? ? Hy Hr']; subst. cbn [val] in V. unfold is_cell in *.
  assert (val l = val r) as T.
  { pose proof (Z.div_unique (x + B * val l) B (val l) x). pose proof (Z.div_unique (x + B * val l) B (val r) y). lia. }
  f_equal; [lia|]. apply IH; auto.
Qed.

Lemma val_zero l : cells l -> val l = 0 <-> l = repeat 0 (length l).
Proof using HB.
  intros H. split; [|intros ->; apply val_zeros].
  intros V. apply val_inj; [easy|apply cells_zeros|now rewrite repeat_length|now rewrite val_zeros].
Qed.

Lemma val_upd l i x : (i < length l)%nat -> val (upd l i x) = val l + (x - nth i l 0) * pw B i.
Proof.
  revert i. induction l as [|y l IH]; intros i L; cbn [length] in L; [lia|].
  destruct i as [|i]; cbn [upd val nth]; [rewrite pw_0; lia|]. rewrite IH, pw_S by lia. lia.
Qed.

Lemma cells_upd l i x : cells l -> is_cell x -> cells (upd l i x).
Proof.
  intros H Hx. revert i. induction H as [|y l Hy Hl IH]; intros i; [constructor|].
  destruct i; cbn [upd]; constructor; auto; apply IH.
Qed.

Lemma firstn_snoc (l : list Z) i : (i < length l)%nat -> firstn (S i) l = firstn i l ++ [nth i l 0].
Proof.
  revert i. induction l as [|x l IH]; intros i L; cbn [length] in L; [lia|].
  destruct i as [|i]; [easy|]. cbn [firstn nth app]. f_equal. apply IH. lia.
Qed.

Lemma val_snoc l i : (i < length l)%nat -> val (firstn (S i) l) = val (firstn i l) + nth i l 0 * pw B i.
Proof. intros L. rewrite firstn_snoc, val_app, length_firstn, Nat.min_l by lia. cbn [val]. lia. Qed.

(** The last cell that is not zero. *)
Lemma val_top l n : cells l -> val l < pw B n -> skipn n l = repeat 0 (length l - n).
Proof using HB.
  intros H L. pose proof (cells_skipn l n H) as C.
  assert (val (skipn n l) = 0) as V.
  { rewrite val_skipn by easy. apply Z.div_small. pose proof (val_bound l H). lia. }
  apply val_zero in V; [|easy]. now rewrite length_skipn in V.
Qed.

Lemma val_top_nonzero l n : cells l -> nth n l 0 <> 0 -> pw B n <= val l.
Proof using HB.
  intros H N. destruct (Z.lt_ge_cases (val l) (pw B n)) as [L|]; [|easy]. destruct N.
  rewrite val_nth by easy. rewrite Z.div_small by (pose proof (val_bound l H); lia). now rewrite Z.mod_0_l by lia.
Qed.

End Radix.

(** Bounds under a sum: the carries of additions. *)
Lemma carry_split B s : 0 < B -> 0 <= s < 2 * B ->
  (if B <=? s then (s - B, 1) else (s, 0)) = (s mod B, s / B).
Proof.
  intros HB H. destruct (Z.leb_spec B s).
  - f_equal; [apply Z.mod_unique with 1|apply Z.div_unique with (s - B)]; lia.
  - now rewrite Z.mod_small, Z.div_small by lia.
Qed.
