(* ===== verification/CommonDecimal.v ===== *)
(** * CommonDecimal: src/src/Generics/CommonDecimal.hpp and CommonDecimal.cpp

    [DecimalHelper], shared by the two kinds of decimals: powers of ten, the
    sign of an integer, products and quotients of 128 bits (the inline assembly
    of x86-64; a quotient that does not fit traps, [Undef]), decimal digits in
    arrays, and the bytes of [memcpy]. *)

From Stdlib Require Import ZArith List Bool Lia.
From S2P Require Import Prelude.
Import ListNotations.

(** ** DecimalHelper *)

Definition READY_POWERS : list Z := [
  1; 10; 100; 1000; 10000; 100000; 1000000; 10000000; 100000000; 1000000000; 10000000000;
  100000000000; 1000000000000; 10000000000000; 100000000000000; 1000000000000000;
  10000000000000000; 100000000000000000; 1000000000000000000; 10000000000000000000].

(** Square and multiply in a type of [w] bits; [pow] halves at every round. *)
Fixpoint pow10_loop (fuel : nat) (w pow res base : Z) : Z :=
  match fuel with
  | O => res
  | S fuel' =>
      let res := if Z.odd pow then wrapu w (res * base) else res in
      let pow := Z.shiftr pow 1 in
      if pow =? 0 then res else pow10_loop fuel' w pow res (wrapu w (base * base))
  end.

Definition pow10 (w : Z) (pow : nat) : Z :=
  if (pow <? 20)%nat then wrapu w (nth pow READY_POWERS 0)
  else pow10_loop 32 w (Z.of_nat pow) 1 (wrapu w 10).

(** The operands are converted to [unsigned long long]. *)
Definition exceeds (a b : Z) : bool := u64 b <=? u64 a.

(** [mulq; cmpq; jae; divq]: the 128-bit product, and the quotient when it
    fits 64 bits.  Returns [quotient], [remainder] and the overflow flag. *)
Definition muldiv (factor1 factor2 divisor : Z) : Z * Z * bool :=
  let product := factor1 * factor2 in
  let high := Z.shiftr product 64 in
  let low := u64 product in
  if divisor <=? high then (low, high, negb (divisor =? 0))
  else (product / divisor, product mod divisor, false).

(** [split]: the absolute value and the sign, by an assertion not of the least
    value. *)
Definition split {I : IntType} (integer : Z) : outcome (Z * bool) :=
  if is_signed && (integer <? 0) then
    if integer <? - int_max then Undef else Ret (- integer, true)
  else Ret (integer, false).

(** [mul<true>] wraps at 64 bits, [mul<false>] is [mulq; divq].  The result is
    [major] and [minor]. *)
Definition mul_base (narrow : bool) (factor1 factor2 base : Z) : outcome (Z * Z) :=
  if narrow then let p := u64 (factor1 * factor2) in Ret (p / base, p mod base)
  else
    let p := factor1 * factor2 in
    if base <=? Z.shiftr p 64 then Undef else Ret (p / base, p mod base).

(** The quotient and the remainder. *)
Definition div_base (narrow : bool) (major minor base divisor : Z) : outcome (Z * Z) :=
  if narrow then
    let p := u64 (u64 (major * base) + minor) in
    if divisor =? 0 then Undef else Ret (p / divisor, p mod divisor)
  else
    let p := major * base + minor in
    if divisor <=? Z.shiftr p 64 then Undef else Ret (p / divisor, p mod divisor).

(** [assemble_decimal] of the [digits] first cells of [num], in a type of [w]
    bits; [disassemble_decimal]: the cells it writes. *)
Fixpoint assemble_loop (w : Z) (digits : nat) (num : list Z) (ret : Z) : outcome Z :=
  match digits with
  | O => Ret ret
  | S digits' =>
      match num with
      | [] => Undef
      | d :: num' => assemble_loop w digits' num' (wrapu w (wrapu w (ret * 10) + d))
      end
  end.

Definition assemble_decimal (w : Z) (digits : nat) (num : list Z) : outcome Z := assemble_loop w digits num 0.

Fixpoint disassemble_decimal (digits : nat) (elem : Z) : list Z :=
  match digits with
  | O => []
  | S digits' => disassemble_decimal digits' (elem / 10) ++ [elem mod 10]
  end.

(** [memcpy] of an unsigned integer, low byte first. *)
Fixpoint to_bytes (n : nat) (z : Z) : list Z :=
  match n with O => [] | S n' => u8 z :: to_bytes n' (Z.shiftr z 8) end.
Fixpoint of_bytes (l : list Z) : Z :=
  match l with [] => 0 | b :: l' => b + Z.shiftl (of_bytes l') 8 end.

Inductive DecimalMulRemainder : Type := DMR_FLOOR | DMR_ROUND | DMR_CEIL.
Inductive DecimalDivRemainder : Type := DDR_FLOOR | DDR_CEIL.

(** ** Lemmas *)

Lemma ceil_div p d : 0 <= p -> 0 < d -> (p + d - 1) / d = p / d + (if p mod d =? 0 then 0 else 1).
Proof.
  intros Hp Hd. pose proof (Z.div_mod p d ltac:(lia)) as DM. pose proof (Z.mod_pos_bound p d Hd).
  set (q := p / d) in *. set (r := p mod d) in *. rewrite DM.
  replace (d * q + r + d - 1) with (q * d + (r + d - 1)) by lia. rewrite Z.div_add_l by lia. f_equal.
  destruct (Z.eqb_spec r 0); [apply Z.div_small; lia|].
  replace (r + d - 1) with (1 * d + (r - 1)) by lia. rewrite Z.div_add_l, Z.div_small by lia. lia.
Qed.

Lemma round_div p d : 0 <= p -> 0 < d -> d mod 2 = 0 ->
  (p + d / 2) / d = p / d + (if d / 2 <=? p mod d then 1 else 0).
Proof.
  intros Hp Hd He. pose proof (Z.div_mod p d ltac:(lia)) as DM. pose proof (Z.mod_pos_bound p d Hd).
  pose proof (Z.div_mod d 2 ltac:(lia)) as D2. set (q := p / d) in *. set (r := p mod d) in *. set (h := d / 2) in *.
  rewrite DM. replace (d * q + r + h) with (q * d + (r + h)) by lia. rewrite Z.div_add_l by lia. f_equal.
  destruct (Z.leb_spec h r); [|apply Z.div_small; lia].
  replace (r + h) with (1 * d + (r - h)) by lia. rewrite Z.div_add_l, Z.div_small by lia. lia.
Qed.

Lemma muldiv_spec f1 f2 d : 0 <= f1 -> 0 <= f2 -> 0 < d ->
  exists q r, muldiv f1 f2 d = (q, r, 2 ^ 64 <=? f1 * f2 / d) /\
    (f1 * f2 / d < 2 ^ 64 -> q = f1 * f2 / d /\ r = (f1 * f2) mod d).
Proof.
  intros H1 H2 Hd. unfold muldiv. set (p := f1 * f2). assert (0 <= p) by (subst p; nia).
  rewrite Z.shiftr_div_pow2 by lia.
  destruct (Z.leb_spec d (p / 2 ^ 64)) as [L|L].
  - assert (2 ^ 64 <= p / d) as G.
    { apply Z.div_le_lower_bound; [lia|]. pose proof (Z.mul_div_le p (2 ^ 64) ltac:(lia)). nia. }
    rewrite (proj2 (Z.leb_le _ _) G), (proj2 (Z.eqb_neq d 0)) by lia. do 2 eexists. split; [reflexivity|lia].
  - assert (p / d < 2 ^ 64) as G.
    { apply Z.div_lt_upper_bound; [lia|]. pose proof (Z.mul_succ_div_gt p (2 ^ 64) ltac:(lia)). nia. }
    rewrite (proj2 (Z.leb_gt _ _) G). do 2 eexists. split; [reflexivity|auto].
Qed.

Lemma pow10_small w j : (j < 20)%nat -> 10 ^ Z.of_nat j < 2 ^ w -> pow10 w j = 10 ^ Z.of_nat j.
Proof.
  intros H L. unfold pow10. rewrite (proj2 (Nat.ltb_lt j 20)) by easy.
  replace (nth j READY_POWERS 0) with (10 ^ Z.of_nat j)
    by (do 20 (destruct j as [|j]; [reflexivity|]); lia).
  apply wrapu_small. split; [apply Z.pow_nonneg; lia|easy].
Qed.

Lemma exceeds_small a b : 0 <= a < 2 ^ 64 -> 0 <= b < 2 ^ 64 -> exceeds a b = (b <=? a).
Proof. intros Ha Hb. unfold exceeds. now rewrite !wrapu_small. Qed.
