(* ===== verification/SimpleDecimal.v ===== *)
(** * SimpleDecimal: src/src/Generics/SimpleDecimal.tpp, extraction in CommonDecimal.hpp

    Fixed-point decimals: a sign and an unsigned integer of [TOTAL] decimal
    digits, [FRACTION] of them after the point.  A [DecimalSpec] holds the
    template parameters; [DecimalSpecOk] the conditions its [static_assert]s
    check.  The abstract value of a decimal is the integer [value], in units
    of the last digit. *)

From Stdlib Require Import ZArith List Bool Lia.
From S2P Require Import Prelude Ascii Numbers CommonDecimal.
Import ListNotations.

Class DecimalSpec : Type := { base_bits : Z; TOTAL : nat; FRACTION : nat }.

Class DecimalSpecOk (D : DecimalSpec) : Prop := {
  total_pos : (0 < TOTAL)%nat;
  fraction_le : (FRACTION <= TOTAL)%nat;
  total_calc : (TOTAL <= 19)%nat;
  base_range : 0 < base_bits <= 64;
  total_base : 10 ^ Z.of_nat TOTAL < 2 ^ base_bits;
}.

Definition D18_8 : DecimalSpec := {| base_bits := 64; TOTAL := 18; FRACTION := 8 |}.
#[export] Instance D18_8_ok : DecimalSpecOk D18_8.
Proof. split; [cbn; lia|cbn; lia|cbn; lia|split; vm_compute; easy|vm_compute; reflexivity]. Qed.

Record Decimal : Type := mkDec { negative_ : bool; data_ : Z }.

(** [*cur - '0'] as [unsigned]. *)
Definition digit_at (c : Z) : Z := u32 (schar c - chr "0").

(** [skip]: whether the end of the string was reached. *)
Fixpoint skip_eof (cur : list Z) : bool :=
  match cur with
  | [] => true
  | c :: cur' => if digit_at c <? 10 then skip_eof cur' else false
  end.

(** What [extract_decimal] reports: an error message or not, the bits of
    [iostate], and the value written. *)
Record extraction : Type := {
  message : bool; failbit : bool; eofbit : bool; written : option (bool * Z) }.

Section Decimal.
Context {D : DecimalSpec}.

Definition Base (z : Z) : Z := wrapu base_bits z.
Definition INTEGER_RANK : nat := (TOTAL - FRACTION)%nat.
Definition MAX_VALUE_ : Z := 10 ^ Z.of_nat TOTAL.
Definition MAX_FRACTION_ : Z := 10 ^ Z.of_nat FRACTION.
Definition MAX_INTEGER_ : Z := 10 ^ Z.of_nat INTEGER_RANK.
Definition INVALID_FLAG_ : Z := Base (-1).

(** The integer part: the value and the text from the first non-digit on, or
    the text after the digit that does not fit. *)
Fixpoint integer_loop (cur : list Z) (decimal : Z) : (Z * list Z) + list Z :=
  match cur with
  | [] => inl (decimal, [])
  | c :: cur' =>
      let digit := digit_at c in
      if digit <? 10 then
        if decimal <? MAX_INTEGER_ / 10 then integer_loop cur' (Base (decimal * 10 + digit))
        else inr cur'
      else inl (decimal, cur)
  end.

(** The fraction: the value, [digits_left] and the text left. *)
Fixpoint fraction_loop (cur : list Z) (digits_left : nat) (decimal : Z) : (Z * nat * list Z) + list Z :=
  match cur with
  | [] => inl (decimal, digits_left, [])
  | c :: cur' =>
      let digit := digit_at c in
      if digit <? 10 then
        match digits_left with
        | S k => fraction_loop cur' k (Base (decimal * 10 + digit))
        | O => inr cur'
        end
      else inl (decimal, digits_left, cur)
  end.

Definition extract_number (negative : bool) (cur : list Z) : extraction :=
  match integer_loop cur 0 with
  | inr rest => {| message := true; failbit := true; eofbit := skip_eof rest; written := None |}
  | inl (decimal, rest) =>
      let whole :=
        {| message := false; failbit := false; eofbit := (length rest =? 0)%nat;
           written := Some (negative, Base (decimal * MAX_FRACTION_)) |} in
      match rest with
      | c :: rest' =>
          if negb (FRACTION =? 0)%nat && (digit_at c =? u32 (chr "." - chr "0")) then
            match fraction_loop rest' FRACTION decimal with
            | inr rest2 => {| message := true; failbit := true; eofbit := skip_eof rest2; written := None |}
            | inl (decimal, digits_left, rest2) =>
                {| message := false; failbit := false; eofbit := (length rest2 =? 0)%nat;
                   written := Some (negative,
                     if (1 <? FRACTION)%nat && (0 <? digits_left)%nat
                     then Base (decimal * pow10 base_bits digits_left) else decimal) |}
            end
          else whole
      | [] => whole
      end
  end.

Definition extract_decimal (cur : list Z) : extraction :=
  let empty := {| message := true; failbit := true; eofbit := true; written := None |} in
  let bad := {| message := true; failbit := true; eofbit := false; written := None |} in
  match cur with
  | [] => empty
  | c :: cur' =>
      let minus := digit_at c =? u32 (chr "-" - chr "0") in
      let plus := digit_at c =? u32 (chr "+" - chr "0") in
      if minus || plus then
        match cur' with
        | [] => empty
        | c2 :: _ => if 9 <? digit_at c2 then bad else extract_number minus cur'
        end
      else if 9 <? digit_at c then bad else extract_number false cur
  end.

(** ** Constructors *)

Definition SimpleDecimal_parts (negative : bool) (integer fraction : Z) : outcome Decimal :=
  if exceeds fraction MAX_FRACTION_ then Throw Overflow
  else if exceeds integer MAX_INTEGER_ then Throw Overflow
  else Ret (mkDec negative (Base (integer * MAX_FRACTION_ + fraction))).

(** [construct_(integer, power)] for the integer type [I] of [bits] bits. *)
Definition SimpleDecimal_power {I : IntType} (bits : Z) (integer : Z) (power : nat) : outcome Decimal :=
  if (Z.to_nat digits10 + FRACTION <=? power)%nat || (integer =? 0) then Ret (mkDec false 0)
  else
    '(integer, negative) <- split integer ;;
    if (power =? FRACTION)%nat then
      if exceeds integer MAX_VALUE_ then Throw Overflow else Ret (mkDec negative (Base integer))
    else if (FRACTION <? power)%nat then
      let integer := integer / pow10 bits (power - FRACTION) in
      if exceeds integer MAX_VALUE_ then Throw Overflow else Ret (mkDec negative (Base integer))
    else
      let mul := pow10 base_bits (FRACTION - power) in
      if exceeds integer (MAX_VALUE_ / mul) then Throw Overflow
      else Ret (mkDec negative (Base (integer * mul))).

Definition SimpleDecimal_str (str : list Z) : outcome Decimal :=
  let r := extract_decimal str in
  if failbit r then Throw Overflow
  else if message r then Throw NotNumber
  else if negb (eofbit r) then Throw NotNumber
  else match written r with
       | Some (negative, data) => Ret (mkDec negative data)
       | None => Ret (mkDec false INVALID_FLAG_)
       end.

(** ** Conversions *)

(** [integer<ToInteger>()]. *)
Definition integer {I : IntType} (d : Decimal) : outcome Z :=
  let int_part := data_ d / MAX_FRACTION_ in
  if int_max <? int_part then Throw Overflow
  else if negative_ d && negb (int_part =? 0) && negb is_signed then Throw SignException
  else Ret (if negative_ d then - int_part else int_part).

(** [do ... while (!rest)]: the last non-zero digit, what is above it and the
    number of digits consumed. *)
Fixpoint drop_zero_digits (fuel : nat) (fraction_part : Z) (frac_index : nat) : Z * Z * nat :=
  match fuel with
  | O => (0, fraction_part, frac_index)
  | S fuel' =>
      let rest := fraction_part mod 10 in
      let fraction_part := fraction_part / 10 in
      if rest =? 0 then drop_zero_digits fuel' fraction_part (S frac_index)
      else (rest, fraction_part, S frac_index)
  end.

(** [while (fraction_part)]: the digits put in front of [buf]. *)
Fixpoint front_digits (fuel : nat) (fraction_part : Z) (frac_index : nat) (buf : list Z) : list Z * nat :=
  match fuel with
  | O => (buf, frac_index)
  | S fuel' =>
      if fraction_part =? 0 then (buf, frac_index)
      else front_digits fuel' (fraction_part / 10) (S frac_index)
             ((fraction_part mod 10 + chr "0") :: buf)
  end.

(** [do ... while (elem)]. *)
Fixpoint integer_digits (fuel : nat) (elem : Z) (buf : list Z) : list Z :=
  match fuel with
  | O => buf
  | S fuel' =>
      let buf := (elem mod 10 + chr "0") :: buf in
      let elem := elem / 10 in
      if elem =? 0 then buf else integer_digits fuel' elem buf
  end.

(** The characters written backwards from [buf_end]; every number has at most
    20 digits. *)
Definition decimal_to_char_ (d : Decimal) : list Z :=
  if data_ d =? 0 then
    if (FRACTION =? 0)%nat then lit "0" else lit "0.0"
  else
    let '(buf, elem) :=
      if (FRACTION =? 0)%nat then ([], data_ d)
      else
        let fraction_part := data_ d mod MAX_FRACTION_ in
        let buf :=
          if negb (fraction_part =? 0) then
            let '(rest, fraction_part, frac_index) := drop_zero_digits 20 fraction_part 0 in
            let '(buf, frac_index) := front_digits 20 fraction_part frac_index [rest + chr "0"] in
            repeat (chr "0") (FRACTION - frac_index) ++ buf
          else lit "0" in
        (chr "." :: buf, data_ d / MAX_FRACTION_) in
    let buf := integer_digits 20 elem buf in
    if negative_ d then chr "-" :: buf else buf.

(** [char buffer[TOTAL + 2]]: a longer text is written before the buffer. *)
Definition str (d : Decimal) : outcome (list Z) :=
  if data_ d =? INVALID_FLAG_ then Undef
  else
    let text := decimal_to_char_ d in
    if (TOTAL + 2 <? length text)%nat then Undef else Ret text.

(** [pack] and [unpack]: the [sizeof(Base)] bytes of [data_], low byte first,
    and a byte for the sign. *)
Definition base_size : nat := Z.to_nat (base_bits / 8).

Definition pack (d : Decimal) : list Z :=
  to_bytes base_size (data_ d) ++ [if negative_ d then 1 else 0].

Definition unpack (buffer : list Z) : outcome Decimal :=
  sign <- rd buffer base_size ;;
  Ret (mkDec (negb (sign =? 0)) (of_bytes (firstn base_size buffer))).

(** ** Operations *)

Definition negate (d : Decimal) : Decimal := mkDec (negb (negative_ d)) (data_ d).

Definition floor (fraction : nat) (d : Decimal) : Decimal :=
  if (FRACTION <=? fraction)%nat then d
  else
    let pow := pow10 base_bits (FRACTION - fraction) in
    if negb (data_ d mod pow =? 0) then mkDec (negative_ d) (data_ d / pow * pow) else d.

Definition ceil (fraction : nat) (d : Decimal) : outcome Decimal :=
  if (FRACTION <=? fraction)%nat then Ret d
  else
    let pow := pow10 base_bits (FRACTION - fraction) in
    if negb (data_ d mod pow =? 0) then
      let data := Base ((data_ d / pow + 1) * pow) in
      if data =? MAX_VALUE_ then Throw Overflow else Ret (mkDec (negative_ d) data)
    else Ret d.

Definition is_zero (d : Decimal) : bool := data_ d =? 0.
Definition is_nonnegative (d : Decimal) : bool := negb (negative_ d).
Definition is_nonpositive (d : Decimal) : bool := negative_ d.

Definition dec_eq (d test : Decimal) : bool :=
  if Bool.eqb (negative_ d) (negative_ test) then data_ d =? data_ test
  else (data_ d =? 0) && (data_ test =? 0).

Definition dec_lt (d test : Decimal) : bool :=
  if negative_ d then
    if negative_ test then data_ test <? data_ d
    else negb (data_ d =? 0) || negb (data_ test =? 0)
  else negb (negative_ test) && (data_ d <? data_ test).

Definition dec_le (d test : Decimal) : bool := negb (dec_lt test d).

(** The [target] of the C++ functions is the result. *)
Definition add (summand1 summand2 : Decimal) : outcome Decimal :=
  if Bool.eqb (negative_ summand1) (negative_ summand2) then
    if MAX_VALUE_ - data_ summand1 <=? data_ summand2 then Throw Overflow
    else Ret (mkDec (negative_ summand1) (Base (data_ summand1 + data_ summand2)))
  else if data_ summand1 <? data_ summand2 then
    Ret (mkDec (negative_ summand2) (data_ summand2 - data_ summand1))
  else Ret (mkDec (negative_ summand1) (data_ summand1 - data_ summand2)).

Definition sub (minuend subtrahend : Decimal) : outcome Decimal :=
  if negb (Bool.eqb (negative_ minuend) (negative_ subtrahend)) then
    if MAX_VALUE_ - data_ minuend <=? data_ subtrahend then Throw Overflow
    else Ret (mkDec (negative_ minuend) (Base (data_ minuend + data_ subtrahend)))
  else if data_ minuend <? data_ subtrahend then
    Ret (mkDec (negb (negative_ subtrahend)) (data_ subtrahend - data_ minuend))
  else Ret (mkDec (negative_ minuend) (data_ minuend - data_ subtrahend)).

Definition mul (factor1 factor2 : Decimal) (dmr : DecimalMulRemainder) : outcome Decimal :=
  let '(res, rem, over) := muldiv (data_ factor1) (data_ factor2) MAX_FRACTION_ in
  if over || (MAX_VALUE_ <=? res) then Throw Overflow
  else
    let up :=
      match dmr with
      | DMR_FLOOR => false
      | DMR_ROUND => negb (FRACTION =? 0)%nat && (MAX_FRACTION_ / 2 <=? rem)
      | DMR_CEIL => negb (FRACTION =? 0)%nat && negb (rem =? 0)
      end in
    let res := if up then u64 (res + 1) else res in
    if up && (res =? MAX_VALUE_) then Throw Overflow
    else Ret (mkDec (xorb (negative_ factor1) (negative_ factor2)) (Base res)).

Definition div_ (dividend divisor : Decimal) (ddr : DecimalDivRemainder) : outcome Decimal :=
  if data_ divisor =? 0 then Throw Overflow
  else
    let '(quot, rem, over) := muldiv (data_ dividend) MAX_FRACTION_ (data_ divisor) in
    if over || (MAX_VALUE_ <=? quot) then Throw Overflow
    else
      let up := match ddr with DDR_CEIL => negb (rem =? 0) | DDR_FLOOR => false end in
      let quot := if up then u64 (quot + 1) else quot in
      if up && (quot =? MAX_VALUE_) then Throw Overflow
      else Ret (mkDec (xorb (negative_ dividend) (negative_ divisor)) (Base quot)).

(** [div] with the remainder: the quotient and the remainder. *)
Definition div_rem (dividend divisor : Decimal) : outcome (Decimal * Decimal) :=
  quotient <- div_ dividend divisor DDR_FLOOR ;;
  product <- mul quotient divisor DMR_FLOOR ;;
  remainder <- sub dividend product ;;
  Ret (quotient, remainder).

End Decimal.

Example dec_1 : SimpleDecimal_str (D := D18_8) (lit "-12.5") = Ret (mkDec true 1250000000).
Proof. reflexivity. Qed.
Example dec_2 : str (D := D18_8) (mkDec true 1250000000) = Ret (lit "-12.5").
Proof. reflexivity. Qed.
Example dec_3 : mul (D := D18_8) (mkDec true 150000001) (mkDec false 150000000) DMR_ROUND = Ret (mkDec true 225000002).
Proof. reflexivity. Qed.

(** ** Facts *)

Definition value (d : Decimal) : Z := if negative_ d then - data_ d else data_ d.

Section Facts.
Context {D : DecimalSpec} {Dok : DecimalSpecOk D}.

Definition wf (d : Decimal) : Prop := 0 <= data_ d < MAX_VALUE_.

Lemma max_bounds : 0 < MAX_FRACTION_ <= MAX_VALUE_ /\ MAX_VALUE_ < 2 ^ base_bits /\ 2 ^ base_bits <= 2 ^ 64 /\
  0 < MAX_INTEGER_ <= MAX_VALUE_ /\ MAX_VALUE_ = MAX_INTEGER_ * MAX_FRACTION_.
Proof.
  pose proof total_base. pose proof base_range. pose proof fraction_le.
  unfold MAX_FRACTION_, MAX_VALUE_, MAX_INTEGER_, INTEGER_RANK.
  assert (Z.of_nat TOTAL = Z.of_nat (TOTAL - FRACTION) + Z.of_nat FRACTION) as E by lia.
  assert (10 ^ Z.of_nat TOTAL = 10 ^ Z.of_nat (TOTAL - FRACTION) * 10 ^ Z.of_nat FRACTION) as M
    by (rewrite E at 1; apply Z.pow_add_r; lia).
  repeat split; try (apply Z.pow_pos_nonneg; lia); try (apply Z.pow_le_mono_r; lia); easy.
Qed.

Lemma Base_small z : 0 <= z <= MAX_VALUE_ -> Base z = z.
Proof. intros H. pose proof max_bounds. apply wrapu_small. lia. Qed.

Lemma u64_max z : 0 <= z <= MAX_VALUE_ -> u64 z = z.
Proof. intros H. pose proof max_bounds. apply wrapu_small. lia. Qed.

Lemma value_abs d : wf d -> Z.abs (value d) = data_ d.
Proof. unfold wf, value. destruct (negative_ d); lia. Qed.

Lemma add_spec a b : wf a -> wf b ->
  if Z.abs (value a + value b) <? MAX_VALUE_
  then exists r, add a b = Ret r /\ wf r /\ value r = value a + value b
  else add a b = Throw Overflow.
Proof.
  unfold wf, add, value. intros Ha Hb.
  destruct (Z.ltb_spec (Z.abs ((if negative_ a then - data_ a else data_ a) +
    (if negative_ b then - data_ b else data_ b))) MAX_VALUE_) as [L|L];
  destruct (negative_ a), (negative_ b); cbn [Bool.eqb] in *; split_ifs; try lia;
  try reflexivity; eexists; (split; [reflexivity|]); cbn [data_ negative_]; rewrite ?Base_small; lia.
Qed.

Lemma sub_negate a b : sub a b = add a (negate b) \/
  (exists r1 r2, sub a b = Ret r1 /\ add a (negate b) = Ret r2 /\ value r1 = value r2 /\ data_ r1 = data_ r2).
Proof.
  unfold sub, add, negate. cbn [negative_ data_]. destruct (negative_ a), (negative_ b); cbn [Bool.eqb negb]; auto;
    destruct (data_ a <? data_ b); auto.
Qed.

Lemma sub_spec a b : wf a -> wf b ->
  if Z.abs (value a - value b) <? MAX_VALUE_
  then exists r, sub a b = Ret r /\ wf r /\ value r = value a - value b
  else sub a b = Throw Overflow.
Proof.
  intros Ha Hb. assert (wf (negate b)) as Hn by exact Hb.
  assert (value (negate b) = - value b) as V by (unfold value, negate; cbn; destruct (negative_ b); cbn; lia).
  pose proof (add_spec a (negate b) Ha Hn) as A. rewrite V in A.
  replace (value a + - value b) with (value a - value b) in A by lia.
  destruct (sub_negate a b) as [-> | (r1 & r2 & -> & E & V2 & D2)]; [exact A|].
  destruct (_ <? _); [|congruence]. destruct A as (r & E' & W & VR). rewrite E in E'. injection E' as <-.
  exists r1. unfold wf in *. rewrite D2, V2. auto.
Qed.

(** The magnitude [mul] and [div] give, in units of the last digit. *)
Definition mul_mag (dmr : DecimalMulRemainder) (p : Z) : Z :=
  match dmr with
  | DMR_FLOOR => p / MAX_FRACTION_
  | DMR_ROUND => (p + MAX_FRACTION_ / 2) / MAX_FRACTION_
  | DMR_CEIL => (p + MAX_FRACTION_ - 1) / MAX_FRACTION_
  end.

Definition div_mag (ddr : DecimalDivRemainder) (p d : Z) : Z :=
  match ddr with DDR_FLOOR => p / d | DDR_CEIL => (p + d - 1) / d end.

Lemma fraction_even : FRACTION <> 0%nat -> MAX_FRACTION_ mod 2 = 0.
Proof.
  intros H. unfold MAX_FRACTION_. destruct FRACTION as [|f]; [easy|].
  rewrite Nat2Z.inj_succ, Z.pow_succ_r by lia. replace (10 * 10 ^ Z.of_nat f) with (5 * 10 ^ Z.of_nat f * 2) by lia.
  apply Z_mod_mult.
Qed.

Lemma frac_zero : FRACTION = 0%nat -> MAX_FRACTION_ = 1.
Proof. unfold MAX_FRACTION_. now intros ->. Qed.

(** Common end of [mul] and [div_]. *)
Lemma finish (neg up : bool) q m : 0 <= q < MAX_VALUE_ -> m = q + (if up then 1 else 0) ->
  (let res := if up then u64 (q + 1) else q in
   if up && (res =? MAX_VALUE_) then Throw Overflow else Ret (mkDec neg (Base res))) =
  if m <? MAX_VALUE_ then Ret (mkDec neg m) else Throw Overflow.
Proof.
  intros Hq ->. cbv zeta. destruct up; cbn [andb].
  - rewrite u64_max by lia. destruct (Z.eqb_spec (q + 1) MAX_VALUE_).
    + now rewrite (proj2 (Z.ltb_ge _ _)) by lia.
    + now rewrite (proj2 (Z.ltb_lt _ _)), Base_small by lia.
  - rewrite Z.add_0_r. now rewrite (proj2 (Z.ltb_lt _ _)), Base_small by lia.
Qed.

Lemma mul_spec a b dmr : wf a -> wf b ->
  mul a b dmr =
    let m := mul_mag dmr (data_ a * data_ b) in
    if m <? MAX_VALUE_ then Ret (mkDec (xorb (negative_ a) (negative_ b)) m) else Throw Overflow.
Proof.
  unfold wf. intros Ha Hb. unfold mul. pose proof max_bounds as MB.
  destruct (muldiv_spec (data_ a) (data_ b) MAX_FRACTION_) as (q & r & -> & Q); try lia.
  set (p := data_ a * data_ b) in *. assert (0 <= p) by (subst p; nia).
  set (up := match dmr with DMR_FLOOR => false | DMR_ROUND => negb (FRACTION =? 0)%nat && (MAX_FRACTION_ / 2 <=? r)
             | DMR_CEIL => negb (FRACTION =? 0)%nat && negb (r =? 0) end).
  assert (0 <= p / MAX_FRACTION_) by (apply Z.div_pos; lia).
  assert (p / MAX_FRACTION_ < 2 ^ 64 -> mul_mag dmr p = p / MAX_FRACTION_ + (if up then 1 else 0)) as M.
  { intros L. destruct (Q L) as [_ ->]. subst up. unfold mul_mag. destruct dmr; [lia| |].
    - destruct (Nat.eqb_spec FRACTION 0) as [F|F]; cbn [negb andb].
      + rewrite (frac_zero F), !Z.div_1_r. reflexivity.
      + now rewrite round_div by (try lia; now apply fraction_even).
    - rewrite ceil_div by lia. destruct (Nat.eqb_spec FRACTION 0) as [F|F]; cbn [negb andb].
      + rewrite (frac_zero F), Z.mod_1_r. reflexivity.
      + now destruct (p mod MAX_FRACTION_ =? 0). }
  assert (p / MAX_FRACTION_ <= mul_mag dmr p) as MM.
  { unfold mul_mag. destruct dmr; [lia| |]; apply Z.div_le_mono; try lia.
    enough (0 <= MAX_FRACTION_ / 2) by lia. apply Z.div_pos; lia. }
  cbv zeta. destruct (Z.leb_spec (2 ^ 64) (p / MAX_FRACTION_)) as [O|O]; cbn [orb].
  { now rewrite (proj2 (Z.ltb_ge _ _)) by lia. }
  destruct (Q O) as [-> ER]. destruct (Z.leb_spec MAX_VALUE_ (p / MAX_FRACTION_)).
  { now rewrite (proj2 (Z.ltb_ge _ _)) by lia. }
  apply finish; [lia|]. now apply M.
Qed.

Lemma div_spec a b ddr : wf a -> wf b ->
  div_ a b ddr =
    if data_ b =? 0 then Throw Overflow
    else
      let m := div_mag ddr (data_ a * MAX_FRACTION_) (data_ b) in
      if m <? MAX_VALUE_ then Ret (mkDec (xorb (negative_ a) (negative_ b)) m) else Throw Overflow.
Proof.
  unfold wf. intros Ha Hb. unfold div_. pose proof max_bounds as MB.
  destruct (Z.eqb_spec (data_ b) 0) as [|NZ]; [easy|].
  destruct (muldiv_spec (data_ a) MAX_FRACTION_ (data_ b)) as (q & r & -> & Q); try lia.
  set (p := data_ a * MAX_FRACTION_) in *. assert (0 <= p) by (subst p; nia).
  set (up := match ddr with DDR_CEIL => negb (r =? 0) | DDR_FLOOR => false end).
  assert (0 <= p / data_ b) by (apply Z.div_pos; lia).
  assert (p / data_ b < 2 ^ 64 -> div_mag ddr p (data_ b) = p / data_ b + (if up then 1 else 0)) as M.
  { intros L. destruct (Q L) as [_ ->]. subst up. unfold div_mag. destruct ddr; [lia|].
    rewrite ceil_div by lia. now destruct (p mod data_ b =? 0). }
  assert (p / data_ b <= div_mag ddr p (data_ b)) as MM.
  { unfold div_mag. destruct ddr; [lia|]. apply Z.div_le_mono; lia. }
  cbv zeta. destruct (Z.leb_spec (2 ^ 64) (p / data_ b)) as [O|O]; cbn [orb].
  { now rewrite (proj2 (Z.ltb_ge _ _)) by lia. }
  destruct (Q O) as [-> ER]. destruct (Z.leb_spec MAX_VALUE_ (p / data_ b)).
  { now rewrite (proj2 (Z.ltb_ge _ _)) by lia. }
  apply finish; [lia|]. now apply M.
Qed.
End Facts.

(** ** Facts: reading *)

Lemma digit_at_digit c : is_digit c = true -> digit_at c = c - 48.
Proof.
  unfold is_digit, digit_at, schar. change (chr "0") with 48. intros H. bools.
  rewrite (proj2 (Z.ltb_lt c 128)) by lia. apply wrapu_small. change (2 ^ 32) with 4294967296. lia.
Qed.

Lemma dec_from_bound ds : forallb is_digit ds = true -> forall v, 0 <= v ->
  v * 10 ^ Z.of_nat (length ds) <= dec_from v ds < (v + 1) * 10 ^ Z.of_nat (length ds).
Proof.
  induction ds as [|c ds IH]; intros H v Hv; [cbn; lia|]. cbn [forallb] in H. apply andb_true_iff in H as [D H].
  change (dec_from v (c :: ds)) with (dec_from (10 * v + (c - 48)) ds).
  cbn [length]. rewrite Nat2Z.inj_succ, Z.pow_succ_r by lia. unfold is_digit in D.
  specialize (IH H (10 * v + (c - 48)) ltac:(lia)). pose proof (Z.pow_pos_nonneg 10 (Z.of_nat (length ds))).
  nia.
Qed.

Lemma dec_from_linear ds v : dec_from v ds = v * 10 ^ Z.of_nat (length ds) + dec_from 0 ds.
Proof.
  revert v; induction ds as [|c ds IH]; intros v; [cbn; lia|].
  change (dec_from v (c :: ds)) with (dec_from (10 * v + (c - 48)) ds).
  change (dec_from 0 (c :: ds)) with (dec_from (10 * 0 + (c - 48)) ds).
  rewrite IH, (IH (10 * 0 + (c - 48))). cbn [length]. rewrite Nat2Z.inj_succ, Z.pow_succ_r by lia. lia.
Qed.

Section Reading.
Context {D : DecimalSpec} {Dok : DecimalSpecOk D}.

Definition stops (rest : list Z) : Prop :=
  match rest with [] => True | c :: _ => (digit_at c <? 10) = false end.

Lemma integer_loop_digits ds : (0 < INTEGER_RANK)%nat -> forallb is_digit ds = true ->
  forall v rest, 0 <= v -> dec_from v ds < MAX_INTEGER_ -> stops rest ->
  integer_loop (ds ++ rest) v = inl (dec_from v ds, rest).
Proof.
  intros HI. pose proof max_bounds as MB.
  induction ds as [|c ds IH]; intros HD v rest Hv HM HR; cbn [app integer_loop].
  { destruct rest as [|c rest]; [easy|]. cbn [integer_loop]. now rewrite HR. }
  cbn [forallb] in HD. apply andb_true_iff in HD as [D1 D2].
  change (dec_from v (c :: ds)) with (dec_from (10 * v + (c - 48)) ds) in *.
  rewrite digit_at_digit by easy. pose proof D1 as D1'. unfold is_digit in D1'.
  pose proof (dec_from_ge ds D2 (10 * v + (c - 48)) ltac:(lia)).
  rewrite (proj2 (Z.ltb_lt (c - 48) 10)) by lia.
  assert (v < MAX_INTEGER_ / 10) as L.
  { unfold MAX_INTEGER_ in *. destruct INTEGER_RANK as [|k]; [lia|].
    rewrite Nat2Z.inj_succ, Z.pow_succ_r in * by lia.
    rewrite (Z.mul_comm 10), Z.div_mul by lia. lia. }
  rewrite (proj2 (Z.ltb_lt _ _) L), Base_small by lia.
  replace (v * 10 + (c - 48)) with (10 * v + (c - 48)) by lia. apply IH; auto; lia.
Qed.

Lemma fraction_loop_digits ds : forallb is_digit ds = true ->
  forall v left rest, 0 <= v -> (length ds <= left)%nat -> dec_from v ds <= MAX_VALUE_ -> stops rest ->
  fraction_loop (ds ++ rest) left v = inl (dec_from v ds, (left - length ds)%nat, rest).
Proof.
  induction ds as [|c ds IH]; intros HD v left rest Hv HL HM HR; cbn [app fraction_loop length].
  { rewrite Nat.sub_0_r. destruct rest as [|c rest]; [easy|]. cbn [fraction_loop]. now rewrite HR. }
  cbn [forallb] in HD. apply andb_true_iff in HD as [D1 D2].
  change (dec_from v (c :: ds)) with (dec_from (10 * v + (c - 48)) ds) in *.
  rewrite digit_at_digit by easy. pose proof D1 as D1'. unfold is_digit in D1'.
  pose proof (dec_from_ge ds D2 (10 * v + (c - 48)) ltac:(lia)).
  rewrite (proj2 (Z.ltb_lt (c - 48) 10)) by lia. cbn [length] in HL. destruct left as [|left]; [lia|].
  rewrite Base_small by lia. replace (v * 10 + (c - 48)) with (10 * v + (c - 48)) by lia.
  rewrite IH by (auto; lia). reflexivity.
Qed.

Definition good (neg : bool) (v : Z) : extraction :=
  {| message := false; failbit := false; eofbit := true; written := Some (neg, v) |}.

Lemma extract_integer neg ip : (0 < INTEGER_RANK)%nat -> forallb is_digit ip = true ->
  dec_from 0 ip < MAX_INTEGER_ -> extract_number neg ip = good neg (dec_from 0 ip * MAX_FRACTION_).
Proof.
  intros HI HD HM. pose proof max_bounds. pose proof (dec_from_ge ip HD 0 ltac:(lia)).
  unfold extract_number. pose proof (integer_loop_digits ip HI HD 0 [] ltac:(lia) HM I) as IL.
  rewrite app_nil_r in IL. rewrite IL. cbn [length Nat.eqb]. unfold good. rewrite Base_small; [easy|nia].
Qed.

(** Integer digits, a point and at most [FRACTION] digits. *)
Lemma extract_fraction neg ip fp : (0 < INTEGER_RANK)%nat -> forallb is_digit ip = true ->
  forallb is_digit fp = true -> dec_from 0 ip < MAX_INTEGER_ -> (length fp <= FRACTION)%nat ->
  (0 < FRACTION)%nat ->
  extract_number neg (ip ++ chr "." :: fp) =
  good neg (dec_from 0 (ip ++ fp) *
    (if (1 <? FRACTION)%nat then 10 ^ Z.of_nat (FRACTION - length fp) else 1)).
Proof.
  intros HI HD HF HM HL HP. pose proof max_bounds as MB. pose proof (dec_from_ge ip HD 0 ltac:(lia)).
  unfold extract_number. rewrite integer_loop_digits by (try easy; lia).
  rewrite (proj2 (Nat.eqb_neq FRACTION 0)) by lia.
  change (digit_at (chr ".") =? u32 (chr "." - chr "0")) with true. cbn [negb andb].
  set (v := dec_from 0 ip) in *.
  assert (10 ^ Z.of_nat FRACTION = 10 ^ Z.of_nat (length fp) * 10 ^ Z.of_nat (FRACTION - length fp)) as PW
    by (rewrite <- Z.pow_add_r by lia; f_equal; lia).
  pose proof (dec_from_bound fp HF v ltac:(lia)) as B.
  pose proof (Z.pow_pos_nonneg 10 (Z.of_nat (length fp)) ltac:(lia) ltac:(lia)).
  pose proof (Z.pow_pos_nonneg 10 (Z.of_nat (FRACTION - length fp)) ltac:(lia) ltac:(lia)).
  assert ((v + 1) * 10 ^ Z.of_nat (length fp) * 10 ^ Z.of_nat (FRACTION - length fp) <= MAX_VALUE_) as BV.
  { rewrite <- Z.mul_assoc, <- PW. fold MAX_FRACTION_. nia. }
  assert ((v + 1) * 10 ^ Z.of_nat (length fp) <= MAX_VALUE_) as BV2.
  { etransitivity; [|exact BV]. apply Z.le_mul_diag_r; nia. }
  pose proof (fraction_loop_digits fp HF v FRACTION [] ltac:(lia) HL ltac:(lia) I) as FL.
  rewrite app_nil_r in FL. rewrite FL. cbn [length Nat.eqb].
  rewrite dec_from_app. fold v. unfold good. do 3 f_equal.
  destruct (Nat.ltb_spec 1 FRACTION); cbn [andb]; [|lia].
  destruct (Nat.ltb_spec 0 (FRACTION - length fp)).
  - pose proof fraction_le. pose proof total_calc. rewrite pow10_small; [|lia|].
    + apply Base_small. split; [apply Z.mul_nonneg_nonneg; nia|].
      etransitivity; [|exact BV]. apply Z.mul_le_mono_nonneg_r; lia.
    + apply Z.le_lt_trans with MAX_FRACTION_; [|lia].
      unfold MAX_FRACTION_. apply Z.pow_le_mono_r; lia.
  - replace (FRACTION - length fp)%nat with 0%nat by lia. cbn. lia.
Qed.

(** The whole text: a sign, or a digit first. *)
Lemma extract_signed neg text : hd 0 text <> 0 -> is_digit (hd 0 text) = true ->
  extract_decimal (if neg : bool then chr "-" :: text else text) = extract_number neg text.
Proof.
  destruct text as [|c text]; [easy|]. cbn [hd]. intros _ HD. pose proof (digit_at_digit c HD) as E.
  unfold is_digit in HD. unfold extract_decimal. destruct neg.
  - change (digit_at (chr "-") =? u32 (chr "-" - chr "0")) with true. cbn [orb].
    rewrite E. now rewrite (proj2 (Z.ltb_ge 9 _)) by lia.
  - rewrite E. change (u32 (chr "-" - chr "0")) with 4294967293. change (u32 (chr "+" - chr "0")) with 4294967291.
    rewrite !(proj2 (Z.eqb_neq _ _)) by lia. cbn [orb]. now rewrite (proj2 (Z.ltb_ge 9 _)) by lia.
Qed.
End Reading.

(** ** Facts: writing *)

Lemma digit_char n : 0 <= n < 10 -> is_digit (n + chr "0") = true /\ n + chr "0" - 48 = n.
Proof. unfold is_digit. change (chr "0") with 48. lia. Qed.

Lemma integer_digits_spec fuel : forall e buf, 0 <= e < 10 ^ Z.of_nat fuel -> (0 < fuel)%nat ->
  exists ds, integer_digits fuel e buf = ds ++ buf /\ ds <> [] /\ forallb is_digit ds = true /\
    dec_from 0 ds = e /\ (e <> 0 -> 10 ^ (Z.of_nat (length ds) - 1) <= e) /\ (e = 0 -> length ds = 1%nat).
Proof.
  induction fuel as [|fuel IH]; intros e buf He Hf; [lia|]. cbn [integer_digits].
  pose proof (Z.mod_pos_bound e 10 ltac:(lia)) as MB. destruct (digit_char _ MB) as [DC DV].
  pose proof (Z.div_mod e 10 ltac:(lia)).
  destruct (Z.eqb_spec (e / 10) 0) as [E|E].
  - exists [e mod 10 + chr "0"]. repeat split; [easy|cbn [forallb]; now rewrite DC| |cbn; lia].
    unfold dec_from. cbn [fold_left]. lia.
  - destruct fuel as [|fuel]; [exfalso; apply E, Z.div_small; exact He|].
    rewrite Nat2Z.inj_succ, Z.pow_succ_r in He by lia.
    destruct (IH (e / 10) ((e mod 10 + chr "0") :: buf)) as (ds & -> & N & DD & V & L & _);
      [Z.div_mod_to_equations; lia|lia|].
    exists (ds ++ [e mod 10 + chr "0"]). rewrite <- app_assoc, length_app. cbn [app length].
    assert (e <> 0) by (intros ->; now apply E).
    repeat split; [now destruct ds| | | |lia].
    + rewrite forallb_app, DD. cbn [forallb]. now rewrite DC.
    + rewrite dec_from_app, V. unfold dec_from. cbn [fold_left]. lia.
    + intros _. specialize (L E). replace (Z.of_nat (length ds + 1) - 1) with (Z.succ (Z.of_nat (length ds) - 1)) by lia.
      destruct ds; [easy|]. rewrite Z.pow_succ_r by (cbn [length]; lia). lia.
Qed.

Lemma front_digits_spec fuel : forall f i buf, 0 <= f < 10 ^ Z.of_nat fuel ->
  exists ds, front_digits fuel f i buf = (ds ++ buf, (i + length ds)%nat) /\ forallb is_digit ds = true /\
    dec_from 0 ds = f /\ (forall k, f < 10 ^ Z.of_nat k -> (length ds <= k)%nat).
Proof.
  induction fuel as [|fuel IH]; intros f i buf Hf; cbn [front_digits].
  { exists []. cbn [app length Z.of_nat Z.pow] in *. rewrite Nat.add_0_r. repeat split; [cbn; lia|lia]. }
  destruct (Z.eqb_spec f 0) as [->|E].
  { exists []. cbn [app length]. rewrite Nat.add_0_r. repeat split. lia. }
  pose proof (Z.mod_pos_bound f 10 ltac:(lia)) as MB. destruct (digit_char _ MB) as [DC DV].
  pose proof (Z.div_mod f 10 ltac:(lia)). rewrite Nat2Z.inj_succ, Z.pow_succ_r in Hf by lia.
  destruct (IH (f / 10) (S i) ((f mod 10 + chr "0") :: buf)) as (ds & -> & DD & V & K);
    [Z.div_mod_to_equations; lia|].
  exists (ds ++ [f mod 10 + chr "0"]). rewrite <- app_assoc, length_app. cbn [app length].
  repeat split; [f_equal; lia| | |].
  - rewrite forallb_app, DD. cbn [forallb]. now rewrite DC.
  - rewrite dec_from_app, V. unfold dec_from. cbn [fold_left]. lia.
  - intros k Hk. destruct k as [|k]; [cbn in Hk; lia|]. rewrite Nat2Z.inj_succ, Z.pow_succ_r in Hk by lia.
    specialize (K k ltac:(lia)). lia.
Qed.

Lemma drop_zero_digits_spec fuel : forall f i, 0 < f < 10 ^ Z.of_nat fuel ->
  exists r f' j, drop_zero_digits fuel f i = (r, f', (i + S j)%nat) /\ 0 < r < 10 /\ 0 <= f' /\
    f = (10 * f' + r) * 10 ^ Z.of_nat j.
Proof.
  induction fuel as [|fuel IH]; intros f i Hf; [cbn in Hf; lia|]. cbn [drop_zero_digits].
  rewrite Nat2Z.inj_succ, Z.pow_succ_r in Hf by lia.
  pose proof (Z.mod_pos_bound f 10 ltac:(lia)). pose proof (Z.div_mod f 10 ltac:(lia)).
  destruct (Z.eqb_spec (f mod 10) 0) as [E|E].
  - destruct (IH (f / 10) (S i)) as (r & f' & j & -> & R & F & V); [lia|].
    exists r, f', (S j). split; [f_equal; lia|]. split; [easy|]. split; [easy|].
    rewrite Nat2Z.inj_succ, Z.pow_succ_r by lia. lia.
  - exists (f mod 10), (f / 10), 0%nat. split; [f_equal; lia|]. split; [lia|]. split; [lia|].
    change (10 ^ Z.of_nat 0) with 1. lia.
Qed.

Section Writing.
Context {D : DecimalSpec} {Dok : DecimalSpecOk D}.

(** The digits after the point: no more than [FRACTION], worth the fraction. *)
Definition fraction_text (f : Z) : list Z :=
  if negb (f =? 0) then
    let '(rest, fraction_part, frac_index) := drop_zero_digits 20 f 0 in
    let '(buf, frac_index) := front_digits 20 fraction_part frac_index [rest + chr "0"] in
    repeat (chr "0") (FRACTION - frac_index) ++ buf
  else lit "0".

Lemma zeros_digits n : forallb is_digit (repeat (chr "0") n) = true /\ dec_from 0 (repeat (chr "0") n) = 0.
Proof. induction n as [|n [IH1 IH2]]; [easy|]. cbn [repeat forallb]. rewrite IH1. split; [reflexivity|exact IH2]. Qed.

Lemma fraction_text_spec f : (0 < FRACTION)%nat -> 0 <= f < MAX_FRACTION_ ->
  (1 <= length (fraction_text f) <= FRACTION)%nat /\ forallb is_digit (fraction_text f) = true /\
  dec_from 0 (fraction_text f) * 10 ^ Z.of_nat (FRACTION - length (fraction_text f)) = f.
Proof.
  intros HP Hf. pose proof fraction_le. pose proof total_calc. unfold fraction_text.
  destruct (Z.eqb_spec f 0) as [->|NZ]; cbn [negb]; [cbn; repeat split; lia|].
  assert (MAX_FRACTION_ <= 10 ^ Z.of_nat 20) as L20 by (unfold MAX_FRACTION_; apply Z.pow_le_mono_r; lia).
  destruct (drop_zero_digits_spec 20 f 0) as (r & f' & j & -> & R & F & V); [lia|]. cbv beta iota.
  pose proof (Z.pow_pos_nonneg 10 (Z.of_nat j) ltac:(lia) ltac:(lia)) as PJ.
  destruct (front_digits_spec 20 f' (0 + S j) [r + chr "0"]) as (ds & -> & DD & DV & K); [nia|]. cbv beta iota.
  assert (S j + length ds <= FRACTION)%nat as LF.
  { assert (j < FRACTION)%nat as JF.
    { destruct (Nat.lt_ge_cases j FRACTION); [easy|]. exfalso.
      assert (MAX_FRACTION_ <= 10 ^ Z.of_nat j) by (unfold MAX_FRACTION_; apply Z.pow_le_mono_r; lia). nia. }
    specialize (K (FRACTION - S j)%nat). enough (f' < 10 ^ Z.of_nat (FRACTION - S j)) by (specialize (K H1); lia).
    assert (MAX_FRACTION_ = 10 ^ Z.of_nat (FRACTION - S j) * 10 * 10 ^ Z.of_nat j) as E.
    { unfold MAX_FRACTION_. replace (Z.of_nat FRACTION) with (Z.of_nat (FRACTION - S j) + 1 + Z.of_nat j) by lia.
      rewrite !Z.pow_add_r by lia. reflexivity. }
    rewrite E, V in Hf. nia. }
  destruct (zeros_digits (FRACTION - (0 + S j + length ds))) as [Z1 Z2]. destruct (digit_char r ltac:(lia)) as [DC DR].
  rewrite !length_app, repeat_length. cbn [length].
  split; [lia|]. split.
  - rewrite !forallb_app, Z1, DD. cbn [forallb]. now rewrite DC.
  - replace (FRACTION - (FRACTION - (0 + S j + length ds) + (length ds + 1)))%nat with j by lia.
    rewrite dec_from_app, Z2, dec_from_app, DV. unfold dec_from. cbn [fold_left]. rewrite DR, V. reflexivity.
Qed.

Lemma decimal_text d : wf d -> (0 < INTEGER_RANK)%nat -> (0 < FRACTION)%nat -> data_ d <> 0 ->
  exists ip, decimal_to_char_ d =
      (if negative_ d then chr "-" :: ip ++ chr "." :: fraction_text (data_ d mod MAX_FRACTION_)
       else ip ++ chr "." :: fraction_text (data_ d mod MAX_FRACTION_)) /\
    ip <> [] /\ forallb is_digit ip = true /\ dec_from 0 ip = data_ d / MAX_FRACTION_ /\
    (length ip <= INTEGER_RANK)%nat.
Proof.
  unfold wf. intros W HI HP NZ. pose proof max_bounds as MB. pose proof total_calc.
  unfold decimal_to_char_. rewrite (proj2 (Z.eqb_neq _ _) NZ), (proj2 (Nat.eqb_neq FRACTION 0)) by lia.
  fold (fraction_text (data_ d mod MAX_FRACTION_)).
  assert (0 <= data_ d / MAX_FRACTION_ < MAX_INTEGER_) as B
    by (split; [apply Z.div_pos; lia|apply Z.div_lt_upper_bound; lia]).
  assert (MAX_INTEGER_ <= 10 ^ Z.of_nat 20) by (unfold MAX_INTEGER_, INTEGER_RANK; apply Z.pow_le_mono_r; lia).
  destruct (integer_digits_spec 20 (data_ d / MAX_FRACTION_) (chr "." :: fraction_text (data_ d mod MAX_FRACTION_)))
    as (ip & E & N & DD & V & L1 & L2); [lia|lia|].
  exists ip. rewrite E. repeat split; auto.
  destruct (Z.eq_dec (data_ d / MAX_FRACTION_) 0) as [Z0|Z0]; [rewrite L2; lia|].
  specialize (L1 Z0). destruct (Nat.le_gt_cases (length ip) INTEGER_RANK); [easy|]. exfalso.
  assert (MAX_INTEGER_ <= 10 ^ (Z.of_nat (length ip) - 1)) by (unfold MAX_INTEGER_; apply Z.pow_le_mono_r; lia). lia.
Qed.

Lemma decimal_text0 d : wf d -> (0 < INTEGER_RANK)%nat -> FRACTION = 0%nat -> data_ d <> 0 ->
  exists ip, decimal_to_char_ d = (if negative_ d then chr "-" :: ip else ip) /\
    ip <> [] /\ forallb is_digit ip = true /\ dec_from 0 ip = data_ d /\ (length ip <= INTEGER_RANK)%nat.
Proof.
  unfold wf. intros W HI HP NZ. pose proof max_bounds as MB. pose proof total_calc.
  pose proof (frac_zero HP) as F1. rewrite F1, Z.mul_1_r in MB.
  unfold decimal_to_char_. rewrite (proj2 (Z.eqb_neq _ _) NZ), HP. cbn [Nat.eqb].
  assert (MAX_VALUE_ <= 10 ^ Z.of_nat 20) by (unfold MAX_VALUE_; apply Z.pow_le_mono_r; lia).
  destruct (integer_digits_spec 20 (data_ d) []) as (ip & E & N & DD & V & L1 & L2); [lia|lia|].
  exists ip. rewrite E, app_nil_r. repeat split; auto.
  specialize (L1 NZ). destruct (Nat.le_gt_cases (length ip) INTEGER_RANK); [easy|]. exfalso.
  assert (MAX_INTEGER_ <= 10 ^ (Z.of_nat (length ip) - 1)) by (unfold MAX_INTEGER_; apply Z.pow_le_mono_r; lia). lia.
Qed.

Lemma good_decimal text d : extract_decimal text = good (negative_ d) (data_ d) -> SimpleDecimal_str text = Ret d.
Proof. intros E. unfold SimpleDecimal_str. rewrite E. now destruct d. Qed.

Lemma digit_first ip rest : ip <> [] -> forallb is_digit ip = true ->
  hd 0 (ip ++ rest) <> 0 /\ is_digit (hd 0 (ip ++ rest)) = true.
Proof.
  destruct ip as [|c ip]; [easy|]. cbn [hd app forallb]. intros _ H. apply andb_true_iff in H as [H _].
  split; [unfold is_digit in H; lia|easy].
Qed.

Lemma str_ok d : wf d -> (length (decimal_to_char_ d) <= TOTAL + 2)%nat -> str d = Ret (decimal_to_char_ d).
Proof.
  intros W L. pose proof max_bounds. unfold str, wf in *.
  assert (INVALID_FLAG_ = 2 ^ base_bits - 1) as ->.
  { unfold INVALID_FLAG_, Base, wrapu. symmetry. apply (Z.mod_unique_pos _ _ (-1)); lia. }
  rewrite (proj2 (Z.eqb_neq _ _)) by lia. now rewrite (proj2 (Nat.ltb_ge _ _)) by lia.
Qed.

Lemma str_roundtrip d : wf d -> (0 < INTEGER_RANK)%nat ->
  exists text, str d = Ret text /\
    SimpleDecimal_str text = Ret (if data_ d =? 0 then mkDec false 0 else d).
Proof.
  intros W HI. pose proof fraction_le as FL. pose proof total_pos. pose proof max_bounds as MB.
  exists (decimal_to_char_ d). destruct (Z.eqb_spec (data_ d) 0) as [Z0|NZ].
  - assert (decimal_to_char_ d = if (FRACTION =? 0)%nat then lit "0" else lit "0.0") as E
      by (unfold decimal_to_char_; now rewrite Z0).
    split; [apply str_ok; [easy|]; rewrite E; destruct (FRACTION =? 0)%nat; cbn; lia|]. rewrite E.
    apply good_decimal. destruct (Nat.eqb_spec FRACTION 0) as [F|F].
    + exact (eq_trans (extract_signed false (lit "0") ltac:(easy) eq_refl) (extract_integer false (lit "0") HI eq_refl ltac:(cbn; lia))).
    + etransitivity; [exact (extract_signed false (lit "0" ++ chr "." :: lit "0") ltac:(easy) eq_refl)|].
      rewrite extract_fraction by (try easy; cbn; lia). reflexivity.
  - unfold INTEGER_RANK in *. destruct (Nat.eq_dec FRACTION 0) as [F|F].
    + destruct (decimal_text0 d W HI F NZ) as (ip & E & N & DD & V & L). unfold wf, INTEGER_RANK in *.
      split; [apply str_ok; [easy|]; rewrite E; destruct (negative_ d); cbn [length]; lia|].
      destruct (digit_first ip [] N DD) as [H1 H2]. rewrite app_nil_r in H1, H2.
      apply good_decimal. rewrite E, extract_signed by easy.
      rewrite (frac_zero F), Z.mul_1_r in MB. rewrite extract_integer by (try easy; unfold INTEGER_RANK; lia).
      now rewrite V, (frac_zero F), Z.mul_1_r.
    + assert (0 < FRACTION)%nat as HP by lia.
      destruct (decimal_text d W HI HP NZ) as (ip & E & N & DD & V & L).
      pose proof (Z.mod_pos_bound (data_ d) MAX_FRACTION_ (proj1 (proj1 MB))) as FB.
      destruct (fraction_text_spec _ HP FB) as (FL1 & FD & FV). set (ft := fraction_text _) in *.
      unfold wf, INTEGER_RANK in *.
      split; [apply str_ok; [easy|]; rewrite E; destruct (negative_ d); cbn [length]; rewrite length_app; cbn [length]; lia|].
      destruct (digit_first ip (chr "." :: ft) N DD) as [H1 H2].
      apply good_decimal. rewrite E, extract_signed by easy.
      rewrite extract_fraction; try easy; try (unfold INTEGER_RANK; lia).
      2:{ rewrite V. apply Z.div_lt_upper_bound; lia. }
      unfold good. do 3 f_equal. rewrite dec_from_app, dec_from_linear, V.
      assert ((if (1 <? FRACTION)%nat then 10 ^ Z.of_nat (FRACTION - length ft) else 1) =
              10 ^ Z.of_nat (FRACTION - length ft)) as ->.
      { destruct (Nat.ltb_spec 1 FRACTION); [easy|]. replace (FRACTION - length ft)%nat with 0%nat by lia. reflexivity. }
      rewrite Z.mul_add_distr_r, FV, <- Z.mul_assoc, <- Z.pow_add_r by lia.
      replace (Z.of_nat (length ft) + Z.of_nat (FRACTION - length ft)) with (Z.of_nat FRACTION) by lia.
      fold MAX_FRACTION_. assert (MAX_FRACTION_ <> 0) as NF by lia. pose proof (Z.div_mod (data_ d) MAX_FRACTION_ NF). lia.
Qed.
End Writing.

Section More.
Context {D : DecimalSpec} {Dok : DecimalSpecOk D}.

(** The remainder of [div]: what the floored quotient leaves of the dividend. *)
Lemma div_rem_spec a b q : wf a -> wf b -> div_ a b DDR_FLOOR = Ret q ->
  exists r, div_rem a b = Ret (q, r) /\ wf r /\
    value r = value a - (if negative_ a then -1 else 1) * (data_ q * data_ b / MAX_FRACTION_) /\
    Z.abs (value r) <= Z.abs (value a).
Proof.
  intros Ha Hb E. unfold div_rem. rewrite E. cbn [bind]. rewrite div_spec in E by easy.
  destruct (Z.eqb_spec (data_ b) 0) as [|NZ]; [easy|]. cbv zeta in E. cbn [div_mag] in E.
  destruct (Z.ltb_spec (data_ a * MAX_FRACTION_ / data_ b) MAX_VALUE_) as [L|]; [|easy]. apply Ret_inj in E. subst q.
  pose proof max_bounds as MB. unfold wf in *. cbn [data_ negative_].
  set (qv := data_ a * MAX_FRACTION_ / data_ b) in *.
  assert (0 <= qv) by (apply Z.div_pos; nia).
  assert (qv * data_ b / MAX_FRACTION_ <= data_ a) as LE.
  { apply Z.div_le_upper_bound; [lia|]. pose proof (Z.mul_div_le (data_ a * MAX_FRACTION_) (data_ b) ltac:(lia)). fold qv in H0. lia. }
  assert (0 <= qv * data_ b / MAX_FRACTION_) by (apply Z.div_pos; nia).
  rewrite mul_spec by (unfold wf; cbn [data_]; lia). cbn [data_ negative_ mul_mag]. cbv zeta.
  rewrite (proj2 (Z.ltb_lt _ _)) by lia. cbn [bind].
  set (p := mkDec _ _).
  assert (negative_ p = negative_ a) as NP by (subst p; cbn; now destruct (negative_ a), (negative_ b)).
  assert (data_ p = qv * data_ b / MAX_FRACTION_) as DP by reflexivity.
  assert (value a - value p = (if negative_ a then -1 else 1) * (data_ a - data_ p)) as VP
    by (unfold value; rewrite NP; destruct (negative_ a); lia).
  pose proof (sub_spec a p Ha ltac:(unfold wf; lia)) as S.
  rewrite (proj2 (Z.ltb_lt _ _)) in S by (rewrite VP; destruct (negative_ a); lia).
  destruct S as (r & -> & WR & VR). exists r. cbn [bind]. split; [easy|]. split; [exact WR|].
  rewrite VR. unfold value. rewrite NP, DP. destruct (negative_ a); lia.
Qed.

Lemma exceeds_check neg x : 0 <= x < 2 ^ 64 ->
  (if exceeds x MAX_VALUE_ then Throw Overflow else Ret (mkDec neg (Base x))) =
  if x <? MAX_VALUE_ then Ret (mkDec neg x) else Throw Overflow.
Proof.
  intros Hx. pose proof max_bounds. rewrite exceeds_small by lia. destruct (Z.leb_spec MAX_VALUE_ x).
  - now rewrite (proj2 (Z.ltb_ge x MAX_VALUE_)) by lia.
  - now rewrite (proj2 (Z.ltb_lt x MAX_VALUE_)), Base_small by lia.
Qed.

(** The branch that divides: the power of ten fits, and the quotient is the one
    of the whole number of units. *)
Lemma power_divides {I : IntType} {Iok : IntTypeOk I} bits a power :
  0 < a < 2 ^ 64 -> int_max < 2 ^ bits <= 2 ^ 64 -> (FRACTION < power < Z.to_nat digits10 + FRACTION)%nat ->
  a * MAX_FRACTION_ / 10 ^ Z.of_nat power = a / pow10 bits (power - FRACTION) /\
  0 <= a / pow10 bits (power - FRACTION) < 2 ^ 64.
Proof.
  intros AN HB HP. pose proof digits10_spec as DS. pose proof digits10_pos. pose proof max_bounds.
  assert (10 ^ Z.of_nat power = MAX_FRACTION_ * 10 ^ Z.of_nat (power - FRACTION)) as PW.
  { unfold MAX_FRACTION_. rewrite <- Z.pow_add_r by lia. f_equal. lia. }
  pose proof (Z.pow_pos_nonneg 10 (Z.of_nat (power - FRACTION)) ltac:(lia) ltac:(lia)).
  assert (10 ^ Z.of_nat (power - FRACTION) <= int_max) as LT.
  { etransitivity; [|apply DS]. apply Z.pow_le_mono_r; lia. }
  assert (power - FRACTION < 20)%nat.
  { destruct (Nat.lt_ge_cases (power - FRACTION) 20); [easy|]. exfalso.
    assert (10 ^ 20 <= 10 ^ Z.of_nat (power - FRACTION)) by (apply Z.pow_le_mono_r; lia).
    change (10 ^ 20) with 100000000000000000000 in *. change (2 ^ 64) with 18446744073709551616 in *. lia. }
  rewrite pow10_small by lia. split.
  - rewrite PW, (Z.mul_comm a). now rewrite Z.div_mul_cancel_l by lia.
  - split; [apply Z.div_pos; lia|]. apply Z.div_lt_upper_bound; nia.
Qed.

(** The branch that multiplies: the check before it is the bound on the product. *)
Lemma power_multiplies neg a power : 0 < a < 2 ^ 64 -> (power < FRACTION)%nat ->
  let mul := pow10 base_bits (FRACTION - power) in
  let data := a * MAX_FRACTION_ / 10 ^ Z.of_nat power in
  (if exceeds a (MAX_VALUE_ / mul) then Throw Overflow else Ret (mkDec neg (Base (a * mul)))) =
  if data <? MAX_VALUE_ then Ret (mkDec neg data) else Throw Overflow.
Proof.
  intros AN G. cbv zeta. pose proof max_bounds as MB. pose proof total_calc. pose proof fraction_le.
  pose proof (Z.pow_pos_nonneg 10 (Z.of_nat power) ltac:(lia) ltac:(lia)) as PP.
  assert (MAX_FRACTION_ = 10 ^ Z.of_nat (FRACTION - power) * 10 ^ Z.of_nat power) as PW.
  { unfold MAX_FRACTION_. rewrite <- Z.pow_add_r by lia. f_equal. lia. }
  assert (MAX_VALUE_ = 10 ^ Z.of_nat (TOTAL - (FRACTION - power)) * 10 ^ Z.of_nat (FRACTION - power)) as PV.
  { unfold MAX_VALUE_. rewrite <- Z.pow_add_r by lia. f_equal. lia. }
  pose proof (Z.pow_pos_nonneg 10 (Z.of_nat (FRACTION - power)) ltac:(lia) ltac:(lia)) as P1.
  assert (10 ^ Z.of_nat (FRACTION - power) <= MAX_VALUE_) as L1 by (unfold MAX_VALUE_; apply Z.pow_le_mono_r; lia).
  rewrite pow10_small by lia.
  assert (a * MAX_FRACTION_ / 10 ^ Z.of_nat power = a * 10 ^ Z.of_nat (FRACTION - power)) as ->.
  { rewrite PW, Z.mul_assoc. apply Z.div_mul. lia. }
  set (m := 10 ^ Z.of_nat (FRACTION - power)) in *.
  assert (MAX_VALUE_ / m = 10 ^ Z.of_nat (TOTAL - (FRACTION - power))) as -> by (rewrite PV; apply Z.div_mul; lia).
  set (k := 10 ^ Z.of_nat (TOTAL - (FRACTION - power))) in *.
  assert (0 < k <= MAX_VALUE_) by (split; [apply Z.pow_pos_nonneg; lia|unfold k, MAX_VALUE_; apply Z.pow_le_mono_r; lia]).
  rewrite exceeds_small by lia. destruct (Z.leb_spec k a).
  - rewrite (proj2 (Z.ltb_ge (a * m) MAX_VALUE_)); [easy|]. rewrite PV. apply Z.mul_le_mono_nonneg_r; lia.
  - assert (a * m < MAX_VALUE_) as LM by (rewrite PV; apply Z.mul_lt_mono_pos_r; lia).
    rewrite (proj2 (Z.ltb_lt (a * m) MAX_VALUE_)) by exact LM. rewrite Base_small; [easy|].
    split; [apply Z.mul_nonneg_nonneg; lia|lia].
Qed.

(** The three branches of [construct_(integer, power)] agree with one
    truncated quotient. *)
Lemma power_spec {I : IntType} {Iok : IntTypeOk I} bits n power :
  in_int n -> int_max < 2 ^ bits <= 2 ^ 64 -> n <> 0 -> (is_signed = true -> n <> int_min) ->
  (power < Z.to_nat digits10 + FRACTION)%nat ->
  let data := Z.abs n * MAX_FRACTION_ / 10 ^ Z.of_nat power in
  SimpleDecimal_power bits n power =
    if data <? MAX_VALUE_ then Ret (mkDec (n <? 0) data) else Throw Overflow.
Proof.
  intros HN HB NZ NM HP. cbv zeta. unfold in_int in HN. pose proof int_min_spec as IM. pose proof max_bounds as MB.
  pose proof digits10_spec as DS. pose proof digits10_pos as DP. pose proof total_calc. pose proof fraction_le.
  unfold SimpleDecimal_power, split. rewrite (proj2 (Nat.leb_gt _ _)), (proj2 (Z.eqb_neq _ _) NZ) by lia. cbn [orb].
  assert ((if is_signed && (n <? 0) then if n <? - int_max then Undef else Ret (- n, true) else Ret (n, false)) =
          Ret (Z.abs n, n <? 0)) as ->.
  { destruct is_signed; cbn [andb].
    - specialize (NM eq_refl). destruct (Z.ltb_spec n 0); [rewrite (proj2 (Z.ltb_ge _ _)) by lia|]; do 2 f_equal; lia.
    - rewrite (proj2 (Z.ltb_ge n 0)) by lia. do 2 f_equal. lia. }
  cbn [bind]. assert (0 < Z.abs n < 2 ^ 64) as AN by (destruct is_signed; lia). set (a := Z.abs n) in *.
  destruct (Nat.eqb_spec power FRACTION) as [->|NE].
  - fold MAX_FRACTION_ in *. rewrite Z.div_mul by lia. apply exceeds_check. lia.
  - destruct (Nat.ltb_spec FRACTION power) as [G|G].
    + destruct (power_divides bits a power AN HB) as [-> Q]; [lia|]. now apply exceeds_check.
    + apply power_multiplies; lia.
Qed.
End More.

(** ** Claims *)

Section Claims.
Context {D : DecimalSpec} {Dok : DecimalSpecOk D}.

(** addition and subtraction are exact on the values and keep the
    representation in range; they throw [Overflow] exactly when the true
    result does not fit [TOTAL] digits. *)
Theorem decimal_add_sub a b :
  wf a -> wf b ->
  (if Z.abs (value a + value b) <? MAX_VALUE_
   then exists r, add a b = Ret r /\ wf r /\ value r = value a + value b
   else add a b = Throw Overflow) /\
  (if Z.abs (value a - value b) <? MAX_VALUE_
   then exists r, sub a b = Ret r /\ wf r /\ value r = value a - value b
   else sub a b = Throw Overflow).
Proof. intros Ha Hb. split; [now apply add_spec|now apply sub_spec]. Qed.

(** C4: multiplication and division give the exact product or quotient of the
    magnitudes floored, rounded half up or rounded up to the last digit, with
    the sign of the operands, and throw [Overflow] exactly when it does not
    fit (or the divisor is zero), also when the 128-bit intermediate does not
    fit 64 bits; [div] with a remainder returns what is left of the dividend. *)
Theorem decimal_mul_div a b dmr ddr :
  wf a -> wf b ->
  mul a b dmr =
    (let m := mul_mag dmr (data_ a * data_ b) in
     if m <? MAX_VALUE_ then Ret (mkDec (xorb (negative_ a) (negative_ b)) m) else Throw Overflow) /\
  div_ a b ddr =
    (if data_ b =? 0 then Throw Overflow
     else
       let m := div_mag ddr (data_ a * MAX_FRACTION_) (data_ b) in
       if m <? MAX_VALUE_ then Ret (mkDec (xorb (negative_ a) (negative_ b)) m) else Throw Overflow) /\
  (forall q, div_ a b DDR_FLOOR = Ret q ->
   exists r, div_rem a b = Ret (q, r) /\ wf r /\
     value r = value a - (if negative_ a then -1 else 1) * (data_ q * data_ b / MAX_FRACTION_) /\
     Z.abs (value r) <= Z.abs (value a)).
Proof.
  intros Ha Hb. split; [now apply mul_spec|]. split; [now apply div_spec|].
  intros q. now apply div_rem_spec.
Qed.

(** The comparison operators order decimals by their values, the two
    zeros being equal. *)
Theorem decimal_order a b :
  wf a -> wf b ->
  dec_lt a b = (value a <? value b) /\ dec_le a b = (value a <=? value b) /\
  dec_eq a b = (value a =? value b).
Proof.
  unfold wf, dec_le, dec_lt, dec_eq, value. intros Ha Hb.
  destruct (negative_ a), (negative_ b); cbn [Bool.eqb negb andb orb]; repeat split; lia.
Qed.

(** with at least one integer digit, [str] writes the text inside its
    buffer and the string constructor reads the same decimal back (a negative
    zero as zero). *)
Theorem decimal_str_roundtrip d :
  wf d -> (0 < INTEGER_RANK)%nat ->
  exists text, str d = Ret text /\
    SimpleDecimal_str text = Ret (if data_ d =? 0 then mkDec false 0 else d).
Proof. intros W H. now apply str_roundtrip. Qed.

(** the constructor from [integer / 10^power] truncates the exact quotient
    and throws [Overflow] exactly when it does not fit, for every integer but
    the least one of a signed type, as long as [power] is below
    [digits10 + FRACTION]. *)
Theorem decimal_power_exact {I : IntType} {Iok : IntTypeOk I} bits n power :
  in_int n -> int_max < 2 ^ bits <= 2 ^ 64 -> n <> 0 -> (is_signed = true -> n <> int_min) ->
  (power < Z.to_nat digits10 + FRACTION)%nat ->
  let data := Z.abs n * MAX_FRACTION_ / 10 ^ Z.of_nat power in
  SimpleDecimal_power bits n power =
    if data <? MAX_VALUE_ then Ret (mkDec (n <? 0) data) else Throw Overflow.
Proof. apply power_spec. Qed.
End Claims.

Lemma decimal_add_sub_witness :
  let a := mkDec true 150000000 in let b := mkDec false 999999999999999999 in
  (if Z.abs (value a + value b) <? MAX_VALUE_ (D := D18_8)
   then exists r, add (D := D18_8) a b = Ret r /\ wf (D := D18_8) r /\ value r = value a + value b
   else add (D := D18_8) a b = Throw Overflow) /\
  (if Z.abs (value a - value b) <? MAX_VALUE_ (D := D18_8)
   then exists r, sub (D := D18_8) a b = Ret r /\ wf (D := D18_8) r /\ value r = value a - value b
   else sub (D := D18_8) a b = Throw Overflow).
Proof.
  apply (decimal_add_sub (D := D18_8) (mkDec true 150000000) (mkDec false 999999999999999999));
    split; vm_compute; easy.
Defined.

Lemma decimal_mul_div_witness :
  let a := mkDec true 150000000 in let b := mkDec false 70000000 in
  mul (D := D18_8) a b DMR_ROUND =
    (let m := mul_mag (D := D18_8) DMR_ROUND (data_ a * data_ b) in
     if m <? MAX_VALUE_ (D := D18_8) then Ret (mkDec (xorb (negative_ a) (negative_ b)) m) else Throw Overflow) /\
  div_ (D := D18_8) a b DDR_CEIL =
    (if data_ b =? 0 then Throw Overflow
     else
       let m := div_mag DDR_CEIL (data_ a * MAX_FRACTION_ (D := D18_8)) (data_ b) in
       if m <? MAX_VALUE_ (D := D18_8) then Ret (mkDec (xorb (negative_ a) (negative_ b)) m) else Throw Overflow) /\
  (forall q, div_ (D := D18_8) a b DDR_FLOOR = Ret q ->
   exists r, div_rem (D := D18_8) a b = Ret (q, r) /\ wf (D := D18_8) r /\
     value r = value a - (if negative_ a then -1 else 1) * (data_ q * data_ b / MAX_FRACTION_ (D := D18_8)) /\
     Z.abs (value r) <= Z.abs (value a)).
Proof.
  apply (decimal_mul_div (D := D18_8) (mkDec true 150000000) (mkDec false 70000000) DMR_ROUND DDR_CEIL);
    split; vm_compute; easy.
Defined.

Lemma decimal_order_witness :
  let a := mkDec true 0 in let b := mkDec false 0 in
  dec_lt a b = (value a <? value b) /\ dec_le a b = (value a <=? value b) /\
  dec_eq a b = (value a =? value b).
Proof. apply (decimal_order (D := D18_8) (mkDec true 0) (mkDec false 0)); split; vm_compute; easy. Defined.

Lemma decimal_str_roundtrip_witness :
  exists text, str (D := D18_8) (mkDec true 1205000000) = Ret text /\
    SimpleDecimal_str (D := D18_8) text =
      Ret (if data_ (mkDec true 1205000000) =? 0 then mkDec false 0 else mkDec true 1205000000).
Proof.
  apply (decimal_str_roundtrip (D := D18_8) (mkDec true 1205000000)); [split; vm_compute; easy|cbn; lia].
Defined.

Lemma decimal_power_exact_witness :
  let data := Z.abs (-12345) * MAX_FRACTION_ (D := D18_8) / 10 ^ Z.of_nat 10 in
  SimpleDecimal_power (D := D18_8) (I := Int32) 32 (-12345) 10 =
    if data <? MAX_VALUE_ (D := D18_8) then Ret (mkDec (-12345 <? 0) data) else Throw Overflow.
Proof.
  apply (decimal_power_exact (D := D18_8) (I := Int32) 32 (-12345) 10);
    [split; vm_compute; easy|split; vm_compute; easy|lia|intros _; vm_compute; easy|vm_compute; lia].
Defined.

(** Beyond that power a quotient that is not zero is dropped. *)
Example power_limit :
  SimpleDecimal_power (D := D18_8) (I := UInt64) 64 18446744073709551615 27 = Ret (mkDec false 0) /\
  18446744073709551615 * MAX_FRACTION_ (D := D18_8) / 10 ^ 27 = 1.
Proof. split; vm_compute; reflexivity. Qed.

(** With one fractional digit the text ["5."] is read as one half. *)
Definition D5_1 : DecimalSpec := {| base_bits := 32; TOTAL := 5; FRACTION := 1 |}.
Example point_at_end :
  SimpleDecimal_str (D := D5_1) (lit "5.") = Ret (mkDec false 5) /\
  SimpleDecimal_str (D := D5_1) (lit "5") = Ret (mkDec false 50).
Proof. split; vm_compute; reflexivity. Qed.

(** With no integer digit the text of a negative number does not fit the
    buffer. *)
Definition D3_3 : DecimalSpec := {| base_bits := 32; TOTAL := 3; FRACTION := 3 |}.
Example str_no_integer : str (D := D3_3) (mkDec true 125) = Undef.
Proof. vm_compute. reflexivity. Qed.
