(* ===== verification/Crc.v ===== *)
(** * CRC: the two table-driven CRC-32 routines

    Models [src/src/Generics/CRC.hpp] and [src/src/Generics/CRC.cpp]: the two
    tables, as they stand in the source, and the two byte loops [quick] and
    [reversed] on [uint32_t].

    The reference is the CRC as it is defined, one message bit at a time: a
    32-bit register divided by the generator polynomial, most significant bit
    first for [quick], least significant first for [reversed].  The theorems
    show that the tables and loops compute exactly that register, that a block
    can be processed in pieces, and that a change confined to one octet of a
    message always changes the result. *)

From Stdlib Require Import ZArith List Bool Lia.
From S2P Require Import Prelude.
Import ListNotations.

(** ** The code *)

Definition CRC_QUICK_TABLE : list Z :=
  [0x00000000; 0x04C11DB7; 0x09823B6E; 0x0D4326D9;
   0x130476DC; 0x17C56B6B; 0x1A864DB2; 0x1E475005;
   0x2608EDB8; 0x22C9F00F; 0x2F8AD6D6; 0x2B4BCB61;
   0x350C9B64; 0x31CD86D3; 0x3C8EA00A; 0x384FBDBD;
   0x4C11DB70; 0x48D0C6C7; 0x4593E01E; 0x4152FDA9;
   0x5F15ADAC; 0x5BD4B01B; 0x569796C2; 0x52568B75;
   0x6A1936C8; 0x6ED82B7F; 0x639B0DA6; 0x675A1011;
   0x791D4014; 0x7DDC5DA3; 0x709F7B7A; 0x745E66CD;
   0x9823B6E0; 0x9CE2AB57; 0x91A18D8E; 0x95609039;
   0x8B27C03C; 0x8FE6DD8B; 0x82A5FB52; 0x8664E6E5;
   0xBE2B5B58; 0xBAEA46EF; 0xB7A96036; 0xB3687D81;
   0xAD2F2D84; 0xA9EE3033; 0xA4AD16EA; 0xA06C0B5D;
   0xD4326D90; 0xD0F37027; 0xDDB056FE; 0xD9714B49;
   0xC7361B4C; 0xC3F706FB; 0xCEB42022; 0xCA753D95;
   0xF23A8028; 0xF6FB9D9F; 0xFBB8BB46; 0xFF79A6F1;
   0xE13EF6F4; 0xE5FFEB43; 0xE8BCCD9A; 0xEC7DD02D;
   0x34867077; 0x30476DC0; 0x3D044B19; 0x39C556AE;
   0x278206AB; 0x23431B1C; 0x2E003DC5; 0x2AC12072;
   0x128E9DCF; 0x164F8078; 0x1B0CA6A1; 0x1FCDBB16;
   0x018AEB13; 0x054BF6A4; 0x0808D07D; 0x0CC9CDCA;
   0x7897AB07; 0x7C56B6B0; 0x71159069; 0x75D48DDE;
   0x6B93DDDB; 0x6F52C06C; 0x6211E6B5; 0x66D0FB02;
   0x5E9F46BF; 0x5A5E5B08; 0x571D7DD1; 0x53DC6066;
   0x4D9B3063; 0x495A2DD4; 0x44190B0D; 0x40D816BA;
   0xACA5C697; 0xA864DB20; 0xA527FDF9; 0xA1E6E04E;
   0xBFA1B04B; 0xBB60ADFC; 0xB6238B25; 0xB2E29692;
   0x8AAD2B2F; 0x8E6C3698; 0x832F1041; 0x87EE0DF6;
   0x99A95DF3; 0x9D684044; 0x902B669D; 0x94EA7B2A;
   0xE0B41DE7; 0xE4750050; 0xE9362689; 0xEDF73B3E;
   0xF3B06B3B; 0xF771768C; 0xFA325055; 0xFEF34DE2;
   0xC6BCF05F; 0xC27DEDE8; 0xCF3ECB31; 0xCBFFD686;
   0xD5B88683; 0xD1799B34; 0xDC3ABDED; 0xD8FBA05A;
   0x690CE0EE; 0x6DCDFD59; 0x608EDB80; 0x644FC637;
   0x7A089632; 0x7EC98B85; 0x738AAD5C; 0x774BB0EB;
   0x4F040D56; 0x4BC510E1; 0x46863638; 0x42472B8F;
   0x5C007B8A; 0x58C1663D; 0x558240E4; 0x51435D53;
   0x251D3B9E; 0x21DC2629; 0x2C9F00F0; 0x285E1D47;
   0x36194D42; 0x32D850F5; 0x3F9B762C; 0x3B5A6B9B;
   0x0315D626; 0x07D4CB91; 0x0A97ED48; 0x0E56F0FF;
   0x1011A0FA; 0x14D0BD4D; 0x19939B94; 0x1D528623;
   0xF12F560E; 0xF5EE4BB9; 0xF8AD6D60; 0xFC6C70D7;
   0xE22B20D2; 0xE6EA3D65; 0xEBA91BBC; 0xEF68060B;
   0xD727BBB6; 0xD3E6A601; 0xDEA580D8; 0xDA649D6F;
   0xC423CD6A; 0xC0E2D0DD; 0xCDA1F604; 0xC960EBB3;
   0xBD3E8D7E; 0xB9FF90C9; 0xB4BCB610; 0xB07DABA7;
   0xAE3AFBA2; 0xAAFBE615; 0xA7B8C0CC; 0xA379DD7B;
   0x9B3660C6; 0x9FF77D71; 0x92B45BA8; 0x9675461F;
   0x8832161A; 0x8CF30BAD; 0x81B02D74; 0x857130C3;
   0x5D8A9099; 0x594B8D2E; 0x5408ABF7; 0x50C9B640;
   0x4E8EE645; 0x4A4FFBF2; 0x470CDD2B; 0x43CDC09C;
   0x7B827D21; 0x7F436096; 0x7200464F; 0x76C15BF8;
   0x68860BFD; 0x6C47164A; 0x61043093; 0x65C52D24;
   0x119B4BE9; 0x155A565E; 0x18197087; 0x1CD86D30;
   0x029F3D35; 0x065E2082; 0x0B1D065B; 0x0FDC1BEC;
   0x3793A651; 0x3352BBE6; 0x3E119D3F; 0x3AD08088;
   0x2497D08D; 0x2056CD3A; 0x2D15EBE3; 0x29D4F654;
   0xC5A92679; 0xC1683BCE; 0xCC2B1D17; 0xC8EA00A0;
   0xD6AD50A5; 0xD26C4D12; 0xDF2F6BCB; 0xDBEE767C;
   0xE3A1CBC1; 0xE760D676; 0xEA23F0AF; 0xEEE2ED18;
   0xF0A5BD1D; 0xF464A0AA; 0xF9278673; 0xFDE69BC4;
   0x89B8FD09; 0x8D79E0BE; 0x803AC667; 0x84FBDBD0;
   0x9ABC8BD5; 0x9E7D9662; 0x933EB0BB; 0x97FFAD0C;
   0xAFB010B1; 0xAB710D06; 0xA6322BDF; 0xA2F33668;
   0xBCB4666D; 0xB8757BDA; 0xB5365D03; 0xB1F740B4].

Definition CRC_REVERSED_TABLE : list Z :=
  [0x00000000; 0x77073096; 0xEE0E612C; 0x990951BA;
   0x076DC419; 0x706AF48F; 0xE963A535; 0x9E6495A3;
   0x0EDB8832; 0x79DCB8A4; 0xE0D5E91E; 0x97D2D988;
   0x09B64C2B; 0x7EB17CBD; 0xE7B82D07; 0x90BF1D91;
   0x1DB71064; 0x6AB020F2; 0xF3B97148; 0x84BE41DE;
   0x1ADAD47D; 0x6DDDE4EB; 0xF4D4B551; 0x83D385C7;
   0x136C9856; 0x646BA8C0; 0xFD62F97A; 0x8A65C9EC;
   0x14015C4F; 0x63066CD9; 0xFA0F3D63; 0x8D080DF5;
   0x3B6E20C8; 0x4C69105E; 0xD56041E4; 0xA2677172;
   0x3C03E4D1; 0x4B04D447; 0xD20D85FD; 0xA50AB56B;
   0x35B5A8FA; 0x42B2986C; 0xDBBBC9D6; 0xACBCF940;
   0x32D86CE3; 0x45DF5C75; 0xDCD60DCF; 0xABD13D59;
   0x26D930AC; 0x51DE003A; 0xC8D75180; 0xBFD06116;
   0x21B4F4B5; 0x56B3C423; 0xCFBA9599; 0xB8BDA50F;
   0x2802B89E; 0x5F058808; 0xC60CD9B2; 0xB10BE924;
   0x2F6F7C87; 0x58684C11; 0xC1611DAB; 0xB6662D3D;
   0x76DC4190; 0x01DB7106; 0x98D220BC; 0xEFD5102A;
   0x71B18589; 0x06B6B51F; 0x9FBFE4A5; 0xE8B8D433;
   0x7807C9A2; 0x0F00F934; 0x9609A88E; 0xE10E9818;
   0x7F6A0DBB; 0x086D3D2D; 0x91646C97; 0xE6635C01;
   0x6B6B51F4; 0x1C6C6162; 0x856530D8; 0xF262004E;
   0x6C0695ED; 0x1B01A57B; 0x8208F4C1; 0xF50FC457;
   0x65B0D9C6; 0x12B7E950; 0x8BBEB8EA; 0xFCB9887C;
   0x62DD1DDF; 0x15DA2D49; 0x8CD37CF3; 0xFBD44C65;
   0x4DB26158; 0x3AB551CE; 0xA3BC0074; 0xD4BB30E2;
   0x4ADFA541; 0x3DD895D7; 0xA4D1C46D; 0xD3D6F4FB;
   0x4369E96A; 0x346ED9FC; 0xAD678846; 0xDA60B8D0;
   0x44042D73; 0x33031DE5; 0xAA0A4C5F; 0xDD0D7CC9;
   0x5005713C; 0x270241AA; 0xBE0B1010; 0xC90C2086;
   0x5768B525; 0x206F85B3; 0xB966D409; 0xCE61E49F;
   0x5EDEF90E; 0x29D9C998; 0xB0D09822; 0xC7D7A8B4;
   0x59B33D17; 0x2EB40D81; 0xB7BD5C3B; 0xC0BA6CAD;
   0xEDB88320; 0x9ABFB3B6; 0x03B6E20C; 0x74B1D29A;
   0xEAD54739; 0x9DD277AF; 0x04DB2615; 0x73DC1683;
   0xE3630B12; 0x94643B84; 0x0D6D6A3E; 0x7A6A5AA8;
   0xE40ECF0B; 0x9309FF9D; 0x0A00AE27; 0x7D079EB1;
   0xF00F9344; 0x8708A3D2; 0x1E01F268; 0x6906C2FE;
   0xF762575D; 0x806567CB; 0x196C3671; 0x6E6B06E7;
   0xFED41B76; 0x89D32BE0; 0x10DA7A5A; 0x67DD4ACC;
   0xF9B9DF6F; 0x8EBEEFF9; 0x17B7BE43; 0x60B08ED5;
   0xD6D6A3E8; 0xA1D1937E; 0x38D8C2C4; 0x4FDFF252;
   0xD1BB67F1; 0xA6BC5767; 0x3FB506DD; 0x48B2364B;
   0xD80D2BDA; 0xAF0A1B4C; 0x36034AF6; 0x41047A60;
   0xDF60EFC3; 0xA867DF55; 0x316E8EEF; 0x4669BE79;
   0xCB61B38C; 0xBC66831A; 0x256FD2A0; 0x5268E236;
   0xCC0C7795; 0xBB0B4703; 0x220216B9; 0x5505262F;
   0xC5BA3BBE; 0xB2BD0B28; 0x2BB45A92; 0x5CB36A04;
   0xC2D7FFA7; 0xB5D0CF31; 0x2CD99E8B; 0x5BDEAE1D;
   0x9B64C2B0; 0xEC63F226; 0x756AA39C; 0x026D930A;
   0x9C0906A9; 0xEB0E363F; 0x72076785; 0x05005713;
   0x95BF4A82; 0xE2B87A14; 0x7BB12BAE; 0x0CB61B38;
   0x92D28E9B; 0xE5D5BE0D; 0x7CDCEFB7; 0x0BDBDF21;
   0x86D3D2D4; 0xF1D4E242; 0x68DDB3F8; 0x1FDA836E;
   0x81BE16CD; 0xF6B9265B; 0x6FB077E1; 0x18B74777;
   0x88085AE6; 0xFF0F6A70; 0x66063BCA; 0x11010B5C;
   0x8F659EFF; 0xF862AE69; 0x616BFFD3; 0x166CCF45;
   0xA00AE278; 0xD70DD2EE; 0x4E048354; 0x3903B3C2;
   0xA7672661; 0xD06016F7; 0x4969474D; 0x3E6E77DB;
   0xAED16A4A; 0xD9D65ADC; 0x40DF0B66; 0x37D83BF0;
   0xA9BCAE53; 0xDEBB9EC5; 0x47B2CF7F; 0x30B5FFE9;
   0xBDBDF21C; 0xCABAC28A; 0x53B39330; 0x24B4A3A6;
   0xBAD03605; 0xCDD70693; 0x54DE5729; 0x23D967BF;
   0xB3667A2E; 0xC4614AB8; 0x5D681B02; 0x2A6F2B94;
   0xB40BBE37; 0xC30C8EA1; 0x5A05DF1B; 0x2D02EF8D].

(** [while (size-- > 0) crc = (crc << 8) ^ T[uint8_t(crc >> 24) ^ *udata++]].
    An index of the table is below 256, so it is always inside it
    ([quick_index]); outside it the model is [Undef]. *)
Fixpoint quick (crc : Z) (data : list Z) : outcome Z :=
  match data with
  | [] => Ret crc
  | b :: data' =>
      t <- rd CRC_QUICK_TABLE (Z.to_nat (Z.lxor (u8 (Z.shiftr crc 24)) b)) ;;
      quick (Z.lxor (u32 (Z.shiftl crc 8)) t) data'
  end.

Fixpoint reversed_loop (crc : Z) (data : list Z) : outcome Z :=
  match data with
  | [] => Ret crc
  | b :: data' =>
      t <- rd CRC_REVERSED_TABLE (Z.to_nat (Z.lxor (u8 crc) b)) ;;
      reversed_loop (Z.lxor (Z.shiftr crc 8) t) data'
  end.

(** [~crc] on [uint32_t]. *)
Definition not32 (crc : Z) : Z := u32 (Z.lnot crc).

Definition reversed (crc : Z) (data : list Z) : outcome Z :=
  r <- reversed_loop (not32 crc) data ;; Ret (not32 r).

(** ** The reference: division one bit at a time *)

Definition POLY : Z := 0x04C11DB7.
Definition POLY_REVERSED : Z := 0xEDB88320.

Definition bit_up (c : Z) : Z :=
  Z.lxor (u32 (Z.shiftl c 1)) (if Z.testbit c 31 then POLY else 0).

Definition bit_down (c : Z) : Z :=
  Z.lxor (Z.shiftr c 1) (if Z.testbit c 0 then POLY_REVERSED else 0).

Definition octet_up (c b : Z) : Z := Nat.iter 8 bit_up (Z.lxor c (Z.shiftl b 24)).
Definition octet_down (c b : Z) : Z := Nat.iter 8 bit_down (Z.lxor c b).

Definition crc_up (c : Z) (data : list Z) : Z := fold_left octet_up data c.
Definition crc_down (c : Z) (data : list Z) : Z := fold_left octet_down data c.

(** ** Linearity of the register *)

Definition linear (f : Z -> Z) : Prop :=
  forall a b, f (Z.lxor a b) = Z.lxor (f a) (f b).

Lemma wrapu_lxor w a b : 0 <= w -> wrapu w (Z.lxor a b) = Z.lxor (wrapu w a) (wrapu w b).
Proof.
  intros Hw. unfold wrapu. rewrite <- !Z.land_ones by easy.
  apply Z.bits_inj'. intros n Hn.
  rewrite ?Z.land_spec, ?Z.lxor_spec, ?Z.land_spec.
  now destruct (Z.testbit a n), (Z.testbit b n), (Z.testbit (Z.ones w) n).
Qed.

(** The conditional subtraction of the polynomial is linear too. *)
Lemma if_lxor (a b : bool) p :
  (if xorb a b then p else 0) = Z.lxor (if a then p else 0) (if b then p else 0).
Proof. destruct a, b; cbn; rewrite ?Z.lxor_nilpotent, ?Z.lxor_0_r; easy. Qed.

Lemma lxor_swap a b c d : Z.lxor (Z.lxor a b) (Z.lxor c d) = Z.lxor (Z.lxor a c) (Z.lxor b d).
Proof.
  rewrite !Z.lxor_assoc. f_equal. rewrite <- !Z.lxor_assoc. f_equal. apply Z.lxor_comm.
Qed.

Lemma bit_up_linear : linear bit_up.
Proof.
  intros a b. unfold bit_up.
  rewrite Z.shiftl_lxor, wrapu_lxor, Z.lxor_spec, if_lxor by lia. apply lxor_swap.
Qed.

Lemma bit_down_linear : linear bit_down.
Proof.
  intros a b. unfold bit_down.
  rewrite Z.shiftr_lxor, Z.lxor_spec, if_lxor. apply lxor_swap.
Qed.

Lemma iter_linear f n : linear f -> linear (Nat.iter n f).
Proof. intros Hf a b. induction n as [|n IH]; [easy|]. now rewrite !Nat.iter_succ, IH, Hf. Qed.

Lemma iter_split {A} (f : A -> A) n m x : Nat.iter (n + m) f x = Nat.iter n f (Nat.iter m f x).
Proof. induction n as [|n IH]; [easy|]. cbn [Nat.add]. now rewrite !Nat.iter_succ, IH. Qed.

(** Before a bit reaches the end of the register the steps only shift. *)
Lemma iter_up_shift k x :
  (k <= 32)%nat -> 0 <= x < 2 ^ (32 - Z.of_nat k) ->
  Nat.iter k bit_up x = x * 2 ^ Z.of_nat k.
Proof.
  induction k as [|k IH]; intros Hk Hx; [cbn; lia|].
  assert (2 ^ (32 - Z.of_nat k) = 2 * 2 ^ (32 - Z.of_nat (S k))) as E.
  { rewrite <- Z.pow_succ_r by lia. f_equal. lia. }
  assert (0 <= x * 2 ^ Z.of_nat k < 2 ^ 31) as B.
  { assert (2 ^ 31 = 2 ^ (32 - Z.of_nat (S k)) * 2 ^ Z.of_nat k) as ->
      by (rewrite <- Z.pow_add_r by lia; f_equal; lia). nia. }
  rewrite Nat.iter_succ, IH by lia. unfold bit_up.
  rewrite (Z.bits_above_log2 (x * 2 ^ Z.of_nat k) 31).
  - rewrite Z.lxor_0_r, Z.shiftl_mul_pow2, wrapu_small by lia.
    rewrite Nat2Z.inj_succ, Z.pow_succ_r by lia. lia.
  - lia.
  - destruct (Z.eq_dec (x * 2 ^ Z.of_nat k) 0) as [->|N]; [cbn; lia|].
    apply Z.log2_lt_pow2; lia.
Qed.

Lemma iter_down_shift k x : Nat.iter k bit_down (x * 2 ^ Z.of_nat k) = x.
Proof.
  revert x. induction k as [|k IH]; intros x; [cbn; lia|].
  rewrite Nat.iter_succ.
  replace (x * 2 ^ Z.of_nat (S k)) with (x * 2 * 2 ^ Z.of_nat k)
    by (rewrite Nat2Z.inj_succ, Z.pow_succ_r by lia; lia).
  rewrite IH. unfold bit_down.
  rewrite Z.bit0_odd, Z.odd_mul, Z.shiftr_div_pow2 by lia. cbn -[Z.mul Z.div].
  rewrite andb_false_r, Z.lxor_0_r. apply Z.div_mul. lia.
Qed.

(** ** A table row is eight steps *)

Definition row_up (i : Z) : bool :=
  match rd CRC_QUICK_TABLE (Z.to_nat i) with
  | Ret t => t =? Nat.iter 8 bit_up (i * 2 ^ 24)
  | _ => false
  end.
Definition row_down (i : Z) : bool :=
  match rd CRC_REVERSED_TABLE (Z.to_nat i) with
  | Ret t => t =? Nat.iter 8 bit_down i
  | _ => false
  end.

Lemma quick_row i : is_byte i -> rd CRC_QUICK_TABLE (Z.to_nat i) = Ret (Nat.iter 8 bit_up (i * 2 ^ 24)).
Proof.
  intros H. assert (row_up i = true) as E by (revert i H; apply byte_forall; now vm_compute).
  unfold row_up in E. destruct (rd _ _); [|discriminate E..]. f_equal. exact (proj1 (Z.eqb_eq _ _) E).
Qed.

Lemma reversed_row i : is_byte i -> rd CRC_REVERSED_TABLE (Z.to_nat i) = Ret (Nat.iter 8 bit_down i).
Proof.
  intros H. assert (row_down i = true) as E by (revert i H; apply byte_forall; now vm_compute).
  unfold row_down in E. destruct (rd _ _); [|discriminate E..]. f_equal. exact (proj1 (Z.eqb_eq _ _) E).
Qed.

#[local] Opaque Nat.iter.

(** ** The loops compute the register *)

Definition is_u32 (c : Z) : Prop := 0 <= c < 2 ^ 32.

Lemma lxor_bound k a b : 0 <= k -> 0 <= a < 2 ^ k -> 0 <= b < 2 ^ k -> 0 <= Z.lxor a b < 2 ^ k.
Proof.
  intros Hk Ha Hb. split; [apply Z.lxor_nonneg; lia|].
  rewrite <- (wrapu_small k a Ha), <- (wrapu_small k b Hb), <- wrapu_lxor by easy.
  apply Z.mod_pos_bound. lia.
Qed.

(** A register is its top part and its bottom part. *)
Lemma lxor_parts c k : 0 <= k -> c = Z.lxor (c / 2 ^ k * 2 ^ k) (c mod 2 ^ k).
Proof.
  intros Hk. rewrite <- Z.land_ones, <- Z.shiftr_div_pow2, <- Z.shiftl_mul_pow2 by easy.
  apply Z.bits_inj'. intros n Hn. rewrite Z.lxor_spec, Z.land_spec, Z.shiftl_spec by easy.
  destruct (Z.lt_ge_cases n k).
  - rewrite (Z.testbit_neg_r _ (n - k)), Z.ones_spec_low by lia. now destruct (Z.testbit c n).
  - rewrite Z.shiftr_spec, Z.ones_spec_high by lia.
    replace (n - k + k) with n by lia. now destruct (Z.testbit c n).
Qed.

Lemma bit_up_u32 c : is_u32 (bit_up c).
Proof.
  unfold bit_up. apply (lxor_bound 32); [lia| |].
  - apply Z.mod_pos_bound. lia.
  - unfold POLY. destruct (Z.testbit c 31); lia.
Qed.

Lemma bit_down_u32 c : is_u32 c -> is_u32 (bit_down c).
Proof.
  intros H. unfold bit_down, is_u32 in *. apply lxor_bound; [lia| |].
  - rewrite Z.shiftr_div_pow2 by lia. change (2 ^ 1) with 2.
    pose proof (Z.div_mod c 2). pose proof (Z.mod_pos_bound c 2). lia.
  - unfold POLY_REVERSED. destruct (Z.testbit c 0); lia.
Qed.

Lemma iter_up_u32 n c : is_u32 c -> is_u32 (Nat.iter n bit_up c).
Proof. intros H. destruct n; [easy|]. rewrite Nat.iter_succ. apply bit_up_u32. Qed.

Lemma iter_down_u32 n c : is_u32 c -> is_u32 (Nat.iter n bit_down c).
Proof. intros H. induction n; [easy|]. rewrite Nat.iter_succ. now apply bit_down_u32. Qed.

Lemma octet_up_u32 c b : is_u32 c -> is_byte b -> is_u32 (octet_up c b).
Proof.
  intros Hc Hb. unfold octet_up. apply iter_up_u32.
  rewrite Z.shiftl_mul_pow2 by lia. unfold is_u32, is_byte in *. apply lxor_bound; lia.
Qed.

Lemma octet_down_u32 c b : is_u32 c -> is_byte b -> is_u32 (octet_down c b).
Proof.
  intros Hc Hb. unfold octet_down. apply iter_down_u32.
  unfold is_u32, is_byte in *. apply lxor_bound; lia.
Qed.

(** One turn of each loop is one octet of the reference. *)
Lemma quick_octet c b :
  is_u32 c -> is_byte b ->
  (t <- rd CRC_QUICK_TABLE (Z.to_nat (Z.lxor (u8 (Z.shiftr c 24)) b)) ;;
   Ret (Z.lxor (u32 (Z.shiftl c 8)) t)) = Ret (octet_up c b).
Proof.
  intros Hc Hb. unfold is_u32 in Hc.
  assert (0 <= c / 2 ^ 24 < 256) as Hi by (split; [apply Z.div_pos|apply Z.div_lt_upper_bound]; lia).
  rewrite Z.shiftr_div_pow2, (wrapu_small 8 (c / 2 ^ 24)) by lia.
  rewrite quick_row by now apply (lxor_bound 8); [lia| |].
  cbn [bind]. f_equal. unfold octet_up.
  rewrite (lxor_parts c 24) at 3 by lia.
  rewrite (Z.lxor_comm (_ * _) (c mod _)), Z.lxor_assoc.
  rewrite (iter_linear bit_up 8 bit_up_linear).
  pose proof (Z.mod_pos_bound c (2 ^ 24)) as Hm.
  f_equal.
  - rewrite (iter_up_shift 8 (c mod 2 ^ 24)) by (try change (32 - Z.of_nat 8) with 24; lia).
    unfold wrapu. rewrite Z.shiftl_mul_pow2 by lia.
    change (2 ^ 32) with (2 ^ 24 * 2 ^ 8). now rewrite Z.mul_mod_distr_r by lia.
  - f_equal. now rewrite <- !Z.shiftl_mul_pow2, Z.shiftl_lxor by lia.
Qed.

Lemma reversed_octet c b :
  is_u32 c -> is_byte b ->
  (t <- rd CRC_REVERSED_TABLE (Z.to_nat (Z.lxor (u8 c) b)) ;;
   Ret (Z.lxor (Z.shiftr c 8) t)) = Ret (octet_down c b).
Proof.
  intros Hc Hb. unfold is_u32 in Hc.
  rewrite reversed_row by (apply (lxor_bound 8); [lia|apply u8_byte|easy]).
  cbn [bind]. f_equal. unfold octet_down.
  rewrite (lxor_parts c 8) at 3 by lia.
  rewrite Z.lxor_assoc, (iter_linear bit_down 8 bit_down_linear (c / 2 ^ 8 * 2 ^ 8)).
  pose proof (iter_down_shift 8 (c / 2 ^ 8)) as E. change (Z.of_nat 8) with 8 in E. rewrite E. now rewrite Z.shiftr_div_pow2 by lia.
Qed.

Lemma quick_reference data : forall c,
  is_u32 c -> is_bytes data -> quick c data = Ret (crc_up c data) /\ is_u32 (crc_up c data).
Proof.
  induction data as [|b data IH]; intros c Hc Hd; [easy|].
  apply Forall_cons_iff in Hd as [Hb Hd].
  pose proof (quick_octet c b Hc Hb) as E. cbn [quick].
  destruct (rd _ _); [|discriminate E..]. cbn [bind] in *. apply Ret_inj in E. rewrite E.
  apply (IH (octet_up c b)); [now apply octet_up_u32|easy].
Qed.

Lemma reversed_loop_reference data : forall c,
  is_u32 c -> is_bytes data ->
  reversed_loop c data = Ret (crc_down c data) /\ is_u32 (crc_down c data).
Proof.
  induction data as [|b data IH]; intros c Hc Hd; [easy|].
  apply Forall_cons_iff in Hd as [Hb Hd].
  pose proof (reversed_octet c b Hc Hb) as E. cbn [reversed_loop].
  destruct (rd _ _); [|discriminate E..]. cbn [bind] in *. apply Ret_inj in E. rewrite E.
  apply (IH (octet_down c b)); [now apply octet_down_u32|easy].
Qed.

Lemma not32_alt c : is_u32 c -> not32 c = 2 ^ 32 - 1 - c.
Proof.
  intros H. unfold is_u32, not32, wrapu, Z.lnot in *.
  symmetry. apply (Z.mod_unique _ _ (-1)); lia.
Qed.

Lemma not32_u32 c : is_u32 c -> is_u32 (not32 c).
Proof. intros H. rewrite not32_alt by easy. unfold is_u32 in *. lia. Qed.

Lemma not32_not32 c : is_u32 c -> not32 (not32 c) = c.
Proof.
  intros H. rewrite (not32_alt (not32 c)) by now apply not32_u32.
  rewrite not32_alt by easy. lia.
Qed.

Lemma reversed_reference c data :
  is_u32 c -> is_bytes data ->
  reversed c data = Ret (not32 (crc_down (not32 c) data)) /\ is_u32 (crc_down (not32 c) data).
Proof.
  intros Hc Hd. destruct (reversed_loop_reference data (not32 c)) as [E B];
    [now apply not32_u32|easy|].
  unfold reversed. now rewrite E.
Qed.

(** ** Injectivity of the register *)

Lemma bit_up_kernel c : is_u32 c -> bit_up c = 0 -> c = 0.
Proof.
  intros Hc H. unfold bit_up, is_u32 in *.
  apply Z.lxor_eq in H. rewrite Z.shiftl_mul_pow2 in H by lia. unfold wrapu in H.
  pose proof (Z.div_mod (c * 2 ^ 1) (2 ^ 32)) as D.
  assert (Z.testbit c 31 = (2 ^ 31 <=? c)) as T.
  { rewrite Z.testbit_odd, Z.shiftr_div_pow2 by lia.
    destruct (Z.leb_spec (2 ^ 31) c).
    - now replace (c / 2 ^ 31) with 1 by (apply (Z.div_unique _ _ _ (c - 2 ^ 31)); lia).
    - now rewrite Z.div_small by lia. }
  rewrite T in H. unfold POLY in H. destruct (Z.leb_spec (2 ^ 31) c); lia.
Qed.

Lemma bit_down_kernel c : is_u32 c -> bit_down c = 0 -> c = 0.
Proof.
  intros Hc H. unfold bit_down, is_u32 in *.
  apply Z.lxor_eq in H. rewrite Z.shiftr_div_pow2, Z.bit0_odd in H by lia.
  change (2 ^ 1) with 2 in H.
  pose proof (Z.div_mod c 2) as D. rewrite Zmod_odd in D.
  unfold POLY_REVERSED in H. destruct (Z.odd c); lia.
Qed.

(** A linear step with no kernel is injective, however often it is taken. *)
Lemma iter_injective (f : Z -> Z) n a b :
  linear f -> (forall c, is_u32 c -> is_u32 (f c)) ->
  (forall c, is_u32 c -> f c = 0 -> c = 0) ->
  is_u32 a -> is_u32 b -> Nat.iter n f a = Nat.iter n f b -> a = b.
Proof.
  intros L B K Ha Hb E. apply Z.lxor_eq.
  assert (is_u32 (Z.lxor a b)) as Hx by now apply (lxor_bound 32).
  assert (Nat.iter n f (Z.lxor a b) = 0) as Z0.
  { now rewrite (iter_linear f n L), E, Z.lxor_nilpotent. }
  clear E. induction n as [|n IH]; [easy|]. apply IH. rewrite Nat.iter_succ in Z0.
  apply K; [|easy]. clear - Hx B. induction n as [|n IHn]; [easy|].
  rewrite Nat.iter_succ. now apply B.
Qed.

Lemma iter_up_injective n a b :
  is_u32 a -> is_u32 b -> Nat.iter n bit_up a = Nat.iter n bit_up b -> a = b.
Proof.
  apply iter_injective; auto using bit_up_linear, bit_up_kernel.
  intros. apply bit_up_u32.
Qed.

Lemma iter_down_injective n a b :
  is_u32 a -> is_u32 b -> Nat.iter n bit_down a = Nat.iter n bit_down b -> a = b.
Proof. apply iter_injective; auto using bit_down_linear, bit_down_kernel, bit_down_u32. Qed.

(** ** Windows of up to four octets

    The octets of a window enter the register as one number, big-endian at the
    top of the register for [quick], little-endian at its bottom for
    [reversed]. *)

Abbreviation len l := (Z.of_nat (List.length l)).

Fixpoint be (es : list Z) : Z :=
  match es with [] => 0 | e :: es' => e * 2 ^ (8 * len es') + be es' end.

Fixpoint le (es : list Z) : Z :=
  match es with [] => 0 | e :: es' => e + le es' * 2 ^ 8 end.

Lemma pow_cons (es : list Z) (e : Z) : 2 ^ (8 * len (e :: es)) = 256 * 2 ^ (8 * len es).
Proof.
  cbn [List.length]. rewrite Nat2Z.inj_succ.
  replace (8 * Z.succ (len es)) with (8 + 8 * len es) by lia. now rewrite Z.pow_add_r by lia.
Qed.

Lemma be_bound es : is_bytes es -> 0 <= be es < 2 ^ (8 * len es).
Proof.
  induction 1 as [|e es He Hes IH]; [cbn; lia|]. rewrite pow_cons. cbn [be].
  unfold is_byte in He. nia.
Qed.

Lemma le_bound es : is_bytes es -> 0 <= le es < 2 ^ (8 * len es).
Proof.
  induction 1 as [|e es He Hes IH]; [cbn; lia|]. rewrite pow_cons. cbn [le].
  unfold is_byte in He. lia.
Qed.

Lemma be_injective w w' :
  is_bytes w -> is_bytes w' -> List.length w = List.length w' -> be w = be w' -> w = w'.
Proof.
  intros H. revert w'. induction H as [|e w He Hw IH]; intros [|e' w'] H' L E; try easy.
  apply Forall_cons_iff in H' as [He' Hw']. injection L as L. cbn [be] in E. rewrite L in E.
  pose proof (be_bound w Hw) as B. pose proof (be_bound w' Hw') as B'. rewrite L in B.
  assert (e = e') as -> by nia. f_equal. apply IH; [easy..|]. lia.
Qed.

Lemma le_injective w w' :
  is_bytes w -> is_bytes w' -> List.length w = List.length w' -> le w = le w' -> w = w'.
Proof.
  intros H. revert w'. induction H as [|e w He Hw IH]; intros [|e' w'] H' L E; try easy.
  apply Forall_cons_iff in H' as [He' Hw']. injection L as L. cbn [le] in E.
  unfold is_byte in *. change (2 ^ 8) with 256 in E.
  assert (e = e') as -> by lia. f_equal. apply IH; [easy..|]. lia.
Qed.

(** A disjoint [^] is a sum. *)
Lemma lxor_disjoint x k y : 0 <= k -> 0 <= y < 2 ^ k -> Z.lxor (x * 2 ^ k) y = x * 2 ^ k + y.
Proof.
  intros Hk Hy. assert (0 < 2 ^ k) by lia. rewrite (lxor_parts (x * 2 ^ k + y) k) by easy.
  f_equal.
  - f_equal. rewrite Z.div_add_l, Z.div_small by lia. lia.
  - rewrite Z.add_comm, Z.mod_add by lia. now rewrite Z.mod_small.
Qed.

Lemma window_up es : forall c,
  is_bytes es -> (List.length es <= 4)%nat ->
  crc_up c es = Nat.iter (8 * List.length es) bit_up (Z.lxor c (be es * 2 ^ (32 - 8 * len es))).
Proof.
  induction es as [|e es IH]; intros c Hb L; [cbn; now rewrite Z.lxor_0_r|].
  apply Forall_cons_iff in Hb as [He Hb]. cbn [List.length] in L.
  change (crc_up c (e :: es)) with (crc_up (octet_up c e) es).
  rewrite IH by (easy || lia). pose proof (be_bound es Hb) as B.
  set (m := be es * 2 ^ (24 - 8 * len es)).
  assert (2 ^ 24 = 2 ^ (8 * len es) * 2 ^ (24 - 8 * len es)) as P
    by (rewrite <- Z.pow_add_r by lia; f_equal; lia).
  assert (0 <= m < 2 ^ 24) as Hm by (unfold m; nia).
  replace (be es * 2 ^ (32 - 8 * len es)) with (Nat.iter 8 bit_up m).
  2:{ rewrite iter_up_shift by (try change (32 - Z.of_nat 8) with 24; lia). unfold m.
      replace (32 - 8 * len es) with (24 - 8 * len es + 8) by lia.
      rewrite Z.pow_add_r by lia. cbn; lia. }
  replace (8 * List.length (e :: es))%nat with (8 * List.length es + 8)%nat by (cbn; lia).
  unfold octet_up. rewrite <- (iter_linear bit_up 8 bit_up_linear), <- iter_split.
  f_equal. rewrite Z.lxor_assoc, Z.shiftl_mul_pow2, lxor_disjoint by lia. f_equal.
  cbn [be List.length]. unfold m. rewrite P.
  replace (32 - 8 * Z.of_nat (S (List.length es))) with (24 - 8 * len es) by lia. lia.
Qed.

Lemma window_down es : forall c,
  is_bytes es ->
  crc_down c es = Nat.iter (8 * List.length es) bit_down (Z.lxor c (le es)).
Proof.
  induction es as [|e es IH]; intros c Hb; [cbn; now rewrite Z.lxor_0_r|].
  apply Forall_cons_iff in Hb as [He Hb].
  change (crc_down c (e :: es)) with (crc_down (octet_down c e) es).
  rewrite IH by easy.
  pose proof (iter_down_shift 8 (le es)) as E. change (Z.of_nat 8) with 8 in E.
  rewrite <- E at 1.
  replace (8 * List.length (e :: es))%nat with (8 * List.length es + 8)%nat by (cbn; lia).
  unfold octet_down. rewrite <- (iter_linear bit_down 8 bit_down_linear), <- iter_split.
  f_equal. rewrite Z.lxor_assoc. f_equal.
  rewrite Z.lxor_comm, lxor_disjoint by (unfold is_byte in He; lia). cbn [le]. lia.
Qed.

(** The rest of the message keeps two different registers different. *)
Lemma lxor_cancel a b x : Z.lxor a x = Z.lxor b x -> a = b.
Proof.
  intros E. rewrite <- (Z.lxor_0_r a), <- (Z.lxor_0_r b), <- (Z.lxor_nilpotent x).
  rewrite <- !Z.lxor_assoc. now rewrite E.
Qed.

Lemma crc_up_state s : forall a b,
  is_bytes s -> is_u32 a -> is_u32 b -> crc_up a s = crc_up b s -> a = b.
Proof.
  induction s as [|x s IH]; intros a b Hs Ha Hb E; [easy|].
  apply Forall_cons_iff in Hs as [Hx Hs].
  apply IH in E; [|easy|now apply octet_up_u32..]. unfold octet_up in E.
  apply iter_up_injective, lxor_cancel in E; [easy| |];
    apply (lxor_bound 32); rewrite ?Z.shiftl_mul_pow2 by lia; unfold is_byte in Hx; try easy; lia.
Qed.

Lemma crc_down_state s : forall a b,
  is_bytes s -> is_u32 a -> is_u32 b -> crc_down a s = crc_down b s -> a = b.
Proof.
  induction s as [|x s IH]; intros a b Hs Ha Hb E; [easy|].
  apply Forall_cons_iff in Hs as [Hx Hs].
  apply IH in E; [|easy|now apply octet_down_u32..]. unfold octet_down in E.
  apply iter_down_injective, lxor_cancel in E; [easy| |];
    apply (lxor_bound 32); unfold is_byte in Hx; try easy; lia.
Qed.

Lemma crc_up_app c a b : crc_up c (a ++ b) = crc_up (crc_up c a) b.
Proof. apply fold_left_app. Qed.

Lemma crc_down_app c a b : crc_down c (a ++ b) = crc_down (crc_down c a) b.
Proof. apply fold_left_app. Qed.

Lemma window_up_injective c w w' :
  is_u32 c -> is_bytes w -> is_bytes w' -> List.length w = List.length w' ->
  (List.length w <= 4)%nat -> crc_up c w = crc_up c w' -> w = w'.
Proof.
  intros Hc Hw Hw' L B E. rewrite !window_up in E by (easy || lia). rewrite L in E.
  pose proof (be_bound w Hw) as M. pose proof (be_bound w' Hw') as M'. rewrite L in M.
  assert (2 ^ 32 = 2 ^ (8 * len w') * 2 ^ (32 - 8 * len w')) as P
    by (rewrite <- Z.pow_add_r by lia; f_equal; lia).
  apply iter_up_injective in E; [|apply (lxor_bound 32); (easy || nia)..].
  rewrite !(Z.lxor_comm c) in E. apply lxor_cancel in E.
  apply be_injective; [easy..|]. nia.
Qed.

Lemma window_down_injective c w w' :
  is_u32 c -> is_bytes w -> is_bytes w' -> List.length w = List.length w' ->
  (List.length w <= 4)%nat -> crc_down c w = crc_down c w' -> w = w'.
Proof.
  intros Hc Hw Hw' L B E. rewrite !window_down in E by easy. rewrite L in E.
  pose proof (le_bound w Hw) as M. pose proof (le_bound w' Hw') as M'. rewrite L in M.
  assert (2 ^ (8 * len w') <= 2 ^ 32) as P by (apply Z.pow_le_mono_r; lia).
  apply iter_down_injective in E; [|apply (lxor_bound 32); (easy || lia)..].
  rewrite !(Z.lxor_comm c) in E. apply lxor_cancel in E.
  now apply le_injective.
Qed.

(** ** Properties *)

(** C13: the table-driven loops are the CRC: for every starting value and every
    block, [quick] returns the register of the bit-at-a-time division by
    0x04C11DB7, most significant bit first, and [reversed] that of the
    bit-reversed division by 0xEDB88320, complemented before and after; no
    table index leaves its table; and a block may be fed in pieces, the result
    of one being the starting value of the next. *)
Theorem crc_reference crc data more :
  is_u32 crc -> is_bytes data -> is_bytes more ->
  quick crc data = Ret (crc_up crc data) /\
  reversed crc data = Ret (not32 (crc_down (not32 crc) data)) /\
  quick crc (data ++ more) = (r <- quick crc data ;; quick r more) /\
  reversed crc (data ++ more) = (r <- reversed crc data ;; reversed r more).
Proof.
  intros Hc Hd Hm. assert (is_bytes (data ++ more)) as Ha by now apply Forall_app.
  destruct (quick_reference data crc Hc Hd) as [Q BQ].
  destruct (reversed_reference crc data Hc Hd) as [R BR].
  split; [easy|]. split; [easy|]. rewrite Q, R. cbn [bind].
  rewrite (proj1 (quick_reference _ crc Hc Ha)), (proj1 (quick_reference _ _ BQ Hm)).
  rewrite (proj1 (reversed_reference crc _ Hc Ha)).
  rewrite (proj1 (reversed_reference _ _ (not32_u32 _ BR) Hm)).
  rewrite not32_not32 by easy. now rewrite crc_up_app, crc_down_app.
Qed.

Lemma crc_reference_witness :
  reversed 0 (lit "123456789") = Ret 0xCBF43926 /\
  quick 0 (lit "12345" ++ lit "6789") = (r <- quick 0 (lit "12345") ;; quick r (lit "6789")).
Proof.
  split; [vm_compute; reflexivity|].
  apply (crc_reference 0 (lit "12345") (lit "6789")); [|apply lit_bytes..].
  split; [apply Z.le_refl|reflexivity].
Defined.

(** error detection: if two messages differ only inside a window of at
    most four consecutive octets (any burst of up to 32 bits that starts on an
    octet boundary), both CRCs tell them apart, whatever precedes and follows
    the window and whatever the starting value. *)
Theorem crc_burst crc p w w' s :
  is_u32 crc -> is_bytes p -> is_bytes w -> is_bytes w' -> is_bytes s ->
  List.length w = List.length w' -> (List.length w <= 4)%nat -> w <> w' ->
  quick crc (p ++ w ++ s) <> quick crc (p ++ w' ++ s) /\
  reversed crc (p ++ w ++ s) <> reversed crc (p ++ w' ++ s).
Proof.
  intros Hc Hp Hw Hw' Hs L B N.
  assert (is_bytes (p ++ w ++ s) /\ is_bytes (p ++ w' ++ s)) as [Ha Ha']
    by (split; apply Forall_app; split; try apply Forall_app; auto).
  destruct (quick_reference p crc Hc Hp) as [_ HQ].
  destruct (reversed_reference crc p Hc Hp) as [_ HR].
  rewrite (proj1 (quick_reference _ crc Hc Ha)), (proj1 (quick_reference _ crc Hc Ha')).
  destruct (reversed_reference crc _ Hc Ha) as [-> U], (reversed_reference crc _ Hc Ha') as [-> U'].
  split; intros E; apply Ret_inj in E; apply N.
  - rewrite !crc_up_app in E.
    apply crc_up_state in E; [|easy|eapply quick_reference; easy..].
    eapply window_up_injective; [apply HQ|easy..].
  - apply (f_equal not32) in E. rewrite !not32_not32 in E by easy. rewrite !crc_down_app in E.
    apply crc_down_state in E; [|easy|eapply reversed_loop_reference; easy..].
    eapply window_down_injective; [apply HR|easy..].
Qed.

Lemma crc_burst_witness :
  quick 7 (lit "head" ++ lit "good" ++ lit "tail") <> quick 7 (lit "head" ++ lit "evil" ++ lit "tail").
Proof.
  refine (proj1 (crc_burst 7 (lit "head") (lit "good") (lit "evil") (lit "tail")
    _ (lit_bytes _) (lit_bytes _) (lit_bytes _) (lit_bytes _) eq_refl (le_n _) _)).
  - split; [discriminate|reflexivity].
  - discriminate.
Defined.
