(* ===== verification/SubString.v ===== *)
(** * SubString: src/src/String/SubString.tpp, SubStringFind.tpp,
    SubStringExternal.tpp and Tokenizer.hpp

    [BasicSubString] is a window on characters that something else owns; here it
    is the list of these characters, so a position past the end of the window
    is where the model's knowledge ends and a read there is [Undef].  The
    template's [Checker] is the flag [rough]: [CheckerRough] throws where
    [CheckerNone] (that of [SubString] and [WSubString]) does nothing.
    Positions and counts are [size_t]: integers below 2^64, with [NPOS] the
    greatest.  Characters are compared as [std::char_traits] does, by value.

    [Splitter], [Tokenizer] and [divide] are over a character category, given
    by its predicate. *)

From Stdlib Require Import ZArith List Bool Lia.
From S2P Require Import Prelude Ascii.
Import ListNotations.

Definition NPOS : Z := 2 ^ 64 - 1.

Abbreviation size s := (Z.of_nat (List.length s)).

(** [CharTraits::compare] and [find]. *)
Fixpoint Traits_compare (str1 str2 : list Z) (n : nat) : outcome Z :=
  match n with
  | O => Ret 0
  | S n' =>
      match str1, str2 with
      | c1 :: s1, c2 :: s2 =>
          if negb (c1 =? c2) then Ret (if c1 <? c2 then -1 else 1) else Traits_compare s1 s2 n'
      | _, _ => Undef
      end
  end.

Fixpoint Traits_find (str : list Z) (ch : Z) : option nat :=
  match str with
  | [] => None
  | c :: s => if c =? ch then Some O else option_map S (Traits_find s ch)
  end.

(** ** Parts *)

Section Checker.
Variable rough : bool.

Definition check_position (length pos : Z) : outcome unit :=
  if rough && (length <? pos) then Throw OutOfRange else Ret tt.

(** [begin_ + pos], which must not leave the characters. *)
Definition begin_plus_position_ (s : list Z) (position : Z) : outcome (list Z) :=
  _ <- check_position (size s) position ;;
  if size s <? position then Undef else Ret (skipn (Z.to_nat position) s).

Definition get_available_length_ (s : list Z) (pos count : Z) : Z :=
  Z.min count (wrapu 64 (size s - pos)).

Definition substr (s : list Z) (pos count : Z) : outcome (list Z) :=
  b <- begin_plus_position_ s pos ;;
  Ret (firstn (Z.to_nat (get_available_length_ s pos count)) b).

Definition at_ (s : list Z) (pos : Z) : outcome Z :=
  b <- begin_plus_position_ s pos ;; rd b 0.

(** [copy]: the characters written to the target. *)
Definition copy (s : list Z) (count pos : Z) : outcome (list Z) :=
  let count := get_available_length_ s pos count in
  if count =? 0 then Ret []
  else
    _ <- check_position (size s) pos ;;
    if size s <? pos then Undef else Ret (firstn (Z.to_nat count) (skipn (Z.to_nat pos) s)).

Definition erase_front (s : list Z) (count : Z) : list Z := skipn (Z.to_nat (Z.min count (size s))) s.
Definition erase_back (s : list Z) (count : Z) : list Z :=
  firstn (Z.to_nat (size s - Z.min count (size s))) s.

(** ** Comparison *)

Definition compare (s str : list Z) : outcome Z :=
  r <- Traits_compare s str (Nat.min (length s) (length str)) ;;
  Ret (if negb (r =? 0) then r
       else if (length s =? length str)%nat then 0 else if (length s <? length str)%nat then -1 else 1).

Definition compare_part (s : list Z) (pos1 count1 : Z) (str : list Z) : outcome Z :=
  p <- substr s pos1 count1 ;; compare p str.

Definition compare_parts (s : list Z) (pos1 count1 : Z) (str : list Z) (pos2 count2 : Z) : outcome Z :=
  p <- substr s pos1 count1 ;; q <- substr str pos2 count2 ;; compare p q.

(** [compare(ConstPointer)]: [str] is the cells from the pointer on. *)
Fixpoint compare_c (s str : list Z) : outcome Z :=
  match str with
  | [] => Undef
  | ch :: str' =>
      match s with
      | [] => Ret (if ch =? 0 then 0 else -1)
      | ch2 :: s' =>
          if ch =? 0 then Ret (-1)
          else if negb (ch2 =? ch) then Ret (if ch2 <? ch then -1 else 1)
          else compare_c s' str'
      end
  end.

Definition compare_part_c (s : list Z) (pos1 count1 : Z) (ptr : list Z) : outcome Z :=
  p <- substr s pos1 count1 ;; compare_c p ptr.

Fixpoint equal_c (s str : list Z) : outcome bool :=
  match str with
  | [] => Undef
  | ch :: str' =>
      match s with
      | [] => Ret (ch =? 0)
      | ch2 :: s' => if (ch =? 0) || negb (ch2 =? ch) then Ret false else equal_c s' str'
      end
  end.

Definition equal (s str : list Z) : outcome bool :=
  if negb (length str =? length s)%nat then Ret false
  else r <- Traits_compare s str (length s) ;; Ret (r =? 0).

(** [operator <] with a C string on the right and on the left. *)
Definition lt_c (s str : list Z) : outcome bool := r <- compare_c s str ;; Ret (r <? 0).
Definition c_lt (str s : list Z) : outcome bool := r <- lt_c s str ;; Ret (negb r).
Definition lt_ (s str : list Z) : outcome bool := r <- compare s str ;; Ret (r <? 0).
End Checker.

(** ** Searches *)

Definition find_ch (s : list Z) (ch pos : Z) : Z :=
  if pos <? size s then
    match Traits_find (skipn (Z.to_nat pos) s) ch with
    | Some i => pos + Z.of_nat i
    | None => NPOS
    end
  else NPOS.

(** [std::search]: the first place where [str] stands, or the end. *)
Fixpoint is_prefix (str s : list Z) : bool :=
  match str, s with
  | [], _ => true
  | c :: str', d :: s' => (c =? d) && is_prefix str' s'
  | _, [] => false
  end.

Fixpoint search (s str : list Z) : nat :=
  if is_prefix str s then O else match s with [] => O | _ :: s' => S (search s' str) end.

Definition find_str (s str : list Z) (pos : Z) : outcome Z :=
  if (length str =? 0)%nat then Ret (if size s <=? pos then NPOS else 0)
  else if get_available_length_ s pos (size s) <? size str then Ret NPOS
  else if size s <? pos then Undef
  else
    let rest := skipn (Z.to_nat pos) s in
    let found := search rest str in
    Ret (if (found =? length rest)%nat then NPOS else pos + Z.of_nat found).

(** [rfind(ValueType)]: from [last] down to [begin_]. *)
Fixpoint rfind_loop (p : nat -> bool) (last : nat) : Z :=
  if p last then Z.of_nat last
  else match last with O => NPOS | S l => rfind_loop p l end.

Definition char_at (s : list Z) (i : nat) : Z := nth i s 0.

Definition rfind_ch (s : list Z) (ch pos : Z) : Z :=
  if (length s =? 0)%nat then NPOS
  else rfind_loop (fun i => char_at s i =? ch) (Z.to_nat (Z.min (size s - 1) pos)).

Definition occurs_at (s str : list Z) (i : nat) : bool :=
  match Traits_compare (skipn i s) str (length str) with Ret 0 => true | _ => false end.

Definition rfind_str (s str : list Z) (pos : Z) : Z :=
  if (length s <? length str)%nat then NPOS
  else
    let pos := if size s <? pos then size s else pos in
    if (length str =? 0)%nat then pos
    else
      let pos := if size s - size str <? pos then size s - size str else pos in
      rfind_loop (occurs_at s str) (Z.to_nat pos).

(** [rfind(ptr, pos, count)]: [ptr] as a C string of [str]. *)
Definition rfind_count (s str : list Z) (pos count : Z) : Z := rfind_str s str pos.

(** The loops [for (; pos < length_; pos++)] of the [find_first] functions. *)
Fixpoint first_loop (p : Z -> bool) (s : list Z) (pos : Z) : Z :=
  match s with
  | [] => NPOS
  | c :: s' => if p c then pos else first_loop p s' (pos + 1)
  end.

Definition first_from (p : Z -> bool) (s : list Z) (pos : Z) : Z :=
  if pos <? size s then first_loop p (skipn (Z.to_nat pos) s) pos else NPOS.

Definition among (str : list Z) (c : Z) : bool :=
  match Traits_find str c with Some _ => true | None => false end.

Definition find_first_of (s str : list Z) (pos : Z) : Z := first_from (among str) s pos.
Definition find_first_not_of_ch (s : list Z) (ch pos : Z) : Z := first_from (fun c => negb (c =? ch)) s pos.
Definition find_first_not_of (s str : list Z) (pos : Z) : Z := first_from (fun c => negb (among str c)) s pos.

Definition last_to (p : Z -> bool) (s str : list Z) (pos : Z) : Z :=
  if (length s =? 0)%nat || (length str =? 0)%nat then NPOS
  else rfind_loop (fun i => p (char_at s i)) (Z.to_nat (if size s <=? pos then size s - 1 else pos)).

Definition find_last_of (s str : list Z) (pos : Z) : Z := last_to (among str) s str pos.
Definition find_last_not_of (s str : list Z) (pos : Z) : Z := last_to (fun c => negb (among str c)) s str pos.

(** ** Tokens *)

Section Tokenizer.
Variable category : Z -> bool.

(** [GetToken<true>]: the text left is the state. *)
Definition get_token_empty (str : list Z) : option (list Z * list Z) :=
  match str with
  | [] => None
  | _ =>
      let separator := find_owned category str in
      Some (firstn separator str,
            if (separator =? length str)%nat then [] else skipn (separator + 1) str)
  end.

(** [GetToken<false>]. *)
Definition get_token_nonempty (str : list Z) : option (list Z * list Z) :=
  let begin := skipn (find_nonowned category str) str in
  let e := find_owned category begin in
  if (e =? 0)%nat then None else Some (firstn e begin, skipn e begin).

Definition get_token (EMPTY : bool) (str : list Z) : option (list Z * list Z) :=
  if EMPTY then get_token_empty str else get_token_nonempty str.

(** [get_separator] after a call of [get_token] on [str] that gave a token: the text
    from where [separator] points. *)
Definition get_separator (EMPTY : bool) (str : list Z) : list Z :=
  if EMPTY then skipn (find_owned category str) str
  else let begin := skipn (find_nonowned category str) str in skipn (find_owned category begin) begin.

(** All the tokens, as the loop [while (splitter.get_token(token))] sees them. *)
Fixpoint tokens_loop (EMPTY : bool) (fuel : nat) (str : list Z) : outcome (list (list Z)) :=
  match get_token EMPTY str with
  | None => Ret []
  | Some (token, str') =>
      match fuel with
      | O => Undef
      | S fuel' => ts <- tokens_loop EMPTY fuel' str' ;; Ret (token :: ts)
      end
  end.

Definition tokens (EMPTY : bool) (str : list Z) : outcome (list (list Z)) :=
  tokens_loop EMPTY (length str) str.

(** [divide]: the calls of the callback, [true] for [owned]. *)
Fixpoint divide_loop (fuel : nat) (last : list Z) : outcome (list (bool * list Z)) :=
  match fuel with
  | O => Undef
  | S fuel' =>
      let cur := find_owned category last in
      let nonowned := if (cur =? 0)%nat then [] else [(false, firstn cur last)] in
      if (cur =? length last)%nat then Ret nonowned
      else
        let last := skipn cur last in
        let cur := find_nonowned category last in
        let owned := if (cur =? 0)%nat then [] else [(true, firstn cur last)] in
        if (cur =? length last)%nat then Ret (nonowned ++ owned)
        else r <- divide_loop fuel' (skipn cur last) ;; Ret (nonowned ++ owned ++ r)
  end.

Definition divide (str : list Z) : outcome (list (bool * list Z)) := divide_loop (S (length str)) str.
End Tokenizer.

(** ** Searches find the first or the last place

    [r] is the least index in [lo, n), or the greatest up to [hi], with [p]; or
    [NPOS] when there is none. *)
Definition first_at (p : nat -> bool) (lo n : nat) (r : Z) : Prop :=
  (r = NPOS /\ forall i, (lo <= i < n)%nat -> p i = false) \/
  (exists i, r = Z.of_nat i /\ (lo <= i < n)%nat /\ p i = true /\ forall j, (lo <= j < i)%nat -> p j = false).

Definition last_at (p : nat -> bool) (hi : nat) (r : Z) : Prop :=
  (r = NPOS /\ forall i, (i <= hi)%nat -> p i = false) \/
  (exists i, r = Z.of_nat i /\ (i <= hi)%nat /\ p i = true /\ forall j, (i < j <= hi)%nat -> p j = false).

Lemma rfind_loop_spec p hi : last_at p hi (rfind_loop p hi).
Proof.
  induction hi as [|hi IH]; cbn [rfind_loop]; destruct (p _) eqn:E.
  1, 3: right; eexists; repeat split; [easy|easy|lia].
  - left. split; [easy|]. intros i Hi. now replace i with O by lia.
  - destruct IH as [[-> H]|(i & -> & L & P & H)].
    + left. split; [easy|]. intros i Hi. destruct (Nat.eq_dec i (S hi)) as [->|]; [easy|apply H; lia].
    + right. exists i. repeat split; auto. intros j Hj. destruct (Nat.eq_dec j (S hi)) as [->|]; [easy|apply H; lia].
Qed.

(** The [find_first] loops. *)
Lemma first_loop_spec p s k :
  first_at (fun i => p (char_at s (i - k))) k (k + length s) (first_loop p s (Z.of_nat k)).
Proof.
  revert k. induction s as [|c s IH]; intros k; cbn [first_loop].
  - left. split; [easy|]. cbn. lia.
  - destruct (p c) eqn:E.
    + right. exists k. rewrite Nat.sub_diag. cbn. repeat split; auto; lia.
    + replace (Z.of_nat k + 1) with (Z.of_nat (S k)) by lia.
      destruct (IH (S k)) as [[-> H]|(i & -> & L & P & H)].
      * left. split; [easy|]. cbn [length]. intros i Hi. destruct (Nat.eq_dec i k) as [->|]; [now rewrite Nat.sub_diag|].
        replace (i - k)%nat with (S (i - S k)) by lia. apply H. lia.
      * right. exists i. cbn [length]. replace (i - k)%nat with (S (i - S k)) by lia. repeat split; auto; try lia.
        intros j Hj. destruct (Nat.eq_dec j k) as [->|]; [now rewrite Nat.sub_diag|].
        replace (j - k)%nat with (S (j - S k)) by lia. apply H. lia.
Qed.

Lemma first_at_ext p q lo n r : (forall i, (lo <= i < n)%nat -> p i = q i) -> first_at p lo n r -> first_at q lo n r.
Proof.
  intros E [[-> H]|(i & -> & L & P & H)].
  - left. split; [easy|]. intros i Hi. rewrite <- E by easy. now apply H.
  - right. exists i. repeat split; try easy; try lia; [now rewrite <- E|].
    intros j Hj. rewrite <- E by lia. now apply H.
Qed.

Lemma last_at_ext p q hi r : (forall i, (i <= hi)%nat -> p i = q i) -> last_at p hi r -> last_at q hi r.
Proof.
  intros E [[-> H]|(i & -> & L & P & H)].
  - left. split; [easy|]. intros i Hi. rewrite <- E by easy. now apply H.
  - right. exists i. repeat split; try easy; [now rewrite <- E|].
    intros j Hj. rewrite <- E by lia. now apply H.
Qed.

Lemma char_at_skipn s k i : char_at (skipn k s) i = char_at s (k + i).
Proof. apply nth_skipn. Qed.

Lemma first_from_spec p s pos : 0 <= pos ->
  first_at (fun i => p (char_at s i)) (Z.to_nat pos) (length s) (first_from p s pos).
Proof.
  intros H. unfold first_from. destruct (Z.ltb_spec pos (size s)).
  - pose proof (first_loop_spec p (skipn (Z.to_nat pos) s) (Z.to_nat pos)) as F.
    rewrite Z2Nat.id in F by easy. rewrite length_skipn in F.
    replace (Z.to_nat pos + (length s - Z.to_nat pos))%nat with (length s) in F by lia.
    eapply first_at_ext; [|exact F]. intros i Hi. cbn. rewrite char_at_skipn. do 2 f_equal. lia.
  - left. split; [easy|]. lia.
Qed.

Lemma Traits_find_loop s ch k :
  match Traits_find s ch with Some i => Z.of_nat k + Z.of_nat i | None => NPOS end
  = first_loop (fun c => c =? ch) s (Z.of_nat k).
Proof.
  revert k. induction s as [|c s IH]; intros k; cbn [Traits_find first_loop]; [easy|].
  destruct (c =? ch); [lia|]. replace (Z.of_nat k + 1) with (Z.of_nat (S k)) by lia. rewrite <- IH.
  destruct (Traits_find s ch); cbn [option_map]; [lia|easy].
Qed.

Lemma find_ch_first s ch pos : 0 <= pos -> find_ch s ch pos = first_from (fun c => c =? ch) s pos.
Proof.
  intros H. unfold find_ch, first_from. destruct (_ <? _); [|easy].
  pose proof (Traits_find_loop (skipn (Z.to_nat pos) s) ch (Z.to_nat pos)) as E. now rewrite Z2Nat.id in E.
Qed.

Lemma search_spec s str : str <> [] ->
  (search s str <= length s)%nat /\
  (forall j, (j < search s str)%nat -> is_prefix str (skipn j s) = false) /\
  ((search s str < length s)%nat -> is_prefix str (skipn (search s str) s) = true).
Proof.
  intros N. induction s as [|c s (IH1 & IH2 & IH3)]; cbn [search].
  - destruct str; [easy|]. cbn. repeat split; lia.
  - destruct (is_prefix str (c :: s)) eqn:E.
    + repeat split; [lia|lia|easy].
    + cbn [length]. split; [lia|]. split.
      * intros [|j] Hj; [exact E|]. apply IH2. lia.
      * intros Hl. apply IH3. lia.
Qed.

Lemma find_str_spec s str pos :
  str <> [] -> 0 <= pos <= size s -> size s < NPOS ->
  exists r, find_str s str pos = Ret r /\
    first_at (fun i => is_prefix str (skipn i s)) (Z.to_nat pos) (length s) r.
Proof.
  intros N P Hs. unfold find_str. destruct str as [|c0 str0] eqn:ES; [easy|]. rewrite <- ES in *.
  replace (length str =? 0)%nat with false by (now rewrite ES).
  assert (get_available_length_ s pos (size s) = size s - pos) as ->.
  { unfold get_available_length_, NPOS in *. rewrite wrapu_small by lia. lia. }
  assert (forall i, (length s < i + length str)%nat -> is_prefix str (skipn i s) = false) as Short.
  { intros i Hi. assert (length (skipn i s) < length str)%nat as L by (rewrite length_skipn, ES in *; cbn in *; lia).
    revert L. generalize (skipn i s). clear. induction str as [|a str IH]; intros [|b l] L; cbn in *; try lia.
    rewrite IH by lia. apply andb_false_r. }
  destruct (Z.ltb_spec (size s - pos) (size str)).
  - eexists. split; [reflexivity|]. left. split; [easy|]. intros i Hi. apply Short. lia.
  - replace (size s <? pos) with false by (symmetry; apply Z.ltb_ge; lia).
    eexists. split; [reflexivity|]. cbv zeta. set (rest := skipn (Z.to_nat pos) s).
    destruct (search_spec rest str N) as (S1 & S2 & S3).
    assert (length rest = length s - Z.to_nat pos)%nat as Lr by apply length_skipn.
    assert (forall i, skipn i rest = skipn (Z.to_nat pos + i) s) as Sk
      by (intros i; unfold rest; rewrite skipn_skipn; f_equal; lia).
    destruct (Nat.eqb_spec (search rest str) (length rest)) as [E|E].
    + left. split; [easy|]. intros i Hi. specialize (S2 (i - Z.to_nat pos)%nat). rewrite Sk in S2.
      replace (Z.to_nat pos + (i - Z.to_nat pos))%nat with i in S2 by lia. apply S2. lia.
    + right. exists (Z.to_nat pos + search rest str)%nat. rewrite <- Sk. repeat split; try lia; [apply S3; lia|].
      intros j Hj. specialize (S2 (j - Z.to_nat pos)%nat). rewrite Sk in S2.
      replace (Z.to_nat pos + (j - Z.to_nat pos))%nat with j in S2 by lia. apply S2. lia.
Qed.

Lemma Traits_compare_prefix s str : (length str <= length s)%nat ->
  match Traits_compare s str (length str) with Ret 0 => true | _ => false end = is_prefix str s.
Proof.
  revert s. induction str as [|c str IH]; intros [|d s] L; cbn in *; try (easy || lia).
  rewrite (Z.eqb_sym c d). destruct (Z.eqb_spec d c); cbn [negb andb].
  - apply IH. lia.
  - now destruct (d <? c).
Qed.

Lemma rfind_str_spec s str pos : str <> [] -> 0 <= pos -> (length str <= length s)%nat ->
  last_at (fun i => is_prefix str (skipn i s)) (Z.to_nat (Z.min pos (size s - size str))) (rfind_str s str pos).
Proof.
  intros N P L. unfold rfind_str. replace (length s <? length str)%nat with false by (symmetry; apply Nat.ltb_ge; lia).
  replace (length str =? 0)%nat with false by (destruct str; [easy|now symmetry]). cbv zeta.
  set (p := if size s - size str <? _ then _ else _).
  assert (p = Z.min pos (size s - size str)) as ->.
  { subst p. destruct (Z.ltb_spec (size s) pos), (Z.ltb_spec (size s - size str) (size s));
      try destruct (Z.ltb_spec (size s - size str) pos); lia. }
  eapply last_at_ext; [|apply rfind_loop_spec]. intros i Hi. unfold occurs_at.
  apply Traits_compare_prefix. rewrite length_skipn. lia.
Qed.

Lemma is_prefix_iff str s : is_prefix str s = true <-> exists r, s = str ++ r.
Proof.
  revert s. induction str as [|c str IH]; intros s; cbn.
  - split; [now exists s|easy].
  - destruct s as [|d s]; [split; [easy|now intros [r [=]]]|].
    rewrite andb_true_iff, IH, Z.eqb_eq. split.
    + intros [-> [r ->]]. now exists r.
    + intros [r [= -> ->]]. eauto.
Qed.

Lemma among_iff str c : among str c = true <-> In c str.
Proof.
  unfold among. induction str as [|d str IH]; cbn; [easy|].
  destruct (Z.eqb_spec d c); [split; auto|].
  destruct (Traits_find str c); cbn in *; rewrite IH; intuition congruence.
Qed.

Lemma rfind_ch_spec s ch pos : s <> [] -> 0 <= pos ->
  last_at (fun i => char_at s i =? ch) (Z.to_nat (Z.min pos (size s - 1))) (rfind_ch s ch pos).
Proof. intros N P. unfold rfind_ch. destruct s; [easy|]. rewrite Z.min_comm. apply rfind_loop_spec. Qed.

Lemma last_to_spec p s str pos : s <> [] -> str <> [] -> 0 <= pos ->
  last_at (fun i => p (char_at s i)) (Z.to_nat (Z.min pos (size s - 1))) (last_to p s str pos).
Proof.
  intros N N' P. unfold last_to. destruct s as [|c s], str; [easy..|]. cbn [length Nat.eqb orb].
  replace (if _ <=? pos then _ else _) with (Z.min pos (Z.of_nat (S (length s)) - 1)) by (split_ifs; lia).
  apply rfind_loop_spec.
Qed.

(** ** Comparison is the lexicographic order *)

Fixpoint lex (s t : list Z) : Z :=
  match s, t with
  | [], [] => 0
  | [], _ :: _ => -1
  | _ :: _, [] => 1
  | c :: s', d :: t' => if c =? d then lex s' t' else if c <? d then -1 else 1
  end.

Lemma compare_lex s t : compare s t = Ret (lex s t).
Proof.
  unfold compare. revert t. induction s as [|c s IH]; intros [|d t]; try easy.
  cbn [length Nat.min Traits_compare lex]. destruct (c =? d); cbn [negb].
  - apply IH.
  - cbn [bind]. now destruct (c <? d).
Qed.

Lemma lex_eq s t : lex s t = 0 <-> s = t.
Proof.
  revert t. induction s as [|c s IH]; intros [|d t]; cbn; try easy.
  destruct (Z.eqb_spec c d) as [->|N].
  - rewrite IH. split; congruence.
  - destruct (c <? d); split; congruence.
Qed.

Lemma lex_opp s t : lex t s = - lex s t.
Proof.
  revert t. induction s as [|c s IH]; intros [|d t]; cbn; try easy. rewrite (Z.eqb_sym d c), IH.
  destruct (Z.eqb_spec c d); [easy|]. destruct (Z.ltb_spec c d), (Z.ltb_spec d c); lia.
Qed.

Lemma lex_lt_trans s t u : lex s t < 0 -> lex t u < 0 -> lex s u < 0.
Proof.
  revert t u. induction s as [|c s IH]; intros [|d t] [|e u]; cbn; try lia.
  destruct (Z.eqb_spec c d), (Z.eqb_spec d e), (Z.eqb_spec c e);
    try destruct (Z.ltb_spec c d); try destruct (Z.ltb_spec d e); try destruct (Z.ltb_spec c e); try lia.
  apply IH.
Qed.

Lemma equal_spec s t : equal s t = Ret (lex s t =? 0).
Proof.
  unfold equal. destruct (Nat.eqb_spec (length t) (length s)) as [E|N]; cbn [negb].
  - revert t E. induction s as [|c s IH]; intros [|d t] E; try easy. injection E as E. cbn [length Traits_compare lex].
    destruct (c =? d); cbn [negb]; [now apply IH|]. now destruct (c <? d).
  - destruct (Z.eqb_spec (lex s t) 0) as [E|]; [|easy]. apply lex_eq in E. now subst.
Qed.

Lemma compare_c_spec s t r : Forall (fun c => c <> 0) t ->
  compare_c s (t ++ 0 :: r) = Ret (if is_prefix t s && negb (length t =? length s)%nat then -1 else lex s t).
Proof.
  revert s. induction t as [|d t IH]; intros [|c s] F; cbn.
  - easy.
  - easy.
  - inversion F. now destruct (Z.eqb_spec d 0).
  - inversion F; subst. destruct (Z.eqb_spec d 0); [easy|]. rewrite (Z.eqb_sym d c).
    destruct (c =? d); cbn [negb andb]; [now apply IH|]. now destruct (c <? d).
Qed.

Lemma equal_c_spec s t r : Forall (fun c => c <> 0) t -> equal_c s (t ++ 0 :: r) = Ret (lex s t =? 0).
Proof.
  revert s. induction t as [|d t IH]; intros [|c s] F; cbn; try easy.
  - inversion F. now destruct (Z.eqb_spec d 0).
  - inversion F; subst. destruct (Z.eqb_spec d 0); [easy|]. cbn [orb].
    destruct (c =? d); cbn [negb]; [now apply IH|]. now destruct (c <? d).
Qed.

(** ** Tokens are the pieces between separators *)

Fixpoint split (p : Z -> bool) (s : list Z) : list (list Z) :=
  match s with
  | [] => []
  | c :: s' =>
      if p c then [] :: split p s'
      else match split p s' with [] => [[c]] | t :: ts => (c :: t) :: ts end
  end.

Definition nonempty (t : list Z) : bool := match t with [] => false | _ => true end.

Section Tokens.
Variable p : Z -> bool.

Lemma split_first s : s <> [] ->
  split p s = firstn (find_owned p s) s :: split p (skipn (S (find_owned p s)) s).
Proof.
  induction s as [|c s IH]; intros N; [easy|]. cbn [split find_owned].
  destruct (p c); [easy|]. cbn [firstn skipn].
  destruct s as [|d s]; [easy|]. now rewrite IH by easy.
Qed.

Lemma get_token_empty_split s :
  match get_token_empty p s with
  | None => split p s = []
  | Some (t, s') => split p s = t :: split p s' /\ (length s' < length s)%nat
  end.
Proof.
  destruct s as [|c s]; [easy|]. rewrite split_first by easy. unfold get_token_empty.
  pose proof (find_owned_le p (c :: s)) as L. set (n := find_owned p (c :: s)) in *.
  rewrite Nat.add_1_r. destruct (Nat.eqb_spec n (length (c :: s))).
  - split; [|cbn; lia]. f_equal. now rewrite skipn_all2 by lia.
  - split; [easy|]. rewrite length_skipn. cbn [length] in *. lia.
Qed.

Lemma filter_skip s : filter nonempty (split p (skipn (find_nonowned p s) s)) = filter nonempty (split p s).
Proof.
  induction s as [|c s IH]; [easy|]. cbn [find_nonowned]. destruct (p c) eqn:E; cbn [negb]; [|easy].
  cbn [skipn split]. rewrite E. apply IH.
Qed.

Lemma get_token_nonempty_split s :
  match get_token_nonempty p s with
  | None => filter nonempty (split p s) = []
  | Some (t, s') =>
      filter nonempty (split p s) = t :: filter nonempty (split p s') /\ (length s' < length s)%nat
  end.
Proof.
  unfold get_token_nonempty. rewrite <- filter_skip.
  pose proof (length_skipn (find_nonowned p s) s) as Ls.
  pose proof (find_nonowned_stop p s) as St.
  destruct (skipn (find_nonowned p s) s) as [|c b]; [easy|].
  specialize (St c b eq_refl). rewrite split_first by easy.
  cbn [find_owned]. rewrite St. cbn [Nat.eqb firstn filter nonempty]. split.
  - f_equal. pose proof (find_owned_stop p b) as Sp. set (n := find_owned p b) in *.
    change (skipn (S n) (c :: b)) with (skipn n b).
    replace (skipn (S (S n)) (c :: b)) with (skipn 1 (skipn n b)) by (rewrite skipn_skipn; reflexivity).
    destruct (skipn n b) as [|d r]; [easy|]. specialize (Sp d r eq_refl).
    cbn [skipn split]. now rewrite Sp.
  - cbn [skipn]. rewrite length_skipn. cbn [length] in Ls. lia.
Qed.

Lemma tokens_loop_split b fuel s : (length s <= fuel)%nat ->
  tokens_loop p b fuel s = Ret (if b then split p s else filter nonempty (split p s)).
Proof.
  assert (match get_token p b s with
          | None => (if b then split p s else filter nonempty (split p s)) = []
          | Some (t, s') =>
              (if b then split p s else filter nonempty (split p s))
              = t :: (if b then split p s' else filter nonempty (split p s')) /\ (length s' < length s)%nat
          end) as G by (destruct b; [apply get_token_empty_split|apply get_token_nonempty_split]).
  revert s G. induction fuel as [|fuel IH]; intros s G L; cbn [tokens_loop];
    destruct (get_token p b s) as [[t s']|]; rewrite ?G; try easy; destruct G as [-> G]; [lia|].
  rewrite IH; [easy| |lia]. destruct b; [apply get_token_empty_split|apply get_token_nonempty_split].
Qed.
End Tokens.

(** The separator is where the token ends, a character of the category or the end
    of the text; the next search starts after it, or at it when empty tokens
    are dropped. *)
Lemma get_separator_exact (p : Z -> bool) b s t s' : get_token p b s = Some (t, s') ->
  (exists skipped, s = skipped ++ t ++ get_separator p b s /\ (b = true -> skipped = [])) /\
  match get_separator p b s with
  | [] => s' = []
  | c :: r => p c = true /\ s' = if b then r else c :: r
  end.
Proof.
  destruct b; unfold get_token, get_separator.
  - unfold get_token_empty. destruct s as [|c s]; [discriminate|]. cbv zeta. generalize (c :: s). intros l.
    remember (find_owned p l) as n eqn:En. intros [= <- <-]. split.
    + exists []. split; [|easy]. symmetry. apply firstn_skipn.
    + pose proof (find_owned_stop p l) as St. rewrite <- En in St. pose proof (length_skipn n l) as L.
      pose proof (find_owned_le p l) as Le. rewrite <- En in Le.
      destruct (skipn n l) as [|d r] eqn:E; cbn [length] in L.
      * now rewrite (proj2 (Nat.eqb_eq n (length l))) by lia.
      * rewrite (proj2 (Nat.eqb_neq n (length l))) by lia. split; [now apply (St d r)|].
        rewrite Nat.add_comm, <- skipn_skipn, E. reflexivity.
  - unfold get_token_nonempty. cbv zeta. set (l := skipn (find_nonowned p s) s). set (n := find_owned p l).
    destruct (n =? 0)%nat; [discriminate|]. intros [= <- <-]. split.
    + exists (firstn (find_nonowned p s) s). split; [|easy]. rewrite (firstn_skipn n l). symmetry. apply firstn_skipn.
    + pose proof (find_owned_stop p l) as St. fold n in St. destruct (skipn n l) as [|d r]; [easy|].
      split; [now apply (St d r)|easy].
Qed.

(** [split] on its own terms: the pieces hold no separator, and with one
    separator after each they give the text back; only the last may lack it. *)
Inductive pieces (p : Z -> bool) : list (list Z) -> list Z -> Prop :=
| pieces_nil : pieces p [] []
| pieces_last t : t <> [] -> Forall (fun c => p c = false) t -> pieces p [t] t
| pieces_cons t c ts s :
    Forall (fun c => p c = false) t -> p c = true -> pieces p ts s -> pieces p (t :: ts) (t ++ c :: s).

Lemma split_pieces p s : pieces p (split p s) s.
Proof.
  induction s as [|c s IH]; cbn; [constructor|]. destruct (p c) eqn:E.
  - apply (pieces_cons p [] c _ s); auto.
  - inversion IH; subst.
    + now apply pieces_last; [|auto].
    + now apply pieces_last; [|auto].
    + apply (pieces_cons p (c :: t)); auto.
Qed.

Lemma pieces_split p ts s : pieces p ts s -> ts = split p s.
Proof.
  induction 1 as [|t N F|t c ts s F C _ IH]; [easy| |].
  - destruct t as [|c t]; [easy|clear N]. revert c F. induction t as [|d t IH]; intros c F; inversion F as [|? ? Hc F']; subst.
    + cbn. now rewrite Hc.
    + specialize (IH d F'). cbn [split] in *. now rewrite Hc, <- IH.
  - induction F as [|d t Hd F IHt]; cbn [app split]; [now rewrite C, IH|]. now rewrite Hd, <- IHt.
Qed.

(** [divide]: maximal runs, with the kind of their characters. *)
Fixpoint runs (p : Z -> bool) (s : list Z) : list (bool * list Z) :=
  match s with
  | [] => []
  | c :: s' =>
      match runs p s' with
      | (k, t) :: rs => if Bool.eqb k (p c) then (k, c :: t) :: rs else (p c, [c]) :: (k, t) :: rs
      | [] => [(p c, [c])]
      end
  end.

Lemma runs_first p c s :
  runs p (c :: s) = (p c, firstn (find_owned (fun d => negb (Bool.eqb (p d) (p c))) (c :: s)) (c :: s))
                    :: runs p (skipn (find_owned (fun d => negb (Bool.eqb (p d) (p c))) (c :: s)) (c :: s)).
Proof.
  revert c. induction s as [|d s IH]; intros c; cbn [find_owned]; rewrite eqb_reflx; cbn [negb].
  - reflexivity.
  - cbn [find_owned firstn skipn]. cbn [runs] in IH |- *. specialize (IH d). cbn [runs find_owned] in IH.
    rewrite eqb_reflx in IH. cbn [negb firstn skipn] in IH. rewrite IH.
    destruct (Bool.eqb (p d) (p c)) eqn:E; cbn [negb firstn skipn].
    + apply eqb_prop in E. now rewrite E.
    + cbn [runs]. now rewrite IH.
Qed.

Lemma find_owned_ext p q s : (forall c, p c = q c) -> find_owned p s = find_owned q s.
Proof. intros E. induction s as [|c s IH]; [easy|]. cbn [find_owned]. rewrite E. now destruct (q c); [|rewrite IH]. Qed.

(** Taking a run of characters outside (inside) the category off the front. *)
Lemma runs_owned p s :
  runs p s = (if (find_owned p s =? 0)%nat then [] else [(false, firstn (find_owned p s) s)])
             ++ runs p (skipn (find_owned p s) s).
Proof.
  destruct s as [|c s]; [easy|]. cbn [find_owned]. destruct (p c) eqn:E; [easy|]. cbn [Nat.eqb app].
  rewrite runs_first, E.
  rewrite (find_owned_ext _ p (c :: s)) by (intros d; now destruct (p d)). cbn [find_owned]. now rewrite E.
Qed.

Lemma runs_nonowned p s :
  runs p s = (if (find_nonowned p s =? 0)%nat then [] else [(true, firstn (find_nonowned p s) s)])
             ++ runs p (skipn (find_nonowned p s) s).
Proof.
  destruct s as [|c s]; [easy|]. cbn [find_nonowned]. destruct (p c) eqn:E; cbn [negb]; [|easy]. cbn [Nat.eqb app].
  rewrite runs_first, E.
  rewrite (find_owned_ext _ (fun d => negb (p d)) (c :: s)) by (intros d; now destruct (p d)).
  cbn [find_owned]. rewrite E. cbn [negb]. now rewrite <- find_nonowned_owned.
Qed.

Lemma divide_loop_runs p fuel s : (length s < fuel)%nat -> divide_loop p fuel s = Ret (runs p s).
Proof.
  revert s. induction fuel as [|fuel IH]; intros s L; [lia|]. cbn [divide_loop].
  rewrite (runs_owned p s). pose proof (find_owned_stop p s) as St. pose proof (length_skipn (find_owned p s) s) as Ls.
  pose proof (find_owned_le p s) as Le.
  destruct (Nat.eqb_spec (find_owned p s) (length s)) as [E|N].
  - rewrite skipn_all2 by lia. now rewrite app_nil_r.
  - destruct (skipn (find_owned p s) s) as [|c r]; [cbn in Ls; lia|]. specialize (St c r eq_refl).
    rewrite (runs_nonowned p (c :: r)). cbn [find_nonowned]. rewrite St. cbn [negb].
    destruct (Nat.eqb_spec (S (find_nonowned p r)) (length (c :: r))) as [E|N'].
    + rewrite skipn_all2 by lia. cbn [runs]. now rewrite app_nil_r.
    + rewrite IH; [easy|]. rewrite length_skipn. cbn [length] in *. lia.
Qed.

(** [runs] on its own terms. *)
Lemma runs_text p s : concat (map snd (runs p s)) = s.
Proof.
  induction s as [|c s IH]; [easy|]. cbn [runs]. destruct (runs p s) as [|[k t] rs]; cbn in IH |- *.
  - now rewrite <- IH.
  - destruct (Bool.eqb k (p c)); cbn; now rewrite IH.
Qed.

Inductive alternate (p : Z -> bool) : bool -> list (bool * list Z) -> Prop :=
| alternate_nil b : alternate p b []
| alternate_cons b t rs :
    t <> [] -> Forall (fun c => p c = b) t -> alternate p (negb b) rs -> alternate p b ((b, t) :: rs).

Lemma runs_alternate p s : exists b, alternate p b (runs p s).
Proof.
  induction s as [|c s [b IH]]; cbn [runs]; [exists true; constructor|].
  exists (p c). revert IH. generalize (runs p s). intros l IH.
  inversion IH as [|b' t rs N F R]; subst; [constructor; [easy|auto|constructor]|].
  destruct (Bool.eqb b (p c)) eqn:E.
  - apply eqb_prop in E. subst. constructor; [easy|auto|easy].
  - constructor; [easy|auto|]. replace (negb (p c)) with b; [easy|]. now destruct b, (p c).
Qed.

(** ** Properties *)

(** Every search of a substring finds exactly the place it is to find: the
    first one from [pos] on, or the last one up to [pos], where the character
    (one of the characters, none of them, the whole text) stands, and [NPOS]
    when there is none. *)
Theorem substring_find_exact (s str : list Z) (ch pos : Z)
  (Hs : s <> []) (Hstr : str <> []) (Hpos : 0 <= pos) (Hlen : size s < NPOS) :
  let from := Z.to_nat pos in
  let upto := Z.to_nat (Z.min pos (size s - 1)) in
  first_at (fun i => char_at s i =? ch) from (length s) (find_ch s ch pos) /\
  first_at (fun i => among str (char_at s i)) from (length s) (find_first_of s str pos) /\
  first_at (fun i => negb (among str (char_at s i))) from (length s) (find_first_not_of s str pos) /\
  first_at (fun i => negb (char_at s i =? ch)) from (length s) (find_first_not_of_ch s ch pos) /\
  last_at (fun i => char_at s i =? ch) upto (rfind_ch s ch pos) /\
  last_at (fun i => among str (char_at s i)) upto (find_last_of s str pos) /\
  last_at (fun i => negb (among str (char_at s i))) upto (find_last_not_of s str pos) /\
  (pos <= size s -> exists r, find_str s str pos = Ret r /\
     first_at (fun i => is_prefix str (skipn i s)) from (length s) r) /\
  (size str <= size s ->
     last_at (fun i => is_prefix str (skipn i s)) (Z.to_nat (Z.min pos (size s - size str))) (rfind_str s str pos)).
Proof.
  cbv zeta. rewrite find_ch_first by easy.
  repeat split; try (now apply first_from_spec); try (now apply last_to_spec); try (now apply rfind_ch_spec).
  - intros H. now apply find_str_spec.
  - intros H. apply rfind_str_spec; [easy..|lia].
Qed.

Lemma substring_find_exact_witness :
  first_at (fun i => char_at (lit "abcabc") i =? chr "b") 2 6 (find_ch (lit "abcabc") (chr "b") 2) /\
  find_str (lit "abcabc") (lit "ca") 1 = Ret 2.
Proof.
  split; [|reflexivity].
  apply (substring_find_exact (lit "abcabc") (lit "ca") (chr "b") 2);
    [discriminate|discriminate|discriminate|reflexivity].
Defined.

(** Comparing substrings gives the sign of the lexicographic order of their
    characters, a total order whose equality is that of the texts; equality
    agrees with it, also against a C string.  Comparing with a C string agrees
    except where the C string is a proper beginning of the substring: there
    the result is -1. *)
Theorem substring_compare (s t u r : list Z) (Ht : Forall (fun c => c <> 0) t) :
  compare s t = Ret (lex s t) /\
  (lex s t = 0 <-> s = t) /\ lex t s = - lex s t /\ (lex s t < 0 -> lex t u < 0 -> lex s u < 0) /\
  equal s t = Ret (lex s t =? 0) /\ lt_ s t = Ret (lex s t <? 0) /\
  equal_c s (t ++ 0 :: r) = Ret (lex s t =? 0) /\
  compare_c s (t ++ 0 :: r) = Ret (if is_prefix t s && negb (length t =? length s)%nat then -1 else lex s t).
Proof.
  repeat split; try apply lex_eq; try apply lex_opp; try apply lex_lt_trans; try apply equal_spec;
    try (now apply equal_c_spec); try (now apply compare_c_spec); try apply compare_lex.
  unfold lt_. now rewrite compare_lex.
Qed.

Lemma substring_compare_witness :
  compare (lit "ab") (lit "abc") = Ret (-1) /\ lex (lit "ab") (lit "abc") = -1 /\
  compare_c (lit "abc") (lit "ab" ++ [0]) = Ret (-1).
Proof.
  split; [|split; [reflexivity|]].
  - apply (substring_compare (lit "ab") (lit "abc") [] []). repeat constructor; discriminate.
  - apply (substring_compare (lit "abc") (lit "ab") [] []). repeat constructor; discriminate.
Defined.

(** C40: A splitter that keeps empty tokens returns the pieces of the text
    between separators: they hold none, and with one separator after each give
    the text back, the last alone ending with the text; one that drops them
    returns the nonempty ones of these.  [divide] gives the callbacks maximal
    runs inside and outside the category, in turn, that make up the text.
    Each of these loops ends. *)
Theorem tokenizer_exact (category : Z -> bool) (str : list Z) :
  exists ts rs b,
    tokens category true str = Ret ts /\ pieces category ts str /\
    tokens category false str = Ret (filter nonempty ts) /\
    divide category str = Ret rs /\ alternate category b rs /\ concat (map snd rs) = str.
Proof.
  destruct (runs_alternate category str) as [b R].
  exists (split category str), (runs category str), b. unfold tokens, divide.
  rewrite !tokens_loop_split, divide_loop_runs by lia.
  repeat split; auto using split_pieces, runs_text.
Qed.

Example tokens_example :
  tokens (fun c => c =? 44) true (lit ",ab,,c,") = Ret [[]; lit "ab"; []; lit "c"] /\
  tokens (fun c => c =? 44) false (lit ",ab,,c,") = Ret [lit "ab"; lit "c"].
Proof. split; reflexivity. Qed.

(** Parts: within the characters they are what they say; past the end the
    unchecked position leaves them, the checked one throws. *)
Lemma substr_spec rough s pos count : 0 <= pos -> 0 <= count -> size s < NPOS ->
  substr rough s pos count =
    if size s <? pos then (if rough then Throw OutOfRange else Undef)
    else Ret (firstn (Z.to_nat count) (skipn (Z.to_nat pos) s)).
Proof.
  intros Hp Hc Hs. unfold substr, begin_plus_position_, check_position, get_available_length_.
  destruct (Z.ltb_spec (size s) pos); destruct rough; cbn [andb bind]; try easy.
  all: rewrite wrapu_small by (unfold NPOS in *; lia); f_equal;
    destruct (Z.le_ge_cases count (size s - pos)); [now rewrite Z.min_l by lia|rewrite Z.min_r by lia];
    rewrite !firstn_all2 by (rewrite length_skipn; lia); easy.
Qed.

(** The cases where the searches do not do what [std::string] does. *)
Example find_empty : find_str (lit "abc") [] 2 = Ret 0.
Proof. reflexivity. Qed.
Example find_past_the_end : find_str (lit "abc") (lit "a") 5 = Undef.
Proof. reflexivity. Qed.
Example rfind_count_ignored : rfind_count (lit "ab-abc") (lit "abx") NPOS 2 = NPOS.
Proof. reflexivity. Qed.
Example find_last_not_of_nothing : find_last_not_of (lit "abc") [] NPOS = NPOS.
Proof. reflexivity. Qed.
Example c_lt_equal : c_lt (lit "ab" ++ [0]) (lit "ab") = Ret true.
Proof. reflexivity. Qed.

(** Searching for one character. *)
Lemma find_ch_owned s ch :
  find_ch s ch 0 = if (find_owned (fun c => (c =? ch)%Z) s =? length s)%nat then NPOS
                   else Z.of_nat (find_owned (fun c => c =? ch) s).
Proof.
  unfold find_ch. destruct (Z.ltb_spec 0 (size s)) as [L|L]; [|destruct s; [easy|cbn in L; lia]].
  change (skipn (Z.to_nat 0) s) with s. clear L.
  enough (Traits_find s ch = let e := find_owned (fun c => c =? ch) s in
          if (e =? length s)%nat then None else Some e) as ->.
  { cbv zeta. now destruct (_ =? _)%nat. }
  induction s as [|c s IH]; [easy|]. cbn [Traits_find find_owned length]. destruct (c =? ch); [easy|].
  rewrite IH. cbv zeta. cbn [Nat.eqb]. now destruct (_ =? _)%nat.
Qed.

Lemma last_at_hit p hi r i : last_at p hi r -> (i <= hi)%nat -> p i = true ->
  (forall j, (i < j <= hi)%nat -> p j = false) -> r = Z.of_nat i.
Proof.
  intros [[-> H]|(k & -> & L & P & H)] Hi Pi N.
  - now rewrite H in Pi.
  - destruct (Nat.lt_trichotomy i k) as [C|[->|C]]; [rewrite N in P by lia; easy|easy|rewrite H in Pi by lia; easy].
Qed.

Lemma rfind_ch_hit a ch r : size (a ++ ch :: r) < NPOS -> Forall (fun c => (c =? ch) = false) r ->
  rfind_ch (a ++ ch :: r) ch NPOS = size a.
Proof.
  intros L F. assert (size (a ++ ch :: r) = size a + 1 + size r) as Sz by (rewrite length_app; cbn [length]; lia).
  rewrite Sz in L.
  assert (last_at (fun i => char_at (a ++ ch :: r) i =? ch) (length a + length r)
    (rfind_ch (a ++ ch :: r) ch NPOS)) as H.
  { pose proof (rfind_ch_spec (a ++ ch :: r) ch NPOS) as X. rewrite Sz in X.
    replace (Z.to_nat (Z.min NPOS (size a + 1 + size r - 1))) with (length a + length r)%nat in X by lia.
    apply X; [now destruct a|easy]. }
  eapply last_at_hit; [exact H|lia| |].
  - unfold char_at. rewrite app_nth2, Nat.sub_diag by lia. apply Z.eqb_refl.
  - intros j Hj. unfold char_at. rewrite app_nth2 by lia.
    replace (j - length a)%nat with (S (j - length a - 1))%nat by lia. cbn [nth].
    apply (proj1 (Forall_forall _ _) F), nth_In. lia.
Qed.

Lemma rfind_ch_none s ch : Forall (fun c => (c =? ch) = false) s -> rfind_ch s ch NPOS = NPOS.
Proof.
  intros F. destruct s as [|c s]; [easy|].
  destruct (rfind_ch_spec (c :: s) ch NPOS ltac:(easy) ltac:(easy)) as [[-> _]|(i & _ & L & P & _)]; [easy|].
  exfalso. rewrite Forall_forall in F. unfold char_at in P. rewrite F in P; [easy|]. apply nth_In.
  cbn [length] in *. lia.
Qed.

Lemma rfind_ch_before a b ch : size (a ++ b) < NPOS -> Forall (fun c => (c =? ch) = false) b ->
  rfind_ch (a ++ b) ch NPOS = NPOS \/ 0 <= rfind_ch (a ++ b) ch NPOS < size a.
Proof.
  intros Hs F. destruct (a ++ b) as [|c s] eqn:E; [now left|].
  pose proof (rfind_ch_spec (c :: s) ch NPOS) as R.
  replace (Z.to_nat (Z.min NPOS (size (c :: s) - 1))) with (length s) in R by (cbn [length] in *; lia).
  assert (0 <= NPOS) as N by discriminate. specialize (R ltac:(discriminate) N).
  destruct R as [[R _]|(i & R & L & P & _)]; [now left|]. right. rewrite R. split; [lia|].
  destruct (Nat.lt_ge_cases i (length a)) as [Hi|Hi]; [lia|exfalso].
  assert (length (a ++ b) = length (c :: s)) as El by now rewrite E. rewrite length_app in El. cbn [length] in El.
  rewrite <- E in P. unfold char_at in P. rewrite app_nth2 in P by easy. rewrite Forall_forall in F.
  rewrite F in P; [easy|]. apply nth_In. lia.
Qed.

(** The first place of a character, and the parts before and behind a place. *)
Lemma Traits_find_hit (p : list Z) c q : ~ In c p -> Traits_find (p ++ c :: q) c = Some (length p).
Proof.
  induction p as [|x p IH]; cbn; intros H; [now rewrite Z.eqb_refl|].
  destruct (Z.eqb_spec x c); [tauto|]. rewrite IH by tauto. reflexivity.
Qed.

Lemma Traits_find_none (s : list Z) c : ~ In c s -> Traits_find s c = None.
Proof.
  induction s as [|x s IH]; cbn; intros H; [easy|]. destruct (Z.eqb_spec x c); [tauto|]. now rewrite IH by tauto.
Qed.

Lemma find_ch_hit (p : list Z) c q : ~ In c p -> find_ch (p ++ c :: q) c 0 = size p.
Proof.
  intros H. unfold find_ch. change (Z.to_nat 0) with O. rewrite skipn_O, Traits_find_hit by easy.
  destruct (Z.ltb_spec 0 (size (p ++ c :: q))) as [|L]; [easy|]. rewrite length_app in L. cbn [length] in L. lia.
Qed.

Lemma find_ch_none (s : list Z) c : ~ In c s -> find_ch s c 0 = NPOS.
Proof.
  intros H. unfold find_ch. change (Z.to_nat 0) with O. rewrite skipn_O, Traits_find_none by easy. now destruct (_ <? _).
Qed.

Lemma first_char (c : Z) s : (~ In c s) \/ exists p q, s = p ++ c :: q /\ ~ In c p.
Proof.
  induction s as [|x s IH]; [now left|]. destruct (Z.eq_dec x c) as [->|Hx].
  - right. now exists [], s.
  - destruct IH as [IH|(p & q & -> & H)]; [left; cbn; tauto|right]. exists (x :: p), q. cbn. tauto.
Qed.

Lemma substr_tail s p r : s = p ++ r -> size s < NPOS -> substr false s (wrapu 64 (size p)) NPOS = Ret r.
Proof.
  intros -> Hs. rewrite wrapu_small, substr_spec; unfold NPOS in *; rewrite ?length_app in *; try lia.
  destruct (Z.ltb_spec (Z.of_nat (length p + length r)) (size p)); [lia|]. rewrite Nat2Z.id, skipn_app, skipn_all, Nat.sub_diag.
  cbn [skipn app]. f_equal. apply firstn_all2. change (2 ^ 64) with 18446744073709551616 in *. lia.
Qed.

Lemma substr_middle s p m r : s = p ++ m ++ r -> size s < NPOS ->
  substr false s (wrapu 64 (size p)) (wrapu 64 (size (p ++ m) - wrapu 64 (size p))) = Ret m.
Proof.
  intros -> Hs. rewrite !length_app in Hs. rewrite (wrapu_small 64 (size p)) by (unfold NPOS in *; lia).
  rewrite length_app, wrapu_small, substr_spec; unfold NPOS in *; rewrite ?length_app; try lia.
  destruct (Z.ltb_spec (Z.of_nat (length p + (length m + length r))) (size p)); [lia|].
  rewrite Nat2Z.id, skipn_app, skipn_all, Nat.sub_diag, skipn_O. cbn [app].
  replace (Z.to_nat (Z.of_nat (length p + length m) - size p)) with (length m) by lia.
  now rewrite firstn_app, firstn_all, Nat.sub_diag, app_nil_r.
Qed.

Lemma substr_front p q : size (p ++ q) < NPOS -> substr false (p ++ q) 0 (size p) = Ret p.
Proof.
  intros H. rewrite substr_spec by (try lia; easy). destruct (Z.ltb_spec (size (p ++ q)) 0); [lia|].
  change (Z.to_nat 0) with O. now rewrite skipn_O, Nat2Z.id, firstn_app, firstn_all, Nat.sub_diag, app_nil_r.
Qed.

Lemma substr_behind p c q : size (p ++ c :: q) < NPOS -> substr false (p ++ c :: q) (size p + 1) NPOS = Ret q.
Proof.
  intros H. pose proof (substr_tail (p ++ c :: q) (p ++ [c]) q) as E. rewrite <- app_assoc in E.
  specialize (E eq_refl H). rewrite length_app in E. cbn [length] in *. rewrite Nat2Z.inj_add in E.
  rewrite wrapu_small in E; [exact E|]. rewrite length_app in H. unfold NPOS in H. lia.
Qed.
