(* ===== verification/TextTemplate.v ===== *)
(** * TextTemplate: src/src/String/TextTemplate.hpp and TextTemplate.cpp

    Templates: texts with keys between two lexemes, and the suppliers of the
    values of the keys: containers, default values and encoders, which compose
    into [Args].  Items hold windows on the text of the template; [String_] and
    what is derived from it keep that text, and when it changes under the items
    they are stale. *)

From stdpp Require Import base gmap list.
From Stdlib Require Import ZArith List Bool Lia.
From S2P Require Import Prelude SubString Xml UrlCodec Text JsUnicode.
Import ListNotations.
Open Scope Z_scope.

(** ** Items *)

(** [get_argument(key, result, value)]: [result] is passed by reference. *)
Definition ArgsCallback : Type := list Z -> list Z -> bool -> outcome (bool * list Z).

Inductive Item :=
| StringItem (value_ : list Z)
| VarItem (key_ : list Z).

Definition append_value (it : Item) (callback : ArgsCallback) (dst : list Z) : outcome (list Z) :=
  match it with
  | StringItem value_ => Ret (dst ++ value_)
  | VarItem key_ =>
      '(found, result) <- callback key_ [] true ;;
      if negb found then Throw UnknownName else Ret (dst ++ result)
  end.

Definition key (it : Item) (callback : ArgsCallback) : outcome (list Z) :=
  match it with
  | StringItem _ => Ret []
  | VarItem key_ => '(_, result) <- callback key_ [] false ;; Ret result
  end.

(** ** Basic *)

Definition DEFAULT_LEXEME : list Z := lit "%%".

(** What [init] has put into [items_] stays there when it throws. *)
Definition keeping {A} (items_ : list Item) (c : outcome A) (k : A -> list Item * outcome unit)
  : list Item * outcome unit :=
  match c with
  | Ret a => k a
  | Throw e => (items_, Throw e)
  | Undef => (items_, Undef)
  end.

Fixpoint init_loop (fuel : nat) (str start_lexeme end_lexeme : list Z) (items_ : list Item)
  : list Item * outcome unit :=
  match fuel with
  | O => (items_, Undef)
  | S fuel' =>
      if (length str =? 0)%nat then (items_, Ret tt)
      else
        keeping items_ (find_str str start_lexeme 0) (fun begin =>
        if begin =? NPOS then (items_ ++ [StringItem str], Ret tt)
        else
          keeping items_ (substr false str 0 begin) (fun text =>
          let items_ := items_ ++ [StringItem text] in
          let begin := wrapu 64 (begin + size start_lexeme) in
          keeping items_ (find_str str end_lexeme begin) (fun e =>
          if e =? NPOS then (items_, Throw InvalidTemplate)
          else
            keeping items_ (substr false str begin (wrapu 64 (e - begin))) (fun k =>
            let items_ := items_ ++ [VarItem k] in
            keeping items_ (substr false str (wrapu 64 (e + size end_lexeme)) NPOS) (fun str =>
            init_loop fuel' str start_lexeme end_lexeme items_)))))
  end.

Definition init (source start_lexeme end_lexeme : list Z) : list Item * outcome unit :=
  if (length start_lexeme =? 0)%nat then ([], Throw TextTemplException)
  else if (length end_lexeme =? 0)%nat then ([], Throw TextTemplException)
  else init_loop (S (length source)) source start_lexeme end_lexeme [].

Fixpoint instantiate_loop (items_ : list Item) (args : ArgsCallback) (str : list Z) : outcome (list Z) :=
  match items_ with
  | [] => Ret str
  | it :: items_ => str <- append_value it args str ;; instantiate_loop items_ args str
  end.

Definition instantiate (items_ : list Item) (args : ArgsCallback) : outcome (list Z) :=
  instantiate_loop items_ args [].

Fixpoint keys_loop (items_ : list Item) (args : ArgsCallback) (keys : gset (list Z))
  : outcome (gset (list Z)) :=
  match items_ with
  | [] => Ret keys
  | it :: items_ =>
      name <- key it args ;;
      keys_loop items_ args (if negb (length name =? 0)%nat then {[name]} ∪ keys else keys)
  end.

Definition keys (items_ : list Item) (args : ArgsCallback) : outcome (gset (list Z)) :=
  keys_loop items_ args ∅.

Definition empty (items_ : list Item) : bool := match items_ with [] => true | _ => false end.

(** ** String, IStream and UpdateStrategy

    [stale]: the text changed since the items were made. *)
Record String_ := { text_template_ : list Z; items_ : list Item; stale : bool }.

Definition String_new : String_ := {| text_template_ := []; items_ := []; stale := false |}.

Definition String_init (str start_lexeme end_lexeme : list Z) : String_ * outcome unit :=
  let (items_, r) := init str start_lexeme end_lexeme in
  ({| text_template_ := str; items_ := items_; stale := false |}, r).

Definition String_instantiate (t : String_) (args : ArgsCallback) : outcome (list Z) :=
  if stale t && negb (empty (items_ t)) then Undef else instantiate (items_ t) args.

(** [getline] up to a zero: the text before it, and whether the end of the
    stream was seen. *)
Fixpoint getline (istr : list Z) : list Z * bool :=
  match istr with
  | [] => ([], true)
  | c :: istr => if c =? 0 then ([], false) else let (l, eof) := getline istr in (c :: l, eof)
  end.

(** [istr]: the cells that the stream delivers and whether it goes bad then. *)
Definition IStream_init (t : String_) (istr : list Z * bool) (start_lexeme end_lexeme : list Z)
  : String_ * outcome unit :=
  let (text, eof) := getline (fst istr) in
  if snd istr || negb eof then
    ({| text_template_ := text; items_ := items_ t; stale := true |}, Throw TextTemplException)
  else String_init text start_lexeme end_lexeme.

(** [file]: what opening the file gives. *)
Definition update (t : String_) (file : outcome (list Z * bool)) (start_lexeme end_lexeme : list Z)
  : String_ * outcome unit :=
  match file with
  | Undef => (t, Undef)
  | Throw _ => (t, Throw TextTemplException)
  | Ret istr =>
      let (t, r) := IStream_init t istr start_lexeme end_lexeme in
      (t, match r with Throw _ => Throw TextTemplException | r => r end)
  end.

(** ** Suppliers of values *)

Definition ArgsContainer (cont_ : gmap (list Z) (list Z)) : ArgsCallback := fun key result value =>
  if negb value then Ret (true, key)
  else
    match cont_ !! key with
    | None => Ret (false, result)
    | Some v => Ret (true, v)
    end.

Definition DefaultValue (callback_ : ArgsCallback) : ArgsCallback := fun key result value =>
  let pos := find_ch key (chr "=") 0 in
  if pos =? 0 then Ret (false, result)
  else if pos =? NPOS then callback_ key result value
  else
    name <- substr false key 0 pos ;;
    '(found, result) <- callback_ name result value ;;
    if found : bool then Ret (true, result)
    else
      result <- (if value : bool then substr false key (pos + 1) NPOS else substr false key 0 pos) ;;
      Ret (true, result).

(** Pointers to functions are compared, so the encoders of the library are
    constructors; [Custom] is one of the user. *)
Inductive ValueEncoder :=
| encode_utf8_
| encode_mime_
| encode_xml_
| encode_js_unicode_
| encode_js_
| Custom (f : list Z -> outcome (list Z)).

Definition c_str (value : list Z) : list Z := value ++ [0].

(** The characters of a C string before its terminator. *)
Definition c_chars (value : list Z) : list Z := fst (getline value).

Definition encode (encoder : ValueEncoder) (value : list Z) : outcome (list Z) :=
  match encoder with
  | encode_utf8_ => Ret value
  | encode_mime_ => Ret (mime_url_encode value)
  | encode_xml_ => xml_encode (Some (c_str value)) 3
  | encode_js_unicode_ => js_unicode_encode (c_str value)
  | encode_js_ => js_encode (c_chars value)
  | Custom f => f value
  end.

(** [encoder_holder]; a null pointer is [None]. *)
Definition EncoderHolder : Type := gmap (list Z) (option ValueEncoder).

Definition get_value_encoder (relation_ : EncoderHolder) (key : list Z) : option ValueEncoder :=
  match relation_ !! key with Some encoder => encoder | None => None end.

Definition register_value_encoder (relation_ : EncoderHolder) (key : list Z) (encoder : option ValueEncoder)
  : EncoderHolder := <[key := encoder]> relation_.

Definition encoder_holder : EncoderHolder :=
  List.fold_left (fun r '(k, e) => register_value_encoder r k (Some e))
    [(lit "utf8", encode_utf8_); (lit "mime-url", encode_mime_); (lit "xml", encode_xml_);
     (lit "js-unicode", encode_js_unicode_); (lit "js", encode_js_)] ∅.

Record ArgsEncoder := {
  args_container_ : ArgsCallback;
  ENCODE_ : bool;
  ERROR_IF_NO_KEY_ : bool;
  DEFAULT_ENCODER_ : ValueEncoder
}.

Definition ArgsEncoder_new (args_container : ArgsCallback) (encode error_if_no_key : bool)
  (default_encoding : option ValueEncoder) : outcome ArgsEncoder :=
  match default_encoding with
  | None => Throw UnknownName
  | Some e => Ret {| args_container_ := args_container; ENCODE_ := encode;
                     ERROR_IF_NO_KEY_ := error_if_no_key; DEFAULT_ENCODER_ := e |}
  end.

Definition set_callback (this : ArgsEncoder) (args_container : ArgsCallback) : ArgsEncoder :=
  {| args_container_ := args_container; ENCODE_ := ENCODE_ this;
     ERROR_IF_NO_KEY_ := ERROR_IF_NO_KEY_ this; DEFAULT_ENCODER_ := DEFAULT_ENCODER_ this |}.

(** The encoder and the key without its prefix. *)
Definition choose_encoder (relation_ : EncoderHolder) (this : ArgsEncoder) (key : list Z)
  : outcome (ValueEncoder * list Z) :=
  let pos := find_ch key (chr ":") 0 in
  if ENCODE_ this && negb (pos =? NPOS) then
    prefix <- substr false key 0 pos ;;
    match get_value_encoder relation_ prefix with
    | None => Ret (DEFAULT_ENCODER_ this, key)
    | Some found => key_val <- substr false key (pos + 1) NPOS ;; Ret (found, key_val)
    end
  else Ret (DEFAULT_ENCODER_ this, key).

Definition get_argument (relation_ : EncoderHolder) (this : ArgsEncoder) : ArgsCallback :=
  fun key result value =>
  if (length key =? 0)%nat then Ret (false, result)
  else
    '(encoder, key_val) <- choose_encoder relation_ this key ;;
    '(ok, found) <- args_container_ this key_val [] value ;;
    if negb ok then
      if ERROR_IF_NO_KEY_ this then Ret (false, result)
      else if value : bool then Ret (true, []) else Ret (true, key_val)
    else if negb value then Ret (true, found)
    else
      match encoder with
      | encode_utf8_ => Ret (true, found)
      | _ => result <- encode encoder found ;; Ret (true, result)
      end.

(** [Args]: the encoder over its own table, with or without default values. *)
Definition Args_new (encode error_if_no_key : bool) (default_encoding : option ValueEncoder)
  (has_defaults : bool) (values : gmap (list Z) (list Z)) : outcome ArgsEncoder :=
  this <- ArgsEncoder_new (fun _ _ _ => Undef) encode error_if_no_key default_encoding ;;
  let callback := ArgsContainer values in
  Ret (set_callback this (if has_defaults then DefaultValue callback else callback)).

(** ** Examples *)

Definition sample_values : gmap (list Z) (list Z) := <[lit "NAME" := lit "a<b"]> ∅.

Definition run_template (source : list Z) (error_if_no_key : bool) : outcome (list Z) :=
  let (items, r) := init source DEFAULT_LEXEME DEFAULT_LEXEME in
  _ <- r ;;
  args <- Args_new true error_if_no_key (Some encode_utf8_) true sample_values ;;
  instantiate items (get_argument encoder_holder args).

Example substitutes : run_template (lit "x %%NAME%%, %%xml:NAME%%: %%js-unicode:OTHER=!%%%%no:NAME=y%%") true =
  Ret (lit "x a<b, a&lt;b: \u0021y").
Proof. vm_compute. reflexivity. Qed.

Example unknown_name : run_template (lit "%%OTHER%%") true = Throw UnknownName /\
  run_template (lit "1%%OTHER%%2") false = Ret (lit "12").
Proof. vm_compute. split; reflexivity. Qed.

Example no_closing_lexeme : init (lit "a%%b%%c%%d") DEFAULT_LEXEME DEFAULT_LEXEME =
  ([StringItem (lit "a"); VarItem (lit "b"); StringItem (lit "c")], Throw InvalidTemplate).
Proof. reflexivity. Qed.

(** An update that fails after the file was read leaves items over a text that
    is no longer there. *)
Example update_leaves_stale :
  let '(t, r) := update String_new (Ret (lit "a%%b%%", false)) DEFAULT_LEXEME DEFAULT_LEXEME in
  let '(t', r') := update t (Ret ([chr "c"; 0; chr "d"], false)) DEFAULT_LEXEME DEFAULT_LEXEME in
  r = Ret tt /\ r' = Throw TextTemplException /\
  String_instantiate t (fun _ _ _ => Ret (true, [])) = Ret (lit "a") /\
  String_instantiate t' (fun _ _ _ => Ret (true, [])) = Undef.
Proof. vm_compute. repeat split. Qed.

(** A container answers for every key when it is asked for names only. *)
Example names_without_values : ArgsContainer ∅ (lit "x") [] false = Ret (true, lit "x").
Proof. reflexivity. Qed.

(** ** What a template is

    [absent a s]: [a] stands nowhere in [s]; [leftmost a t r]: in [t ++ a ++ r]
    its first place is behind [t]. *)

Definition absent (a s : list Z) : Prop := forall p q, s <> p ++ a ++ q.

Definition leftmost (a t r : list Z) : Prop :=
  forall p q, t ++ a ++ r = p ++ a ++ q -> (length t <= length p)%nat.

Inductive parses (a b : list Z) : list Z -> list Item -> Prop :=
| parses_nil : parses a b [] []
| parses_text s : s <> [] -> absent a s -> parses a b s [StringItem s]
| parses_var t k rest items :
    leftmost a t (k ++ b ++ rest) -> leftmost b k rest -> parses a b rest items ->
    parses a b (t ++ a ++ k ++ b ++ rest) (StringItem t :: VarItem k :: items).

(** The text of an item in the template. *)
Definition print_item (a b : list Z) (it : Item) : list Z :=
  match it with StringItem t => t | VarItem k => a ++ k ++ b end.

Lemma parses_print a b s items : parses a b s items -> flat_map (print_item a b) items = s.
Proof.
  induction 1; [easy|apply app_nil_r|]. cbn [flat_map print_item]. rewrite IHparses, <- !app_assoc. reflexivity.
Qed.

(** ** Searching *)

Lemma is_prefix_at a s j : is_prefix a (skipn j s) = true -> exists p q, s = p ++ a ++ q /\ length (firstn j s) = length p.
Proof.
  intros H. apply is_prefix_iff in H as [q Hq]. exists (firstn j s), q. now rewrite <- Hq, firstn_skipn.
Qed.

Lemma find_leftmost a p r : a <> [] -> size (p ++ r) < NPOS ->
  (find_str (p ++ r) a (size p) = Ret NPOS /\ absent a r) \/
  exists t q, find_str (p ++ r) a (size p) = Ret (size (p ++ t)) /\ r = t ++ a ++ q /\ leftmost a t q.
Proof.
  intros Ha Hs. pose proof Hs as Hs'. rewrite length_app in Hs'.
  assert (Ex : forall p' q, r = p' ++ a ++ q -> is_prefix a (skipn (length p + length p') (p ++ r)) = true).
  { intros p' q ->. apply is_prefix_iff. exists q. now rewrite app_assoc, <- length_app, skipn_app, skipn_all, Nat.sub_diag. }
  assert (In : forall p' q, r = p' ++ a ++ q -> (length p + length p' < length (p ++ r))%nat).
  { intros p' q ->. rewrite !length_app. destruct a; [easy|cbn [length]; lia]. }
  destruct (find_str_spec (p ++ r) a (size p) Ha) as (x & E & F); [rewrite length_app; lia|easy|].
  rewrite E. rewrite Nat2Z.id in F. destruct F as [[-> H]|(i & -> & Hi & Hp & H)].
  - left. split; [easy|]. intros p' q Hr. specialize (Ex p' q Hr). specialize (In p' q Hr). rewrite H in Ex; [easy|lia].
  - right. apply is_prefix_iff in Hp as [q Hq]. rewrite skipn_app, (skipn_all2 p) in Hq by lia. cbn [app] in Hq.
    set (k := (i - length p)%nat) in *. exists (firstn k r), q.
    assert (Hk : length (firstn k r) = k) by (rewrite length_firstn; rewrite length_app in Hi; lia).
    split; [|split].
    + rewrite length_app, Hk. do 2 f_equal. lia.
    + now rewrite <- Hq, firstn_skipn.
    + intros p' q' Hr. rewrite Hk. destruct (Nat.le_gt_cases k (length p')) as [|L]; [easy|exfalso].
      rewrite <- Hq, firstn_skipn in Hr. specialize (Ex p' q' Hr). rewrite H in Ex; [easy|lia].
Qed.

(** ** [init] *)

Lemma leftmost_unique a t q t' q' : leftmost a t q -> leftmost a t' q' -> t ++ a ++ q = t' ++ a ++ q' -> t = t' /\ q = q'.
Proof.
  intros H H' E. pose proof (H _ _ E) as L. pose proof (H' _ _ (eq_sym E)) as L'.
  apply app_inj_1 in E as [-> E]; [|lia]. split; [easy|]. now apply app_inv_head in E.
Qed.

Lemma parses_unique a b s items : parses a b s items -> a <> [] -> forall items', parses a b s items' -> items = items'.
Proof.
  intros H Ha. induction H as [|s Hs Hab|t k rest items Ht Hk H IH]; intros items' H'.
  - inversion H'; subst; [easy|easy|]. destruct t; [|easy]. now destruct a.
  - inversion H'; subst; [easy|easy|]. exfalso. eapply Hab. reflexivity.
  - inversion H' as [C|s C Hab C'|t' k' rest' items2 Ht' Hk' H2 C]; subst.
    + destruct t; [|easy]. now destruct a.
    + exfalso. eapply Hab. reflexivity.
    + destruct (leftmost_unique _ _ _ _ _ Ht' Ht C) as [-> C'].
      destruct (leftmost_unique _ _ _ _ _ Hk' Hk C') as [-> ->]. now rewrite (IH items2).
Qed.

(** A start lexeme without an end lexeme behind it. *)
Inductive unclosed (a b : list Z) : list Z -> Prop :=
| unclosed_here t rest : leftmost a t rest -> absent b rest -> unclosed a b (t ++ a ++ rest)
| unclosed_later t k rest :
    leftmost a t (k ++ b ++ rest) -> leftmost b k rest -> unclosed a b rest ->
    unclosed a b (t ++ a ++ k ++ b ++ rest).

Lemma unclosed_not_parsed a b s : unclosed a b s -> a <> [] -> b <> [] -> forall items, ~ parses a b s items.
Proof.
  intros H Ha Hb. induction H as [t rest Ht Hab|t k rest Ht Hk H IH]; intros items Hp; inversion Hp as [C|? C Hx|t' k' r' ? Ht' Hk' H2 C]; subst.
  - destruct t; [|easy]. now destruct a.
  - exfalso. eapply Hx. reflexivity.
  - destruct (leftmost_unique _ _ _ _ _ Ht' Ht C) as [_ <-]. exfalso. eapply Hab. reflexivity.
  - destruct t; [|easy]. now destruct a.
  - exfalso. eapply Hx. reflexivity.
  - destruct (leftmost_unique _ _ _ _ _ Ht' Ht C) as [_ C'].
    destruct (leftmost_unique _ _ _ _ _ Hk' Hk C') as [_ ->]. now apply (IH _ H2).
Qed.

Section Init.
Context (a b : list Z) (Ha : a <> []) (Hb : b <> []).

Lemma init_turn fuel str acc : str <> [] -> size str < NPOS ->
  (absent a str /\ init_loop (S fuel) str a b acc = (acc ++ [StringItem str], Ret tt)) \/
  (exists t rest, str = t ++ a ++ rest /\ leftmost a t rest /\ absent b rest /\
     init_loop (S fuel) str a b acc = (acc ++ [StringItem t], Throw InvalidTemplate)) \/
  (exists t k rest, str = t ++ a ++ k ++ b ++ rest /\ leftmost a t (k ++ b ++ rest) /\ leftmost b k rest /\
     init_loop (S fuel) str a b acc = init_loop fuel rest a b (acc ++ [StringItem t; VarItem k])).
Proof.
  intros Hn Hs. cbn [init_loop]. replace (length str =? 0)%nat with false by now destruct str.
  destruct (find_leftmost a [] str Ha Hs) as [[E Hx]|(t & r & E & -> & Ht)]; cbn [length app] in E;
    change (Z.of_nat 0) with 0 in E; rewrite E; cbn [keeping].
  - left. now rewrite Z.eqb_refl.
  - right. pose proof Hs as Hs'. rewrite !length_app in Hs'. rewrite (proj2 (Z.eqb_neq (size t) NPOS)) by lia.
    pose proof (substr_middle (t ++ a ++ r) [] t (a ++ r) eq_refl Hs) as Et. cbn [length app] in Et.
    change (wrapu 64 (Z.of_nat 0)) with 0 in Et. rewrite Z.sub_0_r, (wrapu_small 64 (size t)) in Et by (unfold NPOS in *; lia).
    rewrite Et. cbn [keeping]. rewrite <- Nat2Z.inj_add, <- length_app.
    rewrite app_assoc in Hs |- *. assert (Hw : wrapu 64 (size (t ++ a)) = size (t ++ a)).
    { apply wrapu_small. rewrite length_app. unfold NPOS in *. lia. }
    destruct (find_leftmost b (t ++ a) r Hb Hs) as [[Eb Hx]|(k & rest & Eb & -> & Hk)]; rewrite Hw, Eb; cbn [keeping].
    + left. exists t, r. rewrite Z.eqb_refl, <- app_assoc. easy.
    + right. exists t, k, rest. rewrite (proj2 (Z.eqb_neq _ NPOS)) by (rewrite !length_app in *; lia).
      rewrite <- Hw at 1 2. rewrite (substr_middle _ (t ++ a) k (b ++ rest) eq_refl Hs). cbn [keeping].
      rewrite <- Nat2Z.inj_add, <- length_app, (substr_tail _ (((t ++ a) ++ k) ++ b) rest) by (try easy; now rewrite <- !app_assoc).
      cbn [keeping]. now rewrite <- !app_assoc.
Qed.

Lemma init_loop_parses fuel : forall str acc, (length str < fuel)%nat -> size str < NPOS ->
  exists items, (parses a b str items /\ init_loop fuel str a b acc = (acc ++ items, Ret tt)) \/
    (unclosed a b str /\ init_loop fuel str a b acc = (acc ++ items, Throw InvalidTemplate)).
Proof.
  induction fuel as [|fuel IH]; intros str acc Hf Hs; [lia|]. destruct (list_eq_nil_dec str) as [->|Hn].
  - exists []. left. cbn. rewrite app_nil_r. split; [constructor|easy].
  - destruct (init_turn fuel str acc Hn Hs) as [[Hx ->]|[(t & r & -> & Ht & Hx & ->)|(t & k & rest & -> & Ht & Hk & ->)]].
    + eexists. left. split; [now constructor|easy].
    + eexists. right. split; [now constructor|easy].
    + rewrite !length_app in Hf, Hs. destruct (IH rest (acc ++ [StringItem t; VarItem k])) as (items & [[Hp ->]|[Hp ->]]).
      * destruct a; [easy|cbn [length] in Hf; lia].
      * lia.
      * exists (StringItem t :: VarItem k :: items). left. rewrite <- app_assoc. split; [now constructor|easy].
      * exists (StringItem t :: VarItem k :: items). right. rewrite <- app_assoc. split; [now constructor|easy].
Qed.

Lemma init_parses s : size s < NPOS ->
  (exists items, parses a b s items /\ init s a b = (items, Ret tt)) \/
  (exists items, unclosed a b s /\ init s a b = (items, Throw InvalidTemplate)).
Proof.
  intros Hs. unfold init. replace (length a =? 0)%nat with false by now destruct a.
  replace (length b =? 0)%nat with false by now destruct b.
  destruct (init_loop_parses (S (length s)) s [] ltac:(lia) Hs) as (items & [H|H]); eauto.
Qed.
End Init.

Lemma init_sound a b s items : a <> [] -> b <> [] -> size s < NPOS -> init s a b = (items, Ret tt) -> parses a b s items.
Proof.
  intros Ha Hb Hs E. destruct (init_parses a b Ha Hb s Hs) as [(? & Hp & E')|(? & _ & E')]; rewrite E in E'; [|easy].
  now injection E' as ->.
Qed.

(** The value of a key is the key between its lexemes. *)
Definition itself (a b : list Z) : ArgsCallback := fun k _ _ => Ret (true, a ++ k ++ b).

Lemma instantiate_itself a b items : forall str,
  instantiate_loop items (itself a b) str = Ret (str ++ flat_map (print_item a b) items).
Proof.
  induction items as [|[t|k] items IH]; intros str; cbn; [now rewrite app_nil_r| |];
    rewrite IH, <- !app_assoc; reflexivity.
Qed.

(** C34: For non-empty lexemes, [init] always ends and never leaves the template: it either makes items that stand for
    the leftmost lexemes of the template, the only such items, which give back the template when each key is replaced
    by itself; or throws [InvalidTemplate], exactly when some start lexeme has no end lexeme behind it. *)
Theorem template_exact s a b : a <> [] -> b <> [] -> size s < NPOS ->
  (exists items, init s a b = (items, Ret tt) /\ parses a b s items /\
     (forall items', parses a b s items' -> items' = items) /\ instantiate items (itself a b) = Ret s /\
     ~ unclosed a b s) \/
  (exists items, init s a b = (items, Throw InvalidTemplate) /\ unclosed a b s /\
     forall items', ~ parses a b s items').
Proof.
  intros Ha Hb Hs. destruct (init_parses a b Ha Hb s Hs) as [(items & Hp & E)|(items & Hu & E)]; [left|right]; exists items.
  - repeat split; try easy.
    + intros items' Hp'. symmetry. eauto using parses_unique.
    + unfold instantiate. now rewrite instantiate_itself, (parses_print _ _ _ _ Hp).
    + intros Hu. now apply (unclosed_not_parsed _ _ _ Hu Ha Hb items).
  - repeat split; try easy. now apply unclosed_not_parsed.
Qed.

Lemma template_exact_witness :
  (exists items, init (lit "a%%b%%c") DEFAULT_LEXEME DEFAULT_LEXEME = (items, Ret tt) /\
     parses DEFAULT_LEXEME DEFAULT_LEXEME (lit "a%%b%%c") items /\
     (forall items', parses DEFAULT_LEXEME DEFAULT_LEXEME (lit "a%%b%%c") items' -> items' = items) /\
     instantiate items (itself DEFAULT_LEXEME DEFAULT_LEXEME) = Ret (lit "a%%b%%c") /\
     ~ unclosed DEFAULT_LEXEME DEFAULT_LEXEME (lit "a%%b%%c")) \/
  (exists items, init (lit "a%%b%%c") DEFAULT_LEXEME DEFAULT_LEXEME = (items, Throw InvalidTemplate) /\
     unclosed DEFAULT_LEXEME DEFAULT_LEXEME (lit "a%%b%%c") /\
     forall items', ~ parses DEFAULT_LEXEME DEFAULT_LEXEME (lit "a%%b%%c") items').
Proof. apply (template_exact (lit "a%%b%%c") DEFAULT_LEXEME DEFAULT_LEXEME); [discriminate|discriminate|reflexivity]. Defined.

(** ** What the keys of [Args] mean

    A key is [prefix:name=default], where the prefix and the default value may
    be left out. *)

Inductive piece :=
| Text (t : list Z)
| Value (prefix : option (list Z)) (name : list Z) (default : option (list Z)).

Definition spell_name (name : list Z) (default : option (list Z)) : list Z :=
  match default with Some d => name ++ chr "=" :: d | None => name end.

Definition spell_key (prefix : option (list Z)) (name : list Z) (default : option (list Z)) : list Z :=
  match prefix with Some p => p ++ chr ":" :: spell_name name default | None => spell_name name default end.

Definition piece_item (p : piece) : Item :=
  match p with Text t => StringItem t | Value prefix name default => VarItem (spell_key prefix name default) end.

Section Args.
Context (relation : EncoderHolder) (default_encoding : ValueEncoder) (error_if_no_key : bool)
  (values : gmap (list Z) (list Z)).

(** A prefix is the name of an encoder, and a key without one does not look as
    if it had one. *)
Definition well_spelled (p : piece) : Prop :=
  match p with
  | Text _ => True
  | Value prefix name default =>
      name <> [] /\ ~ List.In (chr "=") name /\ size (spell_key prefix name default) < NPOS /\
      match prefix with
      | Some p => ~ List.In (chr ":") p /\ get_value_encoder relation p <> None
      | None => forall p q, spell_name name default = p ++ chr ":" :: q -> ~ List.In (chr ":") p ->
                  get_value_encoder relation p = None
      end
  end.

Definition encoder_of (prefix : option (list Z)) : ValueEncoder :=
  match prefix with
  | Some p => match get_value_encoder relation p with Some e => e | None => default_encoding end
  | None => default_encoding
  end.

Definition expand (p : piece) : outcome (list Z) :=
  match p with
  | Text t => Ret t
  | Value prefix name default =>
      match values !! name, default with
      | Some v, _ => encode (encoder_of prefix) v
      | None, Some d => encode (encoder_of prefix) d
      | None, None => if error_if_no_key then Throw UnknownName else Ret []
      end
  end.

Fixpoint expand_all (ps : list piece) : outcome (list Z) :=
  match ps with
  | [] => Ret []
  | p :: ps => s <- expand p ;; r <- expand_all ps ;; Ret (s ++ r)
  end.

Definition names (ps : list piece) : gset (list Z) :=
  list_to_set (List.flat_map (fun p => match p with Value _ name _ => [name] | Text _ => [] end) ps).

(** *** Supplying *)

Lemma DefaultValue_names name default r : name <> [] -> ~ List.In (chr "=") name -> size (spell_name name default) < NPOS ->
  DefaultValue (ArgsContainer values) (spell_name name default) r false = Ret (true, name).
Proof.
  intros Hn Hi Hs. unfold DefaultValue. destruct default as [d|]; cbn [spell_name] in *.
  - rewrite find_ch_hit by easy. destruct (Z.eqb_spec (size name) 0); [destruct name; [easy|cbn [length] in *; lia]|].
    rewrite length_app in Hs. cbn [length] in Hs. rewrite (proj2 (Z.eqb_neq (size name) NPOS)) by lia.
    rewrite substr_front by (rewrite length_app; cbn [length]; lia). reflexivity.
  - now rewrite find_ch_none.
Qed.

Lemma DefaultValue_values name default r : name <> [] -> ~ List.In (chr "=") name -> size (spell_name name default) < NPOS ->
  DefaultValue (ArgsContainer values) (spell_name name default) r true =
  match values !! name, default with
  | Some v, _ => Ret (true, v)
  | None, Some d => Ret (true, d)
  | None, None => Ret (false, r)
  end.
Proof.
  intros Hn Hi Hs. unfold DefaultValue. destruct default as [d|]; cbn [spell_name] in *.
  - rewrite find_ch_hit by easy. destruct (Z.eqb_spec (size name) 0); [destruct name; [easy|cbn [length] in *; lia]|].
    pose proof Hs as Hs'. rewrite length_app in Hs'. cbn [length] in Hs'. rewrite (proj2 (Z.eqb_neq (size name) NPOS)) by lia.
    rewrite substr_front by easy. cbn [bind]. unfold ArgsContainer. cbn [negb].
    destruct (values !! name) as [v|]; cbn [bind]; [easy|]. now rewrite substr_behind.
  - rewrite find_ch_none by easy. change (NPOS =? 0) with false. change (NPOS =? NPOS) with true. cbn iota.
    unfold ArgsContainer. cbn [negb]. now destruct (values !! name).
Qed.

Definition this : ArgsEncoder :=
  {| args_container_ := DefaultValue (ArgsContainer values); ENCODE_ := true;
     ERROR_IF_NO_KEY_ := error_if_no_key; DEFAULT_ENCODER_ := default_encoding |}.

Lemma choose_spelled prefix name default : well_spelled (Value prefix name default) ->
  choose_encoder relation this (spell_key prefix name default) =
  Ret (encoder_of prefix, spell_name name default).
Proof.
  intros (Hn & Hi & Hs & Hp). unfold choose_encoder. cbn [ENCODE_ this DEFAULT_ENCODER_ andb].
  destruct prefix as [p|]; cbn [spell_key encoder_of] in *.
  - destruct Hp as [Hc Hp]. rewrite find_ch_hit by easy. pose proof Hs as Hs'. rewrite length_app in Hs'. cbn [length] in Hs'.
    rewrite (proj2 (Z.eqb_neq (size p) NPOS)) by lia. cbn [negb]. rewrite substr_front by easy. cbn [bind].
    destruct (get_value_encoder relation p); [|easy]. now rewrite substr_behind.
  - destruct (first_char (chr ":") (spell_name name default)) as [Hc|(p & q & E & Hc)].
    + now rewrite find_ch_none.
    + specialize (Hp p q E Hc). rewrite E in *. rewrite find_ch_hit by easy. pose proof Hs as Hs'.
      rewrite length_app in Hs'. cbn [length] in Hs'. rewrite (proj2 (Z.eqb_neq (size p) NPOS)) by lia. cbn [negb].
      rewrite substr_front by easy. cbn [bind]. now rewrite Hp.
Qed.

Lemma spell_key_nonempty prefix name default : name <> [] -> (length (spell_key prefix name default) =? 0)%nat = false.
Proof.
  intros Hn. apply Nat.eqb_neq. destruct prefix, default; cbn [spell_key spell_name]; rewrite ?length_app; cbn [length];
    destruct name; [easy|cbn [length]; lia..|easy|cbn [length]; lia|easy|cbn [length]; lia].
Qed.

Lemma append_expand p str : well_spelled p ->
  append_value (piece_item p) (get_argument relation this) str = (s <- expand p ;; Ret (str ++ s)).
Proof.
  destruct p as [t|prefix name default]; [easy|]. intros Hw. pose proof Hw as (Hn & Hi & Hs & _).
  cbn [piece_item append_value expand]. unfold get_argument. rewrite spell_key_nonempty, choose_spelled by easy.
  assert (Hs' : size (spell_name name default) < NPOS).
  { destruct prefix; cbn [spell_key] in Hs; [rewrite length_app in Hs; cbn [length] in Hs|]; lia. }
  cbn [bind args_container_ this ERROR_IF_NO_KEY_]. rewrite DefaultValue_values by easy.
  destruct (values !! name) as [v|], default as [d|]; cbn [bind negb];
    try (destruct (encoder_of prefix); cbn [bind negb encode]; try reflexivity;
         match goal with |- context [bind (?e)] => destruct e; reflexivity end).
  destruct error_if_no_key; reflexivity.
Qed.

Lemma instantiate_expand ps : Forall well_spelled ps -> forall str,
  instantiate_loop (List.map piece_item ps) (get_argument relation this) str =
  (s <- expand_all ps ;; Ret (str ++ s)).
Proof.
  induction 1 as [|p ps Hp Hps IH]; intros str; cbn [List.map instantiate_loop expand_all]; [cbn; now rewrite app_nil_r|].
  rewrite append_expand by easy. destruct (expand p) as [s|e|]; cbn [bind]; [|easy..]. rewrite IH.
  destruct (expand_all ps); cbn [bind]; [|easy..]. now rewrite app_assoc.
Qed.

Lemma key_name p : well_spelled p ->
  key (piece_item p) (get_argument relation this) = Ret (match p with Text _ => [] | Value _ name _ => name end).
Proof.
  destruct p as [t|prefix name default]; [easy|]. intros Hw. pose proof Hw as (Hn & Hi & Hs & _).
  cbn [piece_item key]. unfold get_argument. rewrite spell_key_nonempty, choose_spelled by easy.
  assert (Hs' : size (spell_name name default) < NPOS).
  { destruct prefix; cbn [spell_key] in Hs; [rewrite length_app in Hs; cbn [length] in Hs|]; lia. }
  cbn [bind args_container_ this]. now rewrite DefaultValue_names.
Qed.

Lemma keys_names ps : Forall well_spelled ps -> forall ks,
  keys_loop (List.map piece_item ps) (get_argument relation this) ks = Ret (names ps ∪ ks).
Proof.
  induction 1 as [|p ps Hp Hps IH]; intros ks; cbn [List.map keys_loop].
  - f_equal. unfold names. cbn. set_solver.
  - rewrite key_name by easy. cbn [bind]. rewrite IH. f_equal. unfold names.
    destruct p as [t|prefix name default]; [easy|]. destruct Hp as (Hn & _). destruct name as [|c name]; [easy|].
    cbn [length Nat.eqb negb List.flat_map app list_to_set]. set_solver.
Qed.
End Args.

(** C35: A template whose keys are [name], [name=default], [encoder:name] or [encoder:name=default] is instantiated
    with [Args] to the concatenation of its texts and, for each key, of the encoded value of its name, or else of its
    encoded default value; without either [UnknownName] is thrown, or nothing written when errors are off.  What an
    encoder throws stops the instantiation.  [keys] gives exactly the names, whether they have values or not. *)
Theorem template_instantiate relation default_encoding error_if_no_key values s a b ps args :
  parses a b s (List.map piece_item ps) -> Forall (well_spelled relation) ps ->
  Args_new true error_if_no_key (Some default_encoding) true values = Ret args -> a <> [] -> b <> [] -> size s < NPOS ->
  exists items, init s a b = (items, Ret tt) /\
    instantiate items (get_argument relation args) =
      expand_all relation default_encoding error_if_no_key values ps /\
    keys items (get_argument relation args) = Ret (names ps).
Proof.
  intros Hp Hw Hargs Ha Hb Hs.
  replace args with (this default_encoding error_if_no_key values) by (cbn in Hargs; now injection Hargs as <-).
  destruct (init_parses a b Ha Hb s Hs) as [(items & Hp' & E)|(items & Hu & E)].
  - rewrite (parses_unique _ _ _ _ Hp' Ha _ Hp) in E. exists (List.map piece_item ps). split; [easy|]. split.
    + unfold instantiate. rewrite instantiate_expand by easy. now destruct (expand_all _ _ _ _ ps).
    + unfold keys. rewrite keys_names by easy. f_equal. set_solver.
  - now destruct (unclosed_not_parsed _ _ _ Hu Ha Hb _ Hp).
Qed.

(** A template with a key of each form. *)
Definition sample_pieces : list piece :=
  [Text (lit "x "); Value (Some (lit "xml")) (lit "NAME") None; Text (lit ", ");
   Value None (lit "OTHER") (Some (lit "y"))].

Lemma template_instantiate_witness :
  exists items, init (lit "x %%xml:NAME%%, %%OTHER=y%%") DEFAULT_LEXEME DEFAULT_LEXEME = (items, Ret tt) /\
    instantiate items (get_argument encoder_holder (this encode_utf8_ true sample_values)) =
      expand_all encoder_holder encode_utf8_ true sample_values sample_pieces /\
    keys items (get_argument encoder_holder (this encode_utf8_ true sample_values)) = Ret (names sample_pieces).
Proof.
  apply (template_instantiate encoder_holder encode_utf8_ true sample_values (lit "x %%xml:NAME%%, %%OTHER=y%%"));
    try discriminate; try reflexivity.
  - apply init_sound; [discriminate|discriminate|reflexivity|reflexivity].
  - repeat constructor; try discriminate; try (cbn; intuition discriminate).
    intros p q E. exfalso. assert (H : ~ List.In (chr ":") (spell_name (lit "OTHER") (Some (lit "y")))) by (cbn; intuition discriminate).
    apply H. rewrite E. apply in_elt.
Defined.
