(* ===== verification/Url.v ===== *)
(** * Url: src/src/HTTP/UrlAddress.cpp, the parts of a URL

    [UrlParts] with [ExtendedUrlParts::split_url], the checks of the parts
    ([URLPartsChecker], [URLChecker]) and the functions on percent-encoded text.

    A part is its [has_] flag and its characters; in the source it is a window
    on the string of the address.  A checker returns the message of the error,
    or [None] when it accepts.  [Uri] is the generic syntax of RFC 3986, with
    [recompose] for its section 5.3. *)

From Stdlib Require Import ZArith List Bool Lia.
From S2P Require Import Prelude Ascii UrlCodec Numbers SubString.
Import ListNotations.

Definition WWW : list Z := lit "www.".

Definition UNRESERVED : CharTable :=
  Eval vm_compute in CharTable_union ALPHA_NUM (CharTable_new (Some (lit "-._~")) false).
Definition SUB_DELIMS : CharTable := Eval vm_compute in CharTable_new (Some (lit "!$&'()*+,;=")) false.
Definition PCHAR : CharTable :=
  Eval vm_compute in CharTable_union3 UNRESERVED SUB_DELIMS (CharTable_new (Some (lit ":@")) false).
Definition NON_COMPLIANT : CharTable := Eval vm_compute in CharTable_new (Some (lit "{}|^~[]`")) false.

Definition URL_PARSER_SCHEME_END : CharTable := Eval vm_compute in CharTable_new (Some (lit ":/?#")) false.
Definition URL_PARSER_AUTORITY_END : Z -> bool := Char3 (chr "/") (chr "?") (chr "#").
Definition URL_PARSER_PATH_END : Z -> bool := Char2 (chr "?") (chr "#").
Definition URL_PARSER_QUERY_END : Z -> bool := Char1 (chr "#").

Definition SCHEME_FIRST : CharTable := ALPHA.
Definition SCHEME_NOT_FIRST : CharTable :=
  Eval vm_compute in CharTable_union ALPHA_NUM (CharTable_new (Some (lit "-+.")) false).
Definition USER_INFO : CharTable :=
  Eval vm_compute in CharTable_union3 UNRESERVED SUB_DELIMS (CharTable_new (Some (lit ":")) false).
Definition HOST : CharTable := Eval vm_compute in CharTable_union UNRESERVED SUB_DELIMS.
Definition PORT : CharTable := NUMBER.
Definition PATH : CharTable :=
  Eval vm_compute in CharTable_union3 NON_COMPLIANT PCHAR (CharTable_new (Some (lit "/")) false).
Definition QUERY : CharTable :=
  Eval vm_compute in CharTable_union3 NON_COMPLIANT PCHAR (CharTable_new (Some (lit "/?")) false).
Definition FRAGMENT : CharTable :=
  Eval vm_compute in CharTable_union3 NON_COMPLIANT PCHAR (CharTable_new (Some (lit "/?")) false).

Definition SCHEME_SUFFIX : Z := chr ":".
Definition AUTHORITY_PREFIX : list Z := lit "//".
Definition USERINFO_SEPARATOR : Z := chr "@".
Definition PORT_SEPARATOR : Z := chr ":".
Definition QUERY_SEPARATOR : Z := chr "?".
Definition FRAGMENT_SEPARATOR : Z := chr "#".
Definition DEFAULT_HTTP_PORT : Z := 80.
Definition DEFAULT_HTTPS_PORT : Z := 443.
Definition DEFAULT_PATH : list Z := lit "/".
Definition PATH_SEPARATOR : Z := chr "/".
Definition SCHEME_AUTHORITY_MEDIATOR : list Z := lit "://".
Definition MAX_HOSTNAME_LABEL_SIZE : Z := 63.
Definition MAX_HOSTNAME_SIZE : Z := 255.
Definition LABEL_SEPARATOR : Z := chr ".".
Definition LABEL_FIRST_LAST : CharTable :=
  Eval vm_compute in CharTable_union ALPHA_NUM (CharTable_new (Some (lit "_")) false).
Definition LABEL_MIDDLE : CharTable :=
  Eval vm_compute in CharTable_union ALPHA_NUM (CharTable_new (Some (lit "-_")) false).

Definition HTTP_SCHEME : list Z := lit "http".
Definition HTTPS_SCHEME : list Z := lit "https".
Definition HTTP_PREFIX : list Z := lit "http:".
Definition HTTPS_PREFIX : list Z := lit "https:".

Definition empty (s : list Z) : bool := match s with [] => true | _ => false end.

(** ** Validity of characters *)

Definition is_valid_chars (str : list Z) (category : CharTable) : bool :=
  (find_nonowned (table_owned category) str =? length str)%nat.

Definition is_hex : Z -> bool := table_owned HEX_NUMBER.

(** [find_invalid]: the number of characters before the place found. *)
Fixpoint find_invalid_loop (fuel : nat) (category : CharTable) (str : list Z) : nat :=
  match fuel with
  | O => O
  | S fuel' =>
      let k := find_nonowned (table_owned category) str in
      match skipn k str with
      | [] => length str
      | c :: rest =>
          if negb (c =? chr "%") then k
          else
            match rest with
            | h1 :: h2 :: str' =>
                if negb (is_hex h1) || negb (is_hex h2) then k
                else (k + 3 + find_invalid_loop fuel' category str')%nat
            | _ => k
            end
      end
  end.

Definition find_invalid (str : list Z) (category : CharTable) : nat :=
  find_invalid_loop (S (length str)) category str.

Definition is_valid_encoded (encoded_str : list Z) (category : CharTable) : bool :=
  (find_invalid encoded_str category =? length encoded_str)%nat.

Definition make_invalid (type url : list Z) : option (list Z) :=
  Some (lit "invalid " ++ type ++ lit " '" ++ url ++ lit "'").

(** [==] of a substring with a [Caseless]. *)
Definition is_scheme (scheme name : list Z) : bool := Caseless_equal false name scheme.

Definition check_http_url_components (url scheme host : list Z) (strict : bool) : option (list Z) :=
  if negb (is_scheme scheme HTTP_SCHEME) && negb (is_scheme scheme HTTPS_SCHEME)
     && (strict || negb (empty scheme))
  then make_invalid (lit "unexpected protocol in url") url
  else if empty host then make_invalid (lit "empty server name in url") url
  else None.

Definition http_url_needs_prefix (scheme host : list Z) : bool :=
  empty host && negb (is_scheme scheme HTTP_SCHEME) && negb (is_scheme scheme HTTPS_SCHEME).

Definition http_add_scheme (url : list Z) : list Z := HTTP_SCHEME ++ SCHEME_AUTHORITY_MEDIATOR ++ url.

Fixpoint http_fix_part_loop (fuel : nat) (str new_part : list Z) : outcome (list Z) :=
  match fuel with
  | O => Undef
  | S fuel' =>
      match str with
      | [] => Undef
      | CH :: OLD =>
          d1 <- rd HEX_DIGITS (Z.to_nat (Z.land (Z.shiftr (schar CH) 4) 15)) ;;
          d2 <- rd HEX_DIGITS (Z.to_nat (Z.land (schar CH) 15)) ;;
          let k := find_invalid OLD QUERY in
          let new_part := new_part ++ [chr "%"; d1; d2] ++ firstn k OLD in
          match skipn k OLD with
          | [] => Ret new_part
          | str' => http_fix_part_loop fuel' str' new_part
          end
      end
  end.

(** The new part, or [None] when there is nothing to fix. *)
Definition http_fix_part (part : list Z) (checker : CharTable) : outcome (option (list Z)) :=
  let k := find_invalid part checker in
  if (k =? length part)%nat then Ret None
  else
    r <- http_fix_part_loop (length part) (skipn k part) (firstn k part) ;;
    Ret (Some r).

Fixpoint unmime (str : list Z) (valid : CharTable) : outcome (list Z) :=
  match str with
  | [] => Ret []
  | c :: str' =>
      if c =? chr "%" then
        match str' with
        | h1 :: h2 :: rest =>
            if negb (is_hex h1) then Undef
            else
              let ch := hex_to_char h1 h2 in
              r <- unmime rest valid ;;
              Ret (if table_owned valid ch then to_lower ch :: r
                   else chr "%" :: to_lower h1 :: to_lower h2 :: r)
        | _ => Undef
        end
      else r <- unmime str' valid ;; Ret (to_lower c :: r)
  end.

Fixpoint unmime_all (src : list Z) : list Z :=
  match src with
  | [] => []
  | c :: src' =>
      match src' with
      | h1 :: h2 :: rest =>
          if (c =? chr "%") && is_hex h1 && is_hex h2 then hex_to_char h1 h2 :: unmime_all rest
          else c :: unmime_all src'
      | _ => c :: unmime_all src'
      end
  end.

(** ** The parts of a URL *)

Record Part : Type := part { has : bool; text : list Z }.

Definition no_part : Part := part false [].
Definition Part_new (text : list Z) : Part := part (negb (empty text)) text.

(** [ExtendedUrlParts]; a [UrlParts] is one with an empty [authority]. *)
Record UrlParts : Type := {
  scheme : Part;
  userinfo : Part;
  host : Part;
  port : Part;
  path : Part;
  query : Part;
  fragment : Part;
  authority : list Z;
}.

Definition UrlParts_clear : UrlParts :=
  {| scheme := no_part; userinfo := no_part; host := no_part; port := no_part;
     path := no_part; query := no_part; fragment := no_part; authority := [] |}.

Definition UrlParts_new (scheme userinfo host port path query fragment : list Z) : UrlParts :=
  {| scheme := Part_new scheme; userinfo := Part_new userinfo; host := Part_new host;
     port := Part_new port; path := Part_new path; query := Part_new query;
     fragment := Part_new fragment; authority := [] |}.

Definition set_scheme (p : UrlParts) (x : Part) : UrlParts :=
  {| scheme := x; userinfo := userinfo p; host := host p; port := port p; path := path p;
     query := query p; fragment := fragment p; authority := authority p |}.
Definition set_userinfo (p : UrlParts) (x : Part) : UrlParts :=
  {| scheme := scheme p; userinfo := x; host := host p; port := port p; path := path p;
     query := query p; fragment := fragment p; authority := authority p |}.
Definition set_host (p : UrlParts) (x : Part) : UrlParts :=
  {| scheme := scheme p; userinfo := userinfo p; host := x; port := port p; path := path p;
     query := query p; fragment := fragment p; authority := authority p |}.
Definition set_port (p : UrlParts) (x : Part) : UrlParts :=
  {| scheme := scheme p; userinfo := userinfo p; host := host p; port := x; path := path p;
     query := query p; fragment := fragment p; authority := authority p |}.
Definition set_path (p : UrlParts) (x : Part) : UrlParts :=
  {| scheme := scheme p; userinfo := userinfo p; host := host p; port := port p; path := x;
     query := query p; fragment := fragment p; authority := authority p |}.
Definition set_query (p : UrlParts) (x : Part) : UrlParts :=
  {| scheme := scheme p; userinfo := userinfo p; host := host p; port := port p; path := path p;
     query := x; fragment := fragment p; authority := authority p |}.
Definition set_fragment (p : UrlParts) (x : Part) : UrlParts :=
  {| scheme := scheme p; userinfo := userinfo p; host := host p; port := port p; path := path p;
     query := query p; fragment := x; authority := authority p |}.
Definition set_authority (p : UrlParts) (x : list Z) : UrlParts :=
  {| scheme := scheme p; userinfo := userinfo p; host := host p; port := port p; path := path p;
     query := query p; fragment := fragment p; authority := x |}.

(** ** [split_url]

    Its first loop, as one function for each part it comes to; [cur] is the
    text from the current position to the end. *)

Definition split_fragment (p : UrlParts) (cur : list Z) : outcome UrlParts :=
  c <- rd cur 0 ;;
  if negb (c =? chr "#") then Undef
  else Ret (set_fragment p (part true (skipn 1 cur))).

Definition split_query (p : UrlParts) (cur : list Z) : outcome UrlParts :=
  c <- rd cur 0 ;;
  if c =? chr "?" then
    let cur := skipn 1 cur in
    let e := find_owned URL_PARSER_QUERY_END cur in
    let p := set_query p (part true (firstn e cur)) in
    if (e =? length cur)%nat then Ret p else split_fragment p (skipn e cur)
  else split_fragment p cur.

Definition split_path (p : UrlParts) (cur : list Z) : outcome UrlParts :=
  let e := find_owned URL_PARSER_PATH_END cur in
  let p := set_path p (part true (firstn e cur)) in
  if (e =? length cur)%nat then Ret p else split_query p (skipn e cur).

Definition split_hier (p : UrlParts) (cur : list Z) : outcome UrlParts :=
  match cur with
  | [] => Ret p
  | c :: _ =>
      if negb (c =? chr "?") && negb (c =? chr "#") then
        match cur with
        | c0 :: c1 :: cur' =>
            if (c0 =? chr "/") && (c1 =? chr "/") then
              match cur' with
              | [] => Ret p
              | _ =>
                  let e := find_owned URL_PARSER_AUTORITY_END cur' in
                  let p := set_authority p (firstn e cur') in
                  if (e =? length cur')%nat then Ret p else split_path p (skipn e cur')
              end
            else split_path p cur
        | _ => split_path p cur
        end
      else split_query p cur
  end.

Definition split_components (url : list Z) : outcome UrlParts :=
  let e := find_owned (table_owned URL_PARSER_SCHEME_END) url in
  if (e =? length url)%nat then Ret (set_path UrlParts_clear (part true url))
  else
    c <- rd url e ;;
    if c =? chr ":" then split_hier (set_scheme UrlParts_clear (part true (firstn e url))) (skipn (e + 1) url)
    else split_hier UrlParts_clear url.

(** The second half: [authority] into userinfo, host and port. *)
Definition split_authority (p : UrlParts) : outcome UrlParts :=
  let authority := authority p in
  if empty authority then Ret p
  else
    let at_pos := find_ch authority USERINFO_SEPARATOR 0 in
    p <- (if negb (at_pos =? NPOS) && negb (at_pos =? 0)
          then userinfo <- substr false authority 0 at_pos ;; Ret (set_userinfo p (part true userinfo))
          else Ret p) ;;
    let host_begin := if at_pos =? NPOS then 0 else at_pos + 1 in
    let host_end := rfind_ch authority PORT_SEPARATOR NPOS in
    let host_end :=
      if negb (host_end =? NPOS) && negb (host_begin =? 0) && (host_end <? host_begin)
      then NPOS else host_end in
    p <- (if negb (host_end =? NPOS) && negb (host_end =? size authority - 1)
          then port <- substr false authority (host_end + 1) (size authority - host_end) ;;
               Ret (set_port p (part true port))
          else Ret p) ;;
    let host_end := if host_end =? NPOS then size authority else host_end in
    host <- substr false authority host_begin (host_end - host_begin) ;;
    Ret (set_host p (part true host)).

Definition split_url (url : list Z) : outcome UrlParts :=
  p <- split_components url ;; split_authority p.

Example split_example :
  split_url (lit "http://user:pw@www.ex.com:8080/a/b?c=d#e") =
  Ret {| scheme := part true (lit "http"); userinfo := part true (lit "user:pw");
         host := part true (lit "www.ex.com"); port := part true (lit "8080");
         path := part true (lit "/a/b"); query := part true (lit "c=d");
         fragment := part true (lit "e"); authority := lit "user:pw@www.ex.com:8080" |}.
Proof. vm_compute. reflexivity. Qed.

(** ** [URLPartsChecker] *)

Definition label_ok (label : list Z) : bool :=
  (1 <=? size label) && (size label <=? MAX_HOSTNAME_LABEL_SIZE).

Definition label_chars (label : list Z) : bool :=
  table_owned LABEL_FIRST_LAST (nth 0 label 0) &&
  negb ((1 <? size label) && negb (table_owned LABEL_FIRST_LAST (nth (length label - 1) label 0))) &&
  negb ((2 <? size label)
        && negb (is_valid_chars (firstn (length label - 2) (skipn 1 label)) LABEL_MIDDLE)).

Fixpoint check_labels (labels : list (list Z)) (url : list Z) : option (list Z) :=
  match labels with
  | [] => None
  | label :: rest =>
      if negb (label_ok label) then make_invalid (lit "length of host's label in url") url
      else if negb (label_chars label) then make_invalid (lit "characters in host's label in url") url
      else check_labels rest url
  end.

Definition host_labels (host : list Z) : outcome (list (list Z)) :=
  tokens (Char1 LABEL_SEPARATOR) true
    (if nth (length host - 1) host 0 =? LABEL_SEPARATOR then firstn (length host - 1) host else host).

Definition check_scheme (scheme : Part) : bool :=
  if empty (text scheme) then negb (has scheme)
  else table_owned SCHEME_FIRST (nth 0 (text scheme) 0)
       && is_valid_chars (skipn 1 (text scheme)) SCHEME_NOT_FIRST.

Definition check_host (p : UrlParts) (url : list Z) : outcome (option (list Z)) :=
  let host := text (host p) in
  if negb (empty host) then
    if (MAX_HOSTNAME_SIZE <? size host) || negb (is_valid_chars host HOST)
    then Ret (make_invalid (lit "host in url") url)
    else labels <- host_labels host ;; Ret (check_labels labels url)
  else if negb (empty (text (userinfo p))) || negb (empty (text (port p)))
  then Ret (make_invalid (lit "empty host in url") url)
  else Ret None.

Definition check_path (p : UrlParts) : bool :=
  let path := text (path p) in
  empty path ||
  (negb (if negb (empty (text (host p))) then negb (nth 0 path 0 =? PATH_SEPARATOR)
         else (nth 0 path 0 =? PATH_SEPARATOR) && (1 <? size path) && (nth 1 path 0 =? PATH_SEPARATOR))
   && is_valid_encoded path PATH).

Definition encoded_or_empty (s : list Z) (category : CharTable) : bool := empty s || is_valid_encoded s category.

Definition URLPartsChecker (url : list Z) (p : UrlParts) : outcome (option (list Z)) :=
  if negb (check_scheme (scheme p)) then Ret (make_invalid (lit "scheme in url") url)
  else if negb (encoded_or_empty (text (userinfo p)) USER_INFO)
  then Ret (make_invalid (lit "userinfo in url") url)
  else
    host_error <- check_host p url ;;
    match host_error with
    | Some e => Ret (Some e)
    | None =>
        if negb (empty (text (port p)) || is_valid_chars (text (port p)) PORT)
        then Ret (make_invalid (lit "port in url") url)
        else if negb (check_path p) then Ret (make_invalid (lit "path in url") url)
        else if negb (encoded_or_empty (text (query p)) QUERY)
        then Ret (make_invalid (lit "query in url") url)
        else if negb (encoded_or_empty (text (fragment p)) FRAGMENT)
        then Ret (make_invalid (lit "fragment in url") url)
        else Ret None
    end.

Definition URLChecker (url : list Z) : outcome bool :=
  p <- split_url url ;; error <- URLPartsChecker url p ;;
  Ret (match error with None => true | Some _ => false end).


(** ** Encoded text

    [enc_len]: the length of the longest beginning made of characters of the
    category and of "%hh"; [fix_text]: everything else escaped. *)

Fixpoint enc_len (owned : Z -> bool) (s : list Z) : nat :=
  match s with
  | [] => O
  | c :: s' =>
      if owned c then S (enc_len owned s')
      else match s' with
           | h1 :: h2 :: s'' => if (c =? 37) && is_hex h1 && is_hex h2 then S (S (S (enc_len owned s''))) else O
           | _ => O
           end
  end.

Definition pct (c : Z) : list Z := [37; hex_digit (Z.shiftr c 4); hex_digit (Z.land c 15)].

Fixpoint fix_text (owned : Z -> bool) (s : list Z) : list Z :=
  match s with
  | [] => []
  | c :: s' =>
      if owned c then c :: fix_text owned s'
      else match s' with
           | h1 :: h2 :: s'' =>
               if (c =? 37) && is_hex h1 && is_hex h2 then c :: h1 :: h2 :: fix_text owned s''
               else pct c ++ fix_text owned s'
           | _ => pct c ++ fix_text owned s'
           end
  end.

(** Induction along "%hh": the claim for a text follows from that for what is
    left after one character and after three. *)
Lemma text_ind (P : list Z -> Prop) :
  P [] -> (forall c s, P s -> (forall h1 h2 s', s = h1 :: h2 :: s' -> P s') -> P (c :: s)) -> forall s, P s.
Proof.
  intros H0 H1 s. remember (length s) as n eqn:E. revert s E.
  induction n as [n IH] using (well_founded_induction Wf_nat.lt_wf); intros [|c s] E; [easy|].
  cbn in E. apply H1.
  - eapply IH; [|reflexivity]. lia.
  - intros h1 h2 s' ->. cbn in E. eapply IH; [|reflexivity]. lia.
Qed.

Lemma enc_len_le owned s : (enc_len owned s <= length s)%nat.
Proof.
  induction s as [|c s IH IH3] using text_ind; [easy|]. cbn [enc_len length]. destruct (owned c); [lia|].
  destruct s as [|h1 [|h2 s']]; cbn [length]; try lia.
  specialize (IH3 _ _ _ eq_refl). destruct (_ && _ && _); lia.
Qed.

Lemma enc_len_prefix owned s : enc_len owned s = (find_nonowned owned s + enc_len owned (skipn (find_nonowned owned s) s))%nat.
Proof.
  induction s as [|c s IH]; [easy|]. cbn [find_nonowned]. destruct (owned c) eqn:E; cbn [negb]; [|easy].
  cbn [enc_len skipn]. rewrite E, IH. easy.
Qed.

Lemma find_invalid_loop_eq fuel category s : (length s < fuel)%nat ->
  find_invalid_loop fuel category s = enc_len (table_owned category) s.
Proof.
  revert s. induction fuel as [|fuel IH]; intros s L; [lia|]. cbn [find_invalid_loop].
  rewrite enc_len_prefix. set (k := find_nonowned (table_owned category) s).
  pose proof (find_nonowned_stop (table_owned category) s) as St. fold k in St.
  pose proof (length_skipn k s) as Ls. pose proof (find_nonowned_le (table_owned category) s) as Le. fold k in Le.
  destruct (skipn k s) as [|c rest]; [cbn in *; lia|]. cbn [enc_len]. rewrite (St c rest eq_refl).
  change (chr "%") with 37. destruct (c =? 37); cbn [negb andb].
  - destruct rest as [|h1 [|h2 s']]; [lia..|]. rewrite <- negb_andb. destruct (is_hex h1 && is_hex h2); cbn [negb]; [|lia].
    rewrite IH by (cbn in Ls; lia). lia.
  - destruct rest as [|h1 [|h2 s']]; lia.
Qed.

Lemma find_invalid_eq s category : find_invalid s category = enc_len (table_owned category) s.
Proof. apply find_invalid_loop_eq. lia. Qed.

Lemma is_valid_encoded_eq s category : is_valid_encoded s category = (enc_len (table_owned category) s =? length s)%nat.
Proof. unfold is_valid_encoded. now rewrite find_invalid_eq. Qed.

(** The legal texts, as a grammar. *)
Inductive encoded (owned : Z -> bool) : list Z -> Prop :=
| encoded_nil : encoded owned []
| encoded_char c s : owned c = true -> encoded owned s -> encoded owned (c :: s)
| encoded_pct h1 h2 s :
    is_hex h1 = true -> is_hex h2 = true -> encoded owned s -> encoded owned (37 :: h1 :: h2 :: s).

Lemma enc_len_full owned s : enc_len owned s = length s -> encoded owned s.
Proof.
  induction s as [|c s IH IH3] using text_ind; cbn [enc_len length]; [constructor|].
  destruct (owned c) eqn:E; [intros [=]; constructor; auto|].
  destruct s as [|h1 [|h2 s']]; [easy..|].
  destruct (Z.eqb_spec c 37) as [->|]; cbn [andb]; [|easy].
  destruct (is_hex h1) eqn:E1, (is_hex h2) eqn:E2; cbn [andb]; try easy.
  intros [=]. apply encoded_pct; auto. eapply IH3; eauto.
Qed.

Lemma encoded_enc_len owned s : owned 37 = false -> encoded owned s -> enc_len owned s = length s.
Proof.
  intros P. induction 1 as [|c s E H IH|h1 h2 s E1 E2 H IH]; cbn [enc_len length]; [easy| |].
  - now rewrite E, IH.
  - now rewrite P, E1, E2, IH.
Qed.

Lemma encoded_iff category s : table_owned category 37 = false ->
  is_valid_encoded s category = true <-> encoded (table_owned category) s.
Proof.
  intros P. rewrite is_valid_encoded_eq, Nat.eqb_eq. split; [apply enc_len_full|now apply encoded_enc_len].
Qed.

Lemma encoded_weaken (p q : Z -> bool) s : (forall c, In c s -> p c = true -> q c = true) -> encoded p s -> encoded q s.
Proof.
  intros W. induction 1 as [|c s E H IH|h1 h2 s E1 E2 H IH].
  - constructor.
  - constructor; [apply W; [now left|easy]|]. apply IH. intros d I. apply W. now right.
  - apply encoded_pct; auto. apply IH. intros d I. apply W. now do 3 right.
Qed.

(** The text before the place found is legal, and after it comes something
    that is not. *)
Lemma enc_len_firstn owned s : encoded owned (firstn (enc_len owned s) s).
Proof.
  induction s as [|c s IH IH3] using text_ind; cbn [enc_len]; [constructor|].
  destruct (owned c) eqn:E; [cbn [firstn]; now constructor|].
  destruct s as [|h1 [|h2 s']]; [constructor..|].
  destruct (Z.eqb_spec c 37) as [->|]; cbn [andb]; [|constructor].
  destruct (is_hex h1) eqn:E1; [|constructor]. destruct (is_hex h2) eqn:E2; [|constructor].
  cbn [andb firstn]. apply encoded_pct; auto. eapply IH3; eauto.
Qed.

Lemma encoded_app owned s t : encoded owned s -> encoded owned t -> encoded owned (s ++ t).
Proof. induction 1; cbn; [easy| |]; intros; [apply encoded_char|apply encoded_pct]; auto. Qed.

Lemma pct_hex c : is_byte c -> is_hex (hex_digit (Z.shiftr c 4)) = true /\ is_hex (hex_digit (Z.land c 15)) = true.
Proof.
  intros H.
  split; by_bytes c H.
Qed.

Lemma pct_bytes c : is_bytes (pct c).
Proof.
  assert (forall n, is_byte (hex_digit n)) as D.
  { intros n. unfold hex_digit. destruct (nth_in_or_default (Z.to_nat n) HEX_DIGITS 0) as [I| ->]; [|easy].
    exact (proj1 (Forall_forall _ _) (lit_bytes "0123456789ABCDEF") _ I). }
  unfold pct. constructor; [easy|]. constructor; [apply D|]. constructor; [apply D|constructor].
Qed.

Lemma encoded_fix_text (p q : Z -> bool) s : is_bytes s ->
  (forall c, In c s -> p c = true -> q c = true) -> encoded q (fix_text p s).
Proof.
  induction s as [|c s IH IH3] using text_ind; intros B W; cbn [fix_text]; [constructor|].
  inversion B as [|? ? Bc Bs]; subst. destruct (pct_hex c Bc) as [X Y].
  assert (encoded q (fix_text p s)) as Es by (apply IH; [easy|]; intros d I; apply W; now right).
  destruct (p c) eqn:E; [constructor; [apply W; [now left|easy]|easy]|].
  destruct s as [|h1 [|h2 s']]; try (now apply encoded_pct).
  destruct (Z.eqb_spec c 37) as [->|]; cbn [andb]; [|now apply encoded_pct].
  destruct (is_hex h1) eqn:E1, (is_hex h2) eqn:E2; cbn [andb]; try (now apply encoded_pct).
  apply encoded_pct; auto. inversion Bs as [|? ? ? Bs']; subst. inversion Bs'; subst. eapply IH3; eauto.
  intros d I. apply W. now do 3 right.
Qed.

Lemma fix_text_length owned s : (length (fix_text owned s) <= 3 * length s)%nat.
Proof.
  induction s as [|c s IH IH3] using text_ind; cbn [fix_text length]; [lia|].
  assert (length (pct c ++ fix_text owned s) = 3 + length (fix_text owned s))%nat as E by easy.
  destruct (owned c); [cbn [length]; lia|]. destruct s as [|h1 [|h2 s']]; [rewrite E; lia..|].
  specialize (IH3 _ _ _ eq_refl). destruct (_ && _ && _); [|rewrite E; lia]. cbn [length] in *. lia.
Qed.

Lemma fix_text_enc_len owned s :
  fix_text owned s = firstn (enc_len owned s) s ++
    match skipn (enc_len owned s) s with [] => [] | c :: r => pct c ++ fix_text owned r end.
Proof.
  induction s as [|c s IH IH3] using text_ind; [easy|]. cbn [fix_text enc_len].
  destruct (owned c) eqn:E; [cbn [firstn skipn app]; now rewrite IH at 1|].
  destruct s as [|h1 [|h2 s']]; [easy..|].
  destruct ((c =? 37) && is_hex h1 && is_hex h2) eqn:E'; [|easy].
  cbn [firstn skipn app]. rewrite (IH3 _ _ _ eq_refl) at 1. easy.
Qed.

Lemma fix_digits c : is_byte c ->
  rd HEX_DIGITS (Z.to_nat (Z.land (Z.shiftr (schar c) 4) 15)) = Ret (hex_digit (Z.shiftr c 4)) /\
  rd HEX_DIGITS (Z.to_nat (Z.land (schar c) 15)) = Ret (hex_digit (Z.land c 15)).
Proof.
  intros H.
  assert (Z.land (Z.shiftr (schar c) 4) 15 = Z.shiftr c 4 /\ Z.land (schar c) 15 = Z.land c 15
          /\ 0 <= Z.shiftr c 4 < 16 /\ 0 <= Z.land c 15 < 16) as (-> & -> & H1 & H2).
  { enough ((Z.land (Z.shiftr (schar c) 4) 15 =? Z.shiftr c 4) && (Z.land (schar c) 15 =? Z.land c 15)
            && (0 <=? Z.shiftr c 4) && (Z.shiftr c 4 <? 16) && (0 <=? Z.land c 15) && (Z.land c 15 <? 16) = true) as E
      by (bools; lia).
    by_bytes c H. }
  split; apply rd_nth; change (length HEX_DIGITS) with 16%nat; lia.
Qed.

Lemma fix_loop_eq fuel c s acc : (length s < fuel)%nat -> is_bytes (c :: s) ->
  http_fix_part_loop fuel (c :: s) acc = Ret (acc ++ pct c ++ fix_text (table_owned QUERY) s).
Proof.
  revert c s acc. induction fuel as [|fuel IH]; intros c s acc L B; [lia|]. cbn [http_fix_part_loop].
  inversion B as [|? ? Bc Bs]; subst. destruct (fix_digits c Bc) as [-> ->]. cbn [bind].
  rewrite find_invalid_eq, (fix_text_enc_len _ s). set (k := enc_len _ s).
  pose proof (length_skipn k s) as Ls. pose proof (Forall_skipn is_byte k s Bs) as B'.
  destruct (skipn k s) as [|c' s']; [now rewrite app_nil_r|]. rewrite IH by (cbn in Ls; lia || easy).
  unfold pct. now rewrite <- !app_assoc.
Qed.

(** [http_fix_part] as a function of the text. *)
Lemma http_fix_part_eq s checker : is_bytes s ->
  http_fix_part s checker =
    Ret (match skipn (enc_len (table_owned checker) s) s with
         | [] => None
         | c :: r => Some (firstn (enc_len (table_owned checker) s) s ++ pct c ++ fix_text (table_owned QUERY) r)
         end).
Proof.
  intros B. unfold http_fix_part. rewrite find_invalid_eq. set (k := enc_len _ s).
  pose proof (length_skipn k s) as Ls. pose proof (enc_len_le (table_owned checker) s) as Le. fold k in Le.
  destruct (Nat.eqb_spec k (length s)) as [->|N]; [now rewrite skipn_all|].
  pose proof (Forall_skipn is_byte k s B) as B'.
  destruct (skipn k s) as [|c r]; [cbn in Ls; lia|]. rewrite fix_loop_eq; [easy|cbn in Ls; lia|easy].
Qed.

(** ** Decoding *)

Lemma unmime_all_char c s : c <> 37 -> unmime_all (c :: s) = c :: unmime_all s.
Proof.
  intros N. cbn [unmime_all]. change (chr "%") with 37. destruct (Z.eqb_spec c 37); [easy|].
  now destruct s as [|h1 [|h2 s']].
Qed.

Lemma unmime_all_pct c s : is_byte c -> unmime_all (pct c ++ s) = c :: unmime_all s.
Proof.
  intros B. destruct (pct_hex c B) as [X Y]. cbn [pct app unmime_all]. rewrite X, Y. cbn [andb Z.eqb].
  unfold hex_digit. now rewrite hex_byte_roundtrip.
Qed.

Lemma unmime_all_stop owned c s : enc_len owned (c :: s) = O -> unmime_all (c :: s) = c :: unmime_all s.
Proof.
  cbn [enc_len unmime_all]. change (chr "%") with 37. destruct (owned c); [easy|].
  destruct s as [|h1 [|h2 s']]; [easy..|]. now destruct ((c =? 37) && is_hex h1 && is_hex h2).
Qed.

Lemma unmime_all_encoded owned s t : owned 37 = false -> encoded owned s ->
  unmime_all (s ++ t) = unmime_all s ++ unmime_all t.
Proof.
  intros P. induction 1 as [|c s E H IH|h1 h2 s E1 E2 H IH]; [easy| |].
  - assert (c <> 37) by congruence. cbn [app]. rewrite !unmime_all_char by easy. now rewrite IH.
  - cbn [app unmime_all]. rewrite E1, E2. cbn. now rewrite IH.
Qed.

Lemma unmime_all_fix owned s : owned 37 = false -> is_bytes s -> unmime_all (fix_text owned s) = unmime_all s.
Proof.
  intros P. induction s as [|c s IH IH3] using text_ind; intros B; [easy|].
  inversion B as [|? ? Bc Bs]; subst. cbn [fix_text]. destruct (owned c) eqn:E.
  - assert (c <> 37) by congruence. rewrite !unmime_all_char by easy. now rewrite IH.
  - assert (unmime_all (pct c ++ fix_text owned s) = c :: unmime_all s) as F by now rewrite unmime_all_pct, IH.
    destruct s as [|h1 [|h2 s']]; [easy..|].
    destruct ((c =? 37) && is_hex h1 && is_hex h2) eqn:E'.
    + cbn [unmime_all]. change (chr "%") with 37. rewrite E'. f_equal. eapply IH3; [reflexivity|].
      inversion Bs as [|? ? ? Bs']; subst. now inversion Bs'.
    + rewrite F. symmetry. apply (unmime_all_stop owned). cbn [enc_len]. now rewrite E, E'.
Qed.

Lemma enc_len_skipn owned s : enc_len owned (skipn (enc_len owned s) s) = O.
Proof.
  induction s as [|c s IH IH3] using text_ind; [easy|]. cbn [enc_len].
  destruct (owned c) eqn:E; [easy|]. destruct s as [|h1 [|h2 s']].
  1, 2: cbn [skipn enc_len]; now rewrite E.
  destruct ((c =? 37) && is_hex h1 && is_hex h2) eqn:E'; [exact (IH3 _ _ _ eq_refl)|].
  cbn [skipn enc_len]. now rewrite E, E'.
Qed.

(** [unmime]: every octet of the decoded text as [norm] writes it. *)
Definition norm (valid : CharTable) (c : Z) : list Z :=
  if table_owned valid c then [to_lower c] else map to_lower (pct c).

Lemma hex_lower h : is_byte h -> is_hex h = true ->
  0 <= hex_to_int h < 16 /\ to_lower h = to_lower (hex_digit (hex_to_int h)).
Proof.
  intros B E. split; [now apply hex_to_int_nibble|]. apply Z.eqb_eq.
  enough (implb (is_hex h) (to_lower h =? to_lower (hex_digit (hex_to_int h))) = true) as I by (now rewrite E in I).
  clear E. by_bytes h B.
Qed.

Lemma hex_char_digits h1 h2 : is_byte h1 -> is_byte h2 -> is_hex h1 = true -> is_hex h2 = true ->
  map to_lower (pct (hex_to_char h1 h2)) = [37; to_lower h1; to_lower h2] /\ is_byte (hex_to_char h1 h2).
Proof.
  intros B1 B2 E1 E2. destruct (hex_lower h1 B1 E1) as [R1 ->], (hex_lower h2 B2 E2) as [R2 ->].
  assert (hex_to_char h1 h2 = 16 * hex_to_int h1 + hex_to_int h2) as ->.
  { unfold hex_to_char, convert. rewrite lor_shiftl_small by lia. rewrite wrapu_small; lia. }
  split; [|unfold is_byte; lia]. unfold pct. cbn [map]. f_equal. rewrite Z.shiftr_div_pow2 by lia.
  change 15 with (2 ^ 4 - 1). rewrite land_mask by lia. f_equal; [|f_equal]; do 2 f_equal; Z.div_mod_to_equations; lia.
Qed.

Lemma unmime_norm valid s : table_owned valid 37 = false -> is_bytes s -> encoded (table_owned valid) s ->
  unmime s valid = Ret (flat_map (norm valid) (unmime_all s)).
Proof.
  intros P B H. induction H as [|c s E H IH|h1 h2 s E1 E2 H IH]; [easy| |].
  - assert (c <> 37) by congruence. inversion B; subst. rewrite unmime_all_char by easy.
    cbn [unmime flat_map]. change (chr "%") with 37. destruct (Z.eqb_spec c 37); [easy|].
    rewrite IH by easy. cbn [bind]. unfold norm at 2. now rewrite E.
  - inversion B as [|? ? _ B1]; subst. inversion B1 as [|? ? Bh1 B2]; subst. inversion B2 as [|? ? Bh2 B3]; subst.
    cbn [unmime unmime_all]. change (37 =? chr "%") with true. cbn [andb]. rewrite E1, E2. cbn [negb andb flat_map].
    rewrite IH by easy. cbn [bind]. destruct (hex_char_digits h1 h2) as [D _]; auto. unfold norm at 3. rewrite D.
    now destruct (table_owned valid (hex_to_char h1 h2)).
Qed.

Lemma unmime_all_bytes s : is_bytes s -> is_bytes (unmime_all s).
Proof.
  induction s as [|c s IH IH3] using text_ind; intros B; [constructor|]. inversion B as [|? ? Bc Bs]; subst.
  cbn [unmime_all]. destruct s as [|h1 [|h2 s']]; [constructor; auto; apply IH; auto..|].
  destruct (_ && _ && _) eqn:E; [|constructor; auto; apply IH; auto].
  bools. inversion Bs as [|? ? B1 Bs']; subst. inversion Bs' as [|? ? B2 Bs'']; subst.
  constructor; [|eapply IH3; eauto]. now apply hex_char_digits.
Qed.

Lemma to_lower_idem c : is_byte c -> to_lower (to_lower c) = to_lower c.
Proof.
  intros B. apply Z.eqb_eq. by_bytes c B.
Qed.

(** The tables that [unmime] is used with. *)
Definition case_blind (valid : CharTable) : Prop :=
  table_owned valid 37 = false /\
  forall c, is_byte c ->
    (table_owned valid c = true -> table_owned valid (to_lower c) = true) /\
    (table_owned valid c = false -> to_lower c = c).

Lemma case_blind_PATH_QUERY valid : valid = PATH \/ valid = QUERY -> case_blind valid.
Proof.
  intros H. split; [destruct H; subst; reflexivity|]. intros c B.
  enough (implb (table_owned valid c) (table_owned valid (to_lower c))
          && (table_owned valid c || (to_lower c =? c)) = true) as E.
  { bools. destruct (table_owned valid c); cbn in *; split; try easy. bools. lia. }
  destruct H; subst; by_bytes c B.
Qed.

Lemma norm_blind valid c : case_blind valid -> is_byte c ->
  norm valid (to_lower c) = norm valid c /\ encoded (table_owned valid) (norm valid c) /\
  is_bytes (norm valid c) /\ forall s, unmime_all (norm valid c ++ s) = to_lower c :: unmime_all s.
Proof.
  intros [P H] B. destruct (H c B) as [H1 H2]. pose proof (to_lower_byte c B) as Bl. unfold norm.
  destruct (table_owned valid c) eqn:E.
  - rewrite H1, to_lower_idem by easy.
    split; [easy|]. split; [auto using encoded|]. split; [constructor; [easy|constructor]|].
    intros s. apply unmime_all_char. intros N. rewrite <- N, H1 in P by easy. easy.
  - rewrite (H2 eq_refl), E.
    assert (is_hex (to_lower (hex_digit (Z.shiftr c 4))) && is_hex (to_lower (hex_digit (Z.land c 15)))
            && (hex_to_char (to_lower (hex_digit (Z.shiftr c 4))) (to_lower (hex_digit (Z.land c 15))) =? c) = true) as F
      by (clear - B; by_bytes c B).
    bools. assert (is_bytes (map to_lower (pct c))) as Bp.
    { pose proof (pct_bytes c). now apply Forall_map, (Forall_impl (P := is_byte)); [apply to_lower_byte|]. }
    repeat split; auto.
    + cbn [pct map]. apply encoded_pct; auto. constructor.
    + intros s. cbn [pct map app unmime_all]. change (to_lower 37) with 37. change (37 =? chr "%") with true.
      rewrite H0, H4. cbn [andb]. f_equal. easy.
Qed.

Lemma flat_map_norm valid d : case_blind valid -> is_bytes d ->
  encoded (table_owned valid) (flat_map (norm valid) d) /\ is_bytes (flat_map (norm valid) d) /\
  unmime_all (flat_map (norm valid) d) = map to_lower d /\
  flat_map (norm valid) (map to_lower d) = flat_map (norm valid) d.
Proof.
  intros V. induction d as [|c d IH]; intros B; [repeat split; constructor|]. inversion B as [|? ? Bc Bd]; subst.
  destruct (IH Bd) as (I1 & I2 & I3 & I4). destruct (norm_blind valid c V Bc) as (N1 & N2 & N3 & N4).
  cbn [flat_map map]. repeat split.
  - now apply encoded_app.
  - now apply Forall_app.
  - now rewrite N4, I3.
  - now rewrite N1, I4.
Qed.

(** ** The generic syntax of RFC 3986 *)

Record Auth : Type := { a_user : option (list Z); a_host : list Z; a_port : option (list Z) }.

Record Uri : Type := {
  u_scheme : option (list Z);
  u_authority : option Auth;
  u_path : list Z;
  u_query : option (list Z);
  u_fragment : option (list Z);
}.

Definition before (o : option (list Z)) (c : Z) : list Z := match o with Some s => s ++ [c] | None => [] end.
Definition after (c : Z) (o : option (list Z)) : list Z := match o with Some s => c :: s | None => [] end.

Definition auth_text (a : Auth) : list Z :=
  before (a_user a) (chr "@") ++ a_host a ++ after (chr ":") (a_port a).

Definition hier_text (a : option Auth) : list Z := match a with Some a => lit "//" ++ auth_text a | None => [] end.

Definition tail_text (q f : option (list Z)) : list Z := after (chr "?") q ++ after (chr "#") f.

(** Section 5.3. *)
Definition recompose (u : Uri) : list Z :=
  before (u_scheme u) (chr ":") ++ hier_text (u_authority u) ++ u_path u ++ tail_text (u_query u) (u_fragment u).

(** [clear_of str s]: [s] has none of the characters of [str]. *)
Definition clear_of (str s : list Z) : Prop := Forall (fun c => among str c = false) s.
Definition clear_opt (str : list Z) (o : option (list Z)) : Prop := match o with Some s => clear_of str s | None => True end.

Definition wf_auth (a : Auth) : Prop :=
  clear_of (lit "/?#") (auth_text a) /\ clear_opt (lit "@") (a_user a) /\ clear_opt (lit ":") (a_port a) /\
  (a_user a = None -> clear_of (lit "@") (auth_text a)) /\ (a_port a = None -> clear_of (lit ":") (a_host a)).

Definition wf_uri (u : Uri) : Prop :=
  clear_opt (lit ":/?#") (u_scheme u) /\
  clear_of (lit "?#") (u_path u) /\
  clear_opt (lit "#") (u_query u) /\
  match u_authority u with
  | Some a => wf_auth a /\ (u_path u = [] \/ exists r, u_path u = chr "/" :: r)
  | None =>
      (forall r, u_path u <> lit "//" ++ r) /\
      (u_scheme u = None -> clear_of (lit ":") (firstn (find_owned (Char1 (chr "/")) (u_path u)) (u_path u)))
  end.

Definition opt_part (o : option (list Z)) : Part := match o with Some s => part true s | None => no_part end.
(** userinfo and port count only when they are not empty *)
Definition filled (o : option (list Z)) : Part := match o with Some (c :: s) => part true (c :: s) | _ => no_part end.

Definition parts5 (s : Part) (a : list Z) (p q f : Part) : UrlParts :=
  {| scheme := s; userinfo := no_part; host := no_part; port := no_part; path := p; query := q;
     fragment := f; authority := a |}.

Definition path_found (u : Uri) : bool :=
  match u_authority u with
  | Some _ => negb (empty (u_path u ++ tail_text (u_query u) (u_fragment u)))
  | None => negb (empty (u_path u)) ||
            (empty (before (u_scheme u) (chr ":")) && empty (tail_text (u_query u) (u_fragment u)))
  end.

Definition component_parts (u : Uri) : UrlParts :=
  parts5 (opt_part (u_scheme u)) (match u_authority u with Some a => auth_text a | None => [] end)
    (part (path_found u) (u_path u)) (opt_part (u_query u)) (opt_part (u_fragment u)).

Definition uri_parts (u : Uri) : UrlParts :=
  let p := component_parts u in
  match u_authority u with
  | Some a =>
      if empty (auth_text a) then p
      else set_host (set_port (set_userinfo p (filled (a_user a))) (filled (a_port a))) (part true (a_host a))
  | None => p
  end.

Lemma find_owned_app p a r : Forall (fun c => p c = false) a ->
  find_owned p (a ++ r) = (length a + find_owned p r)%nat.
Proof. induction 1 as [|c a H _ IH]; [easy|]. cbn [app find_owned length]. now rewrite H, IH. Qed.

Lemma find_owned_none p a : Forall (fun c => p c = false) a -> find_owned p a = length a.
Proof. intros H. rewrite <- (app_nil_r a) at 1. rewrite find_owned_app by easy. cbn. lia. Qed.

Lemma clear_sub str str' s : (forall c, In c str' -> In c str) -> clear_of str s -> clear_of str' s.
Proof.
  intros I. apply Forall_impl. intros c H. destruct (among str' c) eqn:E; [|easy].
  apply among_iff, I, among_iff in E. congruence.
Qed.

(** The end of a part is found by its category. *)
Lemma clear_category str p s : (forall c, p c = among str c) -> clear_of str s -> Forall (fun c => p c = false) s.
Proof. intros E. apply Forall_impl. intros c. now rewrite E. Qed.

Ltac by_members :=
  apply eq_true_iff_eq; rewrite among_iff; cbn [lit In]; chr_simpl;
  rewrite ?orb_true_iff, ?Z.eqb_eq; intuition lia.

Lemma path_end_spec c : URL_PARSER_PATH_END c = among (lit "?#") c.
Proof. unfold URL_PARSER_PATH_END, Char2. by_members. Qed.
Lemma query_end_spec c : URL_PARSER_QUERY_END c = among (lit "#") c.
Proof. unfold URL_PARSER_QUERY_END, Char1. by_members. Qed.
Lemma authority_end_spec c : URL_PARSER_AUTORITY_END c = among (lit "/?#") c.
Proof. unfold URL_PARSER_AUTORITY_END, Char3. by_members. Qed.
Lemma among_chr d c : among [d] c = (c =? d).
Proof. unfold among. cbn. rewrite Z.eqb_sym. now destruct (c =? d). Qed.

Lemma scheme_end_spec c : table_owned URL_PARSER_SCHEME_END c = among (lit ":/?#") c.
Proof.
  destruct (Z.ltb_spec c 256) as [H|H]; [destruct (Z.leb_spec 0 c) as [H'|H']|].
  - assert (is_byte c) as B by (split; easy). clear H H'. apply eqb_true_iff. by_bytes c B.
  - unfold table_owned. replace (Z.to_nat c) with O by lia. symmetry. apply not_true_iff_false.
    rewrite among_iff. cbn. chr_simpl. lia.
  - unfold table_owned. rewrite nth_overflow by (change (length URL_PARSER_SCHEME_END) with 256%nat; lia).
    symmetry. apply not_true_iff_false. rewrite among_iff. cbn. chr_simpl. lia.
Qed.

(** Cutting at the end of a part. *)
Lemma url_cut_at p a r : Forall (fun c => p c = false) a -> match r with [] => True | c :: _ => p c = true end ->
  find_owned p (a ++ r) = length a /\ firstn (length a) (a ++ r) = a /\ skipn (length a) (a ++ r) = r /\
  (length a =? length (a ++ r))%nat = empty r.
Proof.
  intros A R. rewrite find_owned_app, firstn_app, skipn_app, Nat.sub_diag, firstn_all, skipn_all, length_app by easy.
  destruct r as [|c r]; cbn [find_owned firstn skipn empty app length]; rewrite ?R, ?app_nil_r;
    repeat split; try lia; [apply Nat.eqb_eq|apply Nat.eqb_neq]; lia.
Qed.

Lemma split_fragment_ok s a p q f :
  split_fragment (parts5 s a p q no_part) (chr "#" :: f) = Ret (parts5 s a p q (part true f)).
Proof. reflexivity. Qed.

Lemma tail_text_starts q f : match tail_text q f with [] => True | c :: _ => URL_PARSER_PATH_END c = true end.
Proof. now destruct q, f. Qed.

Lemma split_query_ok s a p q f : clear_opt (lit "#") q -> tail_text q f <> [] ->
  split_query (parts5 s a p no_part no_part) (tail_text q f) = Ret (parts5 s a p (opt_part q) (opt_part f)).
Proof.
  intros C N. unfold split_query, tail_text in *. destruct q as [q|].
  - cbn [after app rd nth_error bind]. change (chr "?" =? chr "?") with true. cbn [skipn].
    destruct (url_cut_at URL_PARSER_QUERY_END q (after (chr "#") f)) as (E & F & S & L).
    { eapply clear_category; [apply query_end_spec|exact C]. }
    { now destruct f. }
    rewrite E, F, S, L. now destruct f.
  - now destruct f.
Qed.

Lemma split_path_ok s a path q f : clear_of (lit "?#") path -> clear_opt (lit "#") q ->
  split_path (parts5 s a no_part no_part no_part) (path ++ tail_text q f)
  = Ret (parts5 s a (part true path) (opt_part q) (opt_part f)).
Proof.
  intros P C. unfold split_path.
  destruct (url_cut_at URL_PARSER_PATH_END path (tail_text q f)) as (E & F & S & L).
  { eapply clear_category; [apply path_end_spec|exact P]. }
  { apply tail_text_starts. }
  rewrite E, F, S, L. destruct (tail_text q f) eqn:T.
  - now destruct q, f.
  - cbn [empty]. rewrite <- T. change (set_path _ _) with (parts5 s a (part true path) no_part no_part).
    apply split_query_ok; [easy|congruence].
Qed.

(** After the scheme. *)
Lemma split_hier_ok s au path q f : clear_of (lit "?#") path -> clear_opt (lit "#") q ->
  match au with
  | Some a => clear_of (lit "/?#") (auth_text a) /\ (path = [] \/ exists r, path = chr "/" :: r)
  | None => forall r, path <> lit "//" ++ r
  end ->
  split_hier (parts5 s [] no_part no_part no_part) (hier_text au ++ path ++ tail_text q f)
  = Ret (parts5 s (match au with Some a => auth_text a | None => [] end)
           (part (match au with Some _ => negb (empty (path ++ tail_text q f)) | None => negb (empty path) end) path)
           (opt_part q) (opt_part f)).
Proof.
  intros P C H. destruct au as [a|]; cbn [hier_text app].
  - destruct H as [A S]. cbn [lit app split_hier]. change (_ && _) with true. cbn iota.
    change (_ && _) with true. cbn iota.
    destruct (url_cut_at URL_PARSER_AUTORITY_END (auth_text a) (path ++ tail_text q f)) as (E & F & K & L).
    { eapply clear_category; [apply authority_end_spec|exact A]. }
    { destruct S as [-> |[r ->]]; [cbn [app]|reflexivity]. now destruct q, f. }
    rewrite E, F, K, L. change (set_authority _ _) with (parts5 s (auth_text a) no_part no_part no_part).
    destruct (path ++ tail_text q f) as [|c r] eqn:T; cbn [empty negb].
    + apply app_eq_nil in T as [-> T]. rewrite app_nil_r. destruct q, f; try discriminate. clear. destruct (auth_text a); reflexivity.
    + pose proof (split_path_ok s (auth_text a) path q f P C) as X. rewrite T in X. rewrite X.
      clear. destruct (auth_text a); reflexivity.
  - destruct path as [|c path]; cbn [app].
    + destruct (tail_text q f) as [|c r] eqn:T; [now destruct q, f|].
      pose proof (tail_text_starts q f) as St. rewrite T in St. cbn [split_hier].
      change (URL_PARSER_PATH_END c) with ((c =? chr "?") || (c =? chr "#")) in St.
      rewrite <- negb_orb, St. cbn [negb]. rewrite <- T. apply split_query_ok; [easy|congruence].
    + cbn [split_hier]. inversion P as [|? ? Pc _]; subst. rewrite <- path_end_spec in Pc.
      change (URL_PARSER_PATH_END c) with ((c =? chr "?") || (c =? chr "#")) in Pc.
      rewrite <- negb_orb, Pc. cbn [negb empty].
      rewrite <- (split_path_ok s [] (c :: path) q f P C). cbn [app].
      destruct (path ++ tail_text q f) as [|c1 r] eqn:T; [easy|].
      destruct (Z.eqb_spec c (chr "/")) as [->|]; [|easy]. destruct (Z.eqb_spec c1 (chr "/")) as [->|]; [|easy].
      exfalso. destruct path as [|d path]; cbn [app] in T.
      * pose proof (tail_text_starts q f) as St. now rewrite T in St.
      * injection T as -> _. now apply (H path).
Qed.

Lemma rd_app {A} (a : list A) c r : rd (a ++ c :: r) (length a) = Ret c.
Proof. apply rd_mid. Qed.

Lemma scheme_end_starts u : u_scheme u = None -> wf_uri u ->
  forall c r, skipn (find_owned (table_owned URL_PARSER_SCHEME_END) (recompose u)) (recompose u) = c :: r ->
  c <> chr ":".
Proof.
  intros N (_ & P & _ & H). unfold recompose. rewrite N. cbn [before app]. intros c r.
  destruct (u_authority u) as [a|]; cbn [hier_text app].
  { cbn. now intros [= <- _]. }
  destruct H as [_ H]. specialize (H N). set (tail := tail_text _ _).
  set (pre := firstn (find_owned (Char1 (chr "/")) (u_path u)) (u_path u)) in *.
  assert (Forall (fun c => table_owned URL_PARSER_SCHEME_END c = false) pre) as Fp.
  { apply Forall_forall. intros d I. rewrite scheme_end_spec. apply not_true_iff_false. rewrite among_iff.
    pose proof (find_owned_prefix (Char1 (chr "/")) (u_path u)) as Sl. fold pre in Sl.
    assert (In d (u_path u)) as I' by (rewrite <- (firstn_skipn (find_owned (Char1 (chr "/")) (u_path u)) (u_path u)); apply in_or_app; now left).
    unfold clear_of in *. rewrite Forall_forall in P, H, Sl. specialize (P d I'). specialize (H d I). specialize (Sl d I).
    unfold Char1 in Sl. apply not_true_iff_false in P, H. rewrite among_iff in P, H. cbn in *. chr_simpl. bools. lia. }
  rewrite <- (firstn_skipn (find_owned (Char1 (chr "/")) (u_path u)) (u_path u)) at 1 2. fold pre.
  rewrite <- app_assoc, find_owned_app by easy. rewrite skipn_app, skipn_all2 by lia. cbn [app].
  replace (length pre + _ - length pre)%nat with (find_owned (table_owned URL_PARSER_SCHEME_END)
    (skipn (find_owned (Char1 (chr "/")) (u_path u)) (u_path u) ++ tail)) by lia.
  destruct (skipn (find_owned (Char1 (chr "/")) (u_path u)) (u_path u)) as [|d rest] eqn:E.
  - cbn [app]. unfold tail. destruct (u_query u), (u_fragment u); cbn; try easy; now intros [= <- _].
  - apply find_owned_stop in E. unfold Char1 in E. bools. subst. cbn. now intros [= <- _].
Qed.

Lemma split_scheme_ok u s : u_scheme u = Some s -> wf_uri u ->
  split_components (recompose u) = Ret (component_parts u).
Proof.
  intros Es (Sc & P & Q & A). rewrite Es in Sc. unfold split_components.
  set (rest := hier_text (u_authority u) ++ u_path u ++ tail_text (u_query u) (u_fragment u)).
  assert (recompose u = s ++ chr ":" :: rest) as ->.
  { unfold recompose. rewrite Es. cbn [before]. now rewrite <- app_assoc. }
  destruct (url_cut_at (table_owned URL_PARSER_SCHEME_END) s (chr ":" :: rest)) as (E & F & K & L).
  { eapply clear_category; [apply scheme_end_spec|exact Sc]. }
  { reflexivity. }
  rewrite E, L, F, rd_app. cbn [empty bind]. change (chr ":" =? chr ":") with true. cbn iota.
  rewrite Nat.add_comm, <- skipn_skipn, K. cbn [skipn].
  change (set_scheme _ _) with (parts5 (part true s) [] no_part no_part no_part).
  unfold rest. rewrite split_hier_ok; auto.
  - unfold component_parts, path_found. rewrite Es. cbn [before opt_part].
    destruct (u_authority u); [easy|]. replace (empty (s ++ [chr ":"])) with false by now destruct s.
    now rewrite orb_false_r.
  - destruct (u_authority u); [|apply A]. split; apply A.
Qed.

Lemma split_components_ok u : wf_uri u -> split_components (recompose u) = Ret (component_parts u).
Proof.
  intros W. destruct (u_scheme u) as [s|] eqn:Es; [now apply (split_scheme_ok u s)|].
  pose proof W as (_ & P & Q & A). pose proof (scheme_end_starts u Es W) as Fst.
  pose proof (find_owned_le (table_owned URL_PARSER_SCHEME_END) (recompose u)) as Le.
  pose proof (find_owned_prefix (table_owned URL_PARSER_SCHEME_END) (recompose u)) as Pre.
  pose proof (length_skipn (find_owned (table_owned URL_PARSER_SCHEME_END) (recompose u)) (recompose u)) as Ls.
  unfold split_components.
  assert (split_hier UrlParts_clear (recompose u)
    = Ret (parts5 no_part (match u_authority u with Some a => auth_text a | None => [] end)
        (part (match u_authority u with
               | Some _ => negb (empty (u_path u ++ tail_text (u_query u) (u_fragment u)))
               | None => negb (empty (u_path u)) end) (u_path u))
        (opt_part (u_query u)) (opt_part (u_fragment u)))) as H.
  { unfold recompose. rewrite Es. cbn [before app].
    change UrlParts_clear with (parts5 no_part [] no_part no_part no_part). apply split_hier_ok; auto.
    destruct (u_authority u); [split; apply A|apply A]. }
  destruct (Nat.eqb_spec (find_owned (table_owned URL_PARSER_SCHEME_END) (recompose u)) (length (recompose u))) as [E|E].
  - rewrite E, firstn_all in Pre. clear H. unfold component_parts, path_found, recompose in *. rewrite Es in *. cbn [before app] in *.
    destruct (u_authority u) as [a|]; [now inversion Pre|]. cbn [hier_text app] in *.
    apply Forall_app in Pre as [_ Pre]. destruct (u_query u), (u_fragment u); cbn in Pre; try now inversion Pre.
    cbn. now rewrite app_nil_r, orb_true_r.
  - destruct (skipn _ (recompose u)) as [|c r] eqn:Sk; [cbn in Ls; lia|]. specialize (Fst c r eq_refl).
    assert (rd (recompose u) (find_owned (table_owned URL_PARSER_SCHEME_END) (recompose u)) = Ret c) as ->.
    { revert Sk Le. generalize (find_owned (table_owned URL_PARSER_SCHEME_END) (recompose u)) as n. intros n Sk Le.
      rewrite <- (firstn_skipn n (recompose u)), Sk. pose proof (rd_app (firstn n (recompose u)) c r) as X.
      now rewrite length_firstn, Nat.min_l in X by easy. }
    cbn [bind]. destruct (Z.eqb_spec c (chr ":")); [easy|]. rewrite H.
    unfold component_parts, path_found. rewrite Es. cbn [before empty andb opt_part].
    destruct (u_authority u) as [a|] eqn:Ea; [easy|].
    destruct (empty (tail_text (u_query u) (u_fragment u))) eqn:T; [|now rewrite orb_false_r].
    destruct (u_path u) as [|c0 p0] eqn:Ep; [|easy]. exfalso. apply E. unfold recompose. rewrite Es, Ea, Ep.
    now destruct (u_query u), (u_fragment u).
Qed.

(** The authority. *)
Lemma clear_chr d s : clear_of [d] s <-> Forall (fun c => (c =? d) = false) s.
Proof. unfold clear_of. split; apply Forall_impl; intros c; now rewrite among_chr. Qed.

Definition user_size (a : Auth) : Z := size (before (a_user a) (chr "@")).

Lemma at_pos_ok a : wf_auth a -> size (auth_text a) < NPOS ->
  find_ch (auth_text a) USERINFO_SEPARATOR 0 = match a_user a with Some u => size u | None => NPOS end.
Proof.
  intros (_ & U & _ & N & _) S. rewrite find_ch_owned. unfold auth_text in *. destruct (a_user a) as [u|]; cbn [before] in *.
  - rewrite <- app_assoc. cbn [app]. apply clear_chr in U.
    destruct (url_cut_at (fun c => c =? USERINFO_SEPARATOR) u (chr "@" :: a_host a ++ after (chr ":") (a_port a)) U eq_refl)
      as (E & _ & _ & L). now rewrite E, L.
  - specialize (N eq_refl). apply clear_chr in N. rewrite find_owned_none by exact N. now rewrite Nat.eqb_refl.
Qed.

Lemma host_end_ok a : wf_auth a -> size (auth_text a) < NPOS ->
  (let host_end := rfind_ch (auth_text a) PORT_SEPARATOR NPOS in
   if negb (host_end =? NPOS) && negb (user_size a =? 0) && (host_end <? user_size a) then NPOS else host_end)
  = match a_port a with Some _ => user_size a + size (a_host a) | None => NPOS end.
Proof.
  intros (_ & U & P & N & H) S. cbv zeta. unfold auth_text, user_size in *. set (b := before (a_user a) (chr "@")) in *.
  destruct (a_port a) as [x|]; cbn [after] in *.
  - apply clear_chr in P. rewrite app_assoc in S |- *. rewrite rfind_ch_hit by easy. rewrite length_app.
    destruct (Z.ltb_spec (Z.of_nat (length b + length (a_host a))) (size b)); [lia|]. rewrite andb_false_r. lia.
  - rewrite app_nil_r in *. specialize (H eq_refl). apply clear_chr in H.
    destruct (rfind_ch_before b (a_host a) PORT_SEPARATOR S H) as [R|R]; [now rewrite R, Z.eqb_refl|].
    assert (size b <= size (b ++ a_host a)) by (rewrite length_app; lia).
    destruct (Z.eqb_spec (rfind_ch (b ++ a_host a) PORT_SEPARATOR NPOS) NPOS); [lia|].
    destruct (Z.eqb_spec (size b) 0); [lia|].
    now destruct (Z.ltb_spec (rfind_ch (b ++ a_host a) PORT_SEPARATOR NPOS) (size b)); [|lia].
Qed.

Lemma substr_mid a b c : size (a ++ b ++ c) < NPOS ->
  substr false (a ++ b ++ c) (size a) (size b) = Ret b.
Proof.
  intros S. rewrite substr_spec by lia. destruct (Z.ltb_spec (size (a ++ b ++ c)) (size a)) as [L|L]; [rewrite length_app in L; lia|].
  rewrite !Nat2Z.id, skipn_app, skipn_all, Nat.sub_diag. cbn [app skipn]. now rewrite firstn_app, firstn_all, Nat.sub_diag, app_nil_r.
Qed.

(** What the texts of the authority are, as windows on it. *)
Lemma user_window a u : a_user a = Some u -> size (auth_text a) < NPOS ->
  substr false (auth_text a) 0 (size u) = Ret u.
Proof.
  unfold auth_text. intros -> S. cbn [before] in *. rewrite <- app_assoc in *. exact (substr_mid [] u _ S).
Qed.

Lemma host_window a : size (auth_text a) < NPOS ->
  substr false (auth_text a) (user_size a) (size (a_host a)) = Ret (a_host a).
Proof. unfold auth_text, user_size. apply substr_mid. Qed.

Lemma port_window a x n : a_port a = Some x -> size (auth_text a) < NPOS -> size x <= n ->
  substr false (auth_text a) (user_size a + size (a_host a) + 1) n = Ret x.
Proof.
  unfold auth_text, user_size. intros -> S L. cbn [after] in *. set (b := before (a_user a) (chr "@")) in *.
  replace (b ++ a_host a ++ chr ":" :: x) with ((b ++ a_host a ++ [chr ":"]) ++ x) in * by (now rewrite <- !app_assoc).
  assert (size b + size (a_host a) + 1 = size (b ++ a_host a ++ [chr ":"])) as -> by (rewrite !length_app; cbn [length]; lia).
  rewrite substr_spec by lia. destruct (Z.ltb_spec (size ((b ++ a_host a ++ [chr ":"]) ++ x)) (size (b ++ a_host a ++ [chr ":"])))
    as [C|C]; [rewrite (length_app _ x) in C; lia|].
  rewrite Nat2Z.id, skipn_app, skipn_all, Nat.sub_diag. cbn [app skipn]. now rewrite firstn_all2 by lia.
Qed.

Lemma auth_size a :
  size (auth_text a) = user_size a + size (a_host a) + match a_port a with Some x => 1 + size x | None => 0 end.
Proof. unfold auth_text, user_size. rewrite !length_app. destruct (a_port a); cbn [after length]; lia. Qed.

Lemma split_authority_ok a s p q f : wf_auth a -> size (auth_text a) < NPOS ->
  split_authority (parts5 s (auth_text a) p q f)
  = Ret (if empty (auth_text a) then parts5 s (auth_text a) p q f
         else set_host (set_port (set_userinfo (parts5 s (auth_text a) p q f) (filled (a_user a))) (filled (a_port a)))
                (part true (a_host a))).
Proof.
  intros W S. pose proof (auth_size a) as As. pose proof (host_window a S) as Hw. pose proof (host_end_ok a W S) as He. cbv zeta in He.
  unfold split_authority. cbn [authority parts5]. destruct (empty (auth_text a)) eqn:Em; [easy|].
  rewrite at_pos_ok by easy. set (pos := match a_user a with Some u => size u | None => NPOS end).
  assert ((if pos =? NPOS then 0 else pos + 1) = user_size a) as ->.
  { unfold pos, user_size in *. destruct (a_user a) as [u|]; [|easy]. cbn [before] in *. rewrite length_app in *. cbn [length] in *.
    rewrite As in S. destruct (Z.eqb_spec (size u) NPOS); destruct (a_port a); lia. }
  rewrite He.
  assert ((if negb (pos =? NPOS) && negb (pos =? 0)
           then userinfo <- substr false (auth_text a) 0 pos ;; Ret (set_userinfo (parts5 s (auth_text a) p q f) (part true userinfo))
           else Ret (parts5 s (auth_text a) p q f)) = Ret (set_userinfo (parts5 s (auth_text a) p q f) (filled (a_user a)))) as ->.
  { unfold pos. destruct (a_user a) as [[|c u]|] eqn:Eu; [easy| |easy]. rewrite (user_window a (c :: u)) by easy.
    unfold user_size in As. rewrite Eu in As. cbn [before] in As. rewrite length_app in As. cbn [length] in *.
    rewrite As in S. destruct (Z.eqb_spec (Z.of_nat (Datatypes.S (length u))) NPOS); [destruct (a_port a); lia|].
    now destruct (Z.eqb_spec (Z.of_nat (Datatypes.S (length u))) 0); [lia|]. }
  cbn [bind]. destruct (a_port a) as [x|] eqn:Ep.
  - assert ((user_size a + size (a_host a) =? NPOS) = false) as -> by lia. cbn [negb andb].
    assert (forall h, (if negb (user_size a + size (a_host a) =? size (auth_text a) - 1)
      then port <- substr false (auth_text a) (user_size a + size (a_host a) + 1) (size (auth_text a) - (user_size a + size (a_host a))) ;;
           Ret (set_port h (part true port)) else Ret h) = Ret (match x with [] => h | _ => set_port h (part true x) end)) as Pt.
    { intros h. destruct (Z.eqb_spec (user_size a + size (a_host a)) (size (auth_text a) - 1)) as [E|E]; cbn [negb].
      - destruct x; [easy|cbn [length] in *; lia].
      - rewrite (port_window a x) by (easy || lia). destruct x; [cbn [length] in *; lia|easy]. }
    rewrite Pt. cbn [bind].
    replace (user_size a + size (a_host a) - user_size a) with (size (a_host a)) by lia. rewrite Hw. now destruct x.
  - rewrite Z.eqb_refl. cbn [negb andb bind].
    replace (size (auth_text a) - user_size a) with (size (a_host a)) by lia. now rewrite Hw.
Qed.

Lemma split_url_ok u : wf_uri u -> size (recompose u) < NPOS -> split_url (recompose u) = Ret (uri_parts u).
Proof.
  intros W S. unfold split_url. rewrite split_components_ok by easy. cbn [bind]. unfold uri_parts, component_parts.
  destruct (u_authority u) as [a|] eqn:E.
  - rewrite split_authority_ok; [easy| |].
    + destruct W as (_ & _ & _ & A). rewrite E in A. apply A.
    + unfold recompose in S. rewrite E in S. cbn [hier_text] in S. rewrite !length_app in S. lia.
  - reflexivity.
Qed.

(** Every text is the recomposition of some components. *)
Lemma cut (str s : list Z) : exists a r, s = a ++ r /\ clear_of str a /\
  (r = [] \/ exists c r', r = c :: r' /\ In c str).
Proof.
  exists (firstn (find_owned (among str) s) s), (skipn (find_owned (among str) s) s).
  split; [now rewrite firstn_skipn|]. split; [apply find_owned_prefix|].
  destruct (skipn _ s) as [|c r] eqn:E; [now left|]. right. exists c, r. split; [easy|].
  apply among_iff. eapply find_owned_stop, E.
Qed.

Lemma cut_last d s : clear_of [d] s \/ exists a b, s = a ++ d :: b /\ clear_of [d] b.
Proof.
  induction s as [|c s [IH|(a & b & -> & B)]]; [left; constructor| |right; now exists (c :: a), b].
  destruct (Z.eqb_spec c d) as [->|N]; [right; now exists [], s|].
  left. constructor; [|easy]. rewrite among_chr. now apply Z.eqb_neq.
Qed.

Lemma tail_exists t : t = [] \/ (exists c r, t = c :: r /\ In c (lit "?#")) ->
  exists q f, tail_text q f = t /\ clear_opt (lit "#") q.
Proof.
  intros [->|(c & r & -> & I)]; [now exists None, None|].
  cbn in I. destruct I as [<-|[<-|[]]]; [|now exists None, (Some r)].
  destruct (cut (lit "#") r) as (q & r' & -> & Q & [->|(c & f & -> & I)]); [exists (Some q), None; unfold tail_text; now rewrite !app_nil_r|].
  cbn in I. destruct I as [<-|[]]. now exists (Some q), (Some f).
Qed.

Lemma auth_exists t : clear_of (lit "/?#") t -> exists a, auth_text a = t /\ wf_auth a.
Proof.
  intros C. destruct (cut (lit "@") t) as (u & r & E & U & R).
  assert (exists user rest, t = before user (chr "@") ++ rest /\ clear_opt (lit "@") user /\
    (user = None -> clear_of (lit "@") t)) as (user & rest & Et & Cu & N).
  { destruct R as [->|(c & r' & -> & I)].
    - exists None, t. rewrite app_nil_r in E. subst. easy.
    - cbn in I. destruct I as [<-|[]]. exists (Some u), r'. cbn [before]. rewrite <- app_assoc. easy. }
  destruct (cut_last (chr ":") rest) as [L|(h & x & -> & X)];
    [change [chr ":"] with (lit ":") in L|change [chr ":"] with (lit ":") in X].
  - exists {| a_user := user; a_host := rest; a_port := None |}.
    assert (auth_text {| a_user := user; a_host := rest; a_port := None |} = t) as A
      by (unfold auth_text; cbn; now rewrite app_nil_r).
    split; [easy|]. unfold wf_auth. rewrite A. repeat split; cbn [a_user a_host a_port]; auto; easy.
  - exists {| a_user := user; a_host := h; a_port := Some x |}.
    assert (auth_text {| a_user := user; a_host := h; a_port := Some x |} = t) as A by easy.
    split; [easy|]. unfold wf_auth. rewrite A. repeat split; cbn [a_user a_host a_port]; auto; easy.
Qed.

Lemma clear_app str a b : clear_of str (a ++ b) <-> clear_of str a /\ clear_of str b.
Proof. apply Forall_app. Qed.

(** After the scheme: [a] is what comes before the first delimiter. *)
Lemma hier_exists t : exists au path q f,
  t = hier_text au ++ path ++ tail_text q f /\ clear_of (lit "?#") path /\ clear_opt (lit "#") q /\
  match au with
  | Some a => wf_auth a /\ (path = [] \/ exists r, path = chr "/" :: r)
  | None => forall r, path <> lit "//" ++ r
  end.
Proof.
  assert ((exists r, t = lit "//" ++ r) \/ (forall r, t <> lit "//" ++ r)) as [[r ->]|N].
  { destruct t as [|c [|d t]]; [now right..|]. destruct (Z.eqb_spec c (chr "/")) as [->|]; [|right; now intros r [=]].
    destruct (Z.eqb_spec d (chr "/")) as [->|]; [left; now exists t|right; now intros r [=]]. }
  - destruct (cut (lit "/?#") r) as (at_ & r1 & -> & A & R). destruct (auth_exists at_ A) as (a & <- & W).
    destruct (cut (lit "?#") r1) as (path & t & -> & P & T). destruct (tail_exists t T) as (q & f & <- & Q).
    exists (Some a), path, q, f. cbn [hier_text]. rewrite <- app_assoc. repeat split; try easy; try apply W.
    destruct path as [|c path]; [now left|right]. destruct R as [R|(d & r' & R & I)]; [easy|].
    cbn [app] in R. injection R as -> _. inversion P as [|? ? H _]; subst. apply not_true_iff_false in H.
    rewrite among_iff in H. cbn in H, I. destruct I as [<-|I]; [now exists path|]. now elim H.
  - destruct (cut (lit "?#") t) as (path & t' & -> & P & T). destruct (tail_exists t' T) as (q & f & <- & Q).
    exists None, path, q, f. repeat split; try easy. intros r ->. rewrite <- app_assoc in N. now apply (N (r ++ tail_text q f)).
Qed.

(** Without a scheme the first segment of the path has no colon. *)
Lemma first_segment s r path tail : clear_of (lit ":/?#") s -> (forall r', r <> chr ":" :: r') ->
  (r = [] \/ exists c r', r = c :: r' /\ In c (lit ":/?#")) -> s ++ r = path ++ tail ->
  clear_of (lit "?#") path -> clear_of (lit ":") (firstn (find_owned (Char1 (chr "/")) path) path).
Proof.
  intros S N R E P. revert path E P. induction S as [|c s Hc S IH]; intros path E P.
  - destruct path as [|d path]; [constructor|]. cbn [app] in E. destruct R as [->|(c & r' & -> & I)]; [easy|].
    injection E as -> _. inversion P as [|? ? Hd _]; subst. apply not_true_iff_false in Hd. rewrite among_iff in Hd.
    assert (d <> chr ":") by (intros ->; now apply (N r')).
    cbn [find_owned]. unfold Char1. replace (d =? chr "/") with true; [constructor|]. symmetry. apply Z.eqb_eq.
    cbn in I, Hd. chr_simpl. lia.
  - destruct path as [|d path]; [constructor|]. cbn [app] in E. injection E as -> E. inversion P; subst.
    cbn [find_owned]. destruct (Char1 (chr "/") d); [constructor|]. cbn [firstn]. constructor; [|now apply IH].
    apply not_true_iff_false in Hc. apply not_true_iff_false. rewrite among_iff in *. cbn in *. tauto.
Qed.

Lemma uri_exists url : exists u, wf_uri u /\ recompose u = url.
Proof.
  destruct (cut (lit ":/?#") url) as (s & r & -> & S & R).
  assert ((exists r', r = chr ":" :: r') \/ (forall r', r <> chr ":" :: r')) as [[r' ->]|N].
  { destruct r as [|c r]; [now right|]. destruct (Z.eqb_spec c (chr ":")) as [->|]; [left; now exists r|right; now intros r' [=]]. }
  - destruct (hier_exists r') as (au & path & q & f & -> & P & Q & A).
    exists {| u_scheme := Some s; u_authority := au; u_path := path; u_query := q; u_fragment := f |}.
    split; [|unfold recompose; cbn [u_scheme u_authority u_path u_query u_fragment before]; now rewrite <- app_assoc].
    split; [easy|]. split; [easy|]. split; [easy|]. now destruct au.
  - destruct (hier_exists (s ++ r)) as (au & path & q & f & E & P & Q & A).
    exists {| u_scheme := None; u_authority := au; u_path := path; u_query := q; u_fragment := f |}.
    split; [|easy]. split; [easy|]. split; [easy|]. split; [easy|]. cbn [u_scheme u_authority u_path].
    destruct au as [a|]; [easy|]. split; [easy|]. intros _. exact (first_segment s r path _ S N R E P).
Qed.

(** ** What the checker accepts *)

Definition owned_all (category : CharTable) (s : list Z) : Prop := Forall (fun c => table_owned category c = true) s.

Definition valid_label (l : list Z) : Prop :=
  size l <= MAX_HOSTNAME_LABEL_SIZE /\
  ((exists c, l = [c] /\ table_owned LABEL_FIRST_LAST c = true) \/
   (exists c m d, l = c :: m ++ [d] /\ table_owned LABEL_FIRST_LAST c = true /\
      table_owned LABEL_FIRST_LAST d = true /\ owned_all LABEL_MIDDLE m)).

(** Labels between dots; one more dot may end the host, and the splitter does
    not see an empty label before it. *)
Definition valid_host (h : list Z) : Prop :=
  size h <= MAX_HOSTNAME_SIZE /\ owned_all HOST h /\
  exists labels h', pieces (Char1 LABEL_SEPARATOR) labels h' /\ Forall valid_label labels /\
    (h = h' ++ [LABEL_SEPARATOR] \/ (h = h' /\ forall r, h <> r ++ [LABEL_SEPARATOR])).

Definition valid_scheme (p : Part) : Prop :=
  (text p = [] /\ has p = false) \/
  (exists c r, text p = c :: r /\ table_owned SCHEME_FIRST c = true /\ owned_all SCHEME_NOT_FIRST r).

Definition valid_path (with_host : bool) (s : list Z) : Prop :=
  encoded (table_owned PATH) s /\
  (with_host = true -> s = [] \/ exists r, s = PATH_SEPARATOR :: r) /\
  (with_host = false -> forall r, s <> PATH_SEPARATOR :: PATH_SEPARATOR :: r).

Definition valid_parts (p : UrlParts) : Prop :=
  valid_scheme (scheme p) /\
  encoded (table_owned USER_INFO) (text (userinfo p)) /\
  (text (host p) = [] -> text (userinfo p) = [] /\ text (port p) = []) /\
  (text (host p) <> [] -> valid_host (text (host p))) /\
  owned_all PORT (text (port p)) /\
  valid_path (negb (empty (text (host p)))) (text (path p)) /\
  encoded (table_owned QUERY) (text (query p)) /\
  encoded (table_owned FRAGMENT) (text (fragment p)).

Lemma empty_iff s : empty s = true <-> s = [].
Proof. now destruct s. Qed.

Lemma is_valid_chars_iff s category : is_valid_chars s category = true <-> owned_all category s.
Proof.
  unfold is_valid_chars, owned_all. rewrite Nat.eqb_eq. split.
  - intros E. pose proof (find_nonowned_prefix (table_owned category) s) as F. now rewrite E, firstn_all in F.
  - intros F. rewrite find_nonowned_owned. apply find_owned_none. eapply Forall_impl; [|exact F].
    cbn. intros c ->. easy.
Qed.

Lemma encoded_or_empty_iff s category : table_owned category 37 = false ->
  encoded_or_empty s category = true <-> encoded (table_owned category) s.
Proof.
  intros P. unfold encoded_or_empty. rewrite orb_true_iff, encoded_iff by easy. rewrite empty_iff.
  split; [intros [->|]; [constructor|easy]|auto].
Qed.

Lemma check_scheme_iff p : check_scheme p = true <-> valid_scheme p.
Proof.
  unfold check_scheme, valid_scheme. destruct p as [h [|c r]]; cbn [text has empty nth skipn].
  - rewrite negb_true_iff. split; [now left|]. now intros [[_ E]|(c & r & [=] & _)].
  - rewrite andb_true_iff, is_valid_chars_iff. split; [intros [H1 H2]; right; eauto|].
    intros [[[=] _]|(c' & r' & [= <- <-] & H1 & H2)]. easy.
Qed.

Lemma label_iff l : label_ok l && label_chars l = true <-> valid_label l.
Proof.
  unfold label_ok, label_chars, valid_label. destruct l as [|c l]; [split; [easy|]|].
  { intros (_ & [(c & [=] & _)|(c & m & d & [=] & _)]). }
  destruct l as [|d l] using rev_ind; [|clear IHl].
  - cbn [length nth Nat.sub]. change (1 <? Z.of_nat 1) with false. change (2 <? Z.of_nat 1) with false. cbn [negb andb].
    rewrite !andb_true_r. split.
    + intros H. split; [easy|]. left. eauto.
    + intros (_ & [(c' & [= <-] & H)|(c' & m & d & [= -> E] & _)]); [easy|now destruct m].
  - set (s := c :: l ++ [d]). assert (length s = S (S (length l))) as Ls
      by (unfold s; cbn [length]; rewrite length_app; cbn; lia).
    rewrite Ls. assert (nth (S (S (length l)) - 1) s 0 = d) as ->.
    { replace (S (S (length l)) - 1)%nat with (S (length l)) by lia. unfold s. cbn [nth].
      now rewrite app_nth2, Nat.sub_diag by lia. }
    assert (firstn (S (S (length l)) - 2) (skipn 1 s) = l) as ->.
    { replace (S (S (length l)) - 2)%nat with (length l) by lia. unfold s. cbn [skipn].
      now rewrite firstn_app, firstn_all, Nat.sub_diag, app_nil_r. }
    change (nth 0 s 0) with c. destruct (Z.ltb_spec 1 (Z.of_nat (S (S (length l))))); [|lia].
    assert ((2 <? Z.of_nat (S (S (length l)))) = negb (empty l)) as ->
      by (destruct l; [reflexivity|apply Z.ltb_lt; cbn [length]; lia]).
    rewrite !andb_true_iff, !negb_true_iff. cbn [andb]. rewrite negb_false_iff, Z.leb_le, Z.leb_le.
    assert (negb (empty l) && negb (is_valid_chars l LABEL_MIDDLE) = false <-> owned_all LABEL_MIDDLE l) as ->.
    { rewrite <- is_valid_chars_iff. destruct l; [easy|]. cbn [empty negb andb]. now rewrite negb_false_iff. }
    split.
    + intros ((_ & H1) & (H2 & H3) & H4). split; [easy|]. right. exists c, l, d. easy.
    + intros (H1 & [(c' & E & _)|(c' & m & d' & E & H2 & H3 & H4)]).
      * apply (f_equal (@length Z)) in E. rewrite Ls in E. easy.
      * injection E as <- E. apply app_inj_tail in E as [<- <-]. repeat split; auto. lia.
Qed.

Lemma check_labels_iff ls url : check_labels ls url = None <-> Forall valid_label ls.
Proof.
  induction ls as [|l ls IH]; cbn [check_labels]; [split; [constructor|easy]|].
  rewrite Forall_cons_iff, <- IH, <- label_iff. destruct (label_ok l); cbn [negb andb]; [|easy].
  destruct (label_chars l); cbn [negb]; [tauto|easy].
Qed.

Lemma last_dot h : h <> [] ->
  (nth (length h - 1) h 0 = LABEL_SEPARATOR /\ h = firstn (length h - 1) h ++ [LABEL_SEPARATOR]) \/
  (nth (length h - 1) h 0 <> LABEL_SEPARATOR /\ forall r, h <> r ++ [LABEL_SEPARATOR]).
Proof.
  intros N. destruct h as [|c h _] using rev_ind; [easy|]. rewrite length_app. cbn [length].
  replace (length h + 1 - 1)%nat with (length h) by lia. rewrite app_nth2, Nat.sub_diag by lia. cbn [nth].
  rewrite firstn_app, firstn_all, Nat.sub_diag, app_nil_r.
  destruct (Z.eq_dec c LABEL_SEPARATOR) as [->|E]; [now left|right]. split; [easy|].
  intros r C. now apply app_inj_tail in C as [_ ->].
Qed.

Lemma check_host_ok p url : exists r, check_host p url = Ret r /\
  (r = None <-> (text (host p) = [] -> text (userinfo p) = [] /\ text (port p) = []) /\
                (text (host p) <> [] -> valid_host (text (host p)))).
Proof.
  unfold check_host. set (h := text (host p)). destruct (empty h) eqn:E; cbn [negb].
  - apply empty_iff in E. rewrite E. rewrite <- negb_andb.
    destruct (empty (text (userinfo p)) && empty (text (port p))) eqn:E2; cbn [negb]; eexists; (split; [reflexivity|]).
    + apply andb_true_iff in E2. rewrite !empty_iff in E2. tauto.
    + split; [easy|]. intros [H _]. destruct (H eq_refl) as [H1 H2]. rewrite H1, H2 in E2. easy.
  - assert (h <> []) as N by now rewrite <- empty_iff, E.
    destruct ((MAX_HOSTNAME_SIZE <? size h) || negb (is_valid_chars h HOST)) eqn:C.
    { eexists. split; [reflexivity|]. split; [easy|]. intros [_ H]. destruct (H N) as (H1 & H2 & _). exfalso.
      apply is_valid_chars_iff in H2. rewrite H2, orb_false_r in C. apply Z.ltb_lt in C. lia. }
    apply orb_false_iff in C as [C1 C2]. apply Z.ltb_ge in C1. apply negb_false_iff, is_valid_chars_iff in C2.
    unfold host_labels, tokens. rewrite tokens_loop_split by easy. cbn [bind]. eexists. split; [reflexivity|].
    rewrite check_labels_iff. split.
    + intros H. split; [easy|]. intros _. split; [easy|]. split; [easy|].
      destruct (last_dot h N) as [[D Eh]|[D Eh]].
      * rewrite D, Z.eqb_refl in H. exists (split (Char1 LABEL_SEPARATOR) (firstn (length h - 1) h)), (firstn (length h - 1) h).
        repeat split; auto using split_pieces.
      * apply Z.eqb_neq in D. rewrite D in H. exists (split (Char1 LABEL_SEPARATOR) h), h.
        repeat split; auto using split_pieces.
    + intros [_ H]. destruct (H N) as (_ & _ & ls & h' & P & F & D). apply pieces_split in P. subst ls.
      destruct (last_dot h N) as [[D1 Eh]|[D1 Eh]]; destruct D as [D|[D2 D3]].
      * rewrite D1, Z.eqb_refl. rewrite D in Eh at 1. apply app_inj_tail in Eh as [<- _]. easy.
      * now apply D3 in Eh.
      * now apply Eh in D.
      * apply Z.eqb_neq in D1. now rewrite D1, D2.
Qed.

Lemma check_path_iff p : check_path p = true <-> valid_path (negb (empty (text (host p)))) (text (path p)).
Proof.
  unfold check_path, valid_path. rewrite orb_true_iff, empty_iff, andb_true_iff, encoded_iff by reflexivity.
  set (s := text (path p)). destruct (empty (text (host p))); cbn [negb]; rewrite negb_true_iff.
  - destruct s as [|c [|d s]]; cbn [nth length].
    + split; [intros _; repeat split; [constructor|easy..]|now left].
    + rewrite andb_false_r. split; [intros [[=]|[_ H]]; repeat split; easy|now right].
    + assert ((1 <? Z.of_nat (S (S (length s)))) = true) as -> by (apply Z.ltb_lt; lia). rewrite andb_true_r. split.
      * intros [[=]|[H1 H2]]. repeat split; try easy. intros _ r [= -> -> _]. now rewrite Z.eqb_refl in H1.
      * intros (H1 & _ & H2). right. split; [|easy]. apply andb_false_iff. rewrite !Z.eqb_neq.
        destruct (Z.eq_dec c PATH_SEPARATOR) as [->|]; [right; intros ->; now apply (H2 eq_refl s)|now left].
  - destruct s as [|c s]; cbn [nth].
    + split; [intros _; repeat split; [constructor|now left|easy]|now left].
    + rewrite negb_false_iff, Z.eqb_eq. split.
      * intros [[=]|[-> H]]. repeat split; [easy|right; eauto|easy].
      * intros (H1 & H2 & _). right. destruct (H2 eq_refl) as [[=]|[r [= -> _]]]. easy.
Qed.

Lemma valid_parts_iff p : valid_parts p <->
  check_scheme (scheme p) = true /\ encoded_or_empty (text (userinfo p)) USER_INFO = true /\
  (text (host p) = [] -> text (userinfo p) = [] /\ text (port p) = []) /\
  (text (host p) <> [] -> valid_host (text (host p))) /\
  empty (text (port p)) || is_valid_chars (text (port p)) PORT = true /\ check_path p = true /\
  encoded_or_empty (text (query p)) QUERY = true /\ encoded_or_empty (text (fragment p)) FRAGMENT = true.
Proof.
  unfold valid_parts. rewrite check_scheme_iff, check_path_iff, !encoded_or_empty_iff, orb_true_iff, empty_iff,
    is_valid_chars_iff by reflexivity.
  assert (owned_all PORT (text (port p)) <-> text (port p) = [] \/ owned_all PORT (text (port p))) as <-; [|tauto].
  split; [auto|intros [->|]; [constructor|easy]].
Qed.

Lemma url_checker_ok url p :
  exists error, URLPartsChecker url p = Ret error /\ (error = None <-> valid_parts p).
Proof.
  unfold URLPartsChecker. setoid_rewrite valid_parts_iff. destruct (check_host_ok p url) as (he & Eh & Hh).
  destruct (check_scheme (scheme p)); cbn [negb]; [|eexists; split; [reflexivity|]; split; easy].
  destruct (encoded_or_empty (text (userinfo p)) USER_INFO); cbn [negb]; [|eexists; split; [reflexivity|]; split; easy].
  rewrite Eh. cbn [bind]. destruct he as [e|].
  { eexists. split; [reflexivity|]. split; [easy|]. intros (_ & _ & H1 & H2 & _). now apply Hh. }
  destruct (proj1 Hh eq_refl) as [H1 H2].
  destruct (_ || _); cbn [negb]; [|eexists; split; [reflexivity|]; split; easy].
  destruct (check_path p); cbn [negb]; [|eexists; split; [reflexivity|]; split; easy].
  destruct (encoded_or_empty (text (query p)) QUERY); cbn [negb]; [|eexists; split; [reflexivity|]; split; easy].
  destruct (encoded_or_empty (text (fragment p)) FRAGMENT); cbn [negb]; eexists; (split; [reflexivity|]); split; easy.
Qed.

(** ** Properties *)

(** C21: [split_url] is the inverse of the recomposition of RFC 3986, section
    5.3: every text is the recomposition of some components free of each
    other's delimiters, and splitting it gives exactly these, its assertion
    held; the authority is divided at its first [@] and its last colon. *)
Theorem split_url_exact (url : list Z) (H : size url < NPOS) :
  (exists u, wf_uri u /\ recompose u = url) /\
  (forall u, wf_uri u -> recompose u = url -> split_url url = Ret (uri_parts u)).
Proof.
  split; [apply uri_exists|]. intros u W <-. now apply split_url_ok.
Qed.

Lemma split_url_exact_witness :
  size (lit "http://a@b/?c") < NPOS /\
  split_url (lit "http://a@b/?c") =
    Ret (uri_parts {| u_scheme := Some (lit "http");
      u_authority := Some {| a_user := Some (lit "a"); a_host := lit "b"; a_port := None |};
      u_path := lit "/"; u_query := Some (lit "c"); u_fragment := None |}).
Proof.
  split; [reflexivity|]. apply (split_url_exact (lit "http://a@b/?c")); [reflexivity| |reflexivity].
  do 3 (split; [repeat constructor|]). split; [|right; now exists []].
  repeat split; try discriminate; repeat constructor.
Defined.

(** C22: The checker of the parts of a URL accepts exactly the parts of the
    grammar: a scheme that begins with a letter, percent-encoded parts over
    their characters, a host of at most 255 characters in labels of at most 63,
    no userinfo or port without a host, a path that the host does not run into
    and that is not taken for an authority. *)
Theorem url_checker_exact (url : list Z) (p : UrlParts) :
  exists error, URLPartsChecker url p = Ret error /\ (error = None <-> valid_parts p).
Proof. apply url_checker_ok. Qed.

(** An empty label before a dot at the end is accepted, and so is the host
    that is one dot. *)
Example empty_label_accepted :
  URLChecker (lit "http://a../") = Ret true /\ URLChecker (lit "http://./") = Ret true /\
  URLChecker (lit "http://a..b/") = Ret false.
Proof. vm_compute. repeat split. Qed.

(** Fixing a part escapes what is not legal and nothing else: the part
    decodes to the same octets as before, it is left alone exactly when it was
    legal, and it becomes legal when it has no character that queries allow and
    the part does not. *)
Theorem http_fix_part_exact (part : list Z) (checker : CharTable)
  (B : is_bytes part) (P : table_owned checker 37 = false) :
  exists r, http_fix_part part checker = Ret r /\
    let fixed := match r with Some f => f | None => part end in
    unmime_all fixed = unmime_all part /\
    (r = None <-> is_valid_encoded part checker = true) /\
    ((forall c, In c part -> table_owned QUERY c = true -> table_owned checker c = true) ->
     is_valid_encoded fixed checker = true).
Proof.
  rewrite http_fix_part_eq by easy. eexists. split; [reflexivity|]. cbv zeta. rewrite is_valid_encoded_eq.
  set (k := enc_len (table_owned checker) part).
  pose proof (enc_len_le (table_owned checker) part) as Le. fold k in Le.
  pose proof (length_skipn k part) as Ls. pose proof (Forall_skipn is_byte k part B) as Bs.
  pose proof (enc_len_skipn (table_owned checker) part) as Sk. fold k in Sk.
  pose proof (enc_len_firstn (table_owned checker) part) as Fn. fold k in Fn.
  assert (forall s, unmime_all (firstn k part ++ s) = unmime_all (firstn k part) ++ unmime_all s) as U
    by (intros s; now apply (unmime_all_encoded (table_owned checker))).
  assert (part = firstn k part ++ skipn k part) as E by (symmetry; apply firstn_skipn).
  destruct (skipn k part) as [|c r].
  - cbn [length] in Ls. assert (k = length part) as Ek by lia. rewrite Ek, Nat.eqb_refl. repeat split.
    intros _. rewrite is_valid_encoded_eq, Nat.eqb_eq. exact Ek.
  - inversion Bs as [|? ? Bc Br]; subst. split; [|split].
    + rewrite U, unmime_all_pct, unmime_all_fix by easy. rewrite E at 2. rewrite U. f_equal.
      now rewrite (unmime_all_stop _ _ _ Sk).
    + split; [easy|]. intros Ek. apply Nat.eqb_eq in Ek. cbn [length] in Ls. lia.
    + intros W. apply encoded_iff; [easy|]. apply encoded_app; [easy|]. destruct (pct_hex c Bc).
      apply encoded_pct; auto. apply encoded_fix_text; [easy|]. intros d I. apply W. rewrite E. apply in_or_app. right. now right.
Qed.

Lemma http_fix_part_exact_witness :
  is_bytes (lit "/a b%zz%41") /\ http_fix_part (lit "/a b%zz%41") PATH = Ret (Some (lit "/a%20b%25zz%41")) /\
  is_valid_encoded (lit "/a%20b%25zz%41") PATH = true.
Proof.
  split; [apply lit_bytes|]. split; [reflexivity|].
  destruct (http_fix_part_exact (lit "/a b%zz%41") PATH (lit_bytes _) eq_refl) as (r & E & _ & _ & V).
  assert (r = Some (lit "/a%20b%25zz%41")) as -> by (vm_compute in E; now injection E).
  apply V. intros c I. apply (proj1 (forallb_forall (fun c => implb (table_owned QUERY c) (table_owned PATH c)) (lit "/a b%zz%41")) eq_refl) in I.
  destruct (table_owned QUERY c); [easy|discriminate].
Defined.

(** Only the first illegal character of a userinfo is judged by the characters
    of a userinfo: the next one that a query allows stays. *)
Example userinfo_not_fixed :
  http_fix_part (lit "<{") USER_INFO = Ret (Some (lit "%3C{")) /\
  is_valid_encoded (lit "%3C{") USER_INFO = false.
Proof. vm_compute. split; reflexivity. Qed.

(** [unmime] brings a legal path or query to a normal form without leaving
    its characters or failing its assertions: texts that decode to the same
    octets up to case have the same form, the form is legal, decodes to these
    octets in lower case and is its own form. *)
Theorem unmime_canonical (valid : CharTable) (s t : list Z)
  (V : valid = PATH \/ valid = QUERY) (Bs : is_bytes s) (Bt : is_bytes t)
  (Hs : is_valid_encoded s valid = true) (Ht : is_valid_encoded t valid = true) :
  exists r, unmime s valid = Ret r /\
    unmime_all r = map to_lower (unmime_all s) /\
    is_valid_encoded r valid = true /\ unmime r valid = Ret r /\
    (map to_lower (unmime_all s) = map to_lower (unmime_all t) -> unmime t valid = Ret r).
Proof.
  pose proof (case_blind_PATH_QUERY valid V) as C. pose proof C as [P _].
  apply encoded_iff in Hs, Ht; auto.
  destruct (flat_map_norm valid (unmime_all s) C (unmime_all_bytes s Bs)) as (E & B & D & L).
  destruct (flat_map_norm valid (unmime_all t) C (unmime_all_bytes t Bt)) as (_ & _ & _ & Lt).
  exists (flat_map (norm valid) (unmime_all s)). repeat split.
  - now apply unmime_norm.
  - easy.
  - now apply encoded_iff.
  - rewrite unmime_norm, D, L by easy. easy.
  - intros Eq. rewrite unmime_norm by easy. now rewrite <- L, Eq, Lt.
Qed.

Lemma unmime_canonical_witness :
  unmime (lit "/A%2fb%41") PATH = Ret (lit "/a/ba") /\ unmime (lit "/a/ba") PATH = Ret (lit "/a/ba").
Proof.
  destruct (unmime_canonical PATH (lit "/A%2fb%41") (lit "/a/ba") (or_introl eq_refl) (lit_bytes _) (lit_bytes _)
    eq_refl eq_refl) as (r & E & _ & _ & _ & K).
  assert (r = lit "/a/ba") as -> by (vm_compute in E; now injection E).
  split; [exact E|]. apply K. reflexivity.
Defined.
