(* ===== verification/HttpAddress.v ===== *)
(** * HttpAddress: src/src/HTTP/UrlAddress.cpp, the addresses

    The classes [URLAddress] and [HTTPAddress] with [HTTPChecker].

    [Address] holds the fields of [URLAddress], [HTTPAddress] and
    [BrowserAddress].  A member function takes the address and gives its result
    together with the address it leaves, also when it throws ([member]).  The
    virtual functions [process_parts_] and [additional_checks_] are arguments of
    the functions that call them.  The text of exceptions is not modelled. *)

From Stdlib Require Import ZArith List Bool Lia.
From S2P Require Import Prelude Ascii UrlCodec Numbers SubString Url.
Import ListNotations.

(** ** Addresses *)

Record Address : Type := {
  url_ : list Z;
  parts_ : UrlParts;
  strict_ : bool;
  port_number_ : Z;
  secure_ : bool;
  default_port_ : bool;
  encoded_host_ : list Z;
  decoded_host_ : list Z;
}.

Definition member (A : Type) : Type := Address -> outcome A * Address.

Definition ret {A} (a : A) : member A := fun this => (Ret a, this).
Definition throw {A} (e : exn) : member A := fun this => (Throw e, this).
Definition seq_ {A B} (c : member A) (k : A -> member B) : member B :=
  fun this =>
    match c this with
    | (Ret a, this) => k a this
    | (Throw e, this) => (Throw e, this)
    | (Undef, this) => (Undef, this)
    end.
Definition get {A} (f : Address -> A) : member A := fun this => (Ret (f this), this).
Definition set (f : Address -> Address) : member unit := fun this => (Ret tt, f this).
Definition lift {A} (c : outcome A) : member A := fun this => (c, this).

Declare Scope member_scope.
Delimit Scope member_scope with member.
Notation "x <- c ;; k" := (seq_ c (fun x => k))
  (at level 62, c at next level, right associativity) : member_scope.
Notation "' p <- c ;; k" := (seq_ c (fun x => match x with p => k end))
  (at level 62, p pattern, c at next level, right associativity) : member_scope.
Bind Scope member_scope with member.

Definition with_url (f : list Z) (this : Address) : Address :=
  {| url_ := f; parts_ := parts_ this; strict_ := strict_ this; port_number_ := port_number_ this;
     secure_ := secure_ this; default_port_ := default_port_ this;
     encoded_host_ := encoded_host_ this; decoded_host_ := decoded_host_ this |}.
Definition with_parts (f : UrlParts) (this : Address) : Address :=
  {| url_ := url_ this; parts_ := f; strict_ := strict_ this; port_number_ := port_number_ this;
     secure_ := secure_ this; default_port_ := default_port_ this;
     encoded_host_ := encoded_host_ this; decoded_host_ := decoded_host_ this |}.
Definition with_port (number : Z) (default : bool) (this : Address) : Address :=
  {| url_ := url_ this; parts_ := parts_ this; strict_ := strict_ this; port_number_ := number;
     secure_ := secure_ this; default_port_ := default;
     encoded_host_ := encoded_host_ this; decoded_host_ := decoded_host_ this |}.
Definition with_secure (b : bool) (this : Address) : Address :=
  {| url_ := url_ this; parts_ := parts_ this; strict_ := strict_ this; port_number_ := port_number_ this;
     secure_ := b; default_port_ := default_port_ this;
     encoded_host_ := encoded_host_ this; decoded_host_ := decoded_host_ this |}.
Definition with_hosts (encoded decoded : list Z) (this : Address) : Address :=
  {| url_ := url_ this; parts_ := parts_ this; strict_ := strict_ this; port_number_ := port_number_ this;
     secure_ := secure_ this; default_port_ := default_port_ this;
     encoded_host_ := encoded; decoded_host_ := decoded |}.

Definition default_address (strict : bool) : Address :=
  {| url_ := []; parts_ := UrlParts_clear; strict_ := strict; port_number_ := 0;
     secure_ := false; default_port_ := true; encoded_host_ := []; decoded_host_ := [] |}.

Definition get_text (f : UrlParts -> Part) (this : Address) : list Z := text (f (parts_ this)).

(** An error message of a checker becomes the exception. *)
Definition throw_if (error : option (list Z)) : member unit :=
  match error with None => ret tt | Some _ => throw InvalidURL end.

(** ** [URLAddress] *)

Definition url_without_check_ (value : list Z) : member unit :=
  (_ <- set (with_url []) ;; _ <- set (with_parts UrlParts_clear) ;;
   if empty value then ret tt
   else
     _ <- set (with_url value) ;;
     parts <- lift (split_url value) ;;
     set (with_parts parts))%member.

Definition assign_ (specific_checks_ : member unit) (value : list Z) : member unit :=
  (_ <- url_without_check_ value ;;
   _ <- specific_checks_ ;;
   url <- get url_ ;; parts <- get parts_ ;;
   error <- lift (URLPartsChecker url parts) ;;
   throw_if error)%member.

Definition append_if (b : bool) (s : list Z) : list Z := if b then s else [].

Definition has_authority (p : UrlParts) : bool :=
  has (userinfo p) || negb (empty (text (host p))) || has (port p).

Definition assemble_authority (p : UrlParts) : list Z :=
  append_if (has (userinfo p)) (text (userinfo p) ++ [USERINFO_SEPARATOR]) ++
  text (host p) ++
  append_if (has (port p)) (PORT_SEPARATOR :: text (port p)).

Definition assemble_url (p : UrlParts) : list Z :=
  append_if (negb (empty (text (scheme p)))) (text (scheme p) ++ [SCHEME_SUFFIX]) ++
  append_if (has_authority p) (AUTHORITY_PREFIX ++ assemble_authority p) ++
  text (path p) ++
  append_if (has (query p)) (QUERY_SEPARATOR :: text (query p)) ++
  append_if (has (fragment p)) (FRAGMENT_SEPARATOR :: text (fragment p)).

(** A window on the new string, [n] characters from [ptr] on. *)
Definition window (url : list Z) (ptr n : nat) : outcome (list Z) :=
  if (ptr + n <=? length url)%nat then Ret (firstn n (skipn ptr url)) else Undef.

(** The new windows, placed by the lengths of the parts. *)
Definition adjust_authority (q : UrlParts) (auth : list Z) (p : UrlParts) : outcome UrlParts :=
  let host_begin := size (text (userinfo p)) in
  q <- (if has (userinfo p)
        then u <- substr false auth 0 (size (text (userinfo p))) ;; Ret (set_userinfo q (part true u))
        else Ret q) ;;
  let host_begin := if has (userinfo p) then host_begin + 1 else host_begin in
  q <- (if negb (empty (text (host p)))
        then h <- substr false auth host_begin (size (text (host p))) ;; Ret (set_host q (part true h))
        else Ret q) ;;
  if has (port p)
  then x <- substr false auth (u64 (size auth - size (text (port p)))) (size (text (port p))) ;;
       Ret (set_port q (part true x))
  else Ret q.

Definition adjust_parts (url : list Z) (p : UrlParts) (authority_size : nat) (has_authority : bool) : outcome UrlParts :=
  let ptr := O in
  '(q, ptr) <- (if negb (empty (text (scheme p)))
                then s <- window url ptr (length (text (scheme p))) ;;
                     Ret (set_scheme UrlParts_clear (part true s), (ptr + length (text (scheme p)) + 1)%nat)
                else Ret (UrlParts_clear, ptr)) ;;
  '(q, ptr) <- (if has_authority
                then let ptr := (ptr + 2)%nat in
                     auth <- window url ptr authority_size ;;
                     q <- adjust_authority (set_authority q auth) auth p ;;
                     Ret (q, (ptr + length auth)%nat)
                else Ret (q, ptr)) ;;
  path <- window url ptr (length (text (path p))) ;;
  let q := set_path q (part true path) in
  let ptr := (ptr + length (text (Url.path p)))%nat in
  '(q, ptr) <- (if has (query p)
                then let ptr := (ptr + 1)%nat in
                     s <- window url ptr (length (text (query p))) ;;
                     Ret (set_query q (part true s), (ptr + length (text (query p)))%nat)
                else Ret (q, ptr)) ;;
  if has (fragment p)
  then s <- window url (ptr + 1) (length (text (fragment p))) ;; Ret (set_fragment q (part true s))
  else Ret q.

(** [assign_url_parts_]; [self]: [parts] is this object's own [parts_], which
    the call clears before it reads the lengths. *)
Definition assign_url_parts_ (self : bool) (parts : UrlParts) (check : bool) : member unit :=
  (let new_url := assemble_url parts in
   _ <- (if check then error <- lift (URLPartsChecker new_url parts) ;; throw_if error else ret tt) ;;
   _ <- set (with_url new_url) ;;
   _ <- set (with_parts UrlParts_clear) ;;
   q <- lift (adjust_parts new_url (if self then UrlParts_clear else parts)
                (if has_authority parts then length (assemble_authority parts) else 0%nat)
                (has_authority parts)) ;;
   set (with_parts q))%member.

(** [operator =]; [this = *this] is [assign_url_parts_ true]. *)
Definition copy_assign (another : Address) : member unit := assign_url_parts_ false (parts_ another) false.

(** ** [HTTPChecker] *)

Definition HTTPChecker_process_parts_ (url : list Z) (parts : UrlParts) (strict : bool)
  : outcome (UrlParts * option (list Z)) :=
  Ret (if strict then parts
       else set_fragment (set_query (set_path (set_userinfo parts no_part) no_part) no_part) no_part,
       None).

(** The result is the error message. *)
Definition HTTPChecker
  (process_parts_ : list Z -> UrlParts -> bool -> outcome (UrlParts * option (list Z)))
  (url : list Z) (strict : bool) : outcome (option (list Z)) :=
  if empty url then Ret (Some (lit "url is null"))
  else
    parts <- split_url url ;;
    parts <- (if negb strict && http_url_needs_prefix (text (scheme parts)) (text (host parts))
              then split_url (http_add_scheme url) else Ret parts) ;;
    '(parts, error) <- process_parts_ url parts strict ;;
    match error with
    | Some e => Ret (Some e)
    | None =>
        match check_http_url_components url (text (scheme parts)) (text (host parts)) strict with
        | Some e => Ret (Some e)
        | None => URLPartsChecker url parts
        end
    end.

(** ** [HTTPAddress] *)

Definition get_default_port_ (secure : bool) : Z := if secure then DEFAULT_HTTPS_PORT else DEFAULT_HTTP_PORT.

(** [printf]'s %hu. *)
Fixpoint print_hu_loop (fuel : nat) (n : Z) (acc : list Z) : list Z :=
  match fuel with
  | O => acc
  | S fuel' =>
      let acc := chr "0" + n mod 10 :: acc in
      if n / 10 =? 0 then acc else print_hu_loop fuel' (n / 10) acc
  end.
Definition print_hu (n : Z) : list Z := print_hu_loop 5 n [].

Definition HTTPAddress_set_ (secure : bool) (userinfo host : list Z) (port : Z) (path query fragment : list Z)
  : member unit :=
  (if empty host then set (with_port 0 true)
   else
     let default := port =? get_default_port_ secure in
     _ <- set (with_secure secure) ;;
     _ <- set (with_port port default) ;;
     assign_url_parts_ false
       (UrlParts_new (if secure then HTTPS_SCHEME else HTTP_SCHEME) userinfo host
          (if default then [] else print_hu port)
          (if empty path then DEFAULT_PATH else path) query fragment) true)%member.

(** One turn of the loop over [PartCheckInfo]s: the part and whether it changed. *)
Definition fix_part (p : Part) (checker : CharTable) : outcome (Part * bool) :=
  r <- http_fix_part (text p) checker ;;
  Ret match r with Some new_part => (part (has p) new_part, true) | None => (p, false) end.

Definition fix_parts (p : UrlParts) (rebuild : bool) : outcome (UrlParts * bool) :=
  '(userinfo, r1) <- fix_part (userinfo p) USER_INFO ;;
  '(path, r2) <- fix_part (path p) PATH ;;
  '(query, r3) <- fix_part (query p) QUERY ;;
  '(fragment, r4) <- fix_part (fragment p) FRAGMENT ;;
  Ret (set_fragment (set_query (set_path (set_userinfo p userinfo) path) query) fragment,
       rebuild || r1 || r2 || r3 || r4).

(** [specific_checks_]: before [additional_checks_] and after it. *)
Definition HTTPAddress_add_scheme_ : member unit :=
  (strict <- get strict_ ;; s <- get (get_text scheme) ;; h <- get (get_text host) ;; url <- get url_ ;;
   if negb strict && http_url_needs_prefix s h then url_without_check_ (http_add_scheme url) else ret tt)%member.

Definition HTTPAddress_check_and_fix_ (rebuild : bool) : member unit :=
  (strict <- get strict_ ;; s <- get (get_text scheme) ;; h <- get (get_text host) ;; url <- get url_ ;;
   _ <- throw_if (check_http_url_components url s h strict) ;;
   parts <- get parts_ ;;
   '(new_parts, rebuild) <- lift (if strict then Ret (parts, rebuild) else fix_parts parts rebuild) ;;
   if (rebuild : bool) then assign_url_parts_ false new_parts false else ret tt)%member.

Definition HTTPAddress_specific_checks_ (additional_checks_ : member bool) : member unit :=
  (_ <- HTTPAddress_add_scheme_ ;; rebuild <- additional_checks_ ;; HTTPAddress_check_and_fix_ rebuild)%member.

Definition HTTPAddress_additional_checks_ : member bool := ret false.

(** [HTTPAddress::assign_], with the class's [specific_checks_]; after the
    assignment of the URL come the fields of [HTTPAddress]. *)
Definition HTTPAddress_set_fields_ : member unit :=
  (s <- get (get_text scheme) ;;
   let secure := is_scheme s HTTPS_SCHEME in
   _ <- set (with_secure secure) ;;
   port_str <- get (get_text port) ;; number <- get port_number_ ;; default <- get default_port_ ;;
   _ <- (if negb (empty port_str)
         then
           let '(ok, number) := str_to_int (I := UInt16) port_str number in
           _ <- set (with_port number default) ;;
           if (ok : bool) then set (with_port number false) else throw InvalidURL
         else set (with_port (get_default_port_ secure) true)) ;;
   path <- get (get_text path) ;; parts <- get parts_ ;;
   if empty path then set (with_parts (set_path parts (part (has (Url.path parts)) DEFAULT_PATH)))
   else ret tt)%member.

Definition HTTPAddress_assign_ (additional_checks_ : member bool) (http_url : list Z) : member unit :=
  (if empty http_url then throw InvalidURL
   else
     _ <- assign_ (HTTPAddress_specific_checks_ additional_checks_) http_url ;;
     HTTPAddress_set_fields_)%member.

(** The constructors: a throw leaves no object. *)
Definition HTTPAddress_of_url (url : list Z) (strict_url : bool) : outcome Address :=
  let this := default_address strict_url in
  if empty url then Ret this
  else match HTTPAddress_assign_ HTTPAddress_additional_checks_ url this with
       | (Ret _, this) => Ret this
       | (Throw e, _) => Throw e
       | (Undef, _) => Undef
       end.

Definition HTTPAddress_of_parts (host path query fragment : list Z) (port : Z) (secure : bool) (userinfo : list Z)
  : outcome Address :=
  match HTTPAddress_set_ secure userinfo host (if negb (port =? 0) then port else get_default_port_ secure)
          path query fragment (default_address false) with
  | (Ret _, this) => Ret this
  | (Throw e, _) => Throw e
  | (Undef, _) => Undef
  end.

(** [create_address]: the address it makes. *)
Definition create_address (url : list Z) : outcome Address :=
  if empty url then Throw InvalidURL
  else if Caseless_start false HTTP_PREFIX url || Caseless_start false HTTPS_PREFIX url
  then HTTPAddress_of_url url true
  else Throw InvalidURL.

Definition VW_PROTOCOL : Z := 0x01.
Definition VW_HOSTNAME : Z := 0x02.
Definition VW_HOSTNAME_WWW : Z := VW_HOSTNAME + 0x100.
Definition VW_PORT : Z := 0x04.
Definition VW_NDEF_PORT : Z := 0x08.
Definition VW_PATH : Z := 0x10.
Definition VW_QUERY : Z := 0x20.
Definition VW_STRIP_PATH : Z := VW_PATH + 0x40.
Definition VW_FRAGMENT : Z := 0x80.
Definition VW_FULL : Z :=
  Z.lor (Z.lor (Z.lor (Z.lor (Z.lor VW_PROTOCOL VW_HOSTNAME) VW_NDEF_PORT) VW_PATH) VW_QUERY) VW_FRAGMENT.

Definition any_of (flags mask : Z) : bool := negb (Z.land flags mask =? 0).
Definition all_of (flags mask : Z) : bool := Z.land flags mask =? mask.

Definition view_path (flags : Z) (path : list Z) : outcome (list Z) :=
  if all_of flags VW_STRIP_PATH then
    match rev path with
    | [] => Undef
    | c :: _ => Ret (if c =? PATH_SEPARATOR then firstn (length path - 1) path else path)
    end
  else Ret path.

Definition get_view (this : Address) (flags : Z) : outcome (list Z) :=
  let p := parts_ this in
  let host := text (host p) in
  let str := append_if (any_of flags VW_PROTOCOL)
               (append_if (has (scheme p)) (if secure_ this then HTTPS_PREFIX else HTTP_PREFIX) ++ AUTHORITY_PREFIX) in
  let str := str ++ append_if (any_of flags VW_HOSTNAME)
               (append_if (all_of flags VW_HOSTNAME_WWW && negb (Caseless_start false WWW host)) WWW ++ host) in
  let str := str ++ append_if (any_of flags VW_PORT || (negb (default_port_ this) && any_of flags VW_NDEF_PORT))
               (chr ":" :: print_hu (port_number_ this)) in
  path <- (if any_of flags VW_PATH then view_path flags (text (path p)) else Ret []) ;;
  Ret (str ++ path ++
       append_if (any_of flags VW_QUERY && has (query p)) (QUERY_SEPARATOR :: text (query p)) ++
       append_if (any_of flags VW_FRAGMENT && has (fragment p)) (FRAGMENT_SEPARATOR :: text (fragment p))).

Example address_example :
  match HTTPAddress_of_url (lit "hTTp://ex.com:80?a b") false with
  | Ret a => (url_ a, port_number_ a, default_port_ a, text (path (parts_ a)), get_view a VW_FULL)
  | _ => ([], 0, false, [], Undef)
  end = (lit "hTTp://ex.com:80?a%20b", 80, false, lit "/", Ret (lit "http://ex.com:80/?a%20b")).
Proof. vm_compute. reflexivity. Qed.

(** ** The parts of an assembled URL *)

(** What the code keeps of the flags: a userinfo or a port that is there is
    not empty, and a part that is not there has no characters. *)
Definition tidy (p : UrlParts) : Prop :=
  has (userinfo p) = negb (empty (text (userinfo p))) /\
  has (port p) = negb (empty (text (port p))) /\
  (has (query p) = false -> text (query p) = []) /\
  (has (fragment p) = false -> text (fragment p) = []) /\
  (has (scheme p) = false -> text (scheme p) = []).

Definition kept (b : bool) (s : list Z) : Part := if b then part true s else no_part.
Definition nonempty_part (s : list Z) : Part := kept (negb (empty s)) s.

Definition adjusted (p : UrlParts) : UrlParts :=
  {| scheme := nonempty_part (text (scheme p)); userinfo := nonempty_part (text (userinfo p));
     host := nonempty_part (text (host p)); port := nonempty_part (text (port p));
     path := part true (text (path p)); query := kept (has (query p)) (text (query p));
     fragment := kept (has (fragment p)) (text (fragment p));
     authority := append_if (has_authority p) (assemble_authority p) |}.

Lemma window_at a b c n m : n = length a -> m = length b -> window (a ++ b ++ c) n m = Ret b.
Proof.
  intros -> ->. unfold window. destruct (Nat.leb_spec (length a + length b) (length (a ++ b ++ c))) as [_|L].
  - rewrite skipn_app, skipn_all, Nat.sub_diag. cbn [skipn app].
    now rewrite firstn_app, firstn_all, Nat.sub_diag, app_nil_r.
  - rewrite !length_app in L. lia.
Qed.

Lemma substr_at a b c n m : size (a ++ b ++ c) < NPOS -> n = size a -> m = size b ->
  substr false (a ++ b ++ c) n m = Ret b.
Proof. intros S -> ->. now apply substr_mid. Qed.

Lemma adjust_authority_ok s auth p : tidy p -> auth = assemble_authority p -> size auth < NPOS ->
  adjust_authority (parts5 s auth no_part no_part no_part) auth p
  = Ret (set_port (set_host (set_userinfo (parts5 s auth no_part no_part no_part)
           (nonempty_part (text (userinfo p)))) (nonempty_part (text (host p)))) (nonempty_part (text (port p)))).
Proof.
  intros (U & P & _) A S. unfold adjust_authority, assemble_authority, nonempty_part in *. rewrite U, P in *.
  set (u := text (userinfo p)) in *. set (h := text (host p)) in *. set (x := text (port p)) in *.
  set (before_h := append_if (negb (empty u)) (u ++ [USERINFO_SEPARATOR])) in *.
  set (after_h := append_if (negb (empty x)) (PORT_SEPARATOR :: x)) in *.
  assert (negb (empty u) = true -> substr false auth 0 (size u) = Ret u) as Wu.
  { intros N. unfold before_h in A. rewrite N in A. cbn [append_if] in A. rewrite <- app_assoc in A.
    rewrite A in *. now apply (substr_at []). }
  assert (substr false auth (if negb (empty u) then size u + 1 else size u) (size h) = Ret h) as Wh.
  { rewrite A in *. apply substr_at; [easy| |easy]. unfold before_h. destruct u; [easy|]. cbn [negb empty append_if].
    rewrite length_app. cbn [length]. lia. }
  assert (negb (empty x) = true -> substr false auth (u64 (size auth - size x)) (size x) = Ret x) as Wx.
  { intros N. unfold after_h in A. rewrite N in A. cbn [append_if] in A.
    replace (before_h ++ h ++ PORT_SEPARATOR :: x) with ((before_h ++ h ++ [PORT_SEPARATOR]) ++ x ++ []) in A
      by (now rewrite app_nil_r, <- !app_assoc).
    assert (size auth = size (before_h ++ h ++ [PORT_SEPARATOR]) + size x) as Sz by (rewrite A, !length_app; cbn [length]; lia).
    rewrite wrapu_small by (unfold NPOS in *; lia). rewrite Sz. rewrite A in *. apply substr_at; [easy|lia|easy]. }
  destruct (negb (empty u)); [rewrite (Wu eq_refl)|]; cbn [bind kept];
    (destruct (negb (empty h)); [rewrite Wh|]; cbn [bind kept]);
    (destruct (negb (empty x)); [rewrite (Wx eq_refl)|]; reflexivity).
Qed.

Definition scheme_text (p : UrlParts) : list Z :=
  append_if (negb (empty (text (scheme p)))) (text (scheme p) ++ [SCHEME_SUFFIX]).
Definition authority_text (p : UrlParts) : list Z :=
  append_if (has_authority p) (AUTHORITY_PREFIX ++ assemble_authority p).
Definition query_text (p : UrlParts) : list Z := append_if (has (query p)) (QUERY_SEPARATOR :: text (query p)).
Definition fragment_text (p : UrlParts) : list Z := append_if (has (fragment p)) (FRAGMENT_SEPARATOR :: text (fragment p)).

Lemma assemble_url_eq p :
  assemble_url p = scheme_text p ++ authority_text p ++ text (path p) ++ query_text p ++ fragment_text p.
Proof. reflexivity. Qed.

(** The windows of [adjust_parts], in the order it takes them. *)
Section Windows.
Variable p : UrlParts.

Lemma scheme_window : negb (empty (text (scheme p))) = true ->
  window (assemble_url p) 0 (length (text (scheme p))) = Ret (text (scheme p)).
Proof.
  intros N. rewrite assemble_url_eq. unfold scheme_text. rewrite N. cbn [append_if]. rewrite <- app_assoc.
  now apply (window_at []).
Qed.

Lemma authority_window : has_authority p = true ->
  window (assemble_url p) (length (scheme_text p) + 2) (length (assemble_authority p)) = Ret (assemble_authority p).
Proof.
  intros H. rewrite assemble_url_eq. unfold authority_text. rewrite H. cbn [append_if].
  rewrite <- (app_assoc AUTHORITY_PREFIX), (app_assoc (scheme_text p)). apply window_at; [|easy].
  rewrite length_app. reflexivity.
Qed.

Lemma path_window :
  window (assemble_url p) (length (scheme_text p) + length (authority_text p)) (length (text (path p)))
  = Ret (text (path p)).
Proof. rewrite assemble_url_eq, app_assoc. apply window_at; [now rewrite length_app|easy]. Qed.

Lemma query_window : has (query p) = true ->
  window (assemble_url p) (length (scheme_text p) + length (authority_text p) + length (text (path p)) + 1)
    (length (text (query p))) = Ret (text (query p)).
Proof.
  intros H. rewrite assemble_url_eq. unfold query_text. rewrite H. cbn [append_if].
  replace (scheme_text p ++ authority_text p ++ text (path p) ++ (QUERY_SEPARATOR :: text (query p)) ++ fragment_text p)
    with ((scheme_text p ++ authority_text p ++ text (path p) ++ [QUERY_SEPARATOR]) ++ text (query p) ++ fragment_text p)
    by (now rewrite <- !app_assoc).
  apply window_at; [|easy]. rewrite !length_app. cbn [length]. lia.
Qed.

Lemma fragment_window : has (fragment p) = true ->
  window (assemble_url p)
    (length (scheme_text p) + length (authority_text p) + length (text (path p)) + length (query_text p) + 1)
    (length (text (fragment p))) = Ret (text (fragment p)).
Proof.
  intros H. rewrite assemble_url_eq. unfold fragment_text. rewrite H. cbn [append_if].
  replace (scheme_text p ++ authority_text p ++ text (path p) ++ query_text p ++ FRAGMENT_SEPARATOR :: text (fragment p))
    with ((scheme_text p ++ authority_text p ++ text (path p) ++ query_text p ++ [FRAGMENT_SEPARATOR]) ++ text (fragment p) ++ [])
    by (now rewrite app_nil_r, <- !app_assoc).
  apply window_at; [|easy]. rewrite !length_app. cbn [length]. lia.
Qed.

Lemma adjust_parts_ok : tidy p -> size (assemble_url p) < NPOS ->
  adjust_parts (assemble_url p) p (if has_authority p then length (assemble_authority p) else O) (has_authority p)
  = Ret (adjusted p).
Proof.
  intros T S. unfold adjust_parts.
  assert ((if negb (empty (text (scheme p)))
           then s <- window (assemble_url p) 0 (length (text (scheme p))) ;;
                Ret (set_scheme UrlParts_clear (part true s), (0 + length (text (scheme p)) + 1)%nat)
           else Ret (UrlParts_clear, 0%nat))
          = Ret (parts5 (nonempty_part (text (scheme p))) [] no_part no_part no_part, length (scheme_text p))) as ->.
  { pose proof scheme_window as W. unfold scheme_text, nonempty_part. destruct (negb (empty (text (scheme p)))); [|reflexivity].
    rewrite (W eq_refl). cbn [bind append_if kept]. rewrite length_app. reflexivity. }
  cbn [bind]. set (s := nonempty_part (text (scheme p))).
  set (stage2 := if has_authority p then _ else _).
  assert (stage2 = Ret (set_port (set_host (set_userinfo
      (parts5 s (append_if (has_authority p) (assemble_authority p)) no_part no_part no_part)
           (nonempty_part (text (userinfo p)))) (nonempty_part (text (host p)))) (nonempty_part (text (port p))),
      (length (scheme_text p) + length (authority_text p))%nat)) as ->.
  { subst stage2. pose proof authority_window as W. unfold authority_text. destruct (has_authority p) eqn:A.
    - rewrite (W eq_refl). cbn [bind append_if]. change (set_authority _ _) with (parts5 s (assemble_authority p) no_part no_part no_part).
      rewrite adjust_authority_ok; [|easy|easy|].
      + cbn [bind]. rewrite !length_app. cbn [length AUTHORITY_PREFIX lit]. do 2 f_equal. lia.
      + rewrite assemble_url_eq in S. unfold authority_text in S. rewrite A in S. cbn [append_if] in S.
        rewrite !length_app in S. lia.
    - unfold has_authority in A. destruct T as (U & P & _). rewrite U, P in A. bools.
      unfold nonempty_part. rewrite H, H0, H1. cbn [negb kept append_if length]. now rewrite Nat.add_0_r. }
  cbn [bind]. rewrite path_window. cbn [bind].
  match goal with |- context [set_path ?q (part true (text (path p)))] => set (q4 := set_path q (part true (text (path p)))) in * end.
  set (stage4 := if has (query p) then _ else _).
  assert (stage4 = Ret (set_query q4 (kept (has (query p)) (text (query p))),
    (length (scheme_text p) + length (authority_text p) + length (text (path p)) + length (query_text p))%nat)) as ->.
  { subst stage4. pose proof query_window as W. unfold query_text. destruct (has (query p)).
    - rewrite (W eq_refl). cbn [bind append_if length kept]. do 2 f_equal. lia.
    - cbn [append_if length kept]. now rewrite Nat.add_0_r. }
  cbn [bind]. pose proof fragment_window as W. unfold adjusted. destruct (has (fragment p)).
  - rewrite (W eq_refl). reflexivity.
  - reflexivity.
Qed.
End Windows.

(** ** Assembling and splitting *)

Definition kept_text (b : bool) (s : list Z) : option (list Z) := if b then Some s else None.

Definition uri_of (p : UrlParts) : Uri :=
  {| u_scheme := kept_text (negb (empty (text (scheme p)))) (text (scheme p));
     u_authority :=
       if has_authority p
       then Some {| a_user := kept_text (negb (empty (text (userinfo p)))) (text (userinfo p));
                    a_host := text (host p);
                    a_port := kept_text (negb (empty (text (port p)))) (text (port p)) |}
       else None;
     u_path := text (path p);
     u_query := kept_text (has (query p)) (text (query p));
     u_fragment := kept_text (has (fragment p)) (text (fragment p)) |}.

Lemma assemble_recompose p : tidy p -> assemble_url p = recompose (uri_of p).
Proof.
  intros (U & P & _). rewrite assemble_url_eq. unfold recompose, uri_of, scheme_text, authority_text, query_text,
    fragment_text, assemble_authority. cbn [u_scheme u_authority u_path u_query u_fragment].
  rewrite U, P.
  destruct (negb (empty (text (scheme p)))), (has_authority p), (negb (empty (text (userinfo p)))),
    (negb (empty (text (port p)))), (has (query p)), (has (fragment p)); reflexivity.
Qed.

(** The texts over the categories have none of the delimiters. *)
Lemma encoded_clear category str s :
  forallb (fun c => negb (table_owned category c) && negb (is_hex c) && negb (c =? 37)) str = true ->
  encoded (table_owned category) s -> clear_of str s.
Proof.
  intros F. rewrite forallb_forall in F.
  assert (forall c, In c str -> table_owned category c = false /\ is_hex c = false /\ c <> 37) as G.
  { intros c I. specialize (F c I). bools. auto. }
  assert (forall c, table_owned category c = true \/ is_hex c = true \/ c = 37 -> among str c = false) as N.
  { intros c H. apply not_true_iff_false. rewrite among_iff. intros I. destruct (G c I) as (G1 & G2 & G3).
    destruct H as [H|[H|H]]; congruence. }
  induction 1 as [|c s E H IH|h1 h2 s E1 E2 H IH]; [constructor| |].
  - constructor; [apply N; now left|easy].
  - constructor; [apply N; auto|]. constructor; [apply N; auto|]. constructor; [apply N; auto|easy].
Qed.

Lemma owned_encoded category s : owned_all category s -> encoded (table_owned category) s.
Proof. induction 1; [constructor|]. now apply encoded_char. Qed.

Lemma owned_clear category str s :
  forallb (fun c => negb (table_owned category c) && negb (is_hex c) && negb (c =? 37)) str = true ->
  owned_all category s -> clear_of str s.
Proof. intros F H. eapply encoded_clear; [exact F|]. now apply owned_encoded. Qed.

(** A path that no scheme or host precedes must not look like it has a scheme. *)
Definition schemeless (p : UrlParts) : Prop :=
  text (scheme p) = [] -> text (host p) = [] ->
  clear_of (lit ":") (firstn (find_owned (Char1 (chr "/")) (text (path p))) (text (path p))).

Lemma has_authority_host p : tidy p -> valid_parts p -> has_authority p = negb (empty (text (host p))).
Proof.
  intros (U & P & _) (_ & _ & H & _). unfold has_authority. rewrite U, P.
  destruct (text (host p)) as [|c h]; [|now rewrite orb_true_r]. destruct (H eq_refl) as [-> ->]. easy.
Qed.

Lemma scheme_clear p : valid_scheme p -> clear_of (lit ":/?#") (text p).
Proof.
  intros [[-> _]|(c & r & -> & C & R)]; [constructor|].
  apply Forall_cons; [|apply (owned_clear SCHEME_NOT_FIRST); [reflexivity|easy]].
  apply not_true_iff_false. rewrite among_iff. intros I. cbn in I.
  repeat (destruct I as [<-|I]; [vm_compute in C; discriminate|]). easy.
Qed.

Lemma wf_uri_of p : tidy p -> valid_parts p -> schemeless p -> wf_uri (uri_of p).
Proof.
  intros T V N. pose proof (has_authority_host p T V) as A.
  destruct V as (Vs & Vu & Vn & Vh & Vp & (Pe & Ph & Pn) & Vq & Vf). unfold wf_uri, uri_of.
  cbn [u_scheme u_authority u_path u_query u_fragment]. split; [|split; [|split]].
  - pose proof (scheme_clear _ Vs). now destruct (text (scheme p)).
  - eapply encoded_clear; [|exact Pe]; reflexivity.
  - destruct (has (query p)); [|easy]. cbn. eapply encoded_clear; [|exact Vq]; reflexivity.
  - rewrite A. destruct (text (host p)) as [|c0 h0] eqn:Eh; cbn [empty negb].
    + split; [intros r; now apply Pn|]. intros Es. apply N; [|easy]. now destruct (text (scheme p)).
    + rewrite <- Eh in *. assert (text (host p) <> []) as Nh by now rewrite Eh.
      destruct (Vh Nh) as (_ & Ho & _). split; [|now apply Ph; rewrite Eh].
      assert (clear_of (lit "/?#") (text (userinfo p)) /\ clear_of (lit "@") (text (userinfo p))) as [Cu Cu']
        by (split; (eapply encoded_clear; [|exact Vu]; reflexivity)).
      assert (clear_of (lit "/?#") (text (host p)) /\ clear_of (lit "@") (text (host p)) /\ clear_of (lit ":") (text (host p))) as (Ch & Ch' & Ch'')
        by (repeat split; (eapply owned_clear; [|exact Ho]; reflexivity)).
      assert (clear_of (lit "/?#") (text (port p)) /\ clear_of (lit "@") (text (port p)) /\ clear_of (lit ":") (text (port p))) as (Cp & Cp' & Cp'')
        by (repeat split; (eapply owned_clear; [|exact Vp]; reflexivity)).
      unfold wf_auth, auth_text. cbn [a_user a_host a_port].
      destruct (negb (empty (text (userinfo p)))), (negb (empty (text (port p)))); cbn [kept_text before after clear_opt];
        rewrite ?clear_app, ?app_nil_r; repeat split; try easy; try (now constructor).
Qed.

(** The parts that [split_url] finds in an assembled URL: the same, but for the
    flag of the path. *)
Lemma opt_part_kept b s : opt_part (kept_text b s) = kept b s.
Proof. now destruct b. Qed.

Lemma filled_kept s : filled (kept_text (negb (empty s)) s) = nonempty_part s.
Proof. now destruct s. Qed.

Lemma uri_parts_of p : tidy p -> valid_parts p ->
  uri_parts (uri_of p) = set_path (adjusted p) (part (path_found (uri_of p)) (text (path p))).
Proof.
  intros T V. pose proof (has_authority_host p T V) as A. pose proof T as (U & P & _).
  destruct V as (_ & _ & H & _). unfold uri_parts, component_parts, adjusted, set_path, parts5.
  set (f := path_found (uri_of p)). unfold uri_of. cbn [u_scheme u_authority u_path u_query u_fragment].
  rewrite A, !opt_part_kept. unfold assemble_authority. rewrite U, P.
  destruct (text (host p)) as [|c h] eqn:Eh; cbn [negb empty].
  - destruct (H eq_refl) as [-> ->]. reflexivity.
  - unfold auth_text. cbn [a_user a_host a_port]. rewrite !filled_kept.
    destruct (text (userinfo p)) as [|c0 u], (text (port p)) as [|c1 x]; reflexivity.
Qed.

Lemma split_assembled p : tidy p -> valid_parts p -> schemeless p -> size (assemble_url p) < NPOS ->
  split_url (assemble_url p) = Ret (set_path (adjusted p) (part (path_found (uri_of p)) (text (path p)))).
Proof.
  intros T V N S. rewrite assemble_recompose in * by easy.
  rewrite split_url_ok by (easy || now apply wf_uri_of). now rewrite uri_parts_of.
Qed.

(** The parts found in a URL are tidy. *)
Lemma uri_parts_tidy u : tidy (uri_parts u).
Proof.
  destruct u as [s a pth q f]. unfold uri_parts, component_parts. cbn [u_scheme u_authority u_query u_fragment u_path].
  destruct a as [a|]; [destruct (empty (auth_text a))|].
  - now destruct s, q, f.
  - destruct (a_user a) as [[|? ?]|], (a_port a) as [[|? ?]|]; now destruct s, q, f.
  - now destruct s, q, f.
Qed.

Lemma UrlParts_new_tidy s u h x pth q f : tidy (UrlParts_new s u h x pth q f).
Proof. now destruct s, u, x, q, f. Qed.

Lemma split_url_parts url : size url < NPOS -> exists u, wf_uri u /\ recompose u = url /\ split_url url = Ret (uri_parts u).
Proof. intros S. destruct (uri_exists url) as (u & W & <-). exists u. auto using split_url_ok. Qed.

(** The same URL again when its parts are assembled. *)
Lemma valid_parts_path p b : valid_parts (set_path p (part b (text (path p)))) <-> valid_parts p.
Proof. reflexivity. Qed.

(** ** [assign_url_parts_] *)

Lemma assign_url_parts_ok p check this : tidy p -> size (assemble_url p) < NPOS ->
  (check = true -> valid_parts p) ->
  assign_url_parts_ false p check this = (Ret tt, with_parts (adjusted p) (with_url (assemble_url p) this)).
Proof.
  intros T S V. unfold assign_url_parts_, seq_, set, lift. rewrite adjust_parts_ok by easy.
  destruct check; [|reflexivity].
  destruct (url_checker_ok (assemble_url p) p) as (e & -> & Hv). rewrite (proj2 Hv (V eq_refl)). reflexivity.
Qed.

Lemma assign_url_parts_rejects p this : ~ valid_parts p ->
  assign_url_parts_ false p true this = (Throw InvalidURL, this).
Proof.
  intros V. unfold assign_url_parts_, seq_, set, lift.
  destruct (url_checker_ok (assemble_url p) p) as (e & -> & Hv). destruct e; [reflexivity|]. now elim V; apply Hv.
Qed.

(** ** Running [specific_checks_] *)

Definition http_scheme (strict : bool) (s : list Z) : Prop :=
  is_scheme s HTTP_SCHEME = true \/ is_scheme s HTTPS_SCHEME = true \/ (strict = false /\ s = []).

Lemma components_ok url s h strict :
  check_http_url_components url s h strict = None <-> http_scheme strict s /\ h <> [].
Proof.
  unfold check_http_url_components, http_scheme. rewrite <- !empty_iff.
  destruct (is_scheme s HTTP_SCHEME), (is_scheme s HTTPS_SCHEME), strict, (empty s), (empty h); cbn;
    split; try discriminate; try tauto; intuition discriminate.
Qed.

Definition same_but_path (p q : UrlParts) : Prop := exists b, q = set_path p (part b (text (path p))).

(** What [specific_checks_] leaves: when its parts are legal they are those of
    the URL. *)
Definition settled (strict : bool) (url : list Z) (q : UrlParts) : Prop :=
  text (host q) <> [] /\ http_scheme strict (text (scheme q)) /\
  (valid_parts q -> exists u, wf_uri u /\ recompose u = url /\ same_but_path (uri_parts u) q).

Lemma url_without_check_ok url this : url <> [] -> size url < NPOS -> exists u,
  wf_uri u /\ recompose u = url /\
  url_without_check_ url this = (Ret tt, with_parts (uri_parts u) (with_url url this)).
Proof.
  intros N S. destruct (split_url_parts url S) as (u & W & E & Sp). exists u. split; [easy|]. split; [easy|].
  unfold url_without_check_, seq_, set, lift. destruct url; [easy|]. cbn [empty]. now rewrite Sp.
Qed.

Lemma fix_part_ok p checker : is_bytes (text p) -> table_owned checker 37 = false ->
  exists q b, fix_part p checker = Ret (q, b) /\ has q = has p /\ (b = false -> q = p) /\
    (empty (text q) = empty (text p)) /\ (size (text q) <= 3 * size (text p)) /\
    (encoded (table_owned checker) (text p) -> b = false).
Proof.
  intros B P. unfold fix_part. rewrite http_fix_part_eq by easy. cbn [bind].
  set (k := enc_len (table_owned checker) (text p)). pose proof (length_skipn k (text p)) as Ls.
  pose proof (enc_len_le (table_owned checker) (text p)) as Le. fold k in Le.
  destruct (skipn k (text p)) as [|c r] eqn:E.
  - exists p, false. repeat split; try easy. lia.
  - eexists _, true. split; [reflexivity|]. cbn [has text length] in *. repeat split; try easy.
    + destruct (text p); [now destruct k|]. now destruct (firstn k (z :: l)).
    + rewrite !length_app, length_firstn. pose proof (fix_text_length (table_owned QUERY) r). cbn [pct length]. lia.
    + intros H. apply encoded_enc_len in H; [|easy]. fold k in H. lia.
Qed.

(** A property of the characters of a URL is one of the characters of its
    parts; no part is longer than the URL. *)
Definition all_texts (P : list Z -> Prop) (p : UrlParts) : Prop :=
  P (text (scheme p)) /\ P (text (userinfo p)) /\ P (text (host p)) /\ P (text (port p)) /\
  P (text (path p)) /\ P (text (query p)) /\ P (text (fragment p)).

Lemma incl_before o c : forall d, In d (text (opt_part o)) -> In d (before o c).
Proof. destruct o; cbn; intros d I; [apply in_or_app; now left|easy]. Qed.
Lemma incl_after o c : forall d, In d (text (opt_part o)) -> In d (after c o).
Proof. destruct o; cbn; intros d I; [now right|easy]. Qed.
Lemma filled_opt o : text (filled o) = text (opt_part o).
Proof. now destruct o as [[|? ?]|]. Qed.

Lemma uri_parts_texts (P : list Z -> Prop) u :
  P [] -> P (text (opt_part (u_scheme u))) ->
  (forall a, u_authority u = Some a -> P (text (opt_part (a_user a))) /\ P (a_host a) /\ P (text (opt_part (a_port a)))) ->
  P (u_path u) -> P (text (opt_part (u_query u))) -> P (text (opt_part (u_fragment u))) ->
  all_texts P (uri_parts u).
Proof.
  intros H0 Hs Ha Hp Hq Hf. unfold uri_parts, component_parts, all_texts.
  destruct (u_authority u) as [a|]; [destruct (empty (auth_text a))|];
    cbn [parts5 set_host set_port set_userinfo scheme userinfo host port path query fragment text]; try easy.
  rewrite !filled_opt. destruct (Ha a eq_refl) as (H1 & H2 & H3). easy.
Qed.

Lemma uri_parts_sub u : all_texts (fun s => incl s (recompose u) /\ size s <= size (recompose u)) (uri_parts u).
Proof.
  assert (forall o c, size (text (opt_part o)) <= size (before o c)) as Lb
    by (intros [o|] c; cbn; rewrite ?length_app; lia).
  assert (forall o c, size (text (opt_part o)) <= size (after c o)) as La by (intros [o|] c; cbn [opt_part text after length no_part]; lia).
  apply uri_parts_texts; unfold recompose, tail_text.
  - split; [easy|]. change (size []) with 0. lia.
  - split; [|rewrite length_app; specialize (Lb (u_scheme u) (chr ":")); lia].
    intros d I. apply in_or_app. left. now apply incl_before.
  - intros a ->. cbn [hier_text]. unfold auth_text. rewrite !length_app.
    pose proof (Lb (a_user a) (chr "@")). pose proof (La (a_port a) (chr ":")).
    repeat split; try lia; intros d I; apply in_or_app; right; apply in_or_app; left;
      apply in_or_app; right.
    + apply in_or_app. left. now apply incl_before.
    + apply in_or_app. right. apply in_or_app. now left.
    + apply in_or_app. right. apply in_or_app. right. now apply incl_after.
  - split; [|rewrite !length_app; lia]. intros d I. do 2 (apply in_or_app; right). apply in_or_app. now left.
  - split; [|rewrite !length_app; specialize (La (u_query u) (chr "?")); lia].
    intros d I. do 3 (apply in_or_app; right). apply in_or_app. left. now apply incl_after.
  - split; [|rewrite !length_app; specialize (La (u_fragment u) (chr "#")); lia].
    intros d I. do 4 (apply in_or_app; right). now apply incl_after.
Qed.

Lemma all_texts_impl (P Q : list Z -> Prop) p : (forall s, P s -> Q s) -> all_texts P p -> all_texts Q p.
Proof. unfold all_texts. intuition. Qed.

(** The longest URL the theorems are about; any real one is shorter. *)
Definition MAX_URL : Z := 2 ^ 58.

Lemma assemble_size p n : all_texts (fun s => size s <= n) p -> size (assemble_url p) <= 7 * n + 7.
Proof.
  intros (H1 & H2 & H3 & H4 & H5 & H6 & H7). unfold assemble_url, assemble_authority, append_if.
  rewrite !length_app.
  destruct (negb (empty (text (scheme p)))), (has_authority p), (has (userinfo p)), (has (port p)), (has (query p)), (has (fragment p));
    rewrite ?length_app; cbn [length AUTHORITY_PREFIX lit]; lia.
Qed.

Lemma fix_parts_ok u : is_bytes (recompose u) ->
  let p := uri_parts u in
  exists q b, fix_parts p false = Ret (q, b) /\ (b = false -> q = p) /\ tidy q /\
    scheme q = scheme p /\ host q = host p /\ port q = port p /\
    size (assemble_url q) <= 21 * size (recompose u) + 7 /\ (valid_parts p -> b = false).
Proof.
  intros B. cbv zeta. pose proof (uri_parts_sub u) as Sub. pose proof (uri_parts_tidy u) as T.
  set (p := uri_parts u) in *. set (n := size (recompose u)) in *.
  assert (all_texts (fun s => is_bytes s /\ size s <= n) p) as X.
  { eapply all_texts_impl; [|exact Sub]. intros s [I L]. split; [|easy]. unfold is_bytes in *. rewrite Forall_forall in *. auto. }
  destruct X as ([_ L1] & [B2 L2] & [_ L3] & [_ L4] & [B5 L5] & [B6 L6] & [B7 L7]).
  destruct (fix_part_ok (userinfo p) USER_INFO B2 eq_refl) as (u2 & b2 & E2 & H2 & N2 & M2 & S2 & V2).
  destruct (fix_part_ok (path p) PATH B5 eq_refl) as (u5 & b5 & E5 & H5 & N5 & M5 & S5 & V5).
  destruct (fix_part_ok (query p) QUERY B6 eq_refl) as (u6 & b6 & E6 & H6 & N6 & M6 & S6 & V6).
  destruct (fix_part_ok (fragment p) FRAGMENT B7 eq_refl) as (u7 & b7 & E7 & H7 & N7 & M7 & S7 & V7).
  unfold fix_parts. rewrite E2, E5, E6, E7. cbn [bind orb]. eexists _, _. split; [reflexivity|].
  split; [|split; [|split; [|split; [|split; [|split]]]]]; try reflexivity.
  - intros Eb. apply orb_false_iff in Eb as [Eb ->]. apply orb_false_iff in Eb as [Eb ->].
    apply orb_false_iff in Eb as [-> ->]. rewrite N2, N5, N6, N7 by easy. now destruct p.
  - destruct T as (T1 & T2 & T3 & T4 & T5).
    unfold tidy. cbn [set_fragment set_query set_path set_userinfo userinfo port query fragment scheme].
    rewrite H2, H6, H7, M2. rewrite <- !empty_iff, M6, M7, !empty_iff. auto.
  - etransitivity; [apply (assemble_size _ (3 * n))|lia].
    unfold all_texts. cbn [set_fragment set_query set_path set_userinfo scheme userinfo host port path query fragment]. lia.
  - intros (_ & Vu & _ & _ & _ & (Vp & _) & Vq & Vf). now rewrite V2, V5, V6, V7.
Qed.

Lemma adjusted_same p : tidy p -> adjusted (adjusted p) = adjusted p /\ assemble_url (adjusted p) = assemble_url p /\
  tidy (adjusted p) /\ text (host (adjusted p)) = text (host p) /\ text (scheme (adjusted p)) = text (scheme p) /\
  text (path (adjusted p)) = text (path p).
Proof.
  intros (U & P & _).
  destruct p as [[hs s] [hu u] [hh h] [hp x] [hpth pth] [hq q] [hf f] a]; cbn in U, P; subst hu hp.
  unfold adjusted, assemble_url, assemble_authority, has_authority, tidy, nonempty_part.
  cbn [scheme userinfo host port path query fragment authority text has].
  destruct s, u, h, x, hq, hf; repeat split; try reflexivity; easy.
Qed.

Lemma check_and_fix_ok u url this : wf_uri u -> recompose u = url -> is_bytes url -> size url < MAX_URL + 7 ->
  let s1 := with_parts (uri_parts u) (with_url url this) in
  (exists s2, HTTPAddress_check_and_fix_ false s1 = (Throw InvalidURL, s2) /\
     ~ (http_scheme (strict_ this) (text (scheme (uri_parts u))) /\ text (host (uri_parts u)) <> [])) \/
  (exists url2 q, HTTPAddress_check_and_fix_ false s1 = (Ret tt, with_parts q (with_url url2 this)) /\
     settled (strict_ this) url2 q /\
     (valid_parts (uri_parts u) \/ strict_ this = true -> url2 = url /\ q = uri_parts u)).
Proof.
  intros W <- B S. cbv zeta. unfold HTTPAddress_check_and_fix_, seq_, get, lift. cbn [strict_ url_ parts_ with_parts with_url].
  unfold get_text. cbn [parts_ with_parts].
  destruct (check_http_url_components (recompose u) (text (scheme (uri_parts u))) (text (host (uri_parts u))) (strict_ this)) eqn:C;
    [left; eexists; split; [reflexivity|now rewrite <- components_ok, C]|right]. apply components_ok in C as [Cs Ch]. cbn [throw_if ret].
  assert (settled (strict_ this) (recompose u) (uri_parts u)) as St.
  { split; [easy|]. split; [easy|]. intros _. exists u. split; [easy|]. split; [easy|]. exists (has (path (uri_parts u))).
    now destruct (uri_parts u) as [? ? ? ? [? ?] ? ? ?]. }
  destruct (strict_ this) eqn:E.
  - exists (recompose u), (uri_parts u). split; [reflexivity|]. easy.
  - change (parts_ _) with (uri_parts u). destruct (fix_parts_ok u B) as (q & b & -> & Nb & T & Es & Eh & Ep & Sz & V). destruct b.
    + rewrite assign_url_parts_ok; [|easy|unfold MAX_URL, NPOS in *; lia|easy].
      exists (assemble_url q), (adjusted q). split; [reflexivity|]. split; [|intros [H|H]; [now apply V in H|easy]].
      destruct (adjusted_same q T) as (A1 & A2 & A3 & A4 & A5 & A6).
      split; [now rewrite A4, Eh|]. split; [now rewrite A5, Es|]. intros Vq.
      assert (schemeless (adjusted q)) as Sl by (intros _; rewrite A4, Eh; easy).
      exists (uri_of (adjusted q)). split; [now apply wf_uri_of|]. split; [now rewrite <- assemble_recompose, A2|].
      exists true. rewrite uri_parts_of by easy. rewrite A1. destruct q as [? ? ? ? [? ?] ? ? ?]. reflexivity.
    + exists (recompose u), (uri_parts u). split; [reflexivity|]. easy.
Qed.

(** ** What an assigned address is *)

Definition or_default (path : list Z) : list Z := if empty path then DEFAULT_PATH else path.

Record address_ok (a : Address) : Prop := {
  ok_url : exists u b, wf_uri u /\ recompose u = url_ a /\
             parts_ a = set_path (uri_parts u) (part b (or_default (text (path (uri_parts u)))));
  ok_valid : valid_parts (parts_ a);
  ok_host : text (host (parts_ a)) <> [];
  ok_scheme : http_scheme (strict_ a) (text (scheme (parts_ a)));
  ok_secure : secure_ a = is_scheme (text (scheme (parts_ a))) HTTPS_SCHEME;
  ok_port :
    let x := text (port (parts_ a)) in
    if empty x then default_port_ a = true /\ port_number_ a = get_default_port_ (secure_ a)
    else default_port_ a = false /\ port_number_ a = dec_from 0 x /\ 0 <= port_number_ a <= 65535
}.

Lemma valid_default_path p b : valid_parts p -> text (host p) <> [] ->
  valid_parts (set_path p (part b (or_default (text (path p))))).
Proof.
  intros V N. unfold or_default. destruct (empty (text (path p))) eqn:E; [|exact V].
  destruct V as (V1 & V2 & V3 & V4 & V5 & _ & V7 & V8). split; [exact V1|]. do 4 (split; [easy|]).
  split; [|easy]. cbn [set_path host path text]. destruct (text (host p)); [easy|]. cbn [empty negb].
  split; [now repeat constructor|]. split; [right; now exists []|easy].
Qed.

Lemma is_digit_owned c : table_owned PORT c = true -> is_digit c = true.
Proof.
  intros H. unfold PORT, table_owned in H. destruct (Z.ltb_spec c 256) as [L|L]; [destruct (Z.leb_spec 0 c) as [G|G]|].
  - assert (is_byte c) as B by (split; easy). clear L G.
    enough (implb (nth (Z.to_nat c) NUMBER false) (is_digit c) = true) as E by (now rewrite H in E). clear H. by_bytes c B.
  - now replace (Z.to_nat c) with O in H by lia.
  - rewrite nth_overflow in H by (change (length NUMBER) with 256%nat; lia). easy.
Qed.

Lemma port_digits x old : owned_all PORT x -> x <> [] ->
  (exists n, str_to_int (I := UInt16) x old = (true, n) /\ n = dec_from 0 x /\ 0 <= n <= 65535) \/
  (exists n, str_to_int (I := UInt16) x old = (false, n) /\ 65535 < dec_from 0 x).
Proof.
  intros O N. assert (forallb is_digit x = true) as D.
  { apply forallb_forall. intros c I. unfold owned_all in O. rewrite Forall_forall in O. apply is_digit_owned. auto. }
  destruct (str_to_int x old) as [[|] n] eqn:E; [left|right].
  - apply (parse_exact (I := UInt16)) in E as [E R]; [|now apply digits_bytes].
    rewrite parse_digits in E by easy. injection E as <-. exists (dec_from 0 x).
    repeat split; apply R.
  - exists n. split; [easy|]. destruct (Z.ltb_spec 65535 (dec_from 0 x)) as [|L]; [easy|exfalso].
    pose proof (dec_from_ge x D 0 ltac:(lia)) as G.
    assert (str_to_int (I := UInt16) x old = (true, dec_from 0 x)) as E'; [|congruence].
    apply (parse_exact (I := UInt16)); [now apply digits_bytes|]. now rewrite parse_digits.
Qed.

Lemma set_fields_ok q url this : valid_parts q -> text (host q) <> [] ->
  let s := with_parts q (with_url url this) in
  (exists s2, HTTPAddress_set_fields_ s = (Throw InvalidURL, s2) /\ 65535 < dec_from 0 (text (port q))) \/
  (exists a, HTTPAddress_set_fields_ s = (Ret tt, a) /\
     url_ a = url /\ (exists b, parts_ a = set_path q (part b (or_default (text (path q))))) /\
     strict_ a = strict_ this /\ encoded_host_ a = encoded_host_ this /\ decoded_host_ a = decoded_host_ this /\
     secure_ a = is_scheme (text (scheme q)) HTTPS_SCHEME /\
     (let x := text (port q) in
      if empty x then default_port_ a = true /\ port_number_ a = get_default_port_ (secure_ a)
      else default_port_ a = false /\ port_number_ a = dec_from 0 x /\ 0 <= port_number_ a <= 65535)).
Proof.
  intros V N. cbv zeta. unfold HTTPAddress_set_fields_, seq_, get, set, throw, ret, get_text, or_default.
  cbn [parts_ with_parts with_url with_secure with_port port_number_ default_port_].
  assert (exists b, q = set_path q (part b (text (path q)))) as Q by (exists (has (path q)); now destruct q as [? ? ? ? [? ?] ? ? ?]).
  assert (text (port q) <> [] -> owned_all PORT (text (port q))) as O by (intros _; apply V).
  destruct (text (port q)) as [|c x] eqn:Ex; cbn [empty negb].
  - right. cbn [parts_ with_parts with_url with_secure with_port].
    destruct (empty (text (path q))); eexists; (split; [reflexivity|]);
      cbn [url_ parts_ strict_ encoded_host_ decoded_host_ secure_ default_port_ port_number_ with_parts with_url with_secure with_port];
      repeat split; eauto.
  - destruct (port_digits (c :: x) (port_number_ this)) as [(n & -> & En & Rn)|(n & -> & Rn)];
      [now apply O|easy| |left; eexists; split; [reflexivity|easy]].
    right. cbn [parts_ with_parts with_url with_secure with_port].
    destruct (empty (text (path q))); eexists; (split; [reflexivity|]);
      cbn [url_ parts_ strict_ encoded_host_ decoded_host_ secure_ default_port_ port_number_ with_parts with_url with_secure with_port];
      repeat split; eauto; lia.
Qed.

Definition HTTP_BEGIN : list Z := HTTP_SCHEME ++ SCHEME_AUTHORITY_MEDIATOR.

Lemma url_without_check_eq u url this : wf_uri u -> recompose u = url -> url <> [] -> size url < NPOS ->
  url_without_check_ url this = (Ret tt, with_parts (uri_parts u) (with_url url this)).
Proof.
  intros W <- N S. unfold url_without_check_, seq_, set, lift. destruct (recompose u) eqn:E; [easy|]. cbn [empty].
  rewrite <- E, split_url_ok; [reflexivity|exact W|rewrite E; exact S].
Qed.

Definition needs_prefix (strict : bool) (p : UrlParts) : bool :=
  negb strict && http_url_needs_prefix (text (scheme p)) (text (host p)).

(** The URL that the checks are about. *)
Lemma add_scheme_ok u url this : wf_uri u -> recompose u = url -> is_bytes url -> size url < MAX_URL ->
  exists url1 u1, wf_uri u1 /\ recompose u1 = url1 /\ is_bytes url1 /\ size url1 < MAX_URL + 7 /\
    url1 = (if needs_prefix (strict_ this) (uri_parts u) then http_add_scheme url else url) /\
    (needs_prefix (strict_ this) (uri_parts u) = false -> u1 = u) /\
    HTTPAddress_add_scheme_ (with_parts (uri_parts u) (with_url url this))
    = (Ret tt, with_parts (uri_parts u1) (with_url url1 this)).
Proof.
  intros W E B S. unfold HTTPAddress_add_scheme_, seq_, get, get_text.
  cbn [strict_ url_ parts_ with_parts with_url].
  change (negb (strict_ this) && _) with (needs_prefix (strict_ this) (uri_parts u)).
  destruct (needs_prefix (strict_ this) (uri_parts u)).
  - assert (size (http_add_scheme url) = 7 + size url) as Sz
      by (unfold http_add_scheme; rewrite !length_app; change (length HTTP_SCHEME) with 4%nat;
          change (length SCHEME_AUTHORITY_MEDIATOR) with 3%nat; lia).
    destruct (uri_exists (http_add_scheme url)) as (u1 & W1 & E1). exists (http_add_scheme url), u1.
    split; [easy|]. split; [easy|]. split; [|split; [lia|split; [easy|split; [easy|]]]].
    + apply Forall_app. split; [apply lit_bytes|]. apply Forall_app. split; [apply lit_bytes|easy].
    + rewrite (url_without_check_eq u1) by (easy || (unfold MAX_URL, NPOS in *; lia)). reflexivity.
  - exists url, u. do 3 (split; [easy|]). split; [lia|]. easy.
Qed.

(** [assign_] of an [HTTPAddress]: it gives an address or throws, and never
    does anything undefined. *)
Lemma HTTPAddress_assign_ok url this : url <> [] -> is_bytes url -> size url < MAX_URL ->
  (exists s, HTTPAddress_assign_ HTTPAddress_additional_checks_ url this = (Throw InvalidURL, s)) \/
  (exists a, HTTPAddress_assign_ HTTPAddress_additional_checks_ url this = (Ret tt, a) /\ address_ok a /\
     strict_ a = strict_ this /\ encoded_host_ a = encoded_host_ this /\ decoded_host_ a = decoded_host_ this).
Proof.
  intros N B S. unfold HTTPAddress_assign_, assign_, HTTPAddress_specific_checks_, HTTPAddress_additional_checks_.
  destruct (uri_exists url) as (u & W & E). assert (empty url = false) as -> by now destruct url.
  unfold seq_. rewrite (url_without_check_eq u) by (easy || (unfold MAX_URL, NPOS in *; lia)).
  destruct (add_scheme_ok u url this W E B S) as (url1 & u1 & W1 & E1 & B1 & S1 & _ & _ & ->). cbn [ret].
  destruct (check_and_fix_ok u1 url1 this W1 E1 B1 S1) as [(s2 & -> & _)|(url2 & q & -> & St & _)];
    [left; eexists; reflexivity|]. unfold get, lift. cbn [url_ parts_ with_parts with_url].
  destruct (url_checker_ok url2 q) as (err & -> & Hv). destruct err as [err|]; [left; eexists; reflexivity|].
  cbn [throw_if ret]. assert (valid_parts q) as V by now apply Hv. destruct St as (Hh & Hs & Hu).
  destruct (set_fields_ok q url2 this V Hh) as [(s2 & -> & _)|(a & -> & A1 & (b & A2) & A3 & A4 & A5 & A6 & A7)];
    [left; eexists; reflexivity|right].
  exists a. split; [reflexivity|]. split; [|easy]. destruct (Hu V) as (u2 & W2 & E2 & (b' & Sm)).
  pose proof (valid_default_path q b V Hh) as Vd. rewrite <- A2 in Vd.
  split; try easy.
  - exists u2, b. split; [easy|]. split; [congruence|]. rewrite A2, Sm. reflexivity.
  - now rewrite A2.
  - rewrite A3, A2. exact Hs.
  - now rewrite A6, A2.
  - rewrite A2. exact A7.
Qed.

Lemma tt_unit (u : unit) : u = tt.
Proof. now destruct u. Qed.

(** Two addresses that differ in nothing that the class reads. *)
Definition forget_path_flag (a : Address) : Address :=
  with_parts (set_path (parts_ a) (part true (text (path (parts_ a))))) a.

Lemma address_eq a b :
  url_ a = url_ b -> set_path (parts_ a) (part true (text (path (parts_ a)))) = set_path (parts_ b) (part true (text (path (parts_ b)))) ->
  strict_ a = strict_ b -> port_number_ a = port_number_ b -> secure_ a = secure_ b ->
  default_port_ a = default_port_ b -> encoded_host_ a = encoded_host_ b -> decoded_host_ a = decoded_host_ b ->
  forget_path_flag a = forget_path_flag b.
Proof. destruct a, b. unfold forget_path_flag. cbn. now intros -> -> -> -> -> -> -> ->. Qed.

Lemma valid_parts_default p b :
  text (host p) <> [] -> valid_parts (set_path p (part b (or_default (text (path p))))) -> valid_parts p.
Proof.
  intros N. unfold or_default. destruct (empty (text (path p))) eqn:E; [|easy]. apply empty_iff in E.
  intros (V1 & V2 & V3 & V4 & V5 & _ & V7 & V8). unfold valid_parts. rewrite E. split; [exact V1|]. do 4 (split; [easy|]).
  split; [|easy]. split; [constructor|]. split; [now left|easy].
Qed.

(** The URL of an address gives the address again. *)
Lemma HTTPAddress_assign_again a this : address_ok a -> is_bytes (url_ a) -> size (url_ a) < MAX_URL ->
  strict_ this = strict_ a -> encoded_host_ this = encoded_host_ a -> decoded_host_ this = decoded_host_ a ->
  exists a', HTTPAddress_assign_ HTTPAddress_additional_checks_ (url_ a) this = (Ret tt, a') /\
    forget_path_flag a' = forget_path_flag a.
Proof.
  intros [(u & b & W & E & Pa) V Hh Hs Hsec Hport] B S Es Ee Ed. rewrite Pa in V, Hh, Hs, Hsec, Hport.
  cbn [set_path host scheme port] in Hh, Hs, Hsec, Hport. apply valid_parts_default in V; [|easy].
  assert (url_ a <> []) as N.
  { intros Eu. apply Hh. pose proof (uri_parts_sub u) as (_ & _ & [_ L] & _). rewrite E, Eu in L. cbn in L.
    destruct (text (host (uri_parts u))); [easy|cbn [length] in L; lia]. }
  assert (needs_prefix (strict_ this) (uri_parts u) = false) as Np.
  { unfold needs_prefix, http_url_needs_prefix. destruct (text (host (uri_parts u))); [easy|]. cbn. apply andb_false_r. }
  unfold HTTPAddress_assign_, assign_, HTTPAddress_specific_checks_, HTTPAddress_additional_checks_.
  assert (empty (url_ a) = false) as -> by now destruct (url_ a).
  unfold seq_. rewrite (url_without_check_eq u) by (try easy; unfold MAX_URL, NPOS in *; lia).
  destruct (add_scheme_ok u (url_ a) this W E B S) as (url1 & u1 & W1 & E1 & B1 & S1 & X1 & X2 & ->). cbn [ret].
  rewrite Np in X1. specialize (X2 Np). subst u1. rewrite X1 in S1 |- *.
  destruct (check_and_fix_ok u (url_ a) this W E B S1) as [(s2 & _ & C)|(url2 & q & -> & St & Q)];
    [elim C; now rewrite Es|]. destruct (Q (or_introl V)) as [-> ->]. unfold get, lift. cbn [url_ parts_ with_parts with_url].
  destruct (url_checker_ok (url_ a) (uri_parts u)) as (err & -> & Hv). rewrite (proj2 Hv V). cbn [throw_if ret].
  destruct (set_fields_ok (uri_parts u) (url_ a) this V Hh) as [(s2 & _ & C)|(a' & -> & A1 & (b' & A2) & A3 & A4 & A5 & A6 & A7)].
  { exfalso. cbv zeta in Hport. destruct (text (port (uri_parts u))) as [|c x] eqn:Ex; [cbn in C; lia|].
    cbn [empty] in Hport. lia. }
  exists a'. split; [reflexivity|]. cbv zeta in A7, Hport. apply address_eq; try congruence.
  - rewrite A2, Pa. reflexivity.
  - destruct (empty (text (port (uri_parts u)))); destruct A7 as [_ A7], Hport as [_ Hport]; [congruence|lia].
  - destruct (empty (text (port (uri_parts u)))); destruct A7 as [A7 _], Hport as [Hport _]; congruence.
Qed.

(** ** Legal characters *)

(** What a URL may be made of: what queries allow, the sign of a fragment and
    the sign of an escape. *)
Definition legal (c : Z) : bool := table_owned QUERY c || (c =? chr "#") || (c =? chr "%").
Definition all_legal (s : list Z) : Prop := Forall (fun c => legal c = true) s.

Definition table_ok (t : CharTable) : bool :=
  (length t =? 256)%nat && negb (nth 0 t false) && forallb (fun c => implb (table_owned t c) (legal c)) all_bytes.

Lemma owned_byte t c : table_ok t = true -> table_owned t c = true -> is_byte c /\ legal c = true.
Proof.
  unfold table_ok. intros T H. bools. apply Nat.eqb_eq in H0. assert (is_byte c) as B.
  { unfold table_owned in H. destruct (Z.ltb_spec c 256) as [L|L]; [destruct (Z.leb_spec 0 c) as [G|G]|].
    - split; easy.
    - replace (Z.to_nat c) with O in H by lia. congruence.
    - rewrite nth_overflow in H by lia. easy. }
  split; [easy|]. rewrite forallb_forall in H1. specialize (H1 c (all_bytes_In c B)). now rewrite H in H1.
Qed.

Lemma legal_byte c : legal c = true -> is_byte c.
Proof.
  unfold legal. intros H. apply orb_true_iff in H as [H|H]; [apply orb_true_iff in H as [H|H]|].
  - now apply (owned_byte QUERY c).
  - bools. subst. easy.
  - bools. subst. easy.
Qed.

Lemma encoded_legal t s : table_ok t = true -> encoded (table_owned t) s -> all_legal s.
Proof.
  intros T. assert (forall h, is_hex h = true -> legal h = true) as X by (intros h; now apply (owned_byte HEX_NUMBER)).
  induction 1 as [|c s E H IH|h1 h2 s E1 E2 H IH]; [constructor| |].
  - constructor; [now apply (owned_byte t)|easy].
  - constructor; [easy|]. constructor; [auto|]. constructor; [auto|easy].
Qed.

Lemma owned_all_legal t s : table_ok t = true -> owned_all t s -> all_legal s.
Proof. intros T H. eapply encoded_legal; [exact T|]. now apply owned_encoded. Qed.

Lemma valid_parts_legal p : valid_parts p -> all_texts all_legal p.
Proof.
  intros (Vs & Vu & Vn & Vh & Vp & (Pe & _) & Vq & Vf). unfold all_texts. repeat split.
  - destruct Vs as [[-> _]|(c & r & -> & C & R)]; [constructor|]. constructor; [now apply (owned_byte SCHEME_FIRST)|].
    now apply (owned_all_legal SCHEME_NOT_FIRST).
  - now apply (encoded_legal USER_INFO).
  - destruct (text (host p)) as [|c h]; [constructor|]. destruct Vh as (_ & O & _); [easy|]. now apply (owned_all_legal HOST).
  - now apply (owned_all_legal PORT).
  - now apply (encoded_legal PATH).
  - now apply (encoded_legal QUERY).
  - now apply (encoded_legal FRAGMENT).
Qed.

Lemma recompose_legal u : all_texts all_legal (uri_parts u) -> all_legal (recompose u).
Proof.
  unfold all_texts, uri_parts, component_parts, recompose, tail_text.
  destruct u as [s au pth q f]. cbn [u_scheme u_authority u_path u_query u_fragment].
  assert (forall o c, legal c = true -> all_legal (text (opt_part o)) -> all_legal (before o c)) as Lb.
  { intros [o|] c C H; [|constructor]. apply Forall_app. split; [easy|now constructor]. }
  assert (forall o c, legal c = true -> all_legal (text (opt_part o)) -> all_legal (after c o)) as La
    by (intros [o|] c C H; now constructor).
  intros H.
  assert (all_legal (text (opt_part s)) /\ all_legal pth /\ all_legal (text (opt_part q)) /\ all_legal (text (opt_part f))) as (Hs & Hp & Hq & Hf)
    by (destruct au as [a|]; [destruct (empty (auth_text a))|]; easy).
  assert (all_legal (hier_text au)) as Hau.
  { destruct au as [a|]; [|constructor]. cbn [hier_text]. apply Forall_app. split; [now repeat constructor|].
    destruct (empty (auth_text a)) eqn:E; [apply empty_iff in E; rewrite E; constructor|].
    cbn [parts5 set_host set_port set_userinfo userinfo host port text] in H. rewrite !filled_opt in H.
    unfold auth_text. apply Forall_app. split; [now apply Lb|]. apply Forall_app. split; [easy|now apply La]. }
  repeat (apply Forall_app; split); try easy; [apply Lb|apply La|apply La]; easy.
Qed.

Lemma address_legal a : address_ok a -> all_legal (url_ a) /\ is_bytes (url_ a).
Proof.
  intros [(u & b & W & <- & Pa) V Hh _ _ _]. rewrite Pa in V, Hh. apply valid_parts_default in V; [|easy].
  pose proof (recompose_legal u (valid_parts_legal _ V)) as L. split; [easy|].
  eapply Forall_impl; [|exact L]. apply legal_byte.
Qed.

(** ** Port numbers *)

Lemma print_hu_loop_ok fuel : forall n acc, 0 <= n < 10 ^ Z.of_nat fuel -> (0 < fuel)%nat ->
  exists ds, print_hu_loop fuel n acc = ds ++ acc /\ ds <> [] /\ forallb is_digit ds = true /\ dec_from 0 ds = n.
Proof.
  induction fuel as [|fuel IH]; intros n acc R F; [lia|]. cbn [print_hu_loop].
  assert (is_digit (chr "0" + n mod 10) = true) as D.
  { unfold is_digit. chr_simpl. pose proof (Z.mod_pos_bound n 10 ltac:(lia)). lia. }
  assert (n = 10 * (n / 10) + n mod 10) as En by (apply Z.div_mod; lia).
  destruct (Z.eqb_spec (n / 10) 0) as [E|E].
  - exists [chr "0" + n mod 10]. cbn [forallb andb app]. rewrite D. repeat split; [easy|].
    unfold dec_from. cbn [fold_left]. chr_simpl. lia.
  - rewrite Nat2Z.inj_succ, Z.pow_succ_r in R by lia.
    destruct fuel as [|fuel]; [cbn in R; Z.div_mod_to_equations; lia|].
    destruct (IH (n / 10) (chr "0" + n mod 10 :: acc)) as (ds & -> & N & B & V); [|lia|].
    { split; [Z.div_mod_to_equations; lia|]. apply Z.div_lt_upper_bound; lia. }
    exists (ds ++ [chr "0" + n mod 10]). rewrite <- app_assoc. repeat split.
    + now destruct ds.
    + rewrite forallb_app, B. cbn [forallb andb]. now rewrite D.
    + rewrite dec_from_app, V. unfold dec_from. cbn [fold_left]. chr_simpl. lia.
Qed.

Lemma print_hu_ok n : 0 <= n <= 65535 ->
  print_hu n <> [] /\ owned_all PORT (print_hu n) /\ dec_from 0 (print_hu n) = n.
Proof.
  intros R. destruct (print_hu_loop_ok 5 n []) as (ds & E & N & D & V); [cbn; lia|lia|].
  unfold print_hu. rewrite E, app_nil_r. repeat split; try easy. apply Forall_forall. intros c I.
  rewrite forallb_forall in D. specialize (D c I). assert (is_byte c) as B by (unfold is_digit, is_byte in *; bools; lia).
  enough (implb (is_digit c) (table_owned PORT c) = true) as X by (now rewrite D in X). clear D I. by_bytes c B.
Qed.

(** ** Addresses made of parts *)

Definition built (p : UrlParts) (strict : bool) (number : Z) (secure default : bool) : Address :=
  {| url_ := assemble_url p; parts_ := adjusted p; strict_ := strict; port_number_ := number; secure_ := secure;
     default_port_ := default; encoded_host_ := []; decoded_host_ := [] |}.

Lemma scheme_is_http (secure : bool) : http_scheme true (if secure then HTTPS_SCHEME else HTTP_SCHEME).
Proof. destruct secure; [right; left|left]; reflexivity. Qed.

Lemma nonempty_text s : text (nonempty_part s) = s.
Proof. now destruct s. Qed.

Lemma built_ok p strict number secure : tidy p -> valid_parts p -> text (host p) <> [] -> text (path p) <> [] ->
  http_scheme strict (text (scheme p)) -> secure = is_scheme (text (scheme p)) HTTPS_SCHEME -> 0 <= number <= 65535 ->
  (if empty (text (port p)) then number = get_default_port_ secure else dec_from 0 (text (port p)) = number) ->
  address_ok (built p strict number secure (empty (text (port p)))).
Proof.
  intros T V Nh Np Es Esec R Hx. destruct (adjusted_same p T) as (A1 & A2 & A3 & A4 & A5 & A6).
  assert (text (port (adjusted p)) = text (port p)) as A7 by apply nonempty_text.
  split; unfold built; cbn [url_ parts_ strict_ secure_ default_port_ port_number_].
  - exists (uri_of p), true. split; [apply wf_uri_of; auto; intros _; easy|]. split; [symmetry; now apply assemble_recompose|].
    rewrite uri_parts_of by easy. unfold or_default. cbn [set_path path text]. destruct (text (path p)) eqn:E; [easy|].
    unfold adjusted. now rewrite E.
  - assert (adjusted p = set_path (adjusted p) (part true (text (path p)))) as -> by reflexivity.
    destruct V as (V1 & V2 & V3 & V4 & V5 & V6 & V7 & V8). unfold valid_parts.
    cbn [set_path adjusted scheme userinfo host port path query fragment]. rewrite !nonempty_text.
    split; [|do 5 (split; [easy|])].
    + destruct V1 as [[-> _]|(c & r & -> & C & O)]; [now left|right; now exists c, r].
    + split; [now destruct (has (query p)); [|constructor]|now destruct (has (fragment p)); [|constructor]].
  - now rewrite A4.
  - now rewrite A5.
  - now rewrite A5.
  - rewrite A7. destruct (empty (text (port p))); [easy|]. repeat split; lia.
Qed.

(** What the constructor from parts builds. *)
Definition parts_given (host path query fragment : list Z) (port : Z) (secure : bool) (userinfo : list Z) : UrlParts :=
  UrlParts_new (if secure then HTTPS_SCHEME else HTTP_SCHEME) userinfo host
    (if port =? get_default_port_ secure then [] else print_hu port) (or_default path) query fragment.

Definition port_given (port : Z) (secure : bool) : Z := if negb (port =? 0) then port else get_default_port_ secure.

Lemma port_given_range port secure : 0 <= port <= 65535 -> 0 <= port_given port secure <= 65535.
Proof.
  unfold port_given, get_default_port_, DEFAULT_HTTPS_PORT, DEFAULT_HTTP_PORT. destruct (negb _), secure; lia.
Qed.

Lemma parts_given_port host path query fragment port secure userinfo : 0 <= port <= 65535 ->
  empty (text (Url.port (parts_given host path query fragment port secure userinfo))) = (port =? get_default_port_ secure).
Proof.
  intros R. unfold parts_given, UrlParts_new, Part_new. cbn [Url.port text].
  destruct (port =? get_default_port_ secure); [easy|].
  destruct (print_hu_ok port R) as (Np & _). now destruct (print_hu port).
Qed.

Lemma of_parts_ok host path query fragment port secure userinfo :
  let n := port_given port secure in
  let p := parts_given host path query fragment n secure userinfo in
  host <> [] -> 0 <= port <= 65535 -> size (assemble_url p) < NPOS ->
  (valid_parts p ->
   HTTPAddress_of_parts host path query fragment port secure userinfo
   = Ret (built p false n secure (empty (text (Url.port p))))) /\
  (~ valid_parts p -> HTTPAddress_of_parts host path query fragment port secure userinfo = Throw InvalidURL).
Proof.
  cbv zeta. intros N R S. unfold HTTPAddress_of_parts. fold (port_given port secure).
  pose proof (port_given_range port secure R) as Rn. set (n := port_given port secure) in *.
  unfold HTTPAddress_set_. assert (empty host = false) as -> by now destruct host.
  change (if empty path then DEFAULT_PATH else path) with (or_default path).
  fold (parts_given host path query fragment n secure userinfo).
  pose proof (parts_given_port host path query fragment n secure userinfo Rn) as Ep.
  set (p := parts_given host path query fragment n secure userinfo) in *.
  unfold seq_, set. split; intros V.
  - rewrite assign_url_parts_ok; [|apply UrlParts_new_tidy|easy|easy]. unfold built. now rewrite Ep.
  - now rewrite assign_url_parts_rejects.
Qed.

Lemma of_url_ok url strict : url <> [] -> is_bytes url -> size url < MAX_URL ->
  HTTPAddress_of_url url strict = Throw InvalidURL \/
  (exists a, HTTPAddress_of_url url strict = Ret a /\ address_ok a /\ strict_ a = strict /\
     encoded_host_ a = [] /\ decoded_host_ a = []).
Proof.
  intros N B S. unfold HTTPAddress_of_url. assert (empty url = false) as -> by now destruct url.
  destruct (HTTPAddress_assign_ok url (default_address strict) N B S) as [(s & ->)|(a & -> & H & H1 & H2 & H3)];
    [now left|right]. now exists a.
Qed.

Lemma of_url_again a : address_ok a -> size (url_ a) < MAX_URL -> encoded_host_ a = [] -> decoded_host_ a = [] ->
  exists a', HTTPAddress_of_url (url_ a) (strict_ a) = Ret a' /\ forget_path_flag a' = forget_path_flag a.
Proof.
  intros H S Ee Ed. destruct (address_legal a H) as [_ B].
  destruct (HTTPAddress_assign_again a (default_address (strict_ a)) H B S) as (a' & E & F); try easy.
  exists a'. split; [|easy]. unfold HTTPAddress_of_url.
  assert (empty (url_ a) = false) as ->.
  { destruct (url_ a) eqn:Eu; [|easy]. exfalso. unfold HTTPAddress_assign_ in E. cbn in E. discriminate. }
  now rewrite E.
Qed.

Lemma MAX_URL_NPOS : MAX_URL < NPOS.
Proof. reflexivity. Qed.

(** In strict mode nothing is changed. *)
Lemma of_url_strict url u : url <> [] -> is_bytes url -> size url < MAX_URL -> wf_uri u -> recompose u = url ->
  let p := uri_parts u in
  (exists a, HTTPAddress_of_url url true = Ret a) <->
  (http_scheme true (text (scheme p)) /\ text (host p) <> []) /\ valid_parts p /\
  (text (port p) = [] \/ dec_from 0 (text (port p)) <= 65535).
Proof.
  intros N B S W E. cbv zeta. unfold HTTPAddress_of_url, HTTPAddress_assign_, assign_, HTTPAddress_specific_checks_,
    HTTPAddress_additional_checks_.
  assert (empty url = false) as -> by now destruct url. set (this := default_address true).
  unfold seq_. rewrite (url_without_check_eq u) by (try easy; exact (Z.lt_trans _ _ _ S MAX_URL_NPOS)).
  destruct (add_scheme_ok u url this W E B S) as (url1 & u1 & W1 & E1 & B1 & S1 & X1 & X2 & ->). cbn [ret].
  assert (needs_prefix (strict_ this) (uri_parts u) = false) as Np by reflexivity.
  rewrite Np in X1. specialize (X2 Np). subst u1. rewrite X1 in S1 |- *.
  destruct (check_and_fix_ok u url this W E B S1) as [(s2 & -> & C)|(url2 & q & -> & (Hh & Hs & _) & Q)].
  { split; [intros [a H]; discriminate|]. intros (H & _). now elim C. }
  destruct (Q (or_intror eq_refl)) as [-> ->]. unfold get, lift. cbn [url_ parts_ with_parts with_url].
  destruct (url_checker_ok url (uri_parts u)) as (err & -> & Hv). destruct err as [err|]; cbn [throw_if].
  { split; [intros [a H]; discriminate|]. intros (_ & V & _). apply Hv in V. discriminate. }
  cbn [ret]. assert (valid_parts (uri_parts u)) as V by now apply Hv.
  destruct (set_fields_ok (uri_parts u) url this V Hh) as [(s2 & -> & C)|(a & -> & _ & _ & _ & _ & _ & _ & A7)].
  - split; [intros [a H]; discriminate|]. intros (_ & _ & [Z|Z]); [rewrite Z in C; cbn in C; lia|lia].
  - split; [intros _|intros _; now exists a]. split; [easy|]. split; [easy|]. cbv zeta in A7.
    destruct (text (port (uri_parts u))); [now left|right]. cbn [empty] in A7. lia.
Qed.

(** ** [get_view] *)

(** The parts of a full view: no userinfo, the scheme in lower case. *)
Definition view_parts (a : Address) : UrlParts :=
  let p := parts_ a in
  {| scheme := if has (scheme p) then part true (if secure_ a then HTTPS_SCHEME else HTTP_SCHEME) else no_part;
     userinfo := no_part; host := nonempty_part (text (host p));
     port := if default_port_ a then no_part else part true (print_hu (port_number_ a));
     path := part true (text (path p)); query := kept (has (query p)) (text (query p));
     fragment := kept (has (fragment p)) (text (fragment p)); authority := [] |}.

Lemma http_text (b : bool) : (if b then HTTPS_PREFIX else HTTP_PREFIX) = (if b then HTTPS_SCHEME else HTTP_SCHEME) ++ [SCHEME_SUFFIX].
Proof. now destruct b. Qed.

Lemma full_view a : text (host (parts_ a)) <> [] ->
  get_view a VW_FULL = Ret (assemble_url (view_parts a)).
Proof.
  intros N. unfold get_view, view_path.
  change (any_of VW_FULL VW_PROTOCOL) with true. change (any_of VW_FULL VW_HOSTNAME) with true.
  change (all_of VW_FULL VW_HOSTNAME_WWW) with false. change (any_of VW_FULL VW_PORT) with false.
  change (any_of VW_FULL VW_NDEF_PORT) with true. change (any_of VW_FULL VW_PATH) with true.
  change (all_of VW_FULL VW_STRIP_PATH) with false. change (any_of VW_FULL VW_QUERY) with true.
  change (any_of VW_FULL VW_FRAGMENT) with true. cbn [bind append_if andb orb app negb].
  f_equal. unfold assemble_url, assemble_authority, has_authority, view_parts, kept, nonempty_part.
  cbn [scheme userinfo host port path query fragment has text no_part append_if].
  destruct (text (host (parts_ a))) as [|c h] eqn:Eh; [easy|]. cbn [empty negb kept text has orb app append_if].
  rewrite http_text, ?orb_true_r, ?andb_true_r. cbn [append_if app].
  destruct (has (scheme (parts_ a))), (default_port_ a), (has (query (parts_ a))), (has (fragment (parts_ a))), (secure_ a);
    cbn [append_if app negb empty text has no_part HTTP_SCHEME HTTPS_SCHEME lit];
    rewrite ?app_nil_r, <- ?app_assoc; cbn [app]; rewrite <- ?app_assoc; reflexivity.
Qed.

Lemma port_range a : address_ok a -> 0 <= port_number_ a <= 65535.
Proof.
  intros H. pose proof (ok_port a H) as P. cbv zeta in P. destruct (empty _).
  - destruct P as [_ ->]. now destruct (secure_ a).
  - easy.
Qed.

Lemma view_parts_tidy a : address_ok a -> tidy (view_parts a).
Proof.
  intros H. destruct (print_hu_ok _ (port_range a H)) as (N & _). unfold tidy, view_parts.
  cbn [userinfo port query fragment scheme]. split; [easy|].
  split; [destruct (default_port_ a); [easy|]; cbn [has text]; now destruct (print_hu (port_number_ a))|].
  split; [now destruct (has (query (parts_ a)))|]. split; [now destruct (has (fragment (parts_ a)))|].
  now destruct (has (scheme (parts_ a))).
Qed.

Lemma view_parts_valid a : address_ok a -> valid_parts (view_parts a).
Proof.
  intros H. destruct (print_hu_ok _ (port_range a H)) as (_ & O & _).
  pose proof (ok_valid a H) as (V1 & V2 & V3 & V4 & V5 & V6 & V7 & V8). unfold valid_parts, view_parts.
  cbn [userinfo port query fragment scheme host path]. rewrite nonempty_text. split.
  { destruct (has (scheme (parts_ a))); [right|now left].
    destruct (secure_ a); eexists _, _; (split; [reflexivity|]); split; try reflexivity; repeat constructor. }
  split; [constructor|]. split; [intros E; now elim (ok_host a H)|]. split; [easy|].
  split; [destruct (default_port_ a); [constructor|exact O]|]. split; [exact V6|].
  split; [destruct (has (query (parts_ a))); [exact V7|constructor]|].
  destruct (has (fragment (parts_ a))); [exact V8|constructor].
Qed.

Lemma view_address_ok a : address_ok a ->
  address_ok (built (view_parts a) (strict_ a) (port_number_ a) (secure_ a) (default_port_ a)).
Proof.
  intros H. pose proof (port_range a H) as R. destruct (print_hu_ok _ R) as (N & O & D).
  assert (default_port_ a = empty (text (port (view_parts a)))) as Ed.
  { unfold view_parts. cbn [port]. destruct (default_port_ a); [easy|]. cbn [text]. now destruct (print_hu (port_number_ a)). }
  assert (text (path (parts_ a)) <> []) as Np.
  { destruct (ok_url a H) as (u & b & _ & _ & ->). cbn [set_path path text]. unfold or_default.
    now destruct (text (path (uri_parts u))). }
  assert (has (scheme (parts_ a)) = false -> text (scheme (parts_ a)) = []) as Ts.
  { destruct (ok_url a H) as (u & b & _ & _ & ->). apply (uri_parts_tidy u). }
  pose proof (ok_scheme a H) as Hs. pose proof (ok_secure a H) as Hsec. pose proof (ok_port a H) as Hp. cbv zeta in Hp.
  rewrite Ed. apply built_ok; auto using view_parts_tidy, view_parts_valid.
  - unfold view_parts. cbn [host]. rewrite nonempty_text. apply ok_host, H.
  - unfold view_parts. cbn [scheme]. destruct (has (scheme (parts_ a))).
    + destruct (secure_ a); [right; now left|now left].
    + now rewrite Ts in Hs by easy.
  - unfold view_parts. cbn [scheme]. destruct (has (scheme (parts_ a))); [now destruct (secure_ a)|].
    now rewrite Ts in Hsec by easy.
  - rewrite <- Ed. unfold view_parts. cbn [port]. destruct (default_port_ a) eqn:E; [|exact D].
    destruct (empty (text (port (parts_ a)))); [apply Hp|]. now destruct Hp.
Qed.

(** ** Properties *)

(** C24: Parsing a URL that is not empty into an [HTTPAddress] throws [InvalidURL] or gives an
    address, nothing else; the address has a host, a scheme that is http or
    https (or none, when not strict), legal parts that are the components of
    its URL, a port that is the number written or the default one of the
    scheme, and a URL of legal characters only. *)
Theorem http_address_invariant (url : list Z) (strict : bool)
  (N : url <> []) (B : is_bytes url) (S : size url < MAX_URL) :
  HTTPAddress_of_url url strict = Throw InvalidURL \/
  (exists a, HTTPAddress_of_url url strict = Ret a /\ address_ok a /\ strict_ a = strict /\ all_legal (url_ a)).
Proof.
  destruct (of_url_ok url strict N B S) as [H|(a & E & H & E1 & _)]; [now left|right].
  exists a. do 3 (split; [easy|]). now apply address_legal.
Qed.

Lemma http_address_invariant_witness :
  lit "ex.com/a b" <> [] /\
  exists a, HTTPAddress_of_url (lit "ex.com/a b") false = Ret a /\ url_ a = lit "http://ex.com/a%20b" /\ address_ok a.
Proof.
  split; [discriminate|].
  destruct (http_address_invariant (lit "ex.com/a b") false ltac:(discriminate) (lit_bytes _) eq_refl) as [H|(a & E & H & _)].
  - vm_compute in H. discriminate.
  - exists a. split; [exact E|]. split; [|exact H]. vm_compute in E. now injection E as <-.
Defined.

(** The URL of an address parses to the same address. *)
Theorem http_address_stable (url : list Z) (strict : bool) (a : Address)
  (N : url <> []) (B : is_bytes url) (S : size url < MAX_URL)
  (H : HTTPAddress_of_url url strict = Ret a) (Sa : size (url_ a) < MAX_URL) :
  exists a', HTTPAddress_of_url (url_ a) strict = Ret a' /\ forget_path_flag a' = forget_path_flag a.
Proof.
  destruct (of_url_ok url strict N B S) as [E|(a1 & E & Ok & <- & Ee & Ed)]; [congruence|].
  rewrite E in H. injection H as ->. now apply of_url_again.
Qed.

Lemma http_address_stable_witness :
  exists a a', HTTPAddress_of_url (lit "HTTP://u%@ex.com:81?a<b") false = Ret a /\
    url_ a = lit "HTTP://u%25@ex.com:81?a%3Cb" /\
    HTTPAddress_of_url (url_ a) false = Ret a' /\ forget_path_flag a' = forget_path_flag a.
Proof.
  destruct (HTTPAddress_of_url (lit "HTTP://u%@ex.com:81?a<b") false) as [a| |] eqn:E; [|vm_compute in E; discriminate..].
  assert (url_ a = lit "HTTP://u%25@ex.com:81?a%3Cb") as Eu by (vm_compute in E; now injection E as <-).
  destruct (http_address_stable (lit "HTTP://u%@ex.com:81?a<b") false a ltac:(discriminate) (lit_bytes _) eq_refl E) as (a' & E' & F).
  - rewrite Eu. reflexivity.
  - exists a, a'. exact (conj eq_refl (conj Eu (conj E' F))).
Defined.

(** C20: An address made of its parts without a host is the empty address,
    whatever the others are.  With a host, it throws [InvalidURL] exactly when
    the parts are not legal; otherwise it holds the parts given (the path "/" for
    an empty one), the URL that they make, and this URL parses to the same
    address.  The port is a number of 16 bits, and the URL is shorter than
    [MAX_URL], so that sizes do not wrap around. *)
Theorem http_address_roundtrip (host path query fragment : list Z) (port : Z) (secure : bool) (userinfo : list Z)
  (R : 0 <= port <= 65535) :
  let n := port_given port secure in
  let p := parts_given host path query fragment n secure userinfo in
  size (assemble_url p) < MAX_URL ->
  (host = [] ->
     HTTPAddress_of_parts host path query fragment port secure userinfo = Ret (default_address false)) /\
  (host <> [] ->
  (~ valid_parts p -> HTTPAddress_of_parts host path query fragment port secure userinfo = Throw InvalidURL) /\
  (valid_parts p -> exists a a',
     HTTPAddress_of_parts host path query fragment port secure userinfo = Ret a /\
     url_ a = assemble_url p /\ port_number_ a = n /\ secure_ a = secure /\
     get_text Url.host a = host /\ get_text Url.path a = or_default path /\ get_text Url.query a = query /\
     get_text Url.fragment a = fragment /\ get_text Url.userinfo a = userinfo /\
     HTTPAddress_of_url (url_ a) false = Ret a' /\ forget_path_flag a' = forget_path_flag a)).
Proof.
  cbv zeta. intros S. split; [now intros ->|intros N].
  destruct (of_parts_ok host path query fragment port secure userinfo N R (Z.lt_trans _ _ _ S MAX_URL_NPOS)) as [E1 E2].
  split; [exact E2|]. intros V. rewrite (E1 V). pose proof (port_given_range port secure R) as Rn.
  set (n := port_given port secure) in *. set (p := parts_given host path query fragment n secure userinfo) in *.
  assert (address_ok (built p false n secure (empty (text (Url.port p))))) as Ok.
  { apply built_ok; try easy.
    - apply UrlParts_new_tidy.
    - cbn. unfold or_default. now destruct path.
    - cbn. destruct secure; [right; now left|now left].
    - cbn. now destruct secure.
    - pose proof (parts_given_port host path query fragment n secure userinfo Rn) as Ep. fold p in Ep. rewrite Ep.
      destruct (Z.eqb_spec n (get_default_port_ secure)) as [|Nd]; [easy|].
      unfold p, parts_given, UrlParts_new, Part_new. cbn [Url.port text].
      destruct (Z.eqb_spec n (get_default_port_ secure)); [easy|]. now apply print_hu_ok. }
  destruct (of_url_again _ Ok S eq_refl eq_refl) as (a' & E' & F).
  exists (built p false n secure (empty (text (Url.port p)))), a'. split; [reflexivity|].
  unfold get_text, built, p, parts_given, UrlParts_new, Part_new, adjusted. cbn [url_ port_number_ secure_ parts_ Url.host Url.path Url.query Url.fragment Url.userinfo text has].
  rewrite !nonempty_text. repeat split; try easy; [now destruct query|now destruct fragment].
Qed.

Lemma http_address_roundtrip_witness :
  (exists a a', HTTPAddress_of_parts (lit "ex.com") (lit "/p") (lit "q=1") [] 8080 true (lit "u:p") = Ret a /\
    url_ a = lit "https://u:p@ex.com:8080/p?q=1" /\
    HTTPAddress_of_url (url_ a) false = Ret a' /\ forget_path_flag a' = forget_path_flag a) /\
  HTTPAddress_of_parts [] (lit "<") [] [] 8080 true [] = Ret (default_address false).
Proof.
  split; [|apply (http_address_roundtrip [] (lit "<") [] [] 8080 true []); [split; discriminate|reflexivity..]].
  destruct (http_address_roundtrip (lit "ex.com") (lit "/p") (lit "q=1") [] 8080 true (lit "u:p")) as (_ & H);
    [split; discriminate|reflexivity|].
  destruct (H ltac:(discriminate)) as [_ H'].
  destruct H' as (a & a' & E & Eu & _ & _ & _ & _ & _ & _ & _ & E' & F).
  - destruct (url_checker_ok [] (parts_given (lit "ex.com") (lit "/p") (lit "q=1") [] 8080 true (lit "u:p"))) as (e & E & V).
    apply V. vm_compute in E. now injection E as <-.
  - exists a, a'. split; [exact E|]. split; [rewrite Eu; reflexivity|]. split; [exact E'|exact F].
Defined.

(** C25: A strict [HTTPChecker] accepts a URL that is not empty exactly when an [HTTPAddress] can
    be made of it, a port of more than 65535 aside, which only the address
    refuses. *)
Theorem http_checker_agrees (url : list Z) (N : url <> []) (B : is_bytes url) (S : size url < MAX_URL) :
  exists p error, split_url url = Ret p /\ HTTPChecker HTTPChecker_process_parts_ url true = Ret error /\
    ((exists a, HTTPAddress_of_url url true = Ret a) <->
     error = None /\ (text (port p) = [] \/ dec_from 0 (text (port p)) <= 65535)).
Proof.
  destruct (split_url_parts url (Z.lt_trans _ _ _ S MAX_URL_NPOS)) as (u & W & E & Sp).
  pose proof (of_url_strict url u N B S W E) as H. cbv zeta in H.
  unfold HTTPChecker. assert (empty url = false) as -> by now destruct url. rewrite Sp.
  cbn [bind negb andb HTTPChecker_process_parts_].
  pose proof (components_ok url (text (scheme (uri_parts u))) (text (host (uri_parts u))) true) as C.
  destruct (url_checker_ok url (uri_parts u)) as (err & -> & Hv).
  destruct (check_http_url_components _ _ _ true) as [e|].
  - eexists _, _. split; [reflexivity|]. split; [reflexivity|]. rewrite H, <- C. split; [intros ([=] & _)|intros ([=] & _)].
  - exists (uri_parts u), err. split; [reflexivity|]. split; [reflexivity|]. rewrite H, <- C, <- Hv. tauto.
Qed.

Lemma http_checker_agrees_witness :
  HTTPChecker HTTPChecker_process_parts_ (lit "http://a:65536/") true = Ret None /\
  (exists a, HTTPAddress_of_url (lit "http://a:65535/") true = Ret a).
Proof.
  split; [vm_compute; reflexivity|].
  destruct (http_checker_agrees (lit "http://a:65535/") ltac:(discriminate) (lit_bytes _) eq_refl) as (p & e & Ep & Ee & H).
  apply H. vm_compute in Ep, Ee. injection Ep as <-. injection Ee as <-. split; [reflexivity|right; vm_compute; discriminate].
Defined.

(** The full view of an address is a URL that parses to an address with the
    same host, port, path, query and fragment and the same security; only the
    userinfo is gone. *)
Theorem http_view_roundtrip (url : list Z) (strict : bool) (a : Address)
  (N : url <> []) (B : is_bytes url) (S : size url < MAX_URL)
  (H : HTTPAddress_of_url url strict = Ret a) :
  exists v, get_view a VW_FULL = Ret v /\
    (size v < MAX_URL -> exists a', HTTPAddress_of_url v strict = Ret a' /\
       url_ a' = v /\ get_text userinfo a' = [] /\
       get_text host a' = get_text host a /\ get_text path a' = get_text path a /\
       kept (has (query (parts_ a'))) (get_text query a') = kept (has (query (parts_ a))) (get_text query a) /\
       kept (has (fragment (parts_ a'))) (get_text fragment a') = kept (has (fragment (parts_ a))) (get_text fragment a) /\
       port_number_ a' = port_number_ a /\ secure_ a' = secure_ a).
Proof.
  destruct (of_url_ok url strict N B S) as [E|(a1 & E & Ok & <- & Ee & Ed)]; [congruence|].
  rewrite E in H. injection H as ->. exists (assemble_url (view_parts a)).
  split; [apply full_view, ok_host, Ok|]. intros Sv.
  destruct (of_url_again _ (view_address_ok a Ok) Sv eq_refl eq_refl) as (a' & E' & F).
  exists a'. split; [exact E'|]. destruct a' as [url' q st n sec def enc dec].
  unfold forget_path_flag, with_parts, built, set_path in F.
  cbn [url_ parts_ strict_ port_number_ secure_ default_port_ encoded_host_ decoded_host_] in F.
  injection F as -> F1 F2 F3 F4 F5 F6 F7 F8 -> -> -> -> -> ->. unfold get_text. cbn [parts_ url_ port_number_ secure_].
  split; [easy|].
  rewrite F2, F3, F5, F6, F7. unfold view_parts, adjusted. cbn [userinfo host path query fragment]. rewrite !nonempty_text.
  repeat split; [now destruct (has (query (parts_ a)))|now destruct (has (fragment (parts_ a)))].
Qed.

Lemma http_view_roundtrip_witness :
  exists a a', HTTPAddress_of_url (lit "HTTPS://u:p@ex.com:444?q#f") true = Ret a /\
    get_view a VW_FULL = Ret (lit "https://ex.com:444/?q#f") /\
    HTTPAddress_of_url (lit "https://ex.com:444/?q#f") true = Ret a' /\ get_text host a' = get_text host a.
Proof.
  destruct (HTTPAddress_of_url (lit "HTTPS://u:p@ex.com:444?q#f") true) as [a| |] eqn:E; [|vm_compute in E; discriminate..].
  destruct (http_view_roundtrip (lit "HTTPS://u:p@ex.com:444?q#f") true a ltac:(discriminate) (lit_bytes _) eq_refl E)
    as (v & Ev & H).
  assert (v = lit "https://ex.com:444/?q#f") as -> by (vm_compute in E; injection E as <-; vm_compute in Ev; now injection Ev).
  destruct (H eq_refl) as (a' & E' & _ & _ & Eh & _). exists a, a'. exact (conj eq_refl (conj Ev (conj E' Eh))).
Defined.

(** Assigning an address to itself clears the parts before their lengths are
    read: the URL stays, the parts are lost. *)
Example self_assignment :
  match HTTPAddress_of_url (lit "http://ex.com/a?b") true with
  | Ret a =>
      let (r, a) := assign_url_parts_ true (parts_ a) false a in
      (url_ a, get_text scheme a, get_text host a, get_text path a, has (query (parts_ a)))
  | _ => ([], [], [], [], true)
  end = (lit "http://ex.com/a?b", [], [], [], false).
Proof. vm_compute. reflexivity. Qed.

(** The stripped path of an address that was never assigned reads before the
    beginning of the path. *)
Example strip_empty_path : get_view (default_address true) VW_STRIP_PATH = Undef.
Proof. reflexivity. Qed.

(** A copy is assembled from the parts, so it has the default path that the
    URL of the original lacks. *)
Example copy_has_another_url :
  match HTTPAddress_of_url (lit "http://ex.com?b") true with
  | Ret a => (url_ a, url_ (snd (copy_assign a (default_address true))))
  | _ => ([], [])
  end = (lit "http://ex.com?b", lit "http://ex.com/?b").
Proof. vm_compute. reflexivity. Qed.
