(* ===== verification/Cookie.v ===== *)
(** * Cookie: src/src/HTTP/HTTPCookie.hpp and HTTPCookie.cpp

    The lists of cookies of a client ([CookieDefList], [ClientCookieFacility]:
    they differ in who owns the texts and in [keep_expired_]), which load
    [Set-Cookie] headers and write [Cookie] and [Set-Cookie] ones, and the list
    of a server ([CookieList]), which loads [Cookie] headers.  A text is the
    list of its octets.  A function that may throw returns the exception beside
    the list as it is then.  Words and integers are read from a [Stream::Parser]
    with the operators of [std::istream], in the C locale.  The clock is an
    argument: the times that successive calls of [get_time_of_day] return. *)

From Stdlib Require Import ZArith List Bool Lia.
From S2P Require Import Prelude Ascii Numbers Text Time Calendar TimeFormat SubString Url HttpAddress.
Import ListNotations.

(** ** Headers and cookies *)

Record Header : Type := mkHeader { h_name : list Z; h_value : list Z }.

Record Cookie : Type := mkCookie { name : list Z; value : list Z }.

Record CookieDef : Type := mkCookieDef {
  base : Cookie;
  domain : list Z;
  path : list Z;
  expires : Time;
  secure : bool }.

Definition TIME_ZERO : Time := mkTime 0 0.

Definition CookieDef_new : CookieDef := mkCookieDef (mkCookie [] []) [] [] TIME_ZERO false.

Definition set_name_value (n v : list Z) (c : CookieDef) : CookieDef :=
  mkCookieDef (mkCookie n v) (domain c) (path c) (expires c) (secure c).
Definition set_domain (d : list Z) (c : CookieDef) : CookieDef :=
  mkCookieDef (base c) d (path c) (expires c) (secure c).
Definition set_cookie_path (p : list Z) (c : CookieDef) : CookieDef :=
  mkCookieDef (base c) (domain c) p (expires c) (secure c).
Definition set_expires (t : Time) (c : CookieDef) : CookieDef :=
  mkCookieDef (base c) (domain c) (path c) t (secure c).
Definition set_secure (b : bool) (c : CookieDef) : CookieDef :=
  mkCookieDef (base c) (domain c) (path c) (expires c) b.

Definition SECURE : list Z := lit "secure".
Definition PATH : list Z := lit "path".
Definition CDOMAIN : list Z := lit "domain".
Definition EXPIRES : list Z := lit "expires".
Definition SET_COOKIE : list Z := lit "Set-Cookie".
Definition COOKIE : list Z := lit "Cookie".
Definition DEFAULT_PATH : list Z := lit "/".

(** [str == Caseless(this)]. *)
Definition ci_equal (this str : list Z) : bool := Caseless_equal false this str.

Fixpoint same_text (s t : list Z) : bool :=
  match s, t with
  | [], [] => true
  | c :: s', d :: t' => (c =? d) && same_text s' t'
  | _, _ => false
  end.

(** ** Reading an expiration time *)

(** [istr >> word]: white space, then the octets up to the next white space. *)
Definition read_word (s : list Z) : option (list Z * list Z) :=
  let '(w, rest) := span (fun c => negb (isspace c)) (snd (span isspace s)) in
  match w with [] => None | _ => Some (w, rest) end.

(** [parser >> number; if (!parser || !parser.eof())]: the whole token is a
    number of type [int]. *)
Definition read_int (token : list Z) : option Z :=
  let s := snd (span isspace token) in
  let '(sign, digits) :=
    match s with
    | c :: s' => if c =? chr "-" then (-1, s') else if c =? chr "+" then (1, s') else (1, s)
    | [] => (1, [])
    end in
  match digits with
  | [] => None
  | _ => let v := sign * dec_from 0 digits in
         if forallb is_digit digits && (- 2 ^ 31 <=? v) && (v <? 2 ^ 31) then Some v else None
  end.

Definition need {A} (o : option A) : outcome A :=
  match o with Some a => Ret a | None => Throw InvalidArgument end.

(** [Time::month(name)]: the number of a month. *)
Fixpoint month_index (i : Z) (names : list (list Z)) (mon : list Z) : option Z :=
  match names with
  | [] => None
  | n :: names' => if ci_equal n mon then Some i else month_index (i + 1) names' mon
  end.

Definition Time_month (mon : list Z) : outcome Z :=
  if empty mon then Throw InvalidArgument else need (month_index 0 MONTHS mon).

(** A text split by [SplitMinus] or [SplitColon]: the first three tokens. *)
Definition next_token (sep : Z) (s : list Z) : option (list Z * list Z) :=
  get_token (Char1 sep) false s.

Definition get_date (date : list Z) : outcome (Z * Z * Z) :=
  match next_token (chr "-") date with
  | None => Ret (0, 0, 0)
  | Some (token, rest) =>
      day <- need (read_int token) ;;
      match next_token (chr "-") rest with
      | None => Ret (day, 0, 0)
      | Some (token, rest) =>
          month <- Time_month token ;;
          match next_token (chr "-") rest with
          | None => Ret (day, month + 1, 0)
          | Some (token, _) =>
              year <- need (read_int token) ;;
              Ret (day, month + 1, if year <? 100 then year + 2000 else year)
          end
      end
  end.

Definition get_clock (time : list Z) : outcome (Z * Z * Z) :=
  match next_token (chr ":") time with
  | None => Ret (0, 0, 0)
  | Some (token, rest) =>
      hours <- need (read_int token) ;;
      match next_token (chr ":") rest with
      | None => Ret (hours, 0, 0)
      | Some (token, rest) =>
          minutes <- need (read_int token) ;;
          match next_token (chr ":") rest with
          | None => Ret (hours, minutes, 0)
          | Some (token, _) =>
              seconds <- need (read_int token) ;; Ret (hours, minutes, seconds)
          end
      end
  end.

(** [ExtendedTime(year, month, day, hour, min, sec, 0)] converted to [Time]:
    [tm_hour * 3600] and [tm_min * 60] are products of [int]s. *)
Definition int_product (z : Z) : bool := (- 2 ^ 31 <=? z) && (z <? 2 ^ 31).

Definition ExtendedTime_date (year month day hour min sec : Z) : outcome Time :=
  if int_product (hour * 3600) && int_product (min * 60) then
    t <- gm_to_time (mkTm sec min hour day (month - 1) (year - 1900) 0 0) ;;
    t' <- gm_to_time (time_to_gm t) ;;
    Ret (mkTime t' 0)
  else Undef.

Definition get_expires (value : list Z) : outcome Time :=
  '(_, rest) <- need (read_word value) ;;
  '(date, rest) <- need (read_word rest) ;;
  '(time, _) <- need (read_word rest) ;;
  '(day, month, year) <- get_date date ;;
  if (day <? 1) || (31 <? day) || (month <? 1) || (12 <? month) || (year <? 1900)
  then Throw InvalidArgument
  else
    '(hours, minutes, seconds) <- get_clock time ;;
    ExtendedTime_date year month day hours minutes seconds.

(** ** Loading Set-Cookie headers *)

(** [it->domain == Caseless(cookie.domain) && it->path == cookie.path &&
    it->name == cookie.name] *)
Definition same_cookie (cookie it : CookieDef) : bool :=
  ci_equal (domain cookie) (domain it) && same_text (path it) (path cookie) &&
  same_text (name (base it)) (name (base cookie)).

(** The loop over the list: the first cookie that is the same is replaced or
    erased; [None] if there is none.  (After erasing it the code compares the
    erased iterator with [end()]; whatever that gives, nothing is added, since
    the cookie is expired.) *)
Fixpoint replace_cookie (drop : bool) (cookie : CookieDef) (cookies : list CookieDef) : option (list CookieDef) :=
  match cookies with
  | [] => None
  | it :: rest =>
      if same_cookie cookie it then Some (if drop then rest else cookie :: rest)
      else match replace_cookie drop cookie rest with
           | None => None
           | Some rest' => Some (it :: rest')
           end
  end.

Definition store (expired keep_expired : bool) (cookie : CookieDef) (cookies : list CookieDef)
  : list CookieDef :=
  match replace_cookie (expired && negb keep_expired) cookie cookies with
  | Some cookies' => cookies'
  | None => if negb expired || keep_expired then cookie :: cookies else cookies
  end.

(** The variables of the loop over a header. *)
Record parse_state : Type := mkParse {
  p_list : list CookieDef;
  p_cookie : CookieDef;
  control_info : bool;
  expired : bool;
  ticks : nat }.

Section Load.
Context (clock : nat -> Time) (url_address : Address) (keep_expired : bool).

(** The defaults of the attributes, once the first cookie is met. *)
Definition set_defaults (cookie : CookieDef) : CookieDef :=
  let cookie :=
    if empty (path cookie) then set_cookie_path (get_text Url.path url_address) cookie
    else if same_text (path cookie) (lit "\") then set_cookie_path DEFAULT_PATH cookie
    else cookie in
  if empty (domain cookie) || same_text (domain cookie) (lit ".")
  then set_domain (get_text Url.host url_address) cookie else cookie.

(** A name that is an attribute's, while attributes are read. *)
Definition parse_control (name value : list Z) (st : parse_state) : outcome parse_state :=
  let cookie := p_cookie st in
  let attribute c := Ret (mkParse (p_list st) c true (expired st) (ticks st)) in
  if ci_equal SECURE name then attribute (set_secure true cookie)
  else if ci_equal PATH name then attribute (set_cookie_path value cookie)
  else if ci_equal CDOMAIN name then attribute (set_domain value cookie)
  else if ci_equal EXPIRES name then
    t <- get_expires value ;;
    Ret (mkParse (p_list st) (set_expires t cookie) true (time_lt t (clock (ticks st))) (S (ticks st)))
  else Ret (mkParse (p_list st) (set_defaults cookie) false (expired st) (ticks st)).

(** What [parse_value] does with the name and the value of a segment. *)
Definition parse_named (name value : list Z) (st : parse_state) : outcome parse_state :=
  if empty name then Ret st
  else
    st <- (if control_info st then parse_control name value st else Ret st) ;;
    if control_info st then Ret st
    else
      let cookie := set_name_value name value (p_cookie st) in
      Ret (mkParse (store (expired st) keep_expired cookie (p_list st)) cookie false (expired st) (ticks st)).

(** [parse_value]: [segment] is the text between two separators, [sep] the part
    of it after the first equals sign. *)
Definition parse_value (segment : list Z) (sep : option (list Z)) (st : parse_state)
  : outcome parse_state :=
  let name := trim (table_owned SPACE)
    (match sep with
     | Some v => firstn (length segment - S (length v)) segment
     | None => segment
     end) in
  let value := match sep with Some v => trim (table_owned SPACE) v | None => [] end in
  parse_named name value st.

(** The loop from the end of the header: [rev_rest] is what is to the left,
    [segment] what is between it and the separator to the right, [begun] tells
    that this is not the first turn. *)
Fixpoint parse_loop (rev_rest segment : list Z) (sep : option (list Z)) (begun : bool) (st : parse_state)
  : outcome parse_state :=
  match rev_rest with
  | [] => if begun then parse_value segment sep st else Ret st
  | c :: rest =>
      if c =? chr ";" then
        st <- (if begun then parse_value segment sep st else Ret st) ;;
        parse_loop rest [] None true st
      else if c =? chr "=" then parse_loop rest (c :: segment) (Some segment) true st
      else parse_loop rest (c :: segment) sep true st
  end.

Definition parse_header (header : list Z) (cookies : list CookieDef) (ticks : nat) : outcome parse_state :=
  parse_loop (rev header) [] None false
    (mkParse cookies (set_secure (secure_ url_address) CookieDef_new) true false ticks).

(** [load_from_headers]: an exception leaves the cookies of the headers before. *)
Fixpoint load_from_headers (headers : list Header) (cookies : list CookieDef) (ticks : nat)
  : outcome (list CookieDef * option exn) :=
  match headers with
  | [] => Ret (cookies, None)
  | h :: headers' =>
      if negb (ci_equal SET_COOKIE (h_name h)) then load_from_headers headers' cookies ticks
      else
        match parse_header (h_value h) cookies ticks with
        | Ret st => load_from_headers headers' (p_list st) (Cookie.ticks st)
        | Throw e => Ret (cookies, Some e)
        | Undef => Undef
        end
  end.
End Load.

(** ** Writing *)

(** [%i] and [%0<w>i] of [snprintf]. *)
Definition dec_text (z : Z) : list Z := rev (digits_loop 20 z).
Definition print_int (w : nat) (z : Z) : list Z :=
  let sign := if z <? 0 then [chr "-"] else [] in
  let digits := dec_text (Z.abs z) in
  sign ++ repeat (chr "0") (w - length sign - length digits) ++ digits.

(** [Time::week_day(day)] and [Time::month(month)] take [unsigned]: a negative
    number is a large one. *)
Definition name_of (names : list (list Z)) (i : Z) : outcome (list Z) :=
  if (i <? 0) || (Z.of_nat (length names) <=? i) then Throw InvalidArgument
  else rd names (Z.to_nat i).

Definition cookie_date (time : Time) (show_usec : bool) : outcome (list Z) :=
  let tm := time_to_gm (tv_sec time) in
  wday <- name_of DAY_NAMES (tm_wday tm) ;;
  mon <- name_of MONTHS (tm_mon tm) ;;
  Ret (wday ++ lit ", " ++ print_int 1 (tm_mday tm) ++ lit "-" ++ mon ++ lit "-" ++
       print_int 1 (tm_year tm + 1900) ++ lit " " ++ print_int 2 (tm_hour tm) ++ lit ":" ++
       print_int 2 (tm_min tm) ++ lit ":" ++ print_int 2 (tm_sec tm) ++
       (if show_usec && negb (tv_usec time =? 0)
        then lit "." ++ print_int 6 (tv_usec time) ++ lit " GMT"
        else lit " GMT")).

Definition pair_text (c : Cookie) : list Z := name c ++ lit "=" ++ value c.

(** The attributes that follow the names and values. *)
Definition attributes (c : CookieDef) : outcome (list Z) :=
  e <- (if time_ne (expires c) TIME_ZERO
        then d <- cookie_date (expires c) false ;; Ret (lit "; expires=" ++ d)
        else Ret []) ;;
  Ret (e ++ (if negb (empty (domain c)) then lit "; domain=" ++ domain c else []) ++
       (if negb (empty (path c)) then lit "; path=" ++ path c else []) ++
       (if secure c then lit "; secure" else [])).

Definition cookie_header_plain (c : CookieDef) : outcome (list Z) :=
  a <- attributes c ;; Ret (pair_text (base c) ++ a).

(** [result << "; "] between the pairs. *)
Fixpoint join (texts : list (list Z)) : list Z :=
  match texts with
  | [] => []
  | [t] => t
  | t :: texts' => t ++ lit "; " ++ join texts'
  end.

(** One [Set-Cookie] header for each cookie; the headers before an exception
    are there when it is thrown. *)
Fixpoint set_cookie_header_plain (cookies : list CookieDef) (headers : list Header)
  : list Header * outcome unit :=
  match cookies with
  | [] => (headers, Ret tt)
  | c :: cookies' =>
      match cookie_header_plain c with
      | Ret h => set_cookie_header_plain cookies' (headers ++ [mkHeader SET_COOKIE h])
      | Throw e => (headers, Throw e)
      | Undef => (headers, Undef)
      end
  end.

(** One header for the cookies that have the attributes of the first: these are
    taken out of the list, which the code walks once for each header. *)
Definition same_attributes (cookie it : CookieDef) : bool :=
  ci_equal (domain it) (domain cookie) && same_text (path it) (path cookie) &&
  time_eq (expires it) (expires cookie) && Bool.eqb (secure it) (secure cookie).

Fixpoint set_cookie_loop (fuel : nat) (cookies : list CookieDef) (headers : list Header)
  : list Header * outcome unit :=
  match cookies with
  | [] => (headers, Ret tt)
  | cookie :: _ =>
      match fuel with
      | O => (headers, Undef)
      | S fuel' =>
          let '(group, rest) := partition (same_attributes cookie) cookies in
          match attributes cookie with
          | Ret a => set_cookie_loop fuel' rest
                       (headers ++ [mkHeader SET_COOKIE (join (map (fun c => pair_text (base c)) group) ++ a)])
          | Throw e => (headers, Throw e)
          | Undef => (headers, Undef)
          end
      end
  end.

Definition set_cookie_header (cookies : list CookieDef) (headers : list Header)
  : list Header * outcome unit :=
  set_cookie_loop (length cookies) cookies headers.

(** ** Sending *)

Definition expire (session_cookies : bool) (now : Time) (cookies : list CookieDef) : list CookieDef :=
  List.filter (fun it => negb (if time_eq (expires it) TIME_ZERO then session_cookies
                          else time_lt (expires it) now)) cookies.

(** Whether the cookie goes with a request for the address. *)
Definition sent_to (url_address : Address) (it : CookieDef) : bool :=
  let host := get_text Url.host url_address in
  let url_path := get_text Url.path url_address in
  negb ((secure it && negb (secure_ url_address)) || (length host <? length (domain it))%nat) &&
  ci_equal (domain it) (skipn (length host - length (domain it)) host) &&
  same_text (firstn (length (path it)) url_path) (path it).

Definition cookie_header (cookies : list CookieDef) (url_address : Address) : list Z :=
  join (map (fun c => pair_text (base c)) (List.filter (sent_to url_address) cookies)).

(** The members of the two classes: the list, and [keep_expired_] (false for
    [ClientCookieFacility]). *)
Definition expire_ (keep_expired_ session_cookies : bool) (now : Time) (cookies : list CookieDef)
  : list CookieDef :=
  if keep_expired_ then cookies else expire session_cookies now cookies.

Definition list_cookie_header (keep_expired_ : bool) (now : Time) (cookies : list CookieDef)
    (url_address : Address) : list CookieDef * list Z :=
  let cookies := expire_ keep_expired_ false now cookies in
  (cookies, cookie_header cookies url_address).

Definition end_session (now : Time) (cookies : list CookieDef) : list CookieDef :=
  expire true now cookies.

(** ** CookieList: the cookies a server receives *)

(** [CookieSep::find_owned]: a semicolon or a comma with a space after it. *)
Fixpoint cookie_sep (s : list Z) : nat :=
  match s with
  | [] => 0
  | c :: next =>
      if negb (c =? chr ";") && negb (c =? chr ",") then S (cookie_sep next)
      else match next with
           | [] => 1
           | d :: _ => if d =? chr " " then 0 else S (cookie_sep next)
           end
  end.

(** The tokens of [Splitter<CookieSep, true>]. *)
Fixpoint cookie_tokens (fuel : nat) (s : list Z) : outcome (list (list Z)) :=
  match s with
  | [] => Ret []
  | _ =>
      match fuel with
      | O => Undef
      | S fuel' =>
          let separator := cookie_sep s in
          let rest := if (separator =? length s)%nat then [] else skipn (separator + 2) s in
          ts <- cookie_tokens fuel' rest ;; Ret (firstn separator s :: ts)
      end
  end.

Fixpoint set_value (n v : list Z) (cookies : list Cookie) : option (list Cookie) :=
  match cookies with
  | [] => None
  | it :: rest =>
      if same_text n (name it) then Some (mkCookie (name it) v :: rest)
      else match set_value n v rest with None => None | Some rest' => Some (it :: rest') end
  end.

(** One token: [it = replace_duplicate ? end() : begin()] is where the search
    for a cookie of that name starts. *)
Definition load_token (replace_duplicate : bool) (cookie : list Z) (cookies : list Cookie)
  : list Cookie + exn :=
  if empty cookie then inl cookies
  else
    let pos := find_owned (Char1 (chr "=")) cookie in
    if (pos =? length cookie)%nat then inr InvalidArgument
    else
      let n := trim (table_owned SPACE) (firstn pos cookie) in
      if empty n then inr InvalidArgument
      else
        let v := trim (table_owned SPACE) (skipn (pos + 1) cookie) in
        inl (match (if replace_duplicate then None else set_value n v cookies) with
             | Some cookies' => cookies'
             | None => cookies ++ [mkCookie n v]
             end).

Fixpoint load_tokens (replace_duplicate : bool) (tokens : list (list Z)) (cookies : list Cookie)
  : list Cookie * option exn :=
  match tokens with
  | [] => (cookies, None)
  | t :: tokens' =>
      match load_token replace_duplicate t cookies with
      | inl cookies' => load_tokens replace_duplicate tokens' cookies'
      | inr e => (cookies, Some e)
      end
  end.

Fixpoint CookieList_load (replace_duplicate : bool) (headers : list Header) (cookies : list Cookie)
  : outcome (list Cookie * option exn) :=
  match headers with
  | [] => Ret (cookies, None)
  | h :: headers' =>
      if negb (ci_equal COOKIE (h_name h)) then CookieList_load replace_duplicate headers' cookies
      else
        let header := trim (table_owned SPACE) (h_value h) in
        tokens <- cookie_tokens (length header) header ;;
        match load_tokens replace_duplicate tokens cookies with
        | (cookies', None) => CookieList_load replace_duplicate headers' cookies'
        | (cookies', Some e) => Ret (cookies', Some e)
        end
  end.

Definition CookieList_cookie_header (cookies : list Cookie) : list Z := join (map pair_text cookies).

(** ** Runs *)

Definition acc_address : Address :=
  match HTTPAddress_of_url (lit "http://acc.adintelligence.net/hserver/x?k=1") true with
  | Ret a => a
  | _ => default_address true
  end.

Definition noon (_ : nat) : Time := mkTime 1400000000 0.

Definition test_headers : list Header :=
  [mkHeader SET_COOKIE (lit "LE1=V1; LE3=V3; expires=Wed 03-Aug-2005 13:01:59 GMT; path=\; domain=.");
   mkHeader SET_COOKIE (lit "le1=v1; le3=v3; expires=Wed 03-Aug-2015 13:01:59 GMT; path=\; domain=.");
   mkHeader SET_COOKIE (lit "LE1=V11; LE3=V33; expires=Mon 28-Feb-2015 23:50:59 GMT; path=\; domain=.adintelligence.net")].

Definition loaded : list CookieDef :=
  match load_from_headers noon acc_address false test_headers [] 0 with
  | Ret (l, None) => l
  | _ => []
  end.

Example load_test :
  map (fun c => (pair_text (base c), domain c, path c)) loaded =
  [(lit "LE1=V11", lit ".adintelligence.net", lit "/"); (lit "LE3=V33", lit ".adintelligence.net", lit "/");
   (lit "le1=v1", lit "acc.adintelligence.net", lit "/"); (lit "le3=v3", lit "acc.adintelligence.net", lit "/")].
Proof. vm_compute. reflexivity. Qed.

Example send_test :
  cookie_header loaded acc_address = lit "LE1=V11; LE3=V33; le1=v1; le3=v3".
Proof. vm_compute. reflexivity. Qed.

Example set_test :
  set_cookie_header loaded [] =
  ([mkHeader SET_COOKIE (lit "LE1=V11; LE3=V33; expires=Sat, 28-Feb-2015 23:50:59 GMT; domain=.adintelligence.net; path=/");
    mkHeader SET_COOKIE (lit "le1=v1; le3=v3; expires=Mon, 3-Aug-2015 13:01:59 GMT; domain=acc.adintelligence.net; path=/")],
   Ret tt).
Proof. vm_compute. reflexivity. Qed.

Example list_test :
  CookieList_load false
    [mkHeader COOKIE (lit "LE1=V1; LE3=V3"); mkHeader COOKIE (lit "LE1=V1; LE3=V3, LE2=V2; LE3=V33");
     mkHeader (lit "cookie") (lit "a=b,; c=d;, e=f;")] [] =
  Ret ([mkCookie (lit "LE1") (lit "V1"); mkCookie (lit "LE3") (lit "V33"); mkCookie (lit "LE2") (lit "V2");
        mkCookie (lit "a") (lit "b,"); mkCookie (lit "c") (lit "d;"); mkCookie (lit "e") (lit "f;")], None).
Proof. vm_compute. reflexivity. Qed.
