(* ===== verification/CookieProps.v ===== *)
(** * CookieProps: what the lists of cookies keep, send and read back *)

From Stdlib Require Import ZArith List Bool Lia Permutation.
From S2P Require Import Prelude Ascii Numbers Text Time Calendar TimeFormat SubString Url HttpAddress Cookie.
Import ListNotations.

(** ** Texts *)

Lemma same_text_iff s t : same_text s t = true <-> s = t.
Proof.
  revert t. induction s as [|c s IH]; intros [|d t]; cbn; try easy.
  rewrite andb_true_iff, Z.eqb_eq, IH. split; [intros [-> ->]; easy|now intros [= -> ->]].
Qed.

Lemma ci_equal_iff s t : ci_equal s t = true <-> map to_lower s = map to_lower t.
Proof. apply Caseless_equal_iff. Qed.

Lemma ci_equal_refl s : ci_equal s s = true.
Proof. now apply ci_equal_iff. Qed.

(** A text without white space at its ends. *)
Definition trimmed (s : list Z) : Prop :=
  match s with [] => True | c :: _ => isspace c = false end /\
  match rev s with [] => True | c :: _ => isspace c = false end.

Lemma space_table c : table_owned SPACE c = isspace c.
Proof.
  destruct (Z.ltb_spec c 0) as [Hn|Hn].
  - unfold table_owned, isspace. replace (Z.to_nat c) with 0%nat by lia.
    change (nth 0 SPACE false) with false. lia.
  - destruct (Z.ltb_spec c 256) as [Hl|Hl].
    + apply eqb_prop. revert c Hn Hl.
      enough (forall c, is_byte c -> Bool.eqb (table_owned SPACE c) (isspace c) = true)
        by (unfold is_byte in *; auto).
      apply (byte_forall (fun c => Bool.eqb (table_owned SPACE c) (isspace c))). reflexivity.
    + unfold table_owned, isspace. rewrite nth_overflow; [lia|].
      change (length SPACE) with 256%nat. lia.
Qed.

Lemma find_nonowned_app p a r : Forall (fun c => p c = true) a ->
  find_nonowned p (a ++ r) = (length a + find_nonowned p r)%nat.
Proof. induction 1 as [|c a H _ IH]; [easy|]. cbn [app find_nonowned length]. now rewrite H, IH. Qed.

Lemma trim_end_app p a r : Forall (fun c => p c = true) a -> trim_end p (a ++ r) = trim_end p r.
Proof. induction 1 as [|c a H _ IH]; [easy|]. cbn [app trim_end]. now rewrite H. Qed.

(** White space around a trimmed text is what [trim] takes away. *)
Lemma trim_around a s b :
  trimmed s -> Forall (fun c => isspace c = true) a -> Forall (fun c => isspace c = true) b ->
  trim (table_owned SPACE) (a ++ s ++ b) = s.
Proof.
  intros [Hf Hl] Ha Hb. assert (Hsp : forall l, Forall (fun c => isspace c = true) l ->
    Forall (fun c => table_owned SPACE c = true) l).
  { intros l. apply Forall_impl. intros c. now rewrite space_table. }
  apply Hsp in Ha. apply Hsp in Hb. unfold trim. destruct s as [|c s].
  - assert (Hab : Forall (fun c => table_owned SPACE c = true) (a ++ b)) by now apply Forall_app.
    pose proof (find_nonowned_app _ _ [] Hab) as Hn. rewrite app_nil_r, Nat.add_0_r in Hn.
    cbn [app]. now rewrite Hn, Nat.eqb_refl, skipn_all.
  - rewrite find_nonowned_app by exact Ha. cbn [app find_nonowned].
    rewrite space_table, Hf, Nat.add_0_r. cbn [negb].
    rewrite (proj2 (Nat.eqb_neq _ _)) by (rewrite length_app; cbn; lia).
    rewrite skipn_app, skipn_all, Nat.sub_diag. cbn [app skipn negb].
    rewrite app_comm_cons, rev_app_distr, trim_end_app by now apply Forall_rev.
    rewrite <- (rev_involutive (c :: s)) at 2. f_equal.
    destruct (rev (c :: s)) as [|d r]; [easy|]. cbn [trim_end]. now rewrite space_table, Hl.
Qed.

Lemma trim_trimmed s : trimmed s -> trim (table_owned SPACE) s = s.
Proof.
  intros Hs. pose proof (trim_around [] s [] Hs (Forall_nil _) (Forall_nil _)) as Ht.
  now rewrite app_nil_r in Ht.
Qed.

(** ** Reading back a date *)

Lemma print_int_spec w z :
  0 <= z < 10 ^ 20 ->
  print_int w z <> [] /\ forallb is_digit (print_int w z) = true /\ dec_from 0 (print_int w z) = z.
Proof.
  intros Hz. unfold print_int. rewrite (proj2 (Z.ltb_ge _ _)), Z.abs_eq by lia. cbn [app].
  destruct (digits_loop_spec 20 z) as (Hne & _ & Hd & Hv); [exact Hz|lia|].
  unfold dec_text. set (ds := digits_loop 20 z) in *.
  set (k := (w - length (@nil Z) - length (rev ds))%nat). split; [|split].
  - intros He. apply app_eq_nil in He as [_ He]. apply Hne. rewrite <- (rev_involutive ds), He. easy.
  - rewrite forallb_app. apply andb_true_iff. split.
    + apply forallb_forall. intros c Hc. now apply repeat_spec in Hc as ->.
    + apply forallb_forall. intros x Hx. apply in_rev in Hx. rewrite forallb_forall in Hd. auto.
  - rewrite dec_from_app. replace (dec_from 0 (repeat (chr "0") k)) with 0; [exact Hv|].
    induction k as [|k IH]; [easy|]. exact IH.
Qed.

Lemma digit_space c : is_digit c = true -> isspace c = false.
Proof. unfold is_digit, isspace. lia. Qed.

Lemma read_int_print w z : 0 <= z < 2 ^ 31 -> read_int (print_int w z) = Some z.
Proof.
  intros Hz. destruct (print_int_spec w z ltac:(lia)) as (Hne & Hd & Hv).
  unfold read_int. destruct (print_int w z) as [|c t] eqn:Hp; [easy|].
  assert (Hc : is_digit c = true) by (cbn in Hd; now apply andb_true_iff in Hd).
  cbn [span]. rewrite (digit_space c Hc). cbn [snd].
  destruct (digit_not_sign c Hc) as [-> ->]. rewrite Hd, Hv, Z.mul_1_l.
  destruct (Z.leb_spec (- 2 ^ 31) z), (Z.ltb_spec z (2 ^ 31)); cbn [andb]; easy || lia.
Qed.

Lemma read_word_spec sp w rest :
  Forall (fun c => isspace c = true) sp -> Forall (fun c => isspace c = false) w -> w <> [] ->
  match rest with [] => True | c :: _ => isspace c = true end ->
  read_word (sp ++ w ++ rest) = Some (w, rest).
Proof.
  intros Hsp Hw Hne Hr. unfold read_word. rewrite span_all.
  - cbn [snd]. rewrite span_all.
    + now destruct w.
    + eapply Forall_impl; [|exact Hw]. cbn. now intros c ->.
    + destruct rest; [easy|]. now rewrite Hr.
  - exact Hsp.
  - destruct w; [easy|]. now inversion Hw.
Qed.

Lemma next_token_spec sep pre w rest :
  Forall (fun c => c = sep) pre -> Forall (fun c => c <> sep) w -> w <> [] ->
  match rest with [] => True | c :: _ => c = sep end ->
  next_token sep (pre ++ w ++ rest) = Some (w, rest).
Proof.
  intros Hp Hw Hne Hr. unfold next_token, get_token, get_token_nonempty.
  rewrite find_nonowned_app by (eapply Forall_impl; [|exact Hp]; cbn; intros c ->; apply Z.eqb_refl).
  assert (Hw' : Forall (fun c => Char1 sep c = false) w).
  { eapply Forall_impl; [|exact Hw]. cbn. unfold Char1. intros c Hc. now apply Z.eqb_neq. }
  replace (find_nonowned (Char1 sep) (w ++ rest)) with 0%nat.
  2: { destruct w; [easy|]. inversion Hw'; subst. cbn [app find_nonowned]. now rewrite H1. }
  rewrite Nat.add_0_r, skipn_app, skipn_all, Nat.sub_diag. cbn [app skipn].
  rewrite find_owned_app by exact Hw'.
  replace (find_owned (Char1 sep) rest) with 0%nat
    by (destruct rest; [easy|]; subst; cbn; unfold Char1; now rewrite Z.eqb_refl).
  rewrite Nat.add_0_r. destruct (Nat.eqb_spec (length w) 0) as [He|_]; [now destruct w|].
  now rewrite firstn_app, skipn_app, firstn_all, skipn_all, Nat.sub_diag, firstn_0, app_nil_r.
Qed.

(** A date that fits: the fields of [time_to_gm]. *)
Lemma gm_fields sec : 0 <= sec < 10 ^ 12 ->
  let t := time_to_gm sec in
  0 <= tm_wday t <= 6 /\ 0 <= tm_mon t <= 11 /\ 1 <= tm_mday t <= 31 /\ 70 <= tm_year t < 100000 /\
  0 <= tm_hour t < 24 /\ 0 <= tm_min t < 60 /\ 0 <= tm_sec t < 60.
Proof.
  intros H t. destruct (time_to_gm_spec sec ltac:(lia)) as (i & yday & m & Hi & Hy & Hm & D & _ & HM & E).
  cbv zeta in *. unfold t. rewrite E. cbn [tm_wday tm_year tm_mon tm_mday tm_hour tm_min tm_sec].
  pose proof (month_days_range (if i =? 2 then 1972 else 1970) (Z.of_nat m)).
  assert (0 <= sec / 86400 / 1461) by (apply Z.div_pos; [apply Z.div_pos|]; lia).
  assert (sec / 86400 / 1461 < 10000) by (Z.div_mod_to_equations; lia).
  repeat split; try lia; Z.div_mod_to_equations; lia.
Qed.

(** The names that dates are made of. *)
Definition plain (c : Z) : Prop := isspace c = false /\ c <> chr ";" /\ c <> chr "-" /\ c <> chr ":".

Definition plain_b (c : Z) : bool :=
  negb (isspace c) && negb (c =? chr ";") && negb (c =? chr "-") && negb (c =? chr ":").

Lemma plain_all l : forallb plain_b l = true -> Forall plain l.
Proof.
  intros H. apply Forall_forall. intros c Hc. rewrite forallb_forall in H. apply H in Hc.
  unfold plain_b in Hc. bools. unfold plain. repeat split; auto; now apply Z.eqb_neq.
Qed.

Lemma month_name i : 0 <= i <= 11 ->
  exists m, name_of MONTHS i = Ret m /\ Time_month m = Ret i /\ Forall plain m /\ m <> [].
Proof.
  intros Hi. assert (Hc : i = 0 \/ i = 1 \/ i = 2 \/ i = 3 \/ i = 4 \/ i = 5 \/ i = 6 \/ i = 7 \/ i = 8 \/
    i = 9 \/ i = 10 \/ i = 11) by lia.
  repeat destruct Hc as [->|Hc]; try subst i;
    (eexists; split; [reflexivity|]; split; [reflexivity|]; split; [now apply plain_all|discriminate]).
Qed.

Lemma day_name i : 0 <= i <= 6 ->
  exists w, name_of DAY_NAMES i = Ret w /\ Forall plain w /\ w <> [].
Proof.
  intros Hi. assert (Hc : i = 0 \/ i = 1 \/ i = 2 \/ i = 3 \/ i = 4 \/ i = 5 \/ i = 6) by lia.
  repeat destruct Hc as [->|Hc]; try subst i;
    (eexists; split; [reflexivity|]; split; [now apply plain_all|discriminate]).
Qed.

Lemma print_plain w z : 0 <= z < 10 ^ 20 -> Forall plain (print_int w z).
Proof.
  intros Hz. destruct (print_int_spec w z Hz) as (_ & Hd & _). apply plain_all, forallb_forall.
  intros c Hc. rewrite forallb_forall in Hd. apply Hd in Hc. unfold plain_b.
  rewrite digit_space by exact Hc. revert Hc. unfold is_digit.
  change (chr ";") with 59. change (chr "-") with 45. change (chr ":") with 58. lia.
Qed.

Section Date.
Context (sec : Z) (Hsec : 0 <= sec < 10 ^ 12).
Let t := time_to_gm sec.

Lemma get_date_print m d : Time_month m = Ret (tm_mon t) -> Forall plain m -> m <> [] ->
  d = print_int 1 (tm_mday t) ++ lit "-" ++ m ++ lit "-" ++ print_int 1 (tm_year t + 1900) ->
  get_date d = Ret (tm_mday t, tm_mon t + 1, tm_year t + 1900).
Proof.
  intros Hm Hpm Hne ->. destruct (gm_fields sec Hsec) as (_ & _ & Hd & Hy & _). fold t in Hd, Hy.
  assert (Hminus : forall l, Forall plain l -> Forall (fun c => c <> chr "-") l)
    by (intros l; apply Forall_impl; now intros c (_ & _ & ? & _)).
  destruct (print_int_spec 1 (tm_mday t) ltac:(lia)) as (Hdn & _ & _).
  destruct (print_int_spec 1 (tm_year t + 1900) ltac:(lia)) as (Hyn & _ & _).
  unfold get_date.
  pose proof (next_token_spec (chr "-") [] (print_int 1 (tm_mday t))
    (lit "-" ++ m ++ lit "-" ++ print_int 1 (tm_year t + 1900))) as H1. cbn [app] in H1.
  rewrite H1; [|constructor|apply Hminus, print_plain; lia|exact Hdn|reflexivity].
  rewrite read_int_print by lia. cbn [need bind].
  rewrite (next_token_spec (chr "-") (lit "-") m);
    [|repeat constructor|now apply Hminus|exact Hne|reflexivity].
  rewrite Hm. cbn [bind].
  pose proof (next_token_spec (chr "-") (lit "-") (print_int 1 (tm_year t + 1900)) []) as H3.
  rewrite app_nil_r in H3. rewrite H3; [|repeat constructor|apply Hminus, print_plain; lia|exact Hyn|easy].
  rewrite read_int_print by lia. cbn [need bind].
  rewrite (proj2 (Z.ltb_ge _ _)) by lia. reflexivity.
Qed.

Lemma get_clock_print c :
  c = print_int 2 (tm_hour t) ++ lit ":" ++ print_int 2 (tm_min t) ++ lit ":" ++ print_int 2 (tm_sec t) ->
  get_clock c = Ret (tm_hour t, tm_min t, tm_sec t).
Proof.
  intros ->. destruct (gm_fields sec Hsec) as (_ & _ & _ & _ & Hh & Hm & Hs). fold t in Hh, Hm, Hs.
  assert (Hcolon : forall z, 0 <= z < 60 -> Forall (fun c => c <> chr ":") (print_int 2 z))
    by (intros z Hz; eapply Forall_impl; [|apply print_plain; lia]; now intros c (_ & _ & _ & ?)).
  assert (Hne : forall z, 0 <= z < 60 -> print_int 2 z <> [])
    by (intros z Hz; apply (print_int_spec 2 z); lia).
  unfold get_clock.
  pose proof (next_token_spec (chr ":") [] (print_int 2 (tm_hour t))
    (lit ":" ++ print_int 2 (tm_min t) ++ lit ":" ++ print_int 2 (tm_sec t))) as H1. cbn [app] in H1.
  rewrite H1; [|constructor|apply Hcolon; lia|apply Hne; lia|reflexivity].
  rewrite read_int_print by lia. cbn [need bind].
  rewrite (next_token_spec (chr ":") (lit ":") (print_int 2 (tm_min t)));
    [|repeat constructor|apply Hcolon; lia|apply Hne; lia|reflexivity].
  rewrite read_int_print by lia. cbn [need bind].
  pose proof (next_token_spec (chr ":") (lit ":") (print_int 2 (tm_sec t)) []) as H3.
  rewrite app_nil_r in H3. rewrite H3; [|repeat constructor|apply Hcolon; lia|apply Hne; lia|easy].
  now rewrite read_int_print by lia.
Qed.

Lemma date_back : ExtendedTime_date (tm_year t + 1900) (tm_mon t + 1) (tm_mday t) (tm_hour t) (tm_min t) (tm_sec t)
  = Ret (mkTime sec 0).
Proof.
  destruct (gm_fields sec Hsec) as (_ & _ & _ & _ & Hh & Hm & _). fold t in Hh, Hm.
  unfold ExtendedTime_date, int_product.
  destruct (Z.leb_spec (- 2 ^ 31) (tm_hour t * 3600)), (Z.ltb_spec (tm_hour t * 3600) (2 ^ 31)),
    (Z.leb_spec (- 2 ^ 31) (tm_min t * 60)), (Z.ltb_spec (tm_min t * 60) (2 ^ 31)); try lia.
  cbn [andb]. replace (tm_mon t + 1 - 1) with (tm_mon t) by lia.
  replace (tm_year t + 1900 - 1900) with (tm_year t) by lia.
  rewrite (gm_to_time_fields _ _ _ _ _ _ 0 0 (tm_wday t) (tm_yday t)).
  replace (mkTm (tm_sec t) (tm_min t) (tm_hour t) (tm_mday t) (tm_mon t) (tm_year t) (tm_wday t) (tm_yday t))
    with t by (destruct t; reflexivity).
  unfold t. rewrite gm_inverse by lia. cbn [bind]. now rewrite gm_inverse by lia.
Qed.
End Date.

Definition no_semicolon (s : list Z) : Prop := Forall (fun c => c <> chr ";") s.

Lemma no_semicolon_app s u : no_semicolon (s ++ u) <-> no_semicolon s /\ no_semicolon u.
Proof. apply Forall_app. Qed.

Lemma no_semicolon_b s : forallb (fun c => negb (c =? chr ";")) s = true -> no_semicolon s.
Proof.
  intros H. apply Forall_forall. intros c Hc. rewrite forallb_forall in H. apply H in Hc.
  now apply negb_true_iff, Z.eqb_neq in Hc.
Qed.

Lemma plain_no_semicolon s : Forall plain s -> no_semicolon s.
Proof. apply Forall_impl. now intros c (_ & ? & _). Qed.

Lemma plain_spaceless s : Forall plain s -> Forall (fun c => isspace c = false) s.
Proof. apply Forall_impl. now intros c (? & _). Qed.

(** The date of a cookie is read back, to the second. *)
Lemma date_read sec usec : 0 <= sec < 10 ^ 12 ->
  exists d, cookie_date (mkTime sec usec) false = Ret d /\ get_expires d = Ret (mkTime sec 0) /\
            no_semicolon d /\ trimmed d.
Proof.
  intros Hs. pose proof (gm_fields sec Hs) as F. cbv zeta in F.
  set (t := time_to_gm sec) in *. destruct F as (Hwd & Hmo & Hd & Hy & Hh & Hmi & Hse).
  destruct (day_name _ Hwd) as (w & Ew & Pw & Nw). destruct (month_name _ Hmo) as (m & Em & Tm & Pm & Nm).
  set (D := print_int 1 (tm_mday t) ++ lit "-" ++ m ++ lit "-" ++ print_int 1 (tm_year t + 1900)).
  set (C := print_int 2 (tm_hour t) ++ lit ":" ++ print_int 2 (tm_min t) ++ lit ":" ++ print_int 2 (tm_sec t)).
  assert (PD : forall k z, 0 <= z < 10 ^ 20 -> Forall (fun c => isspace c = false) (print_int k z) /\
                           no_semicolon (print_int k z) /\ print_int k z <> []).
  { intros k z Hz. pose proof (print_plain k z Hz) as P. split; [now apply plain_spaceless|].
    split; [now apply plain_no_semicolon|]. now apply (print_int_spec k z). }
  assert (SD : Forall (fun c => isspace c = false) D).
  { unfold D. rewrite !Forall_app. repeat split; try (apply PD; lia); try now apply plain_spaceless.
    all: now repeat constructor. }
  assert (SC : Forall (fun c => isspace c = false) C).
  { unfold C. rewrite !Forall_app. repeat split; try (apply PD; lia). all: now repeat constructor. }
  exists (w ++ lit ", " ++ D ++ lit " " ++ C ++ lit " GMT"). split; [|split; [|split]].
  - unfold cookie_date. cbn [tv_sec]. fold t. rewrite Ew, Em. cbn [bind andb].
    unfold D, C. now rewrite <- !app_assoc.
  - unfold get_expires.
    pose proof (read_word_spec [] (w ++ lit ",") (lit " " ++ D ++ lit " " ++ C ++ lit " GMT")) as R1.
    cbn [app] in R1. rewrite <- app_assoc in R1. change (lit ", ") with (lit "," ++ lit " ").
    rewrite <- app_assoc, R1; [|constructor| |now destruct w|reflexivity].
    2: { apply Forall_app. split; [now apply plain_spaceless|now repeat constructor]. }
    cbn [need bind]. rewrite (read_word_spec (lit " ") D); [|now repeat constructor|exact SD| |reflexivity].
    2: { unfold D. intros E. apply app_eq_nil in E as [E _]. revert E. apply PD. lia. }
    cbn [need bind]. rewrite (read_word_spec (lit " ") C); [|now repeat constructor|exact SC| |reflexivity].
    2: { unfold C. intros E. apply app_eq_nil in E as [E _]. revert E. apply PD. lia. }
    cbn [need bind]. rewrite (get_date_print sec Hs m D Tm Pm Nm eq_refl). cbn [bind].
    fold t. replace ((tm_mday t <? 1) || _ || _ || _ || _) with false by lia.
    rewrite (get_clock_print sec Hs C eq_refl). cbn [bind]. now apply date_back.
  - unfold D, C. rewrite !no_semicolon_app.
    repeat split; try (apply PD; lia); try (now apply plain_no_semicolon); now apply no_semicolon_b.
  - split.
    + destruct w as [|c w]; [easy|]. now apply plain_spaceless, Forall_inv in Pw.
    + rewrite !app_assoc, rev_app_distr. reflexivity.
Qed.

(** ** Segments of a header *)

Fixpoint after_eq (s : list Z) : option (list Z) :=
  match s with
  | [] => None
  | c :: s' => if c =? chr "=" then Some s' else after_eq s'
  end.

(** A name before its value. *)
Lemma after_eq_pair n v : Forall (fun c => c <> chr "=") n -> after_eq (n ++ lit "=" ++ v) = Some v.
Proof.
  induction 1 as [|c n Hc _ IH]; [reflexivity|]. cbn [app after_eq].
  rewrite (proj2 (Z.eqb_neq _ _) Hc). exact IH.
Qed.

Lemma after_eq_none n : Forall (fun c => c <> chr "=") n -> after_eq n = None.
Proof.
  induction 1 as [|c n Hc _ IH]; [reflexivity|]. cbn [after_eq]. now rewrite (proj2 (Z.eqb_neq _ _) Hc).
Qed.

(** ** The key of a cookie *)

(** Cookies are told apart by domain, path and name. *)
Definition key (c : CookieDef) : list Z * list Z * list Z :=
  (map to_lower (domain c), path c, name (base c)).

Lemma same_cookie_iff c it : same_cookie c it = true <-> key c = key it.
Proof.
  unfold same_cookie, key. rewrite !andb_true_iff, ci_equal_iff, !same_text_iff.
  split; [now intros [[-> ->] ->]|now intros [= -> -> ->]].
Qed.

Lemma replace_cookie_none drop c l : ~ In (key c) (map key l) -> replace_cookie drop c l = None.
Proof.
  induction l as [|it l IH]; cbn; [easy|]. intros Hn.
  destruct (same_cookie c it) eqn:Hs; [apply same_cookie_iff in Hs; symmetry in Hs; tauto|].
  now rewrite IH by tauto.
Qed.

(** A cookie that is kept and whose key is new comes to the front. *)
Lemma store_fresh e k c l : negb e || k = true -> ~ In (key c) (map key l) -> store e k c l = c :: l.
Proof. intros He Hn. unfold store. rewrite replace_cookie_none by easy. now rewrite He. Qed.

(** The list [join] writes, as segments. *)
Lemma join_segments t ts : join (t :: ts) = t ++ flat_map (cons (chr ";")) (map (app (lit " ")) ts).
Proof.
  revert t. induction ts as [|u ts IH]; intros t; [cbn; now rewrite app_nil_r|].
  change (join (t :: u :: ts)) with (t ++ lit "; " ++ join (u :: ts)). rewrite IH. reflexivity.
Qed.

Section Load.
Context (clock : nat -> Time) (url_address : Address) (keep_expired : bool).

Local Abbreviation parse_loop := (parse_loop clock url_address keep_expired).
Local Abbreviation parse_value := (parse_value clock url_address keep_expired).
Local Abbreviation parse_named := (parse_named clock url_address keep_expired).
Local Abbreviation parse_header := (parse_header clock url_address keep_expired).
Local Abbreviation load := (load_from_headers clock url_address keep_expired).

(** The segments, the last first. *)
Fixpoint parse_segments (segments : list (list Z)) (st : parse_state) : outcome parse_state :=
  match segments with
  | [] => Ret st
  | s :: segments' => st' <- parse_value s (after_eq s) st ;; parse_segments segments' st'
  end.

Lemma parse_empty st : parse_value [] None st = Ret st.
Proof. reflexivity. Qed.

Lemma parse_loop_segment seg : no_semicolon seg -> forall r tail begun st,
  parse_loop (rev seg ++ r) tail (after_eq tail) begun st =
  parse_loop r (seg ++ tail) (after_eq (seg ++ tail)) (begun || negb (empty seg)) st.
Proof.
  induction seg as [|c seg IH] using rev_ind; intros Hs r tail begun st.
  - cbn. now rewrite orb_false_r.
  - apply no_semicolon_app in Hs as [Hs Hc]. apply Forall_inv in Hc.
    rewrite rev_app_distr. cbn [rev app Cookie.parse_loop].
    rewrite (proj2 (Z.eqb_neq _ _) Hc), <- app_assoc. cbn [app].
    replace (begun || negb (empty (seg ++ [c]))) with true by (destruct seg; now rewrite orb_true_r).
    destruct (Z.eqb_spec c (chr "=")) as [->|Hn].
    + pose proof (IH Hs r (chr "=" :: tail) true st) as H. exact H.
    + pose proof (IH Hs r (c :: tail) true st) as H. cbn [after_eq] in H.
      rewrite (proj2 (Z.eqb_neq _ _) Hn) in H. exact H.
Qed.

Lemma parse_begun seg begun st :
  (if begun || negb (empty seg) then parse_value seg (after_eq seg) st else Ret st) =
  parse_value seg (after_eq seg) st.
Proof. destruct seg, begun; reflexivity. Qed.

(** A header is parsed a segment at a time, from its end. *)
Lemma parse_loop_segments s0 segs : no_semicolon s0 -> Forall no_semicolon segs -> forall begun st,
  parse_loop (rev (s0 ++ flat_map (cons (chr ";")) segs)) [] None begun st =
  parse_segments (rev (s0 :: segs)) st.
Proof.
  intros H0. induction segs as [|s segs IH] using rev_ind; intros Hs begun st.
  - cbn [flat_map]. pose proof (parse_loop_segment s0 H0 [] [] begun st) as H.
    rewrite app_nil_r in H |- *. cbn [after_eq] in H. rewrite H, app_nil_r. cbn [Cookie.parse_loop].
    rewrite parse_begun. cbn. now destruct (parse_value s0 (after_eq s0) st).
  - apply Forall_app in Hs as [Hs Hl]. apply Forall_inv in Hl.
    replace (rev (s0 :: segs ++ [s])) with (s :: rev (s0 :: segs)) by (cbn; now rewrite rev_app_distr).
    rewrite flat_map_app. cbn [flat_map]. rewrite app_nil_r, app_assoc, rev_app_distr.
    change (rev (chr ";" :: s)) with (rev s ++ [chr ";"]).
    rewrite <- app_assoc. pose proof (parse_loop_segment s Hl
      ([chr ";"] ++ rev (s0 ++ flat_map (cons (chr ";")) segs)) [] begun st) as H.
    cbn [after_eq] in H. rewrite H, app_nil_r. cbn [app Cookie.parse_loop].
    change (chr ";" =? chr ";") with true. cbv iota. rewrite parse_begun.
    cbn [parse_segments]. destruct (parse_value s (after_eq s) st) as [st'| |]; [|reflexivity..]. cbn [bind].
    exact (IH Hs true st').
Qed.

(** A segment [name=value], and one that is only a name. *)
Lemma parse_pair sp n v st :
  Forall (fun c => isspace c = true) sp -> trimmed n -> trimmed v ->
  Forall (fun c => c <> chr "=") n ->
  let seg := sp ++ n ++ lit "=" ++ v in
  parse_value seg (after_eq seg) st = parse_named n v st.
Proof.
  intros Hsp Hn Hv He seg.
  assert (Hse : Forall (fun c => c <> chr "=") sp)
    by (eapply Forall_impl; [|exact Hsp]; cbn; intros c H ->; discriminate).
  unfold seg, Cookie.parse_value. rewrite app_assoc, after_eq_pair by now apply Forall_app.
  replace (length ((sp ++ n) ++ lit "=" ++ v) - S (length v))%nat with (length (sp ++ n))
    by (rewrite !length_app; cbn; lia).
  rewrite firstn_app, firstn_all, Nat.sub_diag, firstn_0, app_nil_r, (trim_trimmed v Hv).
  pose proof (trim_around sp n [] Hn Hsp (Forall_nil _)) as Ht. rewrite app_nil_r in Ht. now rewrite Ht.
Qed.

Lemma parse_word sp n st :
  Forall (fun c => isspace c = true) sp -> trimmed n -> Forall (fun c => c <> chr "=") n ->
  parse_value (sp ++ n) (after_eq (sp ++ n)) st = parse_named n [] st.
Proof.
  intros Hsp Hn He.
  assert (Hse : Forall (fun c => c <> chr "=") sp)
    by (eapply Forall_impl; [|exact Hsp]; cbn; intros c H ->; discriminate).
  unfold Cookie.parse_value. rewrite after_eq_none by now apply Forall_app.
  pose proof (trim_around sp n [] Hn Hsp (Forall_nil _)) as Ht. rewrite app_nil_r in Ht. now rewrite Ht.
Qed.
(** *** Headers that are written *)

(** A cookie whose texts can be written to a header. *)
Record writable (c : CookieDef) : Prop := {
  w_name : name (base c) <> [] /\ trimmed (name (base c)) /\ no_semicolon (name (base c)) /\
           Forall (fun x => x <> chr "=") (name (base c));
  w_not_attribute : forall a, In a [SECURE; PATH; CDOMAIN; EXPIRES] -> ci_equal a (name (base c)) = false;
  w_value : trimmed (value (base c)) /\ no_semicolon (value (base c));
  w_domain : domain c <> [] /\ domain c <> lit "." /\ trimmed (domain c) /\ no_semicolon (domain c);
  w_path : path c <> [] /\ path c <> lit "\" /\ trimmed (path c) /\ no_semicolon (path c);
  w_expires : expires c = TIME_ZERO \/ 0 < tv_sec (expires c) < 10 ^ 12 /\ tv_usec (expires c) = 0 }.

Definition attribute_segments (c : CookieDef) (date : list Z) : list (list Z) :=
  (if time_ne (expires c) TIME_ZERO then [lit " " ++ EXPIRES ++ lit "=" ++ date] else []) ++
  [lit " " ++ CDOMAIN ++ lit "=" ++ domain c; lit " " ++ PATH ++ lit "=" ++ path c] ++
  (if secure c then [lit " " ++ SECURE] else []).

Lemma time_eq_iff a b : time_eq a b = true <-> a = b.
Proof.
  destruct a as [s u], b as [s' u']. unfold time_eq. cbn. rewrite andb_true_iff, !Z.eqb_eq.
  split; [now intros [-> ->]|now intros [= -> ->]].
Qed.

Lemma writable_date c : writable c ->
  exists d, (time_ne (expires c) TIME_ZERO = true ->
             cookie_date (expires c) false = Ret d /\ get_expires d = Ret (expires c)) /\
            no_semicolon d /\ trimmed d.
Proof.
  intros W. destruct (w_expires c W) as [He|[Hs Hu]].
  - exists []. rewrite He. split; [now vm_compute|]. now repeat constructor.
  - destruct (date_read (tv_sec (expires c)) (tv_usec (expires c)) ltac:(lia)) as (d & H1 & H2 & H3 & H4).
    exists d. split; [|easy]. intros _. destruct (expires c) as [s u]. cbn in *. now subst u.
Qed.

Lemma nonempty_empty (l : list Z) : l <> [] -> empty l = false.
Proof. now destruct l. Qed.

Lemma attributes_segments c : writable c ->
  exists d, attributes c = Ret (flat_map (cons (chr ";")) (attribute_segments c d)) /\
    Forall no_semicolon (attribute_segments c d) /\ trimmed d /\
    (time_ne (expires c) TIME_ZERO = true -> get_expires d = Ret (expires c)).
Proof.
  intros W. destruct (writable_date c W) as (d & Hd & Hsd & Htd). exists d.
  destruct (w_domain c W) as (Hdn & _ & _ & Hds). destruct (w_path c W) as (Hpn & _ & _ & Hps).
  assert (Hlit : forall l, In l [lit " "; lit "="; EXPIRES; CDOMAIN; PATH; SECURE] -> no_semicolon l).
  { intros l Hl. now repeat destruct Hl as [<-|Hl]; try apply no_semicolon_b. }
  unfold attributes, attribute_segments. rewrite (nonempty_empty _ Hdn), (nonempty_empty _ Hpn). cbn [negb].
  split; [|split; [|split; [easy|intros Hn; now apply Hd]]].
  - destruct (time_ne (expires c) TIME_ZERO) eqn:He.
    + destruct (Hd eq_refl) as [-> _]. cbn [bind]. rewrite !flat_map_app. cbn [flat_map].
      destruct (secure c); cbn [flat_map]; rewrite ?app_nil_r, <- ?app_assoc; reflexivity.
    + cbn [bind]. destruct (secure c); cbn [flat_map app]; rewrite ?app_nil_r, <- ?app_assoc; reflexivity.
  - rewrite !Forall_app. split; [|split].
    + destruct (time_ne (expires c) TIME_ZERO); [|constructor]. constructor; [|constructor].
      rewrite !no_semicolon_app. repeat split; try easy; apply Hlit; cbn; auto 10.
    + apply Forall_cons; [|apply Forall_cons; [|constructor]];
        rewrite !no_semicolon_app; repeat split; try easy; apply Hlit; cbn; auto 10.
    + destruct (secure c); [|constructor]. apply Forall_cons; [|constructor].
      rewrite no_semicolon_app. split; apply Hlit; cbn; auto 10.
Qed.

(** What the attributes make of the cookie they are read into. *)
Definition with_attributes (c k : CookieDef) : CookieDef :=
  mkCookieDef (base k) (domain c) (path c)
    (if time_ne (expires c) TIME_ZERO then expires c else expires k) (secure c || secure k).

Lemma parse_segments_app a b st :
  parse_segments (a ++ b) st = (st' <- parse_segments a st ;; parse_segments b st').
Proof.
  revert st. induction a as [|s a IH]; intros st; cbn [app parse_segments]; [reflexivity|].
  destruct (parse_value s (after_eq s) st); cbn [bind]; [apply IH|reflexivity..].
Qed.

(** An attribute with a value, while attributes are read. *)
Lemma parse_attribute a v st cookie :
  In a [PATH; CDOMAIN; EXPIRES] -> trimmed v -> control_info st = true ->
  parse_control clock url_address a v st = Ret cookie -> control_info cookie = true ->
  parse_segments [lit " " ++ a ++ lit "=" ++ v] st = Ret cookie.
Proof.
  intros Ha Hv Hc Hp Hk. cbn [parse_segments].
  rewrite (parse_pair (lit " ") a v st); [|now repeat constructor| |exact Hv|].
  - unfold Cookie.parse_named. rewrite Hc, Hp. cbn [bind]. rewrite Hk.
    repeat destruct Ha as [<-|Ha]; easy.
  - repeat destruct Ha as [<-|Ha]; try easy; now vm_compute.
  - repeat destruct Ha as [<-|Ha]; try easy; repeat constructor; discriminate.
Qed.

Lemma parse_secure st : control_info st = true ->
  parse_segments [lit " " ++ SECURE] st =
  Ret (mkParse (p_list st) (set_secure true (p_cookie st)) true (expired st) (ticks st)).
Proof.
  intros Hc. cbn [parse_segments]. rewrite parse_word; [|now repeat constructor|now vm_compute|
    repeat constructor; discriminate].
  unfold Cookie.parse_named. now rewrite Hc.
Qed.

Lemma parse_attributes c d st : writable c -> trimmed d ->
  (time_ne (expires c) TIME_ZERO = true -> get_expires d = Ret (expires c)) ->
  control_info st = true -> expired st = false ->
  exists ticks', parse_segments (rev (attribute_segments c d)) st =
    Ret (mkParse (p_list st) (with_attributes c (p_cookie st)) true
          (time_ne (expires c) TIME_ZERO && time_lt (expires c) (clock (ticks st))) ticks').
Proof.
  intros W Hd Hg Hc He. destruct (w_domain c W) as (_ & _ & Hdt & _).
  destruct (w_path c W) as (_ & _ & Hpt & _).
  set (st1 := if secure c then mkParse (p_list st) (set_secure true (p_cookie st)) true (expired st) (ticks st)
              else st).
  assert (H1 : parse_segments (rev (if secure c then [lit " " ++ SECURE] else [])) st = Ret st1).
  { unfold st1. destruct (secure c); [now apply parse_secure|reflexivity]. }
  assert (Hc1 : control_info st1 = true) by (unfold st1; now destruct (secure c)).
  unfold attribute_segments. rewrite !rev_app_distr. cbn [rev app]. rewrite <- app_assoc.
  rewrite parse_segments_app, H1. cbn [bind].
  change (?a :: ?b :: ?r) with ([a] ++ [b] ++ r). rewrite !parse_segments_app.
  erewrite (parse_attribute PATH); [|cbn; auto|exact Hpt|exact Hc1|reflexivity|reflexivity].
  cbn [bind app].
  erewrite (parse_attribute CDOMAIN); [|cbn; auto|exact Hdt|reflexivity|reflexivity|reflexivity].
  cbn [bind p_list p_cookie expired ticks].
  destruct (time_ne (expires c) TIME_ZERO) eqn:Hz.
  - eexists. cbn [rev app].
    erewrite (parse_attribute EXPIRES);
      [|cbn; auto|exact Hd|reflexivity
       |unfold parse_control; change (ci_equal SECURE EXPIRES) with false;
        change (ci_equal PATH EXPIRES) with false; change (ci_equal CDOMAIN EXPIRES) with false;
        change (ci_equal EXPIRES EXPIRES) with true; rewrite (Hg eq_refl); reflexivity
       |reflexivity].
    unfold with_attributes. rewrite Hz. unfold st1. destruct (secure c); reflexivity.
  - eexists. cbn [rev parse_segments]. unfold with_attributes. rewrite Hz.
    unfold st1. destruct (secure c); cbn; rewrite He; reflexivity.
Qed.
(** *** Names and values *)

Definition named (k : CookieDef) (b : Cookie) : CookieDef := set_name_value (name b) (value b) k.

(** A pair that can be written. *)
Definition pair_ok (b : Cookie) : Prop :=
  (name b <> [] /\ trimmed (name b) /\ no_semicolon (name b) /\ Forall (fun x => x <> chr "=") (name b)) /\
  (forall a, In a [SECURE; PATH; CDOMAIN; EXPIRES] -> ci_equal a (name b) = false) /\
  trimmed (value b) /\ no_semicolon (value b).

Lemma writable_pair c : writable c -> pair_ok (base c).
Proof. intros W. split; [apply W|]. split; [apply W|apply W]. Qed.

Lemma pair_no_semicolon b : pair_ok b -> no_semicolon (pair_text b).
Proof.
  intros ((_ & _ & Hn & _) & _ & _ & Hv). unfold pair_text. rewrite !no_semicolon_app.
  split; [easy|]. split; [now apply no_semicolon_b|easy].
Qed.

(** The attributes are complete: the defaults change nothing. *)
Definition complete (k : CookieDef) : Prop :=
  domain k <> [] /\ domain k <> lit "." /\ path k <> [] /\ path k <> lit "\".

Lemma same_text_ne s t : s <> t -> same_text s t = false.
Proof. intros Hn. apply not_true_iff_false. now rewrite same_text_iff. Qed.

Lemma defaults_complete k : complete k -> set_defaults url_address k = k.
Proof.
  intros (H1 & H2 & H3 & H4). unfold set_defaults.
  rewrite (nonempty_empty _ H3), (same_text_ne _ _ H4), (nonempty_empty _ H1), (same_text_ne _ _ H2).
  reflexivity.
Qed.

(** A pair in either phase. *)
Lemma parse_named_pair b st : pair_ok b -> complete (p_cookie st) ->
  parse_named (name b) (value b) st =
  Ret (mkParse (store (expired st) keep_expired (named (p_cookie st) b) (p_list st))
         (named (p_cookie st) b) false (expired st) (ticks st)).
Proof.
  intros ((Hne & _) & Ha & _) Hk. unfold Cookie.parse_named. rewrite (nonempty_empty _ Hne).
  destruct (control_info st) eqn:Hc; cbn [bind]; [|now rewrite Hc].
  unfold parse_control. rewrite !Ha by (cbn; auto). cbn [bind p_list p_cookie control_info expired ticks].
  now rewrite defaults_complete.
Qed.

Lemma parse_pair_text sp b st : Forall (fun c => isspace c = true) sp -> pair_ok b ->
  complete (p_cookie st) ->
  parse_segments [sp ++ pair_text b] st =
  Ret (mkParse (store (expired st) keep_expired (named (p_cookie st) b) (p_list st))
         (named (p_cookie st) b) false (expired st) (ticks st)).
Proof.
  intros Hsp Hb Hk. cbn [parse_segments]. pose proof Hb as ((_ & Hn & _ & He) & _ & Hv & _).
  unfold pair_text. rewrite (parse_pair sp (name b) (value b) st Hsp Hn Hv He).
  now rewrite parse_named_pair.
Qed.

Lemma NoDup_snoc {A} (l : list A) a r :
  NoDup ((l ++ [a]) ++ r) -> NoDup (l ++ a :: r) /\ ~ In a r.
Proof.
  rewrite <- app_assoc. cbn. intros Hd. split; [easy|].
  apply NoDup_remove_2 in Hd. rewrite in_app_iff in Hd. tauto.
Qed.

(** The pairs of a header, all but the first after a space. *)
Lemma parse_pairs bs st k :
  Forall pair_ok bs -> complete (p_cookie st) -> negb (expired st) || keep_expired = true ->
  (forall b, named (p_cookie st) b = named k b) ->
  NoDup (map key (map (named k) bs ++ p_list st)) ->
  exists st', parse_segments (rev (map (fun b => lit " " ++ pair_text b) bs)) st = Ret st' /\
    p_list st' = map (named k) bs ++ p_list st /\ ticks st' = ticks st /\ expired st' = expired st /\
    (forall b, named (p_cookie st') b = named k b) /\ complete (p_cookie st').
Proof.
  revert st. induction bs as [|b bs IH] using rev_ind; intros st Hbs Hk He Hn Hd.
  - exists st. repeat split; easy || apply Hk.
  - apply Forall_app in Hbs as [Hbs Hb]. apply Forall_inv in Hb.
    rewrite !map_app in Hd. rewrite !map_app. cbn [map] in Hd |- *. rewrite rev_app_distr. cbn [rev app].
    change (?x :: rev ?r) with ([x] ++ rev r).
    rewrite parse_segments_app, parse_pair_text by (easy || now repeat constructor). cbn [bind]. apply NoDup_snoc in Hd as [Hd Hf].
    rewrite (Hn b), store_fresh by easy.
    destruct (IH (mkParse (named k b :: p_list st) (named k b) false (expired st) (ticks st)))
      as (st' & Hp & Hl & Ht & He' & Hn' & Hk'); try easy.
    + rewrite <- Hn. exact Hk.
    + rewrite map_app. exact Hd.
    + exists st'. split; [exact Hp|]. rewrite Hl. cbn [p_list]. rewrite <- app_assoc. now split.
Qed.
(** *** A header of cookies with the same attributes *)

(** The cookie is not out of date when it is loaded, or such are kept. *)
Definition lasting (c : CookieDef) : Prop :=
  keep_expired = true \/ expires c = TIME_ZERO \/ forall i, time_lt (expires c) (clock i) = false.

Lemma writable_complete c : writable c -> complete c.
Proof. intros W. destruct (w_domain c W) as (? & ? & _), (w_path c W) as (? & ? & _). now repeat split. Qed.

(** The cookie that a client makes of a header: from a secure address it is
    secure whether or not the header says so. *)
Definition as_loaded (c : CookieDef) : CookieDef := set_secure (secure c || secure_ url_address) c.

Lemma named_attributes c b : expires c = TIME_ZERO \/ time_ne (expires c) TIME_ZERO = true ->
  named (with_attributes c (set_secure (secure_ url_address) CookieDef_new)) b = named (as_loaded c) b.
Proof.
  intros He. unfold named, with_attributes, set_name_value, as_loaded. cbn.
  destruct He as [He|He]; rewrite He; cbn; [now rewrite <- He|easy].
Qed.

Lemma time_ne_zero t : t = TIME_ZERO \/ time_ne t TIME_ZERO = true.
Proof.
  unfold time_ne. destruct (time_eq t TIME_ZERO) eqn:E; [left; now apply time_eq_iff|now right].
Qed.

Lemma lasting_expired c tk : lasting c ->
  negb (time_ne (expires c) TIME_ZERO && time_lt (expires c) (clock tk)) || keep_expired = true.
Proof.
  intros [->|[->|H]]; [apply orb_true_r|reflexivity|]. rewrite H, andb_false_r. reflexivity.
Qed.

Lemma parse_group c b bs L tk :
  writable c -> lasting c -> Forall pair_ok (b :: bs) ->
  NoDup (map key (map (named (as_loaded c)) (b :: bs) ++ L)) ->
  exists a st', attributes c = Ret a /\
    parse_header (join (map pair_text (b :: bs)) ++ a) L tk = Ret st' /\
    p_list st' = map (named (as_loaded c)) (b :: bs) ++ L.
Proof.
  intros W Hlast Hbs Hd. destruct (attributes_segments c W) as (d & Ha & Hsd & Htd & Hg).
  inversion Hbs as [|? ? Hb Hbs']; subst. eexists. 
  set (st0 := mkParse L (set_secure (secure_ url_address) CookieDef_new) true false tk).
  destruct (parse_attributes c d st0 W Htd Hg eq_refl eq_refl) as (tk' & Hpa).
  set (st1 := mkParse _ _ _ _ tk') in Hpa.
  assert (Hn : forall b, named (p_cookie st1) b = named (as_loaded c) b)
    by (intros b'; apply named_attributes, time_ne_zero).
  assert (Hc : complete (p_cookie st1)) by exact (writable_complete c W).
  pose proof (lasting_expired c tk Hlast) as He.
  cbn [map app] in Hd. apply NoDup_cons_iff in Hd as [Hf Hd].
  destruct (parse_pairs bs st1 (as_loaded c) Hbs' Hc He Hn Hd) as (st2 & Hp2 & Hl2 & _ & He2 & Hn2 & Hc2).
  eexists. split; [exact Ha|]. split.
  - unfold Cookie.parse_header. fold st0. cbn [map]. rewrite join_segments, <- app_assoc, <- flat_map_app.
    rewrite parse_loop_segments.
    + cbn [rev]. rewrite rev_app_distr, <- app_assoc, parse_segments_app, Hpa. cbn [bind].
      rewrite parse_segments_app, map_map, Hp2. cbn [bind].
      pose proof (parse_pair_text [] b st2 (Forall_nil _) Hb Hc2) as Hlast'. cbn [app] in Hlast'.
      exact Hlast'.
    + now apply pair_no_semicolon.
    + apply Forall_app. split; [|exact Hsd]. rewrite map_map. apply Forall_map.
      eapply Forall_impl; [|exact Hbs']. intros x Hx. apply no_semicolon_app.
      split; [now apply no_semicolon_b|now apply pair_no_semicolon].
  - cbn [p_list]. rewrite Hl2, Hn2, store_fresh; [reflexivity|now rewrite He2|exact Hf].
Qed.
(** *** The headers of a list *)

(** What of a cookie is read back: its domain up to the case of letters. *)
Definition view (c : CookieDef) : (list Z * list Z * list Z) * (list Z * Time * bool) :=
  (key c, (value (base c), expires c, secure c)).

Lemma view_key cs : map key cs = map fst (map view cs).
Proof. now rewrite map_map. Qed.

Lemma same_attributes_view c g :
  same_attributes c g = true -> view (named (as_loaded c) (base g)) = view (as_loaded g).
Proof.
  unfold same_attributes. rewrite !andb_true_iff, ci_equal_iff, same_text_iff, time_eq_iff, eqb_true_iff.
  intros [[[Hd Hp] He] Hs]. unfold view, key, named, as_loaded. cbn. now rewrite Hd, Hp, He, Hs.
Qed.

Lemma same_attributes_refl c : same_attributes c c = true.
Proof.
  unfold same_attributes. rewrite ci_equal_refl, (proj2 (same_text_iff _ _) eq_refl),
    (proj2 (time_eq_iff _ _) eq_refl). now destruct (secure c).
Qed.

Lemma partition_permutation {A} (f : A -> bool) l : 
  Permutation l (fst (partition f l) ++ snd (partition f l)).
Proof.
  induction l as [|a l IH]; cbn; [constructor|]. destruct (partition f l) as [g r].
  destruct (f a); cbn in *; [now constructor|]. rewrite <- Permutation_middle. now constructor.
Qed.

Lemma partition_true {A} (f : A -> bool) l : Forall (fun a => f a = true) (fst (partition f l)).
Proof.
  induction l as [|a l IH]; cbn; [constructor|]. destruct (partition f l) as [g r].
  destruct (f a) eqn:Hf; cbn in *; [now constructor|easy].
Qed.

Lemma group_view c group : Forall (fun g => same_attributes c g = true) group ->
  map view (map (named (as_loaded c)) (map base group)) = map view (map as_loaded group).
Proof.
  induction 1 as [|g group Hg _ IH]; cbn [map]; [reflexivity|]. now rewrite IH, same_attributes_view.
Qed.

Lemma load_one text hs L tk st : parse_header text L tk = Ret st ->
  load (mkHeader SET_COOKIE text :: hs) L tk = load hs (p_list st) (Cookie.ticks st).
Proof.
  intros Hp. cbn [Cookie.load_from_headers h_name h_value].
  change (ci_equal SET_COOKIE SET_COOKIE) with true. cbn [negb]. now rewrite Hp.
Qed.

(** The cookies that share a header with the first. *)
Lemma take_group c cookies : exists group rest,
  partition (same_attributes c) (c :: cookies) = (c :: group, rest) /\
  Permutation (c :: cookies) ((c :: group) ++ rest) /\ (length rest <= length cookies)%nat /\
  map view (map (named (as_loaded c)) (map base (c :: group))) = map view (map as_loaded (c :: group)).
Proof.
  pose proof (partition_permutation (same_attributes c) (c :: cookies)) as Hperm.
  pose proof (partition_true (same_attributes c) (c :: cookies)) as Hsame.
  cbn [partition] in *. rewrite same_attributes_refl in *.
  destruct (partition (same_attributes c) cookies) as [group rest]. cbn [fst snd] in *.
  exists group, rest. split; [easy|]. split; [easy|]. split; [|now apply group_view].
  apply Permutation_length in Hperm. rewrite length_app in Hperm. cbn in Hperm. lia.
Qed.

Lemma as_loaded_key cs : map key (map as_loaded cs) = map key cs.
Proof. now rewrite map_map. Qed.

Lemma set_cookie_loop_read fuel : forall cookies hs L tk,
  (length cookies <= fuel)%nat -> Forall writable cookies -> Forall lasting cookies ->
  NoDup (map key (cookies ++ L)) ->
  exists hs' L', set_cookie_loop fuel cookies hs = (hs ++ hs', Ret tt) /\
    load hs' L tk = Ret (L', None) /\ Permutation (map view L') (map view (map as_loaded cookies ++ L)).
Proof.
  induction fuel as [|fuel IH]; intros [|c cookies] hs L tk Hf HW HL Hd;
    try (exists [], L; cbn; now rewrite app_nil_r); try (cbn in Hf; lia).
  destruct (take_group c cookies) as (group & rest & Hpart & Hperm & Hlen & HG).
  set (G := c :: group) in *.
  pose proof (Permutation_map view (Permutation_map as_loaded Hperm)) as HP. rewrite !map_app in HP.
  pose proof (Permutation_Forall Hperm HW) as HWG. pose proof (Permutation_Forall Hperm HL) as HLG.
  apply Forall_app in HWG as [HWG HWr]. apply Forall_app in HLG as [HLG HLr].
  assert (Hd' : NoDup (map key ((rest ++ map (named (as_loaded c)) (map base G)) ++ L))).
  { rewrite map_app, <- as_loaded_key, <- map_app in Hd. rewrite map_app, map_app, <- (as_loaded_key rest), <- !map_app.
    rewrite view_key in Hd |- *. eapply Permutation_NoDup; [|exact Hd]. apply Permutation_map.
    rewrite !map_app, HG, HP. rewrite (Permutation_app_comm (map view (map as_loaded rest))). reflexivity. }
  destruct (parse_group c (base c) (map base group) L tk) as (a & st & Ha & Hp & Hl).
  { now inversion HWG. } { now inversion HLG. }
  { change (base c :: map base group) with (map base G). apply Forall_map.
    eapply Forall_impl; [|exact HWG]. apply writable_pair. }
  { rewrite <- app_assoc, map_app in Hd'. now apply NoDup_app_remove_l in Hd'. }
  change (base c :: map base group) with (map base G) in Hp, Hl.
  destruct (IH rest (hs ++ [mkHeader SET_COOKIE (join (map pair_text (map base G)) ++ a)])
    (p_list st) (Cookie.ticks st)) as (hs' & L' & H1 & H2 & H3); try easy; [cbn in Hf; lia| |].
  { rewrite Hl. now rewrite app_assoc. }
  exists (mkHeader SET_COOKIE (join (map pair_text (map base G)) ++ a) :: hs'), L'. split; [|split].
  - cbn [set_cookie_loop]. rewrite Hpart, Ha, <- (map_map base pair_text). fold G.
    now rewrite H1, <- app_assoc.
  - now rewrite (load_one _ _ _ _ _ Hp).
  - rewrite H3, Hl, !map_app, HG, HP.
    rewrite (app_assoc (map view (map as_loaded rest))), (Permutation_app_comm (map view (map as_loaded rest))). reflexivity.
Qed.

(** *** One cookie *)

Lemma load_plain c : writable c ->
  exists h, cookie_header_plain c = Ret h /\ forall L tk,
    load [mkHeader SET_COOKIE h] L tk =
      Ret (store (time_ne (expires c) TIME_ZERO && time_lt (expires c) (clock tk)) keep_expired (as_loaded c) L, None).
Proof.
  intros W. destruct (attributes_segments c W) as (d & Ha & Hsd & Htd & Hg).
  exists (pair_text (base c) ++ flat_map (cons (chr ";")) (attribute_segments c d)).
  unfold cookie_header_plain. rewrite Ha. split; [reflexivity|]. intros L tk.
  set (st0 := mkParse L (set_secure (secure_ url_address) CookieDef_new) true false tk).
  destruct (parse_attributes c d st0 W Htd Hg eq_refl eq_refl) as (tk' & Hpa).
  set (e := time_ne (expires c) TIME_ZERO && time_lt (expires c) (clock tk)) in *.
  assert (Hp : parse_header (pair_text (base c) ++ flat_map (cons (chr ";")) (attribute_segments c d)) L tk =
    Ret (mkParse (store e keep_expired (as_loaded c) L) (as_loaded c) false e tk')).
  { unfold Cookie.parse_header. fold st0.
    rewrite parse_loop_segments by (easy || now apply pair_no_semicolon, writable_pair).
    cbn [rev]. rewrite parse_segments_app, Hpa. cbn [bind].
    pose proof (parse_pair_text [] (base c)) as Hpair. cbn [app] in Hpair.
    rewrite Hpair; [|constructor|now apply writable_pair|exact (writable_complete c W)].
    cbn [p_list p_cookie expired ticks]. rewrite named_attributes by apply time_ne_zero.
    unfold named, set_name_value, as_loaded. now destruct c as [[] ? ? ? ?]. }
  now rewrite (load_one _ _ _ _ _ Hp).
Qed.
End Load.
