(* ===== verification/CookieLists.v ===== *)
(** * CookieLists: the properties of the lists of cookies

    Keys stay unique, what is sent is what the attributes allow, and the cookies
    a server sets come back to it. *)

From Stdlib Require Import ZArith List Bool Lia Permutation.
From S2P Require Import Prelude Ascii Numbers Text Time Calendar TimeFormat SubString Url HttpAddress Cookie CookieProps.
Import ListNotations.

(** ** Keys *)

Definition keys_ok (cookies : list CookieDef) : Prop :=
  NoDup (map key cookies) /\ Forall (fun c => name (base c) <> []) cookies.

Lemma replace_cookie_keys drop c l l' : replace_cookie drop c l = Some l' ->
  (forall k, In k (map key l') -> In k (map key l)) /\
  (NoDup (map key l) -> NoDup (map key l')) /\
  (forall P : CookieDef -> Prop, P c -> Forall P l -> Forall P l').
Proof.
  revert l'. induction l as [|it l IH]; intros l' H; [easy|]. cbn in H.
  destruct (same_cookie c it) eqn:Hs.
  - apply same_cookie_iff in Hs. injection H as <-. destruct drop; cbn.
    + split; [tauto|]. split; [intros Hd; now inversion Hd|intros P _ Hf; now inversion Hf].
    + rewrite Hs. split; [tauto|]. split; [easy|]. intros P Hc Hf. inversion Hf. now constructor.
  - destruct (replace_cookie drop c l) as [l2|]; [|easy]. injection H as <-.
    destruct (IH _ eq_refl) as (H1 & H2 & H3). cbn. split; [intros k [->|Hk]; auto|]. split.
    + intros Hd. inversion Hd; subst. constructor; auto.
    + intros P Hc Hf. inversion Hf; subst. constructor; auto.
Qed.

Lemma replace_cookie_not_in drop c l : replace_cookie drop c l = None -> ~ In (key c) (map key l).
Proof.
  induction l as [|it l IH]; cbn; [tauto|]. destruct (same_cookie c it) eqn:Hs; [easy|].
  destruct (replace_cookie drop c l); [easy|]. intros _ [He|Hin]; [|now apply IH].
  symmetry in He. apply same_cookie_iff in He. congruence.
Qed.

Lemma store_keys_ok e k c l : name (base c) <> [] -> keys_ok l -> keys_ok (store e k c l).
Proof.
  intros Hc [Hd Hn]. unfold store. destruct (replace_cookie _ c l) as [l'|] eqn:Hr.
  - destruct (replace_cookie_keys _ _ _ _ Hr) as (_ & H2 & H3). split; auto.
  - destruct (negb e || k); [|easy]. apply replace_cookie_not_in in Hr.
    split; [now constructor|now constructor].
Qed.

Section Load.
Context (clock : nat -> Time) (url_address : Address) (keep_expired : bool).

Lemma parse_control_list n v st st' : parse_control clock url_address n v st = Ret st' ->
  p_list st' = p_list st.
Proof.
  unfold parse_control. repeat (destruct (ci_equal _ n); [try (now intros [= <-])|]).
  - destruct (get_expires v); cbn; [now intros [= <-]|easy..].
  - now intros [= <-].
Qed.

Lemma parse_named_keys n v st st' : keys_ok (p_list st) ->
  parse_named clock url_address keep_expired n v st = Ret st' -> keys_ok (p_list st').
Proof.
  intros Hk. unfold parse_named. destruct (empty n) eqn:Hn; [now intros [= <-]|].
  destruct (if control_info st then _ else _) as [st1| |] eqn:H1; cbn [bind]; [|easy..].
  assert (H : p_list st1 = p_list st)
    by (destruct (control_info st); [now apply parse_control_list in H1|congruence]).
  destruct (control_info st1); intros [= <-]; [now rewrite H|]. cbn [p_list].
  apply store_keys_ok; [now destruct n|now rewrite H].
Qed.

Lemma parse_loop_keys r seg sep begun st st' : keys_ok (p_list st) ->
  parse_loop clock url_address keep_expired r seg sep begun st = Ret st' -> keys_ok (p_list st').
Proof.
  revert seg sep begun st. induction r as [|c r IH]; intros seg sep begun st Hk; cbn [parse_loop].
  - destruct begun; [now apply parse_named_keys|now intros [= <-]].
  - destruct (c =? chr ";"); [|destruct (c =? chr "="); now apply IH].
    destruct begun; cbn [bind]; [|now apply IH].
    destruct (parse_value _ _ _ seg sep st) as [st1| |] eqn:H1; cbn [bind]; [|easy..].
    apply IH. revert H1. now apply parse_named_keys.
Qed.

Lemma load_keys headers cookies tk cookies' e : keys_ok cookies ->
  load_from_headers clock url_address keep_expired headers cookies tk = Ret (cookies', e) ->
  keys_ok cookies'.
Proof.
  revert cookies tk. induction headers as [|h headers IH]; intros cookies tk Hk; cbn [load_from_headers];
    [now intros [= <- _]|].
  destruct (negb (ci_equal SET_COOKIE (h_name h))); [now apply IH|].
  destruct (parse_header _ _ _ (h_value h) cookies tk) as [st|ex|] eqn:Hp; [|now intros [= <- _]|easy].
  apply IH. revert Hp. now apply parse_loop_keys.
Qed.
End Load.

Lemma filter_keys f l : keys_ok l -> keys_ok (List.filter f l).
Proof.
  intros [Hd Hn]. split; [|now apply incl_Forall with (2 := Hn), incl_filter].
  clear Hn. induction l as [|c l IH]; cbn; [constructor|]. inversion Hd; subst.
  destruct (f c); [|auto]. cbn. constructor; [|auto].
  intros Hin. apply in_map_iff in Hin as (x & Hx & Hin). apply filter_In in Hin as [Hin _].
  rewrite <- Hx in H1. apply H1. now apply in_map.
Qed.

(** The lists that the operations make, from an empty one: headers are loaded
    (also when an exception ends the loading), cookies are sent, a session ends.
    [set_cookie_header] works on a copy. *)
Inductive made (keep_expired : bool) : list CookieDef -> Prop :=
  | made_empty : made keep_expired []
  | made_load clock url_address headers cookies tk cookies' e :
      made keep_expired cookies ->
      load_from_headers clock url_address keep_expired headers cookies tk = Ret (cookies', e) ->
      made keep_expired cookies'
  | made_send now url_address cookies :
      made keep_expired cookies ->
      made keep_expired (fst (list_cookie_header keep_expired now cookies url_address))
  | made_end_session now cookies :
      made keep_expired cookies -> made keep_expired (end_session now cookies).

(** C29: whatever headers are loaded, at whatever times, and whatever is sent or
    expires in between, no two cookies of a list have the same domain (up to the
    case of letters), path and name, and no cookie has an empty name. *)
Theorem cookie_unique keep_expired cookies (Hm : made keep_expired cookies) : keys_ok cookies.
Proof.
  induction Hm as [|clock u hs cs tk cs' e _ IH Hl|now u cs _ IH|now cs _ IH].
  - split; constructor.
  - now apply load_keys in Hl.
  - cbn. unfold expire_. destruct keep_expired; [easy|]. now apply filter_keys.
  - now apply filter_keys.
Qed.

(** ** What is sent *)

Lemma same_prefix p s : same_text (firstn (length p) s) p = true <-> exists q, s = p ++ q.
Proof.
  rewrite same_text_iff. split.
  - intros H. exists (skipn (length p) s). now rewrite <- H at 1; rewrite firstn_skipn.
  - intros [q ->]. rewrite firstn_app, firstn_all, Nat.sub_diag, firstn_0. apply app_nil_r.
Qed.

Lemma same_suffix d s : (length d <= length s)%nat ->
  ci_equal d (skipn (length s - length d) s) = true <->
  exists p, map to_lower s = p ++ map to_lower d.
Proof.
  intros Hl. rewrite ci_equal_iff. rewrite <- skipn_map. split.
  - intros ->. exists (firstn (length s - length d) (map to_lower s)). now rewrite firstn_skipn.
  - intros [p Hp]. rewrite Hp. assert (Hlen : (length s - length d = length p)%nat).
    { rewrite <- (length_map to_lower s), Hp, length_app, length_map. lia. }
    now rewrite Hlen, skipn_app, skipn_all, Nat.sub_diag.
Qed.

(** What the attributes of a cookie allow. *)
Definition allowed (url_address : Address) (c : CookieDef) : Prop :=
  (secure c = true -> secure_ url_address = true) /\
  (exists p, map to_lower (get_text Url.host url_address) = p ++ map to_lower (domain c)) /\
  (exists q, get_text Url.path url_address = path c ++ q).

Lemma sent_to_iff url_address c : sent_to url_address c = true <-> allowed url_address c.
Proof.
  unfold sent_to, allowed. set (host := get_text Url.host url_address).
  rewrite !andb_true_iff, negb_true_iff, orb_false_iff, andb_false_iff, negb_false_iff, Nat.ltb_ge, same_prefix.
  split.
  - intros [[[Hs Hl] Hd] Hp]. split; [destruct Hs; congruence|]. split; [|easy]. now apply same_suffix.
  - intros [Hs [Hd Hp]]. assert (Hl : (length (domain c) <= length host)%nat).
    { destruct Hd as [p Hd]. apply (f_equal (@length Z)) in Hd.
      rewrite length_app, !length_map in Hd. lia. }
    split; [|easy]. split; [split; [|easy]|now apply same_suffix].
    destruct (secure c); [right; auto|now left].
Qed.

(** The cookies that are still valid. *)
Definition current (now : Time) (c : CookieDef) : Prop :=
  expires c = TIME_ZERO \/ time_lt (expires c) now = false.

Lemma expire_in now cookies c :
  In c (expire false now cookies) <-> In c cookies /\ current now c.
Proof.
  unfold expire, current. rewrite filter_In. destruct (time_eq (expires c) TIME_ZERO) eqn:E.
  - apply time_eq_iff in E. tauto.
  - assert (expires c <> TIME_ZERO) by (intros H; apply time_eq_iff in H; congruence).
    rewrite negb_true_iff. tauto.
Qed.

Lemma filter_both {A} (f g : A -> bool) l :
  List.filter f (List.filter g l) = List.filter (fun a => g a && f a) l.
Proof.
  induction l as [|a l IH]; cbn; [easy|]. destruct (g a); cbn; [destruct (f a); now rewrite IH|easy].
Qed.

(** C28: the [Cookie] header for an address holds the names and values, in the
    order of the list, of exactly the cookies that are not out of date (unless
    such are kept), whose domain is a suffix of the host up to the case of
    letters, whose path is a prefix of the path, and that are not secure if the
    address is not; the cookies that are out of date leave the list. *)
Theorem cookie_sent_exact keep_expired now cookies url_address :
  exists sent,
    snd (list_cookie_header keep_expired now cookies url_address) =
      join (map (fun c => pair_text (base c)) sent) /\
    (forall c, In c sent <->
       In c cookies /\ (keep_expired = true \/ current now c) /\ allowed url_address c) /\
    (exists f, sent = List.filter f cookies) /\
    (forall c, In c (fst (list_cookie_header keep_expired now cookies url_address)) <->
       In c cookies /\ (keep_expired = true \/ current now c)).
Proof.
  cbn [list_cookie_header fst snd]. set (kept := expire_ keep_expired false now cookies).
  assert (Hk : forall c, In c kept <-> In c cookies /\ (keep_expired = true \/ current now c)).
  { intros c. unfold kept, expire_. destruct keep_expired; [tauto|]. rewrite expire_in.
    split; [tauto|]. intros [? [?|?]]; easy. }
  exists (List.filter (sent_to url_address) kept). split; [reflexivity|]. split; [|split; [|exact Hk]].
  - intros c. now rewrite filter_In, Hk, sent_to_iff.
  - unfold kept, expire_, expire. destruct keep_expired; [eauto|]. rewrite filter_both. eauto.
Qed.

(** ** The cookies a server reads *)

(** A cookie that can be written to a [Cookie] header. *)
Record sendable (c : Cookie) : Prop := {
  s_name : name c <> [] /\ trimmed (name c) /\ Forall (fun x => x <> chr "=") (name c);
  s_value : trimmed (value c);
  s_sep : cookie_sep (pair_text c) = length (pair_text c) }.

Lemma cookie_sep_before t r : cookie_sep t = length t -> cookie_sep (t ++ lit "; " ++ r) = length t.
Proof.
  induction t as [|c t IH]; intros H; [reflexivity|]. cbn [app cookie_sep length] in *.
  destruct (negb (c =? chr ";") && negb (c =? chr ",")); [injection H as H; now rewrite IH|].
  destruct t as [|d t]; [reflexivity|]. cbn [app] in *. destruct (d =? chr " "); [easy|].
  injection H as H. now rewrite IH.
Qed.

Lemma cookie_tokens_step fuel s : s <> [] ->
  cookie_tokens (S fuel) s =
  (ts <- cookie_tokens fuel (if (cookie_sep s =? length s)%nat then [] else skipn (cookie_sep s + 2) s) ;;
   Ret (firstn (cookie_sep s) s :: ts)).
Proof. now destruct s. Qed.

Lemma tokens_join fuel ts :
  Forall (fun t => t <> [] /\ cookie_sep t = length t) ts -> (length (join ts) <= fuel)%nat ->
  cookie_tokens fuel (join ts) = Ret ts.
Proof.
  revert fuel. induction ts as [|t ts IH]; intros fuel Ht Hf; [now destruct fuel|].
  inversion Ht as [|? ? [Hne Hs] Ht']; subst. destruct ts as [|u ts].
  - cbn [join] in *. destruct fuel as [|fuel]; [destruct t; [easy|cbn in Hf; lia]|].
    rewrite cookie_tokens_step by easy. rewrite Hs, Nat.eqb_refl, firstn_all. now destruct fuel.
  - change (join (t :: u :: ts)) with (t ++ lit "; " ++ join (u :: ts)) in *.
    set (r := join (u :: ts)) in *. rewrite !length_app in Hf. change (length (lit "; ")) with 2%nat in Hf.
    assert (Hlen : (0 < length t)%nat) by (destruct t; [easy|cbn; lia]).
    destruct fuel as [|fuel]; [lia|].
    rewrite cookie_tokens_step by (destruct t; easy).
    rewrite (cookie_sep_before t r Hs), (proj2 (Nat.eqb_neq _ _)) by (rewrite !length_app; cbn; lia).
    rewrite firstn_app, firstn_all, Nat.sub_diag, firstn_0, app_nil_r, app_assoc.
    replace (length t + 2)%nat with (length (t ++ lit "; ")) by now rewrite length_app.
    rewrite skipn_app, skipn_all, Nat.sub_diag. cbn [app skipn].
    rewrite IH by (easy || lia). reflexivity.
Qed.

Lemma sendable_text c : sendable c -> pair_text c <> [] /\ trimmed (pair_text c).
Proof.
  intros [(Hne & [Hf _] & _) [_ Hl] _]. unfold pair_text. destruct (name c) as [|x n]; [easy|].
  split; [easy|]. split; [exact Hf|]. rewrite !rev_app_distr. destruct (rev (value c)); [reflexivity|exact Hl].
Qed.

Lemma join_trimmed ts : Forall (fun t => t <> [] /\ trimmed t) ts -> trimmed (join ts).
Proof.
  induction 1 as [|t ts [Hne [Hf Hl]] Ht IH]; [easy|]. destruct ts as [|u ts]; [easy|].
  change (join (t :: u :: ts)) with (t ++ lit "; " ++ join (u :: ts)).
  assert (Hj : rev (join (u :: ts)) <> []).
  { inversion Ht as [|? ? [Hu _] _]; subst. intros E. apply (f_equal (@rev Z)) in E.
    rewrite rev_involutive in E. destruct ts; [easy|]. now destruct u. }
  destruct IH as [_ IH]. split; [now destruct t|].
  rewrite !rev_app_distr. now destruct (rev (join (u :: ts))).
Qed.

Lemma set_value_none n v cookies : ~ In n (map name cookies) -> set_value n v cookies = None.
Proof.
  induction cookies as [|it cs IH]; cbn; [easy|]. intros Hn.
  destruct (same_text n (name it)) eqn:E; [apply same_text_iff in E; symmetry in E; tauto|].
  now rewrite IH by tauto.
Qed.

Lemma load_token_pair rd c cookies : sendable c -> rd = true \/ ~ In (name c) (map name cookies) ->
  load_token rd (pair_text c) cookies = inl (cookies ++ [c]).
Proof.
  intros S Hd. destruct (sendable_text c S) as [Hne _]. destruct S as [(Hn & Htn & He) Hv _].
  assert (Hf : find_owned (Char1 (chr "=")) (pair_text c) = length (name c)).
  { unfold pair_text. rewrite find_owned_app; [cbn; lia|].
    eapply Forall_impl; [|exact He]. intros x. apply Z.eqb_neq. }
  assert (Hv' : skipn (length (name c) + 1) (pair_text c) = value c).
  { unfold pair_text. rewrite app_assoc.
    replace (length (name c) + 1)%nat with (length (name c ++ lit "=")) by now rewrite length_app.
    now rewrite skipn_app, skipn_all, Nat.sub_diag. }
  assert (Hn' : firstn (length (name c)) (pair_text c) = name c).
  { unfold pair_text. now rewrite firstn_app, firstn_all, Nat.sub_diag, firstn_0, app_nil_r. }
  unfold load_token. rewrite nonempty_empty, Hf, Hn', Hv', (trim_trimmed _ Htn), (trim_trimmed _ Hv) by easy.
  rewrite (proj2 (Nat.eqb_neq _ _)) by (unfold pair_text; rewrite !length_app; cbn; lia).
  rewrite nonempty_empty by easy. f_equal. destruct c as [n v]. cbn [name value] in *.
  destruct rd; [easy|]. destruct Hd as [Hd|Hd]; [easy|]. now rewrite set_value_none.
Qed.

Lemma load_tokens_pairs rd cs : Forall sendable cs -> forall cookies,
  rd = true \/ NoDup (map name (cookies ++ cs)) ->
  load_tokens rd (map pair_text cs) cookies = (cookies ++ cs, None).
Proof.
  induction 1 as [|c cs Hc Hs IH]; intros cookies Hd; cbn [map load_tokens]; [now rewrite app_nil_r|].
  rewrite load_token_pair; [|easy|].
  - rewrite IH, <- app_assoc; [easy|]. now rewrite <- app_assoc.
  - destruct Hd as [Hd|Hd]; [now left|right]. rewrite map_app in Hd. apply NoDup_remove_2 in Hd.
    rewrite in_app_iff in Hd. tauto.
Qed.

(** A server reads the [Cookie] header that [cookie_header] writes: it gets
    the cookies, in their order, provided that the names are not repeated or
    [replace_duplicate] is set (which makes repeated names stay). *)
Lemma cookie_list_roundtrip replace_duplicate cookies header_name
  (Hn : ci_equal COOKIE header_name = true)
  (Hs : Forall sendable cookies)
  (Hd : replace_duplicate = true \/ NoDup (map name cookies)) :
  CookieList_load replace_duplicate [mkHeader header_name (CookieList_cookie_header cookies)] [] =
  Ret (cookies, None).
Proof.
  cbn [CookieList_load h_name h_value]. rewrite Hn. cbn [negb]. unfold CookieList_cookie_header.
  rewrite trim_trimmed.
  2: { apply join_trimmed, Forall_map. eapply Forall_impl; [|exact Hs]. apply sendable_text. }
  rewrite tokens_join; [|apply Forall_map|lia].
  2: { eapply Forall_impl; [|exact Hs]. intros c S. split; [now apply sendable_text|apply S]. }
  cbn [bind]. now rewrite load_tokens_pairs.
Qed.

(** ** From a server to a client and back *)

(** What decides whether a cookie is sent is part of its view. *)
Lemma view_sent url_address now c c' : view c = view c' ->
  allowed url_address c' -> current now c' ->
  allowed url_address c /\ current now c /\ base c = base c'.
Proof.
  unfold view, key, allowed, current. intros [= Hd Hp Hn Hv He Hs]. rewrite Hd, Hp, He, Hs.
  intros Ha Hc. split; [exact Ha|]. split; [exact Hc|]. destruct (base c), (base c'). cbn in *. congruence.
Qed.

Lemma view_in loaded cookies c : Permutation (map view loaded) (map view cookies) -> In c loaded ->
  exists c', In c' cookies /\ view c = view c'.
Proof.
  intros Hp Hin. apply (in_map view) in Hin. apply (Permutation_in _ Hp) in Hin.
  apply in_map_iff in Hin as (c' & H1 & H2). eauto.
Qed.

Lemma view_base loaded cookies : Permutation (map view loaded) (map view cookies) ->
  Permutation (map base loaded) (map base cookies).
Proof.
  intros Hp. apply (Permutation_map (fun v => mkCookie (snd (fst v)) (fst (fst (snd v))))) in Hp.
  rewrite !map_map in Hp. cbn in Hp.
  assert (E : forall l, map (fun c => mkCookie (name (base c)) (value (base c))) l = map base l)
    by (intros l; apply map_ext; intros c; now destruct (base c)).
  now rewrite !E in Hp.
Qed.

(** Every cookie of the list is sent. *)
Lemma sent_all now url_address cookies :
  Forall (allowed url_address) cookies -> Forall (current now) cookies ->
  snd (list_cookie_header false now cookies url_address) = CookieList_cookie_header (map base cookies).
Proof.
  intros Ha Hc. unfold list_cookie_header, expire_, cookie_header, CookieList_cookie_header. cbn [snd].
  rewrite Forall_forall in Ha, Hc.
  assert (He : expire false now cookies = cookies).
  { apply forallb_filter_id, forallb_forall. intros c Hin.
    assert (H : In c (expire false now cookies)) by (apply expire_in; auto).
    now apply filter_In in H. }
  rewrite He, map_map, forallb_filter_id; [reflexivity|].
  apply forallb_forall. intros c Hin. apply sent_to_iff. auto.
Qed.

(** A cookie from an address is sent to it. *)
Lemma as_loaded_sent url_address now c : allowed url_address c -> current now c ->
  allowed url_address (as_loaded url_address c) /\ current now (as_loaded url_address c).
Proof.
  intros [Hs H] Hc. split; [|exact Hc]. split; [|exact H]. cbn. intros E. apply orb_true_iff in E as [E|E]; auto.
Qed.

(** C27: cookies that a server sets come back to it.  Its [Set-Cookie] headers,
    one for each group of cookies with the same attributes, are loaded by a
    client from an address: the list of the client holds the same cookies (the
    domains up to the case of letters, perhaps in another order), which are all
    secure when the address is.  The [Cookie] header of that list for the
    address makes the server load exactly the names and values it had set, with
    [replace_duplicate], or without it if no two of them have the same name
    (which would be merged).  The cookies are such that can be written to both
    headers and read back ([writable], [sendable]: no separators in their texts,
    no white space around them, a name that is not that of an attribute, a
    domain and a path), their keys are distinct, their attributes allow the
    address and none is out of date when it is loaded or sent. *)
Theorem cookie_session clock url_address now cookies header_name replace_duplicate
  (Hw : Forall writable cookies)
  (Hl : Forall (lasting clock false) cookies)
  (Hd : NoDup (map key cookies))
  (Hs : Forall sendable (map base cookies))
  (Ha : Forall (allowed url_address) cookies)
  (Hc : Forall (current now) cookies)
  (Hr : replace_duplicate = true \/ NoDup (map name (map base cookies)))
  (Hn : ci_equal COOKIE header_name = true) :
  exists headers loaded received,
    set_cookie_header cookies [] = (headers, Ret tt) /\
    load_from_headers clock url_address false headers [] 0 = Ret (loaded, None) /\
    Permutation (map view loaded) (map view (map (as_loaded url_address) cookies)) /\
    CookieList_load replace_duplicate
      [mkHeader header_name (snd (list_cookie_header false now loaded url_address))] [] =
      Ret (received, None) /\
    Permutation received (map base cookies).
Proof.
  destruct (set_cookie_loop_read clock url_address false (length cookies) cookies [] [] 0)
    as (hs & L & H1 & H2 & H3); try easy; [now rewrite app_nil_r|].
  rewrite app_nil_r in H3. exists hs, L, (map base L).
  assert (HL : Forall (fun c => allowed url_address c /\ current now c /\ sendable (base c)) L).
  { apply Forall_forall. intros c Hin. destruct (view_in _ _ _ H3 Hin) as (c' & (c0 & <- & Hin0)%in_map_iff & Hv).
    rewrite Forall_forall in Ha, Hc. rewrite Forall_map, Forall_forall in Hs.
    destruct (as_loaded_sent url_address now c0) as [? ?]; auto.
    destruct (view_sent url_address now _ _ Hv) as (? & ? & ->); auto. split; [easy|]. split; [easy|]. exact (Hs c0 Hin0). }
  apply Forall_and_inv in HL as [HLa HL]. apply Forall_and_inv in HL as [HLc HLs].
  assert (HB : Permutation (map base L) (map base cookies)) by (apply view_base in H3; now rewrite map_map in H3).
  split; [easy|]. split; [easy|]. split; [easy|]. split; [|exact HB].
  rewrite sent_all by easy. apply cookie_list_roundtrip; [easy|now apply Forall_map|].
  destruct Hr as [Hr|Hr]; [now left|right]. eapply Permutation_NoDup; [|exact Hr]. now apply Permutation_map, Permutation_sym.
Qed.

(** ** Sample lists *)

(** The cookies of the runs of [Cookie], and one without an expiration time. *)
Definition sample : list CookieDef := Eval vm_compute in
  mkCookieDef (mkCookie (lit "sid") (lit "a=1,b")) (lit "NET") (lit "/hserver") TIME_ZERO false :: loaded.

Ltac solve_writable :=
  constructor; cbn [base name value domain path expires];
    try (repeat split; try discriminate; try reflexivity; repeat constructor; discriminate);
    try (intros a Ha; cbn in Ha; repeat destruct Ha as [<-|Ha]; [reflexivity..|destruct Ha]);
    first [now left | right; vm_compute; now repeat split].

Lemma sample_writable : Forall writable sample.
Proof. repeat apply Forall_cons; try apply Forall_nil; solve_writable. Qed.

Lemma sample_keys : NoDup (map key sample).
Proof. repeat constructor; cbn; intros H; repeat destruct H as [H|H]; easy. Qed.

Lemma sample_lasting : Forall (lasting noon false) sample.
Proof. repeat constructor; right; (now left) || (right; now vm_compute). Qed.

Lemma sample_current : Forall (current (noon 0)) sample.
Proof. repeat constructor; (now left) || (right; now vm_compute). Qed.

Lemma sample_allowed url_address : forallb (sent_to url_address) sample = true -> Forall (allowed url_address) sample.
Proof.
  intros H. apply Forall_forall. intros c Hin. apply sent_to_iff. revert c Hin. now apply forallb_forall.
Qed.

Lemma sample_sendable : Forall sendable (map base sample).
Proof.
  repeat apply Forall_cons; try apply Forall_nil; constructor; cbn [base name value];
    repeat split; try discriminate; try reflexivity; repeat constructor; discriminate.
Qed.

Lemma cookie_unique_witness : keys_ok (fst (list_cookie_header false (noon 0) loaded acc_address)).
Proof.
  apply (cookie_unique false). apply made_send.
  apply (made_load false noon acc_address test_headers [] 0 loaded None); [apply made_empty|].
  vm_compute. reflexivity.
Defined.

(** From a plain address with [replace_duplicate], and from a secure one without. *)
Definition secure_address : Address := with_secure true acc_address.

Lemma cookie_session_witness :
  (exists headers loaded' received,
    set_cookie_header sample [] = (headers, Ret tt) /\
    load_from_headers noon acc_address false headers [] 0 = Ret (loaded', None) /\
    Permutation (map view loaded') (map view sample) /\
    CookieList_load true
      [mkHeader (lit "cookie") (snd (list_cookie_header false (noon 0) loaded' acc_address))] [] =
      Ret (received, None) /\
    Permutation received (map base sample)) /\
  exists headers loaded' received,
    set_cookie_header sample [] = (headers, Ret tt) /\
    load_from_headers noon secure_address false headers [] 0 = Ret (loaded', None) /\
    Permutation (map view loaded') (map view (map (set_secure true) sample)) /\
    CookieList_load false
      [mkHeader (lit "cookie") (snd (list_cookie_header false (noon 0) loaded' secure_address))] [] =
      Ret (received, None) /\
    Permutation received (map base sample).
Proof.
  split.
  - apply (cookie_session noon acc_address (noon 0) sample (lit "cookie") true sample_writable sample_lasting sample_keys
      sample_sendable (sample_allowed acc_address eq_refl) sample_current); [now left|reflexivity].
  - apply (cookie_session noon secure_address (noon 0) sample (lit "cookie") false sample_writable sample_lasting sample_keys
      sample_sendable (sample_allowed secure_address eq_refl) sample_current); [right|reflexivity].
    repeat constructor; cbn; intros H; repeat destruct H as [H|H]; easy.
Defined.

(** A cookie set for [example.com] goes to [badexample.com]: the suffix needs no
    dot before it. *)
Definition example_cookie : CookieDef :=
  mkCookieDef (mkCookie (lit "k") (lit "v")) (lit "example.com") (lit "/") TIME_ZERO false.

Lemma example_writable : writable example_cookie.
Proof. unfold example_cookie. solve_writable. Qed.

Lemma suffix_without_dot url_address :
  get_text Url.host url_address = lit "badexample.com" -> get_text Url.path url_address = lit "/" ->
  sent_to url_address example_cookie = true.
Proof.
  intros Hh Hp. apply sent_to_iff. split; [easy|]. rewrite Hh, Hp.
  split; [exists (lit "bad")|exists []]; reflexivity.
Qed.

(** [replace_duplicate] keeps the duplicates, its absence replaces them. *)
Lemma replace_duplicate_inverted :
  let h := [mkHeader COOKIE (lit "a=1; a=2")] in
  CookieList_load true h [] =
    Ret ([mkCookie (lit "a") (lit "1"); mkCookie (lit "a") (lit "2")], None) /\
  CookieList_load false h [] = Ret ([mkCookie (lit "a") (lit "2")], None).
Proof. split; reflexivity. Qed.
