(* ===== verification/CookieJar.v ===== *)
(** * CookieJar: a list of cookies as a map from keys

    The list of cookies represents a finite map whose keys are the domain (up to
    the case of letters), the path and the name: a [Set-Cookie] header updates or
    deletes one entry, and what expires leaves the map. *)

From stdpp Require Import base gmap list.
From Stdlib Require Import ZArith List Bool Lia.
From S2P Require Import Prelude Time SubString Url HttpAddress Cookie CookieProps CookieLists.
Import ListNotations.

Abbreviation cookie_key := (list Z * list Z * list Z)%type.

(** The map that a list represents. *)
Definition jar (cookies : list CookieDef) : gmap cookie_key CookieDef :=
  list_to_map (List.map (fun c => (key c, c)) cookies).

Lemma jar_cons c l : jar (c :: l) = <[key c := c]> (jar l).
Proof. reflexivity. Qed.

Lemma jar_absent k l : ~ List.In k (List.map key l) -> jar l !! k = None.
Proof.
  induction l as [|c l IH]; [easy|]. cbn [List.map List.In]. intros Hn.
  rewrite jar_cons, lookup_insert_ne by tauto. apply IH. tauto.
Qed.

Lemma replace_cookie_jar drop c l l' : List.NoDup (List.map key l) ->
  replace_cookie drop c l = Some l' ->
  jar l' = if drop then delete (key c) (jar l) else <[key c := c]> (jar l).
Proof.
  revert l'. induction l as [|it l IH]; intros l' Hd H; [easy|]. cbn in H.
  cbn [List.map] in Hd. apply List.NoDup_cons_iff in Hd as [Hn Hd].
  destruct (same_cookie c it) eqn:Hs.
  - apply same_cookie_iff in Hs. injection H as <-. rewrite !jar_cons, <- Hs.
    rewrite <- Hs in Hn. destruct drop.
    + now rewrite delete_insert_id by now apply jar_absent.
    + now rewrite jar_cons, insert_insert_eq.
  - destruct (replace_cookie drop c l) as [l2|] eqn:Hr; [|easy]. injection H as <-.
    assert (Hne : key c <> key it) by (intros E; apply same_cookie_iff in E; congruence).
    rewrite !jar_cons, (IH _ Hd eq_refl). destruct drop.
    + now rewrite delete_insert_ne.
    + now rewrite insert_insert_ne.
Qed.

(** What [parse_value] stores: an entry is set, or deleted when the cookie is
    out of date and such are not kept. *)
Lemma store_jar e keep_expired c l : List.NoDup (List.map key l) ->
  jar (store e keep_expired c l) =
  if e && negb keep_expired then delete (key c) (jar l) else <[key c := c]> (jar l).
Proof.
  intros Hd. unfold store. destruct (replace_cookie _ c l) as [l'|] eqn:Hr.
  - now apply replace_cookie_jar.
  - apply replace_cookie_not_in in Hr. apply jar_absent in Hr.
    destruct e, keep_expired; cbn; try reflexivity. now rewrite delete_id.
Qed.

(** C30: the [Set-Cookie] header of one cookie, loaded, sets that cookie in the
    list, made secure if the address is, and changes nothing else: it replaces the
    cookie with its key, or is added if there is none; and if it is out of date
    (and such are not kept) the cookie with its key leaves the list.  This is so
    for a list of named cookies with distinct keys and a cookie that can be
    written ([writable]): its texts have no semicolon and no white space around
    them; its name is not empty, has no equals sign and is not the name of an
    attribute; it has a domain, not a dot alone, and a path, not a backslash
    alone; and it expires never or at a whole second after the epoch. *)
Theorem cookie_set_one clock url_address keep_expired c (Hw : writable c) :
  exists h, cookie_header_plain c = Ret h /\
    forall cookies ticks, keys_ok cookies ->
    exists cookies',
      load_from_headers clock url_address keep_expired [mkHeader SET_COOKIE h] cookies ticks =
        Ret (cookies', None) /\
      jar cookies' =
        if time_ne (expires c) TIME_ZERO && time_lt (expires c) (clock ticks) && negb keep_expired
        then delete (key c) (jar cookies)
        else <[key c := as_loaded url_address c]> (jar cookies).
Proof.
  destruct (load_plain clock url_address keep_expired c Hw) as (h & Hh & Hload).
  exists h. split; [exact Hh|]. intros cookies ticks [Hd _]. eexists. split; [apply Hload|].
  change (key c) with (key (as_loaded url_address c)). now apply store_jar.
Qed.

(** From a plain address, and from a secure one. *)
Lemma cookie_set_one_witness :
  (exists h, cookie_header_plain example_cookie = Ret h /\
    forall cookies ticks, keys_ok cookies ->
    exists cookies',
      load_from_headers noon acc_address false [mkHeader SET_COOKIE h] cookies ticks = Ret (cookies', None) /\
      jar cookies' = <[key example_cookie := example_cookie]> (jar cookies)) /\
  exists h, cookie_header_plain example_cookie = Ret h /\
    forall cookies ticks, keys_ok cookies ->
    exists cookies',
      load_from_headers noon secure_address false [mkHeader SET_COOKIE h] cookies ticks = Ret (cookies', None) /\
      jar cookies' = <[key example_cookie := set_secure true example_cookie]> (jar cookies).
Proof.
  split.
  - exact (cookie_set_one noon acc_address false example_cookie example_writable).
  - exact (cookie_set_one noon secure_address false example_cookie example_writable).
Defined.
