(* ===== verification/Punycode.v ===== *)
(** * Punycode: src/src/String/StringManip.cpp, punycode_encode and punycode_decode

    RFC 3492 between wide strings and ASCII.  [wchar_t] is a signed 32-bit
    integer: arithmetic on it that leaves its range is undefined ([i32]), and a
    conversion to it wraps.  [size_t] is 64 bits and wraps.  Both functions
    return their [bool] and the string they leave in the output.

    The loop over the digits of a delta makes [q] ten times smaller, or [w] ten
    times greater, in each turn, so that 32 turns are enough and [k] stays
    small; [adapt] divides by 35. *)

From Stdlib Require Import ZArith List Bool Lia.
From S2P Require Import Prelude Ascii SubString.
Import ListNotations.

Definition DECODE : list Z := [
  26; 27; 28; 29; 30; 31; 32; 33; 34; 35; 36; 36; 36; 36; 36;
  36; 36;  0;  1;  2;  3;  4;  5;  6;  7;  8;  9; 10; 11; 12;
  13; 14; 15; 16; 17; 18; 19; 20; 21; 22; 23; 24; 25; 36; 36;
  36; 36; 36; 36;  0;  1;  2;  3;  4;  5;  6;  7;  8;  9; 10;
  11; 12; 13; 14; 15; 16; 17; 18; 19; 20; 21; 22; 23; 24; 25].

Definition ENCODE : list Z := lit "abcdefghijklmnopqrstuvwxyz0123456789".

Definition MAX_WCHAR_T : Z := 2 ^ 31 - 1.

(** A result of signed 32-bit arithmetic. *)
Definition i32 (z : Z) : outcome Z := if (- 2 ^ 31 <=? z) && (z <=? MAX_WCHAR_T) then Ret z else Undef.

Fixpoint adapt_loop (fuel : nat) (delta k : Z) : outcome (Z * Z) :=
  if 455 <? delta then
    match fuel with O => Undef | S fuel' => adapt_loop fuel' (Z.quot delta 35) (k + 36) end
  else Ret (delta, k).

Definition adapt (delta numpoints : Z) (firsttime : bool) : outcome Z :=
  let delta := if firsttime then Z.quot delta 700 else Z.shiftr delta 1 in
  if numpoints =? 0 then Undef
  else
    delta <- i32 (delta + Z.quot delta numpoints) ;;
    '(delta, k) <- adapt_loop 32 delta 0 ;;
    product <- i32 (36 * delta) ;;
    if delta + 38 =? 0 then Undef else Ret (k + Z.quot product (delta + 38)).

Definition threshold (k bias : Z) : Z := if k <=? bias then 1 else if bias + 26 <=? k then 26 else k - bias.

(** ** [punycode_encode] *)

(** The first loop: [false] with what was written so far, on a negative
    character. *)
Fixpoint encode_basic (input output : list Z) : bool * list Z :=
  match input with
  | [] => (true, output)
  | WCH :: rest =>
      if WCH <? 0 then (false, output)
      else encode_basic rest (if WCH <? 128 then output ++ [to_lower WCH] else output)
  end.

(** The digits of [delta]. *)
Fixpoint encode_digits (fuel : nat) (q k bias : Z) : outcome (list Z) :=
  match fuel with
  | O => Undef
  | S fuel' =>
      let t := threshold k bias in
      if q <? t then d <- rd ENCODE (Z.to_nat q) ;; Ret [d]
      else
        d <- rd ENCODE (Z.to_nat (t + Z.rem (q - t) (36 - t))) ;;
        r <- encode_digits fuel' (Z.quot (q - t) (36 - t)) (k + 36) bias ;;
        Ret (d :: r)
  end.

Record Encoder : Type := {
  output : list Z;
  handled : Z;
  delta : Z;
  bias : Z;
  first : bool;
}.

Definition add_delta (s : Encoder) (x : Z) : outcome Encoder :=
  d <- i32 (delta s + x) ;;
  Ret {| output := output s; handled := handled s; delta := d; bias := bias s; first := first s |}.

(** The character [not_less_than] is met. *)
Definition encode_char (s : Encoder) : outcome Encoder :=
  ds <- encode_digits 32 (delta s) 36 (bias s) ;;
  b <- adapt (delta s) (s32 (handled s + 1)) (first s) ;;
  Ret {| output := output s ++ ds; handled := handled s + 1; delta := 0; bias := b; first := false |}.

Fixpoint encode_scan (not_less_than : Z) (input : list Z) (s : Encoder) : outcome Encoder :=
  match input with
  | [] => Ret s
  | c :: rest =>
      if c <? not_less_than then s <- add_delta s 1 ;; encode_scan not_less_than rest s
      else if c =? not_less_than then s <- encode_char s ;; encode_scan not_less_than rest s
      else encode_scan not_less_than rest s
  end.

Definition least (not_less_than : Z) (input : list Z) : Z :=
  fold_left (fun found c => if (not_less_than <=? c) && (c <? found) then c else found) input MAX_WCHAR_T.

Fixpoint encode_loop (fuel : nat) (input : list Z) (not_less_than : Z) (s : Encoder) : outcome (list Z) :=
  if handled s <? size input then
    match fuel with
    | O => Undef
    | S fuel' =>
        let least_found := least not_less_than input in
        step <- i32 (least_found - not_less_than) ;;
        jump <- i32 (step * s32 (handled s + 1)) ;;
        s <- add_delta s jump ;;
        s <- encode_scan least_found input s ;;
        s <- add_delta s 1 ;;
        next <- i32 (least_found + 1) ;;
        encode_loop fuel' input next s
    end
  else Ret (output s).

Definition punycode_encode (input : list Z) : outcome (bool * list Z) :=
  match encode_basic input [] with
  | (false, output) => Ret (false, output)
  | (true, basic) =>
      r <- encode_loop (length input) input 128
             {| output := match basic with [] => [] | _ => basic ++ [chr "-"] end;
                handled := size basic; delta := 0; bias := 72; first := true |} ;;
      Ret (true, r)
  end.

(** ** [punycode_decode] *)

Definition digit_value (c : Z) : outcome Z :=
  let digit := schar c - 48 in
  if (0 <=? digit) && (digit <=? 74) then rd DECODE (Z.to_nat digit) else Ret 36.

(** The digits of a delta, added to [out]; [None]: the function returns
    [false]. *)
Fixpoint decode_digits (input : list Z) (w k bias out : Z) : outcome (option (list Z * Z)) :=
  match input with
  | [] => Ret None
  | c :: rest =>
      digit <- digit_value c ;;
      if 36 <=? digit then Ret None
      else
        x <- i32 (digit * w) ;;
        let out := u64 (out + x) in
        let t := threshold k bias in
        if digit <? t then Ret (Some (rest, out))
        else w <- i32 (w * (36 - t)) ;; decode_digits rest w (k + 36) bias out
  end.

(** [push_back], [memmove] and the assignment: [decoded] goes in at [out]. *)
Definition insert_at (output : list Z) (out : Z) (decoded : Z) : list Z :=
  firstn (Z.to_nat out) output ++ decoded :: skipn (Z.to_nat out) output.

Fixpoint decode_loop (fuel : nat) (input : list Z) (out decoded bias : Z) (output : list Z) : outcome (bool * list Z) :=
  match input with
  | [] => Ret (true, output)
  | _ =>
      match fuel with
      | O => Undef
      | S fuel' =>
          r <- decode_digits input 1 36 bias out ;;
          match r with
          | None => Ret (false, output)
          | Some (input', out') =>
              let n := size output + 1 in
              bias <- adapt (s32 (u64 (out' - out))) (s32 n) (out =? 0) ;;
              let decoded := s32 (decoded + out' / n) in
              let out' := out' mod n in
              decode_loop fuel' input' (out' + 1) decoded bias (insert_at output out' decoded)
          end
      end
  end.

Fixpoint decode_basic (input : list Z) (output : list Z) : bool * list Z :=
  match input with
  | [] => (true, output)
  | c :: rest => if negb (Z.land c 128 =? 0) then (false, output) else decode_basic rest (output ++ [c])
  end.

Definition punycode_decode (input : list Z) : outcome (bool * list Z) :=
  let at_ := rfind_ch input (chr "-") NPOS in
  if at_ =? NPOS then decode_loop (length input) input 0 128 72 []
  else
    match decode_basic (firstn (Z.to_nat at_) input) [] with
    | (false, output) => Ret (false, output)
    | (true, output) => decode_loop (length input) (skipn (Z.to_nat (at_ + 1)) input) 0 128 72 output
    end.

Example encode_example : punycode_encode [0xfc; 98; 0x4e2d; 0xfc] = Ret (true, lit "b-dhab7510f").
Proof. vm_compute. reflexivity. Qed.
Example decode_example : punycode_decode (lit "b-dhab7510f") = Ret (true, [0xfc; 98; 0x4e2d; 0xfc]).
Proof. vm_compute. reflexivity. Qed.

(** ** Digits *)

Lemma threshold_range k b : 1 <= threshold k b <= 26.
Proof. unfold threshold. destruct (Z.leb_spec k b), (Z.leb_spec (b + 26) k); lia. Qed.

Lemma i32_ok z : - 2 ^ 31 <= z <= MAX_WCHAR_T -> i32 z = Ret z.
Proof.
  intros H. unfold i32. destruct (Z.leb_spec (- 2 ^ 31) z); [|lia]. destruct (Z.leb_spec z MAX_WCHAR_T); [easy|lia].
Qed.

Lemma digit_ok d : 0 <= d < 36 -> exists c, rd ENCODE (Z.to_nat d) = Ret c /\ digit_value c = Ret d /\
  is_byte c /\ (c =? chr "-") = false /\ table_owned ALPHA_NUM c = true.
Proof.
  intros H.
  assert (forallb (fun d => match rd ENCODE (Z.to_nat d) with
    | Ret c => match digit_value c with Ret d' => (d' =? d) && (0 <=? c) && (c <? 256) && negb (c =? chr "-") && table_owned ALPHA_NUM c
               | _ => false end
    | _ => false end) (map Z.of_nat (seq 0 36)) = true) as F by (vm_compute; reflexivity).
  rewrite forallb_forall in F. specialize (F d ltac:(apply in_map_iff; exists (Z.to_nat d); rewrite in_seq; lia)).
  destruct (rd ENCODE (Z.to_nat d)) as [c| |]; [|discriminate..]. exists c.
  destruct (digit_value c) as [d'| |]; [|discriminate..]. bools. subst. unfold is_byte. repeat split; try easy; lia.
Qed.

(** The bound under which nothing overflows. *)
Definition MAX_DELTA : Z := 59652323.

Definition digit_chars (ds : list Z) : Prop :=
  Forall (fun c => (c =? chr "-") = false /\ table_owned ALPHA_NUM c = true) ds.

(** Reading back the digits of a number: [w] is the weight of the first of
    them, [w * q] what they are worth. *)
Lemma digits_back fuel : forall q k b w out Q,
  0 <= q < 10 ^ (Z.of_nat fuel - 1) -> (0 < fuel)%nat -> 0 < w -> w * q <= Q -> Q <= MAX_DELTA -> w <= 36 * Q + 1 ->
  0 <= out -> out + w * q < 2 ^ 63 ->
  exists ds, encode_digits fuel q k b = Ret ds /\ (0 < length ds <= fuel)%nat /\ digit_chars ds /\
    forall rest, decode_digits (ds ++ rest) w k b out = Ret (Some (rest, out + w * q)).
Proof.
  unfold MAX_DELTA. induction fuel as [|fuel IH]; intros q k b w out Q Hq Hf Hw HQ HM Hw' Ho Ho'; [lia|].
  cbn [encode_digits]. pose proof (threshold_range k b) as T. set (t := threshold k b) in *.
  destruct (Z.ltb_spec q t) as [L|L].
  - destruct (digit_ok q) as (c & -> & Dv & B & D & A); [lia|]. exists [c]. split; [easy|]. split; [cbn; lia|].
    split; [now repeat constructor|]. intros rest. cbn [app decode_digits]. rewrite Dv. cbn [bind].
    assert (0 <= w * q) by (apply Z.mul_nonneg_nonneg; lia).
    destruct (Z.leb_spec 36 q); [lia|]. rewrite i32_ok by (unfold MAX_WCHAR_T; lia). cbn [bind]. fold t.
    destruct (Z.ltb_spec q t); [|lia]. rewrite wrapu_small by lia. do 3 f_equal. lia.
  - set (m := 36 - t) in *. assert (Z.quot (q - t) m = (q - t) / m) as Eq by (apply Z.quot_div_nonneg; lia).
    assert (Z.rem (q - t) m = (q - t) mod m) as Er by (apply Z.rem_mod_nonneg; lia).
    rewrite Eq, Er. set (q' := (q - t) / m). set (r := (q - t) mod m).
    assert (q - t = m * q' + r /\ 0 <= r < m) as [Dm Rr] by (split; [apply Z.div_mod; lia|apply Z.mod_pos_bound; lia]).
    assert (0 <= q') as Hq' by (apply Z.div_pos; lia).
    destruct (digit_ok (t + r)) as (c & -> & Dv & B & D & A); [lia|]. cbn [bind].
    assert (w <= Q) as WQ by (enough (w * 1 <= w * q) by lia; apply Z.mul_le_mono_nonneg_l; lia).
    assert (w * q = (t + r) * w + w * m * q') as Ewq by (replace q with (t + r + m * q') by lia; ring).
    assert (0 <= (t + r) * w) as HA by (apply Z.mul_nonneg_nonneg; lia).
    assert (0 <= w * m * q') as HC by (repeat apply Z.mul_nonneg_nonneg; lia).
    assert (0 < w * m) as HWm by (apply Z.mul_pos_pos; lia).
    assert (w * m <= w * 35) as HWm' by (apply Z.mul_le_mono_nonneg_l; lia).
    destruct fuel as [|fuel]; [cbn in Hq; lia|].
    replace (Z.of_nat (S (S fuel)) - 1) with (Z.succ (Z.of_nat fuel)) in Hq by lia. rewrite Z.pow_succ_r in Hq by lia.
    assert (q' < 10 ^ (Z.of_nat (S fuel) - 1)) by (replace (Z.of_nat (S fuel) - 1) with (Z.of_nat fuel) by lia; assert (10 * q' <= m * q') by (apply Z.mul_le_mono_nonneg_r; lia); lia).
    destruct (IH q' (k + 36) b (w * m) (out + (t + r) * w) Q) as (ds & -> & Ld & Dd & Dec); try lia.
    exists (c :: ds). cbn [bind]. split; [easy|]. split; [cbn; lia|]. split; [now constructor|].
    intros rest. cbn [app decode_digits]. rewrite Dv. cbn [bind].
    destruct (Z.leb_spec 36 (t + r)); [lia|]. rewrite i32_ok by (unfold MAX_WCHAR_T; lia). cbn [bind]. fold t.
    destruct (Z.ltb_spec (t + r) t); [lia|]. rewrite wrapu_small by lia. fold m.
    rewrite i32_ok by (unfold MAX_WCHAR_T; lia). cbn [bind]. rewrite Dec. do 3 f_equal. lia.
Qed.

Lemma adapt_loop_ok fuel : forall d k, 0 <= d < 35 ^ Z.of_nat fuel ->
  exists d' k', adapt_loop fuel d k = Ret (d', k') /\ 0 <= d' <= 455.
Proof.
  induction fuel as [|fuel IH]; intros d k H; cbn [adapt_loop]; destruct (Z.ltb_spec 455 d).
  - cbn in H. lia.
  - exists d, k. split; [easy|lia].
  - apply IH. rewrite Nat2Z.inj_succ, Z.pow_succ_r in H by lia. rewrite Z.quot_div_nonneg by lia.
    split; [apply Z.div_pos; lia|apply Z.div_lt_upper_bound; lia].
  - exists d, k. split; [easy|lia].
Qed.

Lemma adapt_ok d n ft : 0 <= d <= MAX_DELTA -> 1 <= n -> exists b, adapt d n ft = Ret b.
Proof.
  unfold MAX_DELTA. intros D N. unfold adapt. destruct (Z.eqb_spec n 0); [lia|].
  set (d0 := if ft then Z.quot d 700 else Z.shiftr d 1).
  assert (0 <= d0 <= 59652323) as H0.
  { unfold d0. destruct ft; [rewrite Z.quot_div_nonneg by lia|rewrite Z.shiftr_div_pow2 by lia; change (2 ^ 1) with 2];
      Z.div_mod_to_equations; lia. }
  assert (0 <= Z.quot d0 n <= 59652323) as H1.
  { rewrite Z.quot_div_nonneg by lia. split; [apply Z.div_pos; lia|]. etransitivity; [apply Z.div_le_upper_bound with (q := d0)|]; nia. }
  rewrite i32_ok by (unfold MAX_WCHAR_T; lia). cbn [bind].
  destruct (adapt_loop_ok 32 (d0 + Z.quot d0 n) 0) as (d' & k & -> & H2); [split; [lia|apply Z.le_lt_trans with (2 ^ 31); [lia|reflexivity]]|]. cbn [bind].
  rewrite i32_ok by (unfold MAX_WCHAR_T; lia). cbn [bind]. destruct (Z.eqb_spec (d' + 38) 0); [lia|]. eauto.
Qed.

(** ** Encoder and decoder in step

    While the encoder goes through the characters [not_less_than], with [pre]
    behind it and [rest] before it, what the decoder has made of its output are
    the characters it has handled; [delta] is the way from the place of the
    last insertion, [decoded] times the number of places and [out], to the
    place of the next one. *)

Definition low (c : Z) : Z := if c <? 128 then to_lower c else c.
Definition upto (n : Z) (s : list Z) : list Z := filter (fun c => c <=? n) s.
Definition below (n : Z) (s : list Z) : list Z := filter (fun c => c <? n) s.
Definition made (n : Z) (pre rest : list Z) : list Z := map low (upto n pre ++ below n rest).

Record in_step (n : Z) (pre rest : list Z) (s : Encoder) (out decoded : Z) : Prop := {
  step_handled : handled s = size (made n pre rest);
  step_delta : decoded * (handled s + 1) + out + delta s = n * (handled s + 1) + size (upto n pre);
  step_decoded : 128 <= decoded <= n;
  step_out : 0 <= out <= handled s;
  step_first : first s = (out =? 0);
  step_pos : 0 <= delta s
}.

Lemma made_move n pre c rest : c <> n ->
  made n (pre ++ [c]) rest = made n pre (c :: rest) /\
  upto n (pre ++ [c]) = upto n pre ++ (if c <? n then [c] else []).
Proof.
  intros N. unfold made, upto, below. rewrite filter_app. cbn [filter].
  destruct (Z.ltb_spec c n); destruct (Z.leb_spec c n); try lia; rewrite <- ?app_assoc, ?app_nil_r; easy.
Qed.

Lemma made_size n pre rest : size (made n pre rest) = size (upto n pre) + size (below n rest).
Proof. unfold made. rewrite length_map, length_app. lia. Qed.

Lemma made_size_le n pre rest : size (made n pre rest) <= size (pre ++ rest).
Proof.
  rewrite made_size, length_app. unfold upto, below.
  pose proof (filter_length_le (fun c => c <=? n) pre). pose proof (filter_length_le (fun c => c <? n) rest). lia.
Qed.

(** One turn of the decoder. *)
Lemma decode_step ds a b bias bias' delta out decoded n :
  let h := size (a ++ b) in
  ds <> [] -> (forall rest, decode_digits (ds ++ rest) 1 36 bias out = Ret (Some (rest, out + delta))) ->
  adapt delta (h + 1) (out =? 0) = Ret bias' ->
  decoded * (h + 1) + out + delta = n * (h + 1) + size a ->
  0 <= delta <= MAX_DELTA -> 0 <= n <= MAX_DELTA -> h <= MAX_DELTA ->
  forall tail fuel,
    decode_loop (S fuel) (ds ++ tail) out decoded bias (a ++ b) = decode_loop fuel tail (size a + 1) n bias' (a ++ n :: b).
Proof.
  cbv zeta. intros N Back Eb E D Hn Hh tail fuel. unfold MAX_DELTA in *.
  assert (size a <= size (a ++ b)) as La by (rewrite length_app; lia). set (h := size (a ++ b)) in *.
  destruct ds as [|d ds]; [easy|]. cbn [decode_loop app]. rewrite (app_comm_cons ds tail d), Back. cbn [bind]. fold h.
  replace (out + delta - out) with delta by lia.
  rewrite (wrapu_small 64), (wraps_small 32 delta), (wraps_small 32 (h + 1)), Eb by lia. cbn [bind].
  replace (out + delta) with ((n - decoded) * (h + 1) + size a) by lia.
  rewrite Z.div_add_l, (Z.div_small (size a)) by lia.
  replace ((n - decoded) * (h + 1) + size a) with (size a + (n - decoded) * (h + 1)) by lia.
  rewrite Z.mod_add, (Z.mod_small (size a)) by lia. replace (decoded + (n - decoded + 0)) with n by lia.
  rewrite wraps_small by lia. unfold insert_at.
  rewrite Nat2Z.id, firstn_app, skipn_app, firstn_all, skipn_all, Nat.sub_diag.
  cbn [firstn skipn app]. now rewrite app_nil_r.
Qed.

Section Step.
Variables (M : Z) (input : list Z).
Hypothesis small : (size input + 1) * (M + 1) <= MAX_DELTA.
Hypothesis M_ok : 0 <= M.

Lemma delta_bound n pre rest s out decoded :
  in_step n pre rest s out decoded -> pre ++ rest = input -> n <= M -> delta s <= (size input + 1) * (M + 1).
Proof.
  intros [H1 H2 H3 H4 H5 H6] E L. pose proof (made_size_le n pre rest) as S. rewrite E, <- H1 in S.
  pose proof (made_size n pre rest) as S2. rewrite <- H1 in S2.
  assert (delta s <= (n - decoded + 1) * (handled s + 1)) by nia.
  assert ((n - decoded + 1) * (handled s + 1) <= (M + 1) * (size input + 1)) by (apply Z.mul_le_mono_nonneg; lia). lia.
Qed.

(** A character is met and encoded, and decoded again. *)
Lemma encode_char_step n pre rest s out decoded :
  in_step n pre (n :: rest) s out decoded -> pre ++ n :: rest = input -> n <= M -> 128 <= n ->
  let out' := size (upto n pre) + 1 in
  exists s' ds, encode_char s = Ret s' /\ output s' = output s ++ ds /\ (0 < length ds <= 32)%nat /\ digit_chars ds /\
    in_step n (pre ++ [n]) rest s' out' n /\
    forall tail fuel,
      decode_loop (S fuel) (ds ++ tail) out decoded (bias s) (made n pre (n :: rest))
      = decode_loop fuel tail out' n (bias s') (made n (pre ++ [n]) rest).
Proof.
  intros I E L N. cbv zeta. pose proof (delta_bound _ _ _ _ _ _ I E L) as B. destruct I as [H1 H2 H3 H4 H5 H6].
  set (pos := size (upto n pre)) in *. unfold MAX_DELTA in small.
  assert (made n pre (n :: rest) = map low (upto n pre) ++ map low (below n rest)) as Em.
  { unfold made, below. cbn [filter]. rewrite Z.ltb_irrefl. apply map_app. }
  assert (made n (pre ++ [n]) rest = map low (upto n pre) ++ n :: map low (below n rest)) as Em'.
  { unfold made, upto. rewrite filter_app. cbn [filter]. rewrite Z.leb_refl, <- app_assoc, map_app. cbn [app map].
    unfold low at 2. destruct (Z.ltb_spec n 128); [lia|easy]. }
  assert (0 <= handled s <= size input /\ pos <= handled s) as [Hh Hp].
  { pose proof (made_size_le n pre (n :: rest)) as S. rewrite E, <- H1 in S. pose proof (made_size n pre (n :: rest)). lia. }
  assert (1 * (size input + 1) <= (M + 1) * (size input + 1)) as Hs by (apply Z.mul_le_mono_nonneg_r; lia).
  destruct (digits_back 32 (delta s) 36 (bias s) 1 out (delta s)) as (ds & Eds & Lds & Dds & Back);
    [split; [lia|apply Z.le_lt_trans with (2 ^ 31); [lia|reflexivity]]|lia|lia|lia|unfold MAX_DELTA; lia|lia|lia|lia|].
  destruct (adapt_ok (delta s) (handled s + 1) (first s)) as (b & Eb); [unfold MAX_DELTA; lia|lia|].
  assert (s32 (handled s + 1) = handled s + 1) as E32 by (apply wraps_small; lia).
  exists {| output := output s ++ ds; handled := handled s + 1; delta := 0; bias := b; first := false |}, ds.
  unfold encode_char. rewrite Eds. cbn [bind]. rewrite E32, Eb. cbn [bind output bias].
  split; [easy|]. split; [easy|]. split; [easy|]. split; [easy|]. split.
  - split; cbn [handled delta first].
    + rewrite Em', H1, Em, !length_app. cbn [length]. lia.
    + unfold upto. rewrite filter_app, length_app. cbn [filter]. rewrite Z.leb_refl. cbn [length]. fold (upto n pre). lia.
    + lia.
    + lia.
    + symmetry. apply Z.eqb_neq. lia.
    + lia.
  - intros tail fuel. assert (size (map low (upto n pre)) = pos) as Sp by (unfold pos; now rewrite length_map).
    assert (size (map low (upto n pre) ++ map low (below n rest)) = handled s) as Sz by (now rewrite <- Em, H1).
    rewrite Em, Em', <- Sp. apply (decode_step ds _ _ _ _ (delta s)); rewrite ?Sz, ?Sp; unfold MAX_DELTA; try lia.
    + intros ->. destruct Lds as [Lds _]. inversion Lds.
    + intros rest'. rewrite Back. do 3 f_equal. lia.
    + now rewrite <- H5.
Qed.

(** The rest of a scan. *)
Lemma scan_step n : 128 <= n -> n <= M -> forall rest pre s out decoded,
  in_step n pre rest s out decoded -> pre ++ rest = input ->
  exists s' ext out' decoded', encode_scan n rest s = Ret s' /\ output s' = output s ++ ext /\
    (length ext <= 32 * length rest)%nat /\ digit_chars ext /\ in_step n input [] s' out' decoded' /\
    forall tail fuel, (length ext <= fuel)%nat -> exists fuel', (fuel - length ext <= fuel')%nat /\
      decode_loop fuel (ext ++ tail) out decoded (bias s) (made n pre rest)
      = decode_loop fuel' tail out' decoded' (bias s') (made n input []).
Proof.
  intros N L. induction rest as [|c rest IH]; intros pre s out decoded I E.
  - rewrite app_nil_r in E. subst pre. exists s, [], out, decoded. cbn [encode_scan length]. rewrite app_nil_r.
    split; [easy|]. split; [easy|]. split; [lia|]. split; [constructor|]. split; [easy|].
    intros tail fuel _. exists fuel. split; [lia|easy].
  - cbn [encode_scan]. pose proof (delta_bound _ _ _ _ _ _ I E L) as B.
    assert ((pre ++ [c]) ++ rest = input) as E' by (now rewrite <- app_assoc).
    destruct (Z.ltb_spec c n) as [C|C]; [|destruct (Z.eqb_spec c n) as [->|C']].
    + destruct (made_move n pre c rest) as [Em Eu]; [lia|]. replace (c <? n) with true in Eu by lia.
      unfold add_delta. rewrite i32_ok by (unfold MAX_DELTA, MAX_WCHAR_T in *; destruct I; lia). cbn [bind].
      edestruct (IH (pre ++ [c]) {| output := output s; handled := handled s; delta := delta s + 1; bias := bias s; first := first s |}
        out decoded) as (s' & ext & out' & decoded' & -> & Eo & Le & De & I' & Dec); [|exact E'|].
      * destruct I. split; cbn [handled delta first]; try easy; [now rewrite Em| |lia].
        rewrite Eu, length_app. cbn [length]. lia.
      * rewrite Em in Dec. cbn [output bias] in *. exists s', ext, out', decoded'.
        split; [easy|]. split; [easy|]. split; [cbn; lia|]. easy.
    + destruct (encode_char_step n pre rest s out decoded I E L N) as (s1 & ds & -> & Eo1 & Ld & Dd & I1 & Dec1).
      cbn [bind]. destruct (IH _ _ _ _ I1 E') as (s' & ext & out' & decoded' & -> & Eo & Le & De & I' & Dec).
      exists s', (ds ++ ext), out', decoded'. split; [easy|]. split; [now rewrite Eo, Eo1, app_assoc|].
      split; [rewrite length_app; cbn [length]; lia|]. split; [now apply Forall_app|]. split; [easy|].
      intros tail fuel Lf. rewrite length_app in Lf. destruct fuel as [|fuel]; [lia|]. rewrite <- app_assoc, Dec1.
      destruct (Dec tail fuel) as (fuel' & Lf' & ->); [lia|]. exists fuel'. split; [rewrite length_app; lia|easy].
    + destruct (made_move n pre c rest C') as [Em Eu]. replace (c <? n) with false in Eu by lia. rewrite app_nil_r in Eu.
      edestruct (IH (pre ++ [c]) s out decoded) as (s' & ext & out' & decoded' & -> & Eo & Le & De & I' & Dec); [|exact E'|].
      * destruct I. split; rewrite ?Em, ?Eu; easy.
      * rewrite Em in Dec. exists s', ext, out', decoded'.
        split; [easy|]. split; [easy|]. split; [cbn; lia|]. easy.
Qed.

Lemma least_spec n s : let m := least n s in
  (m = MAX_WCHAR_T \/ (In m s /\ n <= m)) /\ (forall c, In c s -> n <= c -> m <= c \/ MAX_WCHAR_T <= c).
Proof.
  cbv zeta. unfold least. set (step := fun found c => if (n <=? c) && (c <? found) then c else found).
  assert (forall s a, (fold_left step s a = a \/ (In (fold_left step s a) s /\ n <= fold_left step s a)) /\
    fold_left step s a <= a /\ forall c, In c s -> n <= c -> fold_left step s a <= c) as G.
  { induction s0 as [|c s0 IH]; intros a; cbn [fold_left]; [split; [now left|split; [lia|easy]]|].
    destruct (IH (step a c)) as (G1 & G2 & G3).
    assert (step a c = a \/ (step a c = c /\ n <= c /\ c < a)) as Sa
      by (unfold step; destruct (Z.leb_spec n c), (Z.ltb_spec c a); cbn [andb]; auto).
    assert (n <= c -> step a c <= c) as Sc by (unfold step; destruct (Z.leb_spec n c), (Z.ltb_spec c a); cbn [andb]; lia).
    split; [|split; [lia|]].
    - destruct G1 as [G1|[G1 G1']]; [|right; split; [now right|easy]]. rewrite G1.
      destruct Sa as [->|(-> & Hc & _)]; [now left|right; split; [now left|easy]].
    - intros d [<-|I] Hd; [lia|now apply G3]. }
  destruct (G s MAX_WCHAR_T) as (G1 & G2 & G3). split; [easy|]. intros c I Hc. left. auto.
Qed.

Lemma below_le n s : (length (below n s) <= length s)%nat.
Proof. apply filter_length_le. Qed.

(** Something is left as long as not everything is below [n]. *)
Lemma below_short n s : (length (below n s) < length s)%nat -> exists c, In c s /\ n <= c.
Proof.
  induction s as [|c s IH]; cbn; [lia|]. destruct (Z.ltb_spec c n); cbn [length].
  - intros L. destruct IH as (d & I & D); [unfold below; lia|]. exists d. auto.
  - intros _. exists c. auto.
Qed.

Lemma below_all n s : length (below n s) = length s -> below n s = s.
Proof.
  induction s as [|c s IH]; cbn; [easy|]. pose proof (below_le n s) as L. unfold below in *.
  destruct (c <? n); cbn [length]; intros E; [f_equal; apply IH; lia|lia].
Qed.

Lemma below_jump n m s : n <= m -> (forall c, In c s -> n <= c -> m <= c) -> below m s = below n s.
Proof.
  intros L H. apply filter_ext_in. intros c I. destruct (Z.ltb_spec c m), (Z.ltb_spec c n); try lia. now specialize (H c I); lia.
Qed.

Lemma upto_below n s : upto n s = below (n + 1) s.
Proof. apply filter_ext. intros c. lia. Qed.

Lemma below_more n s : In n s -> (length (below n s) < length (below (n + 1) s))%nat.
Proof.
  assert (forall t, length (below n t) <= length (below (n + 1) t))%nat as G.
  { induction t as [|c t IH]; cbn; [lia|]. unfold below in *.
    destruct (Z.ltb_spec c n), (Z.ltb_spec c (n + 1)); cbn [length]; lia. }
  induction s as [|c s IH]; [easy|]. intros [->|I]; cbn.
  - rewrite Z.ltb_irrefl. replace (n <? n + 1) with true by lia. cbn [length]. specialize (G s). unfold below in *. lia.
  - specialize (IH I). unfold below in *. destruct (Z.ltb_spec c n), (Z.ltb_spec c (n + 1)); cbn [length]; lia.
Qed.

Hypothesis chars : Forall (fun c => 0 <= c < M) input.

Lemma least_found n : (length (below n input) < length input)%nat ->
  let m := least n input in
  In m input /\ n <= m < M /\ below m input = below n input.
Proof.
  intros L. cbv zeta. destruct (below_short n input L) as (c & I & C).
  destruct (least_spec n input) as [G1 G2]. cbv zeta in *. rewrite Forall_forall in chars.
  assert (M <= MAX_WCHAR_T) as HM by (unfold MAX_DELTA, MAX_WCHAR_T in *; nia).
  pose proof (chars c I) as Hc. destruct (G2 c I C) as [G|G]; [|lia].
  destruct G1 as [G1|[G1 G1']]; [lia|]. pose proof (chars _ G1). split; [easy|]. split; [lia|].
  apply below_jump; [lia|]. intros d Id Hd. destruct (G2 d Id Hd) as [|G']; [easy|]. pose proof (chars d Id). lia.
Qed.

(** The jump to the next character: [delta] grows by all places of the
    characters between. *)
Lemma jump_step n m s out decoded : in_step n [] input s out decoded -> n <= m < M -> below m input = below n input ->
  exists s1, (step <- i32 (m - n) ;; jump <- i32 (step * s32 (handled s + 1)) ;; add_delta s jump) = Ret s1 /\
    output s1 = output s /\ bias s1 = bias s /\ in_step m [] input s1 out decoded.
Proof.
  intros I L E. pose proof (delta_bound _ _ _ _ _ _ I eq_refl ltac:(lia)) as B.
  pose proof (made_size_le n [] input) as Sl. cbn [app] in Sl. destruct I as [H1 H2 H3 H4 H5 H6].
  assert (1 * (size input + 1) <= (M + 1) * (size input + 1)) as Hs by (apply Z.mul_le_mono_nonneg_r; lia).
  assert ((m - n) * (handled s + 1) <= M * (size input + 1)) as Hj by (apply Z.mul_le_mono_nonneg; lia).
  assert (0 <= (m - n) * (handled s + 1)) as Hj0 by (apply Z.mul_nonneg_nonneg; lia).
  unfold MAX_DELTA, add_delta in *. cbn [upto filter length] in H2.
  rewrite i32_ok by (unfold MAX_WCHAR_T; lia). cbn [bind]. rewrite wraps_small by lia.
  rewrite i32_ok by (unfold MAX_WCHAR_T; lia). cbn [bind]. rewrite i32_ok by (unfold MAX_WCHAR_T; lia). cbn [bind].
  eexists. split; [reflexivity|]. split; [easy|]. split; [easy|].
  assert (made m [] input = made n [] input) as Em by (unfold made, upto; cbn [filter app]; now rewrite E).
  split; cbn [handled delta first]; [now rewrite Em| |lia|lia|easy|lia]. cbn [upto filter length]. lia.
Qed.

(** From the end of a scan to the beginning of the next. *)
Lemma next_step m s out decoded : in_step m input [] s out decoded -> m < M -> 128 <= m ->
  exists s1, add_delta s 1 = Ret s1 /\ output s1 = output s /\ bias s1 = bias s /\
    in_step (m + 1) [] input s1 out decoded /\ made (m + 1) [] input = made m input [].
Proof.
  intros I L N. pose proof (delta_bound _ _ _ _ _ _ I (app_nil_r _) ltac:(lia)) as B. destruct I as [H1 H2 H3 H4 H5 H6].
  assert (made (m + 1) [] input = made m input []) as Em.
  { unfold made. cbn [upto below filter app]. rewrite app_nil_r. f_equal. symmetry. apply upto_below. }
  unfold add_delta. rewrite i32_ok by (unfold MAX_DELTA, MAX_WCHAR_T in *; lia). cbn [bind].
  eexists. split; [reflexivity|]. split; [easy|]. split; [easy|]. split; [|easy].
  assert (size (upto m input) = handled s) as Eh by (rewrite H1, made_size; cbn; lia).
  split; cbn [handled delta first]; [now rewrite Em| |lia|lia|easy|lia]. cbn [upto filter length]. lia.
Qed.

Lemma loop_step fuel : forall n s out decoded, in_step n [] input s out decoded -> 128 <= n <= M ->
  (length input <= fuel + length (below n input))%nat ->
  exists ext, encode_loop fuel input n s = Ret (output s ++ ext) /\ digit_chars ext /\
    (length ext <= 32 * length input * fuel)%nat /\
    forall fuel', (length ext <= fuel')%nat ->
      decode_loop fuel' ext out decoded (bias s) (made n [] input) = Ret (true, map low input).
Proof.
  induction fuel as [|fuel IH]; intros n s out decoded I N F; cbn [encode_loop];
    assert (handled s = size (below n input)) as Eh by (rewrite (step_handled _ _ _ _ _ _ I), made_size; cbn; lia);
    pose proof (below_le n input) as Le.
  - destruct (Z.ltb_spec (handled s) (size input)); [lia|]. exists []. rewrite app_nil_r.
    split; [easy|]. split; [constructor|]. split; [cbn; lia|]. intros fuel' _.
    unfold made. cbn [upto filter app]. rewrite below_all by lia. now destruct fuel'.
  - destruct (Z.ltb_spec (handled s) (size input)) as [L|L].
    + destruct (least_found n) as (Im & Rm & Em); [lia|]. set (m := least n input) in *.
      destruct (jump_step n m s out decoded I Rm Em) as (s1 & E1 & Eo1 & Eb1 & I1).
      destruct (i32 (m - n)) as [st| |]; [|discriminate..]. cbn [bind] in E1 |- *.
      destruct (i32 (st * s32 (handled s + 1))) as [jump| |]; [|discriminate..]. cbn [bind] in E1 |- *. rewrite E1. cbn [bind].
      destruct (scan_step m ltac:(lia) ltac:(lia) input [] s1 out decoded I1 eq_refl)
        as (s2 & ext & out2 & decoded2 & -> & Eo2 & Le2 & D2 & I2 & Dec2). cbn [bind].
      destruct (next_step m s2 out2 decoded2 I2 ltac:(lia) ltac:(lia)) as (s3 & -> & Eo3 & Eb3 & I3 & Em3). cbn [bind].
      rewrite i32_ok by (unfold MAX_DELTA, MAX_WCHAR_T in *; nia). cbn [bind].
      destruct (IH (m + 1) s3 out2 decoded2 I3) as (ext' & -> & D' & Le' & Dec'); [lia| |].
      { pose proof (below_more m input Im). rewrite Em in *. lia. }
      exists (ext ++ ext'). rewrite Eo3, Eo2, Eo1, app_assoc. split; [easy|]. split; [now apply Forall_app|].
      rewrite length_app. split; [lia|]. intros fuel' Lf.
      assert (made n [] input = made m [] input) as -> by (unfold made, upto; cbn [filter app]; now rewrite Em).
      destruct (Dec2 ext' fuel') as (fuel2 & Lf2 & E2); [lia|]. rewrite <- Eb1, E2, <- Em3, <- Eb3. apply Dec'. lia.
    + exists []. rewrite app_nil_r. split; [easy|]. split; [constructor|]. split; [cbn; lia|]. intros fuel' _.
      unfold made. cbn [upto filter app]. rewrite below_all by lia. now destruct fuel'.
Qed.
End Step.

Lemma encode_basic_ok s : Forall (fun c => 0 <= c) s -> forall out,
  encode_basic s out = (true, out ++ map low (below 128 s)).
Proof.
  induction 1 as [|c s H _ IH]; intros out; cbn [encode_basic]; [now rewrite app_nil_r|].
  destruct (Z.ltb_spec c 0); [lia|]. rewrite IH. unfold below. cbn [filter].
  destruct (Z.ltb_spec c 128) as [L|]; [|easy]. rewrite <- app_assoc. cbn [map app]. unfold low at 2.
  destruct (Z.ltb_spec c 128); [easy|lia].
Qed.

Lemma low_basic c : 0 <= c < 128 -> 0 <= low c < 128.
Proof.
  intros H. unfold low. destruct (Z.ltb_spec c 128); [|lia]. rewrite to_lower_spec by (unfold is_byte; lia).
  destruct (_ && _) eqn:E; bools; lia.
Qed.

Lemma decode_basic_ok s : Forall (fun c => 0 <= c < 128) s -> forall out, decode_basic s out = (true, out ++ s).
Proof.
  induction 1 as [|c s H _ IH]; intros out; cbn [decode_basic]; [now rewrite app_nil_r|].
  replace (Z.land c 128) with 0; [cbn [Z.eqb negb]; now rewrite IH, <- app_assoc|].
  symmetry. apply Z.bits_inj_0. intros k. rewrite Z.land_spec. change 128 with (2 ^ 7). rewrite Z.pow2_bits_eqb by lia.
  destruct (Z.eqb_spec 7 k) as [<-|]; [|apply andb_false_r]. rewrite andb_true_r. apply Z.bits_above_log2; [lia|].
  destruct (Z.eq_dec c 0) as [->|]; [cbn; lia|]. apply Z.log2_lt_pow2; lia.
Qed.

(** Letters, digits and hyphens: what a host name is made of. *)
Definition host_char (c : Z) : Prop := c = chr "-" \/ table_owned ALPHA_NUM c = true.

Lemma low_host_char c : 0 <= c < 128 -> host_char c -> host_char (low c).
Proof.
  intros R [->|H]; [now left|]. right. unfold low. rewrite (proj2 (Z.ltb_lt c 128)) by lia.
  assert (is_byte c) as B by (unfold is_byte; lia).
  assert (implb (table_owned ALPHA_NUM c) (table_owned ALPHA_NUM (to_lower c)) = true) as E.
  { clear H R. revert c B. apply (byte_forall (fun c => implb (table_owned ALPHA_NUM c) (table_owned ALPHA_NUM (to_lower c)))).
    vm_compute. reflexivity. }
  now rewrite H in E.
Qed.

(** The characters of ASCII in lower case, and the hyphen behind them. *)
Definition encoded_start (input : list Z) : list Z :=
  let basic := map low (below 128 input) in match basic with [] => [] | _ => basic ++ [chr "-"] end.

Lemma encoded_start_host input : Forall (fun c => 0 <= c) input -> Forall (fun c => c < 128 -> host_char c) input ->
  Forall host_char (encoded_start input).
Proof.
  intros P H. assert (Forall host_char (map low (below 128 input))) as F.
  { apply Forall_map, Forall_forall. intros c [I C]%filter_In. rewrite Forall_forall in P, H.
    apply low_host_char; [specialize (P c I); lia|apply H; [easy|lia]]. }
  unfold encoded_start. destruct (map low _); [easy|]. apply Forall_app. split; [exact F|]. repeat constructor.
Qed.

(** ** Properties *)

(** C23: Punycode: a text whose length and greatest character stay in the bound
    (labels of 52 characters over all of Unicode, of 900 over its first plane)
    is encoded without overflow: its characters of ASCII in lower case, whichever
    they are, with a hyphen behind them if there are any, and letters and digits
    for the others; so all of it is letters, digits and hyphens when the
    characters of ASCII in the text are.  Decoding gives the text back, its ASCII
    letters in lower case; all loops end. *)
Theorem punycode_roundtrip (M : Z) (input : list Z)
  (HM : 128 <= M) (chars : Forall (fun c => 0 <= c < M) input) (small : (size input + 1) * (M + 1) <= MAX_DELTA) :
  exists ext, let encoded := encoded_start input ++ ext in
    punycode_encode input = Ret (true, encoded) /\ digit_chars ext /\
    (Forall (fun c => c < 128 -> host_char c) input -> Forall host_char encoded) /\
    punycode_decode encoded = Ret (true, map low input).
Proof.
  set (basic := map low (below 128 input)).
  set (pre := match basic with [] => [] | _ => basic ++ [chr "-"] end). change (encoded_start input) with pre.
  assert (Forall (fun c => 0 <= c < 128) basic) as Fb.
  { unfold basic. apply Forall_map, Forall_forall. intros c I. apply filter_In in I as [I C].
    rewrite Forall_forall in chars. specialize (chars c I). apply low_basic. lia. }
  assert (size basic <= size input) as Lb.
  { unfold basic. rewrite length_map. pose proof (below_le 128 input). lia. }
  destruct (loop_step M input small ltac:(lia) chars (length input) 128
    {| output := pre; handled := size basic; delta := 0; bias := 72; first := true |} 0 128) as (ext & Ee & De & Le & Dec).
  { split; cbn [handled delta first upto filter length]; try lia. reflexivity. }
  { lia. }
  { lia. }
  exists ext. split; [|split; [easy|split]].
  - unfold punycode_encode. rewrite encode_basic_ok by (eapply Forall_impl; [|exact chars]; cbn; lia).
    change ([] ++ map low (below 128 input)) with basic. fold pre. rewrite Ee. reflexivity.
  - intros Hh. apply Forall_app. split.
    + change pre with (encoded_start input). apply encoded_start_host; [|exact Hh]. eapply Forall_impl; [|exact chars]. cbn. lia.
    + eapply Forall_impl; [|exact De]. intros c [_ H]. now right.
  - cbn [bias output] in Dec. change (made 128 [] input) with basic in Dec.
    assert (length ext <= length (pre ++ ext))%nat as Lf by (rewrite length_app; lia).
    assert (Forall (fun c => (c =? chr "-") = false) ext) as Fe by (eapply Forall_impl; [|exact De]; now intros c [H _]).
    assert (size input <= 60000000) as Li by (unfold MAX_DELTA in small; nia).
    assert (size ext <= 32 * size input * size input) as Le' by (clear - Le; nia).
    assert (32 * size input * size input <= 32 * 60000000 * 60000000) as Lq by (apply Z.mul_le_mono_nonneg; lia).
    unfold punycode_decode. destruct basic as [|c b] eqn:E.
    + cbn [pre app] in *. rewrite rfind_ch_none by easy. cbn [Z.eqb]. apply Dec. lia.
    + assert (pre ++ ext = (c :: b) ++ chr "-" :: ext) as Ep by (unfold pre; now rewrite <- app_assoc).
      rewrite Ep in Lf |- *. rewrite rfind_ch_hit by (try exact Fe; rewrite length_app; cbn [length] in *; unfold NPOS; lia).
      destruct (Z.eqb_spec (size (c :: b)) NPOS) as [Q|_]; [unfold NPOS in Q; lia|].
      rewrite Nat2Z.id, firstn_app, firstn_all, Nat.sub_diag, app_nil_r, decode_basic_ok by easy.
      replace (Z.to_nat (size (c :: b) + 1)) with (S (length (c :: b))) by lia.
      rewrite skipn_app, skipn_all2 by lia. replace (S (length (c :: b)) - length (c :: b))%nat with 1%nat by lia.
      cbn [skipn app]. now apply Dec.
Qed.

(** The characters of ASCII keep what they are: a space stays one. *)
Lemma punycode_roundtrip_witness :
  punycode_encode [0x4ed6; 0x4eec; 65] = Ret (true, lit "a-7z6asc") /\ Forall host_char (lit "a-7z6asc") /\
  punycode_decode (lit "a-7z6asc") = Ret (true, [0x4ed6; 0x4eec; 97]) /\
  punycode_decode (lit " -") = Ret (true, [32]).
Proof.
  assert (punycode_encode [0x4ed6; 0x4eec; 65] = Ret (true, lit "a-7z6asc")) as E by (vm_compute; reflexivity).
  destruct (punycode_roundtrip 65536 [0x4ed6; 0x4eec; 65]) as (ext & E' & _ & H & D);
    [lia|repeat constructor; lia|vm_compute; discriminate|].
  split; [exact E|]. rewrite E in E'. injection E' as E'. rewrite <- E' in D, H. split.
  - apply H. constructor; [intros L; discriminate L|]. constructor; [intros L; discriminate L|].
    constructor; [|constructor]. intros _. right. reflexivity.
  - split; [exact D|].
    destruct (punycode_roundtrip 128 [32]) as (ext' & Es & _ & _ & Ds); [lia|repeat constructor; lia|vm_compute; discriminate|].
    vm_compute in Es. injection Es as <-. exact Ds.
Defined.

(** RFC 3492 asks for a check of overflow; there is none, in neither
    direction. *)
Example decode_overflow : punycode_decode (lit "99999999") = Undef.
Proof. vm_compute. reflexivity. Qed.
Example encode_overflow :
  punycode_encode [MAX_WCHAR_T] = Undef /\ punycode_encode (repeat 97 2000 ++ [0x10FFFF]) = Undef.
Proof. vm_compute. split; reflexivity. Qed.

(** A hyphen in the first place is skipped, where the RFC has it refused. *)
Example leading_hyphen : punycode_decode (lit "-tda") = punycode_decode (lit "tda").
Proof. vm_compute. reflexivity. Qed.
