(* ===== verification/Decimal.v ===== *)
(** * Decimal: src/src/Generics/Decimal.hpp and Decimal.tpp

    Fixed-point decimals of any size: a sign and an array of elements in base
    [BASE], a power of ten, the least significant one first.  This file holds
    the class without its multiplication and division ([DecimalMul],
    [DecimalDiv]).

    A [DecimalRanks] holds the template parameters: the width of the element
    type in bits and the numbers of digits; the constants of the class are
    computed from them as the source does.  The ranks are taken to be far below
    the range of [unsigned].  The assertions of development builds against
    [INVALID_FLAG_], the mark of a decimal that was never set, are left out, as
    is the text of exceptions.  The abstract value of a decimal is the integer
    [value], in units of the last digit. *)

From Stdlib Require Import ZArith List Bool Lia.
From S2P Require Import Prelude Ascii Numbers SubString Radix CommonDecimal.
Import ListNotations.

Class DecimalRanks : Type := { element_bits : Z; TOTAL_RANK : nat; FRACTION_RANK : nat }.

(** The element type is an unsigned integer; the ranks are those the
    [static_assert]s allow. *)
Class DecimalRanksOk (D : DecimalRanks) : Prop := {
  element_type : element_bits = 8 \/ element_bits = 16 \/ element_bits = 32 \/ element_bits = 64;
  total_rank_pos : (0 < TOTAL_RANK)%nat;
  fraction_rank_le : (FRACTION_RANK <= TOTAL_RANK)%nat;
}.

Record Decimal : Type := mkDecimal { negative_ : bool; array_ : list Z }.

Section Decimal.
Context {D : DecimalRanks}.

Definition INTEGER_RANK : nat := (TOTAL_RANK - FRACTION_RANK)%nat.

(** [numeric_limits<Element>::digits10]: [digits * 643 / 2136]. *)
Definition element_digits10 : nat := Z.to_nat (element_bits * 643 / 2136).

Definition Element (z : Z) : Z := wrapu element_bits z.

Definition DIGITS_PER_ELEMENT : nat :=
  if 2 <=? (2 ^ element_bits - 1) / pw 10 element_digits10 then element_digits10 else (element_digits10 - 1)%nat.

Definition BASE : Z := pw 10 DIGITS_PER_ELEMENT.
Definition MAX_SUM : Z := (2 ^ element_bits - 1) / BASE.
Definition SIZE : nat := ((TOTAL_RANK + DIGITS_PER_ELEMENT - 1) / DIGITS_PER_ELEMENT)%nat.
Definition INTEGER_MAX_OVER : Z := pw 10 (DIGITS_PER_ELEMENT - (SIZE * DIGITS_PER_ELEMENT - TOTAL_RANK)).
Definition FRACTION_END : nat := (FRACTION_RANK / DIGITS_PER_ELEMENT)%nat.
Definition FRACTION_REMAINDER : Z := pw 10 (FRACTION_RANK mod DIGITS_PER_ELEMENT).
Definition FRACTION_OVER : Z := pw 10 (DIGITS_PER_ELEMENT - FRACTION_RANK mod DIGITS_PER_ELEMENT).

Definition at_cell (a : list Z) (i : nat) : Z := nth i a 0.

(** ** Constructors *)

(** [construct_(negative, integer, fraction)] of integers that are not
    negative. *)

(** [n] elements cut from the low end. *)
Fixpoint low_cells (n : nat) (rest : Z) : list Z * Z :=
  match n with
  | O => ([], rest)
  | S n' => let '(t, last) := low_cells n' (rest / BASE) in (rest mod BASE :: t, last)
  end.

(** The elements from index [i] to [SIZE - 1], [n] of them, the last one of
    [INTEGER_MAX_OVER]; [stop]: the loop ends at zero and the others are filled
    with zeros. *)
Fixpoint high_cells (stop : bool) (n : nat) (integer : Z) : list Z * Z :=
  match n with
  | O => ([], integer)
  | S n' =>
      match n' with
      | O => ([integer mod INTEGER_MAX_OVER], integer / INTEGER_MAX_OVER)
      | _ =>
          if stop && (integer =? 0) then (repeat 0 n, 0)
          else let '(t, rest) := high_cells stop n' (integer / BASE) in (integer mod BASE :: t, rest)
      end
  end.

Definition Decimal_parts (negative : bool) (integer fraction : Z) : outcome Decimal :=
  let '(low, fraction) := low_cells FRACTION_END fraction in
  if exceeds fraction FRACTION_REMAINDER then Throw Overflow
  else if (SIZE <=? FRACTION_END)%nat then Undef
  else
    let middle := Element (fraction + Element (integer mod FRACTION_OVER) * FRACTION_REMAINDER) in
    let '(high, integer) :=
      if negb (INTEGER_RANK =? 0)%nat then high_cells false (SIZE - (FRACTION_END + 1)) (integer / FRACTION_OVER)
      else ([], integer) in
    if negb (integer =? 0) then Throw Overflow else Ret (mkDecimal negative (low ++ middle :: high)).

(** [construct_(integer, power)] for the integer type [I] of [bits] bits. *)
Definition Decimal_power {I : IntType} (bits : Z) (integer : Z) (power : nat) : outcome Decimal :=
  if (Z.to_nat digits10 + FRACTION_RANK <=? power)%nat || (integer =? 0) then Ret (mkDecimal false (repeat 0 SIZE))
  else
    '(integer, negative) <- split integer ;;
    let '(integer, power) :=
      if (FRACTION_RANK <? power)%nat then (integer / pow10 bits (power - FRACTION_RANK), FRACTION_RANK)
      else (integer, power) in
    let diff := (FRACTION_RANK - power)%nat in
    let i := (diff / DIGITS_PER_ELEMENT)%nat in
    let diff := (diff mod DIGITS_PER_ELEMENT)%nat in
    let '(middle, integer) :=
      if negb (diff =? 0)%nat then
        let mask := pow10 element_bits (DIGITS_PER_ELEMENT - diff) in
        ([Element (Element (integer mod mask) * (BASE / mask))], integer / mask)
      else ([], integer) in
    let low := repeat 0 i ++ middle in
    let '(high, integer) := high_cells true (SIZE - length low) integer in
    if negb (integer =? 0) then Throw Overflow else Ret (mkDecimal negative (low ++ high)).

(** The constructor from a [SimpleDecimal], of which [data] and [negative] are the
    members. *)
Definition Decimal_simple {I : IntType} (bits : Z) (data : Z) (negative : bool) (diff_fraction : nat)
  : outcome Decimal :=
  d <- Decimal_power bits data diff_fraction ;; Ret (mkDecimal negative (array_ d)).

(** [construct_(str)]; [begin], [end] and the others are offsets in [str]. *)
Fixpoint count_zeros (l : list Z) : nat :=
  match l with c :: l' => if c =? chr "0" then S (count_zeros l') else O | [] => O end.

(** [while (end != begin && '0' == end[-1]) end--], [n] characters between
    the two. *)
Fixpoint strip_loop (n : nat) (str : list Z) (begin : nat) : nat :=
  match n with
  | O => begin
  | S n' => if at_cell str (begin + n') =? chr "0" then strip_loop n' str begin else (begin + n)%nat
  end.

Fixpoint digit_values (l : list Z) : outcome (list Z) :=
  match l with
  | [] => Ret []
  | c :: l' => if is_digit c then ds <- digit_values l' ;; Ret (c - chr "0" :: ds) else Throw NotNumber
  end.

Definition slice (str : list Z) (b e : nat) : list Z := firstn (e - b) (skipn b str).

(** The elements from [k] of the digits [num] before [n]. *)
Fixpoint assemble_cells (k n : nat) (num : list Z) : outcome (list Z) :=
  match k with
  | O => Ret []
  | S k' =>
      let digits := if (DIGITS_PER_ELEMENT <=? n)%nat then DIGITS_PER_ELEMENT else n in
      let n := (n - digits)%nat in
      x <- assemble_decimal element_bits digits (skipn n num) ;;
      t <- assemble_cells k' n num ;;
      Ret (x :: t)
  end.

Definition construct_digits (str : list Z) (negative : bool) (begin end_ integer_end fraction_begin : nat)
  : outcome Decimal :=
  if (FRACTION_RANK <? end_ - fraction_begin)%nat then Throw Overflow
  else if (INTEGER_RANK <? integer_end - begin)%nat then Throw Overflow
  else
    fraction <- digit_values (slice str fraction_begin end_) ;;
    integer <- digit_values (slice str begin integer_end) ;;
    let num := repeat 0 (INTEGER_RANK - (integer_end - begin)) ++ integer ++
               fraction ++ repeat 0 (FRACTION_RANK - (end_ - fraction_begin)) in
    array <- assemble_cells SIZE TOTAL_RANK num ;;
    Ret (mkDecimal negative array).

Definition Decimal_str (str : list Z) : outcome Decimal :=
  match str with
  | [] => Throw NotNumber
  | c :: rest =>
      let sign := (c =? chr "-") || (c =? chr "+") in
      if sign && (length rest =? 0)%nat then Throw NotNumber
      else
        let begin := if sign then 1%nat else 0%nat in
        let begin := (begin + count_zeros (skipn begin str))%nat in
        let point_pos := find_ch str (chr ".") 0 in
        '(end_, integer_end, fraction_begin) <-
          (if negb (point_pos =? NPOS) then
             let integer_end := Z.to_nat point_pos in
             let end_ := strip_loop (length str - begin) str begin in
             last <- (if (end_ =? 0)%nat then Undef else rd str (end_ - 1)) ;;
             if last =? chr "." then Ret (end_ - 1, end_ - 1, end_ - 1)%nat
             else Ret (end_, integer_end, (integer_end + 1)%nat)
           else Ret (length str, length str, length str)) ;;
        if (begin =? end_)%nat then Ret (mkDecimal (c =? chr "-") (repeat 0 SIZE))
        else construct_digits str (c =? chr "-") begin end_ integer_end fraction_begin
  end.

Definition maximum_ : Decimal := mkDecimal false (repeat (BASE - 1) (SIZE - 1) ++ [INTEGER_MAX_OVER - 1]).

(** ** Conversions *)

(** The elements above [FRACTION_END], the highest first. *)
Fixpoint integer_loop {I : IntType} (cells : list Z) (ret : Z) : outcome Z :=
  match cells with
  | [] => Ret ret
  | x :: cells' =>
      if (x <=? int_max) && (ret <=? (int_max - x) / BASE) then integer_loop cells' (ret * BASE + x)
      else Throw Overflow
  end.

Definition integer {I : IntType} (d : Decimal) : outcome Z :=
  if (INTEGER_RANK =? 0)%nat then Ret 0
  else
    ret <- integer_loop (rev (skipn (FRACTION_END + 1) (array_ d))) 0 ;;
    let x := at_cell (array_ d) FRACTION_END / FRACTION_REMAINDER in
    if (int_max <? x) || ((int_max - x) / FRACTION_OVER <? ret) then Throw Overflow
    else
      let ret := ret * FRACTION_OVER + x in
      if negative_ d && negb (ret =? 0) && negb is_signed then Throw SignException
      else Ret (if negative_ d then - ret else ret).

(** The array [num] of [str]: the digits, the highest first; [n] of them are
    left. *)
Fixpoint num_digits (cells : list Z) (n : nat) : list Z :=
  match cells with
  | [] => []
  | x :: cells' =>
      match cells' with
      | [] => disassemble_decimal n x
      | _ => num_digits cells' (n - DIGITS_PER_ELEMENT) ++ disassemble_decimal DIGITS_PER_ELEMENT x
      end
  end.

Fixpoint drop_zeros (num : list Z) : list Z :=
  match num with d :: num' => if d =? 0 then drop_zeros num' else num | [] => [] end.

(** The index of the last digit that is not zero, or [last]. *)
Fixpoint last_digit (num : list Z) (i last : nat) : nat :=
  match num with [] => last | d :: num' => last_digit num' (S i) (if negb (d =? 0) then i else last) end.

Definition digit_chars_of (num : list Z) : list Z := map (fun d => chr "0" + d) num.

Definition str (d : Decimal) : list Z :=
  let num := num_digits (array_ d) TOTAL_RANK in
  let not_null := existsb (fun x => negb (x =? 0)) (array_ d) in
  let int_digits := drop_zeros (firstn INTEGER_RANK num) in
  let frac_digits := skipn INTEGER_RANK num in
  (if negative_ d && not_null then [chr "-"] else []) ++
  (match int_digits with [] => [chr "0"] | _ => digit_chars_of int_digits end) ++
  (if negb (FRACTION_RANK =? 0)%nat
   then chr "." :: digit_chars_of (firstn (S (last_digit frac_digits 0 0)) frac_digits) else []).

Definition element_size : nat := Z.to_nat (element_bits / 8).

Definition pack (d : Decimal) : list Z :=
  flat_map (to_bytes element_size) (array_ d) ++ [if negative_ d then 1 else 0].

Fixpoint unpack_cells (n : nat) (buffer : list Z) : list Z :=
  match n with
  | O => []
  | S n' => of_bytes (firstn element_size buffer) :: unpack_cells n' (skipn element_size buffer)
  end.

Definition unpack (buffer : list Z) : outcome Decimal :=
  sign <- rd buffer (SIZE * element_size) ;;
  Ret (mkDecimal (negb (sign =? 0)) (unpack_cells SIZE buffer)).

(** ** Comparison and sign *)

Definition negate (d : Decimal) : Decimal := mkDecimal (negb (negative_ d)) (array_ d).

Definition is_zero (d : Decimal) : bool := forallb (fun x => x =? 0) (array_ d).
Definition is_nonnegative (d : Decimal) : bool := negb (negative_ d).
Definition is_nonpositive (d : Decimal) : bool := negative_ d.

Fixpoint same_cells (a b : list Z) : bool :=
  match a, b with
  | x :: a', y :: b' => (x =? y) && same_cells a' b'
  | _, _ => true
  end.

Fixpoint both_zero (a b : list Z) : bool :=
  match a, b with
  | x :: a', y :: b' => (x =? 0) && (y =? 0) && both_zero a' b'
  | _, _ => true
  end.

Definition dec_eq (left right : Decimal) : bool :=
  if Bool.eqb (negative_ left) (negative_ right) then same_cells (array_ left) (array_ right)
  else both_zero (array_ left) (array_ right).

(** [is_less_than_], from index [i] down: the result and [diff_index]. *)
Fixpoint less_loop (i : nat) (a b : list Z) : bool * nat :=
  if at_cell a i <? at_cell b i then (true, i)
  else if at_cell b i <? at_cell a i then (false, i)
  else match i with O => (false, O) | S i' => less_loop i' a b end.

Definition is_less_than_ (d test : Decimal) : bool * nat := less_loop (SIZE - 1) (array_ d) (array_ test).

Definition dec_lt (d test : Decimal) : bool :=
  if negative_ d then
    if negative_ test then fst (is_less_than_ test d) else negb (is_zero d) || negb (is_zero test)
  else negb (negative_ test) && fst (is_less_than_ d test).

Definition dec_le (d test : Decimal) : bool := negb (dec_lt test d).

(** ** Addition and subtraction

    The [target] of the C++ functions, which may be one of the operands, is the
    result: each element is read before the one at its index is written. *)

Fixpoint add_cells (a b : list Z) (overflow : Z) : list Z * Z :=
  match a, b with
  | x :: a', y :: b' =>
      let num := Element (x + y + overflow) in
      if BASE <=? num then let '(t, last) := add_cells a' b' 1 in (num - BASE :: t, last)
      else let '(t, last) := add_cells a' b' 0 in (num :: t, last)
  | _, _ => ([], overflow)
  end.

(** The elements and the flag that says the sum is too big. *)
Definition internal_add_ (summand1 summand2 : Decimal) : list Z * bool :=
  let '(t, overflow) := add_cells (array_ summand1) (array_ summand2) 0 in
  (t, negb (overflow =? 0) || (INTEGER_MAX_OVER <=? at_cell t (SIZE - 1))).

Fixpoint sub_cells (a b : list Z) (underflow : Z) : list Z * Z :=
  match a, b with
  | x :: a', y :: b' =>
      let real_subtrahend := Element (y + underflow) in
      if x <? real_subtrahend then
        let '(t, last) := sub_cells a' b' 1 in (Element (BASE - (real_subtrahend - x)) :: t, last)
      else let '(t, last) := sub_cells a' b' 0 in (x - real_subtrahend :: t, last)
  | _, _ => ([], underflow)
  end.

Definition internal_sub_ (minuend subtrahend : Decimal) (diff_index : nat) : outcome (list Z) :=
  let '(t, underflow) :=
    sub_cells (firstn (diff_index + 1) (array_ minuend)) (firstn (diff_index + 1) (array_ subtrahend)) 0 in
  if negb (underflow =? 0) then Undef else Ret (t ++ repeat 0 (SIZE - (diff_index + 1))).

Definition add (summand1 summand2 : Decimal) : outcome Decimal :=
  if Bool.eqb (negative_ summand1) (negative_ summand2) then
    let '(t, overflow) := internal_add_ summand1 summand2 in
    if (overflow : bool) then Throw Overflow else Ret (mkDecimal (negative_ summand1) t)
  else
    let '(less, diff_index) := is_less_than_ summand1 summand2 in
    if (less : bool) then
      t <- internal_sub_ summand2 summand1 diff_index ;; Ret (mkDecimal (negative_ summand2) t)
    else
      t <- internal_sub_ summand1 summand2 diff_index ;; Ret (mkDecimal (negative_ summand1) t).

Definition sub (minuend subtrahend : Decimal) : outcome Decimal :=
  if Bool.eqb (negative_ minuend) (negative_ subtrahend) then
    let '(less, diff_index) := is_less_than_ minuend subtrahend in
    if (less : bool) then
      t <- internal_sub_ subtrahend minuend diff_index ;; Ret (mkDecimal (negb (negative_ subtrahend)) t)
    else
      t <- internal_sub_ minuend subtrahend diff_index ;; Ret (mkDecimal (negative_ minuend) t)
  else
    let '(t, overflow) := internal_add_ minuend subtrahend in
    if (overflow : bool) then Throw Overflow else Ret (mkDecimal (negative_ minuend) t).

(** ** Rounding *)

Definition floor (fraction : nat) (d : Decimal) : Decimal :=
  if (FRACTION_RANK <=? fraction)%nat then d
  else
    let fraction := (FRACTION_RANK - fraction)%nat in
    let index := (fraction / DIGITS_PER_ELEMENT)%nat in
    let array := repeat 0 index ++ skipn index (array_ d) in
    mkDecimal (negative_ d)
      (if (index <? SIZE)%nat then
         let pow := pow10 element_bits (fraction mod DIGITS_PER_ELEMENT) in
         let x := at_cell array index in
         if negb (x mod pow =? 0) then upd array index (x / pow * pow) else array
       else array).

(** The carry after the element that was rounded: the new elements and whether
    it goes out. *)
Fixpoint carry_loop (cells : list Z) : list Z * bool :=
  match cells with
  | [] => ([], true)
  | x :: cells' =>
      if x <? BASE - 1 then (x + 1 :: cells', false)
      else let '(t, overflow) := carry_loop cells' in (0 :: t, overflow)
  end.

Definition ceil (fraction : nat) (d : Decimal) : outcome Decimal :=
  if (FRACTION_RANK <=? fraction)%nat then Ret d
  else
    let fraction := (FRACTION_RANK - fraction)%nat in
    let index := (fraction / DIGITS_PER_ELEMENT)%nat in
    let overflow := existsb (fun x => negb (x =? 0)) (firstn index (array_ d)) in
    let array := repeat 0 index ++ skipn index (array_ d) in
    let '(array, overflow) :=
      if (index <? SIZE)%nat then
        let pow := pow10 element_bits (fraction mod DIGITS_PER_ELEMENT) in
        let x := at_cell array index in
        if overflow || negb (x mod pow =? 0) then
          let res := Element ((x / pow + 1) * pow) in
          let '(array, overflow) :=
            if res <? BASE then (upd array index res, false)
            else
              let '(t, overflow) := carry_loop (skipn (index + 1) array) in
              (repeat 0 (index + 1) ++ t, overflow) in
          (array, overflow || (INTEGER_MAX_OVER <=? at_cell array (SIZE - 1)))
        else (array, overflow)
      else (array, overflow) in
    if (overflow : bool) then Throw Overflow else Ret (mkDecimal (negative_ d) array).

End Decimal.

(** ** The constants *)

Section Constants.
Context {D : DecimalRanks} {Dok : DecimalRanksOk D}.

Lemma base_facts :
  100 <= BASE /\ BASE mod 2 = 0 /\ 2 * BASE <= 2 ^ element_bits <= 2 ^ 64 /\ (0 < DIGITS_PER_ELEMENT < 20)%nat /\
  (MAX_SUM <= 2 \/ 3 * BASE <= 2 ^ element_bits - 1) /\ pw 10 DIGITS_PER_ELEMENT < 2 ^ element_bits.
Proof.
  unfold MAX_SUM, BASE, DIGITS_PER_ELEMENT, element_digits10.
  destruct element_type as [H|[H|[H|H]]]; rewrite H; vm_compute;
    repeat split; try easy; try lia; first [left; easy|right; easy].
Qed.

Lemma base_ge : 2 <= BASE.
Proof. pose proof base_facts. lia. Qed.

Lemma base_nonzero : BASE <> 0.
Proof. pose proof base_ge. lia. Qed.

Lemma base_pow n : 0 < pw BASE n.
Proof. apply pw_pos. pose proof base_ge. lia. Qed.

Lemma digits_per_element_pos : (0 < DIGITS_PER_ELEMENT)%nat.
Proof. apply base_facts. Qed.

Lemma Element_small z : 0 <= z < 2 * BASE -> Element z = z.
Proof. intros H. pose proof base_facts. apply wrapu_small. lia. Qed.

Lemma pow10_element n : (n <= DIGITS_PER_ELEMENT)%nat -> pow10 element_bits n = pw 10 n.
Proof.
  intros H. pose proof base_facts as F. apply pow10_small; [lia|].
  eapply Z.le_lt_trans; [|apply F]. apply (pw_le 10); lia.
Qed.

Lemma size_facts :
  (0 < SIZE)%nat /\ ((SIZE - 1) * DIGITS_PER_ELEMENT < TOTAL_RANK <= SIZE * DIGITS_PER_ELEMENT)%nat.
Proof.
  pose proof total_rank_pos. pose proof digits_per_element_pos as P. unfold SIZE.
  pose proof (Nat.div_mod (TOTAL_RANK + DIGITS_PER_ELEMENT - 1) DIGITS_PER_ELEMENT ltac:(lia)) as E.
  pose proof (Nat.mod_upper_bound (TOTAL_RANK + DIGITS_PER_ELEMENT - 1) DIGITS_PER_ELEMENT ltac:(lia)).
  set (q := ((TOTAL_RANK + DIGITS_PER_ELEMENT - 1) / DIGITS_PER_ELEMENT)%nat) in *.
  destruct q as [|q]; [lia|]. cbn [Nat.sub]. rewrite Nat.sub_0_r, (Nat.mul_comm DIGITS_PER_ELEMENT) in *. lia.
Qed.

Lemma size_pos : (0 < SIZE)%nat.
Proof. apply size_facts. Qed.

Definition MAX_VALUE : Z := pw 10 TOTAL_RANK.

(** [n] elements hold numbers of [rank] digits; [over_rank] is the limit of the
    highest one. *)
Definition holds (n rank : nat) : Prop :=
  (0 < n)%nat /\ ((n - 1) * DIGITS_PER_ELEMENT < rank <= n * DIGITS_PER_ELEMENT)%nat.

Definition over_rank (n rank : nat) : Z := pw 10 (DIGITS_PER_ELEMENT - (n * DIGITS_PER_ELEMENT - rank)).

Lemma over_rank_spec n rank : holds n rank ->
  pw 10 rank = pw BASE (n - 1) * over_rank n rank /\ 1 < over_rank n rank <= BASE.
Proof.
  intros S. unfold holds, over_rank, BASE in *. rewrite pw_pw.
  split; [rewrite <- pw_add; f_equal; nia|].
  split; [apply (pw_lt 10 0); nia|apply pw_le; lia].
Qed.

Lemma top_cell n rank a : holds n rank -> length a = n -> cells BASE a ->
  (over_rank n rank <=? at_cell a (n - 1)) = (pw 10 rank <=? val BASE a).
Proof.
  intros S L C. destruct (over_rank_spec n rank S) as [M O]. destruct S as [Pn _].
  pose proof base_ge as B. pose proof (val_bound BASE B a C) as V. unfold at_cell. rewrite (val_nth BASE) by easy.
  pose proof (base_pow (n - 1)) as P.
  rewrite Z.mod_small.
  - rewrite M. apply eq_true_iff_eq. rewrite !Z.leb_le. split; intros H1.
    + pose proof (Z.mul_div_le (val BASE a) (pw BASE (n - 1)) P). nia.
    + apply Z.div_le_lower_bound; lia.
  - split; [apply Z.div_pos; lia|]. apply Z.div_lt_upper_bound; [lia|]. rewrite Z.mul_comm, <- pw_S.
    replace (S (n - 1)) with (length a) by lia. apply V.
Qed.

Lemma integer_max_over_spec :
  MAX_VALUE = pw BASE (SIZE - 1) * INTEGER_MAX_OVER /\ 1 < INTEGER_MAX_OVER <= BASE.
Proof. exact (over_rank_spec SIZE TOTAL_RANK size_facts). Qed.

Lemma fraction_split :
  FRACTION_RANK = (FRACTION_END * DIGITS_PER_ELEMENT + FRACTION_RANK mod DIGITS_PER_ELEMENT)%nat /\
  (FRACTION_RANK mod DIGITS_PER_ELEMENT < DIGITS_PER_ELEMENT)%nat.
Proof.
  pose proof digits_per_element_pos. split; [|apply Nat.mod_upper_bound; lia].
  rewrite (Nat.mul_comm FRACTION_END). apply Nat.div_mod. lia.
Qed.

Lemma fraction_facts :
  pw 10 FRACTION_RANK = pw BASE FRACTION_END * FRACTION_REMAINDER /\ FRACTION_REMAINDER * FRACTION_OVER = BASE /\
  1 <= FRACTION_REMAINDER < BASE /\ 1 < FRACTION_OVER <= BASE.
Proof.
  pose proof fraction_split as [E L]. pose proof digits_per_element_pos.
  unfold FRACTION_REMAINDER, FRACTION_OVER, BASE.
  rewrite pw_pw, <- !pw_add. repeat split.
  - f_equal. rewrite (Nat.mul_comm DIGITS_PER_ELEMENT). exact E.
  - f_equal. lia.
  - apply (pw_le 10 0); lia.
  - apply pw_lt; lia.
  - apply (pw_lt 10 0); lia.
  - apply pw_le; lia.
Qed.

Lemma fraction_end_le : (FRACTION_END <= SIZE)%nat.
Proof.
  pose proof size_facts. pose proof fraction_split. pose proof fraction_rank_le. pose proof digits_per_element_pos. nia.
Qed.

Lemma max_value_pos : 0 < MAX_VALUE.
Proof. apply pw_pos. lia. Qed.

Lemma max_value_base : MAX_VALUE <= pw BASE SIZE.
Proof. pose proof size_facts. unfold MAX_VALUE, BASE. rewrite pw_pw. apply pw_le; lia. Qed.

(** ** The abstract value *)

Definition magnitude (d : Decimal) : Z := val BASE (array_ d).
Definition value (d : Decimal) : Z := if negative_ d then - magnitude d else magnitude d.

Definition array_ok (a : list Z) : Prop := length a = SIZE /\ cells BASE a.

Definition wf (d : Decimal) : Prop := array_ok (array_ d) /\ magnitude d < MAX_VALUE.

Lemma array_bound a : array_ok a -> 0 <= val BASE a < pw BASE SIZE.
Proof. intros [L C]. rewrite <- L. apply val_bound; [apply base_ge|exact C]. Qed.

Lemma wf_range d : wf d -> 0 <= magnitude d < MAX_VALUE.
Proof. intros [A L]. split; [apply array_bound, A|exact L]. Qed.

(** The sum is too big exactly when its highest element is. *)
Lemma top_element a : array_ok a -> (INTEGER_MAX_OVER <=? at_cell a (SIZE - 1)) = (MAX_VALUE <=? val BASE a).
Proof. intros [L C]. exact (top_cell SIZE TOTAL_RANK a size_facts L C). Qed.

Lemma array_eq a b : array_ok a -> array_ok b -> val BASE a = val BASE b -> a = b.
Proof. intros [La Ca] [Lb Cb]. apply (val_inj BASE); auto using base_ge. congruence. Qed.

Lemma array_zeros : array_ok (repeat 0 SIZE).
Proof. split; [apply repeat_length|apply cells_zeros, base_ge]. Qed.

(** A decimal of each value. *)
Lemma magnitude_nonneg d : wf d -> 0 <= magnitude d.
Proof. intros W. apply (wf_range d W). Qed.

End Constants.

(** ** Addition and subtraction of arrays *)

Section Addition.
Context {D : DecimalRanks} {Dok : DecimalRanksOk D}.

Lemma add_cells_ok a : forall b c, cells BASE a -> cells BASE b -> length a = length b -> 0 <= c <= 1 ->
  exists t o, add_cells a b c = (t, o) /\ length t = length a /\ cells BASE t /\ 0 <= o <= 1 /\
    val BASE t + o * pw BASE (length a) = val BASE a + val BASE b + c.
Proof.
  pose proof base_ge. induction a as [|x a IH]; intros [|y b] c Ha Hb L Hc; try discriminate.
  - exists [], c. cbn [add_cells val length]. rewrite pw_0. repeat split; try lia. constructor.
  - inversion Ha as [|? ? Hx Ha']; inversion Hb as [|? ? Hy Hb']; subst. unfold is_cell in *. cbn [add_cells].
    injection L as L. rewrite Element_small by lia. cbn [length val]. rewrite pw_S.
    destruct (Z.leb_spec BASE (x + y + c)).
    + destruct (IH b 1 Ha' Hb' L ltac:(lia)) as (t & o & -> & Lt & Ct & Ho & E).
      exists (x + y + c - BASE :: t), o. cbn [length val]. repeat split; try lia; try nia. constructor; [unfold is_cell; lia|easy].
    + destruct (IH b 0 Ha' Hb' L ltac:(lia)) as (t & o & -> & Lt & Ct & Ho & E).
      exists (x + y + c :: t), o. cbn [length val]. repeat split; try lia; try nia. constructor; [unfold is_cell; lia|easy].
Qed.

Lemma sub_cells_ok a : forall b u, cells BASE a -> cells BASE b -> length a = length b -> 0 <= u <= 1 ->
  exists t o, sub_cells a b u = (t, o) /\ length t = length a /\ cells BASE t /\ 0 <= o <= 1 /\
    val BASE t = val BASE a - val BASE b - u + o * pw BASE (length a).
Proof.
  pose proof base_ge. induction a as [|x a IH]; intros [|y b] u Ha Hb L Hu; try discriminate.
  - exists [], u. cbn [sub_cells val length]. rewrite pw_0. repeat split; try lia. constructor.
  - inversion Ha as [|? ? Hx Ha']; inversion Hb as [|? ? Hy Hb']; subst. unfold is_cell in *. cbn [sub_cells].
    injection L as L. rewrite (Element_small (y + u)) by lia. cbn [length val]. rewrite pw_S.
    destruct (Z.ltb_spec x (y + u)).
    + destruct (IH b 1 Ha' Hb' L ltac:(lia)) as (t & o & -> & Lt & Ct & Ho & E). rewrite Element_small by lia.
      exists (BASE - (y + u - x) :: t), o. cbn [length val]. repeat split; try lia; try nia. constructor; [unfold is_cell; lia|easy].
    + destruct (IH b 0 Ha' Hb' L ltac:(lia)) as (t & o & -> & Lt & Ct & Ho & E).
      exists (x - (y + u) :: t), o. cbn [length val]. repeat split; try lia; try nia. constructor; [unfold is_cell; lia|easy].
Qed.

Lemma internal_add_ok a b : wf a -> wf b ->
  exists t over, internal_add_ a b = (t, over) /\ over = (MAX_VALUE <=? magnitude a + magnitude b) /\
    (over = false -> array_ok t /\ val BASE t = magnitude a + magnitude b).
Proof.
  intros [[La Ca] Ma] [[Lb Cb] Mb]. unfold internal_add_.
  destruct (add_cells_ok (array_ a) (array_ b) 0 Ca Cb ltac:(congruence) ltac:(lia)) as (t & o & -> & Lt & Ct & Ho & E).
  assert (array_ok t) as At by (split; [congruence|easy]). rewrite top_element by easy.
  pose proof (array_bound t At). pose proof max_value_base. unfold magnitude in *. rewrite La in E.
  do 2 eexists. split; [reflexivity|]. destruct (Z.eqb_spec o 0) as [->|No]; cbn [negb orb].
  - split; [f_equal; lia|]. intros _. split; [easy|lia].
  - split; [|discriminate]. symmetry. apply Z.leb_le. nia.
Qed.

(** [less_loop] compares the numbers up to index [i] and gives the highest index
    where they differ. *)
Lemma less_loop_ok a b i : cells BASE a -> cells BASE b -> (i < length a)%nat -> length a = length b ->
  exists k, less_loop i a b = (val BASE (firstn (S i) a) <? val BASE (firstn (S i) b), k) /\ (k <= i)%nat /\
    val BASE (firstn (S i) a) - val BASE (firstn (S i) b) = val BASE (firstn (S k) a) - val BASE (firstn (S k) b).
Proof.
  intros Ca Cb. pose proof base_ge. revert i. induction i as [|i IH]; intros La L.
  - exists O. cbn [less_loop]. rewrite !val_snoc, pw_0 by lia. cbn [firstn val]. unfold at_cell.
    split; [|lia]. destruct (Z.ltb_spec (nth 0 a 0) (nth 0 b 0)); [|destruct (Z.ltb_spec (nth 0 b 0) (nth 0 a 0))];
      f_equal; symmetry; first [apply Z.ltb_lt|apply Z.ltb_ge]; lia.
  - cbn [less_loop]. rewrite !(val_snoc BASE _ (S i)) by lia. unfold at_cell.
    pose proof (val_bound BASE base_ge _ (cells_firstn BASE a (S i) Ca)) as Va.
    pose proof (val_bound BASE base_ge _ (cells_firstn BASE b (S i) Cb)) as Vb.
    rewrite length_firstn, Nat.min_l in Va, Vb by lia. pose proof (base_pow (S i)).
    destruct (Z.ltb_spec (nth (S i) a 0) (nth (S i) b 0)); [|destruct (Z.ltb_spec (nth (S i) b 0) (nth (S i) a 0))].
    + exists (S i). rewrite !(val_snoc BASE _ (S i)) by lia. split; [|lia]. f_equal. symmetry. apply Z.ltb_lt. nia.
    + exists (S i). rewrite !(val_snoc BASE _ (S i)) by lia. split; [|lia]. f_equal. symmetry. apply Z.ltb_ge. nia.
    + destruct (IH ltac:(lia) L) as (k & E & Lk & Ek). assert (nth (S i) a 0 = nth (S i) b 0) as -> by lia.
      exists k. rewrite E. split; [|lia]. f_equal. apply eq_true_iff_eq. rewrite !Z.ltb_lt. lia.
Qed.

Lemma firstn_array (a : list Z) : length a = SIZE -> firstn (S (SIZE - 1)) a = a.
Proof. intros L. pose proof size_pos. replace (S (SIZE - 1)) with (length a) by lia. apply firstn_all. Qed.

Lemma is_less_than_ok a b : wf a -> wf b ->
  exists k, is_less_than_ a b = (magnitude a <? magnitude b, k) /\ (k < SIZE)%nat /\
    magnitude a - magnitude b = val BASE (firstn (k + 1) (array_ a)) - val BASE (firstn (k + 1) (array_ b)).
Proof.
  intros [[La Ca] Ma] [[Lb Cb] Mb]. pose proof size_pos as P. unfold is_less_than_, magnitude.
  destruct (less_loop_ok (array_ a) (array_ b) (SIZE - 1) Ca Cb ltac:(lia) ltac:(congruence)) as (k & E & Lk & V).
  exists k. rewrite E. rewrite !firstn_array in * by easy. rewrite Nat.add_1_r. split; [easy|]. split; [lia|exact V].
Qed.

Lemma internal_sub_ok a b k : wf a -> wf b -> magnitude b <= magnitude a -> (k < SIZE)%nat ->
  magnitude a - magnitude b = val BASE (firstn (k + 1) (array_ a)) - val BASE (firstn (k + 1) (array_ b)) ->
  exists t, internal_sub_ a b k = Ret t /\ array_ok t /\ val BASE t = magnitude a - magnitude b.
Proof.
  intros [[La Ca] Ma] [[Lb Cb] Mb] Le Lk E. pose proof base_ge as G. unfold internal_sub_.
  destruct (sub_cells_ok (firstn (k + 1) (array_ a)) (firstn (k + 1) (array_ b)) 0) as (t & o & -> & Lt & Ct & Ho & V);
    [now apply cells_firstn|now apply cells_firstn|rewrite !length_firstn; congruence|lia|].
  rewrite length_firstn, Nat.min_l in Lt, V by lia.
  pose proof (val_bound BASE G t Ct) as Bt. rewrite Lt in Bt.
  assert (o = 0) as -> by nia. exists (t ++ repeat 0 (SIZE - (k + 1))). split; [reflexivity|]. split.
  - split; [rewrite length_app, repeat_length; lia|apply Forall_app; split; [easy|now apply cells_zeros]].
  - rewrite val_app, val_zeros. lia.
Qed.

(** The decimal made of an array. *)
Lemma signed_array (negative : bool) t m : array_ok t -> val BASE t = m -> m < MAX_VALUE ->
  wf (mkDecimal negative t) /\ value (mkDecimal negative t) = if negative then - m else m.
Proof. intros A <- L. split; [split; [exact A|exact L]|reflexivity]. Qed.

Lemma signed_result (negative : bool) t m v : array_ok t -> val BASE t = m -> m < MAX_VALUE ->
  v = (if negative then - m else m) ->
  exists r, Ret (mkDecimal negative t) = Ret r /\ wf r /\ value r = v.
Proof. intros A V L ->. eexists. split; [reflexivity|]. now apply signed_array. Qed.

Lemma add_ok a b : wf a -> wf b ->
  if Z.abs (value a + value b) <? MAX_VALUE
  then exists r, add a b = Ret r /\ wf r /\ value r = value a + value b
  else add a b = Throw Overflow.
Proof.
  intros Wa Wb. pose proof (wf_range a Wa). pose proof (wf_range b Wb). unfold add, value.
  destruct (Bool.eqb_spec (negative_ a) (negative_ b)) as [En|Nn].
  - rewrite <- En. destruct (internal_add_ok a b Wa Wb) as (t & over & -> & Eo & Ok).
    replace (Z.abs _) with (magnitude a + magnitude b) by (destruct (negative_ a); lia).
    rewrite Z.ltb_antisym, <- Eo. destruct over; cbn [negb]; [easy|]. destruct (Ok eq_refl) as [At V].
    symmetry in Eo. apply Z.leb_gt in Eo. eapply signed_result; [exact At|exact V|lia|destruct (negative_ a); lia].
  - rewrite (proj2 (Z.ltb_lt _ _)) by (destruct (negative_ a), (negative_ b); try congruence; lia).
    destruct (is_less_than_ok a b Wa Wb) as (k & -> & Lk & Ek).
    destruct (Z.ltb_spec (magnitude a) (magnitude b)).
    + destruct (internal_sub_ok b a k Wb Wa ltac:(lia) Lk ltac:(lia)) as (t & -> & At & V).
      eapply signed_result; [exact At|exact V|lia|destruct (negative_ a), (negative_ b); try congruence; lia].
    + destruct (internal_sub_ok a b k Wa Wb ltac:(lia) Lk ltac:(lia)) as (t & -> & At & V).
      eapply signed_result; [exact At|exact V|lia|destruct (negative_ a), (negative_ b); try congruence; lia].
Qed.

(** [sub] is [add] of the negated subtrahend, up to the sign of zero. *)
Lemma sub_ok a b : wf a -> wf b ->
  if Z.abs (value a - value b) <? MAX_VALUE
  then exists r, sub a b = Ret r /\ wf r /\ value r = value a - value b
  else sub a b = Throw Overflow.
Proof.
  intros Wa Wb. pose proof (wf_range a Wa). pose proof (wf_range b Wb). unfold sub, value.
  destruct (Bool.eqb_spec (negative_ a) (negative_ b)) as [En|Nn].
  - rewrite <- En. rewrite (proj2 (Z.ltb_lt _ _)) by (destruct (negative_ a); lia).
    destruct (is_less_than_ok a b Wa Wb) as (k & -> & Lk & Ek).
    destruct (Z.ltb_spec (magnitude a) (magnitude b)).
    + destruct (internal_sub_ok b a k Wb Wa ltac:(lia) Lk ltac:(lia)) as (t & -> & At & V).
      eapply signed_result; [exact At|exact V|lia|destruct (negative_ a); cbn [negb]; lia].
    + destruct (internal_sub_ok a b k Wa Wb ltac:(lia) Lk ltac:(lia)) as (t & -> & At & V).
      eapply signed_result; [exact At|exact V|lia|destruct (negative_ a); lia].
  - destruct (internal_add_ok a b Wa Wb) as (t & over & -> & Eo & Ok).
    replace (Z.abs _) with (magnitude a + magnitude b) by (destruct (negative_ a), (negative_ b); try congruence; lia).
    rewrite Z.ltb_antisym, <- Eo. destruct over; cbn [negb]; [easy|]. destruct (Ok eq_refl) as [At V].
    symmetry in Eo. apply Z.leb_gt in Eo.
    eapply signed_result; [exact At|exact V|lia|destruct (negative_ a), (negative_ b); try congruence; lia].
Qed.
End Addition.

(** ** Comparison *)

Section Comparison.
Context {D : DecimalRanks} {Dok : DecimalRanksOk D}.

Lemma same_cells_eq a : forall b, length a = length b -> same_cells a b = true <-> a = b.
Proof.
  induction a as [|x a IH]; intros [|y b] L; try discriminate; [easy|]. injection L as L. cbn [same_cells].
  rewrite andb_true_iff, Z.eqb_eq, IH by easy. split; [now intros [-> ->]|now intros [= -> ->]].
Qed.

Lemma all_zero a : forallb (fun x => x =? 0) a = true <-> a = repeat 0 (length a).
Proof.
  induction a as [|x a IH]; [easy|]. cbn [forallb length repeat]. rewrite andb_true_iff, Z.eqb_eq, IH.
  split; [now intros [-> <-]|now intros [= -> <-]].
Qed.

Lemma both_zero_all a : forall b, length a = length b ->
  both_zero a b = forallb (fun x => x =? 0) a && forallb (fun x => x =? 0) b.
Proof.
  induction a as [|x a IH]; intros [|y b] L; try discriminate; [easy|]. injection L as L.
  cbn [both_zero forallb]. rewrite IH by easy. destruct (x =? 0), (y =? 0), (forallb _ a); reflexivity.
Qed.

Lemma is_zero_ok a : array_ok a -> forallb (fun x => x =? 0) a = (val BASE a =? 0).
Proof. intros [_ C]. apply eq_true_iff_eq. now rewrite all_zero, Z.eqb_eq, (val_zero BASE base_ge). Qed.

Lemma dec_eq_ok a b : wf a -> wf b -> dec_eq a b = (value a =? value b).
Proof.
  intros Wa Wb. pose proof (wf_range a Wa). pose proof (wf_range b Wb). destruct Wa as [Aa _], Wb as [Ab _].
  assert (length (array_ a) = length (array_ b)) as L by (destruct Aa, Ab; congruence). unfold dec_eq, value.
  destruct (Bool.eqb_spec (negative_ a) (negative_ b)) as [En|Nn].
  - apply eq_true_iff_eq. rewrite same_cells_eq, Z.eqb_eq, En by easy. unfold magnitude in *.
    split; [intros ->; destruct (negative_ b); lia|]. intros E. apply array_eq; auto. destruct (negative_ b); lia.
  - rewrite both_zero_all, !is_zero_ok by easy. fold (magnitude a) (magnitude b).
    apply eq_true_iff_eq. rewrite andb_true_iff, !Z.eqb_eq. destruct (negative_ a), (negative_ b); try congruence; lia.
Qed.

Lemma dec_lt_ok a b : wf a -> wf b -> dec_lt a b = (value a <? value b).
Proof.
  intros Wa Wb. pose proof (wf_range a Wa). pose proof (wf_range b Wb). unfold dec_lt, value, is_zero.
  destruct (is_less_than_ok a b Wa Wb) as (k & -> & _). destruct (is_less_than_ok b a Wb Wa) as (k' & -> & _).
  rewrite !is_zero_ok by (apply Wa || apply Wb). fold (magnitude a) (magnitude b).
  apply eq_true_iff_eq. rewrite Z.ltb_lt.
  destruct (negative_ a), (negative_ b); cbn [negb andb fst];
    rewrite ?orb_true_iff, ?negb_true_iff, ?Z.eqb_neq, ?Z.ltb_lt; split; try discriminate; lia.
Qed.
End Comparison.

(** ** Rounding *)

Section Rounding.
Context {D : DecimalRanks} {Dok : DecimalRanksOk D}.

(** [10 ^ n] as elements and digits of an element. *)
Lemma places n : (n <= FRACTION_RANK)%nat ->
  let index := (n / DIGITS_PER_ELEMENT)%nat in
  let pow := pow10 element_bits (n mod DIGITS_PER_ELEMENT) in
  pw 10 n = pw BASE index * pow /\ 0 < pow /\ (pow | BASE) /\ (index <= SIZE)%nat /\
  (index = SIZE -> MAX_VALUE <= pw 10 n).
Proof.
  intros Ln. cbv zeta. pose proof digits_per_element_pos as P.
  pose proof (Nat.mod_upper_bound n DIGITS_PER_ELEMENT ltac:(lia)) as U.
  pose proof (Nat.div_mod n DIGITS_PER_ELEMENT ltac:(lia)) as E.
  rewrite pow10_element by lia. pose proof fraction_end_le. pose proof fraction_rank_le. pose proof size_facts.
  repeat split.
  - unfold BASE. rewrite pw_pw, <- pw_add. f_equal. lia.
  - apply pw_pos. lia.
  - exists (pw 10 (DIGITS_PER_ELEMENT - n mod DIGITS_PER_ELEMENT)). unfold BASE. rewrite <- pw_add. f_equal. lia.
  - nia.
  - intros Ei. unfold MAX_VALUE. apply pw_le; [lia|]. rewrite Ei in E. nia.
Qed.

Lemma val_cleared (a : list Z) i : array_ok a -> (i <= SIZE)%nat ->
  array_ok (repeat 0 i ++ skipn i a) /\
  val BASE (repeat 0 i ++ skipn i a) = pw BASE i * (val BASE a / pw BASE i).
Proof.
  intros [L C] Li. split.
  - split; [rewrite length_app, repeat_length, length_skipn; lia|].
    apply Forall_app. split; [apply cells_zeros, base_ge|now apply cells_skipn].
  - rewrite val_app, val_zeros, repeat_length, (val_skipn BASE base_ge) by easy. lia.
Qed.

(** The element at [i] of the cleared array is the one of the array. *)
Lemma cleared_cell (a : list Z) i : array_ok a -> at_cell (repeat 0 i ++ skipn i a) i = val BASE a / pw BASE i mod BASE.
Proof.
  intros [L C]. unfold at_cell. rewrite app_nth2; rewrite repeat_length; [|lia].
  rewrite nth_skipn, Nat.sub_diag, Nat.add_0_r. now apply val_nth; [apply base_ge|].
Qed.

Lemma base_mod q : 0 <= q mod BASE < BASE.
Proof. apply Z.mod_pos_bound. pose proof base_ge. lia. Qed.

(** Writing an element above cleared ones. *)
Lemma written_cell (a : list Z) i y : array_ok a -> (i < SIZE)%nat -> 0 <= y < BASE ->
  let c := repeat 0 i ++ skipn i a in
  let q := val BASE a / pw BASE i in
  array_ok (upd c i y) /\ val BASE (upd c i y) = pw BASE i * (q - q mod BASE + y).
Proof.
  intros A Li Hy. cbv zeta. destruct (val_cleared a i A ltac:(lia)) as [[Lc Cc] Vc]. split.
  - split; [now rewrite upd_length|now apply cells_upd].
  - rewrite val_upd, Vc by lia. change (nth i ?l 0) with (at_cell l i). rewrite cleared_cell by easy. lia.
Qed.

Lemma mod_pow q pow : 0 < pow -> (pow | BASE) -> (q mod BASE) mod pow = q mod pow.
Proof. intros P [k K]. pose proof (base_ge (D := D)). rewrite K, Z.mul_comm. apply mod_mod_mul; nia. Qed.

Lemma small_quotient a i : array_ok a -> i = SIZE -> val BASE a / pw BASE i = 0.
Proof. intros A ->. apply Z.div_small, array_bound, A. Qed.

Lemma floor_array a f : array_ok a -> (f < FRACTION_RANK)%nat ->
  let n := (FRACTION_RANK - f)%nat in
  let t := array_ (floor f (mkDecimal false a)) in
  array_ok t /\ val BASE t = val BASE a / pw 10 n * pw 10 n.
Proof.
  intros A G. cbv zeta. unfold floor. rewrite (proj2 (Nat.leb_gt _ _) G). cbn [array_].
  set (n := (FRACTION_RANK - f)%nat). destruct (places n ltac:(lia)) as (E & Pp & Dv & Li & Ls).
  set (i := (n / DIGITS_PER_ELEMENT)%nat) in *. set (pow := pow10 _ _) in *.
  destruct (val_cleared a i A Li) as [Ac Vc]. pose proof (base_pow i) as Bi.
  rewrite E, <- div_div_mul by lia.
  destruct (Nat.ltb_spec i SIZE) as [L|L].
  2: { split; [easy|]. rewrite Vc, (small_quotient a i A) by lia. rewrite Z.div_0_l by lia. lia. }
  rewrite cleared_cell by easy. set (q := val BASE a / pw BASE i) in *. pose proof (base_mod q) as Bq.
  pose proof (Z.div_mod (q mod BASE) pow ltac:(lia)) as E1. pose proof (Z.div_mod q pow ltac:(lia)) as E2.
  pose proof (Z.mod_pos_bound (q mod BASE) pow Pp). pose proof (Z.div_pos _ pow (proj1 Bq) Pp) as D0.
  rewrite (mod_pow q pow Pp Dv) in *.
  destruct (Z.eqb_spec (q mod pow) 0) as [Z0|Z0]; cbn [negb].
  - split; [easy|]. rewrite Vc. nia.
  - destruct (written_cell a i (q mod BASE / pow * pow) A L) as [Aw Vw]; [nia|].
    split; [exact Aw|]. rewrite Vw. fold q. nia.
Qed.

Lemma floor_ok f d : wf d ->
  wf (floor f d) /\ negative_ (floor f d) = negative_ d /\
  magnitude (floor f d) = magnitude d / pw 10 (FRACTION_RANK - f) * pw 10 (FRACTION_RANK - f).
Proof.
  intros W. pose proof (wf_range d W) as R. destruct (Nat.lt_ge_cases f FRACTION_RANK) as [G|G].
  - destruct (floor_array (array_ d) f (proj1 W) G) as [At Vt].
    assert (array_ (floor f d) = array_ (floor f (mkDecimal false (array_ d)))) as Ea
      by (unfold floor; now rewrite (proj2 (Nat.leb_gt _ _) G)).
    assert (magnitude (floor f d) = magnitude d / pw 10 (FRACTION_RANK - f) * pw 10 (FRACTION_RANK - f)) as M
      by (unfold magnitude at 1; rewrite Ea; exact Vt).
    split; [|split; [unfold floor; now rewrite (proj2 (Nat.leb_gt _ _) G)|exact M]].
    split; [rewrite Ea; exact At|]. rewrite M.
    pose proof (Z.mul_div_le (magnitude d) (pw 10 (FRACTION_RANK - f)) (pw_pos 10 _ ltac:(lia))). lia.
  - unfold floor. rewrite (proj2 (Nat.leb_le _ _) G). replace (FRACTION_RANK - f)%nat with 0%nat by lia.
    rewrite pw_0, Z.div_1_r. repeat split; try apply W; lia.
Qed.

Lemma carry_loop_ok l : cells BASE l ->
  exists t o, carry_loop l = (t, o) /\ length t = length l /\ cells BASE t /\
    val BASE t + (if o : bool then pw BASE (length l) else 0) = val BASE l + 1.
Proof.
  pose proof base_ge. induction 1 as [|x l Hx Hl IH]; cbn [carry_loop].
  - exists [], true. cbn [length val]. rewrite pw_0. repeat split; try lia. constructor.
  - unfold is_cell in Hx. destruct (Z.ltb_spec x (BASE - 1)).
    + exists (x + 1 :: l), false. cbn [length val]. repeat split; try lia. constructor; [unfold is_cell; lia|easy].
    + destruct IH as (t & o & -> & Lt & Ct & V). exists (0 :: t), o. cbn [length val]. rewrite pw_S.
      repeat split; try lia; [constructor; [unfold is_cell; lia|easy]|destruct o; nia].
Qed.

Lemma low_cells_nonzero (a : list Z) i : array_ok a ->
  existsb (fun x => negb (x =? 0)) (firstn i a) = negb (val BASE a mod pw BASE i =? 0).
Proof.
  intros [L C]. rewrite <- (val_firstn BASE base_ge) by easy. pose proof (cells_firstn BASE a i C) as Cf.
  set (l := firstn i a) in *. rewrite <- (negb_involutive (existsb _ l)). f_equal.
  transitivity (forallb (fun x => x =? 0) l).
  - induction l as [|x l IH]; [easy|]. inversion Cf; subst. cbn [existsb forallb]. rewrite negb_orb, negb_involutive. now rewrite IH.
  - apply eq_true_iff_eq. now rewrite all_zero, Z.eqb_eq, (val_zero BASE base_ge).
Qed.
(** The step up of [ceil]: the next multiple of [pow] of the element at [i], with
    the carry. *)
Lemma round_up_ok (a : list Z) i pow : array_ok a -> (i < SIZE)%nat -> 0 < pow -> (pow | BASE) ->
  let c := repeat 0 i ++ skipn i a in
  let q := val BASE a / pw BASE i in
  let v := pw BASE i * ((q / pow + 1) * pow) in
  exists t o,
    (let res := Element ((at_cell c i / pow + 1) * pow) in
     if res <? BASE then (upd c i res, false)
     else let '(t, overflow) := carry_loop (skipn (i + 1) c) in (repeat 0 (i + 1) ++ t, overflow)) = (t, o) /\
    array_ok t /\ o || (INTEGER_MAX_OVER <=? at_cell t (SIZE - 1)) = (MAX_VALUE <=? v) /\
    (o = false -> val BASE t = v).
Proof.
  intros A Li Pp Dv. cbv zeta. rewrite cleared_cell by easy. set (q := val BASE a / pw BASE i).
  pose proof (base_mod q) as Bq. pose proof Dv as [k K]. pose proof (mod_pow q pow Pp Dv) as Mp.
  set (x := q mod BASE) in *. pose proof (base_pow i) as Bi.
  pose proof (Z.div_mod x pow ltac:(lia)) as Ex. pose proof (Z.div_mod q pow ltac:(lia)) as Eq.
  pose proof (Z.mod_pos_bound x pow Pp). pose proof (Z.div_pos x pow (proj1 Bq) Pp) as X0.
  assert (x / pow + 1 <= k) as Lk by (assert (x / pow < k); [apply Z.div_lt_upper_bound; lia|lia]).
  assert (0 <= (x / pow + 1) * pow <= BASE) as R by nia.
  rewrite Element_small by lia.
  assert ((q / pow + 1) * pow = q - x + (x / pow + 1) * pow) as Eu by nia.
  destruct (Z.ltb_spec ((x / pow + 1) * pow) BASE) as [Lt|Ge].
  - destruct (written_cell a i ((x / pow + 1) * pow) A Li ltac:(lia)) as [At Vt]. fold q x in Vt.
    do 2 eexists. split; [reflexivity|]. rewrite Eu. split; [exact At|].
    cbn [orb]. rewrite top_element, Vt by easy. now split.
  - rewrite skipn_app, skipn_all2, repeat_length by (rewrite repeat_length; lia). cbn [app].
    replace (i + 1 - i)%nat with 1%nat by lia. rewrite skipn_skipn. replace (1 + i)%nat with (S i) by lia.
    destruct A as [La Ca]. destruct (carry_loop_ok (skipn (S i) a) (cells_skipn BASE a (S i) Ca)) as (t & o & -> & Lt & Ct & V).
    rewrite length_skipn, La in *. rewrite (val_skipn BASE base_ge) in V by easy.
    assert (array_ok (repeat 0 (i + 1) ++ t)) as At.
    { split; [rewrite length_app, repeat_length; lia|apply Forall_app; split; [apply cells_zeros, base_ge|easy]]. }
    exists (repeat 0 (i + 1) ++ t), o. split; [reflexivity|]. split; [exact At|].
    assert (val BASE (repeat 0 (i + 1) ++ t) = pw BASE (S i) * val BASE t) as Vt
      by (rewrite val_app, val_zeros, repeat_length, Nat.add_1_r; lia).
    assert (pw BASE i * ((q / pow + 1) * pow) = pw BASE (S i) * (val BASE a / pw BASE (S i) + 1)) as Ev.
    { rewrite Eu, pw_S, (Z.mul_comm BASE), <- div_div_mul by (pose proof base_ge; lia). fold q.
      pose proof (Z.div_mod q BASE base_nonzero) as Eb. fold x in Eb.
      replace ((x / pow + 1) * pow) with BASE by lia. rewrite <- Z.mul_assoc. f_equal. lia. }
    rewrite top_element, Ev, <- V, Vt by easy. destruct o; cbn [orb]; [|split; [f_equal; lia|lia]].
    split; [|discriminate]. symmetry. apply Z.leb_le. pose proof max_value_base. pose proof (val_nonneg BASE base_ge t Ct).
    rewrite Z.mul_add_distr_l, <- pw_add. replace (S i + (SIZE - S i))%nat with SIZE by lia. pose proof (base_pow (S i)). nia.
Qed.

Lemma ceil_result (negative : bool) t m : array_ok t -> val BASE t = m -> m < MAX_VALUE ->
  exists r, Ret (mkDecimal negative t) = Ret r /\ wf r /\ negative_ r = negative /\ magnitude r = m.
Proof. intros A V L. eexists. split; [reflexivity|]. repeat split; try apply A; try exact V. unfold magnitude. cbn [array_]. lia. Qed.

Lemma ceil_ok f d : wf d ->
  let u := pw 10 (FRACTION_RANK - f) in
  let m := (magnitude d + u - 1) / u * u in
  if m <? MAX_VALUE then exists r, ceil f d = Ret r /\ wf r /\ negative_ r = negative_ d /\ magnitude r = m
  else ceil f d = Throw Overflow.
Proof.
  intros W. cbv zeta. pose proof (wf_range d W) as R. pose proof W as [A _]. unfold ceil.
  destruct (Nat.leb_spec FRACTION_RANK f) as [G|G].
  { replace (FRACTION_RANK - f)%nat with 0%nat by lia. rewrite pw_0, Z.div_1_r.
    replace ((magnitude d + 1 - 1) * 1) with (magnitude d) by lia. rewrite (proj2 (Z.ltb_lt _ _)) by lia. eauto. }
  set (n := (FRACTION_RANK - f)%nat). destruct (places n ltac:(lia)) as (E & Pp & Dv & Li & Ls).
  set (i := (n / DIGITS_PER_ELEMENT)%nat) in *. set (pow := pow10 _ _) in *.
  rewrite low_cells_nonzero by easy. fold (magnitude d). rewrite ceil_div by (try apply pw_pos; lia).
  pose proof (base_pow i) as Bi.
  assert (magnitude d mod pw 10 n = magnitude d mod pw BASE i + pw BASE i * (magnitude d / pw BASE i mod pow)) as Em
    by (rewrite E; apply div_mod_mul; lia).
  destruct (val_cleared (array_ d) i A Li) as [Ac Vc].
  pose proof (Z.mod_pos_bound (magnitude d) (pw BASE i) Bi). pose proof (Z.mod_pos_bound (magnitude d / pw BASE i) pow Pp).
  pose proof (Z.div_mod (magnitude d) (pw BASE i)) as D1. specialize (D1 ltac:(lia)).
  pose proof (Z.div_mod (magnitude d / pw BASE i) pow) as D2. specialize (D2 ltac:(lia)).
  assert (negb (magnitude d mod pw BASE i =? 0) ||
          negb (at_cell (repeat 0 i ++ skipn i (array_ d)) i mod pow =? 0) = negb (magnitude d mod pw 10 n =? 0)) as Ec.
  { rewrite cleared_cell, mod_pow, Em by easy. fold (magnitude d). apply eq_true_iff_eq.
    rewrite orb_true_iff, !negb_true_iff, !Z.eqb_neq. nia. }
  rewrite E, <- div_div_mul, <- E by lia. destruct (Nat.ltb_spec i SIZE) as [L|L].
  - cbv zeta. rewrite Ec. destruct (Z.eqb_spec (magnitude d mod pw 10 n) 0) as [Z0|Z0]; cbn [negb].
    + rewrite Z.add_0_r, E. assert (pw BASE i * (magnitude d / pw BASE i) = magnitude d) as E1 by nia.
      replace (magnitude d / pw BASE i / pow * (pw BASE i * pow)) with (magnitude d) by nia.
      rewrite (proj2 (Z.ltb_lt _ _)), (proj2 (Z.eqb_eq (magnitude d mod pw BASE i) 0)) by lia.
      apply ceil_result; [exact Ac|rewrite Vc; exact E1|lia].
    + destruct (round_up_ok (array_ d) i pow A L Pp Dv) as (t & o & Er & At & O & V). cbv zeta in Er, O, V.
      rewrite Er, O. fold (magnitude d) in O, V |- *.
      replace ((magnitude d / pw BASE i / pow + 1) * pw 10 n)
        with (pw BASE i * ((magnitude d / pw BASE i / pow + 1) * pow)) by (rewrite E; lia).
      rewrite Z.ltb_antisym. set (v := pw BASE i * ((magnitude d / pw BASE i / pow + 1) * pow)) in *.
      destruct (Z.leb_spec MAX_VALUE v); cbn [negb]; [easy|].
      apply orb_false_iff in O as [O _]. apply ceil_result; [exact At|now apply V|lia].
  - assert (magnitude d / pw BASE i = 0) as Q0 by (apply (small_quotient (array_ d)); [exact A|lia]).
    pose proof (Ls ltac:(lia)). rewrite Q0 in *. rewrite Z.div_0_l, Z.mod_0_l in * by lia.
    destruct (Z.eqb_spec (magnitude d mod pw BASE i) 0) as [Z0|Z0]; cbn [negb].
    + assert (magnitude d = 0) as M0 by lia. rewrite Em, Z0, Z.mul_0_r. cbn [Z.add Z.mul Z.eqb].
      rewrite (proj2 (Z.ltb_lt _ _)) by apply max_value_pos. apply ceil_result; [exact Ac| |apply max_value_pos].
      rewrite Vc. change (val BASE (array_ d)) with (magnitude d). rewrite Q0. lia.
    + rewrite (proj2 (Z.eqb_neq (magnitude d mod pw 10 n) 0)) by lia. rewrite (proj2 (Z.ltb_ge _ _)) by lia. easy.
Qed.
End Rounding.

(** ** Integers *)

Section Integers.
Context {D : DecimalRanks} {Dok : DecimalRanksOk D}.

Definition integer_part (d : Decimal) : Z := magnitude d / pw 10 FRACTION_RANK.

Lemma fits_step max B x ret : 0 < B -> (x <=? max) && (ret <=? (max - x) / B) = true <-> x <= max /\ ret * B + x <= max.
Proof.
  intros HB. rewrite andb_true_iff, !Z.leb_le. split; intros [H1 H2]; split; try easy.
  - pose proof (Z.mul_div_le (max - x) B HB). nia.
  - apply Z.div_le_lower_bound; lia.
Qed.

Lemma integer_loop_ok {I : IntType} cs : forall ret, cells BASE cs -> 0 <= ret -> ret <= int_max ->
  let m := ret * pw BASE (length cs) + val BASE (rev cs) in
  integer_loop cs ret = if int_max <? m then Throw Overflow else Ret m.
Proof.
  pose proof base_ge as G. induction cs as [|x cs IH]; intros ret C R L; cbv zeta; cbn [integer_loop length rev].
  - rewrite pw_0. cbn [val]. rewrite (proj2 (Z.ltb_ge _ _)) by lia. f_equal. lia.
  - inversion C as [|? ? Hx Hc]; subst. unfold is_cell in Hx.
    rewrite val_app, length_rev, pw_S. cbn [val]. rewrite Z.mul_0_r, Z.add_0_r.
    pose proof (base_pow (length cs)) as P. pose proof (val_bound BASE G (rev cs) (Forall_rev Hc)) as V.
    replace (ret * (BASE * pw BASE (length cs)) + (val BASE (rev cs) + pw BASE (length cs) * x))
      with ((ret * BASE + x) * pw BASE (length cs) + val BASE (rev cs)) by lia.
    destruct ((x <=? int_max) && (ret <=? (int_max - x) / BASE)) eqn:E.
    + apply fits_step in E; [|lia]. apply IH; [easy|nia|lia].
    + assert (int_max < ret * BASE + x) as Lt.
      { destruct (Z.lt_ge_cases int_max (ret * BASE + x)) as [|Ge]; [easy|].
        assert (x <= int_max /\ ret * BASE + x <= int_max) as T by nia. apply fits_step in T; [congruence|lia]. }
      rewrite (proj2 (Z.ltb_lt _ _)) by nia. reflexivity.
Qed.

(** The integer part from the elements at and above [FRACTION_END]. *)
Lemma integer_part_cells d : wf d -> (FRACTION_END < SIZE)%nat ->
  integer_part d = val BASE (skipn (FRACTION_END + 1) (array_ d)) * FRACTION_OVER +
                   at_cell (array_ d) FRACTION_END / FRACTION_REMAINDER.
Proof.
  intros [[L C] _] F. pose proof fraction_facts as (E & B & R & _). pose proof base_ge as G. unfold integer_part, magnitude, at_cell.
  rewrite E, <- div_div_mul by (pose proof (base_pow FRACTION_END); lia).
  rewrite <- (val_skipn BASE G) by easy.
  assert (skipn FRACTION_END (array_ d) = nth FRACTION_END (array_ d) 0 :: skipn (FRACTION_END + 1) (array_ d)) as ->.
  { rewrite <- (firstn_skipn 1 (skipn FRACTION_END (array_ d))) at 1. rewrite skipn_skipn.
    replace (1 + FRACTION_END)%nat with (FRACTION_END + 1)%nat by lia.
    pose proof (nth_skipn FRACTION_END (array_ d) 0 0) as N. rewrite Nat.add_0_r in N. rewrite <- N.
    destruct (skipn FRACTION_END (array_ d)) as [|y r] eqn:Er; [|reflexivity].
    apply (f_equal (@length Z)) in Er. rewrite length_skipn in Er. cbn [length] in Er. lia. }
  cbn [val]. set (v := val BASE _). set (x := nth FRACTION_END (array_ d) 0).
  replace (x + BASE * v) with (x + FRACTION_OVER * v * FRACTION_REMAINDER) by (rewrite <- B; lia).
  rewrite Z.div_add by lia. lia.
Qed.

Lemma integer_ok {I : IntType} {Iok : IntTypeOk I} d : wf d ->
  let m := integer_part d in
  integer d = if int_max <? m then Throw Overflow
              else if negative_ d && negb (m =? 0) && negb is_signed then Throw SignException
              else Ret (if negative_ d then - m else m).
Proof.
  intros W. cbv zeta. unfold integer. pose proof (wf_range d W) as R. pose proof fraction_rank_le as Fl.
  pose proof (pw_pos 10 FRACTION_RANK ltac:(lia)) as Pf. pose proof int_max_big.
  destruct (Nat.eqb_spec INTEGER_RANK 0) as [Z0|N0].
  - assert (integer_part d = 0) as ->.
    { apply Z.div_small. unfold MAX_VALUE in R. replace FRACTION_RANK with TOTAL_RANK by (unfold INTEGER_RANK in Z0; lia). exact R. }
    rewrite (proj2 (Z.ltb_ge _ _)) by lia. cbn [Z.eqb negb]. rewrite andb_false_r. cbn [andb Z.opp]. now destruct (negative_ d).
  - assert (FRACTION_END < SIZE)%nat as Fe.
    { pose proof fraction_split. pose proof size_facts. pose proof digits_per_element_pos. unfold INTEGER_RANK in N0. nia. }
    rewrite (integer_part_cells d W Fe). pose proof W as [[L C] _]. pose proof fraction_facts as (E & B & Rr & Ro).
    assert (cells BASE (rev (skipn (FRACTION_END + 1) (array_ d)))) as Cr by (apply Forall_rev, cells_skipn, C).
    rewrite (integer_loop_ok _ 0 Cr) by lia. rewrite rev_involutive. cbv zeta. rewrite Z.mul_0_l, Z.add_0_l.
    set (v := val BASE (skipn (FRACTION_END + 1) (array_ d))). set (x := at_cell (array_ d) FRACTION_END / FRACTION_REMAINDER).
    assert (0 <= v) as V0 by (apply (val_nonneg BASE base_ge), cells_skipn, C).
    assert (0 <= x) as X0 by (apply Z.div_pos; [apply (cells_nth BASE base_ge), C|lia]).
    destruct (Z.ltb_spec int_max v).
    { cbn [bind]. rewrite (proj2 (Z.ltb_lt int_max _)) by nia. reflexivity. }
    cbn [bind]. assert (0 < FRACTION_OVER) as Fo by lia. pose proof (fits_step int_max FRACTION_OVER x v Fo) as Fs.
    assert ((int_max <? x) || ((int_max - x) / FRACTION_OVER <? v) = (int_max <? v * FRACTION_OVER + x)) as ->.
    { apply eq_true_iff_eq. rewrite orb_true_iff, !Z.ltb_lt. rewrite andb_true_iff, !Z.leb_le in Fs. nia. }
    reflexivity.
Qed.

(** ** Construction from parts *)

Lemma low_cells_ok n : forall z, 0 <= z ->
  exists t, low_cells n z = (t, z / pw BASE n) /\ length t = n /\ cells BASE t /\ val BASE t = z mod pw BASE n.
Proof.
  pose proof base_ge. induction n as [|n IH]; intros z Hz; cbn [low_cells].
  - exists []. rewrite pw_0, Z.div_1_r, Z.mod_1_r. repeat split. constructor.
  - destruct (IH (z / BASE)) as (t & -> & L & C & V); [apply Z.div_pos; lia|].
    pose proof (base_pow n). rewrite div_div_mul, <- pw_S by lia. exists (z mod BASE :: t). split; [reflexivity|].
    cbn [length val]. split; [now rewrite L|]. split; [constructor; [apply base_mod|easy]|].
    rewrite V, pw_S, (div_mod_mul z BASE) by lia. reflexivity.
Qed.

Lemma high_cells_S stop n z :
  high_cells stop (S (S n)) z =
  if stop && (z =? 0) then (repeat 0 (S (S n)), 0)
  else let '(t, rest) := high_cells stop (S n) (z / BASE) in (z mod BASE :: t, rest).
Proof. reflexivity. Qed.

Lemma high_cells_ok stop n : forall z, 0 <= z ->
  let limit := match n with O => 1 | S n' => pw BASE n' * INTEGER_MAX_OVER end in
  exists t, high_cells stop n z = (t, z / limit) /\ length t = n /\ cells BASE t /\ val BASE t = z mod limit.
Proof.
  pose proof base_ge. pose proof integer_max_over_spec as [_ O].
  induction n as [|n IH]; intros z Hz; cbv zeta.
  - exists []. rewrite Z.div_1_r, Z.mod_1_r. repeat split. constructor.
  - destruct n as [|n].
    + cbn [high_cells]. rewrite pw_0, Z.mul_1_l. assert (0 < INTEGER_MAX_OVER) as Po by lia. pose proof (Z.mod_pos_bound z INTEGER_MAX_OVER Po).
      exists [z mod INTEGER_MAX_OVER]. split; [reflexivity|]. split; [reflexivity|].
      split; [repeat constructor; unfold is_cell; lia|]. cbn [val]. lia.
    + rewrite high_cells_S, pw_S, <- Z.mul_assoc. pose proof (base_pow n).
      assert (0 < pw BASE n * INTEGER_MAX_OVER) by nia.
      destruct (stop && (z =? 0)) eqn:Es.
      * apply andb_true_iff in Es as [_ Es]. apply Z.eqb_eq in Es as ->. exists (repeat 0 (S (S n))).
        rewrite Z.div_0_l, Z.mod_0_l, repeat_length, val_zeros by lia. repeat split. now apply cells_zeros.
      * destruct (IH (z / BASE)) as (t & E & L & C & V); [apply Z.div_pos; lia|]. rewrite E.
        rewrite div_div_mul by lia. exists (z mod BASE :: t). split; [reflexivity|]. cbn [length val].
        split; [now rewrite L|]. split; [constructor; [apply base_mod|easy]|]. rewrite V, (div_mod_mul z BASE) by lia. reflexivity.
Qed.

(** The greatest integer part accepted, plus one: 10 ^ INTEGER_RANK, except when
    the integer part begins and ends in one element. *)
Definition integer_limit : Z :=
  if (INTEGER_RANK =? 0)%nat then 1
  else if (FRACTION_END + 1 =? SIZE)%nat then FRACTION_OVER
  else pw 10 INTEGER_RANK.

Lemma parts_limit : (FRACTION_END + 1 < SIZE)%nat ->
  pw 10 INTEGER_RANK = FRACTION_OVER * (pw BASE (SIZE - FRACTION_END - 2) * INTEGER_MAX_OVER).
Proof.
  intros L. pose proof fraction_split as [E Lm]. pose proof size_facts as (P & S1 & S2). pose proof fraction_rank_le.
  unfold FRACTION_OVER, INTEGER_MAX_OVER, BASE, INTEGER_RANK. rewrite pw_pw, <- !pw_add. f_equal.
  set (m := (FRACTION_RANK mod DIGITS_PER_ELEMENT)%nat) in *. nia.
Qed.

Lemma no_integer_size : INTEGER_RANK = 0%nat -> (SIZE <= FRACTION_END + 1)%nat.
Proof.
  intros I0. pose proof size_facts as (_ & S1 & _). pose proof fraction_split as [E L]. pose proof fraction_rank_le.
  unfold INTEGER_RANK in I0. destruct (Nat.le_gt_cases SIZE (FRACTION_END + 1)) as [|G]; [easy|].
  pose proof (Nat.mul_le_mono_r (FRACTION_END + 1) (SIZE - 1) DIGITS_PER_ELEMENT ltac:(lia)). lia.
Qed.

(** The array of the three pieces. *)
Lemma parts_array integer fraction low t : 0 <= integer -> 0 <= fraction -> fraction < pw 10 FRACTION_RANK ->
  length low = FRACTION_END -> cells BASE low -> val BASE low = fraction mod pw BASE FRACTION_END ->
  (FRACTION_END + 1 + length t = SIZE)%nat -> cells BASE t -> val BASE t = integer / FRACTION_OVER ->
  let m := fraction / pw BASE FRACTION_END + integer mod FRACTION_OVER * FRACTION_REMAINDER in
  Element (fraction / pw BASE FRACTION_END + Element (integer mod FRACTION_OVER) * FRACTION_REMAINDER) = m /\
  array_ok (low ++ m :: t) /\ val BASE (low ++ m :: t) = integer * pw 10 FRACTION_RANK + fraction.
Proof.
  intros Hi Hf Lf Ll Cl Vl Lt Ct Vt. cbv zeta. pose proof fraction_facts as (E & B & Rr & Ro). pose proof base_facts as BF.
  pose proof (base_pow FRACTION_END) as Pe. rewrite E in *.
  assert (0 <= fraction / pw BASE FRACTION_END < FRACTION_REMAINDER) as Lq
    by (split; [apply Z.div_pos; lia|apply Z.div_lt_upper_bound; lia]).
  pose proof (Z.div_mod fraction (pw BASE FRACTION_END)) as Df. specialize (Df ltac:(lia)).
  set (f := fraction / pw BASE FRACTION_END) in *.
  assert (0 < FRACTION_OVER) as Fo by lia. pose proof (Z.mod_pos_bound integer FRACTION_OVER Fo) as Mo.
  pose proof (Z.div_mod integer FRACTION_OVER) as Di. specialize (Di ltac:(lia)).
  set (r := integer mod FRACTION_OVER) in *. set (q := integer / FRACTION_OVER) in *.
  assert (0 <= r * FRACTION_REMAINDER <= (FRACTION_OVER - 1) * FRACTION_REMAINDER) as Mr
    by (split; [apply Z.mul_nonneg_nonneg|apply Z.mul_le_mono_nonneg_r]; lia).
  assert (0 <= f + r * FRACTION_REMAINDER < BASE) as Mb by lia.
  rewrite (Element_small r), Element_small by lia. split; [reflexivity|]. split.
  - split; [rewrite length_app; cbn [length]; lia|]. apply Forall_app. split; [exact Cl|]. now constructor.
  - rewrite val_app, Ll. cbn [val]. rewrite Vt, Vl. set (b := pw BASE FRACTION_END) in *.
    replace (fraction mod b) with (fraction - b * f) by lia. rewrite Di, <- B. ring.
Qed.

(** The result, from the elements [t] above the one that has digits of both
    parts and what is left of the integer after them. *)
Lemma parts_result negative integer fraction low t rest : 0 <= integer -> 0 <= fraction < pw 10 FRACTION_RANK ->
  (FRACTION_END < SIZE)%nat -> length low = FRACTION_END -> cells BASE low ->
  val BASE low = fraction mod pw BASE FRACTION_END ->
  length t = (SIZE - (FRACTION_END + 1))%nat -> cells BASE t ->
  (integer < integer_limit -> val BASE t = integer / FRACTION_OVER) -> (rest = 0 <-> integer < integer_limit) ->
  let m := Element (fraction / pw BASE FRACTION_END + Element (integer mod FRACTION_OVER) * FRACTION_REMAINDER) in
  let r := if negb (rest =? 0) then Throw Overflow else Ret (mkDecimal negative (low ++ m :: t)) in
  if integer_limit <=? integer then r = Throw Overflow
  else exists d, r = Ret d /\ array_ok (array_ d) /\ negative_ d = negative /\
         magnitude d = integer * pw 10 FRACTION_RANK + fraction.
Proof.
  intros Hi [Hf Lf] Le Ll Cl Vl Lt Ct Vt Hr. cbv zeta. destruct (Z.leb_spec integer_limit integer).
  - now rewrite (proj2 (Z.eqb_neq _ _)) by lia.
  - rewrite (proj2 (Z.eqb_eq _ _)) by lia. cbn [negb].
    destruct (parts_array integer fraction low t Hi Hf Lf Ll Cl Vl ltac:(lia) Ct (Vt ltac:(assumption))) as (-> & A & V).
    eexists. split; [reflexivity|]. split; [exact A|]. split; [reflexivity|exact V].
Qed.

Lemma parts_ok negative integer fraction : 0 <= integer -> 0 <= fraction < 2 ^ 64 ->
  let r := Decimal_parts negative integer fraction in
  if pw 10 FRACTION_RANK <=? fraction then r = Throw Overflow
  else if (FRACTION_END =? SIZE)%nat then r = Undef
  else if integer_limit <=? integer then r = Throw Overflow
  else exists d, r = Ret d /\ array_ok (array_ d) /\ negative_ d = negative /\
         magnitude d = integer * pw 10 FRACTION_RANK + fraction.
Proof.
  intros Hi Hf. cbv zeta. unfold Decimal_parts. pose proof fraction_facts as (E & B & Rr & Ro).
  pose proof fraction_end_le as Le. pose proof base_facts as BF. pose proof (base_pow FRACTION_END) as Pe.
  destruct (low_cells_ok FRACTION_END fraction ltac:(lia)) as (low & -> & Ll & Cl & Vl).
  assert (0 <= fraction / pw BASE FRACTION_END <= fraction) as Q
    by (split; [apply Z.div_pos; lia|apply Z.div_le_upper_bound; nia]).
  rewrite exceeds_small by lia.
  assert ((FRACTION_REMAINDER <=? fraction / pw BASE FRACTION_END) = (pw 10 FRACTION_RANK <=? fraction)) as ->.
  { rewrite E. apply eq_true_iff_eq. rewrite !Z.leb_le. pose proof (Z.mul_div_le fraction (pw BASE FRACTION_END) Pe).
    split; intros; [nia|]. apply Z.div_le_lower_bound; lia. }
  destruct (Z.leb_spec (pw 10 FRACTION_RANK) fraction) as [|Lf]; [easy|].
  destruct (Nat.eqb_spec FRACTION_END SIZE) as [Es|Ns]; [now rewrite (proj2 (Nat.leb_le _ _)) by lia|].
  rewrite (proj2 (Nat.leb_gt _ _)) by lia. assert (0 < FRACTION_OVER) as Fo by lia.
  pose proof (fun t rest Lt Ct Vt Hr => parts_result negative integer fraction low t rest
    Hi (conj (proj1 Hf) Lf) ltac:(lia) Ll Cl Vl Lt Ct Vt Hr) as K. cbv zeta in K.
  unfold integer_limit in *. pose proof (Z.div_small integer FRACTION_OVER) as Ds.
  destruct (Nat.eqb_spec INTEGER_RANK 0) as [I0|I0]; cbn [negb].
  - apply (K []); cbn [length val]; try lia; [|constructor]. pose proof (no_integer_size I0). lia.
  - destruct (high_cells_ok false (SIZE - (FRACTION_END + 1)) (integer / FRACTION_OVER)) as (t & -> & Lt & Ct & Vt);
      [apply Z.div_pos; lia|]. cbv zeta in Vt. pose proof (Z.div_pos integer FRACTION_OVER Hi Fo) as Q0.
    destruct (SIZE - (FRACTION_END + 1))%nat as [|n] eqn:En.
    + rewrite (proj2 (Nat.eqb_eq _ _)) in * by lia. rewrite Z.div_1_r. apply (K t); auto; [|].
      * intros L. rewrite Vt, Z.mod_1_r. symmetry. apply Ds. lia.
      * split; [|intros L; apply Ds; lia]. intros Z0. pose proof (Z.mul_succ_div_gt integer FRACTION_OVER Fo). lia.
    + rewrite (proj2 (Nat.eqb_neq _ _)) in * by lia. pose proof (parts_limit ltac:(lia)) as PL.
      replace (SIZE - FRACTION_END - 2)%nat with n in PL by lia. set (limit := pw BASE n * INTEGER_MAX_OVER) in *.
      assert (0 < limit) as L0 by (unfold limit; pose proof (base_pow n); pose proof integer_max_over_spec as [_ Ov]; nia).
      assert (integer / FRACTION_OVER < limit <-> integer < pw 10 INTEGER_RANK) as Q1.
      { rewrite PL. now apply div_lt_iff. }
      apply (K t); auto.
      * intros L. rewrite Vt. apply Z.mod_small. lia.
      * rewrite <- Q1. split; intros L; [|apply Z.div_small; lia].
        pose proof (Z.mul_succ_div_gt (integer / FRACTION_OVER) limit L0). lia.
Qed.
End Integers.

(** ** Properties *)

Definition D36_16 : DecimalRanks := {| element_bits := 64; TOTAL_RANK := 36; FRACTION_RANK := 16 |}.
#[export] Instance D36_16_ok : DecimalRanksOk D36_16.
Proof. split; [cbn; lia|cbn; lia|cbn; lia]. Qed.

(** Ten digits after the point in elements of nine digits. *)
Definition D20_10 : DecimalRanks := {| element_bits := 32; TOTAL_RANK := 20; FRACTION_RANK := 10 |}.
#[export] Instance D20_10_ok : DecimalRanksOk D20_10.
Proof. split; [cbn; lia|cbn; lia|cbn; lia]. Qed.

Section Properties.
Context {D : DecimalRanks} {Dok : DecimalRanksOk D}.

(** C7: sums and differences of two decimals are exact when they have at most
    [TOTAL_RANK] digits and throw [Overflow] when they do not, whatever the
    signs; the comparisons are those of the values, so that both zeros are
    equal. *)
Theorem big_decimal_add_sub a b : wf a -> wf b ->
  (if Z.abs (value a + value b) <? MAX_VALUE
   then exists r, add a b = Ret r /\ wf r /\ value r = value a + value b
   else add a b = Throw Overflow) /\
  (if Z.abs (value a - value b) <? MAX_VALUE
   then exists r, sub a b = Ret r /\ wf r /\ value r = value a - value b
   else sub a b = Throw Overflow) /\
  dec_eq a b = (value a =? value b) /\ dec_lt a b = (value a <? value b) /\ dec_le a b = (value a <=? value b).
Proof.
  intros Wa Wb. split; [now apply add_ok|]. split; [now apply sub_ok|]. split; [now apply dec_eq_ok|].
  split; [now apply dec_lt_ok|]. unfold dec_le. rewrite dec_lt_ok by easy. symmetry. apply Z.leb_antisym.
Qed.

(** [floor] clears the digits after the first [fraction] ones, and [ceil]
    rounds the magnitude up to the next multiple of that unit or throws
    [Overflow] when it has more than [TOTAL_RANK] digits; both keep the sign. *)
Theorem big_decimal_rounding fraction d : wf d ->
  let u := pw 10 (FRACTION_RANK - fraction) in
  wf (floor fraction d) /\ negative_ (floor fraction d) = negative_ d /\
  magnitude (floor fraction d) = magnitude d / u * u /\
  let m := (magnitude d + u - 1) / u * u in
  if m <? MAX_VALUE
  then exists r, ceil fraction d = Ret r /\ wf r /\ negative_ r = negative_ d /\ magnitude r = m
  else ceil fraction d = Throw Overflow.
Proof.
  intros W. cbv zeta. destruct (floor_ok fraction d W) as (F1 & F2 & F3). split; [exact F1|]. split; [exact F2|].
  split; [exact F3|]. exact (ceil_ok fraction d W).
Qed.

(** a decimal made from an integer and a fraction: fractions and integers
    that have too many digits are refused with [Overflow], and the others give
    their number.  (With no integer digit in the last element the constructor
    writes after the array, and an integer that shares its only element with
    the fraction is limited by the element, not by [INTEGER_RANK].)  [integer]
    gives the integer part back in any type that holds it, and throws otherwise. *)
Theorem big_decimal_parts negative integer_ fraction : 0 <= integer_ -> 0 <= fraction < 2 ^ 64 ->
  let r := Decimal_parts negative integer_ fraction in
  (if pw 10 FRACTION_RANK <=? fraction then r = Throw Overflow
   else if (FRACTION_END =? SIZE)%nat then r = Undef
   else if integer_limit <=? integer_ then r = Throw Overflow
   else exists d, r = Ret d /\ array_ok (array_ d) /\ negative_ d = negative /\
          magnitude d = integer_ * pw 10 FRACTION_RANK + fraction /\ (integer_ < pw 10 INTEGER_RANK -> wf d)) /\
  forall (I : IntType) (Iok : IntTypeOk I) d, wf d ->
    let m := integer_part d in
    integer d = if int_max <? m then Throw Overflow
                else if negative_ d && negb (m =? 0) && negb is_signed then Throw SignException
                else Ret (if negative_ d then - m else m).
Proof.
  intros Hi Hf. cbv zeta. split; [|intros; now apply integer_ok].
  pose proof (parts_ok negative integer_ fraction Hi Hf) as P. cbv zeta in P.
  destruct (Z.leb_spec (pw 10 FRACTION_RANK) fraction) as [|Lf]; [exact P|]. destruct (_ =? _)%nat; [exact P|].
  destruct (_ <=? _); [exact P|]. destruct P as (d & -> & A & N & M). exists d. repeat split; try easy; try apply A.
  rewrite M. unfold MAX_VALUE. pose proof fraction_rank_le. replace TOTAL_RANK with (INTEGER_RANK + FRACTION_RANK)%nat
    by (unfold INTEGER_RANK; lia). rewrite pw_add. pose proof (pw_pos 10 FRACTION_RANK ltac:(lia)). nia.
Qed.

End Properties.

Lemma big_decimal_add_sub_witness :
  let a := mkDecimal true [999999999999999999; 999999999999999999] in let b := mkDecimal false [1; 0] in
  let V := value (D := D36_16) in
  (if Z.abs (V a + V b) <? MAX_VALUE (D := D36_16)
   then exists r, add (D := D36_16) a b = Ret r /\ wf (D := D36_16) r /\ V r = V a + V b
   else add (D := D36_16) a b = Throw Overflow) /\
  (if Z.abs (V a - V b) <? MAX_VALUE (D := D36_16)
   then exists r, sub (D := D36_16) a b = Ret r /\ wf (D := D36_16) r /\ V r = V a - V b
   else sub (D := D36_16) a b = Throw Overflow) /\
  dec_eq a b = (V a =? V b) /\ dec_lt (D := D36_16) a b = (V a <? V b) /\ dec_le (D := D36_16) a b = (V a <=? V b).
Proof.
  apply (big_decimal_add_sub (D := D36_16) (mkDecimal true [999999999999999999; 999999999999999999]) (mkDecimal false [1; 0]));
    (split; [split; [reflexivity|repeat constructor; vm_compute; easy]|vm_compute; easy]).
Defined.

Lemma big_decimal_rounding_witness :
  let d := mkDecimal true [999999999; 999999999; 12] in
  let u := pw 10 (10 - 2) in
  wf (D := D20_10) (floor (D := D20_10) 2 d) /\ negative_ (floor (D := D20_10) 2 d) = negative_ d /\
  magnitude (D := D20_10) (floor (D := D20_10) 2 d) = magnitude (D := D20_10) d / u * u /\
  let m := (magnitude (D := D20_10) d + u - 1) / u * u in
  if m <? MAX_VALUE (D := D20_10)
  then exists r, ceil (D := D20_10) 2 d = Ret r /\ wf (D := D20_10) r /\ negative_ r = negative_ d /\ magnitude (D := D20_10) r = m
  else ceil (D := D20_10) 2 d = Throw Overflow.
Proof.
  apply (big_decimal_rounding (D := D20_10) 2 (mkDecimal true [999999999; 999999999; 12])).
  split; [split; [reflexivity|repeat constructor; vm_compute; easy]|vm_compute; easy].
Defined.

Lemma big_decimal_parts_witness :
  let r := Decimal_parts (D := D20_10) true 123456789012 9 in
  (if pw 10 10 <=? 9 then r = Throw Overflow
   else if (FRACTION_END (D := D20_10) =? SIZE (D := D20_10))%nat then r = Undef
   else if integer_limit (D := D20_10) <=? 123456789012 then r = Throw Overflow
   else exists d, r = Ret d /\ array_ok (D := D20_10) (array_ d) /\ negative_ d = true /\
          magnitude (D := D20_10) d = 123456789012 * pw 10 10 + 9 /\
          (123456789012 < pw 10 (INTEGER_RANK (D := D20_10)) -> wf (D := D20_10) d)) /\
  forall (I : IntType) (Iok : IntTypeOk I) d, wf (D := D20_10) d ->
    let m := integer_part (D := D20_10) d in
    integer (D := D20_10) d = if int_max <? m then Throw Overflow
                else if negative_ d && negb (m =? 0) && negb is_signed then Throw SignException
                else Ret (if negative_ d then - m else m).
Proof. apply (big_decimal_parts (D := D20_10) true 123456789012 9); lia. Defined.

(** An integer of eleven digits where five are allowed: both parts are in one
    element and only the element is checked. *)
Example parts_too_long :
  let D := {| element_bits := 64; TOTAL_RANK := 10; FRACTION_RANK := 5 |} in
  Decimal_parts (D := D) false 1000000 0 = Ret (mkDecimal false [100000000000]) /\
  MAX_VALUE (D := D) = 10000000000 /\
  Decimal_power (D := D) (I := UInt32) 32 1000000 0 = Ret (mkDecimal false [100000000000]).
Proof. vm_compute. repeat split. Qed.

(** No integer digit: the element after the fraction is written, and there is
    none. *)
Example parts_out_of_range :
  Decimal_parts (D := {| element_bits := 8; TOTAL_RANK := 4; FRACTION_RANK := 4 |}) false 0 1 = Undef.
Proof. vm_compute. reflexivity. Qed.
