(* ===== verification/DecimalPower.v ===== *)
(** * DecimalPower: the constructor of [Decimal] from an integer and a power of ten

    What [construct_(integer, power)] of src/src/Generics/Decimal.tpp makes of
    [integer / 10 ^ power], and which layouts of a decimal limit an integer to the
    digits of its type. *)

From Stdlib Require Import ZArith List Bool Lia.
From S2P Require Import Prelude Radix CommonDecimal Decimal.
Import ListNotations.

Section Power.
Context {D : DecimalRanks} {Dok : DecimalRanksOk D}.

(** The digits of an integer part are limited by the check of the last element,
    when there is an element above the one with the last digits of the fraction,
    or the last element is full. *)
Definition integers_checked : Prop := (FRACTION_END + 1 < SIZE)%nat \/ INTEGER_MAX_OVER = BASE.

(** The elements of [x * 10 ^ k] and what is left of [x] after them, as
    [construct_] makes them. *)
Definition scaled_cells (x : Z) (k : nat) : list Z * Z :=
  let i := (k / DIGITS_PER_ELEMENT)%nat in
  let diff := (k mod DIGITS_PER_ELEMENT)%nat in
  let '(middle, x) :=
    if negb (diff =? 0)%nat then
      let mask := pow10 element_bits (DIGITS_PER_ELEMENT - diff) in
      ([Element (Element (x mod mask) * (BASE / mask))], x / mask)
    else ([], x) in
  let low := repeat 0 i ++ middle in
  let '(high, rest) := high_cells true (SIZE - length low) x in
  (low ++ high, rest).

(** The elements that the power fills. *)
Lemma low_scaled x k : 0 <= x -> (k <= FRACTION_RANK)%nat ->
  exists low y, scaled_cells x k = (let '(high, rest) := high_cells true (SIZE - length low) y in (low ++ high, rest)) /\
    (length low <= SIZE)%nat /\ (length low <= FRACTION_END + 1)%nat /\ cells BASE low /\ 0 <= y /\
    val BASE low + pw BASE (length low) * y = x * pw 10 k.
Proof.
  intros Hx Hk. unfold scaled_cells. pose proof base_ge as BG. pose proof digits_per_element_pos as DP.
  pose proof size_facts as (SP & S1 & S2). pose proof fraction_rank_le as FT. pose proof fraction_split as (FS & FL).
  pose proof (Nat.div_mod k DIGITS_PER_ELEMENT ltac:(lia)) as Ek.
  pose proof (Nat.mod_upper_bound k DIGITS_PER_ELEMENT ltac:(lia)) as Lk.
  pose proof (Nat.Div0.div_le_mono k FRACTION_RANK DIGITS_PER_ELEMENT Hk) as Lf.
  fold FRACTION_END in Lf. set (i := (k / DIGITS_PER_ELEMENT)%nat) in *. set (diff := (k mod DIGITS_PER_ELEMENT)%nat) in *.
  assert (pw 10 k = pw BASE i * pw 10 diff) as Ep by (unfold BASE; rewrite pw_pw, <- pw_add; f_equal; nia).
  destruct (Nat.eqb_spec diff 0) as [Z0|Nz]; cbn [negb].
  - exists (repeat 0 i), x. rewrite app_nil_r, repeat_length, val_zeros.
    assert (i <= SIZE)%nat as Li by (clear - Ek Hk FT S2 DP; nia).
    split; [reflexivity|]. split; [lia|]. split; [lia|]. split; [now apply cells_zeros|]. split; [lia|].
    rewrite Ep, Z0, pw_0. lia.
  - rewrite pow10_element by lia. set (mask := pw 10 (DIGITS_PER_ELEMENT - diff)).
    assert (BASE = mask * pw 10 diff) as Eb by (unfold BASE, mask; rewrite <- pw_add; f_equal; lia).
    assert (0 < mask) as Mp by (apply pw_pos; lia). pose proof (pw_pos 10 diff ltac:(lia)) as Pd.
    assert (BASE / mask = pw 10 diff) as Ed by (rewrite Eb, Z.mul_comm, Z.div_mul; lia). cbv zeta. rewrite Ed.
    pose proof (Z.mod_pos_bound x mask Mp) as Xm. assert (mask <= BASE) as Mb by nia.
    assert (0 <= x mod mask * pw 10 diff < BASE) as Cm by nia.
    rewrite (Element_small (x mod mask)), Element_small by lia.
    exists (repeat 0 i ++ [x mod mask * pw 10 diff]), (x / mask). rewrite length_app, repeat_length. cbn [length].
    rewrite val_app, repeat_length, val_zeros. cbn [val]. rewrite Nat.add_1_r, pw_S.
    assert (i < SIZE)%nat as Li by (clear - Ek Hk FT S2 Nz DP; nia).
    split; [reflexivity|]. split; [lia|]. split; [lia|].
    split; [apply Forall_app; split; [now apply cells_zeros|now repeat constructor]|].
    split; [apply Z.div_pos; lia|].
    rewrite Ep. pose proof (Z.div_mod x mask ltac:(lia)) as Ex. rewrite Eb. set (q := x / mask) in *. set (r := x mod mask) in *.
    rewrite Ex. ring.
Qed.

Lemma scaled_ok x k : 0 <= x -> (k <= FRACTION_RANK)%nat ->
  let '(a, rest) := scaled_cells x k in
  array_ok a /\ (rest = 0 -> val BASE a = x * pw 10 k /\ (integers_checked -> val BASE a < MAX_VALUE)) /\
  (rest <> 0 -> MAX_VALUE <= x * pw 10 k).
Proof.
  intros Hx Hk. destruct (low_scaled x k Hx Hk) as (low & y & -> & Ls & Lf & Cl & Hy & E).
  destruct (high_cells_ok true (SIZE - length low) y Hy) as (t & -> & Lt & Ct & Vt).
  pose proof base_ge as BG. pose proof integer_max_over_spec as [M O].
  pose proof (val_bound BASE BG low Cl) as Bl. pose proof (base_pow (length low)) as Pl.
  set (limit := match (SIZE - length low)%nat with O => 1 | S n => pw BASE n * INTEGER_MAX_OVER end) in *.
  assert (0 < limit) as L0.
  { unfold limit. destruct (SIZE - length low)%nat as [|n]; [lia|]. pose proof (base_pow n). nia. }
  assert (MAX_VALUE <= pw BASE (length low) * limit) as ML.
  { unfold limit. destruct (SIZE - length low)%nat as [|n] eqn:En.
    - replace (length low) with SIZE by lia. pose proof max_value_base. lia.
    - rewrite M, Z.mul_assoc, <- pw_add. replace (length low + n)%nat with (SIZE - 1)%nat by lia. lia. }
  pose proof (Z.div_mod y limit ltac:(lia)) as Ey. pose proof (Z.mod_pos_bound y limit L0) as My.
  assert (array_ok (low ++ t)) as A by (split; [rewrite length_app; lia|now apply Forall_app]).
  split; [exact A|]. rewrite val_app, Vt. split.
  - intros R. rewrite R, Z.mul_0_r, Z.add_0_l in Ey. rewrite <- Ey. split; [exact E|]. intros Hc.
    assert (pw BASE (length low) * limit = MAX_VALUE \/ pw BASE SIZE = MAX_VALUE) as [L|L].
    { unfold limit. destruct (SIZE - length low)%nat as [|n] eqn:En.
      - destruct Hc as [Hc|Hc]; [lia|]. right. rewrite M, Hc, <- (Z.mul_comm BASE), <- pw_S. f_equal. pose proof size_pos. lia.
      - left. rewrite M, Z.mul_assoc, <- pw_add. do 2 f_equal. lia. }
    + rewrite <- L, Ey. nia.
    + rewrite <- L. pose proof (array_bound _ A) as B. rewrite val_app, Vt, <- Ey in B. apply B.
  - intros R. rewrite <- E. assert (1 <= y / limit) by (assert (0 <= y / limit) by (apply Z.div_pos; lia); lia). nia.
Qed.

(** The value that an integer and a power stand for, in units of the last digit. *)
Definition power_value (integer : Z) (power : nat) : Z := Z.abs integer * pw 10 FRACTION_RANK / pw 10 power.

(** The number that is scaled, and by which power. *)
Lemma scale_start {I : IntType} {Iok : IntTypeOk I} bits n power : 0 <= n -> int_max < 2 ^ bits -> bits <= 64 ->
  (power < Z.to_nat digits10 + FRACTION_RANK)%nat ->
  exists x k, (if (FRACTION_RANK <? power)%nat then (n / pow10 bits (power - FRACTION_RANK), FRACTION_RANK) else (n, power)) = (x, k) /\
    0 <= x /\ (k <= FRACTION_RANK)%nat /\ x * pw 10 (FRACTION_RANK - k) = n * pw 10 FRACTION_RANK / pw 10 power.
Proof.
  intros Hn Hm Hb Hp. pose proof digits10_spec as DS. pose proof digits10_pos as DP.
  assert (digits10 < 20) as D20.
  { destruct (Z.lt_ge_cases digits10 20) as [|G]; [easy|]. pose proof (Z.pow_le_mono_r 10 20 digits10 ltac:(lia) G).
    pose proof (Z.pow_le_mono_r 2 bits 64 ltac:(lia) Hb). lia. }
  destruct (Nat.ltb_spec FRACTION_RANK power) as [L|L].
  - assert (pow10 bits (power - FRACTION_RANK) = pw 10 (power - FRACTION_RANK)) as ->.
    { apply pow10_small; [lia|]. pose proof (Z.pow_le_mono_r 10 (Z.of_nat (power - FRACTION_RANK)) digits10 ltac:(lia) ltac:(lia)). lia. }
    pose proof (pw_pos 10 (power - FRACTION_RANK) ltac:(lia)). do 2 eexists. split; [reflexivity|].
    split; [now apply Z.div_pos|]. split; [lia|]. rewrite Nat.sub_diag, pw_0, Z.mul_1_r.
    replace power with (FRACTION_RANK + (power - FRACTION_RANK))%nat at 2 by lia. rewrite pw_add, (Z.mul_comm (pw 10 FRACTION_RANK)).
    now rewrite Z.div_mul_cancel_r by (try apply Z.neq_sym, Z.lt_neq, pw_pos; lia).
  - exists n, power. split; [reflexivity|]. split; [easy|]. split; [easy|].
    replace FRACTION_RANK with (FRACTION_RANK - power + power)%nat at 2 by lia.
    rewrite pw_add, Z.mul_assoc, Z.div_mul by (apply Z.neq_sym, Z.lt_neq, pw_pos; lia). reflexivity.
Qed.

Lemma split_ok {I : IntType} {Iok : IntTypeOk I} integer : int_min <= integer <= int_max ->
  (is_signed = true -> integer <> int_min) -> split integer = Ret (Z.abs integer, integer <? 0).
Proof.
  intros Hr Hs. unfold split. pose proof int_min_spec as M. destruct is_signed; cbn [andb].
  - specialize (Hs eq_refl). destruct (Z.ltb_spec integer 0); [|now rewrite Z.abs_eq by lia].
    rewrite (proj2 (Z.ltb_ge _ _)) by lia. now rewrite Z.abs_neq by lia.
  - rewrite Z.abs_eq by lia. now rewrite (proj2 (Z.ltb_ge integer 0)) by lia.
Qed.

(** Powers that are too great for the integer's type give zero; the others give
    the value, cut to the digits of the type, or throw when it has too many. *)
Lemma power_ok {I : IntType} {Iok : IntTypeOk I} bits integer power :
  int_min <= integer <= int_max -> int_max < 2 ^ bits -> bits <= 64 ->
  (power < Z.to_nat digits10 + FRACTION_RANK)%nat -> (is_signed = true -> integer <> int_min) ->
  exists a rest, Decimal_power bits integer power =
      (if rest =? 0 then Ret (mkDecimal (integer <? 0) a) else Throw Overflow) /\ array_ok a /\
    (rest = 0 -> val BASE a = power_value integer power /\ (integers_checked -> val BASE a < MAX_VALUE)) /\
    (rest <> 0 -> MAX_VALUE <= power_value integer power).
Proof.
  intros Hr Hm Hb Hp Hs. unfold Decimal_power, power_value. rewrite (proj2 (Nat.leb_gt _ _) Hp). cbn [orb].
  destruct (Z.eqb_spec integer 0) as [->|Nz].
  { exists (repeat 0 SIZE), 0. split; [reflexivity|]. split; [apply array_zeros|]. split; [|easy]. intros _.
    rewrite val_zeros, Z.mul_0_l, Z.div_0_l by (apply Z.neq_sym, Z.lt_neq, pw_pos; lia). split; [reflexivity|].
    intros _. apply max_value_pos. }
  rewrite split_ok by easy. cbn [bind].
  destruct (scale_start bits (Z.abs integer) power (Z.abs_nonneg _) Hm Hb Hp) as (x & k & -> & Hx & Hk & E). rewrite <- E.
  pose proof (scaled_ok x (FRACTION_RANK - k) Hx ltac:(lia)) as K.
  unfold scaled_cells in K. destruct (if negb _ then _ else _) as [middle y].
  destruct (high_cells true _ y) as [high rest]. destruct K as (A & K1 & K2). exists ((repeat 0 ((FRACTION_RANK - k) / DIGITS_PER_ELEMENT) ++ middle) ++ high), rest.
  split; [now destruct (rest =? 0)|]. auto.
Qed.

(** Integers of too many digits are kept out by the check of the last element, or
    by the caller. *)
Lemma power_wf {I : IntType} {Iok : IntTypeOk I} bits integer power d :
  int_min <= integer <= int_max -> int_max < 2 ^ bits -> bits <= 64 ->
  integers_checked \/ power_value integer power < MAX_VALUE ->
  Decimal_power bits integer power = Ret d -> wf d.
Proof.
  intros Hr Hm Hb Hc E.
  assert (d = mkDecimal false (repeat 0 SIZE) \/
    (power < Z.to_nat digits10 + FRACTION_RANK)%nat /\ (is_signed = true -> integer <> int_min)) as [->|[Hp Hs]].
  { unfold Decimal_power in E. destruct (Nat.leb_spec (Z.to_nat digits10 + FRACTION_RANK) power) as [|L]; cbn [orb] in E;
      [left; now apply Ret_inj in E|].
    destruct (Z.eqb_spec integer 0); [left; now apply Ret_inj in E|]. right. split; [exact L|]. intros Sg ->.
    unfold split in E. pose proof int_min_spec as M. pose proof int_max_big. rewrite Sg in E, M. cbn [andb] in E.
    rewrite (proj2 (Z.ltb_lt int_min 0)), (proj2 (Z.ltb_lt int_min (- int_max))) in E by lia. discriminate. }
  - split; [apply array_zeros|]. unfold magnitude. cbn [array_]. rewrite val_zeros. apply max_value_pos.
  - destruct (power_ok bits integer power Hr Hm Hb Hp Hs) as (a & rest & Ed & A & K & _). rewrite E in Ed.
    destruct (Z.eqb_spec rest 0) as [R|]; [|discriminate]. apply Ret_inj in Ed. subst d. destruct (K R) as [V L].
    split; [exact A|]. unfold magnitude. cbn [array_]. destruct Hc as [Hc|Hc]; [now apply L|]. now rewrite V.
Qed.

(** [integer_limit] is the limit of the type when integers are checked. *)
Lemma checked_limit : integers_checked -> INTEGER_RANK <> 0%nat -> integer_limit = pw 10 INTEGER_RANK.
Proof.
  intros Hc Hi. unfold integer_limit. rewrite (proj2 (Nat.eqb_neq _ _) Hi).
  destruct (Nat.eqb_spec (FRACTION_END + 1) SIZE) as [Es|]; [|reflexivity]. destruct Hc as [Hc|Hc]; [lia|].
  pose proof integer_max_over_spec as [M _]. pose proof fraction_facts as (E & B & R & _). pose proof fraction_rank_le.
  pose proof (base_pow FRACTION_END). replace (SIZE - 1)%nat with FRACTION_END in M by lia. rewrite Hc in M.
  unfold MAX_VALUE in M. replace TOTAL_RANK with (INTEGER_RANK + FRACTION_RANK)%nat in M by (unfold INTEGER_RANK; lia).
  rewrite pw_add, E in M. apply (Z.mul_reg_l _ _ (pw BASE FRACTION_END * FRACTION_REMAINDER)); [nia|].
  rewrite (Z.mul_comm _ (pw 10 INTEGER_RANK)), M, <- Z.mul_assoc, B. reflexivity.
Qed.

(** Where they are not, the least integer of too many digits is accepted. *)
Lemma unchecked_parts : ~ integers_checked -> INTEGER_RANK <> 0%nat ->
  exists d, Decimal_parts false (pw 10 INTEGER_RANK) 0 = Ret d /\ magnitude d = MAX_VALUE.
Proof.
  intros Hc Hi. pose proof (pw_pos 10 INTEGER_RANK ltac:(lia)) as Pi. pose proof (pw_pos 10 FRACTION_RANK ltac:(lia)) as Pf.
  pose proof (parts_ok false (pw 10 INTEGER_RANK) 0 (Z.lt_le_incl _ _ Pi) ltac:(split; easy)) as R. cbv zeta in R.
  rewrite (proj2 (Z.leb_gt _ _) Pf) in R. pose proof fraction_end_le. pose proof fraction_rank_le.
  pose proof fraction_split as [Es Ls]. pose proof size_facts as (_ & S1 & S2). pose proof digits_per_element_pos.
  assert (FRACTION_END + 1 = SIZE)%nat as E1.
  { destruct (Nat.eq_dec FRACTION_END SIZE) as [E|]; [unfold INTEGER_RANK in Hi; nia|]. unfold integers_checked in Hc. lia. }
  rewrite (proj2 (Nat.eqb_neq FRACTION_END SIZE)) in R by lia.
  assert (pw 10 INTEGER_RANK < integer_limit) as L.
  { unfold integer_limit. rewrite (proj2 (Nat.eqb_neq _ _) Hi), (proj2 (Nat.eqb_eq _ _) E1). unfold FRACTION_OVER.
    apply pw_lt; [lia|]. assert (SIZE * DIGITS_PER_ELEMENT <> TOTAL_RANK)%nat.
    { intros E. apply Hc. right. unfold INTEGER_MAX_OVER, BASE. f_equal. lia. }
    unfold INTEGER_RANK. nia. }
  rewrite (proj2 (Z.leb_gt _ _) L) in R. destruct R as (d & E & _ & _ & M). exists d. split; [exact E|].
  rewrite M, Z.add_0_r. unfold MAX_VALUE. rewrite <- pw_add. f_equal. unfold INTEGER_RANK. lia.
Qed.
End Power.

(** A power of [digits10 + FRACTION_RANK] makes zero of every integer, though the
    type has integers of one digit more, of which one unit or more is left. *)
Example power_lost : let D := D36_16 in
  Decimal_power (D := D) (I := UInt32) 32 4294967295 25 = Ret (mkDecimal false [0; 0]) /\
  power_value (D := D) 4294967295 25 = 4.
Proof. vm_compute. split; reflexivity. Qed.
