(* ===== verification/DecimalText.v ===== *)
(** * DecimalText: the texts of [Generics::Decimal]

    Reading a decimal from a text and printing it ([Decimal_str] and [str] of
    [Decimal]): which texts are numbers, which number each one is, and the
    round trip. *)

From Stdlib Require Import ZArith List Bool Lia.
From S2P Require Import Prelude Ascii Numbers SubString Radix CommonDecimal Decimal.
Import ListNotations.

Lemma ten_ge : 2 <= 10.
Proof. lia. Qed.

(** The number that digits make, the highest first. *)
Definition from10 (ds : list Z) : Z := val 10 (rev ds).

Lemma from10_app a b : from10 (a ++ b) = from10 a * pw 10 (length b) + from10 b.
Proof. unfold from10. rewrite rev_app_distr, val_app, length_rev. lia. Qed.

Lemma from10_snoc a d : from10 (a ++ [d]) = from10 a * 10 + d.
Proof. rewrite from10_app. cbn [length]. rewrite pw_1. unfold from10. cbn [rev app val]. lia. Qed.

Lemma from10_bound ds : cells 10 ds -> 0 <= from10 ds < pw 10 (length ds).
Proof.
  intros H. unfold from10. rewrite <- length_rev. apply val_bound; [apply ten_ge|]. now apply Forall_rev.
Qed.

Lemma from10_zeros n : from10 (repeat 0 n) = 0.
Proof. unfold from10. rewrite rev_repeat. apply val_zeros. Qed.

Lemma from10_inj a b : cells 10 a -> cells 10 b -> length a = length b -> from10 a = from10 b -> a = b.
Proof.
  intros Ha Hb L E. rewrite <- (rev_involutive a), <- (rev_involutive b). f_equal.
  apply (val_inj 10 ten_ge); auto using Forall_rev; [now apply Forall_rev|now apply Forall_rev|now rewrite !length_rev].
Qed.

Lemma from10_cons d ds : from10 (d :: ds) = d * pw 10 (length ds) + from10 ds.
Proof. change (d :: ds) with ([d] ++ ds). rewrite from10_app. unfold from10 at 1. cbn [rev app val]. lia. Qed.

Lemma from10_drop_zeros ds : from10 (drop_zeros ds) = from10 ds.
Proof.
  induction ds as [|d ds IH]; [easy|]. cbn [drop_zeros]. destruct (Z.eqb_spec d 0) as [->|]; [|easy].
  rewrite IH, from10_cons. lia.
Qed.

Section Digits.
Context {D : DecimalRanks} {Dok : DecimalRanksOk D}.

Lemma assemble_loop_ok n : forall num r, cells 10 num -> (n <= length num)%nat -> 0 <= r ->
  (r + 1) * pw 10 n <= 2 ^ element_bits ->
  assemble_loop element_bits n num r = Ret (r * pw 10 n + from10 (firstn n num)).
Proof.
  induction n as [|n IH]; intros num r C L R B; cbn [assemble_loop].
  - rewrite pw_0. cbn [firstn]. unfold from10. cbn [rev val]. f_equal. lia.
  - destruct num as [|d num]; [cbn [length] in L; lia|]. inversion C as [|? ? Hd Hc]; subst. unfold is_cell in Hd.
    cbn [length firstn] in *. rewrite pw_S in B. pose proof (pw_pos 10 n ltac:(lia)) as P.
    rewrite !wrapu_small by (try split; try nia; rewrite wrapu_small by nia; nia).
    rewrite IH by (try easy; try lia; nia). f_equal. rewrite from10_cons, length_firstn, pw_S.
    replace (Nat.min n (length num)) with n by lia. lia.
Qed.

Lemma firstn_plus (l : list Z) a b : firstn (a + b) l = firstn a l ++ firstn b (skipn a l).
Proof. revert l. induction a as [|a IH]; intros [|x l]; cbn [Nat.add firstn skipn app]; rewrite ?firstn_nil; [easy..|]. now rewrite IH. Qed.

Lemma firstn_split (l : list Z) n d : (d <= n)%nat -> firstn n l = firstn (n - d) l ++ firstn d (skipn (n - d) l).
Proof. intros H. rewrite <- firstn_plus. f_equal. lia. Qed.

Lemma assemble_cells_ok k : forall n num, cells 10 num -> (n <= length num)%nat -> (n <= k * DIGITS_PER_ELEMENT)%nat ->
  exists a, assemble_cells k n num = Ret a /\ length a = k /\ cells BASE a /\ val BASE a = from10 (firstn n num).
Proof.
  pose proof digits_per_element_pos as P. pose proof base_facts as BF.
  induction k as [|k IH]; intros n num C L K; cbn [assemble_cells].
  - exists []. replace n with 0%nat by lia. repeat split. constructor.
  - set (d := if (DIGITS_PER_ELEMENT <=? n)%nat then DIGITS_PER_ELEMENT else n).
    assert (d <= n /\ d <= DIGITS_PER_ELEMENT /\ (n - d = 0 \/ d = DIGITS_PER_ELEMENT))%nat as (Dn & Dd & Dc)
      by (subst d; destruct (Nat.leb_spec DIGITS_PER_ELEMENT n); lia).
    pose proof (pw_le 10 d DIGITS_PER_ELEMENT ltac:(lia) Dd) as PD. fold BASE in PD.
    unfold assemble_decimal. rewrite assemble_loop_ok; try lia; [|now apply cells_skipn|rewrite length_skipn; lia].
    cbn [bind]. destruct (IH (n - d)%nat num C ltac:(lia)) as (t & -> & Lt & Ct & Vt).
    { destruct Dc as [->| ->]; [lia|]. cbn [Nat.mul] in K. lia. }
    cbn [bind]. set (x := from10 (firstn d (skipn (n - d) num))).
    assert (0 <= x < pw 10 d) as Hx.
    { subst x. pose proof (from10_bound (firstn d (skipn (n - d) num))) as Bx.
      rewrite length_firstn, length_skipn, Nat.min_l in Bx by lia.
      apply Bx, cells_firstn, cells_skipn, C. }
    eexists. split; [reflexivity|]. cbn [length val]. split; [now rewrite Lt|]. split.
    + constructor; [unfold is_cell; lia|exact Ct].
    + rewrite Vt, (firstn_split num n d Dn), from10_app. fold x.
      rewrite length_firstn, length_skipn, Nat.min_l by lia.
      destruct Dc as [Z0| ->]; [rewrite Z0; cbn [firstn]; unfold from10 at 1 2; cbn [rev val]; lia|fold BASE; lia].
Qed.

Lemma disassemble_ok n : forall x, 0 <= x ->
  length (disassemble_decimal n x) = n /\ cells 10 (disassemble_decimal n x) /\
  from10 (disassemble_decimal n x) = x mod pw 10 n.
Proof.
  induction n as [|n IH]; intros x Hx; cbn [disassemble_decimal].
  - rewrite pw_0, Z.mod_1_r. repeat split. constructor.
  - destruct (IH (x / 10) ltac:(apply Z.div_pos; lia)) as (L & C & V). pose proof (Z.mod_pos_bound x 10 ltac:(lia)).
    split; [rewrite length_app, L; cbn [length]; lia|]. split.
    + apply Forall_app. split; [easy|]. now repeat constructor.
    + rewrite from10_snoc, V, pw_S, div_mod_mul by (try apply pw_pos; lia). lia.
Qed.

Lemma num_digits_ok cs : forall n, cells BASE cs -> cs <> [] -> ((length cs - 1) * DIGITS_PER_ELEMENT <= n)%nat ->
  length (num_digits cs n) = n /\ cells 10 (num_digits cs n) /\ from10 (num_digits cs n) = val BASE cs mod pw 10 n.
Proof.
  pose proof digits_per_element_pos. pose proof base_ge.
  induction cs as [|x cs IH]; intros n C N L; [easy|]. inversion C as [|? ? Hx Hc]; subst. unfold is_cell in Hx.
  cbn [num_digits]. destruct cs as [|y cs].
  - destruct (disassemble_ok n x ltac:(lia)) as (A & B & V). rewrite V. cbn [val]. repeat split; auto. f_equal. lia.
  - cbn [length] in *. destruct (IH (n - DIGITS_PER_ELEMENT)%nat Hc ltac:(easy) ltac:(nia)) as (A & B & V).
    destruct (disassemble_ok DIGITS_PER_ELEMENT x ltac:(lia)) as (A' & B' & V').
    split; [rewrite length_app, A, A'; nia|]. split; [now apply Forall_app|].
    rewrite from10_app, A', V, V'. fold BASE. rewrite (Z.mod_small x) by lia.
    rewrite (pw_split 10 DIGITS_PER_ELEMENT n) by nia. fold BASE.
    rewrite div_mod_mul by (try apply pw_pos; lia).
    change (val BASE (x :: y :: cs)) with (x + BASE * val BASE (y :: cs)). set (v := val BASE (y :: cs)).
    rewrite (Z.mul_comm BASE v), Z.mod_add, Z.div_add, (Z.div_small x), (Z.mod_small x) by lia.
    rewrite Z.add_0_l. lia.
Qed.

Lemma decimal_digits d : wf d ->
  let num := num_digits (array_ d) TOTAL_RANK in
  length num = TOTAL_RANK /\ cells 10 num /\ from10 num = magnitude d.
Proof.
  intros W. cbv zeta. pose proof (wf_range d W) as R. pose proof size_facts as (P & S1 & S2). destruct W as [[L C] _].
  destruct (num_digits_ok (array_ d) TOTAL_RANK C) as (A & B & V); [intros E; rewrite E in L; cbn [length] in L; lia|rewrite L; lia|].
  split; [easy|]. split; [easy|]. rewrite V. apply Z.mod_small. exact R.
Qed.
End Digits.

(** ** Reading *)

Definition point : Z := chr ".".
Definition zero : Z := chr "0".

(** A digit character is [48 + d]. *)
Definition digits_of (l : list Z) : list Z := map (fun c => c - zero) l.

Lemma digit_values_ok l :
  digit_values l = if forallb is_digit l then Ret (digits_of l) else Throw NotNumber.
Proof.
  induction l as [|c l IH]; [easy|]. cbn [digit_values forallb digits_of map]. destruct (is_digit c); [|easy].
  cbn [andb]. rewrite IH. now destruct (forallb is_digit l).
Qed.

Lemma digits_of_cells l : forallb is_digit l = true -> cells 10 (digits_of l).
Proof.
  intros H. apply Forall_map, Forall_forall. intros c I. rewrite forallb_forall in H. specialize (H c I).
  unfold is_digit in H. apply andb_true_iff in H as [H1 H2]. apply Z.leb_le in H1, H2. unfold is_cell, zero. chr_simpl. lia.
Qed.

Lemma digit_chars_digits ds : cells 10 ds ->
  forallb is_digit (digit_chars_of ds) = true /\ digits_of (digit_chars_of ds) = ds.
Proof.
  induction 1 as [|d ds H _ [IH1 IH2]]; [easy|]. unfold digit_chars_of, digits_of in *. cbn [map forallb].
  rewrite IH1, IH2. unfold is_digit, zero, is_cell in *. chr_simpl. split; [|f_equal; lia].
  rewrite (proj2 (Z.leb_le 48 _)), (proj2 (Z.leb_le _ 57)) by lia. reflexivity.
Qed.

(** What trailing zeros leave. *)
Fixpoint strip_end (l : list Z) : list Z :=
  match l with
  | [] => []
  | c :: l' => match strip_end l' with [] => if c =? zero then [] else [c] | r => c :: r end
  end.

Lemma strip_end_snoc l c : strip_end (l ++ [c]) = if c =? zero then strip_end l else l ++ [c].
Proof.
  induction l as [|d l IH]; cbn [app strip_end]; [now destruct (c =? zero)|]. rewrite IH.
  destruct (Z.eqb_spec c zero); [easy|]. now destruct l.
Qed.

Lemma strip_end_app a c b : c <> zero -> strip_end (a ++ c :: b) = a ++ c :: strip_end b.
Proof.
  intros H. induction a as [|d a IH]; cbn [app strip_end].
  - destruct (strip_end b); [|easy]. destruct (Z.eqb_spec c zero); [easy|reflexivity].
  - rewrite IH. now destruct a.
Qed.

Lemma strip_end_prefix l : exists k, l = strip_end l ++ repeat zero k.
Proof.
  induction l as [|c l [k IH]]; [now exists 0%nat|]. cbn [strip_end]. destruct (strip_end l) as [|d r] eqn:E.
  - cbn [app] in IH. destruct (Z.eqb_spec c zero) as [->|]; [exists (S k)|exists k]; cbn [app repeat]; congruence.
  - exists k. cbn [app]. f_equal. exact IH.
Qed.

Lemma strip_loop_ok l : forall pre post,
  strip_loop (length l) (pre ++ l ++ post) (length pre) = (length pre + length (strip_end l))%nat.
Proof.
  induction l as [|c l IH] using rev_ind; intros pre post; [cbn; lia|]. rewrite length_app, Nat.add_1_r. cbn [strip_loop].
  unfold at_cell. rewrite app_nth2_plus, <- app_assoc, app_nth2, Nat.sub_diag by lia. cbn [nth app]. rewrite strip_end_snoc.
  fold zero. destruct (c =? zero); [apply IH|]. rewrite length_app. cbn [length]. lia.
Qed.

Lemma slice_mid pre mid post : slice (pre ++ mid ++ post) (length pre) (length pre + length mid) = mid.
Proof.
  unfold slice. replace (length pre + length mid - length pre)%nat with (length mid) by lia.
  rewrite skipn_app, skipn_all, Nat.sub_diag. cbn [app skipn]. now rewrite firstn_app, firstn_all, Nat.sub_diag, app_nil_r.
Qed.

Lemma slice_empty str e : slice str e e = [].
Proof. unfold slice. now rewrite Nat.sub_diag. Qed.

Lemma last_char (x y : list Z) c : rd (x ++ c :: y) (length (x ++ [c]) - 1) = Ret c.
Proof. rewrite length_app, Nat.add_sub. apply rd_mid. Qed.

Lemma count_zeros_app k body : hd 0 body <> zero -> count_zeros (repeat zero k ++ body) = k.
Proof.
  intros H. induction k as [|k IH]; cbn [repeat app].
  - destruct body as [|c body]; [easy|]. cbn [hd] in H. cbn [count_zeros]. fold zero. destruct (Z.eqb_spec c zero); easy.
  - cbn [count_zeros]. fold zero. now rewrite Z.eqb_refl, IH.
Qed.

Lemma zeros_prefix l : exists k body, l = repeat zero k ++ body /\ hd 0 body <> zero.
Proof.
  induction l as [|c l (k & body & E & H)]; [now exists 0%nat, []|].
  destruct (Z.eqb_spec c zero) as [->|N].
  - exists (S k), body. cbn [repeat app]. split; [now f_equal|easy].
  - exists 0%nat, (c :: l). split; [easy|]. exact N.
Qed.

Lemma Traits_find_app a c b : ~ In c a -> Traits_find (a ++ c :: b) c = Some (length a).
Proof.
  induction a as [|d a IH]; intros N; cbn [app Traits_find length]; [now rewrite Z.eqb_refl|].
  destruct (Z.eqb_spec d c) as [->|]; [destruct N; now left|]. rewrite IH; [easy|]. intros I. apply N. now right.
Qed.

Section Reading.
Context {D : DecimalRanks} {Dok : DecimalRanksOk D}.

(** The number of the integer digits [ip] and the fraction digits [fp]. *)
Definition numeral_value (ip fp : list Z) : Z :=
  from10 (digits_of ip) * pw 10 FRACTION_RANK + from10 (digits_of fp) * pw 10 (FRACTION_RANK - length fp).

Definition digits_result (negative : bool) (ip fp : list Z) (r : outcome Decimal) : Prop :=
  if (FRACTION_RANK <? length fp)%nat || (INTEGER_RANK <? length ip)%nat then r = Throw Overflow
  else if forallb is_digit ip && forallb is_digit fp
  then exists d, r = Ret d /\ wf d /\ negative_ d = negative /\ magnitude d = numeral_value ip fp
  else r = Throw NotNumber.

Lemma construct_digits_ok str negative b e ie fb ip fp :
  slice str fb e = fp -> length fp = (e - fb)%nat -> slice str b ie = ip -> length ip = (ie - b)%nat ->
  digits_result negative ip fp (construct_digits str negative b e ie fb).
Proof.
  intros Sf Lf Si Li. unfold digits_result, construct_digits. rewrite Sf, Si, <- Lf, <- Li.
  destruct (Nat.ltb_spec FRACTION_RANK (length fp)) as [|Of]; [easy|].
  destruct (Nat.ltb_spec INTEGER_RANK (length ip)) as [|Oi]; [easy|]. cbn [orb].
  rewrite !digit_values_ok. destruct (forallb is_digit fp) eqn:Df; [|now rewrite andb_false_r].
  destruct (forallb is_digit ip) eqn:Di; [|easy]. cbn [bind andb].
  set (num := repeat 0 (INTEGER_RANK - length ip) ++ digits_of ip ++ digits_of fp ++ repeat 0 (FRACTION_RANK - length fp)).
  pose proof fraction_rank_le. pose proof size_facts as (_ & _ & S2).
  assert (length num = TOTAL_RANK) as Ln.
  { subst num. unfold digits_of. rewrite !length_app, !repeat_length, !length_map. unfold INTEGER_RANK in *. lia. }
  assert (cells 10 num) as Cn.
  { repeat (apply Forall_app; split); first [now apply digits_of_cells|apply cells_zeros, ten_ge]. }
  destruct (assemble_cells_ok SIZE TOTAL_RANK num Cn ltac:(lia) S2) as (a & -> & La & Ca & Va). cbn [bind].
  rewrite firstn_all2 in Va by lia. pose proof (from10_bound num Cn) as Bn. rewrite Ln in Bn.
  eexists. split; [reflexivity|]. unfold magnitude. cbn [array_]. rewrite Va. split.
  - split; [split; [exact La|exact Ca]|]. unfold magnitude. cbn [array_]. rewrite Va. apply Bn.
  - split; [easy|]. subst num. unfold numeral_value. rewrite !from10_app, !from10_zeros, !length_app, repeat_length.
    unfold digits_of. rewrite !length_map. replace (length fp + (FRACTION_RANK - length fp))%nat with FRACTION_RANK by lia. lia.
Qed.

(** The text after the sign and the leading zeros. *)
Definition zero_result (negative : bool) (r : outcome Decimal) : Prop :=
  exists d, r = Ret d /\ wf d /\ negative_ d = negative /\ magnitude d = 0.

Lemma zero_ok negative : zero_result negative (Ret (mkDecimal negative (repeat 0 SIZE))).
Proof.
  eexists. split; [reflexivity|]. unfold wf, magnitude. cbn [array_]. rewrite val_zeros.
  repeat split; [apply array_zeros..|apply max_value_pos].
Qed.
(** [Decimal_str] after the sign and the zeros: [begin] is the length of [pre]. *)
Definition read_body (negative : bool) (str : list Z) (begin : nat) : outcome Decimal :=
  '(end_, integer_end, fraction_begin) <-
    (if negb (find_ch str (chr ".") 0 =? NPOS) then
       let integer_end := Z.to_nat (find_ch str (chr ".") 0) in
       let end_ := strip_loop (length str - begin) str begin in
       last <- (if (end_ =? 0)%nat then Undef else rd str (end_ - 1)) ;;
       if last =? chr "." then Ret (end_ - 1, end_ - 1, end_ - 1)%nat
       else Ret (end_, integer_end, (integer_end + 1)%nat)
     else Ret (length str, length str, length str)) ;;
  if (begin =? end_)%nat then Ret (mkDecimal negative (repeat 0 SIZE))
  else construct_digits str negative begin end_ integer_end fraction_begin.

Lemma find_point str : str <> [] ->
  find_ch str point 0 = match Traits_find str point with Some i => Z.of_nat i | None => NPOS end.
Proof.
  intros N. unfold find_ch. destruct str as [|c str]; [easy|].
  rewrite (proj2 (Z.ltb_lt 0 _)) by (cbn [length]; lia). reflexivity.
Qed.

Lemma read_integer negative pre body : pre ++ body <> [] -> ~ In point pre -> ~ In point body ->
  let r := read_body negative (pre ++ body) (length pre) in
  match body with [] => zero_result negative r | _ => digits_result negative body [] r end.
Proof.
  intros N Np Nb. cbv zeta. unfold read_body. fold point. rewrite find_point, Traits_find_none, Z.eqb_refl by
    (try easy; rewrite in_app_iff; tauto). cbn [negb bind]. rewrite length_app.
  destruct body as [|c body].
  - rewrite Nat.add_0_r, Nat.eqb_refl. apply zero_ok.
  - rewrite (proj2 (Nat.eqb_neq _ _)) by (cbn [length]; lia).
    assert (pre ++ c :: body = pre ++ (c :: body) ++ []) as E by now rewrite app_nil_r.
    apply construct_digits_ok; [|cbn [length]; lia|rewrite E; apply slice_mid|lia].
    apply slice_empty.
Qed.

Lemma read_fraction negative pre ip rest : size (pre ++ ip ++ point :: rest) < NPOS -> ~ In point pre -> ~ In point ip ->
  let r := read_body negative (pre ++ ip ++ point :: rest) (length pre) in
  match rev (strip_end rest) with
  | [] => match ip with [] => zero_result negative r | _ => digits_result negative ip [] r end
  | c :: g => if c =? point then digits_result negative (ip ++ point :: rev g) [] r
              else digits_result negative ip (strip_end rest) r
  end.
Proof.
  intros S Np Ni. cbv zeta. unfold read_body. fold point.
  set (str := pre ++ ip ++ point :: rest) in *.
  assert (find_ch str point 0 = Z.of_nat (length (pre ++ ip))) as Ef.
  { clear S. unfold str. rewrite find_point by (destruct pre, ip; discriminate). rewrite app_assoc, Traits_find_app; [reflexivity|].
    rewrite in_app_iff. tauto. }
  assert (Z.of_nat (length (pre ++ ip)) <> NPOS) as Nf.
  { intros E. rewrite <- E in S. unfold str in S. rewrite !length_app in S. cbn [length] in S. lia. }
  clear S. rewrite Ef, (proj2 (Z.eqb_neq _ NPOS)) by exact Nf.
  cbn [negb]. rewrite Nat2Z.id.
  assert (strip_loop (length str - length pre) str (length pre) = length (pre ++ ip ++ point :: strip_end rest)) as Es.
  { unfold str. rewrite !length_app. replace (_ - length pre)%nat with (length (ip ++ point :: rest)) by (rewrite length_app; lia).
    pose proof (strip_loop_ok (ip ++ point :: rest) pre []) as E. rewrite app_nil_r in E. rewrite E.
    rewrite strip_end_app by easy. rewrite length_app. cbn [length]. lia. }
  rewrite Es. destruct (strip_end_prefix rest) as [k Er].
  rewrite (proj2 (Nat.eqb_neq _ 0)) by (rewrite !length_app; cbn [length]; lia).
  assert (forall e x post, (length pre =? e)%nat = false -> str = pre ++ x ++ post -> e = (length pre + length x)%nat ->
    digits_result negative x []
      (if (length pre =? e)%nat then Ret (mkDecimal negative (repeat 0 SIZE))
       else construct_digits str negative (length pre) e e e)) as K.
  { intros e x post -> -> ->. apply construct_digits_ok; [apply slice_empty|cbn [length]; lia|apply slice_mid|lia]. }
  destruct (rev (strip_end rest)) as [|c g] eqn:Eg.
  - apply (f_equal (@rev Z)) in Eg. rewrite rev_involutive in Eg. rewrite Eg in *. cbn [rev app] in *.
    assert (length (pre ++ ip ++ [point]) - 1 = length (pre ++ ip))%nat as El by (rewrite !length_app; cbn [length]; lia).
    assert (rd str (length (pre ++ ip ++ [point]) - 1) = Ret point) as Hl by (unfold str; rewrite !app_assoc; apply last_char).
    rewrite Hl, El. cbn [bind]. rewrite Z.eqb_refl. cbn [bind]. destruct ip as [|c ip].
    + rewrite app_nil_r, Nat.eqb_refl. apply zero_ok.
    + apply (K _ (c :: ip) (point :: rest)); [apply Nat.eqb_neq; rewrite length_app; cbn [length]; lia|easy|now rewrite length_app].
  - assert (strip_end rest = rev g ++ [c]) as Eg' by (rewrite <- (rev_involutive (strip_end rest)), Eg; reflexivity).
    assert (str = (pre ++ ip ++ point :: rev g) ++ c :: repeat zero k) as Ec.
    { unfold str. rewrite Er, Eg', <- !app_assoc. cbn [app]. reflexivity. }
    assert (pre ++ ip ++ point :: strip_end rest = (pre ++ ip ++ point :: rev g) ++ [c]) as Ee
      by (rewrite Eg', <- !app_assoc; cbn [app]; reflexivity).
    assert (length ((pre ++ ip ++ point :: rev g) ++ [c]) - 1 = length (pre ++ ip ++ point :: rev g))%nat as El
      by (rewrite (length_app _ [c]); cbn [length]; lia).
    assert (rd str (length (pre ++ ip ++ point :: strip_end rest) - 1) = Ret c) as Hl by (rewrite Ee, Ec; apply last_char).
    rewrite Hl. cbn [bind]. destruct (c =? point); cbn [bind].
    + rewrite Ee, El. apply (K _ (ip ++ point :: rev g) (c :: repeat zero k)).
      * apply Nat.eqb_neq. rewrite !length_app. cbn [length]. lia.
      * now rewrite Ec, <- app_assoc.
      * now rewrite length_app.
    + rewrite (proj2 (Nat.eqb_neq _ _)) by (rewrite !length_app; cbn [length]; lia).
      apply construct_digits_ok; rewrite ?length_app; cbn [length]; try lia.
      * replace str with ((pre ++ ip ++ [point]) ++ strip_end rest ++ repeat zero k)
          by (unfold str; rewrite Er at 2; rewrite <- !app_assoc; reflexivity).
        replace (length pre + length ip + 1)%nat with (length (pre ++ ip ++ [point])) by (rewrite !length_app; cbn [length]; lia).
        replace (length pre + (length ip + S (length (strip_end rest))))%nat
          with (length (pre ++ ip ++ [point]) + length (strip_end rest))%nat by (rewrite !length_app; cbn [length]; lia).
        apply slice_mid.
      * apply slice_mid.
Qed.
Definition sign_text (s : option bool) : list Z :=
  match s with None => [] | Some true => [chr "-"] | Some false => [chr "+"] end.

Definition is_minus (s : option bool) : bool := match s with Some true => true | _ => false end.

Definition is_sign (c : Z) : bool := (c =? chr "-") || (c =? chr "+").

Lemma read_sign s k body : repeat zero k ++ body <> [] -> hd 0 body <> zero ->
  (s = None -> is_sign (hd 0 (repeat zero k ++ body)) = false) ->
  let pre := sign_text s ++ repeat zero k in
  Decimal_str (pre ++ body) = read_body (is_minus s) (pre ++ body) (length pre).
Proof.
  intros N H S. cbv zeta. rewrite <- app_assoc. set (t := repeat zero k ++ body) in *.
  assert (count_zeros t = k) as Ck by now apply count_zeros_app.
  assert (forall (r : list Z), r <> [] -> (length r =? 0)%nat = false) as Lr by now intros [|].
  destruct s as [[|]|]; cbn [sign_text is_minus app].
  - unfold Decimal_str, read_body. rewrite Z.eqb_refl. cbn [orb andb skipn]. rewrite Lr, Ck by easy.
    cbn [length]. rewrite repeat_length. reflexivity.
  - unfold Decimal_str, read_body. change (chr "+" =? chr "-") with false. rewrite Z.eqb_refl. cbn [orb andb skipn].
    rewrite Lr, Ck by easy. cbn [length]. rewrite repeat_length. reflexivity.
  - specialize (S eq_refl). unfold is_sign in S. unfold Decimal_str. rewrite repeat_length.
    destruct t as [|c t0]; [easy|]. cbn [hd] in S. rewrite S. apply orb_false_iff in S as [S1 _]. rewrite S1.
    cbn [andb skipn Nat.add]. rewrite Ck. reflexivity.
Qed.

(** ** Numerals *)

(** A sign, digits, a point and digits; either part may be empty. *)
Definition numeral (s : option bool) (ip : list Z) (fp : option (list Z)) : list Z :=
  sign_text s ++ ip ++ match fp with Some f => point :: f | None => [] end.

Definition fraction_digits (fp : option (list Z)) : list Z := match fp with Some f => strip_end f | None => [] end.

Definition is_numeral (ip : list Z) (fp : option (list Z)) : Prop :=
  forallb is_digit ip = true /\ forallb is_digit (match fp with Some f => f | None => [] end) = true /\
  (ip <> [] \/ fp <> None).

Lemma digit_not c l : forallb is_digit l = true -> is_digit c = false -> ~ In c l.
Proof. intros H C I. rewrite forallb_forall in H. specialize (H c I). congruence. Qed.

Lemma skip_zeros_digits l : forallb is_digit l = true ->
  exists k l', l = repeat zero k ++ l' /\ hd 0 l' <> zero /\ forallb is_digit l' = true /\
    from10 (digits_of l') = from10 (digits_of l) /\ length l' = length (drop_zeros (digits_of l)).
Proof.
  intros H. destruct (zeros_prefix l) as (k & l' & -> & Hl). exists k, l'. rewrite forallb_app in H.
  apply andb_true_iff in H as [_ H]. do 3 (split; [easy|]). unfold digits_of. rewrite map_app, map_repeat, Z.sub_diag.
  split; [rewrite from10_app, from10_zeros; lia|]. clear H. induction k as [|k IH]; cbn [repeat app drop_zeros Z.eqb]; [|exact IH].
  destruct l' as [|c l']; [easy|]. cbn [map drop_zeros hd] in *. rewrite (proj2 (Z.eqb_neq _ 0)) by lia. cbn [length]. now rewrite length_map.
Qed.

Lemma strip_end_digits l : forallb is_digit l = true ->
  forallb is_digit (strip_end l) = true /\ (forall c g, rev (strip_end l) = c :: g -> (c =? point) = false).
Proof.
  intros H. destruct (strip_end_prefix l) as [k E]. rewrite E, forallb_app in H. apply andb_true_iff in H as [H _].
  split; [easy|]. intros c g Eg. apply Z.eqb_neq. intros ->.
  apply (digit_not point (strip_end l) H); [reflexivity|]. apply in_rev. rewrite Eg. now left.
Qed.

Lemma zero_digits negative r : zero_result negative r -> digits_result negative [] [] r.
Proof.
  intros (d & E & W & N & M). unfold digits_result. cbn [length forallb andb].
  rewrite !(proj2 (Nat.ltb_ge _ _)) by lia. cbn [orb]. exists d. do 3 (split; [easy|]). exact M.
Qed.

(** The text of a numeral without its leading zeros. *)
Lemma read_stripped negative pre ip fp : forallb is_digit ip = true ->
  forallb is_digit (match fp with Some f => f | None => [] end) = true ->
  let tail := match fp with Some f => point :: f | None => [] end in
  pre ++ ip ++ tail <> [] -> ~ In point pre -> size (pre ++ ip ++ tail) < NPOS ->
  digits_result negative ip (fraction_digits fp) (read_body negative (pre ++ ip ++ tail) (length pre)).
Proof.
  cbv zeta. intros Hi Hf N Np S. assert (~ In point ip) as Ni by (apply digit_not; [exact Hi|reflexivity]).
  destruct fp as [f|]; cbn [fraction_digits].
  - pose proof (read_fraction negative pre ip f S Np Ni) as R. cbv zeta in R. clear S.
    destruct (strip_end_digits f Hf) as [_ P]. destruct (rev (strip_end f)) as [|c g] eqn:Eg.
    + apply (f_equal (@rev Z)) in Eg. rewrite rev_involutive in Eg. rewrite Eg. cbn [rev].
      destruct ip; [now apply zero_digits|exact R].
    + rewrite (P c g eq_refl) in R. exact R.
  - clear S. rewrite app_nil_r in *. pose proof (read_integer negative pre ip N Np Ni) as R. cbv zeta in R.
    destruct ip; [now apply zero_digits|exact R].
Qed.

Lemma digit_no_sign c : is_digit c = true -> is_sign c = false.
Proof.
  unfold is_digit, is_sign. chr_simpl. intros H. bools. apply Z.leb_le in H, H0.
  apply orb_false_iff. rewrite !Z.eqb_neq. lia.
Qed.

Lemma numeral_head ip fp : is_numeral ip fp ->
  ip ++ match fp with Some f => point :: f | None => [] end <> [] /\
  is_sign (hd 0 (ip ++ match fp with Some f => point :: f | None => [] end)) = false.
Proof.
  intros (Hi & _ & N). destruct ip as [|c ip].
  - destruct fp as [f|]; [split; [discriminate|reflexivity]|]. destruct N; easy.
  - cbn [forallb] in Hi. apply andb_true_iff in Hi as [Hc _]. split; [easy|]. now apply digit_no_sign.
Qed.

Lemma pre_no_point s k : ~ In point (sign_text s ++ repeat zero k).
Proof.
  rewrite in_app_iff. intros [I|I]; [destruct s as [[|]|]; cbn in I; chr_simpl; intuition discriminate|].
  apply repeat_spec in I. discriminate.
Qed.

Lemma read_numeral s ip fp : is_numeral ip fp -> size (numeral s ip fp) < NPOS ->
  let ip' := drop_zeros (digits_of ip) in
  let fp' := fraction_digits fp in
  let r := Decimal_str (numeral s ip fp) in
  if (FRACTION_RANK <? length fp')%nat || (INTEGER_RANK <? length ip')%nat then r = Throw Overflow
  else exists d, r = Ret d /\ wf d /\ negative_ d = is_minus s /\ magnitude d = numeral_value ip fp'.
Proof.
  intros H S. cbv zeta. destruct (numeral_head ip fp H) as [Ne Hs]. destruct H as (Hi & Hf & _).
  destruct (skip_zeros_digits ip Hi) as (k & ip' & -> & H0 & Di & Vi & <-).
  unfold numeral_value. rewrite <- Vi. fold (numeral_value ip' (fraction_digits fp)).
  assert (digits_result (is_minus s) ip' (fraction_digits fp) (Decimal_str (numeral s (repeat zero k ++ ip') fp))) as R.
  { unfold numeral in *. rewrite <- app_assoc in Ne, Hs, S |- *. set (tail := match fp with Some f => point :: f | None => [] end) in *.
    rewrite app_assoc in S |- *. pose proof (pre_no_point s k) as Np.
    assert (hd 0 (ip' ++ tail) <> zero) as Hh.
    { destruct ip' as [|c ip']; [|exact H0]. cbn [app]. subst tail. destruct fp; cbn; discriminate. }
    rewrite read_sign by easy. apply read_stripped; auto. rewrite <- app_assoc. intros E.
    apply app_eq_nil in E as [_ E]. now apply Ne. }
  unfold digits_result in R. rewrite Di in R. cbn [andb] in R.
  assert (forallb is_digit (fraction_digits fp) = true) as Df
    by (destruct fp as [f|]; [apply strip_end_digits, Hf|reflexivity]).
  rewrite Df in R. exact R.
Qed.
(** ** Everything else *)

Definition refused (r : outcome Decimal) : Prop := r = Throw Overflow \/ r = Throw NotNumber.

Lemma digits_result_cases negative ip fp r : digits_result negative ip fp r ->
  (exists d, r = Ret d) /\ forallb is_digit ip = true /\ forallb is_digit fp = true \/ refused r.
Proof.
  unfold digits_result, refused. destruct (_ || _); [auto|].
  destruct (forallb is_digit ip), (forallb is_digit fp); cbn [andb]; auto. intros (d & -> & _). left. eauto.
Qed.

Lemma first_point (l : list Z) : In point l -> exists a b, l = a ++ point :: b /\ ~ In point a.
Proof.
  induction l as [|c l IH]; intros I; [easy|]. destruct (Z.eq_dec c point) as [->|N]; [now exists [], l|].
  destruct I as [|I]; [easy|]. destruct (IH I) as (a & b & -> & Na). exists (c :: a), b. split; [easy|].
  intros [|I']; auto.
Qed.

Lemma zeros_digits_text k : forallb is_digit (repeat zero k) = true.
Proof. induction k as [|k IH]; [easy|]. exact IH. Qed.

Lemma digits_zeros l k : forallb is_digit l = true -> forallb is_digit (l ++ repeat zero k) = true.
Proof. intros H. rewrite forallb_app, H. apply zeros_digits_text. Qed.

(** The text without sign and leading zeros is the rest of a numeral, or it is
    refused. *)
Lemma read_body_cases negative pre body : size (pre ++ body) < NPOS -> pre ++ body <> [] -> ~ In point pre ->
  let r := read_body negative (pre ++ body) (length pre) in
  (exists d ip fp, r = Ret d /\ body = ip ++ match fp with Some f => point :: f | None => [] end /\
     forallb is_digit ip = true /\ forallb is_digit (match fp with Some f => f | None => [] end) = true) \/
  refused r.
Proof.
  intros S N Np. cbv zeta. destruct (in_dec Z.eq_dec point body) as [I|I].
  - destruct (first_point body I) as (ip & rest & -> & Ni).
    pose proof (read_fraction negative pre ip rest S Np Ni) as R. cbv zeta in R. clear S.
    destruct (strip_end_prefix rest) as [k Er]. destruct (rev (strip_end rest)) as [|c g] eqn:Eg.
    + apply (f_equal (@rev Z)) in Eg. rewrite rev_involutive in Eg. rewrite Eg in Er. cbn [rev app] in Er.
      destruct ip as [|i ip].
      * destruct R as (d & R & _). left. exists d, [], (Some rest). do 3 (split; [easy|]). rewrite Er. apply zeros_digits_text.
      * destruct (digits_result_cases _ _ _ _ R) as [([d E] & Di & _)|E]; [|now right].
        left. exists d, (i :: ip), (Some rest). do 3 (split; [easy|]). rewrite Er. apply zeros_digits_text.
    + destruct (c =? point).
      * destruct (digits_result_cases _ _ _ _ R) as [(_ & Di & _)|E]; [|now right].
        destruct (digit_not point _ Di eq_refl). apply in_or_app. right. now left.
      * destruct (digits_result_cases _ _ _ _ R) as [([d E] & Di & Df)|E]; [|now right].
        left. exists d, ip, (Some rest). do 3 (split; [easy|]). rewrite Er. now apply digits_zeros.
  - pose proof (read_integer negative pre body N Np I) as R. cbv zeta in R. clear S. destruct body as [|c body].
    + destruct R as (d & R & _). left. exists d, [], None. now do 3 (split; [easy|]).
    + destruct (digits_result_cases _ _ _ _ R) as [([d E] & Di & _)|E]; [|now right].
      left. exists d, (c :: body), None. rewrite app_nil_r. now do 3 (split; [easy|]).
Qed.

Lemma text_sign str : exists s rest, str = sign_text s ++ rest /\ (s = None -> is_sign (hd 0 rest) = false).
Proof.
  destruct str as [|c rest]; [exists None, []; split; [easy|reflexivity]|].
  destruct (is_sign c) eqn:S; [|now exists None, (c :: rest)]. unfold is_sign in S. apply orb_true_iff in S as [S|S];
    apply Z.eqb_eq in S as ->; [exists (Some true), rest|exists (Some false), rest]; split; easy.
Qed.

Lemma read_numbers_only str : size str < NPOS ->
  (exists d s ip fp, Decimal_str str = Ret d /\ is_numeral ip fp /\ str = numeral s ip fp) \/ refused (Decimal_str str).
Proof.
  intros S. destruct (text_sign str) as (s & t & -> & Hs). destruct (zeros_prefix t) as (k & body & -> & Hb).
  destruct (list_eq_dec Z.eq_dec (repeat zero k ++ body) []) as [E|Ne].
  { rewrite E. right. right. destruct s as [[|]|]; reflexivity. }
  rewrite app_assoc in S |- *. rewrite read_sign by easy.
  assert ((sign_text s ++ repeat zero k) ++ body <> []) as N.
  { rewrite <- app_assoc. intros E. apply app_eq_nil in E as [_ E]. now apply Ne. }
  destruct (read_body_cases (is_minus s) _ body S N (pre_no_point s k)) as [(d & ip & fp & -> & -> & Di & Df)|R]; [|now right].
  left. exists d, s, (repeat zero k ++ ip), fp. split; [easy|]. split; [|unfold numeral; now rewrite !app_assoc].
  split; [rewrite forallb_app, zeros_digits_text; exact Di|]. split; [exact Df|].
  destruct fp; [now right|]. left. rewrite app_nil_r in Ne. exact Ne.
Qed.
End Reading.

(** ** Printing *)

Lemma last_digit_snoc ds x : forall i l,
  last_digit (ds ++ [x]) i l = if negb (x =? 0) then (i + length ds)%nat else last_digit ds i l.
Proof.
  induction ds as [|d ds IH]; intros i l; cbn [app last_digit length].
  - rewrite Nat.add_0_r. reflexivity.
  - rewrite IH. destruct (negb (x =? 0)); [lia|easy].
Qed.

Lemma last_digit_ok ds : exists k, ds = firstn (S (last_digit ds 0 0)) ds ++ repeat 0 k.
Proof.
  induction ds as [|x ds IH] using rev_ind; [now exists 0%nat|]. rewrite last_digit_snoc.
  destruct (Z.eqb_spec x 0) as [->|N]; cbn [negb].
  - destruct IH as [k IH]. set (n := S (last_digit ds 0 0)) in *.
    destruct (Nat.le_gt_cases n (length ds)) as [L|L].
    + exists (S k). rewrite firstn_app. replace (n - length ds)%nat with 0%nat by lia. cbn [firstn]. rewrite app_nil_r.
      rewrite IH at 1. rewrite <- app_assoc. f_equal. now rewrite <- repeat_cons.
    + exists 0%nat. rewrite firstn_all2 by (rewrite length_app; cbn [length]; lia). now rewrite app_nil_r.
  - exists 0%nat. rewrite firstn_all2 by (rewrite length_app; cbn [length]; lia). now rewrite app_nil_r.
Qed.

Lemma from10_strip l : forallb is_digit l = true ->
  (length (strip_end l) <= length l)%nat /\
  from10 (digits_of l) = from10 (digits_of (strip_end l)) * pw 10 (length l - length (strip_end l)).
Proof.
  intros H. destruct (strip_end_prefix l) as [k E].
  assert (length l = length (strip_end l) + k)%nat as L by (rewrite E at 1; now rewrite length_app, repeat_length).
  split; [lia|]. rewrite E at 1. unfold digits_of. rewrite map_app, map_repeat, Z.sub_diag, from10_app, from10_zeros, repeat_length.
  rewrite Z.add_0_r. f_equal. f_equal. lia.
Qed.

Lemma length_drop_zeros ds : (length (drop_zeros ds) <= length ds)%nat.
Proof. induction ds as [|d ds IH]; cbn [drop_zeros]; [easy|]. destruct (d =? 0); cbn [length]; lia. Qed.

Lemma cells_drop_zeros ds : cells 10 ds -> cells 10 (drop_zeros ds).
Proof.
  induction 1 as [|d ds Hd H IH]; cbn [drop_zeros]; [constructor|]. destruct (d =? 0); [exact IH|now constructor].
Qed.

Lemma drop_zeros_twice ds : drop_zeros (drop_zeros ds) = drop_zeros ds.
Proof.
  induction ds as [|d ds IH]; [easy|]. cbn [drop_zeros]. destruct (d =? 0) eqn:E; [exact IH|].
  cbn [drop_zeros]. now rewrite E.
Qed.

Section Printing.
Context {D : DecimalRanks} {Dok : DecimalRanksOk D}.

(** The parts of the text. *)
Definition printed_sign (d : Decimal) : option bool :=
  if negative_ d && existsb (fun x => negb (x =? 0)) (array_ d) then Some true else None.

Definition printed_integer (ds : list Z) : list Z :=
  match drop_zeros ds with [] => [zero] | _ => digit_chars_of (drop_zeros ds) end.

Definition printed_fraction (ds : list Z) : option (list Z) :=
  if negb (FRACTION_RANK =? 0)%nat then Some (digit_chars_of (firstn (S (last_digit ds 0 0)) ds)) else None.

Lemma str_numeral d :
  let num := num_digits (array_ d) TOTAL_RANK in
  str d = numeral (printed_sign d) (printed_integer (firstn INTEGER_RANK num)) (printed_fraction (skipn INTEGER_RANK num)).
Proof.
  cbv zeta. unfold str, numeral, printed_sign, printed_integer, printed_fraction. fold point zero.
  destruct (negative_ d && _), (negb (FRACTION_RANK =? 0)%nat); reflexivity.
Qed.

Lemma printed_integer_ok ds : cells 10 ds ->
  forallb is_digit (printed_integer ds) = true /\ printed_integer ds <> [] /\
  drop_zeros (digits_of (printed_integer ds)) = drop_zeros ds /\ from10 (digits_of (printed_integer ds)) = from10 ds.
Proof.
  intros C. pose proof (cells_drop_zeros ds C) as Cd. pose proof (from10_drop_zeros ds) as E.
  pose proof (drop_zeros_twice ds) as T. unfold printed_integer. destruct (drop_zeros ds) as [|x r].
  - split; [reflexivity|]. split; [discriminate|]. split; [reflexivity|]. rewrite <- E. reflexivity.
  - destruct (digit_chars_digits (x :: r) Cd) as [P1 P2]. rewrite P2. split; [exact P1|]. split; [discriminate|]. now split.
Qed.

Lemma printed_fraction_ok ds : cells 10 ds -> length ds = FRACTION_RANK ->
  let f := match printed_fraction ds with Some f => f | None => [] end in
  forallb is_digit f = true /\
  (length (fraction_digits (printed_fraction ds)) <= FRACTION_RANK)%nat /\
  from10 (digits_of (fraction_digits (printed_fraction ds))) *
    pw 10 (FRACTION_RANK - length (fraction_digits (printed_fraction ds))) = from10 ds.
Proof.
  intros C L. cbv zeta. unfold printed_fraction. destruct (Nat.eqb_spec FRACTION_RANK 0) as [Z0|N]; cbn [negb fraction_digits].
  - rewrite Z0 in L. destruct ds; [|discriminate]. repeat split. cbn [length]. lia.
  - destruct (last_digit_ok ds) as [k E]. set (fr := firstn (S (last_digit ds 0 0)) ds) in *.
    assert (cells 10 fr) as Cf by now apply cells_firstn. destruct (digit_chars_digits fr Cf) as [P1 P2].
    assert (length (digit_chars_of fr) = length fr) as Lc by apply length_map.
    destruct (from10_strip _ P1) as [Ls Es]. rewrite P2, Lc in Es. rewrite Lc in Ls.
    assert (length fr + k = FRACTION_RANK)%nat as Lk by (rewrite <- L, E at 1; now rewrite length_app, repeat_length).
    split; [exact P1|]. split; [lia|].
    rewrite E, from10_app, from10_zeros, repeat_length, Es, Z.add_0_r, <- Z.mul_assoc, <- pw_add.
    f_equal. f_equal. lia.
Qed.

Lemma str_length d : wf d -> (length (str d) <= TOTAL_RANK + 3)%nat.
Proof.
  intros W. destruct (decimal_digits d W) as (L & _). unfold str.
  set (num := num_digits (array_ d) TOTAL_RANK) in *. rewrite !length_app.
  assert (length (if negative_ d && existsb (fun x => negb (x =? 0)%Z) (array_ d) then [chr "-"] else []) <= 1)%nat
    by (destruct (_ && _); cbn [length]; lia).
  pose proof (length_drop_zeros (firstn INTEGER_RANK num)) as Ld. rewrite length_firstn in Ld.
  pose proof fraction_rank_le. assert (INTEGER_RANK + FRACTION_RANK = TOTAL_RANK)%nat by (unfold INTEGER_RANK; lia).
  assert (length (match drop_zeros (firstn INTEGER_RANK num) with [] => [chr "0"] | _ => digit_chars_of (drop_zeros (firstn INTEGER_RANK num)) end)
          <= Nat.max 1 INTEGER_RANK)%nat.
  { destruct (drop_zeros _) eqn:E; [cbn [length]; lia|]. unfold digit_chars_of. rewrite length_map. lia. }
  assert (length (if negb (FRACTION_RANK =? 0)%nat
    then chr "." :: digit_chars_of (firstn (S (last_digit (skipn INTEGER_RANK num) 0 0)) (skipn INTEGER_RANK num)) else [])
    <= FRACTION_RANK + (if (FRACTION_RANK =? 0)%nat then 0 else 1))%nat.
  { destruct (FRACTION_RANK =? 0)%nat; cbn [negb length]; [lia|]. unfold digit_chars_of.
    rewrite length_map, length_firstn, length_skipn. lia. }
  pose proof total_rank_pos. destruct (Nat.eqb_spec FRACTION_RANK 0); lia.
Qed.

Lemma str_roundtrip_ok d : wf d -> Z.of_nat TOTAL_RANK < 2 ^ 32 ->
  exists d', Decimal_str (str d) = Ret d' /\ wf d' /\ array_ d' = array_ d /\ value d' = value d.
Proof.
  intros W T. destruct (decimal_digits d W) as (L & C & V). pose proof (str_length d W) as Ls.
  assert (size (str d) < NPOS) as S by (unfold NPOS; lia). rewrite str_numeral in S |- *.
  set (num := num_digits (array_ d) TOTAL_RANK) in *. pose proof fraction_rank_le.
  destruct (printed_integer_ok (firstn INTEGER_RANK num)) as (I1 & I2 & I3 & I4); [now apply cells_firstn|].
  destruct (printed_fraction_ok (skipn INTEGER_RANK num)) as (F1 & F2 & F3);
    [now apply cells_skipn|rewrite length_skipn; unfold INTEGER_RANK; lia|]. cbv zeta in F1.
  pose proof (read_numeral (printed_sign d) _ _ (conj I1 (conj F1 (or_introl I2))) S) as R. cbv zeta in R. clear S.
  rewrite I3 in R. pose proof (length_drop_zeros (firstn INTEGER_RANK num)) as Ld. rewrite length_firstn in Ld.
  rewrite !(proj2 (Nat.ltb_ge _ _)) in R by lia. cbn [orb] in R. destruct R as (d' & E & W' & N' & M').
  exists d'. unfold numeral_value in M'. rewrite I4, F3 in M'.
  assert (magnitude d' = magnitude d) as Em.
  { rewrite M', <- V. rewrite <- (firstn_skipn INTEGER_RANK num) at 3. rewrite from10_app, length_skipn, L.
    replace (TOTAL_RANK - INTEGER_RANK)%nat with FRACTION_RANK by (unfold INTEGER_RANK; lia). reflexivity. }
  split; [exact E|]. split; [exact W'|]. split; [apply array_eq; [apply W'|apply W|exact Em]|].
  unfold value. rewrite Em, N'. unfold printed_sign.
  destruct (negative_ d); [|reflexivity]. cbn [andb].
  pose proof (is_zero_ok (array_ d) (proj1 W)) as Z. fold (magnitude d) in Z.
  assert (existsb (fun x => negb (x =? 0)) (array_ d) = negb (magnitude d =? 0)) as ->.
  { rewrite <- Z. clear. induction (array_ d) as [|x a IH]; [easy|]. cbn [existsb forallb]. rewrite IH. now destruct (x =? 0). }
  destruct (Z.eqb_spec (magnitude d) 0) as [->|]; reflexivity.
Qed.
End Printing.

(** ** Packing *)

Lemma to_bytes_length n : forall z, length (to_bytes n z) = n.
Proof. induction n as [|n IH]; intros z; cbn [to_bytes length]; [reflexivity|now rewrite IH]. Qed.

Lemma of_to_bytes n : forall z, 0 <= z < pw 256 n -> of_bytes (to_bytes n z) = z.
Proof.
  induction n as [|n IH]; intros z H; cbn [to_bytes of_bytes]; [rewrite pw_0 in H; lia|]. rewrite pw_S in H.
  rewrite Z.shiftr_div_pow2, Z.shiftl_mul_pow2 by lia. change (2 ^ 8) with 256. unfold wrapu. change (2 ^ 8) with 256.
  rewrite IH by (split; [apply Z.div_pos; lia|apply Z.div_lt_upper_bound; lia]). pose proof (Z.div_mod z 256). lia.
Qed.

Lemma cut_app (l r : list Z) n : length l = n -> firstn n (l ++ r) = l /\ skipn n (l ++ r) = r.
Proof.
  intros <-. rewrite firstn_app, skipn_app, firstn_all, skipn_all, Nat.sub_diag. split; [apply app_nil_r|reflexivity].
Qed.

Section Packing.
Context {D : DecimalRanks} {Dok : DecimalRanksOk D}.

Lemma element_bytes : BASE <= pw 256 element_size.
Proof.
  pose proof base_facts as (_ & _ & [H _] & _). apply Z.le_trans with (2 ^ element_bits); [pose proof base_ge; lia|].
  unfold element_size. destruct element_type as [E|[E|[E|E]]]; rewrite E; vm_compute; easy.
Qed.

Lemma unpack_cells_ok cs rest : cells BASE cs ->
  unpack_cells (length cs) (flat_map (to_bytes element_size) cs ++ rest) = cs.
Proof.
  pose proof element_bytes. induction 1 as [|x cs Cx C IH]; cbn [length unpack_cells flat_map]; [reflexivity|].
  unfold is_cell in Cx. pose proof (to_bytes_length element_size x) as L. rewrite <- app_assoc.
  destruct (cut_app _ (flat_map (to_bytes element_size) cs ++ rest) _ L) as [-> ->].
  rewrite of_to_bytes, IH by lia. reflexivity.
Qed.

Lemma unpack_pack d : wf d -> unpack (pack d) = Ret d.
Proof.
  intros [[L C] _]. unfold unpack, pack. set (b := flat_map (to_bytes element_size) (array_ d)).
  assert (length b = SIZE * element_size)%nat as Lb.
  { subst b. rewrite <- L. clear. induction (array_ d) as [|x a IH]; cbn [flat_map length]; [reflexivity|].
    rewrite length_app, to_bytes_length, IH. reflexivity. }
  unfold rd. rewrite nth_error_app2 by lia. rewrite Lb, Nat.sub_diag. cbn [nth_error bind].
  rewrite <- L. unfold b. rewrite unpack_cells_ok by easy. destruct d as [n a]. cbn [negative_ array_]. now destruct n.
Qed.
End Packing.

(** ** Properties *)

Section Properties.
Context {D : DecimalRanks} {Dok : DecimalRanksOk D}.

(** C11: a text is read as a number exactly when it is an optional sign, digits
    and at most one point, with a digit or a point, and its digits fit: leading
    zeros and zeros at the end of the fraction do not count, too many others
    throw [Overflow]; every other text is refused with [Overflow] or
    [NotNumber]. *)
Theorem big_decimal_reads str : size str < NPOS ->
  (forall s ip fp, str = numeral s ip fp -> is_numeral ip fp ->
    let ip' := drop_zeros (digits_of ip) in
    let fp' := fraction_digits fp in
    if (FRACTION_RANK <? length fp')%nat || (INTEGER_RANK <? length ip')%nat then Decimal_str str = Throw Overflow
    else exists d, Decimal_str str = Ret d /\ wf d /\ negative_ d = is_minus s /\ magnitude d = numeral_value ip fp') /\
  ((exists d s ip fp, Decimal_str str = Ret d /\ is_numeral ip fp /\ str = numeral s ip fp) \/ refused (Decimal_str str)).
Proof.
  intros S. split; [|now apply read_numbers_only]. intros s ip fp -> H. now apply read_numeral.
Qed.

(** C12: the text [str] prints has at most [TOTAL_RANK + 3] characters, the size
    of its buffer, and reading it back gives the same digits and the same
    value; only the sign of a negative zero is lost.  Unpacking packed bytes
    gives the decimal itself. *)
Theorem big_decimal_text_roundtrip d : wf d -> Z.of_nat TOTAL_RANK < 2 ^ 32 ->
  (length (str d) <= TOTAL_RANK + 3)%nat /\
  exists d', Decimal_str (str d) = Ret d' /\ wf d' /\ array_ d' = array_ d /\ value d' = value d /\
    (magnitude d <> 0 -> d' = d) /\ unpack (pack d) = Ret d.
Proof.
  intros W T. split; [now apply str_length|].
  destruct (str_roundtrip_ok d W T) as (d' & E & W' & A & V). exists d'. split; [exact E|]. split; [exact W'|]. split; [exact A|]. split; [exact V|]. split; [|now apply unpack_pack].
  intros N. unfold value, magnitude in *. rewrite A in V. destruct d as [n a], d' as [n' a']. cbn [negative_ array_] in *.
  subst a'. f_equal. destruct n, n'; try reflexivity; lia.
Qed.

End Properties.

Lemma big_decimal_reads_witness :
  let text := lit "-0012.50" in
  (forall s ip fp, text = numeral s ip fp -> is_numeral ip fp ->
    let ip' := drop_zeros (digits_of ip) in
    let fp' := fraction_digits fp in
    if (10 <? length fp')%nat || (10 <? length ip')%nat then Decimal_str (D := D20_10) text = Throw Overflow
    else exists d, Decimal_str (D := D20_10) text = Ret d /\ wf (D := D20_10) d /\ negative_ d = is_minus s /\
           magnitude (D := D20_10) d = numeral_value (D := D20_10) ip fp') /\
  ((exists d s ip fp, Decimal_str (D := D20_10) text = Ret d /\ is_numeral ip fp /\ text = numeral s ip fp) \/
   refused (Decimal_str (D := D20_10) text)).
Proof. apply (big_decimal_reads (D := D20_10) (lit "-0012.50")). vm_compute. reflexivity. Defined.

Lemma big_decimal_text_roundtrip_witness :
  let d := mkDecimal true [0; 5; 12] in
  (length (str (D := D20_10) d) <= 20 + 3)%nat /\
  exists d', Decimal_str (D := D20_10) (str (D := D20_10) d) = Ret d' /\ wf (D := D20_10) d' /\ array_ d' = array_ d /\
    value (D := D20_10) d' = value (D := D20_10) d /\ (magnitude (D := D20_10) d <> 0 -> d' = d) /\
    unpack (D := D20_10) (pack (D := D20_10) d) = Ret d.
Proof.
  apply (big_decimal_text_roundtrip (D := D20_10) (mkDecimal true [0; 5; 12])); [|vm_compute; reflexivity].
  split; [split; [reflexivity|repeat constructor; vm_compute; easy]|vm_compute; easy].
Defined.

(** A point alone is read as zero. *)
Example point_alone :
  Decimal_str (D := D20_10) (lit ".") = Ret (mkDecimal false [0; 0; 0]) /\
  Decimal_str (D := D20_10) (lit "-") = Throw NotNumber.
Proof. vm_compute. split; reflexivity. Qed.
