(* ===== verification/DecimalMul.v ===== *)
(** * DecimalMul: the multiplication of [Generics::Decimal]

    [mul] of Decimal.tpp: the products of the elements are added into an array
    that also holds the digits below the last one of the result
    ([MulTmpArray]); the array is rounded and its upper part is the result. *)

From Stdlib Require Import ZArith List Bool Lia.
From S2P Require Import Prelude Ascii Radix CommonDecimal Decimal.
Import ListNotations.

Section Multiplication.
Context {D : DecimalRanks}.

(** [mul<digits10 <= numeric_limits<uint64_t>::digits10 / 2>]; the result is
    [minor] and [major]. *)
Definition narrow_element : bool := (element_digits10 <=? 19 / 2)%nat.

Definition mul_elements_ (multiplier factor : Z) : outcome (Z * Z) :=
  '(h, l) <- mul_base narrow_element multiplier factor BASE ;;
  Ret (Element l, Element h).

(** ** MulTmpArray *)

Definition TMP_FRACTION_RANK : nat := (2 * FRACTION_RANK)%nat.
Definition TMP_TOTAL_RANK : nat := (INTEGER_RANK + TMP_FRACTION_RANK)%nat.
Definition TMP_SIZE : nat :=
  (TMP_TOTAL_RANK / DIGITS_PER_ELEMENT + (if (TMP_TOTAL_RANK mod DIGITS_PER_ELEMENT =? 0) then 0 else 1))%nat.
Definition TMP_INTEGER_MAX_OVER : Z :=
  pw 10 (DIGITS_PER_ELEMENT - (TMP_SIZE * DIGITS_PER_ELEMENT - TMP_TOTAL_RANK)).

(** The carry above the element: the elements, and the carry after the loop
    unless it ended early. *)
Fixpoint carry_up (cells : list Z) (overflow : Z) : list Z * option Z :=
  match cells with
  | [] => ([], Some overflow)
  | x :: cells' =>
      let y := Element (x + overflow) in
      if y <? BASE then (y :: cells', match cells' with [] => Some 0 | _ => None end)
      else let '(t, r) := carry_up cells' 1 in (Element (y - BASE) :: t, r)
  end.

(** The element that is added to, and its carry. *)
Definition add_cell (x value : Z) : Z * Z :=
  if (2 <? MAX_SUM) || (x <=? Element (-1) - value) then
    let x := Element (x + value) in
    if BASE <=? x then (x mod BASE, x / BASE) else (x, 0)
  else
    let overflow := value / BASE in
    let x := Element (x + value mod BASE) in
    if BASE <=? x then (x - BASE, overflow + 1) else (x, overflow).

(** [MulTmpArray::add]; [true] is an overflow. *)
Definition MulTmpArray_add (tmp_array_ : list Z) (value : Z) (index : nat) : list Z * bool :=
  if (TMP_SIZE <=? index)%nat then (tmp_array_, true)
  else
    let '(x, overflow) := add_cell (at_cell tmp_array_ index) value in
    let '(t, r) := carry_up (skipn (index + 1) tmp_array_) overflow in
    let tmp_array_ := firstn index tmp_array_ ++ x :: t in
    (tmp_array_,
     match r with
     | None => false
     | Some overflow => negb (overflow =? 0) || (TMP_INTEGER_MAX_OVER <=? at_cell tmp_array_ (TMP_SIZE - 1))
     end).

Definition MulTmpArray_round (tmp_array_ : list Z) : list Z * bool :=
  if (if FRACTION_REMAINDER =? 1 then BASE / 2 <=? at_cell tmp_array_ (FRACTION_END - 1)
      else FRACTION_REMAINDER / 2 <=? at_cell tmp_array_ FRACTION_END mod FRACTION_REMAINDER)
  then MulTmpArray_add tmp_array_ FRACTION_REMAINDER FRACTION_END
  else (tmp_array_, false).

Definition MulTmpArray_ceil (tmp_array_ : list Z) : list Z * bool :=
  if negb ((if FRACTION_REMAINDER =? 1 then at_cell tmp_array_ (FRACTION_END - 1)
            else at_cell tmp_array_ FRACTION_END mod FRACTION_REMAINDER) =? 0)
  then MulTmpArray_add tmp_array_ FRACTION_REMAINDER FRACTION_END
  else (tmp_array_, false).

(** The loop of [export_to], [n] elements before the end of the result; those
    after a [break] would never be set. *)
Fixpoint export_loop (n : nat) (cells : list Z) (last : Z) : outcome (list Z) :=
  match n with
  | O => Ret []
  | S n' =>
      match cells with
      | [] => match n' with O => Ret [last] | _ => Undef end
      | x :: cells' =>
          t <- export_loop n' cells' (x / FRACTION_REMAINDER) ;;
          Ret (Element (last + x mod FRACTION_REMAINDER * FRACTION_OVER) :: t)
      end
  end.

Definition MulTmpArray_export_to (tmp_array_ : list Z) : outcome (list Z) :=
  if FRACTION_REMAINDER =? 1 then
    if (FRACTION_END + SIZE <=? TMP_SIZE)%nat then Ret (firstn SIZE (skipn FRACTION_END tmp_array_)) else Undef
  else
    export_loop SIZE (skipn (FRACTION_END + 1) tmp_array_) (at_cell tmp_array_ FRACTION_END / FRACTION_REMAINDER).

(** ** mul *)

(** The inner loop: the elements of [factor1] from index [j] on, [index] is
    [i + j]. *)
Fixpoint mul_row (cells : list Z) (factor : Z) (index : nat) (overflow : Z) (tmp : list Z) : outcome (list Z) :=
  match cells with
  | [] =>
      if negb (overflow =? 0) then
        let '(tmp, exceeds) := MulTmpArray_add tmp overflow index in
        if (exceeds : bool) then Throw Overflow else Ret tmp
      else Ret tmp
  | x :: cells' =>
      if negb (x =? 0) then
        '(result, over) <- mul_elements_ x factor ;;
        let '(tmp, exceeds) := MulTmpArray_add tmp (Element (result + overflow)) index in
        if (exceeds : bool) then Throw Overflow else mul_row cells' factor (S index) over tmp
      else if negb (overflow =? 0) then
        let '(tmp, exceeds) := MulTmpArray_add tmp overflow index in
        if (exceeds : bool) then Throw Overflow else mul_row cells' factor (S index) 0 tmp
      else mul_row cells' factor (S index) 0 tmp
  end.

Fixpoint mul_rows (cells1 cells2 : list Z) (i : nat) (tmp : list Z) : outcome (list Z) :=
  match cells2 with
  | [] => Ret tmp
  | y :: cells2' =>
      tmp <- (if y =? 0 then Ret tmp else mul_row cells1 y i 0 tmp) ;;
      mul_rows cells1 cells2' (S i) tmp
  end.

Definition mul (factor1 factor2 : Decimal) (dmr : DecimalMulRemainder) : outcome Decimal :=
  mul_tmp <- mul_rows (array_ factor1) (array_ factor2) 0 (repeat 0 TMP_SIZE) ;;
  let '(mul_tmp, exceeds) :=
    if (FRACTION_RANK =? 0)%nat then (mul_tmp, false)
    else match dmr with
         | DMR_FLOOR => (mul_tmp, false)
         | DMR_ROUND => MulTmpArray_round mul_tmp
         | DMR_CEIL => MulTmpArray_ceil mul_tmp
         end in
  if (exceeds : bool) then Throw Overflow
  else
    array <- MulTmpArray_export_to mul_tmp ;;
    Ret (mkDecimal (xorb (negative_ factor1) (negative_ factor2)) array).

End Multiplication.

(** ** The array of the products *)

Section Array.
Context {D : DecimalRanks} {Dok : DecimalRanksOk D}.

Lemma narrow_base : narrow_element = false \/ BASE * BASE <= 2 ^ 64.
Proof.
  unfold narrow_element, BASE, DIGITS_PER_ELEMENT, element_digits10.
  destruct element_type as [H|[H|[H|H]]]; rewrite H; vm_compute; first [left; easy|right; easy].
Qed.

Lemma mul_elements_ok x y : is_cell BASE x -> is_cell BASE y ->
  mul_elements_ x y = Ret (x * y mod BASE, x * y / BASE).
Proof.
  unfold is_cell. intros Hx Hy. assert (0 <= x * y < BASE * BASE) as P by nia.
  pose proof base_ge as B. assert (0 <= x * y / BASE < BASE) as Q
    by (split; [apply Z.div_pos; lia|apply Z.div_lt_upper_bound; lia]).
  pose proof (base_mod (x * y)) as R.
  pose proof narrow_base as N.
  pose proof base_facts as BF. unfold mul_elements_, mul_base. destruct narrow_element.
  - destruct N as [|N]; [easy|]. rewrite wrapu_small by lia. cbn [bind]. now rewrite !Element_small by lia.
  - rewrite Z.shiftr_div_pow2 by lia. assert (x * y / 2 ^ 64 < BASE) as H by (apply Z.div_lt_upper_bound; [lia|]; apply Z.lt_le_trans with (BASE * BASE); [lia|apply Z.mul_le_mono_nonneg_r; lia]).
    rewrite (proj2 (Z.leb_gt _ _) H). cbn [bind]. now rewrite !Element_small by lia.
Qed.

Definition TMP_MAX : Z := pw 10 TMP_TOTAL_RANK.

Lemma tmp_rank : TMP_TOTAL_RANK = (TOTAL_RANK + FRACTION_RANK)%nat.
Proof. pose proof fraction_rank_le. unfold TMP_TOTAL_RANK, TMP_FRACTION_RANK, INTEGER_RANK. lia. Qed.

Lemma tmp_max : TMP_MAX = MAX_VALUE * pw 10 FRACTION_RANK.
Proof. unfold TMP_MAX, MAX_VALUE. now rewrite tmp_rank, pw_add. Qed.

Lemma tmp_size : holds TMP_SIZE TMP_TOTAL_RANK.
Proof.
  unfold holds, TMP_SIZE. pose proof digits_per_element_pos as P. pose proof total_rank_pos. pose proof tmp_rank.
  pose proof (Nat.div_mod TMP_TOTAL_RANK DIGITS_PER_ELEMENT ltac:(lia)) as E.
  pose proof (Nat.mod_upper_bound TMP_TOTAL_RANK DIGITS_PER_ELEMENT ltac:(lia)).
  set (q := (TMP_TOTAL_RANK / DIGITS_PER_ELEMENT)%nat) in *. rewrite (Nat.mul_comm DIGITS_PER_ELEMENT) in E.
  destruct (Nat.eqb_spec (TMP_TOTAL_RANK mod DIGITS_PER_ELEMENT) 0).
  - destruct q as [|q]; [lia|]. rewrite Nat.add_0_r. cbn [Nat.sub]. rewrite Nat.sub_0_r. lia.
  - rewrite Nat.add_1_r. cbn [Nat.sub]. rewrite Nat.sub_0_r. lia.
Qed.

Definition tmp_ok (a : list Z) : Prop := length a = TMP_SIZE /\ cells BASE a.

Lemma tmp_top a : tmp_ok a -> (TMP_INTEGER_MAX_OVER <=? at_cell a (TMP_SIZE - 1)) = (TMP_MAX <=? val BASE a).
Proof. intros [L C]. exact (top_cell TMP_SIZE TMP_TOTAL_RANK a tmp_size L C). Qed.

Lemma tmp_max_base : TMP_MAX <= pw BASE TMP_SIZE.
Proof. pose proof tmp_size as [_ S]. unfold TMP_MAX, BASE. rewrite pw_pw. apply pw_le; lia. Qed.

(** A carry that ends early leaves the highest element as it was. *)
Lemma carry_up_ok a : forall o, cells BASE a -> 0 <= o <= BASE ->
  exists t r, carry_up a o = (t, r) /\ length t = length a /\ cells BASE t /\
    match r with
    | Some o' => 0 <= o' /\ val BASE t + o' * pw BASE (length a) = val BASE a + o
    | None => val BASE t = val BASE a + o /\ a <> [] /\ nth (length a - 1) t 0 = nth (length a - 1) a 0
    end.
Proof.
  induction a as [|x a IH]; intros o C Ho; cbn [carry_up].
  - exists [], (Some o). cbn [length]. rewrite pw_0. repeat split; try lia. constructor.
  - inversion C as [|? ? Hx Ca]; subst. unfold is_cell in Hx. rewrite Element_small by lia.
    destruct (Z.ltb_spec (x + o) BASE) as [L|L].
    + do 2 eexists. split; [reflexivity|]. split; [reflexivity|].
      split; [constructor; [unfold is_cell; lia|easy]|]. destruct a as [|z a]; cbn [val length].
      * split; [lia|]. rewrite pw_1. lia.
      * split; [lia|]. split; [easy|]. reflexivity.
    + destruct (IH 1 Ca ltac:(lia)) as (t & r & -> & Lt & Ct & V). rewrite Element_small by lia.
      do 2 eexists. split; [reflexivity|]. split; [cbn [length]; now rewrite Lt|].
      split; [constructor; [unfold is_cell; lia|easy]|]. destruct r as [o'|].
      * split; [lia|]. cbn [val length]. rewrite pw_S. lia.
      * destruct V as (V & Na & Vn). split; [cbn [val]; lia|]. split; [easy|]. destruct a as [|z a]; [easy|].
        replace (length (x :: z :: a) - 1)%nat with (S (length (z :: a) - 1)) by (cbn [length]; lia). exact Vn.
Qed.

Lemma add_cell_ok x value : is_cell BASE x -> 0 <= value < 2 * BASE ->
  exists y o, add_cell x value = (y, o) /\ is_cell BASE y /\ 0 <= o <= BASE /\ y + o * BASE = x + value.
Proof.
  unfold is_cell, add_cell. intros Hx Hv. pose proof base_facts as (B & _ & W & _ & S & _). cbv zeta.
  pose proof (Z.div_mod value BASE base_nonzero) as Ev. pose proof (base_mod value) as Rv.
  destruct (_ || _) eqn:T.
  - assert (Element (x + value) = x + value) as ->.
    { apply wrapu_small. apply orb_true_iff in T as [T|T]; [apply Z.ltb_lt in T; lia|].
      apply Z.leb_le in T. unfold Element, wrapu in T. assert (0 < 2 ^ element_bits) as P by lia.
      pose proof (Z.mod_pos_bound (-1) _ P). lia. }
    destruct (Z.leb_spec BASE (x + value)) as [L|L].
    + do 2 eexists. split; [reflexivity|]. pose proof (Z.div_mod (x + value) BASE base_nonzero).
      pose proof (base_mod (x + value)). split; [lia|]. split; [|lia].
      split; [apply Z.div_pos; lia|apply Z.div_le_upper_bound; nia].
    + do 2 eexists. split; [reflexivity|]. lia.
  - rewrite Element_small by lia.
    assert (0 <= value / BASE <= 1) as Q
      by (split; [apply Z.div_pos; lia|apply Z.lt_succ_r, Z.div_lt_upper_bound; lia]).
    destruct (Z.leb_spec BASE (x + value mod BASE)); do 2 eexists; (split; [reflexivity|]; lia).
Qed.

Lemma split_at (a : list Z) i : (i < length a)%nat -> a = firstn i a ++ nth i a 0 :: skipn (i + 1) a.
Proof.
  intros L. rewrite <- (firstn_skipn i a) at 1. f_equal. replace (i + 1)%nat with (S i) by lia.
  revert i L. induction a as [|x a IH]; intros i L; cbn [length] in L; [lia|]. destruct i as [|i]; [easy|]. apply IH. lia.
Qed.

Lemma val_at (a : list Z) i y t : (i < length a)%nat -> length t = length (skipn (i + 1) a) ->
  val BASE (firstn i a ++ y :: t) =
  val BASE a + (y - nth i a 0) * pw BASE i + (val BASE t - val BASE (skipn (i + 1) a)) * pw BASE (i + 1).
Proof.
  intros L Lt. rewrite (split_at a i L) at 2. rewrite !val_app, !length_firstn, !Nat.min_l by lia.
  rewrite Nat.add_1_r, pw_S. cbn [val]. lia.
Qed.

Lemma MulTmpArray_add_ok a value index : tmp_ok a -> val BASE a < TMP_MAX -> 0 <= value < 2 * BASE ->
  (index < TMP_SIZE)%nat ->
  exists t over, MulTmpArray_add a value index = (t, over) /\
    over = (TMP_MAX <=? val BASE a + value * pw BASE index) /\
    (over = false -> tmp_ok t /\ val BASE t = val BASE a + value * pw BASE index).
Proof.
  intros [L C] M Hv Hi. unfold MulTmpArray_add. rewrite (proj2 (Nat.leb_gt _ _) Hi).
  destruct (add_cell_ok (at_cell a index) value (cells_nth BASE base_ge a index C) Hv) as (y & o & -> & Cy & Ho & Ey).
  destruct (carry_up_ok (skipn (index + 1) a) o (cells_skipn _ _ _ C) Ho) as (t & r & -> & Lt & Ct & V).
  set (b := firstn index a ++ y :: t).
  assert (tmp_ok b) as Tb.
  { split; [|apply Forall_app; split; [now apply cells_firstn|now constructor]].
    unfold b. rewrite length_app, length_firstn. cbn [length]. rewrite Lt, length_skipn. lia. }
  pose proof (val_at a index y t ltac:(lia) Lt) as Vb. fold b in Vb. rewrite (Nat.add_1_r index), pw_S in Vb.
  fold (at_cell a index) in Vb. rewrite Nat.add_1_r in *. assert (length (skipn (S index) a) = (TMP_SIZE - S index)%nat) as Ls
    by (rewrite length_skipn; lia).
  pose proof (base_pow index) as Pi. do 2 eexists. split; [reflexivity|]. destruct r as [o'|].
  - destruct V as [Ho' V]. rewrite Ls in V. rewrite tmp_top by easy.
    pose proof (pw_split BASE (S index) TMP_SIZE ltac:(lia)) as Ps. rewrite pw_S in Ps.
    assert (val BASE b + o' * pw BASE TMP_SIZE = val BASE a + value * pw BASE index) as E by (rewrite Vb, Ps; replace (val BASE t - _) with (o - o' * pw BASE (TMP_SIZE - S index)) by lia;
          replace value with (y + o * BASE - at_cell a index) by lia; ring).
    pose proof tmp_max_base. pose proof (val_nonneg BASE base_ge b (proj2 Tb)).
    destruct (Z.eqb_spec o' 0) as [->|No]; cbn [negb orb].
    + split; [f_equal; lia|]. intros _. split; [exact Tb|lia].
    + split; [|discriminate]. symmetry. apply Z.leb_le. rewrite <- E.
      pose proof (base_pow TMP_SIZE). assert (1 * pw BASE TMP_SIZE <= o' * pw BASE TMP_SIZE) by (apply Z.mul_le_mono_nonneg_r; lia). lia.
  - destruct V as (V & Ns & Vn). assert (val BASE b = val BASE a + value * pw BASE index) as E
      by (rewrite Vb; replace (val BASE t - _) with o by lia;
          replace value with (y + o * BASE - at_cell a index) by lia; ring).
    split; [|intros _; split; [exact Tb|exact E]]. rewrite <- E, <- tmp_top by exact Tb.
    pose proof (tmp_top a (conj L C)) as Ta. rewrite (proj2 (Z.leb_gt _ _) M) in Ta. rewrite <- Ta. f_equal.
    rewrite Ls in Vn. assert (TMP_SIZE - S index <> 0)%nat by (intros Z0; rewrite Z0 in Ls; now destruct (skipn (S index) a)).
    unfold at_cell, b. rewrite app_nth2; rewrite length_firstn, Nat.min_l by lia; [|lia].
    replace (TMP_SIZE - 1 - index)%nat with (S (TMP_SIZE - S index - 1)) by lia. cbn [nth]. rewrite Vn, nth_skipn. f_equal. lia.
Qed.

(** ** The product *)

(** What the loops give when the products make [total]. *)
Definition product_result (total : Z) (r : outcome (list Z)) : Prop :=
  if total <? TMP_MAX then exists t, r = Ret t /\ tmp_ok t /\ val BASE t = total else r = Throw Overflow.

Lemma add_then tmp v index rest (k : list Z -> outcome (list Z)) : tmp_ok tmp -> val BASE tmp < TMP_MAX ->
  0 <= v < 2 * BASE -> 0 <= rest -> 0 < v + rest ->
  (forall t, tmp_ok t -> val BASE t = val BASE tmp + v * pw BASE index -> val BASE t < TMP_MAX ->
    product_result (val BASE t + rest * pw BASE index) (k t)) ->
  product_result (val BASE tmp + (v + rest) * pw BASE index)
    (let '(tmp, exceeds) := MulTmpArray_add tmp v index in if (exceeds : bool) then Throw Overflow else k tmp).
Proof.
  intros T M Hv Hr Hs K. pose proof (base_pow index) as P. pose proof (val_nonneg BASE base_ge tmp (proj2 T)).
  assert (0 <= rest * pw BASE index) by (apply Z.mul_nonneg_nonneg; lia).
  destruct (Nat.lt_ge_cases index TMP_SIZE) as [L|L].
  - destruct (MulTmpArray_add_ok tmp v index T M Hv L) as (t & over & -> & Eo & Ok). destruct over.
    + unfold product_result. rewrite (proj2 (Z.ltb_ge _ _)); [easy|]. symmetry in Eo. apply Z.leb_le in Eo. lia.
    + destruct (Ok eq_refl) as [Tt Vt]. symmetry in Eo. apply Z.leb_gt in Eo.
      specialize (K t Tt Vt ltac:(lia)). rewrite Vt in K.
      replace (val BASE tmp + (v + rest) * pw BASE index) with (val BASE tmp + v * pw BASE index + rest * pw BASE index) by lia.
      exact K.
  - unfold MulTmpArray_add. rewrite (proj2 (Nat.leb_le _ _) L). unfold product_result.
    rewrite (proj2 (Z.ltb_ge _ _)); [easy|]. pose proof tmp_max_base as U.
    pose proof base_ge. pose proof (pw_le BASE TMP_SIZE index) as Pl. specialize (Pl ltac:(lia) L).
    assert (1 * pw BASE index <= (v + rest) * pw BASE index) by (apply Z.mul_le_mono_nonneg_r; lia). lia.
Qed.

Lemma mul_row_ok y cs : is_cell BASE y -> y <> 0 -> cells BASE cs -> forall index o tmp, is_cell BASE o ->
  tmp_ok tmp -> val BASE tmp < TMP_MAX ->
  product_result (val BASE tmp + (o + y * val BASE cs) * pw BASE index) (mul_row cs y index o tmp).
Proof.
  intros Cy Ny C. pose proof base_ge as HB. unfold is_cell in Cy.
  assert (forall t, tmp_ok t -> val BASE t < TMP_MAX -> product_result (val BASE t) (Ret t)) as R.
  { intros t T M. unfold product_result. rewrite (proj2 (Z.ltb_lt _ _) M). eauto. }
  induction C as [|x cs Cx C IH]; intros index o tmp Co T M; cbn [mul_row val].
  - unfold is_cell in Co. destruct (Z.eqb_spec o 0) as [->|No]; cbn [negb].
    + replace (val BASE tmp + _) with (val BASE tmp) by lia. now apply R.
    + replace (o + y * 0) with (o + 0) by lia. apply (add_then tmp o index 0 (fun t => Ret t)); auto; try lia.
      intros t Tt _ Mt. rewrite Z.mul_0_l, Z.add_0_r. now apply R.
  - pose proof (val_nonneg BASE HB cs C) as Vn. pose proof Cx as Bx. unfold is_cell in Bx, Co.
    assert (0 <= y * val BASE cs) as Yn by (apply Z.mul_nonneg_nonneg; lia).
    destruct (Z.eqb_spec x 0) as [->|Nx]; cbn [negb].
    + destruct (Z.eqb_spec o 0) as [->|No]; cbn [negb].
      * specialize (IH (S index) 0 tmp ltac:(unfold is_cell; lia) T M). rewrite pw_S in IH.
        replace ((0 + y * (0 + BASE * val BASE cs)) * pw BASE index)
          with ((0 + y * val BASE cs) * (BASE * pw BASE index)) by ring. exact IH.
      * replace (y * (0 + BASE * val BASE cs)) with (y * val BASE cs * BASE) by ring.
        apply (add_then tmp o index _ (fun t => mul_row cs y (S index) 0 t)); auto; try lia.
        intros t Tt _ Mt. specialize (IH (S index) 0 t ltac:(unfold is_cell; lia) Tt Mt). rewrite pw_S in IH.
        replace (y * val BASE cs * BASE * pw BASE index) with ((0 + y * val BASE cs) * (BASE * pw BASE index)) by ring.
        exact IH.
    + rewrite mul_elements_ok by (unfold is_cell; lia). cbn [bind]. pose proof (Z.div_mod (x * y) BASE base_nonzero) as E.
      pose proof (base_mod (x * y)) as Rm. assert (0 <= x * y / BASE < BASE) as Ro.
      { split; [apply Z.div_pos; lia|]. apply Z.div_lt_upper_bound; [lia|].
        apply Z.le_lt_trans with (BASE * y); [apply Z.mul_le_mono_nonneg_r; lia|apply Z.mul_lt_mono_pos_l; lia]. }
      rewrite Element_small by lia. assert (0 < x * y) as Pxy by (apply Z.mul_pos_pos; lia).
      replace (o + y * (x + BASE * val BASE cs))
        with (x * y mod BASE + o + (x * y / BASE + y * val BASE cs) * BASE) by lia.
      apply (add_then tmp _ index _ (fun t => mul_row cs y (S index) (x * y / BASE) t)); auto; try lia.
      intros t Tt _ Mt. specialize (IH (S index) (x * y / BASE) t Ro Tt Mt). rewrite pw_S in IH.
      replace ((x * y / BASE + y * val BASE cs) * BASE * pw BASE index)
        with ((x * y / BASE + y * val BASE cs) * (BASE * pw BASE index)) by ring. exact IH.
Qed.

Lemma mul_rows_ok cs1 cs2 : cells BASE cs1 -> cells BASE cs2 -> forall i tmp,
  tmp_ok tmp -> val BASE tmp < TMP_MAX ->
  product_result (val BASE tmp + val BASE cs1 * val BASE cs2 * pw BASE i) (mul_rows cs1 cs2 i tmp).
Proof.
  intros C1 C2. pose proof base_ge as HB. pose proof (val_nonneg BASE HB cs1 C1) as V1.
  induction C2 as [|y cs2 Cy C2 IH]; intros i tmp T M; cbn [mul_rows val].
  - rewrite Z.mul_0_r, Z.mul_0_l, Z.add_0_r. unfold product_result. rewrite (proj2 (Z.ltb_lt _ _) M). eauto.
  - pose proof (val_nonneg BASE HB cs2 C2) as V2.
    assert (product_result (val BASE tmp + y * val BASE cs1 * pw BASE i) (if y =? 0 then Ret tmp else mul_row cs1 y i 0 tmp)) as R.
    { destruct (Z.eqb_spec y 0) as [->|Ny].
      - replace (val BASE tmp + _) with (val BASE tmp) by lia. unfold product_result. rewrite (proj2 (Z.ltb_lt _ _) M). eauto.
      - apply (mul_row_ok y cs1 Cy Ny C1 i 0 tmp); auto. unfold is_cell. lia. }
    replace (val BASE cs1 * (y + BASE * val BASE cs2) * pw BASE i)
      with (y * val BASE cs1 * pw BASE i + val BASE cs1 * val BASE cs2 * pw BASE (S i)) by (rewrite pw_S; ring).
    assert (0 <= val BASE cs1 * val BASE cs2 * pw BASE (S i)).
    { pose proof (base_pow (S i)). repeat apply Z.mul_nonneg_nonneg; lia. }
    unfold product_result in R at 1. destruct (Z.ltb_spec (val BASE tmp + y * val BASE cs1 * pw BASE i) TMP_MAX) as [L|L].
    + destruct R as (t & -> & Tt & Vt). cbn [bind]. rewrite Z.add_assoc, <- Vt. apply IH; [exact Tt|lia].
    + rewrite R. cbn [bind]. unfold product_result. rewrite (proj2 (Z.ltb_ge _ _)) by lia. reflexivity.
Qed.

(** ** Rounding *)

(** The unit of the last digit, in units of the product. *)
Definition fraction_unit : Z := pw 10 FRACTION_RANK.

(** The digits [MulTmpArray_round] and [MulTmpArray_ceil] look at: [cut_index]
    is their element, [cut_limit] bounds them. *)
Definition cut_index : nat := if FRACTION_REMAINDER =? 1 then (FRACTION_END - 1)%nat else FRACTION_END.
Definition cut_limit : Z := if FRACTION_REMAINDER =? 1 then BASE else FRACTION_REMAINDER.

(** The weight of the lowest digit [MulTmpArray_ceil] looks at. *)
Definition ceil_unit : Z := pw BASE cut_index.

Lemma fraction_unit_pos : 0 < fraction_unit.
Proof. apply pw_pos. lia. Qed.

Lemma cut_facts : (0 < FRACTION_RANK)%nat ->
  fraction_unit = ceil_unit * cut_limit /\ cut_limit mod 2 = 0 /\ 0 < cut_limit /\ (cut_limit | BASE) /\ 0 < ceil_unit.
Proof.
  intros P. pose proof fraction_facts as (E & B & R & O). pose proof base_facts as (B1 & B2 & _).
  unfold fraction_unit, ceil_unit, cut_limit, cut_index. pose proof fraction_split as [S L].
  split; [|split; [|split; [|split]]].
  - rewrite E. destruct (Z.eqb_spec FRACTION_REMAINDER 1) as [F1|N]; [|reflexivity].
    rewrite F1, Z.mul_1_r, Z.mul_comm, <- pw_S. f_equal.
    assert (FRACTION_END <> 0)%nat; [|lia]. intros Z0. rewrite Z0, pw_0, Z.mul_1_l in E.
    assert (1 < 10) as T0 by lia. pose proof (pw_lt 10 0 FRACTION_RANK T0 P) as T. rewrite pw_0 in T.
    lia.
  - destruct (Z.eqb_spec FRACTION_REMAINDER 1) as [_|N]; [exact B2|]. unfold FRACTION_REMAINDER in *.
    destruct (FRACTION_RANK mod DIGITS_PER_ELEMENT)%nat as [|n]; [easy|]. rewrite pw_S.
    replace (10 * pw 10 n) with (5 * pw 10 n * 2) by lia. apply Z.mod_mul. lia.
  - destruct (_ =? 1); lia.
  - destruct (_ =? 1); [apply Z.divide_refl|]. exists FRACTION_OVER. lia.
  - apply base_pow.
Qed.

Lemma cut_digits a : cells BASE a -> (0 < FRACTION_RANK)%nat ->
  (if FRACTION_REMAINDER =? 1 then at_cell a (FRACTION_END - 1) else at_cell a FRACTION_END mod FRACTION_REMAINDER) =
  val BASE a mod fraction_unit / ceil_unit.
Proof.
  intros C P. destruct (cut_facts P) as (E & _ & Lp & Dv & Up). rewrite E, mod_div_mul by easy.
  unfold ceil_unit, cut_index, cut_limit, at_cell in *. rewrite !(val_nth BASE) by first [exact base_ge|exact C].
  destruct (FRACTION_REMAINDER =? 1); [reflexivity|]. apply mod_pow; easy.
Qed.

Lemma le_div_iff c r p : 0 < p -> (c <=? r / p) = (c * p <=? r).
Proof.
  intros Hp. apply eq_true_iff_eq. rewrite !Z.leb_le. pose proof (div_lt_iff r p c Hp). rewrite (Z.mul_comm c). lia.
Qed.

Lemma rounded_ok (up : bool) tmp : tmp_ok tmp -> val BASE tmp < TMP_MAX -> (0 < FRACTION_RANK)%nat ->
  let m := val BASE tmp / fraction_unit + (if up then 1 else 0) in
  exists t over, (if up then MulTmpArray_add tmp FRACTION_REMAINDER FRACTION_END else (tmp, false)) = (t, over) /\
    over = (MAX_VALUE <=? m) /\ (over = false -> tmp_ok t /\ val BASE t / fraction_unit = m /\ val BASE t < TMP_MAX).
Proof.
  intros T M P. cbv zeta. pose proof fraction_unit_pos as U. pose proof tmp_max as TM. fold fraction_unit in TM.
  pose proof fraction_facts as (E & B & R & O). fold fraction_unit in E. destruct up.
  - assert (FRACTION_END < TMP_SIZE)%nat as Le.
    { pose proof tmp_size as [_ S]. pose proof tmp_rank. pose proof fraction_split as [Es _].
      pose proof fraction_rank_le. pose proof digits_per_element_pos as Dp.
      apply (Nat.mul_lt_mono_pos_r DIGITS_PER_ELEMENT); lia. }
    assert (0 <= FRACTION_REMAINDER < 2 * BASE) as Rb by lia.
    destruct (MulTmpArray_add_ok tmp FRACTION_REMAINDER FRACTION_END T M Rb Le) as (t & over & -> & Eo & Ok).
    rewrite (Z.mul_comm FRACTION_REMAINDER), <- E in Eo, Ok.
    assert ((val BASE tmp + fraction_unit) / fraction_unit = val BASE tmp / fraction_unit + 1) as Ed
      by (rewrite <- (Z.mul_1_l fraction_unit) at 1; apply Z.div_add; lia).
    do 2 eexists. split; [reflexivity|]. split.
    + rewrite Eo, <- Ed, le_div_iff, TM by easy. reflexivity.
    + intros F. destruct (Ok F) as [Tt Vt]. split; [exact Tt|]. rewrite Vt. split; [exact Ed|].
      rewrite F in Eo. symmetry in Eo. apply Z.leb_gt in Eo. exact Eo.
  - rewrite Z.add_0_r. do 2 eexists. split; [reflexivity|]. split; [|intros _; repeat split; first [apply T|exact M]].
    rewrite le_div_iff, <- TM by easy. symmetry. now apply Z.leb_gt.
Qed.

(** The magnitude of a product [p] in units of the product. *)
Definition mul_mag (dmr : DecimalMulRemainder) (p : Z) : Z :=
  match dmr with
  | DMR_FLOOR => p / fraction_unit
  | DMR_ROUND => (p + fraction_unit / 2) / fraction_unit
  | DMR_CEIL => p / fraction_unit + (if p mod fraction_unit <? ceil_unit then 0 else 1)
  end.

Lemma round_split p U : 0 < U -> U mod 2 = 0 ->
  (p + U / 2) / U = p / U + (if U / 2 <=? p mod U then 1 else 0).
Proof.
  intros HU H2. pose proof (Z.div_mod p U ltac:(lia)) as E. pose proof (Z.mod_pos_bound p U HU) as R.
  pose proof (Z.div_mod U 2 ltac:(lia)) as E2. symmetry. destruct (Z.leb_spec (U / 2) (p mod U)).
  - apply Z.div_unique with (p mod U + U / 2 - U); [left; lia|lia].
  - apply Z.div_unique with (p mod U + U / 2); [left; lia|lia].
Qed.

Lemma rounding_ok dmr tmp : tmp_ok tmp -> val BASE tmp < TMP_MAX ->
  let m := mul_mag dmr (val BASE tmp) in
  exists t over,
    (if (FRACTION_RANK =? 0)%nat then (tmp, false)
     else match dmr with
          | DMR_FLOOR => (tmp, false)
          | DMR_ROUND => MulTmpArray_round tmp
          | DMR_CEIL => MulTmpArray_ceil tmp
          end) = (t, over) /\
    over = (MAX_VALUE <=? m) /\ (over = false -> tmp_ok t /\ val BASE t / fraction_unit = m /\ val BASE t < TMP_MAX).
Proof.
  intros T M. cbv zeta. pose proof tmp_max as TM. fold fraction_unit in TM. pose proof fraction_unit_pos as U.
  assert ((MAX_VALUE <=? val BASE tmp / fraction_unit) = false) as F0
    by (rewrite le_div_iff, <- TM by easy; now apply Z.leb_gt).
  destruct (Nat.eqb_spec FRACTION_RANK 0) as [Z0|N].
  - assert (fraction_unit = 1) as U1 by (unfold fraction_unit; now rewrite Z0).
    assert (mul_mag dmr (val BASE tmp) = val BASE tmp / fraction_unit) as ->.
    { unfold mul_mag. rewrite U1, Z.mod_1_r. pose proof (base_pow cut_index). unfold ceil_unit.
      destruct dmr; [easy|now rewrite Z.add_0_r|]. rewrite (proj2 (Z.ltb_lt _ _)) by easy. lia. }
    do 2 eexists. split; [reflexivity|]. split; [now rewrite F0|]. intros _. split; [exact T|]. split; [reflexivity|exact M].
  - assert (0 < FRACTION_RANK)%nat as P by lia. destruct (cut_facts P) as (E & E2 & Lp & Dv & Up).
    pose proof (cut_digits tmp (proj2 T) P) as Cd. unfold mul_mag. destruct dmr.
    + do 2 eexists. split; [reflexivity|]. split; [now rewrite F0|]. intros _. split; [exact T|]. split; [reflexivity|exact M].
    + rewrite round_split by (try easy; rewrite E; rewrite Z.mul_mod, E2, Z.mul_0_r by lia; reflexivity).
      assert ((if FRACTION_REMAINDER =? 1 then BASE / 2 <=? at_cell tmp (FRACTION_END - 1)
        else FRACTION_REMAINDER / 2 <=? at_cell tmp FRACTION_END mod FRACTION_REMAINDER) =
        (fraction_unit / 2 <=? val BASE tmp mod fraction_unit)) as Eb.
      { transitivity (cut_limit / 2 <=? val BASE tmp mod fraction_unit / ceil_unit).
        - rewrite <- Cd. unfold cut_limit. now destruct (FRACTION_REMAINDER =? 1).
        - rewrite le_div_iff by easy. f_equal. rewrite E. pose proof (Z.div_mod cut_limit 2) as Dc. rewrite E2 in Dc.
          specialize (Dc ltac:(discriminate)). apply Z.div_unique with 0; [left; lia|].
          rewrite Dc at 1. ring. }
      unfold MulTmpArray_round. rewrite Eb. apply rounded_ok; easy.
    + unfold MulTmpArray_ceil. rewrite Cd.
      replace (negb (val BASE tmp mod fraction_unit / ceil_unit =? 0))
        with (ceil_unit <=? val BASE tmp mod fraction_unit).
      2:{ rewrite <- (Z.mul_1_l ceil_unit) at 1. rewrite <- le_div_iff by easy.
          assert (0 <= val BASE tmp mod fraction_unit / ceil_unit)
            by (apply Z.div_pos; [apply Z.mod_pos_bound; lia|lia]). apply eq_true_iff_eq.
          rewrite Z.leb_le, negb_true_iff, Z.eqb_neq. lia. }
      pose proof (rounded_ok (ceil_unit <=? val BASE tmp mod fraction_unit) tmp T M P) as R. cbv zeta in R.
      rewrite Z.ltb_antisym. destruct (ceil_unit <=? _); exact R.
Qed.

(** ** The upper part *)

Lemma export_size : (FRACTION_END + SIZE <= TMP_SIZE)%nat.
Proof.
  pose proof tmp_size as [_ S]. pose proof tmp_rank. pose proof size_facts as (_ & Sl & _).
  pose proof fraction_split as [Es _]. pose proof digits_per_element_pos as Dp.
  assert ((FRACTION_END + SIZE - 1) * DIGITS_PER_ELEMENT < TMP_SIZE * DIGITS_PER_ELEMENT)%nat as H1
    by (pose proof size_pos; replace (FRACTION_END + SIZE - 1)%nat with (FRACTION_END + (SIZE - 1))%nat by lia; lia).
  apply Nat.mul_lt_mono_pos_r in H1; [lia|easy].
Qed.

Lemma export_loop_ok n : forall cs last, cells BASE cs -> (n <= S (length cs))%nat -> 0 <= last < FRACTION_OVER ->
  exists t, export_loop n cs last = Ret t /\ length t = n /\ cells BASE t /\
    val BASE t = (last + FRACTION_OVER * val BASE cs) mod pw BASE n.
Proof.
  pose proof fraction_facts as (_ & B & R & O). pose proof base_ge as HB.
  induction n as [|n IH]; intros cs last C L Hl; cbn [export_loop].
  - exists []. rewrite pw_0, Z.mod_1_r. repeat split. constructor.
  - destruct cs as [|x cs].
    + cbn [length] in L. replace n with 0%nat by lia. exists [last]. rewrite pw_1. cbn [val].
      rewrite !Z.mul_0_r, Z.add_0_r, Z.mod_small by lia. repeat split. constructor; [unfold is_cell; lia|constructor].
    + inversion C as [|? ? Cx C']; subst. unfold is_cell in Cx. cbn [length] in L.
      assert (0 <= x / FRACTION_REMAINDER < FRACTION_OVER) as Q
        by (split; [apply Z.div_pos; lia|apply Z.div_lt_upper_bound; lia]).
      destruct (IH cs (x / FRACTION_REMAINDER) C' ltac:(lia) Q) as (t & -> & Lt & Ct & Vt). cbn [bind].
      assert (0 < FRACTION_REMAINDER) as Rp by lia. pose proof (Z.mod_pos_bound x FRACTION_REMAINDER Rp) as Rx.
      assert (0 <= x mod FRACTION_REMAINDER * FRACTION_OVER <= BASE - FRACTION_OVER) as Rc.
      { split; [apply Z.mul_nonneg_nonneg; lia|]. apply Z.le_trans with ((FRACTION_REMAINDER - 1) * FRACTION_OVER);
          [apply Z.mul_le_mono_nonneg_r; lia|lia]. }
      rewrite Element_small by lia. eexists. split; [reflexivity|]. split; [cbn [length]; now rewrite Lt|].
      split; [constructor; [unfold is_cell; lia|exact Ct]|]. cbn [val]. rewrite Vt, pw_S.
      pose proof (base_pow n). rewrite div_mod_mul by lia. pose proof (Z.div_mod x FRACTION_REMAINDER) as Ex.
      specialize (Ex ltac:(lia)).
      assert (FRACTION_OVER * x = x mod FRACTION_REMAINDER * FRACTION_OVER + x / FRACTION_REMAINDER * BASE) as Eo
        by (rewrite Ex at 1; rewrite <- B; ring).
      replace (last + FRACTION_OVER * (x + BASE * val BASE cs))
        with (last + x mod FRACTION_REMAINDER * FRACTION_OVER +
              (x / FRACTION_REMAINDER + FRACTION_OVER * val BASE cs) * BASE) by lia.
      set (y := last + x mod FRACTION_REMAINDER * FRACTION_OVER) in *.
      rewrite Z.mod_add, Z.div_add, (Z.mod_small y), (Z.div_small y) by lia. reflexivity.
Qed.

Lemma export_ok tmp : tmp_ok tmp -> val BASE tmp < TMP_MAX ->
  exists a, MulTmpArray_export_to tmp = Ret a /\ array_ok a /\ val BASE a = val BASE tmp / fraction_unit.
Proof.
  intros [L C] M. pose proof base_ge as HB. pose proof export_size as Es. pose proof fraction_facts as (E & B & R & O).
  fold fraction_unit in E. pose proof fraction_unit_pos as U. pose proof (base_pow FRACTION_END) as Pe.
  pose proof (val_nonneg BASE HB tmp C) as Vn. pose proof max_value_base as Mb. pose proof tmp_max as TM. fold fraction_unit in TM.
  assert (0 <= val BASE tmp / fraction_unit < pw BASE SIZE) as Q.
  { split; [apply Z.div_pos; lia|]. apply Z.lt_le_trans with MAX_VALUE; [|exact Mb]. apply div_lt_iff; lia. }
  unfold MulTmpArray_export_to. destruct (Z.eqb_spec FRACTION_REMAINDER 1) as [F1|N].
  - rewrite (proj2 (Nat.leb_le _ _) Es). eexists. split; [reflexivity|]. split.
    + split; [rewrite length_firstn, length_skipn; lia|now apply cells_firstn, cells_skipn].
    + rewrite val_firstn, val_skipn by (try apply cells_skipn; easy). rewrite F1, Z.mul_1_r in E. rewrite <- E.
      now apply Z.mod_small.
  - assert (0 <= at_cell tmp FRACTION_END / FRACTION_REMAINDER < FRACTION_OVER) as Hl.
    { pose proof (cells_nth BASE HB tmp FRACTION_END C) as Cx. unfold is_cell, at_cell in *.
      split; [apply Z.div_pos; lia|apply Z.div_lt_upper_bound; lia]. }
    assert (SIZE <= S (length (skipn (FRACTION_END + 1) tmp)))%nat as Ls by (rewrite length_skipn; lia).
    destruct (export_loop_ok SIZE _ _ (cells_skipn BASE tmp (FRACTION_END + 1) C) Ls Hl) as (t & -> & Lt & Ct & Vt).
    eexists. split; [reflexivity|]. split; [split; easy|]. rewrite Vt, val_skipn by easy.
    rewrite <- (Z.mod_small _ _ Q). f_equal. unfold at_cell. rewrite (val_nth BASE) by easy.
    rewrite E, <- div_div_mul by lia. rewrite (pw_add BASE FRACTION_END 1), pw_1, <- (div_div_mul _ (pw BASE FRACTION_END)) by lia.
    set (h := val BASE tmp / pw BASE FRACTION_END). pose proof (Z.div_mod h BASE base_nonzero) as Eh.
    assert (FRACTION_OVER * (h / BASE) * FRACTION_REMAINDER = BASE * (h / BASE)) as Eq
      by (set (q := h / BASE); rewrite <- B; ring).
    transitivity ((h mod BASE + FRACTION_OVER * (h / BASE) * FRACTION_REMAINDER) / FRACTION_REMAINDER);
      [rewrite Z.div_add by lia; reflexivity|f_equal; lia].
Qed.

Lemma mul_ok a b dmr : wf a -> wf b ->
  let m := mul_mag dmr (magnitude a * magnitude b) in
  if m <? MAX_VALUE
  then exists r, mul a b dmr = Ret r /\ wf r /\ negative_ r = xorb (negative_ a) (negative_ b) /\ magnitude r = m
  else mul a b dmr = Throw Overflow.
Proof.
  intros Wa Wb. cbv zeta. unfold mul. pose proof (wf_range a Wa) as Ra. pose proof (wf_range b Wb) as Rb.
  pose proof tmp_max as TM. fold fraction_unit in TM. pose proof fraction_unit_pos as U.
  assert (tmp_ok (repeat 0 TMP_SIZE)) as T0 by (split; [apply repeat_length|apply cells_zeros, base_ge]).
  assert (val BASE (repeat 0 TMP_SIZE) < TMP_MAX) as M0.
  { rewrite val_zeros. apply pw_pos. lia. }
  pose proof (mul_rows_ok (array_ a) (array_ b) (proj2 (proj1 Wa)) (proj2 (proj1 Wb)) 0 _ T0 M0) as R.
  rewrite val_zeros, pw_0, Z.mul_1_r, Z.add_0_l in R. fold (magnitude a) (magnitude b) in R.
  set (p := magnitude a * magnitude b) in *. assert (0 <= p) by (apply Z.mul_nonneg_nonneg; lia).
  unfold product_result in R. destruct (Z.ltb_spec p TMP_MAX) as [L|L].
  - destruct R as (t & -> & Tt & <-). cbn [bind]. destruct (rounding_ok dmr t Tt L) as (t' & over & -> & Eo & Ok).
    rewrite Z.ltb_antisym, <- Eo. destruct over; cbn [negb]; [easy|]. destruct (Ok eq_refl) as (Tt' & Vt' & Mt').
    destruct (export_ok t' Tt' Mt') as (r & -> & Ar & Vr). cbn [bind]. eexists. split; [reflexivity|].
    unfold wf, magnitude. cbn [array_ negative_]. rewrite Vr, Vt'. symmetry in Eo. apply Z.leb_gt in Eo. repeat split; try apply Ar. exact Eo.
  - rewrite R. cbn [bind]. rewrite (proj2 (Z.ltb_ge _ _)); [easy|].
    assert (MAX_VALUE <= p / fraction_unit) as G by (apply Z.div_le_lower_bound; lia).
    unfold mul_mag. destruct dmr; [exact G| |destruct (_ <? _); lia].
    apply Z.le_trans with (1 := G). apply Z.div_le_mono; [lia|]. pose proof (Z.div_pos fraction_unit 2). lia.
Qed.
End Array.

(** ** Properties *)

Section Properties.
Context {D : DecimalRanks} {Dok : DecimalRanksOk D}.

(** C8: the product is the exact one, brought to [FRACTION_RANK] digits by the
    rounding asked for, when that has at most [TOTAL_RANK] digits, and throws
    [Overflow] when it has more; its sign is that of the signs.  Rounding up
    looks only at the digits dropped from one element: it is the least upper
    bound when the fraction is not longer than an element. *)
Theorem big_decimal_mul a b dmr : wf a -> wf b ->
  let m := mul_mag dmr (magnitude a * magnitude b) in
  (if m <? MAX_VALUE
   then exists r, mul a b dmr = Ret r /\ wf r /\ negative_ r = xorb (negative_ a) (negative_ b) /\ magnitude r = m
   else mul a b dmr = Throw Overflow) /\
  ((FRACTION_RANK <= DIGITS_PER_ELEMENT)%nat -> dmr = DMR_CEIL ->
   m = (magnitude a * magnitude b + fraction_unit - 1) / fraction_unit).
Proof.
  intros Wa Wb. cbv zeta. split; [now apply mul_ok|]. intros L ->. unfold mul_mag.
  rewrite ceil_div by first [apply Z.mul_nonneg_nonneg; now apply magnitude_nonneg|apply fraction_unit_pos].
  f_equal. set (x := _ mod fraction_unit). assert (0 <= x) by (apply Z.mod_pos_bound, fraction_unit_pos).
  assert (ceil_unit = 1) as ->.
  { unfold ceil_unit, cut_index. pose proof fraction_split as [S M]. pose proof digits_per_element_pos.
    assert (FRACTION_END <= 1)%nat as E1 by nia. destruct (Z.eqb_spec FRACTION_REMAINDER 1) as [|N].
    - replace (FRACTION_END - 1)%nat with 0%nat by lia. apply pw_0.
    - assert (FRACTION_RANK mod DIGITS_PER_ELEMENT <> 0)%nat
        by (intros Z0; apply N; unfold FRACTION_REMAINDER; now rewrite Z0, pw_0).
      replace FRACTION_END with 0%nat by nia. apply pw_0. }
  destruct (Z.eqb_spec x 0) as [->|]; [reflexivity|]. now rewrite (proj2 (Z.ltb_ge _ _)) by lia.
Qed.

End Properties.

Lemma big_decimal_mul_witness :
  let a := mkDecimal true [5000000000000000; 0] in let b := mkDecimal false [999999999999999999; 7] in
  let m := mul_mag (D := D36_16) DMR_CEIL (magnitude (D := D36_16) a * magnitude (D := D36_16) b) in
  (if m <? MAX_VALUE (D := D36_16)
   then exists r, mul (D := D36_16) a b DMR_CEIL = Ret r /\ wf (D := D36_16) r /\
     negative_ r = xorb (negative_ a) (negative_ b) /\ magnitude (D := D36_16) r = m
   else mul (D := D36_16) a b DMR_CEIL = Throw Overflow) /\
  ((FRACTION_RANK (DecimalRanks := D36_16) <= DIGITS_PER_ELEMENT (D := D36_16))%nat -> DMR_CEIL = DMR_CEIL ->
   m = (magnitude (D := D36_16) a * magnitude (D := D36_16) b + fraction_unit (D := D36_16) - 1) / fraction_unit (D := D36_16)).
Proof.
  apply (big_decimal_mul (D := D36_16) (mkDecimal true [5000000000000000; 0]) (mkDecimal false [999999999999999999; 7]) DMR_CEIL);
    (split; [split; [reflexivity|repeat constructor; vm_compute; easy]|vm_compute; easy]).
Defined.

(** With ten digits after the point, 0.0000000001 times 0.01 rounds up to zero:
    the digit that is not zero is in an element that is not looked at. *)
Example mul_ceil_lost :
  mul (D := D20_10) (mkDecimal false [1; 0; 0]) (mkDecimal false [100000000; 0; 0]) DMR_CEIL =
    Ret (mkDecimal false [0; 0; 0]).
Proof. vm_compute. reflexivity. Qed.
