(* ===== verification/DecimalDiv.v ===== *)
(** * DecimalDiv: the division of [Generics::Decimal]

    [div_] and both [div] of Decimal.tpp, with the arrays they work on
    ([DivTmpArrayBase], [DivTmpDividend], [DivTmpDivisor]).  The dividend, with
    the digits of the fraction added below, is divided in place, one element of
    the quotient at a time; each element is guessed from the highest elements
    and corrected.  The last part is about all operations: what a decimal can
    be. *)

From Stdlib Require Import ZArith List Bool Lia.
From S2P Require Import Prelude Ascii Numbers SubString Radix CommonDecimal Decimal DecimalPower DecimalText DecimalMul.
Import ListNotations.

(** [DivTmpArrayBase]: the elements and the two sizes. *)
Record DivTmp : Type := mkDivTmp { tmp_array_ : list Z; size_ : nat; initial_size_ : nat }.

Section Division.
Context {D : DecimalRanks}.

(** The quotient and the remainder. *)
Definition div_elements_ (major minor divisor : Z) : outcome (Z * Z) :=
  '(q, r) <- div_base narrow_element major minor BASE divisor ;;
  Ret (Element q, Element r).

(** ** DivTmpArrayBase *)

Fixpoint shrink_loop (a : list Z) (size : nat) : nat :=
  match size with
  | S (S n as size') => if at_cell a size' =? 0 then shrink_loop a size' else size
  | _ => size
  end.

Definition shrink (t : DivTmp) : DivTmp :=
  let size := shrink_loop (tmp_array_ t) (size_ t) in
  mkDivTmp (tmp_array_ t) size (if (initial_size_ t =? 0)%nat then size else initial_size_ t).

Fixpoint mul_loop (cells : list Z) (multiplicator overflow : Z) : outcome (list Z * Z) :=
  match cells with
  | [] => Ret ([], overflow)
  | x :: cells' =>
      '(result, over) <- mul_elements_ x multiplicator ;;
      let result := Element (result + overflow) in
      let '(result, over) := if BASE <=? result then (result - BASE, Element (over + 1)) else (result, over) in
      '(t, overflow) <- mul_loop cells' multiplicator over ;;
      Ret (result :: t, overflow)
  end.

Definition DivTmp_mul (t : DivTmp) (multiplicator : Z) : outcome DivTmp :=
  '(low, overflow) <- mul_loop (firstn (size_ t) (tmp_array_ t)) multiplicator 0 ;;
  let a := low ++ skipn (size_ t) (tmp_array_ t) in
  if negb (overflow =? 0) then
    a <- wr a (size_ t) overflow ;;
    Ret (mkDivTmp a (S (size_ t)) (initial_size_ t))
  else Ret (mkDivTmp a (size_ t) (initial_size_ t)).

(** The elements from the highest one down: the quotients and the remainder. *)
Fixpoint div_loop (cells : list Z) (divisor : Z) : outcome (list Z * Z) :=
  match cells with
  | [] => Ret ([], 0)
  | x :: cells' =>
      '(t, r) <- div_loop cells' divisor ;;
      '(q, r) <- div_elements_ r x divisor ;;
      Ret (q :: t, r)
  end.

Definition DivTmp_div (t : DivTmp) (divisor : Z) : outcome (DivTmp * Z) :=
  '(low, r) <- div_loop (firstn (size_ t) (tmp_array_ t)) divisor ;;
  Ret (shrink (mkDivTmp (low ++ skipn (size_ t) (tmp_array_ t)) (size_ t) (initial_size_ t)), r).

(** ** DivTmpDividend *)

Definition DIV_TMP_FRACTION_RANK : nat := (2 * FRACTION_RANK)%nat.
Definition DIV_TMP_TOTAL_RANK : nat := (INTEGER_RANK + DIV_TMP_FRACTION_RANK + DIGITS_PER_ELEMENT)%nat.
Definition DIV_TMP_SIZE : nat :=
  (DIV_TMP_TOTAL_RANK / DIGITS_PER_ELEMENT + (if (DIV_TMP_TOTAL_RANK mod DIGITS_PER_ELEMENT =? 0) then 0 else 1))%nat.

(** The elements shifted by the digits of [FRACTION_REMAINDER]. *)
Fixpoint dividend_loop (cells : list Z) (over : Z) : list Z :=
  match cells with
  | [] => [over]
  | x :: cells' => Element (x mod FRACTION_OVER * FRACTION_REMAINDER + over) :: dividend_loop cells' (x / FRACTION_OVER)
  end.

Definition DivTmpDividend_new (dividend : Decimal) : DivTmp :=
  let low := repeat 0 FRACTION_END ++
    (if FRACTION_REMAINDER =? 1 then array_ dividend else dividend_loop (array_ dividend) 0) in
  mkDivTmp (low ++ repeat 0 (DIV_TMP_SIZE - length low)) DIV_TMP_SIZE 0.

(** The loop of [guess_next_quotient]; three turns are enough for a divisor that
    was scaled ([guess_loop_ok]). *)
Fixpoint guess_loop (fuel : nat) (a : list Z) (index : nat) (max_div pre_max_div : Z) (guess_high guess r : Z) : outcome Z :=
  if r <? BASE then
    match fuel with
    | O => Undef
    | S fuel' =>
        '(minor, major) <- mul_elements_ pre_max_div guess ;;
        let major := Element (major + guess_high * pre_max_div) in
        below <- rd a (index - 2) ;;
        if ((major <? r) || ((major =? r) && (minor <=? below))) && (negb (guess_high =? 1) || negb (guess =? 0))
        then Ret guess
        else if guess =? 0
        then guess_loop fuel' a index max_div pre_max_div (Element (guess_high - 1)) (BASE - 1) (Element (r + max_div))
        else guess_loop fuel' a index max_div pre_max_div guess_high (guess - 1) (Element (r + max_div))
    end
  else Ret guess.

Definition guess_next_quotient (t : DivTmp) (index : nat) (max_div pre_max_div : Z) : outcome Z :=
  top <- rd (tmp_array_ t) index ;;
  next <- rd (tmp_array_ t) (index - 1) ;;
  if max_div <=? top then
    '(guess, r) <- div_elements_ (top - max_div) next max_div ;;
    guess_loop 3 (tmp_array_ t) index max_div pre_max_div 1 guess r
  else
    '(guess, r) <- div_elements_ top next max_div ;;
    guess_loop 3 (tmp_array_ t) index max_div pre_max_div 0 guess r.

(** [target[i] -= temp] and the borrow. *)
Definition borrow_cell (target temp : Z) : Z * Z :=
  if target <? temp then (Element (target + (BASE - temp)), 1) else (target - temp, 0).

(** The loop over the elements of the divisor and the element after it: the
    elements of [target] and the last borrow. *)
Fixpoint apply_loop (target divisor : list Z) (guess carry borrow : Z) : outcome (list Z * Z) :=
  match target, divisor with
  | x :: target', d :: divisor' =>
      '(temp, temp2) <- mul_elements_ d guess ;;
      let temp := Element (temp + carry) in
      let '(temp, carry) := if BASE <=? temp then (temp - BASE, Element (temp2 + 1)) else (temp, temp2) in
      let '(x, borrow) := borrow_cell x (Element (temp + borrow)) in
      '(t, borrow) <- apply_loop target' divisor' guess carry borrow ;;
      Ret (x :: t, borrow)
  | x :: target', [] =>
      let '(x, borrow) := borrow_cell x (Element (carry + borrow)) in
      Ret (x :: target', borrow)
  | [], _ => Undef
  end.

Definition apply_next_quotient (t : DivTmp) (index : nat) (guess : Z) (divisor : DivTmp) : outcome (DivTmp * bool) :=
  '(target, borrow) <- apply_loop (skipn index (tmp_array_ t)) (firstn (initial_size_ divisor) (tmp_array_ divisor)) guess 0 0 ;;
  Ret (mkDivTmp (firstn index (tmp_array_ t) ++ target) (size_ t) (initial_size_ t), negb (borrow =? 0)).

Fixpoint fix_loop (target divisor : list Z) (carry : Z) : outcome (list Z) :=
  match target, divisor with
  | x :: target', d :: divisor' =>
      let temp := Element (x + d + carry) in
      let '(x, carry) := if BASE <=? temp then (temp - BASE, 1) else (temp, 0) in
      t <- fix_loop target' divisor' carry ;;
      Ret (x :: t)
  | x :: target', [] => Ret (Element (x - (BASE - carry)) :: target')
  | [], _ => Undef
  end.

Definition fix_next_quotient (t : DivTmp) (index : nat) (divisor : DivTmp) : outcome DivTmp :=
  target <- fix_loop (skipn index (tmp_array_ t)) (firstn (initial_size_ divisor) (tmp_array_ divisor)) 0 ;;
  Ret (mkDivTmp (firstn index (tmp_array_ t) ++ target) (size_ t) (initial_size_ t)).

(** [DivTmpDividend::export_to]: [None] is an overflow. *)
Definition DivTmpDividend_export_to (t : DivTmp) : option (list Z) :=
  if INTEGER_MAX_OVER <=? at_cell (tmp_array_ t) (SIZE - 1) then None
  else if existsb (fun x => negb (x =? 0)) (skipn SIZE (tmp_array_ t)) then None
  else Some (firstn SIZE (tmp_array_ t)).

(** ** DivTmpDivisor *)

Definition DivTmpDivisor_new (divider : Decimal) : DivTmp := mkDivTmp (array_ divider ++ [0]) (SIZE + 1) 0.

Definition max_element (t : DivTmp) : Z := at_cell (tmp_array_ t) (size_ t - 1).
Definition pre_max_element (t : DivTmp) : Z := at_cell (tmp_array_ t) (size_ t - 2).

(** ** div_ *)

(** One element of the quotient. *)
Definition next_quotient (dividend : DivTmp) (divisor : DivTmp) (i : nat) (max_div pre_max_div : Z) : outcome (Z * DivTmp) :=
  guess <- guess_next_quotient dividend (i + initial_size_ divisor) max_div pre_max_div ;;
  '(dividend, over) <- apply_next_quotient dividend i guess divisor ;;
  if (over : bool) then
    dividend <- fix_next_quotient dividend i divisor ;;
    Ret (guess - 1, dividend)
  else Ret (guess, dividend).

(** The loop over the elements from index [n - 1] down; [quotient] holds those
    found, the lowest one first. *)
Fixpoint quotient_loop (n : nat) (dividend divisor : DivTmp) (max_div pre_max_div : Z) (quotient : list Z)
  : outcome (DivTmp * list Z) :=
  match n with
  | O => Ret (dividend, quotient)
  | S i =>
      '(guess, dividend) <- next_quotient dividend divisor i max_div pre_max_div ;;
      if (i =? SIZE)%nat then
        if negb (guess =? 0) then Throw Overflow
        else quotient_loop i dividend divisor max_div pre_max_div quotient
      else if (i =? SIZE - 1)%nat && (INTEGER_MAX_OVER <=? guess) then Throw Overflow
      else quotient_loop i (shrink dividend) divisor max_div pre_max_div (guess :: quotient)
  end.

Definition scale_up (t : DivTmp) (scale : Z) : outcome DivTmp := if 1 <? scale then DivTmp_mul t scale else Ret t.

(** The division by more than one element. *)
Definition slow_div (dividend divisor : DivTmp) : outcome (list Z) :=
  let scale := BASE / (max_element divisor + 1) in
  dividend <- scale_up dividend scale ;;
  divisor <- scale_up divisor scale ;;
  let max_div := max_element divisor in
  let pre_max_div := pre_max_element divisor in
  let i := (initial_size_ dividend - initial_size_ divisor)%nat in
  if (SIZE <? i)%nat then Throw Overflow
  else
    '(dividend, quotient) <- quotient_loop (S i) dividend divisor max_div pre_max_div (repeat 0 (SIZE - S i)) ;;
    if 1 <? scale then
      '(_, junk) <- DivTmp_div dividend scale ;;
      if junk =? 0 then Ret quotient else Undef
    else Ret quotient.

(** The result says whether the remainder is the dividend. *)
Definition div_ (dividend divisor : Decimal) : outcome (bool * Decimal) :=
  let divisor_tmp := shrink (DivTmpDivisor_new divisor) in
  let max_div := max_element divisor_tmp in
  if max_div =? 0 then Throw Overflow
  else
    let dividend_tmp := shrink (DivTmpDividend_new dividend) in
    let negative := xorb (negative_ dividend) (negative_ divisor) in
    if (size_ dividend_tmp <? size_ divisor_tmp)%nat then Ret (true, mkDecimal negative (repeat 0 SIZE))
    else if (size_ divisor_tmp =? 1)%nat then
      '(dividend_tmp, _) <- DivTmp_div dividend_tmp max_div ;;
      match DivTmpDividend_export_to dividend_tmp with
      | None => Throw Overflow
      | Some array => Ret (false, mkDecimal negative array)
      end
    else
      array <- slow_div dividend_tmp divisor_tmp ;;
      Ret (false, mkDecimal negative array).

(** [div] with a remainder: the quotient and the remainder. *)
Definition div_rem (dividend divisor : Decimal) : outcome (Decimal * Decimal) :=
  '(whole, quotient) <- div_ dividend divisor ;;
  if (whole : bool) then Ret (quotient, dividend)
  else
    product <- mul quotient divisor DMR_FLOOR ;;
    remainder <- sub dividend product ;;
    Ret (quotient, remainder).

Definition EPSILON : outcome Decimal :=
  Decimal_parts false (if (FRACTION_RANK =? 0)%nat then 1 else 0) (if (FRACTION_RANK =? 0)%nat then 0 else 1).

(** [div] with a rounding. *)
Definition div (dividend divisor : Decimal) (ddr : DecimalDivRemainder) : outcome Decimal :=
  '(_, quotient) <- div_ dividend divisor ;;
  match ddr with
  | DDR_FLOOR => Ret quotient
  | DDR_CEIL =>
      product <- mul quotient divisor DMR_FLOOR ;;
      if negb (dec_eq dividend product) then
        epsilon <- EPSILON ;;
        let '(array, overflow) := internal_add_ quotient epsilon in
        if (overflow : bool) then Throw Overflow else Ret (mkDecimal (negative_ quotient) array)
      else Ret quotient
  end.

End Division.

(** ** The arrays *)

Section Arrays.
Context {D : DecimalRanks} {Dok : DecimalRanksOk D}.

Lemma div_elements_ok r x d : 0 <= r < d -> d <= BASE -> is_cell BASE x ->
  div_elements_ r x d = Ret ((r * BASE + x) / d, (r * BASE + x) mod d).
Proof.
  unfold is_cell. intros Hr Hd Hx. pose proof base_ge as B. assert (0 <= r * BASE) as Pr by (apply Z.mul_nonneg_nonneg; lia).
  assert (r * BASE + x < d * BASE) as P.
  { apply Z.lt_le_trans with ((r + 1) * BASE); [lia|]. apply Z.mul_le_mono_nonneg_r; lia. }
  assert (0 < d) as Pd by lia. pose proof (Z.mod_pos_bound (r * BASE + x) d Pd) as Rm.
  assert (0 <= (r * BASE + x) / d < BASE) as Q by (split; [apply Z.div_pos; lia|apply Z.div_lt_upper_bound; lia]).
  pose proof narrow_base as N.
  pose proof base_facts as BF. unfold div_elements_, div_base. destruct narrow_element.
  - destruct N as [|N]; [easy|]. assert (d * BASE <= BASE * BASE) by (apply Z.mul_le_mono_nonneg_r; lia).
    rewrite (wrapu_small 64 (r * BASE)), wrapu_small, (proj2 (Z.eqb_neq _ _)) by lia. cbn [bind].
    now rewrite !Element_small by lia.
  - rewrite Z.shiftr_div_pow2 by lia. assert ((r * BASE + x) / 2 ^ 64 < d) as H.
    { apply Z.div_lt_upper_bound; [lia|]. apply Z.lt_le_trans with (d * BASE); [exact P|].
      rewrite Z.mul_comm. apply Z.mul_le_mono_nonneg_r; lia. }
    rewrite (proj2 (Z.leb_gt _ _) H). cbn [bind]. now rewrite !Element_small by lia.
Qed.

(** The elements from [size_] on are zero. *)
Definition tmp_wf (t : DivTmp) : Prop :=
  cells BASE (tmp_array_ t) /\ (1 <= size_ t <= length (tmp_array_ t))%nat /\
  val BASE (tmp_array_ t) < pw BASE (size_ t).

Definition tmp_val (t : DivTmp) : Z := val BASE (tmp_array_ t).

Lemma tmp_nonneg t : tmp_wf t -> 0 <= tmp_val t.
Proof. intros (C & _). apply (val_nonneg BASE base_ge _ C). Qed.

Lemma tmp_low t : tmp_wf t ->
  val BASE (firstn (size_ t) (tmp_array_ t)) = tmp_val t /\
  skipn (size_ t) (tmp_array_ t) = repeat 0 (length (tmp_array_ t) - size_ t) /\
  length (firstn (size_ t) (tmp_array_ t)) = size_ t /\ cells BASE (firstn (size_ t) (tmp_array_ t)).
Proof.
  intros (C & L & V). pose proof base_ge as HB. split; [|split; [|split]].
  - rewrite val_firstn by easy. apply Z.mod_small. split; [apply val_nonneg; easy|exact V].
  - apply (val_top BASE HB _ _ C V).
  - rewrite length_firstn. lia.
  - now apply cells_firstn.
Qed.

Lemma shrink_loop_ok a size : cells BASE a -> (1 <= size)%nat -> val BASE a < pw BASE size ->
  let s := shrink_loop a size in
  (1 <= s <= size)%nat /\ val BASE a < pw BASE s /\ ((1 < s)%nat -> pw BASE (s - 1) <= val BASE a).
Proof.
  intros C. pose proof base_ge as HB. induction size as [|size IH]; intros L V; [lia|]. cbv zeta.
  destruct size as [|size]; [cbn [shrink_loop]; repeat split; try lia; exact V|].
  cbn [shrink_loop]. unfold at_cell. destruct (Z.eqb_spec (nth (S size) a 0) 0) as [Z0|N].
  - assert (val BASE a < pw BASE (S size)) as V'.
    { rewrite (val_nth BASE HB) in Z0 by easy. pose proof (base_pow (S size)) as P.
      pose proof (val_nonneg BASE HB a C). rewrite Z.mod_small in Z0.
      - apply Z.div_small_iff in Z0; lia.
      - split; [apply Z.div_pos; lia|]. apply Z.div_lt_upper_bound; [lia|]. rewrite Z.mul_comm, <- pw_S. exact V. }
    specialize (IH ltac:(lia) V'). cbv zeta in IH. destruct IH as (I1 & I2 & I3).
    split; [|split; [exact I2|exact I3]]. split; [apply I1|]. apply Nat.le_trans with (1 := proj2 I1). lia.
  - split; [lia|]. split; [exact V|]. intros _. replace (S (S size) - 1)%nat with (S size) by lia.
    apply (val_top_nonzero BASE HB a (S size) C N).
Qed.

Lemma shrink_ok t : tmp_wf t ->
  tmp_wf (shrink t) /\ tmp_array_ (shrink t) = tmp_array_ t /\
  ((1 < size_ (shrink t))%nat -> pw BASE (size_ (shrink t) - 1) <= tmp_val t) /\
  (initial_size_ t = 0%nat -> initial_size_ (shrink t) = size_ (shrink t)) /\
  (initial_size_ t <> 0%nat -> initial_size_ (shrink t) = initial_size_ t).
Proof.
  intros (C & L & V). destruct (shrink_loop_ok (tmp_array_ t) (size_ t) C ltac:(lia) V) as (S1 & S2 & S3).
  unfold shrink, tmp_wf, tmp_val. cbn [tmp_array_ size_ initial_size_].
  split; [repeat split; try lia; auto|]. split; [reflexivity|]. split; [exact S3|].
  split; intros H; destruct (Nat.eqb_spec (initial_size_ t) 0); congruence.
Qed.

Lemma mul_loop_ok cs m : cells BASE cs -> is_cell BASE m -> forall o, is_cell BASE o ->
  exists t o', mul_loop cs m o = Ret (t, o') /\ length t = length cs /\ cells BASE t /\ is_cell BASE o' /\
    val BASE t + o' * pw BASE (length cs) = val BASE cs * m + o.
Proof.
  intros C Cm. pose proof base_ge as HB. pose proof Cm as Bm. unfold is_cell in Bm.
  induction C as [|x cs Cx C IH]; intros o Co; cbn [mul_loop].
  - exists [], o. cbn [length val]. rewrite pw_0. repeat split; try lia; [constructor|apply Co..].
  - rewrite mul_elements_ok by easy. cbn [bind]. unfold is_cell in Cx, Co.
    pose proof (Z.div_mod (x * m) BASE base_nonzero) as E. pose proof (base_mod (x * m)) as Rm.
    assert (0 <= x * m <= (BASE - 1) * (BASE - 1)) as P by (split; [apply Z.mul_nonneg_nonneg; lia|apply Z.mul_le_mono_nonneg; lia]).
    assert (0 <= x * m / BASE <= BASE - 2) as Q.
    { split; [apply Z.div_pos; lia|]. apply Z.lt_succ_r. apply Z.div_lt_upper_bound; lia. }
    rewrite Element_small by lia. set (y := x * m mod BASE + o) in *.
    pose proof (carry_split BASE y) as Cs. specialize (Cs ltac:(lia) ltac:(lia)). rewrite (Element_small (x * m / BASE + 1)) by lia.
    pose proof (base_mod y) as Ry. pose proof (Z.div_mod y BASE base_nonzero) as Ey.
    destruct (Z.leb_spec BASE y) as [L|L]; injection Cs as Cs1 Cs2.
    + destruct (IH (x * m / BASE + 1)) as (t & o' & -> & Lt & Ct & Co' & V); [unfold is_cell; lia|]. cbn [bind].
      do 2 eexists. split; [reflexivity|]. split; [cbn [length]; now rewrite Lt|].
      split; [constructor; [unfold is_cell; lia|easy]|]. split; [easy|]. cbn [val length]. rewrite pw_S. lia.
    + destruct (IH (x * m / BASE)) as (t & o' & -> & Lt & Ct & Co' & V); [unfold is_cell; lia|]. cbn [bind].
      do 2 eexists. split; [reflexivity|]. split; [cbn [length]; now rewrite Lt|].
      split; [constructor; [unfold is_cell; lia|easy]|]. split; [easy|]. cbn [val length]. rewrite pw_S. lia.
Qed.

Lemma DivTmp_mul_ok t m : tmp_wf t -> is_cell BASE m -> tmp_val t * m < pw BASE (length (tmp_array_ t)) ->
  exists t', DivTmp_mul t m = Ret t' /\ tmp_wf t' /\ length (tmp_array_ t') = length (tmp_array_ t) /\
    tmp_val t' = tmp_val t * m /\ initial_size_ t' = initial_size_ t /\
    (tmp_val t * m < pw BASE (size_ t) -> size_ t' = size_ t).
Proof.
  intros W Cm M. pose proof W as (C & L & V). destruct (tmp_low t W) as (Vl & Hz & Ll & Cl). pose proof base_ge as HB.
  assert (is_cell BASE 0) as C0 by (unfold is_cell; lia).
  destruct (mul_loop_ok _ m Cl Cm 0 C0) as (low & o & El & Lo & Co & Ho & E). rewrite Ll in E, Lo. rewrite Vl in E.
  unfold DivTmp_mul. rewrite El. cbn [bind]. clear El. rewrite Hz. set (zs := repeat 0 (length (tmp_array_ t) - size_ t)).
  pose proof (val_bound BASE HB low Co) as Bl. rewrite Lo in Bl. pose proof (base_pow (size_ t)) as Ps. unfold is_cell in Ho.
  assert (cells BASE (low ++ zs)) as Ca by (apply Forall_app; split; [easy|now apply cells_zeros]).
  assert (length (low ++ zs) = length (tmp_array_ t)) as La by (unfold zs; rewrite length_app, repeat_length; lia).
  assert (val BASE (low ++ zs) = val BASE low) as Va by (unfold zs; rewrite val_app, val_zeros; lia).
  destruct (Z.eqb_spec o 0) as [->|No]; cbn [negb].
  - eexists. split; [reflexivity|]. unfold tmp_wf, tmp_val. cbn [tmp_array_ size_ initial_size_]. rewrite La, Va. unfold tmp_val in E.
    repeat split; try lia. exact Ca.
  - assert (pw BASE (size_ t) <= tmp_val t * m) as G by nia.
    assert (size_ t < length (tmp_array_ t))%nat as Ls.
    { destruct (Nat.lt_ge_cases (size_ t) (length (tmp_array_ t))) as [|H]; [easy|].
      replace (length (tmp_array_ t)) with (size_ t) in M by lia. lia. }
    unfold wr. rewrite (proj2 (Nat.ltb_lt _ _)) by lia. cbn [bind]. eexists. split; [reflexivity|].
    assert (val BASE (upd (low ++ zs) (size_ t) o) = tmp_val t * m) as Vu.
    { rewrite val_upd, Va by lia. rewrite app_nth2 by lia. unfold zs. rewrite nth_repeat. lia. }
    unfold tmp_wf. cbn [tmp_array_ size_ initial_size_]. rewrite upd_length, La, Vu.
    split; [|split; [reflexivity|split; [exact Vu|split; [reflexivity|lia]]]]. split; [now apply cells_upd|]. split; [lia|].
    rewrite pw_S. assert (o * pw BASE (size_ t) <= (BASE - 1) * pw BASE (size_ t)) by (apply Z.mul_le_mono_nonneg_r; lia). lia.
Qed.

Lemma div_loop_ok cs d : cells BASE cs -> 0 < d <= BASE ->
  exists t, div_loop cs d = Ret (t, val BASE cs mod d) /\ length t = length cs /\ cells BASE t /\ val BASE t = val BASE cs / d.
Proof.
  intros C Hd. pose proof base_ge as HB. induction C as [|x cs Cx C IH]; cbn [div_loop val].
  - exists []. rewrite Z.mod_0_l, Z.div_0_l by lia. repeat split. constructor.
  - destruct IH as (t & -> & Lt & Ct & Vt). cbn [bind]. assert (0 < d) as Pd by lia.
    pose proof (Z.mod_pos_bound (val BASE cs) d Pd) as Rm. rewrite div_elements_ok by (try easy; lia). cbn [bind].
    pose proof (Z.div_mod (val BASE cs) d ltac:(lia)) as E. unfold is_cell in Cx.
    assert (x + BASE * val BASE cs = val BASE cs mod d * BASE + x + (val BASE cs / d * BASE) * d) as Ex by (rewrite E at 1; ring).
    rewrite Ex, Z.mod_add, Z.div_add by lia. eexists. split; [reflexivity|]. split; [cbn [length]; now rewrite Lt|].
    split; [|cbn [val]; rewrite Vt; lia]. constructor; [|easy]. unfold is_cell.
    assert (0 <= val BASE cs mod d * BASE) by (apply Z.mul_nonneg_nonneg; lia).
    split; [apply Z.div_pos; lia|]. apply Z.div_lt_upper_bound; [lia|].
    apply Z.lt_le_trans with ((val BASE cs mod d + 1) * BASE); [lia|]. apply Z.mul_le_mono_nonneg_r; lia.
Qed.

Lemma DivTmp_div_ok t d : tmp_wf t -> 0 < d <= BASE ->
  exists t', DivTmp_div t d = Ret (t', tmp_val t mod d) /\ tmp_wf t' /\
    length (tmp_array_ t') = length (tmp_array_ t) /\ tmp_val t' = tmp_val t / d.
Proof.
  intros W Hd. pose proof W as (C & L & V). destruct (tmp_low t W) as (Vl & Hz & Ll & Cl). pose proof base_ge as HB.
  destruct (div_loop_ok _ d Cl Hd) as (low & El & Lo & Co & Vo). rewrite Vl in El, Vo. unfold DivTmp_div.
  rewrite El. cbn [bind]. eexists. split; [reflexivity|]. rewrite Hz.
  set (a := low ++ repeat 0 (length (tmp_array_ t) - size_ t)).
  assert (length a = length (tmp_array_ t)) as La by (unfold a; rewrite length_app, repeat_length; lia).
  assert (val BASE a = tmp_val t / d) as Va by (unfold a; rewrite val_app, val_zeros; lia).
  assert (tmp_wf (mkDivTmp a (size_ t) (initial_size_ t))) as Wa.
  { unfold tmp_wf. cbn [tmp_array_ size_]. rewrite La, Va.
    split; [apply Forall_app; split; [easy|now apply cells_zeros]|]. split; [easy|].
    pose proof (tmp_nonneg t W). unfold tmp_val in *. apply Z.le_lt_trans with (2 := V). apply Z.div_le_upper_bound; [lia|]. nia. }
  destruct (shrink_ok _ Wa) as (Ws & Es & _). split; [exact Ws|]. rewrite Es. split; [exact La|].
  unfold tmp_val at 1. rewrite Es. exact Va.
Qed.

(** ** The operands *)

Lemma div_tmp_size : DIV_TMP_SIZE = S TMP_SIZE.
Proof.
  unfold DIV_TMP_SIZE, TMP_SIZE. change DIV_TMP_TOTAL_RANK with (TMP_TOTAL_RANK + DIGITS_PER_ELEMENT)%nat.
  pose proof digits_per_element_pos. rewrite <- (Nat.mul_1_l DIGITS_PER_ELEMENT) at 1 3.
  rewrite Nat.div_add, Nat.Div0.mod_add by lia. lia.
Qed.

Lemma dividend_loop_ok cs : cells BASE cs -> forall over, 0 <= over < FRACTION_REMAINDER ->
  length (dividend_loop cs over) = S (length cs) /\ cells BASE (dividend_loop cs over) /\
  val BASE (dividend_loop cs over) = over + FRACTION_REMAINDER * val BASE cs.
Proof.
  pose proof fraction_facts as (_ & B & R & O). induction 1 as [|x cs Cx C IH]; intros over Ho; cbn [dividend_loop].
  - cbn [length val]. repeat split; try lia. repeat constructor; lia.
  - unfold is_cell in Cx. assert (0 < FRACTION_OVER) as Fo by lia. pose proof (Z.mod_pos_bound x FRACTION_OVER Fo) as Rm.
    assert (0 <= x / FRACTION_OVER < FRACTION_REMAINDER) as Q by (split; [apply Z.div_pos; lia|apply Z.div_lt_upper_bound; lia]).
    destruct (IH (x / FRACTION_OVER) Q) as (L & Ct & V).
    assert (0 <= x mod FRACTION_OVER * FRACTION_REMAINDER <= (FRACTION_OVER - 1) * FRACTION_REMAINDER) as P
      by (split; [apply Z.mul_nonneg_nonneg; lia|apply Z.mul_le_mono_nonneg_r; lia]).
    rewrite Element_small by lia. split; [cbn [length]; now rewrite L|].
    split; [constructor; [unfold is_cell; lia|exact Ct]|]. cbn [val]. rewrite V.
    pose proof (Z.div_mod x FRACTION_OVER) as Ex. specialize (Ex ltac:(lia)). set (q := x / FRACTION_OVER) in *. set (r := x mod FRACTION_OVER) in *.
    rewrite Ex. rewrite <- B. ring.
Qed.

Lemma dividend_ok a : wf a ->
  let t := DivTmpDividend_new a in
  tmp_wf t /\ length (tmp_array_ t) = DIV_TMP_SIZE /\ tmp_val t = magnitude a * fraction_unit /\ initial_size_ t = 0%nat.
Proof.
  intros W. cbv zeta. pose proof W as [[L C] _]. pose proof base_ge as HB. pose proof fraction_facts as (E & B & R & O).
  fold fraction_unit in E. pose proof export_size as Es. pose proof div_tmp_size as Ds. pose proof tmp_size as [Tp _].
  assert (exists cs, (if FRACTION_REMAINDER =? 1 then array_ a else dividend_loop (array_ a) 0) = cs /\
    cells BASE cs /\ (FRACTION_END + length cs <= DIV_TMP_SIZE)%nat /\ val BASE cs = FRACTION_REMAINDER * magnitude a) as (cs & Ecs & Cc & Lc & Vc).
  { destruct (Z.eqb_spec FRACTION_REMAINDER 1) as [F1|N]; [rewrite F1|].
    - exists (array_ a). unfold magnitude. repeat split; try lia. exact C.
    - assert (0 <= 0 < FRACTION_REMAINDER) as H0 by lia. destruct (dividend_loop_ok (array_ a) C 0 H0) as (L1 & C1 & V1).
      eexists. split; [reflexivity|]. split; [exact C1|]. split; [lia|exact V1]. }
  set (low := repeat 0 FRACTION_END ++ cs). assert (length low = FRACTION_END + length cs)%nat as Ll by (unfold low; now rewrite length_app, repeat_length).
  assert (length (low ++ repeat 0 (DIV_TMP_SIZE - length low)) = DIV_TMP_SIZE) as La by (rewrite length_app, repeat_length; lia).
  assert (val BASE (low ++ repeat 0 (DIV_TMP_SIZE - length low)) = magnitude a * fraction_unit) as Va.
  { rewrite val_app, val_zeros. unfold low. rewrite val_app, val_zeros, repeat_length, Vc, E. ring. }
  assert (cells BASE (low ++ repeat 0 (DIV_TMP_SIZE - length low))) as Ca.
  { unfold low. repeat (apply Forall_app; split); try apply cells_zeros; easy. }
  pose proof (val_bound BASE HB _ Ca) as Vb. rewrite La in Vb.
  unfold tmp_wf, tmp_val, DivTmpDividend_new. cbn [tmp_array_ size_ initial_size_]. rewrite Ecs. fold low. rewrite La.
  split; [split; [exact Ca|split; [lia|apply Vb]]|]. split; [reflexivity|]. split; [exact Va|reflexivity].
Qed.

Lemma divisor_ok b : wf b ->
  let t := DivTmpDivisor_new b in
  tmp_wf t /\ length (tmp_array_ t) = (SIZE + 1)%nat /\ tmp_val t = magnitude b /\ initial_size_ t = 0%nat.
Proof.
  intros W. cbv zeta. pose proof W as [[L C] _]. pose proof base_ge as HB.
  assert (cells BASE (array_ b ++ [0])) as Ca by (apply Forall_app; split; [easy|repeat constructor; lia]).
  assert (val BASE (array_ b ++ [0]) = magnitude b) as Va by (unfold magnitude; rewrite val_app; cbn [val]; lia).
  assert (length (array_ b ++ [0%Z]) = SIZE + 1)%nat as La by (rewrite length_app, L; reflexivity).
  pose proof (val_bound BASE HB _ Ca) as Vb. rewrite La in Vb.
  unfold tmp_wf, tmp_val, DivTmpDivisor_new. cbn [tmp_array_ size_ initial_size_]. rewrite La.
  split; [split; [exact Ca|split; [lia|apply Vb]]|]. split; [reflexivity|]. split; [exact Va|reflexivity].
Qed.

(** ** The guess *)

(** The three highest elements [u2], [u1], [u0] of what is divided and the two
    highest [v1], [v0] of the divisor. *)
Section Guess.
Variables (a : list Z) (index : nat) (u2 u1 u0 v1 v0 : Z).
Hypothesis Hu2 : nth index a 0 = u2.
Hypothesis Hu1 : nth (index - 1) a 0 = u1.
Hypothesis Hu0 : nth (index - 2) a 0 = u0.
Hypothesis Hi : (2 <= index < length a)%nat.
Hypothesis Ca : cells BASE a.
Hypothesis Cv1 : is_cell BASE v1.
Hypothesis Cv0 : is_cell BASE v0.
Hypothesis Nv1 : BASE <= 2 * v1.

Let t2 : Z := u2 * BASE + u1.
Let t3 : Z := t2 * BASE + u0.
Let w2 : Z := v1 * BASE + v0.
Hypothesis Hq : t3 < (w2 + 1) * BASE.

(** The greatest element whose product with the two highest elements of the
    divisor is not above the three highest of the dividend. *)
Definition best_guess (g : Z) : Prop :=
  0 <= g < BASE /\ g * w2 <= t3 /\ forall q, q < BASE -> q * w2 <= t3 -> q <= g.

Lemma guess_cells : is_cell BASE u2 /\ is_cell BASE u1 /\ is_cell BASE u0 /\ u2 <= v1.
Proof using All.
  pose proof base_ge as HB. rewrite <- Hu2, <- Hu1, <- Hu0 in *.
  assert (is_cell BASE (nth index a 0) /\ is_cell BASE (nth (index - 1) a 0) /\ is_cell BASE (nth (index - 2) a 0)) as (C2 & C1 & C0)
    by (repeat split; apply (cells_nth BASE HB _ _ Ca)).
  repeat (split; [easy|]). unfold is_cell, t3, t2, w2 in *. rewrite Hu2 in *.
  destruct (Z.le_gt_cases u2 v1) as [|G]; [easy|]. exfalso.
  assert ((v1 + 1) * BASE * BASE <= u2 * BASE * BASE) by (repeat apply Z.mul_le_mono_nonneg_r; lia).
  assert (0 <= u1 * BASE) by (apply Z.mul_nonneg_nonneg; lia).
  rewrite Hu1, Hu0 in *. assert ((v0 + 1) * BASE <= BASE * BASE) by (apply Z.mul_le_mono_nonneg_r; lia). lia.
Qed.

(** The test of the loop: [g * w2 <= t3]. *)
Lemma guess_test (gh g r : Z) : 0 <= gh <= 1 -> is_cell BASE g -> (gh * BASE + g) * v1 + r = t2 -> r < BASE ->
  let minor := v0 * g mod BASE in
  let major := v0 * g / BASE + gh * v0 in
  ((major <? r) || ((major =? r) && (minor <=? u0))) = ((gh * BASE + g) * w2 <=? t3).
Proof using All.
  intros Hg Cg E L. cbv zeta. destruct guess_cells as (C2 & C1 & C0 & _). unfold is_cell in *.
  pose proof (Z.div_mod (v0 * g) BASE base_nonzero) as Ed. pose proof (base_mod (v0 * g)) as Rm.
  set (mi := v0 * g mod BASE) in *. set (ma := v0 * g / BASE) in *.
  assert ((gh * BASE + g) * w2 = (t2 - r) * BASE + (ma + gh * v0) * BASE + mi) as ->.
  { unfold w2. replace (t2 - r) with ((gh * BASE + g) * v1) by lia. nia. }
  unfold t3. set (mj := ma + gh * v0). apply eq_true_iff_eq.
  rewrite orb_true_iff, andb_true_iff, Z.ltb_lt, Z.eqb_eq, !Z.leb_le. split.
  - intros [H|[-> H]]; [|lia]. assert ((mj + 1) * BASE <= r * BASE) by (apply Z.mul_le_mono_nonneg_r; lia). lia.
  - intros H. destruct (Z.lt_trichotomy mj r) as [|[->|G]]; [now left|right; split; [easy|lia]|].
    assert ((r + 1) * BASE <= mj * BASE) by (apply Z.mul_le_mono_nonneg_r; lia). lia.
Qed.

(** The loop ends with a remainder that does not fit an element. *)
Lemma guess_exit (gh g r : Z) : 0 <= gh <= 1 -> is_cell BASE g -> BASE <= r ->
  (gh * BASE + g) * v1 + r = t2 -> (forall q, q < BASE -> q * w2 <= t3 -> q <= gh * BASE + g) -> best_guess g.
Proof using All.
  intros Hg Cg Hr E U. destruct guess_cells as (C2 & C1 & C0 & _). unfold is_cell in *.
  assert (gh = 0) as ->.
  { destruct (Z.eq_dec gh 0) as [|N]; [easy|]. exfalso. replace gh with 1 in * by lia.
    assert (BASE * v1 <= (1 * BASE + g) * v1) by (apply Z.mul_le_mono_nonneg_r; lia).
    assert ((BASE * v1 + BASE) * BASE <= t2 * BASE) by (apply Z.mul_le_mono_nonneg_r; lia).
    assert (w2 + 1 <= BASE * v1 + BASE) by (unfold w2; lia).
    assert ((w2 + 1) * BASE <= (BASE * v1 + BASE) * BASE) by (apply Z.mul_le_mono_nonneg_r; lia). unfold t3 in *. lia. }
  replace (0 * BASE + g) with g in * by lia. split; [lia|]. split; [|exact U].
  unfold t3. rewrite <- E. replace (g * w2) with (g * v1 * BASE + g * v0) by (unfold w2; ring).
  assert (g * v0 <= BASE * BASE) by (apply Z.mul_le_mono_nonneg; lia).
  assert (BASE * BASE <= r * BASE) by (apply Z.mul_le_mono_nonneg_r; lia). lia.
Qed.

(** The test holds only for an element. *)
Lemma guess_break (gh g : Z) : 0 <= gh <= 1 -> is_cell BASE g -> (gh * BASE + g) * w2 <= t3 ->
  negb (gh =? 1) || negb (g =? 0) = true -> gh = 0.
Proof using All.
  intros Hg Cg H B. destruct guess_cells as (C2 & C1 & C0 & _). unfold is_cell in *.
  destruct (Z.eqb_spec gh 1) as [->|]; [|lia]. destruct (Z.eqb_spec g 0) as [|N]; [discriminate|]. exfalso.
  assert (1 * BASE <= v1 * BASE) by (apply Z.mul_le_mono_nonneg_r; lia).
  assert (BASE <= w2) by (unfold w2; lia). assert ((BASE + 1) * w2 <= (1 * BASE + g) * w2) by (apply Z.mul_le_mono_nonneg_r; lia).
  lia.
Qed.

Lemma guess_loop_ok fuel : forall gh g r, 0 <= gh <= 1 -> is_cell BASE g -> 0 <= r < 2 * BASE ->
  (gh * BASE + g) * v1 + r = t2 -> (forall q, q < BASE -> q * w2 <= t3 -> q <= gh * BASE + g) ->
  BASE <= r + Z.of_nat fuel * v1 ->
  exists G, guess_loop fuel a index v1 v0 gh g r = Ret G /\ best_guess G.
Proof using All.
  pose proof base_ge as HB. destruct guess_cells as (C2 & C1 & C0 & _).
  induction fuel as [|fuel IH]; intros gh g r Hg Cg Hr E U F; cbn [guess_loop].
  { rewrite (proj2 (Z.ltb_ge _ _)) by lia. exists g. split; [reflexivity|]. apply (guess_exit gh g r); auto. lia. }
  destruct (Z.ltb_spec r BASE) as [L|L];
    [|exists g; split; [reflexivity|]; apply (guess_exit gh g r); auto].
  rewrite mul_elements_ok by easy. cbn [bind]. unfold rd. rewrite (nth_error_nth' a 0) by lia. rewrite Hu0. cbn [bind].
  assert (0 <= v0 * g / BASE < BASE) as Q.
  { unfold is_cell in *. assert (0 <= v0 * g) by (apply Z.mul_nonneg_nonneg; lia). split; [apply Z.div_pos; lia|].
    apply Z.div_lt_upper_bound; [lia|]. apply Z.le_lt_trans with (v0 * BASE); [apply Z.mul_le_mono_nonneg_l; lia|nia]. }
  assert (0 <= gh * v0 < BASE) as Qg by (unfold is_cell in *; assert (gh = 0 \/ gh = 1) as [->| ->] by lia; lia).
  rewrite (Element_small (v0 * g / BASE + gh * v0)) by lia. pose proof (guess_test gh g r Hg Cg E L) as T. cbv zeta in T.
  rewrite T. clear T. unfold is_cell in *.
  destruct (Z.leb_spec ((gh * BASE + g) * w2) t3) as [P|P]; cbn [andb].
  - destruct (negb (gh =? 1) || negb (g =? 0)) eqn:B.
    + exists g. split; [reflexivity|]. assert (gh = 0) as Z0 by (apply (guess_break gh g); auto).
      subst gh. split; [lia|]. split; [exact P|exact U].
    + apply orb_false_iff in B as [B1 B2]. apply negb_false_iff, Z.eqb_eq in B1, B2. subst gh g. rewrite Z.eqb_refl.
      rewrite (Element_small (1 - 1)), (Element_small (r + v1)) by lia. apply IH; lia.
  - assert (forall q, q < BASE -> q * w2 <= t3 -> q <= gh * BASE + g - 1) as U'.
    { intros q Lq Pq. specialize (U q Lq Pq). destruct (Z.eq_dec q (gh * BASE + g)) as [->|]; lia. }
    assert (0 <= t3) as T0 by (unfold t3, t2; assert (0 <= u2 * BASE) by (apply Z.mul_nonneg_nonneg; lia); lia).
    destruct (Z.eqb_spec g 0) as [->|N].
    + destruct (Z.eq_dec gh 0) as [->|Ng]; [exfalso; lia|]. replace gh with 1 in * by lia.
      rewrite (Element_small (1 - 1)), (Element_small (r + v1)) by lia. apply IH; lia.
    + rewrite (Element_small (r + v1)) by lia. apply IH; try lia. intros q Lq Pq. specialize (U' q Lq Pq). lia.
Qed.

Lemma guess_ok t max_div pre_max_div : tmp_array_ t = a -> max_div = v1 -> pre_max_div = v0 ->
  exists G, guess_next_quotient t index max_div pre_max_div = Ret G /\ best_guess G.
Proof using All.
  intros Et -> ->. pose proof base_ge as HB. destruct guess_cells as (C2 & C1 & C0 & Le). unfold guess_next_quotient, rd. rewrite Et.
  rewrite (nth_error_nth' a 0), Hu2 by lia. cbn [bind]. rewrite (nth_error_nth' a 0), Hu1 by lia. cbn [bind].
  assert (forall gh g r, 0 <= gh <= 1 -> is_cell BASE g -> 0 <= r < v1 -> (gh * BASE + g) * v1 + r = t2 ->
    exists G, guess_loop 3 a index v1 v0 gh g r = Ret G /\ best_guess G) as K.
  { intros gh g r Hg Cg Hr E. unfold is_cell in *. apply guess_loop_ok; try (unfold is_cell; lia). intros q Lq Pq.
    destruct (Z.le_gt_cases q (gh * BASE + g)) as [|G]; [easy|]. exfalso.
    assert ((gh * BASE + g + 1) * v1 <= q * v1) by (apply Z.mul_le_mono_nonneg_r; lia).
    assert (0 <= q * v0) by (apply Z.mul_nonneg_nonneg; lia). replace (q * w2) with (q * v1 * BASE + q * v0) in Pq by (unfold w2; ring).
    assert ((t2 + 1) * BASE <= q * v1 * BASE) by (apply Z.mul_le_mono_nonneg_r; lia). unfold t3 in Pq. lia. }
  assert (0 < v1) as Pv by lia. unfold is_cell in *. destruct (Z.leb_spec v1 u2).
  - rewrite div_elements_ok by (unfold is_cell; lia). cbn [bind]. replace (u2 - v1) with 0 by lia.
    pose proof (Z.div_mod (0 * BASE + u1) v1 ltac:(lia)) as E. pose proof (Z.mod_pos_bound (0 * BASE + u1) v1 Pv) as R.
    apply K; try lia; [|unfold t2; replace u2 with v1 by lia; lia].
    split; [apply Z.div_pos; lia|]. apply Z.div_lt_upper_bound; [lia|]. nia.
  - rewrite div_elements_ok by (unfold is_cell; lia). cbn [bind].
    pose proof (Z.div_mod (u2 * BASE + u1) v1 ltac:(lia)) as E. pose proof (Z.mod_pos_bound (u2 * BASE + u1) v1 Pv) as R.
    assert (0 <= u2 * BASE) by (apply Z.mul_nonneg_nonneg; lia).
    apply K; try lia.
    split; [apply Z.div_pos; lia|]. apply Z.div_lt_upper_bound; [lia|].
    assert ((u2 + 1) * BASE <= v1 * BASE) by (apply Z.mul_le_mono_nonneg_r; lia). lia.
Qed.
End Guess.

(** ** The correction *)

Lemma borrow_cell_ok x y : is_cell BASE x -> 0 <= y <= BASE ->
  exists x' b, borrow_cell x y = (x', b) /\ is_cell BASE x' /\ 0 <= b <= 1 /\ x' = x - y + b * BASE.
Proof.
  unfold is_cell, borrow_cell. intros Cx Hy. destruct (Z.ltb_spec x y).
  - rewrite Element_small by lia. do 2 eexists. split; [reflexivity|]. lia.
  - do 2 eexists. split; [reflexivity|]. lia.
Qed.

(** The product and the carry of the loop. *)
Lemma carried_product d g c : is_cell BASE d -> is_cell BASE g -> is_cell BASE c ->
  let temp := Element (d * g mod BASE + c) in
  exists y c', (if BASE <=? temp then (temp - BASE, Element (d * g / BASE + 1)) else (temp, d * g / BASE)) = (y, c') /\
    is_cell BASE y /\ is_cell BASE c' /\ y + c' * BASE = d * g + c.
Proof.
  unfold is_cell. intros Cd Cg Cc. cbv zeta. pose proof base_ge as HB.
  pose proof (Z.div_mod (d * g) BASE base_nonzero) as E. pose proof (base_mod (d * g)) as R.
  assert (0 <= d * g <= (BASE - 1) * (BASE - 1)) as P by (split; [apply Z.mul_nonneg_nonneg; lia|apply Z.mul_le_mono_nonneg; lia]).
  assert (0 <= d * g / BASE <= BASE - 2) as Q.
  { split; [apply Z.div_pos; lia|]. apply Z.lt_succ_r, Z.div_lt_upper_bound; lia. }
  rewrite Element_small by lia. rewrite (Element_small (d * g / BASE + 1)) by lia.
  destruct (Z.leb_spec BASE (d * g mod BASE + c)); do 2 eexists; (split; [reflexivity|]); lia.
Qed.

Lemma apply_loop_ok ds g : cells BASE ds -> is_cell BASE g -> forall target c b, (length ds < length target)%nat ->
  cells BASE target -> is_cell BASE c -> 0 <= b <= 1 ->
  exists t b', apply_loop target ds g c b = Ret (t, b') /\ length t = length target /\ cells BASE t /\ 0 <= b' <= 1 /\
    skipn (S (length ds)) t = skipn (S (length ds)) target /\
    val BASE (firstn (S (length ds)) t) =
      val BASE (firstn (S (length ds)) target) - g * val BASE ds - c - b + b' * pw BASE (S (length ds)).
Proof.
  intros Cd Cg. pose proof base_ge as HB. induction Cd as [|d ds Cx Cd IH]; intros target c b L Ct Cc Hb.
  - destruct target as [|x target]; [cbn [length] in L; lia|]. inversion Ct as [|? ? C1 C2]; subst. cbn [apply_loop].
    unfold is_cell in Cc. rewrite (Element_small (c + b)) by lia.
    destruct (borrow_cell_ok x (c + b) C1 ltac:(lia)) as (x' & b' & -> & Cx' & Hb' & Ex).
    do 2 eexists. split; [reflexivity|]. split; [reflexivity|]. split; [now constructor|]. split; [exact Hb'|].
    split; [reflexivity|]. cbn [firstn val length]. rewrite pw_1. lia.
  - destruct target as [|x target]; [cbn [length] in L; lia|]. inversion Ct as [|? ? C1 C2]; subst. cbn [apply_loop].
    rewrite mul_elements_ok by easy. cbn [bind]. pose proof (carried_product d g c Cx Cg Cc) as K. cbv zeta in K |- *.
    destruct K as (y & c' & -> & Cy & Cc' & Ey). rewrite (Element_small (y + b)) by (unfold is_cell in Cy; lia).
    destruct (borrow_cell_ok x (y + b) C1) as (x' & b1 & -> & Cx' & Hb1 & Ex); [unfold is_cell in Cy; lia|].
    cbn [length] in L. destruct (IH target c' b1 ltac:(lia) C2 Cc' Hb1) as (t & b' & -> & Lt & Ctt & Hb' & Sk & V). cbn [bind].
    do 2 eexists. split; [reflexivity|]. split; [cbn [length]; now rewrite Lt|]. split; [now constructor|].
    split; [exact Hb'|]. split; [exact Sk|]. cbn [length].
    change (firstn (S (S (length ds))) (x' :: t)) with (x' :: firstn (S (length ds)) t).
    change (firstn (S (S (length ds))) (x :: target)) with (x :: firstn (S (length ds)) target).
    cbn [val]. rewrite V, (pw_S BASE (S (length ds))). replace (y + b) with (d * g + c - c' * BASE + b) in Ex by lia.
    rewrite Ex. ring.
Qed.

Lemma fix_loop_ok ds : cells BASE ds -> forall target c, (length ds < length target)%nat ->
  cells BASE target -> 0 <= c <= 1 ->
  pw BASE (S (length ds)) <= val BASE (firstn (S (length ds)) target) + val BASE ds + c ->
  exists t, fix_loop target ds c = Ret t /\ length t = length target /\ cells BASE t /\
    skipn (S (length ds)) t = skipn (S (length ds)) target /\
    val BASE (firstn (S (length ds)) t) =
      val BASE (firstn (S (length ds)) target) + val BASE ds + c - pw BASE (S (length ds)).
Proof.
  intros Cd. pose proof base_ge as HB. induction Cd as [|d ds Cx Cd IH]; intros target c L Ct Hc G.
  - destruct target as [|x target]; [cbn [length] in L; lia|]. inversion Ct as [|? ? C1 C2]; subst. cbn [fix_loop].
    cbn [length firstn val] in G. rewrite pw_1 in G. unfold is_cell in C1. rewrite Element_small by lia.
    eexists. split; [reflexivity|]. split; [reflexivity|]. split; [constructor; [unfold is_cell; lia|easy]|].
    split; [reflexivity|]. cbn [firstn val length]. rewrite pw_1. lia.
  - destruct target as [|x target]; [cbn [length] in L; lia|]. inversion Ct as [|? ? C1 C2]; subst. cbn [fix_loop].
    unfold is_cell in C1, Cx. cbn [length] in L, G |- *.
    change (firstn (S (S (length ds))) (x :: target)) with (x :: firstn (S (length ds)) target) in G |- *.
    cbn [val] in G |- *. rewrite (pw_S BASE (S (length ds))) in G |- *.
    assert (Element (x + d + c) = x + d + c) as ->.
    { apply Element_small. lia. }
    set (s := x + d + c) in *.
    assert (exists y c', (if BASE <=? s then (s - BASE, 1) else (s, 0)) = (y, c') /\ is_cell BASE y /\ 0 <= c' <= 1 /\ y + c' * BASE = s)
      as (y & c' & -> & Cy & Hc' & Ey).
    { unfold is_cell. destruct (Z.leb_spec BASE s); do 2 eexists; (split; [reflexivity|]); lia. }
    destruct (IH target c' ltac:(lia) C2 Hc') as (t & -> & Lt & Ctt & Sk & V).
    { unfold is_cell in Cy. nia. }
    cbn [bind]. eexists. split; [reflexivity|]. split; [cbn [length]; now rewrite Lt|]. split; [now constructor|].
    split; [exact Sk|]. change (firstn (S (S (length ds))) (y :: t)) with (y :: firstn (S (length ds)) t).
    cbn [val]. rewrite V. lia.
Qed.

(** ** One element of the quotient *)

Lemma two_cells x : 0 <= x < BASE * BASE -> (x / BASE mod BASE) * BASE + x mod BASE = x.
Proof.
  intros H. pose proof base_ge. pose proof (Z.div_mod x BASE base_nonzero).
  rewrite (Z.mod_small (x / BASE)) by (split; [apply Z.div_pos; lia|apply Z.div_lt_upper_bound; lia]). lia.
Qed.

Lemma three_cells x : 0 <= x < BASE * BASE * BASE ->
  ((x / BASE / BASE mod BASE) * BASE + x / BASE mod BASE) * BASE + x mod BASE = x.
Proof.
  intros H. pose proof base_ge. pose proof (Z.div_mod x BASE base_nonzero).
  rewrite two_cells by (split; [apply Z.div_pos; lia|apply Z.div_lt_upper_bound; lia]). lia.
Qed.

(** The first [m] elements from index [i] on are replaced. *)
Lemma val_replaced (a t : list Z) i m : (i <= length a)%nat -> length t = length (skipn i a) ->
  skipn m t = skipn m (skipn i a) -> (m <= length t)%nat ->
  val BASE (firstn i a ++ t) = val BASE a + (val BASE (firstn m t) - val BASE (firstn m (skipn i a))) * pw BASE i.
Proof.
  intros L Lt S M. assert (forall (x : list Z) j, (j <= length x)%nat ->
    val BASE x = val BASE (firstn j x) + pw BASE j * val BASE (skipn j x)) as Sp.
  { intros x j Lj. rewrite <- (firstn_skipn j x) at 1. now rewrite val_app, length_firstn, Nat.min_l by lia. }
  rewrite val_app, length_firstn, Nat.min_l, (Sp a i), (Sp t m), (Sp (skipn i a) m), S by lia. ring.
Qed.

Section Digit.
Variables (t divisor : DivTmp) (i : nat).
Let a : list Z := tmp_array_ t.
Let n : nat := initial_size_ divisor.
Let ds : list Z := firstn n (tmp_array_ divisor).
Let v : Z := val BASE ds.
Hypothesis Ca : cells BASE a.
Hypothesis Cd : cells BASE ds.
Hypothesis Ln : length ds = n.
Hypothesis Hn : (2 <= n)%nat.
Hypothesis Hi : (i + n < length a)%nat.
Hypothesis Nv : BASE <= 2 * nth (n - 1) ds 0.
Hypothesis Hv : val BASE a < v * pw BASE (S i).

Let k : nat := (i + n - 2)%nat.
Let W : Z := pw BASE (n - 2).

Lemma digit_bounds : 0 <= val BASE a /\ 0 < pw BASE i /\ 0 < W /\ v < W * BASE * BASE /\ pw BASE k = W * pw BASE i /\
  0 <= val BASE a / pw BASE k < BASE * BASE * BASE.
Proof using All.
  pose proof base_ge as HB. pose proof (val_nonneg BASE HB a Ca) as V0. pose proof (base_pow i) as Pi.
  pose proof (base_pow (n - 2)) as PW. pose proof (val_bound BASE HB ds Cd) as [_ Bv]. rewrite Ln in Bv.
  assert (pw BASE n = W * BASE * BASE) as En by (unfold W; rewrite <- !(Z.mul_comm BASE), <- !pw_S; f_equal; lia).
  assert (pw BASE k = W * pw BASE i) as Ek by (unfold k, W; rewrite <- pw_add; f_equal; lia).
  repeat (split; [first [easy|unfold v; lia]|]). split; [apply Z.div_pos; [easy|rewrite Ek; nia]|].
  apply Z.div_lt_upper_bound; [rewrite Ek; apply Z.mul_pos_pos; easy|].
  rewrite Ek. apply Z.lt_le_trans with (1 := Hv). rewrite pw_S.
  replace (W * pw BASE i * (BASE * BASE * BASE)) with (W * BASE * BASE * (BASE * pw BASE i)) by ring.
  apply Z.mul_le_mono_nonneg_r; [nia|]. unfold v. lia.
Qed.

(** The guess is the element of the quotient or one more. *)
Lemma guess_digit : exists G,
  guess_next_quotient t (i + n) (nth (n - 1) ds 0) (nth (n - 2) ds 0) = Ret G /\ is_cell BASE G /\
  let q := val BASE a / (v * pw BASE i) in 0 <= q < BASE /\ q <= G <= q + 1.
Proof using All.
  pose proof base_ge as HB. destruct digit_bounds as (V0 & Pi & PW & Bv & Ek & BT).
  set (T := val BASE a / pw BASE k) in *. set (w := v / W).
  assert (0 < nth (n - 1) ds 0) as Pn by lia.
  assert (0 <= v) as Vn by (apply (val_nonneg BASE HB ds Cd)).
  assert (0 <= w < BASE * BASE) as Bw by (split; [apply Z.div_pos; lia|apply Z.div_lt_upper_bound; [lia|unfold v; lia]]).
  assert (nth (n - 2) ds 0 = w mod BASE) as E0 by (rewrite (val_nth BASE HB) by easy; reflexivity).
  assert (nth (n - 1) ds 0 = w / BASE mod BASE) as E1.
  { rewrite (val_nth BASE HB) by easy. unfold w, v, W. rewrite div_div_mul, (Z.mul_comm _ BASE), <- pw_S by lia. do 3 f_equal. lia. }
  assert (nth (i + n - 2) a 0 = T mod BASE) as F0 by (rewrite (val_nth BASE HB) by easy; reflexivity).
  pose proof (base_pow k) as Pk.
  assert (nth (i + n - 1) a 0 = T / BASE mod BASE) as F1.
  { rewrite (val_nth BASE HB) by easy. unfold T. rewrite div_div_mul, (Z.mul_comm _ BASE), <- pw_S by lia. do 3 f_equal. unfold k. lia. }
  assert (nth (i + n) a 0 = T / BASE / BASE mod BASE) as F2.
  { rewrite (val_nth BASE HB) by easy. unfold T. rewrite (div_div_mul (val BASE a)), (div_div_mul _ (pw BASE k * BASE)) by nia.
    do 2 f_equal. rewrite <- !(Z.mul_comm BASE), <- !pw_S. f_equal. unfold k. lia. }
  assert (T < (w + 1) * BASE) as Hq.
  { unfold T. apply Z.div_lt_upper_bound; [lia|]. rewrite Ek. apply Z.lt_le_trans with (1 := Hv). rewrite pw_S.
    replace (W * pw BASE i * ((w + 1) * BASE)) with ((w + 1) * W * (BASE * pw BASE i)) by ring.
    apply Z.mul_le_mono_nonneg_r; [nia|]. pose proof (Z.mul_succ_div_gt v W PW). unfold w. lia. }
  assert (2 <= i + n < length a)%nat as Hi' by lia.
  assert (BASE <= 2 * (w / BASE mod BASE)) as Nw by (rewrite <- E1; exact Nv).
  pose proof (guess_ok a (i + n) _ _ _ (w / BASE mod BASE) (w mod BASE) F2 F1 F0 Hi' Ca (base_mod _) (base_mod _) Nw) as GK.
  rewrite three_cells, two_cells in GK by easy.
  destruct (GK Hq t _ _ eq_refl E1 E0) as (G & EG & BG & LG & UG). clear GK. exists G. split; [exact EG|]. split; [exact BG|].
  cbv zeta. set (q := val BASE a / (v * pw BASE i)). rewrite three_cells, two_cells in LG, UG by easy.
  assert (nth (n - 1) ds 0 * (W * BASE) <= v) as Lv.
  { rewrite E1. rewrite Z.mod_small by (split; [apply Z.div_pos; lia|apply Z.div_lt_upper_bound; lia]).
    unfold w. rewrite div_div_mul by lia. rewrite Z.mul_comm. apply Z.mul_div_le. nia. }
  assert (0 < v) as Pv by nia. assert (0 < v * pw BASE i) as Pvi by nia.
  assert (0 <= q < BASE) as Bq.
  { split; [apply Z.div_pos; lia|]. apply Z.div_lt_upper_bound; [easy|]. rewrite pw_S in Hv. lia. }
  split; [exact Bq|]. pose proof (Z.mul_div_le (val BASE a) _ Pvi) as Lq. fold q in Lq.
  pose proof (Z.mul_div_le v W PW) as Lw. fold w in Lw. pose proof (Z.mul_succ_div_gt v W PW) as Uw. fold w in Uw.
  pose proof (Z.mul_div_le (val BASE a) (pw BASE k) Pk) as LT. fold T in LT. rewrite Ek in LT.
  split.
  - apply UG; [lia|]. apply Z.div_le_lower_bound; [lia|]. rewrite Ek.
    assert (q * (W * w) <= q * v) by (apply Z.mul_le_mono_nonneg_l; lia).
    assert (q * (W * w) * pw BASE i <= q * v * pw BASE i) by (apply Z.mul_le_mono_nonneg_r; lia). lia.
  - assert (G - 1 <= q); [|lia]. unfold q. apply Z.div_le_lower_bound; [easy|].
    assert (G * w * (W * pw BASE i) <= T * (W * pw BASE i)) as A1 by (apply Z.mul_le_mono_nonneg_r; [nia|exact LG]).
    assert (G * v <= G * (W * (w + 1))) as A2 by (apply Z.mul_le_mono_nonneg_l; unfold is_cell in BG; lia).
    assert (G * W <= BASE * W) by (apply Z.mul_le_mono_nonneg_r; unfold is_cell in BG; lia).
    assert (1 * (W * BASE) <= nth (n - 1) ds 0 * (W * BASE)) by (apply Z.mul_le_mono_nonneg_r; [nia|lia]).
    assert (G * W <= v) as A3 by lia.
    assert (G * v * pw BASE i <= G * (W * (w + 1)) * pw BASE i) as A4 by (apply Z.mul_le_mono_nonneg_r; lia).
    assert (G * W * pw BASE i <= v * pw BASE i) as A5 by (apply Z.mul_le_mono_nonneg_r; lia). lia.
Qed.
Lemma next_quotient_ok : let q := val BASE a / (v * pw BASE i) in
  0 <= q < BASE /\
  exists t', next_quotient t divisor i (nth (n - 1) ds 0) (nth (n - 2) ds 0) = Ret (q, t') /\
    cells BASE (tmp_array_ t') /\ length (tmp_array_ t') = length a /\ size_ t' = size_ t /\
    initial_size_ t' = initial_size_ t /\ tmp_val t' = val BASE a mod (v * pw BASE i).
Proof using All.
  pose proof base_ge as HB. destruct digit_bounds as (V0 & Pi & PW & Bv & Ek & BT).
  destruct guess_digit as (G & EG & CG & Bq & BG). set (q := val BASE a / (v * pw BASE i)) in *. cbv zeta. split; [exact Bq|].
  set (u := val BASE a / pw BASE i). assert (0 <= v) as Vn by (apply (val_nonneg BASE HB ds Cd)).
  pose proof (val_bound BASE HB ds Cd) as [_ Bn]. rewrite Ln in Bn. fold v in Bn.
  assert (0 < v) as Pv by (destruct (Z.eq_dec v 0) as [Z0|]; [rewrite Z0 in Hv; lia|lia]).
  assert (q = u / v) as Eq by (unfold q, u; rewrite div_div_mul, Z.mul_comm by lia; reflexivity).
  assert (length (skipn i a) = length a - i)%nat as Ls by apply length_skipn.
  assert (val BASE (firstn (S n) (skipn i a)) = u) as Eu.
  { rewrite val_firstn, val_skipn by (try apply cells_skipn; easy). apply Z.mod_small. split; [apply Z.div_pos; lia|].
    apply Z.div_lt_upper_bound; [easy|]. apply Z.lt_le_trans with (1 := Hv). rewrite !pw_S.
    replace (pw BASE i * (BASE * pw BASE n)) with (pw BASE n * (BASE * pw BASE i)) by ring. apply Z.mul_le_mono_nonneg_r; nia. }
  assert (forall w x, val BASE (firstn (S n) x) = u - q * v ->
    val BASE w = val BASE a + (val BASE (firstn (S n) x) - val BASE (firstn (S n) (skipn i a))) * pw BASE i ->
    val BASE w = val BASE a mod (v * pw BASE i)) as Done.
  { intros w x Ex ->. rewrite Ex, Eu. assert (0 < v * pw BASE i) as P0 by (apply Z.mul_pos_pos; lia).
    pose proof (Z.div_mod (val BASE a) (v * pw BASE i)) as D0. specialize (D0 ltac:(lia)). fold q in D0. lia. }
  pose proof (Z.mul_div_le u v Pv) as Lq. pose proof (Z.mul_succ_div_gt u v Pv) as Uq. rewrite <- Eq in Lq, Uq.
  assert (is_cell BASE 0) as C0 by (unfold is_cell; lia).
  destruct (apply_loop_ok ds G Cd CG (skipn i a) 0 0 ltac:(lia) (cells_skipn _ _ _ Ca) C0 ltac:(lia))
    as (tt & b & Ea & Lt & Ct & Hb & Sk & V). rewrite Ln in Sk, V. rewrite Eu in V. fold v in V.
  unfold next_quotient, apply_next_quotient. fold n a. rewrite EG. cbn [bind]. fold ds. rewrite Ea. cbn [bind].
  pose proof (val_bound BASE HB _ (cells_firstn _ _ (S n) Ct)) as Bt. rewrite length_firstn, Nat.min_l in Bt by lia.
  destruct (Z.eqb_spec b 0) as [->|Nb]; cbn [negb].
  - assert (G = q) as ->.
    { destruct (Z.eq_dec G (q + 1)) as [->|]; [exfalso; lia|lia]. }
    eexists. split; [reflexivity|]. unfold tmp_val. cbn [tmp_array_ size_ initial_size_].
    split; [apply Forall_app; split; [now apply cells_firstn|exact Ct]|]. split; [rewrite length_app, length_firstn; lia|].
    split; [reflexivity|]. split; [reflexivity|]. apply (Done _ tt); [lia|]. apply val_replaced; [lia|exact Lt|exact Sk|lia].
  - replace b with 1 in * by lia. assert (G = q + 1) as ->.
    { destruct (Z.eq_dec G q) as [->|]; [exfalso; lia|lia]. }
    unfold fix_next_quotient. cbn [tmp_array_ size_ initial_size_]. fold n ds.
    assert (length (firstn i a) = i) as Lf by (rewrite length_firstn; lia).
    rewrite skipn_app, Lf, Nat.sub_diag, skipn_all2 by lia. cbn [app skipn].
    destruct (fix_loop_ok ds Cd tt 0 ltac:(lia) Ct ltac:(lia)) as (t2 & -> & L2 & C2 & Sk2 & V2); [rewrite Ln, V; fold v; lia|].
    rewrite Ln in Sk2, V2. rewrite V in V2. fold v in V2. cbn [bind].
    eexists. split; [f_equal; f_equal; lia|]. unfold tmp_val. cbn [tmp_array_ size_ initial_size_].
    rewrite firstn_app, Lf, Nat.sub_diag, firstn_firstn, Nat.min_id. cbn [firstn]. rewrite app_nil_r.
    split; [apply Forall_app; split; [now apply cells_firstn|exact C2]|]. split; [rewrite length_app; lia|].
    split; [reflexivity|]. split; [reflexivity|]. apply (Done _ t2); [lia|].
    apply val_replaced; [lia|congruence|congruence|lia].
Qed.
End Digit.

(** ** The quotient *)

Section Loop.
Variable divisor : DivTmp.
Let n : nat := initial_size_ divisor.
Let ds : list Z := firstn n (tmp_array_ divisor).
Let v : Z := val BASE ds.
Hypothesis Cd : cells BASE ds.
Hypothesis Ln : length ds = n.
Hypothesis Hn : (2 <= n)%nat.
Hypothesis Nv : BASE <= 2 * nth (n - 1) ds 0.

Lemma divisor_pos : 0 < v.
Proof using All.
  pose proof base_ge as HB. pose proof (val_nonneg BASE HB ds Cd) as V. fold v in V.
  destruct (Z.eq_dec v 0) as [Z0|]; [exfalso|lia]. apply (val_zero BASE HB ds Cd) in Z0.
  rewrite Z0, nth_repeat in Nv. lia.
Qed.

(** A step of the loop: the element of the quotient and what is left. *)
Lemma quotient_step t i : tmp_wf t -> (i + n < length (tmp_array_ t))%nat -> tmp_val t < v * pw BASE (S i) ->
  let q := tmp_val t / v / pw BASE i in
  0 <= q < BASE /\
  exists t', next_quotient t divisor i (nth (n - 1) ds 0) (nth (n - 2) ds 0) = Ret (q, t') /\ tmp_wf t' /\
    length (tmp_array_ t') = length (tmp_array_ t) /\ tmp_val t' < v * pw BASE i /\
    tmp_val t / v = q * pw BASE i + tmp_val t' / v /\ tmp_val t' mod v = tmp_val t mod v.
Proof using All.
  intros W L V. pose proof W as (Ca & Ls & Vs). pose proof divisor_pos as Pv. pose proof (base_pow i) as Pi.
  destruct (next_quotient_ok t divisor i Ca Cd Ln Hn L Nv V) as (Bq & t' & E & C' & L' & S' & I' & V').
  fold n ds v in Bq, E, V'. fold (tmp_val t) in Bq, E, V'. assert (0 < v * pw BASE i) as P by (apply Z.mul_pos_pos; lia).
  cbv zeta. rewrite div_div_mul by lia. split; [exact Bq|]. exists t'. split; [exact E|].
  pose proof (Z.mod_pos_bound (tmp_val t) (v * pw BASE i) P) as R. pose proof (Z.mod_le (tmp_val t) (v * pw BASE i)) as Le.
  specialize (Le (tmp_nonneg t W) P). pose proof (Z.div_mod (tmp_val t) (v * pw BASE i)) as D0. specialize (D0 ltac:(lia)).
  set (q := tmp_val t / (v * pw BASE i)) in *. rewrite <- V' in R, Le, D0.
  split; [split; [exact C'|split; [lia|unfold tmp_val in *; rewrite S'; lia]]|]. split; [exact L'|]. split; [lia|].
  replace (tmp_val t) with (tmp_val t' + q * pw BASE i * v) by lia. rewrite Z.div_add, Z.mod_add by lia. split; [lia|reflexivity].
Qed.

Definition quotient_result (t : DivTmp) (quotient : list Z) (m : nat) (r : outcome (DivTmp * list Z)) : Prop :=
  if tmp_val t / v <? MAX_VALUE
  then exists t' q, r = Ret (t', q) /\ tmp_wf t' /\ length (tmp_array_ t') = length (tmp_array_ t) /\
    length q = SIZE /\ cells BASE q /\ val BASE q = tmp_val t / v + pw BASE m * val BASE quotient /\
    tmp_val t' = tmp_val t mod v
  else r = Throw Overflow.

Lemma quotient_low m : forall t quotient, (m <= SIZE - 1)%nat -> tmp_wf t -> (m + n <= length (tmp_array_ t))%nat ->
  tmp_val t < v * pw BASE m -> length quotient = (SIZE - m)%nat -> cells BASE quotient ->
  quotient_result t quotient m (quotient_loop m t divisor (nth (n - 1) ds 0) (nth (n - 2) ds 0) quotient).
Proof using All.
  pose proof divisor_pos as Pv. pose proof size_pos. pose proof base_ge as HB.
  assert (forall t m, (m <= SIZE - 1)%nat -> tmp_wf t -> tmp_val t < v * pw BASE m -> (tmp_val t / v <? MAX_VALUE) = true) as Small.
  { intros t j Lj W V. apply Z.ltb_lt. destruct integer_max_over_spec as [-> O].
    apply Z.lt_le_trans with (pw BASE j); [apply div_lt_iff; lia|].
    assert (0 < BASE) as B0 by lia. pose proof (pw_le BASE j (SIZE - 1) B0 Lj). pose proof (base_pow (SIZE - 1)). nia. }
  induction m as [|m IH]; intros t quotient Lm W L V Lq Cq; unfold quotient_result.
  - rewrite (Small t 0%nat) by easy. cbn [quotient_loop]. exists t, quotient. rewrite pw_0 in V |- *.
    pose proof (tmp_nonneg t W). rewrite Z.div_small, Z.mod_small by lia.
    do 4 (split; [first [easy|lia]|]). split; [exact Cq|]. split; lia.
  - rewrite (Small t (S m)) by easy. destruct (quotient_step t m W ltac:(lia) V) as (Bq & t' & E & W' & L' & V' & Ed & Em).
    cbn [quotient_loop]. rewrite E. cbn [bind]. rewrite (proj2 (Nat.eqb_neq m SIZE)), (proj2 (Nat.eqb_neq m (SIZE - 1))) by lia.
    cbn [andb]. destruct (shrink_ok t' W') as (Ws & Es & _). set (q := tmp_val t / v / pw BASE m) in *.
    assert (tmp_val (shrink t') = tmp_val t') as Vs by (unfold tmp_val; now rewrite Es).
    pose proof (IH (shrink t') (q :: quotient) ltac:(lia) Ws ltac:(rewrite Es; lia) ltac:(rewrite Vs; exact V')
      ltac:(cbn [length]; lia) ltac:(constructor; [exact Bq|exact Cq])) as R.
    unfold quotient_result in R. rewrite (Small _ m ltac:(lia) Ws ltac:(rewrite Vs; exact V')) in R.
    destruct R as (t2 & q2 & -> & W2 & L2 & Lq2 & Cq2 & Vq2 & Vt2). exists t2, q2.
    rewrite Vs in Vq2, Vt2. rewrite Es in L2. split; [reflexivity|]. split; [exact W2|]. split; [lia|]. split; [exact Lq2|].
    split; [exact Cq2|]. split; [|congruence]. rewrite Vq2, Ed, pw_S. cbn [val]. ring.
Qed.

Lemma quotient_top t : tmp_wf t -> (SIZE + n <= length (tmp_array_ t))%nat -> tmp_val t < v * pw BASE SIZE ->
  quotient_result t [] SIZE (quotient_loop SIZE t divisor (nth (n - 1) ds 0) (nth (n - 2) ds 0) []).
Proof using All.
  intros W L V. pose proof divisor_pos as Pv. pose proof size_pos as Sp. pose proof base_ge as HB.
  replace SIZE with (S (SIZE - 1)) in L, V |- * by lia. set (k := (SIZE - 1)%nat) in *.
  destruct (quotient_step t k W ltac:(lia) V) as (Bq & t' & E & W' & L' & V' & Ed & Em).
  set (q := tmp_val t / v / pw BASE k) in *. cbn [quotient_loop]. rewrite E. cbn [bind].
  rewrite (proj2 (Nat.eqb_neq k SIZE)) by lia. fold k. rewrite Nat.eqb_refl. cbn [andb].
  destruct integer_max_over_spec as [M O]. fold k in M. pose proof (base_pow k) as Pk.
  assert ((INTEGER_MAX_OVER <=? q) = (MAX_VALUE <=? tmp_val t / v)) as ->
    by (unfold q; rewrite le_div_iff by easy; f_equal; lia).
  unfold quotient_result. rewrite Z.ltb_antisym. destruct (MAX_VALUE <=? tmp_val t / v); cbn [negb]; [reflexivity|].
  destruct (shrink_ok t' W') as (Ws & Es & _).
  assert (tmp_val (shrink t') = tmp_val t') as Vs by (unfold tmp_val; now rewrite Es).
  pose proof (quotient_low k (shrink t') [q] ltac:(lia) Ws ltac:(rewrite Es; lia) ltac:(rewrite Vs; exact V')
    ltac:(cbn [length]; lia) ltac:(constructor; [exact Bq|constructor])) as R.
  unfold quotient_result in R. rewrite Vs in R. destruct (Z.ltb_spec (tmp_val t' / v) MAX_VALUE) as [_|F].
  - destruct R as (t2 & q2 & -> & W2 & L2 & Lq2 & Cq2 & Vq2 & Vt2). exists t2, q2. rewrite Es in L2.
    split; [reflexivity|]. split; [exact W2|]. split; [lia|]. split; [exact Lq2|]. split; [exact Cq2|].
    split; [|congruence]. rewrite Vq2, Ed. cbn [val]. lia.
  - exfalso. assert (tmp_val t' / v < pw BASE k) by (apply div_lt_iff; lia). nia.
Qed.

Lemma quotient_loop_ok m t : (m <= S SIZE)%nat -> tmp_wf t -> (m + n <= length (tmp_array_ t))%nat ->
  tmp_val t < v * pw BASE m ->
  quotient_result t [] m (quotient_loop m t divisor (nth (n - 1) ds 0) (nth (n - 2) ds 0) (repeat 0 (SIZE - m))).
Proof using All.
  intros Lm W L V. pose proof divisor_pos as Pv. pose proof size_pos as Sp. pose proof base_ge as HB.
  destruct (Nat.eq_dec m (S SIZE)) as [->|N1].
  - replace (SIZE - S SIZE)%nat with 0%nat by lia. cbn [repeat].
    destruct (quotient_step t SIZE W ltac:(lia) V) as (Bq & t' & E & W' & L' & V' & Ed & Em).
    set (q := tmp_val t / v / pw BASE SIZE) in *. cbn [quotient_loop]. rewrite E. cbn [bind]. rewrite Nat.eqb_refl.
    pose proof (base_pow SIZE) as Ps. pose proof max_value_base as Mb. unfold quotient_result.
    pose proof (Z.div_pos (tmp_val t') v (tmp_nonneg t' W') Pv) as Q0.
    destruct (Z.eqb_spec q 0) as [Z0|N]; cbn [negb].
    + rewrite Z0, Z.mul_0_l, Z.add_0_l in Ed. pose proof (quotient_top t' W' ltac:(lia) V') as R. unfold quotient_result in R.
      rewrite <- Ed in R. destruct (_ <? _); [|exact R]. destruct R as (t2 & q2 & -> & W2 & L2 & Lq2 & Cq2 & Vq2 & Vt2).
      exists t2, q2. split; [reflexivity|]. split; [exact W2|]. split; [lia|]. split; [exact Lq2|]. split; [exact Cq2|].
      split; [|congruence]. rewrite Vq2. cbn [val]. lia.
    + rewrite (proj2 (Z.ltb_ge _ _)); [reflexivity|]. assert (1 * pw BASE SIZE <= q * pw BASE SIZE) by (apply Z.mul_le_mono_nonneg_r; lia). lia.
  - destruct (Nat.eq_dec m SIZE) as [->|N2].
    + rewrite Nat.sub_diag. apply quotient_top; easy.
    + pose proof (quotient_low m t (repeat 0 (SIZE - m)) ltac:(lia) W L V ltac:(apply repeat_length) ltac:(now apply cells_zeros)) as R.
      unfold quotient_result in *. rewrite val_zeros in R. exact R.
Qed.
End Loop.

(** ** The scale *)

(** After scaling the highest element of the divisor is at least half the base. *)
Lemma scale_enough top : 0 < top < BASE ->
  let s := BASE / (top + 1) in 0 < s < BASE /\ s * (top + 1) <= BASE /\ BASE <= 2 * (s * top).
Proof.
  intros H. cbv zeta. pose proof base_facts as (B & E & _). set (s := BASE / (top + 1)).
  assert (0 < s) as S0 by (apply Z.div_str_pos; lia). pose proof (Z.mul_div_le BASE (top + 1) ltac:(lia)) as U. fold s in U.
  pose proof (Z.mul_succ_div_gt BASE (top + 1) ltac:(lia)) as G. fold s in G.
  pose proof (Z.div_mod BASE 2 ltac:(lia)) as E2. rewrite E in E2.
  assert (s < BASE) by (apply Z.div_lt; lia). split; [lia|]. split; [lia|].
  destruct (Z.eq_dec top 1) as [->|N1]; [lia|]. destruct (Z.eq_dec s 1) as [->|N2]; [lia|].
  assert (0 <= (s - 2) * (top - 2)) by (apply Z.mul_nonneg_nonneg; lia). lia.
Qed.

Lemma scale_up_ok t s : tmp_wf t -> 0 < s < BASE -> tmp_val t * s < pw BASE (length (tmp_array_ t)) ->
  exists t', scale_up t s = Ret t' /\ tmp_wf t' /\ length (tmp_array_ t') = length (tmp_array_ t) /\
    tmp_val t' = tmp_val t * s /\ initial_size_ t' = initial_size_ t /\
    (tmp_val t * s < pw BASE (size_ t) -> size_ t' = size_ t).
Proof.
  intros W Hs M. unfold scale_up. destruct (Z.ltb_spec 1 s).
  - apply DivTmp_mul_ok; [easy|unfold is_cell; lia|easy].
  - replace s with 1 in * by lia. exists t. rewrite Z.mul_1_r. repeat split; try apply W; auto.
Qed.

Lemma max_element_div t : tmp_wf t -> max_element t = tmp_val t / pw BASE (size_ t - 1) /\ max_element t < BASE.
Proof.
  intros (C & L & V). pose proof base_ge as HB. unfold max_element, at_cell.
  pose proof (cells_nth BASE HB (tmp_array_ t) (size_ t - 1) C) as Cx. unfold is_cell in Cx. split; [|lia].
  rewrite (val_nth BASE HB) by easy. fold (tmp_val t) in V |- *. pose proof (base_pow (size_ t - 1)) as P.
  pose proof (val_nonneg BASE HB _ C) as V0. fold (tmp_val t) in V0.
  apply Z.mod_small. split; [apply Z.div_pos; lia|]. apply Z.div_lt_upper_bound; [lia|].
  rewrite (Z.mul_comm (pw _ _)), <- pw_S. replace (S (size_ t - 1)) with (size_ t) by lia. exact V.
Qed.

Lemma top_value t : tmp_wf t ->
  max_element t * pw BASE (size_ t - 1) <= tmp_val t < (max_element t + 1) * pw BASE (size_ t - 1) /\ max_element t < BASE.
Proof.
  intros W. destruct (max_element_div t W) as [-> L]. pose proof (base_pow (size_ t - 1)) as P. split; [|exact L].
  pose proof (Z.mul_div_le (tmp_val t) _ P). pose proof (Z.mul_succ_div_gt (tmp_val t) _ P). lia.
Qed.

Lemma max_element_zero t : tmp_wf t -> ((1 < size_ t)%nat -> pw BASE (size_ t - 1) <= tmp_val t) ->
  max_element t = 0 -> tmp_val t = 0.
Proof.
  intros W T Z0. destruct (top_value t W) as [[_ U] _]. rewrite Z0, Z.add_0_l, Z.mul_1_l in U. pose proof (tmp_nonneg t W).
  destruct (Nat.lt_ge_cases 1 (size_ t)) as [L|L]; [specialize (T L); lia|].
  destruct W as (_ & L1 & _). replace (size_ t - 1)%nat with 0%nat in U by lia. rewrite pw_0 in U. lia.
Qed.

(** ** Division by several elements *)

Lemma firstn_elements t : tmp_wf t -> (2 <= size_ t)%nat ->
  nth (size_ t - 1) (firstn (size_ t) (tmp_array_ t)) 0 = max_element t /\
  nth (size_ t - 2) (firstn (size_ t) (tmp_array_ t)) 0 = pre_max_element t.
Proof.
  intros (_ & L & _) H. unfold max_element, pre_max_element, at_cell.
  assert (forall k, (k < size_ t)%nat -> nth k (firstn (size_ t) (tmp_array_ t)) 0 = nth k (tmp_array_ t) 0) as E.
  { intros k Lk. rewrite <- (firstn_skipn (size_ t) (tmp_array_ t)) at 2. rewrite app_nth1; [reflexivity|]. rewrite length_firstn. lia. }
  split; apply E; lia.
Qed.

(** What [div_] promises of the elements of the quotient [m]. *)
Definition array_result (m : Z) (r : outcome (list Z)) : Prop :=
  if m <? MAX_VALUE then exists q, r = Ret q /\ array_ok q /\ val BASE q = m else r = Throw Overflow.

Section Slow.
Variables t d : DivTmp.
Hypothesis Wt : tmp_wf t.
Hypothesis Wd : tmp_wf d.
Hypothesis It : initial_size_ t = size_ t.
Hypothesis Id : initial_size_ d = size_ d.
Hypothesis Lt : length (tmp_array_ t) = DIV_TMP_SIZE.
Hypothesis Mt : tmp_val t < TMP_MAX.
Hypothesis Tt : pw BASE (size_ t - 1) <= tmp_val t.
Hypothesis Td : 0 < max_element d.
Hypothesis Hd : (2 <= size_ d <= size_ t)%nat.

Let s : Z := BASE / (max_element d + 1).

Lemma scaled_operands : 0 < s < BASE /\
  exists t' d', scale_up t s = Ret t' /\ scale_up d s = Ret d' /\ tmp_wf t' /\ tmp_wf d' /\
    length (tmp_array_ t') = DIV_TMP_SIZE /\ initial_size_ t' = size_ t /\ initial_size_ d' = size_ d /\ size_ d' = size_ d /\
    tmp_val t' = tmp_val t * s /\ tmp_val d' = tmp_val d * s /\ BASE <= 2 * max_element d'.
Proof using All.
  destruct (top_value d Wd) as [[T1 T2] T3]. destruct (scale_enough (max_element d) (conj Td T3)) as (Hs & Us & Gs).
  fold s in Hs, Us, Gs. split; [exact Hs|]. pose proof base_ge as HB. pose proof (base_pow (size_ d - 1)) as Pd.
  assert (tmp_val d * s < pw BASE (size_ d)) as Md.
  { apply Z.lt_le_trans with ((max_element d + 1) * pw BASE (size_ d - 1) * s); [apply Z.mul_lt_mono_pos_r; lia|].
    replace (pw BASE (size_ d)) with (BASE * pw BASE (size_ d - 1)) by (rewrite <- pw_S; f_equal; lia).
    replace ((max_element d + 1) * pw BASE (size_ d - 1) * s) with (s * (max_element d + 1) * pw BASE (size_ d - 1)) by ring.
    apply Z.mul_le_mono_nonneg_r; lia. }
  destruct (scale_up_ok t s Wt Hs) as (t' & Et & Wt' & Lt' & Vt' & It' & _).
  { rewrite Lt, div_tmp_size, pw_S, (Z.mul_comm BASE). pose proof tmp_max_base. pose proof (tmp_nonneg t Wt).
    apply Z.le_lt_trans with (tmp_val t * BASE); [apply Z.mul_le_mono_nonneg_l; lia|apply Z.mul_lt_mono_pos_r; lia]. }
  destruct (scale_up_ok d s Wd Hs) as (d' & Ed & Wd' & Ld' & Vd' & Id' & Sd').
  { apply Z.lt_le_trans with (1 := Md). apply pw_le; [lia|]. apply Wd. }
  specialize (Sd' Md). exists t', d'. rewrite Lt', It', Id', It, Id. repeat (split; [first [easy|lia]|]).
  assert (s * max_element d <= max_element d') as G; [|lia]. unfold max_element at 2, at_cell.
  rewrite (val_nth BASE HB) by apply Wd'. rewrite Sd'. fold (tmp_val d'). rewrite Vd'.
  rewrite Z.mod_small.
  - apply Z.div_le_lower_bound; [lia|]. replace (pw BASE (size_ d - 1) * (s * max_element d))
      with (max_element d * pw BASE (size_ d - 1) * s) by ring. apply Z.mul_le_mono_nonneg_r; lia.
  - pose proof (tmp_nonneg d Wd). split; [apply Z.div_pos; [apply Z.mul_nonneg_nonneg; lia|lia]|].
    apply Z.div_lt_upper_bound; [lia|]. rewrite (Z.mul_comm (pw _ _)), <- pw_S. replace (S (size_ d - 1)) with (size_ d) by lia. exact Md.
Qed.

Lemma slow_div_ok : array_result (tmp_val t / tmp_val d) (slow_div t d).
Proof using All.
  destruct scaled_operands as (Hs & t' & d' & Et & Ed & Wt' & Wd' & Lt' & It' & Id' & Sd' & Vt' & Vd' & Nd').
  destruct (top_value d Wd) as [[T1 T2] T3]. pose proof base_ge as HB. pose proof max_value_base as Mb.
  pose proof (base_pow (size_ d - 1)) as Pd. assert (0 < tmp_val d) as Pv by nia.
  destruct (tmp_low d' Wd') as (Vl & _ & Ll & Cl). rewrite Sd' in Vl, Ll, Cl.
  destruct (firstn_elements d' Wd' ltac:(lia)) as [E1 E0]. rewrite Sd' in E1, E0.
  assert (tmp_val t' / tmp_val d' = tmp_val t / tmp_val d) as Eq by (rewrite Vt', Vd'; apply Z.div_mul_cancel_r; lia).
  unfold slow_div. fold s. rewrite Et, Ed. cbn [bind]. rewrite It', Id'. set (i := (size_ t - size_ d)%nat).
  destruct (Nat.ltb_spec SIZE i) as [G|G].
  { unfold array_result. rewrite (proj2 (Z.ltb_ge _ _)); [reflexivity|]. apply Z.le_trans with (1 := Mb).
    apply Z.div_le_lower_bound; [easy|]. apply Z.le_trans with (pw BASE (size_ d) * pw BASE SIZE).
    - apply Z.mul_le_mono_nonneg_r; [pose proof (base_pow SIZE); lia|]. destruct Wd as (_ & _ & Vd). unfold tmp_val. lia.
    - rewrite <- pw_add. apply Z.le_trans with (2 := Tt). apply pw_le; lia. }
  assert (tmp_val t' < tmp_val d' * pw BASE (S i)) as V.
  { rewrite Vt', Vd'. destruct Wt as (_ & _ & Vt). fold (tmp_val t) in Vt.
    apply Z.lt_le_trans with (pw BASE (size_ t) * s); [apply Z.mul_lt_mono_pos_r; lia|].
    replace (size_ t) with (size_ d - 1 + S i)%nat by lia. rewrite pw_add. pose proof (base_pow (S i)).
    assert (1 * pw BASE (size_ d - 1) <= max_element d * pw BASE (size_ d - 1)) by (apply Z.mul_le_mono_nonneg_r; lia).
    assert (pw BASE (size_ d - 1) * pw BASE (S i) <= tmp_val d * pw BASE (S i)) by (apply Z.mul_le_mono_nonneg_r; lia).
    replace (tmp_val d * s * pw BASE (S i)) with (tmp_val d * pw BASE (S i) * s) by ring. apply Z.mul_le_mono_nonneg_r; lia. }
  assert (size_ t <= TMP_SIZE)%nat as Lm.
  { destruct (Nat.le_gt_cases (size_ t) TMP_SIZE) as [|H]; [easy|exfalso].
    assert (pw BASE TMP_SIZE <= pw BASE (size_ t - 1)) by (apply pw_le; lia). pose proof tmp_max_base. lia. }
  pose proof div_tmp_size as Ds.
  assert (quotient_result d' t' [] (S i) (quotient_loop (S i) t' d' (max_element d') (pre_max_element d') (repeat 0 (SIZE - S i)))) as R.
  { rewrite <- E1, <- E0, <- Id'. apply quotient_loop_ok; rewrite ?Id'; try easy; try lia. }
  unfold quotient_result in R. rewrite Id', Vl, Eq in R. unfold array_result.
  destruct (_ <? MAX_VALUE); [|rewrite R; reflexivity].
  destruct R as (t2 & q & -> & W2 & _ & Lq & Cq & Vq & V2). cbn [bind].
  assert (array_ok q /\ val BASE q = tmp_val t / tmp_val d) as [Aq Eq2] by (split; [split; easy|rewrite Vq; cbn [val]; lia]).
  destruct (Z.ltb_spec 1 s); [|exists q; auto].
  destruct (DivTmp_div_ok t2 s W2 ltac:(lia)) as (t3 & -> & _). cbn [bind]. rewrite V2, Vt', Vd', Z.mul_mod_distr_r, Z.mod_mul by lia.
  cbn [Z.eqb]. exists q. auto.
Qed.
End Slow.

(** ** div_ *)

Lemma existsb_nonzero (l : list Z) : cells BASE l -> existsb (fun x => negb (x =? 0)) l = negb (val BASE l =? 0).
Proof.
  intros C. assert (existsb (fun x => negb (x =? 0)) l = negb (forallb (fun x => x =? 0) l)) as ->
    by (clear; induction l as [|x l IH]; [reflexivity|]; cbn [existsb forallb]; rewrite IH; now destruct (x =? 0)).
  f_equal. apply eq_true_iff_eq. rewrite all_zero, Z.eqb_eq. symmetry. apply (val_zero BASE base_ge l C).
Qed.

Lemma export_div_ok t : tmp_wf t -> (SIZE <= length (tmp_array_ t))%nat ->
  array_result (tmp_val t)
    (match DivTmpDividend_export_to t with None => Throw Overflow | Some q => Ret q end).
Proof.
  intros (C & L & V) Ls. unfold DivTmpDividend_export_to, array_result, tmp_val. set (a := tmp_array_ t) in *.
  pose proof base_ge as HB. pose proof size_pos. pose proof max_value_base as Mb. pose proof (val_nonneg BASE HB a C) as V0.
  assert (array_ok (firstn SIZE a)) as A by (split; [rewrite length_firstn; lia|now apply cells_firstn]).
  assert (at_cell a (SIZE - 1) = at_cell (firstn SIZE a) (SIZE - 1)) as ->.
  { unfold at_cell. rewrite <- (firstn_skipn SIZE a) at 1. apply app_nth1. destruct A. lia. }
  rewrite top_element by easy. pose proof (val_firstn BASE HB a SIZE C) as Vf. pose proof (base_pow SIZE) as P.
  rewrite existsb_nonzero by now apply cells_skipn. rewrite val_skipn by easy.
  pose proof (Z.div_mod (val BASE a) (pw BASE SIZE)) as D0. specialize (D0 ltac:(lia)). rewrite <- Vf in D0.
  pose proof (array_bound _ A) as Ba. pose proof (Z.div_pos _ _ V0 P) as Q0.
  destruct (Z.leb_spec MAX_VALUE (val BASE (firstn SIZE a))).
  - rewrite (proj2 (Z.ltb_ge _ _)); [reflexivity|]. assert (0 <= pw BASE SIZE * (val BASE a / pw BASE SIZE)) by (apply Z.mul_nonneg_nonneg; lia). lia.
  - destruct (Z.eqb_spec (val BASE a / pw BASE SIZE) 0) as [Z0|N]; cbn [negb].
    + rewrite Z0, Z.mul_0_r, Z.add_0_l in D0. rewrite (proj2 (Z.ltb_lt _ _)) by lia. eexists. split; [reflexivity|]. split; [exact A|lia].
    + rewrite (proj2 (Z.ltb_ge _ _)); [reflexivity|].
      assert (pw BASE SIZE * 1 <= pw BASE SIZE * (val BASE a / pw BASE SIZE)) by (apply Z.mul_le_mono_nonneg_l; lia). lia.
Qed.

(** The magnitude of a quotient. *)
Definition quotient_mag (a b : Decimal) : Z := magnitude a * fraction_unit / magnitude b.

Definition div_result (a b : Decimal) (r : outcome (bool * Decimal)) : Prop :=
  if magnitude b =? 0 then r = Throw Overflow
  else if quotient_mag a b <? MAX_VALUE
  then exists w q, r = Ret (w, q) /\ wf q /\ negative_ q = xorb (negative_ a) (negative_ b) /\
    magnitude q = quotient_mag a b /\ (w = true -> quotient_mag a b = 0)
  else r = Throw Overflow.

Lemma array_div_result a b (r : outcome (list Z)) : magnitude b <> 0 -> array_result (quotient_mag a b) r ->
  div_result a b (array <- r ;; Ret (false, mkDecimal (xorb (negative_ a) (negative_ b)) array)).
Proof.
  unfold array_result, div_result. intros N R. rewrite (proj2 (Z.eqb_neq _ _) N).
  destruct (Z.ltb_spec (quotient_mag a b) MAX_VALUE); [|now rewrite R]. destruct R as (q & -> & A & V). cbn [bind].
  do 2 eexists. split; [reflexivity|]. unfold wf, magnitude. cbn [array_ negative_]. rewrite V. repeat split; try apply A; easy.
Qed.

Lemma div_ok a b : wf a -> wf b -> div_result a b (div_ a b).
Proof.
  intros Wa Wb. pose proof (wf_range a Wa) as Ra. pose proof (wf_range b Wb) as Rb. pose proof fraction_unit_pos as U.
  pose proof tmp_max as TM. fold fraction_unit in TM. pose proof base_ge as HB.
  destruct (dividend_ok a Wa) as (Wt0 & Lt0 & Vt0 & It0). destruct (divisor_ok b Wb) as (Wd0 & Ld0 & Vd0 & Id0).
  unfold div_. destruct (shrink_ok _ Wt0) as (Wt & Et & Tt & It & _). specialize (It It0).
  destruct (shrink_ok _ Wd0) as (Wd & Ed & Td & Id & _). specialize (Id Id0).
  set (t := shrink (DivTmpDividend_new a)) in *. set (d := shrink (DivTmpDivisor_new b)) in *.
  assert (tmp_val t = magnitude a * fraction_unit) as Vt by (unfold tmp_val in *; rewrite Et; exact Vt0).
  assert (tmp_val d = magnitude b) as Vd by (unfold tmp_val in *; rewrite Ed; exact Vd0). rewrite Vt0 in Tt. rewrite Vd0 in Td.
  assert (length (tmp_array_ t) = DIV_TMP_SIZE) as Lt by (rewrite Et; exact Lt0).
  assert (0 <= max_element d) as Pm by (apply (cells_nth BASE HB _ _ (proj1 Wd))).
  destruct (Z.eqb_spec (max_element d) 0) as [Z0|N].
  - assert (magnitude b = 0) as Zb by (rewrite <- Vd; apply max_element_zero; [easy|rewrite Vd; exact Td|easy]).
    unfold div_result. now rewrite Zb.
  - assert (0 < max_element d) as Pd by lia. destruct (top_value d Wd) as [[T1 T2] T3].
    pose proof (base_pow (size_ d - 1)) as Pp.
    assert (1 * pw BASE (size_ d - 1) <= max_element d * pw BASE (size_ d - 1)) as G1 by (apply Z.mul_le_mono_nonneg_r; lia).
    assert (magnitude b <> 0) as Nb by lia.
    destruct (Nat.ltb_spec (size_ t) (size_ d)) as [Ls|Ls].
    + unfold div_result. rewrite (proj2 (Z.eqb_neq _ _) Nb). assert (quotient_mag a b = 0) as Q0.
      { unfold quotient_mag. rewrite <- Vt. apply Z.div_small. split; [apply (tmp_nonneg t Wt)|].
        destruct Wt as (_ & L & V). fold (tmp_val t) in V. apply Z.lt_le_trans with (1 := V).
        apply Z.le_trans with (pw BASE (size_ d - 1)); [apply pw_le; lia|lia]. }
      rewrite Q0, (proj2 (Z.ltb_lt _ _)) by apply max_value_pos. do 2 eexists. split; [reflexivity|].
      unfold wf, magnitude. cbn [array_ negative_]. rewrite val_zeros. repeat split; [apply array_zeros..|apply max_value_pos].
    + destruct (Nat.eqb_spec (size_ d) 1) as [L1|L1].
      * assert (max_element d = magnitude b) as Em by (rewrite L1, Nat.sub_diag, pw_0 in T1, T2; lia).
        destruct (DivTmp_div_ok t (max_element d) Wt ltac:(lia)) as (t' & -> & Wt' & Lt' & Vt'). cbn [bind].
        pose proof (export_div_ok t' Wt') as R. rewrite Lt', Lt in R. pose proof div_tmp_size. pose proof export_size.
        specialize (R ltac:(lia)). rewrite Vt', Vt, Em in R. apply (array_div_result a b) in R; [|easy].
        destruct (DivTmpDividend_export_to t'); exact R.
      * apply array_div_result; [easy|]. unfold quotient_mag. rewrite <- Vt, <- Vd.
        assert (2 <= size_ d <= size_ t)%nat as H2 by (destruct Wd as (_ & ? & _); lia).
        apply slow_div_ok; try easy.
        { rewrite Vt, TM. apply Z.mul_lt_mono_pos_r; lia. }
        rewrite Vt. apply Tt. lia.
Qed.

(** ** Both [div] *)

Lemma quotient_bounds a b q : wf a -> wf b -> magnitude b <> 0 -> q = quotient_mag a b ->
  q * magnitude b / fraction_unit <= magnitude a /\
  (q * magnitude b / fraction_unit = magnitude a <-> magnitude a * fraction_unit mod magnitude b = 0) /\
  (magnitude a - q * magnitude b / fraction_unit) * fraction_unit < magnitude b + fraction_unit.
Proof.
  intros Wa Wb N ->. pose proof (wf_range a Wa) as Ra. pose proof (wf_range b Wb) as Rb. pose proof fraction_unit_pos as U.
  unfold quotient_mag. set (p := magnitude a * fraction_unit). assert (0 < magnitude b) as Pb by lia.
  pose proof (Z.div_mod p (magnitude b) N) as D0. pose proof (Z.mod_pos_bound p (magnitude b) Pb) as R0.
  set (q := p / magnitude b) in *. set (r := p mod magnitude b) in *.
  pose proof (Z.mul_div_le (q * magnitude b) fraction_unit U) as L. pose proof (Z.mul_succ_div_gt (q * magnitude b) fraction_unit U) as G.
  set (x := q * magnitude b / fraction_unit) in *. assert (p = magnitude a * fraction_unit) as Ep by reflexivity. split; [|split].
  - apply (Z.mul_le_mono_pos_l _ _ fraction_unit); lia.
  - split; intros H; [|apply (Z.mul_reg_l _ _ fraction_unit); [lia|]].
    + rewrite H in L. lia.
    + unfold x. replace (q * magnitude b) with (magnitude a * fraction_unit) by lia. rewrite Z.div_mul by lia. reflexivity.
  - lia.
Qed.

Lemma product_ok a b q : wf a -> wf b -> wf q -> magnitude b <> 0 -> magnitude q = quotient_mag a b ->
  negative_ q = xorb (negative_ a) (negative_ b) ->
  exists p, mul q b DMR_FLOOR = Ret p /\ wf p /\ negative_ p = negative_ a /\
    magnitude p = magnitude q * magnitude b / fraction_unit.
Proof.
  intros Wa Wb Wq N Mq Nq. destruct (quotient_bounds a b _ Wa Wb N Mq) as (L & _ & _). pose proof (wf_range a Wa).
  pose proof (mul_ok q b DMR_FLOOR Wq Wb) as R. cbv zeta in R. cbn [mul_mag] in R.
  rewrite (proj2 (Z.ltb_lt _ _)) in R by lia. destruct R as (p & E & Wp & Np & Mp). exists p.
  split; [exact E|]. split; [exact Wp|]. split; [|exact Mp]. rewrite Np, Nq. now destruct (negative_ a), (negative_ b).
Qed.

Lemma div_rem_ok a b : wf a -> wf b -> magnitude b <> 0 -> quotient_mag a b < MAX_VALUE ->
  exists q r, div_rem a b = Ret (q, r) /\ wf q /\ wf r /\ negative_ q = xorb (negative_ a) (negative_ b) /\
    magnitude q = quotient_mag a b /\
    value r = (if negative_ a then -1 else 1) * (magnitude a - magnitude q * magnitude b / fraction_unit) /\
    Z.abs (value r) * fraction_unit < magnitude b + fraction_unit.
Proof.
  intros Wa Wb N L. pose proof (div_ok a b Wa Wb) as R. unfold div_result in R.
  rewrite (proj2 (Z.eqb_neq _ _) N), (proj2 (Z.ltb_lt _ _) L) in R. destruct R as (w & q & E & Wq & Nq & Mq & Hw).
  destruct (quotient_bounds a b _ Wa Wb N Mq) as (Lq & _ & Gq). pose proof (wf_range a Wa) as Ra.
  unfold div_rem. rewrite E. cbn [bind]. destruct w.
  - specialize (Hw eq_refl). exists q, a. rewrite Mq, Hw in *. rewrite Z.mul_0_l, Z.div_0_l in * by (pose proof fraction_unit_pos; lia).
    unfold value. replace (Z.abs _) with (magnitude a - 0) by (destruct (negative_ a); lia).
    repeat split; try apply Wq; try apply Wa; auto. destruct (negative_ a); lia.
  - destruct (product_ok a b q Wa Wb Wq N Mq Nq) as (p & -> & Wp & Np & Mp). cbn [bind].
    pose proof (sub_ok a p Wa Wp) as Rs. pose proof (wf_range p Wp).
    assert (value a - value p = (if negative_ a then -1 else 1) * (magnitude a - magnitude q * magnitude b / fraction_unit)) as Ev
      by (unfold value; rewrite Np, Mp; destruct (negative_ a); lia).
    rewrite (proj2 (Z.ltb_lt _ _)) in Rs by (rewrite Ev; destruct (negative_ a); lia).
    destruct Rs as (r & -> & Wr & Vr). cbn [bind]. exists q, r. rewrite Vr, Ev.
    replace (Z.abs _) with (magnitude a - magnitude q * magnitude b / fraction_unit) by (destruct (negative_ a); lia).
    rewrite Mq in *. repeat split; try apply Wq; try apply Wr; auto.
Qed.

Lemma EPSILON_ok : FRACTION_END <> SIZE -> exists e, EPSILON = Ret e /\ wf e /\ magnitude e = 1.
Proof.
  intros N. unfold EPSILON. pose proof integer_max_over_spec as [M O]. pose proof (base_pow (SIZE - 1)) as P.
  assert (1 < MAX_VALUE) as M1 by (rewrite M; nia). pose proof fraction_facts as (_ & _ & _ & Fo).
  assert (forall i f, 0 <= i <= 1 -> 0 <= f <= 1 -> i * pw 10 FRACTION_RANK + f = 1 -> f < pw 10 FRACTION_RANK ->
    i < integer_limit -> exists e, Decimal_parts false i f = Ret e /\ wf e /\ magnitude e = 1) as K.
  { intros i f Hi Hf E Lf Li. pose proof (parts_ok false i f) as R. cbv zeta in R. specialize (R ltac:(lia) ltac:(lia)).
    rewrite (proj2 (Z.leb_gt _ _) Lf), (proj2 (Nat.eqb_neq _ _) N), (proj2 (Z.leb_gt _ _) Li) in R.
    destruct R as (e & -> & A & _ & Me). exists e. rewrite E in Me. repeat split; try apply A; [|exact Me]. now rewrite Me. }
  assert (0 < integer_limit) as L0 by (unfold integer_limit; repeat destruct (_ =? _)%nat; try lia; apply pw_pos; lia).
  destruct (Nat.eqb_spec FRACTION_RANK 0) as [Z0|Nz].
  - apply K; rewrite ?Z0, ?pw_0; try lia. pose proof total_rank_pos.
    assert (INTEGER_RANK = TOTAL_RANK) as EI by (unfold INTEGER_RANK; lia). unfold integer_limit.
    rewrite EI, (proj2 (Nat.eqb_neq TOTAL_RANK 0)) by lia. destruct (_ =? _)%nat; [lia|exact M1].
  - apply K; try lia. apply (pw_lt 10 0); lia.
Qed.

Definition div_mag (ddr : DecimalDivRemainder) (a b : Decimal) : Z :=
  match ddr with
  | DDR_FLOOR => quotient_mag a b
  | DDR_CEIL => (magnitude a * fraction_unit + magnitude b - 1) / magnitude b
  end.

Lemma div_ddr_ok a b ddr : wf a -> wf b -> magnitude b <> 0 -> (ddr = DDR_CEIL -> FRACTION_END <> SIZE) ->
  if div_mag ddr a b <? MAX_VALUE
  then exists q, div a b ddr = Ret q /\ wf q /\ negative_ q = xorb (negative_ a) (negative_ b) /\ magnitude q = div_mag ddr a b
  else div a b ddr = Throw Overflow.
Proof.
  intros Wa Wb N Hc. pose proof (div_ok a b Wa Wb) as R. unfold div_result in R. rewrite (proj2 (Z.eqb_neq _ _) N) in R.
  pose proof (wf_range a Wa) as Ra. pose proof (wf_range b Wb) as Rb. pose proof fraction_unit_pos as U. unfold div.
  assert (quotient_mag a b <= div_mag ddr a b) as Le.
  { destruct ddr; cbn [div_mag]; [lia|]. unfold quotient_mag. apply Z.div_le_mono; lia. }
  destruct (Z.ltb_spec (quotient_mag a b) MAX_VALUE) as [L|L].
  2:{ rewrite R. cbn [bind]. now rewrite (proj2 (Z.ltb_ge _ _)) by lia. }
  destruct R as (w & q & -> & Wq & Nq & Mq & _). cbn [bind]. destruct ddr; cbn [div_mag] in *.
  { rewrite (proj2 (Z.ltb_lt _ _) L). exists q. auto. }
  destruct (product_ok a b q Wa Wb Wq N Mq Nq) as (p & -> & Wp & Np & Mp). cbn [bind].
  destruct (quotient_bounds a b _ Wa Wb N Mq) as (_ & Eq & _). rewrite <- Mp in Eq.
  rewrite ceil_div by (try apply Z.mul_nonneg_nonneg; lia). fold (quotient_mag a b).
  assert (dec_eq a p = (magnitude a * fraction_unit mod magnitude b =? 0)) as ->.
  { rewrite dec_eq_ok by easy. apply eq_true_iff_eq. rewrite !Z.eqb_eq, <- Eq. unfold value. rewrite Np.
    pose proof (wf_range p Wp). destruct (negative_ a); lia. }
  destruct (Z.eqb_spec (magnitude a * fraction_unit mod magnitude b) 0) as [Z0|Nz]; cbn [negb].
  - rewrite Z.add_0_r, (proj2 (Z.ltb_lt _ _) L). exists q. auto.
  - destruct (EPSILON_ok (Hc eq_refl)) as (e & -> & We & Me). cbn [bind].
    destruct (internal_add_ok q e Wq We) as (t & over & -> & Eo & Ok). rewrite Me, Mq in Eo, Ok.
    rewrite Z.ltb_antisym, <- Eo. destruct over; cbn [negb]; [reflexivity|]. destruct (Ok eq_refl) as [At Vt].
    symmetry in Eo. apply Z.leb_gt in Eo. eexists. split; [reflexivity|]. unfold wf, magnitude. cbn [array_ negative_].
    rewrite Vt. repeat split; try apply At; auto.
Qed.
End Arrays.

(** ** Every decimal *)

Section Made.
Context {D : DecimalRanks} {Dok : DecimalRanksOk D}.

(** The decimals the public constructors and operations give.  Where the check of
    the last element does not limit the integer part, the caller has to. *)
Inductive made : Decimal -> Prop :=
| made_text str d : size str < NPOS -> Decimal_str str = Ret d -> made d
| made_parts negative integer fraction d : 0 <= integer -> 0 <= fraction < 2 ^ 64 ->
    integers_checked \/ integer < pw 10 INTEGER_RANK ->
    Decimal_parts negative integer fraction = Ret d -> made d
| made_power (I : IntType) (Iok : IntTypeOk I) bits integer power d :
    int_min <= integer <= int_max -> int_max < 2 ^ bits -> bits <= 64 ->
    integers_checked \/ power_value integer power < MAX_VALUE ->
    Decimal_power bits integer power = Ret d -> made d
| made_simple (I : IntType) (Iok : IntTypeOk I) bits data negative diff_fraction d :
    int_min <= data <= int_max -> int_max < 2 ^ bits -> bits <= 64 ->
    integers_checked \/ power_value data diff_fraction < MAX_VALUE ->
    Decimal_simple bits data negative diff_fraction = Ret d -> made d
| made_maximum : made maximum_
| made_epsilon d : EPSILON = Ret d -> made d
| made_unpacked d e : made d -> unpack (pack d) = Ret e -> made e
| made_negate d : made d -> made (negate d)
| made_floor k d : made d -> made (floor k d)
| made_ceil k d r : made d -> ceil k d = Ret r -> made r
| made_add a b r : made a -> made b -> add a b = Ret r -> made r
| made_sub a b r : made a -> made b -> sub a b = Ret r -> made r
| made_mul a b dmr r : made a -> made b -> mul a b dmr = Ret r -> made r
| made_div a b ddr r : made a -> made b -> div a b ddr = Ret r -> made r
| made_quotient a b q r : made a -> made b -> div_rem a b = Ret (q, r) -> made q
| made_remainder a b q r : made a -> made b -> div_rem a b = Ret (q, r) -> made r.

Lemma maximum_wf : wf maximum_ /\ magnitude maximum_ = MAX_VALUE - 1.
Proof.
  pose proof base_ge as HB. pose proof integer_max_over_spec as [M O]. pose proof size_pos as Sp.
  assert (forall k, val BASE (repeat (BASE - 1) k) = pw BASE k - 1) as V.
  { induction k as [|k IH]; cbn [repeat val]; [now rewrite pw_0|]. rewrite IH, pw_S. ring. }
  assert (magnitude maximum_ = MAX_VALUE - 1) as Em.
  { unfold magnitude, maximum_. cbn [array_]. rewrite val_app, V, repeat_length, M. cbn [val]. ring. }
  split; [|exact Em]. split; [|lia]. unfold maximum_. cbn [array_]. split; [rewrite length_app, repeat_length; cbn [length]; lia|].
  apply Forall_app. split; [|repeat constructor; lia]. apply Forall_forall. intros x I. apply repeat_spec in I. subst x.
  unfold is_cell. lia.
Qed.

Lemma text_wf str d : size str < NPOS -> Decimal_str str = Ret d -> wf d.
Proof.
  intros S E. destruct (read_numbers_only str S) as [(d' & s & ip & fp & E' & N & ->)|[R|R]]; try congruence.
  pose proof (read_numeral s ip fp N S) as R. cbv zeta in R. rewrite E in R.
  destruct (_ || _); [discriminate|]. destruct R as (x & Ex & W & _). apply Ret_inj in Ex. now subst.
Qed.

Lemma parts_wf negative integer fraction d : 0 <= integer -> 0 <= fraction < 2 ^ 64 ->
  integers_checked \/ integer < pw 10 INTEGER_RANK -> Decimal_parts negative integer fraction = Ret d -> wf d.
Proof.
  intros Hi Hf Hc E. pose proof (parts_ok negative integer fraction Hi Hf) as R. cbv zeta in R. rewrite E in R.
  destruct (Z.leb_spec (pw 10 FRACTION_RANK) fraction) as [|Lf]; [discriminate|]. destruct (_ =? _)%nat; [discriminate|].
  destruct (Z.leb_spec integer_limit integer) as [|Li]; [discriminate|].
  destruct R as (x & Ex & A & _ & M). apply Ret_inj in Ex. subst x.
  assert (integer < pw 10 INTEGER_RANK) as L.
  { destruct Hc as [Hc|Hc]; [|exact Hc]. destruct (Nat.eq_dec INTEGER_RANK 0) as [I0|In].
    - rewrite I0, pw_0. unfold integer_limit in Li. now rewrite I0 in Li.
    - now rewrite <- checked_limit. }
  split; [exact A|]. rewrite M. unfold MAX_VALUE. pose proof fraction_rank_le.
  replace TOTAL_RANK with (INTEGER_RANK + FRACTION_RANK)%nat by (unfold INTEGER_RANK; lia). rewrite pw_add. nia.
Qed.

Lemma simple_wf {I : IntType} {Iok : IntTypeOk I} bits data negative diff_fraction d :
  int_min <= data <= int_max -> int_max < 2 ^ bits -> bits <= 64 ->
  integers_checked \/ power_value data diff_fraction < MAX_VALUE ->
  Decimal_simple bits data negative diff_fraction = Ret d -> wf d.
Proof.
  intros Hr Hm Hb Hc E. unfold Decimal_simple in E. destruct (Decimal_power bits data diff_fraction) as [x| |] eqn:Ex;
    try discriminate. cbn [bind] in E. apply Ret_inj in E. subst d. exact (power_wf bits data diff_fraction x Hr Hm Hb Hc Ex).
Qed.

Lemma epsilon_wf d : EPSILON = Ret d -> wf d.
Proof.
  intros E. unfold EPSILON in E. pose proof (pw_pos 10 INTEGER_RANK ltac:(lia)). pose proof total_rank_pos.
  eapply parts_wf; [| | |exact E]; destruct (Nat.eqb_spec FRACTION_RANK 0) as [F0|]; try lia; try (split; easy).
  right. apply (pw_lt 10 0); [lia|]. unfold INTEGER_RANK. lia.
Qed.

Lemma checked_wf {X} (c : bool) (r : outcome X) (P : X -> Prop) x :
  (if c then exists y, r = Ret y /\ P y else r = Throw Overflow) -> r = Ret x -> P x.
Proof. intros H E. destruct c; [|congruence]. destruct H as (y & Ey & Py). rewrite E in Ey. apply Ret_inj in Ey. now subst. Qed.

Lemma div_zero a b ddr : wf a -> wf b -> magnitude b = 0 -> div a b ddr = Throw Overflow /\ div_rem a b = Throw Overflow.
Proof.
  intros Wa Wb Z0. pose proof (div_ok a b Wa Wb) as R. unfold div_result in R. rewrite Z0 in R. cbn [Z.eqb] in R.
  unfold div, div_rem. rewrite R. split; reflexivity.
Qed.

Lemma div_rem_wf a b q r : wf a -> wf b -> div_rem a b = Ret (q, r) -> wf q /\ wf r.
Proof.
  intros Wa Wb E. pose proof (div_ok a b Wa Wb) as R. unfold div_result in R.
  destruct (Z.eqb_spec (magnitude b) 0) as [Z0|N]; [destruct (div_zero a b DDR_CEIL Wa Wb Z0); congruence|].
  destruct (Z.ltb_spec (quotient_mag a b) MAX_VALUE) as [L|L]; [|unfold div_rem in E; rewrite R in E; discriminate].
  destruct (div_rem_ok a b Wa Wb N L) as (q' & r' & E' & Wq & Wr & _). rewrite E in E'. now injection E' as -> ->.
Qed.

Lemma div_wf a b ddr r : wf a -> wf b -> div a b ddr = Ret r -> wf r.
Proof.
  intros Wa Wb E. destruct (Z.eq_dec (magnitude b) 0) as [Z0|N]; [destruct (div_zero a b ddr Wa Wb Z0); congruence|].
  destruct (Nat.eq_dec FRACTION_END SIZE) as [Es|Ne].
  2:{ eapply checked_wf in E; [|apply (div_ddr_ok a b ddr Wa Wb N); auto]. apply E. }
  assert (div a b DDR_FLOOR = Ret r) as Ef.
  { destruct ddr; [exact E|]. unfold div in *. destruct (div_ a b) as [[w q]| |]; try discriminate. cbn [bind] in *.
    destruct (mul q b DMR_FLOOR); try discriminate. cbn [bind] in E. destruct (negb _); [|exact E].
    destruct EPSILON as [e| |] eqn:Ee; try discriminate. exfalso. unfold EPSILON in Ee.
    pose proof (parts_ok false (if (FRACTION_RANK =? 0)%nat then 1 else 0) (if (FRACTION_RANK =? 0)%nat then 0 else 1)) as R.
    cbv zeta in R. rewrite Ee, (proj2 (Nat.eqb_eq _ _) Es) in R.
    specialize (R ltac:(destruct (_ =? _)%nat; lia) ltac:(destruct (_ =? _)%nat; split; easy)).
    destruct (_ <=? _); discriminate. }
  eapply checked_wf in Ef; [|apply (div_ddr_ok a b DDR_FLOOR Wa Wb N); discriminate]. apply Ef.
Qed.

(** C9: the quotient of [div] is the exact one, of [FRACTION_RANK] digits,
    rounded as asked for, when that has at most [TOTAL_RANK] digits; division by
    zero and too big quotients throw [Overflow].  (Rounding up adds [EPSILON],
    which exists unless the point is after the last element.)  The remainder
    makes up for the quotient: it is the dividend less the product, has its
    sign, and is less than the divisor times the unit of the last digit, but for
    the rounding of that product. *)
Theorem big_decimal_div a b ddr : wf a -> wf b -> (ddr = DDR_CEIL -> FRACTION_END <> SIZE) ->
  if magnitude b =? 0 then div a b ddr = Throw Overflow /\ div_rem a b = Throw Overflow
  else
    (if div_mag ddr a b <? MAX_VALUE
     then exists q, div a b ddr = Ret q /\ wf q /\ negative_ q = xorb (negative_ a) (negative_ b) /\
            magnitude q = div_mag ddr a b
     else div a b ddr = Throw Overflow) /\
    (if quotient_mag a b <? MAX_VALUE
     then exists q r, div_rem a b = Ret (q, r) /\ wf q /\ wf r /\
            negative_ q = xorb (negative_ a) (negative_ b) /\ magnitude q = quotient_mag a b /\
            value r = (if negative_ a then -1 else 1) * (magnitude a - magnitude q * magnitude b / fraction_unit) /\
            Z.abs (value r) * fraction_unit < magnitude b + fraction_unit
     else div_rem a b = Throw Overflow).
Proof.
  intros Wa Wb Hc. destruct (Z.eqb_spec (magnitude b) 0) as [Z0|N]; [now apply div_zero|].
  split; [now apply div_ddr_ok|]. destruct (Z.ltb_spec (quotient_mag a b) MAX_VALUE) as [L|L]; [now apply div_rem_ok|].
  pose proof (div_ok a b Wa Wb) as R. unfold div_result in R. rewrite (proj2 (Z.eqb_neq _ _) N), (proj2 (Z.ltb_ge _ _) L) in R.
  unfold div_rem. now rewrite R.
Qed.


End Made.

Lemma big_decimal_div_witness :
  let D := D36_16 in let Dok := D36_16_ok in
  let a := mkDecimal true [999999999999999998; 999999999999999999] in let b := mkDecimal false [5; 999999999999999999] in
  if magnitude b =? 0 then div a b DDR_CEIL = Throw Overflow /\ div_rem a b = Throw Overflow
  else
    (if div_mag DDR_CEIL a b <? MAX_VALUE
     then exists q, div a b DDR_CEIL = Ret q /\ wf q /\ negative_ q = xorb (negative_ a) (negative_ b) /\
            magnitude q = div_mag DDR_CEIL a b
     else div a b DDR_CEIL = Throw Overflow) /\
    (if quotient_mag a b <? MAX_VALUE
     then exists q r, div_rem a b = Ret (q, r) /\ wf q /\ wf r /\
            negative_ q = xorb (negative_ a) (negative_ b) /\ magnitude q = quotient_mag a b /\
            value r = (if negative_ a then -1 else 1) * (magnitude a - magnitude q * magnitude b / fraction_unit) /\
            Z.abs (value r) * fraction_unit < magnitude b + fraction_unit
     else div_rem a b = Throw Overflow).
Proof.
  apply (big_decimal_div (D := D36_16) (mkDecimal true [999999999999999998; 999999999999999999])
    (mkDecimal false [5; 999999999999999999]) DDR_CEIL);
    [split; [split; [reflexivity|repeat constructor; vm_compute; easy]|vm_compute; easy]..|intros _; vm_compute; lia].
Defined.

(** Ten digits in an element that holds eighteen: integers are not checked. *)
Definition D10_2 : DecimalRanks := {| element_bits := 64; TOTAL_RANK := 10; FRACTION_RANK := 2 |}.
Lemma D10_2_ok : DecimalRanksOk D10_2.
Proof. split; [cbn; lia|cbn; lia|cbn; lia]. Qed.

