(* ===== verification/CompressedSet.v ===== *)
(** * CompressedSet: a set of integers kept as disjoint intervals

    Models [src/src/Generics/CompressedSet.hpp] ([add], [remove], [belongs],
    [check_presence], [clear]) and [safe_next] of
    [src/src/Generics/TypeTraits.hpp].

    The [std::map] from the low to the high bound of each interval is the list
    of its elements in key order; an iterator is the key of the element it
    points to ([None] is [end()]), so an iterator to an erased element is
    dangling and its use is [Undef].  The cached iterator [last_found_] is part
    of the state.  The abstract value of a set is the characteristic function
    [covers]; the theorems show that the operations implement the set
    operations on it, keep the intervals separated by gaps, and never use a
    dangling iterator. *)

From Stdlib Require Import ZArith List Bool Lia.
From S2P Require Import Prelude.
Import ListNotations.

(** ** The ordered map *)

Abbreviation interval := (Z * Z)%type.

(** [lower_bound]: the first element whose key is not less than [k]. *)
Fixpoint lower_bound (k : Z) (l : list interval) : option Z :=
  match l with
  | [] => None
  | (f, _) :: t => if f <? k then lower_bound k t else Some f
  end.

(** [++itor] for the element of key [k]. *)
Fixpoint next (k : Z) (l : list interval) : option Z :=
  match l with
  | [] => None
  | (f, _) :: t => if f <=? k then next k t else Some f
  end.

(** [--itor]: the last element before the one of key [k], or before [end()]. *)
Fixpoint prev_from (found : option Z) (it : option Z) (l : list interval) : option Z :=
  match l with
  | [] => found
  | (f, _) :: t =>
      if match it with Some k => f <? k | None => true end
      then prev_from (Some f) it t else found
  end.

Definition prev (it : option Z) (l : list interval) : outcome (option Z) :=
  match prev_from None it l with Some k => Ret (Some k) | None => Undef end.

Definition begin (l : list interval) : option Z :=
  match l with [] => None | (f, _) :: _ => Some f end.

(** [itor->second]. *)
Fixpoint second (k : Z) (l : list interval) : outcome Z :=
  match l with
  | [] => Undef
  | (f, s) :: t => if f =? k then Ret s else second k t
  end.

(** [itor->second = v]. *)
Fixpoint set_second (k v : Z) (l : list interval) : list interval :=
  match l with
  | [] => []
  | (f, s) :: t => if f =? k then (f, v) :: t else (f, s) :: set_second k v t
  end.

Fixpoint erase (k : Z) (l : list interval) : list interval :=
  match l with
  | [] => []
  | (f, s) :: t => if f =? k then t else (f, s) :: erase k t
  end.

(** [insert(value_type(k, v))]: nothing happens when the key is there. *)
Fixpoint map_insert (k v : Z) (l : list interval) : list interval :=
  match l with
  | [] => [(k, v)]
  | (f, s) :: t =>
      if f <? k then (f, s) :: map_insert k v t
      else if f =? k then l else (k, v) :: l
  end.

Definition it_eqb (a b : option Z) : bool :=
  match a, b with
  | Some x, Some y => x =? y
  | None, None => true
  | _, _ => false
  end.

(** ** The set *)

Record CSet : Type := mkCSet { holder_ : list interval; last_found_ : option Z }.

Inductive CheckStatus : Type := CS_NONE | CS_ALL | CS_SOME.

Section CompressedSet.
Context {I : IntType}.

Definition safe_next (number : Z) : Z := if number <? int_max then number + 1 else number.

Definition CSet_new : CSet := mkCSet [] None.
Definition empty (st : CSet) : bool := match holder_ st with [] => true | _ => false end.

(** "Finding start element max(itor->first) <= low". *)
Definition start_element (low : Z) (l : list interval) : outcome (option Z) :=
  let itor := lower_bound low l in
  if (match itor with None => true | Some k => negb (k =? low) end) && negb (it_eqb itor (begin l))
  then prev itor l else Ret itor.

(** "Removing overlapped". *)
Fixpoint overlap_loop (fuel : nat) (base high high_next : Z) (itor : option Z)
  (l : list interval) : outcome (list interval) :=
  match itor with
  | None => Ret l
  | Some k =>
      if high_next <? k then Ret l
      else
        match fuel with
        | O => Undef
        | S fuel' =>
            s <- second k l ;;
            if high <? s then Ret (erase k (set_second base s l))
            else overlap_loop fuel' base high high_next (next k l) (erase k l)
        end
  end.

Definition add (low high : Z) (st : CSet) : outcome CSet :=
  if high <? low then Ret st
  else
    let l := holder_ st in
    itor <- start_element low l ;;
    inserting <-
      match itor with
      | None => Ret true
      | Some k =>
          if low <? k then Ret true
          else s <- second k l ;; Ret (safe_next s <? low)
      end ;;
    '(l, base) <-
      match inserting, itor with
      | false, Some k =>
          s <- second k l ;; Ret (if s <? high then set_second k high l else l, k)
      | _, _ => Ret (map_insert low high l, low)
      end ;;
    l <- overlap_loop (length l) base high (safe_next high) (next base l) l ;;
    Ret (mkCSet l None).

Fixpoint remove_loop (fuel : nat) (low high high_next : Z) (itor : option Z)
  (l : list interval) : outcome (list interval) :=
  match itor with
  | None => Ret l
  | Some k =>
      if high_next <=? k then Ret l
      else
        match fuel with
        | O => Undef
        | S fuel' =>
            s <- second k l ;;
            if low <=? k then
              if s <=? high then remove_loop fuel' low high high_next (next k l) (erase k l)
              else Ret (erase k (map_insert high_next s l))
            else if s <? low then remove_loop fuel' low high high_next (next k l) l
            else if s <=? high then
              remove_loop fuel' low high high_next itor (set_second k (low - 1) l)
            else
              remove_loop fuel' low high high_next itor
                (set_second k (low - 1) (map_insert high_next s l))
        end
  end.

(** Every element is visited at most twice, and one may be inserted. *)
Definition remove (low high : Z) (st : CSet) : outcome CSet :=
  if high <? low then Ret st
  else
    let l := holder_ st in
    itor <- start_element low l ;;
    l <- remove_loop (2 * length l + 2) low high (safe_next high) itor l ;;
    Ret (mkCSet l None).

(** The overloads for another set; [same] is [this == &cset]. *)
Fixpoint for_each (f : Z -> Z -> CSet -> outcome CSet) (l : list interval) (st : CSet) : outcome CSet :=
  match l with
  | [] => Ret st
  | (first, second) :: t => st <- f first second st ;; for_each f t st
  end.

Definition add_set (same : bool) (cset st : CSet) : outcome CSet :=
  if same then Ret st else for_each add (holder_ cset) st.

Definition remove_set (same : bool) (cset st : CSet) : outcome CSet :=
  if same then Ret st else for_each remove (holder_ cset) st.

Definition clear (st : CSet) : CSet := mkCSet [] None.

(** [belongs] is [const] but moves the cached iterator. *)
Definition belongs (value : Z) (st : CSet) : outcome (bool * CSet) :=
  let l := holder_ st in
  cached <-
    match last_found_ st with
    | None => Ret false
    | Some k =>
        s <- second k l ;; Ret ((k <=? value) && (value <=? s))
    end ;;
  if cached then Ret (true, st)
  else
    let found := lower_bound value l in
    if match found with Some k => k =? value | None => false end
    then Ret (true, mkCSet l found)
    else if it_eqb found (begin l) then Ret (false, mkCSet l found)
    else
      found <- prev found l ;;
      match found with
      | None => Undef
      | Some k => s <- second k l ;; Ret (value <=? s, mkCSet l found)
      end.

Definition check_presence (low high : Z) (st : CSet) : outcome CheckStatus :=
  if high <? low then Ret CS_NONE
  else
    let l := holder_ st in
    let itor := lower_bound low l in
    let before :=
      if it_eqb itor (begin l) then Ret CS_NONE
      else
        itor <- prev itor l ;;
        match itor with
        | None => Undef
        | Some k =>
            s <- second k l ;;
            Ret (if s <? low then CS_NONE else if high <=? s then CS_ALL else CS_SOME)
        end in
    match itor with
    | None => before
    | Some k =>
        if k =? low then s <- second k l ;; Ret (if high <=? s then CS_ALL else CS_SOME)
        else if k <=? high then Ret CS_SOME
        else before
    end.
End CompressedSet.

Example cset_1 :
  (st <- add (I := Int8) 5 7 CSet_new ;; st <- add (I := Int8) 10 12 st ;;
   st <- add (I := Int8) 8 9 st ;; remove (I := Int8) 6 11 st)
  = Ret (mkCSet [(5, 5); (12, 12)] None).
Proof. reflexivity. Qed.

(** ** The map operations around one element

    A list of separated intervals is cut at an element: [below k b] says that
    the keys of [b] are less than [k]. *)

Definition below (k : Z) (b : list interval) : Prop := Forall (fun p => fst p < k) b.
Definition above (k : Z) (a : list interval) : Prop := Forall (fun p => k < fst p) a.

Lemma lower_bound_app k b a : below k b -> lower_bound k (b ++ a) = lower_bound k a.
Proof.
  induction 1 as [|[f s] b Hf Hb IH]; [easy|]. cbn in *.
  destruct (Z.ltb_spec f k); [easy|lia].
Qed.

Lemma next_app k b s a : below k b -> above k a -> next k (b ++ (k, s) :: a) = begin a.
Proof.
  intros Hb Ha. induction Hb as [|[f s'] b Hf Hb IH]; cbn in *.
  - destruct (Z.leb_spec k k); [|lia]. destruct Ha as [|[f s'] a Hf Ha]; [easy|].
    cbn in *. destruct (Z.leb_spec f k); [lia|easy].
  - destruct (Z.leb_spec f k); [easy|lia].
Qed.

Lemma second_app k b s a : below k b -> second k (b ++ (k, s) :: a) = Ret s.
Proof.
  induction 1 as [|[f s'] b Hf Hb IH]; cbn in *; [now rewrite Z.eqb_refl|].
  destruct (Z.eqb_spec f k); [lia|easy].
Qed.

Lemma set_second_app k v b s a :
  below k b -> set_second k v (b ++ (k, s) :: a) = b ++ (k, v) :: a.
Proof.
  induction 1 as [|[f s'] b Hf Hb IH]; cbn in *; [now rewrite Z.eqb_refl|].
  destruct (Z.eqb_spec f k); [lia|now rewrite IH].
Qed.

Lemma erase_app k b s a : below k b -> erase k (b ++ (k, s) :: a) = b ++ a.
Proof.
  induction 1 as [|[f s'] b Hf Hb IH]; cbn in *; [now rewrite Z.eqb_refl|].
  destruct (Z.eqb_spec f k); [lia|now rewrite IH].
Qed.

Lemma map_insert_app k v b a :
  below k b -> above k a -> map_insert k v (b ++ a) = b ++ (k, v) :: a.
Proof.
  intros Hb Ha. induction Hb as [|[f s'] b Hf Hb IH]; cbn in *.
  - destruct Ha as [|[f s'] a Hf Ha]; [easy|]. cbn in *.
    destruct (Z.ltb_spec f k); [lia|]. destruct (Z.eqb_spec f k); [lia|easy].
  - destruct (Z.ltb_spec f k); [now rewrite IH|lia].
Qed.

(** [--] from a position between [b ++ [(f, s)]] and [a]. *)
Definition at_split (it : option Z) (b a : list interval) : Prop :=
  it = begin a /\ match it with Some k => below k b | None => True end.

Lemma prev_from_app it b f s a : forall found,
  at_split it (b ++ [(f, s)]) a -> prev_from found it (b ++ (f, s) :: a) = Some f.
Proof.
  induction b as [|[f' s'] b IH]; intros found [E H]; cbn in *.
  - assert (match it with Some k => f <? k | None => true end = true) as ->.
    { destruct it as [k|]; [|easy]. inversion H; subst. now apply Z.ltb_lt. }
    destruct a as [|[f2 s2] a]; cbn; [easy|]. subst it. cbn.
    destruct (Z.ltb_spec f2 f2); [lia|easy].
  - assert (match it with Some k => f' <? k | None => true end = true) as ->.
    { destruct it as [k|]; [|easy]. inversion H; subst. now apply Z.ltb_lt. }
    apply IH. split; [easy|]. destruct it; [|easy]. now inversion H.
Qed.

Lemma prev_app it b f s a :
  at_split it (b ++ [(f, s)]) a -> prev it (b ++ (f, s) :: a) = Ret (Some f).
Proof. intros H. unfold prev. now rewrite (prev_from_app it b f s a None H). Qed.

(** ** Separated intervals and what they cover *)

Definition covers (l : list interval) (x : Z) : bool :=
  existsb (fun p => (fst p <=? x) && (x <=? snd p)) l.

(** The keys are above [lo], every interval is non-empty, and between two
    neighbours at least one integer is missing. *)
Fixpoint sep (lo : Z) (l : list interval) : Prop :=
  match l with
  | [] => True
  | (f, s) :: t => lo < f /\ f <= s /\ sep (s + 1) t
  end.

(** The bound that [b] leaves for what follows it. *)
Fixpoint top (lo : Z) (b : list interval) : Z :=
  match b with [] => lo | (_, s) :: t => top (s + 1) t end.

Lemma covers_cons f s l x : covers ((f, s) :: l) x = ((f <=? x) && (x <=? s)) || covers l x.
Proof. reflexivity. Qed.

Lemma covers_app a b x : covers (a ++ b) x = covers a x || covers b x.
Proof. apply existsb_app. Qed.

Lemma sep_app lo b a : sep lo (b ++ a) <-> sep lo b /\ sep (top lo b) a.
Proof.
  revert lo. induction b as [|[f s] b IH]; intros lo; cbn; [tauto|]. rewrite IH. tauto.
Qed.

Lemma sep_weaken lo lo' l : lo' <= lo -> sep lo l -> sep lo' l.
Proof. destruct l as [|[f s] l]; cbn; [easy|]. intuition lia. Qed.

Lemma sep_above lo l : sep lo l -> above lo l.
Proof.
  revert lo. induction l as [|[f s] l IH]; intros lo; cbn; [constructor|].
  intros (H1 & H2 & H3). constructor; [easy|].
  apply IH in H3. eapply Forall_impl; [|exact H3]. cbn. lia.
Qed.

Lemma sep_top lo b : sep lo b -> lo <= top lo b.
Proof.
  revert lo. induction b as [|[f s] b IH]; intros lo; cbn; [lia|].
  intros (H1 & H2 & H3). apply IH in H3. lia.
Qed.

Lemma sep_below lo b k : sep lo b -> top lo b <= k -> below k b.
Proof.
  revert lo. induction b as [|[f s] b IH]; intros lo; cbn; [constructor|].
  intros (H1 & H2 & H3) Hk. pose proof (sep_top _ _ H3). constructor; [cbn; lia|].
  now apply (IH (s + 1)).
Qed.

Lemma above_covers lo l x : sep lo l -> x <= lo -> covers l x = false.
Proof.
  revert lo. induction l as [|[f s] l IH]; intros lo; cbn [sep]; [easy|].
  intros (H1 & H2 & H3) Hx. rewrite covers_cons, (IH (s + 1)) by (easy || lia).
  destruct (Z.leb_spec f x); [lia|easy].
Qed.

Lemma top_covers lo b x : sep lo b -> top lo b <= x -> covers b x = false.
Proof.
  revert lo. induction b as [|[f s] b IH]; intros lo; cbn [sep top]; [easy|].
  intros (H1 & H2 & H3) Hx. pose proof (sep_top _ _ H3).
  rewrite covers_cons, (IH (s + 1)) by (easy || lia).
  destruct (Z.leb_spec x s); [lia|]. now rewrite andb_false_r.
Qed.

Lemma above_weaken k k' l : k' <= k -> above k l -> above k' l.
Proof. intros Hk. apply Forall_impl. intros p. lia. Qed.

Lemma below_snoc k b f s : below k (b ++ [(f, s)]) <-> below k b /\ f < k.
Proof.
  unfold below. rewrite Forall_app, Forall_cons_iff. cbn. intuition constructor.
Qed.

Section Laws.
Context {I : IntType} {Iok : IntTypeOk I}.

(** A well-formed set: separated intervals inside the type, and a cached
    iterator that points to an element. *)
Definition bounded (l : list interval) : Prop := Forall (fun p => snd p <= int_max) l.

Definition wf (st : CSet) : Prop :=
  sep (int_min - 1) (holder_ st) /\ bounded (holder_ st) /\
  match last_found_ st with
  | None => True
  | Some k => In k (map fst (holder_ st))
  end.

Lemma safe_next_lt s low : low <= int_max -> s <= int_max -> (safe_next s <? low) = (s + 1 <? low).
Proof.
  intros Hl Hs. unfold safe_next. destruct (Z.ltb_spec s int_max); [easy|].
  destruct (Z.ltb_spec s low), (Z.ltb_spec (s + 1) low); lia.
Qed.

(** The cut of [add] and [remove]: the intervals that end before [low - 1],
    and the rest. *)
Lemma cut_at low l lo :
  sep lo l ->
  exists b a, l = b ++ a /\ (forall f s, In (f, s) b -> s + 1 < low) /\
    match a with [] => True | (f, s) :: _ => low <= s + 1 end.
Proof.
  revert lo. induction l as [|[f s] l IH]; intros lo H; [now exists [], []|].
  cbn in H. destruct H as (H1 & H2 & H3).
  destruct (Z.lt_ge_cases (s + 1) low) as [L|L].
  - destruct (IH (s + 1) H3) as (b & a & -> & Hb & Ha).
    exists ((f, s) :: b), a. repeat split; try easy.
    intros f' s' [[= <- <-]|Hin]; [easy|]. eauto.
  - exists [], ((f, s) :: l). repeat split; easy.
Qed.

Lemma cut_top lo b low : lo < low -> (forall f s, In (f, s) b -> s + 1 < low) -> top lo b < low.
Proof.
  revert lo. induction b as [|[f s] b IH]; intros lo Hl H; cbn; [easy|].
  apply IH; [apply (H f s); now left|]. intros f' s' Hin. apply (H f' s'). now right.
Qed.

(** Where [start_element] ends: at the head of [a] when that interval starts
    at or before [low], otherwise at an interval before or after [low] that
    does not touch it. *)
Lemma start_element_inside lo b f s t low :
  sep lo (b ++ (f, s) :: t) -> top lo b < low -> f <= low -> low <= s + 1 ->
  start_element low (b ++ (f, s) :: t) = Ret (Some f).
Proof.
  intros H Hb Hf Hs. apply sep_app in H as [Sb (H1 & H2 & St)].
  assert (below f b) as Bf by (apply (sep_below lo); [easy|lia]).
  assert (below low b) as Bl by (apply (sep_below lo); [easy|lia]).
  unfold start_element. rewrite lower_bound_app by easy. cbn [lower_bound].
  destruct (Z.ltb_spec f low).
  - assert (lower_bound low t = begin t) as ->.
    { destruct t as [|[f2 s2] t]; [easy|]. cbn in *. destruct (Z.ltb_spec f2 low); [lia|easy]. }
    assert (at_split (begin t) (b ++ [(f, s)]) t) as A.
    { split; [easy|]. destruct t as [|[f2 s2] t]; cbn in *; [easy|].
      apply below_snoc. split; [|lia]. apply (sep_below lo); [easy|lia]. }
    replace ((match begin t with Some k => negb (k =? low) | None => true end &&
      negb (it_eqb (begin t) (begin (b ++ (f, s) :: t))))%bool) with true; [now apply prev_app|].
    destruct t as [|[f2 s2] t]; cbn in *; [destruct b as [|[]]; easy|].
    destruct (Z.eqb_spec f2 low); [lia|]. destruct b as [|[f3 s3] b]; cbn in *.
    + destruct (Z.eqb_spec f2 f); [lia|easy].
    + inversion Bf; subst; cbn in *. destruct (Z.eqb_spec f2 f3); [lia|easy].
  - assert (f = low) as -> by lia. now rewrite Z.eqb_refl.
Qed.

Lemma start_element_outside lo b a low :
  sep lo (b ++ a) -> top lo b < low ->
  match a with [] => True | (f, _) :: _ => low < f end ->
  b = [] /\ start_element low (b ++ a) = Ret (begin a) \/
  exists b' f s, b = b' ++ [(f, s)] /\ start_element low (b ++ a) = Ret (Some f).
Proof.
  intros H Hb Ha. apply sep_app in H as [Sb Sa].
  assert (below low b) as Bl by (apply (sep_below lo); [easy|lia]).
  assert (lower_bound low a = begin a) as La.
  { destruct a as [|[f s] a]; [easy|]. cbn in *. destruct (Z.ltb_spec f low); [lia|easy]. }
  unfold start_element. rewrite lower_bound_app, La by easy.
  assert (match begin a with Some k => negb (k =? low) | None => true end = true) as ->.
  { destruct a as [|[f s] a]; [easy|]. cbn in *. destruct (Z.eqb_spec f low); [lia|easy]. }
  destruct b as [|x b0] eqn:Eb.
  - left. split; [easy|]. cbn [app]. replace (it_eqb (begin a) (begin a)) with true; [easy|].
    destruct a as [|[f s] a]; cbn; [easy|]. now rewrite Z.eqb_refl.
  - right. destruct (exists_last (l := x :: b0)) as (b' & [f s] & E); [easy|].
    exists b', f, s. split; [easy|]. rewrite E in *. clear Eb E x b0.
    rewrite <- app_assoc. cbn [app andb].
    assert (at_split (begin a) (b' ++ [(f, s)]) a) as A.
    { split; [easy|]. destruct a as [|[f2 s2] a]; cbn in *; [easy|].
      apply (sep_below lo); [easy|lia]. }
    replace (negb (it_eqb (begin a) (begin (b' ++ (f, s) :: a)))) with true; [now apply prev_app|].
    destruct A as [_ A]. destruct a as [|[f2 s2] a]; cbn in *; [destruct b' as [|[]]; easy|].
    apply below_snoc in A as [A1 A2]. destruct b' as [|[f3 s3] b']; cbn.
    + destruct (Z.eqb_spec f2 f); [lia|easy].
    + inversion A1; subst; cbn in *. destruct (Z.eqb_spec f2 f3); [lia|easy].
Qed.

(** *** Adding an interval *)

(** What the loop over overlapped intervals leaves: the new high bound of
    [base] and the intervals after it. *)
Fixpoint absorb (high v : Z) (m : list interval) : Z * list interval :=
  match m with
  | [] => (v, [])
  | (f, s) :: t =>
      if safe_next high <? f then (v, m)
      else if high <? s then (s, t) else absorb high v t
  end.

Lemma overlap_loop_spec high : forall m b k v fuel,
  below k b -> sep k m -> (length m <= fuel)%nat ->
  overlap_loop fuel k high (safe_next high) (begin m) (b ++ (k, v) :: m)
  = Ret (b ++ (k, fst (absorb high v m)) :: snd (absorb high v m)).
Proof.
  induction m as [|[f s] m IH]; intros b k v fuel Hb Hm Hf; [destruct fuel; easy|].
  pose proof (sep_above _ _ Hm) as Am. apply Forall_cons_iff in Am as [Kf _].
  destruct Hm as (H1 & H2 & H3). cbn [absorb begin fst] in *.
  assert (below f (b ++ [(k, v)])) as Bf.
  { apply below_snoc. split; [|easy]. eapply Forall_impl; [|exact Hb]. cbn. lia. }
  destruct fuel as [|fuel]; cbn [overlap_loop]; cbn in Hf; [lia|].
  destruct (safe_next high <? f); [easy|].
  replace (b ++ (k, v) :: (f, s) :: m) with ((b ++ [(k, v)]) ++ (f, s) :: m)
    by now rewrite <- app_assoc.
  rewrite second_app by easy. cbn [bind]. destruct (high <? s).
  - rewrite <- app_assoc. cbn [app]. rewrite set_second_app by easy.
    replace (b ++ (k, s) :: (f, s) :: m) with ((b ++ [(k, s)]) ++ (f, s) :: m)
      by now rewrite <- app_assoc.
    rewrite erase_app by (apply below_snoc in Bf; now apply below_snoc).
    now rewrite <- app_assoc.
  - rewrite next_app, erase_app, <- app_assoc; [|easy|easy|].
    2:{ apply sep_above in H3. eapply above_weaken; [|exact H3]. lia. }
    cbn [app]. apply IH; [easy| |lia]. apply (sep_weaken (s + 1)); [lia|easy].
Qed.

Lemma absorb_spec high m : forall lo k,
  sep lo m -> k <= lo -> k <= high -> high <= int_max -> bounded m ->
  high <= fst (absorb high high m) <= int_max /\ sep (fst (absorb high high m) + 1) (snd (absorb high high m)) /\
  bounded (snd (absorb high high m)) /\
  forall x, ((k <=? x) && (x <=? fst (absorb high high m))) || covers (snd (absorb high high m)) x
            = ((k <=? x) && (x <=? high)) || covers m x.
Proof.
  induction m as [|[f s] m IH]; intros lo k Hm Hk Hh Hi Hb; cbn [absorb].
  - cbn. repeat split; (lia || easy).
  - destruct Hm as (H1 & H2 & H3). apply Forall_cons_iff in Hb as [Hs Hb]. cbn in Hs.
    assert ((safe_next high <? f) = (high + 1 <? f)) as -> by (apply safe_next_lt; lia).
    destruct (Z.ltb_spec (high + 1) f).
    + cbn [fst snd]. split; [lia|]. split; [now cbn|]. split; [now constructor|easy].
    + destruct (Z.ltb_spec high s); cbn [fst snd].
      * split; [lia|]. split; [easy|]. split; [easy|]. intros x. rewrite covers_cons.
        rewrite orb_assoc. f_equal.
        destruct (Z.leb_spec k x), (Z.leb_spec x s), (Z.leb_spec x high), (Z.leb_spec f x); lia.
      * destruct (IH (s + 1) k H3) as (A1 & A2 & A3 & A4); [lia..|easy|].
        split; [easy|]. split; [easy|]. split; [easy|]. intros x. rewrite A4, covers_cons.
        rewrite orb_assoc. f_equal.
        destruct (Z.leb_spec k x), (Z.leb_spec x s), (Z.leb_spec x high), (Z.leb_spec f x); lia.
Qed.

Lemma top_snoc lo b f s : top lo (b ++ [(f, s)]) = s + 1.
Proof. revert lo. induction b as [|[] b IH]; intros lo; [easy|apply IH]. Qed.

(** The test that decides to insert, outside the stored intervals. *)
Lemma inserting_outside lo b a low :
  sep lo (b ++ a) -> bounded b -> low <= int_max -> top lo b < low ->
  match a with [] => True | (f, _) :: _ => low < f end ->
  exists it, start_element low (b ++ a) = Ret it /\
    match it with
    | None => Ret true
    | Some k => if low <? k then Ret true
                else s <- second k (b ++ a) ;; Ret (safe_next s <? low)
    end = Ret true.
Proof.
  intros H Bb Hl Ht Ha.
  destruct (start_element_outside lo b a low H Ht Ha) as [[_ E]|(b' & f & s & -> & E)];
    rewrite E; eexists; (split; [reflexivity|]).
  - destruct a as [|[f s] a]; [easy|]. cbn [begin]. destruct (Z.ltb_spec low f); [easy|lia].
  - rewrite top_snoc in Ht. apply sep_app in H as [[Sb (S1 & S2 & _)]%sep_app _].
    apply Forall_app in Bb as [_ [Bs _]%Forall_cons_iff]. cbn in Bs.
    destruct (Z.ltb_spec low f); [lia|]. rewrite <- app_assoc. cbn [app].
    rewrite second_app by (apply (sep_below lo); [easy|lia]). cbn [bind].
    rewrite safe_next_lt by lia. f_equal. now apply Z.ltb_lt.
Qed.

Lemma add_outside lo b a low high lf :
  sep lo (b ++ a) -> bounded b -> low <= high <= int_max -> top lo b < low ->
  match a with [] => True | (f, _) :: _ => low < f end ->
  add low high (mkCSet (b ++ a) lf)
  = Ret (mkCSet (b ++ (low, fst (absorb high high a)) :: snd (absorb high high a)) None).
Proof.
  intros H Bb Hh Ht Ha. pose proof H as [Sb Sa]%sep_app.
  assert (below low b) as Bl by (apply (sep_below lo); [easy|lia]).
  assert (sep low a) as La.
  { destruct a as [|[f s] t]; [easy|]. destruct Sa as (? & ? & ?). now cbn. }
  destruct (inserting_outside lo b a low H Bb) as (it & E & Ins); [lia|easy..|].
  unfold add. cbn [holder_]. destruct (Z.ltb_spec high low); [lia|].
  rewrite E. cbn [bind]. rewrite Ins. cbn [bind].
  rewrite map_insert_app by (easy || now apply sep_above). cbn [bind].
  rewrite next_app by (easy || now apply sep_above).
  rewrite (overlap_loop_spec high a b low high); [easy|easy|easy|].
  rewrite length_app. cbn. lia.
Qed.

Lemma add_inside lo b f s t low high lf :
  sep lo (b ++ (f, s) :: t) -> bounded ((f, s) :: t) -> low <= high <= int_max ->
  top lo b < low -> f <= low <= s + 1 ->
  add low high (mkCSet (b ++ (f, s) :: t) lf)
  = Ret (mkCSet (b ++ (f, fst (absorb high (Z.max s high) t))
                   :: snd (absorb high (Z.max s high) t)) None).
Proof.
  intros H Ba Hh Ht Hf. pose proof H as [Sb (S1 & S2 & S3)]%sep_app.
  apply Forall_cons_iff in Ba as [Bs Bt]. cbn in Bs.
  assert (below f b) as Bf by (apply (sep_below lo); [easy|lia]).
  assert (sep f t) as St by (apply (sep_weaken (s + 1)); [lia|easy]).
  unfold add. cbn [holder_]. destruct (Z.ltb_spec high low); [lia|].
  rewrite (start_element_inside lo) by (easy || lia). cbn [bind].
  destruct (Z.ltb_spec low f); [lia|]. rewrite second_app by easy. cbn [bind].
  rewrite safe_next_lt by lia. destruct (Z.ltb_spec (s + 1) low); [lia|]. cbn [bind].
  rewrite set_second_app by easy.
  assert ((if s <? high then b ++ (f, high) :: t else b ++ (f, s) :: t) =
    b ++ (f, Z.max s high) :: t) as ->.
  { destruct (Z.ltb_spec s high); repeat f_equal; lia. }
  rewrite next_app by (easy || now apply sep_above).
  rewrite overlap_loop_spec; [easy|easy|easy|]. rewrite length_app. cbn. lia.
Qed.

(** The result of [add] around the interval it puts in place. *)
Lemma add_shape lo b a low high :
  sep lo (b ++ a) -> bounded (b ++ a) -> lo < low -> low <= high <= int_max ->
  top lo b < low -> match a with [] => True | (f, s) :: _ => low <= s + 1 end ->
  exists k v m,
    (forall lf, add low high (mkCSet (b ++ a) lf) = Ret (mkCSet (b ++ (k, v) :: m) None)) /\
    top lo b < k <= v /\ v <= int_max /\ sep (v + 1) m /\ bounded m /\
    forall x, covers ((k, v) :: m) x = ((low <=? x) && (x <=? high)) || covers a x.
Proof.
  intros H [Bb Ba]%Forall_app Hl Hh Ht Ha. pose proof H as [Sb Sa]%sep_app.
  assert (match a with [] => True | (f, _) :: _ => low < f end \/
    exists f s t, a = (f, s) :: t /\ f <= low) as [Out|(f & s & t & -> & Hf)].
  { destruct a as [|[f s] t]; [now left|]. destruct (Z.lt_ge_cases low f); [now left|].
    right. now exists f, s, t. }
  - assert (sep low a) as La.
    { destruct a as [|[f s] t]; [easy|]. destruct Sa as (? & ? & ?). now cbn. }
    destruct (absorb_spec high a low low La) as (A1 & A2 & A3 & A4); [lia..|easy|].
    exists low, (fst (absorb high high a)), (snd (absorb high high a)).
    split; [intros lf; now apply (add_outside lo)|]. split; [lia|]. split; [lia|].
    split; [easy|]. split; [easy|]. intros x. rewrite covers_cons. apply A4.
  - destruct Sa as (S1 & S2 & S3). pose proof Ba as [Bs Bt]%Forall_cons_iff. cbn in Bs.
    pose proof (fun lf => add_inside lo b f s t low high lf H Ba Hh Ht (conj Hf Ha)) as E.
    assert (forall x, ((low <=? x) && (x <=? high)) || ((f <=? x) && (x <=? s))
      = ((f <=? x) && (x <=? Z.max s high))) as U.
    { intros x. destruct (Z.leb_spec low x), (Z.leb_spec x s), (Z.leb_spec x high),
        (Z.leb_spec x (Z.max s high)), (Z.leb_spec f x); lia. }
    destruct (Z.lt_ge_cases s high) as [L|L].
    + rewrite Z.max_r in * by lia.
      destruct (absorb_spec high t (s + 1) f S3) as (A1 & A2 & A3 & A4); [lia..|easy|].
      exists f, (fst (absorb high high t)), (snd (absorb high high t)).
      split; [easy|]. split; [lia|]. split; [lia|]. split; [easy|]. split; [easy|].
      intros x. now rewrite covers_cons, A4, covers_cons, orb_assoc, U.
    + rewrite Z.max_l in * by lia. assert (absorb high s t = (s, t)) as A.
      { destruct t as [|[f2 s2] t]; [easy|]. cbn [absorb].
        destruct S3 as (T1 & T2 & T3). apply Forall_cons_iff in Bt as [Bt _]. cbn in Bt.
        rewrite safe_next_lt by lia. destruct (Z.ltb_spec (high + 1) f2); [easy|lia]. }
      rewrite A in E. exists f, s, t. split; [easy|]. split; [lia|]. split; [lia|].
      split; [easy|]. split; [easy|].
      intros x. now rewrite !covers_cons, orb_assoc, U.
Qed.

Lemma cset_add low high st :
  wf st -> int_min <= low -> high <= int_max ->
  exists st', add low high st = Ret st' /\ wf st' /\
    forall x, covers (holder_ st') x = ((low <=? x) && (x <=? high)) || covers (holder_ st) x.
Proof.
  intros W Hl Hh. pose proof W as (S & B & _). destruct (Z.lt_ge_cases high low) as [L|L].
  - exists st. split; [unfold add; destruct (Z.ltb_spec high low); [easy|lia]|].
    split; [easy|]. intros x. destruct (Z.leb_spec low x), (Z.leb_spec x high); lia || easy.
  - destruct st as [l lf]. cbn [holder_] in *.
    destruct (cut_at low l _ S) as (b & a & -> & Hb & Ha).
    assert (top (int_min - 1) b < low) as T by (apply cut_top; [lia|easy]).
    destruct (add_shape (int_min - 1) b a low high S B) as (k & v & m & E & K & V & Sm & Bm & C);
      [lia..|easy|easy|].
    apply Forall_app in B as [Bb _]. apply sep_app in S as [Sb _].
    eexists. split; [apply E|]. split.
    + split; [|split]; [|apply Forall_app; split; [easy|now constructor]|easy].
      cbn [holder_]. apply sep_app. split; [easy|]. cbn. repeat split; (easy || lia).
    + intros x. cbn [holder_]. rewrite !covers_app, C.
      destruct ((low <=? x) && (x <=? high)), (covers b x); easy.
Qed.

(** *** Removing an interval *)

(** What the loop makes of the intervals from its start element on. *)
Fixpoint chop (low high : Z) (l : list interval) : list interval :=
  match l with
  | [] => []
  | (f, s) :: t =>
      if safe_next high <=? f then l
      else if low <=? f then
        if s <=? high then chop low high t else (safe_next high, s) :: t
      else if s <? low then (f, s) :: chop low high t
      else if s <=? high then (f, low - 1) :: chop low high t
      else (f, low - 1) :: (safe_next high, s) :: t
  end.

Lemma safe_next_below high s : high < s <= int_max -> safe_next high = high + 1.
Proof. intros H. unfold safe_next. destruct (Z.ltb_spec high int_max); lia. Qed.

Lemma remove_loop_S fuel low high hn k l :
  remove_loop (S fuel) low high hn (Some k) l =
  if hn <=? k then Ret l
  else
    s <- second k l ;;
    if low <=? k then
      if s <=? high then remove_loop fuel low high hn (next k l) (erase k l)
      else Ret (erase k (map_insert hn s l))
    else if s <? low then remove_loop fuel low high hn (next k l) l
    else if s <=? high then remove_loop fuel low high hn (Some k) (set_second k (low - 1) l)
    else remove_loop fuel low high hn (Some k) (set_second k (low - 1) (map_insert hn s l)).
Proof. reflexivity. Qed.

(** One turn past an interval that ends before [low]. *)
Lemma remove_loop_skip lo fuel low high hn b f s t :
  sep lo (b ++ (f, s) :: t) -> f < hn -> s < low ->
  remove_loop (S fuel) low high hn (Some f) (b ++ (f, s) :: t)
  = remove_loop fuel low high hn (begin t) ((b ++ [(f, s)]) ++ t).
Proof.
  intros H Hf Hs. pose proof H as [Sb (S1 & S2 & S3)]%sep_app.
  assert (below f b) as Bf by (apply (sep_below lo); [easy|lia]).
  rewrite remove_loop_S. destruct (Z.leb_spec hn f); [lia|]. rewrite second_app by easy. cbn [bind].
  destruct (Z.leb_spec low f); [lia|]. destruct (Z.ltb_spec s low); [|lia].
  rewrite next_app by (easy || (apply sep_above in S3; eapply above_weaken; [|exact S3]; lia)).
  now rewrite <- app_assoc.
Qed.

Lemma insert_after lo b f s t k v :
  sep lo (b ++ (f, s) :: t) -> f < k <= s ->
  map_insert k v (b ++ (f, s) :: t) = b ++ (f, s) :: (k, v) :: t.
Proof.
  intros [Sb (S1 & S2 & S3)]%sep_app H.
  replace (b ++ (f, s) :: t) with ((b ++ [(f, s)]) ++ t) by now rewrite <- app_assoc.
  rewrite map_insert_app; [now rewrite <- app_assoc| |].
  - apply below_snoc. split; [|lia]. apply (sep_below lo); [easy|lia].
  - apply sep_above in S3. eapply above_weaken; [|exact S3]. lia.
Qed.

Lemma remove_loop_spec low high : forall a lo b fuel,
  sep lo (b ++ a) -> bounded a -> low <= high <= int_max -> (2 * length a <= fuel)%nat ->
  remove_loop fuel low high (safe_next high) (begin a) (b ++ a) = Ret (b ++ chop low high a).
Proof.
  induction a as [|[f s] t IH]; intros lo b fuel H Ba Hh Hfuel; [destruct fuel; easy|].
  pose proof H as [Sb (S1 & S2 & S3)]%sep_app. apply Forall_cons_iff in Ba as [Bs Bt]. cbn in Bs.
  assert (below f b) as Bf by (apply (sep_below lo); [easy|lia]).
  assert (above f t) as At by (apply sep_above in S3; eapply above_weaken; [|exact S3]; lia).
  cbn [length] in Hfuel. destruct fuel as [|[|fuel]]; [lia..|].
  cbn [begin chop]. destruct (Z.leb_spec (safe_next high) f) as [L|L].
  { rewrite remove_loop_S. destruct (Z.leb_spec (safe_next high) f); [easy|lia]. }
  assert (forall s', f <= s' < low -> s' <= s -> remove_loop (S fuel) low high (safe_next high) (Some f)
    (b ++ (f, s') :: t) = Ret (b ++ (f, s') :: chop low high t)) as Skip.
  { intros s' Hs' Hs. assert (sep lo (b ++ (f, s') :: t)) as S'.
    { apply sep_app. split; [easy|]. cbn. split; [easy|]. split; [lia|].
      apply (sep_weaken (s + 1)); [lia|easy]. }
    rewrite (remove_loop_skip lo) by (easy || lia).
    rewrite (IH lo) by (rewrite <- ?app_assoc; easy || lia). now rewrite <- app_assoc. }
  destruct (Z.leb_spec low f) as [Lf|Lf].
  - rewrite remove_loop_S. destruct (Z.leb_spec (safe_next high) f); [lia|].
    rewrite second_app by easy. cbn [bind]. destruct (Z.leb_spec low f); [|lia].
    destruct (Z.leb_spec s high).
    + rewrite next_app, erase_app by easy. apply (IH lo); [|easy|lia..].
      apply sep_app. split; [easy|]. apply (sep_weaken (s + 1)); [lia|easy].
    + rewrite (safe_next_below high s) in * by lia. f_equal.
      rewrite (insert_after lo) by (easy || lia). now rewrite erase_app.
  - destruct (Z.ltb_spec s low) as [Ls|Ls].
    { rewrite (remove_loop_skip lo) by (easy || lia).
      rewrite (IH lo) by (rewrite <- ?app_assoc; easy || lia). now rewrite <- app_assoc. }
    rewrite remove_loop_S. destruct (Z.leb_spec (safe_next high) f); [lia|].
    rewrite second_app by easy. cbn [bind]. destruct (Z.leb_spec low f); [lia|].
    destruct (Z.ltb_spec s low); [lia|]. destruct (Z.leb_spec s high) as [Lh|Lh].
    + rewrite set_second_app by easy. apply Skip; lia.
    + rewrite (safe_next_below high s) in * by lia.
      rewrite (insert_after lo), set_second_app by (easy || lia).
      rewrite (remove_loop_skip lo); [|apply sep_app; split; [easy|]; cbn; intuition lia|lia..].
      rewrite <- app_assoc. cbn [app begin]. destruct fuel; cbn [remove_loop];
        (destruct (Z.leb_spec (high + 1) (high + 1)); [easy|lia]).
Qed.

(** The intervals that start at the greatest value of the type. *)
Definition starts_at_max (l : list interval) : bool := existsb (fun p => fst p =? int_max) l.

Lemma starts_at_max_below l : below int_max l -> starts_at_max l = false.
Proof.
  induction 1 as [|[f s] l Hf Hl IH]; [easy|]. unfold starts_at_max in *. cbn in *. rewrite IH.
  destruct (Z.eqb_spec f int_max); [lia|easy].
Qed.

Lemma starts_at_max_app a b : starts_at_max (a ++ b) = starts_at_max a || starts_at_max b.
Proof. apply existsb_app. Qed.

Lemma chop_sep low high l : forall lo,
  sep lo l -> bounded l -> low <= high <= int_max ->
  sep lo (chop low high l) /\ bounded (chop low high l).
Proof.
  induction l as [|[f s] t IH]; intros lo H Hb Hh; [easy|].
  destruct H as (S1 & S2 & S3). pose proof Hb as [Bs Bt]%Forall_cons_iff. cbn in Bs.
  destruct (IH (s + 1) S3 Bt Hh) as [Sc Bc]. cbn [chop].
  destruct (Z.leb_spec (safe_next high) f); [now cbn|].
  destruct (Z.leb_spec low f), (Z.leb_spec s high), (Z.ltb_spec s low); try lia;
    rewrite ?(safe_next_below high s) in * by lia;
    (split; [cbn; repeat split; (easy || lia || (eapply sep_weaken; [|eassumption]; lia))
            |repeat (constructor; [cbn; lia|]); easy]).
Qed.

Lemma starts_at_max_sep lo l : sep lo l -> starts_at_max l = false \/ lo < int_max.
Proof.
  intros H%sep_above. destruct (Z.lt_ge_cases lo int_max); [now right|left].
  unfold starts_at_max. induction H as [|[f s] l Hf Hl IH]; [easy|]. cbn in *. rewrite IH.
  destruct (Z.eqb_spec f int_max); [lia|easy].
Qed.

Lemma chop_covers low high l : forall lo,
  sep lo l -> bounded l -> low <= high <= int_max ->
  forall x, covers (chop low high l) x
    = (covers l x && negb ((low <=? x) && (x <=? high))) ||
      ((high =? int_max) && (x =? int_max) && starts_at_max l).
Proof.
  induction l as [|[f s] t IH]; intros lo H Hb Hh x; [cbn; now rewrite !andb_false_r|].
  destruct H as (S1 & S2 & S3). pose proof Hb as [Bs Bt]%Forall_cons_iff. cbn in Bs.
  pose proof (IH (s + 1) S3 Bt Hh x) as C.
  assert (s + 1 < x \/ covers t x = false) as F.
  { destruct (Z.lt_ge_cases (s + 1) x); [now left|right; now apply (above_covers (s + 1))]. }
  pose proof (starts_at_max_sep (s + 1) t S3) as M.
  change (starts_at_max ((f, s) :: t)) with ((f =? int_max) || starts_at_max t).
  cbn [chop]. unfold safe_next. rewrite (covers_cons f s t).
  assert (f <= s <= int_max) as Hs by lia. clear IH Hb Bt S3 Bs S2.
  destruct (Z.ltb_spec high int_max) as [Hm|Hm].
  - assert ((high =? int_max) = false) as E by (apply Z.eqb_neq; lia). rewrite E in *.
    clear Hm M E. rewrite orb_false_r in *.
    destruct (covers t x) eqn:Ct; (destruct F as [F|F]; [|discriminate F || clear F]);
      split_ifs; try (exfalso; lia); rewrite ?covers_cons, ?C, ?Ct; clear C Ct;
      repeat match goal with
      | |- context [?a <=? ?b] => destruct (Z.leb_spec a b); try (exfalso; lia)
      end; reflexivity.
  - assert (high = int_max) as -> by lia. rewrite Z.eqb_refl in *. cbn [andb] in *.
    destruct (Z.eqb_spec x int_max), (Z.eqb_spec f int_max); try (exfalso; lia);
      destruct (covers t x) eqn:Ct; (destruct F as [F|F]; [|discriminate F || clear F]);
      destruct (starts_at_max t) eqn:Mt; (destruct M as [M|M]; [discriminate M || clear M|]);
      split_ifs; try (exfalso; lia); rewrite ?covers_cons, ?C, ?Ct; clear C Ct;
      repeat match goal with
      | |- context [?a <=? ?b] => destruct (Z.leb_spec a b); try (exfalso; lia)
      end; reflexivity.
Qed.

Lemma remove_start lo l low :
  sep lo l -> lo < low ->
  exists b a, l = b ++ a /\ start_element low l = Ret (begin a) /\ top lo b < low.
Proof.
  intros H Hl. destruct (cut_at low l lo H) as (b & a & -> & Hb & Ha).
  pose proof (cut_top lo b low Hl Hb) as T.
  assert (match a with [] => True | (f, _) :: _ => low < f end \/
    exists f s t, a = (f, s) :: t /\ f <= low) as [Out|(f & s & t & -> & Hf)].
  { destruct a as [|[f s] t]; [now left|]. destruct (Z.lt_ge_cases low f); [now left|].
    right. now exists f, s, t. }
  - destruct (start_element_outside lo b a low H T Out) as [[-> E]|(b' & f & s & -> & E)].
    + now exists [], a.
    + exists b', ((f, s) :: a). rewrite <- app_assoc in *. split; [easy|]. split; [easy|].
      rewrite top_snoc in T. apply sep_app in H as [_ (S1 & S2 & _)]. lia.
  - exists b, ((f, s) :: t). split; [easy|]. split; [|easy]. now apply (start_element_inside lo).
Qed.

Lemma cset_remove low high st :
  wf st -> int_min <= low -> high <= int_max ->
  exists st', remove low high st = Ret st' /\ wf st' /\
    forall x, covers (holder_ st') x =
      (covers (holder_ st) x && negb ((low <=? x) && (x <=? high))) ||
      ((low <=? high) && (high =? int_max) && (x =? int_max) && starts_at_max (holder_ st)).
Proof.
  intros W Hl Hh. pose proof W as (S & B & _). destruct (Z.lt_ge_cases high low) as [L|L].
  - exists st. split; [unfold remove; destruct (Z.ltb_spec high low); [easy|lia]|].
    split; [easy|]. intros x. destruct (Z.leb_spec low high); [lia|]. cbn [andb].
    rewrite orb_false_r. destruct (Z.leb_spec low x), (Z.leb_spec x high); cbn [andb negb];
      rewrite ?andb_true_r; easy || lia.
  - destruct st as [l lf]. cbn [holder_] in *.
    destruct (remove_start (int_min - 1) l low S) as (b & a & -> & E & T); [lia|].
    pose proof S as [Sb Sa]%sep_app. pose proof B as [Bb Ba]%Forall_app.
    exists (mkCSet (b ++ chop low high a) None). unfold remove. cbn [holder_].
    destruct (Z.ltb_spec high low); [lia|]. rewrite E. cbn [bind].
    rewrite (remove_loop_spec low high a (int_min - 1) b); [|easy|easy|lia|rewrite length_app; lia].
    split; [easy|]. destruct (chop_sep low high a (top (int_min - 1) b) Sa Ba) as [Sc Bc]; [lia|].
    split; [split; [now apply sep_app|]; split; [now apply Forall_app|easy]|].
    intros x. cbn [holder_]. rewrite !covers_app.
    rewrite (chop_covers low high a (top (int_min - 1) b)) by (easy || lia).
    replace (starts_at_max (b ++ a)) with (starts_at_max a).
    2:{ rewrite starts_at_max_app, (starts_at_max_below b); [easy|]. apply (sep_below (int_min - 1)); [easy|lia]. }
    destruct (Z.leb_spec low high); [|lia]. cbn [andb].
    assert (covers b x = true -> (low <=? x) = false) as F.
    { intros Hc. apply Z.leb_gt. destruct (Z.lt_ge_cases x low); [easy|].
      rewrite (top_covers (int_min - 1) b x Sb) in Hc by lia. easy. }
    destruct (covers b x); [rewrite F by easy; easy|easy].
Qed.

(** *** Queries *)

Lemma split_key v l : exists b a,
  l = b ++ a /\ below v b /\ match a with [] => True | (f, _) :: _ => v <= f end.
Proof.
  induction l as [|[f s] l (b & a & -> & Hb & Ha)]; [exists [], []; repeat constructor|].
  destruct (Z.lt_ge_cases f v).
  - exists ((f, s) :: b), a. split; [easy|]. split; [constructor; [cbn; lia|easy]|easy].
  - exists [], ((f, s) :: b ++ a). split; [easy|]. split; [constructor|easy].
Qed.

(** The two intervals next to [v]: the searches land on the second one, one
    step back is the first one, and no other interval contains [v]. *)
Lemma neighbours lo l v : sep lo l ->
  exists b a, l = b ++ a /\ lower_bound v l = begin a /\
    below v b /\ match a with [] => True | (f, _) :: _ => v <= f end /\
    covers a v = match begin a with Some f => f =? v | None => false end /\
    it_eqb (begin a) (begin l) = match b with [] => true | _ => false end /\
    (b = [] \/ exists b' f s, b = b' ++ [(f, s)] /\ prev (begin a) l = Ret (Some f) /\
       second f l = Ret s /\ f < v /\ f <= s /\ covers l v = covers a v || (v <=? s)).
Proof.
  intros S. destruct (split_key v l) as (b & a & -> & Hb & Ha).
  pose proof S as [Sb Sa]%sep_app. exists b, a. split; [easy|].
  assert (begin a = lower_bound v a) as La.
  { destruct a as [|[f s] a]; [easy|]. cbn in *. destruct (Z.ltb_spec f v); [lia|easy]. }
  split; [now rewrite lower_bound_app|]. split; [easy|]. split; [easy|]. split.
  { destruct a as [|[f s] a]; [easy|]. cbn [begin]. destruct Sa as (S1 & S2 & S3).
    rewrite covers_cons, (above_covers (s + 1) a v S3) by lia.
    destruct (Z.eqb_spec f v), (Z.leb_spec f v), (Z.leb_spec v s); lia || easy. }
  split.
  { destruct b as [|[f s] b]; [destruct a as [|[f s] a]; cbn; [easy|apply Z.eqb_refl]|].
    apply Forall_cons_iff in Hb as [Hf _]. destruct a as [|[f2 s2] a]; [easy|]. cbn in *.
    apply Z.eqb_neq. lia. }
  destruct b as [|x b0] eqn:Eb; [now left|right].
  destruct (exists_last (l := x :: b0)) as (b' & [f s] & E); [easy|]. rewrite E in *.
  clear Eb E x b0. exists b', f, s. rewrite <- app_assoc. cbn [app].
  apply below_snoc in Hb as [Hb Hf]. apply sep_app in Sb as [Sb (S1 & S2 & _)].
  split; [easy|]. split; [|split; [|split; [|split]]]; try easy.
  - apply prev_app. split; [easy|]. destruct a as [|[f2 s2] a]; cbn in *; [easy|].
    apply below_snoc. split; [|lia]. eapply Forall_impl; [|exact Hb]. cbn. lia.
  - apply second_app. apply (sep_below lo); [easy|lia].
  - rewrite covers_app, covers_cons, (top_covers lo b' v) by (easy || lia).
    destruct (Z.leb_spec f v); [|lia]. cbn. apply orb_comm.
Qed.

Lemma second_in k l : In k (map fst l) -> exists s, second k l = Ret s /\ In (k, s) l.
Proof.
  induction l as [|[f s] l IH]; [easy|]. cbn. destruct (Z.eqb_spec f k) as [->|N].
  - intros _. exists s. now split; [|left].
  - intros [E|H]; [easy|]. destruct (IH H) as (s' & E & Hin). exists s'. now split; [|right].
Qed.

Lemma covers_in k s l x : In (k, s) l -> k <= x <= s -> covers l x = true.
Proof.
  intros H Hx. apply existsb_exists. exists (k, s). split; [easy|]. cbn.
  apply andb_true_iff. split; apply Z.leb_le; lia.
Qed.

Lemma begin_in a b k : begin a = Some k -> In k (map fst (b ++ a)).
Proof.
  destruct a as [|[f s] a]; [easy|]. intros [= ->]. rewrite map_app. apply in_app_iff. right. now left.
Qed.

Lemma cset_belongs v st : wf st ->
  exists st', belongs v st = Ret (covers (holder_ st) v, st') /\ wf st' /\ holder_ st' = holder_ st.
Proof.
  intros W. pose proof W as (S & B & L). destruct st as [l lf]. cbn [holder_ last_found_] in *.
  unfold belongs. cbn [holder_ last_found_].
  assert (exists c, match lf with
      | None => Ret false
      | Some k => s <- second k l ;; Ret ((k <=? v) && (v <=? s))
      end = Ret c /\ (c = true -> covers l v = true)) as (c & -> & Hc).
  { destruct lf as [k|]; [|now exists false].
    destruct (second_in k l L) as (s & -> & Hin). cbn [bind]. eexists. split; [reflexivity|].
    intros [H1 H2]%andb_true_iff. apply (covers_in k s); [easy|].
    apply Z.leb_le in H1, H2. lia. }
  cbn [bind]. destruct c; [exists (mkCSet l lf); now rewrite Hc|].
  destruct (neighbours _ l v S) as (b & a & E & -> & Hb & Ha & Ca & Cb & N).
  assert (forall it, (forall k, it = Some k -> In k (map fst l)) -> wf (mkCSet l it)) as Wf.
  { intros it H. split; [easy|]. split; [easy|]. cbn. destruct it; [now apply H|easy]. }
  assert (wf (mkCSet l (begin a))) as Wa by (apply Wf; intros k Hk; rewrite E; now apply begin_in).
  rewrite Cb, <- Ca. destruct (covers a v) eqn:Cv.
  { exists (mkCSet l (begin a)). split; [|easy]. now rewrite E, covers_app, Cv, orb_true_r. }
  destruct N as [->|(b' & f & s & -> & Hp & Hs & Hf & _ & Hcov)].
  - exists (mkCSet l (begin a)). split; [|easy]. now rewrite E, covers_app, Cv.
  - exists (mkCSet l (Some f)). rewrite Hp, Hcov. cbn [orb bind]. rewrite Hs. cbn [bind].
    split; [destruct b'; easy|]. split; [|easy]. apply Wf. intros k [= <-].
    rewrite E, <- app_assoc. now apply begin_in.
Qed.

(** What an answer of [check_presence] says of the interval. *)
Definition presence (l : list interval) (low high : Z) (c : CheckStatus) : Prop :=
  match c with
  | CS_NONE => forall x, low <= x <= high -> covers l x = false
  | CS_ALL => forall x, low <= x <= high -> covers l x = true
  | CS_SOME => (exists x, low <= x <= high /\ covers l x = true) /\
               (exists x, low <= x <= high /\ covers l x = false)
  end.

(** After an interval comes an integer that is not in the set. *)
Lemma gap_after lo b f s t : sep lo (b ++ (f, s) :: t) -> covers (b ++ (f, s) :: t) (s + 1) = false.
Proof.
  intros [Sb (S1 & S2 & S3)]%sep_app.
  rewrite covers_app, covers_cons, (top_covers lo b), (above_covers (s + 1) t) by (easy || lia).
  destruct (Z.leb_spec (s + 1) s); [lia|]. now rewrite andb_false_r.
Qed.

(** The status decided by one interval that holds [low]. *)
Lemma presence_from lo b f s t low high :
  sep lo (b ++ (f, s) :: t) -> f <= low <= s -> low <= high ->
  presence (b ++ (f, s) :: t) low high (if high <=? s then CS_ALL else CS_SOME).
Proof.
  intros S Hf Hh. assert (forall x, f <= x <= s -> covers (b ++ (f, s) :: t) x = true) as C.
  { intros x Hx. apply (covers_in f s); [|easy]. apply in_elt. }
  destruct (Z.leb_spec high s); cbn.
  - intros x Hx. apply C. lia.
  - split; [exists low; split; [lia|apply C; lia]|].
    exists (s + 1). split; [lia|]. now apply (gap_after lo).
Qed.

Lemma cset_check_presence low high st : wf st ->
  exists c, check_presence low high st = Ret c /\ presence (holder_ st) low high c.
Proof.
  intros (S & B & _). destruct st as [l lf]. cbn [holder_] in *. unfold check_presence. cbn [holder_].
  destruct (Z.ltb_spec high low) as [L|L]; [exists CS_NONE; split; [easy|cbn; intros; lia]|].
  destruct (neighbours _ l low S) as (b & a & E & -> & Hb & Ha & Ca & Cb & N).
  assert ((match begin a with Some k => high < k | None => True end) ->
    exists c, (if it_eqb (begin a) (begin l) then Ret CS_NONE
      else itor <- prev (begin a) l ;;
        match itor with
        | None => Undef
        | Some k => s <- second k l ;;
            Ret (if s <? low then CS_NONE else if high <=? s then CS_ALL else CS_SOME)
        end) = Ret c /\ presence l low high c) as Before.
  { intros Hk. assert (forall x, x <= high -> covers a x = false) as Cn.
    { intros x Hx. destruct a as [|[f s] a]; [easy|]. rewrite E in S.
      apply sep_app in S as [_ (S1 & S2 & S3)]. cbn in Hk.
      apply (above_covers (f - 1)); [cbn; repeat split; easy || lia|lia]. }
    rewrite Cb. destruct N as [->|(b' & f & s & -> & -> & Hs & Hf & Hfs & _)].
    - exists CS_NONE. split; [easy|]. cbn. intros x Hx. rewrite E. apply Cn. lia.
    - cbn [bind]. rewrite Hs. cbn [bind]. rewrite E, <- app_assoc in *. cbn [app] in *.
      eexists. split; [destruct b'; reflexivity|]. destruct (Z.ltb_spec s low) as [Ls|Ls].
      + cbn. intros x Hx. apply sep_app in S as [Sb (S1 & S2 & S3)].
        rewrite covers_app, covers_cons, Cn, (top_covers (int_min - 1) b') by (easy || lia).
        destruct (Z.leb_spec x s); [lia|]. now rewrite andb_false_r.
      + apply (presence_from (int_min - 1)); [easy|lia..]. }
  destruct a as [|[f s] t]; [now apply Before|]. cbn [begin] in *. rewrite E in *.
  pose proof S as [Sb (S1 & S2 & S3)]%sep_app. destruct (Z.eqb_spec f low) as [->|Nf].
  - rewrite second_app by easy. eexists. split; [reflexivity|].
    apply (presence_from (int_min - 1)); [easy|lia..].
  - destruct (Z.leb_spec f high); [|apply Before; lia].
    exists CS_SOME. split; [easy|]. split.
    + exists f. split; [lia|]. apply (covers_in f s); [apply in_elt|lia].
    + exists (f - 1). split; [lia|]. rewrite covers_app, (top_covers (int_min - 1) b) by (easy || lia).
      apply (above_covers (f - 1)); [cbn; repeat split; easy || lia|lia].
Qed.

(** ** Sequences of operations and the sets they denote *)

Inductive op : Type :=
| OpAdd (low high : Z)
| OpRemove (low high : Z)
| OpAddSet (cset : CSet)
| OpRemoveSet (cset : CSet)
| OpClear
| OpBelongs (value : Z).

Definition step (o : op) (st : CSet) : outcome (list bool * CSet) :=
  match o with
  | OpAdd low high => st <- add low high st ;; Ret ([], st)
  | OpRemove low high => st <- remove low high st ;; Ret ([], st)
  | OpAddSet cset => st <- add_set false cset st ;; Ret ([], st)
  | OpRemoveSet cset => st <- remove_set false cset st ;; Ret ([], st)
  | OpClear => Ret ([], clear st)
  | OpBelongs value => '(b, st) <- belongs value st ;; Ret ([b], st)
  end.

Fixpoint run (ops : list op) (st : CSet) : outcome (list bool * CSet) :=
  match ops with
  | [] => Ret ([], st)
  | o :: ops' =>
      '(out, st) <- step o st ;; '(outs, st) <- run ops' st ;; Ret (out ++ outs, st)
  end.

(** The abstract machine: a set is its characteristic function. *)
Definition astep (o : op) (a : Z -> bool) : list bool * (Z -> bool) :=
  match o with
  | OpAdd low high => ([], fun x => ((low <=? x) && (x <=? high)) || a x)
  | OpRemove low high => ([], fun x => a x && negb ((low <=? x) && (x <=? high)))
  | OpAddSet cset => ([], fun x => covers (holder_ cset) x || a x)
  | OpRemoveSet cset => ([], fun x => a x && negb (covers (holder_ cset) x))
  | OpClear => ([], fun _ => false)
  | OpBelongs value => ([a value], a)
  end.

Fixpoint arun (ops : list op) (a : Z -> bool) : list bool * (Z -> bool) :=
  match ops with
  | [] => ([], a)
  | o :: ops' =>
      let (out, a) := astep o a in let (outs, a) := arun ops' a in (out ++ outs, a)
  end.

(** The arguments are values of the type; removals stay below its greatest
    value. *)
Definition op_ok (o : op) : Prop :=
  match o with
  | OpAdd low high => int_min <= low /\ high <= int_max
  | OpRemove low high => int_min <= low /\ high < int_max
  | OpAddSet cset => wf cset
  | OpRemoveSet cset => wf cset /\ covers (holder_ cset) int_max = false
  | OpClear | OpBelongs _ => True
  end.

Lemma for_each_add l : forall lo st, int_min - 1 <= lo -> sep lo l -> bounded l -> wf st ->
  exists st', for_each add l st = Ret st' /\ wf st' /\
    forall x, covers (holder_ st') x = covers l x || covers (holder_ st) x.
Proof.
  induction l as [|[f s] l IH]; intros lo st Hlo S B W; [now exists st|].
  destruct S as (S1 & S2 & S3). apply Forall_cons_iff in B as [Bs B]. cbn in Bs.
  destruct (cset_add f s st W) as (st1 & E1 & W1 & C1); [lia..|].
  destruct (IH (s + 1) st1) as (st2 & E2 & W2 & C2); [lia|easy..|].
  exists st2. cbn [for_each]. rewrite E1. cbn [bind]. split; [easy|]. split; [easy|].
  intros x. rewrite C2, C1, covers_cons.
  destruct (covers l x), ((f <=? x) && (x <=? s)); easy.
Qed.

Lemma for_each_remove l : forall lo st, int_min - 1 <= lo -> sep lo l -> bounded l ->
  covers l int_max = false -> wf st ->
  exists st', for_each remove l st = Ret st' /\ wf st' /\
    forall x, covers (holder_ st') x = covers (holder_ st) x && negb (covers l x).
Proof.
  induction l as [|[f s] l IH]; intros lo st Hlo S B M W;
    [exists st; split; [easy|]; split; [easy|]; intros x; cbn; now rewrite andb_true_r|].
  destruct S as (S1 & S2 & S3). apply Forall_cons_iff in B as [Bs B]. cbn in Bs.
  rewrite covers_cons in M. apply orb_false_iff in M as [M1 M2].
  assert (s < int_max) as Hs.
  { destruct (Z.leb_spec f int_max), (Z.leb_spec int_max s); easy || lia. }
  destruct (cset_remove f s st W) as (st1 & E1 & W1 & C1); [lia..|].
  destruct (IH (s + 1) st1) as (st2 & E2 & W2 & C2); [lia|easy..|].
  exists st2. cbn [for_each]. rewrite E1. cbn [bind]. split; [easy|]. split; [easy|].
  intros x. rewrite C2, C1, covers_cons. destruct (Z.eqb_spec s int_max); [lia|].
  rewrite andb_false_r. cbn [andb]. rewrite orb_false_r.
  destruct (covers (holder_ st) x), (covers l x), ((f <=? x) && (x <=? s)); easy.
Qed.

Lemma step_refines o st a : wf st -> op_ok o -> (forall x, covers (holder_ st) x = a x) ->
  exists st', step o st = Ret (fst (astep o a), st') /\ wf st' /\
    forall x, covers (holder_ st') x = snd (astep o a) x.
Proof.
  intros W Ho Ha. destruct o as [low high|low high|cs|cs| |v]; cbn [step astep fst snd op_ok] in *.
  - destruct (cset_add low high st W) as (st' & -> & W' & C); [easy..|].
    exists st'. split; [easy|]. split; [easy|]. intros x. now rewrite C, Ha.
  - destruct (cset_remove low high st W) as (st' & -> & W' & C); [easy|lia|].
    exists st'. split; [easy|]. split; [easy|]. intros x. rewrite C, Ha.
    destruct (Z.eqb_spec high int_max); [lia|]. rewrite andb_false_r. apply orb_false_r.
  - destruct Ho as (S & B & _). unfold add_set.
    destruct (for_each_add (holder_ cs) (int_min - 1) st) as (st' & -> & W' & C); [lia|easy..|].
    exists st'. split; [easy|]. split; [easy|]. intros x. now rewrite C, Ha.
  - destruct Ho as ((S & B & _) & M). unfold remove_set.
    destruct (for_each_remove (holder_ cs) (int_min - 1) st) as (st' & -> & W' & C); [lia|easy..|].
    exists st'. split; [easy|]. split; [easy|]. intros x. now rewrite C, Ha.
  - exists (clear st). split; [easy|]. split; [|easy]. split; [easy|]. split; [constructor|easy].
  - destruct (cset_belongs v st W) as (st' & -> & W' & E). exists st'. cbn [bind].
    rewrite Ha. split; [easy|]. split; [easy|]. intros x. now rewrite E.
Qed.

(** ** Properties *)

(** C26: refinement: any sequence of additions, removals (of intervals and of
    whole sets, below the greatest value of the type), [clear] and [belongs]
    runs without using a dangling iterator, gives the answers of the abstract
    set, keeps the stored intervals separated by gaps, and ends in a state that
    denotes the abstract set, whatever the integer type. *)
Theorem compressed_set_refinement ops st :
  wf st -> Forall op_ok ops ->
  exists st', run ops st = Ret (fst (arun ops (covers (holder_ st))), st') /\ wf st' /\
    forall x, covers (holder_ st') x = snd (arun ops (covers (holder_ st))) x.
Proof.
  enough (forall a, wf st -> Forall op_ok ops -> (forall x, covers (holder_ st) x = a x) ->
    exists st', run ops st = Ret (fst (arun ops a), st') /\ wf st' /\
      forall x, covers (holder_ st') x = snd (arun ops a) x) as H by (intros; now apply H).
  revert st. induction ops as [|o ops IH]; intros st a W H Ha; [now exists st|].
  apply Forall_cons_iff in H as [Ho H].
  destruct (step_refines o st a W Ho Ha) as (st1 & E1 & W1 & C1).
  cbn [run arun]. rewrite E1. destruct (astep o a) as [out a1]. cbn [fst snd bind] in *.
  destruct (IH st1 a1 W1 H C1) as (st2 & E2 & W2 & C2). rewrite E2. exists st2. cbn [bind].
  destruct (arun ops a1) as [outs a2]. easy.
Qed.

(** [remove] with any bounds removes exactly the interval, except that when
    the interval reaches the greatest value of the type a stored interval that
    starts at that value stays; removing a set from itself does nothing; and
    [check_presence] tells exactly whether all, none or some but not all of the
    values of an interval are in the set. *)
Theorem compressed_set_remove low high st :
  wf st -> int_min <= low -> high <= int_max ->
  exists st', remove low high st = Ret st' /\ wf st' /\
    (forall x, covers (holder_ st') x =
      (covers (holder_ st) x && negb ((low <=? x) && (x <=? high))) ||
      ((low <=? high) && (high =? int_max) && (x =? int_max) && starts_at_max (holder_ st))) /\
    remove_set true st st = Ret st /\
    exists c, check_presence low high st = Ret c /\ presence (holder_ st) low high c.
Proof.
  intros W Hl Hh. destruct (cset_remove low high st W Hl Hh) as (st' & E & W' & C).
  exists st'. repeat split; auto; try apply W'. now apply cset_check_presence.
Qed.
End Laws.

Lemma compressed_set_refinement_witness :
  run (I := Int8) [OpAdd 5 7; OpAdd 10 12; OpBelongs 11; OpAdd 8 9; OpRemove 6 11; OpBelongs 12] CSet_new
  = Ret ([true; true], mkCSet [(5, 5); (12, 12)] (Some 12)) /\
  exists st', run (I := Int8) [OpAdd 5 7; OpRemove 6 6] CSet_new = Ret ([], st') /\
    covers (holder_ st') 7 = true.
Proof.
  split; [reflexivity|].
  destruct (compressed_set_refinement (I := Int8) [OpAdd 5 7; OpRemove 6 6] CSet_new)
    as (st' & E & _ & C).
  - split; [exact Logic.I|]. split; [constructor|exact Logic.I].
  - repeat constructor; vm_compute; discriminate.
  - exists st'. split; [exact E|]. rewrite C. reflexivity.
Defined.

Lemma compressed_set_remove_witness :
  exists st', remove (I := Int8) 100 127 (mkCSet [(3, 120); (127, 127)] None) = Ret st' /\
    covers (holder_ st') 127 = true /\ covers (holder_ st') 110 = false.
Proof.
  destruct (compressed_set_remove (I := Int8) 100 127 (mkCSet [(3, 120); (127, 127)] None))
    as (st' & E & _ & C & _).
  - split; [vm_compute; repeat split; discriminate|]. split; [|exact Logic.I].
    repeat constructor; vm_compute; discriminate.
  - vm_compute. discriminate.
  - vm_compute. discriminate.
  - exists st'. split; [exact E|]. split; rewrite C; reflexivity.
Defined.
