(* ===== verification/Analyzer.v ===== *)
(** * Analyzer: src/src/String/Analyzer.hpp, Analyzer.cpp, AnalyzerParams.hpp and
    BasicAnalyzer.cpp

    The translator of brief descriptions of lexemes: [a[1-3,x]b, (c,d){2}] stands
    for [a1b a2b a3b axb c d c d].  A description is parsed into a graph of nodes
    in a heap, in which alternatives share the node behind them; the graph is
    unrolled into lexemes.  Pointers are indices of the heap, and a null pointer
    is [None]. *)

From stdpp Require Import base gmap list.
From Stdlib Require Import ZArith List Bool Lia.
From S2P Require Import Prelude Ascii Numbers CompressedSet.
Import ListNotations.
Open Scope Z_scope.

(** ** Parameters *)

Record CharPair := mkPair { initialized : bool; first : Z; second : Z }.

Abbreviation CharSet := CharTable.

Record AnalyzerParams := mkParams {
  shield_symbol : Z;
  main_separators : CharSet;
  ignore_successive_separators : bool;
  regular_symbs : CharSet;
  allow_ignored_symbs : bool;
  ignored_symbs : CharSet;
  allow_recursion : bool;
  recursion_max_depth : Z;
  allow_repeat : bool;
  num_retries_symb : CharPair;
  retry_part_symb : CharPair;
  allow_range : bool;
  range_part_symb : CharPair;
  range_separators : CharSet;
  regular_range_symbs : CharSet;
  range_symbol : Z;
  allow_padding : bool;
  padding_symb : Z;
  immediate_range_mode : bool;
  use_int_range : bool;
  int_range_bounds : CSet;
  default_int_range_start : Z;
  use_char_range : bool;
  char_range_bounds : CharSet;
  default_char_range_start : Z;
  use_str_range : bool;
  str_char_range_bounds : CharSet;
  default_str_char_range_start : Z;
  before_lexeme_out_str : list Z;
  after_lexeme_out_str : list Z;
  shield_map : gmap Z (list Z)
}.

Definition charset_empty (s : CharSet) : bool := category_empty (table_owned s).

Definition check_symbol_in_set (chars : CharSet) (ch : Z) : bool := table_owned chars ch.

(** [belongs] also moves an iterator that it keeps to answer faster. *)
Definition check_allowed_int_range (p : AnalyzerParams) (number : Z) : outcome bool :=
  '(b, _) <- belongs number (int_range_bounds p) ;; Ret b.

(** What the constructor puts right in its copy of the parameters. *)
Definition adjust_params (p : AnalyzerParams) : AnalyzerParams :=
  mkParams (shield_symbol p) (main_separators p) (ignore_successive_separators p) (regular_symbs p)
    (allow_ignored_symbs p && negb (charset_empty (ignored_symbs p))) (ignored_symbs p) (allow_recursion p)
    (if allow_recursion p then safe_next (I := UInt16) (recursion_max_depth p) else 1)
    (allow_repeat p) (num_retries_symb p) (retry_part_symb p) (allow_range p) (range_part_symb p)
    (if allow_range p && charset_empty (range_separators p) then main_separators p else range_separators p)
    (if allow_range p && charset_empty (regular_range_symbs p) then regular_symbs p else regular_range_symbs p)
    (range_symbol p) (allow_padding p) (padding_symb p) (immediate_range_mode p) (use_int_range p)
    (int_range_bounds p) (default_int_range_start p) (use_char_range p) (char_range_bounds p)
    (default_char_range_start p) (use_str_range p) (str_char_range_bounds p)
    (default_str_char_range_start p) (before_lexeme_out_str p) (after_lexeme_out_str p) (shield_map p).

Definition require (b : bool) : outcome unit := if b then Ret tt else Throw AnalyzerException.

(** The constructor; character and string ranges are reserved. *)
Definition Analyzer_new (p : AnalyzerParams) : outcome AnalyzerParams :=
  _ <- require (negb (charset_empty (main_separators p))) ;;
  _ <- require (negb (charset_empty (regular_symbs p))) ;;
  _ <- (if allow_repeat p then
          _ <- require (initialized (num_retries_symb p)) ;; require (initialized (retry_part_symb p))
        else Ret tt) ;;
  _ <- (if allow_range p then require (initialized (range_part_symb p))
        else require (negb (immediate_range_mode p))) ;;
  _ <- (if use_int_range p then
          _ <- require (negb (CompressedSet.empty (int_range_bounds p))) ;;
          allowed <- check_allowed_int_range p (default_int_range_start p) ;; require allowed
        else Ret tt) ;;
  _ <- require (negb (use_char_range p)) ;;
  _ <- require (negb (use_str_range p)) ;;
  Ret (adjust_params p).

(** ** The stream

    [std::istream]: what is left to read, and the state. *)
Record IStream := mkStream { rest : list Z; eofbit : bool; failbit : bool }.

Definition new_stream (text : list Z) : IStream := mkStream text false false.

Definition good (i : IStream) : bool := negb (eofbit i) && negb (failbit i).

(** [get(c)]: [c] stays as it is when nothing can be read. *)
Definition stream_get (i : IStream) (c : Z) : IStream * Z :=
  if good i then
    match rest i with
    | [] => (mkStream [] true true, c)
    | x :: r => (mkStream r false false, x)
    end
  else (mkStream (rest i) (eofbit i) true, c).

Definition spaces (l : list Z) : list Z := snd (span isspace l).

(** [operator >>] for [unsigned short], as libstdc++ reads it: white space, a
    sign, digits.  Without digits and for a number that is too great it fails. *)
Definition stream_read_ushort (i : IStream) : IStream * Z :=
  if good i then
    match spaces (rest i) with
    | [] => (mkStream [] true true, 0)
    | c :: r =>
        let negative := c =? chr "-" in
        let (ds, r') := span is_digit (if negative || (c =? chr "+") then r else c :: r) in
        let eof := match r' with [] => true | _ => false end in
        match ds with
        | [] => (mkStream r' eof true, 0)
        | _ =>
            let v := dec_from 0 ds in
            if 65535 <? v then (mkStream r' eof true, 65535)
            else (mkStream r' eof false, if negative then wrapu 16 (- v) else v)
        end
    end
  else (mkStream (rest i) (eofbit i) true, 0).

(** ** The analyzer's state *)

Record TreeNode := mkNode { node_val : list Z; repeat_amount : Z; child_list : list nat }.

Record Analyzer := mkAnalyzer {
  istr : IStream;
  current_symbol_ : Z;
  heap : list TreeNode;
  cur_lexeme_tree_ : option nat;
  current_node_ : option nat;
  recursion_depth_ : Z;
  written : list (list Z);
  warnings : nat
}.

Definition M (A : Type) : Type := Analyzer -> Analyzer * outcome A.

#[global] Instance M_ret : MRet M := fun _ a s => (s, Ret a).
#[global] Instance M_bind : MBind M := fun _ _ k m s =>
  match m s with
  | (s', Ret a) => k a s'
  | (s', Throw e) => (s', Throw e)
  | (s', Undef) => (s', Undef)
  end.

Definition throw {A} (e : exn) : M A := fun s => (s, Throw e).
Definition undef {A} : M A := fun s => (s, Undef).
Definition member {A} (f : Analyzer -> A) : M A := fun s => (s, Ret (f s)).
Definition modify (f : Analyzer -> Analyzer) : M unit := fun s => (f s, Ret tt).
Definition lift {A} (c : outcome A) : M A := fun s => (s, c).

Definition with_stream (i : IStream) (s : Analyzer) : Analyzer :=
  mkAnalyzer i (current_symbol_ s) (heap s) (cur_lexeme_tree_ s) (current_node_ s) (recursion_depth_ s) (written s) (warnings s).
Definition with_symbol (c : Z) (s : Analyzer) : Analyzer :=
  mkAnalyzer (istr s) c (heap s) (cur_lexeme_tree_ s) (current_node_ s) (recursion_depth_ s) (written s) (warnings s).
Definition with_heap (h : list TreeNode) (s : Analyzer) : Analyzer :=
  mkAnalyzer (istr s) (current_symbol_ s) h (cur_lexeme_tree_ s) (current_node_ s) (recursion_depth_ s) (written s) (warnings s).
Definition with_tree (t : option nat) (s : Analyzer) : Analyzer :=
  mkAnalyzer (istr s) (current_symbol_ s) (heap s) t (current_node_ s) (recursion_depth_ s) (written s) (warnings s).
Definition with_node (n : option nat) (s : Analyzer) : Analyzer :=
  mkAnalyzer (istr s) (current_symbol_ s) (heap s) (cur_lexeme_tree_ s) n (recursion_depth_ s) (written s) (warnings s).
Definition with_depth (d : Z) (s : Analyzer) : Analyzer :=
  mkAnalyzer (istr s) (current_symbol_ s) (heap s) (cur_lexeme_tree_ s) (current_node_ s) d (written s) (warnings s).
Definition with_written (w : list (list Z)) (s : Analyzer) : Analyzer :=
  mkAnalyzer (istr s) (current_symbol_ s) (heap s) (cur_lexeme_tree_ s) (current_node_ s) (recursion_depth_ s) w (warnings s).
Definition with_warning (s : Analyzer) : Analyzer :=
  mkAnalyzer (istr s) (current_symbol_ s) (heap s) (cur_lexeme_tree_ s) (current_node_ s) (recursion_depth_ s) (written s) (S (warnings s)).

Definition get : M unit := fun s =>
  let (i, c) := stream_get (istr s) (current_symbol_ s) in (with_symbol c (with_stream i s), Ret tt).

Definition good_ : M bool := member (fun s => good (istr s)).

(** *** Nodes *)

Definition new_node : M nat := fun s => (with_heap (heap s ++ [mkNode [] 1 []]) s, Ret (length (heap s))).

Definition deref (p : option nat) : M nat := match p with Some n => mret n | None => undef end.

Definition node (n : nat) : M TreeNode := fun s =>
  match heap s !! n with Some t => (s, Ret t) | None => (s, Undef) end.

Definition set_node (n : nat) (t : TreeNode) : M unit := modify (fun s => with_heap (<[n := t]> (heap s)) s).

Definition append_val (n : nat) (cs : list Z) : M unit :=
  t ← node n; set_node n (mkNode (node_val t ++ cs) (repeat_amount t) (child_list t)).

Definition push_child (n c : nat) : M unit :=
  t ← node n; set_node n (mkNode (node_val t) (repeat_amount t) (child_list t ++ [c])).

Definition current : M nat := p ← member current_node_; deref p.

(** ** The parser *)

Section Parser.
Context (init_params_ : AnalyzerParams).

Abbreviation P := init_params_.

Definition is_main_separator (c : Z) : bool := check_symbol_in_set (main_separators P) c.
Definition is_range_separator (c : Z) : bool := check_symbol_in_set (range_separators P) c.
Definition is_ignored (c : Z) : bool := allow_ignored_symbs P && check_symbol_in_set (ignored_symbs P) c.

(** [while (istr.good() && p(current_symbol_)) istr.get(current_symbol_)]. *)
Fixpoint skip_loop (fuel : nat) (p : Z -> bool) : M unit :=
  match fuel with
  | O => undef
  | S fuel' =>
      g ← good_; c ← member current_symbol_;
      if (g : bool) && p c then get ;; skip_loop fuel' p else mret tt
  end.

(** A turn of a loop that reads takes a cell or sees the end. *)
Definition enough (s : Analyzer) : nat := length (rest (istr s)) + 2.

Definition skip (p : Z -> bool) : M unit := fuel ← member enough; skip_loop fuel p.

Definition create_tree_ : M unit :=
  n ← new_node; modify (fun s => with_node (Some n) (with_tree (Some n) s)).

Definition pass_separator_symbols_ : M bool :=
  if ignore_successive_separators P then
    skip (fun c => is_main_separator c || is_ignored c);; mret true
  else
    g ← good_; c ← member current_symbol_;
    if (g : bool) && is_main_separator c then
      get;;
      g ← good_; c ← member current_symbol_;
      if (g : bool) && is_main_separator c then create_tree_;; mret false else mret true
    else mret true.

Definition create_node_ (start_general_node : nat) : M unit :=
  n ← new_node; push_child start_general_node n;; modify (with_node (Some n)).

Definition create_tree_node_ (start_general_node : nat) : M nat :=
  d ← member recursion_depth_;
  if d =? recursion_max_depth P then throw NoncriticalException
  else create_node_ start_general_node;; new_node.

Definition check_readability_ (stop_symbol : Z) : M unit :=
  g ← good_; c ← member current_symbol_;
  if negb g && negb (c =? stop_symbol) then throw NoncriticalException else mret tt.

Definition recognize_shielded_symbol_ : M unit :=
  get;; g ← good_;
  if negb g then throw AnalyzerException
  else
    c ← member current_symbol_;
    match shield_map P !! c with
    | Some tmpstr => n ← current; append_val n tmpstr
    | None => if negb (is_ignored c) then throw NoncriticalException else mret tt
    end.

(** [istr.clear()] when the number could not be read. *)
Definition set_node_repeat_amount (repeat_node : nat) : M unit :=
  i ← member istr;
  let (i, repeat) := stream_read_ushort i in
  modify (with_stream i);;
  (if good i then
     get;; g ← good_; c ← member current_symbol_;
     if negb g then throw AnalyzerException
     else if negb (c =? second (num_retries_symb P)) then throw NoncriticalException
     else mret tt
   else if failbit i then
     modify (with_stream (mkStream (rest i) false false));; throw NoncriticalException
   else throw AnalyzerException);;
  t ← node repeat_node;
  set_node repeat_node (mkNode (node_val t) (wrapu 16 (repeat_amount t * repeat)) (child_list t)).

(** The end of an alternative at a separator. *)
Definition close_alternative (start_general_node final_general_node : nat) (separator : Z -> bool) : M unit :=
  n ← current; push_child n final_general_node;;
  t ← node n;
  if negb (length (child_list t) =? 1)%nat then throw NoncriticalException
  else
    create_node_ start_general_node;;
    get;;
    if ignore_successive_separators P then skip (fun c => separator c || is_ignored c) else mret tt.

(** *** Ranges of numbers *)

Fixpoint extract_loop (digits : list Z) (extracted_int : Z) : Z * bool :=
  match digits with
  | [] => (extracted_int, true)
  | c :: digits =>
      let digit := u32 (c - chr "0") in
      if extracted_int <=? u32 (2 ^ 32 - 1 - digit) / 10 then extract_loop digits (u32 (extracted_int * 10 + digit))
      else (extracted_int, false)
  end.

(** The number and what becomes of [num_range]. *)
Definition extract_number (ch_list : list Z) (num_range : bool) : Z * bool :=
  if negb (forallb (table_owned NUMBER) ch_list) then (0, false)
  else let (v, ok) := extract_loop ch_list 0 in (v, num_range && ok).

(** [intstr << i] with [width] and [fill]. *)
Definition number_text (i : Z) (use_padding : bool) (width : Z) : list Z :=
  let text := rev (digits_loop 10 i) in
  if use_padding then List.repeat (padding_symb P) (Z.to_nat width - length text) ++ text else text.

Fixpoint unroll_loop (fuel : nat) (i final_int : Z) (use_padding : bool) (width : Z) (final parent : nat) : M unit :=
  match fuel with
  | O => undef
  | S fuel' =>
      if i <=? final_int then
        n ← new_node; modify (with_node (Some n));;
        push_child parent n;;
        append_val n (number_text i use_padding width);;
        push_child n final;;
        unroll_loop fuel' (u32 (i + 1)) final_int use_padding width final parent
      else mret tt
  end.

Definition unroll_num_range (start_int final_int : Z) (use_padding : bool) (width : Z) (parent_node : nat) : M nat :=
  final_general_node ← new_node;
  unroll_loop (Z.to_nat (final_int - start_int) + 2) start_int final_int use_padding width
    final_general_node parent_node;;
  mret final_general_node.

Definition strip_padding (part : list Z) : list Z :=
  if allow_padding P then snd (span (fun c => c =? padding_symb P) part) else part.

(** The text of the second part. *)
Fixpoint second_part_loop (fuel : nat) (stop : Z -> bool) (part : list Z) : M (list Z) :=
  match fuel with
  | O => undef
  | S fuel' =>
      g ← good_; c ← member current_symbol_;
      if (g : bool) && negb (stop c) then get;; second_part_loop fuel' stop (part ++ [c]) else mret part
  end.

(** The first part: its number, and which kinds of range it leaves. *)
Definition first_part (range_part1 : list Z) : outcome (Z * bool * bool * bool) :=
  match range_part1 with
  | [] => Ret (default_int_range_start P, use_int_range P, false, false)
  | _ =>
      '(v, numb_range) <-
        (if use_int_range P then
           let (v, numb_range) := extract_number range_part1 true in
           if numb_range then b <- check_allowed_int_range P v ;; Ret (v, b) else Ret (v, false)
         else Ret (0, false)) ;;
      Ret (v, numb_range, use_char_range P && forallb (check_symbol_in_set (char_range_bounds P)) range_part1,
           use_str_range P && forallb (check_symbol_in_set (str_char_range_bounds P)) range_part1)
  end.

(** The number of the second part. *)
Definition second_part (first_part_int : Z) (range_part2 : list Z) : outcome (Z * bool) :=
  let (v, numb_range) := extract_number range_part2 true in
  if numb_range then b <- check_allowed_int_range P v ;; Ret (v, b && negb (v <? first_part_int))
  else Ret (v, false).

(** What [process_range_list] makes of its two parts: the numbers of the range,
    whether they are padded, and to which width.  Ranges of characters and of
    strings end in the exception for what is reserved. *)
Definition range_of_parts (range_part1 range_part2 : list Z) : outcome (Z * Z * bool * Z) :=
  let length1_with_padding := u32 (Z.of_nat (length range_part1)) in
  let part1 := strip_padding range_part1 in
  let length1 := u32 (Z.of_nat (length part1)) in
  '(first_part_int, numb_range, char_range, str_range) <- first_part part1 ;;
  let length2_with_padding := u32 (Z.of_nat (length range_part2)) in
  if length2_with_padding =? 0 then Throw NoncriticalException
  else
    let same := length2_with_padding =? length1_with_padding in
    let part2 := strip_padding range_part2 in
    let length2 := u32 (Z.of_nat (length part2)) in
    if (length2 =? 0) || (length2 <? length1) then Throw NoncriticalException
    else
      let char_range := char_range && same && (length1 =? length2) in
      let str_range := str_range && same && (length1 =? length2) in
      let numb_range := numb_range && negb (negb (length1_with_padding =? length1) && negb same) in
      '(second_part_int, numb_range) <- (if numb_range then second_part first_part_int part2 else Ret (0, false)) ;;
      if numb_range then
        Ret (first_part_int, second_part_int,
             negb (length1_with_padding =? length1) || negb (length2_with_padding =? length2), length2_with_padding)
      else if str_range && forallb (check_symbol_in_set (str_char_range_bounds P)) part2 then Throw AnalyzerException
      else if char_range then Throw AnalyzerException
      else Throw NoncriticalException.

(** [range_loop] below is passed to what it calls. *)
Section Range.
Context (range_loop : Z -> nat -> nat -> M unit).

Definition process_range_subsequence (range_seq_close_symbol : Z) (start_general_node : nat) : M nat :=
  get;; check_readability_ range_seq_close_symbol;;
  final_general_node ← create_tree_node_ start_general_node;
  modify (fun s => with_depth (wrapu 16 (recursion_depth_ s + 1)) s);;
  range_loop range_seq_close_symbol start_general_node final_general_node;;
  check_readability_ range_seq_close_symbol;;
  n ← current; push_child n final_general_node;;
  modify (fun s => with_depth (wrapu 16 (recursion_depth_ s - 1)) s);;
  mret final_general_node.

Definition recognize_range_symbol : M unit :=
  c ← member current_symbol_;
  if allow_repeat P && (c =? first (retry_part_symb P)) then
    general_node ← current; t ← node general_node;
    if negb (length (node_val t) =? 0)%nat then throw NoncriticalException
    else
      n ← process_range_subsequence (second (retry_part_symb P)) general_node;
      modify (with_node (Some n));;
      get;; g ← good_; c ← member current_symbol_;
      if negb g || negb (c =? first (num_retries_symb P)) then throw NoncriticalException
      else set_node_repeat_amount general_node
  else if c =? first (range_part_symb P) then
    general_node ← current;
    n ← process_range_subsequence (second (range_part_symb P)) general_node;
    modify (with_node (Some n))
  else if allow_repeat P && (c =? first (num_retries_symb P)) then
    n ← current; set_node_repeat_amount n
  else if c =? shield_symbol P then recognize_shielded_symbol_
  else if check_symbol_in_set (regular_range_symbs P) c then n ← current; append_val n [c]
  else if is_ignored c then mret tt
  else throw NoncriticalException.

Definition process_range_list (use_range_seq_close_symbol : bool) (range_seq_close_symbol : Z)
  (start_general_node : option nat) : M nat :=
  start ← deref start_general_node;
  modify (with_node (Some start));;
  final_general_node ← new_node;
  t ← node start;
  let range_part1 := node_val t in
  set_node start (mkNode [] (repeat_amount t) (child_list t));;
  (if u32 (Z.of_nat (length range_part1)) =? 0 then throw NoncriticalException else mret tt);;
  get;;
  fuel ← member enough;
  range_part2 ← second_part_loop fuel (fun c => is_range_separator c ||
    (use_range_seq_close_symbol && (c =? range_seq_close_symbol)) || (c =? first (range_part_symb P))) [];
  r ← lift (range_of_parts range_part1 range_part2);
  let '(first_part_int, second_part_int, use_padding, width) := r in
  n ← unroll_num_range first_part_int second_part_int use_padding width start;
  modify (with_node (Some n));;
  c ← member current_symbol_;
  (if (negb use_range_seq_close_symbol || negb (c =? range_seq_close_symbol)) && (c =? first (range_part_symb P)) then
     general_node ← current;
     n ← process_range_subsequence (second (range_part_symb P)) general_node;
     modify (with_node (Some n));;
     get
   else mret tt);;
  n ← current; push_child n final_general_node;;
  mret final_general_node.
End Range.

Fixpoint range_loop (fuel : nat) (range_seq_close_symbol : Z) (start final : nat) : M unit :=
  match fuel with
  | O => undef
  | S fuel' =>
      g ← good_; c ← member current_symbol_;
      if (g : bool) && negb (c =? range_seq_close_symbol) then
        (if is_range_separator c then close_alternative start final is_range_separator
         else if c =? range_symbol P then
           p ← member current_node_;
           n ← process_range_list (range_loop fuel') true range_seq_close_symbol p;
           modify (with_node (Some n))
         else recognize_range_symbol (range_loop fuel');; get);;
        range_loop fuel' range_seq_close_symbol start final
      else mret tt
  end.

Section Char.
Context (char_loop : nat -> nat -> M unit) (range_loop : Z -> nat -> nat -> M unit).

Definition process_char_subsequence (start_general_node : nat) : M nat :=
  final_general_node ← create_tree_node_ start_general_node;
  modify (fun s => with_depth (wrapu 16 (recursion_depth_ s + 1)) s);;
  get;;
  char_loop start_general_node final_general_node;;
  n ← current; push_child n final_general_node;;
  modify (fun s => with_depth (wrapu 16 (recursion_depth_ s - 1)) s);;
  mret final_general_node.

Definition recognize_symbol : M unit :=
  c ← member current_symbol_;
  if allow_repeat P && (c =? first (retry_part_symb P)) then
    general_node ← current; t ← node general_node;
    if negb (length (node_val t) =? 0)%nat then throw NoncriticalException
    else
      n ← process_char_subsequence general_node;
      modify (with_node (Some n));;
      get;; g ← good_; c ← member current_symbol_;
      if negb g then throw AnalyzerException
      else if negb (c =? first (num_retries_symb P)) then throw NoncriticalException
      else set_node_repeat_amount general_node
  else if allow_range P && (c =? first (range_part_symb P)) then
    general_node ← current;
    n ← process_range_subsequence range_loop (second (range_part_symb P)) general_node;
    modify (with_node (Some n))
  else if allow_repeat P && (c =? first (num_retries_symb P)) then
    n ← current; set_node_repeat_amount n
  else if c =? shield_symbol P then recognize_shielded_symbol_
  else if check_symbol_in_set (regular_symbs P) c then n ← current; append_val n [c]
  else if is_ignored c then mret tt
  else throw NoncriticalException.
End Char.

Fixpoint char_loop (fuel : nat) (start final : nat) : M unit :=
  match fuel with
  | O => undef
  | S fuel' =>
      g ← good_; c ← member current_symbol_;
      if (g : bool) && negb (c =? second (retry_part_symb P)) then
        (if is_main_separator c then close_alternative start final is_main_separator
         else recognize_symbol (char_loop fuel') (range_loop fuel');; get);;
        char_loop fuel' start final
      else mret tt
  end.
End Parser.

(** ** The graph unrolled *)

(** [n] times what [m] writes. *)
Fixpoint times_write (n : nat) (m : outcome (list (list Z))) : outcome (list (list Z)) :=
  match n with
  | O => Ret []
  | S n' => a <- m ;; b <- times_write n' m ;; Ret (a ++ b)
  end.

Fixpoint children_write (flush : nat -> outcome (list (list Z))) (cs : list nat) : outcome (list (list Z)) :=
  match cs with
  | [] => Ret []
  | c :: cs => a <- flush c ;; b <- children_write flush cs ;; Ret (a ++ b)
  end.

(** [flush_node]: the lexemes in the order in which they are written. *)
Fixpoint flush_node (fuel : nat) (h : list TreeNode) (cur_node : nat) (ostr : list Z) : outcome (list (list Z)) :=
  match fuel with
  | O => Undef
  | S fuel' =>
      match h !! cur_node with
      | None => Undef
      | Some t =>
          times_write (Z.to_nat (repeat_amount t))
            (let my_str := ostr ++ node_val t in
             match child_list t with
             | [] => Ret [my_str]
             | cs => children_write (fun c => flush_node fuel' h c my_str) cs
             end)
      end
  end.

Definition interprete_and_flush_tree : M unit :=
  t ← member cur_lexeme_tree_; t ← deref t;
  h ← member heap;
  w ← lift (flush_node (S (length h)) h t []);
  modify (fun s => with_written (written s ++ w) s).

(** ** The sequences *)

Section Sequence.
Context (init_params_ : AnalyzerParams).

Abbreviation P := init_params_.

(** [if (cur_lexeme_tree_) { interprete_and_flush_tree(); cur_lexeme_tree_.reset(); }]. *)
Definition flush_tree : M unit :=
  t ← member cur_lexeme_tree_;
  match t with
  | Some _ => interprete_and_flush_tree;; modify (with_tree None)
  | None => mret tt
  end.

(** [do ... while (!pass_separator_symbols_(istr))]. *)
Fixpoint separator_loop (fuel : nat) : M unit :=
  match fuel with
  | O => undef
  | S fuel' =>
      flush_tree;;
      b ← pass_separator_symbols_ P;
      if b : bool then mret tt else separator_loop fuel'
  end.

(** [while (istr.good() || p(current_symbol_)) istr.get(current_symbol_)]. *)
Fixpoint skip_or_loop (fuel : nat) (p : Z -> bool) : M unit :=
  match fuel with
  | O => undef
  | S fuel' =>
      g ← good_; c ← member current_symbol_;
      if (g : bool) || p c then get ;; skip_or_loop fuel' p else mret tt
  end.

(** A handler of [NoncriticalException]; it does not catch the others. *)
Definition try_noncritical (m handler : M unit) : M unit := fun s =>
  match m s with
  | (s', Throw NoncriticalException) => handler s'
  | r => r
  end.

Definition one_symbol (recognize : M unit) : M unit :=
  t ← member cur_lexeme_tree_;
  match t with None => create_tree_ | Some _ => mret tt end;;
  recognize;; get.

Definition recover_char : M unit :=
  modify with_warning;;
  modify (with_tree None);; modify (with_node None);; modify (with_depth 0);;
  fuel ← member enough;
  skip_or_loop fuel (is_main_separator P).

Definition recover_range : M unit :=
  modify with_warning;;
  t ← member cur_lexeme_tree_;
  match t with Some _ => modify (with_tree None);; modify (with_node None) | None => mret tt end;;
  modify (with_depth 0);;
  skip (fun c => negb (is_range_separator P c)).

Fixpoint char_sequence_loop (fuel : nat) : M unit :=
  match fuel with
  | O => undef
  | S fuel' =>
      g ← good_; c ← member current_symbol_; n ← member enough;
      if g : bool then
        (if is_main_separator P c then separator_loop n
         else
           try_noncritical (one_symbol (recognize_symbol P (char_loop P n) (range_loop P n))) recover_char);;
        char_sequence_loop fuel'
      else mret tt
  end.

Fixpoint range_sequence_loop (fuel : nat) : M unit :=
  match fuel with
  | O => undef
  | S fuel' =>
      g ← good_; c ← member current_symbol_; n ← member enough;
      if g : bool then
        (if is_range_separator P c then separator_loop n
         else if c =? range_symbol P then
           try_noncritical
             (p ← member current_node_;
              n ← process_range_list P (range_loop P n) false (second (range_part_symb P)) p;
              modify (with_node (Some n)))
             recover_range
         else try_noncritical (one_symbol (recognize_range_symbol P (range_loop P n))) recover_range);;
        range_sequence_loop fuel'
      else mret tt
  end.

Definition process_sequence (loop : nat -> M unit) : M unit :=
  get;; fuel ← member enough; loop fuel;; flush_tree.

Definition process_char_sequence : M unit :=
  if negb (immediate_range_mode P) then process_sequence char_sequence_loop
  else process_sequence range_sequence_loop.
End Sequence.

(** *** Results

    What [write_result_arg] does with a lexeme, for each type of result. *)
Class ResultType (R : Type) := write_result_arg : AnalyzerParams -> R -> list Z -> R.

Definition list_result : ResultType (list (list Z)) := fun _ main_list my_str => main_list ++ [my_str].
#[export] Existing Instance list_result.

Definition set_result : ResultType (gset (list Z)) := fun _ main_set my_str => main_set ∪ {[my_str]}.
#[export] Existing Instance set_result.

(** A stream is the text written to it. *)
Definition ostream_result : ResultType (list Z) := fun p main_ostr my_str =>
  main_ostr ++ before_lexeme_out_str p ++ my_str ++ after_lexeme_out_str p.
#[export] Existing Instance ostream_result.

(** An analyzer at work on a text; [symbol] is what [current_symbol_] holds,
    which the constructor leaves as it is. *)
Definition start_state (text : list Z) (symbol : Z) : Analyzer :=
  mkAnalyzer (new_stream text) symbol [] None None 0 [] 0.

Definition run (p : AnalyzerParams) (text : list Z) (symbol : Z) : outcome (list (list Z)) :=
  init_params_ <- Analyzer_new p ;;
  let (s, r) := process_char_sequence init_params_ (start_state text symbol) in
  _ <- r ;; Ret (written s).

Definition translate {R} `{ResultType R} (p : AnalyzerParams) (text : list Z) (symbol : Z) (result_arg : R) : outcome R :=
  ws <- run p text symbol ;; Ret (List.fold_left (write_result_arg p) ws result_arg).

(** ** BasicAnalyzer *)

Definition bounds_0_1000 : CSet := mkCSet [(0, 1000)] None.

Example bounds_added : CompressedSet.add (I := UInt32) 0 1000 CSet_new = Ret bounds_0_1000.
Proof. reflexivity. Qed.

Definition char_set (chars : list Z) : CharSet := CharTable_new (Some chars) false.

(** The parameters of [interprete_base_seq]. *)
Definition base_params : AnalyzerParams :=
  mkParams (chr "\") (char_set (lit ", ")) true (char_set (lit "a-zA-Z0-9_.:-")) true (char_set [10])
    true 10000 true (mkPair true (chr "{") (chr "}")) (mkPair true (chr "(") (chr ")"))
    true (mkPair true (chr "[") (chr "]")) (char_set (lit ", ")) (char_set (lit "a-zA-Z0-9_.:")) (chr "-")
    true (chr "0") false true bounds_0_1000 0 false (char_set []) 0 false (char_set []) 0 [] (lit " ") ∅.

Definition interprete_base_sequence {R} `{ResultType R} (text : list Z) (symbol : Z) (result_arg : R) : outcome R :=
  match translate base_params text symbol result_arg with
  | Throw _ => Throw BasicAnalyzerException
  | r => r
  end.

(** *** Texts

    Zeros in front are padding, and a first number with padding has the length
    of the second: [0] alone is padding too.  A shielded symbol that is not in
    [shield_map] is refused. *)
Example run_descriptions : run base_params (lit "n[1-2[3,4-5]x]y") 0 =
  Ret [lit "n13xy"; lit "n14xy"; lit "n15xy"; lit "n23xy"; lit "n24xy"; lit "n25xy"].
Proof. vm_compute. reflexivity. Qed.

Example run_padded : run base_params (lit "v[08-11]") 0 = Ret [lit "v08"; lit "v09"; lit "v10"; lit "v11"].
Proof. vm_compute. reflexivity. Qed.

Example run_open_group : run base_params (lit "(a") 0 = Throw AnalyzerException.
Proof. vm_compute. reflexivity. Qed.

Example run_zero : run base_params (lit "n[0-10]") 0 = Ret [] /\ run base_params (lit "n[1-10]") 0 <> Ret [].
Proof. vm_compute. split; [reflexivity|discriminate]. Qed.

Example run_shielded : run base_params (lit "a\(b") 0 = Ret [].
Proof. vm_compute. reflexivity. Qed.
