(* ===== verification/AnalyzerGraph.v ===== *)
(** * AnalyzerGraph: what the graph of an analyzer stands for

    A node stands for a list of lexemes: its text before those of its children,
    as many times as it is repeated.  The parser works on a graph with one open
    node, to which the rest of the description is added; [Opened] says what a
    part of a description does to such a graph, and these steps compose. *)

From stdpp Require Import base gmap list.
From Stdlib Require Import ZArith List Bool Lia.
From S2P Require Import Prelude Ascii Numbers CompressedSet Analyzer.
Import ListNotations.
Open Scope Z_scope.

Abbreviation lexemes := (list (list Z)).
Abbreviation graph := (list TreeNode).

Definition rep (r : Z) (W : lexemes) : lexemes := List.concat (List.repeat W (Z.to_nat r)).

(** The texts of [W] behind [v]. *)
Definition behind (v : list Z) (W : lexemes) : lexemes := List.map (app v) W.

(** [denotes h k n W]: node [n] stands for [W], and no path from it has more
    than [k] nodes. *)
Inductive denotes (h : graph) : nat -> nat -> lexemes -> Prop :=
| denotes_leaf k n v r : h !! n = Some (mkNode v r []) -> denotes h (S k) n (rep r (behind v [[]]))
| denotes_node k n v r c cs W :
    h !! n = Some (mkNode v r (c :: cs)) -> denotes_all h k (c :: cs) W -> denotes h (S k) n (rep r (behind v W))
with denotes_all (h : graph) : nat -> list nat -> lexemes -> Prop :=
| denotes_nil k : denotes_all h k [] []
| denotes_cons k c cs W W' : denotes h k c W -> denotes_all h k cs W' -> denotes_all h k (c :: cs) (W ++ W').

Scheme denotes_ind2 := Induction for denotes Sort Prop
with denotes_all_ind2 := Induction for denotes_all Sort Prop.

Lemma denotes_mono h k n W : denotes h k n W -> forall k', (k <= k')%nat -> denotes h k' n W.
Proof.
  intros H. induction H using denotes_ind2 with
    (P0 := fun k cs W _ => forall k', (k <= k')%nat -> denotes_all h k' cs W);
    intros k' Hk; try (destruct k' as [|k']; [lia|]); eauto using denotes_leaf, denotes_nil, denotes_cons.
  eapply denotes_node; [eassumption|]. apply IHdenotes. lia.
Qed.

Lemma denotes_all_mono h k cs W : denotes_all h k cs W -> forall k', (k <= k')%nat -> denotes_all h k' cs W.
Proof. induction 1; intros k' Hk; constructor; eauto using denotes_mono. Qed.

Lemma denotes_all_app h k cs W cs' W' : denotes_all h k cs W -> denotes_all h k cs' W' ->
  denotes_all h k (cs ++ cs') (W ++ W').
Proof.
  induction 1; intros H'; [easy|]. cbn [app]. rewrite <- app_assoc. constructor; auto.
Qed.

Lemma behind_nil W : behind [] W = W.
Proof. apply map_id. Qed.

Lemma behind_app v w W : behind v (behind w W) = behind (v ++ w) W.
Proof. unfold behind. rewrite map_map. apply map_ext. intros x. apply app_assoc. Qed.

Lemma rep_one W : rep 1 W = W.
Proof. apply app_nil_r. Qed.

Lemma behind_rep v r W : behind v (rep r W) = rep r (behind v W).
Proof. unfold behind, rep. rewrite List.concat_map, map_repeat. reflexivity. Qed.

(** ** The graph unrolled *)

Lemma times_write_rep n (W : lexemes) : times_write n (Ret W) = Ret (List.concat (List.repeat W n)).
Proof. induction n as [|n IH]; [easy|]. cbn. now rewrite IH. Qed.

Lemma flush_denotes h k n W : denotes h k n W -> forall fuel o, (k <= fuel)%nat ->
  flush_node fuel h n o = Ret (behind o W).
Proof.
  intros H. induction H using denotes_ind2 with
    (P0 := fun k cs W _ => forall fuel o, (k <= fuel)%nat ->
       children_write (fun c => flush_node fuel h c o) cs = Ret (behind o W)); intros fuel o Hf.
  - destruct fuel as [|fuel]; [lia|]. cbn [flush_node]. rewrite e. cbn [repeat_amount node_val child_list].
    rewrite times_write_rep, behind_rep, behind_app. cbn. now rewrite app_nil_r.
  - destruct fuel as [|fuel]; [lia|]. cbn [flush_node]. rewrite e. cbn [repeat_amount node_val child_list].
    rewrite IHdenotes by lia. now rewrite times_write_rep, behind_rep, behind_app.
  - reflexivity.
  - cbn [children_write]. rewrite IHdenotes, IHdenotes0 by easy. cbn [bind]. unfold behind. now rewrite map_app.
Qed.

(** ** Parts of a description

    [Opened T h c h' c' v' r']: the graph [h], whose node [c] is open, became [h'],
    whose open node is [c'] with the text [v'] and the repetition [r'].  Only [c]
    and new nodes changed; and whenever the open node will stand for the lexemes
    [K] behind its text, [c] will stand for [T K]. *)

Definition within (c : nat) (h h' : graph) (n : nat) : Prop := n = c \/ (length h <= n < length h')%nat.

Record Opened (T : lexemes -> lexemes) (h : graph) (c : nat) (h' : graph) (c' : nat) (v' : list Z) (r' : Z) : Prop := {
  opened_length : (length h <= length h')%nat;
  opened_frame n : n <> c -> (n < length h)%nat -> h' !! n = h !! n;
  opened_current : within c h h' c';
  opened_node : h' !! c' = Some (mkNode v' r' []);
  opened_denotes hx K k :
    (forall n, n <> c' -> within c h h' n -> hx !! n = h' !! n) ->
    denotes hx k c' (rep r' (behind v' K)) ->
    denotes hx (k + (length h' - length h)) c (T K)
}.

Lemma Opened_refl h c v r : h !! c = Some (mkNode v r []) ->
  Opened (fun K => rep r (behind v K)) h c h c v r.
Proof.
  intros H. constructor; [lia|easy|now left|easy|]. intros hx K k _ D. rewrite Nat.sub_diag, Nat.add_0_r. exact D.
Qed.

Lemma Opened_set T h c t h' c' v' r' : (c < length h)%nat ->
  Opened T (<[c := t]> h) c h' c' v' r' -> Opened T h c h' c' v' r'.
Proof.
  intros Hc [L F C N D]. unfold within in *. rewrite length_insert in *. constructor; [easy| |exact C|easy|exact D].
  intros n Hn Hl. rewrite F by easy. apply list_lookup_insert_ne. congruence.
Qed.

Lemma Opened_ext T T' h c h' c' v' r' : (forall K, T K = T' K) -> Opened T h c h' c' v' r' -> Opened T' h c h' c' v' r'.
Proof. intros E [L F C N D]. constructor; try easy. intros. rewrite <- E. eauto. Qed.

Lemma Opened_trans T U h c h1 c1 h2 c2 v2 r2 : (length h <= c1)%nat ->
  Opened T h c h1 c1 [] 1 -> Opened U h1 c1 h2 c2 v2 r2 -> (c < length h)%nat -> Opened (fun K => T (U K)) h c h2 c2 v2 r2.
Proof.
  intros Hc1 [L F C N D] [L2 F2 C2 N2 D2] Hc. unfold within in *. constructor; [lia| |unfold within; lia|easy|].
  - intros n Hn Hl. rewrite F2 by lia. now apply F.
  - intros hx K k A DK. unfold within in *. replace (k + (length h2 - length h))%nat with (k + (length h2 - length h1) + (length h1 - length h))%nat by lia.
    apply D; [|rewrite behind_nil, rep_one; apply D2; [|exact DK]].
    + intros n Hn Hw. rewrite A; [apply F2; lia| |lia]. intros ->. destruct C2 as [->|]; lia.
    + intros n Hn Hw. apply A; [easy|lia].
Qed.

(** ** Alternatives

    [Alternatives T h p c0 f h' ns c' v' r']: behind the node [p] the alternative
    that begins with [c0] was finished, and those that begin with [ns] were
    added; the last one is still open at [c'].  [f] is the node behind them all. *)

Record Alternatives (T : lexemes -> lexemes) (h : graph) (p c0 f : nat) (h' : graph) (ns : list nat)
  (c' : nat) (v' : list Z) (r' : Z) : Prop := {
  alternatives_length : (length h <= length h')%nat;
  alternatives_frame n : n <> c0 -> n <> p -> (n < length h)%nat -> h' !! n = h !! n;
  alternatives_start t : h !! p = Some t ->
    h' !! p = Some (mkNode (node_val t) (repeat_amount t) (child_list t ++ ns));
  alternatives_current : within c0 h h' c';
  alternatives_node : h' !! c' = Some (mkNode v' r' []);
  alternatives_denotes hx K k :
    (forall n, n <> c' -> within c0 h h' n -> hx !! n = h' !! n) -> denotes hx k f K ->
    denotes hx (S k) c' (rep r' (behind v' K)) ->
    denotes_all hx (S k + (length h' - length h)) (c0 :: ns) (T K)
}.

Lemma Alternatives_one T h p c0 f h' c' v' r' : p <> c0 -> (p < length h)%nat ->
  Opened T h c0 h' c' v' r' -> Alternatives T h p c0 f h' [] c' v' r'.
Proof.
  intros Hp Hl [L F C N D]. constructor; try easy.
  - intros n H1 H2 H3. now apply F.
  - intros [v r cs] H. rewrite F by easy. cbn. now rewrite app_nil_r.
  - intros hx K k A Df Dc. rewrite <- (app_nil_r (T K)). constructor; [|constructor]. now apply D.
Qed.

(** The heap when the alternative that is open at [c] ends. *)
Definition next_heap (p c f : nat) (v : list Z) (r : Z) (t : TreeNode) (h : graph) : graph :=
  <[p := mkNode (node_val t) (repeat_amount t) (child_list t ++ [length h])]>
    (<[c := mkNode v r [f]]> h ++ [mkNode [] 1 []]).

Lemma lookup_new (h : graph) t : (h ++ [t]) !! length h = Some t.
Proof. rewrite lookup_app_r, Nat.sub_diag by lia. reflexivity. Qed.

Lemma next_heap_length p c f v r t h : length (next_heap p c f v r t h) = S (length h).
Proof. unfold next_heap. rewrite length_insert, length_app, length_insert. cbn [length]. lia. Qed.

Lemma next_heap_old p c f v r t h n : n <> p -> n <> c -> (n < length h)%nat -> next_heap p c f v r t h !! n = h !! n.
Proof.
  intros H1 H2 H3. unfold next_heap. rewrite list_lookup_insert_ne by congruence.
  rewrite lookup_app_l by now rewrite length_insert. apply list_lookup_insert_ne. congruence.
Qed.

Lemma next_heap_closed p c f v r t h : c <> p -> (c < length h)%nat ->
  next_heap p c f v r t h !! c = Some (mkNode v r [f]).
Proof.
  intros H1 H2. unfold next_heap. rewrite list_lookup_insert_ne by congruence.
  rewrite lookup_app_l by now rewrite length_insert. now apply list_lookup_insert_eq.
Qed.

Lemma next_heap_start p c f v r t h : (p < length h)%nat ->
  next_heap p c f v r t h !! p = Some (mkNode (node_val t) (repeat_amount t) (child_list t ++ [length h])).
Proof. intros H. apply list_lookup_insert_eq. rewrite length_app, length_insert. cbn [length]. lia. Qed.

Lemma next_heap_new p c f v r t h : (p < length h)%nat -> next_heap p c f v r t h !! length h = Some (mkNode [] 1 []).
Proof.
  intros Hp. unfold next_heap. rewrite list_lookup_insert_ne by lia.
  rewrite lookup_app_r by (rewrite length_insert; lia). now rewrite length_insert, Nat.sub_diag.
Qed.

Lemma Alternatives_next T U h p c0 f t h1 c1 v1 r1 h' ns c' v' r' :
  p <> c0 -> (p < length h)%nat -> (c0 < length h)%nat -> h !! p = Some t ->
  Opened T h c0 h1 c1 v1 r1 ->
  Alternatives U (next_heap p c1 f v1 r1 t h1) p (length h1) f h' ns c' v' r' ->
  Alternatives (fun K => T K ++ U K) h p c0 f h' (length h1 :: ns) c' v' r'.
Proof.
  intros Hp Hl Hc0 Ht [L F C N D] [L2 F2 S2 C2 N2 D2]. unfold within in *. rewrite next_heap_length in *.
  assert (Hc1 : (c1 < length h1)%nat) by now apply lookup_lt_Some in N.
  assert (Hp1 : p <> c1) by lia. constructor; unfold within; try lia; try easy.
  - intros n H1 H2 H3. rewrite F2 by lia. rewrite next_heap_old by lia. now apply F.
  - intros t' Ht'. rewrite Ht in Ht'. injection Ht' as <-.
    rewrite (S2 _ (next_heap_start p c1 f v1 r1 t h1 ltac:(lia))). cbn [node_val repeat_amount child_list].
    now rewrite <- app_assoc.
  - intros hx K k A Df Dc. replace (S k + (length h' - length h))%nat
      with (S k + (length h' - S (length h1)) + S (length h1 - length h))%nat by lia.
    assert (Dn : denotes_all hx (S k + (length h' - S (length h1))) (length h1 :: ns) (U K)).
    { apply D2; try easy. intros n Hn Hw. apply A; [easy|lia]. }
    apply (denotes_all_mono _ _ _ _) with (k' := (S k + (length h' - S (length h1)) + S (length h1 - length h))%nat) in Dn; [|lia].
    constructor; [|exact Dn]. eapply denotes_mono; [apply (D hx K (S k))|lia].
    + intros n Hn Hw. rewrite A by lia. rewrite F2 by lia. rewrite next_heap_old; [easy|lia|easy|lia].
    + rewrite <- (app_nil_r K). eapply denotes_node; [|constructor; [exact Df|constructor]].
      rewrite A by lia. rewrite F2 by lia. now apply next_heap_closed.
Qed.

(** ** Groups and ranges

    The node [p] gets the alternatives of a group behind it, and the node behind
    them becomes the open one. *)

Definition opened_heap (p : nat) (t : TreeNode) (h : graph) : graph :=
  <[p := mkNode (node_val t) (repeat_amount t) (child_list t ++ [length h])]> (h ++ [mkNode [] 1 []])
    ++ [mkNode [] 1 []].

Lemma opened_heap_length p t h : length (opened_heap p t h) = S (S (length h)).
Proof. unfold opened_heap. rewrite length_app, length_insert, length_app. cbn [length]. lia. Qed.

Lemma opened_heap_lookup p v r h n : h !! p = Some (mkNode v r []) ->
  opened_heap p (mkNode v r []) h !! n =
  if decide (n = p) then Some (mkNode v r [length h])
  else if decide (n < length h)%nat then h !! n
  else if decide (n < S (S (length h)))%nat then Some (mkNode [] 1 []) else None.
Proof.
  intros Hp. pose proof (lookup_lt_Some _ _ _ Hp) as Hl. unfold opened_heap. cbn [node_val repeat_amount child_list app].
  destruct (decide (n = p)) as [->|Hn].
  - rewrite lookup_app_l by (rewrite length_insert, length_app; cbn [length]; lia).
    apply list_lookup_insert_eq. rewrite length_app. cbn [length]. lia.
  - destruct (decide (n < length h)%nat); [|destruct (decide (n < S (S (length h)))%nat)].
    + rewrite lookup_app_l by (rewrite length_insert, length_app; cbn [length]; lia).
      rewrite list_lookup_insert_ne by congruence. now apply lookup_app_l.
    + destruct (decide (n = length h)) as [->|].
      * rewrite lookup_app_l by (rewrite length_insert, length_app; cbn [length]; lia).
        rewrite list_lookup_insert_ne by congruence. apply lookup_new.
      * rewrite lookup_app_r by (rewrite length_insert, length_app; cbn [length]; lia).
        rewrite length_insert, length_app. cbn [length]. now replace (n - (length h + 1))%nat with 0%nat by lia.
    + apply lookup_ge_None_2. rewrite length_app, length_insert, length_app. cbn [length]. lia.
Qed.

Lemma Opened_group T h p v r r2 h3 ns c' v' r' :
  h !! p = Some (mkNode v r []) ->
  Alternatives T (opened_heap p (mkNode v r []) h) p (length h) (S (length h)) h3 ns c' v' r' ->
  Opened (fun K => rep r2 (behind v (T K))) h p
    (<[p := mkNode v r2 (length h :: ns)]> (<[c' := mkNode v' r' [S (length h)]]> h3)) (S (length h)) [] 1.
Proof.
  intros Hp [L F St C N D]. unfold within in *. rewrite opened_heap_length in *.
  pose proof (lookup_lt_Some _ _ _ Hp) as Hl. pose proof (lookup_lt_Some _ _ _ N) as Hc'.
  pose proof (fun n => opened_heap_lookup p v r h n Hp) as O.
  assert (Old : forall n, n <> p -> n <> c' ->
    <[p := mkNode v r2 (length h :: ns)]> (<[c' := mkNode v' r' [S (length h)]]> h3) !! n = h3 !! n).
  { intros n H1 H2. now rewrite !list_lookup_insert_ne by congruence. }
  constructor; unfold within; rewrite ?length_insert; try lia.
  - intros n Hn Hl2. rewrite Old, F, O by lia.
    destruct (decide (n = p)); [easy|]. now destruct (decide (n < length h)%nat).
  - rewrite Old, F, O by lia. destruct (decide (S (length h) = p)); [lia|].
    destruct (decide (S (length h) < length h)%nat); [lia|]. now destruct (decide _); [|lia].
  - intros hx K k A Dc. rewrite behind_nil, rep_one in Dc.
    assert (Hx : forall n, n <> p -> n <> c' -> (length h <= n < length h3)%nat -> n <> S (length h) -> hx !! n = h3 !! n).
    { intros n H1 H2 H3 H4. rewrite A by lia. now apply Old. }
    assert (Hxc : hx !! c' = Some (mkNode v' r' [S (length h)])).
    { rewrite A by lia. rewrite list_lookup_insert_ne by lia. now apply list_lookup_insert_eq. }
    apply (denotes_mono _ (S (S k + (length h3 - S (S (length h)))))); [|lia].
    apply (denotes_node _ _ _ _ _ (length h) ns).
    + rewrite A by lia. apply list_lookup_insert_eq. rewrite length_insert. lia.
    + apply D; [|exact Dc|].
      * intros n Hn Hw. apply Hx; lia.
      * rewrite <- (app_nil_r K). eapply denotes_node; [exact Hxc|]. constructor; [exact Dc|constructor].
Qed.

(** ** Ranges of numbers

    The node [p], which held the first number, gets a node for every text, and
    all of them the node behind the range. *)

Record Unrolled (p : nat) (r : Z) (ts : lexemes) (h h' : graph) : Prop := {
  unrolled_length : length h' = (S (length h) + length ts)%nat;
  unrolled_start : h' !! p = Some (mkNode [] r (seq (S (length h)) (length ts)));
  unrolled_end : h' !! length h = Some (mkNode [] 1 []);
  unrolled_text j t : ts !! j = Some t -> h' !! (S (length h) + j)%nat = Some (mkNode t 1 [length h]);
  unrolled_frame n : n <> p -> (n < length h)%nat -> h' !! n = h !! n
}.

Lemma denotes_texts hx k f K ts : denotes hx k f K -> forall i,
  (forall j t, ts !! j = Some t -> hx !! (i + j)%nat = Some (mkNode t 1 [f])) ->
  denotes_all hx (S k) (seq i (length ts)) (flat_map (fun t => behind t K) ts).
Proof.
  intros Df. induction ts as [|t ts IH]; intros i H; [constructor|]. cbn [length seq flat_map]. constructor.
  - rewrite <- (rep_one (behind t K)), <- (app_nil_r K). eapply denotes_node.
    + specialize (H 0%nat t eq_refl). rewrite Nat.add_0_r in H. exact H.
    + constructor; [exact Df|constructor].
  - apply IH. intros j u Hj. specialize (H (S j) u Hj). now rewrite Nat.add_succ_comm.
Qed.

Lemma Opened_unrolled p r ts h h' : (p < length h)%nat -> ts <> [] -> Unrolled p r ts h h' ->
  Opened (fun K => rep r (behind [] (flat_map (fun t => behind t K) ts))) h p h' (length h) [] 1.
Proof.
  intros Hp Hts [L St E X F]. constructor; unfold within; try lia; try easy.
  intros hx K k A Df. rewrite behind_nil, rep_one in Df. destruct ts as [|t ts]; [easy|]. cbn [length seq] in *.
  apply (denotes_mono _ (S (S k))); [|lia]. eapply denotes_node; [rewrite A by lia; exact St|].
  apply (denotes_texts hx k (length h) K (t :: ts) Df). intros j u Hj. rewrite A; [now apply X| |].
  - lia.
  - apply lookup_lt_Some in Hj. cbn [length] in Hj. lia.
Qed.

(** The empty node that was made first goes behind. *)
Lemma Opened_hop T h c h1 c1 : (c < length h)%nat -> Opened T (h ++ [mkNode [] 1 []]) c h1 c1 [] 1 ->
  Opened T h c (<[c1 := mkNode [] 1 [length h]]> h1) (length h) [] 1.
Proof.
  intros Hc [L F C N D]. unfold within in *. rewrite length_app in *. cbn [length] in *.
  pose proof (lookup_lt_Some _ _ _ N) as Hc1.
  constructor; unfold within; rewrite ?length_insert; try lia.
  - intros n Hn Hl. rewrite list_lookup_insert_ne by lia. rewrite F by lia. now apply lookup_app_l.
  - rewrite list_lookup_insert_ne by lia. rewrite F by lia. apply lookup_new.
  - intros hx K k A Df. rewrite behind_nil, rep_one in Df.
    apply (denotes_mono _ (S k + (length h1 - (length h + 1)))); [|lia]. apply D.
    + intros n Hn Hw. rewrite A by lia. apply list_lookup_insert_ne. congruence.
    + rewrite <- (app_nil_r K). eapply denotes_node; [|constructor; [exact Df|constructor]].
      rewrite A by lia. now apply list_lookup_insert_eq.
Qed.
