(* ===== verification/AnalyzerText.v ===== *)
(** * AnalyzerText: descriptions and the lexemes that they mean

    A description as a tree, its text, and its lexemes, without the graph.  The
    conditions on the parameters and on descriptions say which texts are read
    without an error. *)

From stdpp Require Import base gmap list.
From Stdlib Require Import ZArith List Bool Lia.
From S2P Require Import Prelude Ascii Numbers CompressedSet Analyzer AnalyzerGraph.
Import ListNotations.
Open Scope Z_scope.

(** ** Syntax

    [desc] is what stands between two separators.  A range of numbers [Span]
    is followed by a separator, by the end of the range around it, or by another
    range ([SpanRange]).  [Next] has the separators between alternatives. *)
Inductive desc :=
| End
| Plain (c : Z) (d : desc)
| Ignored (c : Z) (d : desc)
| Shield (c : Z) (d : desc)
| Times (n : list Z) (d : desc)
| Group (a : alts) (n : list Z) (d : desc)
| Range (a : alts) (d : desc)
| Span (p1 p2 : list Z)
| SpanRange (p1 p2 : list Z) (a : alts) (d : desc)
with alts :=
| One (d : desc)
| Next (d : desc) (separators : list Z) (a : alts).

Scheme desc_ind2 := Induction for desc Sort Prop
with alts_ind2 := Induction for alts Sort Prop.
Combined Scheme desc_alts_ind from desc_ind2, alts_ind2.

Section Text.
Context (P : AnalyzerParams).

Definition times_text (n : list Z) : list Z := first (num_retries_symb P) :: n ++ [second (num_retries_symb P)].

Fixpoint print (d : desc) : list Z :=
  match d with
  | End => []
  | Plain c d | Ignored c d => c :: print d
  | Shield c d => shield_symbol P :: c :: print d
  | Times n d => times_text n ++ print d
  | Group a n d =>
      first (retry_part_symb P) :: print_alts a ++ second (retry_part_symb P) :: times_text n ++ print d
  | Range a d => first (range_part_symb P) :: print_alts a ++ second (range_part_symb P) :: print d
  | Span p1 p2 => p1 ++ range_symbol P :: p2
  | SpanRange p1 p2 a d =>
      p1 ++ range_symbol P :: p2 ++
      first (range_part_symb P) :: print_alts a ++ second (range_part_symb P) :: print d
  end
with print_alts (a : alts) : list Z :=
  match a with
  | One d => print d
  | Next d separators a => print d ++ separators ++ print_alts a
  end.

(** ** Meaning *)

(** The numbers of a range as texts, with zeros in front when one of its ends
    has them. *)
Definition padded (p : list Z) : bool := match p with c :: _ => c =? chr "0" | [] => false end.

Definition decimal (i : Z) : list Z := rev (digits_loop 10 i).

Definition span_text (p1 p2 : list Z) (i : Z) : list Z :=
  let text := decimal i in
  if padded p1 || padded p2 then List.repeat (chr "0") (length p2 - length text) ++ text else text.

Definition span_texts (p1 p2 : list Z) : lexemes :=
  let lo := dec_from 0 p1 in
  List.map (fun i => span_text p1 p2 (lo + Z.of_nat i)) (List.seq 0 (Z.to_nat (dec_from 0 p2 - lo + 1))).

Definition shield_text (c : Z) : list Z := default [] (shield_map P !! c).

(** [meaning d v r K]: the lexemes of a text [v], to be repeated [r] times, that
    [d] goes on with, when what is behind [d] means [K].  A repetition is one of
    everything since the last group or range. *)
Fixpoint meaning (d : desc) (v : list Z) (r : Z) (K : lexemes) : lexemes :=
  match d with
  | End => rep r (behind v K)
  | Plain c d => meaning d (v ++ [c]) r K
  | Ignored _ d => meaning d v r K
  | Shield c d => meaning d (v ++ shield_text c) r K
  | Times n d => meaning d v (wrapu 16 (r * dec_from 0 n)) K
  | Group a n d => rep (wrapu 16 (r * dec_from 0 n)) (behind v (meaning_alts a (meaning d [] 1 K)))
  | Range a d => rep r (behind v (meaning_alts a (meaning d [] 1 K)))
  | Span p1 p2 => rep r (flat_map (fun t => behind t K) (span_texts p1 p2))
  | SpanRange p1 p2 a d =>
      rep r (flat_map (fun t => behind t (meaning_alts a (meaning d [] 1 K))) (span_texts p1 p2))
  end
with meaning_alts (a : alts) (K : lexemes) : lexemes :=
  match a with
  | One d => meaning d [] 1 K
  | Next d _ a => meaning d [] 1 K ++ meaning_alts a K
  end.

Definition lexemes_of (d : desc) : lexemes := meaning d [] 1 [[]].

(** ** Descriptions that are well formed *)

Definition separator (inrange : bool) (c : Z) : bool :=
  if inrange then is_range_separator P c else is_main_separator P c.

Definition specials : list Z :=
  [first (retry_part_symb P); second (retry_part_symb P); first (range_part_symb P); second (range_part_symb P);
   first (num_retries_symb P); shield_symbol P].

(** Neither special nor a separator. *)
Definition ordinary (inrange : bool) (c : Z) : Prop :=
  ~ List.In c specials /\ separator inrange c = false /\ (inrange = true -> c <> range_symbol P).

Definition regular (inrange : bool) (c : Z) : bool :=
  check_symbol_in_set (if inrange then regular_range_symbs P else regular_symbs P) c.

Definition plain (inrange : bool) (c : Z) : Prop := ordinary inrange c /\ regular inrange c = true.

Definition number (n : list Z) : Prop := n <> [] /\ forallb is_digit n = true /\ dec_from 0 n <= 65535.

(** The ends of a range of numbers: their values are within the bounds and in
    order; if the first has zeros in front, both have the same length. *)
Definition number_range (p1 p2 : list Z) : Prop :=
  p1 <> [] /\ forallb is_digit p1 = true /\ forallb is_digit p2 = true /\ Forall (plain true) p1 /\ Forall (ordinary true) p2 /\
  dec_from 0 p1 <= dec_from 0 p2 < 2 ^ 32 - 1 /\ 0 < dec_from 0 p2 /\
  (0 < dec_from 0 p1 -> covers (holder_ (int_range_bounds P)) (dec_from 0 p1) = true) /\
  covers (holder_ (int_range_bounds P)) (dec_from 0 p2) = true /\
  (padded p1 = true -> length p1 = length p2) /\ Z.of_nat (length p1) < 2 ^ 32 /\ Z.of_nat (length p2) < 2 ^ 32.

(** A text that a run of separators does not swallow. *)
Definition begins (inrange : bool) (text : list Z) : Prop :=
  match text with c :: _ => separator inrange c = false /\ is_ignored P c = false | [] => True end.

Definition separator_run (inrange : bool) (separators : list Z) : Prop :=
  match separators with
  | [] => False
  | c :: more => separator inrange c = true /\ Forall (fun c => separator inrange c || is_ignored P c = true) more
  end.

(** [nest]: how many ranges and groups may be opened; [fresh]: the text since
    the last separator, group or range is empty. *)
Fixpoint wf (inrange fresh : bool) (nest : nat) (d : desc) : Prop :=
  match d with
  | End => True
  | Plain c d => plain inrange c /\ wf inrange false nest d
  | Ignored c d => ordinary inrange c /\ regular inrange c = false /\ is_ignored P c = true /\ wf inrange fresh nest d
  | Shield c d => (shield_map P !! c = None -> is_ignored P c = true) /\ wf inrange false nest d
  | Times n d => number n /\ wf inrange fresh nest d
  | Group a n d =>
      fresh = true /\ number n /\ match nest with O => False | S nest => wf_alts inrange nest a end /\ wf inrange true nest d
  | Range a d => match nest with O => False | S nest => wf_alts true nest a end /\ wf inrange true nest d
  | Span p1 p2 => inrange = true /\ fresh = true /\ number_range p1 p2
  | SpanRange p1 p2 a d =>
      inrange = true /\ fresh = true /\ number_range p1 p2 /\
      match nest with O => False | S nest => wf_alts true nest a end /\ wf inrange true nest d
  end
with wf_alts (inrange : bool) (nest : nat) (a : alts) : Prop :=
  match a with
  | One d => wf inrange true nest d
  | Next d separators a =>
      wf inrange true nest d /\ separator_run inrange separators /\ begins inrange (print_alts a) /\ wf_alts inrange nest a
  end.

(** What the parameters need for that: the symbols are distinct and no
    separators, numbers are padded with zeros, and separators come in runs. *)
Record params_ok : Prop := {
  ok_repeat : allow_repeat P = true;
  ok_range : allow_range P = true;
  ok_successive : ignore_successive_separators P = true;
  ok_mode : immediate_range_mode P = false;
  ok_symbols : List.NoDup (range_symbol P :: specials);
  ok_separators c : List.In c (range_symbol P :: specials) -> is_main_separator P c = false /\ is_range_separator P c = false;
  ok_ignored c : List.In c specials -> is_ignored P c = false;
  ok_times : is_digit (second (num_retries_symb P)) = false;
  ok_depth : 1 <= recursion_max_depth P <= 65535;
  ok_padding : allow_padding P = true /\ padding_symb P = chr "0";
  ok_numbers : use_int_range P = true /\ use_char_range P = false /\ use_str_range P = false /\ default_int_range_start P = 0;
  ok_bounds : CompressedSet.wf (I := UInt32) (int_range_bounds P)
}.
End Text.
