(* ===== verification/AnalyzerRun.v ===== *)
(** * AnalyzerRun: the analyzer on the text of a description

    Each step of the parser on the text of a well-formed description, and what it
    does to the graph. *)

From stdpp Require Import base gmap list.
From Stdlib Require Import ZArith List Bool Lia.
From S2P Require Import Prelude Ascii Numbers CompressedSet Analyzer AnalyzerGraph AnalyzerText.
Import ListNotations.
Open Scope Z_scope.

(** ** Where the analyzer is

    [at_ t x s]: the text [t] is left, its first cell already read; [x] is the
    symbol that stays when nothing is left. *)
Definition at_ (t : list Z) (x : Z) (s : Analyzer) : Analyzer :=
  with_symbol (match t with [] => x | c :: _ => c end)
    (with_stream (match t with [] => mkStream [] true true | _ :: r => mkStream r false false end) s).

(** With the open node [c] in the graph [h]. *)
Definition to (c : nat) (h : graph) (s : Analyzer) : Analyzer := with_node (Some c) (with_heap h s).

Lemma bind_run {A B} (m : M A) (k : A -> M B) s s1 a : m s = (s1, Ret a) -> (x ← m; k x) s = k a s1.
Proof. intros H. unfold mbind, M_bind. now rewrite H. Qed.

Lemma bind_throw {A B} (m : M A) (k : A -> M B) s s1 e : m s = (s1, Throw e) -> (x ← m; k x) s = (s1, Throw e).
Proof. intros H. unfold mbind, M_bind. now rewrite H. Qed.

Lemma bind_member {A B} (f : Analyzer -> A) (k : A -> M B) s : (x ← member f; k x) s = k (f s) s.
Proof. reflexivity. Qed.

Lemma bind_modify {B} f (k : M B) s : (modify f;; k) s = k (f s).
Proof. reflexivity. Qed.

Lemma bind_mret {A B} (a : A) (k : A -> M B) s : (x ← mret a; k x) s = k a s.
Proof. reflexivity. Qed.

Lemma bind_assoc {A B C} (m : M A) (f : A -> M B) (g : B -> M C) s :
  (y ← (x ← m; f x); g y) s = (x ← m; y ← f x; g y) s.
Proof. unfold mbind, M_bind. now destruct (m s) as [s1 [a|e|]]. Qed.

Lemma bind_lift {A B} (a : A) (k : A -> M B) s : (x ← lift (Ret a); k x) s = k a s.
Proof. reflexivity. Qed.

Lemma bind_get {B} (k : M B) c t x s : (get;; k) (at_ (c :: t) x s) = k (at_ t c s).
Proof. destruct t; reflexivity. Qed.

Lemma get_at c t x s : get (at_ (c :: t) x s) = (at_ t c s, Ret tt).
Proof. destruct t; reflexivity. Qed.

Lemma bind_good {B} (k : bool -> M B) c t x s : (g ← good_; k g) (at_ (c :: t) x s) = k true (at_ (c :: t) x s).
Proof. reflexivity. Qed.

Lemma bind_symbol {B} (k : Z -> M B) c t x s :
  (c ← member current_symbol_; k c) (at_ (c :: t) x s) = k c (at_ (c :: t) x s).
Proof. reflexivity. Qed.

Lemma bind_current {B} (k : nat -> M B) n s : current_node_ s = Some n -> (n ← current; k n) s = k n s.
Proof. intros H. apply bind_run. unfold current, mbind, M_bind, member, deref. now rewrite H. Qed.

Lemma bind_node {B} (k : TreeNode -> M B) n t s : heap s !! n = Some t -> (t ← node n; k t) s = k t s.
Proof. intros H. apply bind_run. unfold node. now rewrite H. Qed.

Lemma append_val_run n cs s v r l : heap s !! n = Some (mkNode v r l) ->
  append_val n cs s = (with_heap (<[n := mkNode (v ++ cs) r l]> (heap s)) s, Ret tt).
Proof. intros H. unfold append_val. now rewrite (bind_node _ _ _ _ H). Qed.

Lemma push_child_run n c s v r l : heap s !! n = Some (mkNode v r l) ->
  push_child n c s = (with_heap (<[n := mkNode v r (l ++ [c])]> (heap s)) s, Ret tt).
Proof. intros H. unfold push_child. now rewrite (bind_node _ _ _ _ H). Qed.

Lemma new_node_run s : new_node s = (with_heap (heap s ++ [mkNode [] 1 []]) s, Ret (length (heap s))).
Proof. reflexivity. Qed.

Lemma set_node_run n t s : set_node n t s = (with_heap (<[n := t]> (heap s)) s, Ret tt).
Proof. reflexivity. Qed.

(** ** Reading *)

Lemma skip_run p t x s : forall run, Forall (fun c => p c = true) run ->
  match t with c :: _ => p c = false | [] => True end -> forall fuel, (length run < fuel)%nat ->
  exists x', skip_loop fuel p (at_ (run ++ t) x s) = (at_ t x' s, Ret tt).
Proof.
  intros run Hr Ht. revert x. induction Hr as [|c run Hc Hr IH]; intros x fuel Hf;
    (destruct fuel as [|fuel]; [cbn in Hf; lia|]); cbn [skip_loop app].
  - exists x. destruct t as [|c t]; [reflexivity|]. rewrite bind_good, bind_symbol, Ht. reflexivity.
  - rewrite bind_good, bind_symbol, Hc. cbn [andb]. rewrite bind_get. apply IH. cbn in Hf. lia.
Qed.

Lemma skip_at p run t x s : Forall (fun c => p c = true) run ->
  match t with c :: _ => p c = false | [] => True end ->
  exists x', skip p (at_ (run ++ t) x s) = (at_ t x' s, Ret tt).
Proof.
  intros Hr Ht. unfold skip. rewrite bind_member. apply skip_run; [easy|easy|].
  unfold enough, at_. destruct run as [|c run]; cbn; [lia|]. rewrite length_app. lia.
Qed.

(** [operator >>] on the digits of a number. *)
Lemma span_digits n e t : forallb is_digit n = true -> is_digit e = false -> span is_digit (n ++ e :: t) = (n, e :: t).
Proof.
  intros H He. induction n as [|c n IH]; cbn in *; [now rewrite He|].
  apply andb_true_iff in H as [-> H]. now rewrite IH.
Qed.

Lemma digit_sign c : is_digit c = true -> isspace c = false /\ (c =? chr "-") = false /\ (c =? chr "+") = false.
Proof.
  unfold is_digit, isspace. intros H. apply andb_true_iff in H as [H1 H2]. apply Z.leb_le in H1, H2.
  change (chr "0") with 48 in *. change (chr "9") with 57 in *. change (chr "-") with 45. change (chr "+") with 43.
  rewrite !(proj2 (Z.eqb_neq _ _)) by lia. split; [|easy]. cbn [orb]. apply andb_false_iff. right. apply Z.leb_gt. lia.
Qed.

Lemma read_number n e t : number n -> is_digit e = false ->
  stream_read_ushort (mkStream (n ++ e :: t) false false) = (mkStream (e :: t) false false, dec_from 0 n).
Proof.
  intros (Hn & Hd & Hv) He. unfold stream_read_ushort. destruct n as [|c n]; [easy|]. cbn [good eofbit failbit negb andb rest].
  pose proof Hd as Hd'. cbn in Hd. apply andb_true_iff in Hd as [Hc _]. destruct (digit_sign c Hc) as (H1 & H2 & H3).
  unfold spaces. cbn [app span]. rewrite H1. cbn [snd]. rewrite H2, H3. cbn [orb]. rewrite app_comm_cons, span_digits by easy.
  cbv zeta. destruct (Z.ltb_spec 65535 (dec_from 0 (c :: n))); [lia|easy].
Qed.

Section Run.
Context (P : AnalyzerParams) (Hok : params_ok P).

(** ** Turns of the loops *)

Definition recognize (inrange : bool) (fuel : nat) : M unit :=
  if inrange then recognize_range_symbol P (range_loop P fuel)
  else recognize_symbol P (char_loop P fuel) (range_loop P fuel).

(** What a loop does with a symbol that does not end an alternative. *)
Definition body (inrange : bool) (close : Z) (fuel : nat) : M unit :=
  c ← member current_symbol_;
  if inrange && (c =? range_symbol P) then
    p ← member current_node_;
    n ← process_range_list P (range_loop P fuel) true close p;
    modify (with_node (Some n))
  else recognize inrange fuel;; get.

Definition loop (inrange : bool) (close : Z) (fuel start final : nat) : M unit :=
  if inrange then range_loop P fuel close start final else char_loop P fuel start final.

Definition closes (inrange : bool) (close : Z) : Prop :=
  close = second (retry_part_symb P) \/ (inrange = true /\ close = second (range_part_symb P)).

Definition remaining (s : Analyzer) : nat := if good (istr s) then S (length (rest (istr s))) else O.

Record turn (inrange : bool) (close : Z) (s s1 : Analyzer) : Prop := {
  turn_good : good (istr s) = true;
  turn_close : current_symbol_ s <> close;
  turn_separator : separator P inrange (current_symbol_ s) = false;
  turn_tree : cur_lexeme_tree_ s1 = cur_lexeme_tree_ s;
  turn_less : (remaining s1 < remaining s)%nat;
  turn_body fuel : (remaining s <= fuel)%nat -> body inrange close fuel s = (s1, Ret tt)
}.

Lemma remaining_at t x s : remaining (at_ t x s) = length t.
Proof. now destruct t. Qed.

Lemma loop_turn inrange close fuel start final s s1 : closes inrange close ->
  turn inrange close s s1 -> (remaining s <= fuel)%nat ->
  loop inrange close (S fuel) start final s = loop inrange close fuel start final s1.
Proof.
  intros Hc [G C Sp _ L B] Hf. specialize (B fuel Hf). unfold body, recognize in B. rewrite bind_member in B.
  unfold loop. destruct inrange; cbn [range_loop char_loop separator andb] in *; unfold good_;
    rewrite !bind_member, G; cbn [andb].
  - rewrite (proj2 (Z.eqb_neq _ _) C). cbn [negb]. rewrite Sp.
    now rewrite (bind_run _ _ _ _ _ B).
  - destruct Hc as [->|[[=] _]]. rewrite (proj2 (Z.eqb_neq _ _) C). cbn [negb]. rewrite Sp. now rewrite (bind_run _ _ _ _ _ B).
Qed.

Lemma loop_turns inrange close start final s s' : closes inrange close ->
  rtc (turn inrange close) s s' -> forall fuel, (remaining s < fuel)%nat ->
  exists fuel', (remaining s' < fuel')%nat /\
    loop inrange close fuel start final s = loop inrange close fuel' start final s'.
Proof.
  intros Hc. induction 1 as [s|s s1 s' T R IH]; intros fuel Hf; [eauto|].
  destruct fuel as [|fuel]; [lia|]. rewrite (loop_turn _ _ _ _ _ _ _ Hc T) by lia. apply IH.
  destruct T as [_ _ _ _ L _]. lia.
Qed.

Lemma loop_close inrange close fuel start final t x s : closes inrange close -> (0 < fuel)%nat ->
  loop inrange close fuel start final (at_ (close :: t) x s) = (at_ (close :: t) x s, Ret tt).
Proof.
  intros Hc Hf. destruct fuel as [|fuel]; [lia|]. unfold loop.
  destruct inrange; cbn [range_loop char_loop]; rewrite bind_good, bind_symbol;
    [|destruct Hc as [->|[[=] _]]]; now rewrite Z.eqb_refl.
Qed.

(** ** Symbols *)

Lemma not_special c : ~ List.In c (specials P) ->
  c <> first (retry_part_symb P) /\ c <> second (retry_part_symb P) /\ c <> first (range_part_symb P) /\
  c <> second (range_part_symb P) /\ c <> first (num_retries_symb P) /\ c <> shield_symbol P.
Proof. unfold specials. cbn [List.In]. intuition congruence. Qed.

Lemma symbols_distinct :
  (first (retry_part_symb P) <> second (retry_part_symb P) /\ first (retry_part_symb P) <> first (range_part_symb P) /\
   first (retry_part_symb P) <> second (range_part_symb P) /\ first (retry_part_symb P) <> first (num_retries_symb P) /\
   first (retry_part_symb P) <> shield_symbol P /\ first (retry_part_symb P) <> range_symbol P) /\
  (first (range_part_symb P) <> second (retry_part_symb P) /\ first (range_part_symb P) <> second (range_part_symb P) /\
   first (range_part_symb P) <> first (num_retries_symb P) /\ first (range_part_symb P) <> shield_symbol P /\
   first (range_part_symb P) <> range_symbol P) /\
  (first (num_retries_symb P) <> second (retry_part_symb P) /\ first (num_retries_symb P) <> second (range_part_symb P) /\
   first (num_retries_symb P) <> shield_symbol P /\ first (num_retries_symb P) <> range_symbol P) /\
  (shield_symbol P <> second (retry_part_symb P) /\ shield_symbol P <> second (range_part_symb P) /\
   shield_symbol P <> range_symbol P) /\
  (range_symbol P <> second (retry_part_symb P) /\ range_symbol P <> second (range_part_symb P)).
Proof.
  pose proof (ok_symbols P Hok) as H. unfold specials in H. rewrite !List.NoDup_cons_iff in H. cbn [List.In] in H.
  destruct H as (H1 & H2 & H3 & H4 & H5 & H6 & H7 & _). intuition congruence.
Qed.

Lemma closes_distinct inrange close : closes inrange close ->
  close <> first (retry_part_symb P) /\ close <> first (range_part_symb P) /\ close <> first (num_retries_symb P) /\
  close <> shield_symbol P /\ close <> range_symbol P /\ separator P inrange close = false /\ is_ignored P close = false.
Proof.
  pose proof symbols_distinct as D. destruct_and! D.
  assert (G : forall c, List.In c (specials P) -> separator P inrange c = false /\ is_ignored P c = false).
  { intros c Hi. split; [|now apply (ok_ignored P Hok)].
    destruct (ok_separators P Hok c) as [Hm Hr]; [now right|]. now destruct inrange. }
  intros [->|[-> ->]]; repeat (split; [congruence|]); apply G; [now right; left|now do 3 right; left].
Qed.

(** Comparisons of symbols that are settled by hypotheses. *)
Ltac settle :=
  repeat match goal with
  | |- context [?a =? ?a] => rewrite (Z.eqb_refl a)
  | |- context [?a =? ?b] => rewrite (proj2 (Z.eqb_neq a b)) by congruence
  end; cbn [andb orb negb].

(** ** Groups and ranges *)

Definition subsequence (inrange : bool) (close : Z) (fuel start : nat) : M nat :=
  if inrange then process_range_subsequence P (range_loop P fuel) close start
  else process_char_subsequence P (char_loop P fuel) start.

Definition deeper (s : Analyzer) : Analyzer := with_depth (recursion_depth_ s + 1) s.

Lemma create_tree_node_run s p h v r z u : h !! p = Some (mkNode v r []) ->
  recursion_depth_ s <> recursion_max_depth P ->
  create_tree_node_ P p (at_ z u (to p h s)) =
    (at_ z u (to (length h) (opened_heap p (mkNode v r []) h) s), Ret (S (length h))).
Proof.
  intros Hp Hm. assert (Hlook : (h ++ [mkNode [] 1 []]) !! p = Some (mkNode v r [])).
  { rewrite lookup_app_l; [exact Hp|]. now apply lookup_lt_Some in Hp. }
  unfold create_tree_node_. rewrite bind_member. change (recursion_depth_ _) with (recursion_depth_ s).
  rewrite (proj2 (Z.eqb_neq _ _) Hm). unfold create_node_. rewrite bind_assoc.
  rewrite (bind_run _ _ _ _ _ (new_node_run _)). rewrite bind_assoc.
  rewrite (bind_run _ _ _ _ _ (push_child_run p _ (with_heap (h ++ [mkNode [] 1 []]) (at_ z u (to p h s))) v r [] Hlook)).
  rewrite bind_modify, new_node_run. cbn. unfold opened_heap. cbn.
  rewrite length_insert, length_app. cbn [length]. rewrite Nat.add_1_r. reflexivity.
Qed.

(** The end of an alternative, where the open node gets the node behind. *)
Definition closed_heap (c f : nat) (v : list Z) (r : Z) (h : graph) : graph := <[c := mkNode v r [f]]> h.

Lemma close_run s t x c f h v r : h !! c = Some (mkNode v r []) -> 0 <= recursion_depth_ s < 65535 ->
  (n ← current; push_child n f;; modify (fun s => with_depth (wrapu 16 (recursion_depth_ s - 1)) s);; mret f)
    (at_ t x (to c h (deeper s))) = (at_ t x (to c (closed_heap c f v r h) s), Ret f).
Proof.
  intros Hc Hd. erewrite bind_current by reflexivity.
  rewrite (bind_run _ _ _ _ _ (push_child_run c _ (at_ t x (to c h (deeper s))) v r [] Hc)), bind_modify.
  unfold mret, M_ret. f_equal. cbn. rewrite wrapu_small by lia.
  replace (recursion_depth_ s + 1 - 1) with (recursion_depth_ s) by lia. reflexivity.
Qed.

Lemma deeper_run s t x c h : 0 <= recursion_depth_ s < 65535 ->
  with_depth (wrapu 16 (recursion_depth_ (at_ t x (to c h s)) + 1)) (at_ t x (to c h s)) = at_ t x (to c h (deeper s)).
Proof. intros Hd. cbn. rewrite wrapu_small by lia. reflexivity. Qed.

Lemma readable_run {B} (k : M B) close z u w s :
  (check_readability_ close;; k) (at_ (z :: u) w s) = k (at_ (z :: u) w s).
Proof. reflexivity. Qed.

Lemma subsequence_run inrange close fuel s p h v r y A t x h' c' v' r' x' :
  h !! p = Some (mkNode v r []) -> 0 <= recursion_depth_ s < 65535 -> recursion_depth_ s <> recursion_max_depth P ->
  h' !! c' = Some (mkNode v' r' []) ->
  loop inrange close fuel p (S (length h))
    (at_ (A ++ close :: t) y (to (length h) (opened_heap p (mkNode v r []) h) (deeper s))) =
    (at_ (close :: t) x' (to c' h' (deeper s)), Ret tt) ->
  subsequence inrange close fuel p (at_ (y :: A ++ close :: t) x (to p h s)) =
    (at_ (close :: t) x' (to c' (closed_heap c' (S (length h)) v' r' h') s), Ret (S (length h))).
Proof.
  intros Hp Hd Hm Hc Hl. unfold subsequence, loop in *. destruct inrange.
  - unfold process_range_subsequence. rewrite bind_get.
    destruct (A ++ close :: t) as [|z u] eqn:E; [now destruct A|]. rewrite readable_run.
    rewrite (bind_run _ _ _ _ _ (create_tree_node_run _ _ _ _ _ _ _ Hp Hm)), bind_modify, deeper_run by easy.
    rewrite (bind_run _ _ _ _ _ Hl), readable_run. now apply close_run.
  - unfold process_char_subsequence.
    rewrite (bind_run _ _ _ _ _ (create_tree_node_run _ _ _ _ _ _ _ Hp Hm)), bind_modify, deeper_run by easy.
    rewrite bind_get, (bind_run _ _ _ _ _ Hl). now apply close_run.
Qed.

(** ** Numbers of repetitions *)

Lemma repeat_run s c h p v r l n t x : h !! p = Some (mkNode v r l) -> number n ->
  (set_node_repeat_amount P p;; get) (at_ (times_text P n ++ t) x (to c h s)) =
    (at_ t (second (num_retries_symb P)) (to c (<[p := mkNode v (wrapu 16 (r * dec_from 0 n)) l]> h) s), Ret tt).
Proof.
  intros Hp Hn. unfold times_text. cbn [app]. rewrite <- app_assoc. cbn [app].
  unfold set_node_repeat_amount. rewrite bind_assoc, bind_member.
  change (istr (at_ _ x (to c h s))) with (mkStream (n ++ second (num_retries_symb P) :: t) false false).
  rewrite (read_number _ _ _ Hn (ok_times P Hok)). rewrite bind_assoc, bind_modify. cbn [good eofbit failbit negb andb].
  rewrite !bind_assoc.
  change (with_stream (mkStream (second (num_retries_symb P) :: t) false false) (at_ _ x (to c h s)))
    with (at_ (first (num_retries_symb P) :: second (num_retries_symb P) :: t) x (to c h s)).
  rewrite bind_get, bind_assoc, bind_good. cbn [negb]. rewrite bind_assoc, bind_symbol, Z.eqb_refl. cbn [negb].
  rewrite bind_mret, bind_assoc.
  erewrite bind_node by exact Hp. rewrite (bind_run _ _ _ _ _ (set_node_run _ _ _)), <- get_at with (x := second (num_retries_symb P)).
  reflexivity.
Qed.
(** ** Turns *)

Lemma turn_recognize inrange close c u x s t' y s1 :
  c <> close -> separator P inrange c = false -> (inrange = true -> c <> range_symbol P) -> (length t' <= length u)%nat ->
  cur_lexeme_tree_ s1 = cur_lexeme_tree_ s ->
  (forall fuel, (length (c :: u) <= fuel)%nat ->
     (recognize inrange fuel;; get) (at_ (c :: u) x s) = (at_ t' y s1, Ret tt)) ->
  turn inrange close (at_ (c :: u) x s) (at_ t' y s1).
Proof.
  intros Hc Hs Hr Hl Ht Hb. constructor; try easy.
  - rewrite !remaining_at. cbn [length]. lia.
  - intros fuel Hf. rewrite remaining_at in Hf. unfold body. rewrite bind_symbol.
    replace (inrange && (c =? range_symbol P)) with false; [now apply Hb|]. destruct inrange; [|easy].
    symmetry. now apply Z.eqb_neq, Hr.
Qed.

(** The choice that the parser makes for a symbol. *)
Lemma recognize_symbol_run inrange fuel c u x n h s :
  recognize inrange fuel (at_ (c :: u) x (to n h s)) =
  (if c =? first (retry_part_symb P) then
     t ← node n;
     if negb (length (node_val t) =? 0)%nat then throw NoncriticalException
     else
       m ← subsequence inrange (second (retry_part_symb P)) fuel n; modify (with_node (Some m));;
       get;; g ← good_; c ← member current_symbol_;
       if inrange then
         if negb g || negb (c =? first (num_retries_symb P)) then throw NoncriticalException
         else set_node_repeat_amount P n
       else if negb g then throw AnalyzerException
       else if negb (c =? first (num_retries_symb P)) then throw NoncriticalException
       else set_node_repeat_amount P n
   else if c =? first (range_part_symb P) then
     m ← subsequence true (second (range_part_symb P)) fuel n; modify (with_node (Some m))
   else if c =? first (num_retries_symb P) then set_node_repeat_amount P n
   else if c =? shield_symbol P then recognize_shielded_symbol_ P
   else if regular P inrange c then append_val n [c]
   else if is_ignored P c then mret tt
   else throw NoncriticalException) (at_ (c :: u) x (to n h s)).
Proof.
  unfold recognize, recognize_range_symbol, recognize_symbol, subsequence, regular.
  destruct inrange; rewrite bind_symbol, (ok_repeat P Hok), ?(ok_range P Hok); cbn [andb];
    (destruct (c =? first (retry_part_symb P));
     [erewrite bind_current by reflexivity; reflexivity|]);
    (destruct (c =? first (range_part_symb P));
     [erewrite bind_current by reflexivity; reflexivity|]);
    (destruct (c =? first (num_retries_symb P));
     [erewrite bind_current by reflexivity; reflexivity|]);
    (destruct (c =? shield_symbol P); [reflexivity|]);
    (match goal with |- context [check_symbol_in_set ?l c] => destruct (check_symbol_in_set l c) end;
     [erewrite bind_current by reflexivity; reflexivity|reflexivity]).
Qed.

Lemma ordinary_distinct inrange close c : ordinary P inrange c -> closes inrange close -> c <> close.
Proof.
  intros [Hn _] [->|[_ ->]] ->; apply Hn; unfold specials; [now right; left|now do 3 right; left].
Qed.

Lemma plain_turn inrange close c t x n h s v r : plain P inrange c -> closes inrange close ->
  h !! n = Some (mkNode v r []) ->
  turn inrange close (at_ (c :: t) x (to n h s)) (at_ t c (to n (<[n := mkNode (v ++ [c]) r []]> h) s)).
Proof.
  intros [Ho Hr] Hc Hn. pose proof (ordinary_distinct _ _ _ Ho Hc). destruct Ho as (Hsp & Hse & Hra).
  apply turn_recognize; try easy. intros fuel _. pose proof (not_special c Hsp) as D. destruct_and! D.
  rewrite (bind_run (recognize inrange fuel) _ _ (at_ (c :: t) x (to n (<[n := mkNode (v ++ [c]) r []]> h) s)) tt).
  - apply get_at.
  - rewrite recognize_symbol_run. settle. rewrite Hr. exact (append_val_run n [c] (at_ (c :: t) x (to n h s)) v r [] Hn).
Qed.

Lemma ignored_turn inrange close c t x n h s : ordinary P inrange c -> regular P inrange c = false ->
  is_ignored P c = true -> closes inrange close ->
  turn inrange close (at_ (c :: t) x (to n h s)) (at_ t c (to n h s)).
Proof.
  intros Ho Hr Hi Hc. pose proof (ordinary_distinct _ _ _ Ho Hc). destruct Ho as (Hsp & Hse & Hra).
  apply turn_recognize; try easy. intros fuel _. pose proof (not_special c Hsp) as D. destruct_and! D.
  rewrite (bind_run (recognize inrange fuel) _ _ (at_ (c :: t) x (to n h s)) tt); [apply get_at|].
  rewrite recognize_symbol_run. settle. rewrite Hr, Hi. reflexivity.
Qed.

Lemma shield_turn inrange close c t x n h s v r : (shield_map P !! c = None -> is_ignored P c = true) ->
  closes inrange close -> h !! n = Some (mkNode v r []) ->
  turn inrange close (at_ (shield_symbol P :: c :: t) x (to n h s))
    (at_ t c (to n (<[n := mkNode (v ++ shield_text P c) r []]> h) s)).
Proof.
  intros Hi Hc Hn. pose proof symbols_distinct as D. destruct_and! D. destruct (closes_distinct _ _ Hc) as (_ & _ & _ & Hd & _).
  apply turn_recognize; try easy.
  - destruct (ok_separators P Hok (shield_symbol P)) as [Hm Hr]; [unfold specials; cbn [List.In]; tauto|].
    now destruct inrange.
  - clear. cbn [length]. lia.
  - intros fuel _. unfold shield_text.
    assert (E : recognize_shielded_symbol_ P (at_ (shield_symbol P :: c :: t) x (to n h s)) =
      (at_ (c :: t) (shield_symbol P) (to n (<[n := mkNode (v ++ default [] (shield_map P !! c)) r []]> h) s), Ret tt)).
    { unfold recognize_shielded_symbol_. rewrite bind_get, bind_good. cbn [negb]. rewrite bind_symbol.
      destruct (shield_map P !! c) as [w|] eqn:Ew; cbn [default].
      - erewrite bind_current by reflexivity.
        exact (append_val_run n w (at_ (c :: t) (shield_symbol P) (to n h s)) v r [] Hn).
      - rewrite (Hi eq_refl), app_nil_r. cbn [negb]. rewrite list_insert_id by easy. reflexivity. }
    rewrite (bind_run (recognize inrange fuel) _ _ (at_ (c :: t) (shield_symbol P)
      (to n (<[n := mkNode (v ++ default [] (shield_map P !! c)) r []]> h) s)) tt); [apply get_at|].
    rewrite recognize_symbol_run. settle. exact E.
Qed.

Lemma times_turn inrange close m t x n h s v r : number m -> closes inrange close -> h !! n = Some (mkNode v r []) ->
  turn inrange close (at_ (times_text P m ++ t) x (to n h s))
    (at_ t (second (num_retries_symb P)) (to n (<[n := mkNode v (wrapu 16 (r * dec_from 0 m)) []]> h) s)).
Proof.
  intros Hm Hc Hn. pose proof symbols_distinct as D. destruct_and! D. destruct (closes_distinct _ _ Hc) as (_ & _ & Hd & _).
  pose proof (repeat_run s n h n v r [] m t x Hn Hm) as E. unfold times_text in *. cbn [app] in *.
  apply turn_recognize; [congruence| |congruence| |reflexivity|].
  - destruct (ok_separators P Hok (first (num_retries_symb P))) as [Hmm Hr]; [unfold specials; cbn [List.In]; tauto|].
    now destruct inrange.
  - clear. rewrite !length_app. lia.
  - intros fuel _. rewrite <- E. unfold mbind at 1 2, M_bind. rewrite recognize_symbol_run. settle. reflexivity.
Qed.
(** The loop over the alternatives of a group or range behind [p]. *)
Definition inner_loop (inrange : bool) (close : Z) (A t : list Z) (p : nat) (v : list Z) (r : Z) (h : graph) (y : Z)
  (s : Analyzer) (h' : graph) (c' : nat) : Prop :=
  forall fuel, (length (A ++ close :: t) < fuel)%nat -> exists x',
    loop inrange close fuel p (S (length h))
      (at_ (A ++ close :: t) y (to (length h) (opened_heap p (mkNode v r []) h) (deeper s))) =
    (at_ (close :: t) x' (to c' h' (deeper s)), Ret tt).

Lemma symbol_separator inrange c : List.In c (specials P) -> separator P inrange c = false.
Proof. intros H. destruct (ok_separators P Hok c) as [Hm Hr]; [now right|]. now destruct inrange. Qed.

Lemma group_node T h p v r h' ns c' v' r' : h !! p = Some (mkNode v r []) ->
  Alternatives T (opened_heap p (mkNode v r []) h) p (length h) (S (length h)) h' ns c' v' r' ->
  closed_heap c' (S (length h)) v' r' h' !! p = Some (mkNode v r (length h :: ns)).
Proof.
  intros Hp HA. pose proof (lookup_lt_Some _ _ _ Hp) as Hl.
  pose proof (alternatives_current _ _ _ _ _ _ _ _ _ _ HA) as Hc. unfold within in Hc. rewrite opened_heap_length in Hc.
  unfold closed_heap. rewrite list_lookup_insert_ne by lia.
  rewrite (alternatives_start _ _ _ _ _ _ _ _ _ _ HA (mkNode v r [length h])); [reflexivity|].
  rewrite (opened_heap_lookup p v r h p Hp). now destruct (decide (p = p)).
Qed.

Lemma group_turn inrange close A m t x p h s r T h' ns c' v' r' :
  number m -> closes inrange close -> h !! p = Some (mkNode [] r []) ->
  0 <= recursion_depth_ s < 65535 -> recursion_depth_ s <> recursion_max_depth P ->
  Alternatives T (opened_heap p (mkNode [] r []) h) p (length h) (S (length h)) h' ns c' v' r' ->
  inner_loop inrange (second (retry_part_symb P)) A (times_text P m ++ t) p [] r h (first (retry_part_symb P)) s h' c' ->
  turn inrange close
    (at_ (first (retry_part_symb P) :: A ++ second (retry_part_symb P) :: times_text P m ++ t) x (to p h s))
    (at_ t (second (num_retries_symb P))
       (to (S (length h)) (<[p := mkNode [] (wrapu 16 (r * dec_from 0 m)) (length h :: ns)]>
          (closed_heap c' (S (length h)) v' r' h')) s)).
Proof.
  intros Hm Hc Hp Hd Hmax HA HL. pose proof symbols_distinct as D. destruct_and! D.
  destruct (closes_distinct _ _ Hc) as (Hc1 & _).
  apply turn_recognize; [congruence|apply symbol_separator; now left|congruence| |reflexivity|].
  { clear. rewrite !length_app. cbn [length]. rewrite length_app. lia. }
  intros fuel Hf. destruct (HL fuel) as [x' El]; [cbn [length] in Hf; exact Hf|].
  pose proof (subsequence_run inrange (second (retry_part_symb P)) fuel s p h [] r (first (retry_part_symb P)) A
    (times_text P m ++ t) x h' c' v' r' x' Hp Hd Hmax (alternatives_node _ _ _ _ _ _ _ _ _ _ HA) El) as Es.
  rewrite <- (repeat_run s (S (length h)) _ p [] r (length h :: ns) m t (second (retry_part_symb P))
    (group_node _ _ _ _ _ _ _ _ _ _ Hp HA) Hm).
  unfold mbind at 1 2, M_bind. rewrite recognize_symbol_run. settle.
  erewrite bind_node by exact Hp. cbn [node_val length Nat.eqb negb]. rewrite (bind_run _ _ _ _ _ Es), bind_modify.
  change (with_node (Some (S (length h))) (at_ ?l x' (to c' ?g s))) with (at_ l x' (to (S (length h)) g s)).
  unfold times_text at 1. cbn [app]. rewrite bind_get, bind_good, bind_symbol, Z.eqb_refl. cbn [negb orb].
  now destruct inrange.
Qed.

Lemma range_turn inrange close A t x p h s v r T h' ns c' v' r' :
  closes inrange close -> h !! p = Some (mkNode v r []) ->
  0 <= recursion_depth_ s < 65535 -> recursion_depth_ s <> recursion_max_depth P ->
  Alternatives T (opened_heap p (mkNode v r []) h) p (length h) (S (length h)) h' ns c' v' r' ->
  inner_loop true (second (range_part_symb P)) A t p v r h (first (range_part_symb P)) s h' c' ->
  turn inrange close
    (at_ (first (range_part_symb P) :: A ++ second (range_part_symb P) :: t) x (to p h s))
    (at_ t (second (range_part_symb P))
       (to (S (length h)) (<[p := mkNode v r (length h :: ns)]> (closed_heap c' (S (length h)) v' r' h')) s)).
Proof.
  intros Hc Hp Hd Hmax HA HL. pose proof symbols_distinct as D. destruct_and! D.
  destruct (closes_distinct _ _ Hc) as (_ & Hc1 & _).
  apply turn_recognize; [congruence|apply symbol_separator; now do 2 right; left|congruence| |reflexivity|].
  { clear. rewrite length_app. cbn [length]. lia. }
  intros fuel Hf. destruct (HL fuel) as [x' El]; [cbn [length] in Hf; exact Hf|].
  pose proof (subsequence_run true (second (range_part_symb P)) fuel s p h v r (first (range_part_symb P)) A
    t x h' c' v' r' x' Hp Hd Hmax (alternatives_node _ _ _ _ _ _ _ _ _ _ HA) El) as Es.
  rewrite (list_insert_id _ p) by exact (group_node _ _ _ _ _ _ _ _ _ _ Hp HA).
  rewrite (bind_run (recognize inrange fuel) _ _ (at_ (second (range_part_symb P) :: t) x'
    (to (S (length h)) (closed_heap c' (S (length h)) v' r' h') s)) tt); [apply get_at|].
  rewrite recognize_symbol_run. settle. rewrite (bind_run _ _ _ _ _ Es). reflexivity.
Qed.

(** ** Separators between alternatives *)

Lemma close_alternative_run inrange p f run t x s c h v r w q cs :
  separator_run P inrange run -> begins P inrange t ->
  h !! c = Some (mkNode v r []) -> h !! p = Some (mkNode w q cs) -> p <> c ->
  exists x', close_alternative P p f (separator P inrange) (at_ (run ++ t) x (to c h s)) =
    (at_ t x' (to (length h) (next_heap p c f v r (mkNode w q cs) h) s), Ret tt).
Proof.
  intros Hr Ht Hc Hp Hn. destruct run as [|y run]; [easy|]. destruct Hr as [Hy Hr].
  pose proof (lookup_lt_Some _ _ _ Hc) as Hl. pose proof (lookup_lt_Some _ _ _ Hp) as Hlp.
  destruct (skip_at (fun c => separator P inrange c || is_ignored P c) run t y
    (to (length h) (next_heap p c f v r (mkNode w q cs) h) s) Hr) as [x' Hs].
  { destruct t as [|z t]; [easy|]. destruct Ht as [-> ->]. easy. }
  exists x'. unfold close_alternative. erewrite bind_current by reflexivity.
  rewrite (bind_run _ _ _ _ _ (push_child_run c f (at_ ((y :: run) ++ t) x (to c h s)) v r [] Hc)).
  erewrite bind_node by (apply list_lookup_insert_eq; exact Hl). cbn [app child_list length Nat.eqb negb].
  unfold create_node_. rewrite bind_assoc, (bind_run _ _ _ _ _ (new_node_run _)), bind_assoc.
  assert (Hlook : (<[c := mkNode v r [f]]> h ++ [mkNode [] 1 []]) !! p = Some (mkNode w q cs)).
  { rewrite lookup_app_l by now rewrite length_insert. now rewrite list_lookup_insert_ne. }
  rewrite (bind_run _ _ _ _ _ (push_child_run p _ (with_heap (<[c := mkNode v r [f]]> h ++ [mkNode [] 1 []])
    (at_ (y :: run ++ t) x (to c h s))) w q cs Hlook)).
  rewrite bind_modify, (ok_successive P Hok).
  change (with_node _ (with_heap _ (with_heap _ _))) with
    (at_ (y :: run ++ t) x (to (length (<[c := mkNode v r [f]]> h)) (<[p := mkNode w q (cs ++ [length (<[c := mkNode v r [f]]> h)])]>
       (<[c := mkNode v r [f]]> h ++ [mkNode [] 1 []])) s)).
  rewrite length_insert. unfold next_heap in Hs. cbn [node_val repeat_amount child_list] in Hs. rewrite bind_get. exact Hs.
Qed.
End Run.
