(* ===== verification/AnalyzerSpan.v ===== *)
(** * AnalyzerSpan: ranges of numbers

    The numbers at the ends of a range, and the nodes it is unrolled into. *)

From stdpp Require Import base gmap list.
From Stdlib Require Import ZArith List Bool Lia.
From S2P Require Import Prelude Ascii Numbers CompressedSet Analyzer AnalyzerGraph AnalyzerText AnalyzerRun.
Import ListNotations.
Open Scope Z_scope.

(** ** Digits *)

Lemma is_digit_range c : is_digit c = true <-> 48 <= c <= 57.
Proof. unfold is_digit. rewrite andb_true_iff, !Z.leb_le. lia. Qed.

Lemma digits_number l : forallb is_digit l = true -> forallb (table_owned NUMBER) l = true.
Proof. rewrite !forallb_forall. intros H c Hc. now apply digit_number, H. Qed.

Lemma dec_from_cons v c l : dec_from v (c :: l) = dec_from (10 * v + (c - 48)) l.
Proof. reflexivity. Qed.

Lemma dec_from_bounds l : forallb is_digit l = true -> forall v, 0 <= v ->
  v * 10 ^ Z.of_nat (length l) <= dec_from v l < (v + 1) * 10 ^ Z.of_nat (length l).
Proof.
  induction l as [|c l IH]; intros Hd v Hv; [cbn; lia|]. cbn [forallb] in Hd. apply andb_true_iff in Hd as [Hc Hd].
  apply is_digit_range in Hc. rewrite dec_from_cons. specialize (IH Hd (10 * v + (c - 48)) ltac:(lia)).
  cbn [length]. rewrite Nat2Z.inj_succ, Z.pow_succ_r by lia. nia.
Qed.

Lemma extract_loop_digits l : forallb is_digit l = true -> forall v, 0 <= v -> dec_from v l < 2 ^ 32 ->
  extract_loop l v = (dec_from v l, true).
Proof.
  induction l as [|c l IH]; intros Hd v Hv Hb; [easy|]. cbn [forallb] in Hd. apply andb_true_iff in Hd as [Hc Hd].
  apply is_digit_range in Hc. rewrite dec_from_cons in *.
  pose proof (dec_from_ge l Hd (10 * v + (c - 48)) ltac:(lia)) as G. cbn [extract_loop].
  cbv zeta. change (chr "0") with 48. rewrite (wrapu_small 32 (c - 48)) by lia.
  rewrite (wrapu_small 32 (2 ^ 32 - 1 - (c - 48))) by lia.
  replace (v <=? (2 ^ 32 - 1 - (c - 48)) / 10) with true
    by (symmetry; apply Z.leb_le, Z.div_le_lower_bound; lia).
  rewrite wrapu_small by lia. replace (v * 10 + (c - 48)) with (10 * v + (c - 48)) by lia. now apply IH; [|lia|].
Qed.

Lemma extract_number_digits l b : forallb is_digit l = true -> dec_from 0 l < 2 ^ 32 ->
  extract_number l b = (dec_from 0 l, b).
Proof.
  intros Hd Hb. unfold extract_number. rewrite digits_number by easy. cbn [negb].
  rewrite extract_loop_digits by (easy || lia). now rewrite andb_true_r.
Qed.

(** ** Zeros in front *)

Definition strip (l : list Z) : list Z := snd (Prelude.span (fun c => c =? 48) l).

Lemma strip_spec l : forallb is_digit l = true ->
  forallb is_digit (strip l) = true /\ dec_from 0 (strip l) = dec_from 0 l /\
  (length (strip l) <= length l)%nat /\ (padded l = false <-> length (strip l) = length l) /\
  match strip l with c :: _ => c <> 48 | [] => True end.
Proof.
  unfold strip, padded. change (chr "0") with 48. induction l as [|c l IH]; intros Hd; [easy|].
  cbn [forallb] in Hd. apply andb_true_iff in Hd as [Hc Hd]. cbn [Prelude.span].
  destruct (Z.eqb_spec c 48) as [->|Hn].
  - destruct (Prelude.span _ l) as [z s] eqn:E. cbn [snd] in *. destruct (IH Hd) as (H1 & H2 & H3 & _ & H5).
    rewrite dec_from_cons. cbn [length]. split; [easy|]. split; [easy|]. split; [lia|]. split; [|easy]. split; [easy|lia].
  - cbn [snd forallb length]. rewrite Hc. now repeat split.
Qed.

Lemma stripped_bounds l : forallb is_digit l = true -> strip l <> [] ->
  10 ^ (Z.of_nat (length (strip l)) - 1) <= dec_from 0 l < 10 ^ Z.of_nat (length (strip l)).
Proof.
  intros Hd Hn. destruct (strip_spec l Hd) as (H1 & H2 & _ & _ & H5). rewrite <- H2.
  destruct (strip l) as [|c s]; [easy|]. cbn [forallb] in H1. apply andb_true_iff in H1 as [Hc H1].
  apply is_digit_range in Hc. rewrite dec_from_cons. pose proof (dec_from_bounds s H1 (10 * 0 + (c - 48)) ltac:(lia)) as B.
  cbn [length]. rewrite Nat2Z.inj_succ, Z.pow_succ_r by lia.
  replace (Z.succ (Z.of_nat (length s)) - 1) with (Z.of_nat (length s)) by lia.
  pose proof (Z.pow_pos_nonneg 10 (Z.of_nat (length s))). nia.
Qed.

Lemma stripped_empty l : forallb is_digit l = true -> (strip l = [] <-> dec_from 0 l = 0).
Proof.
  intros Hd. destruct (strip_spec l Hd) as (_ & H2 & _). split; intros H; [now rewrite <- H2, H|].
  destruct (strip l) as [|c s] eqn:E; [easy|exfalso]. pose proof (stripped_bounds l Hd ltac:(now rewrite E)) as B.
  rewrite E in B. cbn [length] in B. rewrite Nat2Z.inj_succ in B.
  replace (Z.succ (Z.of_nat (length s)) - 1) with (Z.of_nat (length s)) in B by lia.
  pose proof (Z.pow_pos_nonneg 10 (Z.of_nat (length s))). lia.
Qed.

Lemma stripped_lengths p1 p2 : forallb is_digit p1 = true -> forallb is_digit p2 = true ->
  dec_from 0 p1 <= dec_from 0 p2 -> (length (strip p1) <= length (strip p2))%nat.
Proof.
  intros H1 H2 Hle. destruct (strip p1) as [|c1 s1] eqn:E1; [cbn; lia|].
  pose proof (stripped_bounds p1 H1 ltac:(now rewrite E1)) as B1. rewrite E1 in B1.
  destruct (strip p2) as [|c2 s2] eqn:E2.
  - apply stripped_empty in E2; [|easy]. cbn [length] in B1. rewrite Nat2Z.inj_succ in B1.
    replace (Z.succ (Z.of_nat (length s1)) - 1) with (Z.of_nat (length s1)) in B1 by lia.
    pose proof (Z.pow_pos_nonneg 10 (Z.of_nat (length s1))). lia.
  - pose proof (stripped_bounds p2 H2 ltac:(now rewrite E2)) as B2. rewrite E2 in B2.
    destruct (Nat.le_gt_cases (length (c1 :: s1)) (length (c2 :: s2))) as [|L]; [easy|exfalso].
    pose proof (Z.pow_le_mono_r 10 (Z.of_nat (length (c2 :: s2))) (Z.of_nat (length (c1 :: s1)) - 1)). lia.
Qed.

Section Span.
Context (P : AnalyzerParams) (Hok : params_ok P).

(** ** What the two parts make *)

Lemma allowed_covers v : check_allowed_int_range P v = Ret (covers (holder_ (int_range_bounds P)) v).
Proof.
  unfold check_allowed_int_range.
  destruct (cset_belongs (I := UInt32) v (int_range_bounds P) (ok_bounds P Hok)) as (st & E & _). now rewrite E.
Qed.

Lemma strip_padding_strip p : strip_padding P p = strip p.
Proof. unfold strip_padding, strip. destruct (ok_padding P Hok) as [-> ->]. reflexivity. Qed.

Lemma first_part_number p : forallb is_digit p = true -> dec_from 0 p < 2 ^ 32 ->
  (0 < dec_from 0 p -> covers (holder_ (int_range_bounds P)) (dec_from 0 p) = true) ->
  first_part P (strip p) = Ret (dec_from 0 p, true, false, false).
Proof.
  intros Hd Hb Hc. destruct (ok_numbers P Hok) as (Hu & Hch & Hst & Hdef). unfold first_part.
  destruct (strip_spec p Hd) as (H1 & H2 & _). destruct (strip p) as [|c s] eqn:E.
  - apply stripped_empty in E; [|easy]. now rewrite Hu, Hdef, E.
  - rewrite Hu, Hch, Hst. rewrite <- H2 in Hb. rewrite extract_number_digits by easy. cbn [andb].
    rewrite allowed_covers. cbn [bind]. rewrite H2, Hc; [reflexivity|].
    pose proof (dec_from_ge p Hd 0 ltac:(lia)). destruct (Z.eq_dec (dec_from 0 p) 0) as [Z|]; [|lia].
    apply stripped_empty in Z; [congruence|easy].
Qed.

Lemma padded_length p : forallb is_digit p = true -> Z.of_nat (length p) < 2 ^ 32 ->
  negb (u32 (Z.of_nat (length p)) =? u32 (Z.of_nat (length (strip p)))) = padded p.
Proof.
  intros Hd Hl. destruct (strip_spec p Hd) as (_ & _ & Hle & Hp & _). rewrite !wrapu_small by lia.
  destruct (padded p).
  - apply negb_true_iff, Z.eqb_neq. intros E. assert (true = false) by (apply Hp; lia). easy.
  - apply negb_false_iff, Z.eqb_eq. f_equal. symmetry. now apply Hp.
Qed.

Lemma range_of_parts_number p1 p2 : number_range P p1 p2 ->
  range_of_parts P p1 p2 =
    Ret (dec_from 0 p1, dec_from 0 p2, padded p1 || padded p2, Z.of_nat (length p2)).
Proof.
  intros (Hn1 & Hd1 & Hd2 & _ & _ & Hle & Hpos & Hc1 & Hc2 & Hpad & Hl1 & Hl2). unfold range_of_parts.
  rewrite !strip_padding_strip. rewrite first_part_number by (try easy; lia). cbn [bind].
  pose proof (strip_spec p2 Hd2) as (Ha & Hb & Hlen & _ & _). pose proof (strip_spec p1 Hd1) as (_ & _ & Hlen1 & _ & _).
  assert (Hs2 : strip p2 <> []) by (intros E; apply stripped_empty in E; [lia|easy]).
  assert (Hs2l : (0 < length (strip p2))%nat) by (destruct (strip p2); [easy|cbn; lia]).
  pose proof (stripped_lengths p1 p2 Hd1 Hd2 ltac:(lia)) as Hsl.
  rewrite (padded_length p1 Hd1 Hl1), (padded_length p2 Hd2 Hl2). rewrite !wrapu_small by lia.
  rewrite !(proj2 (Z.eqb_neq (Z.of_nat (length p2)) 0)), !(proj2 (Z.eqb_neq (Z.of_nat (length (strip p2))) 0)) by lia.
  rewrite (proj2 (Z.ltb_ge _ _)) by lia. cbn [orb andb].
  replace (negb (padded p1 && negb (Z.of_nat (length p2) =? Z.of_nat (length p1)))) with true.
  2:{ symmetry. destruct (padded p1); [|easy]. rewrite (Hpad eq_refl), Z.eqb_refl. easy. }
  unfold second_part. rewrite extract_number_digits by (try easy; lia). rewrite allowed_covers. cbn [bind].
  rewrite Hb, Hc2. rewrite (proj2 (Z.ltb_ge _ _)) by lia. reflexivity.
Qed.

Lemma number_text_span p1 p2 i :
  number_text P i (padded p1 || padded p2) (Z.of_nat (length p2)) = span_text p1 p2 i.
Proof. unfold number_text, span_text, decimal. destruct (ok_padding P Hok) as [_ ->]. now rewrite Nat2Z.id. Qed.

(** ** The nodes *)

Lemma unroll_run t x s w width f p r : forall n i hi cs c h fuel,
  n = Z.to_nat (hi - i + 1) -> 0 <= i -> hi < 2 ^ 32 - 1 -> (n < fuel)%nat ->
  h !! p = Some (mkNode [] r cs) -> f <> p ->
  exists c' h', unroll_loop P fuel i hi w width f p (at_ t x (to c h s)) = (at_ t x (to c' h' s), Ret tt) /\
    length h' = (length h + n)%nat /\ h' !! p = Some (mkNode [] r (cs ++ seq (length h) n)) /\
    (forall m, m <> p -> (m < length h)%nat -> h' !! m = h !! m) /\
    (forall j, (j < n)%nat -> h' !! (length h + j)%nat = Some (mkNode (number_text P (i + Z.of_nat j) w width) 1 [f])).
Proof.
  induction n as [|n IH]; intros i hi cs c h fuel Hn Hi Hhi Hf Hp Hfp; (destruct fuel as [|fuel]; [lia|]); cbn [unroll_loop].
  - rewrite (proj2 (Z.leb_gt i hi)) by lia. exists c, h. rewrite Nat.add_0_r, app_nil_r. repeat split; easy.
  - rewrite (proj2 (Z.leb_le i hi)) by lia. pose proof (lookup_lt_Some _ _ _ Hp) as Hlp.
    set (h1 := <[p := mkNode [] r (cs ++ [length h])]> (h ++ [mkNode [] 1 []])).
    set (h2 := <[length h := mkNode (number_text P i w width) 1 [f]]> h1).
    assert (E : unroll_loop P (S fuel) i hi w width f p (at_ t x (to c h s)) =
      unroll_loop P fuel (u32 (i + 1)) hi w width f p (at_ t x (to (length h) h2 s))).
    { cbn [unroll_loop]. rewrite (proj2 (Z.leb_le i hi)) by lia.
      rewrite (bind_run _ _ _ _ _ (new_node_run _)), bind_modify.
      assert (L0 : (h ++ [mkNode [] 1 []]) !! p = Some (mkNode [] r cs)) by (rewrite lookup_app_l by easy; exact Hp).
      rewrite (bind_run _ _ _ _ _ (push_child_run p (length h) (at_ t x (to (length h) (h ++ [mkNode [] 1 []]) s)) [] r cs L0)).
      assert (L1 : h1 !! length h = Some (mkNode [] 1 [])).
      { unfold h1. rewrite list_lookup_insert_ne by lia. apply lookup_new. }
      rewrite (bind_run _ _ _ _ _ (append_val_run (length h) (number_text P i w width) (at_ t x (to (length h) h1 s)) [] 1 [] L1)).
      assert (L2 : <[length h := mkNode (number_text P i w width) 1 []]> h1 !! length h = Some (mkNode (number_text P i w width) 1 [])).
      { apply list_lookup_insert_eq. now apply lookup_lt_Some in L1. }
      rewrite (bind_run _ _ _ _ _ (push_child_run (length h) f (at_ t x (to (length h) (<[length h := mkNode (number_text P i w width) 1 []]> h1) s)) _ 1 [] L2)).
      unfold h2. rewrite <- (list_insert_insert_eq h1 (length h) (mkNode (number_text P i w width) 1 [f]) (mkNode (number_text P i w width) 1 [])). reflexivity. }
    cbn [unroll_loop] in E. rewrite (proj2 (Z.leb_le i hi)) in E by lia. rewrite E. clear E. rewrite wrapu_small by lia.
    assert (Hh2 : length h2 = S (length h)).
    { unfold h2, h1. rewrite !length_insert, length_app. cbn [length]. lia. }
    assert (Hold : forall m, m <> p -> m <> length h -> (m < length h)%nat -> h2 !! m = h !! m).
    { intros m M1 M2 M3. unfold h2, h1. rewrite !list_lookup_insert_ne by congruence. now apply lookup_app_l. }
    assert (Hnew : h2 !! length h = Some (mkNode (number_text P i w width) 1 [f])).
    { apply list_lookup_insert_eq. unfold h1. rewrite length_insert, length_app. cbn [length]. lia. }
    destruct (IH (i + 1) hi (cs ++ [length h]) (length h) h2 fuel) as (c' & h' & R & Hl & Hp' & Hfr & Hnodes); try lia.
    { unfold h2. rewrite list_lookup_insert_ne by lia. apply list_lookup_insert_eq. rewrite length_app. cbn [length]. lia. }
    exists c', h'. split; [exact R|]. rewrite Hh2 in *. split; [lia|]. split; [|split].
    + rewrite Hp'. rewrite <- app_assoc. reflexivity.
    + intros m M1 M2. rewrite Hfr by lia. apply Hold; lia.
    + intros [|j] Hj.
      * rewrite Nat.add_0_r, Hfr by lia. rewrite Hnew. now rewrite Z.add_0_r.
      * rewrite <- Nat.add_succ_comm, Hnodes by lia. do 3 f_equal. lia.
Qed.
Lemma span_texts_length p1 p2 : length (span_texts p1 p2) = Z.to_nat (dec_from 0 p2 - dec_from 0 p1 + 1).
Proof. unfold span_texts. now rewrite length_map, length_seq. Qed.

Lemma span_texts_lookup p1 p2 j t : span_texts p1 p2 !! j = Some t ->
  t = span_text p1 p2 (dec_from 0 p1 + Z.of_nat j) /\ (j < Z.to_nat (dec_from 0 p2 - dec_from 0 p1 + 1))%nat.
Proof.
  intros H. pose proof (lookup_lt_Some _ _ _ H) as Hl. rewrite span_texts_length in Hl. split; [|easy].
  unfold span_texts in H. rewrite list_lookup_fmap in H. rewrite lookup_seq_lt in H by easy. cbn in H. now injection H as <-.
Qed.

Lemma span_unrolled t x s c h p r p1 p2 : number_range P p1 p2 -> h !! p = Some (mkNode [] r []) ->
  exists c' h', unroll_num_range P (dec_from 0 p1) (dec_from 0 p2) (padded p1 || padded p2) (Z.of_nat (length p2)) p
      (at_ t x (to c h s)) = (at_ t x (to c' h' s), Ret (length h)) /\
    Unrolled p r (span_texts p1 p2) h h'.
Proof.
  intros (_ & Hd1 & _ & _ & _ & Hle & _) Hp. pose proof (lookup_lt_Some _ _ _ Hp) as Hlp.
  pose proof (dec_from_ge p1 Hd1 0 ltac:(lia)) as H0.
  destruct (unroll_run t x s (padded p1 || padded p2) (Z.of_nat (length p2)) (length h) p r
    (Z.to_nat (dec_from 0 p2 - dec_from 0 p1 + 1)) (dec_from 0 p1) (dec_from 0 p2) [] c (h ++ [mkNode [] 1 []])
    (Z.to_nat (dec_from 0 p2 - dec_from 0 p1) + 2)) as (c' & h' & R & Hl & Hp' & Hf & Ht); try lia.
  { rewrite lookup_app_l by easy. exact Hp. }
  rewrite length_app in *. cbn [length] in *. rewrite Nat.add_1_r in *. exists c', h'. split.
  - unfold unroll_num_range. rewrite (bind_run _ _ _ _ _ (new_node_run _)).
    change (with_heap _ (at_ t x (to c h s))) with (at_ t x (to c (h ++ [mkNode [] 1 []]) s)).
    rewrite (bind_run _ _ _ _ _ R). reflexivity.
  - constructor.
    + rewrite span_texts_length. exact Hl.
    + rewrite span_texts_length. exact Hp'.
    + rewrite Hf by lia. apply lookup_new.
    + intros j u Hj. apply span_texts_lookup in Hj as [-> Hj]. rewrite Ht by easy. now rewrite number_text_span.
    + intros m M1 M2. rewrite Hf by lia. now apply lookup_app_l.
Qed.

(** ** The list *)

Lemma second_part_run (stop : Z -> bool) y u s : stop y = true -> forall p2, Forall (fun c => stop c = false) p2 ->
  forall x part fuel, (length p2 < fuel)%nat -> exists x',
  second_part_loop fuel stop part (at_ (p2 ++ y :: u) x s) = (at_ (y :: u) x' s, Ret (part ++ p2)).
Proof.
  intros Hy p2 Hp. induction Hp as [|c p2 Hc Hp IH]; intros x part fuel Hf; (destruct fuel as [|fuel]; [cbn in Hf; lia|]);
    cbn [second_part_loop app]; rewrite bind_good, bind_symbol.
  - rewrite Hy, app_nil_r. now exists x.
  - rewrite Hc. cbn [andb negb]. rewrite bind_get. destruct (IH c (part ++ [c]) fuel) as [x' E]; [cbn in Hf; lia|].
    exists x'. now rewrite E, <- app_assoc.
Qed.

(** The symbols that end the second part. *)
Definition list_stop (close y : Z) : bool :=
  is_range_separator P y || (true && (y =? close)) || (y =? first (range_part_symb P)).

Lemma list_stop_ordinary close c : closes P true close -> ordinary P true c -> list_stop close c = false.
Proof.
  intros Hc Ho. pose proof (ordinary_distinct P _ _ _ Ho Hc) as Hn. destruct Ho as (Hsp & Hse & _).
  destruct (not_special P c Hsp) as (_ & _ & Hg & _). unfold list_stop. cbn [separator] in Hse. rewrite Hse.
  cbn [orb andb]. now rewrite !(proj2 (Z.eqb_neq _ _)).
Qed.

(** Until the range is unrolled: [n] is the node that held the first number. *)
Lemma list_run {close p1 p2 y u x s n h r} : number_range P p1 p2 -> closes P true close -> list_stop close y = true ->
  h !! n = Some (mkNode p1 r []) ->
  exists h', Unrolled n r (span_texts p1 p2) (<[n := mkNode [] r []]> h ++ [mkNode [] 1 []]) h' /\ forall fuel,
    process_range_list P (range_loop P fuel) true close (Some n) (at_ (range_symbol P :: p2 ++ y :: u) x (to n h s)) =
    (c ← member current_symbol_;
     (if (negb true || negb (c =? close)) && (c =? first (range_part_symb P)) then
        general_node ← current;
        n ← process_range_subsequence P (range_loop P fuel) (second (range_part_symb P)) general_node;
        modify (with_node (Some n));;
        get
      else mret tt);;
     n ← current; push_child n (length h);;
     mret (length h)) (at_ (y :: u) 0 (to (S (length h)) h' s)).
Proof.
  intros Hr Hc Hy Hn. pose proof (lookup_lt_Some _ _ _ Hn) as Hl. pose proof Hr as (Hp1 & _ & _ & _ & Ho & _ & _ & _ & _ & _ & Hl1 & _).
  set (h0 := <[n := mkNode [] r []]> h ++ [mkNode [] 1 []]).
  assert (Hl0 : length h0 = S (length h)) by (unfold h0; rewrite length_app, length_insert; cbn [length]; lia).
  assert (Hn0 : h0 !! n = Some (mkNode [] r [])).
  { unfold h0. rewrite lookup_app_l by now rewrite length_insert. now apply list_lookup_insert_eq. }
  destruct (second_part_run (list_stop close) y u (to n h0 s) Hy p2
    (List.Forall_impl _ (fun c => list_stop_ordinary close c Hc) Ho) (range_symbol P) []
    (enough (at_ (p2 ++ y :: u) (range_symbol P) (to n h0 s)))) as [x' E2].
  { unfold enough, at_. destruct p2; cbn; [lia|]. rewrite length_app. lia. }
  destruct (span_unrolled (y :: u) x' s n h0 n r p1 p2 Hr Hn0) as (c' & h' & E3 & HU). rewrite Hl0 in E3.
  exists h'. split; [exact HU|]. intros fuel. unfold process_range_list. cbn [deref]. rewrite bind_mret, bind_modify.
  rewrite (bind_run _ _ _ _ _ (new_node_run _)).
  assert (Hn' : (h ++ [mkNode [] 1 []]) !! n = Some (mkNode p1 r [])) by (rewrite lookup_app_l by exact Hl; exact Hn).
  erewrite bind_node by exact Hn'. cbn [node_val repeat_amount child_list].
  rewrite (bind_run _ _ _ _ _ (set_node_run _ _ _)).
  rewrite wrapu_small by lia. rewrite (proj2 (Z.eqb_neq _ 0)) by (destruct p1; [easy|cbn [length]; lia]). rewrite bind_mret.
  change (with_heap _ (with_heap _ _)) with (at_ (range_symbol P :: p2 ++ y :: u) x (to n (<[n := mkNode [] r []]> (h ++ [mkNode [] 1 []])) s)).
  change (length (heap (with_node _ (at_ _ x (to n h s))))) with (length h).
  rewrite insert_app_l by easy. fold h0. rewrite bind_get, bind_member, (bind_run _ _ _ _ _ E2), range_of_parts_number by easy.
  rewrite bind_lift, (bind_run _ _ _ _ _ E3), bind_modify. reflexivity.
Qed.

Definition hop_heap (c f : nat) (h : graph) : graph := <[c := mkNode [] 1 [f]]> h.

Lemma hop_run t x s c h f : h !! c = Some (mkNode [] 1 []) ->
  (n ← current; push_child n f;; mret f) (at_ t x (to c h s)) = (at_ t x (to c (hop_heap c f h) s), Ret f).
Proof.
  intros Hc. erewrite bind_current by reflexivity.
  rewrite (bind_run _ _ _ _ _ (push_child_run c f (at_ t x (to c h s)) [] 1 [] Hc)). reflexivity.
Qed.

Lemma range_symbol_turn close u x s n h t' y' s1 :
  closes P true close -> (length t' <= length u)%nat -> cur_lexeme_tree_ s1 = cur_lexeme_tree_ s ->
  (forall fuel, (length (range_symbol P :: u) <= fuel)%nat -> exists m s0,
     process_range_list P (range_loop P fuel) true close (Some n) (at_ (range_symbol P :: u) x (to n h s)) =
       (s0, Ret m) /\ with_node (Some m) s0 = at_ t' y' s1) ->
  turn P true close (at_ (range_symbol P :: u) x (to n h s)) (at_ t' y' s1).
Proof.
  intros Hc Hl Ht Hb. destruct (closes_distinct P Hok _ _ Hc) as (_ & _ & _ & _ & Hd & _). constructor; try exact Ht.
  - reflexivity.
  - change (current_symbol_ _) with (range_symbol P). congruence.
  - apply (ok_separators P Hok). now left.
  - rewrite !remaining_at. cbn [length]. lia.
  - intros fuel Hf. rewrite remaining_at in Hf. destruct (Hb fuel Hf) as (m & s0 & E & E').
    unfold body. rewrite bind_symbol, Z.eqb_refl. cbn [andb]. rewrite bind_member.
    change (current_node_ (at_ _ x (to n h s))) with (Some n). rewrite (bind_run _ _ _ _ _ E), <- E'. reflexivity.
Qed.

Lemma span_turn close p1 p2 y u x s n h r : number_range P p1 p2 -> closes P true close ->
  y = close \/ is_range_separator P y = true -> h !! n = Some (mkNode p1 r []) ->
  exists h', Unrolled n r (span_texts p1 p2) (<[n := mkNode [] r []]> h ++ [mkNode [] 1 []]) h' /\
    turn P true close (at_ (range_symbol P :: p2 ++ y :: u) x (to n h s))
      (at_ (y :: u) 0 (to (length h) (hop_heap (S (length h)) (length h) h') s)).
Proof.
  intros Hr Hc Hy Hn. destruct (closes_distinct P Hok _ _ Hc) as (_ & Hd & _).
  assert (Hg : y <> first (range_part_symb P)).
  { destruct Hy as [->|Hy]; [congruence|]. intros ->.
    assert (is_range_separator P (first (range_part_symb P)) = false) by (apply (ok_separators P Hok); do 3 right; now left).
    congruence. }
  assert (Hs : list_stop close y = true).
  { unfold list_stop. destruct Hy as [->| ->]; [|easy]. rewrite Z.eqb_refl. now rewrite orb_true_r. }
  destruct (list_run (u := u) (x := x) (s := s) Hr Hc Hs Hn) as (h' & HU & E). exists h'. split; [exact HU|].
  pose proof (unrolled_end _ _ _ _ _ HU) as He. rewrite length_app, length_insert in He. cbn [length] in He. rewrite Nat.add_1_r in He.
  apply (range_symbol_turn close _ x s n h (y :: u) 0 _ Hc); [rewrite length_app; cbn [length]; lia|reflexivity|].
  intros fuel _. exists (length h). eexists. split.
  - rewrite E, bind_symbol, (proj2 (Z.eqb_neq y (first (range_part_symb P))) Hg), andb_false_r, bind_mret, hop_run by exact He.
    reflexivity.
  - reflexivity.
Qed.

Lemma span_range_turn close p1 p2 A t x s n h r T : number_range P p1 p2 -> closes P true close ->
  h !! n = Some (mkNode p1 r []) -> 0 <= recursion_depth_ s < 65535 -> recursion_depth_ s <> recursion_max_depth P ->
  (forall p h, h !! p = Some (mkNode [] 1 []) -> exists h3 ns c' v' r',
     Alternatives T (opened_heap p (mkNode [] 1 []) h) p (length h) (S (length h)) h3 ns c' v' r' /\
     inner_loop P true (second (range_part_symb P)) A t p [] 1 h (first (range_part_symb P)) s h3 c') ->
  exists h4 c4, (length h < length h4)%nat /\ c4 <> length h /\
    Opened (fun K => rep r (behind [] (flat_map (fun t => behind t (T K)) (span_texts p1 p2))))
      (<[n := mkNode [] r []]> h ++ [mkNode [] 1 []]) n h4 c4 [] 1 /\
    turn P true close
      (at_ (range_symbol P :: p2 ++ first (range_part_symb P) :: A ++ second (range_part_symb P) :: t) x (to n h s))
      (at_ t (second (range_part_symb P)) (to (length h) (hop_heap c4 (length h) h4) s)).
Proof.
  intros Hr Hc Hn Hd Hmax HA. destruct (closes_distinct P Hok _ _ Hc) as (_ & Hg & _).
  assert (Hs : list_stop close (first (range_part_symb P)) = true) by (unfold list_stop; rewrite Z.eqb_refl; apply orb_true_r).
  destruct (list_run (u := A ++ second (range_part_symb P) :: t) (x := x) (s := s) Hr Hc Hs Hn) as (h' & HU & E).
  set (h0 := <[n := mkNode [] r []]> h ++ [mkNode [] 1 []]) in *.
  assert (Hl0 : length h0 = S (length h)) by (unfold h0; rewrite length_app, length_insert; cbn [length]; lia).
  pose proof (lookup_lt_Some _ _ _ Hn) as Hln.
  pose proof (unrolled_end _ _ _ _ _ HU) as He. pose proof (unrolled_length _ _ _ _ _ HU) as Hl'. rewrite Hl0 in He, Hl'.
  destruct (HA (S (length h)) h' He) as (h3 & ns & c' & v' & r' & HAlt & HL).
  pose proof (Opened_group _ _ _ _ _ 1 _ _ _ _ _ He HAlt) as HO.
  rewrite (list_insert_id _ (S (length h))) in HO by exact (group_node _ _ _ _ _ _ _ _ _ _ He HAlt).
  exists (closed_heap c' (S (length h')) v' r' h3), (S (length h')).
  pose proof (opened_node _ _ _ _ _ _ _ HO) as Hf. pose proof (opened_length _ _ _ _ _ _ _ HO) as Hlen.
  split; [unfold closed_heap in *; lia|]. split; [lia|]. split.
  - assert (Hts : span_texts p1 p2 <> []).
    { intros Ets. pose proof (span_texts_length p1 p2) as L. rewrite Ets in L. destruct Hr as (_ & _ & _ & _ & _ & Hle & _).
      cbn [length] in L. lia. }
    assert (Hn0 : (n < length h0)%nat) by lia.
    pose proof (Opened_unrolled _ _ _ _ _ Hn0 Hts HU) as HOu. rewrite Hl0 in HOu.
    eapply Opened_ext; [|eapply Opened_trans; [|exact HOu|exact HO|lia]; lia].
    intros K. cbn beta. f_equal. f_equal. apply flat_map_ext. intros w. now rewrite behind_nil, rep_one.
  - apply (range_symbol_turn close _ x s n h t _ _ Hc); [rewrite !length_app; cbn [length]; rewrite length_app; cbn [length]; lia|reflexivity|].
    intros fuel Hfuel. exists (length h). destruct (HL fuel) as [x' El].
    { cbn [length] in Hfuel. rewrite length_app in Hfuel. cbn [length] in Hfuel. lia. }
    pose proof (subsequence_run P true (second (range_part_symb P)) fuel s (S (length h)) h' [] 1 (first (range_part_symb P)) A
      t 0 h3 c' v' r' x' He Hd Hmax (alternatives_node _ _ _ _ _ _ _ _ _ _ HAlt) El) as Es.
    eexists. split.
    + rewrite E, bind_symbol, (proj2 (Z.eqb_neq (first (range_part_symb P)) close)), Z.eqb_refl by congruence.
      cbn [negb orb andb]. rewrite !bind_assoc. erewrite bind_current by reflexivity.
      unfold subsequence in Es. rewrite bind_assoc, (bind_run _ _ _ _ _ Es), bind_assoc, bind_modify.
      change (with_node (Some ?m) (at_ ?l x' (to c' ?g s))) with (at_ l x' (to m g s)).
      rewrite bind_get, hop_run by exact Hf. reflexivity.
    + reflexivity.
Qed.
End Span.
