(* ===== verification/AnalyzerSpec.v ===== *)
(** * AnalyzerSpec: what the analyzer writes for a description

    The lexemes that a description means are the ones that are written, in order;
    and what becomes of a text with an illegal symbol. *)

From stdpp Require Import base gmap list.
From Stdlib Require Import ZArith List Bool Lia.
From S2P Require Import Prelude Ascii Numbers CompressedSet Analyzer AnalyzerGraph AnalyzerText AnalyzerRun AnalyzerSpan.
Import ListNotations.
Open Scope Z_scope.

Section Spec.
Context (P : AnalyzerParams) (Hok : params_ok P).

(** ** Descriptions *)

(** What follows a range of numbers at the end of an alternative. *)
Definition stops (inrange : bool) (close : Z) (t : list Z) : Prop :=
  inrange = true -> exists y u, t = y :: u /\ (y = close \/ is_range_separator P y = true).

Definition deep (nest : nat) (s : Analyzer) : Prop :=
  0 <= recursion_depth_ s /\ recursion_depth_ s + Z.of_nat nest = recursion_max_depth P.

Definition desc_runs (d : desc) : Prop := forall inrange fresh nest close s c h v r t x,
  wf P inrange fresh nest d -> closes P inrange close -> h !! c = Some (mkNode v r []) -> (fresh = true -> v = []) ->
  deep nest s -> stops inrange close t ->
  exists h' c' v' r' x',
    rtc (turn P inrange close) (at_ (print P d ++ t) x (to c h s)) (at_ t x' (to c' h' s)) /\
    Opened (meaning P d v r) h c h' c' v' r'.

Definition alts_run (a : alts) : Prop := forall inrange nest close s p c0 f h v r cs t x,
  wf_alts P inrange nest a -> closes P inrange close -> h !! p = Some (mkNode v r cs) ->
  h !! c0 = Some (mkNode [] 1 []) -> p <> c0 -> deep nest s ->
  exists h' ns c' v' r', Alternatives (meaning_alts P a) h p c0 f h' ns c' v' r' /\
    forall fuel, (length (print_alts P a ++ close :: t) < fuel)%nat -> exists x',
      loop P inrange close fuel p f (at_ (print_alts P a ++ close :: t) x (to c0 h s)) =
        (at_ (close :: t) x' (to c' h' s), Ret tt).

Lemma deep_pos nest s : deep (S nest) s -> 0 <= recursion_depth_ s < 65535 /\ recursion_depth_ s <> recursion_max_depth P.
Proof. intros [H1 H2]. pose proof (ok_depth P Hok). lia. Qed.

Lemma deep_deeper nest s : deep (S nest) s -> deep nest (deeper s).
Proof. intros [H1 H2]. split; cbn; lia. Qed.

(** The alternatives of a group or range behind the open node [p]. *)
Lemma alts_inner a inrange nest close p v r h y t s : alts_run a -> wf_alts P inrange nest a -> closes P inrange close ->
  h !! p = Some (mkNode v r []) -> deep (S nest) s ->
  exists h3 ns c' v' r',
    Alternatives (meaning_alts P a) (opened_heap p (mkNode v r []) h) p (length h) (S (length h)) h3 ns c' v' r' /\
    inner_loop P inrange close (print_alts P a) t p v r h y s h3 c'.
Proof.
  intros Ha Hw Hc Hp Hd. pose proof (lookup_lt_Some _ _ _ Hp) as Hl.
  destruct (Ha inrange nest close (deeper s) p (length h) (S (length h)) (opened_heap p (mkNode v r []) h) v r [length h] t y)
    as (h3 & ns & c' & v' & r' & HA & HL); try easy.
  - rewrite (opened_heap_lookup p v r h p Hp). now destruct (decide (p = p)).
  - rewrite (opened_heap_lookup p v r h _ Hp). destruct (decide (length h = p)); [lia|].
    destruct (decide (length h < length h)%nat); [lia|]. now destruct (decide _); [|lia].
  - lia.
  - now apply deep_deeper.
  - exists h3, ns, c', v', r'. split; [exact HA|]. intros fuel Hf. now apply HL.
Qed.

(** The digits in front of a range of numbers. *)
Lemma plain_turns inrange close t s c r : closes P inrange close -> forall p, Forall (plain P inrange) p ->
  forall v h x, h !! c = Some (mkNode v r []) -> exists x',
  rtc (turn P inrange close) (at_ (p ++ t) x (to c h s)) (at_ t x' (to c (<[c := mkNode (v ++ p) r []]> h) s)).
Proof.
  intros Hc p Hp. induction Hp as [|y p Hy Hp IH]; intros v h x Hn.
  - exists x. rewrite app_nil_r, list_insert_id by easy. constructor.
  - pose proof (lookup_lt_Some _ _ _ Hn) as Hl.
    destruct (IH (v ++ [y]) (<[c := mkNode (v ++ [y]) r []]> h) y) as [x' R]; [now apply list_lookup_insert_eq|].
    rewrite list_insert_insert_eq, <- app_assoc in R. exists x'. eapply rtc_l; [|exact R]. cbn [app]. now apply plain_turn.
Qed.

Lemma step_runs inrange close t x y s c h c1 h1 T d v1 r1 item :
  turn P inrange close (at_ (item ++ print P d ++ t) x (to c h s)) (at_ (print P d ++ t) y (to c1 h1 s)) ->
  (exists h' c' v' r' x',
    rtc (turn P inrange close) (at_ (print P d ++ t) y (to c1 h1 s)) (at_ t x' (to c' h' s)) /\
    Opened (meaning P d v1 r1) h1 c1 h' c' v' r') ->
  (forall h' c' v' r', Opened (meaning P d v1 r1) h1 c1 h' c' v' r' -> Opened T h c h' c' v' r') ->
  exists h' c' v' r' x',
    rtc (turn P inrange close) (at_ (item ++ print P d ++ t) x (to c h s)) (at_ t x' (to c' h' s)) /\
    Opened T h c h' c' v' r'.
Proof.
  intros Ht (h' & c' & v' & r' & x' & R & O) HT. exists h', c', v', r', x'. split; [|now apply HT].
  eapply rtc_l; [exact Ht|exact R].
Qed.
Lemma End_runs : desc_runs End.
Proof.
  intros inrange fresh nest close s c h v r t x _ _ Hn _ _ _. exists h, c, v, r, x. split; [constructor|].
  now apply Opened_refl.
Qed.

Lemma Plain_runs y d : desc_runs d -> desc_runs (Plain y d).
Proof.
  intros IH inrange fresh nest close s c h v r t x [Hy Hw] Hc Hn Hv Hd Ht. pose proof (lookup_lt_Some _ _ _ Hn) as Hl.
  apply (step_runs _ _ _ _ y s c h c (<[c := mkNode (v ++ [y]) r []]> h) _ d (v ++ [y]) r [y]).
  - cbn [app]. now apply plain_turn.
  - apply (IH inrange false nest); try easy. now apply list_lookup_insert_eq.
  - intros h' c' v' r' O. exact (Opened_set _ _ _ _ _ _ _ _ Hl O).
Qed.

Lemma Ignored_runs y d : desc_runs d -> desc_runs (Ignored y d).
Proof.
  intros IH inrange fresh nest close s c h v r t x (Ho & Hr & Hi & Hw) Hc Hn Hv Hd Ht.
  apply (step_runs _ _ _ _ y s c h c h _ d v r [y]); [|now apply (IH inrange fresh nest)|easy].
  cbn [app]. now apply ignored_turn.
Qed.

Lemma Shield_runs y d : desc_runs d -> desc_runs (Shield y d).
Proof.
  intros IH inrange fresh nest close s c h v r t x [Hi Hw] Hc Hn Hv Hd Ht. pose proof (lookup_lt_Some _ _ _ Hn) as Hl.
  apply (step_runs _ _ _ _ y s c h c (<[c := mkNode (v ++ shield_text P y) r []]> h) _ d (v ++ shield_text P y) r
    [shield_symbol P; y]).
  - cbn [app]. now apply shield_turn.
  - apply (IH inrange false nest); try easy. now apply list_lookup_insert_eq.
  - intros h' c' v' r' O. exact (Opened_set _ _ _ _ _ _ _ _ Hl O).
Qed.

Lemma Times_runs n d : desc_runs d -> desc_runs (Times n d).
Proof.
  intros IH inrange fresh nest close s c h v r t x [Hi Hw] Hc Hn Hv Hd Ht. pose proof (lookup_lt_Some _ _ _ Hn) as Hl.
  cbn [print]. rewrite <- app_assoc.
  apply (step_runs _ _ _ _ (second (num_retries_symb P)) s c h c (<[c := mkNode v (wrapu 16 (r * dec_from 0 n)) []]> h) _ d
    v (wrapu 16 (r * dec_from 0 n))).
  - now apply times_turn.
  - apply (IH inrange fresh nest); try easy. now apply list_lookup_insert_eq.
  - intros h' c' v' r' O. exact (Opened_set _ _ _ _ _ _ _ _ Hl O).
Qed.

Lemma Group_runs a n d : alts_run a -> desc_runs d -> desc_runs (Group a n d).
Proof.
  intros IHa IH inrange fresh nest close s c h v r t x (Hf & Hi & Hwa & Hw) Hc Hn Hv Hd Ht.
  destruct nest as [|nest]; [easy|]. rewrite (Hv Hf) in *. clear v Hv. pose proof (lookup_lt_Some _ _ _ Hn) as Hl.
  destruct (deep_pos _ _ Hd) as [Hd1 Hd2].
  destruct (alts_inner a inrange nest (second (retry_part_symb P)) c [] r h (first (retry_part_symb P)) (times_text P n ++ print P d ++ t) s IHa Hwa)
    as (h3 & ns & c' & v' & r' & HA & HL); try easy; [now left|].
  pose proof (Opened_group _ _ _ _ _ (wrapu 16 (r * dec_from 0 n)) _ _ _ _ _ Hn HA) as HO.
  pose proof (opened_node _ _ _ _ _ _ _ HO) as Hf2.
  replace (print P (Group a n d) ++ t) with
    ((first (retry_part_symb P) :: print_alts P a ++ second (retry_part_symb P) :: times_text P n) ++ print P d ++ t)
    by (cbn [print app]; repeat (rewrite <- !app_assoc; cbn [app]); reflexivity).
  eapply step_runs.
  - cbn [app]. rewrite <- app_assoc, <- app_comm_cons. now apply (group_turn P Hok inrange close _ n _ _ _ _ _ _ _ _ ns _ v' r' Hi Hc Hn Hd1 Hd2 HA).
  - apply (IH inrange true (S nest)); try easy. exact Hf2.
  - intros h2 c2 v2 r2 O. cbn [meaning]. eapply Opened_ext; [|eapply Opened_trans; [|exact HO|exact O|exact Hl]; lia].
    reflexivity.
Qed.

Lemma Range_runs a d : alts_run a -> desc_runs d -> desc_runs (Range a d).
Proof.
  intros IHa IH inrange fresh nest close s c h v r t x (Hwa & Hw) Hc Hn Hv Hd Ht.
  destruct nest as [|nest]; [easy|]. pose proof (lookup_lt_Some _ _ _ Hn) as Hl.
  destruct (deep_pos _ _ Hd) as [Hd1 Hd2].
  destruct (alts_inner a true nest (second (range_part_symb P)) c v r h (first (range_part_symb P)) (print P d ++ t) s IHa Hwa)
    as (h3 & ns & c' & v' & r' & HA & HL); try easy; [now right|].
  pose proof (Opened_group _ _ _ _ _ r _ _ _ _ _ Hn HA) as HO.
  pose proof (opened_node _ _ _ _ _ _ _ HO) as Hf2.
  replace (print P (Range a d) ++ t) with
    ((first (range_part_symb P) :: print_alts P a ++ [second (range_part_symb P)]) ++ print P d ++ t)
    by (cbn [print app]; repeat (rewrite <- !app_assoc; cbn [app]); reflexivity).
  eapply step_runs.
  - cbn [app]. rewrite <- app_assoc. cbn [app]. now apply (range_turn P Hok inrange close _ _ _ _ _ _ _ _ _ _ ns _ v' r' Hc Hn Hd1 Hd2 HA).
  - apply (IH inrange true (S nest)); try easy. exact Hf2.
  - intros h2 c2 v2 r2 O. cbn [meaning]. eapply Opened_ext; [|eapply Opened_trans; [|exact HO|exact O|exact Hl]; lia].
    reflexivity.
Qed.
Lemma range_plain p1 p2 : number_range P p1 p2 -> Forall (plain P true) p1.
Proof. now intros (_ & _ & _ & H & _). Qed.

Lemma Span_runs p1 p2 : desc_runs (Span p1 p2).
Proof.
  intros inrange fresh nest close s c h v r t x (-> & Hf & Hr) Hc Hn Hv Hd Ht. rewrite (Hv Hf) in *.
  pose proof (lookup_lt_Some _ _ _ Hn) as Hl. destruct (Ht eq_refl) as (y & u & -> & Hy).
  cbn [print]. rewrite <- app_assoc. cbn [app].
  destruct (plain_turns true close (range_symbol P :: p2 ++ y :: u) s c r Hc p1 (range_plain _ _ Hr) [] h x Hn) as [x' R].
  assert (Hn1 : <[c := mkNode p1 r []]> h !! c = Some (mkNode p1 r [])) by now apply list_lookup_insert_eq.
  destruct (span_turn P Hok close p1 p2 y u x' s c _ r Hr Hc Hy Hn1) as (h' & HU & Ht').
  rewrite list_insert_insert_eq, length_insert in *.
  exists (hop_heap (S (length h)) (length h) h'), (length h), [], 1, 0. split.
  - eapply rtc_r; [exact R|exact Ht'].
  - assert (Hts : span_texts p1 p2 <> []).
    { intros Ets. pose proof (span_texts_length p1 p2) as L. rewrite Ets in L. destruct Hr as (_ & _ & _ & _ & _ & Hle & _).
      cbn [length] in L. lia. }
    apply (Opened_set _ _ _ (mkNode [] r []) _ _ _ _ Hl).
    assert (Hl2 : (c < length (<[c := mkNode [] r []]> h ++ [mkNode [] 1 []]))%nat)
      by (rewrite length_app, length_insert; cbn [length]; lia).
    pose proof (Opened_unrolled c r _ _ _ Hl2 Hts HU) as O.
    rewrite length_app, length_insert, Nat.add_1_r in O.
    apply Opened_hop in O; [|now rewrite length_insert]. rewrite length_insert in O.
    apply (Opened_ext (fun K => rep r (behind [] (flat_map (fun t => behind t K) (span_texts p1 p2))))).
    { intros K. cbn [meaning]. now rewrite behind_nil. }
    exact O.
Qed.

Lemma SpanRange_runs p1 p2 a d : alts_run a -> desc_runs d -> desc_runs (SpanRange p1 p2 a d).
Proof.
  intros IHa IH inrange fresh nest close s c h v r t x (-> & Hf & Hr & Hwa & Hw) Hc Hn Hv Hd Ht.
  destruct nest as [|nest]; [easy|]. rewrite (Hv Hf) in *. pose proof (lookup_lt_Some _ _ _ Hn) as Hl.
  destruct (deep_pos _ _ Hd) as [Hd1 Hd2].
  replace (print P (SpanRange p1 p2 a d) ++ t) with (p1 ++ range_symbol P :: p2 ++ first (range_part_symb P) ::
    print_alts P a ++ second (range_part_symb P) :: print P d ++ t)
    by (cbn [print]; repeat (rewrite <- !app_assoc; cbn [app]); reflexivity).
  destruct (plain_turns true close (range_symbol P :: p2 ++ first (range_part_symb P) :: print_alts P a ++
    second (range_part_symb P) :: print P d ++ t) s c r Hc p1 (range_plain _ _ Hr) [] h x Hn) as [x' R].
  assert (Hn1 : <[c := mkNode p1 r []]> h !! c = Some (mkNode p1 r [])) by now apply list_lookup_insert_eq.
  destruct (span_range_turn P Hok close p1 p2 (print_alts P a) (print P d ++ t) x' s c _ r (meaning_alts P a) Hr Hc Hn1 Hd1 Hd2)
    as (h4 & c4 & Hlen & Hne & HO & Hturn).
  { intros q g Hq. apply (alts_inner a true nest); try easy. now right. }
  rewrite list_insert_insert_eq, length_insert in *.
  assert (Hl2 : (c < length (<[c := mkNode [] r []]> h))%nat) by now rewrite length_insert.
  apply (Opened_hop _ _ _ _ _ Hl2) in HO. rewrite length_insert in HO.
  destruct (IH true true (S nest) close s (length h) (hop_heap c4 (length h) h4) [] 1 t (second (range_part_symb P)))
    as (h' & c' & v' & r' & x2 & R2 & O2); try easy; [apply (opened_node _ _ _ _ _ _ _ HO)|].
  exists h', c', v', r', x2. split.
  - etransitivity; [exact R|]. eapply rtc_l; [exact Hturn|exact R2].
  - apply (Opened_set _ _ _ (mkNode [] r []) _ _ _ _ Hl). cbn [meaning].
    eapply Opened_ext; [|eapply Opened_trans; [|exact HO|exact O2|exact Hl2]; now rewrite length_insert].
    intros K. cbn beta. now rewrite behind_nil.
Qed.

Lemma One_run d : desc_runs d -> alts_run (One d).
Proof.
  intros IH inrange nest close s p c0 f h v r cs t x Hw Hc Hp Hc0 Hne Hd.
  pose proof (lookup_lt_Some _ _ _ Hp) as Hl.
  destruct (IH inrange true nest close s c0 h [] 1 (close :: t) x Hw Hc Hc0) as (h' & c' & v' & r' & x' & R & O); try easy.
  { intros _. exists close, t. tauto. }
  exists h', [], c', v', r'. split; [now apply Alternatives_one|]. intros fuel Hf. cbn [print_alts] in *.
  destruct (loop_turns P inrange close p f _ _ Hc R fuel) as (fuel' & Hf' & ->); [now rewrite remaining_at|].
  exists x'. apply loop_close; [easy|lia].
Qed.

Lemma loop_separator inrange close fuel p f y run t x s c h v r w q cs : closes P inrange close ->
  separator_run P inrange (y :: run) -> begins P inrange t ->
  h !! c = Some (mkNode v r []) -> h !! p = Some (mkNode w q cs) -> p <> c ->
  exists x', loop P inrange close (S fuel) p f (at_ ((y :: run) ++ t) x (to c h s)) =
    loop P inrange close fuel p f (at_ t x' (to (length h) (next_heap p c f v r (mkNode w q cs) h) s)).
Proof.
  intros Hc Hr Ht Hn Hp Hne. destruct (closes_distinct P Hok _ _ Hc) as (_ & _ & _ & _ & _ & Hs & _).
  destruct (close_alternative_run P Hok inrange p f (y :: run) t x s c h v r w q cs) as [x' E]; try easy. exists x'.
  assert (Hy : separator P inrange y = true) by apply Hr.
  assert (Hyc : y <> close) by congruence. unfold loop. destruct inrange; cbn [range_loop char_loop app separator] in *;
    rewrite bind_good, bind_symbol.
  - rewrite (proj2 (Z.eqb_neq _ _) Hyc). cbn [andb negb]. rewrite Hy. change (is_range_separator P) with (separator P true).
    now rewrite (bind_run _ _ _ _ _ E).
  - destruct Hc as [->|[[=] _]]. rewrite (proj2 (Z.eqb_neq _ _) Hyc). cbn [andb negb]. rewrite Hy.
    change (is_main_separator P) with (separator P false). now rewrite (bind_run _ _ _ _ _ E).
Qed.
Lemma Next_run d separators a : desc_runs d -> alts_run a -> alts_run (Next d separators a).
Proof.
  intros IH IHa inrange nest close s p c0 f h v r cs t x (Hw & Hr & Hb & Hwa) Hc Hp Hc0 Hne Hd.
  pose proof (lookup_lt_Some _ _ _ Hp) as Hl. pose proof (lookup_lt_Some _ _ _ Hc0) as Hl0.
  destruct separators as [|y more]; [easy|].
  destruct (IH inrange true nest close s c0 h [] 1 ((y :: more) ++ print_alts P a ++ close :: t) x Hw Hc Hc0)
    as (h1 & c1 & v1 & r1 & x1 & R & O); try easy.
  { intros ->. exists y, (more ++ print_alts P a ++ close :: t). split; [easy|]. right. apply Hr. }
  pose proof (opened_node _ _ _ _ _ _ _ O) as Hc1. pose proof (opened_frame _ _ _ _ _ _ _ O p Hne Hl) as Hp1. rewrite Hp in Hp1.
  pose proof (opened_current _ _ _ _ _ _ _ O) as Hcur. unfold within in Hcur.
  pose proof (opened_length _ _ _ _ _ _ _ O) as Hlen. pose proof (lookup_lt_Some _ _ _ Hc1) as Hl1.
  assert (Hne1 : p <> c1) by lia.
  destruct (IHa inrange nest close s p (length h1) f (next_heap p c1 f v1 r1 (mkNode v r cs) h1) v r (cs ++ [length h1]) t x1)
    as (h' & ns & c' & v' & r' & HA & HL); try easy.
  - apply (next_heap_start p c1 f v1 r1 (mkNode v r cs) h1). lia.
  - apply next_heap_new. lia.
  - lia.
  - exists h', (length h1 :: ns), c', v', r'. split.
    + cbn [meaning_alts]. eapply Alternatives_next; try eassumption.
    + intros fuel Hf.
      replace (print_alts P (Next d (y :: more) a) ++ close :: t) with (print P d ++ (y :: more) ++ print_alts P a ++ close :: t)
        in * by (cbn [print_alts]; now rewrite <- !app_assoc).
      destruct (loop_turns P inrange close p f _ _ Hc R fuel) as (fuel' & Hf' & ->); [now rewrite remaining_at|].
      rewrite remaining_at, length_app in Hf'. destruct fuel' as [|fuel']; [lia|].
      assert (Hb2 : begins P inrange (print_alts P a ++ close :: t)).
      { destruct (print_alts P a); [|exact Hb]. destruct (closes_distinct P Hok _ _ Hc) as (_ & _ & _ & _ & _ & H). exact H. }
      destruct (loop_separator inrange close fuel' p f y more (print_alts P a ++ close :: t) x1 s c1 h1 v1 r1 v r cs Hc Hr Hb2 Hc1 Hp1 Hne1)
        as [x2 E]. rewrite E.
      assert (Hx : exists z u, print_alts P a ++ close :: t = z :: u) by (destruct (print_alts P a); eauto).
      destruct Hx as (z & u & Hx). rewrite Hx in *.
      change (at_ (z :: u) x2) with (at_ (z :: u) x1). apply HL. cbn [length] in *. lia.
Qed.

Lemma descriptions_run : (forall d, desc_runs d) /\ (forall a, alts_run a).
Proof.
  apply desc_alts_ind; auto using End_runs, Plain_runs, Ignored_runs, Shield_runs, Times_runs, Group_runs, Range_runs,
    Span_runs, SpanRange_runs, One_run, Next_run.
Qed.

(** ** Sequences *)

(** A description that is read in an analyzer with a tree, up to a separator, the
    end, or an illegal symbol. *)
Lemma sequence_turn close s s1 n fuel : turn P false close s s1 -> cur_lexeme_tree_ s = Some n ->
  char_sequence_loop P (S fuel) s = char_sequence_loop P fuel s1.
Proof.
  intros [G C Sp Ht L B] Hn. cbn [char_sequence_loop]. unfold good_. rewrite !bind_member, G.
  cbn [separator] in Sp. rewrite Sp.
  assert (E : one_symbol (recognize_symbol P (char_loop P (enough s)) (range_loop P (enough s))) s = (s1, Ret tt)).
  { unfold one_symbol. rewrite bind_member, Hn, bind_mret. specialize (B (enough s)). unfold body in B.
    rewrite bind_member in B. apply B. unfold remaining, enough. rewrite G. lia. }
  unfold try_noncritical, mbind, M_bind. rewrite E. reflexivity.
Qed.

Lemma sequence_turns close s s' : rtc (turn P false close) s s' -> forall n fuel,
  cur_lexeme_tree_ s = Some n -> (remaining s < fuel)%nat ->
  exists fuel', (remaining s' < fuel')%nat /\ char_sequence_loop P fuel s = char_sequence_loop P fuel' s'.
Proof.
  induction 1 as [s|s s1 s' T R IH]; intros n fuel Hn Hf; [eauto|].
  destruct fuel as [|fuel]; [lia|]. rewrite (sequence_turn _ _ _ _ _ T Hn).
  pose proof (turn_less _ _ _ _ _ T). apply (IH n); [now rewrite (turn_tree _ _ _ _ _ T)|lia].
Qed.

(** The analyzer between two lexemes: [w] is written. *)
Definition idle (s : Analyzer) : Prop := cur_lexeme_tree_ s = None /\ recursion_depth_ s = 0.

(** With a tree of one open node. *)
Definition begun (s : Analyzer) : Analyzer :=
  to (length (heap s)) (heap s ++ [mkNode [] 1 []]) (with_tree (Some (length (heap s))) s).

Lemma sequence_begin c u x s fuel : idle s -> is_main_separator P c = false ->
  char_sequence_loop P (S fuel) (at_ (c :: u) x s) = char_sequence_loop P (S fuel) (at_ (c :: u) x (begun s)).
Proof.
  intros [Ht _] Hc. cbn [char_sequence_loop]. rewrite !bind_good, !bind_symbol, !bind_member, Hc.
  change (enough (at_ (c :: u) x (begun s))) with (enough (at_ (c :: u) x s)). unfold mbind, M_bind, try_noncritical.
  unfold one_symbol. rewrite !bind_member. change (cur_lexeme_tree_ (at_ (c :: u) x s)) with (cur_lexeme_tree_ s). rewrite Ht.
  reflexivity.
Qed.
(** After a lexeme was written: the graph is garbage. *)
Definition finished (c' : nat) (h' : graph) (ws : lexemes) (s : Analyzer) : Analyzer :=
  with_tree None (with_written (written s ++ ws) (to c' h' s)).

Lemma flush_run d c' h' v' r' t x s :
  Opened (meaning P d [] 1) (heap s ++ [mkNode [] 1 []]) (length (heap s)) h' c' v' r' ->
  flush_tree (at_ t x (to c' h' (with_tree (Some (length (heap s))) s))) =
    (at_ t x (finished c' h' (lexemes_of P d) s), Ret tt).
Proof.
  intros [L F C N D]. unfold flush_tree. rewrite bind_member.
  change (cur_lexeme_tree_ (at_ t x _)) with (Some (length (heap s))). unfold interprete_and_flush_tree.
  rewrite bind_assoc, bind_member. change (cur_lexeme_tree_ (at_ t x _)) with (Some (length (heap s))).
  rewrite bind_assoc. cbn [deref]. rewrite bind_mret, bind_assoc, bind_member.
  change (heap (at_ t x (to c' h' _))) with h'.
  assert (Dn : denotes h' (1 + (length h' - length (heap s ++ [mkNode [] 1 []]))) (length (heap s)) (meaning P d [] 1 [[]])).
  { apply D; [easy|]. constructor. exact N. }
  rewrite length_app in Dn. cbn [length] in Dn.
  rewrite (flush_denotes _ _ _ _ Dn) by (rewrite length_app in L; cbn [length] in L; lia).
  rewrite behind_nil, bind_assoc, bind_lift, bind_modify. reflexivity.
Qed.

Lemma flush_idle t x s : cur_lexeme_tree_ s = None -> flush_tree (at_ t x s) = (at_ t x s, Ret tt).
Proof.
  intros H. unfold flush_tree. rewrite bind_member. change (cur_lexeme_tree_ (at_ t x s)) with (cur_lexeme_tree_ s).
  now rewrite H.
Qed.

(** The separators between two lexemes. *)
Lemma separators_run fuel run t x s s2 : separator_run P false run -> begins P false t ->
  (forall x, flush_tree (at_ (run ++ t) x s) = (at_ (run ++ t) x s2, Ret tt)) ->
  exists x', char_sequence_loop P (S fuel) (at_ (run ++ t) x s) = char_sequence_loop P fuel (at_ t x' s2).
Proof.
  intros Hr Ht Hf. destruct run as [|y more]; [easy|]. pose proof Hr as [Hy Hmore]. cbn [separator] in *.
  destruct (skip_at (fun c => is_main_separator P c || is_ignored P c) (y :: more) t x s2) as [x' E].
  { constructor; [now rewrite Hy|exact Hmore]. }
  { destruct t as [|z t]; [easy|]. destruct Ht as [Ht1 Ht2]. cbn [separator] in Ht1. now rewrite Ht1, Ht2. }
  exists x'. cbn [char_sequence_loop app]. rewrite bind_good, bind_symbol, bind_member, Hy.
  assert (Hn : exists n, enough (at_ (y :: more ++ t) x s) = S n) by (unfold enough; rewrite Nat.add_comm; eauto).
  destruct Hn as [n ->].
  rewrite (bind_run (separator_loop P (S n)) _ _ (at_ t x' s2) tt); [reflexivity|].
  cbn [separator_loop]. rewrite (bind_run _ _ _ _ _ (Hf x)). unfold pass_separator_symbols_. rewrite (ok_successive P Hok).
  rewrite bind_assoc, (bind_run _ _ _ _ _ E), bind_mret. reflexivity.
Qed.

Lemma loop_end fuel x s : (0 < fuel)%nat -> char_sequence_loop P fuel (at_ [] x s) = (at_ [] x s, Ret tt).
Proof. intros H. destruct fuel; [lia|]. reflexivity. Qed.

Definition top_nest : nat := Z.to_nat (recursion_max_depth P).

Definition top_desc (d : desc) : Prop := wf P false true top_nest d /\ begins P false (print P d).

(** A lexeme from its first symbol on. *)
Lemma lexeme_run d t x s fuel : top_desc d -> print P d <> [] -> idle s -> (length (print P d ++ t) < fuel)%nat ->
  exists fuel' x' h' c' v' r', (length t < fuel')%nat /\
    char_sequence_loop P fuel (at_ (print P d ++ t) x s) =
      char_sequence_loop P fuel' (at_ t x' (to c' h' (with_tree (Some (length (heap s))) s))) /\
    Opened (meaning P d [] 1) (heap s ++ [mkNode [] 1 []]) (length (heap s)) h' c' v' r'.
Proof.
  intros [Hw Hb] Hn Hs Hf. destruct (proj1 descriptions_run d false true top_nest (second (retry_part_symb P))
    (with_tree (Some (length (heap s))) s) (length (heap s)) (heap s ++ [mkNode [] 1 []]) [] 1 t x Hw)
    as (h' & c' & v' & r' & x' & R & O); try easy.
  - now left.
  - apply lookup_new.
  - destruct Hs as [_ Hd]. pose proof (ok_depth P Hok). unfold deep, top_nest. cbn. rewrite Hd. lia.
  - destruct (print P d) as [|c u] eqn:E; [easy|]. destruct fuel as [|fuel]; [lia|].
    cbn [app] in *. rewrite (sequence_begin c (u ++ t) x s fuel Hs (proj1 Hb)).
    destruct (sequence_turns _ _ _ R (length (heap s)) (S fuel)) as (fuel' & Hf' & Ef); [reflexivity|now rewrite remaining_at|].
    rewrite remaining_at in Hf'. exists fuel', x', h', c', v', r'. split; [exact Hf'|]. split; [exact Ef|exact O].
Qed.

Definition sequence_text (l : list (desc * list Z)) : list Z := List.flat_map (fun '(d, run) => print P d ++ run) l.

Definition sequence_ok (l : list (desc * list Z)) : Prop :=
  List.Forall (fun '(d, run) => top_desc d /\ print P d <> [] /\ separator_run P false run) l.

Definition sequence_lexemes (l : list (desc * list Z)) : lexemes := List.flat_map (fun '(d, _) => lexemes_of P d) l.

Lemma sequence_run l t : sequence_ok l -> begins P false t -> forall x s fuel,
  idle s -> (length (sequence_text l ++ t) < fuel)%nat -> exists fuel' x' s', (length t < fuel')%nat /\
    char_sequence_loop P fuel (at_ (sequence_text l ++ t) x s) = char_sequence_loop P fuel' (at_ t x' s') /\
    idle s' /\ written s' = written s ++ sequence_lexemes l.
Proof.
  intros Hl Ht. induction Hl as [|[d run] l (Hd & Hn & Hr) Hl IH]; intros x s fuel Hs Hf.
  - exists fuel, x, s. cbn in *. rewrite app_nil_r. repeat split; try easy; apply Hs.
  - cbn [sequence_text List.flat_map] in *. fold (sequence_text l) in *. rewrite <- !app_assoc in *.
    destruct (lexeme_run d (run ++ sequence_text l ++ t) x s fuel Hd Hn Hs Hf) as (fuel1 & x1 & h' & c' & v' & r' & Hf1 & -> & O).
    assert (Hb : begins P false (sequence_text l ++ t)).
    { destruct Hl as [|[d2 run2] l2 ((_ & Hb2) & Hn2 & _)]; [exact Ht|]. cbn [sequence_text List.flat_map].
      destruct (print P d2); [easy|exact Hb2]. }
    destruct fuel1 as [|fuel1]; [lia|].
    destruct (separators_run fuel1 run (sequence_text l ++ t) x1 _ (finished c' h' (lexemes_of P d) s) Hr Hb
      (fun x => flush_run d c' h' v' r' _ x s O)) as [x2 ->].
    destruct (IH x2 (finished c' h' (lexemes_of P d) s) fuel1) as (fuel' & x' & s' & Hf' & E & Hs' & Hw').
    + split; [easy|apply Hs].
    + rewrite length_app in Hf1. destruct run; [easy|]. cbn [length] in Hf1. lia.
    + exists fuel', x', s'. split; [exact Hf'|]. split; [exact E|]. split; [exact Hs'|]. rewrite Hw'.
      cbn [sequence_lexemes List.flat_map]. now rewrite app_assoc.
Qed.
Definition leading (run : list Z) : Prop := run = [] \/ separator_run P false run.

Lemma leading_run run t x s fuel : leading run -> begins P false t -> idle s -> (length (run ++ t) < fuel)%nat ->
  exists fuel' x', (length t < fuel')%nat /\
    char_sequence_loop P fuel (at_ (run ++ t) x s) = char_sequence_loop P fuel' (at_ t x' s).
Proof.
  intros [->|Hr] Ht [Hs _] Hf; [now exists fuel, x|]. destruct fuel as [|fuel]; [lia|].
  destruct (separators_run fuel run t x s s Hr Ht (fun x => flush_idle _ x s Hs)) as [x' E]. exists fuel, x'. split; [|exact E].
  rewrite length_app in Hf. destruct run; [easy|]. cbn [length] in Hf. lia.
Qed.

Lemma start_run (loop : nat -> M unit) text x s :
  s = start_state text x -> process_sequence loop s =
  (loop (enough (at_ text x (start_state [] 0)));; flush_tree) (at_ text x (start_state [] 0)).
Proof. intros ->. unfold process_sequence, start_state. destruct text; reflexivity. Qed.

Lemma enough_at t x s : (length t < enough (at_ t x s))%nat.
Proof. unfold enough. destruct t; cbn; lia. Qed.

Lemma begins_sequence l t : sequence_ok l -> begins P false t -> begins P false (sequence_text l ++ t).
Proof.
  intros Hl Ht. destruct Hl as [|[d run] l ((_ & Hb) & Hn & _)]; [exact Ht|]. cbn [sequence_text List.flat_map].
  destruct (print P d); [easy|exact Hb].
Qed.

(** The lexemes of the description at the end of the text, if there is one. *)
Definition last_lexemes (d : desc) : lexemes := match print P d with [] => [] | _ => lexemes_of P d end.

Lemma process_lexemes lead l d symbol : leading lead -> sequence_ok l -> top_desc d ->
  exists s, process_char_sequence P (start_state (lead ++ sequence_text l ++ print P d) symbol) = (s, Ret tt) /\
    written s = sequence_lexemes l ++ last_lexemes d.
Proof.
  intros Hlead Hl Hd. unfold process_char_sequence. rewrite (ok_mode P Hok). cbn [negb].
  rewrite (start_run _ _ symbol _ eq_refl). set (s0 := start_state [] 0).
  assert (H0 : idle s0) by easy.
  destruct (leading_run lead (sequence_text l ++ print P d) symbol s0 (enough (at_ (lead ++ sequence_text l ++ print P d) symbol s0))
    Hlead (begins_sequence _ _ Hl (proj2 Hd)) H0 (enough_at _ _ _)) as (f1 & x1 & Hf1 & E1).
  destruct (sequence_run l (print P d) Hl (proj2 Hd) x1 s0 f1 H0 Hf1) as (f2 & x2 & s2 & Hf2 & E2 & H2 & W2).
  rewrite E2 in E1. change (written s0) with (@nil (list Z)) in W2. cbn [app] in W2.
  unfold mbind, M_bind. rewrite E1. clear E1 E2. destruct (list_eq_nil_dec (print P d)) as [Ed|Ed].
  - unfold last_lexemes. rewrite Ed in *. rewrite loop_end by (cbn in Hf2; lia). rewrite flush_idle by apply H2.
    eexists. split; [reflexivity|]. now rewrite app_nil_r.
  - rewrite <- (app_nil_r (print P d)) in Hf2 |- *.
    destruct (lexeme_run d [] x2 s2 f2 Hd Ed H2 Hf2) as (f3 & x3 & h' & c' & v' & r' & Hf3 & -> & O).
    rewrite loop_end by (cbn in Hf3; lia). rewrite (flush_run _ _ _ _ _ _ _ _ O). eexists. split; [reflexivity|].
    cbn. rewrite W2. unfold last_lexemes. now destruct (print P d).
Qed.

(** ** Errors *)

Definition illegal (c : Z) : Prop := ordinary P false c /\ regular P false c = false /\ is_ignored P c = false.

Lemma recognize_illegal c u x n h s fuel : illegal c ->
  recognize P false fuel (at_ (c :: u) x (to n h s)) = (at_ (c :: u) x (to n h s), Throw NoncriticalException).
Proof.
  intros ((Hsp & _ & _) & Hr & Hi). pose proof (not_special P c Hsp) as (D1 & D2 & D3 & D4 & D5 & D6).
  rewrite (recognize_symbol_run P Hok), !(proj2 (Z.eqb_neq c _)) by easy. now rewrite Hr, Hi.
Qed.

(** When the last symbol is a separator, the handler of an error reads on and on. *)
Lemma skip_or_ended p x s : p x = true -> forall fuel, exists s', skip_or_loop fuel p (at_ [] x s) = (s', Undef).
Proof.
  intros Hx fuel. assert (G : forall fuel s', good (istr s') = false -> p (current_symbol_ s') = true ->
    exists s'', skip_or_loop fuel p s' = (s'', Undef)).
  { clear fuel. induction fuel as [|fuel IH]; intros s' Hg Hc; [now exists s'|]. cbn [skip_or_loop]. unfold good_.
    rewrite !bind_member, Hg, Hc. cbn [orb]. unfold mbind, M_bind, get, stream_get. rewrite Hg. cbn [fst snd].
    apply IH; [|exact Hc]. apply andb_false_iff. now right. }
  now apply G.
Qed.

Lemma last_cons {A} (t : list A) : forall c x, List.last (c :: t) x = List.last t c.
Proof.
  induction t as [|d t IH]; intros c x; [easy|]. change (List.last (c :: d :: t) x) with (List.last (d :: t) x). now rewrite !IH.
Qed.

Lemma skip_or_run p t : forall x s fuel, (length t < fuel)%nat ->
  skip_or_loop fuel p (at_ t x s) =
    if p (List.last t x) then (fst (skip_or_loop (fuel - length t) p (at_ [] (List.last t x) s)), Undef)
    else (at_ [] (List.last t x) s, Ret tt).
Proof.
  induction t as [|c t IH]; intros x s fuel Hf; (destruct fuel as [|fuel]; [lia|]).
  - cbn [List.last length Nat.sub]. destruct (p x) eqn:Hx.
    + destruct (skip_or_ended p x s Hx (S fuel)) as [s' E]. now rewrite E.
    + cbn [skip_or_loop]. unfold good_. rewrite !bind_member. change (current_symbol_ (at_ [] x s)) with x.
      change (good (istr (at_ [] x s))) with false. now rewrite Hx.
  - cbn [length] in *. rewrite Nat.sub_succ. rewrite last_cons.
    rewrite <- IH by lia. cbn [skip_or_loop]. rewrite bind_good, bind_symbol. cbn [orb]. now rewrite bind_get.
Qed.

(** After an error in the lexeme of the graph that [s] has. *)
Definition dropped (s : Analyzer) : Analyzer := with_depth 0 (with_node None (with_tree None (with_warning s))).

Lemma error_run c t x n h s fuel : illegal c -> cur_lexeme_tree_ s <> None ->
  exists s' r, char_sequence_loop P (S (S fuel)) (at_ (c :: t) x (to n h s)) = (s', r) /\
    if is_main_separator P (List.last t c) then r = Undef
    else r = Ret tt /\ cur_lexeme_tree_ s' = None /\ written s' = written s.
Proof.
  intros Hc Hs. pose proof Hc as ((_ & Hsep & _) & _). cbn [separator] in Hsep.
  set (s0 := at_ (c :: t) x (to n h s)).
  assert (E : one_symbol (recognize_symbol P (char_loop P (enough s0)) (range_loop P (enough s0))) s0 = (s0, Throw NoncriticalException)).
  { unfold one_symbol. rewrite bind_member. change (cur_lexeme_tree_ s0) with (cur_lexeme_tree_ s).
    destruct (cur_lexeme_tree_ s); [|easy]. rewrite bind_mret. apply bind_throw, (recognize_illegal c t x n h s (enough s0) Hc). }
  change (S (S fuel)) with (1 + (S fuel))%nat. cbn [Nat.add]. cbn [char_sequence_loop].
  subst s0. rewrite bind_good, bind_symbol, bind_member, Hsep. set (s0 := at_ (c :: t) x (to n h s)) in *.
  assert (R : recover_char P s0 = skip_or_loop (enough s0) (is_main_separator P) (at_ (c :: t) x (dropped (to n h s)))) by reflexivity.
  rewrite skip_or_run in R by apply enough_at. rewrite last_cons in R.
  unfold try_noncritical, mbind, M_bind. rewrite E, R. destruct (is_main_separator P (List.last t c)); [eauto|].
  eexists _, _. split; [reflexivity|]. now repeat split.
Qed.

Lemma process_error lead l d c t symbol : leading lead -> sequence_ok l -> top_desc d -> illegal c ->
  exists s r, process_char_sequence P (start_state (lead ++ sequence_text l ++ print P d ++ c :: t) symbol) = (s, r) /\
    if is_main_separator P (List.last t c) then r = Undef else r = Ret tt /\ written s = sequence_lexemes l.
Proof.
  intros Hlead Hl Hd Hc. unfold process_char_sequence. rewrite (ok_mode P Hok). cbn [negb].
  rewrite (start_run _ _ symbol _ eq_refl). set (s0 := start_state [] 0).
  assert (H0 : idle s0) by easy.
  assert (Hb : begins P false (print P d ++ c :: t)).
  { pose proof Hc as ((_ & Hs & _) & _ & Hi). pose proof (proj2 Hd) as Hb. now destruct (print P d). }
  destruct (leading_run lead (sequence_text l ++ print P d ++ c :: t) symbol s0
    (enough (at_ (lead ++ sequence_text l ++ print P d ++ c :: t) symbol s0))
    Hlead (begins_sequence _ _ Hl Hb) H0 (enough_at _ _ _)) as (f1 & x1 & Hf1 & E1).
  destruct (sequence_run l (print P d ++ c :: t) Hl Hb x1 s0 f1 H0 Hf1) as (f2 & x2 & s2 & Hf2 & E2 & H2 & W2).
  rewrite E2 in E1. change (written s0) with (@nil (list Z)) in W2. cbn [app] in W2.
  assert (G : exists f x' n h s3, (2 <= f)%nat /\ cur_lexeme_tree_ s3 <> None /\ written s3 = written s2 /\
    char_sequence_loop P f2 (at_ (print P d ++ c :: t) x2 s2) = char_sequence_loop P f (at_ (c :: t) x' (to n h s3))).
  { destruct (list_eq_nil_dec (print P d)) as [Ed|Ed].
    - rewrite Ed in *. destruct f2 as [|f2]; [cbn in Hf2; lia|]. cbn [app] in *.
      exists (S f2), x2, (length (heap s2)), (heap s2 ++ [mkNode [] 1 []]), (with_tree (Some (length (heap s2))) s2).
      split; [cbn in Hf2; lia|]. split; [easy|]. split; [easy|]. apply sequence_begin; [easy|apply Hc].
    - destruct (lexeme_run d (c :: t) x2 s2 f2 Hd Ed H2 Hf2) as (f3 & x3 & h' & c' & v' & r' & Hf3 & E & _).
      exists f3, x3, c', h', (with_tree (Some (length (heap s2))) s2). cbn in Hf3. split; [lia|]. easy. }
  destruct G as (f & x' & n & h & s3 & Hf & Ht & Hw & E3). destruct f as [|[|f]]; [lia|lia|].
  destruct (error_run c t x' n h s3 f Hc Ht) as (s' & r & E4 & Hr). unfold mbind, M_bind. rewrite E1, E3, E4.
  destruct (is_main_separator P (List.last t c)).
  - subst r. eauto.
  - destruct Hr as (-> & Hn & Hw'). unfold flush_tree. rewrite bind_member, Hn. eexists _, _. split; [reflexivity|].
    split; [easy|]. congruence.
Qed.
End Spec.

(** ** A text of descriptions

    [lead]: separators in front; each description of [l] has the separators
    behind it; [d] is the one at the end. *)
Definition text_of (P : AnalyzerParams) (lead : list Z) (l : list (desc * list Z)) (d : desc) : list Z :=
  lead ++ sequence_text P l ++ print P d.

Definition text_ok (P : AnalyzerParams) (lead : list Z) (l : list (desc * list Z)) (d : desc) : Prop :=
  leading P lead /\ sequence_ok P l /\ top_desc P d.

(** C32: the analyzer writes the lexemes that the descriptions of a text mean,
    each group as often as its number says, each range of numbers from its first
    to its last, alternatives from left to right, into each type of result:
    the graph with its shared nodes, the recursion and the loops of the parser
    do what the meaning of a description says, which has none of them. *)
Theorem analyzer_lexemes {R} `{ResultType R} p P lead l d symbol (result_arg : R) :
  Analyzer_new p = Ret P -> params_ok P -> text_ok P lead l d ->
  translate p (text_of P lead l d) symbol result_arg =
    Ret (List.fold_left (write_result_arg p) (sequence_lexemes P l ++ last_lexemes P d) result_arg).
Proof.
  intros Hp Hok (Hlead & Hl & Hd). unfold translate, run. rewrite Hp. cbn [bind].
  destruct (process_lexemes P Hok lead l d symbol Hlead Hl Hd) as (s & E & W). unfold text_of. rewrite E.
  cbn [bind]. now rewrite W.
Qed.

(** C33: a symbol that is not allowed ends the text, although the warning says
    that the analyzer proceeds from the nearest separator: the lexemes in front of
    the one with the error are written and nothing behind is; when the last symbol of
    the text is a separator the skip never ends, however long it runs
    ([skip_or_ended]). *)
Theorem analyzer_error p P lead l d c rest symbol :
  Analyzer_new p = Ret P -> params_ok P -> text_ok P lead l d -> illegal P c ->
  run p (text_of P lead l d ++ c :: rest) symbol =
    if is_main_separator P (List.last rest c) then Undef else Ret (sequence_lexemes P l).
Proof.
  intros Hp Hok (Hlead & Hl & Hd) Hc. unfold run. rewrite Hp. cbn [bind]. unfold text_of. rewrite <- !app_assoc.
  destruct (process_error P Hok lead l d c rest symbol Hlead Hl Hd Hc) as (s & r & -> & Hr).
  destruct (is_main_separator P (List.last rest c)); [now subst r|]. destruct Hr as [-> W]. cbn [bind]. now rewrite W.
Qed.

(** *** The parameters of [interprete_base_seq] *)

Definition base_P : AnalyzerParams := adjust_params base_params.

Lemma base_new : Analyzer_new base_params = Ret base_P.
Proof. reflexivity. Qed.

Lemma base_ok : params_ok base_P.
Proof.
  split; try reflexivity; try (split; [reflexivity|repeat split; reflexivity]).
  - repeat (constructor; [cbv; intuition discriminate|]). constructor.
  - intros c Hc. cbn [specials List.In] in Hc. repeat (destruct Hc as [<-|Hc]; [split; reflexivity|]). destruct Hc.
  - intros c Hc. cbn [specials List.In] in Hc. repeat (destruct Hc as [<-|Hc]; [reflexivity|]). destruct Hc.
  - cbv. split; discriminate.
  - split; repeat constructor; cbn; lia.
Qed.

Lemma base_nest : top_nest base_P = S (S (Z.to_nat 9999)).
Proof. unfold top_nest. rewrite <- !Z2Nat.inj_succ by lia. f_equal. Qed.

(** [a[1-3,x]b, (c,d){2}]. *)
Definition first_desc : desc :=
  Plain (chr "a") (Range (Next (Span (lit "1") (lit "3")) (lit ",") (One (Plain (chr "x") End))) (Plain (chr "b") End)).

Definition second_desc : desc := Group (Next (Plain (chr "c") End) (lit ",") (One (Plain (chr "d") End))) (lit "2") End.

Example first_desc_text : print base_P first_desc = lit "a[1-3,x]b" /\ print base_P second_desc = lit "(c,d){2}".
Proof. split; reflexivity. Qed.

Lemma plain_symbols inrange c : forallb (fun c => negb (existsb (Z.eqb c) (specials base_P)) &&
  negb (separator base_P inrange c) && negb (inrange && (c =? range_symbol base_P)) && regular base_P inrange c) [c] = true ->
  plain base_P inrange c.
Proof.
  cbn [forallb]. rewrite !andb_true_iff, !negb_true_iff. intros [[[[H1 H2] H3] H4] _]. split; [|exact H4].
  split; [|split; [exact H2|]].
  - intros Hc. assert (E : existsb (Z.eqb c) (specials base_P) = true); [|congruence].
    apply existsb_exists. exists c. split; [exact Hc|apply Z.eqb_refl].
  - intros Hr Hq. rewrite Hr, Hq, Z.eqb_refl in H3. discriminate H3.
Qed.

(** A condition on closed descriptions. *)
Ltac closed_wf :=
  match goal with
  | |- _ /\ _ => split; closed_wf
  | |- plain _ _ _ => apply plain_symbols; vm_compute; reflexivity
  | |- Forall _ _ => repeat constructor; closed_wf
  | |- ordinary _ _ _ => apply plain_symbols; vm_compute; reflexivity
  | |- separator_run _ _ _ => split; [vm_compute; reflexivity|repeat constructor]
  | |- covers _ _ = _ => vm_compute; reflexivity
  | |- _ -> covers _ _ = _ => intros _; vm_compute; reflexivity
  | |- _ <> _ => discriminate
  | |- True => exact I
  | |- _ => vm_compute; intuition discriminate
  end.

Lemma first_desc_ok : text_ok base_P [] [(first_desc, lit ", ")] second_desc.
Proof.
  split; [now left|]. unfold sequence_ok, top_desc. rewrite base_nest. split.
  - constructor; [|constructor]. cbn [wf wf_alts first_desc]. unfold number_range. closed_wf.
  - cbn [wf wf_alts second_desc]. unfold number. closed_wf.
Qed.

Lemma first_text : text_of base_P [] [(first_desc, lit ", ")] second_desc = lit "a[1-3,x]b, (c,d){2}".
Proof. vm_compute. reflexivity. Qed.

Lemma analyzer_lexemes_witness :
  translate base_params (lit "a[1-3,x]b, (c,d){2}") 0 [] =
    Ret [lit "a1b"; lit "a2b"; lit "a3b"; lit "axb"; lit "c"; lit "d"; lit "c"; lit "d"].
Proof.
  rewrite <- first_text, (analyzer_lexemes base_params base_P [] _ _ 0 [] base_new base_ok first_desc_ok).
  vm_compute. reflexivity.
Defined.

(** An illegal symbol behind the two descriptions, and the same with a separator
    at the end. *)
Lemma analyzer_error_witness :
  run base_params (lit "a[1-3,x]b, (c,d){2}!, e") 0 = Ret [lit "a1b"; lit "a2b"; lit "a3b"; lit "axb"] /\
  run base_params (lit "a[1-3,x]b, (c,d){2}!, e ") 0 = Undef.
Proof.
  assert (Hc : illegal base_P (chr "!"))
    by (split; [|split; reflexivity]; split; [cbv; intuition discriminate|split; [reflexivity|discriminate]]).
  pose proof (fun rest => analyzer_error base_params base_P [] _ _ (chr "!") rest 0 base_new base_ok first_desc_ok Hc) as E.
  rewrite first_text in E. split.
  - change (lit "a[1-3,x]b, (c,d){2}!, e") with (lit "a[1-3,x]b, (c,d){2}" ++ chr "!" :: lit ", e").
    rewrite E. vm_compute. reflexivity.
  - change (lit "a[1-3,x]b, (c,d){2}!, e ") with (lit "a[1-3,x]b, (c,d){2}" ++ chr "!" :: lit ", e ").
    rewrite E. vm_compute. reflexivity.
Defined.
