(* ===== verification/BoundedMap.v ===== *)
(** * BoundedMap: the cache of src/src/Generics/BoundedMap.hpp

    A hash container of items with a bound on the sum of their sizes, and a
    queue of their keys in order of recency.  [container_] is a finite map (the
    order in which [copy_to] walks the hash table is not a property of the
    code), [queue_] a list of nodes: a [std::list] iterator is the number of
    its node, given out by [next_node] and never used twice, so that an
    iterator whose node is gone is recognised ([Undef]).  Every public
    operation is one critical section and one step; the time it takes before
    the lock is its argument, so times of successive operations need not grow.
    [alloc] says whether the allocations of an insertion succeed.  The counters
    of the statistics, [int]s of 32 bits that wrap after 2^31 events, and the
    seconds of a time ([add_sub_bounds] in [Time]) are unbounded integers here.

    [lru] is the abstract cache: one list of entries, least recent first, with
    the same operations.  [BoundedMapRep] shows that the class implements it,
    [BoundedMapProps] what follows for the items of a cache. *)

From Stdlib Require Import ZArith List Bool Lia.
From stdpp Require Import base list gmap fin_maps.
From S2P Require Import Prelude Time.
Open Scope Z_scope.
Open Scope outcome_scope.

(** ** The class *)

Record BoundedMapStat : Type := mkStat {
  inserted_new : Z;
  insert_existing : Z;
  removed_outdated : Z;
  removed_updated : Z;
  not_inserted : Z;
  replaced : Z }.

Definition stat_zero : BoundedMapStat := mkStat 0 0 0 0 0 0.

(** The counters' increments. *)
Definition inc_new (s : BoundedMapStat) : BoundedMapStat :=
  mkStat (inserted_new s + 1) (insert_existing s) (removed_outdated s) (removed_updated s)
         (not_inserted s) (replaced s).
Definition inc_existing (s : BoundedMapStat) : BoundedMapStat :=
  mkStat (inserted_new s) (insert_existing s + 1) (removed_outdated s) (removed_updated s)
         (not_inserted s) (replaced s).
Definition inc_outdated (s : BoundedMapStat) : BoundedMapStat :=
  mkStat (inserted_new s) (insert_existing s) (removed_outdated s + 1) (removed_updated s)
         (not_inserted s) (replaced s).
Definition inc_updated (s : BoundedMapStat) : BoundedMapStat :=
  mkStat (inserted_new s) (insert_existing s) (removed_outdated s) (removed_updated s + 1)
         (not_inserted s) (replaced s).
Definition inc_not_inserted (s : BoundedMapStat) : BoundedMapStat :=
  mkStat (inserted_new s) (insert_existing s) (removed_outdated s) (removed_updated s)
         (not_inserted s + 1) (replaced s).
Definition inc_replaced (s : BoundedMapStat) : BoundedMapStat :=
  mkStat (inserted_new s) (insert_existing s) (removed_outdated s) (removed_updated s)
         (not_inserted s) (replaced s + 1).

(** The size of an item, the template argument [SizePolicy]; the theorems are
    about policies whose sizes are far from the end of [size_t]. *)
Class SizePolicy (Key Data : Type) : Type := { size_policy : Key -> Data -> Z }.

Class SizePolicyOk (Key Data : Type) `{SizePolicy Key Data} : Prop := {
  policy_range : forall (key : Key) (data : Data), 0 <= size_policy key data < 2 ^ 63 }.

(** Every item counts for one. *)
Definition DefaultSizePolicy {Key Data : Type} : SizePolicy Key Data :=
  {| size_policy := fun _ _ => 1 |}.

Section BoundedMap.
Context {Key : Type} `{Countable Key} {Data : Type}.

Record Ordered : Type := mkOrdered { o_key : Key; last_used : Time }.

Definition Queue : Type := list (nat * Ordered).

Record Item : Type := mkItem { it_data : Data; it_size : Z; order : nat }.

Record BoundedMap : Type := mkMap {
  bound_ : Z;
  timeout_ : Time;
  container_ : gmap Key Item;
  queue_ : Queue;
  next_node : nat;
  size_ : Z;
  stat_ : BoundedMapStat }.

(** An iterator holds the value itself; [end()] holds none. *)
Definition iterator : Type := option (Key * Data).

Definition iterator_eq (a b : iterator) : bool :=
  match a, b with None, None => true | _, _ => false end.
Definition iterator_ne (a b : iterator) : bool := negb (iterator_eq a b).
Definition iterator_get (a : iterator) : outcome (Key * Data) :=
  match a with Some v => Ret v | None => Undef end.

Context `{SizePolicy Key Data}.

Definition with_container (c : gmap Key Item) (m : BoundedMap) : BoundedMap :=
  mkMap (bound_ m) (timeout_ m) c (queue_ m) (next_node m) (size_ m) (stat_ m).
Definition with_queue (q : Queue) (m : BoundedMap) : BoundedMap :=
  mkMap (bound_ m) (timeout_ m) (container_ m) q (next_node m) (size_ m) (stat_ m).
Definition with_size (z : Z) (m : BoundedMap) : BoundedMap :=
  mkMap (bound_ m) (timeout_ m) (container_ m) (queue_ m) (next_node m) z (stat_ m).
Definition with_stat (f : BoundedMapStat -> BoundedMapStat) (m : BoundedMap) : BoundedMap :=
  mkMap (bound_ m) (timeout_ m) (container_ m) (queue_ m) (next_node m) (size_ m) (f (stat_ m)).

(** *** [std::list]: the node of an iterator, erasing it, appending a node *)

Fixpoint queue_at (n : nat) (q : Queue) : outcome Ordered :=
  match q with
  | [] => Undef
  | (i, o) :: q' => if Nat.eqb i n then Ret o else queue_at n q'
  end.

Fixpoint queue_erase (n : nat) (q : Queue) : outcome Queue :=
  match q with
  | [] => Undef
  | (i, o) :: q' => if Nat.eqb i n then Ret q' else q'' <- queue_erase n q' ;; Ret ((i, o) :: q'')
  end.

(** *** The constructor *)

Definition new_map (bound : Z) (timeout : Time) : BoundedMap :=
  mkMap bound timeout ∅ [] 0 0 stat_zero.

(** *** Finding: the node's time is set and the node spliced to the end *)

Definition find_ (key : Key) (now : Time) (m : BoundedMap) : outcome (BoundedMap * option Item) :=
  match container_ m !! key with
  | None => Ret (m, None)
  | Some itor =>
      o <- queue_at (order itor) (queue_ m) ;;
      q <- queue_erase (order itor) (queue_ m) ;;
      Ret (with_queue (q ++ [(order itor, mkOrdered (o_key o) now)]) m, Some itor)
  end.

Definition find (key : Key) (now : Time) (m : BoundedMap) : outcome (BoundedMap * iterator) :=
  '(m', itor) <- find_ key now m ;;
  Ret (m', match itor with None => None | Some i => Some (key, it_data i) end).

(** *** Inserting *)

(** The loop that makes room: [false] when the least recent item is missing or
    not old enough; what it has removed by then stays removed. *)
Fixpoint make_room (size : Z) (now : Time) (q : Queue) (m : BoundedMap)
  : outcome (BoundedMap * bool) :=
  if wrapu 64 (size_ m + size) >? bound_ m then
    match q with
    | [] => Ret (with_stat inc_not_inserted m, false)
    | (_, o) :: q' =>
        if time_gt (time_add (last_used o) (timeout_ m)) now
        then Ret (with_stat inc_not_inserted m, false)
        else
          match container_ m !! o_key o with
          | None => Undef
          | Some itor =>
              make_room size now q'
                (with_queue q'
                  (with_container (delete (o_key o) (container_ m))
                    (with_size (wrapu 64 (size_ m - it_size itor))
                      (with_stat inc_outdated m))))
          end
    end
  else Ret (m, true).

(** What an insertion returns: a pair of an iterator and a flag, or the
    exception of an allocation. *)
Inductive insert_result : Type :=
| Inserted (itor : iterator) (b : bool)
| InsertThrows.

(** The state after an exception is returned too. *)
Definition insert_ (alloc : bool) (key : Key) (data : Data) (now : Time) (m : BoundedMap)
  : outcome (BoundedMap * insert_result) :=
  if size_policy key data >? bound_ m
  then Ret (with_stat inc_not_inserted m, Inserted None false)
  else
    '(m1, room) <- make_room (size_policy key data) now (queue_ m) m ;;
    if room then
      let node := next_node m1 in
      let m2 := mkMap (bound_ m1) (timeout_ m1) (container_ m1)
                  (queue_ m1 ++ [(node, mkOrdered key now)]) (S node) (size_ m1) (stat_ m1) in
      if alloc then
        match container_ m2 !! key with
        | Some _ => Undef
        | None =>
            Ret (with_size (wrapu 64 (size_ m2 + size_policy key data))
                  (with_stat inc_new
                    (with_container
                      (<[key := mkItem data (size_policy key data) node]> (container_ m2)) m2)),
                 Inserted (Some (key, data)) true)
        end
      else
        q <- queue_erase node (queue_ m2) ;;
        Ret (with_queue q m2, InsertThrows)
    else Ret (m1, Inserted None false).

Definition insert (alloc : bool) (value : Key * Data) (now : Time) (m : BoundedMap)
  : outcome (BoundedMap * insert_result) :=
  '(m1, itor) <- find_ (fst value) now m ;;
  match itor with
  | Some i => Ret (with_stat inc_existing m1, Inserted (Some (fst value, it_data i)) false)
  | None => insert_ alloc (fst value) (snd value) now m1
  end.

(** *** Updating the size of an item *)

Definition remove_item (key : Key) (itor : Item) (m : BoundedMap) : outcome BoundedMap :=
  q <- queue_erase (order itor) (queue_ m) ;;
  Ret (with_container (delete key (container_ m))
        (with_queue q (with_size (wrapu 64 (size_ m - it_size itor)) m))).

(** The first loop of [update_]: how many nodes of the queue to pass over until
    the size fits, and the size then; [None] when that is impossible. *)
Fixpoint plan (self : nat) (m : BoundedMap) (now : Time) (q : Queue) (new_size : Z)
  : outcome (option (nat * Z)) :=
  if new_size >? bound_ m then
    match q with
    | [] => Ret None
    | (n, o) :: q' =>
        if time_gt (time_add (last_used o) (timeout_ m)) now then Ret None
        else
          new_size' <-
            (if Nat.eqb n self then Ret new_size
             else match container_ m !! o_key o with
                  | None => Undef
                  | Some itor => Ret (wrapu 64 (new_size - it_size itor))
                  end) ;;
          r <- plan self m now q' new_size' ;;
          Ret (match r with None => None | Some (k, z) => Some (S k, z) end)
    end
  else Ret (Some (0%nat, new_size)).

(** The second loop: the nodes passed over are removed, [self] excepted. *)
Fixpoint remove_first (self k : nat) (q : Queue) (m : BoundedMap) : BoundedMap * Queue :=
  match k, q with
  | S k', (n, o) :: q' =>
      if Nat.eqb n self
      then let '(m', r) := remove_first self k' q' m in (m', (n, o) :: r)
      else remove_first self k' q'
             (with_container (delete (o_key o) (container_ m)) (with_stat inc_outdated m))
  | _, _ => (m, q)
  end.

Definition update_ (key : Key) (itor : Item) (now : Time) (m : BoundedMap)
  : outcome (BoundedMap * bool) :=
  let size := size_policy key (it_data itor) in
  let new_size := wrapu 64 (size_ m + size - it_size itor) in
  let resized := mkItem (it_data itor) size (order itor) in
  if new_size <=? bound_ m
  then Ret (with_size new_size (with_container (<[key := resized]> (container_ m)) m), true)
  else if size >? bound_ m then
    m' <- remove_item key itor (with_stat inc_updated m) ;; Ret (m', false)
  else
    p <- plan (order itor) m now (queue_ m) new_size ;;
    match p with
    | None => m' <- remove_item key itor (with_stat inc_updated m) ;; Ret (m', false)
    | Some (k, z) =>
        let '(m', q) := remove_first (order itor) k (queue_ m) m in
        match container_ m' !! key with
        | None => Undef
        | Some _ =>
            Ret (with_size z
                  (with_container (<[key := resized]> (container_ m')) (with_queue q m')), true)
        end
    end.

Definition update (key : Key) (now : Time) (m : BoundedMap) : outcome BoundedMap :=
  match container_ m !! key with
  | None => Ret m
  | Some itor => '(m', _) <- update_ key itor now m ;; Ret m'
  end.

Definition update_iterator (itor : iterator) (now : Time) (m : BoundedMap) : outcome BoundedMap :=
  v <- iterator_get itor ;; update (fst v) now m.

Definition insert_or_update_ (alloc : bool) (key : Key) (data : Data) (now : Time) (m : BoundedMap)
  : outcome (BoundedMap * option insert_result) :=
  '(m1, itor) <- find_ key now m ;;
  match itor with
  | Some i =>
      let i' := mkItem data (it_size i) (order i) in
      '(m2, done) <- update_ key i' now (with_container (<[key := i']> (container_ m1)) m1) ;;
      Ret (if (done : bool) then with_stat inc_replaced m2 else m2, None)
  | None =>
      '(m2, r) <- insert_ alloc key data now m1 ;; Ret (m2, Some r)
  end.

(** *** Removing, listing, settings *)

Definition erase (key : Key) (m : BoundedMap) : outcome BoundedMap :=
  match container_ m !! key with
  | None => Ret m
  | Some itor => remove_item key itor m
  end.

Definition erase_iterator (it : iterator) (m : BoundedMap) : outcome BoundedMap :=
  v <- iterator_get it ;; erase (fst v) m.

Definition clear (m : BoundedMap) : BoundedMap :=
  with_queue [] (with_container ∅ (with_size 0 m)).

Definition map_size (m : BoundedMap) : Z := Z.of_nat (size (container_ m)).

Definition copy_to (m : BoundedMap) : list (Key * Data) :=
  map (fun p => (fst p, it_data (snd p))) (map_to_list (container_ m)).

Definition statistics (reset : bool) (m : BoundedMap) : BoundedMap * BoundedMapStat :=
  (if reset then with_stat (fun _ => stat_zero) m else m, stat_ m).

Definition set_bound (new_bound : Z) (m : BoundedMap) : BoundedMap :=
  mkMap new_bound (timeout_ m) (container_ m) (queue_ m) (next_node m) (size_ m) (stat_ m).

Definition set_timeout (new_timeout : Time) (m : BoundedMap) : BoundedMap :=
  mkMap (bound_ m) new_timeout (container_ m) (queue_ m) (next_node m) (size_ m) (stat_ m).

(** ** The abstract cache *)

Record entry : Type := mkEntry { e_key : Key; e_data : Data; e_size : Z; e_last : Time }.

Record lru : Type := mkLru {
  l_bound : Z;
  l_timeout : Time;
  l_entries : list entry;
  l_stat : BoundedMapStat }.

Definition total (es : list entry) : Z := fold_right Z.add 0 (map e_size es).

Definition fresh (timeout now : Time) (e : entry) : bool :=
  time_gt (time_add (e_last e) timeout) now.

Definition has_key (key : Key) (e : entry) : bool := bool_decide (e_key e = key).

Definition others (key : Key) (es : list entry) : list entry :=
  List.filter (fun e => negb (has_key key e)) es.

Definition lookup_entry (key : Key) (es : list entry) : option entry :=
  List.find (has_key key) es.

Definition resize (key : Key) (size : Z) (es : list entry) : list entry :=
  map (fun e => if has_key key e then mkEntry (e_key e) (e_data e) size (e_last e) else e) es.

(** The entries left when old ones are dropped from the front until the rest
    fits under [cap], and whether it does. *)
Fixpoint drop_old (cap : Z) (old : entry -> bool) (es : list entry) : list entry * nat * bool :=
  if total es <=? cap then (es, 0%nat, true)
  else match es with
       | [] => (es, 0%nat, false)
       | e :: es' =>
           if old e
           then let '(r, n, b) := drop_old cap old es' in (r, S n, b)
           else (es, 0%nat, false)
       end.

(** The same, [key]'s entry excepted and all or nothing. *)
Fixpoint spare_old (key : Key) (excess : Z) (old : entry -> bool) (es : list entry)
  : option (list entry * nat) :=
  if excess <=? 0 then Some (es, 0%nat)
  else match es with
       | [] => None
       | e :: es' =>
           if old e
           then if has_key key e
                then match spare_old key excess old es' with
                     | None => None
                     | Some (r, n) => Some (e :: r, n)
                     end
                else match spare_old key (excess - e_size e) old es' with
                     | None => None
                     | Some (r, n) => Some (r, S n)
                     end
           else None
       end.

Definition with_entries (es : list entry) (f : BoundedMapStat -> BoundedMapStat) (l : lru) : lru :=
  mkLru (l_bound l) (l_timeout l) es (f (l_stat l)).

Definition touch (e : entry) (data : Data) (now : Time) (es : list entry) : list entry :=
  others (e_key e) es ++ [mkEntry (e_key e) data (e_size e) now].

Definition lru_find (key : Key) (now : Time) (l : lru) : lru * iterator :=
  match lookup_entry key (l_entries l) with
  | None => (l, None)
  | Some e => (with_entries (touch e (e_data e) now (l_entries l)) id l, Some (key, e_data e))
  end.

Definition lru_add (alloc : bool) (key : Key) (data : Data) (now : Time) (l : lru)
  : lru * insert_result :=
  let size := size_policy key data in
  if size >? l_bound l then (with_entries (l_entries l) inc_not_inserted l, Inserted None false)
  else
    let '(es, n, room) :=
      drop_old (l_bound l - size) (fun e => negb (fresh (l_timeout l) now e)) (l_entries l) in
    let l' := with_entries es (Nat.iter n inc_outdated) l in
    if room then
      if alloc
      then (with_entries (es ++ [mkEntry key data size now]) inc_new l',
            Inserted (Some (key, data)) true)
      else (l', InsertThrows)
    else (with_entries es inc_not_inserted l', Inserted None false).

Definition lru_insert (alloc : bool) (value : Key * Data) (now : Time) (l : lru)
  : lru * insert_result :=
  match lookup_entry (fst value) (l_entries l) with
  | Some e => (with_entries (touch e (e_data e) now (l_entries l)) inc_existing l,
               Inserted (Some (fst value, e_data e)) false)
  | None => lru_add alloc (fst value) (snd value) now l
  end.

(** The entry [e] of the cache gets the size its data has now. *)
Definition lru_resize (e : entry) (now : Time) (l : lru) : lru * bool :=
  let size := size_policy (e_key e) (e_data e) in
  let excess := total (others (e_key e) (l_entries l)) + size - l_bound l in
  let drop_it := (with_entries (others (e_key e) (l_entries l)) inc_updated l, false) in
  if size >? l_bound l then drop_it
  else match spare_old (e_key e) excess (fun e => negb (fresh (l_timeout l) now e)) (l_entries l) with
       | None => drop_it
       | Some (es, n) => (with_entries (resize (e_key e) size es) (Nat.iter n inc_outdated) l, true)
       end.

Definition lru_update (key : Key) (now : Time) (l : lru) : lru :=
  match lookup_entry key (l_entries l) with
  | None => l
  | Some e => fst (lru_resize e now l)
  end.

Definition lru_insert_or_update (alloc : bool) (key : Key) (data : Data) (now : Time) (l : lru)
  : lru * option insert_result :=
  match lookup_entry key (l_entries l) with
  | Some e =>
      let '(l', done) :=
        lru_resize (mkEntry key data (e_size e) now) now
          (with_entries (touch e data now (l_entries l)) id l) in
      (if done then with_entries (l_entries l') inc_replaced l' else l', None)
  | None => let '(l', r) := lru_add alloc key data now l in (l', Some r)
  end.

Definition lru_erase (key : Key) (l : lru) : lru :=
  with_entries (others key (l_entries l)) id l.

(** ** One step of either *)

Inductive operation : Type :=
| Find (key : Key) (now : Time)
| Insert (alloc : bool) (value : Key * Data) (now : Time)
| InsertOrUpdate (alloc : bool) (key : Key) (data : Data) (now : Time)
| Update (key : Key) (now : Time)
| Erase (key : Key)
| Clear
| Size
| Statistics (reset : bool)
| SetBound (bound : Z)
| SetTimeout (timeout : Time).

Inductive reply : Type :=
| RIterator (it : iterator)
| RInsert (r : insert_result)
| RUpdate (r : option insert_result)
| RSize (n : Z)
| RStat (s : BoundedMapStat)
| RVoid.

Definition step (op : operation) (m : BoundedMap) : outcome (BoundedMap * reply) :=
  match op with
  | Find key now => '(m', it) <- find key now m ;; Ret (m', RIterator it)
  | Insert alloc v now => '(m', r) <- insert alloc v now m ;; Ret (m', RInsert r)
  | InsertOrUpdate alloc key d now =>
      '(m', r) <- insert_or_update_ alloc key d now m ;; Ret (m', RUpdate r)
  | Update key now => m' <- update key now m ;; Ret (m', RVoid)
  | Erase key => m' <- erase key m ;; Ret (m', RVoid)
  | Clear => Ret (clear m, RVoid)
  | Size => Ret (m, RSize (map_size m))
  | Statistics reset => let '(m', s) := statistics reset m in Ret (m', RStat s)
  | SetBound b => Ret (set_bound b m, RVoid)
  | SetTimeout t => Ret (set_timeout t m, RVoid)
  end.

Definition lru_step (op : operation) (l : lru) : lru * reply :=
  match op with
  | Find key now => let '(l', it) := lru_find key now l in (l', RIterator it)
  | Insert alloc v now => let '(l', r) := lru_insert alloc v now l in (l', RInsert r)
  | InsertOrUpdate alloc key d now =>
      let '(l', r) := lru_insert_or_update alloc key d now l in (l', RUpdate r)
  | Update key now => (lru_update key now l, RVoid)
  | Erase key => (lru_erase key l, RVoid)
  | Clear => (with_entries [] id l, RVoid)
  | Size => (l, RSize (Z.of_nat (length (l_entries l))))
  | Statistics reset =>
      (if reset then with_entries (l_entries l) (fun _ => stat_zero) l else l, RStat (l_stat l))
  | SetBound b => (mkLru b (l_timeout l) (l_entries l) (l_stat l), RVoid)
  | SetTimeout t => (mkLru (l_bound l) t (l_entries l) (l_stat l), RVoid)
  end.

Fixpoint run (ops : list operation) (m : BoundedMap) : outcome (BoundedMap * list reply) :=
  match ops with
  | [] => Ret (m, [])
  | op :: ops' => '(m1, r) <- step op m ;; '(m2, rs) <- run ops' m1 ;; Ret (m2, r :: rs)
  end.

Fixpoint lru_run (ops : list operation) (l : lru) : lru * list reply :=
  match ops with
  | [] => (l, [])
  | op :: ops' =>
      let '(l1, r) := lru_step op l in let '(l2, rs) := lru_run ops' l1 in (l2, r :: rs)
  end.

End BoundedMap.

Arguments Ordered : clear implicits.
Arguments Queue : clear implicits.
Arguments Item : clear implicits.
Arguments BoundedMap Key {_ _} Data.
Arguments iterator : clear implicits.
Arguments entry : clear implicits.
Arguments lru : clear implicits.
Arguments insert_result : clear implicits.
Arguments operation : clear implicits.
Arguments reply : clear implicits.
