(* ===== verification/BoundedMapRep.v ===== *)
(** * BoundedMapRep: the cache implements its abstract specification

    The representation invariant [rep] of the class [BoundedMap]: its queue,
    its hash container and [size_] describe one list of nodes.  Every operation
    keeps it, is defined, and acts on the list of entries as the operation of
    [lru] of the same name does. *)

From Stdlib Require Import ZArith List Bool Lia.
From stdpp Require Import base list gmap fin_maps.
From S2P Require Import Prelude Time BoundedMap.
Open Scope Z_scope.
Open Scope outcome_scope.

Section Rep.
Context {Key : Type} `{CK : Countable Key} {Data : Type}.
Local Abbreviation Queue := (Queue Key).
Local Abbreviation Ordered := (Ordered Key).
Local Abbreviation Item := (Item Data).
Local Abbreviation entry := (entry Key Data).
Local Abbreviation lru := (lru Key Data).
Local Abbreviation insert_result := (insert_result Key Data).
Local Abbreviation operation := (operation Key Data).
Local Abbreviation reply := (reply Key Data).
Local Abbreviation BoundedMap := (BoundedMap Key Data).
Implicit Types (key : Key) (data : Data) (now : Time) (e : entry) (es : list entry).
Implicit Types (ns ds rs pre post : list (nat * entry)) (l : lru) (m : BoundedMap) (op : operation).
Implicit Types (k : nat) (old : entry -> bool).

(** ** The invariant: queue, container and size describe one list of nodes *)

Definition nodes_queue (ns : list (nat * entry)) : Queue :=
  map (fun p => (fst p, mkOrdered (e_key (snd p)) (e_last (snd p)))) ns.

Definition nodes_items (ns : list (nat * entry)) : list (Key * Item) :=
  map (fun p => (e_key (snd p), mkItem (e_data (snd p)) (e_size (snd p)) (fst p))) ns.

Definition keys (ns : list (nat * entry)) : list Key := map (fun p => e_key (snd p)) ns.

Record rep (ns : list (nat * entry)) (m : BoundedMap) : Prop := {
  rep_queue : queue_ m = nodes_queue ns;
  rep_container : container_ m = list_to_map (nodes_items ns);
  rep_keys : NoDup (keys ns);
  rep_nodes : NoDup (map fst ns);
  rep_next : Forall (fun p => (fst p < next_node m)%nat) ns;
  rep_size : size_ m = total (map snd ns);
  rep_sizes : Forall (fun e => 0 <= e_size e) (map snd ns);
  rep_total : total (map snd ns) < 2 ^ 63;
  rep_bound : 0 <= bound_ m < 2 ^ 63 }.

Definition lru_of (ns : list (nat * entry)) (m : BoundedMap) : lru :=
  mkLru (bound_ m) (timeout_ m) (map snd ns) (stat_ m).

(** The concrete cache implements the abstract one. *)
Definition refines (m : BoundedMap) (l : lru) : Prop :=
  exists ns, rep ns m /\ l = lru_of ns m.

(** *** Lists of nodes around one of them *)

Lemma queue_at_mid n (o : Ordered) (pre post : Queue) :
  n ∉ map fst pre -> queue_at n (pre ++ (n, o) :: post) = Ret o.
Proof.
  induction pre as [|[i a] pre IH]; cbn; intros Hn; [now rewrite Nat.eqb_refl|].
  apply not_elem_of_cons in Hn as [Hi Hn].
  destruct (Nat.eqb_spec i n) as [->|_]; [easy|auto].
Qed.

Lemma queue_erase_mid n (o : Ordered) (pre post : Queue) :
  n ∉ map fst pre -> queue_erase n (pre ++ (n, o) :: post) = Ret (pre ++ post).
Proof.
  induction pre as [|[i a] pre IH]; cbn; intros Hn; [now rewrite Nat.eqb_refl|].
  apply not_elem_of_cons in Hn as [Hi Hn].
  destruct (Nat.eqb_spec i n) as [->|_]; [easy|]. now rewrite IH.
Qed.

Lemma has_key_true key e : e_key e = key -> has_key key e = true.
Proof. intros He. now apply bool_decide_eq_true_2. Qed.

Lemma has_key_false key e : e_key e <> key -> has_key key e = false.
Proof. intros He. now apply bool_decide_eq_false_2. Qed.

Lemma others_cons key e es :
  others key (e :: es) = if has_key key e then others key es else e :: others key es.
Proof. unfold others. cbn. now destruct (has_key key e). Qed.

Lemma others_none key es : key ∉ map e_key es -> others key es = es.
Proof.
  induction es as [|e es IH]; [easy|]. intros [Hk Hn]%not_elem_of_cons.
  rewrite others_cons, has_key_false by congruence. now rewrite IH.
Qed.

Lemma others_app key (es es' : list entry) : others key (es ++ es') = others key es ++ others key es'.
Proof. apply List.filter_app. Qed.

Lemma others_mid e (pre post : list entry) :
  e_key e ∉ map e_key (pre ++ post) -> others (e_key e) (pre ++ e :: post) = pre ++ post.
Proof.
  rewrite map_app, not_elem_of_app. intros [H1 H2].
  rewrite others_app, others_cons, has_key_true by easy. now rewrite !others_none.
Qed.

Lemma lookup_entry_none key es : key ∉ map e_key es -> lookup_entry key es = None.
Proof.
  induction es as [|e es IH]; [easy|]. intros [Hk Hn]%not_elem_of_cons.
  unfold lookup_entry. cbn. rewrite has_key_false by congruence. auto.
Qed.

Lemma lookup_entry_mid e (pre post : list entry) :
  e_key e ∉ map e_key pre -> lookup_entry (e_key e) (pre ++ e :: post) = Some e.
Proof.
  unfold lookup_entry. induction pre as [|a pre IH]; cbn; intros Hn.
  - now rewrite has_key_true.
  - apply not_elem_of_cons in Hn as [Hk Hn]. rewrite has_key_false by congruence. auto.
Qed.

Lemma total_app (es es' : list entry) : total (es ++ es') = total es + total es'.
Proof. unfold total. induction es as [|e es IH]; cbn; [easy|]. cbn in IH. lia. Qed.

Lemma total_cons e es : total (e :: es) = e_size e + total es.
Proof. reflexivity. Qed.

Lemma total_snoc es e : total (es ++ [e]) = total es + e_size e.
Proof. rewrite total_app. unfold total. cbn. lia. Qed.

Lemma total_nonneg es : Forall (fun e => 0 <= e_size e) es -> 0 <= total es.
Proof. induction 1; cbn in *; [easy|unfold total in *; cbn; lia]. Qed.

Lemma keys_entries ns : keys ns = map e_key (map snd ns).
Proof. unfold keys. now rewrite map_map. Qed.

Lemma nodes_items_keys ns : (nodes_items ns).*1 = keys ns.
Proof. unfold nodes_items, keys. induction ns; cbn; congruence. Qed.

Lemma nodes_queue_app ns ns' : nodes_queue (ns ++ ns') = nodes_queue ns ++ nodes_queue ns'.
Proof. apply map_app. Qed.

Lemma nodes_items_app ns ns' : nodes_items (ns ++ ns') = nodes_items ns ++ nodes_items ns'.
Proof. apply map_app. Qed.

Lemma nodes_queue_fst ns : map fst (nodes_queue ns) = map fst ns.
Proof. unfold nodes_queue. now rewrite map_map. Qed.

Lemma NoDup_mid {A} (a : A) (l l' : list A) : NoDup (l ++ a :: l') <-> (a ∉ l ++ l') /\ NoDup (l ++ l').
Proof. rewrite <- Permutation_middle. apply NoDup_cons. Qed.

Lemma NoDup_move {A} (a : A) (l l' : list A) : NoDup (l ++ a :: l') -> NoDup ((l ++ l') ++ [a]).
Proof.
  intros Hd. rewrite <- Permutation_cons_append. now rewrite <- Permutation_middle in Hd.
Qed.

(** The item of a node, and the container without it. *)
Lemma container_mid n e pre post :
  NoDup (keys (pre ++ (n, e) :: post)) ->
  (list_to_map (nodes_items (pre ++ (n, e) :: post)) : gmap Key Item) =
  <[e_key e := mkItem (e_data e) (e_size e) n]> (list_to_map (nodes_items (pre ++ post))).
Proof.
  intros Hk. rewrite <- list_to_map_cons. apply list_to_map_proper.
  - now rewrite nodes_items_keys.
  - rewrite !nodes_items_app. cbn. now rewrite <- Permutation_middle.
Qed.

Lemma container_none key ns :
  key ∉ keys ns -> (list_to_map (nodes_items ns) : gmap Key Item) !! key = None.
Proof. intros Hn. apply not_elem_of_list_to_map_1. now rewrite nodes_items_keys. Qed.

(** A key is not there, or is the key of one node. *)
Lemma node_cases key ns :
  NoDup (keys ns) ->
  key ∉ keys ns \/
  exists pre n e post, ns = pre ++ (n, e) :: post /\ e_key e = key /\ key ∉ keys (pre ++ post).
Proof.
  intros Hd. destruct (decide (key ∈ keys ns)) as [Hin|Hn]; [right|now left].
  unfold keys in Hin. apply list_elem_of_In, in_map_iff in Hin as [[n e] [He Hin]].
  apply in_split in Hin as [pre [post ->]]. exists pre, n, e, post. split_and!; [easy..|].
  unfold keys in *. rewrite map_app in Hd. cbn in Hd, He. subst key. apply NoDup_mid in Hd as [Hd _].
  now rewrite map_app.
Qed.

(** *** How the steps of the operations act on the nodes *)

Lemma rep_stat f ns m : rep ns m -> rep ns (with_stat f m).
Proof. intros []. now constructor. Qed.

Section Node.
Context (pre post : list (nat * entry)) (n : nat) (e : entry) (m : BoundedMap).
Hypothesis R : rep (pre ++ (n, e) :: post) m.

Lemma rep_lookup :
  container_ m !! e_key e = Some (mkItem (e_data e) (e_size e) n).
Proof.
  rewrite (rep_container _ _ R), container_mid by apply (rep_keys _ _ R). apply lookup_insert_eq.
Qed.

Lemma rep_key_fresh : e_key e ∉ keys (pre ++ post).
Proof.
  pose proof (rep_keys _ _ R) as Hk. unfold keys in *. rewrite map_app in Hk. cbn in Hk.
  apply NoDup_mid in Hk as [Hk _]. now rewrite map_app.
Qed.

Lemma rep_node_fresh : n ∉ map fst pre.
Proof.
  pose proof (rep_nodes _ _ R) as Hn. rewrite map_app in Hn. cbn in Hn.
  apply NoDup_mid in Hn as [Hn _]. apply not_elem_of_app in Hn. tauto.
Qed.

Lemma rep_queue_at : queue_at n (queue_ m) = Ret (mkOrdered (e_key e) (e_last e)).
Proof.
  rewrite (rep_queue _ _ R), nodes_queue_app. apply queue_at_mid. rewrite nodes_queue_fst.
  exact rep_node_fresh.
Qed.

Lemma rep_queue_erase : queue_erase n (queue_ m) = Ret (nodes_queue (pre ++ post)).
Proof.
  rewrite (rep_queue _ _ R), !nodes_queue_app. apply queue_erase_mid. rewrite nodes_queue_fst.
  exact rep_node_fresh.
Qed.

Lemma rep_total_split :
  total (map snd (pre ++ (n, e) :: post)) = e_size e + total (map snd (pre ++ post)) /\
  0 <= e_size e /\ 0 <= total (map snd (pre ++ post)) /\
  Forall (fun e => 0 <= e_size e) (map snd (pre ++ post)).
Proof.
  pose proof (rep_sizes _ _ R) as Hs. rewrite !map_app in *. cbn in *.
  apply Forall_app in Hs as [H1 H2]. apply Forall_cons in H2 as [He H2].
  assert (Forall (fun e => 0 <= e_size e) (map snd pre ++ map snd post)) by now apply Forall_app.
  rewrite !total_app, total_cons. pose proof (total_nonneg _ H1). pose proof (total_nonneg _ H2).
  split_and!; lia || easy.
Qed.

(** The node is taken out. *)
Lemma rep_remove :
  rep (pre ++ post)
    (with_container (delete (e_key e) (container_ m))
      (with_queue (nodes_queue (pre ++ post))
        (with_size (wrapu 64 (size_ m - e_size e)) m))).
Proof.
  destruct rep_total_split as (Ht & He & Hr & Hs). pose proof (rep_total _ _ R) as Hb.
  constructor; cbn; try easy.
  - rewrite (rep_container _ _ R), container_mid by apply (rep_keys _ _ R).
    rewrite delete_insert_id; [easy|]. apply container_none, rep_key_fresh.
  - pose proof (rep_keys _ _ R) as Hk. unfold keys in *. rewrite map_app in *.
    cbn in Hk. now apply NoDup_mid in Hk as [_ Hk].
  - pose proof (rep_nodes _ _ R) as Hk. rewrite map_app in *. cbn in Hk.
    now apply NoDup_mid in Hk as [_ Hk].
  - pose proof (rep_next _ _ R) as Hn. apply Forall_app in Hn as [H1 H2].
    apply Forall_cons in H2 as [_ H2]. now apply Forall_app.
  - rewrite (rep_size _ _ R), Ht. rewrite wrapu_small; lia.
  - lia.
  - apply (rep_bound _ _ R).
Qed.

(** [remove_item] removes the node. *)
Lemma rep_remove_item :
  exists m', remove_item (e_key e) (mkItem (e_data e) (e_size e) n) m = Ret m' /\
             rep (pre ++ post) m' /\ lru_of (pre ++ post) m' =
               with_entries (map snd (pre ++ post)) id (lru_of (pre ++ post) m).
Proof.
  unfold remove_item. cbn. rewrite rep_queue_erase. cbn. eexists. split; [reflexivity|].
  split; [exact rep_remove|reflexivity].
Qed.

Lemma rep_others : others (e_key e) (map snd (pre ++ (n, e) :: post)) = map snd (pre ++ post).
Proof.
  rewrite !map_app. cbn. apply others_mid. rewrite <- map_app, <- keys_entries. exact rep_key_fresh.
Qed.

Lemma rep_lookup_entry : lookup_entry (e_key e) (map snd (pre ++ (n, e) :: post)) = Some e.
Proof.
  rewrite map_app. cbn. apply lookup_entry_mid. pose proof rep_key_fresh as Hk.
  rewrite keys_entries, !map_app in Hk. apply not_elem_of_app in Hk. tauto.
Qed.

(** The node is moved to the end, with other data and another time. *)
Lemma rep_touch data now :
  rep ((pre ++ post) ++ [(n, mkEntry (e_key e) data (e_size e) now)])
    (with_container (<[e_key e := mkItem data (e_size e) n]> (container_ m))
      (with_queue (nodes_queue (pre ++ post) ++ [(n, mkOrdered (e_key e) now)]) m)).
Proof.
  destruct rep_total_split as (Ht & He & Hr & Hs). pose proof (rep_total _ _ R) as Hb.
  assert (Hk : NoDup (keys ((pre ++ post) ++ [(n, mkEntry (e_key e) data (e_size e) now)]))).
  { pose proof (rep_keys _ _ R) as Hk. unfold keys in *. rewrite !map_app in *. cbn in *.
    now apply NoDup_move. }
  constructor; cbn; try easy.
  - now rewrite (nodes_queue_app (pre ++ post)).
  - rewrite (rep_container _ _ R), container_mid by apply (rep_keys _ _ R).
    rewrite insert_insert_eq. rewrite container_mid by exact Hk. now rewrite app_nil_r.
  - pose proof (rep_nodes _ _ R) as Hn. rewrite !map_app in *. cbn in *.
    now apply NoDup_move.
  - pose proof (rep_next _ _ R) as Hn. apply Forall_app in Hn as [H1 H2].
    apply Forall_cons in H2 as [H0 H2]. rewrite !Forall_app. auto.
  - rewrite (rep_size _ _ R), Ht, (map_app snd (pre ++ post)). cbn. rewrite total_snoc. cbn. lia.
  - rewrite (map_app snd (pre ++ post)). apply Forall_app. split; [easy|]. now constructor.
  - rewrite (map_app snd (pre ++ post)). cbn. rewrite total_snoc. cbn. lia.
  - apply (rep_bound _ _ R).
Qed.

(** The item gets another size. *)
Lemma rep_resize size :
  0 <= size ->
  size + total (map snd (pre ++ post)) < 2 ^ 63 ->
  rep (pre ++ (n, mkEntry (e_key e) (e_data e) size (e_last e)) :: post)
    (with_size (size + total (map snd (pre ++ post)))
      (with_container (<[e_key e := mkItem (e_data e) size n]> (container_ m)) m)).
Proof.
  destruct rep_total_split as (Ht & He & Hr & Hs). intros H0 Hz.
  assert (Hk : NoDup (keys (pre ++ (n, mkEntry (e_key e) (e_data e) size (e_last e)) :: post))).
  { pose proof (rep_keys _ _ R) as Hk. unfold keys in *. now rewrite map_app in *. }
  assert (Htot : total (map snd (pre ++ (n, mkEntry (e_key e) (e_data e) size (e_last e)) :: post))
                 = size + total (map snd (pre ++ post))).
  { rewrite !map_app. cbn. rewrite !total_app, total_cons. cbn. lia. }
  constructor; cbn; try easy.
  - rewrite (rep_queue _ _ R), !nodes_queue_app. easy.
  - rewrite (rep_container _ _ R), container_mid by apply (rep_keys _ _ R).
    rewrite insert_insert_eq. now rewrite container_mid by exact Hk.
  - pose proof (rep_nodes _ _ R) as Hn. now rewrite map_app in *.
  - pose proof (rep_next _ _ R) as Hn. apply Forall_app in Hn as [H1 H2].
    apply Forall_cons in H2 as [H3 H2]. apply Forall_app. auto.
  - rewrite map_app in *. apply Forall_app in Hs as [H1 H2]. apply Forall_app. split; [easy|].
    now constructor.
  - lia.
  - apply (rep_bound _ _ R).
Qed.
End Node.

(** A key that is not there. *)
Lemma rep_absent ns m key :
  rep ns m -> key ∉ keys ns ->
  container_ m !! key = None /\ lookup_entry key (map snd ns) = None /\
  others key (map snd ns) = map snd ns.
Proof.
  intros R Hk. rewrite (rep_container _ _ R). split; [now apply container_none|].
  rewrite keys_entries in Hk. split; [now apply lookup_entry_none|now apply others_none].
Qed.

Lemma find_present pre post n e m now :
  rep (pre ++ (n, e) :: post) m ->
  find_ (e_key e) now m =
    Ret (with_queue (nodes_queue (pre ++ post) ++ [(n, mkOrdered (e_key e) now)]) m,
         Some (mkItem (e_data e) (e_size e) n)).
Proof.
  intros R. unfold find_. rewrite (rep_lookup _ _ _ _ _ R). cbn.
  rewrite (rep_queue_at _ _ _ _ _ R). cbn. now rewrite (rep_queue_erase _ _ _ _ _ R).
Qed.

Lemma find_absent key m now : container_ m !! key = None -> find_ key now m = Ret (m, None).
Proof. unfold find_. now intros ->. Qed.

(** [rep_touch] with the data unchanged: the container is the same. *)
Lemma rep_found pre post n e m now :
  rep (pre ++ (n, e) :: post) m ->
  rep ((pre ++ post) ++ [(n, mkEntry (e_key e) (e_data e) (e_size e) now)])
    (with_queue (nodes_queue (pre ++ post) ++ [(n, mkOrdered (e_key e) now)]) m).
Proof.
  intros R. pose proof (rep_touch _ _ _ _ _ R (e_data e) now) as R'.
  rewrite insert_id in R' by apply (rep_lookup _ _ _ _ _ R). exact R'.
Qed.

(** *** Making room *)

Lemma drop_old_split cap old es es' k b :
  drop_old cap old es = (es', k, b) ->
  exists d, es = d ++ es' /\ length d = k /\ Forall (fun e => old e = true) d /\
            (b = true -> total es' <= cap) /\
            (b = false -> total es' > cap /\ match es' with [] => True | e :: _ => old e = false end).
Proof.
  revert es' k b. induction es as [|e es IH]; cbn [drop_old]; intros es' k b.
  - destruct (Z.leb_spec (total ([] : list entry)) cap) as [Hl|Hl]; intros Hd; simplify_eq; exists [];
      repeat split; lia || easy.
  - destruct (Z.leb_spec (total (e :: es)) cap) as [Hl|Hl].
    + intros Hd. simplify_eq. exists []. repeat split; easy.
    + destruct (old e) eqn:Ho.
      * destruct (drop_old cap old es) as [[r n] b'] eqn:Hd. intros Hr. simplify_eq.
        destruct (IH _ _ _ eq_refl) as (d & -> & Hn & Hf & Hc). exists (e :: d).
        split; [easy|]. split; [cbn; congruence|]. split; [now constructor|easy].
      * intros Hd. simplify_eq. exists []. repeat split; lia || easy.
Qed.

Lemma make_room_spec size now ns m :
  rep ns m -> 0 <= size <= bound_ m ->
  let '(es, k, b) :=
    drop_old (bound_ m - size) (fun e => negb (fresh (timeout_ m) now e)) (map snd ns) in
  exists ns' m',
    make_room size now (queue_ m) m = Ret (m', b) /\ rep ns' m' /\
    lru_of ns' m' = with_entries es (fun s => (if b then id else inc_not_inserted)
                                                (Nat.iter k inc_outdated s)) (lru_of ns m).
Proof.
  revert m. induction ns as [|[n e] ns IH]; intros m R Hs.
  - cbn. pose proof (rep_size _ _ R) as Hz. pose proof (rep_bound _ _ R) as Hb. cbn in Hz.
    replace (total ([] : list entry)) with 0 in * by easy. destruct (Z.leb_spec 0 (bound_ m - size)) as [_|]; [|lia].
    exists [], m. rewrite (rep_queue _ _ R). cbn. rewrite Hz, wrapu_small by lia.
    destruct (Z.gtb_spec (0 + size) (bound_ m)); [lia|]. easy.
  - pose proof (rep_size _ _ R) as Hz. pose proof (rep_bound _ _ R) as Hb.
    pose proof (rep_total _ _ R) as Ht. pose proof (total_nonneg _ (rep_sizes _ _ R)) as H0.
    cbn [map snd drop_old] in *. rewrite (rep_queue _ _ R). cbn [nodes_queue map fst snd make_room].
    rewrite Hz, wrapu_small by lia.
    destruct (Z.leb_spec (total (e :: map snd ns)) (bound_ m - size)) as [Hl|Hl];
      destruct (Z.gtb_spec (total (e :: map snd ns) + size) (bound_ m)); try lia.
    { exists ((n, e) :: ns), m. easy. }
    unfold fresh at 1. cbn [last_used o_key].
    destruct (time_gt _ now) eqn:Hg; cbn [negb].
    { exists ((n, e) :: ns), (with_stat inc_not_inserted m). split; [easy|].
      split; [now apply rep_stat|easy]. }
    rewrite (rep_lookup [] ns n e m R). cbn [it_size].
    pose proof (rep_stat inc_outdated _ _ (rep_remove [] ns n e m R)) as R1.
    specialize (IH _ R1 Hs). cbn in IH. rewrite Hz in IH.
    destruct (drop_old _ _ (map snd ns)) as [[es k] b].
    destruct IH as (ns' & m' & Hm & R' & Hl'). exists ns', m'. split; [exact Hm|]. split; [easy|].
    rewrite Hl'. unfold with_entries. cbn [l_bound l_timeout l_stat lru_of stat_ bound_ timeout_].
    now rewrite Nat.iter_succ_r.
Qed.

(** *** Inserting *)

Context `{SP : SizePolicy Key Data} {SPO : SizePolicyOk Key Data}.

(** The call returns what the abstract operation returns. *)
Definition implements {A} (c : outcome (BoundedMap * A)) (l : lru * A) : Prop :=
  exists m', c = Ret (m', snd l) /\ refines m' (fst l).

Lemma rep_append ns m key data size now :
  rep ns m -> key ∉ keys ns -> 0 <= size -> total (map snd ns) + size < 2 ^ 63 ->
  rep (ns ++ [(next_node m, mkEntry key data size now)])
    (mkMap (bound_ m) (timeout_ m)
       (<[key := mkItem data size (next_node m)]> (container_ m))
       (queue_ m ++ [(next_node m, mkOrdered key now)]) (S (next_node m))
       (wrapu 64 (size_ m + size)) (stat_ m)).
Proof.
  intros R Hk Hs Ht. pose proof (total_nonneg _ (rep_sizes _ _ R)) as H0.
  assert (Hd : NoDup (keys (ns ++ [(next_node m, mkEntry key data size now)]))).
  { unfold keys. rewrite map_app. cbn. apply NoDup_mid. rewrite app_nil_r.
    split; [exact Hk|apply (rep_keys _ _ R)]. }
  constructor; cbn; try easy.
  - rewrite nodes_queue_app. now rewrite (rep_queue _ _ R).
  - rewrite container_mid, app_nil_r by exact Hd. now rewrite (rep_container _ _ R).
  - rewrite map_app. cbn. apply NoDup_mid. rewrite app_nil_r. split; [|apply (rep_nodes _ _ R)].
    intros Hin. apply list_elem_of_In, in_map_iff in Hin as [p [Hp Hin]].
    pose proof (rep_next _ _ R) as Hn. rewrite List.Forall_forall in Hn. apply Hn in Hin. lia.
  - apply Forall_app. split; [|constructor; cbn; [lia|easy]].
    eapply Forall_impl; [apply (rep_next _ _ R)|]. cbn. lia.
  - rewrite map_app. cbn. rewrite total_snoc, (rep_size _ _ R). cbn. apply wrapu_small. lia.
  - rewrite map_app. apply Forall_app. split; [apply (rep_sizes _ _ R)|now constructor].
  - rewrite map_app. cbn. rewrite total_snoc. cbn. lia.
  - apply (rep_bound _ _ R).
Qed.

(** An insertion that fails to allocate has used a node's number. *)
Lemma rep_skip_node ns m :
  rep ns m ->
  rep ns (mkMap (bound_ m) (timeout_ m) (container_ m) (queue_ m) (S (next_node m)) (size_ m) (stat_ m)).
Proof.
  intros []. constructor; try easy. cbn. eapply Forall_impl; [eassumption|]. cbn. lia.
Qed.

Lemma rep_next_fresh ns m : rep ns m -> next_node m ∉ map fst ns.
Proof.
  intros R Hin. apply list_elem_of_In, in_map_iff in Hin as [p [Hp Hin]].
  pose proof (rep_next _ _ R) as Hn. rewrite List.Forall_forall in Hn. apply Hn in Hin. lia.
Qed.

Lemma insert_implements alloc ns m key data now :
  rep ns m -> key ∉ keys ns ->
  implements (insert_ alloc key data now m) (lru_add alloc key data now (lru_of ns m)).
Proof.
  intros R Hk. pose proof (policy_range key data) as Hp. unfold insert_, lru_add.
  cbn [l_bound lru_of l_entries l_timeout].
  destruct (Z.gtb_spec (size_policy key data) (bound_ m)) as [Hg|Hg].
  { eexists. split; [reflexivity|]. exists ns. split; [now apply rep_stat|easy]. }
  assert (Hsz : 0 <= size_policy key data <= bound_ m) by lia.
  pose proof (make_room_spec (size_policy key data) now ns m R Hsz) as Hm.
  destruct (drop_old _ _ (map snd ns)) as [[es k] room] eqn:Hd.
  destruct Hm as (ns' & m' & -> & R' & Hl). cbn [bind].
  apply drop_old_split in Hd as (d & Hes & _ & _ & Hfit & _).
  unfold lru_of, with_entries in Hl. cbn in Hl. injection Hl as Hb Ht He Hst.
  assert (Hk' : key ∉ keys ns').
  { rewrite keys_entries in *. rewrite He. rewrite Hes, map_app in Hk.
    apply not_elem_of_app in Hk. tauto. }
  assert (Hfull : lru_of ns' m' = with_entries es
    (fun s => (if room then id else inc_not_inserted) (Nat.iter k inc_outdated s)) (lru_of ns m)).
  { unfold lru_of, with_entries. cbn. now rewrite Hb, Ht, He, Hst. }
  destruct room; [destruct alloc|].
  - assert (Hfits : total (map snd ns') + size_policy key data < 2 ^ 63).
    { rewrite He. specialize (Hfit eq_refl). pose proof (rep_bound _ _ R). lia. }
    destruct (rep_absent _ _ _ R' Hk') as [Hc _]. cbn. rewrite Hc. eexists. split; [reflexivity|].
    exists (ns' ++ [(next_node m', mkEntry key data (size_policy key data) now)]). split.
    + apply (rep_stat inc_new _ _ (rep_append ns' m' key data (size_policy key data) now R' Hk'
        (proj1 Hp) Hfits)).
    + unfold lru_of, with_entries. cbn. rewrite map_app. cbn. now rewrite Hb, Ht, He, Hst.
  - cbn. pose proof (queue_erase_mid (next_node m') (mkOrdered key now) (queue_ m') []) as Hq.
    rewrite Hq by (rewrite (rep_queue _ _ R'), nodes_queue_fst; now apply rep_next_fresh).
    cbn. rewrite app_nil_r. eexists. split; [reflexivity|]. exists ns'.
    split; [now apply (rep_skip_node ns' m')|]. exact (eq_sym Hfull).
  - eexists. split; [reflexivity|]. exists ns'. split; [exact R'|]. exact (eq_sym Hfull).
Qed.

(** *** Updating *)

Definition kept (key : Key) (ds : list (nat * entry)) : list (nat * entry) :=
  List.filter (fun p => has_key key (snd p)) ds.

(** The passed-over prefix of a successful [spare_old], and the rest. *)
Lemma spare_old_split key x old es es' k :
  spare_old key x old es = Some (es', k) ->
  exists d r, es = d ++ r /\ es' = List.filter (has_key key) d ++ r /\ k = length (others key d) /\
              Forall (fun e => old e = true) d /\ x <= total (others key d).
Proof.
  revert x es' k. induction es as [|e es IH]; cbn [spare_old]; intros x es' k.
  - destruct (Z.leb_spec x 0); [|easy]. intros [= <- <-]. exists [], []. repeat split; easy || lia.
  - destruct (Z.leb_spec x 0).
    { intros [= <- <-]. exists [], (e :: es). repeat split; easy || lia. }
    destruct (old e) eqn:Ho; [|easy]. destruct (has_key key e) eqn:Hk.
    + destruct (spare_old key x old es) as [[r n]|] eqn:Hs; [|easy]. intros [= <- <-].
      destruct (IH _ _ _ Hs) as (d & r' & -> & -> & -> & Hf & Hx). exists (e :: d), r'.
      cbn [List.filter]. rewrite others_cons, Hk. repeat split; try easy. now constructor.
    + destruct (spare_old key (x - e_size e) old es) as [[r n]|] eqn:Hs; [|easy]. intros [= <- <-].
      destruct (IH _ _ _ Hs) as (d & r' & -> & -> & -> & Hf & Hx). exists (e :: d), r'.
      cbn [List.filter]. rewrite others_cons, Hk, total_cons. repeat split; try easy; [|lia].
      now constructor.
Qed.

(** A part of the queue whose nodes are in the container, [n] that of [key]. *)
Definition part_ok (n : nat) (key : Key) (m : BoundedMap) (p : nat * entry) : Prop :=
  (fst p = n <-> e_key (snd p) = key) /\ 0 <= e_size (snd p) /\
  container_ m !! e_key (snd p) = Some (mkItem (e_data (snd p)) (e_size (snd p)) (fst p)).

Lemma part_ok_eqb n key m p : part_ok n key m p -> Nat.eqb (fst p) n = has_key key (snd p).
Proof.
  intros [Hp _]. unfold has_key. destruct (Nat.eqb_spec (fst p) n) as [He|He]; symmetry.
  - apply bool_decide_eq_true_2, Hp, He.
  - apply bool_decide_eq_false_2. intros Hk. now apply He, Hp.
Qed.

(** The planning loop over a part of the queue: [z] counts at least the sizes
    it may take away. *)
Lemma plan_spec n key now m qs z :
  Forall (part_ok n key m) qs -> total (others key (map snd qs)) <= z < 2 ^ 64 ->
  let spared := spare_old key (z - bound_ m) (fun e => negb (fresh (timeout_ m) now e)) (map snd qs) in
  plan n m now (nodes_queue qs) z = Ret None /\ spared = None \/
  exists ds rs, qs = ds ++ rs /\
    plan n m now (nodes_queue qs) z =
      Ret (Some (length ds, z - total (others key (map snd ds)))) /\
    z - total (others key (map snd ds)) <= bound_ m /\
    spared = Some (map snd (kept key ds ++ rs), length (others key (map snd ds))).
Proof.
  revert z. induction qs as [|[i e] qs IH]; intros z Hok Hz; cbn -[Z.pow];
    destruct (Z.gtb_spec z (bound_ m)) as [Hb|Hb], (Z.leb_spec (z - bound_ m) 0) as [Hx|Hx]; try lia.
  - now left.
  - right. exists [], []. cbn. unfold total; cbn. rewrite Z.sub_0_r. repeat split; lia || easy.
  - apply Forall_cons in Hok as [Hp Hok]. pose proof (part_ok_eqb _ _ _ _ Hp) as Hi. cbn in Hi.
    fold (nodes_queue qs).
    destruct Hp as (_ & Hs & Hc). cbn [fst snd] in *. cbn [map snd] in Hz. rewrite others_cons in Hz.
    fold (fresh (timeout_ m) now e). destruct (fresh (timeout_ m) now e); cbn [negb]; [now left|].
    assert (H0 : 0 <= total (others key (map snd qs))).
    { apply total_nonneg. unfold others. apply List.Forall_forall. intros a Ha.
      apply filter_In in Ha as [Ha _]. apply in_map_iff in Ha as [p [<- Ha]].
      rewrite List.Forall_forall in Hok. apply (Hok _ Ha). }
    rewrite Hi. destruct (has_key key e) eqn:Hk.
    + cbn [bind]. destruct (IH z Hok Hz) as [[-> ->]|(ds & rs & -> & -> & Hfit & ->)]; [now left|].
      right. exists ((i, e) :: ds), rs. cbn [map snd length kept List.filter].
      rewrite others_cons, Hk. repeat split; easy.
    + rewrite total_cons in Hz. rewrite Hc. cbn [bind it_size]. rewrite wrapu_small by lia.
      replace (z - bound_ m - e_size e) with (z - e_size e - bound_ m) by lia.
      destruct (IH (z - e_size e) Hok ltac:(lia)) as [[-> ->]|(ds & rs & -> & -> & Hfit & ->)]; [now left|].
      right. exists ((i, e) :: ds), rs. cbn [map snd length kept List.filter].
      rewrite others_cons, Hk. cbn [length bind]. rewrite total_cons.
      repeat split; [do 3 f_equal|]; lia.
  - right. exists [], ((i, e) :: qs). cbn. unfold total; cbn. rewrite Z.sub_0_r. repeat split; lia || easy.
Qed.

(** The removing loop over the planned part. *)
Lemma remove_first_spec n key ds rs done m :
  Forall (fun p => fst p = n <-> e_key (snd p) = key) ds ->
  NoDup (keys (done ++ ds ++ rs)) ->
  container_ m = list_to_map (nodes_items (done ++ ds ++ rs)) ->
  remove_first n (length ds) (nodes_queue (ds ++ rs)) m =
    (with_container (list_to_map (nodes_items (done ++ kept key ds ++ rs)))
       (with_stat (Nat.iter (length (others key (map snd ds))) inc_outdated) m),
     nodes_queue (kept key ds ++ rs)).
Proof.
  revert done m. induction ds as [|[i e] ds IH]; intros done m Hok Hd Hc.
  - destruct m; cbn in *; subst. unfold with_container, with_stat; cbn. now destruct (nodes_queue rs).
  - apply Forall_cons in Hok as [Hp Hok]. cbn [fst snd] in Hp.
    cbn [length nodes_queue app map fst snd remove_first kept List.filter].
    rewrite others_cons. destruct (Nat.eqb_spec i n) as [He|He].
    + rewrite has_key_true by now apply Hp.
      replace (done ++ ((i, e) :: ds) ++ rs) with ((done ++ [(i, e)]) ++ ds ++ rs) in *
        by now rewrite <- app_assoc.
      fold (nodes_queue (ds ++ rs)). rewrite (IH _ _ Hok Hd Hc). rewrite <- !app_assoc. reflexivity.
    + rewrite has_key_false by now rewrite <- Hp.
      fold (nodes_queue (ds ++ rs)). cbn [o_key]. cbn [app] in Hd, Hc.
      rewrite (IH done _ Hok).
      * unfold with_container, with_stat.
        cbn [length bound_ timeout_ container_ queue_ next_node size_ stat_]. now rewrite Nat.iter_succ_r.
      * unfold keys in *. rewrite map_app in *. cbn in Hd. now apply NoDup_mid in Hd as [_ Hd].
      * cbn. rewrite Hc, container_mid by exact Hd. rewrite delete_insert_id; [easy|].
        apply container_none. unfold keys in *. rewrite map_app in *. cbn in Hd.
        now apply NoDup_mid in Hd as [Hd _].
Qed.

Lemma others_kept key ds : others key (map snd (kept key ds)) = [].
Proof.
  induction ds as [|p ds IH]; [easy|]. unfold kept. cbn [List.filter].
  destruct (has_key key (snd p)) eqn:Hk; [|exact IH].
  cbn [map]. rewrite others_cons, Hk. exact IH.
Qed.

Lemma others_own key es : others key (List.filter (has_key key) es) = [].
Proof.
  induction es as [|e es IH]; [easy|]. cbn [List.filter].
  destruct (has_key key e) eqn:Hk; [|exact IH]. now rewrite others_cons, Hk.
Qed.

Lemma NoDup_filter_app {A B} (f : A -> B) (p : A -> bool) (ds rs : list A) :
  NoDup (map f (ds ++ rs)) -> NoDup (map f (List.filter p ds ++ rs)).
Proof.
  induction ds as [|a ds IH]; cbn; [easy|]. intros [Hn Hd]%NoDup_cons.
  destruct (p a); [|auto]. cbn. constructor; [|auto]. intros Hin. apply Hn.
  apply list_elem_of_In in Hin. apply list_elem_of_In. rewrite map_app, in_app_iff in *.
  destruct Hin as [Hin|]; [left|tauto]. apply in_map_iff in Hin as [q [Hq Hin]].
  apply in_map_iff. exists q. split; [easy|]. now apply filter_In in Hin as [? _].
Qed.

Lemma Forall_kept (P : nat * entry -> Prop) key ds rs :
  Forall P (ds ++ rs) -> Forall P (kept key ds ++ rs).
Proof.
  rewrite !Forall_app, !List.Forall_forall. intros [H1 H2]. split; [|easy].
  intros p Hp. apply H1. now apply filter_In in Hp as [? _].
Qed.

Lemma In_kept p key ds rs :
  In p (ds ++ rs) -> e_key (snd p) = key -> In p (kept key ds ++ rs).
Proof.
  rewrite !in_app_iff. intros [Hp|Hp] Hk; [left|now right]. apply filter_In.
  split; [easy|now apply has_key_true].
Qed.

Lemma resize_none key size es : key ∉ map e_key es -> resize key size es = es.
Proof.
  unfold resize. induction es as [|a es IH]; cbn; [easy|].
  intros [Hk Hn]%not_elem_of_cons. rewrite has_key_false by congruence. now rewrite IH.
Qed.

Lemma resize_mid e size (pre post : list entry) :
  e_key e ∉ map e_key (pre ++ post) ->
  resize (e_key e) size (pre ++ e :: post) =
  pre ++ mkEntry (e_key e) (e_data e) size (e_last e) :: post.
Proof.
  rewrite map_app, not_elem_of_app. intros [H1 H2].
  pose proof (resize_none _ size _ H1) as E1. pose proof (resize_none _ size _ H2) as E2.
  unfold resize in *. rewrite map_app. cbn. rewrite has_key_true by easy. now rewrite E1, E2.
Qed.

Lemma rep_parts pre post n e m :
  rep (pre ++ (n, e) :: post) m -> Forall (part_ok n (e_key e) m) (pre ++ (n, e) :: post).
Proof.
  intros R. apply List.Forall_forall. intros [i a] Hin. unfold part_ok. cbn.
  apply in_split in Hin as (pre' & post' & He). pose proof R as R'. rewrite He in R'.
  pose proof (rep_total_split _ _ _ _ _ R') as (_ & Hs & _).
  rewrite (rep_lookup _ _ _ _ _ R'). split_and!; [|easy..].
  assert (Hin : (i, a) = (n, e) \/ In (n, e) (pre' ++ post')).
  { assert (Hin : In (n, e) (pre ++ (n, e) :: post)) by (apply in_app_iff; right; now left).
    rewrite He in Hin. rewrite in_app_iff in *. cbn in Hin. tauto. }
  destruct Hin as [[= -> ->]|Hin]; [easy|].
  split; intros Heq; exfalso.
  - pose proof (rep_nodes _ _ R') as Hn. rewrite map_app in Hn. apply NoDup_mid in Hn as [Hn _].
    apply Hn, list_elem_of_In. rewrite <- map_app. cbn. subst i. now apply (in_map fst) in Hin.
  - apply (rep_key_fresh _ _ _ _ _ R'), list_elem_of_In. rewrite Heq.
    now apply (in_map (fun p => e_key (snd p))) in Hin.
Qed.

(** The state after the removing loop. *)
Lemma rep_spared ds rs m key (k : BoundedMapStat -> BoundedMapStat) :
  rep (ds ++ rs) m ->
  rep (kept key ds ++ rs)
    (with_size (total (map snd (kept key ds ++ rs)))
      (with_container (list_to_map (nodes_items (kept key ds ++ rs)))
        (with_queue (nodes_queue (kept key ds ++ rs)) (with_stat k m)))).
Proof.
  intros R.
  assert (Hs : Forall (fun e => 0 <= e_size e) (map snd (kept key ds ++ rs))).
  { pose proof (rep_sizes _ _ R) as Hs. apply Forall_map. rewrite Forall_map in Hs.
    exact (Forall_kept _ _ _ _ Hs). }
  constructor; cbn; try easy.
  - apply NoDup_filter_app, (rep_keys _ _ R).
  - apply NoDup_filter_app, (rep_nodes _ _ R).
  - apply Forall_kept, (rep_next _ _ R).
  - pose proof (rep_total _ _ R) as Ht. pose proof (rep_sizes _ _ R) as Hs'.
    rewrite !map_app, !total_app in *. apply Forall_app in Hs' as [Hs' _].
    enough (total (map snd (kept key ds)) <= total (map snd ds)) by lia.
    clear -Hs'. induction ds as [|p ds IH]; [easy|]. apply Forall_cons in Hs' as [H0 Hs'].
    specialize (IH Hs'). unfold kept in *. cbn [List.filter map].
    destruct (has_key key (snd p)); cbn [map]; rewrite ?total_cons; lia.
  - apply (rep_bound _ _ R).
Qed.

(** Taking an item out is dropping its entry. *)
Lemma remove_implements pre post n e m f :
  rep (pre ++ (n, e) :: post) m ->
  exists m', remove_item (e_key e) (mkItem (e_data e) (e_size e) n) (with_stat f m) = Ret m' /\
    refines m' (with_entries (others (e_key e) (map snd (pre ++ (n, e) :: post))) f
                  (lru_of (pre ++ (n, e) :: post) m)).
Proof.
  intros R. rewrite (rep_others _ _ _ _ _ R).
  destruct (rep_remove_item _ _ _ _ _ (rep_stat f _ _ R)) as (m' & Hm & R' & Hl).
  exists m'. split; [exact Hm|]. exists (pre ++ post). split; [exact R'|]. now rewrite Hl.
Qed.

(** The item of [e] gets its new size, other entries having made room. *)
Lemma resize_refines pre post n e m size z :
  rep (pre ++ (n, e) :: post) m -> 0 <= size -> size + total (map snd (pre ++ post)) < 2 ^ 63 ->
  z = size + total (map snd (pre ++ post)) ->
  refines (with_size z
            (with_container (<[e_key e := mkItem (e_data e) size n]> (container_ m)) m))
          (with_entries (resize (e_key e) size (map snd (pre ++ (n, e) :: post))) id
             (lru_of (pre ++ (n, e) :: post) m)).
Proof.
  intros R Hs Hz ->. eexists. split; [exact (rep_resize _ _ _ _ _ R size Hs Hz)|].
  unfold lru_of, with_entries. cbn. f_equal. rewrite !map_app. cbn. apply resize_mid.
  rewrite <- map_app, <- keys_entries. apply (rep_key_fresh _ _ _ _ _ R).
Qed.

(** The planned removal, and the new size. *)
Lemma spared_refines ns ds rs n e m pre post size :
  rep ns m -> ns = pre ++ (n, e) :: post -> ns = ds ++ rs ->
  0 <= size -> total (map snd (pre ++ post)) + size < 2 ^ 64 ->
  total (map snd (pre ++ post)) + size - total (others (e_key e) (map snd ds)) <= bound_ m ->
  let '(m', q) := remove_first n (length ds) (queue_ m) m in
  container_ m' !! e_key e <> None /\
  refines
    (with_size (total (map snd (pre ++ post)) + size - total (others (e_key e) (map snd ds)))
      (with_container (<[e_key e := mkItem (e_data e) size n]> (container_ m')) (with_queue q m')))
    (with_entries (resize (e_key e) size (map snd (kept (e_key e) ds ++ rs)))
       (Nat.iter (length (others (e_key e) (map snd ds))) inc_outdated) (lru_of ns m)).
Proof.
  intros R Hns Hds Hs Hz Hfit. set (key := e_key e) in *.
  assert (Hparts : Forall (part_ok n key m) ns) by (rewrite Hns in *; now apply rep_parts with (1 := R)).
  assert (HT : others key (map snd ns) = map snd (pre ++ post)).
  { rewrite Hns in *. apply (rep_others _ _ _ _ _ R). }
  rewrite (rep_queue _ _ R), Hds.
  rewrite (remove_first_spec n key ds rs [] m).
  2: { rewrite Hds in Hparts. apply Forall_app in Hparts as [Hp _].
       eapply Forall_impl; [exact Hp|]. now intros p [? _]. }
  2: { rewrite app_nil_l, <- Hds. apply (rep_keys _ _ R). }
  2: { rewrite app_nil_l, <- Hds. apply (rep_container _ _ R). }
  cbn [app]. set (f := Nat.iter _ inc_outdated).
  assert (Hin : In (n, e) ns) by (rewrite Hns; apply in_app_iff; right; now left).
  rewrite Hds in R, Hin, HT. pose proof (rep_spared ds rs m key f R) as R'.
  apply (In_kept _ key) in Hin; [|easy]. apply in_split in Hin as (pre' & post' & Hk).
  rewrite Hk in R' |- *. pose proof (rep_lookup _ _ _ _ _ R') as Hl. cbn in Hl.
  split; [cbn; fold key in Hl; now rewrite Hl|].
  assert (Hz' : total (map snd (pre ++ post)) + size - total (others key (map snd ds)) =
                size + total (map snd (pre' ++ post'))).
  { rewrite <- (rep_others _ _ _ _ _ R'), <- Hk, <- HT, !map_app, !others_app. fold key.
    rewrite others_kept, !total_app. change (total ([] : list entry)) with 0. lia. }
  pose proof (rep_bound _ _ R) as Hb.
  exact (resize_refines _ _ _ _ _ size _ R' Hs ltac:(lia) Hz').
Qed.

Lemma update_implements pre post n e m now :
  rep (pre ++ (n, e) :: post) m ->
  implements (update_ (e_key e) (mkItem (e_data e) (e_size e) n) now m)
             (lru_resize e now (lru_of (pre ++ (n, e) :: post) m)).
Proof.
  intros R. pose proof (policy_range (e_key e) (e_data e)) as Hp.
  pose proof (rep_total_split _ _ _ _ _ R) as (Ht & He & Hr & _).
  pose proof (rep_bound _ _ R) as Hb. pose proof (rep_total _ _ R) as Hlt.
  unfold update_, lru_resize. cbn [it_data it_size order l_bound l_timeout l_entries lru_of].
  rewrite (rep_others _ _ _ _ _ R), (rep_size _ _ R), Ht.
  set (size := size_policy _ _) in *. set (T := total (map snd (pre ++ post))) in *.
  rewrite wrapu_small by lia.
  assert (Hremove : implements
    (m' <- remove_item (e_key e) (mkItem (e_data e) (e_size e) n) (with_stat inc_updated m) ;;
     Ret (m', false))
    (with_entries (map snd (pre ++ post)) inc_updated (lru_of (pre ++ (n, e) :: post) m), false)).
  { destruct (remove_implements _ _ _ _ _ inc_updated R) as (m' & -> & Hm).
    rewrite (rep_others _ _ _ _ _ R) in Hm. exists m'. easy. }
  destruct (Z.leb_spec (e_size e + T + size - e_size e) (bound_ m)) as [Hl|Hl].
  - destruct (Z.gtb_spec size (bound_ m)); [lia|].
    replace (spare_old _ _ _ (map snd (pre ++ (n, e) :: post)))
      with (Some (map snd (pre ++ (n, e) :: post), 0%nat)).
    2: { destruct (pre ++ (n, e) :: post); cbn [map spare_old];
           (destruct (Z.leb_spec (T + size - bound_ m) 0); [easy|lia]). }
    eexists. split; [reflexivity|]. cbn [fst snd Nat.iter].
    apply (resize_refines _ _ _ _ _ _ _ R); fold T; lia.
  - destruct (Z.gtb_spec size (bound_ m)) as [Hg|Hg]; [exact Hremove|].
    pose proof (plan_spec n (e_key e) now m (pre ++ (n, e) :: post) (T + size)
      (rep_parts _ _ _ _ _ R)) as Hplan.
    rewrite (rep_others _ _ _ _ _ R) in Hplan. fold T in Hplan. specialize (Hplan ltac:(lia)).
    rewrite (rep_queue _ _ R). replace (e_size e + T + size - e_size e) with (T + size) by lia.
    destruct Hplan as [[-> ->]|(ds & rs & Hds & -> & Hfit & ->)]; [exact Hremove|].
    cbn [bind]. pose proof (spared_refines _ ds rs n e m pre post size R eq_refl Hds) as Hsr.
    rewrite (rep_queue _ _ R) in Hsr. fold T in Hsr.
    destruct (remove_first n (length ds) _ m) as [m' q].
    destruct (Hsr ltac:(lia) ltac:(lia) Hfit) as [Hc Hm].
    destruct (container_ m' !! e_key e); [|easy]. eexists. split; [reflexivity|exact Hm].
Qed.

(** *** Every operation *)

Lemma find_implements key now m l : refines m l -> implements (find key now m) (lru_find key now l).
Proof.
  intros (ns & R & ->). unfold find, lru_find. cbn [l_entries lru_of].
  destruct (node_cases key ns (rep_keys _ _ R)) as [Hk|(pre & n & e & post & -> & <- & _)].
  - destruct (rep_absent _ _ _ R Hk) as (Hc & -> & _). rewrite find_absent by easy.
    exists m. split; [easy|]. now exists ns.
  - rewrite (find_present _ _ _ _ _ now R), (rep_lookup_entry _ _ _ _ _ R). cbn [bind].
    eexists. split; [reflexivity|]. eexists. split; [apply (rep_found _ _ _ _ _ now R)|].
    unfold touch, lru_of. rewrite (rep_others _ _ _ _ _ R), (map_app snd (pre ++ post)). easy.
Qed.

Lemma insert_refines alloc v now m l :
  refines m l -> implements (insert alloc v now m) (lru_insert alloc v now l).
Proof.
  intros (ns & R & ->). destruct v as [key data]. unfold insert, lru_insert. cbn [fst snd l_entries lru_of].
  destruct (node_cases key ns (rep_keys _ _ R)) as [Hk|(pre & n & e & post & -> & <- & _)].
  - destruct (rep_absent _ _ _ R Hk) as (Hc & -> & _). rewrite find_absent by easy. cbn [bind].
    now apply insert_implements.
  - rewrite (find_present _ _ _ _ _ now R), (rep_lookup_entry _ _ _ _ _ R). cbn [bind].
    eexists. split; [reflexivity|].
    eexists. split; [apply (rep_stat _ _ _ (rep_found _ _ _ _ _ now R))|].
    unfold touch, lru_of. rewrite (rep_others _ _ _ _ _ R), (map_app snd (pre ++ post)). easy.
Qed.

Lemma insert_or_update_refines alloc key data now m l :
  refines m l ->
  implements (insert_or_update_ alloc key data now m) (lru_insert_or_update alloc key data now l).
Proof.
  intros (ns & R & ->). unfold insert_or_update_, lru_insert_or_update. cbn [l_entries lru_of].
  destruct (node_cases key ns (rep_keys _ _ R)) as [Hk|(pre & n & e & post & -> & <- & _)].
  - destruct (rep_absent _ _ _ R Hk) as (Hc & -> & _). rewrite find_absent by easy. cbn [bind].
    destruct (insert_implements alloc ns m key data now R Hk) as (m' & -> & Hm). cbn [bind].
    destruct (lru_add alloc key data now (lru_of ns m)) as [l' r]. exists m'. easy.
  - rewrite (find_present _ _ _ _ _ now R), (rep_lookup_entry _ _ _ _ _ R). cbn [bind].
    pose proof (rep_touch _ _ _ _ _ R data now) as R'.
    assert (Hl : with_entries (touch e data now (map snd (pre ++ (n, e) :: post))) id
                   (lru_of (pre ++ (n, e) :: post) m) =
                 lru_of ((pre ++ post) ++ [(n, mkEntry (e_key e) data (e_size e) now)]) m).
    { unfold touch, lru_of. rewrite (rep_others _ _ _ _ _ R), (map_app snd (pre ++ post)). easy. }
    rewrite Hl. pose proof (update_implements _ _ _ _ _ now R') as (m' & Hm & Hr).
    cbn [e_key e_data e_size] in Hm. cbn [it_size order].
    change (container_ (with_queue _ m)) with (container_ m).
    unfold with_container, with_queue in *. cbn [bound_ timeout_ container_ queue_ next_node size_ stat_] in *.
    rewrite Hm. unfold lru_of in Hr |- *. cbn [bound_ timeout_ stat_] in Hr |- *.
    destruct (lru_resize _ now _) as [l' done]. cbn [bind fst snd] in *.
    destruct Hr as (ns' & Rn & ->). eexists. split; [reflexivity|]. exists ns'.
    destruct done; (split; [|reflexivity]); [now apply rep_stat|exact Rn].
Qed.

Lemma update_refines key now m l :
  refines m l ->
  exists m', update key now m = Ret m' /\ refines m' (lru_update key now l).
Proof.
  intros (ns & R & ->). unfold update, lru_update. cbn [l_entries lru_of].
  destruct (node_cases key ns (rep_keys _ _ R)) as [Hk|(pre & n & e & post & -> & <- & _)].
  - destruct (rep_absent _ _ _ R Hk) as (-> & -> & _). exists m. split; [easy|]. now exists ns.
  - rewrite (rep_lookup _ _ _ _ _ R), (rep_lookup_entry _ _ _ _ _ R).
    destruct (update_implements _ _ _ _ _ now R) as (m' & -> & Hm). now exists m'.
Qed.

Lemma erase_refines key m l :
  refines m l -> exists m', erase key m = Ret m' /\ refines m' (lru_erase key l).
Proof.
  intros (ns & R & ->). unfold erase, lru_erase. cbn [l_entries lru_of].
  destruct (node_cases key ns (rep_keys _ _ R)) as [Hk|(pre & n & e & post & -> & <- & _)].
  - destruct (rep_absent _ _ _ R Hk) as (-> & _ & ->). exists m. split; [easy|]. now exists ns.
  - rewrite (rep_lookup _ _ _ _ _ R). apply (remove_implements _ _ _ _ _ id (rep_stat id _ _ R)).
Qed.

(** The bounds that are set are far from the end of [size_t]. *)
Definition op_ok (op : operation) : Prop :=
  match op with SetBound b => 0 <= b < 2 ^ 63 | _ => True end.

Lemma cache_step_refines op m l :
  refines m l -> op_ok op -> implements (step op m) (lru_step op l).
Proof.
  intros R Hop. destruct op; cbn [step lru_step].
  - destruct (find_implements key now m l R) as (m' & -> & Hm). destruct (lru_find key now l).
    now exists m'.
  - destruct (insert_refines alloc value now m l R) as (m' & -> & Hm).
    destruct (lru_insert alloc value now l). now exists m'.
  - destruct (insert_or_update_refines alloc key data now m l R) as (m' & -> & Hm).
    destruct (lru_insert_or_update alloc key data now l). now exists m'.
  - destruct (update_refines key now m l R) as (m' & -> & Hm). now exists m'.
  - destruct (erase_refines key m l R) as (m' & -> & Hm). now exists m'.
  - destruct R as (ns & R & ->). exists (clear m). split; [easy|]. exists []. split; [|easy].
    pose proof (rep_bound _ _ R). constructor; cbn; try easy; constructor.
  - exists m. split; [|exact R]. destruct R as (ns & R & ->). cbn. unfold map_size.
    rewrite (rep_container _ _ R), map_size_list_to_map
      by (rewrite nodes_items_keys; apply (rep_keys _ _ R)).
    unfold nodes_items. now rewrite !length_map.
  - destruct R as (ns & R & ->). eexists. split; [reflexivity|]. exists ns.
    destruct reset; (split; [|easy]); [now apply rep_stat|exact R].
  - destruct R as (ns & R & ->). eexists. split; [reflexivity|]. exists ns. split; [|easy].
    destruct R. now constructor.
  - destruct R as (ns & R & ->). eexists. split; [reflexivity|]. exists ns. split; [|easy].
    destruct R. now constructor.
Qed.

Lemma run_refines ops m l :
  refines m l -> Forall op_ok ops -> implements (run ops m) (lru_run ops l).
Proof.
  revert m l. induction ops as [|op ops IH]; intros m l R Hops; cbn.
  - now exists m.
  - apply Forall_cons in Hops as [Hop Hops]. destruct (cache_step_refines op m l R Hop) as (m1 & -> & R1).
    cbn. destruct (lru_step op l) as [l1 r]. destruct (IH m1 l1 R1 Hops) as (m2 & -> & R2). cbn.
    destruct (lru_run ops l1) as [l2 rs]. now exists m2.
Qed.

Lemma new_refines bound timeout :
  0 <= bound < 2 ^ 63 -> refines (new_map bound timeout) (mkLru bound timeout [] stat_zero).
Proof. intros Hb. exists []. split; [|easy]. constructor; cbn; easy || constructor. Qed.

Lemma copy_to_refines m l :
  refines m l -> copy_to m ≡ₚ map (fun e => (e_key e, e_data e)) (l_entries l).
Proof.
  intros (ns & R & ->). unfold copy_to. rewrite (rep_container _ _ R).
  rewrite map_to_list_to_map by (rewrite nodes_items_keys; apply (rep_keys _ _ R)).
  unfold nodes_items, lru_of. cbn. now rewrite !map_map.
Qed.

(** C15: the cache is a list of entries in order of recency.  From the
    constructor, any sequence of operations, with any times and any failures of
    allocation, has no undefined behaviour (no failed [assert], no use of an
    erased list iterator), and answers as the same operations on the abstract
    [lru] do: an insertion drops outdated entries from the front until the new
    one fits, an update plans the same before it drops any.  At the end queue,
    container and [size_] still describe the same entries, and [copy_to] gives
    exactly these. *)
Theorem bounded_map_refines bound timeout ops :
  0 <= bound < 2 ^ 63 -> Forall op_ok ops ->
  exists m',
    run ops (new_map bound timeout) =
      Ret (m', snd (lru_run ops (mkLru bound timeout [] stat_zero))) /\
    refines m' (fst (lru_run ops (mkLru bound timeout [] stat_zero))) /\
    copy_to m' ≡ₚ map (fun e => (e_key e, e_data e))
                    (l_entries (fst (lru_run ops (mkLru bound timeout [] stat_zero)))).
Proof.
  intros Hb Hops. destruct (run_refines ops _ _ (new_refines bound timeout Hb) Hops) as (m' & Hr & R).
  exists m'. split; [exact Hr|]. split; [exact R|]. now apply copy_to_refines.
Qed.

End Rep.
