(* ===== verification/BoundedMapProps.v ===== *)
(** * BoundedMapProps: the bound, the evictions and the statistics of a cache *)

From Stdlib Require Import ZArith List Bool Lia.
From stdpp Require Import base list gmap fin_maps.
From S2P Require Import Prelude Time BoundedMap BoundedMapRep.
Open Scope Z_scope.
Open Scope outcome_scope.

Section Props.
Context {Key : Type} `{CK : Countable Key} {Data : Type}.
Context `{SP : SizePolicy Key Data} {SPO : SizePolicyOk Key Data}.
Local Abbreviation Queue := (Queue Key).
Local Abbreviation Ordered := (Ordered Key).
Local Abbreviation Item := (Item Data).
Local Abbreviation entry := (entry Key Data).
Local Abbreviation lru := (lru Key Data).
Local Abbreviation insert_result := (insert_result Key Data).
Local Abbreviation operation := (operation Key Data).
Local Abbreviation reply := (reply Key Data).
Local Abbreviation BoundedMap := (BoundedMap Key Data).
Implicit Types (key : Key) (data : Data) (now : Time) (e : entry) (es : list entry).
Implicit Types (ns ds rs pre post : list (nat * entry)) (l : lru) (m : BoundedMap) (op : operation).
Implicit Types (k : nat) (old : entry -> bool).

(** ** The bound *)

Definition lru_wf (l : lru) : Prop :=
  NoDup (map e_key (l_entries l)) /\ Forall (fun e => 0 <= e_size e) (l_entries l).

Lemma refines_wf m l : refines m l -> lru_wf l.
Proof.
  intros (ns & R & ->). split; cbn; [|apply (rep_sizes _ _ R)].
  rewrite <- keys_entries. apply (rep_keys _ _ R).
Qed.

(** Invariants of the abstract cache over a run of the class. *)
Lemma run_invariant (P : lru -> Prop) (Q : operation -> Prop) :
  (forall op l, lru_wf l -> Q op -> P l -> P (fst (lru_step op l))) ->
  forall ops m l, refines m l -> Forall op_ok ops -> Forall Q ops -> P l ->
    P (fst (lru_run ops l)).
Proof.
  intros Hstep ops. induction ops as [|op ops IH]; intros m l R Hops HQ HP; cbn; [easy|].
  apply Forall_cons in Hops as [Hop Hops]. apply Forall_cons in HQ as [Hq HQ].
  destruct (cache_step_refines op m l R Hop) as (m1 & _ & R1).
  pose proof (Hstep op l (refines_wf _ _ R) Hq HP) as HP1.
  destruct (lru_step op l) as [l1 r]. pose proof (IH m1 l1 R1 Hops HQ HP1) as H2.
  now destruct (lru_run ops l1).
Qed.

Lemma lookup_entry_Some key es e : lookup_entry key es = Some e -> e_key e = key /\ In e es.
Proof.
  intros Hl. apply find_some in Hl as [Hin Hk]. split; [|easy].
  now apply bool_decide_eq_true_1 in Hk.
Qed.

Lemma total_others key es :
  Forall (fun e => 0 <= e_size e) es -> total (others key es) <= total es.
Proof.
  induction 1 as [|e es He Hes IH]; [easy|]. rewrite others_cons.
  destruct (has_key key e); rewrite !total_cons; lia.
Qed.

Lemma total_others_lookup key es e :
  Forall (fun e => 0 <= e_size e) es -> lookup_entry key es = Some e ->
  total (others key es) + e_size e <= total es.
Proof.
  induction 1 as [|a es He Hes IH]; [easy|]. rewrite others_cons. unfold lookup_entry. cbn [List.find].
  destruct (has_key key a) eqn:Hk.
  - intros [= ->]. pose proof (total_others key es Hes). rewrite total_cons. lia.
  - intros Hl. rewrite !total_cons. specialize (IH Hl). lia.
Qed.

Lemma total_resize key size es :
  NoDup (map e_key es) -> 0 <= size ->
  total (resize key size es) <= size + total (others key es).
Proof.
  intros Hd Hs. induction es as [|e es IH]; [cbn; unfold total; cbn; lia|].
  apply NoDup_cons in Hd as [Hn Hd]. specialize (IH Hd). unfold resize in *. cbn [map].
  rewrite others_cons. destruct (has_key key e) eqn:Hk; rewrite !total_cons; [|lia].
  apply bool_decide_eq_true_1 in Hk. subst key. rewrite others_none in * by easy.
  pose proof (resize_none (e_key e) size es Hn) as Hr. unfold resize in Hr. rewrite Hr. cbn. lia.
Qed.

Lemma total_touch key es e data now :
  Forall (fun e => 0 <= e_size e) es -> lookup_entry key es = Some e ->
  total (touch e data now es) <= total es.
Proof.
  intros Hs Hl. pose proof (total_others_lookup _ _ _ Hs Hl). apply lookup_entry_Some in Hl as [Hk _].
  unfold touch. rewrite total_snoc, Hk. cbn. lia.
Qed.

Definition bounds_below (B : Z) (op : operation) : Prop :=
  match op with SetBound b => b <= B | _ => True end.

Definition fits (B : Z) (l : lru) : Prop := l_bound l <= B /\ total (l_entries l) <= B.

Lemma fits_add B alloc key data now l :
  lru_wf l -> fits B l -> fits B (fst (lru_add alloc key data now l)).
Proof.
  intros [_ Hs] [Hb Ht]. unfold lru_add. pose proof (policy_range key data).
  destruct (Z.gtb_spec (size_policy key data) (l_bound l)); [easy|].
  destruct (drop_old _ _ _) as [[es k] room] eqn:Hd.
  apply drop_old_split in Hd as (d & He & _ & _ & Hfit & _).
  assert (total es <= B).
  { rewrite He in *. apply Forall_app in Hs as [Hs _]. rewrite total_app in Ht.
    pose proof (total_nonneg _ Hs). lia. }
  destruct room; [destruct alloc|]; split; try easy. cbn [fst with_entries l_entries].
  rewrite total_snoc. cbn. specialize (Hfit eq_refl). lia.
Qed.

Lemma fits_resize B e now l :
  lru_wf l -> fits B l -> fits B (fst (lru_resize e now l)).
Proof.
  intros [Hk Hs] [Hb Ht]. unfold lru_resize. pose proof (policy_range (e_key e) (e_data e)).
  pose proof (total_others (e_key e) _ Hs) as Ho.
  destruct (Z.gtb_spec (size_policy (e_key e) (e_data e)) (l_bound l)); [split; cbn [fst with_entries l_entries l_bound]; lia|].
  destruct (spare_old _ _ _ _) as [[es k]|] eqn:Hd; [|split; cbn [fst with_entries l_entries l_bound]; lia].
  apply spare_old_split in Hd as (d & r & He & -> & _ & _ & Hx). split; [easy|].
  cbn [fst with_entries l_entries].
  rewrite He in Hk, Hx. rewrite others_app, total_app in Hx.
  apply (NoDup_filter_app e_key (has_key (e_key e))) in Hk.
  pose proof (total_resize (e_key e) (size_policy (e_key e) (e_data e)) _ Hk
    (proj1 (policy_range _ _))) as Hr.
  rewrite others_app, others_own, total_app in Hr. change (total ([] : list entry)) with 0 in Hr. lia.
Qed.

Lemma touch_wf key e data now l f :
  lru_wf l -> lookup_entry key (l_entries l) = Some e ->
  lru_wf (with_entries (touch e data now (l_entries l)) f l).
Proof.
  intros [Hk Hs] Hl. apply lookup_entry_Some in Hl as [_ Hin].
  apply in_split in Hin as (pre & post & He). unfold lru_wf, touch. cbn. rewrite He in *.
  assert (Hf : e_key e ∉ map e_key (pre ++ post)).
  { rewrite map_app in *. cbn in Hk. now apply NoDup_mid in Hk as [Hn _]. }
  rewrite others_mid by exact Hf. split.
  - rewrite map_app in *. cbn in *. now apply NoDup_move in Hk; rewrite map_app.
  - apply Forall_app in Hs as [H1 H2]. apply Forall_cons in H2 as [H3 H2].
    rewrite !Forall_app. split_and!; [easy..|now constructor].
Qed.

Lemma cache_fits_step B op l :
  lru_wf l -> bounds_below B op -> fits B l -> fits B (fst (lru_step op l)).
Proof.
  intros W Hq F. pose proof W as [Hk Hs]. destruct F as [Hb Ht].
  assert (Htouch : forall key e data now f, lookup_entry key (l_entries l) = Some e ->
    fits B (with_entries (touch e data now (l_entries l)) f l)).
  { intros key e data now f Hl. split; [easy|]. pose proof (total_touch _ _ _ data now Hs Hl).
    cbn [with_entries l_entries]. lia. }
  destruct op; cbn [lru_step].
  - unfold lru_find. destruct (lookup_entry key _) as [e|] eqn:Hl; [|easy]. cbn. eauto.
  - destruct value as [key data]. unfold lru_insert. cbn [fst snd].
    destruct (lookup_entry key _) as [e|] eqn:Hl; [cbn; eauto|].
    pose proof (fits_add B alloc key data now l W ltac:(easy)) as F.
    now destruct (lru_add alloc key data now l).
  - unfold lru_insert_or_update. destruct (lookup_entry key _) as [e|] eqn:Hl.
    + pose proof (fits_resize B (mkEntry key data (e_size e) now) now _
        (touch_wf _ _ data now _ id W Hl) (Htouch _ _ _ _ _ Hl)) as F.
      destruct (lru_resize _ now _) as [l' []]; cbn in *; easy.
    + pose proof (fits_add B alloc key data now l W ltac:(easy)) as F.
      now destruct (lru_add alloc key data now l).
  - unfold lru_update. destruct (lookup_entry key _) as [e|] eqn:Hl; [|easy].
    now apply fits_resize.
  - split; [easy|]. pose proof (total_others key _ Hs). cbn [fst lru_erase with_entries l_entries]. lia.
  - split; [easy|]. pose proof (total_nonneg _ Hs). change (0 <= B). lia.
  - easy.
  - now destruct reset.
  - easy.
  - easy.
Qed.

Lemma sum_perm (l l' : list Z) : l ≡ₚ l' -> fold_right Z.add 0 l = fold_right Z.add 0 l'.
Proof. induction 1; cbn; lia. Qed.

(** C17: the bound is kept.  [size_], which is the sum of the sizes recorded in
    the container, never exceeds the largest bound the cache has had: the one
    of the constructor if none is set later ([bound(new_bound)] removes
    nothing, so a lowered bound takes effect only with later insertions). *)
Theorem bounded_map_bounded B bound timeout ops m' (rs : list reply) :
  0 <= bound <= B -> B < 2 ^ 63 -> Forall op_ok ops -> Forall (bounds_below B) ops ->
  run ops (new_map bound timeout) = Ret (m', rs) ->
  0 <= size_ m' <= B /\
  size_ m' = fold_right Z.add 0 (map (fun p => it_size (snd p)) (map_to_list (container_ m'))).
Proof.
  intros Hb HB Hops Hq Hrun. assert (Hb' : 0 <= bound < 2 ^ 63) by lia.
  pose proof (new_refines (Key := Key) (Data := Data) bound timeout Hb') as R0.
  destruct (run_refines ops _ _ R0 Hops) as (m & Hm & R).
  rewrite Hrun in Hm. injection Hm as -> _.
  assert (F : fits B (mkLru bound timeout [] stat_zero)) by (split; cbn; unfold total; cbn; lia).
  pose proof (run_invariant _ _ (cache_fits_step B) ops _ _ R0 Hops Hq F) as [_ Ht].
  destruct R as (ns & R & Hl). rewrite Hl in Ht. cbn [lru_of l_entries] in Ht. rewrite (rep_size _ _ R).
  pose proof (total_nonneg _ (rep_sizes _ _ R)). split; [lia|].
  rewrite (rep_container _ _ R). erewrite sum_perm.
  2: { apply Permutation_map, map_to_list_to_map. rewrite nodes_items_keys. apply (rep_keys _ _ R). }
  unfold nodes_items, total. now rewrite !map_map.
Qed.

(** ** What is evicted, what is kept *)

(** What the cache holds of a key: data, recorded size, time of last use. *)
Definition content (m : BoundedMap) (key : Key) : option (Data * Z * Time) :=
  match container_ m !! key with
  | None => None
  | Some itor =>
      match queue_at (order itor) (queue_ m) with
      | Ret o => Some (it_data itor, it_size itor, last_used o)
      | _ => None
      end
  end.

Definition entry_content (e : entry) : Data * Z * Time := (e_data e, e_size e, e_last e).

Lemma content_refines m l key :
  refines m l -> content m key = option_map entry_content (lookup_entry key (l_entries l)).
Proof.
  intros (ns & R & ->). unfold content. cbn [lru_of l_entries].
  destruct (node_cases key ns (rep_keys _ _ R)) as [Hk|(pre & n & e & post & -> & <- & _)].
  - now destruct (rep_absent _ _ _ R Hk) as (-> & -> & _).
  - rewrite (rep_lookup _ _ _ _ _ R), (rep_lookup_entry _ _ _ _ _ R). cbn [order].
    now rewrite (rep_queue_at _ _ _ _ _ R).
Qed.

(** A state of a cache in use. *)
Definition reachable (bound : Z) (timeout : Time) (m : BoundedMap) : Prop :=
  exists ops (rs : list reply), 0 <= bound < 2 ^ 63 /\ Forall op_ok ops /\ run ops (new_map bound timeout) = Ret (m, rs).

Lemma reachable_refines bound timeout m : reachable bound timeout m -> exists l, refines m l.
Proof.
  intros (ops & rs & Hb & Hops & Hr).
  destruct (run_refines ops _ _ (new_refines bound timeout Hb) Hops) as (m1 & Hm & R).
  rewrite Hr in Hm. injection Hm as -> _. eauto.
Qed.

(** The key and the time of the operations that use or change an item. *)
Definition acts_on (op : operation) : option (Key * Time) :=
  match op with
  | Find key now | Insert _ (key, _) now | InsertOrUpdate _ key _ now | Update key now =>
      Some (key, now)
  | _ => None
  end.

Definition other_keys (key : Key) (q : Queue) : list Ordered :=
  List.filter (fun o => negb (bool_decide (o_key o = key))) (map snd q).

Lemma other_keys_refines m l key :
  refines m l ->
  other_keys key (queue_ m) = map (fun e => mkOrdered (e_key e) (e_last e)) (others key (l_entries l)).
Proof.
  intros (ns & R & ->). rewrite (rep_queue _ _ R). unfold other_keys, nodes_queue, others. cbn.
  clear R. induction ns as [|p ns IH]; [easy|]. cbn. unfold has_key in *.
  destruct (bool_decide _); cbn; now rewrite IH.
Qed.

(** The front of the other entries goes, if it is old enough. *)
Definition drops_front (key : Key) (now : Time) (l l' : lru) : Prop :=
  exists d, others key (l_entries l) = d ++ others key (l_entries l') /\
            Forall (fun e => fresh (l_timeout l) now e = false) d.

Lemma drops_none key now l l' :
  others key (l_entries l) = others key (l_entries l') -> drops_front key now l l'.
Proof. intros He. exists []. split; [exact He|constructor]. Qed.

Lemma others_idem key es : others key (others key es) = others key es.
Proof.
  induction es as [|e es IH]; [easy|]. rewrite others_cons.
  destruct (has_key key e) eqn:Hk; [easy|]. now rewrite others_cons, Hk, IH.
Qed.

Lemma others_snoc key es e : e_key e = key -> others key (es ++ [e]) = others key es.
Proof. intros Hk. rewrite others_app, others_cons, has_key_true by easy. apply app_nil_r. Qed.

Lemma others_touch key e data now es :
  e_key e = key -> others key (touch e data now es) = others key es.
Proof. intros <-. unfold touch. rewrite others_snoc by easy. apply others_idem. Qed.

Lemma others_resize key size es : others key (resize key size es) = others key es.
Proof.
  induction es as [|e es IH]; [easy|]. unfold resize in *. cbn [map]. rewrite !others_cons.
  destruct (has_key key e) eqn:Hk.
  - unfold has_key in *. cbn [e_key]. now rewrite Hk.
  - now rewrite Hk, IH.
Qed.

Lemma Forall_others (P : entry -> Prop) key es : Forall P es -> Forall P (others key es).
Proof.
  induction 1 as [|e es He Hes IH]; [constructor|]. rewrite others_cons.
  destruct (has_key key e); [easy|now constructor].
Qed.

Lemma drops_add alloc key data now l : drops_front key now l (fst (lru_add alloc key data now l)).
Proof.
  unfold lru_add. destruct (Z.gtb_spec (size_policy key data) (l_bound l)); [now apply drops_none|].
  destruct (drop_old _ _ _) as [[es k] room] eqn:Hd.
  apply drop_old_split in Hd as (d & He & _ & Hold & _).
  exists (others key d). split.
  - rewrite He, others_app. f_equal.
    destruct room; [destruct alloc|]; cbn [fst with_entries l_entries]; try easy.
    now rewrite others_snoc.
  - apply Forall_others. eapply Forall_impl; [exact Hold|]. cbn.
    intros e. now destruct (fresh _ _ _).
Qed.

Lemma drops_resize e now l : drops_front (e_key e) now l (fst (lru_resize e now l)).
Proof.
  unfold lru_resize. set (key := e_key e).
  assert (Hdrop : drops_front key now l (with_entries (others key (l_entries l)) inc_updated l)).
  { apply drops_none. cbn [with_entries l_entries]. now rewrite others_idem. }
  destruct (Z.gtb_spec (size_policy key (e_data e)) (l_bound l)); [exact Hdrop|].
  destruct (spare_old _ _ _ _) as [[es k]|] eqn:Hd; [|exact Hdrop].
  apply spare_old_split in Hd as (d & r & He & -> & _ & Hold & _).
  exists (others key d). split.
  - cbn [fst with_entries l_entries]. now rewrite others_resize, He, !others_app, others_own.
  - apply Forall_others. eapply Forall_impl; [exact Hold|]. cbn. intros a. now destruct (fresh _ _ _).
Qed.

Lemma drops_step op key now l :
  acts_on op = Some (key, now) -> drops_front key now l (fst (lru_step op l)).
Proof.
  destruct op as [k t|alloc [k d] t|alloc k d t|k t| | | | | |]; intros [= <- <-]; cbn [lru_step].
  - unfold lru_find. destruct (lookup_entry k _) as [e|] eqn:Hl; [|now apply drops_none].
    apply lookup_entry_Some in Hl as [Hk _]. apply drops_none. symmetry. now apply others_touch.
  - unfold lru_insert. cbn [fst snd]. destruct (lookup_entry k _) as [e|] eqn:Hl.
    + apply lookup_entry_Some in Hl as [Hk _]. apply drops_none. symmetry. now apply others_touch.
    + pose proof (drops_add alloc k d t l) as Hd. now destruct (lru_add alloc k d t l).
  - unfold lru_insert_or_update. destruct (lookup_entry k _) as [e|] eqn:Hl.
    + apply lookup_entry_Some in Hl as [Hk _].
      pose proof (drops_resize (mkEntry k d (e_size e) t) t
                    (with_entries (touch e d t (l_entries l)) id l)) as (g & Hg & Hf).
      cbn [e_key with_entries l_entries l_timeout] in Hg, Hf. rewrite others_touch in Hg by easy.
      destruct (lru_resize _ t _) as [l' []]; now exists g.
    + pose proof (drops_add alloc k d t l) as Hd. now destruct (lru_add alloc k d t l).
  - unfold lru_update. destruct (lookup_entry k _) as [e|] eqn:Hl; [|now apply drops_none].
    apply lookup_entry_Some in Hl as [<- _]. apply drops_resize.
Qed.

Lemma lookup_others (k key : Key) es : k <> key -> lookup_entry k (others key es) = lookup_entry k es.
Proof.
  intros Hk. induction es as [|e es IH]; [easy|]. rewrite others_cons.
  unfold lookup_entry in *. cbn [List.find]. destruct (has_key key e) eqn:He.
  - apply bool_decide_eq_true_1 in He. rewrite has_key_false by congruence. exact IH.
  - cbn [List.find]. now destruct (has_key k e).
Qed.

Lemma lookup_app (k : Key) (es es' : list entry) :
  lookup_entry k (es ++ es') =
  match lookup_entry k es with Some e => Some e | None => lookup_entry k es' end.
Proof.
  unfold lookup_entry. induction es as [|e es IH]; [easy|]. cbn. now destruct (has_key k e).
Qed.

Lemma lookup_Some_in (k : Key) es e : lookup_entry k es = Some e -> In k (map e_key es).
Proof. intros Hl. apply lookup_entry_Some in Hl as [<- Hin]. now apply (in_map e_key). Qed.

Lemma lookup_In (k : Key) es : In k (map e_key es) -> lookup_entry k es <> None.
Proof.
  unfold lookup_entry. induction es as [|e es IH]; cbn; [easy|].
  intros [He|Hin]; [now rewrite has_key_true|]. destruct (has_key k e); [easy|auto].
Qed.

(** C16: nothing else is evicted.  In any state in use, a search, an
    insertion, an update or a replacement of a key takes other keys out of the
    cache only from the front of the queue (the least recent ones), only those
    last used at least the timeout ago, and leaves the data, size, time and
    place of all others as they were. *)
Theorem bounded_map_evicts bound timeout m op key now m' r :
  reachable bound timeout m -> acts_on op = Some (key, now) -> step op m = Ret (m', r) ->
  exists gone,
    other_keys key (queue_ m) = gone ++ other_keys key (queue_ m') /\
    Forall (fun o => time_gt (time_add (last_used o) (timeout_ m)) now = false) gone /\
    forall k : Key, k <> key ->
      In k (map o_key gone) /\ content m' k = None \/
      ~ In k (map o_key gone) /\ content m' k = content m k.
Proof.
  intros Hm Hop Hstep. destruct (reachable_refines _ _ _ Hm) as [l R].
  destruct (cache_step_refines op m l R) as (m1 & Hm1 & R1); [now destruct op|].
  rewrite Hstep in Hm1. injection Hm1 as -> _.
  destruct (drops_step op key now l Hop) as (d & Hd & Hf). exists (map (fun e => mkOrdered (e_key e) (e_last e)) d).
  rewrite (other_keys_refines _ _ _ R), (other_keys_refines _ _ _ R1), Hd, map_app.
  split; [easy|]. split.
  { apply Forall_map. destruct R as (ns & _ & ->). exact Hf. }
  intros k Hk. rewrite map_map. cbn.
  rewrite (content_refines _ _ _ R), (content_refines _ _ _ R1).
  rewrite <- (lookup_others k key (l_entries l)), Hd, lookup_app by easy.
  rewrite <- (lookup_others k key (l_entries (fst _))) by easy.
  destruct (in_dec (fun a b => decide (a = b)) k (map e_key d)) as [Hin|Hnin]; [left|right]; (split; [easy|]).
  - destruct (lookup_entry k (others key (l_entries (fst _)))) as [e|] eqn:Hl; [exfalso|easy].
    destruct (refines_wf _ _ R) as [Hnd _]. apply lookup_Some_in in Hl.
    pose proof (NoDup_filter_app e_key (fun e => negb (has_key key e)) (l_entries l) []) as Hn.
    rewrite !app_nil_r in Hn. specialize (Hn Hnd). fold (others key (l_entries l)) in Hn.
    rewrite Hd, map_app in Hn. apply NoDup_app in Hn as (_ & Hn & _).
    apply (Hn k); now apply list_elem_of_In.
  - destruct (lookup_entry k d) as [e|] eqn:Hl; [|easy]. now apply lookup_Some_in in Hl.
Qed.

(** *** The key itself *)

(** What an operation on a key makes of what the cache holds of that key, and
    what it returns. *)
Definition insert_effect (alloc : bool) (key : Key) (data : Data) (now : Time)
    (after : option (Data * Z * Time)) (r : insert_result) : Prop :=
  match r with
  | Inserted (Some v) true => v = (key, data) /\ after = Some (data, size_policy key data, now)
  | Inserted None false => after = None
  | InsertThrows => alloc = false /\ after = None
  | _ => False
  end.

Definition own_key_effect (op : operation) (before after : option (Data * Z * Time)) (r : reply) : Prop :=
  match op with
  | Find key now =>
      match before with
      | None => r = RIterator None /\ after = None
      | Some (d, s, _) => r = RIterator (Some (key, d)) /\ after = Some (d, s, now)
      end
  | Insert alloc (key, data) now =>
      match before with
      | None => exists i, r = RInsert i /\ insert_effect alloc key data now after i
      | Some (d, s, _) => r = RInsert (Inserted (Some (key, d)) false) /\ after = Some (d, s, now)
      end
  | InsertOrUpdate alloc key data now =>
      match before with
      | None => exists i, r = RUpdate (Some i) /\ insert_effect alloc key data now after i
      | Some _ => r = RUpdate None /\ (after = Some (data, size_policy key data, now) \/ after = None)
      end
  | Update key _ =>
      match before with
      | None => after = None
      | Some (d, _, t) => after = Some (d, size_policy key d, t) \/ after = None
      end
  | _ => True
  end.

Lemma lookup_others_own key es : lookup_entry key (others key es) = None.
Proof.
  induction es as [|e es IH]; [easy|]. rewrite others_cons.
  destruct (has_key key e) eqn:Hk; [easy|]. unfold lookup_entry in *. cbn. now rewrite Hk.
Qed.

Lemma lookup_touch_entry key e data now es :
  e_key e = key ->
  lookup_entry key (touch e data now es) = Some (mkEntry key data (e_size e) now).
Proof.
  intros <-. unfold touch. rewrite lookup_app, lookup_others_own. unfold lookup_entry. cbn.
  now rewrite has_key_true.
Qed.

Lemma lookup_touch key e data now es :
  e_key e = key ->
  option_map entry_content (lookup_entry key (touch e data now es)) = Some (data, e_size e, now).
Proof. intros Hk. now rewrite lookup_touch_entry. Qed.

Lemma lookup_resize key size es :
  lookup_entry key (resize key size es) =
  option_map (fun e => mkEntry (e_key e) (e_data e) size (e_last e)) (lookup_entry key es).
Proof.
  unfold lookup_entry, resize. induction es as [|e es IH]; [easy|]. cbn.
  destruct (has_key key e) eqn:Hk; [|now rewrite Hk].
  unfold has_key in *. cbn. now rewrite Hk.
Qed.

Lemma lookup_own_filter key (d r : list entry) :
  lookup_entry key (List.filter (has_key key) d ++ r) = lookup_entry key (d ++ r).
Proof.
  unfold lookup_entry. induction d as [|e d IH]; [easy|]. cbn.
  destruct (has_key key e) eqn:Hk; [cbn; now rewrite Hk|easy].
Qed.

Lemma add_effect alloc key data now l :
  lookup_entry key (l_entries l) = None ->
  insert_effect alloc key data now
    (option_map entry_content (lookup_entry key (l_entries (fst (lru_add alloc key data now l)))))
    (snd (lru_add alloc key data now l)).
Proof.
  intros Hl. unfold lru_add.
  destruct (Z.gtb_spec (size_policy key data) (l_bound l)); [cbn [fst snd with_entries l_entries insert_effect]; now rewrite Hl|].
  destruct (drop_old _ _ _) as [[es k] room] eqn:Hd.
  apply drop_old_split in Hd as (d & He & _). rewrite He, lookup_app in Hl.
  destruct (lookup_entry key d); [easy|].
  destruct room; [destruct alloc|]; cbn [fst snd with_entries l_entries insert_effect].
  - rewrite lookup_app, Hl. unfold lookup_entry. cbn. now rewrite has_key_true.
  - now rewrite Hl.
  - now rewrite Hl.
Qed.

Lemma resize_effect e now l :
  lookup_entry (e_key e) (l_entries l) = Some e ->
  let after := option_map entry_content
                 (lookup_entry (e_key e) (l_entries (fst (lru_resize e now l)))) in
  after = Some (e_data e, size_policy (e_key e) (e_data e), e_last e) \/ after = None.
Proof.
  intros Hl. unfold lru_resize. cbv zeta.
  destruct (Z.gtb_spec (size_policy (e_key e) (e_data e)) (l_bound l));
    [right; cbn [fst with_entries l_entries]; now rewrite lookup_others_own|].
  destruct (spare_old _ _ _ _) as [[es k]|] eqn:Hd;
    [left|right; cbn [fst with_entries l_entries]; now rewrite lookup_others_own].
  apply spare_old_split in Hd as (d & r & He & -> & _). rewrite He in Hl.
  cbn [fst with_entries l_entries]. now rewrite lookup_resize, lookup_own_filter, Hl.
Qed.

(** what an operation does to its own key.  A search finds what the cache
    holds and makes it most recent; an insertion never replaces: it returns the
    item that is there, or stores the new one with the size of its data, or
    fails and leaves the key absent, throwing only when an allocation fails;
    [insert_or_update] and [update] give the item its new size, or remove it
    when room for that cannot be made. *)
Theorem bounded_map_own_key bound timeout m op key now m' r :
  reachable bound timeout m -> acts_on op = Some (key, now) -> step op m = Ret (m', r) ->
  own_key_effect op (content m key) (content m' key) r.
Proof.
  intros Hm Hop Hstep. destruct (reachable_refines _ _ _ Hm) as [l R].
  destruct (cache_step_refines op m l R) as (m1 & Hm1 & R1); [now destruct op|].
  rewrite Hstep in Hm1. injection Hm1 as -> ->.
  rewrite (content_refines _ _ _ R), (content_refines _ _ _ R1). clear Hstep R1 Hm R.
  destruct op as [k t|alloc [k d] t|alloc k d t|k t| | | | | |]; try discriminate Hop; injection Hop as -> ->;
    cbn [lru_step own_key_effect].
  - unfold lru_find. destruct (lookup_entry key _) as [e|] eqn:Hl; [|cbn; now rewrite Hl].
    apply lookup_entry_Some in Hl as [Hk _]. cbn [option_map entry_content fst snd with_entries l_entries].
    now rewrite lookup_touch.
  - unfold lru_insert. cbn [fst snd]. destruct (lookup_entry key _) as [e|] eqn:Hl.
    + apply lookup_entry_Some in Hl as [Hk _]. cbn [option_map entry_content fst snd with_entries l_entries].
      now rewrite lookup_touch.
    + pose proof (add_effect alloc key d now l Hl) as He.
      destruct (lru_add alloc key d now l) as [l' i]. now exists i.
  - unfold lru_insert_or_update. destruct (lookup_entry key _) as [e|] eqn:Hl.
    + apply lookup_entry_Some in Hl as [Hk _].
      pose proof (resize_effect (mkEntry key d (e_size e) now) now
                    (with_entries (touch e d now (l_entries l)) id l)) as He.
      cbn [e_key e_data e_last with_entries l_entries] in He.
      split; [now destruct (lru_resize _ now _) as [l' []]|].
      specialize (He (lookup_touch_entry key e d now _ Hk)). now destruct (lru_resize _ now _) as [l' []].
    + pose proof (add_effect alloc key d now l Hl) as He.
      destruct (lru_add alloc key d now l) as [l' i]. now exists i.
  - unfold lru_update. destruct (lookup_entry key _) as [e|] eqn:Hl; [|cbn; now rewrite Hl].
    pose proof Hl as Hl'. apply lookup_entry_Some in Hl' as [<- _].
    exact (resize_effect e now l Hl).
Qed.

(** ** The statistics *)

Lemma iter_outdated k s :
  Nat.iter k inc_outdated s =
  mkStat (inserted_new s) (insert_existing s) (removed_outdated s + Z.of_nat k) (removed_updated s)
         (not_inserted s) (replaced s).
Proof.
  induction k as [|k IH]; [destruct s; cbn; now rewrite Z.add_0_r|].
  rewrite Nat.iter_succ, IH. unfold inc_outdated. cbn -[Z.of_nat]. f_equal. lia.
Qed.

Definition stat_inv (l : lru) : Prop :=
  let s := l_stat l in
  0 <= removed_updated s /\
  removed_outdated s + removed_updated s + Z.of_nat (length (l_entries l)) <= inserted_new s /\
  (removed_outdated s = 0 \/ removed_outdated s < inserted_new s).

(** Operations that keep the statistics and succeed in allocating. *)
Definition counted_op (op : operation) : Prop :=
  match op with
  | Statistics reset => reset = false
  | Insert alloc _ _ | InsertOrUpdate alloc _ _ _ => alloc = true
  | _ => True
  end.

Lemma length_filter_others key (d : list entry) :
  (length (List.filter (has_key key) d) + length (others key d) = length d)%nat.
Proof.
  induction d as [|e d IH]; [easy|]. rewrite others_cons. cbn [List.filter].
  destruct (has_key key e); cbn; lia.
Qed.

Lemma length_others_le key es : (length (others key es) <= length es)%nat.
Proof. pose proof (length_filter_others key es). lia. Qed.

Lemma length_others_lookup key es e :
  lookup_entry key es = Some e -> (length (others key es) < length es)%nat.
Proof.
  intros Hl. pose proof (length_filter_others key es).
  apply find_some in Hl as [Hin Hk].
  assert (Hf : In e (List.filter (has_key key) es)) by now apply filter_In.
  destruct (List.filter (has_key key) es); [easy|]. cbn in *. lia.
Qed.

Lemma length_touch key e data now es :
  lookup_entry key es = Some e -> (length (touch e data now es) <= length es)%nat.
Proof.
  intros Hl. pose proof (length_others_lookup _ _ _ Hl). apply lookup_entry_Some in Hl as [Hk _].
  unfold touch. rewrite length_app, Hk. cbn. lia.
Qed.

Lemma stat_inv_add key data now l : stat_inv l -> stat_inv (fst (lru_add true key data now l)).
Proof.
  intros (Hu & Hle & Ho). unfold lru_add. pose proof (policy_range key data).
  destruct (Z.gtb_spec (size_policy key data) (l_bound l)); [easy|].
  destruct (drop_old _ _ _) as [[es k] room] eqn:Hd.
  apply drop_old_split in Hd as (d & He & Hk & _ & _ & Hno). rewrite He, length_app in Hle.
  destruct room; cbn [fst]; unfold stat_inv, with_entries; cbn [l_entries l_stat];
    rewrite iter_outdated; cbn [inc_new inc_not_inserted inserted_new removed_outdated removed_updated].
  - rewrite length_app. cbn [length]. lia.
  - destruct (Hno eq_refl) as [Ht _]. destruct es as [|e es]; [change (total ([] : list entry)) with 0 in Ht; lia|].
    cbn [length] in *. lia.
Qed.

Lemma stat_inv_resize e now l :
  lookup_entry (e_key e) (l_entries l) = Some e -> stat_inv l -> stat_inv (fst (lru_resize e now l)).
Proof.
  intros Hl (Hu & Hle & Ho). unfold lru_resize. pose proof (length_others_lookup _ _ _ Hl) as Hlen.
  assert (Hdrop : stat_inv (with_entries (others (e_key e) (l_entries l)) inc_updated l)).
  { unfold stat_inv, with_entries. cbn. lia. }
  destruct (Z.gtb_spec (size_policy (e_key e) (e_data e)) (l_bound l)); [exact Hdrop|].
  destruct (spare_old _ _ _ _) as [[es k]|] eqn:Hd; [|exact Hdrop].
  apply spare_old_split in Hd as (d & r & He & -> & -> & _).
  pose proof (length_filter_others (e_key e) d) as Hf.
  assert (Hne : (0 < length (List.filter (has_key (e_key e)) d ++ r))%nat).
  { rewrite He, <- lookup_own_filter in Hl. now destruct (_ ++ r); cbn; [|lia]. }
  rewrite He, length_app in Hle. rewrite length_app in Hne.
  unfold stat_inv, with_entries. cbn [fst l_entries l_stat]. rewrite iter_outdated.
  cbn [inserted_new removed_outdated removed_updated]. unfold resize.
  rewrite length_map, length_app. lia.
Qed.

Lemma stat_inv_step op l :
  lru_wf l -> counted_op op -> stat_inv l -> stat_inv (fst (lru_step op l)).
Proof.
  intros W Hop S. pose proof S as (Hu & Hle & Ho).
  assert (Htouch : forall key e data now f, lookup_entry key (l_entries l) = Some e ->
    inserted_new (f (l_stat l)) = inserted_new (l_stat l) ->
    removed_outdated (f (l_stat l)) = removed_outdated (l_stat l) ->
    removed_updated (f (l_stat l)) = removed_updated (l_stat l) ->
    stat_inv (with_entries (touch e data now (l_entries l)) f l)).
  { intros key e data now f Hl E1 E2 E3. pose proof (length_touch _ _ data now _ Hl).
    unfold stat_inv, with_entries. cbn [l_entries l_stat]. rewrite E1, E2, E3. lia. }
  destruct op; cbn [lru_step counted_op] in *; subst.
  - unfold lru_find. destruct (lookup_entry key _) as [e|] eqn:Hl; [cbn; eauto|easy].
  - destruct value as [key data]. unfold lru_insert. cbn [fst snd].
    destruct (lookup_entry key _) as [e|] eqn:Hl; [cbn; eauto|].
    pose proof (stat_inv_add key data now l S) as S'. now destruct (lru_add true key data now l).
  - unfold lru_insert_or_update. destruct (lookup_entry key _) as [e|] eqn:Hl.
    + pose proof (lookup_entry_Some _ _ _ Hl) as [Hk _].
      pose proof (stat_inv_resize (mkEntry key data (e_size e) now) now
        (with_entries (touch e data now (l_entries l)) id l) (lookup_touch_entry _ _ _ _ _ Hk)
        (Htouch _ _ _ _ id Hl eq_refl eq_refl eq_refl)) as S'.
      destruct (lru_resize _ now _) as [l' []]; exact S'.
    + pose proof (stat_inv_add key data now l S) as S'. now destruct (lru_add true key data now l).
  - unfold lru_update. destruct (lookup_entry key _) as [e|] eqn:Hl; [|easy].
    pose proof (lookup_entry_Some _ _ _ Hl) as [<- _]. now apply stat_inv_resize.
  - unfold stat_inv. cbn. pose proof (length_others_le key (l_entries l)). lia.
  - unfold stat_inv. cbn. lia.
  - easy.
  - easy.
  - easy.
  - easy.
Qed.

(** The replies of insertions that do not throw. *)
Definition counted (r : reply) : bool :=
  match r with
  | RInsert (Inserted _ _) | RUpdate (Some (Inserted _ _)) => true
  | _ => false
  end.

Definition tries (s : BoundedMapStat) : Z := inserted_new s + insert_existing s + not_inserted s.

Lemma tries_iter k s : tries (Nat.iter k inc_outdated s) = tries s.
Proof. now rewrite iter_outdated. Qed.

Lemma tries_add alloc key data now l :
  tries (l_stat (fst (lru_add alloc key data now l))) =
  tries (l_stat l) + (match snd (lru_add alloc key data now l) with Inserted _ _ => 1 | _ => 0 end).
Proof.
  unfold lru_add. destruct (size_policy key data >? l_bound l); [unfold tries; cbn; lia|].
  destruct (drop_old _ _ _) as [[es k] []]; [destruct alloc|]; cbn [fst snd with_entries l_stat];
    rewrite <- (tries_iter k (l_stat l)); unfold tries; cbn; lia.
Qed.

Lemma tries_resize e now l : tries (l_stat (fst (lru_resize e now l))) = tries (l_stat l).
Proof.
  unfold lru_resize. destruct (_ >? _); [easy|]. destruct (spare_old _ _ _ _) as [[es k]|]; [|easy].
  cbn [fst with_entries l_stat]. apply tries_iter.
Qed.

Lemma tries_step op l :
  counted_op op ->
  tries (l_stat (fst (lru_step op l))) =
  tries (l_stat l) + (if counted (snd (lru_step op l)) then 1 else 0).
Proof.
  intros Hop. destruct op; cbn [lru_step].
  - unfold lru_find. destruct (lookup_entry _ _); cbn; lia.
  - unfold lru_insert. destruct (lookup_entry _ _); [unfold tries; cbn; lia|].
    pose proof (tries_add alloc (fst value) (snd value) now l) as Ht.
    destruct (lru_add _ _ _ _ _) as [l' []]; exact Ht.
  - unfold lru_insert_or_update. destruct (lookup_entry _ _).
    + match goal with |- context [lru_resize ?a ?b ?c] => pose proof (tries_resize a b c) as Ht end.
      destruct (lru_resize _ now _) as [l' []]; cbn in *; rewrite <- Ht; unfold tries; cbn; lia.
    + pose proof (tries_add alloc key data now l) as Ht.
      destruct (lru_add _ _ _ _ _) as [l' []]; exact Ht.
  - unfold lru_update. destruct (lookup_entry _ _); [|cbn; lia]. cbn [fst snd counted].
    rewrite tries_resize. lia.
  - cbn; lia.
  - cbn; lia.
  - cbn; lia.
  - cbn in Hop. subst reset. cbn; lia.
  - cbn; lia.
  - cbn; lia.
Qed.

Lemma tries_run ops l :
  Forall counted_op ops ->
  tries (l_stat (fst (lru_run ops l))) =
  tries (l_stat l) + Z.of_nat (length (List.filter counted (snd (lru_run ops l)))).
Proof.
  revert l. induction ops as [|op ops IH]; intros l Hops; cbn [lru_run]; [cbn; lia|].
  apply Forall_cons in Hops as [Hop Hops]. pose proof (tries_step op l Hop) as Hs.
  destruct (lru_step op l) as [l1 r]. specialize (IH l1 Hops).
  destruct (lru_run ops l1) as [l2 rs]. cbn [fst snd List.filter] in *.
  destruct (counted r); cbn [length]; lia.
Qed.

(** C18: the three relations the comment on [BoundedMapStat] promises, from the
    constructor on while the statistics are not reset and no allocation fails:
    the calls of [insert] that return, together with those of
    [insert_or_update] that find the key absent, are counted once each;
    [removed_outdated + removed_updated], and what is still in the map, are at
    most [inserted_new]; and [removed_outdated] is less than [inserted_new],
    or zero. *)
Theorem bounded_map_statistics bound timeout ops m' (rs : list reply) :
  0 <= bound < 2 ^ 63 -> Forall op_ok ops -> Forall counted_op ops ->
  run ops (new_map bound timeout) = Ret (m', rs) ->
  let s := stat_ m' in
  inserted_new s + insert_existing s + not_inserted s =
    Z.of_nat (length (List.filter counted rs)) /\
  removed_outdated s + removed_updated s + map_size m' <= inserted_new s /\
  (removed_outdated s = 0 \/ removed_outdated s < inserted_new s).
Proof.
  intros Hb Hops Hq Hrun. pose proof (new_refines (Key := Key) (Data := Data) bound timeout Hb) as R0.
  destruct (run_refines ops _ _ R0 Hops) as (m & Hm & R).
  rewrite Hrun in Hm. injection Hm as -> Hrs. rewrite Hrs.
  pose proof (tries_run ops (mkLru bound timeout [] stat_zero) Hq) as Ht.
  assert (S0 : stat_inv (mkLru bound timeout [] stat_zero)) by (unfold stat_inv; cbn; lia).
  pose proof (run_invariant _ _ stat_inv_step ops _ _ R0 Hops Hq S0) as (_ & Hle & Ho).
  destruct (cache_step_refines Size m _ R I) as (m2 & Hsz & _). cbn in Hsz. injection Hsz as _ Hsz.
  rewrite Hsz. destruct R as (ns & R & Hl). rewrite Hl in *. cbn in Ht, Hle, Ho |- *.
  unfold tries in Ht. cbn in Ht. lia.
Qed.

End Props.

(** ** A cache of numbers, each of its own size *)

Definition own_size (_ data : Z) : Z := if (0 <=? data) && (data <? 1000) then data else 1.

#[export] Instance own_policy : SizePolicy Z Z := {| size_policy := own_size |}.

#[export] Instance own_policy_ok : SizePolicyOk Z Z.
Proof.
  constructor. intros key data. cbn [size_policy own_policy]. unfold own_size. destruct (Z.leb_spec 0 data); destruct (Z.ltb_spec data 1000); cbn -[Z.pow]; lia.
Qed.

Definition at_second (s : Z) : Time := mkTime s 0.

(** Three items of sizes 4, 3, 2 in a cache of 10.  The first is used; the
    second grows and evicts the third; a large one does not fit, but the first
    item, outdated by then, is gone. *)
Definition sample_ops : list (operation Z Z) :=
  [Insert true (1, 4) (at_second 0); Insert true (2, 3) (at_second 1);
   Insert true (3, 2) (at_second 2); Find 1 (at_second 20);
   InsertOrUpdate true 2 5 (at_second 30); Insert true (4, 9) (at_second 30);
   Insert true (1, 7) (at_second 31); Size; Statistics false].

Example sample_run :
  match run sample_ops (new_map 10 (at_second 10)) with
  | Ret (m, rs) => Some (rs, size_ m, copy_to m)
  | _ => None
  end =
  Some
    ([RInsert (Inserted (Some (1, 4)) true); RInsert (Inserted (Some (2, 3)) true);
      RInsert (Inserted (Some (3, 2)) true); RIterator (Some (1, 4)); RUpdate None;
      RInsert (Inserted None false); RInsert (Inserted None false); RSize 1;
      RStat (mkStat 3 0 2 0 2 1)], 5, [(2, 5)]).
Proof. vm_compute. reflexivity. Qed.

(** After a reset the relations no longer hold: one item is inserted before it,
    and evicted after it. *)
Example statistics_after_reset :
  match run
          [Insert true (1, 8) (at_second 0); Statistics true; Insert true (2, 8) (at_second 20)]
          (new_map 10 (at_second 10)) with
  | Ret (m, _) => Some (stat_ m)
  | _ => None
  end = Some (mkStat 1 0 1 0 0 0).
Proof. vm_compute. reflexivity. Qed.

Lemma sample_ok : Forall op_ok sample_ops /\ Forall counted_op sample_ops /\
                  Forall (bounds_below 10) sample_ops.
Proof. split_and!; unfold sample_ops; repeat (constructor; [cbn; easy|]); constructor. Qed.

Lemma ten_ok : 0 <= 10 < 2 ^ 63.
Proof. lia. Qed.

Lemma ten_within : 0 <= 10 <= 10.
Proof. lia. Qed.

Example bounded_map_refines_witness :
  exists m', run sample_ops (new_map 10 (at_second 10)) =
    Ret (m', snd (lru_run sample_ops (mkLru 10 (at_second 10) [] stat_zero))).
Proof.
  destruct (bounded_map_refines 10 (at_second 10) sample_ops
              ten_ok (proj1 sample_ok)) as (m' & Hr & _).
  now exists m'.
Defined.

(** The state after the sample. *)
Definition sample_state : BoundedMap Z Z :=
  match run sample_ops (new_map 10 (at_second 10)) with
  | Ret (m, _) => m
  | _ => new_map 0 (at_second 0)
  end.

Lemma sample_state_run :
  exists rs, run sample_ops (new_map 10 (at_second 10)) = Ret (sample_state, rs).
Proof. eexists. vm_compute. reflexivity. Qed.

Lemma sample_state_reachable : reachable 10 (at_second 10) sample_state.
Proof.
  destruct sample_state_run as [rs Hr]. exists sample_ops, rs.
  split; [lia|]. split; [apply sample_ok|exact Hr].
Qed.

Example bounded_map_bounded_witness : 0 <= size_ sample_state <= 10.
Proof.
  destruct sample_state_run as [rs Hr].
  exact (proj1 (bounded_map_bounded 10 10 (at_second 10) sample_ops sample_state
    rs ten_within (proj2 ten_ok) (proj1 sample_ok) (proj2 (proj2 sample_ok)) Hr)).
Defined.

Example bounded_map_evicts_witness :
  exists m' r gone, step (Insert true (5, 8) (at_second 60)) sample_state = Ret (m', r) /\
    gone = [mkOrdered 2 (at_second 30)] /\
    other_keys 5 (queue_ sample_state) = gone ++ other_keys 5 (queue_ m').
Proof.
  destruct (step (Insert true (5, 8) (at_second 60)) sample_state) as [[m' r]| |] eqn:Hs;
    [|vm_compute in Hs; discriminate Hs..].
  destruct (bounded_map_evicts 10 (at_second 10) sample_state
    (Insert true (5, 8) (at_second 60)) 5 (at_second 60) m' r sample_state_reachable eq_refl Hs)
    as (gone & Hq & _).
  exists m', r, gone. split; [reflexivity|]. split; [|exact Hq].
  vm_compute in Hs. injection Hs as <- _.
  exact (eq_sym (eq_trans (Hq : [mkOrdered 2 (at_second 30)] = gone ++ []) (app_nil_r gone))).
Defined.

Example bounded_map_own_key_witness :
  exists m' r, step (Update 2 (at_second 60)) sample_state = Ret (m', r) /\
    own_key_effect (Update 2 (at_second 60)) (content sample_state 2) (content m' 2) r.
Proof.
  destruct (step (Update 2 (at_second 60)) sample_state) as [[m' r]| |] eqn:Hs;
    [|vm_compute in Hs; discriminate Hs..].
  exists m', r. split; [reflexivity|].
  exact (bounded_map_own_key 10 (at_second 10) sample_state
    (Update 2 (at_second 60)) 2 (at_second 60) m' r sample_state_reachable eq_refl Hs).
Defined.

Example bounded_map_statistics_witness :
  exists m' rs, run sample_ops (new_map 10 (at_second 10)) = Ret (m', rs) /\
    removed_outdated (stat_ m') + removed_updated (stat_ m') + map_size m' <= inserted_new (stat_ m').
Proof.
  destruct sample_state_run as [rs Hr]. exists sample_state, rs. split; [exact Hr|].
  exact (proj1 (proj2 (bounded_map_statistics 10 (at_second 10) sample_ops
    sample_state rs ten_ok (proj1 sample_ok) (proj1 (proj2 sample_ok)) Hr))).
Defined.
