(* ===== verification/BlockFile.v ===== *)
(** * BlockFile: src/src/PlainStorage/BlockFileAdapter.hpp and .cpp

    A file as an array of blocks.  A block is one mapped page: a header of two
    32-bit fields and the content.  Mappings of the same block are the same
    memory ([MAP_SHARED]), so a block is reached by its index, in the one file
    of the store; the members of the classes built on the file are in the store
    too.  A new block is full of zeros ([ftruncate]).  A file of the model is a
    whole number of blocks, as the adapter leaves it.  The page size, the block
    size and the number of blocks the file system has room for are arguments. *)

From Stdlib Require Import ZArith List Bool Lia.
From stdpp Require Import base list gmap fin_maps.
From S2P Require Import Prelude.
Open Scope Z_scope.

(** ** The sizes *)

Class Disk : Type := {
  SYSTEM_PAGE_SIZE : Z;
  block_size_ : Z;
  capacity : Z }.

Definition BLOCK_HEADER_SIZE : Z := 8.

Section Adapter.
Context `{Disk}.

(** [open_file]: the block size rounded up to whole pages. *)
Definition map_page_size : Z :=
  block_size_ - 1 + SYSTEM_PAGE_SIZE - (block_size_ - 1) mod SYSTEM_PAGE_SIZE.

Definition block_data_size : Z := u64 (block_size_ - BLOCK_HEADER_SIZE).

(** ** Blocks *)

Record Block : Type := mkBlock { next_index : Z; used : Z; content : list Z }.

Definition zero_block : Block :=
  mkBlock 0 0 (repeat 0 (Z.to_nat (map_page_size - BLOCK_HEADER_SIZE))).

Record File : Type := mkFile { nblocks : Z; blocks : gmap Z Block }.

(** A [PlainWriter] object: [FIRST_BLOCK_INDEX_] and [data_size_]. *)
Record PlainWriter : Type := mkWriter { FIRST_BLOCK_INDEX : Z; data_size : Z }.

Record Store : Type := mkStore {
  file : File;
  allocator_description : Z;
  first_free_block : Z;
  descr_block : Z;
  first_keys_block : Z;
  writers : list PlainWriter }.

Definition block_at (s : Store) (i : Z) : Block := default zero_block (blocks (file s) !! i).

Definition with_file (f : File) (s : Store) : Store :=
  mkStore f (allocator_description s) (first_free_block s) (descr_block s) (first_keys_block s) (writers s).
Definition with_free (b : Z) (s : Store) : Store :=
  mkStore (file s) (allocator_description s) b (descr_block s) (first_keys_block s) (writers s).
Definition with_keys (b : Z) (s : Store) : Store :=
  mkStore (file s) (allocator_description s) (first_free_block s) (descr_block s) b (writers s).
Definition with_writers (w : list PlainWriter) (s : Store) : Store :=
  mkStore (file s) (allocator_description s) (first_free_block s) (descr_block s) (first_keys_block s) w.

(** ** Operations on the store

    An exception leaves the store as it is when it is thrown. *)

Definition M (A : Type) : Type := Store -> Store * outcome A.

#[global] Instance M_ret : MRet M := fun _ a s => (s, Ret a).
#[global] Instance M_bind : MBind M := fun _ _ k m s =>
  match m s with
  | (s', Ret a) => k a s'
  | (s', Throw e) => (s', Throw e)
  | (s', Undef) => (s', Undef)
  end.

Definition throw {A} (e : exn) : M A := fun s => (s, Throw e).
Definition undef {A} : M A := fun s => (s, Undef).
Definition member {A} (f : Store -> A) : M A := fun s => (s, Ret (f s)).
Definition modify (f : Store -> Store) : M unit := fun s => (f s, Ret tt).

(** [catch (const eh::Exception& ex) { throw e; }]. *)
Definition try_as {A} (e : exn) (m : M A) : M A := fun s =>
  match m s with
  | (s', Throw _) => (s', Throw e)
  | r => r
  end.

(** ** The adapter *)

Definition size_file_ : M Z := member (fun s => u32 (nblocks (file s))).
Definition max_block_index : M Z := member (fun s => u32 (nblocks (file s))).

(** [ftruncate] fails when there is no room. *)
Definition resize_file_ (new_size_in_blocks : Z) : M unit := fun s =>
  if (2 ^ 63 - 1) / map_page_size <? new_size_in_blocks then throw ResizeFailure s
  else if capacity <? new_size_in_blocks then throw PosixException s
  else
    (with_file (mkFile new_size_in_blocks
       (filter (fun p => p.1 < new_size_in_blocks) (blocks (file s)))) s, Ret tt).

Definition write_resolve_block_ (block_index : Z) : M bool :=
  size ← size_file_;
  if size <=? block_index then resize_file_ (u32 (block_index + 1));; mret true else mret false.

(** An access to a mapped block; beyond the end of the file it is a fault. *)
Definition peek (i : Z) : M Block := fun s =>
  if (0 <=? i) && (i <? nblocks (file s)) then (s, Ret (block_at s i)) else (s, Undef).

Definition poke (i : Z) (f : Block -> Block) : M unit := fun s =>
  if (0 <=? i) && (i <? nblocks (file s))
  then (with_file (mkFile (nblocks (file s)) (<[i := f (block_at s i)]> (blocks (file s)))) s, Ret tt)
  else (s, Undef).

Definition with_next (v : Z) (b : Block) : Block := mkBlock (u32 v) (used b) (content b).
Definition with_used (v : Z) (b : Block) : Block := mkBlock (next_index b) (u32 v) (content b).
Definition with_content (f : list Z -> list Z) (b : Block) : Block :=
  mkBlock (next_index b) (used b) (f (content b)).

Definition set_next_index (i v : Z) : M unit := poke i (with_next v).
Definition set_size (i v : Z) : M unit := poke i (with_used v).
Definition get_next_index (i : Z) : M Z := b ← peek i; mret (next_index b).
Definition get_size (i : Z) : M Z := b ← peek i; mret (used b).

(** [get_block]: the constructor of [WriteBlockStruct]. *)
Definition get_block (block_index : Z) : M Z :=
  need_to_init ← write_resolve_block_ block_index;
  (if need_to_init : bool then set_next_index block_index 0;; set_size block_index 0 else mret tt);;
  mret block_index.

(** [WriteBlockStruct::next], and [ReadBlockStruct::read_next], which does not
    resize the file. *)
Definition next (i : Z) : M (option Z) :=
  ind ← get_next_index i;
  if ind =? 0 then mret None else b ← get_block ind; mret (Some b).

Definition read_next (i : Z) : M (option Z) :=
  ind ← get_next_index i;
  if ind =? 0 then mret None else mret (Some ind).

(** [memcpy] from and to the content; beyond the page it is a fault. *)
Definition slice (off len : nat) (l : list Z) : list Z := firstn len (skipn off l).
Definition splice (off : nat) (bytes l : list Z) : list Z :=
  firstn off l ++ bytes ++ skipn (off + length bytes) l.

Definition read_content (i off len : Z) : M (list Z) :=
  b ← peek i;
  if (0 <=? off) && (0 <=? len) && (off + len <=? Z.of_nat (length (content b)))
  then mret (slice (Z.to_nat off) (Z.to_nat len) (content b)) else undef.

Definition write_content (i off : Z) (bytes : list Z) : M unit :=
  b ← peek i;
  if (0 <=? off) && (off + Z.of_nat (length bytes) <=? Z.of_nat (length (content b)))
  then poke i (with_content (splice (Z.to_nat off) bytes))
  else undef.

(** A 32-bit field of the content (little-endian). *)
Definition le32 (v : Z) : list Z := [u8 v; u8 (v / 256); u8 (v / 65536); u8 (v / 16777216)].
Definition of_le (l : list Z) : Z := fold_right (fun b v => b + 256 * v) 0 l.

Definition get_field (i off : Z) : M Z := l ← read_content i off 4; mret (of_le l).
Definition set_field (i off v : Z) : M unit := write_content i off (le32 (u32 v)).
End Adapter.
