(* ===== verification/BlockStore.v ===== *)
(** * BlockStore: the block allocator and the readers and writers of chains,
    src/src/PlainStorage/Map.cpp

    [DefaultBlockAllocator] keeps the free blocks in a list through their
    [next_index] fields; a [PlainWriter] keeps its data in a chain of blocks.
    A writer is an object of the store, reached by its number, since the map
    hands out pointers to it.  The calls are those of one thread. *)

From Stdlib Require Import ZArith List Bool Lia.
From stdpp Require Import base list gmap fin_maps.
From S2P Require Import Prelude BlockFile.
Open Scope Z_scope.

Section Storage.
Context `{Disk}.

(** ** DefaultBlockAllocator *)

Definition ALLOCATE_PORTION : nat := 10.

(** The constructor; the description block holds the first free block. *)
Definition new_allocator (first_description_block : Z) : M unit :=
  description ← get_block first_description_block;
  first ← get_field description 0;
  modify (fun s => mkStore (file s) description first (descr_block s) (first_keys_block s) (writers s)).

Definition allocator_sync_ : M unit :=
  description ← member allocator_description;
  first ← member first_free_block;
  set_field description 0 first.

(** The loop that links the new blocks: [cur_block] may be null after the last
    turn. *)
Fixpoint link_blocks (n : nat) (i : Z) (cur_block : option Z) : M unit :=
  match n with
  | O => mret tt
  | S n' =>
      match cur_block with
      | None => undef
      | Some cur =>
          set_size cur 0;;
          set_next_index cur (i + 1);;
          cur' ← next cur;
          link_blocks n' (i + 1) cur'
      end
  end.

Definition grow : M unit :=
  max ← max_block_index;
  last_block ← get_block (u32 (max + Z.of_nat ALLOCATE_PORTION - 1));
  set_size last_block 0;;
  set_next_index last_block 0;;
  cur_block ← get_block max;
  modify (with_free cur_block);;
  link_blocks ALLOCATE_PORTION max (Some cur_block).

Definition allocate : M Z :=
  try_as AllocationFailed (
    first ← member first_free_block;
    (if first =? 0 then grow else mret tt);;
    first_free_index ← member first_free_block;
    allocated_block ← get_block first_free_index;
    new_first_free_index ← get_next_index allocated_block;
    set_next_index allocated_block 0;;
    modify (with_free new_first_free_index);;
    allocator_sync_;;
    mret allocated_block).

Definition deallocate (block_to_free : Z) : M unit :=
  try_as DeallocationFailed (
    first ← member first_free_block;
    deallocated_block ← get_block block_to_free;
    set_next_index deallocated_block first;;
    modify (with_free block_to_free);;
    allocator_sync_).

(** ** PlainReader and PlainWriter *)

Definition add_writer (p : PlainWriter) : M nat := fun s =>
  (with_writers (writers s ++ [p]) s, Ret (length (writers s))).

Definition new_writer (first_block_index data_size : Z) : M nat :=
  first ← (if first_block_index =? 0 then allocate else mret first_block_index);
  add_writer (mkWriter first data_size).

Definition writer (w : nat) : M PlainWriter := fun s =>
  match writers s !! w with
  | Some p => (s, Ret p)
  | None => (s, Undef)
  end.

Definition set_data_size (w : nat) (size : Z) : M unit :=
  p ← writer w;
  modify (fun s => with_writers (<[w := mkWriter (FIRST_BLOCK_INDEX p) size]> (writers s)) s).

Definition size_i_ (w : nat) : M Z := p ← writer w; mret (data_size p).

(** The loop of [read_i_]: the octets copied to the buffer. *)
Fixpoint read_loop (fuel : nat) (read_cur : option Z) (buf_offset buf_size : Z) : M (list Z) :=
  match read_cur with
  | None => mret []
  | Some cur =>
      match fuel with
      | O => undef
      | S fuel' =>
          size ← get_size cur;
          if buf_size <? buf_offset + size then throw BufferExhausted
          else
            bytes ← read_content cur 0 size;
            read_cur ← read_next cur;
            rest ← read_loop fuel' read_cur (buf_offset + size) buf_size;
            mret (bytes ++ rest)
      end
  end.

(** [read_i_]: the result, and what is copied. *)
Definition read_i_ (w : nat) (buf_size : Z) : M (Z * list Z) :=
  p ← writer w;
  if buf_size <? data_size p then mret (0, [])
  else
    count ← member (fun s => Z.to_nat (nblocks (file s)));
    bytes ← try_as ReadFailed (read_loop (S count) (Some (FIRST_BLOCK_INDEX p)) 0 buf_size);
    mret (data_size p, bytes).

(** The loop of [write_i_]: the block where the data ends.  [in_buf_offset] and
    [size_to_write] are [unsigned int]s. *)
Fixpoint write_loop (fuel : nat) (write_cur in_buf_offset : Z) (buf : list Z) : M Z :=
  let size := Z.of_nat (length buf) in
  if in_buf_offset <? size then
    match fuel with
    | O => undef
    | S fuel' =>
        let available := u32 block_data_size in
        let size_to_write :=
          if size - in_buf_offset <? available then u32 (size - in_buf_offset) else available in
        set_size write_cur size_to_write;;
        write_content write_cur 0 (slice (Z.to_nat in_buf_offset) (Z.to_nat size_to_write) buf);;
        let in_buf_offset := u32 (in_buf_offset + size_to_write) in
        if in_buf_offset <? size then
          ind ← get_next_index write_cur;
          if ind =? 0 then
            new_block ← allocate;
            set_next_index write_cur new_block;;
            write_cur ← next write_cur;
            match write_cur with
            | None => undef
            | Some write_cur => set_next_index write_cur 0;; write_loop fuel' write_cur in_buf_offset buf
            end
          else
            write_cur ← next write_cur;
            match write_cur with
            | None => undef
            | Some write_cur => write_loop fuel' write_cur in_buf_offset buf
            end
        else write_loop fuel' write_cur in_buf_offset buf
    end
  else mret write_cur.

(** The blocks behind the end of the data are given back. *)
Fixpoint dealloc_loop (fuel : nat) (dealloc_cur : option Z) : M unit :=
  match dealloc_cur with
  | None => mret tt
  | Some dealloc_index =>
      match fuel with
      | O => undef
      | S fuel' =>
          dealloc_cur ← next dealloc_index;
          deallocate dealloc_index;;
          dealloc_loop fuel' dealloc_cur
      end
  end.

Definition write_i_ (w : nat) (buf : list Z) : M unit :=
  p ← writer w;
  try_as WriteFailed (
    write_cur ← get_block (FIRST_BLOCK_INDEX p);
    write_cur ← (if (0 <? length buf)%nat then write_loop (length buf) write_cur 0 buf
                 else set_size write_cur 0;; mret write_cur);
    dealloc_cur ← next write_cur;
    set_next_index write_cur 0;;
    set_data_size w (Z.of_nat (length buf));;
    count ← member (fun s => Z.to_nat (nblocks (file s)));
    dealloc_loop count dealloc_cur).
End Storage.
