(* ===== verification/BlockRep.v ===== *)
(** * BlockRep: chains of blocks, the free list and what the allocator keeps

    The blocks in use are a list of distinct indices, apart from the free list;
    [store_ok] is the invariant, and each operation is described by the blocks
    it leaves alone. *)

From Stdlib Require Import ZArith List Bool Lia.
From stdpp Require Import base list gmap fin_maps.
From S2P Require Import Prelude BlockFile BlockStore.
Open Scope Z_scope.

(** ** Fields *)

Lemma of_le_le32 v : 0 <= v < 2 ^ 32 -> of_le (le32 v) = v.
Proof. intros Hv. unfold of_le, le32, wrapu. cbn. Z.div_mod_to_equations. lia. Qed.

Lemma length_splice off bytes l : (off + length bytes <= length l)%nat ->
  length (splice off bytes l) = length l.
Proof. intros Hl. unfold splice. rewrite !length_app, length_take, length_drop. lia. Qed.

(** What is before, in and behind the octets written. *)
Lemma slice_splice off bytes l : (off + length bytes <= length l)%nat ->
  slice off (length bytes) (splice off bytes l) = bytes.
Proof.
  intros Hl. unfold slice, splice. rewrite drop_app_length' by (rewrite length_take; lia).
  now rewrite take_app_length.
Qed.

Lemma slice_splice_before off bytes l o n : (o + n <= off)%nat -> (off + length bytes <= length l)%nat ->
  slice o n (splice off bytes l) = slice o n l.
Proof.
  intros Ho Hl. unfold slice, splice.
  rewrite drop_app_le by (rewrite length_take; lia).
  rewrite take_app_le by (rewrite length_drop, length_take; lia).
  rewrite <- (take_drop off l) at 2. rewrite drop_app_le by (rewrite length_take; lia).
  now rewrite take_app_le by (rewrite length_drop, length_take; lia).
Qed.

Lemma slice_splice_after off bytes l o n : (off + length bytes <= o)%nat ->
  (off + length bytes <= length l)%nat -> slice o n (splice off bytes l) = slice o n l.
Proof.
  intros Ho Hl. unfold slice, splice. rewrite app_assoc.
  rewrite drop_app_ge by (rewrite length_app, length_take; lia).
  rewrite length_app, length_take, drop_drop. do 2 f_equal. lia.
Qed.

Section Rep.
Context `{Disk}.

(** The sizes are sensible: the header of the file and of a record fit a block,
    and no offset or index overflows. *)
Class DiskOk : Prop := {
  page_size_range : 0 < SYSTEM_PAGE_SIZE < 2 ^ 31;
  block_size_range : 20 <= block_size_ < 2 ^ 31;
  capacity_range : 0 <= capacity < 2 ^ 32 - 16;
  capacity_offset : capacity * map_page_size < 2 ^ 63 }.

Context {Hdisk : DiskOk}.

Definition avail : Z := block_size_ - 8.

Lemma block_data_size_eq : block_data_size = avail.
Proof.
  destruct Hdisk. unfold block_data_size, BLOCK_HEADER_SIZE, avail. apply wrapu_small. lia.
Qed.

Lemma page_ge : avail <= map_page_size - 8 < 2 ^ 33.
Proof.
  destruct Hdisk. unfold avail, map_page_size.
  pose proof (Z.mod_pos_bound (block_size_ - 1) SYSTEM_PAGE_SIZE). lia.
Qed.

Lemma avail_range : 12 <= avail < 2 ^ 31.
Proof. destruct Hdisk. unfold avail. lia. Qed.

(** ** Stores *)

Definition wf_block (b : Block) : Prop :=
  Z.of_nat (length (content b)) = map_page_size - 8 /\ 0 <= used b <= avail.

Definition wf_store (s : Store) : Prop :=
  0 <= nblocks (file s) <= capacity /\
  forall i b, blocks (file s) !! i = Some b -> 0 <= i < nblocks (file s) /\ wf_block b.

Definition inside (s : Store) (i : Z) : Prop := 0 <= i < nblocks (file s).

Lemma wf_zero_block : wf_block zero_block.
Proof.
  pose proof page_ge. pose proof avail_range. split; cbn; [|lia].
  rewrite repeat_length. unfold BLOCK_HEADER_SIZE. lia.
Qed.

Lemma wf_at s i : wf_store s -> wf_block (block_at s i).
Proof.
  intros [_ Hw]. unfold block_at. destruct (blocks (file s) !! i) eqn:E; [now apply Hw in E|].
  apply wf_zero_block.
Qed.

(** A block is changed. *)
Definition upd (i : Z) (f : Block -> Block) (s : Store) : Store :=
  with_file (mkFile (nblocks (file s)) (<[i := f (block_at s i)]> (blocks (file s)))) s.

Lemma block_at_upd i f s : block_at (upd i f s) i = f (block_at s i).
Proof. unfold block_at, upd. cbn. now rewrite lookup_insert_eq. Qed.

Lemma block_at_upd_ne i j f s : i <> j -> block_at (upd i f s) j = block_at s j.
Proof. intros Hn. unfold block_at, upd. cbn. now rewrite lookup_insert_ne. Qed.

Lemma wf_upd i f s : wf_store s -> inside s i -> wf_block (f (block_at s i)) -> wf_store (upd i f s).
Proof.
  intros [Hn Hw] Hi Hf. split; [exact Hn|]. cbn. intros j b Hj.
  destruct (decide (i = j)) as [->|Hne].
  - rewrite lookup_insert_eq in Hj. injection Hj as <-. now split.
  - rewrite lookup_insert_ne in Hj by easy. now apply Hw.
Qed.

(** ** Running operations *)

Lemma bind_ok {A B} (m : M A) (k : A -> M B) s s' a : m s = (s', Ret a) -> (m ≫= k) s = k a s'.
Proof. intros Hm. unfold mbind, M_bind. now rewrite Hm. Qed.

Lemma try_ok {A} e (m : M A) s s' a : m s = (s', Ret a) -> try_as e m s = (s', Ret a).
Proof. intros Hm. unfold try_as. now rewrite Hm. Qed.

Lemma peek_in s i : inside s i -> peek i s = (s, Ret (block_at s i)).
Proof. intros Hi. unfold peek, inside in *. now replace (_ && _) with true by lia. Qed.

Lemma poke_in s i f : inside s i -> poke i f s = (upd i f s, Ret tt).
Proof. intros Hi. unfold poke, inside in *. now replace (_ && _) with true by lia. Qed.

Lemma set_next_index_in s i v : inside s i -> set_next_index i v s = (upd i (with_next v) s, Ret tt).
Proof. apply poke_in. Qed.

Lemma set_size_in s i v : inside s i -> set_size i v s = (upd i (with_used v) s, Ret tt).
Proof. apply poke_in. Qed.

Lemma read_content_in s i off len : inside s i ->
  0 <= off -> 0 <= len -> off + len <= Z.of_nat (length (content (block_at s i))) ->
  read_content i off len s = (s, Ret (slice (Z.to_nat off) (Z.to_nat len) (content (block_at s i)))).
Proof.
  intros Hi Ho Hl Hb. unfold read_content. rewrite (bind_ok _ _ _ _ _ (peek_in s i Hi)).
  now replace (_ && _ && _) with true by lia.
Qed.

Lemma write_content_in s i off bytes : inside s i ->
  0 <= off -> off + Z.of_nat (length bytes) <= Z.of_nat (length (content (block_at s i))) ->
  write_content i off bytes s = (upd i (with_content (splice (Z.to_nat off) bytes)) s, Ret tt).
Proof.
  intros Hi Ho Hb. unfold write_content. rewrite (bind_ok _ _ _ _ _ (peek_in s i Hi)).
  replace (_ && _) with true by lia. now apply poke_in.
Qed.

Definition field (b : Block) (off : Z) : Z := of_le (slice (Z.to_nat off) 4 (content b)).

Lemma get_field_in s i off : inside s i -> 0 <= off ->
  off + 4 <= Z.of_nat (length (content (block_at s i))) ->
  get_field i off s = (s, Ret (field (block_at s i) off)).
Proof.
  intros Hi Ho Hb. unfold get_field.
  now rewrite (bind_ok _ _ _ _ _ (read_content_in s i off 4 Hi Ho ltac:(lia) Hb)).
Qed.

Lemma set_field_in s i off v : inside s i -> 0 <= off ->
  off + 4 <= Z.of_nat (length (content (block_at s i))) ->
  set_field i off v s = (upd i (with_content (splice (Z.to_nat off) (le32 (u32 v)))) s, Ret tt).
Proof. intros Hi Ho Hb. unfold set_field. apply write_content_in; [easy..|]. cbn. lia. Qed.

Lemma get_next_index_in s i : inside s i -> get_next_index i s = (s, Ret (next_index (block_at s i))).
Proof. intros Hi. unfold get_next_index. now rewrite (bind_ok _ _ _ _ _ (peek_in s i Hi)). Qed.

Lemma get_size_in s i : inside s i -> get_size i s = (s, Ret (used (block_at s i))).
Proof. intros Hi. unfold get_size. now rewrite (bind_ok _ _ _ _ _ (peek_in s i Hi)). Qed.

Lemma size_file_eq s : wf_store s -> u32 (nblocks (file s)) = nblocks (file s).
Proof. destruct Hdisk. intros [Hn _]. apply wrapu_small. lia. Qed.

Lemma size_file_in s : wf_store s -> size_file_ s = (s, Ret (nblocks (file s))).
Proof. intros Hw. unfold size_file_, member. now rewrite size_file_eq. Qed.

Lemma get_block_in s i : wf_store s -> inside s i -> get_block i s = (s, Ret i).
Proof.
  intros Hw Hi.
  assert (Hr : write_resolve_block_ i s = (s, Ret false)).
  { unfold write_resolve_block_. rewrite (bind_ok _ _ _ _ _ (size_file_in s Hw)).
    unfold inside in Hi. now destruct (Z.leb_spec (nblocks (file s)) i); [lia|]. }
  unfold get_block. now rewrite (bind_ok _ _ _ _ _ Hr).
Qed.

(** Two stores with the same members, apart from the file. *)
Definition same_members (s s' : Store) : Prop :=
  allocator_description s' = allocator_description s /\ first_free_block s' = first_free_block s /\
  descr_block s' = descr_block s /\ first_keys_block s' = first_keys_block s /\ writers s' = writers s.

(** The file grows, with zeros. *)
Lemma resize_new s n : wf_store s -> nblocks (file s) <= n <= capacity ->
  resize_file_ n s = (with_file (mkFile n (blocks (file s))) s, Ret tt).
Proof.
  intros Hw Hi. pose proof Hw as [Hn Hb]. pose proof capacity_offset. pose proof page_ge.
  pose proof avail_range. unfold resize_file_.
  assert (Hoff : capacity <= (2 ^ 63 - 1) / map_page_size) by (apply Z.div_le_lower_bound; lia).
  destruct (Z.ltb_spec ((2 ^ 63 - 1) / map_page_size) n); [lia|].
  destruct (Z.ltb_spec capacity n); [lia|]. do 4 f_equal.
  apply map_filter_id. intros j b Hj. apply Hb in Hj. cbn. lia.
Qed.

(** A block behind the end of the file. *)
Lemma get_block_new s i : wf_store s -> nblocks (file s) <= i < capacity ->
  exists s', get_block i s = (s', Ret i) /\ wf_store s' /\ nblocks (file s') = i + 1 /\
    same_members s s' /\ (forall j, block_at s' j = block_at s j).
Proof.
  intros Hw Hi. pose proof Hw as [Hn Hb]. pose proof capacity_range.
  set (s1 := with_file (mkFile (i + 1) (blocks (file s))) s).
  assert (Hr : write_resolve_block_ i s = (s1, Ret true)).
  { unfold write_resolve_block_. rewrite (bind_ok _ _ _ _ _ (size_file_in s Hw)).
    destruct (Z.leb_spec (nblocks (file s)) i); [|lia]. rewrite (wrapu_small 32 (i + 1)) by lia.
    assert (Hz : resize_file_ (i + 1) s = (s1, Ret tt)) by (apply resize_new; [easy|lia]).
    now rewrite (bind_ok _ _ _ _ _ Hz). }
  assert (Hi1 : inside s1 i) by (unfold inside, s1; cbn; lia).
  assert (Hw1 : wf_store s1).
  { split; cbn; [lia|]. intros j b Hj. apply Hb in Hj. split; [lia|easy]. }
  assert (Hz : block_at s i = zero_block).
  { unfold block_at. destruct (blocks (file s) !! i) eqn:E; [|easy]. apply Hb in E. lia. }
  set (s2 := upd i (with_next 0) s1).
  assert (Hi2 : inside s2 i) by exact Hi1.
  assert (Hset : (set_next_index i 0;; set_size i 0) s1 = (upd i (with_used 0) s2, Ret tt)).
  { rewrite (bind_ok _ _ _ _ _ (set_next_index_in s1 i 0 Hi1)). exact (set_size_in s2 i 0 Hi2). }
  unfold get_block. rewrite (bind_ok _ _ _ _ _ Hr), (bind_ok _ _ _ _ _ Hset).
  eexists. split; [reflexivity|].
  assert (Hat : forall j, block_at (upd i (with_used 0) s2) j = block_at s j).
  { intros j. destruct (decide (i = j)) as [<-|Hne].
    - unfold s2. rewrite !block_at_upd. change (block_at s1 i) with (block_at s i). now rewrite Hz.
    - unfold s2. now rewrite !block_at_upd_ne. }
  split; [|easy]. unfold s2.
  assert (Hwz : forall g, block_at g i = zero_block -> wf_store g -> inside g i ->
    forall f, f = with_next 0 \/ f = with_used 0 -> wf_store (upd i f g)).
  { intros g Hg Hwg Hig f Hf. apply wf_upd; [easy..|]. rewrite Hg.
    destruct Hf as [->| ->]; apply wf_zero_block. }
  apply Hwz; [|apply Hwz|..]; auto.
  rewrite block_at_upd. change (block_at s1 i) with (block_at s i). now rewrite Hz.
Qed.

(** ** Chains *)

(** [chain s b l]: from block [b] the [next_index] fields lead through [l]. *)
Fixpoint chain (s : Store) (b : Z) (l : list Z) : Prop :=
  match l with
  | [] => b = 0
  | x :: l' => b = x /\ 0 < x < nblocks (file s) /\ chain s (next_index (block_at s x)) l'
  end.

(** What does not touch the links of a chain leaves it. *)
Lemma chain_next s s' b l : nblocks (file s) <= nblocks (file s') ->
  (forall x, x ∈ l -> next_index (block_at s' x) = next_index (block_at s x)) -> chain s b l -> chain s' b l.
Proof.
  intros Hn. revert b. induction l as [|x l IH]; intros b Hf; cbn; [easy|].
  intros (-> & Hx & Hc). split; [easy|]. split; [lia|]. rewrite Hf by set_solver.
  apply IH; [set_solver|easy].
Qed.

Lemma chain_frame s s' b l : nblocks (file s) <= nblocks (file s') ->
  (forall x, x ∈ l -> block_at s' x = block_at s x) -> chain s b l -> chain s' b l.
Proof. intros Hn Hf. apply chain_next; [easy|]. intros x Hx. now rewrite Hf. Qed.

Lemma chain_range s b l x : chain s b l -> x ∈ l -> 0 < x < nblocks (file s).
Proof.
  revert b. induction l as [|y l IH]; intros b; cbn; [set_solver|]. intros (_ & Hy & Hc) Hx.
  apply elem_of_cons in Hx as [->|Hx]; [easy|eauto].
Qed.

Lemma chain_app s b l x l' : chain s b (l ++ x :: l') ->
  0 < x < nblocks (file s) /\ chain s (next_index (block_at s x)) l'.
Proof.
  revert b. induction l as [|y l IH]; intros b; cbn; [tauto|]. intros (_ & _ & Hc). now apply IH in Hc.
Qed.

(** The last block of a chain gets another continuation. *)
Lemma chain_continue s s' b l x l' l2 : nblocks (file s) <= nblocks (file s') ->
  (forall y, y ∈ l -> block_at s' y = block_at s y) ->
  chain s b (l ++ x :: l') -> chain s' (next_index (block_at s' x)) l2 -> chain s' b (l ++ x :: l2).
Proof.
  intros Hn. revert b. induction l as [|y l IH]; intros b Hf; cbn; intros (-> & Hx & Hc) H2.
  - split; [easy|]. split; [lia|easy].
  - split; [easy|]. split; [lia|]. rewrite Hf by set_solver. apply IH; [set_solver|easy..].
Qed.

(** ** The invariant *)

(** The blocks of the header and of the descriptions. *)
Definition DESCRIPTION : Z := 1.
Definition KEYS_DESCRIPTION : Z := 2.

(** [F] are the free blocks, [L] the blocks in use, above those of the header. *)
Record store_pre (s : Store) (F L : list Z) : Prop := {
  ok_wf : wf_store s;
  ok_count : 3 <= nblocks (file s);
  ok_description : allocator_description s = DESCRIPTION;
  ok_free : chain s (first_free_block s) F;
  ok_nodup : NoDup (F ++ L);
  ok_range : forall x, x ∈ F ++ L -> 3 <= x < nblocks (file s) }.

(** Between operations the description has the head of the free list. *)
Record store_ok (s : Store) (F L : list Z) : Prop := {
  ok_pre : store_pre s F L;
  ok_synced : field (block_at s DESCRIPTION) 0 = first_free_block s }.

(** What an operation leaves alone: the members but the head of the free list,
    and the blocks of [P]. *)
Record leaves (P : Z -> Prop) (s s' : Store) : Prop := {
  lv_count : nblocks (file s) <= nblocks (file s');
  lv_blocks : forall x, P x -> block_at s' x = block_at s x;
  lv_description : allocator_description s' = allocator_description s;
  lv_descr : descr_block s' = descr_block s;
  lv_keys : first_keys_block s' = first_keys_block s;
  lv_writers : writers s' = writers s }.

#[global] Instance leaves_refl P : Reflexive (leaves P).
Proof. intros s. now split. Qed.

Lemma leaves_trans P s1 s2 s3 : leaves P s1 s2 -> leaves P s2 s3 -> leaves P s1 s3.
Proof. intros [] []. split; try congruence; [lia|]. intros x Hx. rewrite lv_blocks1, lv_blocks0; auto. Qed.

Lemma leaves_weaken (P Q : Z -> Prop) s s' : (forall x, Q x -> P x) -> leaves P s s' -> leaves Q s s'.
Proof. intros Hq []. split; auto. Qed.

Lemma leaves_upd (P : Z -> Prop) i f s : ~ P i -> leaves P s (upd i f s).
Proof.
  intros Hi. split; try easy. intros x Hx. apply block_at_upd_ne. now intros ->.
Qed.

Lemma store_ok_perm s F L L' : L ≡ₚ L' -> store_ok s F L -> store_ok s F L'.
Proof.
  intros Hp [[] ?]. split; [|easy]. split; auto.
  - now rewrite <- Hp.
  - intros x. rewrite <- Hp. auto.
Qed.

#[global] Instance store_ok_proper s F : Proper (Permutation ==> iff) (store_ok s F).
Proof. intros L L' Hp. split; now apply store_ok_perm. Qed.

(** An operation that leaves the free list and the description alone. *)
Lemma store_ok_leaves s s' F L : store_ok s F L -> wf_store s' ->
  leaves (fun x => x = DESCRIPTION \/ x ∈ F) s s' -> first_free_block s' = first_free_block s ->
  store_ok s' F L.
Proof.
  intros [[] ?] Hw Hl Hf. pose proof (lv_count _ _ _ Hl). split.
  2: { rewrite (lv_blocks _ _ _ Hl), Hf; auto. }
  split; auto.
  - lia.
  - now rewrite (lv_description _ _ _ Hl).
  - rewrite Hf. apply (chain_frame s); [lia| |easy]. intros x Hx. apply (lv_blocks _ _ _ Hl). auto.
  - intros x Hx. apply ok_range0 in Hx. lia.
Qed.

(** A change of a block in use that keeps it well formed. *)
Lemma store_ok_upd s F L i f : store_ok s F L -> i ∈ L -> wf_block (f (block_at s i)) ->
  store_ok (upd i f s) F L.
Proof.
  intros Hs Hi Hb. pose proof (ok_pre _ _ _ Hs) as Hp. pose proof (ok_range _ _ _ Hp i) as Hr.
  assert (Hi' : 3 <= i < nblocks (file s)) by (apply Hr; set_solver).
  apply (store_ok_leaves s); [easy| | |easy].
  - apply wf_upd; [apply Hp| |easy]. unfold inside. lia.
  - apply leaves_upd. unfold DESCRIPTION. intros [->|HF]; [lia|].
    pose proof (ok_nodup _ _ _ Hp) as Hd. apply NoDup_app in Hd as (_ & Hd & _). now apply (Hd i).
Qed.

(** ** Content *)

Lemma content_length s i : wf_store s -> Z.of_nat (length (content (block_at s i))) = map_page_size - 8.
Proof. intros Hw. apply (wf_at s i Hw). Qed.

Lemma content_ge s i : wf_store s -> avail <= Z.of_nat (length (content (block_at s i))).
Proof. intros Hw. rewrite content_length by easy. apply page_ge. Qed.

Lemma wf_with_next v b : wf_block b -> wf_block (with_next v b).
Proof. easy. Qed.

Lemma wf_with_used v b : 0 <= v <= avail -> wf_block b -> wf_block (with_used v b).
Proof.
  intros Hv [Hl _]. split; [easy|]. cbn. pose proof avail_range. rewrite wrapu_small by lia. easy.
Qed.

Lemma wf_splice off bytes b : off + Z.of_nat (length bytes) <= Z.of_nat (length (content b)) -> 0 <= off ->
  wf_block b -> wf_block (with_content (splice (Z.to_nat off) bytes) b).
Proof.
  intros Hb Ho [Hl Hu]. split; [|easy]. cbn. rewrite length_splice; [easy|lia].
Qed.

Lemma field_set off v b : 0 <= off -> off + 4 <= Z.of_nat (length (content b)) -> 0 <= v < 2 ^ 32 ->
  field (with_content (splice (Z.to_nat off) (le32 (u32 v))) b) off = v.
Proof.
  intros Ho Hl Hv. unfold field. cbn [content with_content]. rewrite (wrapu_small 32 v Hv).
  change 4%nat with (length (le32 v)). rewrite slice_splice by (cbn; lia). now apply of_le_le32.
Qed.

(** ** The allocator *)

Lemma sync_ok s : wf_store s -> 3 <= nblocks (file s) -> allocator_description s = DESCRIPTION ->
  0 <= first_free_block s < 2 ^ 32 ->
  exists s', allocator_sync_ s = (s', Ret tt) /\ wf_store s' /\ nblocks (file s') = nblocks (file s) /\
    leaves (fun x => x <> DESCRIPTION) s s' /\ first_free_block s' = first_free_block s /\
    field (block_at s' DESCRIPTION) 0 = first_free_block s.
Proof.
  intros Hw Hn Hd Hf. pose proof (content_ge s DESCRIPTION Hw). pose proof avail_range.
  assert (Hi : inside s DESCRIPTION) by (unfold inside, DESCRIPTION; lia).
  assert (Hs : allocator_sync_ s =
    (upd DESCRIPTION (with_content (splice 0 (le32 (u32 (first_free_block s))))) s, Ret tt)).
  { unfold allocator_sync_. rewrite (bind_ok _ _ s s (allocator_description s) eq_refl).
    rewrite (bind_ok _ _ s s (first_free_block s) eq_refl), Hd.
    apply (set_field_in s DESCRIPTION 0); [easy|lia|lia]. }
  eexists. split; [exact Hs|]. split.
  { apply wf_upd; [easy..|]. apply (wf_splice 0); [cbn; lia|lia|now apply wf_at]. }
  split; [easy|]. split; [now apply leaves_upd|]. split; [easy|].
  rewrite block_at_upd. apply (field_set 0); [lia|lia|easy].
Qed.

(** The part of [allocate] behind the growth of the file. *)
Definition pop : M Z :=
  first_free_index ← member first_free_block;
  allocated_block ← get_block first_free_index;
  new_first_free_index ← get_next_index allocated_block;
  set_next_index allocated_block 0;;
  modify (with_free new_first_free_index);;
  allocator_sync_;;
  mret allocated_block.

Lemma chain_head s b l : wf_store s -> chain s b l -> 0 <= b < 2 ^ 32.
Proof.
  pose proof capacity_range. intros [Hn _]. destruct l as [|x l]; cbn; [intros ->; lia|intros (-> & Hx & _); lia].
Qed.

Lemma pop_ok s b F L : store_pre s (b :: F) L ->
  exists s', pop s = (s', Ret b) /\ store_ok s' F (b :: L) /\ next_index (block_at s' b) = 0 /\
    leaves (fun x => x <> DESCRIPTION /\ x <> b) s s' /\ nblocks (file s') = nblocks (file s).
Proof.
  intros Hs. pose proof Hs as []. cbn in ok_free0. destruct ok_free0 as (Hb & Hr & Hc).
  assert (Hi : inside s b) by (unfold inside; lia).
  assert (Hb3 : 3 <= b) by (apply ok_range0; set_solver).
  set (s1 := with_free (next_index (block_at s b)) (upd b (with_next 0) s)).
  assert (Hw1 : wf_store s1) by (apply (wf_upd b (with_next 0) s); [easy..|now apply wf_at]).
  assert (Hc1 : chain s1 (next_index (block_at s b)) F).
  { apply (chain_frame s); [easy| |easy]. intros x Hx. apply block_at_upd_ne. intros <-.
    apply NoDup_app in ok_nodup0 as (Hd & _). apply NoDup_cons in Hd as [Hd _]. easy. }
  destruct (sync_ok s1) as (s2 & Hsync & Hw2 & Hn2 & Hl2 & Hf2 & Hfield); try easy.
  { now apply (chain_head s1 _ F). }
  exists s2. split; [|split; [|split; [|split; [|now rewrite Hn2]]]].
  - unfold pop. rewrite (bind_ok _ _ s s _ eq_refl), Hb.
    rewrite (bind_ok _ _ _ _ _ (get_block_in s b ok_wf0 Hi)).
    rewrite (bind_ok _ _ _ _ _ (get_next_index_in s b Hi)).
    rewrite (bind_ok _ _ _ _ _ (set_next_index_in s b 0 Hi)).
    rewrite (bind_ok _ _ _ s1 tt eq_refl). now rewrite (bind_ok _ _ _ _ _ Hsync).
  - assert (Hp : F ++ b :: L ≡ₚ (b :: F) ++ L) by (symmetry; apply Permutation_middle).
    split; [|now rewrite Hf2]. split; auto.
    + now rewrite Hn2.
    + now rewrite (lv_description _ _ _ Hl2).
    + rewrite Hf2. apply (chain_frame s1); [lia| |exact Hc1]. intros x Hx. apply (lv_blocks _ _ _ Hl2).
      assert (3 <= x) by (apply ok_range0; set_solver). unfold DESCRIPTION. lia.
    + now rewrite Hp.
    + intros x. rewrite Hp. intros Hx. rewrite Hn2. now apply ok_range0.
  - rewrite (lv_blocks _ _ _ Hl2) by (unfold DESCRIPTION; lia).
    change (block_at s1 b) with (block_at (upd b (with_next 0) s) b). now rewrite block_at_upd.
  - apply (leaves_trans _ _ s1); [|now apply (leaves_weaken (fun x => x <> DESCRIPTION))].
    split; try easy. intros x [_ Hx]. now apply (block_at_upd_ne b x).
Qed.

Lemma next_get s s' i x : inside s i -> next_index (block_at s i) = x -> 0 < x ->
  get_block x s = (s', Ret x) -> next i s = (s', Ret (Some x)).
Proof.
  intros Hi Hx Hp Hg. unfold next. rewrite (bind_ok _ _ _ _ _ (get_next_index_in s i Hi)), Hx.
  destruct (Z.eqb_spec x 0); [lia|]. now rewrite (bind_ok _ _ _ _ _ Hg).
Qed.

Lemma next_in s i x : wf_store s -> inside s i -> next_index (block_at s i) = x -> 0 < x < nblocks (file s) ->
  next i s = (s, Ret (Some x)).
Proof.
  intros Hw Hi Hx Hr. apply next_get; [easy|easy|lia|]. apply get_block_in; [easy|unfold inside; lia].
Qed.

Lemma next_none s i : inside s i -> next_index (block_at s i) = 0 -> next i s = (s, Ret None).
Proof.
  intros Hi Hx. unfold next. now rewrite (bind_ok _ _ _ _ _ (get_next_index_in s i Hi)), Hx.
Qed.

Lemma same_members_leaves P s s' : same_members s s' -> nblocks (file s) <= nblocks (file s') ->
  (forall x, P x -> block_at s' x = block_at s x) -> leaves P s s'.
Proof. intros (? & ? & ? & ? & ?) Hn Hb. now split. Qed.

(** The new blocks are linked; the last turn adds one more block to the file. *)
Definition linked (i i' : Z) (s s' : Store) : Prop :=
  wf_store s' /\ nblocks (file s') = i' + 1 /\ same_members s s' /\
  (forall x, x < i -> block_at s' x = block_at s x) /\ chain s' i (seqZ i (i' + 1 - i)).

(** The fields of one block are set. *)
Lemma link_turn s i : wf_store s -> 0 < i < nblocks (file s) ->
  exists s', (forall {A} (k : M A), (set_size i 0;; set_next_index i (i + 1);; k) s = k s') /\
    wf_store s' /\ nblocks (file s') = nblocks (file s) /\ same_members s s' /\
    (forall x, x <> i -> block_at s' x = block_at s x) /\ next_index (block_at s' i) = i + 1.
Proof.
  intros Hw Hi. pose proof capacity_range. pose proof avail_range. pose proof Hw as [Hn _].
  assert (Hin : inside s i) by (unfold inside; lia).
  set (s1 := upd i (with_used 0) s).
  assert (Hin1 : inside s1 i) by exact Hin.
  assert (Hw1 : wf_store s1)
    by (apply wf_upd; [easy..|]; apply wf_with_used; [lia|now apply wf_at]).
  exists (upd i (with_next (i + 1)) s1). split; [|split; [|split; [easy|split; [easy|split]]]].
  - intros A k. rewrite (bind_ok _ _ _ _ _ (set_size_in s i 0 Hin)).
    now rewrite (bind_ok _ _ _ _ _ (set_next_index_in s1 i (i + 1) Hin1)).
  - apply wf_upd; [easy..|now apply wf_at].
  - intros x Hx. unfold s1. now rewrite !block_at_upd_ne.
  - rewrite block_at_upd. apply (wrapu_small 32). lia.
Qed.

Lemma link_ok k : forall s i, wf_store s -> 0 < i -> nblocks (file s) = i + Z.of_nat (S k) ->
  (forall x, nblocks (file s) <= x -> block_at s x = zero_block) ->
  i + Z.of_nat (S k) < capacity ->
  exists s', link_blocks (S k) i (Some i) s = (s', Ret tt) /\ linked i (i + Z.of_nat (S k)) s s'.
Proof.
  induction k as [|k IH]; intros s i Hw Hi Hn Hz Hcap;
    destruct (link_turn s i Hw ltac:(lia)) as (s2 & Hrun & Hw2 & Hn2 & Hm2 & Hb2 & Hx2);
    assert (Hin2 : inside s2 i) by (unfold inside; lia); cbn [link_blocks]; rewrite Hrun.
  - destruct (get_block_new s2 (i + 1) Hw2 ltac:(lia)) as (s3 & Hg & Hw3 & Hn3 & Hm3 & Hb3).
    exists s3. split.
    + now rewrite (bind_ok _ _ _ _ _ (next_get s2 s3 i (i + 1) Hin2 Hx2 ltac:(lia) Hg)).
    + split; [easy|]. split; [lia|]. split; [unfold same_members in *; intuition congruence|].
      split; [intros x Hx; rewrite Hb3; apply Hb2; lia|].
      replace (i + Z.of_nat 1 + 1 - i) with 2 by lia. rewrite !seqZ_cons, seqZ_nil by lia. cbn [chain].
      replace (Z.succ i) with (i + 1) by lia. rewrite !Hb3, Hx2, Hb2, Hz by lia.
      repeat split; lia.
  - rewrite (bind_ok _ _ _ _ _ (next_in s2 i (i + 1) Hw2 Hin2 Hx2 ltac:(lia))).
    destruct (IH s2 (i + 1)) as (s3 & Hl & Hw3 & Hn3 & Hm3 & Hb3 & Hc3); try easy; try lia.
    { intros x Hx. rewrite Hb2 by lia. apply Hz. lia. }
    exists s3. split; [exact Hl|]. split; [easy|]. split; [lia|].
    split; [unfold same_members in *; intuition congruence|].
    split; [intros x Hx; rewrite Hb3 by lia; apply Hb2; lia|].
    rewrite seqZ_cons by lia. cbn [chain]. split; [easy|]. split; [lia|]. rewrite Hb3, Hx2 by lia.
    replace (Z.succ i) with (i + 1) by lia. 
    replace (Z.pred _) with (i + 1 + Z.of_nat (S k) + 1 - (i + 1)) by lia. exact Hc3.
Qed.

Lemma beyond_zero s x : wf_store s -> nblocks (file s) <= x -> block_at s x = zero_block.
Proof.
  intros [_ Hw] Hx. unfold block_at. destruct (blocks (file s) !! x) eqn:E; [|easy].
  apply Hw in E. lia.
Qed.

(** The file grows by eleven blocks, which are the new free list. *)
Lemma grow_ok s L : store_ok s [] L -> nblocks (file s) + 11 <= capacity ->
  exists s', grow s = (s', Ret tt) /\ wf_store s' /\ nblocks (file s') = nblocks (file s) + 11 /\
    first_free_block s' = nblocks (file s) /\ leaves (fun x => x < nblocks (file s)) s s' /\
    chain s' (nblocks (file s)) (seqZ (nblocks (file s)) 11).
Proof.
  intros Hs Hcap. pose proof Hs as [[] ?]. set (n := nblocks (file s)) in *.
  pose proof capacity_range as Hcr. pose proof avail_range as Har.
  destruct (get_block_new s (n + 9) ok_wf0 ltac:(lia)) as (s1 & Hg1 & Hw1 & Hn1 & Hm1 & Hb1).
  assert (Hin1 : inside s1 (n + 9)) by (unfold inside; lia).
  set (s2 := upd (n + 9) (with_next 0) (upd (n + 9) (with_used 0) s1)).
  assert (Hb2 : forall x, block_at s2 x = block_at s x).
  { intros x. unfold s2. destruct (decide (n + 9 = x)) as [<-|Hne].
    - rewrite !block_at_upd, Hb1, beyond_zero by (easy || lia). reflexivity.
    - now rewrite !block_at_upd_ne, Hb1. }
  assert (Hw2 : wf_store s2).
  { apply wf_upd; [apply wf_upd; [easy..|]|easy|apply wf_with_next; rewrite block_at_upd];
      (apply wf_with_used; [lia|now apply wf_at]). }
  assert (Hin2 : inside s2 n) by (unfold inside, s2; cbn; lia).
  set (s3 := with_free n s2).
  destruct (link_ok 9 s3 n) as (s4 & Hl & Hw4 & Hn4 & Hm4 & Hb4 & Hc4); try easy; try lia.
  { unfold s3, s2. cbn. lia. }
  { intros x Hx. change (block_at s3 x) with (block_at s2 x). rewrite Hb2. apply beyond_zero; [easy|].
    unfold s3, s2 in Hx. cbn in Hx. lia. }
  exists s4. split; [|split; [easy|split; [lia|split; [now apply Hm4|split]]]].
  - unfold grow. unfold max_block_index. rewrite (bind_ok _ _ s s n); [|unfold member; now rewrite size_file_eq].
    replace (u32 (n + Z.of_nat ALLOCATE_PORTION - 1)) with (n + 9)
      by (unfold ALLOCATE_PORTION; rewrite wrapu_small; lia).
    rewrite (bind_ok _ _ _ _ _ Hg1), (bind_ok _ _ _ _ _ (set_size_in s1 (n + 9) 0 Hin1)).
    rewrite (bind_ok _ _ _ s2 tt (set_next_index_in (upd (n + 9) (with_used 0) s1) (n + 9) 0 Hin1)).
    rewrite (bind_ok _ _ _ _ _ (get_block_in s2 n Hw2 Hin2)).
    now rewrite (bind_ok _ _ _ s3 tt eq_refl).
  - destruct Hm4 as (? & ? & ? & ? & ?), Hm1 as (? & ? & ? & ? & ?). split; try (cbn in *; congruence); [lia|].
    intros x Hx. rewrite Hb4 by easy. apply Hb2.
  - replace (n + Z.of_nat 10 + 1 - n) with 11 in Hc4 by lia. exact Hc4.
Qed.

(** The free list that [allocate] takes its block from. *)
Definition refilled (s : Store) (F : list Z) : list Z :=
  match F with [] => seqZ (nblocks (file s)) 11 | _ => F end.

Lemma allocate_ok s F L : store_ok s F L -> nblocks (file s) + 11 <= capacity ->
  exists s' b F', allocate s = (s', Ret b) /\ refilled s F = b :: F' /\ store_ok s' F' (b :: L) /\
    next_index (block_at s' b) = 0 /\
    leaves (fun x => x <> DESCRIPTION /\ x ∉ F /\ x < nblocks (file s)) s s' /\
    nblocks (file s') <= nblocks (file s) + 11.
Proof.
  intros Hs Hcap. pose proof Hs as [Hp0 _]. pose proof Hp0 as [].
  assert (Hpre : exists s1 b F', (if first_free_block s =? 0 then grow else mret tt) s = (s1, Ret tt) /\
    refilled s F = b :: F' /\ store_pre s1 (b :: F') L /\ (b ∈ F \/ b = nblocks (file s)) /\
    leaves (fun x => x < nblocks (file s)) s s1 /\ nblocks (file s1) <= nblocks (file s) + 11).
  { destruct F as [|b F].
    - cbn in ok_free0. rewrite ok_free0. destruct (grow_ok s L Hs Hcap) as (s1 & Hg & Hw1 & Hn1 & Hf1 & Hl1 & Hc1).
      assert (Hseq : nblocks (file s) :: seqZ (Z.succ (nblocks (file s))) 10 = seqZ (nblocks (file s)) 11)
        by now rewrite (seqZ_cons (nblocks (file s)) 11).
      exists s1, (nblocks (file s)), (seqZ (Z.succ (nblocks (file s))) 10).
      split; [exact Hg|]. split; [now rewrite Hseq|]. split; [|split; [now right|split; [easy|lia]]].
      rewrite Hseq. split; try easy.
      + lia.
      + now rewrite (lv_description _ _ _ Hl1).
      + now rewrite Hf1.
      + apply NoDup_app. split; [apply NoDup_seqZ|]. split; [|easy].
        intros x Hx HL. apply elem_of_seqZ in Hx. apply ok_range0 in HL. lia.
      + intros x Hx. apply elem_of_app in Hx as [Hx|Hx]; [apply elem_of_seqZ in Hx; lia|].
        apply ok_range0 in Hx. lia.
    - exists s, b, F. cbn in ok_free0. destruct ok_free0 as (-> & Hb & _).
      destruct (Z.eqb_spec b 0); [lia|]. split; [easy|]. split; [easy|]. split; [easy|].
      split; [left; set_solver|]. split; [easy|lia]. }
  destruct Hpre as (s1 & b & F' & Hrun & Hre & Hs1 & Hb & Hl1 & Hn1).
  destruct (pop_ok s1 b F' L Hs1) as (s2 & Hpop & Hs2 & Hx2 & Hl2 & Hn2).
  exists s2, b, F'. split; [|split; [easy|split; [easy|split; [easy|split; [|lia]]]]].
  - unfold allocate. apply try_ok. rewrite (bind_ok _ _ s s _ eq_refl), (bind_ok _ _ _ _ _ Hrun). exact Hpop.
  - apply (leaves_trans _ _ s1).
    + eapply leaves_weaken; [|exact Hl1]. cbn. tauto.
    + eapply leaves_weaken; [|exact Hl2]. cbn. intros x (H1 & H2 & H3). split; [easy|]. intros ->.
      destruct Hb as [Hb|Hb]; [easy|lia].
Qed.

Lemma deallocate_ok s b F L : store_ok s F (b :: L) ->
  exists s', deallocate b s = (s', Ret tt) /\ store_ok s' (b :: F) L /\
    leaves (fun x => x <> DESCRIPTION /\ x <> b) s s' /\ nblocks (file s') = nblocks (file s).
Proof.
  intros [[] _]. assert (Hb : 3 <= b < nblocks (file s)) by (apply ok_range0; set_solver).
  assert (Hi : inside s b) by (unfold inside; lia).
  set (s1 := with_free b (upd b (with_next (first_free_block s)) s)).
  assert (Hw1 : wf_store s1) by (apply (wf_upd b _ s); [easy..|now apply wf_at]).
  assert (HbF : b ∉ F) by (apply NoDup_app in ok_nodup0; set_solver).
  assert (Hhead : 0 <= first_free_block s < 2 ^ 32) by now apply (chain_head s _ F).
  pose proof capacity_range. pose proof ok_wf0 as [Hcap _].
  destruct (sync_ok s1) as (s2 & Hsync & Hw2 & Hn2 & Hl2 & Hf2 & Hfield); try easy; [cbn; lia|].
  exists s2. split; [|split; [|split; [|now rewrite Hn2]]].
  - unfold deallocate. apply try_ok. rewrite (bind_ok _ _ s s _ eq_refl).
    rewrite (bind_ok _ _ _ _ _ (get_block_in s b ok_wf0 Hi)).
    rewrite (bind_ok _ _ _ _ _ (set_next_index_in s b _ Hi)).
    now rewrite (bind_ok _ _ _ s1 tt eq_refl).
  - assert (Hp : (b :: F) ++ L ≡ₚ F ++ b :: L) by apply Permutation_middle.
    split; [|now rewrite Hf2]. split; auto.
    + now rewrite Hn2.
    + now rewrite (lv_description _ _ _ Hl2).
    + rewrite Hf2. apply (chain_frame s1); [lia| |].
      * intros x Hx. apply (lv_blocks _ _ _ Hl2). assert (3 <= x) by (apply ok_range0; set_solver).
        unfold DESCRIPTION. lia.
      * cbn [chain]. split; [easy|]. split; [cbn; lia|].
        change (block_at s1 b) with (block_at (upd b (with_next (first_free_block s)) s) b).
        rewrite block_at_upd. cbn [next_index with_next]. rewrite wrapu_small by easy.
        apply (chain_frame s); [easy| |easy]. intros x Hx. apply (block_at_upd_ne b x). now intros ->.
    + now rewrite Hp.
    + intros x. rewrite Hp, Hn2. apply ok_range0.
  - apply (leaves_trans _ _ s1); [|now apply (leaves_weaken (fun x => x <> DESCRIPTION))].
    split; try easy. intros x [_ Hx]. now apply (block_at_upd_ne b x).
Qed.
End Rep.
