(* ===== verification/StoreLogic.v ===== *)
(** * StoreLogic: what an operation on the store keeps, whatever its result *)

From Stdlib Require Import ZArith List Bool Lia.
From stdpp Require Import base list gmap fin_maps.
From S2P Require Import Prelude BlockFile BlockStore BlockRep.
Open Scope Z_scope.

Create HintDb keeps.

Section Keeps.
Context `{Disk}.

(** ** Rules *)

Definition keeps {A} (P : Store -> Prop) (m : M A) : Prop := forall s, P s -> P (fst (m s)).

Lemma keeps_bind {A B} P (m : M A) (k : A -> M B) : keeps P m -> (forall a, keeps P (k a)) -> keeps P (m ≫= k).
Proof.
  intros Hm Hk s Hs. unfold mbind, M_bind. specialize (Hm s Hs). destruct (m s) as [s' [a|e|]]; cbn in *; auto.
  now apply Hk.
Qed.

Lemma keeps_try {A} P e (m : M A) : keeps P m -> keeps P (try_as e m).
Proof.
  intros Hm s Hs. unfold try_as. specialize (Hm s Hs). now destruct (m s) as [s' [a|e'|]].
Qed.

Lemma keeps_ret {A} P (a : A) : keeps P (mret a).
Proof. now intros s. Qed.

Lemma keeps_member {A} P (f : Store -> A) : keeps P (member f).
Proof. now intros s. Qed.

Lemma keeps_undef {A} P : keeps (A := A) P undef.
Proof. now intros s. Qed.

Lemma keeps_throw {A} P e : keeps (A := A) P (throw e).
Proof. now intros s. Qed.

Lemma keeps_peek P i : keeps P (peek i).
Proof. intros s Hs. unfold peek. now destruct (_ && _). Qed.

End Keeps.

#[export] Hint Resolve keeps_ret keeps_member keeps_undef keeps_throw keeps_peek : keeps.

(** An operation is a binding of operations, a branch or one of the above. *)
Ltac keeping :=
  repeat first
    [ solve [auto with keeps]
    | apply keeps_bind; [|intros]
    | apply keeps_try
    | match goal with |- keeps _ (if ?b then _ else _) => destruct b end
    | match goal with |- keeps _ (match ?x with None => _ | Some _ => _ end) => destruct x end ].

Section Clean.
Context `{Disk}.

(** ** Blocks that were never written *)

Definition clean (s : Store) : Prop := forall x, 3 <= x -> used (block_at s x) = 0.

Lemma clean_poke i f : (forall b, used b = 0 -> used (f b) = 0) \/ i < 3 -> keeps clean (poke i f).
Proof.
  intros Hf s Hs. unfold poke. destruct (_ && _); [|easy]. cbn. intros x Hx.
  change (with_file _ s) with (upd i f s). destruct (decide (i = x)) as [->|Hne].
  - rewrite block_at_upd. destruct Hf as [Hf|Hf]; [|lia]. apply Hf. now apply Hs.
  - rewrite block_at_upd_ne by easy. now apply Hs.
Qed.

Lemma clean_file s f : (forall x, blocks f !! x = blocks (file s) !! x \/ blocks f !! x = None) -> clean s ->
  clean (with_file f s).
Proof.
  intros Hf Hs x Hx. specialize (Hs x Hx). unfold block_at in *. cbn. destruct (Hf x) as [->| ->]; [easy|reflexivity].
Qed.

Lemma clean_resize n : keeps clean (resize_file_ n).
Proof.
  intros s Hs. unfold resize_file_. destruct (_ <? _); [easy|]. destruct (_ <? _); [easy|]. cbn.
  apply clean_file; [|easy]. intros x. cbn. rewrite map_lookup_filter. destruct (blocks (file s) !! x); [|now left].
  cbn. case_guard; [now left|now right].
Qed.

Lemma clean_modify f : (forall s, file (f s) = file s) -> keeps clean (modify f).
Proof. intros Hf s Hs x Hx. cbn. unfold block_at. rewrite Hf. now apply Hs. Qed.

#[local] Hint Resolve clean_resize : keeps.
#[local] Hint Extern 1 (keeps clean (modify _)) => apply clean_modify : keeps.
#[local] Hint Extern 1 (keeps clean (poke _ _)) => (apply clean_poke; now left) : keeps.

Lemma clean_get_block i : keeps clean (get_block i).
Proof. unfold get_block, write_resolve_block_, size_file_, set_next_index, set_size. keeping. Qed.

#[local] Hint Resolve clean_get_block : keeps.

Lemma clean_next i : keeps clean (next i).
Proof. unfold next, get_next_index. keeping. Qed.

Lemma clean_set_field i off v : keeps clean (set_field i off v).
Proof. unfold set_field, write_content. keeping. Qed.

#[local] Hint Resolve clean_next clean_set_field : keeps.

Lemma clean_link n : forall i cur, keeps clean (link_blocks n i cur).
Proof.
  induction n as [|n IH]; intros i cur; cbn [link_blocks]; unfold set_next_index, set_size; keeping.
Qed.

#[local] Hint Resolve clean_link : keeps.

Lemma clean_allocate : keeps clean allocate.
Proof.
  unfold allocate, grow, allocator_sync_, get_next_index, set_next_index, set_size, max_block_index. keeping.
Qed.

(** ** Reading *)

Lemma keeps_read_i P w n : keeps P (read_i_ w n).
Proof.
  assert (Hloop : forall fuel cur off size, keeps P (read_loop fuel cur off size)).
  { induction fuel as [|fuel IH]; intros [cur|] off size; cbn [read_loop];
      unfold get_size, read_next, get_next_index, read_content; keeping. }
  unfold read_i_. apply keeps_bind; [|intros p; keeping].
  intros s Hs. unfold writer. now destruct (writers s !! w).
Qed.
End Clean.
