(* ===== verification/BlockData.v ===== *)
(** * BlockData: what the readers and writers of chains do *)

From Stdlib Require Import ZArith List Bool Lia.
From stdpp Require Import base list gmap fin_maps.
From S2P Require Import Prelude BlockFile BlockStore BlockRep.
Open Scope Z_scope.

Section Data.
Context `{Disk} {Hdisk : DiskOk}.

Definition block_data (b : Block) : list Z := take (Z.to_nat (used b)) (content b).

(** The data of a chain. *)
Definition chain_data (s : Store) (l : list Z) : list Z := l ≫= (fun x => block_data (block_at s x)).

Lemma chain_data_frame s s' l : (forall x, x ∈ l -> block_at s' x = block_at s x) ->
  chain_data s' l = chain_data s l.
Proof.
  unfold chain_data. induction l as [|x l IH]; cbn; intros Hf; [easy|].
  rewrite Hf, IH; set_solver.
Qed.

Lemma chain_data_app s l l' : chain_data s (l ++ l') = chain_data s l ++ chain_data s l'.
Proof. apply bind_app. Qed.

Lemma chain_data_cons s x l : chain_data s (x :: l) = block_data (block_at s x) ++ chain_data s l.
Proof. reflexivity. Qed.

Lemma length_block_data s x : wf_store s -> Z.of_nat (length (block_data (block_at s x))) = used (block_at s x).
Proof.
  intros Hw. pose proof (content_ge s x Hw). destruct (wf_at s x Hw) as [_ Hu].
  unfold block_data. rewrite length_take. lia.
Qed.

(** The pointer to a block that an index stands for. *)
Definition ptr (b : Z) : option Z := if b =? 0 then None else Some b.

Lemma read_next_in s i : inside s i -> read_next i s = (s, Ret (ptr (next_index (block_at s i)))).
Proof.
  intros Hi. unfold read_next. rewrite (bind_ok _ _ _ _ _ (get_next_index_in s i Hi)).
  unfold ptr. now destruct (_ =? 0).
Qed.

Lemma ptr_chain s b l : chain s b l -> ptr b = head l.
Proof.
  unfold ptr. destruct l as [|x l]; cbn; [now intros ->|]. intros (-> & Hx & _).
  now destruct (Z.eqb_spec x 0); [lia|].
Qed.

Lemma ptr_some s b l : chain s b l -> l <> [] -> ptr b = Some b.
Proof.
  intros Hc Hne. rewrite (ptr_chain _ _ _ Hc). destruct l as [|x l]; [easy|]. cbn in *. now destruct Hc as [-> _].
Qed.

(** Distinct blocks are not more than the file has. *)
Lemma nodup_count s l : NoDup l -> (forall x, x ∈ l -> 0 <= x < nblocks (file s)) ->
  (length l <= Z.to_nat (nblocks (file s)))%nat.
Proof.
  intros Hd Hr. rewrite <- (length_seqZ 0). apply submseteq_length, NoDup_submseteq; [easy|].
  intros x Hx. apply elem_of_seqZ. apply Hr in Hx. lia.
Qed.

(** ** Reading *)

Lemma read_loop_ok s l : wf_store s -> forall fuel b off size, chain s b l ->
  (length l <= fuel)%nat -> off + Z.of_nat (length (chain_data s l)) <= size ->
  read_loop fuel (ptr b) off size s = (s, Ret (chain_data s l)).
Proof.
  intros Hw. induction l as [|x l IH]; intros fuel b off size Hc Hf Hs; rewrite (ptr_chain s b _ Hc).
  - now destruct fuel.
  - destruct fuel as [|fuel]; [cbn in Hf; lia|]. cbn in Hc. destruct Hc as (-> & Hx & Hc).
    assert (Hi : inside s x) by (unfold inside; lia).
    rewrite chain_data_cons, length_app in Hs.
    pose proof (length_block_data s x Hw) as Hlen. destruct (wf_at s x Hw) as [_ Hu].
    pose proof (content_ge s x Hw).
    cbn [read_loop head]. rewrite (bind_ok _ _ _ _ _ (get_size_in s x Hi)).
    destruct (Z.ltb_spec size (off + used (block_at s x))); [lia|].
    assert (Hrd : read_content x 0 (used (block_at s x)) s = (s, Ret (block_data (block_at s x))))
      by (apply (read_content_in s x 0); [easy|lia..]).
    rewrite (bind_ok _ _ _ _ _ Hrd).
    rewrite (bind_ok _ _ _ _ _ (read_next_in s x Hi)).
    rewrite (bind_ok _ _ _ _ _ (IH fuel _ (off + used (block_at s x)) size Hc ltac:(cbn in Hf; lia) ltac:(lia))).
    reflexivity.
Qed.

Lemma read_ok s w first size l buf_size : wf_store s -> writers s !! w = Some (mkWriter first size) ->
  chain s first l -> l <> [] -> NoDup l -> size = Z.of_nat (length (chain_data s l)) ->
  read_i_ w buf_size s =
  (s, Ret (if buf_size <? size then (0, []) else (size, chain_data s l))).
Proof.
  intros Hw Hp Hc Hne Hd Hs. unfold read_i_.
  rewrite (bind_ok _ _ s s (mkWriter first size)) by (unfold writer; now rewrite Hp).
  cbn [data_size FIRST_BLOCK_INDEX]. destruct (Z.ltb_spec buf_size size); [easy|].
  rewrite (bind_ok _ _ s s _ eq_refl).
  assert (Hl : (length l <= S (Z.to_nat (nblocks (file s))))%nat).
  { apply Nat.le_trans with (Z.to_nat (nblocks (file s))); [|lia]. apply nodup_count; [easy|].
    intros x Hx. apply (chain_range _ _ _ _ Hc) in Hx. lia. }
  assert (Hr : read_loop (S (Z.to_nat (nblocks (file s)))) (Some first) 0 buf_size s = (s, Ret (chain_data s l))).
  { rewrite <- (ptr_some s first l) by easy. apply read_loop_ok; [easy..|lia]. }
  now rewrite (bind_ok _ _ _ _ _ (try_ok _ _ _ _ _ Hr)).
Qed.

(** ** Writing *)

(** The blocks of the header are left alone too. *)
Definition others (L : list Z) (x : Z) : Prop := x ∈ L \/ x = 0 \/ x = KEYS_DESCRIPTION.

Lemma others_apart s F L L' x : store_ok s F L' -> (forall y, y ∈ L -> y ∈ L') -> others L x ->
  x <> DESCRIPTION /\ x ∉ F /\ x < nblocks (file s).
Proof.
  intros [[] _] Hsub Hx. unfold others, DESCRIPTION, KEYS_DESCRIPTION in *.
  apply NoDup_app in ok_nodup as (_ & Hd & _). specialize (ok_range x).
  destruct Hx as [Hx|Hx].
  - apply Hsub in Hx. specialize (ok_range ltac:(set_solver)). split; [lia|]. split; [|lia].
    intros HF. now apply (Hd x).
  - split; [lia|]. split; [|lia]. intros HF. specialize (ok_range ltac:(set_solver)). lia.
Qed.

Lemma use_nodup s F L : store_ok s F L -> NoDup L.
Proof. intros [[] _]. now apply NoDup_app in ok_nodup as (_ & _ & ?). Qed.

Lemma others_not s F L L' x : store_ok s F L' -> L' ≡ₚ x :: L -> ~ others L x.
Proof.
  intros [[] _] Hp [Hx|Hx].
  - apply NoDup_app in ok_nodup as (_ & _ & Hd). rewrite Hp in Hd. apply NoDup_cons in Hd. tauto.
  - specialize (ok_range x). rewrite Hp in ok_range. specialize (ok_range ltac:(set_solver)).
    unfold KEYS_DESCRIPTION in Hx. lia.
Qed.

(** The data of one turn is stored in a block. *)
Lemma store_data s F cur L n bytes : store_ok s F (cur :: L) -> n = Z.of_nat (length bytes) -> n <= avail ->
  exists s', (forall {A} (k : M A), (set_size cur n;; write_content cur 0 bytes;; k) s = k s') /\
    store_ok s' F (cur :: L) /\ leaves (fun x => x <> cur) s s' /\ nblocks (file s') = nblocks (file s) /\
    next_index (block_at s' cur) = next_index (block_at s cur) /\ block_data (block_at s' cur) = bytes.
Proof.
  intros Hs Hn Ha. pose proof avail_range. pose proof (ok_pre _ _ _ Hs) as Hp.
  assert (Hr : 3 <= cur < nblocks (file s)) by (apply (ok_range _ _ _ Hp); set_solver).
  assert (Hi : inside s cur) by (unfold inside; lia).
  set (s1 := upd cur (with_used n) s).
  assert (Hs1 : store_ok s1 F (cur :: L)).
  { apply store_ok_upd; [easy|set_solver|]. apply wf_with_used; [lia|apply wf_at, Hp]. }
  pose proof (content_ge s1 cur (ok_wf _ _ _ (ok_pre _ _ _ Hs1))) as Hc.
  assert (Hb : 0 + Z.of_nat (length bytes) <= Z.of_nat (length (content (block_at s1 cur)))) by lia.
  exists (upd cur (with_content (splice (Z.to_nat 0) bytes)) s1).
  split; [|split; [|split; [|split; [easy|split]]]].
  - intros A k. rewrite (bind_ok _ _ _ _ _ (set_size_in s cur n Hi)).
    assert (Hi1 : inside s1 cur) by exact Hi.
    now rewrite (bind_ok _ _ _ _ _ (write_content_in s1 cur 0 bytes Hi1 (Z.le_refl 0) Hb)).
  - apply store_ok_upd; [easy|set_solver|]. apply (wf_splice 0); [easy..|]. apply wf_at, Hs1.
  - apply (leaves_trans _ _ s1); now apply leaves_upd.
  - unfold s1. now rewrite !block_at_upd.
  - rewrite block_at_upd. unfold block_data. cbn [used content with_content]. unfold s1.
    rewrite block_at_upd. cbn [used with_used content]. rewrite wrapu_small by lia.
    pose proof (slice_splice 0 bytes (content (block_at s cur))) as Hsl. unfold slice in Hsl. cbn in Hsl.
    unfold s1 in Hb. rewrite block_at_upd in Hb. cbn in Hb.
    replace (Z.to_nat n) with (length bytes) by lia. apply Hsl. lia.
Qed.

(** How many blocks are wanted for [n] octets, besides the first. *)
Definition more_blocks (n : Z) : Z := (n - 1) / avail.

Lemma more_blocks_step n : more_blocks (n - avail) = more_blocks n - 1.
Proof.
  pose proof avail_range. unfold more_blocks. replace (n - 1) with (n - avail - 1 + 1 * avail) by lia.
  rewrite Z.div_add by lia. lia.
Qed.

Lemma more_blocks_range n : 0 < n -> 0 <= more_blocks n.
Proof. intros Hn. pose proof avail_range. apply Z.div_pos; lia. Qed.

(** The chain of the block where the data starts: what has been written, up to
    [last], and what is behind. *)
Definition written (buf : list Z) (off : Z) (cur : Z) (L : list Z) (s s' : Store) (last : Z) : Prop :=
  exists F' ws rest',
    store_ok s' F' (ws ++ last :: rest' ++ L) /\ chain s' cur (ws ++ last :: rest') /\
    chain_data s' (ws ++ [last]) = drop (Z.to_nat off) buf /\
    leaves (others L) s s' /\
    nblocks (file s') <= nblocks (file s) + 11 * more_blocks (Z.of_nat (length buf) - off).

Lemma write_end fuel cur off buf s : Z.of_nat (length buf) <= off ->
  write_loop fuel cur off buf s = (s, Ret cur).
Proof. intros Ho. destruct fuel; cbn [write_loop]; now destruct (Z.ltb_spec off (Z.of_nat (length buf))); [lia|]. Qed.

Lemma drop_slice off n (buf : list Z) : slice off n buf ++ drop (off + n) buf = drop off buf.
Proof. unfold slice. rewrite <- drop_drop. apply take_drop. Qed.

Lemma leaves_others (P : Z -> Prop) L s s' : (forall x, others L x -> P x) -> leaves P s s' -> leaves (others L) s s'.
Proof. apply leaves_weaken. Qed.

(** One turn: what is written to the block, and how far. *)
Lemma turn_size off (buf : list Z) : 0 <= off < Z.of_nat (length buf) -> Z.of_nat (length buf) < 2 ^ 32 ->
  exists n, (if Z.of_nat (length buf) - off <? u32 block_data_size
             then u32 (Z.of_nat (length buf) - off) else u32 block_data_size) = n /\
    0 < n <= avail /\ off + n <= Z.of_nat (length buf) /\ u32 (off + n) = off + n /\
    (off + n < Z.of_nat (length buf) -> n = avail).
Proof.
  intros Ho Hb. pose proof avail_range. rewrite block_data_size_eq, (wrapu_small 32 avail) by lia.
  destruct (Z.ltb_spec (Z.of_nat (length buf) - off) avail); eexists; (split; [reflexivity|]).
  - rewrite (wrapu_small 32 (Z.of_nat (length buf) - off)) by lia. rewrite wrapu_small by lia. lia.
  - rewrite wrapu_small by lia. lia.
Qed.

(** The turn ends in the next block of the chain, a new one if there is none. *)
Lemma turn_next s F cur rest L : store_ok s F (cur :: rest ++ L) ->
  chain s (next_index (block_at s cur)) rest -> nblocks (file s) + 11 <= capacity ->
  exists s' F' c rest', (forall (k : Z -> M Z),
      (ind ← get_next_index cur;
       if ind =? 0 then
         new_block ← allocate;
         set_next_index cur new_block;;
         write_cur ← next cur;
         match write_cur with
         | None => undef
         | Some write_cur => set_next_index write_cur 0;; k write_cur
         end
       else
         write_cur ← next cur;
         match write_cur with
         | None => undef
         | Some write_cur => k write_cur
         end) s = k c s') /\
    store_ok s' F' (c :: rest' ++ cur :: L) /\ next_index (block_at s' cur) = c /\ 0 < c < nblocks (file s') /\
    chain s' (next_index (block_at s' c)) rest' /\ block_data (block_at s' cur) = block_data (block_at s cur) /\
    leaves (others L) s s' /\ nblocks (file s') <= nblocks (file s) + 11.
Proof.
  intros Hs Hc Hcap. pose proof (ok_pre _ _ _ Hs) as Hp. pose proof (ok_wf _ _ _ Hp) as Hw.
  assert (Hr : 3 <= cur < nblocks (file s)) by (apply (ok_range _ _ _ Hp); set_solver).
  assert (Hi : inside s cur) by (unfold inside; lia).
  destruct rest as [|r rest]; cbn in Hc.
  - destruct (allocate_ok s F (cur :: L) Hs Hcap) as (s1 & b & F1 & Hal & _ & Hs1 & Hb0 & Hl1 & Hn1).
    pose proof (ok_pre _ _ _ Hs1) as Hp1. pose proof (ok_wf _ _ _ Hp1) as Hw1.
    assert (Hkeep : forall x, others (cur :: L) x -> block_at s1 x = block_at s x).
    { intros x Hx. apply (lv_blocks _ _ _ Hl1). now apply (others_apart s F (cur :: L) (cur :: L)). }
    pose proof (lv_count _ _ _ Hl1) as Hn1'.
    assert (Hi1 : inside s1 cur) by (unfold inside; lia).
    assert (Hbr : 3 <= b < nblocks (file s1)) by (apply (ok_range _ _ _ Hp1); set_solver).
    assert (Hbi : inside s1 b) by (unfold inside; lia).
    assert (Hbc : b <> cur).
    { pose proof (ok_nodup _ _ _ Hp1) as Hd. apply NoDup_app in Hd as (_ & _ & Hd).
      apply NoDup_cons in Hd as [Hd _]. intros ->. apply Hd. set_solver. }
    assert (Hb32 : 0 <= b < 2 ^ 32) by (pose proof capacity_range; destruct Hw1 as [? _]; lia).
    set (s2 := upd cur (with_next b) s1). set (s3 := upd b (with_next 0) s2).
    assert (Hs2 : store_ok s2 F1 (b :: cur :: L)).
    { apply store_ok_upd; [easy|set_solver|]. now apply wf_with_next, wf_at. }
    assert (Hs3 : store_ok s3 F1 (b :: cur :: L)).
    { apply store_ok_upd; [easy|set_solver|]. apply wf_with_next, wf_at, Hs2. }
    assert (Hx2 : next_index (block_at s2 cur) = b).
    { unfold s2. rewrite block_at_upd. cbn. now apply wrapu_small. }
    exists s3, F1, b, []. split; [|split; [exact Hs3|split; [|split; [cbn; lia|]]]].
    + intros k. rewrite (bind_ok _ _ _ _ _ (get_next_index_in s cur Hi)), Hc. cbn [Z.eqb].
      rewrite (bind_ok _ _ _ _ _ Hal), (bind_ok _ _ _ _ _ (set_next_index_in s1 cur b Hi1)).
      rewrite (bind_ok _ _ _ _ _ (next_in s2 cur b (ok_wf _ _ _ (ok_pre _ _ _ Hs2)) Hi1 Hx2 ltac:(cbn; lia))).
      now rewrite (bind_ok _ _ _ s3 tt (set_next_index_in s2 b 0 Hbi)).
    + unfold s3. now rewrite block_at_upd_ne.
    + unfold s3 at 1 2. rewrite block_at_upd. split; [easy|].
      unfold s3, s2. rewrite block_at_upd_ne, block_at_upd by easy. split; [|split; [|cbn; lia]].
      * unfold block_data. cbn. now rewrite Hkeep by (left; set_solver).
      * apply (leaves_trans _ _ s1); [|apply (leaves_trans _ _ s2); apply leaves_upd].
        -- eapply leaves_weaken; [|exact Hl1]. intros x Hx. apply (others_apart s F L (cur :: L)); [easy| |easy].
           set_solver.
        -- now apply (others_not s F L (cur :: L)).
        -- intros Hx. apply (others_not s3 F1 (cur :: L) (b :: cur :: L) b); [easy..|].
           destruct Hx as [Hx|Hx]; [left; set_solver|now right].
  - destruct Hc as (Hx & Hrr & Hc). exists s, F, r, rest. split; [|split; [|repeat split; auto; try lia]].
    + intros k. rewrite (bind_ok _ _ _ _ _ (get_next_index_in s cur Hi)), Hx.
      destruct (Z.eqb_spec r 0); [lia|]. now rewrite (bind_ok _ _ _ _ _ (next_in s cur r Hw Hi Hx Hrr)).
    + eapply store_ok_perm; [|exact Hs]. cbn. rewrite <- Permutation_middle. constructor.
Qed.

(** What is left to do after the data of a turn has been stored. *)
Definition write_rest_of_turn (fuel : nat) (cur off : Z) (buf : list Z) : M Z :=
  if off <? Z.of_nat (length buf) then
    ind ← get_next_index cur;
    if ind =? 0 then
      new_block ← allocate;
      set_next_index cur new_block;;
      write_cur ← next cur;
      match write_cur with
      | None => undef
      | Some write_cur => set_next_index write_cur 0;; write_loop fuel write_cur off buf
      end
    else
      write_cur ← next cur;
      match write_cur with
      | None => undef
      | Some write_cur => write_loop fuel write_cur off buf
      end
  else write_loop fuel cur off buf.

Lemma write_turn buf fuel s F cur rest L off : Z.of_nat (length buf) < 2 ^ 32 ->
  store_ok s F (cur :: rest ++ L) -> chain s (next_index (block_at s cur)) rest ->
  0 <= off < Z.of_nat (length buf) ->
  exists s' n, write_loop (S fuel) cur off buf s = write_rest_of_turn fuel cur (off + n) buf s' /\
    0 < n <= avail /\ off + n <= Z.of_nat (length buf) /\ (off + n < Z.of_nat (length buf) -> n = avail) /\
    store_ok s' F (cur :: rest ++ L) /\ chain s' (next_index (block_at s' cur)) rest /\
    leaves (others L) s s' /\ nblocks (file s') = nblocks (file s) /\
    block_data (block_at s' cur) = slice (Z.to_nat off) (Z.to_nat n) buf.
Proof.
  intros Hbuf Hs Hc Ho. destruct (turn_size off buf Ho Hbuf) as (n & Hsize & Hn & Hend & Hoff & Hmore).
  set (bytes := slice (Z.to_nat off) (Z.to_nat n) buf).
  assert (Hlen : n = Z.of_nat (length bytes))
    by (unfold bytes, slice; rewrite length_take, length_drop; lia).
  destruct (store_data s F cur (rest ++ L) n bytes Hs Hlen ltac:(lia))
    as (s1 & Hrun & Hs1 & Hl1 & Hn1 & Hx1 & Hd1).
  exists s1, n. split; [|split; [easy|split; [easy|split; [easy|split; [easy|split; [|split; [|now split]]]]]]].
  - cbn [write_loop]. destruct (Z.ltb_spec off (Z.of_nat (length buf))); [|lia].
    rewrite Hsize, Hoff. fold bytes. rewrite Hrun. unfold write_rest_of_turn.
    now destruct (off + n <? Z.of_nat (length buf)).
  - apply (chain_frame s); [lia| |congruence]. intros x Hx. apply (lv_blocks _ _ _ Hl1). intros ->.
    apply use_nodup, NoDup_cons in Hs as [Hs _]. apply Hs. set_solver.
  - eapply leaves_weaken; [|exact Hl1]. intros x Hx ->.
    apply (others_not s F (rest ++ L) (cur :: rest ++ L) cur Hs); [easy|]. unfold others in *. set_solver.
Qed.

Lemma write_loop_ok buf : Z.of_nat (length buf) < 2 ^ 32 -> forall fuel s F cur rest L off,
  store_ok s F (cur :: rest ++ L) -> chain s (next_index (block_at s cur)) rest ->
  0 <= off < Z.of_nat (length buf) -> Z.of_nat (length buf) - off <= Z.of_nat fuel ->
  nblocks (file s) + 11 * more_blocks (Z.of_nat (length buf) - off) <= capacity ->
  exists s' last, write_loop fuel cur off buf s = (s', Ret last) /\ written buf off cur L s s' last.
Proof.
  intros Hbuf. induction fuel as [|fuel IH]; intros s F cur rest L off Hs Hc Ho Hf Hcap; [lia|].
  destruct (write_turn buf fuel s F cur rest L off Hbuf Hs Hc Ho)
    as (s1 & n & Hstep & Hn & Hend & Hmore & Hs1 & Hc1 & Hl1 & Hn1 & Hd1).
  assert (Hrange : 3 <= cur < nblocks (file s1)) by (apply (ok_range _ _ _ (ok_pre _ _ _ Hs1)); set_solver).
  rewrite Hstep. unfold write_rest_of_turn. destruct (Z.ltb_spec (off + n) (Z.of_nat (length buf))) as [Hlt|Hge].
  - specialize (Hmore Hlt). subst n. pose proof (more_blocks_step (Z.of_nat (length buf) - off)) as Hm.
    assert (Hm0 : 0 <= more_blocks (Z.of_nat (length buf) - off - avail)) by (apply more_blocks_range; lia).
    replace (Z.of_nat (length buf) - off - avail) with (Z.of_nat (length buf) - (off + avail)) in Hm, Hm0 by lia.
    assert (Hroom : nblocks (file s1) + 11 <= capacity) by lia.
    destruct (turn_next s1 F cur rest L Hs1 Hc1 Hroom)
      as (s2 & F2 & c & rest2 & Hnext & Hs2 & Hx2 & Hcr & Hc2 & Hd2 & Hl2 & Hn2). rewrite Hnext.
    destruct (IH s2 F2 c rest2 (cur :: L) (off + avail)) as (s3 & last & Hrec & F3 & ws & rest3 & Hs3 & Hc3 & Hd3 & Hl3 & Hn3);
      try easy; try lia.
    assert (Hcur : block_at s3 cur = block_at s2 cur) by (apply (lv_blocks _ _ _ Hl3); left; set_solver).
    exists s3, last. split; [exact Hrec|]. exists F3, (cur :: ws), rest3.
    split; [|split; [|split; [|split; [|lia]]]].
    + eapply store_ok_perm; [|exact Hs3].
      replace (ws ++ last :: rest3 ++ cur :: L) with ((ws ++ last :: rest3) ++ cur :: L) by now rewrite <- app_assoc.
      rewrite <- Permutation_middle. now rewrite <- app_assoc.
    + cbn [app chain]. split; [easy|]. pose proof (lv_count _ _ _ Hl2). pose proof (lv_count _ _ _ Hl3).
      split; [lia|]. rewrite Hcur, Hx2. exact Hc3.
    + cbn [app]. rewrite chain_data_cons, Hcur, Hd2, Hd1, Hd3.
      replace (Z.to_nat (off + avail)) with (Z.to_nat off + Z.to_nat avail)%nat by lia. apply drop_slice.
    + apply (leaves_trans _ _ s1); [easy|]. apply (leaves_trans _ _ s2); [easy|].
      eapply leaves_weaken; [|exact Hl3]. intros x [Hx|Hx]; [left; set_solver|now right].
  - rewrite write_end by lia. exists s1, cur. split; [easy|]. exists F, [], rest. cbn [app].
    split; [easy|]. split; [cbn; split; [easy|]; split; [lia|easy]|split; [|split; [easy|]]].
    + cbn [app]. rewrite chain_data_cons, Hd1. cbn. rewrite app_nil_r.
      rewrite <- (drop_slice (Z.to_nat off) (Z.to_nat n)). rewrite (drop_ge buf) by lia. now rewrite app_nil_r.
    + pose proof (more_blocks_range (Z.of_nat (length buf) - off)). lia.
Qed.

Lemma next_chain s i l : wf_store s -> inside s i -> chain s (next_index (block_at s i)) l ->
  next i s = (s, Ret (ptr (next_index (block_at s i)))).
Proof.
  intros Hw Hi Hc. rewrite (ptr_chain _ _ _ Hc). destruct l as [|x l]; cbn in Hc; [now apply next_none|].
  destruct Hc as (Hx & Hr & _). now apply next_in.
Qed.

Lemma store_ok_writers s F L W : store_ok s F L -> store_ok (with_writers W s) F L.
Proof.
  intros [[] ?]. split; [|easy]. split; try easy. now apply (chain_frame s).
Qed.

(** The blocks behind the end are freed. *)
Lemma dealloc_loop_ok rest : forall fuel s F b L, store_ok s F (rest ++ L) -> chain s b rest ->
  (length rest <= fuel)%nat ->
  exists s' F', dealloc_loop fuel (ptr b) s = (s', Ret tt) /\ store_ok s' F' L /\
    leaves (others L) s s' /\ nblocks (file s') = nblocks (file s).
Proof.
  induction rest as [|r rest IH]; intros fuel s F b L Hs Hc Hf; rewrite (ptr_chain _ _ _ Hc).
  - exists s, F. now destruct fuel.
  - destruct fuel as [|fuel]; [cbn in Hf; lia|]. cbn in Hc. destruct Hc as (-> & Hr & Hc).
    assert (Hw : wf_store s) by apply Hs.
    assert (Hi : inside s r) by (unfold inside; lia).
    destruct (deallocate_ok s r F (rest ++ L) Hs) as (s1 & Hd & Hs1 & Hl1 & Hn1).
    pose proof (next_chain s r rest Hw Hi Hc) as Hnext.
    assert (Hfix : forall x, x ∈ rest \/ others L x -> block_at s1 x = block_at s x).
    { intros x Hx. apply (lv_blocks _ _ _ Hl1). split.
      - apply (others_apart s F (rest ++ L) (r :: rest ++ L)); [easy|set_solver|]. unfold others in *. set_solver.
      - intros ->. apply (others_not s F (rest ++ L) _ r Hs); [easy|]. unfold others in *. set_solver. }
    destruct (IH fuel s1 (r :: F) (next_index (block_at s r)) L Hs1) as (s2 & F2 & Hrec & Hs2 & Hl2 & Hn2).
    { apply (chain_frame s); [lia| |easy]. intros x Hx. apply Hfix. now left. }
    { cbn in Hf. lia. }
    exists s2, F2. split; [|split; [easy|split; [|lia]]].
    + cbn [head dealloc_loop]. rewrite (bind_ok _ _ _ _ _ Hnext), (bind_ok _ _ _ _ _ Hd). exact Hrec.
    + apply (leaves_trans _ _ s1); [|easy]. destruct Hl1. split; auto.
Qed.

(** What [write_i_] does when the data is written: the chain ends there. *)
Lemma write_rest s F cur ws last rest L w size buf :
  store_ok s F (ws ++ last :: rest ++ L) -> chain s cur (ws ++ last :: rest) ->
  chain_data s (ws ++ [last]) = buf -> writers s !! w = Some (mkWriter cur size) ->
  exists s' F', (dealloc_cur ← next last;
      set_next_index last 0;;
      set_data_size w (Z.of_nat (length buf));;
      count ← member (fun s => Z.to_nat (nblocks (file s)));
      dealloc_loop count dealloc_cur) s = (s', Ret tt) /\
    store_ok s' F' ((ws ++ [last]) ++ L) /\ chain s' cur (ws ++ [last]) /\
    chain_data s' (ws ++ [last]) = buf /\
    leaves (others L) (with_writers (<[w := mkWriter cur (Z.of_nat (length buf))]> (writers s)) s) s' /\
    nblocks (file s') = nblocks (file s).
Proof.
  intros Hs Hc Hd Hp. assert (Hw : wf_store s) by apply Hs.
  destruct (chain_app _ _ _ _ _ Hc) as [Hlast Hcr].
  assert (Hi : inside s last) by (unfold inside; lia).
  set (s2 := upd last (with_next 0) s).
  set (s3 := with_writers (<[w := mkWriter cur (Z.of_nat (length buf))]> (writers s)) s2).
  assert (Hs2 : store_ok s2 F (ws ++ last :: rest ++ L))
    by (apply store_ok_upd; [easy|set_solver|now apply wf_with_next, wf_at]).
  pose proof (use_nodup _ _ _ Hs) as Hnd.
  assert (Hlw : forall x, x ∈ ws \/ x ∈ rest -> x <> last).
  { intros x Hx ->. apply NoDup_app in Hnd as (_ & H1 & H2). apply NoDup_cons in H2 as [H2 _].
    destruct Hx as [Hx|Hx]; [|set_solver]. apply (H1 last); set_solver. }
  assert (Hs3 : store_ok s3 F (rest ++ (ws ++ [last]) ++ L)).
  { apply store_ok_writers. eapply store_ok_perm; [|exact Hs2].
    replace (ws ++ last :: rest ++ L) with ((ws ++ [last]) ++ rest ++ L) by now rewrite <- app_assoc.
    rewrite (app_assoc (ws ++ [last])), (app_assoc rest). apply Permutation_app_tail, Permutation_app_comm. }
  assert (Hc3 : chain s3 (next_index (block_at s last)) rest).
  { apply (chain_frame s); [easy| |easy]. intros x Hx. apply (block_at_upd_ne last x).
    intros <-. now apply (Hlw last); [right|]. }
  assert (Hlen : (length rest <= Z.to_nat (nblocks (file s3)))%nat).
  { apply nodup_count; [now apply use_nodup, NoDup_app in Hs3|]. intros x Hx.
    pose proof (ok_range _ _ _ (ok_pre _ _ _ Hs3) x) as Hr. specialize (Hr ltac:(set_solver)). lia. }
  destruct (dealloc_loop_ok rest (Z.to_nat (nblocks (file s3))) s3 F _ ((ws ++ [last]) ++ L) Hs3 Hc3 Hlen)
    as (s4 & F4 & Hrun & Hs4 & Hl4 & Hn4).
  assert (Hb4 : forall x, x ∈ ws ++ [last] -> block_at s4 x = block_at s2 x)
    by (intros x Hx; apply (lv_blocks _ _ _ Hl4); left; set_solver).
  exists s4, F4. split; [|split; [easy|split; [|split; [|split; [|easy]]]]].
  - rewrite (bind_ok _ _ _ _ _ (next_chain s last rest Hw Hi Hcr)).
    rewrite (bind_ok _ _ _ s2 tt (set_next_index_in s last 0 Hi)).
    rewrite (bind_ok _ _ s2 s3 tt).
    + rewrite (bind_ok _ _ s3 s3 _ eq_refl). exact Hrun.
    + unfold set_data_size. rewrite (bind_ok _ _ s2 s2 (mkWriter cur size)); [reflexivity|].
      unfold writer. cbn. now rewrite Hp.
  - apply (chain_frame s2); [rewrite Hn4; apply Z.le_refl|exact Hb4|]. apply (chain_continue s s2 _ _ _ rest []); try easy.
    + intros y Hy. apply block_at_upd_ne. intros <-. now apply (Hlw last); [left|].
    + cbn. unfold s2. now rewrite block_at_upd.
  - rewrite (chain_data_frame s2 s4) by exact Hb4. rewrite <- Hd, !chain_data_app. f_equal.
    + apply chain_data_frame. intros x Hx. apply block_at_upd_ne. intros <-. now apply (Hlw last); [left|].
    + cbn. unfold s2. now rewrite block_at_upd.
  - split; try apply Hl4. intros x Hx.
    rewrite (lv_blocks _ _ _ Hl4) by (unfold others in *; set_solver).
    change (block_at s2 x = block_at s x). apply block_at_upd_ne. intros <-.
    apply (others_not s F (ws ++ rest ++ L) _ last Hs); [symmetry; apply Permutation_middle|].
    unfold others in *. set_solver.
Qed.

(** The data of a writer is replaced. *)
Lemma write_ok s F w first size l L buf : store_ok s F (l ++ L) ->
  writers s !! w = Some (mkWriter first size) -> chain s first l -> l <> [] ->
  Z.of_nat (length buf) < 2 ^ 32 ->
  nblocks (file s) + 11 * Z.max 0 (more_blocks (Z.of_nat (length buf))) <= capacity ->
  exists s' F' l', write_i_ w buf s = (s', Ret tt) /\ store_ok s' F' (l' ++ L) /\ chain s' first l' /\
    l' <> [] /\ chain_data s' l' = buf /\
    leaves (others L) (with_writers (<[w := mkWriter first (Z.of_nat (length buf))]> (writers s)) s) s' /\
    nblocks (file s') <= nblocks (file s) + 11 * Z.max 0 (more_blocks (Z.of_nat (length buf))).
Proof.
  intros Hs Hp Hc Hne Hbuf Hcap. destruct l as [|cur rest]; [easy|]. cbn in Hc. destruct Hc as (-> & Hcur & Hc).
  assert (Hw : wf_store s) by apply Hs.
  assert (Hi : inside s cur) by (unfold inside; lia).
  assert (Hwr : exists s1 last, (if (0 <? length buf)%nat then write_loop (length buf) cur 0 buf
       else set_size cur 0;; mret cur) s = (s1, Ret last) /\
    exists F1 ws rest1, store_ok s1 F1 (ws ++ last :: rest1 ++ L) /\ chain s1 cur (ws ++ last :: rest1) /\
      chain_data s1 (ws ++ [last]) = buf /\ leaves (others L) s s1 /\
      nblocks (file s1) <= nblocks (file s) + 11 * Z.max 0 (more_blocks (Z.of_nat (length buf)))).
  { destruct (Nat.ltb_spec 0 (length buf)) as [Hpos|Hz].
    - destruct (write_loop_ok buf Hbuf (length buf) s F cur rest L 0)
        as (s1 & last & H1 & F1 & ws & rest1 & H2); try easy; try lia.
      { rewrite Z.sub_0_r. lia. }
      exists s1, last. split; [exact H1|]. exists F1, ws, rest1. rewrite Z.sub_0_r in H2. cbn in H2.
      rewrite drop_0 in H2. intuition lia.
    - assert (Hb0 : buf = []) by (destruct buf; [easy|cbn in Hz; lia]). subst buf.
      exists (upd cur (with_used 0) s), cur.
      split; [now rewrite (bind_ok _ _ _ _ _ (set_size_in s cur 0 Hi))|].
      assert (Hcr : cur ∉ rest) by (apply use_nodup, NoDup_cons in Hs as [Hs _]; set_solver).
      exists F, [], rest. split; [|split; [|split; [|split]]].
      + apply store_ok_upd; [easy|set_solver|]. apply wf_with_used; [pose proof avail_range; lia|now apply wf_at].
      + cbn. split; [easy|]. split; [easy|]. rewrite block_at_upd. apply (chain_frame s); [easy| |easy].
        intros x Hx. apply block_at_upd_ne. now intros ->.
      + cbn. rewrite block_at_upd. reflexivity.
      + apply leaves_upd. apply (others_not s F (rest ++ L) _ cur) in Hs; [|easy]. intros Hx. apply Hs.
        unfold others in *. set_solver.
      + cbn. lia. }
  destruct Hwr as (s1 & last & Hrun1 & F1 & ws & rest1 & Hs1 & Hc1 & Hd1 & Hl1 & Hn1).
  destruct (write_rest s1 F1 cur ws last rest1 L w size buf) as (s4 & F4 & Hrun & Hs4 & Hc4 & Hd4 & Hl4 & Hn4); try easy.
  { now rewrite (lv_writers _ _ _ Hl1). }
  exists s4, F4, (ws ++ [last]). split; [|split; [easy|split; [easy|split; [now destruct ws|split; [easy|split; [|lia]]]]]].
  - unfold write_i_. rewrite (bind_ok _ _ s s (mkWriter cur size)) by (unfold writer; now rewrite Hp).
    cbn [FIRST_BLOCK_INDEX]. apply try_ok. rewrite (bind_ok _ _ _ _ _ (get_block_in s cur Hw Hi)).
    rewrite (bind_ok _ _ _ _ _ Hrun1). exact Hrun.
  - destruct Hl1 as [H1 H2 H3 H4 H5 H6], Hl4 as [H1' H2' H3' H4' H5' H6'].
    cbn in H1', H3', H4', H5', H6'. split; cbn; try congruence; try lia. intros x Hx. rewrite H2' by easy. now apply H2.
Qed.
End Data.
