(* ===== verification/KeyIndex.v ===== *)
(** * KeyIndex: the keys in the file,
    src/src/PlainStorage/DefaultSyncIndexStrategy.tpp

    The keys are records one after another in a chain of blocks: a header of
    three 32-bit fields (the size of the record, the first data block, a mark)
    and the octets of the key. *)

From Stdlib Require Import ZArith List Bool Lia.
From stdpp Require Import base list gmap fin_maps.
From S2P Require Import Prelude BlockFile BlockStore.
Open Scope Z_scope.

(** The accessor of the keys, a template argument: what it saves, whose length
    is its [size], and what it loads. *)
Class KeyAccessor (Key : Type) : Type := {
  key_save : Key -> list Z;
  key_load : list Z -> Key;
  key_less : Key -> Key -> bool }.

Class KeyAccessorOk (Key : Type) `{KeyAccessor Key} : Prop := {
  key_load_save k : key_load (key_save k) = k;
  key_less_irrefl k : key_less k k = false;
  key_less_total k k' : key_less k k' = false -> key_less k' k = false -> k = k' }.

Record KeyAddition : Type := mkAddition { block_index : Z; block_offset : Z }.

Definition KEY_HEADER_SIZE : Z := 12.
Definition MARK_VALID : Z := 0.
Definition MARK_DELETED : Z := 1.

(** The fields of a [KeyHeader], by their offsets. *)
Definition KH_KEYSIZE : Z := 0.
Definition KH_DATABLOCK : Z := 4.
Definition KH_MARK : Z := 8.
Definition KH_KEY : Z := 12.

Section Strategy.
Context `{Disk} {Key : Type} `{KeyAccessor Key}.

Definition strategy_sync_ : M unit :=
  descr ← member descr_block;
  first ← member first_keys_block;
  set_field descr 0 first.

(** The constructor. *)
Definition new_strategy (descr_block_index : Z) : M unit :=
  try_as StrategyException (
    descr ← get_block descr_block_index;
    modify (fun s => mkStore (file s) (allocator_description s) (first_free_block s) descr (first_keys_block s) (writers s));;
    first_keys_block_index ← get_field descr 0;
    if first_keys_block_index =? 0 then
      first_keys_block_index ← allocate;
      keys ← get_block first_keys_block_index;
      modify (with_keys keys);;
      strategy_sync_
    else
      keys ← get_block first_keys_block_index;
      modify (with_keys keys)).

(** [save_]: [write_block] is a reference to [first_keys_block_]; the result
    tells that a new block of keys was put before the others. *)
Definition save_ (key : Key) (first_data_block : Z) : M (bool * KeyAddition) :=
  write_block ← member first_keys_block;
  used_size ← get_size write_block;
  let SIZE_OF_KEY := Z.of_nat (length (key_save key)) in
  old_first_keys_block_index ← member first_keys_block;
  used_size ←
    (if u64 (block_data_size - used_size) <? u64 (SIZE_OF_KEY + KEY_HEADER_SIZE) then
       new_keys_block_index ← allocate;
       write_block ← get_block new_keys_block_index;
       modify (with_keys write_block);;
       set_next_index write_block old_first_keys_block_index;;
       if block_data_size <? u64 (SIZE_OF_KEY + KEY_HEADER_SIZE) then throw FileFormatError else mret 0
     else mret used_size);
  write_block ← member first_keys_block;
  set_size write_block (used_size + KEY_HEADER_SIZE + SIZE_OF_KEY);;
  set_field write_block (used_size + KH_KEYSIZE) (KEY_HEADER_SIZE + SIZE_OF_KEY);;
  set_field write_block (used_size + KH_DATABLOCK) first_data_block;;
  set_field write_block (used_size + KH_MARK) MARK_VALID;;
  write_content write_block (used_size + KH_KEY) (key_save key);;
  mret (negb (old_first_keys_block_index =? write_block), mkAddition write_block used_size).

Definition strategy_insert (key : Key) (first_data_block : Z) : M KeyAddition :=
  saved ← save_ key first_data_block;
  match saved with
  | (inserted, key_addition) => (if inserted : bool then strategy_sync_ else mret tt);; mret key_addition
  end.

Definition strategy_update (first_data_block : Z) (key_addition : KeyAddition) : M unit :=
  key_block ← get_block (block_index key_addition);
  set_field key_block (block_offset key_addition + KH_DATABLOCK) first_data_block.

Definition strategy_erase (key_addition : KeyAddition) : M unit :=
  key_block ← get_block (block_index key_addition);
  size ← get_size key_block;
  key_size ← get_field key_block (block_offset key_addition + KH_KEYSIZE);
  if size =? block_offset key_addition + key_size
  then set_size key_block (block_offset key_addition)
  else set_field key_block (block_offset key_addition + KH_MARK) MARK_DELETED.

(** [load]: the records of a block, then those of the next block.  [load_key] is
    the callback for a key that is not deleted; [C] is the state it works on. *)
Section Load.
Context {C : Type} (load_key : Key -> Z -> KeyAddition -> C -> M C).

Fixpoint load_block (fuel : nat) (cur offset size : Z) (c : C) : M C :=
  if offset <? size then
    match fuel with
    | O => undef
    | S fuel' =>
        key_size ← get_field cur (offset + KH_KEYSIZE);
        mark ← get_field cur (offset + KH_MARK);
        c ← (if mark =? MARK_DELETED then mret c
             else
               body ← read_content cur (offset + KH_KEY) (u64 (key_size - KEY_HEADER_SIZE));
               data ← get_field cur (offset + KH_DATABLOCK);
               load_key (key_load body) data (mkAddition cur offset) c);
        load_block fuel' cur (offset + key_size) size c
    end
  else mret c.

Fixpoint load_chain (fuel : nat) (block_cur : option Z) (c : C) : M C :=
  match block_cur with
  | None => mret c
  | Some cur =>
      match fuel with
      | O => undef
      | S fuel' =>
          size ← get_size cur;
          c ← load_block (Z.to_nat size) cur 0 size c;
          block_cur ← read_next cur;
          load_chain fuel' block_cur c
      end
  end.

Definition strategy_load (c : C) : M C :=
  first ← member first_keys_block;
  count ← member (fun s => Z.to_nat (nblocks (file s)));
  try_as LoadIndexFail (load_chain (S count) (Some first) c).
End Load.
End Strategy.

(** [DefaultReadIndexAccessor], [DefaultWriteIndexAccessor] for [std::string]:
    the octets of the string. *)
Fixpoint string_less (s t : list Z) : bool :=
  match s, t with
  | _, [] => false
  | [], _ :: _ => true
  | c :: s', d :: t' => if c <? d then true else if d <? c then false else string_less s' t'
  end.

#[global] Instance DefaultWriteIndexAccessor : KeyAccessor (list Z) := {
  key_save := id;
  key_load := id;
  key_less := string_less }.

#[global] Instance DefaultWriteIndexAccessor_ok : KeyAccessorOk (list Z).
Proof.
  split.
  - reflexivity.
  - intros k. induction k as [|c k IH]; cbn; [easy|]. now rewrite Z.ltb_irrefl.
  - intros k. induction k as [|c k IH]; intros [|d k']; cbn; try easy.
    destruct (Z.ltb_spec c d); [easy|]. destruct (Z.ltb_spec d c); [easy|].
    intros. f_equal; [lia|auto].
Qed.
