(* ===== verification/KeyRep.v ===== *)
(** * KeyRep: the records of keys in the file *)

From Stdlib Require Import ZArith List Bool Lia.
From stdpp Require Import base list gmap fin_maps.
From S2P Require Import Prelude BlockFile BlockStore BlockRep BlockData KeyIndex.
Open Scope Z_scope.

(** ** Splices of lists *)

Lemma splice_splice off a b (l : list Z) : (off + length a + length b <= length l)%nat ->
  splice (off + length a) b (splice off a l) = splice off (a ++ b) l.
Proof.
  intros Hl. unfold splice. rewrite length_app, <- !app_assoc.
  rewrite take_app_ge by (rewrite length_take; lia).
  rewrite length_take, Nat.min_l by lia.
  replace (off + length a - off)%nat with (length a) by lia.
  rewrite take_app_length, <- app_assoc. do 2 f_equal. f_equal.
  rewrite drop_app_ge by (rewrite length_take; lia). rewrite length_take, Nat.min_l by lia.
  rewrite drop_app_ge by lia. rewrite drop_drop. f_equal. lia.
Qed.

Lemma take_splice off a (l : list Z) : (off + length a <= length l)%nat ->
  take (off + length a) (splice off a l) = take off l ++ a.
Proof.
  intros Hl. unfold splice. rewrite take_app_ge by (rewrite length_take; lia).
  rewrite length_take, Nat.min_l by lia. replace (off + length a - off)%nat with (length a) by lia.
  now rewrite take_app_length.
Qed.

(** What is changed inside a prefix. *)
Lemma take_splice_inside n off a (l : list Z) : (off + length a <= n)%nat -> (n <= length l)%nat ->
  take n (splice off a l) = splice off a (take n l).
Proof.
  intros Hn Hl. unfold splice. rewrite take_app_ge by (rewrite length_take; lia).
  rewrite length_take, Nat.min_l by lia. rewrite take_app_ge by lia.
  rewrite take_take, Nat.min_l by lia. do 2 f_equal.
  rewrite skipn_firstn_comm. f_equal. lia.
Qed.

Lemma splice_middle a b b' (c : list Z) : length b = length b' ->
  splice (length a) b' (a ++ b ++ c) = a ++ b' ++ c.
Proof.
  intros Hl. unfold splice. rewrite take_app_length. do 2 f_equal.
  rewrite drop_app_ge by lia. replace (length a + length b' - length a)%nat with (length b) by lia.
  apply drop_app_length.
Qed.

Lemma slice_prefix n o k (l : list Z) : (o + k <= n)%nat -> slice o k l = slice o k (take n l).
Proof.
  intros Hn. unfold slice. rewrite skipn_firstn_comm, take_take. f_equal. lia.
Qed.

Lemma slice_middle a b (c : list Z) : slice (length a) (length b) (a ++ b ++ c) = b.
Proof. unfold slice. rewrite drop_app_length. apply take_app_length. Qed.

(** A key that is not deleted: its octets, its first data block and its place. *)
Abbreviation Loc := (list Z * Z * KeyAddition)%type.

Section KeyRep.
Context `{Disk} {Hdisk : DiskOk} {Key : Type} `{KeyAccessorOk Key}.

(** ** Records *)

Record Entry : Type := mkEntry { e_body : list Z; e_data : Z; e_deleted : bool }.

Definition esize (e : Entry) : Z := 12 + Z.of_nat (length (e_body e)).

Definition mark_of (d : bool) : Z := if d then MARK_DELETED else MARK_VALID.

Definition enc (e : Entry) : list Z :=
  le32 (esize e) ++ le32 (e_data e) ++ le32 (mark_of (e_deleted e)) ++ e_body e.

Definition enc_all (es : list Entry) : list Z := es ≫= enc.

Definition wf_entry (e : Entry) : Prop := esize e <= avail /\ 0 <= e_data e < 2 ^ 32.

Lemma length_enc e : Z.of_nat (length (enc e)) = esize e.
Proof. unfold enc, esize. rewrite !length_app. cbn [length le32]. lia. Qed.

Definition esizes (es : list Entry) : Z := Z.of_nat (length (enc_all es)).

Lemma enc_all_app es es' : enc_all (es ++ es') = enc_all es ++ enc_all es'.
Proof. apply bind_app. Qed.

Lemma esizes_cons e es : esizes (e :: es) = esize e + esizes es.
Proof.
  unfold esizes. change (enc_all (e :: es)) with (enc e ++ enc_all es).
  rewrite length_app, Nat2Z.inj_add, length_enc. reflexivity.
Qed.

Lemma esizes_nil : esizes [] = 0.
Proof. reflexivity. Qed.

Lemma esizes_app es es' : esizes (es ++ es') = esizes es + esizes es'.
Proof. unfold esizes. rewrite enc_all_app, length_app. lia. Qed.

Lemma esizes_nonneg es : 0 <= esizes es.
Proof. unfold esizes. lia. Qed.

(** The places of the keys that are not deleted. *)
Fixpoint place (b off : Z) (es : list Entry) : list Loc :=
  match es with
  | [] => []
  | e :: es' =>
      (if e_deleted e then [] else [(e_body e, e_data e, mkAddition b off)]) ++ place b (off + esize e) es'
  end.

Lemma place_app b off es es' : place b off (es ++ es') = place b off es ++ place b (off + esizes es) es'.
Proof.
  revert off. induction es as [|e es IH]; intros off; cbn [place app].
  - unfold esizes. cbn. now rewrite Z.add_0_r.
  - rewrite IH, esizes_cons, <- app_assoc. do 3 f_equal. lia.
Qed.

Lemma place_in b off es body data a : (body, data, a) ∈ place b off es ->
  exists es1 es2, es = es1 ++ mkEntry body data false :: es2 /\ a = mkAddition b (off + esizes es1).
Proof.
  revert off. induction es as [|e es IH]; intros off; cbn [place]; [set_solver|].
  intros Hin. apply elem_of_app in Hin as [Hin|Hin].
  - destruct e as [bd dt []]; cbn in Hin; [set_solver|]. apply list_elem_of_singleton in Hin.
    injection Hin as -> -> ->. exists [], es. split; [easy|]. unfold esizes. cbn. now rewrite Z.add_0_r.
  - destruct (IH _ Hin) as (es1 & es2 & -> & ->). exists (e :: es1), es2. split; [easy|].
    rewrite esizes_cons. f_equal. lia.
Qed.

(** The keys of the chain [K] of blocks, whose records are [E]. *)
Fixpoint live (K : list Z) (E : list (list Entry)) : list Loc :=
  match K, E with
  | x :: K', es :: E' => place x 0 es ++ live K' E'
  | _, _ => []
  end.

(** ** The invariant *)

Definition holds (s : Store) (x : Z) (es : list Entry) : Prop :=
  block_data (block_at s x) = enc_all es /\ Forall wf_entry es.

Record keys_ok (s : Store) (K : list Z) (E : list (list Entry)) : Prop := {
  ko_chain : chain s (first_keys_block s) K;
  ko_some : K <> [];
  ko_descr : descr_block s = KEYS_DESCRIPTION;
  ko_synced : field (block_at s KEYS_DESCRIPTION) 0 = first_keys_block s;
  ko_holds : Forall2 (holds s) K E }.

Lemma holds_frame s s' x es : block_at s' x = block_at s x -> holds s x es -> holds s' x es.
Proof. unfold holds. now intros ->. Qed.

Lemma holds_all_frame s s' K E : (forall x, x ∈ K -> block_at s' x = block_at s x) ->
  Forall2 (holds s) K E -> Forall2 (holds s') K E.
Proof.
  intros Hb Hh. revert Hb. induction Hh as [|x es K E Hh _ IH]; intros Hb; constructor.
  - apply (holds_frame s); [|easy]. apply Hb. set_solver.
  - apply IH. intros y Hy. apply Hb. set_solver.
Qed.

Lemma keys_ok_leaves s s' K E : leaves (fun x => x ∈ K \/ x = KEYS_DESCRIPTION) s s' ->
  keys_ok s K E -> keys_ok s' K E.
Proof.
  intros Hl []. pose proof (lv_blocks _ _ _ Hl) as Hb. split; auto.
  - rewrite (lv_keys _ _ _ Hl). apply (chain_frame s); [apply Hl| |easy]. auto.
  - now rewrite (lv_descr _ _ _ Hl).
  - rewrite (lv_keys _ _ _ Hl), Hb; auto.
  - apply (holds_all_frame s); auto.
Qed.

(** ** Reading a record *)

Lemma data_slice b A x C : block_data b = A ++ x ++ C -> slice (length A) (length x) (content b) = x.
Proof.
  intros Hb. rewrite (slice_prefix (Z.to_nat (used b))); [fold (block_data b); rewrite Hb; apply slice_middle|].
  assert (Hl : length (block_data b) = (length A + length x + length C)%nat) by (rewrite Hb, !length_app; lia).
  unfold block_data in Hl. rewrite length_take in Hl. lia.
Qed.

Lemma data_field b A v C off : block_data b = A ++ le32 v ++ C -> off = Z.of_nat (length A) ->
  0 <= v < 2 ^ 32 -> field b off = v.
Proof.
  intros Hb -> Hv. unfold field. rewrite Nat2Z.id. change 4%nat with (length (le32 v)).
  rewrite (data_slice b A (le32 v) C Hb). now apply of_le_le32.
Qed.

Section Record.
Context (b : Block) (A : list Z) (e : Entry) (C : list Z) (off : Z).
Context (Hb : block_data b = A ++ enc e ++ C) (Hoff : off = Z.of_nat (length A)) (He : wf_entry e).

Lemma record_size : field b (off + KH_KEYSIZE) = esize e.
Proof.
  destruct He as [Hs _]. pose proof avail_range. apply (data_field b A _
    (le32 (e_data e) ++ le32 (mark_of (e_deleted e)) ++ e_body e ++ C)).
  - rewrite Hb. unfold enc. now rewrite <- !app_assoc.
  - unfold KH_KEYSIZE. lia.
  - unfold esize in *. lia.
Qed.

Lemma record_data : field b (off + KH_DATABLOCK) = e_data e.
Proof.
  apply (data_field b (A ++ le32 (esize e)) _ (le32 (mark_of (e_deleted e)) ++ e_body e ++ C)).
  - rewrite Hb. unfold enc. now rewrite <- !app_assoc.
  - rewrite length_app. unfold KH_DATABLOCK. cbn. lia.
  - apply He.
Qed.

Lemma record_mark : field b (off + KH_MARK) = mark_of (e_deleted e).
Proof.
  apply (data_field b (A ++ le32 (esize e) ++ le32 (e_data e)) _ (e_body e ++ C)).
  - rewrite Hb. unfold enc. now rewrite <- !app_assoc.
  - rewrite !length_app. unfold KH_MARK. cbn. lia.
  - unfold mark_of, MARK_DELETED, MARK_VALID. destruct (e_deleted e); lia.
Qed.

Lemma record_body : slice (Z.to_nat (off + KH_KEY)) (length (e_body e)) (content b) = e_body e.
Proof.
  replace (Z.to_nat (off + KH_KEY)) with
    (length (A ++ le32 (esize e) ++ le32 (e_data e) ++ le32 (mark_of (e_deleted e))))
    by (rewrite !length_app; unfold KH_KEY; cbn; lia).
  apply (data_slice b _ _ C). rewrite Hb. unfold enc. now rewrite <- !app_assoc.
Qed.
End Record.

(** ** Writing a record *)

Lemma set_field_ok s F L x off v : store_ok s F L -> x ∈ L -> 0 <= off -> off + 4 <= avail ->
  set_field x off v s = (upd x (with_content (splice (Z.to_nat off) (le32 (u32 v)))) s, Ret tt) /\
  store_ok (upd x (with_content (splice (Z.to_nat off) (le32 (u32 v)))) s) F L.
Proof.
  intros Hs Hx Ho Hl. assert (Hw : wf_store s) by apply Hs.
  pose proof (ok_range _ _ _ (ok_pre _ _ _ Hs) x) as Hr. specialize (Hr ltac:(set_solver)).
  pose proof (content_ge s x Hw). split.
  - apply set_field_in; [unfold inside|..]; lia.
  - apply store_ok_upd; [easy..|]. apply wf_splice; [cbn; lia|easy|now apply wf_at].
Qed.

Lemma put_content (c kb : list Z) u data es : take (Z.to_nat u) c = enc_all es -> 0 <= u ->
  u + 12 + Z.of_nat (length kb) <= Z.of_nat (length c) -> 12 + Z.of_nat (length kb) < 2 ^ 32 ->
  0 <= data < 2 ^ 32 ->
  take (Z.to_nat (u + 12 + Z.of_nat (length kb)))
    (splice (Z.to_nat (u + 12)) kb (splice (Z.to_nat (u + 8)) (le32 (u32 0))
      (splice (Z.to_nat (u + 4)) (le32 (u32 data))
        (splice (Z.to_nat (u + 0)) (le32 (u32 (12 + Z.of_nat (length kb)))) c)))) =
  enc_all (es ++ [mkEntry kb data false]).
Proof.
  intros Ht Hu Hl Hn Hd. rewrite !wrapu_small by lia. set (o := Z.to_nat u).
  set (a := le32 (12 + Z.of_nat (length kb))). set (b := le32 data). set (m := le32 0).
  replace (Z.to_nat (u + 0)) with o by lia.
  replace (Z.to_nat (u + 4)) with (o + length a)%nat by (cbn; lia).
  rewrite splice_splice by (cbn; lia).
  replace (Z.to_nat (u + 8)) with (o + length (a ++ b))%nat by (cbn; lia).
  rewrite splice_splice by (cbn; lia).
  replace (Z.to_nat (u + 12)) with (o + length ((a ++ b) ++ m))%nat by (cbn; lia).
  rewrite splice_splice by (rewrite !length_app; cbn; lia).
  replace (Z.to_nat (u + 12 + Z.of_nat (length kb))) with (o + length (((a ++ b) ++ m) ++ kb))%nat
    by (rewrite !length_app; cbn; lia).
  rewrite take_splice by (rewrite !length_app; cbn; lia).
  unfold o. rewrite Ht, enc_all_app. f_equal. unfold enc_all. cbn. now rewrite app_nil_r.
Qed.

Lemma put_record s F L x u es kb data : store_ok s F L -> x ∈ L -> Forall wf_entry es ->
  take (Z.to_nat u) (content (block_at s x)) = enc_all es -> u = esizes es ->
  u + 12 + Z.of_nat (length kb) <= avail -> 0 <= data < 2 ^ 32 ->
  exists s', (forall {B} (k : M B),
    (set_size x (u + KEY_HEADER_SIZE + Z.of_nat (length kb));;
     set_field x (u + KH_KEYSIZE) (KEY_HEADER_SIZE + Z.of_nat (length kb));;
     set_field x (u + KH_DATABLOCK) data;;
     set_field x (u + KH_MARK) MARK_VALID;;
     write_content x (u + KH_KEY) kb;; k) s = k s') /\
    store_ok s' F L /\ holds s' x (es ++ [mkEntry kb data false]) /\
    leaves (fun y => y <> x) s s' /\ next_index (block_at s' x) = next_index (block_at s x) /\
    nblocks (file s') = nblocks (file s).
Proof.
  intros Hs Hx Hes Htake Hu Hfit Hdata. pose proof avail_range as Ha. pose proof (esizes_nonneg es).
  assert (Hw : wf_store s) by apply Hs.
  pose proof (ok_range _ _ _ (ok_pre _ _ _ Hs) x) as Hr. specialize (Hr ltac:(set_solver)).
  assert (Hi : inside s x) by (unfold inside; lia).
  unfold KEY_HEADER_SIZE, KH_KEYSIZE, KH_DATABLOCK, KH_MARK, KH_KEY, MARK_VALID.
  set (n := Z.of_nat (length kb)) in *.
  set (s1 := upd x (with_used (u + 12 + n)) s).
  assert (Hs1 : store_ok s1 F L) by (apply store_ok_upd; [easy..|]; apply wf_with_used; [lia|now apply wf_at]).
  destruct (set_field_ok s1 F L x (u + 0) (12 + n) Hs1 Hx ltac:(lia) ltac:(lia)) as [Hr2 Hs2].
  set (s2 := upd x _ s1) in *.
  destruct (set_field_ok s2 F L x (u + 4) data Hs2 Hx ltac:(lia) ltac:(lia)) as [Hr3 Hs3].
  set (s3 := upd x _ s2) in *.
  destruct (set_field_ok s3 F L x (u + 8) 0 Hs3 Hx ltac:(lia) ltac:(lia)) as [Hr4 Hs4].
  set (s4 := upd x _ s3) in *.
  assert (Hi4 : inside s4 x) by exact Hi.
  pose proof (content_ge s4 x (ok_wf _ _ _ (ok_pre _ _ _ Hs4))) as Hc4.
  assert (Hfit4 : u + 12 + Z.of_nat (length kb) <= Z.of_nat (length (content (block_at s4 x)))) by lia.
  assert (Hr5 : write_content x (u + 12) kb s4 = (upd x (with_content (splice (Z.to_nat (u + 12)) kb)) s4, Ret tt))
    by (apply write_content_in; [easy|lia|lia]).
  set (s5 := upd x _ s4) in *. exists s5.
  split; [|split; [|split; [|split; [|split; [|easy]]]]].
  - intros B k. rewrite (bind_ok _ _ _ s1 tt (set_size_in s x _ Hi)), (bind_ok _ _ _ _ _ Hr2), (bind_ok _ _ _ _ _ Hr3).
    rewrite (bind_ok _ _ _ _ _ Hr4), (bind_ok _ _ _ _ _ Hr5). reflexivity.
  - apply store_ok_upd; [easy..|]. apply wf_splice; [lia|lia|]. apply wf_at, Hs4.
  - split.
    + unfold block_data, s5, s4, s3, s2, s1. rewrite !block_at_upd. cbn [used content with_content with_used].
      rewrite (wrapu_small 32 (u + 12 + n)) by lia. pose proof (content_ge s x Hw).
      apply (put_content (content (block_at s x)) kb u data es); lia || easy.
    + apply Forall_app. split; [easy|]. apply Forall_singleton. split; [unfold esize; cbn; lia|easy].
  - apply (leaves_trans _ _ s1); [now apply leaves_upd|]. apply (leaves_trans _ _ s2); [now apply leaves_upd|].
    apply (leaves_trans _ _ s3); [now apply leaves_upd|]. apply (leaves_trans _ _ s4); now apply leaves_upd.
  - unfold s5, s4, s3, s2, s1. now rewrite !block_at_upd.
Qed.

(** The first block of keys is written to its description. *)
Lemma strategy_sync_ok s F L : store_ok s F L -> descr_block s = KEYS_DESCRIPTION ->
  0 <= first_keys_block s < 2 ^ 32 ->
  exists s', strategy_sync_ s = (s', Ret tt) /\ store_ok s' F L /\
    leaves (fun x => x <> KEYS_DESCRIPTION) s s' /\ nblocks (file s') = nblocks (file s) /\
    field (block_at s' KEYS_DESCRIPTION) 0 = first_keys_block s.
Proof.
  intros Hs Hd Hf. assert (Hw : wf_store s) by apply Hs. pose proof (content_ge s KEYS_DESCRIPTION Hw).
  pose proof avail_range. pose proof (ok_count _ _ _ (ok_pre _ _ _ Hs)) as Hn.
  assert (Hi : inside s KEYS_DESCRIPTION) by (unfold inside, KEYS_DESCRIPTION; lia).
  exists (upd KEYS_DESCRIPTION (with_content (splice 0 (le32 (u32 (first_keys_block s))))) s).
  split; [|split; [|split; [|split; [easy|]]]].
  - unfold strategy_sync_. rewrite (bind_ok _ _ s s _ eq_refl), (bind_ok _ _ s s _ eq_refl), Hd.
    apply (set_field_in s KEYS_DESCRIPTION 0); [easy|lia|lia].
  - apply (store_ok_leaves s); [easy| | |easy].
    + apply wf_upd; [easy..|]. apply (wf_splice 0); [cbn; lia|lia|now apply wf_at].
    + apply leaves_upd. intros [Hx|Hx]; [easy|].
      pose proof (ok_range _ _ _ (ok_pre _ _ _ Hs) KEYS_DESCRIPTION) as Hr.
      specialize (Hr ltac:(set_solver)). unfold KEYS_DESCRIPTION in Hr. lia.
  - now apply leaves_upd.
  - rewrite block_at_upd. apply (field_set 0); [lia|lia|easy].
Qed.

(** ** Inserting a key *)

(** What an operation on the keys leaves alone. *)
Record key_step (L : list Z) (s s' : Store) : Prop := {
  ks_count : nblocks (file s) <= nblocks (file s');
  ks_blocks : forall x, x ∈ L \/ x = 0 -> block_at s' x = block_at s x;
  ks_writers : writers s' = writers s }.

Lemma key_step_trans L s1 s2 s3 : key_step L s1 s2 -> key_step L s2 s3 -> key_step L s1 s3.
Proof. intros [A1 B1 C1] [A2 B2 C2]. split; [lia| |congruence]. intros x Hx. rewrite B2, B1; auto. Qed.

Lemma leaves_key_step (P : Z -> Prop) L s s' : (forall x, x ∈ L \/ x = 0 -> P x) -> leaves P s s' -> key_step L s s'.
Proof. intros HP []. split; auto. Qed.

Lemma store_ok_keys s F L b : store_ok s F L -> store_ok (with_keys b s) F L.
Proof. intros [[] ?]. split; [|easy]. split; try easy. now apply (chain_frame s). Qed.

Lemma holds_used s x es : wf_store s -> holds s x es -> used (block_at s x) = esizes es.
Proof. intros Hw [Hd _]. rewrite <- length_block_data by easy. now rewrite Hd. Qed.

Lemma in_use_range s F L x : store_ok s F L -> x ∈ L -> 3 <= x < nblocks (file s).
Proof. intros Hs Hx. apply (ok_range _ _ _ (ok_pre _ _ _ Hs)). set_solver. Qed.

Definition inserted (L K : list Z) (E : list (list Entry)) (l : Loc) (s s' : Store) (n : Z) : Prop :=
  exists F' K' E', store_ok s' F' (K' ++ L) /\ keys_ok s' K' E' /\ live K' E' ≡ₚ l :: live K E /\
    key_step L s s' /\ nblocks (file s') <= nblocks (file s) + n.

(** There is room in the first block of keys. *)
Lemma insert_fits s F K E L key data :
  store_ok s F (K ++ L) -> keys_ok s K E -> 0 <= data < 2 ^ 32 ->
  used (block_at s (first_keys_block s)) + 12 + Z.of_nat (length (key_save key)) <= avail ->
  exists s' a, strategy_insert key data s = (s', Ret a) /\ inserted L K E (key_save key, data, a) s s' 0.
Proof.
  intros Hs Hk Hdata Hfit. assert (Hw : wf_store s) by apply Hs. pose proof avail_range.
  destruct Hk as [Hc Hne Hde Hsy Hh]. destruct K as [|x K]; [easy|].
  inversion Hh as [|? es ? E0 Hx Hh0]; subst. pose proof Hc as [Hfirst [Hxr Hc0]]. rewrite Hfirst in *.
  pose proof (holds_used s x es Hw Hx) as Hu. destruct Hx as [Hbd Hwf].
  assert (Hi : inside s x) by (unfold inside; lia).
  pose proof (esizes_nonneg es). set (kb := key_save key) in *.
  destruct (put_record s F ((x :: K) ++ L) x (esizes es) es kb data Hs) as (s' & Hrun & Hs' & Hx' & Hl' & Hn' & Hc');
    try easy; [set_solver|now rewrite <- Hu|lia|].
  exists s', (mkAddition x (esizes es)). split.
  - assert (Hsave : save_ key data s = (s', Ret (false, mkAddition x (esizes es)))).
    { unfold save_. rewrite (bind_ok _ _ s s x) by (unfold member; now rewrite Hfirst).
      rewrite (bind_ok _ _ _ _ _ (get_size_in s x Hi)), Hu, block_data_size_eq. fold kb.
      rewrite (bind_ok _ _ s s x) by (unfold member; now rewrite Hfirst).
      unfold KEY_HEADER_SIZE. rewrite !wrapu_small by lia.
      destruct (Z.ltb_spec (avail - esizes es) (Z.of_nat (length kb) + 12)); [lia|].
      rewrite (bind_ok _ _ s s (esizes es) eq_refl).
      rewrite (bind_ok _ _ s s x) by (unfold member; now rewrite Hfirst).
      specialize (Hrun _ (mret (negb (x =? x), mkAddition x (esizes es)))). unfold KEY_HEADER_SIZE in Hrun.
      rewrite Hrun. now rewrite Z.eqb_refl. }
    unfold strategy_insert. now rewrite (bind_ok _ _ _ _ _ Hsave).
  - exists F, (x :: K), ((es ++ [mkEntry kb data false]) :: E0).
    assert (HxK : x ∉ K ++ L) by (apply use_nodup, NoDup_cons in Hs as [Hs _]; exact Hs).
    split; [easy|]. split; [|split; [|split; [|lia]]].
    + pose proof (lv_keys _ _ _ Hl') as Hkeys. split; try easy.
      * rewrite Hkeys, Hfirst. cbn [chain]. split; [easy|]. split; [lia|]. rewrite Hn'.
        apply (chain_frame s); [lia| |easy]. intros y Hy. apply (lv_blocks _ _ _ Hl'). set_solver.
      * now rewrite (lv_descr _ _ _ Hl').
      * rewrite Hkeys, Hfirst, (lv_blocks _ _ _ Hl'); [easy|].
        pose proof (in_use_range s F _ x Hs ltac:(set_solver)). unfold KEYS_DESCRIPTION. lia.
      * constructor; [exact Hx'|]. apply (holds_all_frame s); [|easy].
        intros y Hy. apply (lv_blocks _ _ _ Hl'). set_solver.
    + cbn [live]. rewrite place_app. cbn [place e_deleted app].
      rewrite <- app_assoc. cbn. rewrite <- Permutation_middle. now rewrite Z.add_0_l.
    + eapply leaves_key_step; [|exact Hl']. intros y [Hy|Hy] ->; [set_solver|].
      pose proof (in_use_range s F _ x Hs ltac:(set_solver)). lia.
Qed.

(** There is none: the record goes to a new block, before the others. *)
Lemma save_grows s F K E L key data :
  store_ok s F (K ++ L) -> keys_ok s K E -> 0 <= data < 2 ^ 32 -> nblocks (file s) + 11 <= capacity ->
  avail < used (block_at s (first_keys_block s)) + 12 + Z.of_nat (length (key_save key)) ->
  12 + Z.of_nat (length (key_save key)) <= avail ->
  exists s' b F', save_ key data s = (s', Ret (true, mkAddition b 0)) /\ store_ok s' F' (b :: K ++ L) /\
    holds s' b [mkEntry (key_save key) data false] /\ next_index (block_at s' b) = first_keys_block s /\
    leaves (others (K ++ L)) (with_keys b s) s' /\ nblocks (file s') <= nblocks (file s) + 11.
Proof.
  intros Hs Hk Hdata Hcap Hno Hfit. assert (Hw : wf_store s) by apply Hs. pose proof avail_range.
  destruct Hk as [Hc Hne Hde Hsy Hh]. set (old := first_keys_block s) in *. set (kb := key_save key) in *.
  assert (Hold : old ∈ K) by (destruct K as [|x K]; [easy|]; destruct Hc as [-> _]; set_solver).
  pose proof (in_use_range s F _ old Hs ltac:(set_solver)) as Hor.
  assert (Hio : inside s old) by (unfold inside; lia).
  destruct (allocate_ok s F (K ++ L) Hs Hcap) as (s1 & b & F1 & Hal & _ & Hs1 & _ & Hl1 & Hn1).
  pose proof (in_use_range s1 F1 _ b Hs1 ltac:(set_solver)) as Hbr.
  assert (Hib : inside s1 b) by (unfold inside; lia).
  set (s3 := upd b (with_next old) (with_keys b s1)).
  assert (Hs3 : store_ok s3 F1 (b :: K ++ L)).
  { apply store_ok_upd; [now apply store_ok_keys|set_solver|]. apply wf_with_next, wf_at, Hs1. }
  destruct (put_record s3 F1 (b :: K ++ L) b 0 [] kb data Hs3) as (s4 & Hrun & Hs4 & Hx4 & Hl4 & Hn4 & Hc4);
    try easy; [set_solver|].
  pose proof capacity_range. pose proof (ok_wf _ _ _ (ok_pre _ _ _ Hs1)) as [Hn1c _].
  exists s4, b, F1. split; [|split; [easy|split; [easy|split; [|split; [|rewrite Hc4; exact Hn1]]]]].
  - unfold save_. rewrite (bind_ok _ _ s s old eq_refl), (bind_ok _ _ _ _ _ (get_size_in s old Hio)), block_data_size_eq.
    fold kb. rewrite (bind_ok _ _ s s old eq_refl). destruct (wf_at s old Hw) as [_ Hu].
    unfold KEY_HEADER_SIZE. rewrite !wrapu_small by lia.
    destruct (Z.ltb_spec (avail - used (block_at s old)) (Z.of_nat (length kb) + 12)); [|lia].
    specialize (Hrun _ (mret (negb (old =? b), mkAddition b 0))). unfold KEY_HEADER_SIZE in Hrun.
    assert (Hnew : (new_keys_block_index ← allocate;
       write_block ← get_block new_keys_block_index;
       modify (with_keys write_block);;
       set_next_index write_block old;;
       if avail <? Z.of_nat (length kb) + 12 then throw FileFormatError else mret 0) s = (s3, Ret 0)).
    { rewrite (bind_ok _ _ _ _ _ Hal), (bind_ok _ _ _ _ _ (get_block_in s1 b (ok_wf _ _ _ (ok_pre _ _ _ Hs1)) Hib)).
      rewrite (bind_ok _ _ s1 (with_keys b s1) tt eq_refl).
      rewrite (bind_ok _ _ _ s3 tt (set_next_index_in (with_keys b s1) b old Hib)).
      now destruct (Z.ltb_spec avail (Z.of_nat (length kb) + 12)); [lia|]. }
    rewrite (bind_ok _ _ _ _ _ Hnew). rewrite (bind_ok _ _ s3 s3 b eq_refl), Hrun.
    destruct (Z.eqb_spec old b) as [He|]; [|easy]. apply use_nodup, NoDup_cons in Hs1 as [Hd _]. set_solver.
  - rewrite Hn4. unfold s3. rewrite block_at_upd. cbn [next_index with_next]. now rewrite wrapu_small by lia.
  - assert (Hb : forall x, others (K ++ L) x -> x <> b).
    { intros x Hx ->. now apply (others_not s1 F1 (K ++ L) (b :: K ++ L) b Hs1). }
    apply (leaves_trans _ _ (with_keys b s1)).
    + assert (Hol : leaves (others (K ++ L)) s s1).
      { eapply leaves_weaken; [|exact Hl1]. intros x Hx. now apply (others_apart s F (K ++ L) (K ++ L)). }
      destruct Hol. now split.
    + apply (leaves_trans _ _ s3); [|now apply (leaves_weaken _ _ _ _ Hb)].
      apply leaves_upd. intros Hx. now apply (Hb b).
Qed.

Lemma insert_grows s F K E L key data :
  store_ok s F (K ++ L) -> keys_ok s K E -> 0 <= data < 2 ^ 32 -> nblocks (file s) + 11 <= capacity ->
  avail < used (block_at s (first_keys_block s)) + 12 + Z.of_nat (length (key_save key)) ->
  12 + Z.of_nat (length (key_save key)) <= avail ->
  exists s' a, strategy_insert key data s = (s', Ret a) /\ inserted L K E (key_save key, data, a) s s' 11.
Proof.
  intros Hs Hk Hdata Hcap Hno Hfit.
  destruct (save_grows s F K E L key data Hs Hk Hdata Hcap Hno Hfit) as (s4 & b & F1 & Hsave & Hs4 & Hh4 & Hx4 & Hl4 & Hn4).
  pose proof (in_use_range s4 F1 _ b Hs4 ltac:(set_solver)) as Hbr. destruct Hk as [Hc Hne Hde Hsy Hh].
  pose proof capacity_range. pose proof (ok_wf _ _ _ (ok_pre _ _ _ Hs4)) as [Hn4c _].
  assert (Hkeys4 : first_keys_block s4 = b) by now rewrite (lv_keys _ _ _ Hl4).
  assert (Hde4 : descr_block s4 = KEYS_DESCRIPTION) by now rewrite (lv_descr _ _ _ Hl4).
  destruct (strategy_sync_ok s4 F1 (b :: K ++ L) Hs4 Hde4) as (s5 & Hsync & Hs5 & Hl5 & Hn5 & Hf5);
    [rewrite Hkeys4; lia|].
  assert (Hkeep : forall x, x ∈ K ++ L \/ x = 0 -> block_at s5 x = block_at s x).
  { intros x Hx. rewrite (lv_blocks _ _ _ Hl5).
    - apply (lv_blocks _ _ _ Hl4). unfold others. tauto.
    - unfold KEYS_DESCRIPTION. destruct Hx as [Hx|Hx]; [pose proof (in_use_range s F _ x Hs Hx)|]; lia. }
  assert (HKeep : forall x, x ∈ K -> block_at s5 x = block_at s x) by (intros x Hx; apply Hkeep; set_solver).
  assert (Hb5 : block_at s5 b = block_at s4 b) by (apply (lv_blocks _ _ _ Hl5); unfold KEYS_DESCRIPTION; lia).
  pose proof (lv_count _ _ _ Hl4) as Hc4. cbn in Hc4.
  exists s5, (mkAddition b 0). split.
  { unfold strategy_insert. rewrite (bind_ok _ _ _ _ _ Hsave). now rewrite (bind_ok _ _ _ _ _ Hsync). }
  exists F1, (b :: K), ([mkEntry (key_save key) data false] :: E).
  assert (Hk5 : first_keys_block s5 = b) by now rewrite (lv_keys _ _ _ Hl5).
  split; [easy|]. split; [|split; [easy|split; [|lia]]]; split; try easy.
  - rewrite Hk5. cbn [chain]. split; [easy|]. split; [lia|]. rewrite Hb5, Hx4. now apply (chain_frame s); [lia|..].
  - now rewrite (lv_descr _ _ _ Hl5).
  - now rewrite Hf5, Hk5.
  - constructor; [now apply (holds_frame s4)|now apply (holds_all_frame s)].
  - lia.
  - intros x Hx. apply Hkeep. set_solver.
  - rewrite (lv_writers _ _ _ Hl5). apply (lv_writers _ _ _ Hl4).
Qed.

Lemma strategy_insert_ok s F K E L key data :
  store_ok s F (K ++ L) -> keys_ok s K E -> 0 <= data < 2 ^ 32 -> nblocks (file s) + 11 <= capacity ->
  12 + Z.of_nat (length (key_save key)) <= avail ->
  exists s' a, strategy_insert key data s = (s', Ret a) /\ inserted L K E (key_save key, data, a) s s' 11.
Proof.
  intros Hs Hk Hd Hcap Hfit.
  destruct (Z.le_gt_cases (used (block_at s (first_keys_block s)) + 12 + Z.of_nat (length (key_save key))) avail).
  - destruct (insert_fits s F K E L key data) as (s' & a & Hrun & F' & K' & E' & A1 & A2 & A3 & A4 & A5); try easy.
    exists s', a. split; [easy|]. exists F', K', E'. repeat (split; [easy|]). lia.
  - now apply (insert_grows s F).
Qed.

(** ** Erasing a key *)

Lemma live_app K1 K2 E1 E2 : length K1 = length E1 -> live (K1 ++ K2) (E1 ++ E2) = live K1 E1 ++ live K2 E2.
Proof.
  revert E1. induction K1 as [|x K1 IH]; intros [|es E1] Hl; try easy. cbn [live app].
  rewrite IH by (cbn in Hl; lia). now rewrite app_assoc.
Qed.

Lemma live_in K E body data a : length K = length E -> (body, data, a) ∈ live K E ->
  exists K1 x K2 E1 es1 es2 E2, K = K1 ++ x :: K2 /\ E = E1 ++ (es1 ++ mkEntry body data false :: es2) :: E2 /\
    length K1 = length E1 /\ a = mkAddition x (esizes es1).
Proof.
  revert E. induction K as [|x K IH]; intros [|es E] Hl; cbn [live]; try (set_solver || easy).
  intros Hin. apply elem_of_app in Hin as [Hin|Hin].
  - destruct (place_in _ _ _ _ _ _ Hin) as (es1 & es2 & -> & ->).
    exists [], x, K, [], es1, es2, E. repeat split.
  - destruct (IH E ltac:(cbn in Hl; lia) Hin) as (K1 & y & K2 & E1 & es1 & es2 & E2 & -> & -> & Hl1 & ->).
    exists (x :: K1), y, K2, (es :: E1), es1, es2, E2. cbn. repeat split. now rewrite Hl1.
Qed.

Lemma esizes_pos es : es <> [] -> 0 < esizes es.
Proof.
  destruct es as [|e es]; [easy|]. intros _. rewrite esizes_cons. pose proof (esizes_nonneg es).
  unfold esize. lia.
Qed.

(** A block of keys is changed in place. *)
Lemma keys_ok_change s K1 x K2 E1 es E2 f es' L F :
  store_ok s F ((K1 ++ x :: K2) ++ L) -> keys_ok s (K1 ++ x :: K2) (E1 ++ es :: E2) ->
  length K1 = length E1 -> wf_block (f (block_at s x)) ->
  next_index (f (block_at s x)) = next_index (block_at s x) ->
  block_data (f (block_at s x)) = enc_all es' -> Forall wf_entry es' ->
  store_ok (upd x f s) F ((K1 ++ x :: K2) ++ L) /\ keys_ok (upd x f s) (K1 ++ x :: K2) (E1 ++ es' :: E2) /\
  key_step L s (upd x f s).
Proof.
  intros Hs [] Hl Hwf Hn Hd Hes.
  pose proof (in_use_range s F _ x Hs ltac:(set_solver)) as Hr.
  assert (Hx : x ∉ K1 ++ K2 ++ L).
  { apply use_nodup in Hs. rewrite <- app_assoc in Hs. cbn in Hs. rewrite <- Permutation_middle in Hs.
    apply NoDup_cons in Hs as [Hs _]. exact Hs. }
  assert (Hne : forall y, y <> x -> block_at (upd x f s) y = block_at s y)
    by (intros y Hy; now apply block_at_upd_ne).
  split; [|split].
  - apply store_ok_upd; [easy|set_solver|easy].
  - split; [|easy|easy| |].
    + apply (chain_next s); [easy| |easy]. intros y _. destruct (decide (x = y)) as [<-|Hy].
      * now rewrite block_at_upd.
      * now rewrite Hne.
    + rewrite Hne by (unfold KEYS_DESCRIPTION; lia). easy.
    + apply Forall2_app_inv in ko_holds0 as [Hh1 Hh2]; [|easy]. inversion Hh2 as [|? ? ? ? Hes0 Hh3]; subst.
      apply Forall2_app; [|constructor].
      * apply (holds_all_frame s); [|easy]. intros y Hy. apply Hne. set_solver.
      * split; [now rewrite block_at_upd|easy].
      * apply (holds_all_frame s); [|easy]. intros y Hy. apply Hne. set_solver.
  - split; [easy| |easy]. intros y Hy. apply Hne. intros ->. destruct Hy as [Hy|Hy]; [set_solver|lia].
Qed.

Lemma block_data_used b n A C : block_data b = A ++ C -> n = Z.of_nat (length A) -> n < 2 ^ 32 ->
  block_data (with_used n b) = A.
Proof.
  intros Hb -> Hn. unfold block_data in *. cbn [used content with_used]. rewrite wrapu_small by lia.
  rewrite Nat2Z.id. assert (Hl : (length A <= Z.to_nat (used b))%nat).
  { apply (f_equal length) in Hb. rewrite length_take, length_app in Hb. lia. }
  rewrite <- (Nat.min_l _ _ Hl), <- take_take, Hb. apply take_app_length.
Qed.

Lemma block_data_splice b off bytes A x C : block_data b = A ++ x ++ C -> off = Z.of_nat (length A) ->
  length x = length bytes -> Z.of_nat (length (content b)) >= used b ->
  block_data (with_content (splice (Z.to_nat off) bytes) b) = A ++ bytes ++ C.
Proof.
  intros Hb -> Hx Hl. unfold block_data in *. cbn [used content with_content]. rewrite Nat2Z.id.
  assert (Hlen : (length A + length bytes <= Z.to_nat (used b))%nat).
  { apply (f_equal length) in Hb. rewrite length_take, !length_app in Hb. lia. }
  rewrite take_splice_inside by lia. rewrite Hb. now apply splice_middle.
Qed.

(** The record is cut off, or marked: what becomes of its block. *)
Definition erased (b : Block) (off size : Z) : Block :=
  if used b =? off + size then with_used off b
  else with_content (splice (Z.to_nat (off + KH_MARK)) (le32 (u32 MARK_DELETED))) b.

Lemma erased_ok b x es1 e es2 : wf_block b -> avail <= Z.of_nat (length (content b)) ->
  block_data b = enc_all (es1 ++ e :: es2) -> used b = esizes (es1 ++ e :: es2) ->
  Forall wf_entry (es1 ++ e :: es2) -> e_deleted e = false ->
  let b' := erased b (esizes es1) (esize e) in
  wf_block b' /\ next_index b' = next_index b /\
  exists es', block_data b' = enc_all es' /\ Forall wf_entry es' /\
    place x 0 (es1 ++ e :: es2) ≡ₚ (e_body e, e_data e, mkAddition x (esizes es1)) :: place x 0 es'.
Proof.
  intros Hb Hlen Hd Hu Hwf He b'. pose proof avail_range. pose proof (esizes_nonneg es1). pose proof (esizes_nonneg es2).
  rewrite enc_all_app in Hd. change (enc_all (e :: es2)) with (enc e ++ enc_all es2) in Hd.
  rewrite esizes_app, esizes_cons in Hu. apply Forall_app in Hwf as [Hwf1 Hwf2]. apply Forall_cons in Hwf2 as [Hwe Hwf2].
  assert (12 <= esize e) by (unfold esize; lia). pose proof (proj2 Hb) as Hua.
  rewrite place_app. cbn [place]. rewrite He. unfold b', erased, KH_MARK, MARK_DELETED.
  destruct (Z.eqb_spec (used b) (esizes es1 + esize e)) as [Heq|Hne].
  - assert (Hes2 : es2 = []) by (destruct es2 as [|e0 es2]; [easy|]; assert (0 < esizes (e0 :: es2)) by (now apply esizes_pos); lia).
    subst es2. split; [apply wf_with_used; [lia|easy]|]. split; [easy|]. exists es1.
    split; [apply (block_data_used _ _ (enc_all es1) (enc e ++ enc_all [])); [exact Hd|easy|lia]|].
    split; [easy|]. cbn [place app]. rewrite Z.add_0_l. apply Permutation_app_comm.
  - split; [apply wf_splice; [cbn; lia|lia|easy]|]. split; [easy|].
    exists (es1 ++ mkEntry (e_body e) (e_data e) true :: es2). split; [|split].
    + rewrite (block_data_splice _ _ _ (enc_all es1 ++ le32 (esize e) ++ le32 (e_data e)) (le32 0) (e_body e ++ enc_all es2));
        [|rewrite Hd; unfold enc, mark_of; rewrite He; now rewrite <- !app_assoc|rewrite !length_app; unfold esizes; cbn; lia|easy|lia].
      rewrite enc_all_app. change (enc_all (?y :: ?l)) with (enc y ++ enc_all l).
      unfold enc. rewrite <- !app_assoc. reflexivity.
    + apply Forall_app. split; [easy|]. now constructor.
    + rewrite place_app. cbn [place app e_deleted]. rewrite Z.add_0_l. now rewrite <- Permutation_middle.
Qed.

Lemma strategy_erase_ok s F K E L body data a : store_ok s F (K ++ L) -> keys_ok s K E ->
  (body, data, a) ∈ live K E ->
  exists s' E', strategy_erase a s = (s', Ret tt) /\ store_ok s' F (K ++ L) /\ keys_ok s' K E' /\
    live K E ≡ₚ (body, data, a) :: live K E' /\ key_step L s s' /\ nblocks (file s') = nblocks (file s).
Proof.
  intros Hs Hk Hin. assert (Hw : wf_store s) by apply Hs. pose proof avail_range as Ha.
  destruct (live_in K E body data a) as (K1 & x & K2 & E1 & es1 & es2 & E2 & -> & -> & Hl & ->);
    [now apply (Forall2_length _ _ _ (ko_holds _ _ _ Hk))|easy|].
  set (e := mkEntry body data false) in *.
  pose proof (in_use_range s F _ x Hs ltac:(set_solver)) as Hr.
  assert (Hi : inside s x) by (unfold inside; lia).
  assert (Hx : holds s x (es1 ++ e :: es2)).
  { pose proof (ko_holds _ _ _ Hk) as Hh. apply Forall2_app_inv in Hh as [_ Hh]; [|easy]. now inversion Hh. }
  pose proof (holds_used s x _ Hw Hx) as Hu. destruct Hx as [Hd Hwf].
  destruct (wf_at s x Hw) as [_ Hua]. pose proof (content_ge s x Hw) as Hcg.
  pose proof (esizes_nonneg es1). pose proof (esizes_nonneg es2).
  destruct (erased_ok (block_at s x) x es1 e es2 (wf_at s x Hw) Hcg Hd Hu Hwf eq_refl) as (P1 & P2 & es' & P3 & P4 & P5).
  destruct (keys_ok_change s K1 x K2 E1 _ E2 (fun b => erased b (esizes es1) (esize e)) es' L F Hs Hk Hl P1 P2 P3 P4)
    as (Q1 & Q2 & Q3).
  eexists _, (E1 ++ es' :: E2). split; [|split; [exact Q1|split; [exact Q2|split; [|now split]]]].
  - unfold strategy_erase. cbn [block_index block_offset]. rewrite esizes_app, esizes_cons in Hu.
    assert (12 <= esize e) by (unfold esize; lia).
    rewrite (bind_ok _ _ _ _ _ (get_block_in s x Hw Hi)), (bind_ok _ _ _ _ _ (get_size_in s x Hi)).
    assert (Hsz : get_field x (esizes es1 + KH_KEYSIZE) s = (s, Ret (esize e))).
    { rewrite <- (record_size (block_at s x) (enc_all es1) e (enc_all es2) (esizes es1));
        [|now rewrite Hd, enc_all_app|easy|].
      - apply get_field_in; unfold KH_KEYSIZE; [easy|lia|lia].
      - apply Forall_app in Hwf as [_ Hwf]. now apply Forall_cons in Hwf as [Hwf _]. }
    rewrite (bind_ok _ _ _ _ _ Hsz). unfold upd, erased. destruct (_ =? _).
    + now apply set_size_in.
    + apply set_field_in; unfold KH_MARK; [easy|lia|lia].
  - rewrite !live_app by easy. cbn [live]. rewrite P5. cbn. now rewrite <- Permutation_middle.
Qed.
End KeyRep.
