(* ===== verification/KeyLoad.v ===== *)
(** * KeyLoad: loading the keys of a file gives those that are not deleted *)

From Stdlib Require Import ZArith List Bool Lia.
From stdpp Require Import base list gmap fin_maps.
From S2P Require Import Prelude BlockFile BlockStore BlockRep BlockData KeyIndex KeyRep.
Open Scope Z_scope.

Section KeyLoad.
Context `{Disk} {Hdisk : DiskOk} {Key : Type} `{KeyAccessorOk Key}.

Lemma block_at_file s s' x : file s' = file s -> block_at s' x = block_at s x.
Proof. unfold block_at. now intros ->. Qed.

Lemma wf_store_file s s' : file s' = file s -> wf_store s -> wf_store s'.
Proof. unfold wf_store. now intros ->. Qed.

Lemma inside_file s s' x : file s' = file s -> inside s x -> inside s' x.
Proof. unfold inside. now intros ->. Qed.

(** The callback takes the keys one after another; [R ls c s] says what it has
    made of the keys before [ls]. *)
Context {C : Type} (load_key : Key -> Z -> KeyAddition -> C -> M C).
Context (R : list Loc -> C -> Store -> Prop).
Context (callback : forall body data a ls c s, R ((body, data, a) :: ls) c s ->
  exists s' c', load_key (key_load body) data a c s = (s', Ret c') /\ file s' = file s /\ R ls c' s').

(** One record: a deleted one is passed over, the callback gets the others. *)
Lemma load_record b x off e pre es ls c s : inside s x -> block_at s x = b -> wf_store s ->
  block_data b = enc_all pre ++ enc e ++ enc_all es -> off = esizes pre -> wf_entry e ->
  off + esize e <= Z.of_nat (length (content b)) -> R (place x off (e :: es) ++ ls) c s ->
  exists s' c', (if mark_of (e_deleted e) =? MARK_DELETED then mret c
     else body ← read_content x (off + KH_KEY) (u64 (esize e - KEY_HEADER_SIZE));
          data ← get_field x (off + KH_DATABLOCK);
          load_key (key_load body) data (mkAddition x off) c) s = (s', Ret c') /\
    file s' = file s /\ R (place x (off + esize e) es ++ ls) c' s'.
Proof.
  intros Hi <- Hw Hd Hoff Hwe Hlen HR. pose proof avail_range. pose proof (esizes_nonneg pre).
  cbn [place] in HR. rewrite <- app_assoc in HR. destruct (e_deleted e); cbn [app] in HR; [now exists s, c|].
  destruct (callback _ _ _ _ _ _ HR) as (s1 & c1 & Hrun & Hf1 & HR1).
  exists s1, c1. split; [|easy]. change (mark_of false =? MARK_DELETED) with false. cbv iota.
  assert (Hu : u64 (esize e - KEY_HEADER_SIZE) = Z.of_nat (length (e_body e)))
    by (destruct Hwe; unfold esize, KEY_HEADER_SIZE in *; rewrite wrapu_small; lia).
  assert (Hbody : read_content x (off + KH_KEY) (Z.of_nat (length (e_body e))) s = (s, Ret (e_body e))).
  { rewrite <- (record_body _ (enc_all pre) e (enc_all es) off Hd Hoff) at 2.
    replace (length (e_body e)) with (Z.to_nat (Z.of_nat (length (e_body e)))) at 2 by lia.
    unfold esize in *. apply read_content_in; unfold KH_KEY; [easy|lia..]. }
  assert (Hdata : get_field x (off + KH_DATABLOCK) s = (s, Ret (e_data e))).
  { rewrite <- (record_data _ (enc_all pre) e (enc_all es) off Hd Hoff Hwe).
    unfold esize in *. apply get_field_in; unfold KH_DATABLOCK; [easy|lia..]. }
  rewrite Hu, (bind_ok _ _ _ _ _ Hbody), (bind_ok _ _ _ _ _ Hdata). exact Hrun.
Qed.

Lemma load_block_ok x ls es : forall fuel pre s c off, wf_store s -> inside s x -> holds s x (pre ++ es) ->
  off = esizes pre -> esizes es <= Z.of_nat fuel -> R (place x off es ++ ls) c s ->
  exists s' c', load_block load_key fuel x off (esizes (pre ++ es)) c s = (s', Ret c') /\
    file s' = file s /\ R ls c' s'.
Proof.
  induction es as [|e es IH]; intros fuel pre s c off Hw Hi Hh Hoff Hf HR.
  - rewrite app_nil_r in *. exists s, c. split; [|easy]. subst off.
    destruct fuel; cbn [load_block]; now destruct (Z.ltb_spec (esizes pre) (esizes pre)); [lia|].
  - rewrite esizes_cons in Hf. pose proof (esizes_nonneg es). pose proof (esizes_nonneg pre).
    assert (He : 12 <= esize e) by (unfold esize; lia).
    destruct fuel as [|fuel]; [lia|]. cbn [load_block].
    pose proof (holds_used s x _ Hw Hh) as Hu. pose proof Hh as [Hd Hwf].
    destruct (wf_at s x Hw) as [_ Hua]. pose proof (content_ge s x Hw).
    apply Forall_app in Hwf as [_ Hwf]. apply Forall_cons in Hwf as [Hwe _].
    rewrite enc_all_app in Hd. change (enc_all (e :: es)) with (enc e ++ enc_all es) in Hd.
    assert (Hsum : esizes (pre ++ e :: es) = off + esize e + esizes es)
      by (rewrite esizes_app, esizes_cons; lia).
    rewrite Hsum in *. destruct (Z.ltb_spec off (off + esize e + esizes es)); [|lia].
    assert (Hget : forall o v, 0 <= o <= 8 -> field (block_at s x) (off + o) = v ->
      get_field x (off + o) s = (s, Ret v)).
    { intros o v Ho <-. apply get_field_in; [easy|lia|lia]. }
    rewrite (bind_ok _ _ _ _ _ (Hget KH_KEYSIZE (esize e) ltac:(unfold KH_KEYSIZE; lia)
      (record_size _ (enc_all pre) e (enc_all es) off Hd Hoff Hwe))).
    rewrite (bind_ok _ _ _ _ _ (Hget KH_MARK (mark_of (e_deleted e)) ltac:(unfold KH_MARK; lia)
      (record_mark _ (enc_all pre) e (enc_all es) off Hd Hoff))).
    destruct (load_record _ x off e pre es ls c s Hi eq_refl Hw Hd Hoff Hwe ltac:(lia) HR) as (s1 & c1 & Hrun & Hf1 & HR1).
    rewrite (bind_ok _ _ _ _ _ Hrun).
    replace (off + esize e + esizes es) with (esizes ((pre ++ [e]) ++ es))
      by (rewrite !esizes_app, !esizes_cons, esizes_nil; lia).
    destruct (IH fuel (pre ++ [e]) s1 c1 (off + esize e)) as (s2 & c2 & Hrec & Hf2 & HR2); try lia; try easy.
    + now apply (wf_store_file s).
    + now apply (inside_file s).
    + apply (holds_frame s); [now apply block_at_file|]. now rewrite <- app_assoc.
    + rewrite esizes_app, esizes_cons, esizes_nil. lia.
    + exists s2, c2. split; [easy|]. split; [congruence|easy].
Qed.

Lemma chain_file s s' b l : file s' = file s -> chain s b l -> chain s' b l.
Proof.
  intros Hf. apply chain_frame; [now rewrite Hf|]. intros x _. now apply block_at_file.
Qed.

Lemma load_chain_ok K : forall E fuel s c b, wf_store s -> chain s b K -> Forall2 (holds s) K E ->
  (length K <= fuel)%nat -> R (live K E) c s ->
  exists s' c', load_chain load_key fuel (ptr b) c s = (s', Ret c') /\ file s' = file s /\ R [] c' s'.
Proof.
  induction K as [|x K IH]; intros E fuel s c b Hw Hc Hh Hf HR; inversion Hh as [|? es ? E' Hx Hh']; subst;
    rewrite (ptr_chain _ _ _ Hc).
  - exists s, c. now destruct fuel.
  - destruct fuel as [|fuel]; [cbn in Hf; lia|]. cbn in Hc. destruct Hc as (-> & Hr & Hc).
    assert (Hi : inside s x) by (unfold inside; lia).
    cbn [load_chain head]. rewrite (bind_ok _ _ _ _ _ (get_size_in s x Hi)), (holds_used s x es Hw Hx).
    pose proof (esizes_nonneg es).
    destruct (load_block_ok x (live K E') es (Z.to_nat (esizes es)) [] s c 0) as (s1 & c1 & Hrun & Hf1 & HR1);
      try easy; [cbn; lia|].
    rewrite (bind_ok _ _ _ _ _ Hrun).
    assert (Hi1 : inside s1 x) by now apply (inside_file s).
    rewrite (bind_ok _ _ _ _ _ (read_next_in s1 x Hi1)), (block_at_file s s1 x Hf1).
    destruct (IH E' fuel s1 c1 (next_index (block_at s x))) as (s2 & c2 & Hrec & Hf2 & HR2); try easy.
    + now apply (wf_store_file s).
    + now apply (chain_file s).
    + apply (holds_all_frame s); [|easy]. intros y _. now apply block_at_file.
    + cbn in Hf. lia.
    + exists s2, c2. split; [easy|]. split; [congruence|easy].
Qed.
End KeyLoad.
