(* ===== verification/PlainMap.v ===== *)
(** * PlainMap: the map of src/src/PlainStorage/Map.tpp

    [Map] keeps its keys in memory, in a [std::map] from a key to the writer of
    its data and the place of its record in the file.  Everything it does to the
    keys is in the file at once, so [close] has nothing to write but the head of
    the free list. *)

From Stdlib Require Import ZArith List Bool Lia.
From stdpp Require Import base list gmap fin_maps.
From S2P Require Import Prelude BlockFile BlockStore KeyIndex.
Open Scope Z_scope.

Section Map.
Context `{Disk} {Key : Type} `{KeyAccessor Key}.

(** [ContainerValue]. *)
Record Value : Type := mkValue { second : nat; addition : KeyAddition }.

(** [IndexContainer], sorted by the keys. *)
Abbreviation Container := (list (Key * Value)).

Definition key_eqb (k k' : Key) : bool := negb (key_less k k') && negb (key_less k' k).

Fixpoint find (k : Key) (c : Container) : option Value :=
  match c with
  | [] => None
  | (k', v) :: c' => if key_eqb k k' then Some v else find k c'
  end.

(** [std::map::insert]: nothing if the key is there. *)
Fixpoint container_insert (k : Key) (v : Value) (c : Container) : Container :=
  match c with
  | [] => [(k, v)]
  | (k', v') :: c' =>
      if key_less k k' then (k, v) :: c
      else if key_less k' k then (k', v') :: container_insert k v c'
      else c
  end.

Fixpoint container_erase (k : Key) (c : Container) : Container :=
  match c with
  | [] => []
  | (k', v') :: c' => if key_eqb k k' then c' else (k', v') :: container_erase k c'
  end.

(** A map with an open file. *)
Record Map : Type := mkMap { store : Store; index_container : Container }.

(** A call on the store by the map, which gets its result. *)
Definition call {A B} (m : Map) (f : M A) (k : A -> Map -> Map * outcome B) : Map * outcome B :=
  match f (store m) with
  | (s', Ret a) => k a (mkMap s' (index_container m))
  | (s', Throw e) => (mkMap s' (index_container m), Throw e)
  | (s', Undef) => (mkMap s' (index_container m), Undef)
  end.

(** [init_value_]: a block and its writer. *)
Definition init_value_ : M nat :=
  first_index ← allocate;
  new_writer first_index 0.

(** [insert(key)]. *)
Definition insert (key : Key) (m : Map) : Map * outcome Value :=
  match find key (index_container m) with
  | Some v => (m, Ret v)
  | None =>
      call m
        (new_plain_writer ← init_value_;
         p ← writer new_plain_writer;
         key_addition ← strategy_insert key (FIRST_BLOCK_INDEX p);
         mret (mkValue new_plain_writer key_addition))
        (fun v m => (mkMap (store m) (container_insert key v (index_container m)), Ret v))
  end.

(** [operator []]: the writer of a key. *)
Definition subscript (key : Key) (m : Map) : Map * outcome nat :=
  match find key (index_container m) with
  | Some v => (m, Ret (second v))
  | None => let '(m', r) := insert key m in (m', bind r (fun v => Ret (second v)))
  end.

(** [erase(key)]: the number of elements erased. *)
Definition erase (key : Key) (m : Map) : Map * outcome Z :=
  match find key (index_container m) with
  | None => (m, Ret 0)
  | Some v =>
      call m (strategy_erase (addition v))
        (fun _ m => (mkMap (store m) (container_erase key (index_container m)), Ret 1))
  end.

Fixpoint erase_all (c : Container) : M unit :=
  match c with
  | [] => mret tt
  | (_, v) :: c' => strategy_erase (addition v);; erase_all c'
  end.

Definition clear (m : Map) : Map * outcome unit :=
  call m (erase_all (index_container m)) (fun _ m => (mkMap (store m) [], Ret tt)).

Definition size (m : Map) : nat := length (index_container m).

(** Reading and writing through a writer that the map has given out. *)
Definition write (w : nat) (buf : list Z) (m : Map) : Map * outcome unit :=
  call m (write_i_ w buf) (fun u m => (m, Ret u)).

Definition read (w : nat) (buf_size : Z) (m : Map) : Map * outcome (Z * list Z) :=
  call m (read_i_ w buf_size) (fun r m => (m, Ret r)).

(** ** Opening a file *)

Definition FILE_HEADER_SIZE : Z := 12.
Definition FH_FIRST_ALLOCATOR_DESC_BLOCK : Z := 4.
Definition FH_FIRST_INDEX_DESC_BLOCK : Z := 8.

Definition create_head_ : M (Z * Z) :=
  try_as CreationFailed (
    index_desc_block ← get_block 2;
    set_size index_desc_block 4;;
    set_field index_desc_block 0 0;;
    allocator_desc_block ← get_block 1;
    set_next_index allocator_desc_block 0;;
    set_size allocator_desc_block 4;;
    set_field allocator_desc_block 0 0;;
    header_block ← get_block 0;
    set_next_index header_block 0;;
    set_size header_block FILE_HEADER_SIZE;;
    set_field header_block FH_FIRST_ALLOCATOR_DESC_BLOCK 1;;
    set_field header_block FH_FIRST_INDEX_DESC_BLOCK 2;;
    mret (1, 2)).

Definition load_head_ : M (Z * Z) :=
  try_as CorruptedFile (
    header_size ← get_size 0;
    if header_size <? FILE_HEADER_SIZE then throw CorruptedFile
    else
      allocator ← get_field 0 FH_FIRST_ALLOCATOR_DESC_BLOCK;
      index ← get_field 0 FH_FIRST_INDEX_DESC_BLOCK;
      mret (allocator, index)).

(** The loop of [load_key] over the blocks of the data. *)
Fixpoint count_data (fuel : nat) (cur_block : option Z) (data_size : Z) : M Z :=
  match cur_block with
  | None => mret data_size
  | Some cur =>
      match fuel with
      | O => undef
      | S fuel' =>
          size ← get_size cur;
          cur_block ← read_next cur;
          count_data fuel' cur_block (data_size + size)
      end
  end.

(** The callback of [strategy_load]. *)
Definition load_key (key : Key) (first_data_block : Z) (key_addition : KeyAddition) (c : Container)
  : M Container :=
  try_as LoadFailed (
    cur_block ← get_block first_data_block;
    count ← member (fun s => Z.to_nat (nblocks (file s)));
    size ← count_data (S count) (Some cur_block) 0;
    plain_writer ← new_writer first_data_block size;
    mret (container_insert key (mkValue plain_writer key_addition) c)).

(** [load] of a map that has no file. *)
Definition load : M Container :=
  max ← max_block_index;
  descr ← (if max =? 0 then create_head_ else load_head_);
  match descr with
  | (first_allocator_desc_block, first_index_desc_block) =>
      new_allocator first_allocator_desc_block;;
      new_strategy first_index_desc_block;;
      strategy_load load_key []
  end.

(** The constructor [Map(filename, block_size)]. *)
Definition open_map (f : File) : File * outcome Map :=
  match load (mkStore f 0 0 0 0 []) with
  | (s, Ret c) => (file s, Ret (mkMap s c))
  | (s, Throw e) => (file s, Throw e)
  | (s, Undef) => (file s, Undef)
  end.

(** [close], with the destructor of the allocator: the file that is left. *)
Definition close (m : Map) : File * outcome unit :=
  let '(s, r) := allocator_sync_ (store m) in (file s, r).

(** ** Scripts of calls *)

Inductive action : Type :=
  | Subscript (k : Key)                  (** [operator []] *)
  | Erase (k : Key)
  | Clear
  | Size
  | Write (k : Key) (buf : list Z)       (** through [operator []] *)
  | Read (k : Key) (buf_size : Z)        (** through [operator []] *)
  | Reopen.                              (** [close], and a new map of the file *)

Inductive reply : Type :=
  | Done
  | Number (n : Z)
  | Octets (size : Z) (bytes : list Z).

Definition step (a : action) (m : Map) : Map * outcome reply :=
  match a with
  | Subscript k => let '(m', r) := subscript k m in (m', bind r (fun _ => Ret Done))
  | Erase k => let '(m', r) := erase k m in (m', bind r (fun n => Ret (Number n)))
  | Clear => let '(m', r) := clear m in (m', bind r (fun _ => Ret Done))
  | Size => (m, Ret (Number (Z.of_nat (size m))))
  | Write k buf =>
      match subscript k m with
      | (m', Ret w) => let '(m', r) := write w buf m' in (m', bind r (fun _ => Ret Done))
      | (m', Throw e) => (m', Throw e)
      | (m', Undef) => (m', Undef)
      end
  | Read k buf_size =>
      match subscript k m with
      | (m', Ret w) => let '(m', r) := read w buf_size m' in (m', bind r (fun p => Ret (Octets (fst p) (snd p))))
      | (m', Throw e) => (m', Throw e)
      | (m', Undef) => (m', Undef)
      end
  | Reopen =>
      match open_map (fst (close m)) with
      | (_, Ret m') => (m', bind (snd (close m)) (fun _ => Ret Done))
      | (_, Throw e) => (m, Throw e)
      | (_, Undef) => (m, Undef)
      end
  end.

(** What each call gives; an exception does not end the script. *)
Fixpoint run (l : list action) (m : Map) : Map * list (outcome reply) :=
  match l with
  | [] => (m, [])
  | a :: l' => let '(m', r) := step a m in let '(m2, rs) := run l' m' in (m2, r :: rs)
  end.
End Map.

Arguments action : clear implicits.

(** ** Runs on a small disk *)

#[local] Instance small_disk : Disk := { SYSTEM_PAGE_SIZE := 32; block_size_ := 30; capacity := 1000 }.

Definition fresh : @Map (list Z) :=
  match open_map (mkFile 0 ∅) with
  | (_, Ret m) => m
  | _ => mkMap (mkStore (mkFile 0 ∅) 0 0 0 0 []) []
  end.

(** The keys of a map and what [read] gives for each. *)
Definition contents (m : @Map (list Z)) : list (list Z * outcome (Z * list Z)) :=
  List.map (fun p => (fst p, snd (read (second (snd p)) 1000 m))) (index_container m).

Definition text : list Z := lit "The quick brown fox jumps over the lazy dog.".

Definition script : list (action (list Z)) :=
  [Write (lit "b") text; Write (lit "a") (lit "short"); Subscript (lit "c"); Write (lit "b") (lit "now short");
   Erase (lit "a"); Write (lit "d") (text ++ text); Erase (lit "c"); Write (lit "e") text].

Example plain_map_run :
  let '(m, rs) := run script fresh in
  forallb (fun r => match r with Ret _ => true | _ => false end) rs = true /\
  contents m = [(lit "b", Ret (9, lit "now short")); (lit "d", Ret (88, text ++ text)); (lit "e", Ret (44, text))] /\
  contents (fst (step Reopen m)) = contents m.
Proof. vm_compute. repeat split. Qed.

(** A block that is allocated again keeps its size: a new key that was not
    written reads what was in the block. *)
Example stale_data :
  let m := fst (run [Write (lit "a") text; Write (lit "a") []; Subscript (lit "b")] fresh) in
  contents m = [(lit "a", Ret (0, [])); (lit "b", Ret (0, slice 22 22 text))] /\
  contents (fst (step Reopen m)) = [(lit "a", Ret (0, [])); (lit "b", Ret (22, slice 22 22 text))].
Proof. vm_compute. repeat split. Qed.

(** A key too large for a block throws, but the empty block it was given stays
    the first block of keys in memory, and not in the file: the keys inserted
    next are lost when the file is closed. *)
Example lost_keys :
  let '(m, rs) := run [Subscript (lit "a"); Subscript (lit "a very large key"); Write (lit "b") text] fresh in
  rs = [Ret Done; Throw FileFormatError; Ret Done] /\
  List.map fst (contents m) = [lit "a"; lit "b"] /\
  List.map fst (contents (fst (step Reopen m))) = [lit "a"].
Proof. vm_compute. repeat split. Qed.
