(* ===== verification/PlainMapRep.v ===== *)
(** * PlainMapRep: the map keeps its keys and its data in the file *)

From Stdlib Require Import ZArith List Bool Lia.
From stdpp Require Import base list gmap fin_maps.
From S2P Require Import Prelude BlockFile BlockStore BlockRep BlockData KeyIndex KeyRep KeyLoad PlainMap.
Open Scope Z_scope.

Section Rep.
Context {disk : Disk} {Hdisk : DiskOk} {Key : Type} {KA : KeyAccessor Key} {KAok : KeyAccessorOk Key}.
Abbreviation Map := (@Map Key).
Abbreviation Container := (list (Key * Value)).

(** ** The container *)

Lemma key_eqb_iff (k k' : Key) : key_eqb k k' = true <-> k = k'.
Proof.
  unfold key_eqb. rewrite andb_true_iff, !negb_true_iff. split.
  - intros [Ha Hb]. now apply key_less_total.
  - intros ->. rewrite key_less_irrefl. easy.
Qed.

Lemma find_in k v (c : Container) : find k c = Some v -> (k, v) ∈ c.
Proof.
  induction c as [|[k' v'] c IH]; cbn; [easy|]. destruct (key_eqb k k') eqn:E.
  - apply key_eqb_iff in E as ->. intros [= ->]. set_solver.
  - intros Hf. set_solver.
Qed.

Lemma in_find k v (c : Container) : NoDup c.*1 -> (k, v) ∈ c -> find k c = Some v.
Proof.
  induction c as [|[k' v'] c IH]; cbn; [set_solver|]. intros Hd Hin. apply NoDup_cons in Hd as [Hn Hd].
  destruct (key_eqb k k') eqn:E.
  - apply key_eqb_iff in E as ->. apply elem_of_cons in Hin as [[= ->]|Hin]; [easy|].
    apply (list_elem_of_fmap_2 fst) in Hin. easy.
  - apply elem_of_cons in Hin as [[= -> ->]|Hin]; [|auto].
    assert (key_eqb k' k' = true) by now apply key_eqb_iff. congruence.
Qed.

Lemma find_none k (c : Container) : find k c = None <-> k ∉ c.*1.
Proof.
  induction c as [|[k' v'] c IH]; cbn; [split; [set_solver|easy]|]. destruct (key_eqb k k') eqn:E.
  - apply key_eqb_iff in E as ->. split; [easy|]. set_solver.
  - rewrite IH. assert (k <> k') by (intros ->; assert (key_eqb k' k' = true) by (now apply key_eqb_iff); congruence).
    set_solver.
Qed.

Lemma container_insert_perm k v (c : Container) : k ∉ c.*1 -> container_insert k v c ≡ₚ (k, v) :: c.
Proof.
  induction c as [|[k' v'] c IH]; cbn; [easy|]. intros Hk.
  destruct (key_less k k') eqn:E1; [easy|]. destruct (key_less k' k) eqn:E2.
  - rewrite IH by set_solver. apply Permutation_swap.
  - assert (k = k') by now apply key_less_total. set_solver.
Qed.

Lemma container_erase_perm k v (c : Container) : find k c = Some v -> c ≡ₚ (k, v) :: container_erase k c.
Proof.
  induction c as [|[k' v'] c IH]; cbn; [easy|]. destruct (key_eqb k k') eqn:E.
  - apply key_eqb_iff in E as ->. now intros [= ->].
  - intros Hf. rewrite (IH Hf) at 1. apply Permutation_swap.
Qed.

(** ** The invariant *)

(** The blocks of the writers. *)
Definition data_blocks (n : nat) (D : nat -> list Z) : list Z := seq 0 n ≫= D.

Definition first_of (s : Store) (w : nat) : Z :=
  match writers s !! w with Some p => FIRST_BLOCK_INDEX p | None => 0 end.

(** Where the file has a key of the container. *)
Definition loc_of (s : Store) (p : Key * Value) : Loc :=
  (key_save p.1, first_of s (second p.2), addition p.2).

Definition header_ok (s : Store) : Prop :=
  used (block_at s 0) = FILE_HEADER_SIZE /\
  field (block_at s 0) FH_FIRST_ALLOCATOR_DESC_BLOCK = DESCRIPTION /\
  field (block_at s 0) FH_FIRST_INDEX_DESC_BLOCK = KEYS_DESCRIPTION.

(** [d] is what is known of the data of a writer: nothing, for a key that was
    inserted and not written. *)
Definition writer_ok (s : Store) (D : nat -> list Z) (w : nat) (p : PlainWriter) (d : option (list Z)) : Prop :=
  chain s (FIRST_BLOCK_INDEX p) (D w) /\ D w <> [] /\
  forall v, d = Some v -> chain_data s (D w) = v /\ data_size p = Z.of_nat (length v).

Record map_rep (s : Store) (c : Container) (files : list (option (list Z)))
    (F K : list Z) (E : list (list Entry)) (D : nat -> list Z) : Prop := {
  mr_store : store_ok s F (K ++ data_blocks (length (writers s)) D);
  mr_keys : keys_ok s K E;
  mr_header : header_ok s;
  mr_files : length files = length (writers s);
  mr_writer : forall w p d, writers s !! w = Some p -> files !! w = Some d -> writer_ok s D w p d;
  mr_index : live K E ≡ₚ loc_of s <$> c;
  mr_nodup : NoDup c.*1;
  mr_second : NoDup (second <$> c.*2);
  mr_range : forall k v, (k, v) ∈ c -> (second v < length (writers s))%nat }.

(** The state of a map, with what its writers hold. *)
Definition map_ok (m : Map) (files : list (option (list Z))) : Prop :=
  exists F K E D, map_rep (store m) (index_container m) files F K E D.

(** ** The blocks of the writers *)

Lemma bind_ext_in {A B} (f g : A -> list B) l : (forall x, x ∈ l -> f x = g x) -> l ≫= f = l ≫= g.
Proof. induction l as [|x l IH]; cbn; intros He; [easy|]. rewrite He, IH; set_solver. Qed.

Lemma in_seq k m n : k ∈ seq m n <-> (m <= k < m + n)%nat.
Proof. apply elem_of_seq. Qed.

Definition at_ (w : nat) (l : list Z) (D : nat -> list Z) : nat -> list Z :=
  fun i => if decide (i = w) then l else D i.

Lemma at_eq w l D : at_ w l D w = l.
Proof. unfold at_. now rewrite decide_True. Qed.

Lemma at_ne w l D i : i <> w -> at_ w l D i = D i.
Proof. intros Hi. unfold at_. now rewrite decide_False. Qed.

Lemma data_blocks_in n D w x : (w < n)%nat -> x ∈ D w -> x ∈ data_blocks n D.
Proof. intros Hw Hx. apply list_elem_of_bind. exists w. split; [easy|]. apply in_seq. lia. Qed.

Lemma data_blocks_at n D w : (w < n)%nat -> exists R,
  (forall l, data_blocks n (at_ w l D) ≡ₚ l ++ R) /\ data_blocks n D ≡ₚ D w ++ R /\
  (forall i x, (i < n)%nat -> i <> w -> x ∈ D i -> x ∈ R).
Proof.
  intros Hw. exists ((seq 0 w ≫= D) ++ (seq (S w) (n - S w) ≫= D)).
  assert (Hs : seq 0 n = seq 0 w ++ w :: seq (S w) (n - S w)).
  { change (w :: seq (S w) (n - S w)) with (seq w (S (n - S w))).
    replace n with (w + S (n - S w))%nat at 1 by lia. now rewrite seq_app. }
  assert (Hp : forall f, data_blocks n f ≡ₚ f w ++ (seq 0 w ≫= f) ++ (seq (S w) (n - S w) ≫= f)).
  { intros f. unfold data_blocks. rewrite Hs, bind_app. cbn. rewrite !app_assoc.
    apply Permutation_app_tail, Permutation_app_comm. }
  split; [|split; [apply Hp|]].
  - intros l. rewrite Hp, at_eq.
    rewrite (bind_ext_in (at_ w l D) D (seq 0 w)) by (intros x Hx; apply in_seq in Hx; apply at_ne; lia).
    rewrite (bind_ext_in (at_ w l D) D (seq (S w) _)) by (intros x Hx; apply in_seq in Hx; apply at_ne; lia).
    reflexivity.
  - intros i x Hi Hne Hx. apply elem_of_app. rewrite !list_elem_of_bind.
    destruct (Nat.lt_ge_cases i w); [left|right]; exists i; (split; [easy|]); apply in_seq; lia.
Qed.

Lemma data_blocks_snoc n D l : data_blocks (S n) (at_ n l D) = data_blocks n D ++ l.
Proof.
  unfold data_blocks. rewrite seq_S, bind_app. cbn. rewrite at_eq, app_nil_r. f_equal.
  apply bind_ext_in. intros x Hx. apply in_seq in Hx. apply at_ne. lia.
Qed.

Lemma call_ok {A B} (m : Map) (f : M A) (k : A -> Map -> Map * outcome B) s' a :
  f (store m) = (s', Ret a) -> call m f k = k a (mkMap s' (index_container m)).
Proof. intros Hf. unfold call. now rewrite Hf. Qed.

(** ** Writing *)

Lemma header_ok_frame s s' : block_at s' 0 = block_at s 0 -> header_ok s -> header_ok s'.
Proof. unfold header_ok. now intros ->. Qed.

Lemma writer_ok_frame s s' D w p d : nblocks (file s) <= nblocks (file s') ->
  (forall x, x ∈ D w -> block_at s' x = block_at s x) -> writer_ok s D w p d -> writer_ok s' D w p d.
Proof.
  intros Hn Hb (H1 & H2 & H3). split; [now apply (chain_frame s)|]. split; [easy|].
  intros v Hv. now rewrite (chain_data_frame s s') by easy; apply H3.
Qed.

Lemma loc_of_first s s' (c : Container) : (forall k v, (k, v) ∈ c -> first_of s' (second v) = first_of s (second v)) ->
  loc_of s' <$> c = loc_of s <$> c.
Proof.
  intros Hf. apply list_fmap_ext. intros i [k v] Hi. unfold loc_of. cbn.
  now rewrite (Hf k v) by (apply list_elem_of_lookup; eauto).
Qed.

Lemma map_write_ok (m : Map) files w buf : map_ok m files -> (w < length files)%nat ->
  Z.of_nat (length buf) < 2 ^ 32 ->
  nblocks (file (store m)) + 11 * Z.max 0 (more_blocks (Z.of_nat (length buf))) <= capacity ->
  exists m', write w buf m = (m', Ret tt) /\ map_ok m' (<[w := Some buf]> files) /\
    index_container m' = index_container m /\
    nblocks (file (store m')) <= nblocks (file (store m)) + 11 * Z.max 0 (more_blocks (Z.of_nat (length buf))).
Proof.
  intros (F & K & E & D & []) Hw Hbuf Hcap. destruct m as [s c]. cbn [store index_container] in *.
  rewrite mr_files0 in Hw. destruct (lookup_lt_is_Some_2 (writers s) w Hw) as [[first size] Hp].
  destruct (lookup_lt_is_Some_2 files w) as [d Hd]; [now rewrite mr_files0|].
  destruct (mr_writer0 w _ d Hp Hd) as (Hc & Hne & _). cbn in Hc.
  destruct (data_blocks_at (length (writers s)) D w Hw) as (R & HR & HD & Hin).
  assert (Hs : store_ok s F (D w ++ K ++ R)).
  { eapply store_ok_perm; [|exact mr_store0]. rewrite HD. rewrite !app_assoc.
    apply Permutation_app_tail, Permutation_app_comm. }
  destruct (write_ok s F w first size (D w) (K ++ R) buf Hs Hp Hc Hne Hbuf Hcap)
    as (s' & F' & l' & Hrun & Hs' & Hc' & Hne' & Hd' & Hl' & Hn').
  exists (mkMap s' c). split; [unfold write; now rewrite (call_ok _ _ _ _ _ Hrun)|].
  pose proof (lv_writers _ _ _ Hl') as Hws. cbn in Hws.
  assert (Hlen : length (writers s') = length (writers s)) by now rewrite Hws, length_insert.
  split; [|now split]. exists F', K, E, (at_ w l' D). split; cbn [store index_container].
  - rewrite Hlen, (HR l'). eapply store_ok_perm; [|exact Hs']. rewrite !app_assoc.
    apply Permutation_app_tail, Permutation_app_comm.
  - apply (keys_ok_leaves (with_writers (writers s') s)).
    + rewrite Hws. eapply leaves_weaken; [|exact Hl']. unfold others. set_solver.
    + destruct mr_keys0. split; try easy. now apply (chain_frame s).
  - apply (header_ok_frame s); [|easy]. apply (lv_blocks _ _ _ Hl'). unfold others. tauto.
  - now rewrite length_insert, Hlen.
  - intros i p d' Hi Hdi. pose proof (lv_count _ _ _ Hl') as Hcount. destruct (decide (i = w)) as [->|Hne2].
    + rewrite Hws, list_lookup_insert_eq in Hi by easy. injection Hi as <-.
      rewrite list_lookup_insert_eq in Hdi by lia. injection Hdi as <-.
      split; [cbn; now rewrite at_eq|]. rewrite at_eq. split; [easy|]. intros v [= <-]. now rewrite Hd'.
    + rewrite Hws, list_lookup_insert_ne in Hi by easy. rewrite list_lookup_insert_ne in Hdi by easy.
      assert (Hi2 : (i < length (writers s))%nat) by now apply lookup_lt_Some in Hi.
      pose proof (mr_writer0 i p d' Hi Hdi) as Hwi. unfold writer_ok. rewrite at_ne by easy.
      apply (writer_ok_frame s); [easy| |easy]. intros x Hx. apply (lv_blocks _ _ _ Hl').
      left. apply elem_of_app. right. now apply (Hin i).
  - rewrite (loc_of_first s s'); [easy|]. intros k v _. unfold first_of.
    rewrite Hws. destruct (decide (second v = w)) as [->|Hne2].
    + now rewrite list_lookup_insert_eq, Hp by easy.
    + now rewrite list_lookup_insert_ne.
  - easy.
  - easy.
  - now rewrite Hlen.
Qed.

(** ** Reading *)

Lemma map_read_ok (m : Map) files w v buf_size : map_ok m files -> files !! w = Some (Some v) ->
  read w buf_size m =
  (m, Ret (if buf_size <? Z.of_nat (length v) then (0, []) else (Z.of_nat (length v), v))).
Proof.
  intros (F & K & E & D & []) Hv. destruct m as [s c]. cbn [store index_container] in *.
  assert (Hw : (w < length (writers s))%nat) by (rewrite <- mr_files0; now apply lookup_lt_Some in Hv).
  destruct (lookup_lt_is_Some_2 (writers s) w Hw) as [[first size] Hp].
  destruct (mr_writer0 w _ _ Hp Hv) as (Hc & Hne & Hdata). destruct (Hdata v eq_refl) as [Hd Hsz].
  cbn in Hc, Hsz. assert (Hnd : NoDup (D w)).
  { pose proof (use_nodup _ _ _ mr_store0) as Hn. destruct (data_blocks_at _ D w Hw) as (R & _ & HD & _).
    rewrite HD in Hn. apply NoDup_app in Hn as (_ & _ & Hn). now apply NoDup_app in Hn. }
  assert (Hrun : read_i_ w buf_size s =
    (s, Ret (if buf_size <? size then (0, []) else (size, chain_data s (D w))))).
  { apply (read_ok s w first size (D w)); try easy; [apply mr_store0|]. now rewrite Hd. }
  unfold read. rewrite (call_ok _ _ _ _ _ Hrun). cbn. now rewrite Hsz, Hd.
Qed.

(** ** Inserting *)

Lemma new_writer_ok s first size : first <> 0 -> new_writer first size s =
  (with_writers (writers s ++ [mkWriter first size]) s, Ret (length (writers s))).
Proof. intros Hf. unfold new_writer. now destruct (Z.eqb_spec first 0). Qed.

(** A key and its writer are added. *)
Lemma insert_rep s s' c files F K E D F' K' E' k b a n : map_rep s c files F K E D -> find k c = None ->
  n = length (writers s) -> writers s' = writers s ++ [mkWriter b 0] ->
  store_ok s' F' (K' ++ data_blocks (S n) (at_ n [b] D)) -> keys_ok s' K' E' ->
  live K' E' ≡ₚ (key_save k, b, a) :: live K E -> chain s' b [b] ->
  nblocks (file s) <= nblocks (file s') ->
  (forall x, x ∈ data_blocks n D \/ x = 0 -> block_at s' x = block_at s x) ->
  map_rep s' (container_insert k (mkValue n a) c) (files ++ [None]) F' K' E' (at_ n [b] D).
Proof.
  intros [] Hk Hn Hw Hs' Hk' Hlive Hch Hcount Hblocks.
  pose proof (proj1 (find_none k c) Hk) as Hkc. pose proof (container_insert_perm k (mkValue n a) c Hkc) as Hperm.
  assert (Hlen : length (writers s') = S n) by (rewrite Hw, length_app; cbn; lia).
  assert (Hin : forall k' v, (k', v) ∈ c -> (second v < n)%nat) by (intros k' v Hv; rewrite Hn; now apply (mr_range0 k')).
  split; rewrite ?Hlen, ?Hperm; try easy.
  - apply (header_ok_frame s); [|easy]. apply Hblocks. tauto.
  - rewrite length_app. cbn. lia.
  - intros i p d Hi Hd. rewrite Hw in Hi. unfold writer_ok. destruct (decide (i = n)) as [->|Hne].
    + rewrite list_lookup_middle in Hi by easy. injection Hi as <-.
      rewrite list_lookup_middle in Hd by now rewrite mr_files0. injection Hd as <-. now rewrite at_eq.
    + assert (Hi2 : (i < n)%nat) by (apply lookup_lt_Some in Hi; rewrite length_app in Hi; cbn in Hi; lia).
      rewrite lookup_app_l in Hi by lia. rewrite lookup_app_l in Hd by lia. rewrite at_ne by easy.
      apply (writer_ok_frame s); [easy| |now apply mr_writer0]. intros x Hx. apply Hblocks. left.
      now apply (data_blocks_in n D i).
  - rewrite Hlive, mr_index0. cbn [fmap list_fmap]. rewrite (loc_of_first s s').
    + unfold loc_of at 2, first_of. cbn. now rewrite Hw, list_lookup_middle.
    + intros k' v' Hv. apply Hin in Hv. unfold first_of. rewrite Hw, lookup_app_l; [easy|lia].
  - cbn. now apply NoDup_cons.
  - cbn. apply NoDup_cons. split; [|easy]. intros Hi.
    apply list_elem_of_fmap in Hi as (v' & Hv & Hi). apply list_elem_of_fmap in Hi as ([k' v2] & -> & Hi).
    apply Hin in Hi. cbn in Hv. lia.
  - intros k' v'. rewrite Hperm. intros Hi. apply elem_of_cons in Hi as [[= -> ->]|Hi]; [cbn; lia|].
    apply Hin in Hi. lia.
Qed.

Lemma map_insert_ok (m : Map) files k : map_ok m files -> find k (index_container m) = None ->
  12 + Z.of_nat (length (key_save k)) <= avail -> nblocks (file (store m)) + 22 <= capacity ->
  exists m' v, insert k m = (m', Ret v) /\ map_ok m' (files ++ [None]) /\ second v = length files /\
    index_container m' ≡ₚ (k, v) :: index_container m /\
    nblocks (file (store m')) <= nblocks (file (store m)) + 22.
Proof.
  intros (F & K & E & D & Hm) Hk Hfit Hcap. pose proof Hm as []. destruct m as [s c]. cbn [store index_container] in *.
  set (n := length (writers s)) in *.
  destruct (allocate_ok s F _ mr_store0 ltac:(lia)) as (s1 & b & F1 & Hal & _ & Hs1 & Hb0 & Hl1 & Hn1).
  pose proof (in_use_range _ _ _ b Hs1 ltac:(set_solver)) as Hb.
  assert (Hol1 : leaves (others (K ++ data_blocks n D)) s s1).
  { eapply leaves_weaken; [|exact Hl1]. intros x Hx.
    now apply (others_apart s F (K ++ data_blocks n D) (K ++ data_blocks n D)). }
  set (s2 := with_writers (writers s1 ++ [mkWriter b 0]) s1).
  assert (Hws : writers s1 = writers s) by apply (lv_writers _ _ _ Hl1).
  assert (Hs2 : store_ok s2 F1 (K ++ data_blocks (S n) (at_ n [b] D))).
  { rewrite data_blocks_snoc, app_assoc. rewrite <- Permutation_cons_append. now apply store_ok_writers. }
  assert (Hk2 : keys_ok s2 K E).
  { apply (keys_ok_leaves (with_writers (writers s2) s)).
    - destruct Hol1. split; try easy. intros x Hx. apply lv_blocks. unfold others. set_solver.
    - destruct mr_keys0. split; try easy. now apply (chain_frame s). }
  pose proof capacity_range as Hcr. pose proof (ok_wf _ _ _ (ok_pre _ _ _ Hs1)) as [Hcap1 _].
  destruct (strategy_insert_ok s2 F1 K E (data_blocks (S n) (at_ n [b] D)) k b Hs2 Hk2)
    as (s3 & a & Hrun & F3 & K3 & E3 & Hs3 & Hk3 & Hlive & Hstep & Hn3); [lia| |easy|]; [cbn; lia|].
  exists (mkMap s3 (container_insert k (mkValue n a) c)), (mkValue n a).
  assert (Hw3 : writers s3 = writers s ++ [mkWriter b 0]) by (rewrite (ks_writers _ _ _ Hstep); cbn; now rewrite Hws).
  assert (Hblocks : forall x, x ∈ data_blocks (S n) (at_ n [b] D) \/ x = 0 -> block_at s3 x = block_at s1 x)
    by (intros x Hx; now rewrite (ks_blocks _ _ _ Hstep)).
  pose proof (ks_count _ _ _ Hstep) as Hc3. pose proof (lv_count _ _ _ Hl1) as Hc1. cbn in Hc3.
  split; [|split; [|split; [now rewrite mr_files0|split; [|cbn in *; lia]]]].
  - assert (Hinit : init_value_ s = (s2, Ret n))
      by (unfold init_value_; rewrite (bind_ok _ _ _ _ _ Hal), new_writer_ok by lia; unfold s2; now rewrite Hws).
    assert (Hwr : writer n s2 = (s2, Ret (mkWriter b 0)))
      by (unfold writer; cbn; now rewrite Hws, list_lookup_middle).
    unfold insert. cbn [index_container]. rewrite Hk. rewrite (call_ok _ _ _ s3 (mkValue n a)); [easy|]. cbn [store].
    rewrite (bind_ok _ _ _ _ _ Hinit), (bind_ok _ _ _ _ _ Hwr). now rewrite (bind_ok _ _ _ _ _ Hrun).
  - exists F3, K3, E3, (at_ n [b] D). cbn [store index_container]. apply (insert_rep s s3 c files F K E D); try easy.
    + cbn [chain]. split; [easy|]. split; [lia|]. rewrite Hblocks by (left; rewrite data_blocks_snoc; set_solver).
      exact Hb0.
    + lia.
    + intros x Hx. rewrite Hblocks by (destruct Hx; [left; rewrite data_blocks_snoc; set_solver|now right]).
      apply (lv_blocks _ _ _ Hol1). unfold others. set_solver.
  - apply container_insert_perm. now apply find_none.
Qed.

(** ** Erasing *)

Lemma erase_rep s c files F K E D k v c0 : map_rep s c files F K E D -> c ≡ₚ (k, v) :: c0 ->
  exists s' E', strategy_erase (addition v) s = (s', Ret tt) /\ map_rep s' c0 files F K E' D /\
    nblocks (file s') = nblocks (file s) /\ writers s' = writers s.
Proof.
  intros [] Hc. assert (Hin : loc_of s (k, v) ∈ live K E) by (rewrite mr_index0, Hc; set_solver).
  destruct (strategy_erase_ok s F K E _ _ _ _ mr_store0 mr_keys0 Hin)
    as (s' & E' & Hrun & Hs' & Hk' & Hlive & Hstep & Hn').
  pose proof (ks_writers _ _ _ Hstep) as Hws. exists s', E'. split; [exact Hrun|]. split; [|easy].
  rewrite Hc in mr_nodup0, mr_second0. cbn in mr_nodup0, mr_second0.
  apply NoDup_cons in mr_nodup0 as [_ Hnd]. apply NoDup_cons in mr_second0 as [_ Hnd2].
  split; rewrite ?Hws; try easy.
  - apply (header_ok_frame s); [|easy]. apply (ks_blocks _ _ _ Hstep). tauto.
  - intros i p d Hi Hd. apply (writer_ok_frame s); [lia| |auto]. intros x Hx.
    apply (ks_blocks _ _ _ Hstep). left. apply (data_blocks_in _ _ i); [|easy]. now apply lookup_lt_Some in Hi.
  - rewrite (loc_of_first s s') by (intros; unfold first_of; now rewrite Hws).
    apply (Permutation_cons_inv (a := loc_of s (k, v))). rewrite <- Hlive, mr_index0, Hc. reflexivity.
  - intros k' v' Hin'. apply (mr_range0 k'). rewrite Hc. set_solver.
Qed.

Lemma map_erase_ok (m : Map) files k v : map_ok m files -> find k (index_container m) = Some v ->
  exists m', erase k m = (m', Ret 1) /\ map_ok m' files /\
    index_container m ≡ₚ (k, v) :: index_container m' /\
    nblocks (file (store m')) = nblocks (file (store m)).
Proof.
  intros (F & K & E & D & Hm) Hk. destruct m as [s c]. cbn [store index_container] in *.
  pose proof (container_erase_perm k v c Hk) as Hc.
  destruct (erase_rep s c files F K E D k v _ Hm Hc) as (s' & E' & Hrun & Hm' & Hn' & _).
  exists (mkMap s' (container_erase k c)). split; [|split; [now exists F, K, E', D|now split]].
  unfold erase. cbn [index_container]. rewrite Hk. now rewrite (call_ok _ _ _ _ _ Hrun).
Qed.

Lemma map_clear_ok (m : Map) files : map_ok m files ->
  exists m', clear m = (m', Ret tt) /\ map_ok m' files /\ index_container m' = [] /\
    nblocks (file (store m')) = nblocks (file (store m)).
Proof.
  intros (F & K & E & D & Hm). destruct m as [s c]. cbn [store index_container] in *.
  assert (Hall : exists s' E', erase_all c s = (s', Ret tt) /\ map_rep s' [] files F K E' D /\
    nblocks (file s') = nblocks (file s)).
  { revert s E Hm. induction c as [|[k v] c IH]; intros s E Hm; [now exists s, E|].
    destruct (erase_rep s _ files F K E D k v c Hm (Permutation_refl _)) as (s1 & E1 & Hrun & Hm1 & Hn1 & _).
    destruct (IH s1 E1 Hm1) as (s2 & E2 & Hrec & Hm2 & Hn2). exists s2, E2.
    split; [|split; [easy|lia]]. cbn [erase_all]. now rewrite (bind_ok _ _ _ _ _ Hrun). }
  destruct Hall as (s' & E' & Hrun & Hm' & Hn'). exists (mkMap s' []).
  split; [|split; [now exists F, K, E', D|now split]]. unfold clear. now rewrite (call_ok _ _ _ _ _ Hrun).
Qed.
End Rep.
