(* ===== verification/PlainMapOpen.v ===== *)
(** * PlainMapOpen: a file that is closed and opened again gives the same map *)

From Stdlib Require Import ZArith List Bool Lia.
From stdpp Require Import base list gmap fin_maps.
From S2P Require Import Prelude BlockFile BlockStore BlockRep BlockData KeyIndex KeyRep KeyLoad PlainMap PlainMapRep.
Open Scope Z_scope.

Section Open.
Context {disk : Disk} {Hdisk : DiskOk} {Key : Type} {KA : KeyAccessor Key} {KAok : KeyAccessorOk Key}.
Abbreviation Map := (@Map Key).
Abbreviation Container := (list (Key * Value)).

(** ** Counting the data of a key *)

Lemma count_data_ok l : forall fuel s b z, wf_store s -> chain s b l -> (length l <= fuel)%nat ->
  count_data fuel (ptr b) z s = (s, Ret (z + Z.of_nat (length (chain_data s l)))).
Proof.
  induction l as [|x l IH]; intros fuel s b z Hw Hc Hf; rewrite (ptr_chain _ _ _ Hc).
  - destruct fuel; cbn; now rewrite Z.add_0_r.
  - destruct fuel as [|fuel]; [cbn in Hf; lia|]. cbn in Hc. destruct Hc as (-> & Hr & Hc).
    assert (Hi : inside s x) by (unfold inside; lia).
    cbn [count_data head]. rewrite (bind_ok _ _ _ _ _ (get_size_in s x Hi)).
    rewrite (bind_ok _ _ _ _ _ (read_next_in s x Hi)), (IH fuel s _ _ Hw Hc) by (cbn in Hf; lia).
    rewrite chain_data_cons, length_app, <- (length_block_data s x Hw). do 2 f_equal. lia.
Qed.

(** ** The state while the keys are loaded *)

(** The data of a key: the chain of its first block. *)
Definition chain_of (s : Store) (D : Z -> list Z) (l : Loc) : list Z := D l.1.2.

Definition writer_of (s : Store) (D : Z -> list Z) (l : Loc) : PlainWriter :=
  mkWriter l.1.2 (Z.of_nat (length (chain_data s (D l.1.2)))).

Definition entry_of (i : nat) (l : Loc) : Key * Value := (key_load l.1.1, mkValue i l.2).

(** [s0] is the store when the loading begins; [D] gives the chain of a first
    block; [all] are the keys of the file. *)
Section Loading.
Context (s0 : Store) (D : Z -> list Z) (all : list Loc).
Context (Hw : wf_store s0).
Context (HD : forall l, l ∈ all -> chain s0 l.1.2 (D l.1.2) /\ D l.1.2 <> [] /\ NoDup (D l.1.2)).
Context (Hkeys : NoDup ((fun l : Loc => (key_load l.1.1 : Key)) <$> all)).

Definition loading (ls : list Loc) (c : Container) (s : Store) : Prop :=
  exists pre, pre ++ ls = all /\
    s = with_writers (writer_of s0 D <$> pre) s0 /\ c ≡ₚ imap entry_of pre.

Lemma load_key_ok body data a ls c s : loading ((body, data, a) :: ls) c s ->
  exists s' c', load_key (key_load body) data a c s = (s', Ret c') /\ file s' = file s /\ loading ls c' s'.
Proof.
  intros (pre & Hall & -> & Hc). set (l := (body, data, a)) in *.
  destruct (HD l) as (Hch & Hne & Hnd); [rewrite <- Hall; set_solver|]. cbn in Hch, Hne, Hnd.
  set (s := with_writers _ s0).
  assert (Hws' : wf_store s) by easy.
  assert (Hch' : chain s data (D data)) by now apply (chain_frame s0).
  assert (Hi : inside s data) by (destruct (D data); [easy|]; cbn in Hch; unfold inside; cbn; lia).
  assert (Hkn : key_load body ∉ c.*1).
  { intros Hin. rewrite Hc in Hin. apply list_elem_of_fmap in Hin as ([k v] & Hk & Hin).
    apply list_elem_of_lookup in Hin as [i Hi']. rewrite list_lookup_imap in Hi'.
    apply fmap_Some in Hi' as (l' & Hl' & [= -> ->]). cbn in Hk.
    rewrite <- Hall, fmap_app in Hkeys. cbn in Hkeys. apply NoDup_app in Hkeys as (_ & Hk2 & _).
    apply (Hk2 (key_load l'.1.1)); [|rewrite <- Hk; set_solver].
    apply list_elem_of_fmap. exists l'. split; [easy|]. apply list_elem_of_lookup. eauto. }
  assert (Hlen : (length (D data) <= S (Z.to_nat (nblocks (file s))))%nat).
  { apply Nat.le_trans with (Z.to_nat (nblocks (file s))); [|lia]. apply nodup_count; [easy|].
    intros x Hx. apply (chain_range _ _ _ _ Hch') in Hx. lia. }
  eexists (with_writers (writer_of s0 D <$> pre ++ [l]) s0), _. split; [|split; [easy|]].
  - unfold load_key. apply try_ok.
    rewrite (bind_ok _ _ _ _ _ (get_block_in s data Hws' Hi)), (bind_ok _ _ s s _ eq_refl).
    assert (Hcount : count_data (S (Z.to_nat (nblocks (file s)))) (Some data) 0 s =
      (s, Ret (Z.of_nat (length (chain_data s (D data)))))).
    { rewrite <- (ptr_some s data (D data)) by easy. now rewrite (count_data_ok (D data)). }
    rewrite (bind_ok _ _ _ _ _ Hcount). rewrite (bind_ok _ _ s (with_writers (writer_of s0 D <$> pre ++ [l]) s0) (length pre)).
    + reflexivity.
    + rewrite new_writer_ok by (unfold inside in Hi; destruct (D data); [easy|]; cbn in Hch; lia). rewrite fmap_app. cbn. now rewrite length_fmap.
  - exists (pre ++ [l]). split; [now rewrite <- app_assoc|]. split; [easy|].
    rewrite container_insert_perm by easy. rewrite imap_app, Hc, Permutation_cons_append. cbn.
    now rewrite Nat.add_0_r.
Qed.
End Loading.

(** ** The blocks that stay in use *)

Lemma chain_det s l : forall b l', chain s b l -> chain s b l' -> l = l'.
Proof.
  induction l as [|x l IH]; intros b [|y l']; cbn.
  - easy.
  - intros -> (? & ? & _). lia.
  - intros (-> & ? & _) ?. lia.
  - intros (-> & _ & H1) (<- & _ & H2). f_equal. now apply (IH _ _ H1).
Qed.

(** The blocks of writers that no key has any more are lost, not free. *)
Lemma store_ok_sub s F L X : store_ok s F (L ++ X) -> store_ok s F L.
Proof.
  intros [[] Hsync]. split; [|easy]. split; try easy.
  - rewrite app_assoc in ok_nodup. now apply NoDup_app in ok_nodup.
  - intros x Hx. apply ok_range. set_solver.
Qed.

(** The blocks of each key, by its place in the file. *)
Definition blocks_of (s : Store) (n : nat) (D : nat -> list Z) (z : Z) : list Z :=
  match list_find (fun w => first_of s w = z) (seq 0 n) with
  | Some (_, w) => D w
  | None => []
  end.

Lemma blocks_of_first s n D w : (w < n)%nat ->
  (forall i, (i < n)%nat -> chain s (first_of s i) (D i)) -> blocks_of s n D (first_of s w) = D w.
Proof.
  intros Hw HD. unfold blocks_of.
  destruct (list_find (fun i => first_of s i = first_of s w) (seq 0 n)) as [[i w']|] eqn:E.
  - apply list_find_Some in E as (Hi & Hf & _). apply lookup_seq in Hi as [-> Hi]. cbn in *.
    apply (chain_det s _ (first_of s w)); [rewrite <- Hf|]; apply HD; lia.
  - apply list_find_None in E. rewrite Forall_forall in E. exfalso. apply (E w); [apply in_seq; lia|easy].
Qed.

Definition by_place (D : Z -> list Z) (all : list Loc) (i : nat) : list Z :=
  match all !! i with Some l => D l.1.2 | None => [] end.

Lemma data_by_place D all : data_blocks (length all) (by_place D all) = all ≫= (fun l => D l.1.2).
Proof.
  unfold data_blocks, by_place. induction all as [|l all IH] using rev_ind; [easy|].
  rewrite length_app, Nat.add_1_r, seq_S, !bind_app. cbn. rewrite list_lookup_middle by easy. f_equal.
  rewrite <- IH. apply bind_ext_in. intros i Hi. apply in_seq in Hi. now rewrite lookup_app_l by apply Hi.
Qed.

(** ** Loading *)

(** The store when the keys are loaded: what the constructors of the allocator
    and of the index take from the file. *)
Definition opened (s : Store) : Store :=
  mkStore (file s) DESCRIPTION (first_free_block s) KEYS_DESCRIPTION (first_keys_block s) [].

Lemma load_head_ok s : wf_store s -> 3 <= nblocks (file s) -> header_ok s ->
  load_head_ s = (s, Ret (DESCRIPTION, KEYS_DESCRIPTION)).
Proof.
  intros Hw Hn (Hu & H1 & H2). unfold load_head_. apply try_ok.
  assert (Hi : inside s 0) by (unfold inside; lia).
  pose proof (content_ge s 0 Hw). pose proof avail_range.
  rewrite (bind_ok _ _ _ _ _ (get_size_in s 0 Hi)), Hu.
  change (FILE_HEADER_SIZE <? FILE_HEADER_SIZE) with false. cbv iota.
  assert (Hget : forall o v, 0 <= o <= 8 -> field (block_at s 0) o = v -> get_field 0 o s = (s, Ret v)).
  { intros o v Ho <-. apply get_field_in; [easy|lia|lia]. }
  rewrite (bind_ok _ _ _ _ _ (Hget FH_FIRST_ALLOCATOR_DESC_BLOCK _ ltac:(easy) H1)).
  now rewrite (bind_ok _ _ _ _ _ (Hget FH_FIRST_INDEX_DESC_BLOCK _ ltac:(easy) H2)).
Qed.

Lemma field_start s i : wf_store s -> inside s i -> get_field i 0 s = (s, Ret (field (block_at s i) 0)).
Proof.
  intros Hw Hi. pose proof (content_ge s i Hw). pose proof avail_range. apply get_field_in; [easy|lia|lia].
Qed.

Lemma new_allocator_ok s a b c d e : wf_store s -> 3 <= nblocks (file s) ->
  new_allocator DESCRIPTION (mkStore (file s) a b c d e) =
  (mkStore (file s) DESCRIPTION (field (block_at s DESCRIPTION) 0) c d e, Ret tt).
Proof.
  intros Hw Hn. unfold new_allocator. set (s' := mkStore (file s) a b c d e).
  assert (Hi : inside s' DESCRIPTION) by (unfold inside, DESCRIPTION; cbn; lia).
  assert (Hw' : wf_store s') by now apply (wf_store_file s).
  rewrite (bind_ok _ _ _ _ _ (get_block_in s' DESCRIPTION Hw' Hi)).
  now rewrite (bind_ok _ _ _ _ _ (field_start s' DESCRIPTION Hw' Hi)).
Qed.

(** A file that has a block of keys. *)
Lemma new_strategy_ok s a b c d e k : wf_store s -> 3 <= nblocks (file s) ->
  field (block_at s KEYS_DESCRIPTION) 0 = k -> 0 < k < nblocks (file s) ->
  new_strategy KEYS_DESCRIPTION (mkStore (file s) a b c d e) =
  (mkStore (file s) a b KEYS_DESCRIPTION k e, Ret tt).
Proof.
  intros Hw Hn Hk Hr. unfold new_strategy. apply try_ok. set (s' := mkStore (file s) a b c d e).
  assert (Hi : inside s' KEYS_DESCRIPTION) by (unfold inside, KEYS_DESCRIPTION; cbn; lia).
  assert (Hw' : wf_store s') by now apply (wf_store_file s).
  rewrite (bind_ok _ _ _ _ _ (get_block_in s' KEYS_DESCRIPTION Hw' Hi)).
  set (s2 := mkStore (file s) a b KEYS_DESCRIPTION d e).
  rewrite (bind_ok (modify _) _ s' s2 tt eq_refl).
  assert (Hw2 : wf_store s2) by now apply (wf_store_file s).
  assert (Hi2 : inside s2 KEYS_DESCRIPTION) by easy.
  assert (Hf : get_field KEYS_DESCRIPTION 0 s2 = (s2, Ret k)).
  { rewrite <- Hk. exact (field_start s2 KEYS_DESCRIPTION Hw2 Hi2). }
  rewrite (bind_ok _ _ _ _ _ Hf). destruct (Z.eqb_spec k 0); [lia|].
  assert (Hik : inside s2 k) by (unfold inside; cbn; lia).
  now rewrite (bind_ok _ _ _ _ _ (get_block_in s2 k Hw2 Hik)).
Qed.

Lemma live_keys s c K E : live K E ≡ₚ loc_of s <$> c ->
  (fun l : Loc => (key_load l.1.1 : Key)) <$> live K E ≡ₚ c.*1.
Proof.
  intros Hl. rewrite Hl, <- list_fmap_compose. erewrite list_fmap_ext; [reflexivity|].
  intros i p _. cbn. apply key_load_save.
Qed.

Lemma rep_chain s c files F K E D i : map_rep s c files F K E D -> (i < length (writers s))%nat ->
  chain s (first_of s i) (D i) /\ D i <> [].
Proof.
  intros [] Hi. destruct (lookup_lt_is_Some_2 _ _ Hi) as [p Hp].
  destruct (lookup_lt_is_Some_2 files i) as [d Hd]; [lia|].
  destruct (mr_writer i p d Hp Hd) as (Hc & Hne & _). unfold first_of. now rewrite Hp.
Qed.

(** The blocks of the data of a key. *)
Abbreviation key_data s D := (blocks_of s (length (writers s)) D).

Lemma rep_key_data s c files F K E D k v : map_rep s c files F K E D -> (k, v) ∈ c ->
  key_data s D (first_of s (second v)) = D (second v).
Proof.
  intros Hm Hin. apply blocks_of_first; [now apply (mr_range _ _ _ _ _ _ _ Hm) in Hin|].
  intros i Hi. now apply (rep_chain s c files F K E D).
Qed.

Lemma load_ok s c files F K E D : map_rep s c files F K E D ->
  exists c', load (mkStore (file s) 0 0 0 0 []) =
      (with_writers (writer_of s (key_data s D) <$> live K E) (opened s), Ret c') /\
    c' ≡ₚ imap entry_of (live K E).
Proof.
  intros Hm. pose proof Hm as []. pose proof (ok_wf _ _ _ (ok_pre _ _ _ mr_store)) as Hw.
  pose proof (ok_count _ _ _ (ok_pre _ _ _ mr_store)) as Hn. destruct mr_keys.
  set (s1 := mkStore (file s) 0 0 0 0 []). set (DD := key_data s D).
  assert (Hw1 : wf_store s1) by easy.
  assert (Hw0 : wf_store (opened s)) by now apply (wf_store_file s).
  assert (Hko : 0 < first_keys_block s < nblocks (file s)).
  { destruct K; [easy|]. cbn in ko_chain. destruct ko_chain as (-> & ? & _). lia. }
  assert (Hall : forall l, l ∈ live K E -> chain (opened s) l.1.2 (DD l.1.2) /\ DD l.1.2 <> [] /\ NoDup (DD l.1.2)).
  { intros l Hl. rewrite mr_index in Hl. apply list_elem_of_fmap in Hl as ([k v] & -> & Hl). cbn.
    unfold DD. rewrite (rep_key_data s c files F K E D k v) by easy. apply mr_range in Hl.
    destruct (rep_chain s c files F K E D _ Hm Hl) as [Hc Hne]. split; [now apply (chain_file s)|]. split; [easy|].
    pose proof (use_nodup _ _ _ mr_store) as Hnd. destruct (data_blocks_at _ D _ Hl) as (R & _ & HR & _).
    rewrite HR in Hnd. apply NoDup_app in Hnd as (_ & _ & Hnd). now apply NoDup_app in Hnd. }
  assert (Hkeys : NoDup ((fun l : Loc => (key_load l.1.1 : Key)) <$> live K E)) by now rewrite (live_keys s c).
  destruct (load_chain_ok load_key (loading (opened s) DD (live K E))
    (load_key_ok (opened s) DD (live K E) Hw0 Hall Hkeys) K E (S (Z.to_nat (nblocks (file s))))
    (opened s) [] (first_keys_block s)) as (s2 & c2 & Hrun & Hf & pre & Hpre & -> & Hc);
    [exact Hw0|now apply (chain_file s)|now apply (holds_all_frame s)| |now exists []|].
  - pose proof (nodup_count s K) as Hnk. apply Nat.le_trans with (Z.to_nat (nblocks (file s))); [|lia].
    apply Hnk; [|intros x Hx; apply (chain_range _ _ _ _ ko_chain) in Hx; lia].
    pose proof (use_nodup _ _ _ mr_store) as Hnd. now apply NoDup_app in Hnd.
  - rewrite app_nil_r in Hpre. subst pre. exists c2. split; [|easy]. unfold load.
    rewrite (bind_ok max_block_index _ s1 s1 (nblocks (file s)))
      by (unfold max_block_index, member; cbn; now rewrite size_file_eq).
    destruct (Z.eqb_spec (nblocks (file s)) 0); [lia|].
    rewrite (bind_ok _ _ s1 s1 _ (load_head_ok s1 Hw1 Hn mr_header)). cbv beta iota.
    rewrite (bind_ok _ _ s1 _ _ (new_allocator_ok s 0 0 0 0 [] Hw Hn)), (ok_synced _ _ _ mr_store).
    rewrite (bind_ok _ _ _ _ _ (new_strategy_ok s _ _ _ _ _ _ Hw Hn ko_synced Hko)).
    unfold strategy_load. change (mkStore _ _ _ _ _ _) with (opened s).
    rewrite (bind_ok _ _ (opened s) (opened s) _ eq_refl), (bind_ok _ _ (opened s) (opened s) _ eq_refl).
    apply try_ok.
    rewrite (ptr_some _ _ _ ko_chain ko_some) in Hrun. exact Hrun.
Qed.

(** ** The map of the file that was opened *)

Lemma imap_index {A} (l : list A) : imap (fun i _ => i) l = seq 0 (length l).
Proof.
  induction l as [|x l IH] using rev_ind; [easy|]. rewrite imap_app, IH, length_app, Nat.add_1_r, seq_S. cbn.
  now rewrite Nat.add_0_r.
Qed.

Lemma imap_id {A} (f : nat -> A -> A) l : (forall i x, l !! i = Some x -> f i x = x) -> imap f l = l.
Proof.
  intros Hf. apply list_eq. intros i. rewrite list_lookup_imap. destruct (l !! i) as [x|] eqn:E; [|easy].
  cbn. f_equal. now apply Hf.
Qed.

Lemma bind_fmap {A B C} (f : A -> B) (g : B -> list C) l : (f <$> l) ≫= g = l ≫= (fun x => g (f x)).
Proof. induction l as [|x l IH]; [easy|]. cbn. now rewrite IH. Qed.

(** The blocks of the keys are among those of the writers. *)
Lemma key_blocks s c files F K E D : map_rep s c files F K E D ->
  exists X, data_blocks (length (writers s)) D ≡ₚ (live K E ≫= (fun l => key_data s D l.1.2)) ++ X.
Proof.
  intros Hm. pose proof Hm as []. set (n := length (writers s)) in *.
  assert (Hsub : second <$> c.*2 ⊆+ seq 0 n).
  { apply NoDup_submseteq; [easy|]. intros w Hin. apply list_elem_of_fmap in Hin as (v & -> & Hin).
    apply list_elem_of_fmap in Hin as ([k v2] & -> & Hin). apply mr_range in Hin. apply in_seq. cbn. lia. }
  apply submseteq_Permutation in Hsub as [ks Hks]. exists (ks ≫= D).
  unfold data_blocks. rewrite Hks, bind_app. apply Permutation_app_tail.
  rewrite mr_index, !bind_fmap. erewrite bind_ext_in; [reflexivity|]. intros [k v] Hin. cbn.
  symmetry. now apply (rep_key_data s c files F K E D k).
Qed.

Lemma loc_of_entry s c K E s2 i l : live K E ≡ₚ loc_of s <$> c -> live K E !! i = Some l ->
  first_of s2 i = l.1.2 -> loc_of s2 (entry_of i l) = l.
Proof.
  intros Hl Hi Hf. apply list_elem_of_lookup_2 in Hi. rewrite Hl in Hi.
  apply list_elem_of_fmap in Hi as ([k v] & -> & _). unfold loc_of in *. cbn in *.
  now rewrite Hf, key_load_save.
Qed.

Lemma entry_keys (l : list Loc) : (imap entry_of l).*1 = (fun l : Loc => (key_load l.1.1 : Key)) <$> l.
Proof.
  apply list_eq. intros i. rewrite !list_lookup_fmap, list_lookup_imap. now destruct (l !! i).
Qed.

Lemma entry_second (l : list Loc) : second <$> (imap entry_of l).*2 = seq 0 (length l).
Proof. rewrite <- imap_index, !fmap_imap. now apply imap_ext. Qed.

(** What is known of the data, once the file has been read. *)
Definition read_files (s : Store) (D : nat -> list Z) (all : list Loc) : list (option (list Z)) :=
  (fun l : Loc => Some (chain_data s (key_data s D l.1.2))) <$> all.

Lemma opened_rep s c files F K E D c' : map_rep s c files F K E D -> c' ≡ₚ imap entry_of (live K E) ->
  map_rep (with_writers (writer_of s (key_data s D) <$> live K E) (opened s)) c'
    (read_files s D (live K E)) F K E (by_place (key_data s D) (live K E)).
Proof.
  intros Hm Hc. pose proof Hm as []. set (all := live K E) in *. set (s2 := with_writers _ _).
  assert (Hn : length (writers s2) = length all) by (unfold s2; cbn; apply length_fmap).
  assert (Hfirst : forall i l, all !! i = Some l -> first_of s2 i = l.1.2).
  { intros i l Hi. unfold first_of, s2. cbn. now rewrite list_lookup_fmap, Hi. }
  assert (Hloc : loc_of s2 <$> imap entry_of all = all).
  { rewrite fmap_imap. apply imap_id. intros i l Hi. cbn. apply (loc_of_entry s c K E); auto. }
  destruct (key_blocks s c files F K E D Hm) as [X HX]. fold all in HX.
  assert (Hs2 : store_ok s2 F (K ++ data_blocks (length all) (by_place (key_data s D) all))).
  { apply (store_ok_sub s2 F _ X). rewrite data_by_place, <- app_assoc, <- HX.
    destruct mr_store as [[] ?]. split; [|easy]. split; try easy. now apply (chain_file s). }
  split.
  - now rewrite Hn.
  - destruct mr_keys. split; try easy. now apply (chain_file s).
  - easy.
  - unfold read_files. now rewrite Hn, length_fmap.
  - intros i p d Hp Hd.
    change (writers s2) with (writer_of s (key_data s D) <$> all) in Hp.
    unfold read_files in Hd. rewrite list_lookup_fmap in Hp. rewrite list_lookup_fmap in Hd.
    destruct (all !! i) as [l|] eqn:Hi; [|easy]. injection Hp as <-. injection Hd as <-.
    apply list_elem_of_lookup_2 in Hi as Hl. rewrite mr_index in Hl.
    apply list_elem_of_fmap in Hl as ([k v] & -> & Hl).
    unfold writer_ok, by_place. rewrite Hi. cbn. rewrite (rep_key_data s c files F K E D k v) by easy.
    apply mr_range in Hl. destruct (rep_chain s c files F K E D _ Hm Hl) as [Hch Hne].
    split; [now apply (chain_file s)|]. split; [easy|]. now intros v' [= <-].
  - now rewrite Hc, Hloc.
  - rewrite Hc, entry_keys. unfold all. now rewrite (live_keys s c).
  - rewrite Hc, entry_second. apply NoDup_seq.
  - intros k v. rewrite Hc, Hn. intros Hin. apply list_elem_of_lookup in Hin as [i Hin].
    rewrite list_lookup_imap in Hin. apply fmap_Some in Hin as (l & Hi & [= -> ->]). cbn.
    now apply lookup_lt_Some in Hi.
Qed.

(** ** Closing and opening *)

(** A key is in the map, and [d] is what is known of its data. *)
Definition known (c : Container) (files : list (option (list Z))) (k : Key) (d : option (list Z)) : Prop :=
  exists v, (k, v) ∈ c /\ forall b, d = Some b -> files !! second v = Some (Some b).

Lemma map_rep_leaves s s' c files F K E D : map_rep s c files F K E D ->
  store_ok s' F (K ++ data_blocks (length (writers s)) D) -> leaves (fun x => x <> DESCRIPTION) s s' ->
  map_rep s' c files F K E D.
Proof.
  intros [] Hs' Hl. pose proof (lv_writers _ _ _ Hl) as Hws.
  assert (Huse : forall x, x ∈ K ++ data_blocks (length (writers s)) D -> x <> DESCRIPTION).
  { intros x Hx. pose proof (ok_range _ _ _ (ok_pre _ _ _ mr_store) x ltac:(set_solver)).
    unfold DESCRIPTION. lia. }
  split; rewrite ?Hws; try easy.
  - apply (keys_ok_leaves s); [|easy]. eapply leaves_weaken; [|exact Hl].
    intros x [Hx| ->]; [apply Huse; set_solver|easy].
  - apply (header_ok_frame s); [|easy]. now apply (lv_blocks _ _ _ Hl).
  - intros w p d Hp Hd. apply (writer_ok_frame s); [apply (lv_count _ _ _ Hl)| |auto].
    intros x Hx. apply (lv_blocks _ _ _ Hl), Huse. apply lookup_lt_Some in Hp.
    pose proof (data_blocks_in _ D w x Hp Hx). set_solver.
  - rewrite (loc_of_first s s'); [easy|]. intros. unfold first_of. now rewrite Hws.
Qed.

Lemma opened_keys s c files F K E D c' : map_rep s c files F K E D -> c' ≡ₚ imap entry_of (live K E) -> c'.*1 ≡ₚ c.*1.
Proof. intros Hm ->. rewrite entry_keys. apply (live_keys s), Hm. Qed.

Lemma opened_known s c files F K E D c' k d : map_rep s c files F K E D -> c' ≡ₚ imap entry_of (live K E) ->
  known c files k d -> known c' (read_files s D (live K E)) k d.
Proof.
  intros Hm Hc' (v & Hv & Hd). pose proof Hm as [].
  assert (Hin : loc_of s (k, v) ∈ live K E) by (rewrite mr_index; now apply (list_elem_of_fmap_2 (loc_of s))).
  apply list_elem_of_lookup in Hin as [i Hi]. exists (mkValue i (addition v)). split.
  - rewrite Hc'. apply list_elem_of_lookup. exists i.
    rewrite list_lookup_imap, Hi. cbn. unfold entry_of. cbn. now rewrite key_load_save.
  - intros b Hb. specialize (Hd b Hb). unfold read_files. cbn. rewrite list_lookup_fmap, Hi. cbn.
    rewrite (rep_key_data s c files F K E D k v) by easy.
    destruct (lookup_lt_is_Some_2 _ _ (mr_range _ _ Hv)) as [p Hp].
    destruct (mr_writer _ p _ Hp Hd) as (_ & _ & Hdata). now rewrite (proj1 (Hdata b eq_refl)).
Qed.

Lemma close_ok (m : Map) files F K E D : map_rep (store m) (index_container m) files F K E D ->
  exists s, close m = (file s, Ret tt) /\ map_rep s (index_container m) files F K E D /\
    nblocks (file s) = nblocks (file (store m)).
Proof.
  destruct m as [s0 c]. cbn [store index_container]. intros Hm0.
  pose proof (mr_store _ _ _ _ _ _ _ Hm0) as Hs0. pose proof (ok_pre _ _ _ Hs0) as [].
  destruct (sync_ok s0 ok_wf ok_count ok_description (chain_head _ _ _ ok_wf ok_free))
    as (s & Hsync & Hw & Hn & Hl & Hfree & Hfield).
  assert (Hs : store_ok s F (K ++ data_blocks (length (writers s0)) D)).
  { split; [|now rewrite Hfree, Hfield]. split; try easy; rewrite ?Hn; try easy.
    - now rewrite (lv_description _ _ _ Hl).
    - rewrite Hfree. apply (chain_frame s0); [lia| |easy]. intros x Hx. apply (lv_blocks _ _ _ Hl).
      specialize (ok_range x ltac:(set_solver)). unfold DESCRIPTION. lia. }
  exists s. unfold close. cbn. rewrite Hsync. split; [easy|]. split; [|easy]. now apply (map_rep_leaves s0).
Qed.

(** A file that is closed and opened again has the keys and the data of the map. *)
Lemma reopen_ok (m : Map) files : map_ok m files ->
  exists m' files', snd (open_map (fst (close m))) = Ret m' /\ snd (close m) = Ret tt /\ map_ok m' files' /\
    nblocks (file (store m')) = nblocks (file (store m)) /\
    (index_container m').*1 ≡ₚ (index_container m).*1 /\
    forall k d, known (index_container m) files k d -> known (index_container m') files' k d.
Proof.
  intros (F & K & E & D & Hm0). destruct (close_ok m files F K E D Hm0) as (s & Hclose & Hm & Hn).
  destruct (load_ok s _ files F K E D Hm) as (c' & Hload & Hc').
  pose proof (opened_rep s _ files F K E D c' Hm Hc') as Hrep. set (s2 := with_writers _ _) in *.
  exists (mkMap s2 c'), (read_files s D (live K E)). rewrite Hclose. cbn [fst snd].
  split; [unfold open_map; now rewrite Hload|]. split; [easy|].
  split; [now exists F, K, E, (by_place (key_data s D) (live K E))|]. split; [easy|].
  split; [now apply (opened_keys s _ files F K E D)|]. intros k d. now apply (opened_known s _ files F K E D).
Qed.
End Open.
