(* ===== verification/PlainMapNew.v ===== *)
(** * PlainMapNew: a map in an empty file *)

From Stdlib Require Import ZArith List Bool Lia.
From stdpp Require Import base list gmap fin_maps.
From S2P Require Import Prelude BlockFile BlockStore BlockRep StoreLogic BlockData KeyIndex KeyRep KeyLoad PlainMap PlainMapRep PlainMapOpen.
Open Scope Z_scope.

Section New.
Context {disk : Disk} {Hdisk : DiskOk} {Key : Type} {KA : KeyAccessor Key} {KAok : KeyAccessorOk Key}.

(** ** The head of the file *)

Definition empty_store : Store := mkStore (mkFile 0 ∅) 0 0 0 0 [].

(** One block has been changed. *)
Record changed (i : Z) (s s' : Store) : Prop := {
  ch_wf : wf_store s';
  ch_count : nblocks (file s') = nblocks (file s);
  ch_members : same_members s s';
  ch_others : forall x, x <> i -> block_at s' x = block_at s x }.

Lemma changed_upd s i f : wf_store s -> inside s i -> wf_block (f (block_at s i)) -> changed i s (upd i f s).
Proof.
  intros Hw Hi Hb. split; [now apply wf_upd|easy|easy|]. intros x Hx. now apply block_at_upd_ne.
Qed.

Lemma changed_trans i s s1 s2 : changed i s s1 -> changed i s1 s2 -> changed i s s2.
Proof.
  intros [] []. split; [easy|congruence| |].
  - unfold same_members in *. intuition congruence.
  - intros x Hx. now rewrite ch_others1, ch_others0.
Qed.

Lemma changed_inside i j s s' : changed i s s' -> inside s j -> inside s' j.
Proof. intros []. unfold inside. now rewrite ch_count0. Qed.

Lemma size_step s i v : wf_store s -> inside s i -> 0 <= v <= avail ->
  exists s', set_size i v s = (s', Ret tt) /\ changed i s s' /\ block_at s' i = with_used v (block_at s i).
Proof.
  intros Hw Hi Hv. eexists. split; [now apply set_size_in|]. split; [|apply block_at_upd].
  apply changed_upd; [easy..|]. apply wf_with_used; [easy|now apply wf_at].
Qed.

Lemma link_step s i v : wf_store s -> inside s i ->
  exists s', set_next_index i v s = (s', Ret tt) /\ changed i s s' /\ block_at s' i = with_next v (block_at s i).
Proof.
  intros Hw Hi. eexists. split; [now apply set_next_index_in|]. split; [|apply block_at_upd].
  apply changed_upd; [easy..|]. now apply wf_at.
Qed.

Lemma field_step s i off v : wf_store s -> inside s i -> 0 <= off <= 8 -> 0 <= v < 2 ^ 32 ->
  exists s', set_field i off v s = (s', Ret tt) /\ changed i s s' /\
    field (block_at s' i) off = v /\ used (block_at s' i) = used (block_at s i) /\
    (forall o, o + 4 = off -> 0 <= o -> field (block_at s' i) o = field (block_at s i) o).
Proof.
  intros Hw Hi Ho Hv. pose proof (content_ge s i Hw). pose proof avail_range.
  eexists. split; [apply set_field_in; [easy|lia|lia]|]. rewrite block_at_upd. split; [|split; [|split; [easy|]]].
  - apply changed_upd; [easy..|]. apply wf_splice; [cbn; lia|lia|now apply wf_at].
  - apply field_set; lia.
  - intros o H1 H2. unfold field. cbn [with_content content]. rewrite slice_splice_before; [easy|lia|cbn; lia].
Qed.

(** The three blocks of the head. *)
Lemma descr_step s i : wf_store s -> inside s i ->
  exists s', (forall {A} (k : M A), (set_size i 4;; set_field i 0 0;; k) s = k s') /\ changed i s s' /\
    field (block_at s' i) 0 = 0.
Proof.
  intros Hw Hi. pose proof avail_range.
  destruct (size_step s i 4 Hw Hi ltac:(lia)) as (s1 & H1 & C1 & _).
  destruct (field_step s1 i 0 0 (ch_wf _ _ _ C1) (changed_inside _ _ _ _ C1 Hi) ltac:(lia) ltac:(lia))
    as (s2 & H2 & C2 & F2 & _). exists s2. split; [|split; [now apply (changed_trans i s s1)|easy]].
  intros A k. now rewrite (bind_ok _ _ _ _ _ H1), (bind_ok _ _ _ _ _ H2).
Qed.

Lemma head_step s : wf_store s -> inside s 0 ->
  exists s', (forall {A} (k : M A),
      (set_next_index 0 0;; set_size 0 FILE_HEADER_SIZE;;
       set_field 0 FH_FIRST_ALLOCATOR_DESC_BLOCK 1;; set_field 0 FH_FIRST_INDEX_DESC_BLOCK 2;; k) s = k s') /\
    changed 0 s s' /\ header_ok s'.
Proof.
  intros Hw Hi. pose proof avail_range. unfold FILE_HEADER_SIZE, FH_FIRST_ALLOCATOR_DESC_BLOCK, FH_FIRST_INDEX_DESC_BLOCK.
  destruct (link_step s 0 0 Hw Hi) as (s1 & H1 & C1 & _).
  destruct (size_step s1 0 12 (ch_wf _ _ _ C1) (changed_inside _ _ _ _ C1 Hi) ltac:(lia)) as (s2 & H2 & C2 & B2).
  pose proof (changed_trans _ _ _ _ C1 C2) as D2.
  destruct (field_step s2 0 4 1 (ch_wf _ _ _ D2) (changed_inside _ _ _ _ D2 Hi) ltac:(lia) ltac:(lia))
    as (s3 & H3 & C3 & F3 & U3 & _). pose proof (changed_trans _ _ _ _ D2 C3) as D3.
  destruct (field_step s3 0 8 2 (ch_wf _ _ _ D3) (changed_inside _ _ _ _ D3 Hi) ltac:(lia) ltac:(lia))
    as (s4 & H4 & C4 & F4 & U4 & P4). exists s4. split; [|split; [now apply (changed_trans 0 s s3)|]].
  - intros A k. now rewrite (bind_ok _ _ _ _ _ H1), (bind_ok _ _ _ _ _ H2), (bind_ok _ _ _ _ _ H3), (bind_ok _ _ _ _ _ H4).
  - split; [now rewrite U4, U3, B2|]. split; [|exact F4]. unfold FH_FIRST_ALLOCATOR_DESC_BLOCK.
    rewrite P4 by lia. exact F3.
Qed.

Lemma create_head_ok : 14 <= capacity ->
  exists s, create_head_ empty_store = (s, Ret (DESCRIPTION, KEYS_DESCRIPTION)) /\ wf_store s /\
    nblocks (file s) = 3 /\ writers s = [] /\ header_ok s /\
    field (block_at s DESCRIPTION) 0 = 0 /\ field (block_at s KEYS_DESCRIPTION) 0 = 0.
Proof.
  intros Hcap. assert (Hw0 : wf_store empty_store) by (split; [cbn; lia|intros i b; cbn; now rewrite lookup_empty]).
  destruct (get_block_new empty_store 2 Hw0 ltac:(cbn; lia)) as (a & Ha & Wa & Na & Ma & _).
  destruct (descr_step a 2 Wa ltac:(unfold inside; lia)) as (b & Hb & [Wb Nb Mb Ob] & Fb).
  assert (Ib : inside b 1) by (unfold inside; lia).
  destruct (link_step b 1 0 Wb Ib) as (c & Hc & [Wc Nc Mc Oc] & _).
  destruct (descr_step c 1 Wc ltac:(unfold inside; lia)) as (d & Hd & [Wd Nd Md Od] & Fd).
  assert (Id : inside d 0) by (unfold inside; lia).
  destruct (head_step d Wd Id) as (e & He & [We Ne Me Oe] & Fe).
  exists e. split; [|split; [easy|split; [lia|split; [|split; [easy|]]]]].
  - unfold create_head_. apply try_ok. rewrite (bind_ok _ _ _ _ _ Ha), Hb.
    rewrite (bind_ok _ _ _ _ _ (get_block_in b 1 Wb Ib)), (bind_ok _ _ _ _ _ Hc), Hd.
    rewrite (bind_ok _ _ _ _ _ (get_block_in d 0 Wd Id)), He. reflexivity.
  - unfold same_members in *. cbn in Ma. intuition congruence.
  - unfold DESCRIPTION, KEYS_DESCRIPTION. rewrite !Oe by lia. split; [exact Fd|]. now rewrite Od, Oc by lia.
Qed.

(** ** The first block of keys *)

Lemma first_keys s : wf_store s -> nblocks (file s) = 3 -> 14 <= capacity ->
  allocator_description s = DESCRIPTION -> first_free_block s = 0 -> field (block_at s DESCRIPTION) 0 = 0 ->
  header_ok s -> field (block_at s KEYS_DESCRIPTION) 0 = 0 -> writers s = [] ->
  exists s' b F, new_strategy KEYS_DESCRIPTION s = (s', Ret tt) /\ nblocks (file s') <= 14 /\
    map_rep s' [] [] F [b] [[]] (fun _ => []) /\ 0 < b.
Proof.
  intros Hw Hn Hcap Hdesc Hfree Hsync Hhead Hkeys Hws. pose proof capacity_range.
  set (s1 := mkStore (file s) (allocator_description s) (first_free_block s) KEYS_DESCRIPTION (first_keys_block s) (writers s)).
  assert (Hs1 : store_ok s1 [] []).
  { split; [|exact (eq_trans Hsync (eq_sym Hfree))]. split; try easy; [cbn; lia|constructor]. }
  destruct (allocate_ok s1 [] [] Hs1 ltac:(cbn; lia)) as (s2 & b & F & Hal & _ & Hs2 & Hb & Hl & Hn2).
  pose proof (in_use_range _ _ _ b Hs2 ltac:(set_solver)) as Hbr. pose proof (ok_wf _ _ _ (ok_pre _ _ _ Hs2)) as Hw2.
  assert (Hclean : used (block_at s2 b) = 0).
  { assert (Hc1 : clean s1).
    { intros x Hx. rewrite beyond_zero; [easy|exact Hw|cbn; lia]. }
    pose proof (clean_allocate s1 Hc1) as Hc2. rewrite Hal in Hc2. apply Hc2. lia. }
  destruct (strategy_sync_ok (with_keys b s2) F [b]) as (s3 & Hsy & Hs3 & Hl3 & Hn3 & Hf3).
  { now apply store_ok_keys. }
  { cbn. now rewrite (lv_descr _ _ _ Hl). }
  { pose proof (proj1 Hw2). cbn. lia. }
  exists s3, b, F. split; [|split; [rewrite Hn3; cbn in *; lia|split; [|lia]]].
  - unfold new_strategy. apply try_ok.
    assert (Hi : inside s KEYS_DESCRIPTION) by (unfold inside, KEYS_DESCRIPTION; lia).
    assert (Hib : inside s2 b) by (unfold inside; lia).
    rewrite (bind_ok _ _ _ _ _ (get_block_in s KEYS_DESCRIPTION Hw Hi)).
    rewrite (bind_ok (modify (fun s => mkStore (file s) (allocator_description s) (first_free_block s)
      KEYS_DESCRIPTION (first_keys_block s) (writers s))) _ s s1 tt eq_refl).
    rewrite (bind_ok _ _ s1 s1 _ (field_start s1 KEYS_DESCRIPTION Hw Hi)).
    change (block_at s1 KEYS_DESCRIPTION) with (block_at s KEYS_DESCRIPTION). rewrite Hkeys. cbn [Z.eqb].
    rewrite (bind_ok _ _ _ _ _ Hal), (bind_ok _ _ _ _ _ (get_block_in s2 b Hw2 Hib)).
    now rewrite (bind_ok (modify (with_keys b)) _ s2 (with_keys b s2) tt eq_refl).
  - assert (Hb3 : block_at s3 b = block_at s2 b).
    { apply (lv_blocks _ _ _ Hl3). unfold KEYS_DESCRIPTION. lia. }
    assert (Hws3 : writers s3 = []) by (rewrite (lv_writers _ _ _ Hl3); cbn; now rewrite (lv_writers _ _ _ Hl)).
    assert (Hhead3 : header_ok s3).
    { apply (header_ok_frame s); [|easy]. rewrite (lv_blocks _ _ _ Hl3) by easy.
      apply (lv_blocks _ _ _ Hl). split; [easy|]. split; [set_solver|cbn; lia]. }
    assert (Hkeys3 : keys_ok s3 [b] [[]]).
    { split; [|easy| | |repeat constructor; unfold block_data; now rewrite Hb3, Hclean].
      - rewrite (lv_keys _ _ _ Hl3). cbn. split; [easy|]. rewrite Hb3, Hb. split; [|easy].
        pose proof (lv_count _ _ _ Hl3). cbn in *. lia.
      - rewrite (lv_descr _ _ _ Hl3). cbn. now rewrite (lv_descr _ _ _ Hl).
      - now rewrite Hf3, (lv_keys _ _ _ Hl3). }
    split; rewrite ?Hws3; try easy; try constructor.
Qed.

(** The map of an empty file. *)
Lemma new_map_ok : 14 <= capacity -> exists f m, open_map (mkFile 0 ∅) = (f, Ret m) /\ map_ok m [] /\
  index_container m = [] /\ nblocks (file (store m)) <= 14.
Proof.
  intros Hcap. pose proof (create_head_ok Hcap) as (s & Hs & Hw & Hn & Hws & Hh & H1 & H2).
  destruct s as [f a b c d e]. cbn in Hn, Hws. subst e. set (s := mkStore f a b c d []) in *.
  destruct (first_keys (mkStore f DESCRIPTION 0 c d [])) as (s' & x & F & Hrun & Hn' & Hrep & Hx); try easy.
  assert (Hload : load empty_store = (s', Ret [])).
  { unfold load. rewrite (bind_ok _ _ empty_store empty_store 0 eq_refl). cbn [Z.eqb].
    rewrite (bind_ok _ _ _ _ _ Hs). cbv beta iota.
    assert (Hn3 : 3 <= nblocks (file s)) by (cbn; lia).
    rewrite (bind_ok _ _ _ _ _ (new_allocator_ok s a b c d [] Hw Hn3)), H1.
    rewrite (bind_ok _ _ _ _ _ Hrun). unfold strategy_load.
    rewrite (bind_ok _ _ s' s' _ eq_refl), (bind_ok _ _ s' s' _ eq_refl). apply try_ok.
    pose proof (mr_keys _ _ _ _ _ _ _ Hrep) as [Hc _ _ _ Hh']. 
    pose proof (ok_wf _ _ _ (ok_pre _ _ _ (mr_store _ _ _ _ _ _ _ Hrep))) as Hw'.
    rewrite <- (ptr_some s' _ [x] Hc) by easy.
    destruct (load_chain_ok load_key (fun ls c2 s2 => ls = [] /\ c2 = [] /\ s2 = s')
      ltac:(intros ? ? ? ? ? ? [[=] _]) [x] [[]] (S (Z.to_nat (nblocks (file s')))) s' [] (first_keys_block s'))
      as (s2 & c2 & Hl & _ & _ & -> & ->); try easy. cbn; lia. }
  exists (file s'), (mkMap s' []). split; [|split; [now exists F, [x], [[]], (fun _ => [])|split; [easy|exact Hn']]].
  unfold open_map. change (mkStore _ _ _ _ _ _) with empty_store. now rewrite Hload.
Qed.
End New.
