(* ===== verification/PlainMapSpec.v ===== *)
(** * PlainMapSpec: what a client may rely on, and that the map implements it

    The specification of a script: a list of the keys, each with the octets that
    were written last.  A file that is closed and opened again is no event. *)

From Stdlib Require Import ZArith List Bool Lia.
From stdpp Require Import base list gmap fin_maps.
From S2P Require Import Prelude BlockFile BlockStore BlockRep StoreLogic BlockData KeyIndex KeyRep KeyLoad.
From S2P Require Import PlainMap PlainMapRep PlainMapOpen PlainMapNew.
Open Scope Z_scope.

Section Spec.
Context {disk : Disk} {Hdisk : DiskOk} {Key : Type} {KA : KeyAccessor Key} {KAok : KeyAccessorOk Key}.
Abbreviation Map := (@Map Key).

(** ** The specification *)

(** [None]: the key was inserted and not written. *)
Definition Spec : Type := list (Key * option (list Z)).

Fixpoint spec_find (k : Key) (A : Spec) : option (option (list Z)) :=
  match A with
  | [] => None
  | (k', d) :: A' => if key_eqb k k' then Some d else spec_find k A'
  end.

Definition spec_remove (k : Key) (A : Spec) : Spec := List.filter (fun p => negb (key_eqb k p.1)) A.

Definition spec_touch (k : Key) (A : Spec) : Spec :=
  match spec_find k A with Some _ => A | None => (k, None) :: A end.

Definition spec_step (a : action Key) (A : Spec) : Spec :=
  match a with
  | Subscript k | Read k _ => spec_touch k A
  | Erase k => spec_remove k A
  | Clear => []
  | Write k buf => (k, Some buf) :: spec_remove k A
  | Size | Reopen => A
  end.

(** The reply, when it is known: what [read] gives for a key that was never
    written is not. *)
Definition spec_reply (a : action Key) (A : Spec) : option reply :=
  match a with
  | Subscript _ | Clear | Write _ _ | Reopen => Some Done
  | Erase k => Some (Number (match spec_find k A with Some _ => 1 | None => 0 end))
  | Size => Some (Number (Z.of_nat (length A)))
  | Read k buf_size =>
      match spec_find k A with
      | Some (Some v) =>
          Some (if buf_size <? Z.of_nat (length v) then Octets 0 [] else Octets (Z.of_nat (length v)) v)
      | _ => None
      end
  end.

Definition meets (r : outcome reply) (e : option reply) : Prop := forall x, e = Some x -> r = Ret x.

Fixpoint meets_all (l : list (action Key)) (A : Spec) (rs : list (outcome reply)) : Prop :=
  match l, rs with
  | [], [] => True
  | a :: l', r :: rs' => meets r (spec_reply a A) /\ meets_all l' (spec_step a A) rs'
  | _, _ => False
  end.

(** The keys and the data that fit, and how many blocks a call may add. *)
Definition key_fits (k : Key) : Prop := KEY_HEADER_SIZE + Z.of_nat (length (key_save k)) <= block_size_ - BLOCK_HEADER_SIZE.

Definition fits (a : action Key) : Prop :=
  match a with
  | Subscript k | Read k _ => key_fits k
  | Write k buf => key_fits k /\ Z.of_nat (length buf) < 2 ^ 32
  | _ => True
  end.

Definition cost (a : action Key) : Z :=
  match a with
  | Subscript _ | Read _ _ => 22
  | Write _ buf => 22 + 11 * Z.max 0 ((Z.of_nat (length buf) - 1) / (block_size_ - BLOCK_HEADER_SIZE))
  | _ => 0
  end.

Fixpoint costs (l : list (action Key)) : Z :=
  match l with [] => 0 | a :: l' => cost a + costs l' end.

(** ** The map and the specification *)

Definition agrees (m : Map) (files : list (option (list Z))) (A : Spec) : Prop :=
  (index_container m).*1 ≡ₚ A.*1 /\ forall k d, (k, d) ∈ A -> known (index_container m) files k d.

Lemma spec_find_in k d A : spec_find k A = Some d -> (k, d) ∈ A.
Proof.
  induction A as [|[k' d'] A IH]; cbn; [easy|]. destruct (key_eqb k k') eqn:E.
  - apply key_eqb_iff in E as ->. intros [= ->]. set_solver.
  - intros Hf. apply IH in Hf. set_solver.
Qed.

Lemma spec_find_none k A : spec_find k A = None -> k ∉ A.*1.
Proof.
  induction A as [|[k' d'] A IH]; cbn; [set_solver|]. destruct (key_eqb k k') eqn:E; [easy|]. intros Hf.
  assert (k <> k') by (intros ->; assert (key_eqb k' k' = true) by (now apply key_eqb_iff); congruence).
  apply IH in Hf. set_solver.
Qed.

Lemma spec_remove_in k k' d A : (k', d) ∈ spec_remove k A <-> (k', d) ∈ A /\ k' <> k.
Proof.
  unfold spec_remove. rewrite !list_elem_of_In, filter_In, negb_true_iff. cbn.
  destruct (key_eqb k k') eqn:E.
  - apply key_eqb_iff in E as ->. split; [now intros [_ [=]]|now intros [_ ?]].
  - split; intros [H1 _]; (split; [easy|]); [|easy]. intros ->.
    assert (key_eqb k k = true) by (now apply key_eqb_iff). congruence.
Qed.

Lemma spec_remove_cons k k' d A :
  spec_remove k ((k', d) :: A) = if key_eqb k k' then spec_remove k A else (k', d) :: spec_remove k A.
Proof. unfold spec_remove. cbn. now destruct (key_eqb k k'). Qed.

Lemma spec_remove_none k A : k ∉ A.*1 -> spec_remove k A = A.
Proof.
  induction A as [|[k' d'] A IH]; [easy|]. intros Hk. cbn in Hk. rewrite spec_remove_cons.
  destruct (key_eqb k k') eqn:E.
  - apply key_eqb_iff in E as ->. set_solver.
  - rewrite IH; [easy|set_solver].
Qed.

Lemma spec_remove_keys k A : NoDup A.*1 -> k ∈ A.*1 -> A.*1 ≡ₚ k :: (spec_remove k A).*1.
Proof.
  induction A as [|[k' d'] A IH]; [set_solver|]. cbn [fmap list_fmap fst]. intros Hd Hk.
  apply NoDup_cons in Hd as [Hn Hd]. rewrite spec_remove_cons. destruct (key_eqb k k') eqn:E.
  - apply key_eqb_iff in E as ->. now rewrite spec_remove_none.
  - cbn. apply elem_of_cons in Hk as [->|Hk].
    + assert (key_eqb k' k' = true) by (now apply key_eqb_iff). congruence.
    + rewrite (IH Hd Hk) at 1. apply Permutation_swap.
Qed.

Lemma agrees_find m files A k : agrees m files A -> map_ok m files ->
  match spec_find k A with
  | Some d => exists v, find k (index_container m) = Some v /\ (second v < length files)%nat /\
      forall b, d = Some b -> files !! second v = Some (Some b)
  | None => find k (index_container m) = None
  end.
Proof.
  intros [Hk HA] (F & K & E & D & Hm). destruct (spec_find k A) as [d|] eqn:Ef.
  - apply spec_find_in, HA in Ef as (v & Hv & Hd). exists v. split; [apply in_find; [apply Hm|easy]|].
    split; [|easy]. rewrite (mr_files _ _ _ _ _ _ _ Hm). now apply (mr_range _ _ _ _ _ _ _ Hm) in Hv.
  - apply find_none. rewrite Hk. now apply spec_find_none.
Qed.

Lemma agrees_nodup m files A : agrees m files A -> map_ok m files -> NoDup A.*1.
Proof. intros [Hk _] (F & K & E & D & Hm). rewrite <- Hk. apply Hm. Qed.

(** ** Each call *)

Lemma key_fits_iff k : key_fits k <-> 12 + Z.of_nat (length (key_save k)) <= avail.
Proof. easy. Qed.

Lemma touch_ok m files A k : map_ok m files -> agrees m files A -> key_fits k ->
  nblocks (file (store m)) + 22 <= capacity ->
  exists m' files' w, subscript k m = (m', Ret w) /\ map_ok m' files' /\ agrees m' files' (spec_touch k A) /\
    nblocks (file (store m')) <= nblocks (file (store m)) + 22 /\ (w < length files')%nat /\
    (exists v, (k, v) ∈ index_container m' /\ second v = w) /\
    forall b, spec_find k A = Some (Some b) -> m' = m /\ files' = files /\ files !! w = Some (Some b).
Proof.
  intros Hm HA Hk Hcap. pose proof (agrees_find m files A k HA Hm) as Hfind. unfold subscript, spec_touch.
  destruct (spec_find k A) as [d|] eqn:Ef.
  - destruct Hfind as (v & Hv & Hlt & Hd). rewrite Hv. exists m, files, (second v).
    split; [easy|]. split; [easy|]. split; [easy|]. split; [lia|]. split; [easy|].
    split; [exists v; split; [now apply find_in|easy]|]. intros b [= ->]. auto.
  - rewrite Hfind. destruct (map_insert_ok m files k Hm Hfind Hk Hcap) as (m' & v & Hins & Hm' & Hv & Hc & Hn).
    exists m', (files ++ [None]), (second v). rewrite Hins. split; [easy|]. split; [easy|].
    split; [|split; [easy|split; [rewrite Hv, length_app; cbn; lia|split; [exists v; split; [rewrite Hc; set_solver|easy]|easy]]]].
    destruct HA as [Hkeys Hdata]. split; [rewrite Hc; cbn; now rewrite Hkeys|].
    intros k' d Hin. apply elem_of_cons in Hin as [[= -> ->]|Hin].
    + exists v. split; [rewrite Hc; set_solver|easy].
    + destruct (Hdata k' d Hin) as (v' & Hv' & Hd). exists v'. split; [rewrite Hc; set_solver|].
      intros b Hb. apply lookup_app_l_Some. auto.
Qed.

Lemma second_inj m files k k' v v' : map_ok m files -> (k, v) ∈ index_container m -> (k', v') ∈ index_container m ->
  second v = second v' -> k = k'.
Proof.
  intros (F & K & E & D & Hm) Hv Hv' Heq. pose proof (mr_second _ _ _ _ _ _ _ Hm) as Hnd.
  apply list_elem_of_lookup in Hv as [i Hi], Hv' as [j Hj].
  assert (i = j) as ->; [|rewrite Hi in Hj; now injection Hj].
  apply (NoDup_lookup _ _ _ (second v) Hnd); rewrite !list_lookup_fmap; [now rewrite Hi|rewrite Hj; cbn; now rewrite Heq].
Qed.

Lemma erase_agrees m files A k : map_ok m files -> agrees m files A ->
  exists m', erase k m = (m', Ret (match spec_find k A with Some _ => 1 | None => 0 end)) /\ map_ok m' files /\
    agrees m' files (spec_remove k A) /\ nblocks (file (store m')) = nblocks (file (store m)).
Proof.
  intros Hm HA. pose proof (agrees_find m files A k HA Hm) as Hfind. destruct (spec_find k A) as [d|] eqn:Ef.
  - destruct Hfind as (v & Hv & _). destruct (map_erase_ok m files k v Hm Hv) as (m' & Hrun & Hm' & Hc & Hn).
    exists m'. split; [easy|]. split; [easy|]. split; [|easy]. pose proof (agrees_nodup m files A HA Hm) as Hnd.
    destruct HA as [Hkeys Hdata]. apply spec_find_in in Ef. split.
    + apply (Permutation_cons_inv (a := k)). rewrite <- (spec_remove_keys k A), <- Hkeys, Hc; [easy|easy|].
      now apply (list_elem_of_fmap_2 fst) in Ef.
    + intros k' d' Hin. apply spec_remove_in in Hin as [Hin Hne]. destruct (Hdata k' d' Hin) as (v' & Hv' & Hd').
      exists v'. split; [|easy]. rewrite Hc in Hv'. apply elem_of_cons in Hv' as [[= -> _]|Hv']; [easy|easy].
  - exists m. unfold erase. rewrite Hfind. split; [easy|]. split; [easy|]. split; [|easy].
    now rewrite spec_remove_none by now apply spec_find_none.
Qed.

(** The specification forgets what it knew of the key. *)
Lemma spec_remove_touch k A : spec_remove k (spec_touch k A) = spec_remove k A.
Proof.
  unfold spec_touch. destruct (spec_find k A); [easy|]. rewrite spec_remove_cons.
  now replace (key_eqb k k) with true by (symmetry; now apply key_eqb_iff).
Qed.

Lemma spec_touch_in k A : k ∈ (spec_touch k A).*1.
Proof.
  unfold spec_touch. destruct (spec_find k A) eqn:E; [|set_solver].
  apply spec_find_in in E. now apply (list_elem_of_fmap_2 fst) in E.
Qed.

Lemma write_agrees m files A k w buf v : map_ok m files -> agrees m files A -> (w < length files)%nat ->
  Z.of_nat (length buf) < 2 ^ 32 -> k ∈ A.*1 -> (k, v) ∈ index_container m -> second v = w ->
  nblocks (file (store m)) + 11 * Z.max 0 (more_blocks (Z.of_nat (length buf))) <= capacity ->
  exists m', write w buf m = (m', Ret tt) /\ map_ok m' (<[w := Some buf]> files) /\
    agrees m' (<[w := Some buf]> files) ((k, Some buf) :: spec_remove k A) /\
    nblocks (file (store m')) <= nblocks (file (store m)) + 11 * Z.max 0 (more_blocks (Z.of_nat (length buf))).
Proof.
  intros Hm HA Hw Hbuf Hk Hv Hsec Hcap. pose proof (agrees_nodup m files A HA Hm) as Hnd.
  destruct (map_write_ok m files w buf Hm Hw Hbuf Hcap) as (m' & Hrun & Hm' & Hc & Hn).
  exists m'. split; [easy|]. split; [easy|]. split; [|easy]. destruct HA as [Hkeys Hdata]. split.
  - rewrite Hc, Hkeys. cbn. now apply spec_remove_keys.
  - intros k' d Hin. rewrite Hc. apply elem_of_cons in Hin as [[= -> ->]|Hin].
    + exists v. split; [easy|]. intros b [= <-]. rewrite Hsec. now apply list_lookup_insert_eq.
    + apply spec_remove_in in Hin as [Hin Hne]. destruct (Hdata k' d Hin) as (v' & Hv' & Hd). exists v'. split; [easy|].
      intros b Hb. rewrite list_lookup_insert_ne; [now apply Hd|]. intros Heq. apply Hne.
      apply (second_inj m files k' k v' v Hm Hv' Hv). congruence.
Qed.

(** What is read leaves the map alone, also when it throws. *)
Lemma read_keeps w n (m : Map) : exists r, read w n m = (m, r).
Proof.
  pose proof (keeps_read_i (eq (store m)) w n (store m) eq_refl) as Hk. unfold read, call.
  destruct m as [s c]. cbn in *. destruct (read_i_ w n s) as [s' [r|e|]]; cbn in Hk; subst s'; now eexists.
Qed.

(** ** A step, and a script *)

Definition refines_step (a : action Key) (m : Map) (A : Spec) : Prop :=
  exists m' r files', step a m = (m', r) /\ meets r (spec_reply a A) /\ map_ok m' files' /\
    agrees m' files' (spec_step a A) /\ nblocks (file (store m')) <= nblocks (file (store m)) + cost a.

Lemma meets_ret x : meets (Ret x) (Some x).
Proof. now intros y [= ->]. Qed.

Lemma write_refines m files A k buf : map_ok m files -> agrees m files A -> fits (Write k buf) ->
  nblocks (file (store m)) + cost (Write k buf) <= capacity -> refines_step (Write k buf) m A.
Proof.
  intros Hm HA [Hk Hbuf] Hcap. cbn [cost] in Hcap.
  change ((Z.of_nat (length buf) - 1) / (block_size_ - BLOCK_HEADER_SIZE)) with (more_blocks (Z.of_nat (length buf))) in Hcap.
  destruct (touch_ok m files A k Hm HA Hk ltac:(lia)) as (m1 & files1 & w & Hsub & Hm1 & HA1 & Hn1 & Hw & (v & Hv & Hsec) & _).
  destruct (write_agrees m1 files1 _ k w buf v Hm1 HA1 Hw Hbuf (spec_touch_in k A) Hv Hsec ltac:(lia))
    as (m2 & Hrun & Hm2 & HA2 & Hn2).
  exists m2, (Ret Done), (<[w := Some buf]> files1). cbn [step]. rewrite Hsub, Hrun. split; [easy|].
  split; [apply meets_ret|]. split; [easy|]. rewrite spec_remove_touch in HA2. split; [easy|]. cbn [cost].
  change ((Z.of_nat (length buf) - 1) / (block_size_ - BLOCK_HEADER_SIZE)) with (more_blocks (Z.of_nat (length buf))). lia.
Qed.

Lemma read_refines m files A k n : map_ok m files -> agrees m files A -> fits (Read k n) ->
  nblocks (file (store m)) + cost (Read k n) <= capacity -> refines_step (Read k n) m A.
Proof.
  intros Hm HA Hk Hcap.
  destruct (touch_ok m files A k Hm HA Hk Hcap) as (m1 & files1 & w & Hsub & Hm1 & HA1 & Hn1 & Hw & _ & Hknown).
  destruct (read_keeps w n m1) as [r Hr]. exists m1. eexists _, files1. cbn [step]. rewrite Hsub, Hr.
  split; [reflexivity|]. split; [|easy]. cbn [spec_reply]. destruct (spec_find k A) as [[v|]|]; [|easy|easy].
  destruct (Hknown v eq_refl) as (-> & -> & Hf). rewrite (map_read_ok m files w v n Hm Hf) in Hr.
  injection Hr as <-. destruct (n <? Z.of_nat (length v)); apply meets_ret.
Qed.

Lemma call_refines a m files A : map_ok m files -> agrees m files A -> fits a ->
  nblocks (file (store m)) + cost a <= capacity -> refines_step a m A.
Proof.
  intros Hm HA Hf Hcap. destruct a as [k|k| | |k buf|k n|].
  - destruct (touch_ok m files A k Hm HA Hf Hcap) as (m1 & files1 & w & Hsub & Hm1 & HA1 & Hn1 & _).
    exists m1, (Ret Done), files1. cbn [step]. rewrite Hsub. split; [easy|]. split; [apply meets_ret|easy].
  - destruct (erase_agrees m files A k Hm HA) as (m1 & Hrun & Hm1 & HA1 & Hn1).
    exists m1, (Ret (Number (match spec_find k A with Some _ => 1 | None => 0 end))), files.
    cbn [step]. rewrite Hrun. split; [easy|]. split; [apply meets_ret|]. split; [easy|]. split; [easy|cbn; lia].
  - destruct (map_clear_ok m files Hm) as (m1 & Hrun & Hm1 & Hc1 & Hn1). exists m1, (Ret Done), files.
    cbn [step]. rewrite Hrun. split; [easy|]. split; [apply meets_ret|]. split; [easy|]. split; [|cbn; lia].
    split; [now rewrite Hc1|]. intros k d Hin. cbn in Hin. set_solver.
  - exists m, (Ret (Number (Z.of_nat (size m)))), files. split; [easy|]. split; [|split; [easy|split; [easy|cbn; lia]]].
    unfold size. replace (length (index_container m)) with (length A); [apply meets_ret|].
    destruct HA as [Hk _]. apply Permutation_length in Hk. now rewrite !length_fmap in Hk.
  - now apply (write_refines m files).
  - now apply (read_refines m files).
  - destruct (reopen_ok m files Hm) as (m1 & files1 & Hopen & Hclose & Hm1 & Hn1 & Hkeys & Hknown).
    exists m1, (Ret Done), files1. cbn [step]. destruct (open_map (fst (close m))) as [f r]. cbn in Hopen. subst r.
    rewrite Hclose. split; [easy|]. split; [apply meets_ret|]. split; [easy|]. split; [|cbn; lia].
    destruct HA as [HA1 HA2]. split; [now rewrite Hkeys|]. intros k d Hin. now apply Hknown, HA2.
Qed.

Lemma cost_nonneg l : 0 <= costs l.
Proof. induction l as [|a l IH]; cbn [costs]; [lia|]. destruct a; cbn [cost]; lia. Qed.

Lemma script_refines l : forall m files A, map_ok m files -> agrees m files A -> Forall fits l ->
  nblocks (file (store m)) + costs l <= capacity -> meets_all l A (snd (run l m)).
Proof.
  induction l as [|a l IH]; intros m files A Hm HA Hf Hcap; cbn [costs run] in *; [easy|].
  apply Forall_cons in Hf as [Hfa Hf]. pose proof (cost_nonneg l).
  destruct (call_refines a m files A Hm HA Hfa ltac:(lia)) as (m' & r & files' & Hrun & Hr & Hm' & HA' & Hn').
  rewrite Hrun. specialize (IH m' files' _ Hm' HA' Hf ltac:(lia)). destruct (run l m') as [m2 rs].
  now split.
Qed.

(** C31: A map in an empty file does what the specification says, for every script of calls whose keys
    fit a block, on a disk with room for the blocks: [operator []], [erase], [clear], [size] and writing
    succeed, reading a key gives the octets that were written to it last, with their number (or the number 0
    and no octets, if the buffer is too small for them), and closing the file and opening it again changes nothing of this. *)
Theorem plain_map_refines l : Forall fits l -> 14 + costs l <= capacity ->
  exists f m, open_map (mkFile 0 ∅) = (f, Ret m) /\ meets_all l [] (snd (run l m)).
Proof.
  intros Hf Hcap. pose proof (cost_nonneg l).
  assert (Hc14 : 14 <= capacity) by lia. destruct (new_map_ok Hc14) as (f & m & Hopen & Hm & Hc & Hn).
  exists f, m. split; [easy|]. apply (script_refines l m [] [] Hm); [|easy|lia].
  split; [now rewrite Hc|]. intros k d Hin. set_solver.
Qed.
End Spec.

(** ** A concrete disk *)

#[local] Existing Instance small_disk.

Lemma small_disk_ok : DiskOk.
Proof. split; vm_compute; intuition discriminate. Qed.

Definition demo : list (action (list Z)) :=
  [Write (lit "b") text; Read (lit "a") 10; Write (lit "a") (lit "short"); Reopen; Read (lit "b") 100;
   Erase (lit "b"); Read (lit "a") 3; Size; Clear; Reopen; Size].

Lemma plain_map_refines_witness :
  exists f m, open_map (mkFile 0 ∅) = (f, Ret m) /\ meets_all demo [] (snd (run demo m)).
Proof.
  apply (plain_map_refines (Hdisk := small_disk_ok) demo); [|vm_compute; discriminate].
  repeat constructor; vm_compute; discriminate.
Defined.
