(* ===== verification/ActiveObject.v ===== *)
(** * ActiveObject: objects that are activated, deactivated and waited for

    Models [SimpleActiveObject] of [src/src/Generics/ActiveObject.cpp] and
    [CompositeActiveObjectBase] of [src/src/Generics/CompositeActiveObject.hpp].
    The interface [ActiveObject] is a class, with the laws that a composite
    relies on of its children in [Reliable]; a composite of reliable objects is
    reliable, so composites nest.

    The operations are those of one thread: a result [None] is a call that does
    not return unless another thread acts ([wait_object] of an active object).
    [SimpleActiveObject]'s virtual functions are an argument, [hooks].  The
    functions on children also return the calls they make, in order. *)

From Stdlib Require Import List Bool Lia.
From S2P Require Import Prelude.
Import ListNotations.
#[local] Open Scope nat_scope.

Inductive ACTIVE_STATE : Type := AS_ACTIVE | AS_DEACTIVATING | AS_NOT_ACTIVE.

Definition is_state (a b : ACTIVE_STATE) : bool :=
  match a, b with
  | AS_ACTIVE, AS_ACTIVE | AS_DEACTIVATING, AS_DEACTIVATING | AS_NOT_ACTIVE, AS_NOT_ACTIVE => true
  | _, _ => false
  end.

(** What a call returns: the object after it and the exception, if any. *)
Abbreviation result O := (option (O * option exn)).

Class ActiveObject (O : Type) : Type := {
  activate_object : O -> result O;
  deactivate_object : O -> result O;
  wait_object : O -> result O;
  active : O -> bool;
}.

(** What a composite relies on: an activation may fail and then leaves the object
    as inactive as it was; deactivation and waiting do not fail. *)
Class Reliable (O : Type) {A : ActiveObject O} : Type := {
  valid : O -> Prop;
  status : O -> ACTIVE_STATE;
  active_status o : active o = is_state (status o) AS_ACTIVE;
  activate_law o : valid o -> exists o' e, activate_object o = Some (o', e) /\ valid o' /\
    match status o with
    | AS_NOT_ACTIVE => status o' = match e with None => AS_ACTIVE | Some _ => AS_NOT_ACTIVE end
    | st => e <> None /\ status o' = st
    end;
  deactivate_law o : valid o -> exists o', deactivate_object o = Some (o', None) /\ valid o' /\
    status o' = match status o with AS_ACTIVE => AS_DEACTIVATING | st => st end;
  wait_law o : valid o -> status o <> AS_ACTIVE -> exists o', wait_object o = Some (o', None) /\ valid o' /\
    status o' = AS_NOT_ACTIVE;
}.

(** ** SimpleActiveObject *)

(** The virtual functions [activate_object_], [deactivate_object_],
    [wait_more_], [wait_object_] of a derived class with members [I]. *)
Record hooks (I : Type) : Type := mkHooks {
  activate_object_ : I -> result I;
  deactivate_object_ : I -> result I;
  wait_more_ : I -> bool;
  wait_object_ : I -> result I;
}.
Arguments mkHooks {I}.
Arguments activate_object_ {I}.
Arguments deactivate_object_ {I}.
Arguments wait_more_ {I}.
Arguments wait_object_ {I}.

Record simple (I : Type) : Type := mkSimple { state_ : ACTIVE_STATE; members : I }.
Arguments mkSimple {I}.
Arguments state_ {I}.
Arguments members {I}.

Section Simple.
Context {I : Type} (h : hooks I).

Definition simple_activate (o : simple I) : result (simple I) :=
  if is_state (state_ o) AS_NOT_ACTIVE then
    match activate_object_ h (members o) with
    | Some (m, None) => Some (mkSimple AS_ACTIVE m, None)
    | Some (m, Some e) => Some (mkSimple (state_ o) m, Some e)
    | None => None
    end
  else Some (o, Some AlreadyActive).

Definition simple_deactivate (o : simple I) : result (simple I) :=
  if negb (is_state (state_ o) AS_ACTIVE) then Some (o, None)
  else
    match deactivate_object_ h (members o) with
    | Some (m, None) => Some (mkSimple AS_DEACTIVATING m, None)
    | Some (m, Some e) => Some (mkSimple AS_ACTIVE m, Some e)
    | None => None
    end.

Definition simple_wait (o : simple I) : result (simple I) :=
  if is_state (state_ o) AS_ACTIVE || wait_more_ h (members o) then None
  else
    match wait_object_ h (members o) with
    | Some (m, None) => Some (mkSimple (if is_state (state_ o) AS_DEACTIVATING then AS_NOT_ACTIVE else state_ o) m, None)
    | Some (m, Some e) => Some (mkSimple (state_ o) m, Some e)
    | None => None
    end.

Definition simple_active (o : simple I) : bool := is_state (state_ o) AS_ACTIVE.

Definition simple_object : ActiveObject (simple I) :=
  {| activate_object := simple_activate; deactivate_object := simple_deactivate;
     wait_object := simple_wait; active := simple_active |}.
End Simple.

(** The virtual functions' default bodies. *)
Definition default_hooks : hooks unit :=
  mkHooks (fun m => Some (m, None)) (fun m => Some (m, None)) (fun _ => false) (fun m => Some (m, None)).

#[export] Instance plain_object : ActiveObject (simple unit) := simple_object default_hooks.

(** ** CompositeActiveObject *)

Inductive call : Type := CActivate (i : nat) | CDeactivate (i : nat) | CWait (i : nat).

Section Composite.
Context {O : Type} {A : ActiveObject O}.
Variable SYNCHRONOUS_ : bool.

(** The loop of [activate_object_] from child [i] on: the children activated,
    the others (first the one that failed), the exception. *)
Fixpoint activate_children (i : nat) (children : list O) : option (list O * list O * option exn * list call) :=
  match children with
  | [] => Some ([], [], None, [])
  | o :: rest =>
      match activate_object o with
      | None => None
      | Some (o', Some e) => Some ([], o' :: rest, Some e, [CActivate i])
      | Some (o', None) =>
          match activate_children (S i) rest with
          | None => None
          | Some (done, others, e, log) => Some (o' :: done, others, e, CActivate i :: log)
          end
      end
  end.

(** [deactivate_object_(rit)] on the children from [rit] on, which are given
    last child first; the flag says that some failed. *)
Fixpoint deactivate_children (rchildren : list O) : option (list O * bool * list call) :=
  match rchildren with
  | [] => Some ([], false, [])
  | o :: rest =>
      match
        match deactivate_object o with
        | Some (o', None) =>
            if SYNCHRONOUS_ then
              match wait_object o' with
              | Some (o2, e) => Some (o2, e, [CDeactivate (length rest); CWait (length rest)])
              | None => None
              end
            else Some (o', None, [CDeactivate (length rest)])
        | Some (o', Some e) => Some (o', Some e, [CDeactivate (length rest)])
        | None => None
        end
      with
      | None => None
      | Some (o', e, calls) =>
          match deactivate_children rest with
          | None => None
          | Some (rest', failed, log) =>
              Some (o' :: rest', failed || match e with Some _ => true | None => false end, calls ++ log)
          end
      end
  end.

(** [wait_for_some_objects_]. *)
Fixpoint wait_for_some_objects_ (rchildren : list O) : option (list O * bool * list call) :=
  match rchildren with
  | [] => Some ([], false, [])
  | o :: rest =>
      match wait_object o with
      | None => None
      | Some (o', e) =>
          match wait_for_some_objects_ rest with
          | None => None
          | Some (rest', failed, log) =>
              Some (o' :: rest', failed || match e with Some _ => true | None => false end, CWait (length rest) :: log)
          end
      end
  end.

Definition thrown (failed : bool) : option exn := if failed then Some ActiveObjectException else None.

(** A failed activation undoes the activations made; the wait is skipped when a
    deactivation failed. *)
Definition composite_activate (children : list O) : result (list O) :=
  match activate_children 0 children with
  | None => None
  | Some (done, others, None, _) => Some (done ++ others, None)
  | Some (done, others, Some _, _) =>
      match deactivate_children (rev done) with
      | None => None
      | Some (rdone, true, _) => Some (rev rdone ++ others, Some ActiveObjectException)
      | Some (rdone, false, _) =>
          match wait_for_some_objects_ rdone with
          | None => None
          | Some (rdone, _, _) => Some (rev rdone ++ others, Some ActiveObjectException)
          end
      end
  end.

Definition composite_deactivate (children : list O) : result (list O) :=
  match deactivate_children (rev children) with
  | None => None
  | Some (rchildren, failed, _) => Some (rev rchildren, thrown failed)
  end.

Definition composite_wait (children : list O) : result (list O) :=
  match wait_for_some_objects_ (rev children) with
  | None => None
  | Some (rchildren, failed, _) => Some (rev rchildren, thrown failed)
  end.

Definition composite_hooks : hooks (list O) :=
  mkHooks composite_activate composite_deactivate (fun _ => false) composite_wait.

Definition composite_object : ActiveObject (simple (list O)) := simple_object composite_hooks.

Definition add_child_object (child : O) (add_to_head : bool) (c : simple (list O)) : result (simple (list O)) :=
  match
    (if is_state (state_ c) AS_ACTIVE then
       if negb (active child) then activate_object child else Some (child, None)
     else if active child then
       match deactivate_object child with
       | Some (o', None) => wait_object o'
       | r => r
       end
     else Some (child, None))
  with
  | None => None
  | Some (o', None) =>
      Some (mkSimple (state_ c) (if add_to_head then o' :: members c else members c ++ [o']), None)
  | Some (o', Some _) => Some (c, Some ActiveObjectException)
  end.

Definition clear_children (c : simple (list O)) : result (simple (list O)) :=
  if negb (is_state (state_ c) AS_NOT_ACTIVE) then
    match deactivate_children (rev (members c)) with
    | None => None
    | Some (rchildren, true, _) => Some (mkSimple (state_ c) (rev rchildren), Some ActiveObjectException)
    | Some (rchildren, false, _) =>
        match wait_for_some_objects_ rchildren with
        | None => None
        | Some (rchildren, true, _) => Some (mkSimple (state_ c) (rev rchildren), Some ActiveObjectException)
        | Some (_, false, _) => Some (mkSimple AS_NOT_ACTIVE [], None)
        end
    end
  else Some (mkSimple (state_ c) [], None).
End Composite.

(** ** What makes a SimpleActiveObject reliable *)

(** What the virtual functions must keep, in terms of the members in each state. *)
Class ReliableHooks {I : Type} (h : hooks I) : Type := {
  inv : ACTIVE_STATE -> I -> Prop;
  activate_hook m : inv AS_NOT_ACTIVE m -> exists m' e, activate_object_ h m = Some (m', e) /\
    inv (match e with None => AS_ACTIVE | Some _ => AS_NOT_ACTIVE end) m';
  deactivate_hook m : inv AS_ACTIVE m -> exists m', deactivate_object_ h m = Some (m', None) /\ inv AS_DEACTIVATING m';
  wait_hook st m : st <> AS_ACTIVE -> inv st m ->
    wait_more_ h m = false /\ exists m', wait_object_ h m = Some (m', None) /\ inv AS_NOT_ACTIVE m';
}.

Section SimpleReliable.
Context {I : Type} (h : hooks I) {R : ReliableHooks h}.

Definition simple_valid (o : simple I) : Prop := inv (state_ o) (members o).

Lemma simple_activate_law o : simple_valid o -> exists o' e, simple_activate h o = Some (o', e) /\ simple_valid o' /\
  match state_ o with
  | AS_NOT_ACTIVE => state_ o' = match e with None => AS_ACTIVE | Some _ => AS_NOT_ACTIVE end
  | st => e <> None /\ state_ o' = st
  end.
Proof.
  destruct o as [[] m]; unfold simple_valid, simple_activate; cbn; intros V;
    try (eexists _, _; split; [reflexivity|]; now repeat split).
  destruct (activate_hook m V) as (m' & e & -> & V'). destruct e; now eexists _, _.
Qed.

Lemma simple_deactivate_law o : simple_valid o -> exists o', simple_deactivate h o = Some (o', None) /\ simple_valid o' /\
  state_ o' = match state_ o with AS_ACTIVE => AS_DEACTIVATING | st => st end.
Proof.
  destruct o as [[] m]; unfold simple_valid, simple_deactivate; cbn; intros V; try now eexists.
  destruct (deactivate_hook m V) as (m' & -> & V'). now eexists.
Qed.

Lemma simple_wait_law o : simple_valid o -> state_ o <> AS_ACTIVE ->
  exists o', simple_wait h o = Some (o', None) /\ simple_valid o' /\ state_ o' = AS_NOT_ACTIVE.
Proof.
  destruct o as [st m]; unfold simple_valid, simple_wait; cbn [state_ members]; intros V N.
  destruct (wait_hook st m N V) as (-> & m' & -> & V'). destruct st; [easy| |]; cbn; now eexists.
Qed.

Definition simple_reliable : Reliable (simple I) (A := simple_object h) :=
  Build_Reliable _ (simple_object h) simple_valid state_ (fun _ => eq_refl)
    simple_activate_law simple_deactivate_law simple_wait_law.
End SimpleReliable.

#[export] Instance default_reliable : ReliableHooks default_hooks.
Proof.
  refine {| inv := fun _ _ => True |}; intros.
  - now exists m, None.
  - now exists m.
  - split; [easy|]. now exists m.
Defined.

(** ** Composites of reliable objects *)

Section CompositeReliable.
Context {O : Type} {A : ActiveObject O} {R : Reliable O}.
Variable SYNCHRONOUS_ : bool.

Abbreviation all st := (Forall (fun o : O => status o = st)).
Abbreviation no_active := (Forall (fun o : O => status o <> AS_ACTIVE)).
Abbreviation valid_all := (Forall (fun o : O => valid o)).

Definition failures (e : option exn) : nat := match e with None => 0 | Some _ => 1 end.

Lemma activate_children_spec children i : valid_all children -> no_active children ->
  exists done others e, activate_children i children =
    Some (done, others, e, map CActivate (seq i (length done + failures e))) /\
  valid_all (done ++ others) /\ all AS_ACTIVE done /\ no_active others /\
  length (done ++ others) = length children /\ (e = None -> others = []).
Proof.
  intros V N. revert i. induction children as [|o rest IH]; intros i; cbn [activate_children].
  - exists [], [], None. now repeat split.
  - apply Forall_cons_iff in V as [Vo V], N as [No N]. destruct (activate_law o Vo) as (o' & e & -> & Vo' & L).
    destruct e as [e|].
    + exists [], (o' :: rest), (Some e).
      assert (status o' <> AS_ACTIVE) by (destruct (status o); [easy|now destruct L as [_ ->]|now rewrite L]).
      repeat split; auto; try now constructor. discriminate.
    + assert (status o' = AS_ACTIVE) as Ao by (destruct (status o); [easy|now destruct L|easy]).
      destruct (IH V N (S i)) as (done & others & e & -> & V' & D & Q & Ln & E0).
      exists (o' :: done), others, e. repeat split; auto; cbn; try now constructor. now rewrite Ln.
Qed.

(** The calls that stop a child. *)
Definition stop_calls (i : nat) : list call := if SYNCHRONOUS_ then [CDeactivate i; CWait i] else [CDeactivate i].

Lemma deactivate_children_spec rchildren : valid_all rchildren ->
  exists l, deactivate_children SYNCHRONOUS_ rchildren =
    Some (l, false, flat_map stop_calls (rev (seq 0 (length rchildren)))) /\
  valid_all l /\ no_active l /\ length l = length rchildren.
Proof.
  intros V. induction V as [|o rest Vo V (l & E & Vl & Nl & Ln)]; cbn [deactivate_children].
  - now exists [].
  - destruct (deactivate_law o Vo) as (o1 & -> & V1 & S1). rewrite E.
    assert (status o1 <> AS_ACTIVE) as N1 by (rewrite S1; now destruct (status o)).
    assert (exists o2, (if SYNCHRONOUS_ then
        match wait_object o1 with
        | Some (o2, e) => Some (o2, e, [CDeactivate (length rest); CWait (length rest)])
        | None => None
        end else Some (o1, None, [CDeactivate (length rest)])) = Some (o2, None, stop_calls (length rest)) /\
      valid o2 /\ status o2 <> AS_ACTIVE) as (o2 & -> & V2 & N2).
    { unfold stop_calls. destruct SYNCHRONOUS_; [|now exists o1].
      destruct (wait_law o1 V1 N1) as (o2 & -> & V2 & S2). exists o2. rewrite S2. now repeat split. }
    exists (o2 :: l). cbn [length]. rewrite seq_S, rev_app_distr. cbn. rewrite Ln. now repeat split; constructor.
Qed.

Lemma wait_children_spec rchildren : valid_all rchildren -> no_active rchildren ->
  exists l, wait_for_some_objects_ rchildren = Some (l, false, map CWait (rev (seq 0 (length rchildren)))) /\
  valid_all l /\ all AS_NOT_ACTIVE l /\ length l = length rchildren.
Proof.
  intros V N. induction rchildren as [|o rest IH]; cbn [wait_for_some_objects_].
  - now exists [].
  - apply Forall_cons_iff in V as [Vo V], N as [No N]. destruct (IH V N) as (l & -> & Vl & Sl & Ln).
    destruct (wait_law o Vo No) as (o' & -> & Vo' & So). exists (o' :: l). cbn [length].
    rewrite seq_S, rev_app_distr. cbn. rewrite Ln. now repeat split; constructor.
Qed.

Lemma idle_no_active l : all AS_NOT_ACTIVE l -> no_active l.
Proof. apply Forall_impl. intros o ->. easy. Qed.

Definition composite_inv (st : ACTIVE_STATE) (children : list O) : Prop :=
  valid_all children /\ match st with AS_ACTIVE => all AS_ACTIVE children | _ => no_active children end.

(** A failed activation: those activated are stopped and waited for. *)
Lemma composite_activate_law children : composite_inv AS_NOT_ACTIVE children ->
  exists children' e, composite_activate SYNCHRONOUS_ children = Some (children', e) /\
  composite_inv (match e with None => AS_ACTIVE | Some _ => AS_NOT_ACTIVE end) children' /\
  length children' = length children.
Proof.
  intros [V N]. unfold composite_activate.
  destruct (activate_children_spec children 0 V N) as (done & others & e & -> & V' & D & Q & Ln & E0).
  apply Forall_app in V' as [Vd Vo]. destruct e as [e|].
  - destruct (deactivate_children_spec (rev done)) as (l & -> & Vl & Nl & Ll); [now apply Forall_rev|].
    destruct (wait_children_spec l Vl Nl) as (l' & -> & Vl' & Sl & Ll'). eexists _, _. split; [reflexivity|].
    split; [|rewrite length_app, length_rev, Ll', Ll, length_rev, <- length_app; exact Ln].
    split; apply Forall_app; split; auto; apply Forall_rev; auto using idle_no_active.
  - rewrite (E0 eq_refl), app_nil_r in *. eexists _, _. now repeat split.
Qed.

Lemma composite_deactivate_law children : composite_inv AS_ACTIVE children ->
  exists children', composite_deactivate SYNCHRONOUS_ children = Some (children', None) /\
  composite_inv AS_DEACTIVATING children' /\ length children' = length children.
Proof.
  intros [V _]. unfold composite_deactivate.
  destruct (deactivate_children_spec (rev children)) as (l & -> & Vl & Nl & Ll); [now apply Forall_rev|].
  eexists. split; [reflexivity|]. rewrite length_rev, Ll, length_rev. repeat split; now apply Forall_rev.
Qed.

Lemma composite_wait_law children : valid_all children -> no_active children ->
  exists children', composite_wait children = Some (children', None) /\
  valid_all children' /\ all AS_NOT_ACTIVE children' /\ length children' = length children.
Proof.
  intros V N. unfold composite_wait.
  destruct (wait_children_spec (rev children)) as (l & -> & Vl & Sl & Ll); [now apply Forall_rev..|].
  eexists. split; [reflexivity|]. rewrite length_rev, Ll, length_rev. repeat split; now apply Forall_rev.
Qed.

#[export] Instance composite_reliable_hooks : ReliableHooks (composite_hooks SYNCHRONOUS_).
Proof.
  refine {| inv := composite_inv |}.
  - intros m H. destruct (composite_activate_law m H) as (m' & e & E & H' & _). now exists m', e.
  - intros m H. destruct (composite_deactivate_law m H) as (m' & E & H' & _). now exists m'.
  - intros st m N [V H]. split; [easy|]. destruct (composite_wait_law m V) as (m' & E & V' & S' & _).
    + now destruct st.
    + exists m'. split; [easy|]. split; [easy|now apply idle_no_active].
Defined.

(** A composite of reliable objects is one itself. *)
#[export] Instance composite_reliable : Reliable (simple (list O)) (A := composite_object SYNCHRONOUS_) :=
  simple_reliable (composite_hooks SYNCHRONOUS_).

Abbreviation valid_composite c := (composite_inv (state_ c) (members c)).

Lemma add_child_law child head c : valid_composite c -> valid child ->
  exists c' e, add_child_object child head c = Some (c', e) /\ valid_composite c' /\ state_ c' = state_ c /\
    match e with None => length (members c') = S (length (members c)) | Some _ => c' = c end.
Proof.
  intros [V H] Vc.
  assert (forall o', valid o' -> (match state_ c with AS_ACTIVE => status o' = AS_ACTIVE | _ => status o' <> AS_ACTIVE end) ->
    exists c', Some (mkSimple (state_ c) (if head then o' :: members c else members c ++ [o']), None) = Some (c', None : option exn) /\
      valid_composite c' /\ state_ c' = state_ c /\ length (members c') = S (length (members c))) as K.
  { intros o' Vo So. eexists. split; [reflexivity|]. cbn [state_ members]. unfold composite_inv.
    destruct head; cbn [length]; rewrite ?length_app; cbn [length]; (split; [|split; [easy|lia]]);
      destruct (state_ c); split; try apply Forall_app; repeat split; auto; now constructor. }
  unfold add_child_object. rewrite active_status. destruct (state_ c) eqn:E, (status child) eqn:Sc; cbn [is_state negb].
  all: try (destruct (K child) as (c' & E' & K'); [easy|now rewrite Sc|]; rewrite E'; now exists c', None).
  - destruct (activate_law child Vc) as (o' & e & -> & Vo & L). rewrite Sc in L. destruct L as [L _].
    destruct e as [e|]; [|easy]. exists c, (Some ActiveObjectException). now rewrite E.
  - destruct (activate_law child Vc) as (o' & e & -> & Vo & L). rewrite Sc in L. destruct e as [e|].
    + exists c, (Some ActiveObjectException). now rewrite E.
    + destruct (K o') as (c' & E' & K'); [easy..|]. rewrite E'. now exists c', None.
  - destruct (deactivate_law child Vc) as (o1 & -> & V1 & S1). rewrite Sc in S1.
    destruct (wait_law o1 V1) as (o2 & -> & V2 & S2); [now rewrite S1|].
    destruct (K o2) as (c' & E' & K'); [easy|now rewrite S2|]. rewrite E'. now exists c', None.
  - destruct (deactivate_law child Vc) as (o1 & -> & V1 & S1). rewrite Sc in S1.
    destruct (wait_law o1 V1) as (o2 & -> & V2 & S2); [now rewrite S1|].
    destruct (K o2) as (c' & E' & K'); [easy|now rewrite S2|]. rewrite E'. now exists c', None.
Qed.

Lemma clear_children_law c : valid_composite c ->
  clear_children SYNCHRONOUS_ c = Some (mkSimple AS_NOT_ACTIVE [], None).
Proof.
  intros [V _]. unfold clear_children. destruct (deactivate_children_spec (rev (members c))) as (l & -> & Vl & Nl & _);
    [now apply Forall_rev|]. destruct (wait_children_spec l Vl Nl) as (l' & -> & _). now destruct (state_ c).
Qed.

(** C39: a composite of reliable objects moves all its children together.  An
    activation makes every child active or, when one fails, leaves none active
    and the composite inactive; a deactivation followed by a wait leaves all
    children and the composite inactive; [add_child_object] adds a child only
    in the composite's state; and [clear_children] stops and forgets all. *)
Theorem composite_life_cycle c : valid_composite c ->
  (state_ c = AS_NOT_ACTIVE -> exists c' e, simple_activate (composite_hooks SYNCHRONOUS_) c = Some (c', e) /\
     length (members c') = length (members c) /\
     match e with
     | None => state_ c' = AS_ACTIVE /\ all AS_ACTIVE (members c')
     | Some _ => state_ c' = AS_NOT_ACTIVE /\ no_active (members c')
     end) /\
  (state_ c = AS_ACTIVE -> exists c1 c2, simple_deactivate (composite_hooks SYNCHRONOUS_) c = Some (c1, None) /\
     state_ c1 = AS_DEACTIVATING /\ simple_wait (composite_hooks SYNCHRONOUS_) c1 = Some (c2, None) /\
     state_ c2 = AS_NOT_ACTIVE /\ all AS_NOT_ACTIVE (members c2)) /\
  (forall child head, valid child -> exists c' e, add_child_object child head c = Some (c', e) /\
     valid_composite c' /\ state_ c' = state_ c) /\
  clear_children SYNCHRONOUS_ c = Some (mkSimple AS_NOT_ACTIVE [], None).
Proof.
  intros H. split; [|split; [|split]].
  - intros E. rewrite E in H. unfold simple_activate. rewrite E. cbn.
    destruct (composite_activate_law (members c) H) as (l & e & -> & [V K] & Ln).
    destruct e; eexists _, _; (split; [reflexivity|]); cbn [state_ members]; auto.
  - intros E. rewrite E in H. unfold simple_deactivate, simple_wait. rewrite E. cbn.
    destruct (composite_deactivate_law (members c) H) as (l & -> & [V K] & _).
    destruct (composite_wait_law l V K) as (l' & W & _ & S' & _).
    exists (mkSimple AS_DEACTIVATING l), (mkSimple AS_NOT_ACTIVE l'). cbn. rewrite W. now repeat split.
  - intros child head Vc. destruct (add_child_law child head c H Vc) as (c' & e & E & V & S' & _). now exists c', e.
  - now apply clear_children_law.
Qed.

(** the order in which a composite calls its children, [n] of them.  They are
    activated first to last, up to the first failure; deactivated last to
    first, each waited for at once when the termination is synchronous; and
    waited for last to first. *)
Theorem composite_order children : valid_all children -> no_active children ->
  (exists done others e, activate_children 0 children =
     Some (done, others, e, map CActivate (seq 0 (length done + failures e))) /\
     length done + length others = length children) /\
  (exists l, deactivate_children SYNCHRONOUS_ (rev children) =
     Some (l, false, flat_map stop_calls (rev (seq 0 (length children))))) /\
  (exists l, wait_for_some_objects_ (rev children) = Some (l, false, map CWait (rev (seq 0 (length children))))).
Proof.
  intros V N. split; [|split].
  - destruct (activate_children_spec children 0 V N) as (done & others & e & E & _ & _ & _ & Ln & _).
    exists done, others, e. rewrite length_app in Ln. now split.
  - destruct (deactivate_children_spec (rev children)) as (l & E & _); [now apply Forall_rev|].
    rewrite length_rev in E. now exists l.
  - destruct (wait_children_spec (rev children)) as (l & E & _); [now apply Forall_rev..|].
    rewrite length_rev in E. now exists l.
Qed.
End CompositeReliable.

(** ** Concrete objects *)

(** An object whose activation fails or not, by its member. *)
Definition fragile_hooks : hooks bool :=
  mkHooks (fun b : bool => Some (b, if b then Some ActiveObjectException else None)) (fun b => Some (b, None))
    (fun _ => false) (fun b => Some (b, None)).

#[export] Instance fragile_object : ActiveObject (simple bool) := simple_object fragile_hooks.

#[export] Instance fragile_reliable_hooks : ReliableHooks fragile_hooks.
Proof.
  refine {| inv := fun _ _ => True |}; intros.
  - now exists m, (if m then Some ActiveObjectException else None).
  - now exists m.
  - split; [easy|]. now exists m.
Defined.

#[export] Instance fragile_reliable : Reliable (simple bool) := simple_reliable fragile_hooks.

Definition idle (b : bool) : simple bool := mkSimple AS_NOT_ACTIVE b.

Definition three (b : bool) : simple (list (simple bool)) := mkSimple AS_NOT_ACTIVE [idle false; idle false; idle b].

Lemma three_valid b : composite_inv (state_ (three b)) (members (three b)).
Proof. split; repeat constructor; discriminate. Qed.

Lemma composite_life_cycle_witness :
  exists c' e, simple_activate (composite_hooks true) (three true) = Some (c', e) /\
    length (members c') = 3 /\
    match e with
    | None => state_ c' = AS_ACTIVE /\ Forall (fun o => status o = AS_ACTIVE) (members c')
    | Some _ => state_ c' = AS_NOT_ACTIVE /\ Forall (fun o => status o <> AS_ACTIVE) (members c')
    end.
Proof. exact (proj1 (composite_life_cycle true (three true) (three_valid true)) eq_refl). Defined.

Lemma composite_order_witness :
  exists l, deactivate_children true (rev [idle false; idle true]) =
    Some (l, false, [CDeactivate 1; CWait 1; CDeactivate 0; CWait 0]).
Proof.
  apply (composite_order true [idle false; idle true]); repeat constructor; discriminate.
Defined.

(** The third of three children fails: the other two are stopped again. *)
Example rollback :
  simple_activate (composite_hooks false) (three true) = Some (three true, Some ActiveObjectException).
Proof. reflexivity. Qed.

(** Activating twice throws [AlreadyActive]. *)
Example active_twice :
  option_map snd (simple_activate (composite_hooks false) (mkSimple AS_ACTIVE [idle false])) = Some (Some AlreadyActive).
Proof. reflexivity. Qed.
