(* ===== verification/TaskRunner.v ===== *)
(** * TaskRunner: tasks executed by a pool of threads

    Models [src/src/Generics/TaskRunner.cpp] ([TaskRunnerJob]: [enqueue_task],
    [work], [add_thread], [terminate], [clear], [started]), the life cycle of
    [ActiveObjectCommonImpl] in [src/src/Generics/ActiveObject.cpp] and what
    they use of [src/src/Generics/ThreadRunner.cpp] and of the semaphores of
    [src/src/Sync/Semaphore.hpp].

    Threads interleave at the mutex and at the semaphores: an [action] is what
    one thread does between two such points (a whole critical section, one
    semaphore operation, one task execution), [exec] is the state change it
    makes when it is enabled, and the reachable states are those of all
    interleavings of any number of producers, the workers, and the threads that
    activate, deactivate, clear and wait.  A blocked operation ([acquire] of an
    empty semaphore, [pthread_join] of a running thread) is an action that is
    not enabled.  [start] is one action: the threads it creates stay on the
    start semaphore until it ends, and it holds the work mutex.  [owned] is the
    mark of the threads that [wait_for_completion] joins.  The lists [pushed],
    [gone], [executed] are histories that the code does not keep. *)

From Stdlib Require Import ZArith List Bool Lia Permutation.
From S2P Require Import Prelude ActiveObject.
Import ListNotations.
#[local] Open Scope nat_scope.

Abbreviation task := nat.

(** Where a thread of the pool is, in [thread_func_] and [work]. *)
Inductive worker : Type :=
| WStarting             (* at start_semaphore_.acquire() *)
| WWaiting              (* at new_task_.acquire() *)
| WAcquired             (* before the guard *)
| WTaken (t : task)     (* task popped, before not_full_.release() *)
| WRunning (t : task)   (* in task->execute() *)
| WExecuted             (* before number_of_unused_threads_++ *)
| WDone.                (* left the loop *)

Record thread : Type := mkThread { owned : bool; pc : worker }.

(** Where a thread in [enqueue_task] is. *)
Inductive producer : Type :=
| PHave (t : task)      (* slot acquired, before the guard *)
| PPushed (t : task).   (* task in the queue, before new_task_.release() *)

(** Where the thread in [wait_object] is ([termination_mutex_] lets one in). *)
Inductive waiter : Type :=
| JOutside
| JJoining              (* in the loop of pthread_join *)
| JJoined               (* after the loop, before start_semaphore_.acquire() *)
| JReset                (* before terminated() *)
| JLast.                (* before the guard on the work mutex *)

Record state : Type := mkState {
  tasks_ : list task;
  number_of_unused_threads_ : Z;
  new_task_ : nat;
  not_full_ : nat;
  terminating_ : bool;
  start_semaphore_ : nat;
  number_running_ : nat;
  active_state_ : ACTIVE_STATE;
  workers : list thread;
  producers : list producer;
  waiting : waiter;
  pushed : list task;
  gone : list (task * bool);
  executed : list task;
}.

Inductive action : Type :=
| Activate (created : nat)
| Deactivate
| WaitBegin
| WaitJoin
| WaitReset
| WaitTerminated
| WaitEnd
| Enqueue (t : option task)
| ProducerPush (j : nat) (created : bool)
| ProducerFail (j : nat)
| ProducerSignal (j : nat)
| WorkerStep (i : nat)
| Clear.

Definition remove_nth {A} (j : nat) (l : list A) : list A := firstn j l ++ skipn (S j) l.

Section TaskRunner.
(** The constructor's arguments; [SEM_VALUE_MAX] is the system's bound. *)
Variables threads_number max_pending_tasks start_threads SEM_VALUE_MAX : nat.

Definition NUMBER_OF_THREADS_ : nat := threads_number.
Definition LIMITED_ : bool := negb (max_pending_tasks =? 0).
Definition slots : nat := Nat.min max_pending_tasks SEM_VALUE_MAX.

Definition init : state :=
  mkState [] 0 0 slots false 0 0 AS_NOT_ACTIVE [] [] JOutside [] [] [].

(** [ThreadRunner::start]: how many threads it starts. *)
Definition to_start : nat :=
  if (start_threads =? 0) || (threads_number <? start_threads) then threads_number else start_threads.

(** [ActiveObjectCommonImpl::activate_object] with [ThreadRunner::start], which
    refuses to start twice; [created] calls of [pthread_create] succeed before
    one fails.  The threads already created are released and joined, but when
    there is none [wait_for_completion] returns at once and the unit released
    stays in [start_semaphore_].  With a unit there beforehand new threads
    do not wait for [start] to end; a failure then may leave it joining working
    threads with the mutex held, so the action is not enabled. *)
Definition activate_object (created : nat) (s : state) : option (state * option exn) :=
  match active_state_ s with
  | AS_NOT_ACTIVE =>
      if negb (number_running_ s =? 0) then Some (s, Some ActiveObjectException)
      else if to_start <=? created then
        Some (mkState (tasks_ s) (Z.of_nat start_threads) (new_task_ s) (not_full_ s) (terminating_ s)
           (S (start_semaphore_ s)) to_start AS_ACTIVE
           (workers s ++ repeat (mkThread true WStarting) to_start) (producers s) (waiting s)
           (pushed s) (gone s) (executed s), None)
      else if created =? 0 then
        Some (mkState (tasks_ s) (number_of_unused_threads_ s) (new_task_ s) (not_full_ s) (terminating_ s)
           (S (start_semaphore_ s)) (number_running_ s) (active_state_ s) (workers s) (producers s) (waiting s)
           (pushed s) (gone s) (executed s), Some ActiveObjectException)
      else if start_semaphore_ s =? 0 then Some (s, Some ActiveObjectException)
      else None
  | _ => Some (s, Some AlreadyActive)
  end.

(** [TaskRunnerJob::terminate]: one unit per thread. *)
Definition make_terminate (s : state) : state :=
  mkState (tasks_ s) (number_of_unused_threads_ s) (new_task_ s + NUMBER_OF_THREADS_) (not_full_ s) true
    (start_semaphore_ s) (number_running_ s) (active_state_ s) (workers s) (producers s) (waiting s)
    (pushed s) (gone s) (executed s).

Definition set_active (a : ACTIVE_STATE) (s : state) : state :=
  mkState (tasks_ s) (number_of_unused_threads_ s) (new_task_ s) (not_full_ s) (terminating_ s)
    (start_semaphore_ s) (number_running_ s) a (workers s) (producers s) (waiting s) (pushed s) (gone s) (executed s).

Definition deactivate_object (s : state) : state :=
  match active_state_ s with
  | AS_ACTIVE => make_terminate (set_active AS_DEACTIVATING s)
  | _ => s
  end.

Definition set_waiting (w : waiter) (s : state) : state :=
  mkState (tasks_ s) (number_of_unused_threads_ s) (new_task_ s) (not_full_ s) (terminating_ s)
    (start_semaphore_ s) (number_running_ s) (active_state_ s) (workers s) (producers s) w (pushed s) (gone s) (executed s).

Definition is_done (th : thread) : bool := match pc th with WDone => true | _ => false end.
Definition alive (th : thread) : bool := negb (is_done th).
Definition disown (th : thread) : thread := mkThread false (pc th).

(** The end of [wait_for_completion], [start_semaphore_.acquire();
    number_running_ = 0]: finished threads are no more, and no later join looks
    at the others. *)
Definition reset_running (sem : nat) (s : state) : state :=
  mkState (tasks_ s) (number_of_unused_threads_ s) (new_task_ s) (not_full_ s) (terminating_ s)
    sem 0 (active_state_ s)
    (map disown (filter alive (workers s)))
    (producers s) JReset (pushed s) (gone s) (executed s).

Definition terminated (s : state) : state :=
  mkState (tasks_ s) (number_of_unused_threads_ s) (new_task_ s) (not_full_ s) false
    (start_semaphore_ s) (number_running_ s) (active_state_ s) (workers s) (producers s) JLast
    (pushed s) (gone s) (executed s).

(** The steps of [wait_object]. *)
Definition wait_begin (s : state) : option state :=
  match waiting s with
  | JOutside =>
      Some (set_waiting
        (match active_state_ s with
         | AS_NOT_ACTIVE => JLast
         | _ => if number_running_ s =? 0 then JReset else JJoining
         end) s)
  | _ => None
  end.

Definition wait_join (s : state) : option state :=
  match waiting s with
  | JJoining => if forallb (fun th => negb (owned th) || is_done th) (workers s) then Some (set_waiting JJoined s) else None
  | _ => None
  end.

Definition wait_reset (s : state) : option state :=
  match waiting s, start_semaphore_ s with
  | JJoined, S n => Some (reset_running n s)
  | _, _ => None
  end.

Definition wait_terminated (s : state) : option state :=
  match waiting s with JReset => Some (terminated s) | _ => None end.

Definition wait_end (s : state) : option state :=
  match waiting s with
  | JLast =>
      Some (set_waiting JOutside
        (match active_state_ s with
         | AS_DEACTIVATING => set_active AS_NOT_ACTIVE s
         | _ => s
         end))
  | _ => None
  end.

(** [TaskRunnerJob::enqueue_task] up to its guard: the null check and the
    slot.  An acquisition of [not_full_] that times out is one that fails. *)
Definition enqueue_task (t : option task) (s : state) : state * option exn :=
  match t with
  | None => (s, Some InvalidArgument)
  | Some t =>
      if LIMITED_ then
        match not_full_ s with
        | O => (s, Some Overflow)
        | S n =>
            (mkState (tasks_ s) (number_of_unused_threads_ s) (new_task_ s) n (terminating_ s)
               (start_semaphore_ s) (number_running_ s) (active_state_ s) (workers s) (producers s ++ [PHave t])
               (waiting s) (pushed s) (gone s) (executed s), None)
        end
      else
        (mkState (tasks_ s) (number_of_unused_threads_ s) (new_task_ s) (not_full_ s) (terminating_ s)
           (start_semaphore_ s) (number_running_ s) (active_state_ s) (workers s) (producers s ++ [PHave t])
           (waiting s) (pushed s) (gone s) (executed s), None)
  end.

(** [TaskRunnerJob::add_thread]; [created] is the result of [pthread_create]. *)
Definition add_thread (created : bool) (s : state) : state :=
  if (number_running_ s =? 0) || (number_running_ s =? threads_number) then s
  else if (Z.of_nat (length (tasks_ s)) <=? number_of_unused_threads_ s)%Z then s
  else if created then
    mkState (tasks_ s) (u32 (number_of_unused_threads_ s + 1)) (new_task_ s) (not_full_ s) (terminating_ s)
      (start_semaphore_ s) (S (number_running_ s)) (active_state_ s)
      (workers s ++ [mkThread true WStarting]) (producers s) (waiting s)
      (pushed s) (gone s) (executed s)
  else s.

Definition producer_push (j : nat) (created : bool) (s : state) : option state :=
  match nth_error (producers s) j with
  | Some (PHave t) =>
      Some (add_thread created
        (mkState (tasks_ s ++ [t]) (number_of_unused_threads_ s) (new_task_ s) (not_full_ s)
           (terminating_ s) (start_semaphore_ s) (number_running_ s) (active_state_ s) (workers s)
           (upd (producers s) j (PPushed t)) (waiting s) (pushed s ++ [t]) (gone s) (executed s)))
  | _ => None
  end.

(** The handler in the guard: [push_back] (or [add_ref]) throws, the slot is given
    back and the exception is passed on. *)
Definition producer_fail (j : nat) (s : state) : option (state * option exn) :=
  match nth_error (producers s) j with
  | Some (PHave t) =>
      Some (mkState (tasks_ s) (number_of_unused_threads_ s) (new_task_ s)
        (if LIMITED_ then S (not_full_ s) else not_full_ s) (terminating_ s) (start_semaphore_ s) (number_running_ s)
        (active_state_ s) (workers s) (remove_nth j (producers s)) (waiting s) (pushed s) (gone s) (executed s),
        Some BadAlloc)
  | _ => None
  end.

Definition producer_signal (j : nat) (s : state) : option state :=
  match nth_error (producers s) j with
  | Some (PPushed t) =>
      Some (mkState (tasks_ s) (number_of_unused_threads_ s) (S (new_task_ s)) (not_full_ s)
        (terminating_ s) (start_semaphore_ s) (number_running_ s) (active_state_ s) (workers s)
        (remove_nth j (producers s)) (waiting s) (pushed s) (gone s) (executed s))
  | _ => None
  end.

(** Thread [i] moves on to [w]. *)
Definition move (i : nat) (w : worker) (l : list thread) : list thread :=
  match nth_error l i with
  | Some th => upd l i (mkThread (owned th) w)
  | None => l
  end.

Definition set_worker (i : nat) (w : worker) (s : state) : state :=
  mkState (tasks_ s) (number_of_unused_threads_ s) (new_task_ s) (not_full_ s) (terminating_ s)
    (start_semaphore_ s) (number_running_ s) (active_state_ s) (move i w (workers s)) (producers s) (waiting s)
    (pushed s) (gone s) (executed s).

(** One turn of the loop of [work], action by action. *)
Definition work (i : nat) (s : state) : option state :=
  match option_map pc (nth_error (workers s) i) with
  | Some WStarting =>
      if start_semaphore_ s =? 0 then None
      else Some (set_worker i (if number_running_ s =? 0 then WDone else WWaiting) s)
  | Some WWaiting =>
      match new_task_ s with
      | O => None
      | S n =>
          Some (mkState (tasks_ s) (number_of_unused_threads_ s) n (not_full_ s) (terminating_ s)
            (start_semaphore_ s) (number_running_ s) (active_state_ s) (move i WAcquired (workers s)) (producers s)
            (waiting s) (pushed s) (gone s) (executed s))
      end
  | Some WAcquired =>
      if terminating_ s then Some (set_worker i WDone s)
      else
        match tasks_ s with
        | [] => Some (set_worker i WWaiting s)
        | t :: ts =>
            Some (mkState ts (u32 (number_of_unused_threads_ s - 1)) (new_task_ s) (not_full_ s)
              (terminating_ s) (start_semaphore_ s) (number_running_ s) (active_state_ s) (move i (WTaken t) (workers s))
              (producers s) (waiting s) (pushed s) (gone s ++ [(t, true)]) (executed s))
        end
  | Some (WTaken t) =>
      Some (mkState (tasks_ s) (number_of_unused_threads_ s) (new_task_ s)
        (if LIMITED_ then S (not_full_ s) else not_full_ s) (terminating_ s) (start_semaphore_ s)
        (number_running_ s) (active_state_ s) (move i (WRunning t) (workers s)) (producers s) (waiting s)
        (pushed s) (gone s) (executed s))
  | Some (WRunning t) =>
      Some (mkState (tasks_ s) (number_of_unused_threads_ s) (new_task_ s) (not_full_ s)
        (terminating_ s) (start_semaphore_ s) (number_running_ s) (active_state_ s) (move i WExecuted (workers s))
        (producers s) (waiting s) (pushed s) (gone s) (executed s ++ [t]))
  | Some WExecuted =>
      Some (mkState (tasks_ s) (u32 (number_of_unused_threads_ s + 1)) (new_task_ s) (not_full_ s)
        (terminating_ s) (start_semaphore_ s) (number_running_ s) (active_state_ s) (move i WWaiting (workers s))
        (producers s) (waiting s) (pushed s) (gone s) (executed s))
  | Some WDone | None => None
  end.

Definition clear (s : state) : state :=
  mkState [] (number_of_unused_threads_ s) (new_task_ s)
    (if LIMITED_ then length (tasks_ s) + not_full_ s else not_full_ s)
    (terminating_ s) (start_semaphore_ s) (number_running_ s) (active_state_ s) (workers s) (producers s) (waiting s)
    (pushed s) (gone s ++ map (fun t => (t, false)) (tasks_ s)) (executed s).

Definition ok (s : option state) : option (state * option exn) :=
  match s with Some s => Some (s, None) | None => None end.

(** The action's effect and the exception the caller gets, when it is enabled. *)
Definition exec (a : action) (s : state) : option (state * option exn) :=
  match a with
  | Activate created => activate_object created s
  | Deactivate => Some (deactivate_object s, None)
  | WaitBegin => ok (wait_begin s)
  | WaitJoin => ok (wait_join s)
  | WaitReset => ok (wait_reset s)
  | WaitTerminated => ok (wait_terminated s)
  | WaitEnd => ok (wait_end s)
  | Enqueue t => Some (enqueue_task t s)
  | ProducerPush j created => ok (producer_push j created s)
  | ProducerFail j => producer_fail j s
  | ProducerSignal j => ok (producer_signal j s)
  | WorkerStep i => ok (work i s)
  | Clear => Some (clear s, None)
  end.

Inductive reachable : state -> Prop :=
| reach_init : reachable init
| reach_step a s s' e : reachable s -> exec a s = Some (s', e) -> reachable s'.

Fixpoint runs (actions : list action) (s : state) : option state :=
  match actions with
  | [] => Some s
  | a :: rest => match exec a s with Some (s', _) => runs rest s' | None => None end
  end.
End TaskRunner.

(** ** Counting threads *)

Definition count {A} (p : A -> bool) (l : list A) : nat := length (filter p l).

Lemma count_app {A} (p : A -> bool) a b : count p (a ++ b) = count p a + count p b.
Proof. unfold count. now rewrite filter_app, length_app. Qed.

Lemma count_cons {A} (p : A -> bool) x l : count p (x :: l) = (if p x then 1 else 0) + count p l.
Proof. unfold count. cbn. now destruct (p x). Qed.

Lemma count_repeat {A} (p : A -> bool) x n : count p (repeat x n) = if p x then n else 0.
Proof.
  induction n as [|n IH]; cbn [repeat]; [now destruct (p x)|]. rewrite count_cons, IH.
  now destruct (p x).
Qed.

Lemma move_split i w l th : nth_error l i = Some th ->
  exists a b, l = a ++ th :: b /\ move i w l = a ++ mkThread (owned th) w :: b.
Proof.
  intros E. unfold move. rewrite E. destruct (nth_error_split l i E) as (a & b & -> & <-).
  exists a, b. split; [easy|]. apply upd_app.
Qed.

Lemma producer_split {A} j (l : list A) x y : nth_error l j = Some x ->
  exists a b, l = a ++ x :: b /\ upd l j y = a ++ y :: b /\ remove_nth j l = a ++ b.
Proof.
  intros E. destruct (nth_error_split l j E) as (a & b & -> & <-).
  exists a, b. split; [easy|]. split; [apply upd_app|]. unfold remove_nth.
  rewrite firstn_app, Nat.sub_diag, firstn_all, app_nil_r. f_equal.
  clear. induction a as [|z a IH]; [easy|apply IH].
Qed.

Definition holds_slot (p : producer) : bool := match p with PHave _ => true | _ => false end.
Definition signals (p : producer) : bool := match p with PPushed _ => true | _ => false end.
Definition took (th : thread) : bool := match pc th with WTaken _ => true | _ => false end.
Definition acquired (th : thread) : bool := match pc th with WAcquired => true | _ => false end.

(** The task a thread has taken and not yet executed. *)
Definition in_hand (th : thread) : list task :=
  match pc th with WTaken t | WRunning t => [t] | _ => [] end.

(** The turn of worker [i] that [H] records, one case per place it can be at. *)
Ltac worker_turn H i s :=
  unfold work, set_worker in H;
  destruct (nth_error (workers s) i) as [[o w]|] eqn:Ei; cbn [option_map pc] in H; [|discriminate H];
  destruct w as [| | |t|t| |];
  repeat match type of H with
  | context [match ?x with _ => _ end] => destruct x eqn:?
  end; try discriminate H; injection H as H; match type of H with _ = ?x => subst x end.

(** The worker's list before and after that turn, cut at the worker. *)
Ltac worker_moves :=
  match goal with
  | Ei : nth_error (workers ?s) ?i = Some _ |- context [move ?i ?w (workers ?s)] =>
      let a := fresh "a" in let b := fresh "b" in let Ew := fresh "Ew" in let Em := fresh "Em" in
      destruct (move_split i w _ _ Ei) as (a & b & Ew & Em);
      rewrite Em, Ew in *; cbn [owned] in *
  end.

(** The producers before and after a turn of producer [j]. *)
Ltac producer_moves :=
  match goal with
  | Ej : nth_error (producers ?s) ?j = Some _ |- context [upd (producers ?s) ?j ?y] =>
      let a := fresh "a" in let b := fresh "b" in let Ep := fresh "Ep" in let Eu := fresh "Eu" in
      destruct (producer_split j _ _ y Ej) as (a & b & Ep & Eu & _); rewrite Eu, Ep in *
  | Ej : nth_error (producers ?s) ?j = Some _ |- context [remove_nth ?j (producers ?s)] =>
      let a := fresh "a" in let b := fresh "b" in let Ep := fresh "Ep" in let Eu := fresh "Eu" in
      destruct (producer_split j _ _ (PHave 0) Ej) as (a & b & Ep & _ & Eu); rewrite Eu, Ep in *
  end.

(** Every action but a worker's, with the branch it takes. *)
Ltac action_cases E :=
  unfold exec, ok, activate_object, deactivate_object, make_terminate, set_active, set_waiting,
    wait_begin, wait_join, wait_reset, reset_running, wait_terminated, terminated, wait_end,
    enqueue_task, producer_push, add_thread, producer_fail, producer_signal, clear in E;
  repeat match type of E with
  | context [match ?x with _ => _ end] =>
      lazymatch x with
      | context [match _ with _ => _ end] => fail
      | _ => destruct x eqn:?
      end
  end; try discriminate E;
  try (let E1 := fresh in let E2 := fresh in injection E as E1 E2;
       match type of E1 with _ = ?x => subst x end; match type of E2 with _ = ?x => subst x end).

Ltac fields :=
  cbn [set_waiting set_active tasks_ number_of_unused_threads_ new_task_ not_full_ terminating_ start_semaphore_
       number_running_ active_state_ workers producers waiting pushed gone executed] in *.

Ltac counts :=
  rewrite ?count_app, ?count_cons, ?count_repeat, ?length_app, ?length_map, ?repeat_length in *;
  cbn [length holds_slot signals took acquired is_done pc count filter] in *.

Section Invariants.
Variables threads_number max_pending_tasks start_threads SEM_VALUE_MAX : nat.

Abbreviation exec_ := (exec threads_number max_pending_tasks start_threads).
Abbreviation reach := (reachable threads_number max_pending_tasks start_threads SEM_VALUE_MAX).
Abbreviation LIMITED := (LIMITED_ max_pending_tasks).

(** An invariant is proved on the initial state and on every action. *)
Lemma invariant (P : state -> Prop) :
  P (init max_pending_tasks SEM_VALUE_MAX) ->
  (forall a s s' e, P s -> exec_ a s = Some (s', e) -> P s') ->
  forall s, reach s -> P s.
Proof. intros H0 HS s. induction 1; eauto. Qed.

(** Slots of the bounded queue: free ones, those of producers on their way in,
    queued tasks, and tasks taken but not yet announced. *)
Definition slots_inv (s : state) : Prop :=
  LIMITED = true ->
  not_full_ s + count holds_slot (producers s) + length (tasks_ s) + count took (workers s)
  = slots max_pending_tasks SEM_VALUE_MAX.

Lemma slots_work i s s' : slots_inv s -> work max_pending_tasks i s = Some s' -> slots_inv s'.
Proof.
  intros H E L. specialize (H L). worker_turn E i s; fields; worker_moves; counts; try lia.
Qed.

(** Reset drops finished threads only. *)
Lemma count_reset (p : thread -> bool) l :
  (forall o w, p (mkThread o w) = p (mkThread false w)) -> (forall o, p (mkThread o WDone) = false) ->
  count p (map disown (filter alive l)) = count p l.
Proof.
  intros Hp Hd. induction l as [|[o w] l IH]; [easy|]. rewrite count_cons. cbn [filter].
  destruct (alive (mkThread o w)) eqn:A; cbn [map].
  - rewrite count_cons, IH. unfold disown. cbn [pc]. now rewrite (Hp o).
  - destruct w; try discriminate A. now rewrite IH, Hd.
Qed.

Lemma slots_exec a s s' e : slots_inv s -> exec_ a s = Some (s', e) -> slots_inv s'.
Proof.
  intros H E. destruct a as [c| | | | | | |t|j c|j|j|i|].
  12:{ unfold exec, ok in E. destruct (work _ i s) eqn:W; [|discriminate].
       injection E as <- <-. now apply (slots_work i s). }
  all: intros L; specialize (H L); action_cases E; fields; try producer_moves; counts;
    rewrite ?count_reset by easy; try lia; try congruence.
Qed.

(** Histories: what was pushed left the queue in that order, by a worker or by
    [clear], or is still in it; and what workers took was executed or is in a
    worker's hands. *)
Abbreviation occ t l := (count_occ Nat.eq_dec l t).
Definition taken (g : list (task * bool)) : list task := map fst (filter snd g).
Definition dropped (g : list (task * bool)) : list task := map fst (filter (fun p => negb (snd p)) g).

Definition history_inv (s : state) : Prop :=
  pushed s = map fst (gone s) ++ tasks_ s /\
  forall t, occ t (taken (gone s)) = occ t (executed s) + occ t (flat_map in_hand (workers s)).

Lemma taken_app a b : taken (a ++ b) = taken a ++ taken b.
Proof. unfold taken. now rewrite filter_app, map_app. Qed.

Lemma taken_dropped l : taken (map (fun t => (t, false)) l) = [].
Proof. unfold taken. induction l; [easy|]. apply IHl. Qed.

Lemma history_work i s s' : history_inv s -> work max_pending_tasks i s = Some s' -> history_inv s'.
Proof.
  intros [P H] E. worker_turn E i s; split; fields; try easy.
  all: try (intros x; specialize (H x); worker_moves;
    rewrite ?taken_app, ?flat_map_app, ?count_occ_app in *; cbn [flat_map in_hand pc app] in *;
    rewrite ?count_occ_app in *; cbn [taken filter map fst snd count_occ app] in *;
    repeat match goal with |- context [Nat.eq_dec ?a ?b] => destruct (Nat.eq_dec a b) end; lia).
  now rewrite P, map_app, <- app_assoc.
Qed.

Lemma in_hand_reset l : flat_map in_hand (map disown (filter alive l)) = flat_map in_hand l.
Proof.
  induction l as [|[o w] l IH]; [easy|]. cbn [filter flat_map].
  destruct (alive (mkThread o w)) eqn:A; cbn [map flat_map].
  - now rewrite IH.
  - destruct w; try discriminate A. easy.
Qed.

Lemma in_hand_repeat n : flat_map in_hand (repeat (mkThread true WStarting) n) = [].
Proof. induction n; [easy|]. cbn. easy. Qed.

Lemma history_exec a s s' e : history_inv s -> exec_ a s = Some (s', e) -> history_inv s'.
Proof.
  intros [P H] E. destruct a as [c| | | | | | |t|j c|j|j|i|].
  12:{ unfold exec, ok in E. destruct (work _ i s) eqn:W; [|discriminate].
       injection E as <- <-. now apply (history_work i s). }
  all: action_cases E; split; fields; try easy; try (intros x; specialize (H x));
    rewrite ?taken_app, ?taken_dropped, ?map_app, ?map_map, ?flat_map_app, ?in_hand_reset,
      ?in_hand_repeat, ?app_nil_r in *; cbn [flat_map in_hand pc fst] in *;
    rewrite ?map_id, ?app_nil_r; try easy; try (rewrite P; now rewrite <- app_assoc).
Qed.

(** *** The pool when all its threads are started at once *)

Definition all_started : Prop := 0 < threads_number /\ to_start threads_number start_threads = threads_number.

Definition pool (s : state) : Prop :=
  (number_running_ s = 0 /\ workers s = []) \/
  (number_running_ s = threads_number /\ length (workers s) = threads_number /\
   Forall (fun th => owned th = true) (workers s) /\ 0 < start_semaphore_ s).

(** Units of [new_task_], in the semaphore or on their way, are enough for the
    queued tasks and, in a shutdown, for the threads still to stop. *)
Definition units (s : state) : Prop :=
  length (tasks_ s) + (if terminating_ s && negb (number_running_ s =? 0) then threads_number else 0)
  <= new_task_ s + count acquired (workers s) + count signals (producers s) + count is_done (workers s).

Definition life_cycle (s : state) : Prop :=
  (terminating_ s = false -> count is_done (workers s) = 0) /\
  (active_state_ s = AS_ACTIVE -> terminating_ s = false /\ number_running_ s = threads_number) /\
  (number_running_ s = 0 -> terminating_ s = false \/ waiting s = JReset) /\
  (active_state_ s = AS_DEACTIVATING -> number_running_ s = 0 -> waiting s = JReset \/ waiting s = JLast) /\
  match waiting s with
  | JJoining => active_state_ s <> AS_NOT_ACTIVE /\ number_running_ s = threads_number
  | JJoined => active_state_ s = AS_DEACTIVATING /\ number_running_ s = threads_number /\
               count is_done (workers s) = threads_number
  | JReset => active_state_ s = AS_DEACTIVATING /\ number_running_ s = 0
  | _ => True
  end.

Definition pool_inv (s : state) : Prop := pool s /\ units s /\ life_cycle s.

Lemma count_le {A} (p : A -> bool) l : count p l <= length l.
Proof. induction l as [|x l IH]; [easy|]. rewrite count_cons. cbn. destruct (p x); lia. Qed.

Lemma count_full {A} (p : A -> bool) l : count p l = length l -> forall x, In x l -> p x = true.
Proof.
  induction l as [|y l IH]; [easy|]. rewrite count_cons. cbn [length]. pose proof (count_le p l).
  destruct (p y) eqn:E; [|lia]. intros C x [<-|Hin]; [easy|]. apply IH; [lia|easy].
Qed.

Lemma all_done_alive l : count is_done l = length l -> filter alive l = [].
Proof.
  induction l as [|y l IH]; [easy|]. rewrite count_cons. cbn [length filter]. unfold alive.
  pose proof (count_le is_done l). destruct (is_done y); [|lia]. intros C. apply IH. lia.
Qed.

Lemma joined_done l :
  Forall (fun th => owned th = true) l ->
  forallb (fun th => negb (owned th) || is_done th) l = true -> count is_done l = length l.
Proof.
  induction 1 as [|th l Ho Hl IH]; [easy|]. cbn [forallb length]. rewrite count_cons, Ho.
  intros [H1 H2]%andb_true_iff. cbn in H1. rewrite H1, IH by easy. easy.
Qed.

Lemma owned_move i w l : Forall (fun th => owned th = true) l -> Forall (fun th => owned th = true) (move i w l).
Proof.
  intros H. destruct (nth_error l i) as [th|] eqn:E; [|unfold move; now rewrite E].
  destruct (move_split i w l th E) as (a & b & -> & ->).
  apply Forall_app in H as [Ha [Ht Hb]%Forall_cons_iff]. apply Forall_app. split; [easy|].
  now constructor.
Qed.

Lemma length_move i w l : length (move i w l) = length l.
Proof. unfold move. destruct (nth_error l i); [apply upd_length|easy]. Qed.

Lemma pool_work i s s' :
  0 < threads_number -> pool_inv s -> work max_pending_tasks i s = Some s' -> pool_inv s'.
Proof.
  intros HN (P & U & L1 & L2 & L3 & L5 & L4) E.
  assert (number_running_ s = threads_number /\ length (workers s) = threads_number /\
    Forall (fun th => owned th = true) (workers s) /\ 0 < start_semaphore_ s) as (R & W & O & S1).
  { destruct P as [[_ W]|P]; [|easy]. unfold work in E. rewrite W in E. destruct i; discriminate E. }
  assert (forall th, nth_error (workers s) i = Some th -> waiting s = JJoined -> is_done th = true) as J.
  { intros th Ei Jw. rewrite Jw in L4. apply (count_full _ (workers s)); [lia|]. eapply nth_error_In, Ei. }
  unfold pool_inv, pool, units, life_cycle in *.
  worker_turn E i s; fields; rewrite ?R in *; try (match goal with H : (threads_number =? 0) = true |- _ => apply Nat.eqb_eq in H; lia end);
    rewrite ?length_move;
    (split; [right; repeat split; try lia; now apply owned_move|]);
    pose proof (J _ eq_refl) as J'; worker_moves; counts;
    (split; [destruct (Nat.eqb_spec threads_number 0); try lia; destruct (terminating_ s); cbn in *; lia|]);
    repeat split; try tauto; try lia; try (intros; lia);
    try (destruct (waiting s); try easy; discriminate (J' eq_refl)).
Qed.

(** Facts the branch of an action gives, made usable by [lia] and [congruence]. *)
Ltac branch_facts :=
  repeat match goal with
  | H : waiting ?s = _ |- _ => rewrite H in *; clear H
  | H : active_state_ ?s = _ |- _ => rewrite H in *; clear H
  | H : start_semaphore_ ?s = _ |- _ => rewrite H in *; clear H
  | H : (_ =? _) = true |- _ => apply Nat.eqb_eq in H
  | H : (_ =? _) = false |- _ => apply Nat.eqb_neq in H
  | H : negb _ = true |- _ => apply negb_true_iff in H
  | H : negb _ = false |- _ => apply negb_false_iff in H
  | H : _ || _ = false |- _ => apply orb_false_iff in H as [? ?]
  end.

(** The other actions, case by case. *)
Lemma pool_exec a s s' e : all_started -> pool_inv s -> exec_ a s = Some (s', e) -> pool_inv s'.
Proof.
  intros [HN AS] H E. destruct a as [c| | | | | | |t|j c|j|j|i|].
  12:{ unfold exec, ok in E. destruct (work _ i s) eqn:W; [|discriminate].
       injection E as <- <-. now apply (pool_work i s). }
  all: action_cases E; try exact H.
  all: destruct H as (P & U & L1 & L2 & L3 & L5 & L4); unfold pool_inv, pool, units, life_cycle in *; fields.
  all: branch_facts; try producer_moves; counts.
  all: try (destruct P as [[R W]|(R & W & O & S1)]; rewrite ?R, ?W in *; cbn in *; repeat split; 
    first [tauto|intuition lia|intuition congruence]).
  - (* Activate *) rewrite AS in *. destruct P as [[R W]|[R _]]; [|lia]. rewrite W in *.
    destruct (L3 R) as [T|T]; [|rewrite T in L4; easy]. rewrite T in *.
    repeat split; try lia; try (intros; lia); try easy;
      [|destruct (waiting s); try easy; destruct L4; congruence].
    right. split; [easy|]. split; [easy|]. split; [|lia]. rewrite Forall_forall. intros th Hth.
    now apply repeat_spec in Hth as ->.
  - (* Deactivate *) destruct (L2 eq_refl) as [T R]. rewrite T, R in *. unfold NUMBER_OF_THREADS_.
    cbn [andb] in *.
    split; [tauto|]. split; [destruct (negb _); lia|]. repeat split; try easy; try (intros; lia).
    destruct (waiting s); try easy; lia.
  - (* WaitJoin *) destruct L4 as [NA R]. destruct P as [[R0 _]|(_ & W & O & S1)]; [lia|].
    pose proof (joined_done _ O Heqb) as D.
    assert (active_state_ s = AS_DEACTIVATING) as A.
    { destruct (active_state_ s); [|easy|easy]. destruct (L2 eq_refl) as [T _]. specialize (L1 T). lia. }
    rewrite A. repeat split; try easy; try lia; tauto.
  - (* WaitReset *) destruct L4 as (A & R & D). destruct P as [[R0 _]|(_ & W & _)]; [lia|].
    pose proof (count_reset acquired (workers s) (fun _ _ => eq_refl) (fun _ => eq_refl)) as Q.
    rewrite all_done_alive in * by lia. cbn [map] in *.
    assert (length (tasks_ s) <= new_task_ s + count signals (producers s)) as U'.
    { destruct (terminating_ s); [|specialize (L1 eq_refl); lia]. rewrite R in U. rewrite <- Q in U.
      destruct (Nat.eqb_spec threads_number 0); cbn in U; lia. }
    rewrite A, andb_false_r. cbn. repeat split; try easy; try tauto; lia.
Qed.

Lemma pool_reach s : all_started -> reach s -> pool_inv s.
Proof.
  intros A. apply invariant; [|intros a s0 s1 e; now apply pool_exec].
  split; [now left|]. split; [apply Nat.le_0_l|]. now repeat split; auto.
Qed.

(** ** What is left to do

    The threads inside the pool and inside [enqueue_task], left alone, come to
    rest: each of their actions uses up some of [potential]. *)
Definition internal (a : action) : bool :=
  match a with WorkerStep _ | ProducerPush _ _ | ProducerFail _ | ProducerSignal _ => true | _ => false end.

Definition at_rest (s : state) : Prop := forall a, internal a = true -> exec_ a s = None.

Definition worker_weight (th : thread) : nat :=
  match pc th with
  | WTaken _ => 4 | WRunning _ => 3 | WExecuted => 2 | WStarting | WAcquired => 1 | WWaiting | WDone => 0
  end.

Definition producer_weight (p : producer) : nat := match p with PHave _ => 12 | PPushed _ => 4 end.

Definition potential (s : state) : nat :=
  3 * new_task_ s + 6 * length (tasks_ s) + list_sum (map worker_weight (workers s))
  + list_sum (map producer_weight (producers s)).

Lemma potential_work i s s' : work max_pending_tasks i s = Some s' -> potential s' < potential s.
Proof.
  intros E. unfold potential. worker_turn E i s; fields; worker_moves;
    rewrite ?map_app, ?list_sum_app; unfold list_sum; cbn [map fold_right worker_weight pc length] in *;
    rewrite ?Heqn, ?Heql; cbn [length]; try lia; destruct (_ =? 0); cbn; lia.
Qed.

Lemma potential_exec a s s' e : internal a = true -> exec_ a s = Some (s', e) -> potential s' < potential s.
Proof.
  destruct a as [c| | | | | | |t|j c|j|j|i|]; try discriminate; intros _ E.
  4:{ unfold exec, ok in E. destruct (work _ i s) eqn:W; [|discriminate].
      injection E as <- <-. now apply (potential_work i s). }
  all: action_cases E; unfold potential; fields; producer_moves;
    rewrite ?map_app, ?list_sum_app, ?length_app; unfold list_sum; cbn [map fold_right producer_weight worker_weight pc length]; lia.
Qed.

Lemma potential_runs actions s s' :
  forallb internal actions = true -> runs threads_number max_pending_tasks start_threads actions s = Some s' ->
  length actions + potential s' <= potential s.
Proof.
  revert s. induction actions as [|a rest IH]; intros s I E; cbn [runs forallb length] in *; [now injection E as ->|].
  apply andb_true_iff in I as [Ia Ir]. destruct (exec_ a s) as [[s1 e]|] eqn:Ea; [|discriminate].
  specialize (IH s1 Ir E). pose proof (potential_exec a s s1 e Ia Ea). lia.
Qed.

Lemma runs_reach actions s s' :
  reach s -> runs threads_number max_pending_tasks start_threads actions s = Some s' -> reach s'.
Proof.
  revert s. induction actions as [|a rest IH]; intros s R E; cbn in E; [now injection E as <-|].
  destruct (exec_ a s) as [[s1 e]|] eqn:Ea; [|discriminate]. apply (IH s1); [|easy].
  now apply (reach_step _ _ _ _ a s s1 e).
Qed.

(** At rest nobody is in [enqueue_task], and a worker waits for a task or is done. *)
Lemma rest_producers s : at_rest s -> producers s = [].
Proof.
  intros Q. destruct (producers s) as [|[t|t] l] eqn:E; [easy| |].
  - specialize (Q (ProducerPush 0 false) eq_refl). unfold exec, ok, producer_push in Q. now rewrite E in Q.
  - specialize (Q (ProducerSignal 0) eq_refl). unfold exec, ok, producer_signal in Q. now rewrite E in Q.
Qed.

Lemma rest_worker s th : at_rest s -> 0 < start_semaphore_ s -> In th (workers s) ->
  is_done th = true \/ (pc th = WWaiting /\ new_task_ s = 0).
Proof.
  intros Q S1 [i Ei]%In_nth_error. specialize (Q (WorkerStep i) eq_refl).
  unfold exec, ok, work in Q. rewrite Ei in Q. destruct th as [o w]. unfold is_done. cbn [option_map pc] in *.
  destruct w; try discriminate Q; auto.
  - destruct (Nat.eqb_spec (start_semaphore_ s) 0); [lia|discriminate Q].
  - destruct (new_task_ s); [now right|discriminate Q].
  - destruct (terminating_ s); [discriminate Q|]. destruct (tasks_ s); discriminate Q.
Qed.

Lemma count_zero {A} (p : A -> bool) l : (forall x, In x l -> p x = false) -> count p l = 0.
Proof.
  induction l as [|x l IH]; [easy|]. intros H. rewrite count_cons, (H x) by now left.
  apply IH. intros y Hy. apply H. now right.
Qed.

Lemma rest_acquired s : at_rest s -> 0 < start_semaphore_ s -> count acquired (workers s) = 0.
Proof.
  intros Q S1. apply count_zero. intros th Hth. unfold acquired.
  destruct (rest_worker s th Q S1 Hth) as [D|[-> _]]; [|easy]. unfold is_done in D. now destruct (pc th).
Qed.

Lemma rest_in_hand s : at_rest s -> 0 < start_semaphore_ s -> flat_map in_hand (workers s) = [].
Proof.
  intros Q S1. pose proof (fun th => rest_worker s th Q S1) as H. induction (workers s) as [|th l IH]; [easy|].
  cbn [flat_map]. rewrite IH by (intros; apply H; now right). rewrite app_nil_r. unfold in_hand.
  destruct (H th (or_introl eq_refl)) as [D|[-> _]]; [|easy]. unfold is_done in D. now destruct (pc th).
Qed.

Lemma gone_split g : Permutation (map fst g) (taken g ++ dropped g).
Proof.
  induction g as [|[t b] g IH]; [constructor|]. unfold taken, dropped in *. cbn [map filter fst snd negb].
  destruct b; cbn [map fst negb app].
  - now constructor.
  - now apply Permutation_cons_app.
Qed.

Lemma history_reach s : reach s -> history_inv s.
Proof. apply invariant; [now split|apply history_exec]. Qed.

Lemma slots_reach s : reach s -> slots_inv s.
Proof. apply invariant; [intros _; cbn; lia|apply slots_exec]. Qed.

Lemma taken_permutation s : history_inv s ->
  Permutation (taken (gone s)) (executed s ++ flat_map in_hand (workers s)).
Proof. intros [_ H]. apply (Permutation_count_occ Nat.eq_dec). intros t. now rewrite count_occ_app. Qed.

(** The two ways the pool comes to rest. *)
Lemma rest_terminating s : all_started -> pool_inv s -> at_rest s -> number_running_ s <> 0 ->
  terminating_ s = true -> forallb is_done (workers s) = true.
Proof.
  intros [HN _] (P & U & L1 & _) Q R T. destruct P as [[R0 _]|(RN & W & _ & S1)]; [easy|].
  apply forallb_forall. intros th Hth. destruct (rest_worker s th Q S1 Hth) as [D|[_ N0]]; [easy|].
  apply (count_full _ (workers s)); [|easy]. pose proof (count_le is_done (workers s)).
  unfold units in U. rewrite T, RN, N0, (rest_acquired s), (rest_producers s) in U by easy.
  destruct (Nat.eqb_spec threads_number 0); cbn in U; lia.
Qed.

Lemma rest_working s : all_started -> pool_inv s -> at_rest s -> number_running_ s <> 0 ->
  terminating_ s = false -> tasks_ s = [] /\ Forall (fun th => pc th = WWaiting) (workers s) /\
  flat_map in_hand (workers s) = [].
Proof.
  intros [HN _] (P & U & L1 & _) Q R T. destruct P as [[R0 _]|(RN & W & _ & S1)]; [easy|].
  specialize (L1 T).
  assert (forall th, In th (workers s) -> pc th = WWaiting /\ new_task_ s = 0) as H.
  { intros th Hth. destruct (rest_worker s th Q S1 Hth) as [D|D]; [|easy].
    apply in_split in Hth as (a & b & E). rewrite E, count_app, count_cons, D in L1. lia. }
  unfold units in U. rewrite T, L1, (rest_acquired s), (rest_producers s) in U by easy. cbn in U.
  split; [|split; [apply Forall_forall; intros th Hth; now apply H|now apply rest_in_hand]].
  destruct (workers s) as [|th l]; [cbn in W; lia|]. destruct (H th (or_introl eq_refl)) as [_ N0].
  destruct (tasks_ s); [easy|]. cbn in U. lia.
Qed.

(** the bounded queue, in every interleaving.  With a limit, the queue never
    holds more tasks than it, and [enqueue_task] refuses a task, changing
    nothing, exactly when every slot is used: by a queued task, by a producer
    on its way to the queue, or by a task just taken whose slot is not yet
    given back. *)
Theorem task_queue_bounded t s :
  0 < max_pending_tasks -> reach s ->
  length (tasks_ s) <= max_pending_tasks /\
  (enqueue_task max_pending_tasks (Some t) s = (s, Some Overflow) <->
   count holds_slot (producers s) + length (tasks_ s) + count took (workers s)
   = slots max_pending_tasks SEM_VALUE_MAX).
Proof.
  intros HM R. assert (LIMITED = true) as L by (unfold LIMITED_; destruct max_pending_tasks; [lia|easy]).
  pose proof (slots_reach s R L) as H. unfold slots in *. split; [lia|].
  unfold enqueue_task. rewrite L. destruct (not_full_ s) as [|n] eqn:E.
  - split; [lia|easy].
  - split; [discriminate|lia].
Qed.

(** C19: no task is lost, duplicated or overtaken, in every interleaving of
    producers, workers, [clear] and the life cycle.  Tasks leave the queue in
    the order they entered it, taken by a worker or dropped by [clear], and
    the tasks taken are, each as often as it was taken, those executed and
    those in a worker's hands. *)
Theorem task_exactly_once s : reach s ->
  pushed s = map fst (gone s) ++ tasks_ s /\
  Permutation (taken (gone s)) (executed s ++ flat_map in_hand (workers s)).
Proof.
  intros R. pose proof (history_reach s R) as H. split; [apply H|now apply taken_permutation].
Qed.

End Invariants.

(** ** Concrete runs *)

Definition after (threads_number max_pending start_threads : nat) (actions : list action) : state :=
  match runs threads_number max_pending start_threads actions (init max_pending 100) with
  | Some s => s
  | None => init max_pending 100
  end.

Lemma after_reach n m k actions : reachable n m k 100 (after n m k actions).
Proof.
  unfold after. destruct (runs n m k actions (init m 100)) eqn:E; [|constructor].
  eapply runs_reach; [constructor|exact E].
Qed.

(** One thread, a queue of one: a task is pushed, the second refused. *)
Definition one_queued : state := after 1 1 1 [Activate 1; Enqueue (Some 7); ProducerPush 0 true].

Lemma task_queue_bounded_witness :
  length (tasks_ one_queued) <= 1 /\ enqueue_task 1 (Some 8) one_queued = (one_queued, Some Overflow).
Proof.
  destruct (task_queue_bounded 1 1 1 100 8 one_queued (le_n 1) (after_reach 1 1 1 _)) as [H1 H2].
  split; [exact H1|]. apply H2. vm_compute. reflexivity.
Defined.

Definition one_turn : list action :=
  [WorkerStep 0; ProducerSignal 0; WorkerStep 0; WorkerStep 0; WorkerStep 0; WorkerStep 0; WorkerStep 0].

Definition one_run : list action := Activate 1 :: Enqueue (Some 7) :: ProducerPush 0 true :: one_turn.
Definition one_executed : state := after 1 1 1 one_run.

Lemma task_exactly_once_witness :
  pushed one_executed = [7] ++ tasks_ one_executed /\ Permutation [7] (executed one_executed ++ []).
Proof. exact (task_exactly_once 1 1 1 100 one_executed (after_reach 1 1 1 one_run)). Defined.


(** A shutdown: the thread leaves, the join returns, the object is inactive. *)
Example shutdown_run :
  let s := after 1 1 1 (one_run ++ [Deactivate; WorkerStep 0; WorkerStep 0;
    WaitBegin; WaitJoin; WaitReset; WaitTerminated; WaitEnd]) in
  active_state_ s = AS_NOT_ACTIVE /\ number_running_ s = 0 /\ workers s = [] /\ terminating_ s = false.
Proof. vm_compute. auto. Qed.

(** A pool that starts one of two threads: a task enqueued after the last join
    and before [number_running_ = 0] creates a thread that nothing joins, alive
    in an object that is not active. *)
Example unjoined_thread :
  let s := after 2 0 1 [Activate 1; Enqueue (Some 7); Enqueue (Some 8); Deactivate; WorkerStep 0; WorkerStep 0; WorkerStep 0;
    ProducerPush 0 false; WaitBegin; WaitJoin; ProducerPush 1 true; WaitReset; WaitTerminated; WaitEnd] in
  active_state_ s = AS_NOT_ACTIVE /\ number_running_ s = 0 /\ workers s = [mkThread false WStarting].
Proof. vm_compute. auto. Qed.

(** A [wait_object] entered while the object is inactive ends a later
    activation without joining it, after which no activation succeeds. *)
Example wait_without_join :
  let s := after 1 0 1 [WaitBegin; Activate 1; Deactivate; WaitEnd] in
  active_state_ s = AS_NOT_ACTIVE /\ number_running_ s = 1 /\
  option_map snd (exec 1 0 1 (Activate 1) s) = Some (Some ActiveObjectException).
Proof. vm_compute. auto. Qed.

(** A task for which there is no memory leaves the bounded queue as it was. *)
Example enqueue_fails :
  let s := after 1 1 1 [Activate 1; Enqueue (Some 7)] in
  not_full_ s = 0 /\
  option_map snd (exec 1 1 1 (ProducerFail 0) s) = Some (Some BadAlloc) /\
  after 1 1 1 [Activate 1; Enqueue (Some 7); ProducerFail 0] = after 1 1 1 [Activate 1].
Proof. vm_compute. auto. Qed.

(** A first [pthread_create] that fails leaves a unit in [start_semaphore_]. *)
Example start_unit_left :
  start_semaphore_ (after 1 0 1 [Activate 0]) = 1.
Proof. reflexivity. Qed.
