(* ===== verification/Scheduler.v ===== *)
(** * Scheduler: messages delivered at their times

    Models [Planner::PlannerJob] of [src/src/Generics/Scheduler.cpp] and
    [Scheduler.hpp]: [schedule], [unschedule], [clear], [terminate] and the loop
    of [work].  As in [TaskRunner], an action is what one thread does between
    two synchronisation points, and the reachable states are those of all
    interleavings of the working thread with any number of callers.

    [signalled] says whether the condition variable was signalled while the
    working thread waits on it, [signallers] counts the callers that are between
    the mutex and [new_event_in_schedule_.signal()]; [scheduled], [removed] and
    [delivered] are histories that the code does not keep.  A wait may end at
    any moment (its time has come, it was signalled, it failed, or for no
    reason); [must_wake] says when it cannot last. *)

From Stdlib Require Import ZArith List Bool Lia Permutation Sorted.
From S2P Require Import Prelude Time.
Import ListNotations.
#[local] Open Scope nat_scope.

Record TimedMessage : Type := mkMessage { time : Time; goal : nat }.

Definition ZERO : Time := mkTime 0 0.

(** Where the working thread is; [deadline] is [*pabs_time]. *)
Inductive planner_pc : Type :=
| PTop                              (* before svc 1 *)
| PPumped (deadline : option Time)  (* nothing pending, before the guard of svc 2 *)
| PWaiting (deadline : option Time) (* in timed_wait *)
| PDeliver                          (* svc 3 *)
| PDone.                            (* not running *)

Record delivery : Type := mkDelivery { message : TimedMessage; cur_time : Time; shift : Time }.

Record planner : Type := mkPlanner {
  messages_ : list TimedMessage;
  have_new_events_ : bool;
  terminating_ : bool;
  delivery_time_shift_ : Time;
  pc : planner_pc;
  pending : list delivery;
  signalled : bool;
  signallers : nat;
  scheduled : list TimedMessage;
  removed : list TimedMessage;
  delivered : list delivery;
}.

Definition planner_new : planner :=
  mkPlanner [] false false ZERO PDone [] false 0 [] [] [].

(** [schedule]'s search: [itor] goes back from the end while the times are not
    before [tm]. *)
Fixpoint schedule_position (messages : list TimedMessage) (tm : Time) (itor : nat) : nat :=
  match itor with
  | O => O
  | S i =>
      match nth_error messages i with
      | Some m => if time_lt (time m) tm then S i else schedule_position messages tm i
      | None => schedule_position messages tm i
      end
  end.

Definition schedule (goal : option nat) (t : Time) (s : planner) : planner * option exn :=
  match goal with
  | None => (s, Some InvalidArgument)
  | Some g =>
      let tm := if time_gt t ZERO then t else ZERO in
      let itor := schedule_position (messages_ s) tm (length (messages_ s)) in
      let signal := itor =? 0 in
      let m := mkMessage tm g in
      (mkPlanner (firstn itor (messages_ s) ++ m :: skipn itor (messages_ s))
         (if signal then true else have_new_events_ s) (terminating_ s) (delivery_time_shift_ s) (pc s)
         (pending s) (signalled s) (if signal then S (signallers s) else signallers s)
         (m :: scheduled s) (removed s) (delivered s), None)
  end.

Definition is_waiting (s : planner) : bool := match pc s with PWaiting _ => true | _ => false end.

(** The end of [schedule]: [new_event_in_schedule_.signal()]. *)
Definition schedule_signal (s : planner) : option planner :=
  match signallers s with
  | O => None
  | S n =>
      Some (mkPlanner (messages_ s) (have_new_events_ s) (terminating_ s) (delivery_time_shift_ s) (pc s)
        (pending s) (signalled s || is_waiting s) n (scheduled s) (removed s) (delivered s))
  end.

Definition is_goal (g : nat) (m : TimedMessage) : bool := goal m =? g.

Definition unschedule (g : nat) (s : planner) : planner * nat :=
  let gone := filter (is_goal g) (messages_ s) in
  (mkPlanner (filter (fun m => negb (is_goal g m)) (messages_ s)) (have_new_events_ s) (terminating_ s)
     (delivery_time_shift_ s) (pc s) (pending s) (signalled s) (signallers s) (scheduled s)
     (gone ++ removed s) (delivered s), length gone).

Definition clear (s : planner) : planner :=
  mkPlanner [] (have_new_events_ s) (terminating_ s) (delivery_time_shift_ s) (pc s) (pending s) (signalled s)
    (signallers s) (scheduled s) (messages_ s ++ removed s) (delivered s).

(** [make_terminate] with [PlannerJob::terminate], under the mutex. *)
Definition terminate (s : planner) : planner :=
  mkPlanner (messages_ s) true true (delivery_time_shift_ s) (pc s) (pending s)
    (signalled s || is_waiting s) (signallers s) (scheduled s) (removed s) (delivered s).

(** [activate_object] of a planner that is not running, [terminated] done. *)
Definition start (s : planner) : option planner :=
  match pc s with
  | PDone =>
      Some (mkPlanner (messages_ s) (have_new_events_ s) false (delivery_time_shift_ s) PTop [] false
        (signallers s) (scheduled s) (removed s) (delivered s))
  | _ => None
  end.

Section Work.
Variable delivery_time_adjustment_ : bool.

(** When a message is due, given [delivery_time_shift_]. *)
Definition adjusted (shift t : Time) : Time :=
  if delivery_time_adjustment_ then if time_gt t shift then time_sub t shift else ZERO else t.

(** svc 1: what is overdue, what stays, and the time of the first that stays. *)
Fixpoint pump (shift now : Time) (messages : list TimedMessage) :
    list TimedMessage * list TimedMessage * option Time :=
  match messages with
  | [] => ([], [], None)
  | m :: rest =>
      let abs_time := adjusted shift (time m) in
      if time_le abs_time now then
        let '(overdue, stay, deadline) := pump shift now rest in (m :: overdue, stay, deadline)
      else ([], messages, Some abs_time)
  end.

Definition set_pc (c : planner_pc) (s : planner) : planner :=
  mkPlanner (messages_ s) (have_new_events_ s) (terminating_ s) (delivery_time_shift_ s) c (pending s)
    false (signallers s) (scheduled s) (removed s) (delivered s).

Definition svc1 (now : Time) (s : planner) : option planner :=
  match pc s with
  | PTop =>
      if terminating_ s then Some (set_pc PDone s)
      else
        let '(overdue, stay, deadline) := pump (delivery_time_shift_ s) now (messages_ s) in
        Some (mkPlanner stay (have_new_events_ s) (terminating_ s) (delivery_time_shift_ s)
          (match overdue with [] => PPumped deadline | _ => PDeliver end)
          (map (fun m => mkDelivery m now (delivery_time_shift_ s)) overdue)
          false (signallers s) (scheduled s) (removed s) (delivered s))
  | _ => None
  end.

(** The rest of svc 2 when the wait loop is left with [new_event_in_schedule];
    [wake_tm] is the time of day then. *)
Definition woken (deadline : option Time) (new_event_in_schedule : bool) (wake_tm : Time) (s : planner) : planner :=
  if terminating_ s then set_pc PDone s
  else if new_event_in_schedule then
    mkPlanner (messages_ s) false (terminating_ s)
      (match deadline with
       | Some abs_time =>
           if delivery_time_adjustment_ && time_gt wake_tm abs_time
           then time_div (time_sub wake_tm abs_time) 2 else delivery_time_shift_ s
       | None => delivery_time_shift_ s
       end)
      PTop (pending s) false (signallers s) (scheduled s) (removed s) (delivered s)
  else set_pc PTop s.

(** svc 2 up to [timed_wait], or past it when there are new events. *)
Definition svc2 (wake_tm : Time) (s : planner) : option planner :=
  match pc s with
  | PPumped deadline =>
      Some (if have_new_events_ s then woken deadline true wake_tm s else set_pc (PWaiting deadline) s)
  | _ => None
  end.

(** [timed_wait] returns [ret], or throws ([ret] is then false). *)
Definition wake (ret : bool) (wake_tm : Time) (s : planner) : option planner :=
  match pc s with
  | PWaiting deadline => Some (woken deadline (if have_new_events_ s then ret else false) wake_tm s)
  | _ => None
  end.

(** svc 3: one message delivered. *)
Definition svc3 (s : planner) : option planner :=
  match pc s, pending s with
  | PDeliver, d :: rest =>
      Some (mkPlanner (messages_ s) (have_new_events_ s) (terminating_ s) (delivery_time_shift_ s)
        (match rest with [] => PTop | _ => PDeliver end) rest false (signallers s) (scheduled s) (removed s)
        (delivered s ++ [d]))
  | _, _ => None
  end.

Inductive action : Type :=
| Schedule (g : option nat) (t : Time)
| ScheduleSignal
| Unschedule (g : nat)
| Clear
| Terminate
| Start
| Svc1 (now : Time)
| Svc2 (wake_tm : Time)
| Wake (ret : bool) (wake_tm : Time)
| Svc3.

Definition exec (a : action) (s : planner) : option planner :=
  match a with
  | Schedule g t => Some (fst (schedule g t s))
  | ScheduleSignal => schedule_signal s
  | Unschedule g => Some (fst (unschedule g s))
  | Clear => Some (clear s)
  | Terminate => Some (terminate s)
  | Start => start s
  | Svc1 now => svc1 now s
  | Svc2 wake_tm => svc2 wake_tm s
  | Wake ret wake_tm => wake ret wake_tm s
  | Svc3 => svc3 s
  end.

(** The times a caller and the clock give are normalised. *)
Definition action_wf (a : action) : Prop :=
  match a with
  | Schedule _ t | Svc1 t | Svc2 t | Wake _ t => wf t
  | _ => True
  end.

Inductive planner_reachable : planner -> Prop :=
| planner_init : planner_reachable planner_new
| planner_step a s s' : planner_reachable s -> action_wf a -> exec a s = Some s' -> planner_reachable s'.
End Work.

(** ** The list of messages *)

Abbreviation us m := (microseconds (time m)).
Definition earlier (a b : TimedMessage) : Prop := (us a <= us b)%Z.
Definition good (m : TimedMessage) : Prop := wf (time m) /\ (0 <= us m)%Z.

Lemma le_spec a b : wf a -> wf b -> time_le a b = (microseconds a <=? microseconds b)%Z.
Proof. intros Ha Hb. unfold time_le. rewrite lt_spec by easy. now rewrite <- Z.leb_antisym. Qed.

Lemma position_app l l' tm n : n <= length l -> schedule_position (l ++ l') tm n = schedule_position l tm n.
Proof.
  induction n as [|n IH]; intros H; [easy|]. cbn [schedule_position]. rewrite nth_error_app1 by lia.
  destruct (nth_error l n); rewrite IH by lia; easy.
Qed.

(** The new message goes before those that are not earlier, after one that is. *)
Lemma position_split l tm : exists a b,
  l = a ++ b /\ schedule_position l tm (length l) = length a /\
  Forall (fun m => time_lt (time m) tm = false) b /\
  (a = [] \/ exists a' m, a = a' ++ [m] /\ time_lt (time m) tm = true).
Proof.
  induction l as [|x l (a & b & E & P & F & L)] using rev_ind.
  - exists [], []. repeat split; auto.
  - rewrite length_app. replace (length l + length [x]) with (S (length l)) by (cbn; lia).
    cbn [schedule_position]. rewrite nth_error_app2, Nat.sub_diag by lia. cbn [nth_error].
    destruct (time_lt (time x) tm) eqn:Lt.
    + exists (l ++ [x]), []. rewrite app_nil_r, length_app. cbn [length]. repeat split; auto; [lia|].
      right. now exists l, x.
    + exists a, (b ++ [x]). rewrite position_app, P, E, <- app_assoc by lia. repeat split; auto.
      apply Forall_app. now split; [|constructor].
Qed.

Lemma sorted_app (a b : list TimedMessage) :
  StronglySorted earlier (a ++ b) <->
  StronglySorted earlier a /\ StronglySorted earlier b /\ (forall x y, In x a -> In y b -> earlier x y).
Proof.
  induction a as [|x a IH]; cbn [app].
  - split; [|tauto]. intros H. repeat split; [constructor|easy|]. intros x y [].
  - split.
    + intros [H1 H2]%StronglySorted_inv. apply IH in H1 as (Sa & Sb & X).
      apply Forall_app in H2 as [Fa Fb]. repeat split; [now constructor|easy|].
      intros u v [<-|Hu] Hv; [|now apply X]. rewrite Forall_forall in Fb. now apply Fb.
    + intros (H1 & Sb & X). apply StronglySorted_inv in H1 as [Sa Fa]. constructor.
      * apply IH. repeat split; [easy|easy|]. intros u v Hu Hv. apply X; [now right|easy].
      * apply Forall_app. split; [easy|]. apply Forall_forall. intros v Hv. apply X; [now left|easy].
Qed.

(** [schedule] on a sorted list, when the new message is good: where it goes. *)
Lemma insert_sorted l m : Forall good l -> good m -> StronglySorted earlier l ->
  exists a b, l = a ++ b /\ schedule_position l (time m) (length l) = length a /\
    StronglySorted earlier (a ++ m :: b) /\
    (forall x, In x a -> (us x < us m)%Z) /\ (forall x, In x b -> (us m <= us x)%Z).
Proof.
  intros G [Wm _] S. destruct (position_split l (time m)) as (a & b & -> & P & F & L).
  exists a, b. apply Forall_app in G as [Ga Gb]. apply sorted_app in S as (Sa & Sb & X).
  assert (forall x, In x b -> (us m <= us x)%Z) as B.
  { intros x Hx. rewrite Forall_forall in F, Gb. specialize (F x Hx). destruct (Gb x Hx) as [Wx _].
    rewrite lt_spec in F by easy. lia. }
  assert (forall x, In x a -> (us x < us m)%Z) as A.
  { destruct L as [->|(a' & y & -> & Ly)]; [easy|]. apply Forall_app in Ga as [_ Gy].
    apply Forall_inv in Gy as [Wy _]. rewrite lt_spec in Ly by easy. apply sorted_app in Sa as (_ & _ & Y).
    intros x [Hx|[<-|[]]]%in_app_iff; [|lia]. specialize (Y x y Hx (or_introl eq_refl)). unfold earlier in Y. lia. }
  repeat split; auto. apply sorted_app. repeat split; [easy| |].
  - constructor; [easy|]. apply Forall_forall. intros x Hx. now apply B.
  - intros x y Hx [<-|Hy]; [unfold earlier; specialize (A x Hx); lia|now apply X].
Qed.

Lemma sorted_filter p l : StronglySorted earlier l -> StronglySorted earlier (filter p l).
Proof.
  induction 1 as [|x l S IH F]; cbn [filter]; [constructor|]. destruct (p x); [|easy]. constructor; [easy|].
  apply Forall_forall. intros y [Hy _]%filter_In. rewrite Forall_forall in F. now apply F.
Qed.

Lemma clip_good t g : wf t -> good (mkMessage (if time_gt t ZERO then t else ZERO) g).
Proof.
  intros W. unfold time_gt. rewrite lt_spec by (try easy; unfold wf, ZERO, USEC_MAX; cbn; lia).
  destruct (Z.ltb_spec (microseconds ZERO) (microseconds t)) as [H|H]; unfold good; cbn [time].
  - split; [easy|]. unfold ZERO, microseconds, USEC_MAX in *. cbn in H. lia.
  - unfold wf, ZERO, microseconds, USEC_MAX. cbn. lia.
Qed.

Definition message_eq_dec (a b : TimedMessage) : {a = b} + {a <> b}.
Proof. repeat decide equality. Defined.

Section Invariants.
Variable delivery_time_adjustment_ : bool.

Abbreviation adjusted_ := (adjusted delivery_time_adjustment_).
Abbreviation exec_ := (exec delivery_time_adjustment_).
Abbreviation reach := (planner_reachable delivery_time_adjustment_).
Abbreviation occ m l := (count_occ message_eq_dec l m).

Definition due (shift now : Time) (m : TimedMessage) : bool := time_le (adjusted_ shift (time m)) now.

Lemma adjusted_wf s t : wf s -> wf t -> wf (adjusted_ s t).
Proof.
  intros Hs Ht. unfold adjusted. destruct delivery_time_adjustment_; [|easy].
  destruct (time_gt t s); [now apply time_sub_spec|]. unfold wf, ZERO, USEC_MAX. cbn. lia.
Qed.

Lemma adjusted_mono s a b : wf s -> wf a -> wf b -> (microseconds a <= microseconds b)%Z ->
  (microseconds (adjusted_ s a) <= microseconds (adjusted_ s b))%Z.
Proof.
  intros Hs Ha Hb L. unfold adjusted. destruct delivery_time_adjustment_; [|easy]. unfold time_gt.
  rewrite !lt_spec by easy. pose proof (time_sub_spec a s Ha Hs) as [_ Ea].
  pose proof (time_sub_spec b s Hb Hs) as [_ Eb].
  destruct (Z.ltb_spec (microseconds s) (microseconds a)), (Z.ltb_spec (microseconds s) (microseconds b));
    rewrite ?Ea, ?Eb; change (microseconds ZERO) with 0%Z; lia.
Qed.

(** What is not due comes after what is. *)
Lemma due_earlier s now a b : wf s -> wf now -> good a -> good b -> earlier a b ->
  due s now b = true -> due s now a = true.
Proof.
  intros Hs Hn [Wa _] [Wb _] E. unfold due. rewrite !le_spec by (try easy; now apply adjusted_wf).
  pose proof (adjusted_mono s _ _ Hs Wa Wb E). lia.
Qed.

Lemma filter_none {A} (p : A -> bool) l : (forall x, In x l -> p x = false) -> filter p l = [].
Proof.
  induction l as [|x l IH]; [easy|]. intros H. cbn [filter]. rewrite (H x) by now left.
  apply IH. intros y Hy. apply H. now right.
Qed.

Lemma filter_all {A} (p : A -> bool) l : (forall x, In x l -> p x = true) -> filter p l = l.
Proof.
  induction l as [|x l IH]; [easy|]. intros H. cbn [filter]. rewrite (H x) by now left.
  f_equal. apply IH. intros y Hy. apply H. now right.
Qed.

(** svc 1 takes what is due and keeps the rest; the deadline is the first
    of the rest. *)
Lemma pump_spec s now l : wf s -> wf now -> Forall good l -> StronglySorted earlier l ->
  pump delivery_time_adjustment_ s now l =
  (filter (due s now) l, filter (fun m => negb (due s now m)) l,
   match filter (fun m => negb (due s now m)) l with [] => None | m :: _ => Some (adjusted_ s (time m)) end).
Proof.
  intros Hs Hn G S. induction S as [|x l S IH F]; [easy|]. apply Forall_cons_iff in G as [Gx Gl].
  cbn [pump filter]. fold (due s now x). destruct (due s now x) eqn:D; cbn [negb].
  - now rewrite IH.
  - assert (forall y, In y l -> due s now y = false) as N.
    { intros y Hy. rewrite Forall_forall in F, Gl. destruct (due s now y) eqn:Dy; [|easy].
      now rewrite (due_earlier s now x y) in D by auto. }
    rewrite filter_none by easy. rewrite filter_all; [easy|]. intros y Hy. now rewrite N.
Qed.

(** The deadline a waiting thread has is before every message. *)
Definition covers (deadline : option Time) (shift : Time) (messages : list TimedMessage) : Prop :=
  forall m, In m messages -> exists d, deadline = Some d /\ wf d /\
    (microseconds d <= microseconds (adjusted_ shift (time m)))%Z.

Definition timely (d : delivery) : Prop := time_le (adjusted_ (shift d) (time (message d))) (cur_time d) = true.

Definition list_inv (s : planner) : Prop :=
  Forall good (messages_ s) /\ StronglySorted earlier (messages_ s) /\ wf (delivery_time_shift_ s) /\
  match pc s with PPumped (Some d) | PWaiting (Some d) => wf d | _ => True end.

Definition history_inv (s : planner) : Prop :=
  (match pc s with PDeliver => True | _ => pending s = [] end) /\
  (forall m, occ m (scheduled s) = occ m (messages_ s) + occ m (map message (pending s)) +
     occ m (map message (delivered s)) + occ m (removed s)) /\
  Forall timely (delivered s ++ pending s).

Definition wake_inv (s : planner) : Prop :=
  (terminating_ s = true -> have_new_events_ s = true) /\
  match pc s with
  | PPumped deadline => have_new_events_ s = true \/ covers deadline (delivery_time_shift_ s) (messages_ s)
  | PWaiting deadline =>
      (have_new_events_ s = true -> signalled s = true \/ 0 < signallers s) /\
      (terminating_ s = true -> signalled s = true) /\
      (have_new_events_ s = true \/ covers deadline (delivery_time_shift_ s) (messages_ s))
  | _ => True
  end.

Lemma half_wf a b : wf a -> wf b -> wf (time_div (time_sub a b) 2).
Proof. intros Ha Hb. apply time_div_spec; [now apply time_sub_spec|lia]. Qed.

Lemma pumped_covers s now l : wf s -> Forall good l -> StronglySorted earlier l ->
  let stay := filter (fun m => negb (due s now m)) l in
  covers (match stay with [] => None | x :: _ => Some (adjusted_ s (time x)) end) s stay.
Proof.
  intros Hs G S stay m Hm. pose proof (sorted_filter (fun m => negb (due s now m)) l S) as S'.
  assert (forall x, In x stay -> wf (time x)) as W.
  { intros x [Hx _]%filter_In. rewrite Forall_forall in G. now apply G. }
  fold stay in S'. destruct stay as [|x rest]; [easy|]. exists (adjusted_ s (time x)). split; [easy|].
  apply StronglySorted_inv in S' as [_ F]. rewrite Forall_forall in F.
  split; [apply adjusted_wf; auto; apply W; now left|]. destruct Hm as [<-|Hm]; [lia|].
  apply adjusted_mono; auto; [apply W; now left|apply W; now right|now apply F].
Qed.

(** The planner's actions, with the branch each takes. *)
Ltac planner_cases E :=
  unfold exec, schedule_signal, unschedule, clear, terminate, start, svc1, svc2, wake, svc3, woken, set_pc in E;
  repeat match type of E with
  | context [match ?x with _ => _ end] =>
      lazymatch x with
      | context [match _ with _ => _ end] => fail
      | _ => destruct x eqn:?
      end
  end; try discriminate E; injection E as E; match type of E with _ = ?x => subst x end;
  cbn [fst snd messages_ have_new_events_ terminating_ delivery_time_shift_ pc pending signalled signallers
       scheduled removed delivered is_waiting] in *.

Ltac planner_fields :=
  cbn [fst snd messages_ have_new_events_ terminating_ delivery_time_shift_ pc pending signalled signallers
       scheduled removed delivered] in *.

(** [schedule] inserts the message and raises the flag when it comes first. *)
Lemma schedule_inv g t s : wf t -> list_inv s ->
  exists a b, let m := mkMessage (if time_gt t ZERO then t else ZERO) g in
    messages_ s = a ++ b /\ messages_ (fst (schedule (Some g) t s)) = a ++ m :: b /\
    good m /\ StronglySorted earlier (a ++ m :: b) /\
    have_new_events_ (fst (schedule (Some g) t s)) = match a with [] => true | _ => have_new_events_ s end /\
    signallers (fst (schedule (Some g) t s)) = match a with [] => S (signallers s) | _ => signallers s end /\
    (forall x, In x a -> (us x < us m)%Z) /\ (forall x, In x b -> (us m <= us x)%Z).
Proof.
  intros W (G & S & _). destruct (insert_sorted (messages_ s) _ G (clip_good t g W) S) as (a & b & E & P & S' & A & B).
  exists a, b. unfold schedule. cbn [fst messages_ have_new_events_ signallers time] in *. rewrite P.
  rewrite E at 2 3. rewrite firstn_app, firstn_all, skipn_app, skipn_all, Nat.sub_diag, app_nil_r. cbn [app firstn skipn].
  pose proof (clip_good t g W). destruct a; split; auto; split; auto; split; auto; repeat split; auto.
Qed.

Lemma filter_good p l : Forall good l -> Forall good (filter p l).
Proof. rewrite !Forall_forall. intros G x [Hx _]%filter_In. now apply G. Qed.

Lemma first_wf shift l : wf shift -> Forall good l ->
  match match l with [] => None | m :: _ => Some (adjusted_ shift (time m)) end with Some d => wf d | None => True end.
Proof. intros Hs G. destruct G as [|m l [W _] _]; [easy|]. now apply adjusted_wf. Qed.

Lemma list_exec a s s' : list_inv s -> action_wf a -> exec_ a s = Some s' -> list_inv s'.
Proof.
  intros H W E. destruct a as [[g|] t| |g| | | |now|now|ret now|]; cbn [action_wf] in W.
  1:{ assert (s' = fst (schedule (Some g) t s)) as -> by (now injection E).
      destruct (schedule_inv g t s W H) as (a & b & Em & Es & Gm & S & _).
      destruct H as (G & _ & Hs). rewrite Em in G. apply Forall_app in G as [Ga Gb].
      unfold list_inv. rewrite Es. split; [|split; [easy|exact Hs]]. apply Forall_app. split; [easy|]. now constructor. }
  7:{ destruct H as (G & S & Hs & _). cbn in E. unfold svc1 in E. destruct (pc s); try discriminate.
      destruct (terminating_ s); [now injection E as <-|]. rewrite (pump_spec _ _ _ Hs W G S) in E.
      injection E as <-. split; [now apply filter_good|]. split; [now apply sorted_filter|]. split; [easy|]. cbn.
      destruct (filter _ (messages_ s)); [|easy]. apply first_wf; [easy|now apply filter_good]. }
  all: planner_cases E; try exact H; destruct H as (G & S & Hs & D); (split; [|split; [|split]]); planner_fields; auto.
  all: try (now apply sorted_filter); try (now apply filter_good); try constructor.
  all: rewrite ?Heqp in D; try (now apply half_wf); auto.
Qed.

Lemma occ_filter p m l : occ m (filter p l) + occ m (filter (fun x => negb (p x)) l) = occ m l.
Proof. induction l as [|x l IH]; [easy|]. cbn [filter]. destruct (p x); cbn; destruct (message_eq_dec x m); lia. Qed.

Lemma due_timely shift now l :
  Forall timely (map (fun m => mkDelivery m now shift) (filter (due shift now) l)).
Proof. apply Forall_forall. intros d (m & <- & [_ D]%filter_In)%in_map_iff. exact D. Qed.

(** svc 1 on a good state: the messages due become pending, in their order. *)
Lemma svc1_state now s : list_inv s -> wf now -> pc s = PTop -> terminating_ s = false ->
  let overdue := filter (due (delivery_time_shift_ s) now) (messages_ s) in
  let stay := filter (fun m => negb (due (delivery_time_shift_ s) now m)) (messages_ s) in
  svc1 delivery_time_adjustment_ now s =
  Some (mkPlanner stay (have_new_events_ s) false (delivery_time_shift_ s)
    (match overdue with
     | [] => PPumped (match stay with [] => None | m :: _ => Some (adjusted_ (delivery_time_shift_ s) (time m)) end)
     | _ => PDeliver
     end)
    (map (fun m => mkDelivery m now (delivery_time_shift_ s)) overdue)
    false (signallers s) (scheduled s) (removed s) (delivered s)).
Proof.
  intros (G & S & Hs & _) W P T. unfold svc1. rewrite P, T, pump_spec by easy. reflexivity.
Qed.

Lemma delivery_exec a s s' :
  list_inv s -> history_inv s -> action_wf a -> exec_ a s = Some s' -> history_inv s'.
Proof.
  intros LI H W E. destruct a as [[g|] t| |g| | | |now|now|ret now|]; cbn [action_wf] in W.
  1:{ destruct (schedule_inv g t s W LI) as (a & b & Em & Es & _). assert (s' = fst (schedule (Some g) t s)) as -> by (now injection E).
      destruct H as (P & O & T). split; [exact P|]. split; [|exact T]. intros m. specialize (O m). rewrite Es.
      rewrite Em in O. cbn [scheduled removed pending delivered schedule fst]. rewrite count_occ_app in *. cbn [count_occ].
      destruct (message_eq_dec _ m); lia. }
  7:{ destruct H as (P & O & T). cbn [exec] in E. destruct (pc s) eqn:C; try (unfold svc1 in E; rewrite C in E; discriminate).
      destruct (terminating_ s) eqn:K.
      - unfold svc1 in E. rewrite C, K in E. injection E as <-. now repeat split.
      - rewrite svc1_state in E by easy. injection E as <-. unfold history_inv. planner_fields.
        rewrite P, app_nil_r in *. split; [now destruct (filter (due _ _) _)|]. split.
        + intros m. specialize (O m). rewrite map_map, map_id.
          pose proof (occ_filter (due (delivery_time_shift_ s) now) m (messages_ s)). cbn in O. lia.
        + apply Forall_app. split; [easy|]. apply due_timely. }
  all: planner_cases E; try exact H; destruct H as (P & O & T); rewrite ?Heqp in P; (split; [|split]);
    planner_fields; rewrite ?Heqp; auto.
  all: try (intros m; specialize (O m); try pose proof (occ_filter (is_goal g) m (messages_ s)); rewrite ?Heql, ?count_occ_app, ?map_app in *;
    rewrite ?count_occ_app; cbn [map count_occ] in *; try destruct (message_eq_dec _ m); lia).
  - intros m. now rewrite O, P.
  - now rewrite <- P.
  - rewrite <- app_assoc. now rewrite Heql in T.
  - rewrite <- app_assoc. now rewrite Heql in T.
Qed.

Lemma covers_insert deadline shift a b m0 :
  wf shift -> Forall good (a ++ b) -> good m0 -> a <> [] -> (forall x, In x a -> (us x < us m0)%Z) ->
  covers deadline shift (a ++ b) -> covers deadline shift (a ++ m0 :: b).
Proof.
  intros Hs G [Wm _] N A C m Hm.
  apply in_app_iff in Hm as [Hm|[<-|Hm]]; [apply C; auto with datatypes| |apply C; auto with datatypes].
  destruct a as [|x a]; [easy|]. destruct (C x (or_introl eq_refl)) as (d & -> & Wd & L).
  exists d. split; [easy|]. split; [easy|]. apply Forall_inv in G as [Wx _].
  specialize (A x (or_introl eq_refl)). pose proof (adjusted_mono shift (time x) (time m0) Hs Wx Wm). lia.
Qed.

Lemma wake_schedule g t s : wf t -> list_inv s -> wake_inv s -> wake_inv (fst (schedule (Some g) t s)).
Proof.
  intros W LI [HT H]. destruct (schedule_inv g t s W LI) as (a & b & Em & Es & Gm & _ & F & Q & A & _).
  destruct LI as (G & _ & Hs & _). rewrite Em in G, H.
  pose proof (fun d N => covers_insert d _ a b _ Hs G Gm N A) as K. unfold wake_inv. rewrite Es, F, Q.
  change (terminating_ (fst (schedule (Some g) t s))) with (terminating_ s).
  change (pc (fst (schedule (Some g) t s))) with (pc s).
  change (delivery_time_shift_ (fst (schedule (Some g) t s))) with (delivery_time_shift_ s).
  change (signalled (fst (schedule (Some g) t s))) with (signalled s).
  destruct a as [|x a].
  - split; [easy|]. destruct (pc s); auto. repeat split; auto; [intros; right; lia|apply H].
  - specialize (fun d => K d (fun E => match nil_cons (eq_sym E) with end)). split; [easy|].
    destruct (pc s); auto; intuition.
Qed.

Lemma covers_incl deadline shift l l' : incl l' l -> covers deadline shift l -> covers deadline shift l'.
Proof. intros I C m Hm. apply C. now apply I. Qed.

Lemma incl_filter_messages (p : TimedMessage -> bool) l : incl (filter p l) l.
Proof. intros x [Hx _]%filter_In. exact Hx. Qed.

Lemma wake_exec a s s' : list_inv s -> wake_inv s -> action_wf a -> exec_ a s = Some s' -> wake_inv s'.
Proof.
  intros LI H W E. destruct a as [[g|] t| |g| | | |now|now|ret now|]; cbn [action_wf] in W.
  1:{ assert (s' = fst (schedule (Some g) t s)) as -> by (now injection E). now apply wake_schedule. }
  7:{ cbn [exec] in E. destruct (pc s) eqn:C; try (unfold svc1 in E; rewrite C in E; discriminate).
      destruct (terminating_ s) eqn:K.
      - unfold svc1 in E. rewrite C, K in E. injection E as <-. split; [apply H|exact I].
      - rewrite svc1_state in E by easy. injection E as <-. split; [easy|]. planner_fields.
        destruct (filter (due _ _) _); [|easy]. right. destruct LI as (G & S & Hs & _).
        exact (pumped_covers _ now _ Hs G S). }
  all: planner_cases E; try exact H; unfold wake_inv in *; planner_fields; rewrite ?Heqp in *; auto.
  all: destruct H as [HT H]; try congruence; unfold is_waiting; destruct (pc s) eqn:C; try discriminate;
    rewrite ?orb_true_r; repeat split; try tauto; try congruence; try (apply HT; congruence);
    try (intros HX; specialize (HT HX); congruence);
    intuition eauto using covers_incl, incl_filter_messages, incl_nil_l; congruence.
Qed.

Lemma planner_invariant s : reach s -> list_inv s /\ history_inv s /\ wake_inv s.
Proof.
  induction 1 as [|a s s' R (L & H & K) W E].
  - repeat split; try constructor; easy.
  - split; [now apply (list_exec a s)|]. split; [now apply (delivery_exec a s)|now apply (wake_exec a s)].
Qed.

(** C38: what the planner delivers, in every interleaving.  The messages stay
    sorted by time; each message scheduled is, exactly once, still queued,
    taken for delivery, delivered, or removed by [unschedule] or [clear]; none
    is taken before it is due by the clock and the shift read then; and each
    pass of the loop takes, in their order, all the messages that are due and
    no other. *)
Theorem planner_delivery s : reach s ->
  StronglySorted earlier (messages_ s) /\
  Permutation (scheduled s) (messages_ s ++ map message (pending s) ++ map message (delivered s) ++ removed s) /\
  Forall timely (delivered s ++ pending s) /\
  (forall now, wf now -> pc s = PTop -> terminating_ s = false -> exists s',
     svc1 delivery_time_adjustment_ now s = Some s' /\
     map message (pending s') = filter (due (delivery_time_shift_ s) now) (messages_ s) /\
     messages_ s' = filter (fun m => negb (due (delivery_time_shift_ s) now m)) (messages_ s)).
Proof.
  intros R. destruct (planner_invariant s R) as (L & (P & O & T) & _). split; [apply L|]. split; [|split; [easy|]].
  - apply (Permutation_count_occ message_eq_dec). intros m. rewrite O, !count_occ_app. lia.
  - intros now W C K. rewrite svc1_state by easy. eexists. split; [reflexivity|]. split; [|reflexivity].
    cbn [pending]. now rewrite map_map, map_id.
Qed.

(** C37: the planner never sleeps past a message.  While the working thread waits
    with no signal sent or on its way, the planner is not being stopped, with or
    without messages, and the wait has a deadline no later than the moment each
    message is due: neither [schedule] nor [terminate] loses its wake-up,
    whichever way they interleave with the thread's own steps. *)
Theorem planner_wakes deadline s :
  planner_reachable delivery_time_adjustment_ s -> pc s = PWaiting deadline -> signalled s = false -> signallers s = 0 ->
  terminating_ s = false /\
  forall m, In m (messages_ s) -> exists d, deadline = Some d /\
    time_le d (adjusted delivery_time_adjustment_ (delivery_time_shift_ s) (time m)) = true.
Proof.
  intros R C N Z. destruct (planner_invariant s R) as ((G & _ & Hs & _) & _ & (HT & K)). rewrite C, N, Z in K.
  destruct K as (K1 & K2 & K3). split.
  - destruct (terminating_ s); [discriminate (K2 eq_refl)|easy].
  - intros m Hm. destruct K3 as [K3|K3]; [destruct (K1 K3); [easy|lia]|]. destruct (K3 m Hm) as (d & -> & Wd & Ld).
    exists d. split; [easy|]. rewrite Forall_forall in G. destruct (G m Hm) as [Wm _].
    rewrite le_spec by (try easy; now apply adjusted_wf). lia.
Qed.
End Invariants.

(** ** Concrete runs *)

Fixpoint planner_run (adjust : bool) (actions : list action) (s : planner) : option planner :=
  match actions with
  | [] => Some s
  | a :: rest => match exec adjust a s with Some s' => planner_run adjust rest s' | None => None end
  end.

Lemma planner_run_reach adjust actions s s' :
  Forall action_wf actions -> planner_reachable adjust s -> planner_run adjust actions s = Some s' ->
  planner_reachable adjust s'.
Proof.
  intros F. revert s. induction F as [|a rest Fa F IH]; intros s R E; cbn in E; [now injection E as <-|].
  destruct (exec adjust a s) as [s1|] eqn:Ea; [|discriminate]. apply (IH s1); [|easy].
  now apply (planner_step adjust a s s1).
Qed.

Definition sec (n : Z) : Time := mkTime n 0.

Lemma sec_wf n : wf (sec n).
Proof. unfold wf, sec, USEC_MAX. cbn. lia. Qed.

(** Two messages, for second 10 and second 3; at second 5 the second one is
    delivered and the thread waits for the first. *)
Definition two_messages : list action :=
  [Schedule (Some 1) (sec 10); ScheduleSignal; Schedule (Some 2) (sec 3); ScheduleSignal; Start; Svc1 (sec 5)].

Definition sleeping : list action :=
  two_messages ++ [Svc3; Svc1 (sec 5); Svc2 (sec 5); Svc1 (sec 5); Svc2 (sec 5)].

Definition planner_after (actions : list action) : planner :=
  match planner_run false actions planner_new with Some s => s | None => planner_new end.

Lemma sleeping_reach : planner_reachable false (planner_after sleeping).
Proof.
  unfold planner_after. destruct (planner_run false sleeping planner_new) eqn:E; [|constructor].
  eapply planner_run_reach; [|constructor|exact E]. repeat constructor; cbn; lia.
Qed.

Lemma planner_delivery_witness :
  map message (delivered (planner_after sleeping)) = [mkMessage (sec 3) 2] /\
  messages_ (planner_after sleeping) = [mkMessage (sec 10) 1] /\
  Permutation (scheduled (planner_after sleeping)) [mkMessage (sec 10) 1; mkMessage (sec 3) 2].
Proof.
  split; [vm_compute; reflexivity|]. split; [vm_compute; reflexivity|].
  exact (proj1 (proj2 (planner_delivery false (planner_after sleeping) sleeping_reach))).
Defined.

Definition idle_planner : planner := planner_after [Start; Svc1 (sec 1); Svc2 (sec 1)].

Lemma idle_reach : planner_reachable false idle_planner.
Proof.
  unfold idle_planner, planner_after. destruct (planner_run false _ planner_new) as [s|] eqn:E; [|constructor].
  eapply planner_run_reach; [|constructor|exact E]. repeat constructor; cbn; lia.
Qed.

(** With a message to wait for, and with none. *)
Lemma planner_wakes_witness :
  (terminating_ (planner_after sleeping) = false /\ exists d, Some (sec 10) = Some d /\ time_le d (sec 10) = true) /\
  terminating_ idle_planner = false.
Proof.
  split.
  - destruct (planner_wakes false (Some (sec 10)) (planner_after sleeping) sleeping_reach) as [H1 H2]; try (vm_compute; auto; fail).
    split; [exact H1|]. apply (H2 (mkMessage (sec 10) 1)). vm_compute. auto.
  - apply (planner_wakes false None idle_planner idle_reach); vm_compute; auto.
Defined.

(** Messages of one time are delivered last scheduled first. *)
Example equal_times_reversed :
  let s := planner_after [Schedule (Some 1) (sec 3); Schedule (Some 2) (sec 3); Start; Svc1 (sec 5); Svc3; Svc3] in
  map (fun d => goal (message d)) (delivered s) = [2; 1].
Proof. reflexivity. Qed.
